(* ===== verification/_CoqProject ===== *)
-Q . S2P
Prelude.v
GoStrings.v
GoHttp.v
Subscriptions.v
JsonStream.v
Protocol.v
HashIds.v
Errors.v
Responses.v
Specs.v
SpecLoading.v
Heads.v
WsRegistry.v
Methods.v
UpstreamState.v
Upstream.v
Matchers.v
GrpcSelectors.v
UpstreamLife.v
Strategy.v
Balancing.v
RateLimiter.v
RedisLimiter.v
Float64.v
AutoTune.v
ForkChoice.v
BlockTracker.v
SubEngine.v
ChainState.v
ChainSupervisor.v
StatusStream.v
ChainHead.v
ChainMirror.v
LowerBoundSearch.v
LowerBounds.v
PathMatcher.v
SelectorKeys.v
Config.v
Chains.v
EvmBounds.v
EvmMethods.v
ClientIp.v
Cache.v
AppConfig.v
GrpcAuth.v
Quorum.v
ReplySigning.v
EthValidators.v
UpstreamFactory.v
Hedge.v
Retry.v
BatchStream.v
Requests.v
HttpConnector.v
WsProcessor.v
Caps.v
Access.v
MethodTranslation.v
Send.v
HttpServer.v
WsServer.v
NativeCall.v
NativeSubscribe.v
StatsService.v
Dispatch.v
Processors.v
Flow.v
LogFilters.v
LocalSources.v
SubAggregation.v
PendingTx.v
FlowSpecs.v
ServerFlow.v
