(* ===== verification/Prelude.v ===== *)
(** * A verification development for nodecore

    Nodecore is a gateway and load balancer for blockchain nodes.  A client's
    request is authenticated, turned into an execution flow, and sent to one or
    more of the upstream nodes of its chain; background loops keep a picture of
    every upstream up to date.  The parts of the program, and how they interact:

    - configuration files and method specs are read, filled with defaults and
      validated once, at the start ([internal/config], [pkg/chains],
      [pkg/methods]);
    - every upstream runs detectors and validators of its node (health, settings,
      head, labels, methods, lower bounds, capabilities) and an event loop
      ([internal/upstreams/upstream_events.go]) that folds their reports into its
      state and publishes the state;
    - the supervisor of a chain ([internal/upstreams/chain_supervisor.go])
      receives the published states, keeps a copy per upstream, aggregates them,
      chooses the chain's head by fork choice, and tells upstreams how far their
      head lags;
    - a client's call enters over HTTP ([internal/server/http_server]) or gRPC
      ([internal/server/emerald]), is authenticated ([internal/auth],
      [internal/key_management]) and becomes requests;
    - the execution flow ([internal/upstreams/flow]) gives every request a
      processor (unary, sticky, integrity, cached, local, dispatched to several
      upstreams, subscription) and a strategy, whose filter runs matchers over the
      supervisor's copies and asks the rate limiters of the upstream
      ([internal/ratelimiter]);
    - around the attempts are the policies of [internal/resilience] (hedging,
      retries), the response cache ([internal/caches]) and the check of quorum
      signatures ([internal/quorum]);
    - a connector ([internal/upstreams/connectors], [internal/upstreams/ws]) takes
      the request to the node and makes a response of the answer;
    - subscriptions of many clients share one source of events
      ([flow/subengine], [flow/sub_aggregation.go]), a subscription of a node or
      one the chain makes itself of its heads, logs or pending transactions;
    - results are counted and handed over in the background ([internal/stats]).

    ** Files and the code they model

    Shared.
    - [Prelude]: tactics, the hint database [nodecore], integers of machine width
      ([u64], [i64]), the order in which Go ranges over a map (class [MapRange]: any
      order, a parameter of every definition that ranges), least elements and
      stable sorting.  [GoStrings]: the functions of [strings], [strconv] and
      [encoding/hex].  [GoHttp]: headers of [net/http].  [Float64]: Go's [float64]
      as IEEE binary64.
    - [Protocol], [Errors], [Responses], [Requests] ([internal/protocol]): value
      types; errors and their codes; responses and how they are parsed and
      encoded; requests, their hashes, and their parameters as a method's parser
      ([Parse], [Modify] of [pkg/methods/method.go]) reads and rewrites them.  [JsonStream]: the streaming of
      a JSON result in chunks.  [HashIds] ([pkg/blockchain]): ids of blocks.
      [Subscriptions] ([pkg/utils/subscriptions.go]): named subscriptions with
      replay.  [PathMatcher] ([pkg/utils/path.go]): the trie of REST templates.
      [ClientIp] ([pkg/utils/context.go]): the address of a client behind proxies.

    Configuration.
    - [Specs], [SpecLoading] ([pkg/methods]): method groups, views by connectors and
      lookups; the loading of spec files with imports and merging.  [Config],
      [AppConfig] ([internal/config]): defaults and validation of the upstreams and
      of everything else, and the registries of storages and of budgets that are made
      of it when the program starts ([internal/storages], [budget_registry.go]).  [Chains] ([pkg/chains]): the registry of chains.

    Upstreams.
    - [UpstreamState], [Upstream], [UpstreamLife] ([internal/upstreams]): the state
      record with the state events; one iteration of [processStateEvents] is
      [processStateEvent], the channel into the loop is a list, the writers of it
      are the other steps of the relation [up_step]; starting, stopping and the
      reaction to the validation of settings.  [UpstreamFactory] ([upstream_factory.go],
      [upstream_processors.go], [chains_specific]): an upstream from its configuration,
      with the parts each type of chain gives it.
    - [Methods], [EvmMethods] ([internal/upstreams/methods]): the methods of an
      upstream and of a chain (the interface [Methods] of the code is the class
      [MethodsI] with the laws [MethodsLaws]), the processor of the detectors, and
      the two detectors of an EVM node.  [EthValidators]
      ([validations/eth_validations]): the validators of an EVM node.  [Heads]
      ([blocks]): the loops of heads and of finalized and safe blocks.  [Caps]
      ([caps]): the detectors of capabilities.
    - [LowerBoundSearch], [LowerBounds], [EvmBounds] ([lower_bounds]): the search for
      the lowest height with data, the bounds that are published and predicted, the
      probes and the report of an EVM node.
    - [WsRegistry], [WsProcessor] ([internal/upstreams/ws]) and [HttpConnector]
      ([connectors]): connections to nodes.
    - [ForkChoice], [ChainState], [ChainSupervisor]: the loop of the chain,
      [processEvent] per event.  [ChainHead] has the theorems on the head, the lags
      and the selection view, [ChainMirror] connects the loop of an upstream to the
      loop of its chain.

    Requests.
    - [Matchers], [Strategy] ([flow/matchers.go], [selectors.go], [match_trace.go],
      [strategy.go], [label_group_strategy.go]): matchers, selectors and their
      compilation, the filter and the strategies; the limiters are an interface with
      a state (class [Limiters]).  [Balancing] proves how the strategies distribute
      requests.  [SelectorKeys]: the node-class key of selectors.
    - [RateLimiter], [RedisLimiter], [AutoTune] ([internal/ratelimiter]).
    - [Cache] ([internal/caches]), [Quorum] ([internal/quorum]), [Hedge] and [Retry]
      ([internal/resilience]).
    - [MethodTranslation], [Send], [Processors], [Dispatch], [Flow]
      ([internal/upstreams/flow]): from a request to its answer.  [FlowSpecs] states
      what sticky and integrity requests promise; [ServerFlow] puts the server on
      the flow and the flow on the connectors, by discharging the classes through
      which each part sees the next ([Net], [Execution]).
    - [BlockTracker], [SubEngine], [LogFilters], [LocalSources], [PendingTx],
      [SubAggregation] ([flow/subengine], [flow]): sources of subscriptions and their
      sharing.

    Front ends.
    - [Access] ([internal/auth], [internal/key_management], [internal/integration]):
      authentication and keys.  [HttpServer], [BatchStream], [WsServer]
      ([internal/server/http_server]).
    - [GrpcAuth], [GrpcSelectors], [StatusStream], [NativeCall], [NativeSubscribe],
      [ReplySigning] ([internal/server/emerald], [internal/signature]): sessions,
      selectors, the status of chains, calls, subscriptions and signatures.
      [StatsService] ([internal/stats], [internal/outbox]): statistics.

    ** What the theorems show

    - Selection ([Matchers], [Strategy], [Balancing], [GrpcSelectors]).  No upstream
      is handed out twice for a request, in any interleaving of concurrent
      selections; what is returned is known, available, supports the method and
      passes the selectors; when the limiters allow, the first eligible upstream is
      returned, and otherwise the error says why; compiled selectors mean what the
      selectors say, also those of gRPC messages; round robin is fair; label groups
      are tried in order.
    - State ([Upstream], [UpstreamLife], [ChainSupervisor], [ChainHead],
      [ChainMirror], [ForkChoice], [Heads], [StatusStream]).  A chain holds exactly
      what its upstreams published; its aggregate state is the declarative summary
      [aggregates] of what it holds; the merged head is the highest live head; the
      status and the methods of a valid upstream are determined by its latest
      reports; invalid settings take an upstream out and valid ones bring it back;
      a client of the status stream knows the state of the chain.
    - What nodes serve ([Methods], [EvmMethods], [EthValidators], [Caps],
      [LowerBoundSearch], [LowerBounds], [EvmBounds]).  The methods of a chain are
      the union of the methods of its upstreams; detection publishes exactly what the
      last conclusive answers of the node say; a node is valid only if it is one of
      its chain; a subscription capability is asserted while the head advances; the
      search of bounds ends on every node whose head is not the largest 64-bit number,
      and never reports a height without data; published bounds advance.
    - Connections ([HttpConnector], [WsRegistry], [WsProcessor]).  The headers of
      the operator and of the client do not mix; every request over a websocket gets
      answers that are its own; a subscription is ended only when nobody uses it;
      one connection is read at a time.
    - Limits ([RateLimiter], [AutoTune], [RedisLimiter]).  The in-memory engine
      bounds the requests in any window of time; a budget decides by its matching
      rules; the tuned limit stays well formed.
    - Requests ([Quorum], [Hedge], [Retry], [Cache], [Dispatch], [Flow], [FlowSpecs],
      [ServerFlow]).  A quorum read ends in an error or an attested response; the
      hedge policy always returns; retries are bounded and return the right response;
      the cache serves only what was stored for the request; answers of several
      upstreams are merged independently of their order; an object a sticky request
      created is only asked for at the upstream that created it; the flow answers a request under its own id.
    - Subscriptions ([Subscriptions], [SubEngine], [BlockTracker], [LocalSources],
      [LogFilters], [PendingTx], [SubAggregation]).  A subscriber sees the events of
      its source without gaps until it detaches or is closed with a cause; logs of
      dropped blocks are taken back; a client gets exactly the events that match its
      filter.
    - Front ends ([HttpServer], [BatchStream], [WsServer], [ClientIp], [Access], [GrpcAuth],
      [NativeCall], [NativeSubscribe], [ReplySigning], [StatsService], [JsonStream]).
      Only authorized requests are executed; a batch is answered in order; the frames of a websocket
      are the responses to its messages under the client's own ids; a client
      behind proxies cannot choose its address; gRPC calls need a session that a
      token paid for; every item of a call is answered, streamed results are exact,
      signatures bind the reply to the call; every result is counted exactly once.
    - Configuration ([Config], [AppConfig], [Chains], [SpecLoading], [Specs],
      [UpstreamFactory]).  What is accepted is well formed, and what its validated
      references name exists; what the start of the program does with it, which fails
      on a default engine that is no Redis storage and panics on a budget without its
      rules, is characterised; loading specs ends and resolves imports; extra chains
      leave the registry well formed; an upstream is built as its accepted configuration
      describes it, and the three ways the construction can panic are characterised.
    - Behaviour that departs from the intention of the code or its documentation is
      proved as it is, in lemmas of the file of the component (a Redis limiter that
      never resets, a lost unban, replayed quorum signatures, colliding class keys,
      and others).

    ** Parameters

    Code that is not part of the repository is a parameter with its documented
    laws, and every theorem that uses laws has a witness with a concrete instance.
    - The language and the runtime: map iteration order ([MapRange]), unstable
      sorting ([SliceSort]), regular expressions ([Regexp], [Regexps],
      [ErrorPatterns]), globs ([Globs]), case folding ([Folding]), quoting
      ([Quoting]), addresses ([Netip]), URLs and HTTP ([UrlLib], [HttpClient]), hashes
      ([Hashing]).
    - JSON and YAML readers, each with the fields its file reads: [Json], [JsonAst],
      [HttpJson], [GrpcJson], [TranslationJson], [LogJson], [SourceJson], [EvmJson],
      [EthJson], [ModulesJson], [ParamJson], [FirstParam], [ChainYaml]; the values of
      JSON with the jq programs that run on them ([MethodParsers], [JqLaws]), and the loading of specs ([SpecLib], [MergoLaws]).
    - Libraries: the token bucket ([BucketLib], [BucketLaws]), Redis ([RedisLib],
      [RedisLaws]), [lo.Union] ([LoUnion], [LoUnionLaws]), caches ([LruLib],
      [LruLaws], [SeenLru], [SeenLaws]), the policies of failsafe ([BasePolicy],
      [Executor], [ExecutorLaws], [FlowExecutor], [FlowExecutorLaws]), JWT
      ([JwtLib], [GrpcJwt]), signatures ([Crypto], [Signing], [SigningLaws]),
      regression ([Regression]), the formats of the statistics ([StatsLib],
      [StatsLibLaws]), the environment of the configuration ([ConfigEnv], [AppEnv]),
      the clients of the storages ([StorageDrivers]).
    - Tables of configuration ([BlockTags], [ChainTable], [RpcTags]).
    - Interfaces between components, which are classes that other files implement:
      [MethodsI], [Limiters], [RateLimitEngine], [CacheConnector], [ResponseCache],
      [Net], [Chain], [Client], [Execution], [Storer], the connection of a
      detector to its node ([EvmNode]), and the numbers of the upstreams of a chain
      ([NumberedUpstreams]).

    ** Fuel

    Most loops are structural: over lists, over the attempts the configuration or
    the code allows (retries of requests; 30 attempts of a probe of a lower bound;
    3 of a validator, of the report of capabilities and of the fetching of logs),
    or over the rounds of an explicit schedule.  The others have fuel.  The loops of
    the search take [search_fuel], the size of the searched range plus two, as every
    iteration shrinks the range; the resolution of imports takes [enrich_fuel], the
    number of specs plus one, as a longer chain of imports repeats a spec; both have
    theorems that the fuel never runs out.  The scanners of strings take the length of
    the string, of which every iteration consumes a byte.  Loops that run as long as the
    program are step functions or relations, and their theorems hold for every
    sequence of steps.

    ** What is not modelled

    - Logging, metrics and traces that nothing reads, and the delays between steps.
    - Network and storage: dialing, TLS and timeouts of connections, the listeners, the
      health front end, the Redis and Postgres caches, the upload of
      statistics.  Goroutines appear as the steps they take on shared state.
    - The polling and subscribing heads of [blocks/head.go], the observer connector
      and the goroutines that forward the reports of detectors: they pass on what the
      modelled parts take as inputs.
    - For the chains that are not EVM chains, what their validators, labels and bounds
      ask of a node: one package per chain, of the shape of the EVM ones.  Which of them
      an upstream has is modelled ([UpstreamFactory]).
    - The rating of upstreams: a JavaScript function of the operator, over counters and
      quantiles of [internal/dimensions].
    - The panic of [Parse] on an object whose key is no type of result; no query of
      a specification gives one.
    - The making of the client of a node (an argument of [UpstreamFactory]), the
      entry points and generated code. *)

From Stdlib Require Export ZArith Lia.
From Stdlib Require Import String Ascii.
From stdpp Require Export base gmap strings list sorting pretty.

#[global] Open Scope Z_scope.

(** ** Hint databases and tactics of the development *)

Create HintDb nodecore.

(** Turn boolean tests of the code into the propositions they decide. *)
Ltac reflect_bool :=
  repeat match goal with
  | H : (_ =? _)%Z = true |- _ => apply Z.eqb_eq in H
  | H : (_ =? _)%Z = false |- _ => apply Z.eqb_neq in H
  | H : (_ <? _)%Z = true |- _ => apply Z.ltb_lt in H
  | H : (_ <? _)%Z = false |- _ => apply Z.ltb_ge in H
  | H : (_ <=? _)%Z = true |- _ => apply Z.leb_le in H
  | H : (_ <=? _)%Z = false |- _ => apply Z.leb_gt in H
  | H : _ && _ = true |- _ => apply andb_true_iff in H as [? ?]
  | H : _ && _ = false |- _ => apply andb_false_iff in H
  | H : _ || _ = false |- _ => apply orb_false_iff in H as [? ?]
  | H : _ || _ = true |- _ => apply orb_true_iff in H
  | H : negb _ = true |- _ => apply negb_true_iff in H
  | H : negb _ = false |- _ => apply negb_false_iff in H
  | H : bool_decide _ = true |- _ => apply bool_decide_eq_true in H
  | H : bool_decide _ = false |- _ => apply bool_decide_eq_false in H
  end.

(** Case analysis on the innermost test of the goal, keeping its equation. *)
Ltac split_test :=
  match goal with
  | |- context [if ?b then _ else _] =>
      lazymatch b with context [if _ then _ else _] => fail | _ => destruct b eqn:? end
  | |- context [match ?o with Some _ => _ | None => _ end] =>
      lazymatch o with context [match _ with _ => _ end] => fail | _ => destruct o eqn:? end
  end.

Ltac split_tests := repeat (split_test; simplify_eq/=).

(** ** Machine integers

    Go's [uint64], [int64] and [int] (64 bits on the supported targets) are
    integers of [Z] kept in range by an explicit wrap. *)

Definition two63 : Z := 2 ^ 63.
Definition two64 : Z := 2 ^ 64.
Definition u64 (z : Z) : Z := z `mod` two64.
Definition i64 (z : Z) : Z := (z + two63) `mod` two64 - two63.

Definition is_u64 (z : Z) : Prop := 0 <= z < two64.
Definition is_i64 (z : Z) : Prop := - two63 <= z < two63.

Lemma u64_id z : is_u64 z -> u64 z = z.
Proof. intros H. unfold u64. by apply Z.mod_small. Qed.

Lemma u64_range z : is_u64 (u64 z).
Proof. unfold is_u64, u64, two64. apply Z.mod_pos_bound. lia. Qed.

Lemma i64_id z : is_i64 z -> i64 z = z.
Proof.
  unfold is_i64, i64, two64, two63. intros H. rewrite Z.mod_small; lia.
Qed.

Lemma i64_range z : is_i64 (i64 z).
Proof.
  unfold is_i64, i64, two64, two63.
  pose proof (Z.mod_pos_bound (z + 2 ^ 63) (2 ^ 64)). lia.
Qed.

Lemma is_i64_of_small z : 0 <= z < two63 -> is_i64 z.
Proof. unfold is_i64, two63. lia. Qed.

#[export] Hint Resolve u64_range i64_range is_i64_of_small : nodecore.

(** ** Go maps

    Ranging over a Go map visits every entry once, in an order the language
    does not fix.  An operation that ranges over a map takes the order from
    this class, so what is proved of it holds for every order. *)

Class MapRange := {
  range : forall {K V : Type} `{Countable K}, gmap K V -> list (K * V);
  range_perm : forall {K V : Type} `{Countable K} (m : gmap K V),
    range m ≡ₚ map_to_list m;
}.

#[local] Instance default_range : MapRange.
Proof. exists (fun K V _ _ m => map_to_list m). done. Defined.

Section Range.
Context `{MR : MapRange} {K V : Type} `{Countable K}.
Implicit Types m : gmap K V.

Lemma elem_of_range m k v : (k, v) ∈ range m <-> m !! k = Some v.
Proof. rewrite range_perm. apply elem_of_map_to_list. Qed.

Lemma range_empty : range (∅ : gmap K V) = [].
Proof.
  apply Permutation_nil_r. rewrite range_perm. by rewrite map_to_list_empty.
Qed.

Lemma elem_of_range_values m v :
  v ∈ (range m).*2 <-> exists k, m !! k = Some v.
Proof.
  rewrite list_elem_of_fmap. split.
  - intros [[k w] [-> Hin]]. exists k. by apply elem_of_range.
  - intros [k Hk]. exists (k, v). split; [done|]. by apply elem_of_range.
Qed.

Lemma elem_of_range_keys m k : k ∈ (range m).*1 <-> is_Some (m !! k).
Proof.
  rewrite list_elem_of_fmap. split.
  - intros [[k' v] [-> Hin]]. exists v. by apply elem_of_range.
  - intros [v Hk]. exists (k, v). split; [done|]. by apply elem_of_range.
Qed.

Lemma range_NoDup_keys m : NoDup (range m).*1.
Proof. rewrite range_perm. apply NoDup_fst_map_to_list. Qed.

Lemma list_to_map_range m : list_to_map (range m) = m.
Proof.
  rewrite (list_to_map_proper _ (map_to_list m)); [apply list_to_map_to_list|apply range_NoDup_keys|apply range_perm].
Qed.

(** Ranging over a map with the entries handled so far: the next key is new. *)
Lemma range_split_fresh m done k v rest : range m = done ++ (k, v) :: rest -> k ∉ done.*1.
Proof.
  intros E. pose proof (range_NoDup_keys m) as Hn. rewrite E, fmap_app in Hn.
  apply NoDup_app in Hn as (_ & Hd & _). intros Hk. apply (Hd k Hk). by left.
Qed.

Lemma range_keys_dom m : list_to_set (range m).*1 = dom m.
Proof.
  apply set_eq. intros k. by rewrite elem_of_list_to_set, elem_of_range_keys, elem_of_dom.
Qed.
End Range.

(** ** Boolean quantifiers over lists *)

Lemma forallb_map {A B} (f : A -> B) (p : B -> bool) l :
  forallb p (map f l) = forallb (fun x => p (f x)) l.
Proof. induction l; simpl; congruence. Qed.

Lemma existsb_map {A B} (f : A -> B) (p : B -> bool) l :
  existsb p (map f l) = existsb (fun x => p (f x)) l.
Proof. induction l; simpl; congruence. Qed.

Lemma forallb_ext_elem {A} (p q : A -> bool) l :
  (forall x, x ∈ l -> p x = q x) -> forallb p l = forallb q l.
Proof.
  induction l as [|x l IH]; simpl; intros Hpq; [done|].
  rewrite (Hpq x) by (by left). by rewrite IH by (intros; apply Hpq; by right).
Qed.

(** ** Keeping the best element seen so far

    Several loops of the program scan a list and keep an element whose key is
    strictly smaller than the current one's. *)

Section Argmin.
Context {A : Type} (key : A -> Z).

Definition argmin (acc : A) (l : list A) : A :=
  foldl (fun a x => if key x <? key a then x else a) acc l.

Lemma argmin_cons acc x l :
  argmin acc (x :: l) = argmin (if key x <? key acc then x else acc) l.
Proof. done. Qed.

Lemma argmin_elem acc l : argmin acc l = acc \/ argmin acc l ∈ l.
Proof.
  revert acc. induction l as [|x l IH]; intros acc; [by left|].
  rewrite argmin_cons. destruct (IH (if key x <? key acc then x else acc)) as [->|Hin].
  - destruct (key x <? key acc); [right; by left|by left].
  - right. by right.
Qed.

Lemma argmin_le_acc acc l : key (argmin acc l) <= key acc.
Proof.
  revert acc. induction l as [|x l IH]; intros acc; [done|].
  rewrite argmin_cons. etrans; [apply IH|].
  destruct (key x <? key acc) eqn:E; reflect_bool; lia.
Qed.

Lemma argmin_le acc l x : x ∈ l -> key (argmin acc l) <= key x.
Proof.
  revert acc. induction l as [|y l IH]; intros acc; [by intros ?%elem_of_nil|].
  rewrite argmin_cons. intros [->|Hin]%elem_of_cons; [|by apply IH].
  etrans; [apply argmin_le_acc|].
  destruct (key y <? key acc) eqn:E; reflect_bool; lia.
Qed.

(** The key of the result is the greatest lower bound of the keys seen. *)
Lemma argmin_key_eq acc l k :
  key (argmin acc l) = k <->
  (k <= key acc /\ (forall x, x ∈ l -> k <= key x) /\
   (key acc = k \/ exists x, x ∈ l /\ key x = k)).
Proof.
  split.
  - intros <-. split; [apply argmin_le_acc|]. split; [intros; by apply argmin_le|].
    destruct (argmin_elem acc l) as [E|E]; [left; by rewrite E|right; eauto].
  - intros (Hacc & Hl & Hk). apply Z.le_antisymm.
    + destruct Hk as [<-|(x & Hx & <-)]; [apply argmin_le_acc|by apply argmin_le].
    + destruct (argmin_elem acc l) as [->|Hin]; [done|by apply Hl].
Qed.

Lemma argmin_key_perm acc l1 l2 :
  l1 ≡ₚ l2 -> key (argmin acc l1) = key (argmin acc l2).
Proof.
  intros Hp. apply argmin_key_eq. split; [apply argmin_le_acc|]. split.
  - intros x. rewrite Hp. apply argmin_le.
  - destruct (argmin_elem acc l2) as [E|E]; [left; by rewrite E|].
    right. exists (argmin acc l2). by rewrite Hp.
Qed.
End Argmin.

(** ** Keeping the best value of each key *)

Section KeepBest.
Context {K V : Type} `{Countable K} (key : V -> Z).

Definition keep_best (acc : gmap K V) (kv : K * V) : gmap K V :=
  match acc !! kv.1 with
  | None => <[kv.1 := kv.2]> acc
  | Some cur => if key kv.2 <? key cur then <[kv.1 := kv.2]> acc else acc
  end.

(** [acc] holds, for each key of [seen], a value with the smallest key. *)
Definition best_of (seen : list (K * V)) (acc : gmap K V) : Prop :=
  forall k, match acc !! k with
            | None => forall v, (k, v) ∉ seen
            | Some v => (k, v) ∈ seen /\ forall v', (k, v') ∈ seen -> key v <= key v'
            end.

Lemma keep_best_of seen acc kv : best_of seen acc -> best_of (seen ++ [kv]) (keep_best acc kv).
Proof.
  destruct kv as [k v]. intros Hb. unfold keep_best. simpl. intros k'.
  pose proof (Hb k) as Hk. pose proof (Hb k') as Hk'.
  destruct (decide (k' = k)) as [->|Hne].
  - destruct (acc !! k) as [cur|] eqn:E.
    + destruct Hk as [Hin Hmin]. destruct (key v <? key cur) eqn:El; reflect_bool.
      * rewrite lookup_insert_eq. split; [set_solver|].
        intros v' [Hv|Hv]%elem_of_app; [specialize (Hmin v' Hv); lia|].
        apply list_elem_of_singleton in Hv. by simplify_eq.
      * rewrite E. split; [set_solver|].
        intros v' [Hv|Hv]%elem_of_app; [by apply Hmin|].
        apply list_elem_of_singleton in Hv. by simplify_eq.
    + rewrite lookup_insert_eq. split; [set_solver|].
      intros v' [Hv|Hv]%elem_of_app; [by destruct (Hk v')|].
      apply list_elem_of_singleton in Hv. by simplify_eq.
  - assert ((match acc !! k with
             | None => <[k := v]> acc
             | Some cur => if key v <? key cur then <[k := v]> acc else acc
             end) !! k' = acc !! k') as ->.
    { destruct (acc !! k); [destruct (_ <? _)|]; by rewrite ?lookup_insert_ne. }
    assert (forall v', (k', v') ∈ seen ++ [(k, v)] <-> (k', v') ∈ seen) as Hs.
    { intros v'. rewrite elem_of_app, list_elem_of_singleton. split; [intros [?|?]|]; [done| |by left].
      by simplify_eq. }
    destruct (acc !! k'); [|intros v'; by rewrite Hs]. rewrite Hs. by setoid_rewrite Hs.
Qed.

Lemma foldl_keep_best seen acc l :
  best_of seen acc -> best_of (seen ++ l) (foldl keep_best acc l).
Proof.
  revert seen acc. induction l as [|x l IH]; intros seen acc Hb; simpl; [by rewrite app_nil_r|].
  rewrite cons_middle, app_assoc. apply IH. by apply keep_best_of.
Qed.

Lemma best_of_empty : best_of [] ∅.
Proof. intros k. rewrite lookup_empty. intros v. apply not_elem_of_nil. Qed.
End KeepBest.

(** ** Stable sorting

    [sort.SliceStable] with a strict comparison given by integer keys. *)

Section StableSort.
Context {A : Type} (less : A -> A -> bool).

Fixpoint insert_stable (x : A) (l : list A) : list A :=
  match l with
  | [] => [x]
  | y :: l' => if less y x then y :: insert_stable x l' else x :: l
  end.

Definition stable_sort (l : list A) : list A := foldr insert_stable [] l.

Lemma insert_stable_perm x l : insert_stable x l ≡ₚ x :: l.
Proof.
  induction l as [|y l IH]; simpl; [done|].
  destruct (less y x); [|done]. rewrite IH. apply Permutation_swap.
Qed.

Lemma stable_sort_perm l : stable_sort l ≡ₚ l.
Proof.
  induction l as [|x l IH]; simpl; [done|]. by rewrite insert_stable_perm, IH.
Qed.

(** The comparison comes from keys: [less x y] iff the key of [x] precedes. *)
Context (key : A -> Z).
Context (less_key : forall x y, less x y = (key x <? key y)).

Definition key_le (x y : A) : Prop := key x <= key y.

Lemma insert_stable_sorted x l :
  StronglySorted key_le l -> StronglySorted key_le (insert_stable x l).
Proof.
  induction 1 as [|y l Hs IH Hf]; simpl; [repeat constructor|].
  rewrite less_key. destruct (key y <? key x) eqn:E; reflect_bool.
  - constructor; [done|]. rewrite Forall_forall in *. intros z.
    rewrite insert_stable_perm. intros [->|Hz]%elem_of_cons.
    + unfold key_le. lia.
    + by apply Hf.
  - constructor; [by constructor|]. constructor; [done|].
    eapply Forall_impl; [done|]. unfold key_le. intros z ?. lia.
Qed.

Lemma stable_sort_sorted l : StronglySorted key_le (stable_sort l).
Proof.
  induction l as [|x l IH]; simpl; [constructor|]. by apply insert_stable_sorted.
Qed.

(** Elements with equal keys keep their relative order. *)
Lemma insert_stable_filter k x l :
  filter (fun y => key y = k) (insert_stable x l) = filter (fun y => key y = k) (x :: l).
Proof.
  induction l as [|y l IH]; simpl; [done|].
  rewrite less_key. destruct (key y <? key x) eqn:E; [|done]. reflect_bool.
  rewrite filter_cons, IH, !filter_cons. repeat case_decide; done || lia.
Qed.

Lemma stable_sort_stable k l :
  filter (fun y => key y = k) (stable_sort l) = filter (fun y => key y = k) l.
Proof.
  induction l as [|x l IH]; simpl; [done|].
  rewrite insert_stable_filter, !filter_cons. by rewrite IH.
Qed.
End StableSort.

#[export] Hint Resolve stable_sort_perm : nodecore.
