(* ===== verification/GoStrings.v ===== *)
(** Go's strings, as the code uses them: byte strings, the functions of
    [strings], [strconv] and [encoding/hex] that several components call, and
    their laws. *)

From S2P Require Import Prelude.
From Stdlib Require Import Ascii.

#[local] Arguments String.append !_ _ /.

(** The character of a double quote. *)
Definition quote : ascii := "034"%char.

(** ** [strings]

    [strings.Split], [strings.Join] and [strings.Cut] with a separator of one
    character, and [strings.Contains] of one character. *)

Fixpoint split_on (c : ascii) (s : string) : list string :=
  match s with
  | EmptyString => [""]
  | String x s' =>
    if bool_decide (x = c) then "" :: split_on c s'
    else match split_on c s' with
         | [] => [String x ""]
         | w :: ws => String x w :: ws
         end
  end.

Fixpoint join_with (c : ascii) (l : list string) : string :=
  match l with
  | [] => ""
  | [w] => w
  | w :: ws => w +:+ String c (join_with c ws)
  end.

Fixpoint cut_at (c : ascii) (s : string) : string * string :=
  match s with
  | EmptyString => ("", "")
  | String x s' =>
    if bool_decide (x = c) then ("", s')
    else let '(before, after) := cut_at c s' in (String x before, after)
  end.

Fixpoint contains_char (c : ascii) (s : string) : bool :=
  match s with
  | EmptyString => false
  | String x s' => bool_decide (x = c) || contains_char c s'
  end.

(** [strings.CutPrefix] *)
Fixpoint strip_prefix (p s : string) : option string :=
  match p, s with
  | EmptyString, _ => Some s
  | String x p', String y s' => if bool_decide (x = y) then strip_prefix p' s' else None
  | String _ _, EmptyString => None
  end.

(** The parts of a string before and after the place [strings.Index] returns. *)
Fixpoint cut_string (sep s : string) : option (string * string) :=
  match strip_prefix sep s with
  | Some rest => Some ("", rest)
  | None =>
    match s with
    | EmptyString => None
    | String x s' =>
      match cut_string sep s' with
      | Some (before, after) => Some (String x before, after)
      | None => None
      end
    end
  end.

(** The parts before and after the last occurrence of a character, the place
    [strings.LastIndexByte] returns. *)
Fixpoint cut_last (c : ascii) (s : string) : option (string * string) :=
  match s with
  | EmptyString => None
  | String x s' =>
    match cut_last c s' with
    | Some (before, after) => Some (String x before, after)
    | None => if bool_decide (x = c) then Some ("", s') else None
    end
  end.

(** [strings.TrimSuffix] of one character, when the string ends with it. *)
Fixpoint strip_last (c : ascii) (s : string) : option string :=
  match s with
  | EmptyString => None
  | String x EmptyString => if bool_decide (x = c) then Some "" else None
  | String x s' => String x <$> strip_last c s'
  end.

Fixpoint strip_suffix (p s : string) : option string :=
  if bool_decide (s = p) then Some ""
  else match s with
       | EmptyString => None
       | String c s' => String c <$> strip_suffix p s'
       end.

(** [strings.HasPrefix] and [strings.Contains] *)
Definition HasPrefix (s p : string) : bool := bool_decide (is_Some (strip_prefix p s)).
Definition Contains (s sub : string) : bool := bool_decide (is_Some (cut_string sub s)).

(** The slice [s[i:j]]; [None] is the run-time panic of bounds out of range. *)
Definition go_slice (i j : Z) (s : string) : option string :=
  if (0 <=? i) && (i <=? j) && (j <=? Z.of_nat (String.length s))
  then Some (String.substring (Z.to_nat i) (Z.to_nat (j - i)) s) else None.

(** A string from its bytes. *)
Definition of_bytes (l : list N) : string := foldr (fun n => String (ascii_of_N n)) "" l.

(** [strings.TrimSpace]: the code points [unicode.IsSpace] accepts, in UTF-8. *)
Definition space_runes : list string :=
  map of_bytes
    ([[9]; [10]; [11]; [12]; [13]; [32]; [194; 133]; [194; 160]; [225; 154; 128];
      [226; 128; 128]; [226; 128; 129]; [226; 128; 130]; [226; 128; 131]; [226; 128; 132];
      [226; 128; 133]; [226; 128; 134]; [226; 128; 135]; [226; 128; 136]; [226; 128; 137];
      [226; 128; 138]; [226; 128; 168]; [226; 128; 169]; [226; 128; 175]; [226; 129; 159];
      [227; 128; 128]]%N).

Fixpoint strip_any (ps : list string) (s : string) : option string :=
  match ps with
  | [] => None
  | p :: ps' => match strip_prefix p s with Some rest => Some rest | None => strip_any ps' s end
  end.

(** Each round takes at least a byte, so the length of the string is enough fuel. *)
Fixpoint trim_front (fuel : nat) (ps : list string) (s : string) : string :=
  match fuel with
  | O => s
  | S fuel' => match strip_any ps s with Some rest => trim_front fuel' ps rest | None => s end
  end.

Definition TrimSpace (s : string) : string :=
  let t := trim_front (String.length s) space_runes s in
  String.rev (trim_front (String.length t) (map String.rev space_runes) (String.rev t)).

(** The lower case of [strings.ToLower] as far as ASCII goes: the two other code
    points whose lower case is an ASCII letter are U+0130 and U+212A.  The result
    contains an ASCII string exactly when the result of [strings.ToLower] does. *)
Definition lower_ascii (c : ascii) : ascii :=
  if bool_decide (65 <= N_of_ascii c <= 90)%N then ascii_of_N (N_of_ascii c + 32) else c.

Fixpoint ToLower (s : string) : string :=
  match s with
  | EmptyString => ""
  | String a s' =>
    match s' with
    | String b s'' =>
      if bool_decide (a = "196"%char /\ b = "176"%char) then String "i" (ToLower s'')
      else match s'' with
           | String c rest =>
             if bool_decide (a = "226"%char /\ b = "132"%char /\ c = "170"%char) then String "k" (ToLower rest)
             else String (lower_ascii a) (ToLower s')
           | EmptyString => String (lower_ascii a) (ToLower s')
           end
    | EmptyString => String (lower_ascii a) ""
    end
  end.

(** ** [strconv] *)

Definition digit_value (c : ascii) : option Z :=
  let n := Z.of_N (N_of_ascii c) - 48 in
  if (0 <=? n) && (n <=? 9) then Some n else None.

Fixpoint parse_digits (acc : Z) (s : string) : option Z :=
  match s with
  | EmptyString => Some acc
  | String c s' =>
    match digit_value c with
    | Some d => parse_digits (10 * acc + d) s'
    | None => None
    end
  end.

(** [strconv.ParseUint(s, 10, 64)]; [None] is its error. *)
Definition ParseUint (s : string) : option Z :=
  if bool_decide (s = "") then None
  else match parse_digits 0 s with
       | Some n => if n <? two64 then Some n else None
       | None => None
       end.

(** [strconv.Atoi]; [None] is its error. *)
Definition Atoi (s : string) : option Z :=
  let '(negative, digits) :=
    match s with
    | String "-"%char t => (true, t)
    | String "+"%char t => (false, t)
    | _ => (false, s)
    end in
  if bool_decide (digits = "") then None
  else match parse_digits 0 digits with
       | Some n =>
         if negative then (if n <=? two63 then Some (- n) else None)
         else (if n <? two63 then Some n else None)
       | None => None
       end.

(** [strconv.FormatUint(n, 10)] *)
Definition FormatUint (n : Z) : string := pretty (Z.to_N n).

(** ** [encoding/hex] *)

Definition hex_digit (n : N) : ascii :=
  match n with
  | 0 => "0" | 1 => "1" | 2 => "2" | 3 => "3" | 4 => "4" | 5 => "5" | 6 => "6" | 7 => "7"
  | 8 => "8" | 9 => "9" | 10 => "a" | 11 => "b" | 12 => "c" | 13 => "d" | 14 => "e" | _ => "f"
  end%N%char.

Definition hex_value (c : ascii) : option N :=
  let n := N_of_ascii c in
  if bool_decide (48 <= n <= 57)%N then Some (n - 48)%N
  else if bool_decide (97 <= n <= 102)%N then Some (n - 87)%N
  else if bool_decide (65 <= n <= 70)%N then Some (n - 55)%N
  else None.

Fixpoint parse_hex_digits (acc : Z) (s : string) : option Z :=
  match s with
  | EmptyString => Some acc
  | String c s' => match hex_value c with Some d => parse_hex_digits (16 * acc + Z.of_N d) s' | None => None end
  end.

(** [hex.EncodeToString] *)
Fixpoint hex_encode (s : string) : string :=
  match s with
  | EmptyString => ""
  | String c s' =>
    let n := N_of_ascii c in
    String (hex_digit (n / 16)%N) (String (hex_digit (n mod 16)%N) (hex_encode s'))
  end.

(** [hex.DecodeString]; [None] is its error. *)
Fixpoint hex_decode (s : string) : option string :=
  match s with
  | EmptyString => Some ""
  | String a (String b s') =>
    match hex_value a, hex_value b, hex_decode s' with
    | Some x, Some y, Some rest => Some (String (ascii_of_N (16 * x + y)) rest)
    | _, _, _ => None
    end
  | String _ EmptyString => None
  end.

(** ** Laws of splitting and joining *)

Lemma split_on_nonempty c s : split_on c s <> [].
Proof. destruct s; simpl; [done|]. case_bool_decide; [done|]. by destruct (split_on c s). Qed.

Lemma split_on_no_sep c s : Forall (fun w => contains_char c w = false) (split_on c s).
Proof.
  induction s as [|x s IH]; simpl; [by constructor|].
  case_bool_decide as Hx; [by constructor|].
  destruct (split_on c s) as [|w ws]; [by repeat constructor; simpl; rewrite bool_decide_eq_false_2|].
  apply Forall_cons in IH as [Hw Hws]. constructor; [|done]. simpl.
  by rewrite bool_decide_eq_false_2.
Qed.

Lemma split_on_app c w s :
  contains_char c w = false -> split_on c (w +:+ String c s) = w :: split_on c s.
Proof.
  induction w as [|x w IH]; simpl; intros Hw.
  - by rewrite bool_decide_eq_true_2.
  - apply orb_false_iff in Hw as [Hx Hw]. rewrite Hx, IH by done. done.
Qed.

Lemma split_on_word c w : contains_char c w = false -> split_on c w = [w].
Proof.
  induction w as [|x w IH]; simpl; intros Hw; [done|].
  apply orb_false_iff in Hw as [Hx Hw]. by rewrite Hx, IH.
Qed.

Lemma split_join c l :
  l <> [] -> Forall (fun w => contains_char c w = false) l -> split_on c (join_with c l) = l.
Proof.
  intros Hne Hl. induction Hl as [|w l Hw Hl IH]; [done|]. destruct l as [|w' l].
  - by apply split_on_word.
  - cbn [join_with]. rewrite split_on_app by done. f_equal. by apply IH.
Qed.

Lemma cut_at_no_sep c s : contains_char c (cut_at c s).1 = false.
Proof.
  induction s as [|x s IH]; simpl; [done|]. case_bool_decide as Hx; [done|].
  destruct (cut_at c s). simpl in *. by rewrite bool_decide_eq_false_2.
Qed.

Lemma cut_at_app c v rest :
  contains_char c v = false -> cut_at c (v +:+ String c rest) = (v, rest).
Proof.
  induction v as [|x v IH]; simpl; intros Hv; [by rewrite bool_decide_eq_true_2|].
  apply orb_false_iff in Hv as [Hx Hv]. rewrite Hx, IH by done. done.
Qed.

Lemma split_on_contains c d s :
  contains_char c s = false -> Forall (fun w => contains_char c w = false) (split_on d s).
Proof.
  induction s as [|x s IH]; simpl; intros Hs; [by repeat constructor|].
  apply orb_false_iff in Hs as [Hx Hs]. specialize (IH Hs).
  destruct (bool_decide (x = d)); [by constructor|]. destruct (split_on d s) as [|w ws].
  - repeat constructor. simpl. by rewrite Hx.
  - apply Forall_cons in IH as [Hw Hws]. constructor; [|done]. simpl. by rewrite Hx.
Qed.

(** ** Laws of searching *)

Lemma contains_char_app c s t : contains_char c (s +:+ t) = contains_char c s || contains_char c t.
Proof. induction s as [|x s IH]; cbn [String.append contains_char]; [done|]. by rewrite IH, orb_assoc. Qed.

Lemma append_nil_r s : s +:+ "" = s.
Proof. induction s; cbn [String.append]; congruence. Qed.

Lemma append_assoc_str s t u : (s +:+ t) +:+ u = s +:+ (t +:+ u).
Proof. induction s; cbn [String.append]; congruence. Qed.

Lemma length_append_str s t : String.length (s +:+ t) = (String.length s + String.length t)%nat.
Proof. induction s; simpl; congruence. Qed.

Lemma strip_prefix_append p s : strip_prefix p (p +:+ s) = Some s.
Proof. induction p as [|x p IH]; cbn [String.append strip_prefix]; [by destruct s|]. by rewrite bool_decide_eq_true_2. Qed.

Lemma strip_prefix_before p w c r q :
  contains_char c p = false -> strip_prefix p (w +:+ String c r) = Some q ->
  is_Some (strip_prefix p w).
Proof.
  revert w. induction p as [|x p IH]; intros w Hp Hs; simpl in *; [by destruct w|].
  apply orb_false_iff in Hp as [Hx Hp]. destruct w as [|y w]; simpl in *.
  - by rewrite Hx in Hs.
  - destruct (bool_decide (x = y)); [by eapply IH|done].
Qed.

Lemma cut_string_eq sep s :
  cut_string sep s =
    match strip_prefix sep s with
    | Some rest => Some ("", rest)
    | None =>
      match s with
      | EmptyString => None
      | String x s' =>
        match cut_string sep s' with
        | Some (before, after) => Some (String x before, after)
        | None => None
        end
      end
    end.
Proof. by destruct s. Qed.

(** A separator after a character it does not contain is found there, if it does
    not occur before. *)
Lemma cut_string_after sep w c rest :
  contains_char c sep = false -> sep <> "" -> cut_string sep w = None ->
  cut_string sep (w +:+ String c (sep +:+ rest)) = Some (w +:+ String c "", rest).
Proof.
  intros Hc Hne. induction w as [|x w IH]; intros Hw.
  - cbn [String.append]. rewrite cut_string_eq. destruct (strip_prefix sep (String c _)) eqn:E.
    + destruct sep as [|y sep]; [done|]. simpl in *. apply orb_false_iff in Hc as [Hy _].
      by rewrite Hy in E.
    + by rewrite cut_string_eq, strip_prefix_append.
  - rewrite cut_string_eq in Hw |- *. destruct (strip_prefix sep (String x w)) eqn:Ew; [done|].
    destruct (strip_prefix sep (String x w +:+ _)) eqn:E.
    + apply (strip_prefix_before _ (String x w)) in E; [|done]. rewrite Ew in E. by destruct E.
    + cbn [String.append]. destruct (cut_string sep w) as [[]|]; [done|]. by rewrite IH.
Qed.

(** A separator is found after a word without its first character. *)
Lemma cut_string_word c sep w rest :
  contains_char c w = false ->
  cut_string (String c sep) (w +:+ String c sep +:+ rest) = Some (w, rest).
Proof.
  induction w as [|x w IH]; intros Hw.
  - cbn [String.append]. rewrite cut_string_eq.
    change (String c (sep +:+ rest)) with (String c sep +:+ rest). by rewrite strip_prefix_append.
  - simpl in Hw. apply orb_false_iff in Hw as [Hx Hw]. rewrite cut_string_eq.
    assert (strip_prefix (String c sep) (String x w +:+ String c sep +:+ rest) = None) as ->.
    { cbn [String.append strip_prefix]. rewrite bool_decide_eq_false_2; [done|]. reflect_bool. congruence. }
    cbn [String.append] in *. by rewrite IH.
Qed.

Lemma cut_last_none c s : contains_char c s = false -> cut_last c s = None.
Proof.
  induction s as [|x s IH]; simpl; [done|]. intros [Hx Hs]%orb_false_iff. rewrite IH by done. by rewrite Hx.
Qed.

Lemma cut_last_app c s t : contains_char c t = false -> cut_last c (s +:+ String c t) = Some (s, t).
Proof.
  intros Ht. induction s as [|x s IH]; simpl; [|by rewrite IH].
  by rewrite cut_last_none, bool_decide_eq_true_2.
Qed.

Lemma strip_last_app c s : strip_last c (s +:+ String c "") = Some s.
Proof.
  induction s as [|x s IH]; simpl; [by rewrite bool_decide_eq_true_2|]. rewrite IH.
  by destruct s.
Qed.

(** ** Laws of numbers and hexadecimal digits *)

Lemma pretty_N_char_value x : (x < 10)%N -> digit_value (pretty_N_char x) = Some (Z.of_N x).
Proof.
  intros Hx. assert (x = 0 \/ x = 1 \/ x = 2 \/ x = 3 \/ x = 4 \/ x = 5 \/ x = 6 \/ x = 7 \/ x = 8 \/ x = 9)%N
    as Hc by lia.
  repeat destruct Hc as [->|Hc]; try done. by subst.
Qed.

Lemma pretty_N_go_char (P : ascii -> bool) x s :
  (forall n, (n < 10)%N -> P (pretty_N_char n) = false) ->
  (forall c, P c = true -> contains_char c s = false) ->
  forall c, P c = true -> contains_char c (pretty_N_go x s) = false.
Proof.
  intros HP. revert s. induction (N.lt_wf_0 x) as [x _ IH]; intros s Hs c Hc.
  assert (x = 0 \/ 0 < x)%N as [->|Hx] by lia; [by apply Hs|].
  rewrite pretty_N_go_step by done. apply IH; [by apply N.div_lt| |done].
  intros c' Hc'. simpl. rewrite Hs by done. rewrite orb_false_r. apply bool_decide_eq_false_2.
  intros <-. rewrite HP in Hc'; [done|]. by apply N.mod_lt.
Qed.

Lemma parse_digits_go x s :
  exists k, 0 <= k /\ forall acc,
    parse_digits acc (pretty_N_go x s) = parse_digits (acc * 10 ^ k + Z.of_N x) s.
Proof.
  revert s. induction (N.lt_wf_0 x) as [x _ IH]; intros s.
  assert (x = 0 \/ 0 < x)%N as [->|Hx] by lia.
  - exists 0. split; [done|]. intros acc. rewrite pretty_N_go_0. f_equal. lia.
  - rewrite pretty_N_go_step by done.
    destruct (IH (x / 10)%N (N.div_lt x 10 Hx eq_refl) (String (pretty_N_char (x mod 10)) s)) as (k & Hk & E).
    exists (k + 1). split; [lia|]. intros acc. rewrite E. simpl.
    rewrite pretty_N_char_value by (by apply N.mod_lt). f_equal.
    rewrite Z.pow_add_r by lia. rewrite N2Z.inj_div, N2Z.inj_mod.
    pose proof (Z.div_mod (Z.of_N x) (Z.of_N 10)). lia.
Qed.

Lemma ParseUint_FormatUint n : is_u64 n -> ParseUint (FormatUint n) = Some n.
Proof.
  intros [H0 H1]. unfold ParseUint, FormatUint, pretty, pretty_N. destruct (decide (Z.to_N n = 0)%N) as [Hz|Hz].
  - assert (n = 0) as -> by lia. done.
  - destruct (parse_digits_go (Z.to_N n) "") as (k & Hk & E). specialize (E 0). rewrite E.
    rewrite bool_decide_eq_false_2; simpl.
    + rewrite Z2N.id by lia. change (0 * 10 ^ k) with 0. rewrite Z.add_0_l.
      by rewrite (proj2 (Z.ltb_lt _ _)).
    + intros Hs. rewrite Hs in E. simpl in E. injection E. lia.
Qed.

Lemma FormatUint_no_char c n :
  (forall d, (d < 10)%N -> pretty_N_char d <> c) -> contains_char c (FormatUint n) = false.
Proof.
  intros Hc. unfold FormatUint, pretty, pretty_N. destruct (decide _).
  - simpl. rewrite orb_false_r. apply bool_decide_eq_false_2. by apply (Hc 0%N).
  - apply (pretty_N_go_char (fun x => bool_decide (x = c))); [|done|by apply bool_decide_eq_true_2].
    intros d Hd. apply bool_decide_eq_false_2. by apply Hc.
Qed.

Lemma hex_decode_encode s : hex_decode (hex_encode s) = Some s.
Proof.
  induction s as [|c s IH]; [done|]. cbn [hex_encode hex_decode]. rewrite IH.
  by destruct c as [[] [] [] [] [] [] [] []].
Qed.

Lemma hex_encode_no_char c s :
  (forall d, hex_digit d <> c) -> contains_char c (hex_encode s) = false.
Proof.
  intros Hc. induction s as [|x s IH]; [done|]. cbn [hex_encode contains_char]. rewrite IH.
  by rewrite !bool_decide_eq_false_2.
Qed.

Lemma FormatUint_nonempty n : FormatUint n <> "".
Proof.
  unfold FormatUint, pretty, pretty_N. destruct (decide _) as [|Hz]; [done|]. intros E.
  destruct (parse_digits_go (Z.to_N n) "") as (k & _ & Hp). specialize (Hp 0). rewrite E in Hp.
  simpl in Hp. injection Hp. lia.
Qed.

Lemma parse_FormatUint n : 0 <= n -> parse_digits 0 (FormatUint n) = Some n.
Proof.
  intros Hn. unfold FormatUint, pretty, pretty_N. destruct (decide _) as [Hz|Hz]; [simpl; f_equal; lia|].
  destruct (parse_digits_go (Z.to_N n) "") as (k & _ & Hp). rewrite (Hp 0). simpl. f_equal. lia.
Qed.

Lemma Atoi_FormatUint n : 0 <= n < two63 -> Atoi (FormatUint n) = Some n.
Proof.
  intros Hn. pose proof (FormatUint_nonempty n) as Hne. pose proof (parse_FormatUint n ltac:(lia)) as Hp.
  assert (contains_char "-" (FormatUint n) = false) as Hm
    by (apply FormatUint_no_char; intros d _; unfold pretty_N_char; by repeat case_match).
  assert (contains_char "+" (FormatUint n) = false) as Hs
    by (apply FormatUint_no_char; intros d _; unfold pretty_N_char; by repeat case_match).
  unfold Atoi. destruct (FormatUint n) as [|c s]; [done|]. simpl in Hm, Hs.
  apply orb_false_iff in Hm as [Hm _]. apply orb_false_iff in Hs as [Hs _]. reflect_bool.
  destruct (match c with "-"%char => _ | _ => _ end) as [neg digits] eqn:E.
  assert (neg = false /\ digits = String c s) as [-> ->].
  { destruct c as [[] [] [] [] [] [] [] []]; 
    first [by destruct Hm|by destruct Hs|by injection E as <- <-]. }
  rewrite bool_decide_eq_false_2, Hp by done. rewrite (proj2 (Z.ltb_lt n two63)) by lia. done.
Qed.

(** ** Slices and white space *)

Lemma substring_append_mid w s t :
  String.substring (String.length w) (String.length s) (w +:+ s +:+ t) = s.
Proof.
  induction w as [|c w IH]; [|exact IH]. simpl. induction s as [|c s IH]; [by destruct t|].
  simpl. by rewrite IH.
Qed.

Lemma go_slice_mid w s t :
  go_slice (Z.of_nat (String.length w)) (Z.of_nat (String.length w + String.length s)) (w +:+ s +:+ t) = Some s.
Proof.
  unfold go_slice. rewrite !length_append_str.
  rewrite (proj2 (Z.leb_le 0 _)), (proj2 (Z.leb_le (Z.of_nat (String.length w)) _)), (proj2 (Z.leb_le _ (Z.of_nat _))) by lia.
  simpl. rewrite Nat2Z.id. replace (Z.to_nat _) with (String.length s) by lia. by rewrite substring_append_mid.
Qed.

Lemma HasPrefix_spec s p : HasPrefix s p = true <-> exists rest, s = p +:+ rest.
Proof.
  unfold HasPrefix. rewrite bool_decide_eq_true. split.
  - intros [rest H]. exists rest. revert s H. induction p as [|c p IH]; intros s H; [by injection H|].
    destruct s as [|d s]; [done|]. simpl in H. case_bool_decide as Hc; [|done]. subst. simpl. by rewrite <- (IH s).
  - intros [rest ->]. rewrite strip_prefix_append. eauto.
Qed.

Lemma strip_prefix_Some p s rest : strip_prefix p s = Some rest <-> s = p +:+ rest.
Proof.
  split; [|intros ->; apply strip_prefix_append]. intros H.
  destruct (proj1 (HasPrefix_spec s p)) as [r ->]; [unfold HasPrefix; rewrite H; by apply bool_decide_eq_true|].
  rewrite strip_prefix_append in H. by injection H as ->.
Qed.

Lemma cut_string_Some sub s a b : cut_string sub s = Some (a, b) -> s = a +:+ sub +:+ b.
Proof.
  revert a b. induction s as [|c s IH]; intros a b; cbn [cut_string].
  - destruct (strip_prefix sub "") as [rest|] eqn:E; [|done]. intros [= <- <-]. by apply strip_prefix_Some in E.
  - destruct (strip_prefix sub (String c s)) as [rest|] eqn:E.
    + intros [= <- <-]. by apply strip_prefix_Some in E.
    + destruct (cut_string sub s) as [[x y]|]; [|done]. intros [= <- <-]. simpl. f_equal. by apply IH.
Qed.

Lemma Contains_append a s b : Contains (a +:+ s +:+ b) s = true.
Proof.
  unfold Contains. apply bool_decide_eq_true. induction a as [|c a [[x y] IH]].
  - exists ("", b). simpl. destruct (s +:+ b) eqn:E; simpl; by rewrite <- E, strip_prefix_append.
  - change (String c a +:+ s +:+ b) with (String c (a +:+ s +:+ b)). cbn [cut_string].
    destruct (strip_prefix s _); [eauto|]. rewrite IH. eauto.
Qed.

Lemma Contains_spec s sub : Contains s sub = true <-> exists a b, s = a +:+ sub +:+ b.
Proof.
  split; [|intros (a & b & ->); apply Contains_append]. unfold Contains. intros [[a b] E]%bool_decide_eq_true.
  exists a, b. by apply cut_string_Some.
Qed.
