(* ===== verification/GoHttp.v ===== *)
(** HTTP headers as [net/http] keeps them: keys in canonical form, a list of values
    per key. *)

From S2P Require Import Prelude.
From S2P Require Import GoStrings.
From Stdlib Require Import Ascii.

Definition byte_in (lo hi : N) (c : ascii) : bool := bool_decide (lo <= N_of_ascii c <= hi)%N.

(** ** Headers *)

(** [http.CanonicalHeaderKey]: a key of other than token characters stays. *)
Definition token_char (c : ascii) : bool :=
  byte_in 48 57 c || byte_in 65 90 c || byte_in 97 122 c ||
  bool_decide (c ∈ String.list_ascii_of_string "!#$%&'*+-.^_`|~").

Fixpoint canonical_loop (upper : bool) (s : string) : string :=
  match s with
  | EmptyString => ""
  | String c s' =>
    let c' := if upper && byte_in 97 122 c then ascii_of_N (N_of_ascii c - 32)
              else if negb upper && byte_in 65 90 c then ascii_of_N (N_of_ascii c + 32) else c in
    String c' (canonical_loop (bool_decide (c = "-"%char)) s')
  end.

Definition CanonicalHeaderKey (s : string) : string :=
  if forallb token_char (String.list_ascii_of_string s) then canonical_loop true s else s.

Abbreviation Header := (gmap string (list string)).

Definition header_Set (key value : string) (h : Header) : Header := <[CanonicalHeaderKey key := [value]]> h.
Definition header_Add (key value : string) (h : Header) : Header :=
  <[CanonicalHeaderKey key := default [] (h !! CanonicalHeaderKey key) ++ [value]]> h.
Definition header_Get (key : string) (h : Header) : string :=
  default "" (h !! CanonicalHeaderKey key ≫= head).

(** ** Laws *)

Definition canonical_char (upper : bool) (c : ascii) : ascii :=
  if upper && byte_in 97 122 c then ascii_of_N (N_of_ascii c - 32)
  else if negb upper && byte_in 65 90 c then ascii_of_N (N_of_ascii c + 32) else c.

Lemma canonical_char_facts upper c :
  canonical_char upper (canonical_char upper c) = canonical_char upper c /\
  token_char (canonical_char upper c) = token_char c /\
  (canonical_char upper c = "-"%char <-> c = "-"%char).
Proof. destruct upper, c as [[] [] [] [] [] [] [] []]; vm_compute; split_and!; done. Qed.

Lemma canonical_loop_cons upper c s :
  canonical_loop upper (String c s) = String (canonical_char upper c) (canonical_loop (bool_decide (c = "-"%char)) s).
Proof. done. Qed.

Lemma canonical_loop_idemp upper s : canonical_loop upper (canonical_loop upper s) = canonical_loop upper s.
Proof.
  revert upper. induction s as [|c s IH]; intros upper; [done|]. rewrite canonical_loop_cons, canonical_loop_cons.
  destruct (canonical_char_facts upper c) as (-> & _ & Hd). f_equal.
  rewrite (bool_decide_ext _ _ Hd). apply IH.
Qed.

Lemma canonical_loop_token upper s :
  forallb token_char (String.list_ascii_of_string (canonical_loop upper s)) =
  forallb token_char (String.list_ascii_of_string s).
Proof.
  revert upper. induction s as [|c s IH]; intros upper; [done|]. rewrite canonical_loop_cons. simpl.
  destruct (canonical_char_facts upper c) as (_ & -> & _). by rewrite IH.
Qed.

Lemma canonical_idemp s : CanonicalHeaderKey (CanonicalHeaderKey s) = CanonicalHeaderKey s.
Proof.
  unfold CanonicalHeaderKey. destruct (forallb token_char (String.list_ascii_of_string s)) eqn:E.
  - rewrite canonical_loop_token, E. apply canonical_loop_idemp.
  - by rewrite E.
Qed.

Example canonical_examples :
  CanonicalHeaderKey "content-TYPE" = "Content-Type" /\ CanonicalHeaderKey "x_y z" = "x_y z".
Proof. split; reflexivity. Qed.

(** [utf8.ValidString] *)
Fixpoint ValidString (s : string) : bool :=
  match s with
  | EmptyString => true
  | String a s1 =>
    if byte_in 0 127 a then ValidString s1
    else match s1 with
    | EmptyString => false
    | String b s2 =>
      if byte_in 194 223 a then byte_in 128 191 b && ValidString s2
      else match s2 with
      | EmptyString => false
      | String c s3 =>
        if byte_in 224 239 a then
          byte_in (if byte_in 224 224 a then 160 else 128) (if byte_in 237 237 a then 159 else 191) b &&
          byte_in 128 191 c && ValidString s3
        else match s3 with
        | EmptyString => false
        | String d s4 =>
          byte_in 240 244 a &&
          byte_in (if byte_in 240 240 a then 144 else 128) (if byte_in 244 244 a then 143 else 191) b &&
          byte_in 128 191 c && byte_in 128 191 d && ValidString s4
        end
      end
    end
  end.
