(* ===== verification/Subscriptions.v ===== *)
(** Named subscriptions to a stream of events ([pkg/utils/subscriptions.go]).

    A subscription is an object in a table; the manager maps names to objects.
    Publishing is not atomic: it sets the last event and then visits the
    registered subscriptions one by one while others may subscribe and
    unsubscribe.  Only a subscription with replay waits for a publish to end,
    as both take the manager's lock. *)

From S2P Require Import Prelude.

Section Manager.
Context {T : Type}.

(** [s_read] is what the owner has taken out of the channel; [s_replay] and
    [s_missed] record how it was made and whether an event did not fit. *)
Record Subscription := mkSubscription {
  s_name : string;
  s_size : Z;
  s_Events : list T;
  s_closed : bool;
  s_read : list T;
  s_replay : bool;
  s_missed : bool;
}.

(** A publish in progress: the event, the names visited, and the entries present
    since it began, which it must visit ([sync.Map.Range]). *)
Record Publishing := mkPublishing {
  p_event : T;
  p_visited : gset string;
  p_due : gmap string nat;
}.

(** [published] is the history of published events. *)
Record SubscriptionManager := mkManager {
  table : list Subscription;
  subscriptions : gmap string nat;
  lastEvent : option T;
  publishing : option Publishing;
  published : list T;
}.

Definition NewSubscriptionManager : SubscriptionManager := mkManager [] ∅ None None [].

(** Store a new object under a name; [None]: the name is taken, a panic. *)
Definition store_new (s : Subscription) (m : SubscriptionManager) : option SubscriptionManager :=
  match subscriptions m !! s_name s with
  | Some _ => None
  | None => Some (mkManager (table m ++ [s]) (<[s_name s := length (table m)]> (subscriptions m)) (lastEvent m)
                    (publishing m) (published m))
  end.

Definition SubscribeWithSize (name : string) (size : Z) (m : SubscriptionManager) : option SubscriptionManager :=
  store_new (mkSubscription name size [] false [] false false) m.

Definition Subscribe (name : string) (m : SubscriptionManager) : option SubscriptionManager :=
  SubscribeWithSize name 100 m.

(** [None] also while a publish holds the lock, or when the seed does not fit (the
    send blocks). *)
Definition SubscribeWithReplaySize (name : string) (size : Z) (m : SubscriptionManager) : option SubscriptionManager :=
  match publishing m with
  | Some _ => None
  | None =>
    match lastEvent m with
    | None => store_new (mkSubscription name size [] false [] true false) m
    | Some e => if 0 <? size then store_new (mkSubscription name size [e] false [] true false) m else None
    end
  end.

Definition SubscribeWithReplay (name : string) (m : SubscriptionManager) : option SubscriptionManager :=
  SubscribeWithReplaySize name 100 m.

Definition set_table (l : list Subscription) (m : SubscriptionManager) : SubscriptionManager :=
  mkManager l (subscriptions m) (lastEvent m) (publishing m) (published m).

Definition close_sub (s : Subscription) : Subscription :=
  mkSubscription (s_name s) (s_size s) (s_Events s) true (s_read s) (s_replay s) (s_missed s).

(** Unsubscribing removes whatever is registered under the name. *)
Definition Unsubscribe (r : nat) (m : SubscriptionManager) : option SubscriptionManager :=
  s ← table m !! r;
  Some (mkManager (alter close_sub r (table m)) (delete (s_name s) (subscriptions m)) (lastEvent m)
    ((fun p => mkPublishing (p_event p) (p_visited p) (delete (s_name s) (p_due p))) <$> publishing m) (published m)).

Definition publish_begin (event : T) (m : SubscriptionManager) : option SubscriptionManager :=
  match publishing m with
  | Some _ => None
  | None => Some (mkManager (table m) (subscriptions m) (Some event)
                    (Some (mkPublishing event ∅ (subscriptions m))) (published m ++ [event]))
  end.

(** The event is put into a channel that is open and has room. *)
Definition put_event (event : T) (s : Subscription) : Subscription :=
  if s_closed s then s
  else if Z.of_nat (length (s_Events s)) <? s_size s
  then mkSubscription (s_name s) (s_size s) (s_Events s ++ [event]) (s_closed s) (s_read s) (s_replay s) (s_missed s)
  else mkSubscription (s_name s) (s_size s) (s_Events s) (s_closed s) (s_read s) (s_replay s) true.

Definition publish_visit (name : string) (m : SubscriptionManager) : option SubscriptionManager :=
  p ← publishing m;
  r ← subscriptions m !! name;
  if bool_decide (name ∈ p_visited p) then None
  else Some (mkManager (alter (put_event (p_event p)) r (table m)) (subscriptions m) (lastEvent m)
    (Some (mkPublishing (p_event p) ({[name]} ∪ p_visited p) (delete name (p_due p)))) (published m)).

Definition publish_end (m : SubscriptionManager) : option SubscriptionManager :=
  p ← publishing m;
  if bool_decide (p_due p = ∅)
  then Some (mkManager (table m) (subscriptions m) (lastEvent m) None (published m)) else None.

Definition read_event (r : nat) (m : SubscriptionManager) : option SubscriptionManager :=
  s ← table m !! r;
  match s_Events s with
  | [] => None
  | e :: rest =>
    Some (set_table (alter (fun s => mkSubscription (s_name s) (s_size s) rest (s_closed s) (s_read s ++ [e])
      (s_replay s) (s_missed s)) r (table m)) m)
  end.

Inductive sub_action :=
| DoSubscribe (name : string) (size : Z)
| DoSubscribeReplay (name : string) (size : Z)
| DoUnsubscribe (r : nat)
| DoPublish (event : T)
| DoVisit (name : string)
| DoPublished
| DoRead (r : nat).

Definition sub_step (a : sub_action) (m : SubscriptionManager) : option SubscriptionManager :=
  match a with
  | DoSubscribe name size => SubscribeWithSize name size m
  | DoSubscribeReplay name size => SubscribeWithReplaySize name size m
  | DoUnsubscribe r => Unsubscribe r m
  | DoPublish event => publish_begin event m
  | DoVisit name => publish_visit name m
  | DoPublished => publish_end m
  | DoRead r => read_event r m
  end.

Fixpoint sub_steps (l : list sub_action) (m : SubscriptionManager) : option SubscriptionManager :=
  match l with
  | [] => Some m
  | a :: l => m' ← sub_step a m; sub_steps l m'
  end.

(** ** What a subscriber has seen *)

Definition seen (s : Subscription) : list T := s_read s ++ s_Events s.

(** The events a subscriber should have seen: all of them, or, while an event is
    published and has not reached it, all but the last. *)
Definition due_now (m : SubscriptionManager) (s : Subscription) : bool :=
  match publishing m with Some p => bool_decide (is_Some (p_due p !! s_name s)) | None => false end.

Definition events_for (m : SubscriptionManager) (s : Subscription) : list T :=
  if due_now m s then removelast (published m) else published m.

(** A registered subscriber with replay that had room for every event: it has seen
    the events from some point on, and that point is not after the last one. *)
Definition current (m : SubscriptionManager) (s : Subscription) : Prop :=
  exists before, events_for m s = before ++ seen s /\ (seen s = [] -> events_for m s = []).

Record manager_inv (m : SubscriptionManager) : Prop := {
  mi_refs : forall name r, subscriptions m !! name = Some r -> exists s, table m !! r = Some s /\ s_name s = name /\ s_closed s = false;
  mi_last : last (published m) = lastEvent m;
  mi_due : forall p, publishing m = Some p -> p_due p ⊆ subscriptions m /\ Some (p_event p) = lastEvent m /\
    forall name, name ∈ p_visited p -> p_due p !! name = None;
  mi_current : forall name r s, subscriptions m !! name = Some r -> table m !! r = Some s ->
    s_replay s = true -> s_missed s = false -> current m s;
  mi_reached : forall p name r s, publishing m = Some p -> subscriptions m !! name = Some r -> table m !! r = Some s ->
    s_replay s = true -> name ∈ p_visited p \/ p_due p !! name = Some r;
}.

Implicit Types m : SubscriptionManager.

Lemma current_same m m' s : due_now m' s = due_now m s -> published m' = published m -> current m s -> current m' s.
Proof. unfold current, events_for. by intros -> ->. Qed.

Lemma store_new_inv s m m' : manager_inv m -> s_closed s = false ->
  (s_replay s = true -> publishing m = None /\ current m s) -> store_new s m = Some m' -> manager_inv m'.
Proof.
  intros [I1 I2 I3 I4 I5] Hc Hr. unfold store_new. destruct (subscriptions m !! s_name s) eqn:E; [done|]. intros [= <-].
  assert (forall r x, (table m ++ [s]) !! r = Some x -> table m !! r = Some x \/ r = length (table m) /\ x = s) as Hnew.
  { intros r x [H|[Hle H]]%lookup_app_Some; [by left|right]. destruct (r - length (table m))%nat eqn:Ed; simpl in H; [|done].
    simplify_eq. split; [lia|done]. }
  assert (forall name r, subscriptions m !! name = Some r -> (r < length (table m))%nat) as Hlt.
  { intros name r H. destruct (I1 name r H) as (x & Hx & _). by eapply lookup_lt_Some. }
  assert (forall name r x, subscriptions m !! name = Some r -> (table m ++ [s]) !! r = Some x -> table m !! r = Some x) as Hold.
  { intros name r x H [Hx|[-> _]]%Hnew; [done|]. apply Hlt in H. lia. }
  split; simpl.
  - intros name r [[<- <-]|[_ H]]%lookup_insert_Some.
    + exists s. by rewrite lookup_app_r, Nat.sub_diag by lia.
    + destruct (I1 name r H) as (x & Hx & ?). exists x. split; [by apply lookup_app_l_Some|done].
  - done.
  - intros p Hp. destruct (I3 p Hp) as (H1 & H2 & H3). split; [|done]. etransitivity; [exact H1|]. by apply insert_subseteq.
  - intros name r x [[<- <-]|[_ H]]%lookup_insert_Some Hx Hrep Hm.
    + rewrite lookup_app_r, Nat.sub_diag in Hx by lia. simpl in Hx. simplify_eq.
      destruct (Hr Hrep) as [Hp Hcur]. by apply (current_same m).
    + apply (current_same m); [done..|]. eapply I4; [done|by eapply Hold|done..].
  - intros p name r x Hp [[<- <-]|[_ H]]%lookup_insert_Some Hx Hrep.
    + rewrite lookup_app_r, Nat.sub_diag in Hx by lia. simpl in Hx. simplify_eq. destruct (Hr Hrep) as [Hp' _]. congruence.
    + by eapply I5; [| |eapply Hold|].
Qed.

Lemma replay_inv name size m m' : manager_inv m -> SubscribeWithReplaySize name size m = Some m' -> manager_inv m'.
Proof.
  intros I. unfold SubscribeWithReplaySize. destruct (publishing m) eqn:Hp; [done|].
  pose proof (mi_last _ I) as Hl. assert (forall s, events_for m s = published m) as He
    by (intros s; unfold events_for, due_now; by rewrite Hp).
  destruct (lastEvent m) as [e|] eqn:El.
  - destruct (0 <? size); [|done]. apply store_new_inv; [done..|]. intros _. split; [done|].
    apply last_Some in Hl as [before Hb]. exists before. rewrite He. split; [done|]. done.
  - apply store_new_inv; [done..|]. intros _. split; [done|]. apply last_None in Hl. exists []. rewrite He. done.
Qed.

Lemma lookup_alter_table f r m r' : alter f r (table m) !! r' = if decide (r' = r) then f <$> table m !! r else table m !! r'.
Proof. rewrite list_lookup_alter. destruct (decide (r = r')), (decide (r' = r)); congruence. Qed.

Lemma Unsubscribe_inv r m m' : manager_inv m -> Unsubscribe r m = Some m' -> manager_inv m'.
Proof.
  intros [I1 I2 I3 I4 I5] (s & Hs & [= <-])%bind_Some.
  assert (forall name r', delete (s_name s) (subscriptions m) !! name = Some r' ->
    subscriptions m !! name = Some r' /\ name <> s_name s /\ alter close_sub r (table m) !! r' = table m !! r') as Hk.
  { intros name r' [Hne H]%lookup_delete_Some. split; [done|]. split; [done|]. rewrite lookup_alter_table.
    rewrite decide_False; [done|]. intros ->. destruct (I1 name r H) as (x & Hx & <- & _). by simplify_eq. }
  split; simpl.
  - intros name r' (H & _ & ->)%Hk. by apply I1.
  - done.
  - intros p Hp. apply fmap_Some in Hp as (q & Hq & ->). destruct (I3 q Hq) as (H1 & H2 & H3). simpl. split_and!.
    + by apply delete_mono.
    + done.
    + intros name Hn. destruct (decide (name = s_name s)) as [->|?]; [apply lookup_delete_eq|].
      rewrite lookup_delete_ne by done. by apply H3.
  - intros name r' x (H & Hne & Heq)%Hk Hx Hr Hm. rewrite Heq in Hx.
    destruct (I1 name r' H) as (y & Hy & Hyn & _). simplify_eq.
    apply (current_same m); [|done|by eapply I4]. unfold due_now. simpl.
    destruct (publishing m) as [q|]; simpl; [|done]. by rewrite lookup_delete_ne.
  - intros p name r' x Hp (H & Hne & Heq)%Hk Hx Hr. rewrite Heq in Hx. apply fmap_Some in Hp as (q & Hq & ->). simpl.
    rewrite lookup_delete_ne by done. by eapply I5.
Qed.

Lemma publish_begin_inv e m m' : manager_inv m -> publish_begin e m = Some m' -> manager_inv m'.
Proof.
  intros [I1 I2 I3 I4 I5]. unfold publish_begin. destruct (publishing m) eqn:Hp; [done|]. intros [= <-]. split; simpl.
  - done.
  - by rewrite last_snoc.
  - intros p [= <-]. simpl. split; [done|]. split; [done|set_solver].
  - intros name r s H Hs Hr Hm. destruct (I4 name r s H Hs Hr Hm) as (before & Hb & Hn).
    destruct (I1 name r H) as (y & Hy & <- & _). simplify_eq.
    unfold current, events_for, due_now in *. simpl. rewrite Hp in *.
    rewrite bool_decide_eq_true_2 by (by rewrite H). rewrite removelast_last. eauto.
  - intros p name r s [= <-] H _ _. by right.
Qed.

Lemma put_event_frame e s : s_name (put_event e s) = s_name s /\ s_closed (put_event e s) = s_closed s /\
  s_replay (put_event e s) = s_replay s /\
  (s_closed s = false -> s_missed (put_event e s) = false -> s_missed s = false /\ seen (put_event e s) = seen s ++ [e]).
Proof.
  unfold put_event. destruct (s_closed s) eqn:Hc; [done|]. destruct (_ <? _); simpl; split_and!; try done.
  intros _ Hm. split; [done|]. unfold seen. simpl. by rewrite app_assoc.
Qed.

Lemma publish_visit_inv name m m' : manager_inv m -> publish_visit name m = Some m' -> manager_inv m'.
Proof.
  intros [I1 I2 I3 I4 I5] (p & Hp & (r & Hr & H)%bind_Some)%bind_Some. case_bool_decide as Hv; [done|]. simplify_eq.
  destruct (I3 p Hp) as (Hd & He & Hvis).
  assert (forall n r', subscriptions m !! n = Some r' -> n <> name -> r' <> r) as Hne.
  { intros n r' H Hn ->. destruct (I1 n r H) as (x & Hx & <- & _), (I1 name r Hr) as (y & Hy & <- & _). by simplify_eq. }
  split; simpl.
  - intros n r' H. destruct (I1 n r' H) as (x & Hx & Hn & Hc). rewrite lookup_alter_table.
    destruct (decide (r' = r)) as [->|]; [|by eauto]. rewrite Hx. simpl. eexists. split; [done|].
    destruct (put_event_frame (p_event p) x) as (-> & -> & _). done.
  - done.
  - intros q [= <-]. simpl. split; [etransitivity; [apply delete_subseteq|done]|]. split; [done|].
    intros n [->%elem_of_singleton|Hn]%elem_of_union; [apply lookup_delete_eq|].
    destruct (decide (n = name)) as [->|?]; [apply lookup_delete_eq|]. rewrite lookup_delete_ne by done. by apply Hvis.
  - intros n r' s H Hs Hrep Hm. rewrite lookup_alter_table in Hs. destruct (decide (n = name)) as [->|Hn].
    + simplify_eq. rewrite decide_True in Hs by done. apply fmap_Some in Hs as (x & Hx & ->).
      destruct (I1 name r Hr) as (y & Hy & Hyn & Hyc). simplify_eq.
      destruct (put_event_frame (p_event p) x) as (F1 & _ & F2 & F3). destruct (F3 Hyc Hm) as [Hxm Hseen].
      rewrite F2 in Hrep. destruct (I4 _ _ _ Hr Hx Hrep Hxm) as (before & Hb & Hn).
      destruct (I5 p _ _ _ Hp Hr Hx Hrep) as [?|Hdue]; [done|]. exists before.
      unfold events_for, due_now in *. simpl. rewrite Hp, F1 in *. rewrite lookup_delete_eq.
      rewrite bool_decide_eq_true_2 in Hb by (by rewrite Hdue). rewrite bool_decide_eq_false_2 by (by intros []).
      rewrite <- He in I2. apply last_Some in I2 as [l Hl]. rewrite Hl, removelast_last in *.
      rewrite Hseen. split; [by rewrite Hb, app_assoc|]. intros E. by apply app_eq_nil in E as [_ ?].
    + rewrite decide_False in Hs by (by eapply Hne). destruct (I1 n r' H) as (y & Hy & Hyn & _). simplify_eq.
      apply (current_same m); [|done|by eapply I4]. unfold due_now. simpl. rewrite Hp. simpl. by rewrite lookup_delete_ne.
  - intros q n r' s [= <-] H Hs Hrep. simpl. destruct (decide (n = name)) as [->|Hn]; [left; set_solver|].
    rewrite lookup_alter_table, decide_False in Hs by (by eapply Hne). rewrite lookup_delete_ne by done.
    destruct (I5 p _ _ _ Hp H Hs Hrep) as [?|?]; [left; set_solver|by right].
Qed.

Lemma publish_end_inv m m' : manager_inv m -> publish_end m = Some m' -> manager_inv m'.
Proof.
  intros [I1 I2 I3 I4 I5] (p & Hp & H)%bind_Some. case_bool_decide as Hd; [|done]. simplify_eq. split; simpl; try done.
  intros name r s H Hs Hr Hm. apply (current_same m); [|done|by eapply I4]. unfold due_now. simpl.
  rewrite Hp, Hd, lookup_empty. by rewrite bool_decide_eq_false_2 by (by intros []).
Qed.

Lemma read_event_inv r m m' : manager_inv m -> read_event r m = Some m' -> manager_inv m'.
Proof.
  intros [I1 I2 I3 I4 I5] (s & Hs & H)%bind_Some. destruct (s_Events s) as [|e rest] eqn:Ee; [done|]. simplify_eq.
  assert (forall r' x, table (set_table (alter (fun s => mkSubscription (s_name s) (s_size s) rest (s_closed s)
      (s_read s ++ [e]) (s_replay s) (s_missed s)) r (table m)) m) !! r' = Some x ->
    exists y, table m !! r' = Some y /\ s_name x = s_name y /\ s_replay x = s_replay y /\ s_missed x = s_missed y /\ seen x = seen y) as Hk.
  { intros r' x. simpl. rewrite lookup_alter_table. destruct (decide (r' = r)) as [->|]; [|by eauto 10].
    rewrite Hs. simpl. intros [= <-]. exists s. unfold seen. simpl. rewrite Ee, <- app_assoc. done. }
  split; try done.
  - intros name r' H. destruct (I1 name r' H) as (x & Hx & Hn & Hc). simpl. rewrite lookup_alter_table.
    destruct (decide (r' = r)) as [->|]; [|by eauto]. rewrite Hx. simpl. eauto.
  - intros name r' x H (y & Hy & En & Er & Em & Es)%Hk Hrep Hm. rewrite Er in Hrep. rewrite Em in Hm.
    pose proof (I4 name r' y H Hy Hrep Hm) as Hcur. unfold current, events_for, due_now in *. by rewrite En, Es.
  - intros p name r' x Hp H (y & Hy & _ & Er & _)%Hk Hrep. rewrite Er in Hrep. by eapply I5.
Qed.

Lemma sub_steps_inv l m m' : manager_inv m -> sub_steps l m = Some m' -> manager_inv m'.
Proof.
  revert m. induction l as [|a l IH]; intros m I; simpl; [by intros [= <-]|].
  intros (m1 & H1 & H2)%bind_Some. eapply IH; [|done]. destruct a; simpl in H1.
  - eapply store_new_inv; [done| | |exact H1]; done.
  - by eapply replay_inv.
  - by eapply Unsubscribe_inv.
  - by eapply publish_begin_inv.
  - by eapply publish_visit_inv.
  - by eapply publish_end_inv.
  - by eapply read_event_inv.
Qed.

Lemma new_manager_inv : manager_inv NewSubscriptionManager.
Proof. split; simpl; try done; by intros ? ?; rewrite lookup_empty. Qed.

(** A subscriber with replay is never stale: whatever subscribes, unsubscribes
    and publishes around it, once no publish is in progress a registered
    subscriber that had room for its events has seen, as its latest event, the
    latest event published, and everything published since its first. *)
Theorem replay_not_stale l m name r s : sub_steps l NewSubscriptionManager = Some m -> publishing m = None ->
  subscriptions m !! name = Some r -> table m !! r = Some s -> s_replay s = true -> s_missed s = false ->
  last (seen s) = lastEvent m /\ exists before, published m = before ++ seen s.
Proof.
  intros Hl Hp Hn Hs Hr Hm. pose proof (sub_steps_inv _ _ _ new_manager_inv Hl) as I.
  destruct (mi_current _ I _ _ _ Hn Hs Hr Hm) as (before & Hb & He). unfold events_for, due_now in *. rewrite Hp in *.
  split; [|by eauto]. rewrite <- (mi_last _ I), Hb. destruct (seen s) as [|e rest] eqn:E.
  - rewrite He in Hb by done. by destruct before.
  - symmetry. apply last_app_cons.
Qed.
End Manager.
Arguments SubscriptionManager T : clear implicits.
Arguments Subscription T : clear implicits.

(** ** Runs *)

Definition demo_steps : list (@sub_action Z) :=
  [DoPublish 1; DoPublished; DoSubscribeReplay "caps" 100; DoPublish 2; DoSubscribe "other" 100; DoVisit "caps";
   DoVisit "other"; DoPublished; DoRead 0].

Definition demo_manager : option (SubscriptionManager Z) := sub_steps demo_steps NewSubscriptionManager.

Lemma replay_not_stale_witness : exists m s, demo_manager = Some m /\ last (seen s) = lastEvent m /\ seen s = [1; 2].
Proof.
  destruct demo_manager as [m|] eqn:E; [|discriminate E]. pose proof E as E'. vm_compute in E'. injection E' as E'.
  exists m, (mkSubscription "caps" 100 [2] false [1] true false). split; [reflexivity|]. split; [|reflexivity].
  apply (replay_not_stale demo_steps m "caps" 0 _ E); subst m; reflexivity.
Defined.

(** A second [Unsubscribe] of an old subscription removes the one registered under
    the same name since then: it stays open and gets no further event. *)
Definition twice_steps : list (@sub_action Z) :=
  [DoSubscribeReplay "caps" 100; DoUnsubscribe 0; DoSubscribeReplay "caps" 100; DoUnsubscribe 0; DoPublish 1; DoPublished].

Lemma second_unsubscribe_removes_successor :
  (fun m => (subscriptions m !! "caps", (fun s => (s_closed s, seen s)) <$> table m !! 1%nat, lastEvent m))
    <$> sub_steps twice_steps NewSubscriptionManager = Some (None, Some (false, []), Some 1).
Proof. vm_compute. reflexivity. Qed.
