(* ===== verification/JsonStream.v ===== *)
(** Streaming the result of a JSON-RPC response: the byte counter that finds the
    end of a JSON value ([internal/protocol/json_rpc_stream.go]), the copy of the
    value to a sink in chunks ([internal/server/emerald/json_rpc_result_stream.go])
    and the emitter of the chunks ([grpc_blockchain.go]). *)

From S2P Require Import Prelude.
From S2P Require Import GoStrings.
From Stdlib Require Import Ascii.

Abbreviation bytes := (list ascii).

Definition backslash : ascii := "092".

Definition isJSONWhitespace (b : ascii) : bool :=
  bool_decide (b ∈ [" "%char; "009"%char; "010"%char; "013"%char]).

(** ** The counter *)

Inductive counterKind := counterNone | counterObject | counterArray | counterString | counterScalar.

#[export] Instance counterKind_eq_dec : EqDecision counterKind.
Proof. solve_decision. Defined.

Record ResultCounter := mkResultCounter {
  c_kind : counterKind;
  depth : Z;
  inStr : bool;
  escape : bool;
}.

Inductive StepResult := StepContinue | StepFinishHere | StepStopBefore.

Definition set_str (s esc : bool) (c : ResultCounter) : ResultCounter :=
  mkResultCounter (c_kind c) (depth c) s esc.
Definition set_depth (d : Z) (c : ResultCounter) : ResultCounter :=
  mkResultCounter (c_kind c) d (inStr c) (escape c).

Definition stepBracket (b open close : ascii) (c : ResultCounter) : StepResult * ResultCounter :=
  if inStr c then
    if escape c then (StepContinue, set_str true false c)
    else if bool_decide (b = backslash) then (StepContinue, set_str true true c)
    else if bool_decide (b = quote) then (StepContinue, set_str false false c)
    else (StepContinue, c)
  else if bool_decide (b = quote) then (StepContinue, set_str true (escape c) c)
  else if bool_decide (b = open) then (StepContinue, set_depth (depth c + 1) c)
  else if bool_decide (b = close) then
    if 0 <? depth c then
      let c' := set_depth (depth c - 1) c in
      (if depth c' =? 0 then StepFinishHere else StepContinue, c')
    else (StepContinue, c)
  else (StepContinue, c).

Definition stepString (b : ascii) (c : ResultCounter) : StepResult * ResultCounter :=
  if escape c then (StepContinue, set_str (inStr c) false c)
  else if bool_decide (b = backslash) then (StepContinue, set_str (inStr c) true c)
  else if bool_decide (b = quote) then
    if negb (inStr c) then (StepContinue, set_str true (escape c) c) else (StepFinishHere, c)
  else (StepContinue, c).

Definition scalar_end (b : ascii) : bool :=
  bool_decide (b ∈ [","%char; "}"%char; "]"%char; " "%char; "009"%char; "010"%char; "013"%char]).

Definition stepScalar (b : ascii) (c : ResultCounter) : StepResult * ResultCounter :=
  (if scalar_end b then StepStopBefore else StepContinue, c).

Definition Step (b : ascii) (c : ResultCounter) : StepResult * ResultCounter :=
  match c_kind c with
  | counterObject => stepBracket b "{" "}" c
  | counterArray => stepBracket b "[" "]" c
  | counterString => stepString b c
  | counterScalar => stepScalar b c
  | counterNone => (StepFinishHere, c)
  end.

(** ** Locating a value *)

Definition primed (k : counterKind) : ResultCounter := mkResultCounter k 0 false false.

(** The counter for a value that begins with [b]. *)
Definition counter_for (b : ascii) : ResultCounter :=
  primed (if bool_decide (b = "{"%char) then counterObject
          else if bool_decide (b = "["%char) then counterArray
          else if bool_decide (b = quote) then counterString
          else counterScalar).

(** The number of leading white-space bytes. *)
Fixpoint count_ws (s : bytes) : nat :=
  match s with
  | b :: s' => if isJSONWhitespace b then S (count_ws s') else 0%nat
  | [] => 0%nat
  end.

Definition resultValueStart (buf : bytes) (offsetAfterKey : nat) : option (nat * ResultCounter) :=
  let p := (offsetAfterKey + count_ws (drop offsetAfterKey buf))%nat in
  match drop p buf with
  | [] => None
  | b :: _ =>
    if negb (bool_decide (b = ":"%char)) then None
    else
      let p := S p in
      let p := (p + count_ws (drop p buf))%nat in
      match drop p buf with
      | [] => None
      | b :: _ => Some (p, counter_for b)
      end
  end.

(** [skipResultValueBytes] on the bytes from [start] on, at offset [i]. *)
Fixpoint skip_loop (i : nat) (s : bytes) (c : ResultCounter) : nat * bool :=
  match s with
  | [] => (i, false)
  | b :: s' =>
    match Step b c with
    | (StepContinue, c) => skip_loop (S i) s' c
    | (StepFinishHere, _) => (S i, true)
    | (StepStopBefore, _) => (i, true)
    end
  end.

Definition skipResultValueBytes (buf : bytes) (start : nat) (c : ResultCounter) : nat * bool :=
  skip_loop start (drop start buf) c.

(** ** Copying a value to a sink *)

(** What is written: the bytes and whether they complete the value. *)
Abbreviation Write := (bytes * bool)%type.

(** The loop of [emitFromBuffer]; [flushed] are the bytes since [flushStart]. *)
Fixpoint emit_loop (flushed s : bytes) (c : ResultCounter) : list Write * bool * ResultCounter :=
  match s with
  | [] => (if bool_decide (flushed = []) then [] else [(flushed, false)], false, c)
  | b :: s' =>
    match Step b c with
    | (StepContinue, c) => emit_loop (flushed ++ [b]) s' c
    | (StepFinishHere, c) => ([(flushed ++ [b], true)], true, c)
    | (StepStopBefore, c) => (if bool_decide (flushed = []) then [] else [(flushed, true)], true, c)
    end
  end.

Definition emitFromBuffer (buf : bytes) (c : ResultCounter) : list Write * bool * ResultCounter :=
  emit_loop [] buf c.

(** The chunks the rest of the body is read in, until the value is complete. *)
Fixpoint emit_chunks (bufs : list bytes) (c : ResultCounter) : list Write * bool :=
  match bufs with
  | [] => ([], false)
  | buf :: bufs' =>
    let '(ws, done, c) := emitFromBuffer buf c in
    if done then (ws, true)
    else let '(ws', done) := emit_chunks bufs' c in (ws ++ ws', done)
  end.

Inductive StreamError := ResultMissing | ResultTruncated.

Definition MaxChunkSize : Z := 8192.

(** [streamJsonRPCResult] on a body without read errors: the first
    [MaxChunkSize] bytes, then the [rest] in the chunks it is read in. *)
Definition streamJsonRPCResult (prefix : bytes) (rest : list bytes) (start : Z) (c : ResultCounter)
    : list Write * option StreamError :=
  let exhausted := Z.of_nat (length prefix) <? MaxChunkSize in
  if (start <? 0) || (Z.of_nat (length prefix) <? start) then ([], Some ResultMissing)
  else
    let '(ws, done, c) := emitFromBuffer (drop (Z.to_nat start) prefix) c in
    if done then (ws, None)
    else if exhausted then (ws, Some ResultTruncated)
    else
      let '(ws', completed) := emit_chunks rest c in
      (ws ++ ws', if completed then None else Some ResultTruncated).

(** ** The chunks of a reply *)

Record Emitter := mkEmitter { emitted : bool; finalSent : bool }.

Record ReplyChunk := mkReplyChunk { chunk : bytes; first : bool; final : bool }.

Definition WriteChunk (p : bytes) (fin : bool) (e : Emitter) : list ReplyChunk * Emitter :=
  if bool_decide (p = []) && negb fin then ([], e)
  else ([mkReplyChunk p (negb (emitted e)) fin], mkEmitter true (finalSent e || fin)).

Definition Finish (e : Emitter) : list ReplyChunk * Emitter :=
  if finalSent e then ([], e) else WriteChunk [] true e.

Fixpoint write_all (ws : list Write) (e : Emitter) : list ReplyChunk * Emitter :=
  match ws with
  | [] => ([], e)
  | (p, fin) :: ws' =>
    let '(items, e) := WriteChunk p fin e in
    let '(items', e) := write_all ws' e in
    (items ++ items', e)
  end.

(** [streamNativeCallBody] for a JSON-RPC result. *)
Definition streamNativeCallBody (prefix : bytes) (rest : list bytes) (start : Z) (c : ResultCounter)
    : list ReplyChunk * option StreamError :=
  let '(ws, err) := streamJsonRPCResult prefix rest start c in
  let '(items, e) := write_all ws (mkEmitter false false) in
  match err with
  | Some err => (items, Some err)
  | None => (items ++ (Finish e).1, None)
  end.

(** ** JSON texts *)

Definition ws (s : bytes) : Prop := Forall (fun b => isJSONWhitespace b = true) s.

(** The inside of a string: characters other than the quote and the backslash,
    and escapes. *)
Inductive str_body : bytes -> Prop :=
| str_nil : str_body []
| str_char b s : b <> quote -> b <> backslash -> str_body s -> str_body (b :: s)
| str_escape b s : str_body s -> str_body (backslash :: b :: s).

Definition str_text (s : bytes) : Prop := exists b, s = quote :: b ++ [quote] /\ str_body b.

(** Numbers and literals: no byte that ends a scalar, a string or opens another
    kind of value. *)
Definition scalar_text (s : bytes) : Prop :=
  s <> [] /\ Forall (fun b => scalar_end b = false /\ b ∉ ["{"%char; "["%char; quote]) s.

Inductive value_text : bytes -> Prop :=
| v_scalar s : scalar_text s -> value_text s
| v_string s : str_text s -> value_text s
| v_array s : elements s -> value_text ("["%char :: s ++ ["]"%char])
| v_object s : members s -> value_text ("{"%char :: s ++ ["}"%char])
with elements : bytes -> Prop :=
| e_empty w : ws w -> elements w
| e_one w v w' : ws w -> value_text v -> ws w' -> elements (w ++ v ++ w')
| e_cons w v w' s : ws w -> value_text v -> ws w' -> elements s -> elements (w ++ v ++ w' ++ ","%char :: s)
with members : bytes -> Prop :=
| m_empty w : ws w -> members w
| m_one w k w1 w2 v w' : ws w -> str_text k -> ws w1 -> ws w2 -> value_text v -> ws w' ->
    members (w ++ k ++ w1 ++ ":"%char :: w2 ++ v ++ w')
| m_cons w k w1 w2 v w' s : ws w -> str_text k -> ws w1 -> ws w2 -> value_text v -> ws w' -> members s ->
    members (w ++ k ++ w1 ++ ":"%char :: w2 ++ v ++ w' ++ ","%char :: s).

Scheme value_mut := Induction for value_text Sort Prop
with elements_mut := Induction for elements Sort Prop
with members_mut := Induction for members Sort Prop.
Combined Scheme json_mut from value_mut, elements_mut, members_mut.

(** ** The counter over a text *)

Fixpoint run (c : ResultCounter) (s : bytes) : option ResultCounter :=
  match s with
  | [] => Some c
  | b :: s' => match Step b c with (StepContinue, c') => run c' s' | _ => None end
  end.

(** The value at the front of [s], when [s] has its end. *)
Fixpoint upto (c : ResultCounter) (s : bytes) : option bytes :=
  match s with
  | [] => None
  | b :: s' =>
    match Step b c with
    | (StepContinue, c') => cons b <$> upto c' s'
    | (StepFinishHere, _) => Some [b]
    | (StepStopBefore, _) => Some []
    end
  end.

Lemma run_app c c' s t : run c s = Some c' -> run c (s ++ t) = run c' t.
Proof.
  revert c. induction s as [|b s IH]; intros c; simpl; [by intros [= ->]|].
  destruct (Step b c) as [[] c1]; [apply IH|done..].
Qed.

Lemma upto_run c c' s t : run c s = Some c' -> upto c (s ++ t) = app s <$> upto c' t.
Proof.
  revert c. induction s as [|b s IH]; intros c; simpl; [intros [= ->]; by destruct (upto c' t)|].
  destruct (Step b c) as [[] c1]; [|done..]. intros Hr. rewrite (IH _ Hr). by destruct (upto c' t).
Qed.

Lemma upto_app c s t v : upto c s = Some v -> upto c (s ++ t) = Some v.
Proof.
  revert c v. induction s as [|b s IH]; intros c v; simpl; [done|].
  destruct (Step b c) as [[] c1]; [|done..]. destruct (upto c1 s) as [v'|] eqn:E; [|done].
  by rewrite (IH _ _ E).
Qed.

Lemma upto_none c s : upto c s = None -> exists c', run c s = Some c'.
Proof.
  revert c. induction s as [|b s IH]; intros c; simpl; [eauto|].
  destruct (Step b c) as [[] c1]; [|done..]. destruct (upto c1 s) eqn:E; [done|]. intros _. by apply IH.
Qed.

(** *** Inside brackets, a value leaves the counter as it is *)

Definition open_counter (c : ResultCounter) : Prop :=
  (c_kind c = counterObject \/ c_kind c = counterArray) /\ 0 < depth c /\ inStr c = false /\ escape c = false.

Definition plain (b : ascii) : Prop :=
  b <> quote /\ b ∉ ["{"%char; "}"%char; "["%char; "]"%char].

Lemma Step_plain c b : open_counter c -> plain b -> Step b c = (StepContinue, c).
Proof.
  intros ([Hk|Hk] & _ & Hs & _) [Hq Hb]; rewrite !not_elem_of_cons in Hb; unfold Step; rewrite Hk;
    unfold stepBracket; rewrite Hs; destruct Hb as (H1 & H2 & H3 & H4 & _); by rewrite !bool_decide_eq_false_2.
Qed.

Lemma run_plain c s : open_counter c -> Forall plain s -> run c s = Some c.
Proof.
  intros Hc. induction 1 as [|b s Hb _ IH]; simpl; [done|]. by rewrite (Step_plain c b Hc Hb).
Qed.

Lemma ws_plain s : ws s -> Forall plain s.
Proof.
  intros Hw. eapply Forall_impl; [exact Hw|]. intros b Hb. unfold isJSONWhitespace in Hb.
  apply bool_decide_eq_true in Hb. rewrite !elem_of_cons, elem_of_nil in Hb.
  destruct Hb as [-> |[-> |[-> |[-> |[]]]]]; (split; [done|rewrite !not_elem_of_cons; repeat split; try done;
    apply not_elem_of_nil]).
Qed.

Lemma scalar_plain s : scalar_text s -> Forall plain s.
Proof.
  intros [_ Hs]. eapply Forall_impl; [exact Hs|]. intros b [He Hb]. unfold scalar_end in He.
  apply bool_decide_eq_false in He. rewrite !not_elem_of_cons in He, Hb.
  destruct He as (_ & H1 & H2 & _), Hb as (H3 & H4 & H5 & _). split; [done|].
  rewrite !not_elem_of_cons. repeat split; try done. apply not_elem_of_nil.
Qed.

(** Inside a string, brackets do not count. *)
Lemma run_body k d s : k = counterObject \/ k = counterArray -> str_body s ->
  run (mkResultCounter k d true false) s = Some (mkResultCounter k d true false).
Proof.
  intros Hk. induction 1 as [|b s Hq Hb _ IH|b s _ IH]; [done| |].
  - simpl. destruct Hk as [-> | ->]; unfold Step, stepBracket; simpl;
      rewrite !bool_decide_eq_false_2 by done; exact IH.
  - simpl. by destruct Hk as [-> | ->].
Qed.

Lemma run_string c s : open_counter c -> str_text s -> run c s = Some c.
Proof.
  intros (Hk & Hd & Hs & He) (b & -> & Hb). destruct c as [k d si es]. simpl in *. subst si es.
  assert (run (mkResultCounter k d true false) (b ++ [quote]) = Some (mkResultCounter k d false false)) as Hrun.
  { rewrite (run_app _ _ _ _ (run_body k d b Hk Hb)). simpl. by destruct Hk as [-> | ->]. }
  destruct Hk as [-> | ->]; exact Hrun.
Qed.

Definition brackets (k : counterKind) : ascii * ascii :=
  match k with counterObject => ("{"%char, "}"%char) | _ => ("["%char, "]"%char) end.

(** A bracketed text whose inside is neutral at every depth is neutral. *)
Lemma run_nested c k s :
  k = counterObject \/ k = counterArray -> open_counter c -> (forall c', open_counter c' -> run c' s = Some c') ->
  run c ((brackets k).1 :: s ++ [(brackets k).2]) = Some c.
Proof.
  intros Hk Hc Hs. destruct c as [kc d si es]. destruct Hc as (Hkc & Hd & Hsi & Hes). simpl in *. subst si es.
  assert (open_counter (mkResultCounter kc d false false)) as Hc by done.
  assert (open_counter (mkResultCounter kc (d + 1) false false)) as Hc1.
  { split_and!; [done|simpl; lia|done..]. }
  assert (run (mkResultCounter kc (d + 1) false false) (s ++ [(brackets k).2]) =
    run (mkResultCounter kc (d + 1) false false) [(brackets k).2]) as H1 by (apply run_app, Hs, Hc1).
  assert (run (mkResultCounter kc d false false) (s ++ [(brackets k).2]) =
    run (mkResultCounter kc d false false) [(brackets k).2]) as H2 by (apply run_app, Hs, Hc).
  destruct Hk as [-> | ->], Hkc as [-> | ->]; simpl in *; try exact H2; unfold set_depth in *; simpl in *; rewrite H1;
    simpl; unfold Step, stepBracket, set_depth; simpl;
    rewrite (proj2 (Z.ltb_lt 0 (d + 1))) by lia; rewrite (proj2 (Z.eqb_neq (d + 1 - 1) 0)) by lia;
    by rewrite Z.add_simpl_r.
Qed.

Lemma run_trans c s t : run c s = Some c -> run c t = Some c -> run c (s ++ t) = Some c.
Proof. intros Hs Ht. by rewrite (run_app _ _ _ _ Hs). Qed.

Lemma comma_plain : plain ","%char.
Proof. split; [done|]. rewrite !not_elem_of_cons. repeat split; try done. apply not_elem_of_nil. Qed.
Lemma colon_plain : plain ":"%char.
Proof. split; [done|]. rewrite !not_elem_of_cons. repeat split; try done. apply not_elem_of_nil. Qed.

Lemma json_neutral :
  (forall s, value_text s -> forall c, open_counter c -> run c s = Some c) /\
  (forall s, elements s -> forall c, open_counter c -> run c s = Some c) /\
  (forall s, members s -> forall c, open_counter c -> run c s = Some c).
Proof.
  assert (forall c w, open_counter c -> ws w -> run c w = Some c) as Hw.
  { intros c w Hc H. by apply run_plain, ws_plain. }
  assert (forall c b s, open_counter c -> plain b -> run c s = Some c -> run c (b :: s) = Some c) as Hb.
  { intros c b s Hc H Hs. simpl. by rewrite Step_plain. }
  apply json_mut; intros; repeat apply run_trans; try (apply Hb; [done|by (apply comma_plain || apply colon_plain)|]);
    repeat apply run_trans; try (by apply Hw); try (by apply run_string); auto.
  - by apply run_plain, scalar_plain.
  - by apply (run_nested c counterArray); [right|..].
  - by apply (run_nested c counterObject); [left|..].
  - apply Hb; [done|apply comma_plain|auto].
Qed.

(** *** The end of a value *)

Lemma upto_string b t : str_body b ->
  upto (mkResultCounter counterString 0 true false) (b ++ quote :: t) = Some (b ++ [quote]).
Proof.
  induction 1 as [|c s Hq Hb _ IH|c s _ IH]; [done| |]; simpl.
  - unfold Step, stepString. simpl. rewrite !bool_decide_eq_false_2 by done. by rewrite IH.
  - unfold set_str. simpl. by rewrite IH.
Qed.

Lemma upto_bracket k s t :
  k = counterObject \/ k = counterArray -> (forall c, open_counter c -> run c s = Some c) ->
  upto (primed k) ((brackets k).1 :: s ++ (brackets k).2 :: t) = Some ((brackets k).1 :: s ++ [(brackets k).2]).
Proof.
  intros Hk Hs. assert (open_counter (mkResultCounter k 1 false false)) as Hc by (split_and!; [done|simpl; lia|done..]).
  assert (upto (primed k) ((brackets k).1 :: s ++ (brackets k).2 :: t) =
    cons (brackets k).1 <$> upto (mkResultCounter k 1 false false) (s ++ (brackets k).2 :: t)) as ->
    by (destruct Hk as [-> | ->]; done).
  rewrite (upto_run _ _ _ _ (Hs _ Hc)). destruct Hk as [-> | ->]; done.
Qed.

Lemma upto_scalar s t b : scalar_text s -> scalar_end b = true -> upto (primed counterScalar) (s ++ b :: t) = Some s.
Proof.
  intros [_ Hs] Hb. induction Hs as [|c s [Hc _] _ IH]; simpl; unfold Step, stepScalar; simpl.
  - by rewrite Hb.
  - rewrite Hc. by rewrite IH.
Qed.

(** What may follow a value in an envelope. *)
Definition value_follows (t : bytes) : Prop := exists b t', t = b :: t' /\ scalar_end b = true.

Definition first_byte (s : bytes) : ascii := default " "%char (head s).

Lemma upto_value v t : value_text v -> value_follows t ->
  upto (counter_for (first_byte v)) (v ++ t) = Some v.
Proof.
  intros Hv (b & t' & -> & Hb). destruct json_neutral as (_ & He & Hm). destruct Hv as [s Hs|s Hs|s Hs|s Hs].
  - assert (counter_for (first_byte s) = primed counterScalar) as ->; [|by apply upto_scalar].
    destruct Hs as [Hne Hs]. destruct s as [|c s]; [done|]. apply Forall_inv in Hs as [_ Hc].
    rewrite !not_elem_of_cons in Hc. destruct Hc as (H1 & H2 & H3 & _). unfold counter_for. simpl.
    by rewrite !bool_decide_eq_false_2.
  - destruct Hs as (body & -> & Hbody). rewrite <- app_comm_cons, <- app_assoc. simpl.
    unfold set_str. simpl. by rewrite upto_string.
  - rewrite <- app_comm_cons, <- app_assoc. apply (upto_bracket counterArray); [by right|]. intros c Hc. by apply He.
  - rewrite <- app_comm_cons, <- app_assoc. apply (upto_bracket counterObject); [by left|]. intros c Hc. by apply Hm.
Qed.

(** *** What is written *)

Definition tail_writes (p : bytes) (fin : bool) : list Write := if bool_decide (p = []) then [] else [(p, fin)].

Lemma emit_loop_spec fl s c :
  match upto c s with
  | Some v => exists c', emit_loop fl s c = (tail_writes (fl ++ v) true, true, c')
  | None => exists c', run c s = Some c' /\ emit_loop fl s c = (tail_writes (fl ++ s) false, false, c')
  end.
Proof.
  revert fl c. induction s as [|b s IH]; intros fl c; simpl.
  - exists c. by rewrite app_nil_r.
  - destruct (Step b c) as [[] c1].
    + specialize (IH (fl ++ [b]) c1). destruct (upto c1 s) as [v|]; simpl; by rewrite <- app_assoc in IH.
    + exists c1. unfold tail_writes. rewrite bool_decide_eq_false_2; [done|]. by destruct fl.
    + exists c1. by rewrite app_nil_r.
Qed.

(** Writes that make up [v], of which at most the last is marked as final. *)
Definition good_writes (l : list Write) (v : bytes) : Prop :=
  concat l.*1 = v /\ Forall (fun w => w.1 <> []) l /\
  exists init fin, l = init ++ fin /\ Forall (fun w => w.2 = false) init /\ (fin = [] \/ exists p, fin = [(p, true)]).

Lemma good_tail p : good_writes (tail_writes p true) p.
Proof.
  unfold tail_writes. case_bool_decide as E; [subst|].
  - split_and!; [done|constructor|]. exists [], []. by split_and!; [|constructor|left].
  - split_and!; [simpl; by rewrite app_nil_r|by repeat constructor|]. exists [], [(p, true)].
    split_and!; [done|constructor|eauto].
Qed.

Lemma good_more p l v : good_writes l v -> good_writes (tail_writes p false ++ l) (p ++ v).
Proof.
  unfold tail_writes. case_bool_decide as E; [by subst|]. intros (Hc & Hne & init & fin & -> & Hi & Hf).
  split_and!; [by rewrite <- Hc|by constructor|]. exists ((p, false) :: init), fin. by split_and!; [|constructor|].
Qed.

Lemma emit_chunks_good bufs c v :
  upto c (concat bufs) = Some v -> exists l, emit_chunks bufs c = (l, true) /\ good_writes l v.
Proof.
  revert c v. induction bufs as [|buf bufs IH]; intros c v; simpl; [done|]. unfold emitFromBuffer.
  pose proof (emit_loop_spec [] buf c) as He. destruct (upto c buf) as [v'|] eqn:Eu.
  - intros Hu. rewrite (upto_app _ _ _ _ Eu) in Hu. injection Hu as <-. destruct He as [c' ->].
    eexists. split; [done|apply good_tail].
  - destruct He as (c' & Hr & ->). rewrite (upto_run _ _ _ _ Hr).
    destruct (upto c' (concat bufs)) as [v1|] eqn:Eu1; [|done]. intros [= <-].
    destruct (IH _ _ Eu1) as (l & -> & Hl). eexists. split; [done|by apply good_more].
Qed.

Lemma write_all_app l l' e :
  write_all (l ++ l') e =
  let '(i1, e1) := write_all l e in let '(i2, e2) := write_all l' e1 in (i1 ++ i2, e2).
Proof.
  revert e. induction l as [|[p f] l IH]; intros e; simpl; [by destruct (write_all l' e)|].
  destruct (WriteChunk p f e) as [it e1]. rewrite IH. destruct (write_all l e1) as [i1 e2].
  destruct (write_all l' e2) as [i2 e3]. by rewrite app_assoc.
Qed.

(** Writes before the last. *)
Lemma write_all_init l em :
  Forall (fun w => w.1 <> [] /\ w.2 = false) l ->
  exists items, write_all l (mkEmitter em false) = (items, mkEmitter (em || negb (bool_decide (l = []))) false) /\
    concat (map chunk items) = concat l.*1 /\ Forall (fun x => final x = false) items /\ (items = [] <-> l = []) /\
    forall i x, items !! i = Some x -> first x = negb em && bool_decide (i = 0%nat).
Proof.
  intros Hl. revert em. induction Hl as [|[p f] l [Hp Hf] _ IH]; intros em.
  - exists []. rewrite orb_false_r. by split_and!; [..|constructor| |].
  - simpl in Hf, Hp. subst f. destruct (IH true) as (items & E & Hc & Hfi & _ & Hfst). simpl. unfold WriteChunk.
    rewrite bool_decide_eq_false_2 by done. simpl. rewrite E.
    exists (mkReplyChunk p (negb em) false :: items). split_and!.
    + by rewrite orb_true_r.
    + simpl. by rewrite Hc.
    + by constructor.
    + done.
    + intros [|i] x; simpl; [intros [= <-]; simpl; by rewrite andb_true_r|].
      intros Hx. rewrite (Hfst i x Hx). by rewrite andb_false_r.
Qed.

Definition good_reply (all : list ReplyChunk) (v : bytes) : Prop :=
  concat (map chunk all) = v /\
  exists init p, all = init ++ [p] /\ final p = true /\ Forall (fun x => final x = false) init /\
    forall i x, all !! i = Some x -> first x = bool_decide (i = 0%nat).

Lemma write_all_good l v : good_writes l v ->
  let '(items, e) := write_all l (mkEmitter false false) in good_reply (items ++ (Finish e).1) v.
Proof.
  intros (Hc & Hne & init & fin & -> & Hi & Hf). apply Forall_app in Hne as [Hne _].
  destruct (write_all_init init false) as (items & E & Hci & Hfi & Hnil & Hfst).
  { by apply Forall_and. }
  rewrite write_all_app, E. rewrite fmap_app, concat_app in Hc.
  set (em := false || negb (bool_decide (init = []))).
  assert (forall p, good_reply (items ++ [mkReplyChunk p (negb em) true]) (concat init.*1 ++ p)) as Hgood.
  { intros p. split; [rewrite map_app, concat_app, Hci; simpl; by rewrite app_nil_r|].
    eexists items, _. split_and!; [done..|]. intros i x [Hx|[Hlen Hx]]%lookup_app_Some; [by apply Hfst|].
    apply list_lookup_singleton_Some in Hx as [Hz <-]. simpl. unfold em. simpl. rewrite negb_involutive.
    apply bool_decide_ext. rewrite <- Hnil, <- length_zero_iff_nil. lia. }
  destruct Hf as [-> |[p ->]]; simpl.
  - rewrite app_nil_r. simpl in Hc. rewrite <- Hc. apply Hgood.
  - unfold WriteChunk. rewrite andb_false_r. simpl. rewrite app_nil_r.
    simpl in Hc. rewrite app_nil_r in Hc. rewrite <- Hc. apply Hgood.
Qed.

(** A streamed JSON-RPC result reaches the client byte for byte: for every JSON
    value that follows the key at [start] in a body, however the body is split
    into reads, the chunks sent make up exactly the value, the first one and only
    it carries the metadata, and exactly the last one is marked as final. *)
Theorem streamed_result_exact before v after prefix rest :
  value_text v -> value_follows after ->
  prefix ++ concat rest = before ++ v ++ after -> (length before < length prefix)%nat ->
  (Z.of_nat (length prefix) < MaxChunkSize -> rest = []) ->
  let '(items, err) :=
    streamNativeCallBody prefix rest (Z.of_nat (length before)) (counter_for (first_byte v)) in
  err = None /\ good_reply items v.
Proof.
  intros Hv Ha Hbody Hlen Hrest. unfold streamNativeCallBody, streamJsonRPCResult.
  rewrite (proj2 (Z.ltb_ge _ _)) by lia. rewrite (proj2 (Z.ltb_ge _ _)) by lia. simpl. rewrite Nat2Z.id.
  assert (drop (length before) prefix ++ concat rest = v ++ after) as Hcat.
  { rewrite <- (drop_app_le _ _ (length before)) by lia. rewrite Hbody. by rewrite drop_app_length. }
  pose proof (upto_value v after Hv Ha) as Hu. rewrite <- Hcat in Hu. unfold emitFromBuffer.
  pose proof (emit_loop_spec [] (drop (length before) prefix) (counter_for (first_byte v))) as He.
  destruct (upto (counter_for (first_byte v)) (drop (length before) prefix)) as [v'|] eqn:Eu.
  - rewrite (upto_app _ _ _ _ Eu) in Hu. injection Hu as ->. destruct He as [c' ->].
    pose proof (write_all_good _ _ (good_tail ([] ++ v))) as Hg. destruct (write_all _ _). by split.
  - destruct He as (c' & Hr & ->). rewrite (upto_run _ _ _ _ Hr) in Hu.
    destruct (upto c' (concat rest)) as [v1|] eqn:Eu1; [|done]. injection Hu as <-.
    destruct (Z.of_nat (length prefix) <? MaxChunkSize) eqn:Ex; [reflect_bool; by rewrite Hrest in Eu1|].
    destruct (emit_chunks_good _ _ _ Eu1) as (l & -> & Hl).
    pose proof (write_all_good _ _ (good_more (drop (length before) prefix) _ _ Hl)) as Hg. destruct (write_all _ _). by split.
Qed.

(** The body of a response whose result overflows the first chunk would be long;
    a short one is streamed the same way. *)
Lemma streamed_result_exact_witness :
  let body := String.list_ascii_of_string "{result:[1,[2]],id:1}" in
  let '(items, err) := streamNativeCallBody body [] 8 (counter_for "["%char) in
  err = None /\ concat (map chunk items) = String.list_ascii_of_string "[1,[2]]".
Proof.
  pose proof (streamed_result_exact (String.list_ascii_of_string "{result:") (String.list_ascii_of_string "[1,[2]]")
    (String.list_ascii_of_string ",id:1}") (String.list_ascii_of_string "{result:[1,[2]],id:1}") []) as Hw.
  assert (forall d, d ∈ ["1"%char; "2"%char] -> value_text [d]) as Hd.
  { intros d [-> |[-> |[]%elem_of_nil]%elem_of_cons]%elem_of_cons; apply v_scalar;
      (split; [done|by apply (bool_decide_unpack _); vm_compute]). }
  destruct Hw as [Herr [Hc _]].
  - apply (v_array ["1"%char; ","%char; "["%char; "2"%char; "]"%char]).
    apply (e_cons [] ["1"%char] [] ["["%char; "2"%char; "]"%char]); [constructor|apply Hd; set_solver|constructor|].
    apply (e_one [] ["["%char; "2"%char; "]"%char] []); [constructor| |constructor].
    apply (v_array ["2"%char]), (e_one [] ["2"%char] []); [constructor|apply Hd; set_solver|constructor].
  - by exists ","%char, (String.list_ascii_of_string "id:1}").
  - done.
  - simpl. lia.
  - done.
  - by split.
Defined.
