(* ===== verification/Protocol.v ===== *)
(** The protocol data shared by the components: availability statuses, blocks,
    lower bounds, labels, capabilities, the per-upstream state
    record and the state events of the upstream pipeline
    ([internal/protocol/data.go], [blocks.go], [lower_bounds.go],
    [upstream_state_events.go]). *)

From S2P Require Import Prelude.
From Stdlib Require Import Strings.Byte.

(** ** Availability *)

Inductive AvailabilityStatus :=
  Available | Immature | Syncing | Unavailable | UnknownStatus.

#[export] Instance AvailabilityStatus_eq_dec : EqDecision AvailabilityStatus.
Proof. solve_decision. Defined.

(** The integer value of the Go constant ([iota + 1], and [math.MaxInt]). *)
Definition status_code (s : AvailabilityStatus) : Z :=
  match s with
  | Available => 1 | Immature => 2 | Syncing => 3 | Unavailable => 4
  | UnknownStatus => two63 - 1
  end.

#[export] Instance status_code_inj : Inj (=) (=) status_code.
Proof. intros [] [] H; done || discriminate H. Qed.

Lemma status_code_min s : 1 <= status_code s.
Proof. by destruct s. Qed.

Definition LagExceeds (lag syncingLag : Z) : bool :=
  (0 <? syncingLag) && (syncingLag <? lag).

Definition StatusByLag (lag : Z) (avail : AvailabilityStatus) (syncingLag : Z)
    : AvailabilityStatus :=
  if bool_decide (avail = Available) && LagExceeds lag syncingLag
  then Syncing else avail.

(** A base availability other than [Available] is never changed by the lag,
    and [Available] becomes [Syncing] exactly above the threshold. *)
Lemma StatusByLag_available lag base sl :
  StatusByLag lag base sl = Available <-> base = Available /\ LagExceeds lag sl = false.
Proof.
  unfold StatusByLag. destruct (LagExceeds lag sl), base; simpl; naive_solver.
Qed.

(** ** Blocks *)

#[export] Instance byte_eq_dec : EqDecision byte := Byte.byte_eq_dec.

(** [blockchain.HashId] is a byte slice. *)
Abbreviation HashId := (list byte).

Record Block := mkBlock {
  Height : Z;
  Slot : Z;
  Hash : HashId;
  ParentHash : HashId;
  RawData : list byte;
}.

#[export] Instance Block_eq_dec : EqDecision Block.
Proof. solve_decision. Defined.

Definition ZeroBlock : Block := mkBlock 0 0 [] [] [].

(** The heights of a block are machine words. *)
Definition block_wf (b : Block) : Prop := is_u64 (Height b) /\ is_u64 (Slot b).

Definition HashId_Equals (a b : HashId) : bool := bool_decide (a = b).

Definition Block_Equals (b other : Block) : bool :=
  (Height b =? Height other) && (Slot b =? Slot other) &&
  HashId_Equals (Hash b) (Hash other) && HashId_Equals (ParentHash b) (ParentHash other).

(** [cmp.Compare]: [-1], [0] or [+1]. *)
Definition cmp_Compare (x y : Z) : Z :=
  if x <? y then -1 else if y <? x then 1 else 0.

Definition CompareWithHeight (b other : Block) : Z :=
  cmp_Compare (Height b) (Height other).

Definition IsEmptyByHeight (b : Block) : bool :=
  (Height b =? 0) && bool_decide (length (Hash b) = 0%nat) &&
  bool_decide (length (ParentHash b) = 0%nat).

Definition IsFullEmpty (b : Block) : bool :=
  (Height b =? 0) && (Slot b =? 0) && bool_decide (length (Hash b) = 0%nat) &&
  bool_decide (length (ParentHash b) = 0%nat).

Definition NewBlockWithHeight (h : Z) : Block := mkBlock h 0 [] [] [].

Definition NewBlock (h slot : Z) (hash parent : HashId) : Block :=
  mkBlock h slot hash parent [].

Definition NewBlockWithHeights (h slot : Z) : Block := mkBlock h slot [] [] [].

Lemma CompareWithHeight_eq a b : CompareWithHeight a b = 0 <-> Height a = Height b.
Proof.
  unfold CompareWithHeight, cmp_Compare.
  destruct (Height a <? Height b) eqn:?, (Height b <? Height a) eqn:?; reflect_bool; lia.
Qed.

Lemma CompareWithHeight_gt a b : CompareWithHeight a b = 1 <-> Height b < Height a.
Proof.
  unfold CompareWithHeight, cmp_Compare.
  destruct (Height a <? Height b) eqn:?, (Height b <? Height a) eqn:?; reflect_bool; lia.
Qed.

Lemma Block_Equals_refl b : Block_Equals b b = true.
Proof.
  unfold Block_Equals, HashId_Equals. rewrite !Z.eqb_refl, !bool_decide_eq_true_2; done.
Qed.

Lemma IsEmptyByHeight_height b : IsEmptyByHeight b = true -> Height b = 0.
Proof. unfold IsEmptyByHeight. intros H. by reflect_bool. Qed.

(** ** Finalized and safe blocks of an upstream *)

Inductive BlockType := FinalizedBlock | SafeBlock.

#[export] Instance BlockType_eq_dec : EqDecision BlockType.
Proof. solve_decision. Defined.
#[export] Instance BlockType_countable : Countable BlockType.
Proof.
  refine (inj_countable' (fun t => match t with FinalizedBlock => true | SafeBlock => false end)
    (fun b : bool => if b then FinalizedBlock else SafeBlock) _). by intros [].
Defined.

Record BlockInfo := mkBlockInfo { blocks : gmap BlockType Block }.

Definition NewBlockInfo : BlockInfo := mkBlockInfo ∅.

Definition BlockInfo_AddBlock (data : Block) (t : BlockType) (b : BlockInfo) : BlockInfo :=
  mkBlockInfo (<[t := data]> (blocks b)).

Definition BlockInfo_GetBlock (b : BlockInfo) (t : BlockType) : Block :=
  default ZeroBlock (blocks b !! t).

(** [GetBlocks] and [Copy] rebuild the map entry by entry. *)
Definition copy_map `{Countable K} {V : Type} (m : gmap K V) : gmap K V :=
  map_fold (fun k v acc => <[k := v]> acc) ∅ m.

Lemma copy_map_id `{Countable K} {V : Type} (m : gmap K V) : copy_map m = m.
Proof.
  unfold copy_map.
  apply (map_fold_weak_ind (fun (r : gmap K V) m => r = m)); [done|].
  by intros i x m' r _ ->.
Qed.

Definition BlockInfo_GetBlocks (b : BlockInfo) : gmap BlockType Block := copy_map (blocks b).

Definition BlockInfo_Copy (b : BlockInfo) : BlockInfo :=
  map_fold (fun t data acc => BlockInfo_AddBlock data t acc) NewBlockInfo (blocks b).

Lemma BlockInfo_Copy_id b : BlockInfo_Copy b = b.
Proof.
  unfold BlockInfo_Copy. destruct b as [m]. simpl.
  apply (map_fold_weak_ind (fun r m => r = mkBlockInfo m)); [done|].
  by intros i x m' r _ ->.
Qed.

(** ** Lower bounds *)

Inductive LowerBoundType :=
  UnknownBound | SlotBound | StateBound | ReceiptsBound | TxBound | BlockBound
| LogsBound | TraceBound | ProofBound | EpochBound | BlobBound.

#[export] Instance LowerBoundType_eq_dec : EqDecision LowerBoundType.
Proof. solve_decision. Defined.

(** The integer value of the Go constant ([iota + 1]). *)
Definition bound_code (t : LowerBoundType) : positive :=
  match t with
  | UnknownBound => 1 | SlotBound => 2 | StateBound => 3 | ReceiptsBound => 4
  | TxBound => 5 | BlockBound => 6 | LogsBound => 7 | TraceBound => 8
  | ProofBound => 9 | EpochBound => 10 | BlobBound => 11
  end%positive.

Definition bound_of_code (p : positive) : LowerBoundType :=
  match p with
  | 1 => UnknownBound | 2 => SlotBound | 3 => StateBound | 4 => ReceiptsBound
  | 5 => TxBound | 6 => BlockBound | 7 => LogsBound | 8 => TraceBound
  | 9 => ProofBound | 10 => EpochBound | _ => BlobBound
  end%positive.

#[export] Instance LowerBoundType_countable : Countable LowerBoundType.
Proof. refine (inj_countable' bound_code bound_of_code _). by intros []. Defined.

Definition LowerBoundType_String (t : LowerBoundType) : string :=
  match t with
  | SlotBound => "SLOT" | UnknownBound => "UNKNOWN" | StateBound => "STATE"
  | ReceiptsBound => "RECEIPTS" | TxBound => "TX" | BlockBound => "BLOCK"
  | LogsBound => "LOGS" | TraceBound => "TRACE" | ProofBound => "PROOF"
  | EpochBound => "EPOCH" | BlobBound => "BLOB"
  end%string.

Record LowerBoundData := mkLowerBoundData {
  Bound : Z;
  Timestamp : Z;
  BoundType : LowerBoundType;
}.

#[export] Instance LowerBoundData_eq_dec : EqDecision LowerBoundData.
Proof. solve_decision. Defined.

Record LowerBoundInfo := mkLowerBoundInfo { lowerBounds : gmap LowerBoundType LowerBoundData }.

Definition NewLowerBoundInfo : LowerBoundInfo := mkLowerBoundInfo ∅.

Definition LowerBoundInfo_GetLowerBound (l : LowerBoundInfo) (t : LowerBoundType)
    : option LowerBoundData := lowerBounds l !! t.

Definition LowerBoundInfo_AddLowerBound (data : LowerBoundData) (l : LowerBoundInfo)
    : LowerBoundInfo := mkLowerBoundInfo (<[BoundType data := data]> (lowerBounds l)).

Definition LowerBoundInfo_GetAllBounds `{MapRange} (l : LowerBoundInfo)
    : list LowerBoundData := (range (lowerBounds l)).*2.

Definition LowerBoundInfo_Copy (l : LowerBoundInfo) : LowerBoundInfo :=
  map_fold (fun _ data acc => LowerBoundInfo_AddLowerBound data acc)
    NewLowerBoundInfo (lowerBounds l).

(** Bounds are only stored under their own type. *)
Definition LowerBoundInfo_wf (l : LowerBoundInfo) : Prop :=
  forall t data, lowerBounds l !! t = Some data -> BoundType data = t.

Lemma AddLowerBound_wf data l :
  LowerBoundInfo_wf l -> LowerBoundInfo_wf (LowerBoundInfo_AddLowerBound data l).
Proof.
  intros Hwf t d. simpl. rewrite lookup_insert. case_decide; [naive_solver|apply Hwf].
Qed.

Lemma LowerBoundInfo_Copy_id l : LowerBoundInfo_wf l -> LowerBoundInfo_Copy l = l.
Proof.
  destruct l as [m]. unfold LowerBoundInfo_Copy, LowerBoundInfo_wf. simpl.
  apply (map_fold_weak_ind (fun r m => (forall t d, m !! t = Some d -> BoundType d = t) ->
    r = mkLowerBoundInfo m)); [done|].
  intros t d m' r Hnone IH Hwf. rewrite IH.
  - unfold LowerBoundInfo_AddLowerBound. simpl. f_equal.
    by rewrite (Hwf t d) by apply lookup_insert_eq.
  - intros t' d' Hl. apply Hwf. rewrite lookup_insert_ne; [done|]. intros ->. congruence.
Qed.

(** ** Capabilities and labels *)

Inductive Cap := WsCap | NewHeadsCap | LogsCap | PendingTxCap.

#[export] Instance Cap_eq_dec : EqDecision Cap.
Proof. solve_decision. Defined.
#[export] Instance Cap_countable : Countable Cap.
Proof.
  refine (inj_countable'
    (fun c => match c with WsCap => 0 | NewHeadsCap => 1 | LogsCap => 2 | PendingTxCap => 3 end%N)
    (fun n => match n with 0 => WsCap | 1 => NewHeadsCap | 2 => LogsCap | _ => PendingTxCap end%N) _).
  by intros [].
Defined.

Record Labels := mkLabels { labels : gmap string string }.

Definition NewLabels : Labels := mkLabels ∅.

Definition Labels_GetLabel (l : Labels) (k : string) : option string := labels l !! k.

Definition Labels_AddLabel (k v : string) (l : Labels) : Labels :=
  mkLabels (<[k := v]> (labels l)).

Definition Labels_GetAllLabels (l : Labels) : gmap string string := copy_map (labels l).

Definition Labels_Copy (l : Labels) : Labels :=
  map_fold (fun k v acc => Labels_AddLabel k v acc) NewLabels (labels l).

Lemma Labels_Copy_id l : Labels_Copy l = l.
Proof.
  unfold Labels_Copy. destruct l as [m]. simpl.
  apply (map_fold_weak_ind (fun r m => r = mkLabels m)); [done|].
  by intros i x m' r _ ->.
Qed.
