(* ===== verification/HashIds.v ===== *)
(** Block ids ([pkg/blockchain/hash_id.go]): their text form in hexadecimal, and
    how ids are read from what a node reports, in hexadecimal, base64 or neither. *)

From S2P Require Import Prelude.
From S2P Require Import GoStrings.
From S2P Require Import Protocol.
From Stdlib Require Import Ascii.
From Stdlib Require Import Strings.Byte.

#[local] Arguments String.append !_ _ /.

(** ** [encoding/base64] *)

(** The alphabet of the standard encoding. *)
Definition base64_value (c : ascii) : option N :=
  let n := N_of_ascii c in
  if ((65 <=? n) && (n <=? 90))%N then Some (n - 65)%N
  else if ((97 <=? n) && (n <=? 122))%N then Some (n - 71)%N
  else if ((48 <=? n) && (n <=? 57))%N then Some (n + 4)%N
  else if (n =? 43)%N then Some 62%N
  else if (n =? 47)%N then Some 63%N
  else None.

(** The decoder passes over line ends wherever they are. *)
Fixpoint strip_newlines (s : string) : string :=
  match s with
  | EmptyString => ""
  | String c s' => if ((c =? "010") || (c =? "013"))%char then strip_newlines s' else String c (strip_newlines s')
  end.

(** The bytes of a quantum of two, three or four characters; the bits left over
    are not looked at. *)
Definition quantum2 (a b : N) : string := of_bytes [(a * 4 + b / 16)%N].
Definition quantum3 (a b c : N) : string := of_bytes [(a * 4 + b / 16)%N; (b mod 16 * 16 + c / 4)%N].
Definition quantum4 (a b c d : N) : string :=
  of_bytes [(a * 4 + b / 16)%N; (b mod 16 * 16 + c / 4)%N; (c mod 4 * 64 + d)%N].

(** What ends a decoding: [padded] is [StdEncoding], which wants the last quantum
    filled up with [=]; the other is [RawStdEncoding], to which [=] is no
    character. *)
Fixpoint base64_quanta (padded : bool) (s : string) : option string :=
  match s with
  | EmptyString => Some ""
  | String a (String b rest) =>
    match base64_value a, base64_value b with
    | Some va, Some vb =>
      match rest with
      | EmptyString => if padded then None else Some (quantum2 va vb)
      | String c rest' =>
        match base64_value c with
        | Some vc =>
          match rest' with
          | EmptyString => if padded then None else Some (quantum3 va vb vc)
          | String d rest'' =>
            match base64_value d with
            | Some vd =>
              match base64_quanta padded rest'' with
              | Some bytes => Some (quantum4 va vb vc vd +:+ bytes)
              | None => None
              end
            | None => if padded && (d =? "=")%char && bool_decide (rest'' = "") then Some (quantum3 va vb vc) else None
            end
          end
        | None => if padded && (c =? "=")%char && bool_decide (rest' = "=") then Some (quantum2 va vb) else None
        end
      end
    | _, _ => None
    end
  | String _ EmptyString => None
  end.

Definition base64_DecodeString (padded : bool) (s : string) : option string :=
  base64_quanta padded (strip_newlines s).

(** ** Ids *)

Definition EmptyHash : HashId := [].

(** [string(h)] and [[]byte(s)]. *)
Abbreviation bytes_of := String.list_byte_of_string.
Abbreviation text_of := String.string_of_list_byte.

Definition NewHashIdFromBytes (value : list byte) : HashId :=
  match value with
  | x30 :: x78 :: rest | x30 :: x58 :: rest => rest
  | _ => value
  end.

(** [value] without a prefix [0x] or [0X], of even length. *)
Definition clean_hex (value : string) : string :=
  let clean := if HasPrefix value "0x" || HasPrefix value "0X"
               then String.substring 2 (String.length value - 2) value else value in
  if Nat.even (String.length clean) then clean else String "0" clean.

Definition NewHashIdFromString (value : string) : HashId :=
  match hex_decode (clean_hex value) with
  | Some bytes => bytes_of bytes
  | None =>
    match base64_DecodeString true value with
    | Some decoded => bytes_of decoded
    | None =>
      match base64_DecodeString false value with
      | Some decoded => bytes_of decoded
      | None => bytes_of value
      end
    end
  end.

(** The two digits of each byte, its high half first. *)
Definition hexDigits : string := "0123456789abcdef".
Definition digit_at (n : N) : ascii := default "0"%char (String.get (N.to_nat n) hexDigits).

Fixpoint ToHex (h : HashId) : string :=
  match h with
  | [] => ""
  | b :: h' =>
    let n := Byte.to_N b in
    String (digit_at (N.shiftr (N.land n 240) 4)) (String (digit_at (N.land n 15)) (ToHex h'))
  end.

Definition ToHexWithPrefix (h : HashId) : string := "0x" +:+ ToHex h.

(** ** Laws *)

(** The digits are those of [encoding/hex]. *)
Lemma ToHex_encode h : ToHex h = hex_encode (text_of h).
Proof.
  induction h as [|b h IH]; [done|]. change (text_of (b :: h)) with (String (ascii_of_byte b) (text_of h)).
  cbn [ToHex hex_encode]. rewrite IH. f_equal; [|f_equal]; by destruct b.
Qed.

Lemma ToHex_length h : String.length (ToHex h) = (2 * length h)%nat.
Proof. induction h as [|b h IH]; [done|]. cbn [ToHex String.length length]. rewrite IH. lia. Qed.

Lemma ToHex_inj h h' : ToHex h = ToHex h' -> h = h'.
Proof.
  rewrite !ToHex_encode. intros E%(f_equal hex_decode). rewrite !hex_decode_encode in E. injection E as E.
  apply (f_equal bytes_of) in E. by rewrite !String.list_byte_of_string_of_list_byte in E.
Qed.

Lemma ToHex_no_prefix h : HasPrefix (ToHex h) "0x" || HasPrefix (ToHex h) "0X" = false.
Proof.
  destruct h as [|b h]; [done|]. apply orb_false_iff.
  split; apply not_true_iff_false; intros (rest & E)%HasPrefix_spec; revert E; cbn [ToHex String.append]; by destruct b.
Qed.

Lemma substring_all s : String.substring 0 (String.length s) s = s.
Proof. induction s; simpl; congruence. Qed.

Lemma clean_hex_ToHex h : clean_hex (ToHex h) = ToHex h.
Proof.
  unfold clean_hex. rewrite ToHex_no_prefix, ToHex_length, Nat.even_mul. done.
Qed.

Lemma clean_hex_prefixed h : clean_hex (ToHexWithPrefix h) = ToHex h.
Proof.
  unfold clean_hex, ToHexWithPrefix.
  replace (HasPrefix ("0x" +:+ ToHex h) "0x") with true by (symmetry; apply HasPrefix_spec; eauto).
  cbn [orb String.append String.length String.substring].
  replace (S (S (String.length (ToHex h))) - 2)%nat with (String.length (ToHex h)) by lia.
  rewrite substring_all, ToHex_length, Nat.even_mul. done.
Qed.

Lemma decoded_ToHex h : (bytes_of <$> hex_decode (ToHex h)) = Some h.
Proof. rewrite ToHex_encode, hex_decode_encode. simpl. by rewrite String.list_byte_of_string_of_list_byte. Qed.

(** The text of an id, with or without its prefix, is read back as the id, so
    two ids with the same text are the same block. *)
Theorem hash_id_roundtrip (h : HashId) :
  NewHashIdFromString (ToHexWithPrefix h) = h /\ NewHashIdFromString (ToHex h) = h.
Proof.
  pose proof (decoded_ToHex h) as Hd. unfold NewHashIdFromString. rewrite clean_hex_prefixed, clean_hex_ToHex.
  destruct (hex_decode (ToHex h)); [|done]. by injection Hd.
Qed.

(** The ids of two TON blocks in base64, which differ after the first characters. *)
Example ton_ids_differ :
  NewHashIdFromString "AbCd+/==" <> NewHashIdFromString "AbCd+g==" /\
  ToHex (NewHashIdFromString "AbCd+/==") = "01b09dfb" /\
  NewHashIdFromString "a" = [x0a] /\ NewHashIdFromString "zz_" = bytes_of "zz_".
Proof. vm_compute. split_and!; congruence. Qed.
