(* ===== verification/Errors.v ===== *)
(** The errors of the protocol: the response error, its codes and constructors
    ([internal/protocol/errors.go]), and the values of Go's [error] interface the
    request path distinguishes. *)

From S2P Require Import Prelude.

(** [err_Data] is the JSON text of the decoded [Data]. *)
Record ResponseError := mkResponseErrorData { Code : Z; Message : string; err_Data : option string }.

#[export] Instance ResponseError_eq_dec : EqDecision ResponseError.
Proof. solve_decision. Defined.

Definition mkResponseError (code : Z) (message : string) : ResponseError := mkResponseErrorData code message None.

(** The values of the Go [error] interface the code tells apart: the types of the
    protocol, any other error by its text, and an error that wraps another
    ([Unwrap]). *)
Inductive GoError :=
| RespError (e : ResponseError)
| StopRetryErr
| ClientRetryableError (err : GoError)
| OtherError (text : string)
| WrappedError (text : string) (err : GoError).

#[export] Instance GoError_eq_dec : EqDecision GoError.
Proof. solve_decision. Defined.

Definition ResponseError_Error (b : ResponseError) : string := pretty (Code b) +:+ ": " +:+ Message b.

(** [err.Error()] *)
Fixpoint error_text (err : GoError) : string :=
  match err with
  | RespError e => ResponseError_Error e
  | StopRetryErr => "no retry"
  | ClientRetryableError err => error_text err
  | OtherError text => text
  | WrappedError text _ => text
  end.

(** [errors.AsType[*ResponseError]] and [errors.Is(err, StopRetryErr{})]. *)
Fixpoint as_ResponseError (err : GoError) : option ResponseError :=
  match err with
  | RespError e => Some e
  | WrappedError _ err => as_ResponseError err
  | _ => None
  end.

Fixpoint is_StopRetryErr (err : GoError) : bool :=
  match err with
  | StopRetryErr => true
  | WrappedError _ err => is_StopRetryErr err
  | _ => false
  end.

(** ** Codes *)

Definition BaseError : Z := 0.
Definition NoAvailableUpstreams : Z := 1.
Definition WrongChain : Z := 2.
Definition CtxErrorCode : Z := 3.
Definition WsTotalFailure : Z := 4.
Definition NoApiConnectors : Z := 5.
Definition ClientErrorCode : Z := 400.
Definition AuthErrorCode : Z := 403.
Definition RequestTimeout : Z := 408.
Definition InternalServerErrorCode : Z := 500.
Definition RateLimitExceeded : Z := 429.
Definition NoSupportedMethod : Z := -32601.
Definition IncorrectResponseBody : Z := -32001.
Definition QuorumSignatureErrCode : Z := -32010.
Definition InvalidParams : Z := -32602.

(** ** Constructors *)

Definition ResponseErrorWithMessage (message : string) : ResponseError := mkResponseError 0 message.

Definition ResponseErrorWithData (code : Z) (message : string) (data : option string) : ResponseError :=
  mkResponseErrorData code message data.

Definition AuthError (cause : GoError) : ResponseError :=
  mkResponseError AuthErrorCode ("auth error - " +:+ error_text cause).

Definition ClientError (cause : GoError) : ResponseError :=
  mkResponseError ClientErrorCode ("client error - " +:+ error_text cause).

Definition ParseError : ResponseError := mkResponseError ClientErrorCode "couldn't parse a request".

Definition RequestTimeoutError : ResponseError := mkResponseError RequestTimeout "request timeout".

Definition ServerErrorWithCause (cause : GoError) : ResponseError :=
  mkResponseError InternalServerErrorCode ("internal server error: " +:+ error_text cause).

Definition CtxError (cause : GoError) : ResponseError :=
  mkResponseError CtxErrorCode ("ctx error: " +:+ error_text cause).

Definition NoApiConnectorsError (method : string) : ResponseError :=
  mkResponseError NoApiConnectors ("no suitable api connectors to process method " +:+ method).

Definition ServerError : ResponseError := mkResponseError InternalServerErrorCode "internal server error".

Definition IncorrectResponseBodyError (cause : GoError) : ResponseError :=
  mkResponseError IncorrectResponseBody ("incorrect response body: " +:+ error_text cause).

Definition NoAvailableUpstreamsError : ResponseError :=
  mkResponseError NoAvailableUpstreams "no available upstreams to process a request".

Definition NoAvailableUpstreamsErrorWithCause (cause : string) : ResponseError :=
  if bool_decide (cause = "") then NoAvailableUpstreamsError
  else mkResponseError NoAvailableUpstreams
         ("no available upstreams to process a request. Cause - " +:+ cause).

Definition NotSupportedMethodError (method : string) : ResponseError :=
  mkResponseError NoSupportedMethod
    ("the method " +:+ method +:+ " does not exist/is not available").

Definition RateLimitError : ResponseError :=
  mkResponseError RateLimitExceeded "rate limit exceeded".

Definition WrongChainError (chain : string) : ResponseError :=
  mkResponseError WrongChain ("chain " +:+ chain +:+ " is not supported").

Definition WsTotalFailureError : ResponseError := mkResponseError WsTotalFailure "websocket total failure".

Definition WsSubscriberTooSlowError : ResponseError :=
  mkResponseError WsTotalFailure "subscription dropped: subscriber too slow to keep up".

Definition QuorumMissingSignaturesError : ResponseError :=
  mkResponseError QuorumSignatureErrCode "quorum signature verification failed: no signatures returned by upstream".

Definition QuorumInsufficientSignaturesError (got required : Z) : ResponseError :=
  mkResponseError QuorumSignatureErrCode
    ("quorum signature verification failed: got " +:+ pretty got +:+ " signatures, required " +:+ pretty required).

Definition QuorumVerificationError (cause : GoError) : ResponseError :=
  mkResponseError QuorumSignatureErrCode ("quorum signature verification failed: " +:+ error_text cause).

Definition QuorumMalformedHeaderError (cause : GoError) : ResponseError :=
  mkResponseError QuorumSignatureErrCode
    ("quorum signature verification failed: malformed QR header - " +:+ error_text cause).

Definition QuorumNotSupportedError (reason : string) : ResponseError :=
  let msg := "quorum is not supported for this request" in
  mkResponseError QuorumSignatureErrCode
    (if bool_decide (reason = "") then msg else msg +:+ ": " +:+ reason).

(** [strconv.Quote], which the verb [%q] writes. *)
Class Quoting := Quote : string -> string.

Definition QuorumUnknownProviderError `{Quoting} (providerID : string) : ResponseError :=
  mkResponseError QuorumSignatureErrCode
    ("quorum signature verification failed: no public key configured for provider " +:+ Quote providerID).

Definition QuorumInvalidSignatureError `{Quoting} (providerID : string) : ResponseError :=
  mkResponseError QuorumSignatureErrCode
    ("quorum signature verification failed: invalid signature from provider " +:+ Quote providerID).

Definition QuorumUnexpectedRequestIDError `{Quoting} (expected got : string) : ResponseError :=
  mkResponseError QuorumSignatureErrCode
    ("quorum signature verification failed: QR header request id mismatch (expected " +:+ Quote expected +:+
     ", got " +:+ Quote got +:+ ")").

Definition InvalidParamsError (message : string) : ResponseError := mkResponseError InvalidParams message.

Definition UnsupportedBlockTagError `{Quoting} (chain tag : string) : ResponseError :=
  mkResponseError InvalidParams ("block tag " +:+ Quote tag +:+ " is not supported on chain " +:+ chain).
