(* ===== verification/Responses.v ===== *)
(** Responses and what the code reads off them ([internal/protocol/response.go],
    [parse_response.go], [codes.go], [method_availability.go], the result and
    response kinds of [data.go] and [request_observer.go], and
    [pkg/errors_config/upstream_errors.go]).

    JSON itself is a library ([Json]).  A reader is the text it delivers, an error
    of the reader being an [inl]; a run-time panic is [None]. *)

From S2P Require Import Prelude.
From S2P Require Import GoStrings.
From S2P Require Import Protocol.
From S2P Require Import Errors.
From Stdlib Require Import Ascii.

#[local] Arguments String.append !_ _ /.

Definition quoted (s : string) : string := String quote (s +:+ String quote "").

Inductive RequestType := Rest | JsonRpc | Ws | Grpc | Unknown.

#[export] Instance RequestType_eq_dec : EqDecision RequestType.
Proof. solve_decision. Defined.

(** ** JSON *)

Record jsonRpcError := mkJsonRpcError {
  je_Message : string;
  je_Code : option Z;
  je_Data : option string;
  je_Error : string;
}.

Inductive NodeType := V_NULL | V_STRING | V_OTHER.

#[export] Instance NodeType_eq_dec : EqDecision NodeType.
Proof. solve_decision. Defined.

Record JsonNode := mkJsonNode { node_type : NodeType; node_raw : option string }.

(** A websocket message with its fields in their JSON text, empty when absent. *)
Record jsonRpcWsMessage := mkWsMessage {
  wm_Id : string;
  wm_Result : string;
  wm_Params : option (string * string);
  wm_Error : string;
}.

(** [sonic]: the member of an object, decoding and encoding. *)
Class Json := {
  GetByPath : string -> string -> option JsonNode;
  unmarshal_jsonRpcError : string -> option jsonRpcError;
  marshal_jsonRpcError : jsonRpcError -> GoError + string;
  unmarshal_string : string -> option string;
  unmarshal_wsMessage : string -> option jsonRpcWsMessage;
  marshal_wsSubResponse : string -> string -> string -> GoError + string;
}.

(** The JSON text of a string is quoted, and no JSON text is empty. *)
Class JsonLaws `{Json} : Prop := {
  raw_string : forall body key raw,
    GetByPath body key = Some (mkJsonNode V_STRING (Some raw)) -> exists s, raw = quoted s;
  raw_nonempty : forall body key t raw,
    GetByPath body key = Some (mkJsonNode t (Some raw)) -> raw <> "";
}.

(** ** The kinds of responses *)

Inductive ResponseErrorKind := PartialFailure | TotalFailure.

#[export] Instance ResponseErrorKind_eq_dec : EqDecision ResponseErrorKind.
Proof. solve_decision. Defined.

(** [stream] is the text of the stream; the hint of its first chunk is left out. *)
Record GenericUpstreamResponse := mkGenericResponse {
  g_id : string;
  g_result : string;
  g_error : option ResponseError;
  g_requestType : RequestType;
  g_stream : option string;
  g_responseCode : Z;
  g_headers : gmap string (list string);
}.

Record ReplyError := mkReplyError {
  r_id : string;
  ErrorKind : ResponseErrorKind;
  responseError : ResponseError;
  responseType : RequestType;
}.

Inductive ResponseHolder :=
| GenericResponse (r : GenericUpstreamResponse)
| WsJsonRpcResponse (id result : string) (error : option ResponseError)
| SubscriptionEventResponse (id event : string)
| SubscriptionMessageResponse (id message : string)
| SubscriptionResultResponse (id result : string)
| SubscriptionMethodResultResponse (id method result subId : string)
| ReplyErrorResponse (r : ReplyError).

#[export] Instance GenericUpstreamResponse_eq_dec : EqDecision GenericUpstreamResponse.
Proof. solve_decision. Defined.
#[export] Instance ReplyError_eq_dec : EqDecision ReplyError.
Proof. solve_decision. Defined.
#[export] Instance ResponseHolder_eq_dec : EqDecision ResponseHolder.
Proof. solve_decision. Defined.

(** A response with where it came from; [Response] is never nil in the code. *)
Record ResponseHolderWrapper := mkWrapper {
  UpstreamId : string;
  RequestId : string;
  UpstreamNodeVersion : string;
  FinalizationBlockType : option BlockType;
  FinalizationBlock : Block;
  Response : ResponseHolder;
}.

#[export] Instance ResponseHolderWrapper_eq_dec : EqDecision ResponseHolderWrapper.
Proof. solve_decision. Defined.

Definition ResponseResult (h : ResponseHolder) : string :=
  match h with
  | GenericResponse r => g_result r
  | WsJsonRpcResponse _ result _ => result
  | SubscriptionEventResponse _ event => event
  | SubscriptionMessageResponse _ message => message
  | SubscriptionResultResponse _ result => result
  | SubscriptionMethodResultResponse _ _ result _ => result
  | ReplyErrorResponse _ => ""
  end.

Definition GetError (h : ResponseHolder) : option ResponseError :=
  match h with
  | GenericResponse r => g_error r
  | WsJsonRpcResponse _ _ error => error
  | ReplyErrorResponse r => Some (responseError r)
  | _ => None
  end.

Definition HasError (h : ResponseHolder) : bool :=
  match h with
  | GenericResponse r => bool_decide (is_Some (g_error r))
  | WsJsonRpcResponse _ _ error => bool_decide (is_Some error)
  | ReplyErrorResponse _ => true
  | _ => false
  end.

Definition HasStream (h : ResponseHolder) : bool :=
  match h with
  | GenericResponse r => bool_decide (is_Some (g_stream r))
  | _ => false
  end.

Definition response_Id (h : ResponseHolder) : string :=
  match h with
  | GenericResponse r => g_id r
  | WsJsonRpcResponse id _ _ | SubscriptionEventResponse id _ | SubscriptionMessageResponse id _
  | SubscriptionResultResponse id _ | SubscriptionMethodResultResponse id _ _ _ => id
  | ReplyErrorResponse r => r_id r
  end.

Definition ResponseCode (h : ResponseHolder) : Z :=
  match h with GenericResponse r => g_responseCode r | _ => 0 end.

(** The optional interface [HasResponseHeaders]. *)
Definition ResponseHeaders (h : ResponseHolder) : option (gmap string (list string)) :=
  match h with GenericResponse r => Some (g_headers r) | _ => None end.

(** Of a subscription's responses; the others do not have the method. *)
Definition IsEventFrame (h : ResponseHolder) : option bool :=
  match h with
  | SubscriptionEventResponse _ _ | SubscriptionResultResponse _ _
  | SubscriptionMethodResultResponse _ _ _ _ => Some true
  | SubscriptionMessageResponse _ _ => Some false
  | _ => None
  end.

Definition in_quotes (s : string) : bool :=
  bool_decide (String.get 0 s = Some quote) &&
  bool_decide (String.get (String.length s - 1) s = Some quote).

Definition unquoted (s : string) : option string := go_slice 1 (Z.of_nat (String.length s) - 1) s.

Definition result_string (result : string) : option (GoError + string) :=
  if in_quotes result then inr <$> unquoted result else Some (inl (OtherError "result is not a string")).

Definition ResponseResultString (h : ResponseHolder) : option (GoError + string) :=
  match h with
  | GenericResponse r => result_string (g_result r)
  | WsJsonRpcResponse _ result _ => result_string result
  | _ => Some (inr "")
  end.

Definition ResultAsString (result : string) : option string :=
  if in_quotes result then unquoted result else Some result.

Definition ResultAsNumber (result : string) : Z :=
  if bool_decide (result = "") then 0
  else match Atoi result with Some num => u64 num | None => 0 end.

(** ** Encoding *)

Definition jsonRpcResponseReader (id bodyName body : string) : string :=
  ("{" +:+ quoted "id" +:+ ":") +:+ id +:+
  ("," +:+ quoted "jsonrpc" +:+ ":" +:+ quoted "2.0" +:+ "," +:+ quoted bodyName +:+ ":") +:+ body +:+ "}".

(** [None] is the nil reader. *)
Definition EncodeResponse `{Json} (h : ResponseHolder) (realId : string) : option (GoError + string) :=
  match h with
  | GenericResponse r =>
    Some (inr
      (if bool_decide (g_requestType r = JsonRpc) then
         if HasError h then jsonRpcResponseReader realId "error" (g_result r)
         else match g_stream r with
              | Some stream => stream
              | None => jsonRpcResponseReader realId "result" (g_result r)
              end
       else match g_stream r with Some stream => stream | None => g_result r end))
  | WsJsonRpcResponse _ result _ =>
    Some (inr (if HasError h then jsonRpcResponseReader realId "error" result
               else jsonRpcResponseReader realId "result" result))
  | SubscriptionEventResponse _ event => Some (inr event)
  | SubscriptionMessageResponse _ message => Some (inr (jsonRpcResponseReader realId "result" message))
  | SubscriptionResultResponse _ result => Some (inr result)
  | SubscriptionMethodResultResponse _ method result subId => Some (marshal_wsSubResponse method result subId)
  | ReplyErrorResponse r =>
    let e := responseError r in
    match responseType r with
    | JsonRpc =>
      match marshal_jsonRpcError (mkJsonRpcError (Message e) (Some (Code e)) (err_Data e) "") with
      | inl err => Some (inl err)
      | inr bytes => Some (inr (jsonRpcResponseReader realId "error" bytes))
      end
    | Rest => Some (inr ("{" +:+ (quoted "message" +:+ ":" +:+ quoted (Message e)) +:+ "}"))
    | _ => None
    end
  end.

(** ** Constructors *)

Definition NewSimpleHttpUpstreamResponse (id body : string) (requestType : RequestType) : ResponseHolder :=
  GenericResponse (mkGenericResponse id body None requestType None 0 ∅).

Definition NewHttpUpstreamResponseStream (id reader : string) (requestType : RequestType) : ResponseHolder :=
  GenericResponse (mkGenericResponse id "" None requestType (Some reader) 0 ∅).

Definition NewHttpUpstreamResponseWithError (error : ResponseError) : ResponseHolder :=
  GenericResponse (mkGenericResponse "" "" (Some error) Rest None 0 ∅).

Definition NewReplyError (id : string) (e : ResponseError) (t : RequestType) (kind : ResponseErrorKind)
    : ResponseHolder := ReplyErrorResponse (mkReplyError id kind e t).

(** [NewPartialFailure] and [NewTotalFailure], of a request's id and type. *)
Definition NewPartialFailure (id : string) (t : RequestType) (e : ResponseError) : ResponseHolder :=
  NewReplyError id e t PartialFailure.

Definition NewTotalFailure (id : string) (t : RequestType) (e : ResponseError) : ResponseHolder :=
  NewReplyError id e t TotalFailure.

Definition NewTotalFailureFromErr (id : string) (err : GoError) (t : RequestType) : ResponseHolder :=
  match as_ResponseError err with
  | Some respErr => NewReplyError id respErr t TotalFailure
  | None => NewReplyError id (ServerErrorWithCause err) t TotalFailure
  end.

(** ** Parsing *)

Section Parse.
Context `{JS : Json}.

Definition incorrectJsonRpcBody : ResponseError * string :=
  let err := IncorrectResponseBodyError
    (OtherError "wrong json-rpc response - there is neither result nor error") in
  (err, match marshal_jsonRpcError (mkJsonRpcError (Message err) (Some (Code err)) None "") with
        | inr errBytes => errBytes
        | inl _ => ""
        end).

Definition parseJsonRpcError (errorRaw : string) : ResponseError :=
  match unmarshal_jsonRpcError errorRaw with
  | Some jsonRpcErr =>
    let message := if bool_decide (je_Message jsonRpcErr = "")
                   then if bool_decide (je_Error jsonRpcErr = "") then "internal server error"
                        else je_Error jsonRpcErr
                   else je_Message jsonRpcErr in
    ResponseErrorWithData (default (-32000) (je_Code jsonRpcErr)) message (je_Data jsonRpcErr)
  | None => ServerError
  end.

Definition raw_result (body : string) : string :=
  match GetByPath body "result" with
  | Some resultNode => default "" (node_raw resultNode)
  | None => ""
  end.

(** The member [error], unless it is absent or [null]. *)
Definition error_member (body : string) : option (NodeType * string) :=
  match GetByPath body "error" with
  | Some errorNode =>
    if bool_decide (node_type errorNode = V_NULL) then None
    else (fun raw => (node_type errorNode, raw)) <$> node_raw errorNode
  | None => None
  end.

Definition parseJsonRpcBody (id body : string) (responseCode : Z) : option GenericUpstreamResponse :=
  (fun '(upstreamError, result) =>
     mkGenericResponse id result upstreamError Rest None responseCode ∅) <$>
  match error_member body with
  | Some (t, errorRaw) =>
    if bool_decide (t = V_STRING) then
      (fun message => (Some (ResponseErrorWithMessage message), errorRaw)) <$> unquoted errorRaw
    else Some (Some (parseJsonRpcError errorRaw), errorRaw)
  | None =>
    let result := raw_result body in
    if bool_decide (result = "")
    then let '(err, errBytes) := incorrectJsonRpcBody in Some (Some err, errBytes)
    else Some (None, result)
  end.

Definition tryParseStructuredError (body : string) : option ResponseError :=
  let trimmed := TrimSpace body in
  if bool_decide (String.get 0 trimmed = Some "{"%char) then
    match unmarshal_jsonRpcError trimmed with
    | None => None
    | Some parsed =>
      if bool_decide (je_Code parsed = None) && bool_decide (je_Message parsed = "") &&
         bool_decide (je_Error parsed = "") then None
      else
        let msg := if bool_decide (je_Message parsed = "") then je_Error parsed else je_Message parsed in
        let msg := if bool_decide (msg = "") then "upstream returned an error without a message" else msg in
        Some (mkResponseErrorData (default 0 (je_Code parsed)) msg (je_Data parsed))
    end
  else None.

Definition restErrorMessageMaxLen : nat := 512.

Definition truncateRestErrorMessage (body : string) : string :=
  let s := TrimSpace body in
  if bool_decide (s = "") then "upstream returned an empty error body"
  else if (restErrorMessageMaxLen <? String.length s)%nat
  then String.substring 0 restErrorMessageMaxLen s +:+ "... (truncated)"
  else s.

Definition parseRestErrorBody (body : string) (responseCode : Z) : ResponseError :=
  match tryParseStructuredError body with
  | Some structured =>
    if Code structured =? 0
    then mkResponseErrorData responseCode (Message structured) (err_Data structured)
    else structured
  | None => mkResponseError responseCode (truncateRestErrorMessage body)
  end.

Definition parseHttpResponse (id body : string) (responseCode : Z) : GenericUpstreamResponse :=
  let err := if (responseCode <? 200) || (300 <=? responseCode)
             then Some (parseRestErrorBody body responseCode) else None in
  mkGenericResponse id body err Rest None responseCode ∅.

Definition with_type (t : RequestType) (r : GenericUpstreamResponse) : GenericUpstreamResponse :=
  mkGenericResponse (g_id r) (g_result r) (g_error r) t (g_stream r) (g_responseCode r) (g_headers r).

Definition NewHttpUpstreamResponse (id body : string) (responseCode : Z) (requestType : RequestType)
    : option ResponseHolder :=
  (fun response => GenericResponse (with_type requestType response)) <$>
  match requestType with
  | JsonRpc => parseJsonRpcBody id body responseCode
  | Rest => Some (parseHttpResponse id body responseCode)
  | _ => None
  end.

(** ** Websocket messages *)

Record WsResponse := mkWsResponse {
  ws_Id : string;
  ws_SubId : string;
  ws_Message : string;
  ws_Type : RequestType;
  ws_Error : option ResponseError;
  ws_Event : string;
}.

(** [None] is the error of decoding. *)
Definition flexibleId_UnmarshalJSON (data : string) : option string :=
  if bool_decide (data = "") || bool_decide (data = "null") then Some ""
  else if bool_decide (String.get 0 data = Some quote) then unmarshal_string data
  else Some data.

Definition decode_wsMessage (body : string) : option (string * jsonRpcWsMessage) :=
  match unmarshal_wsMessage body with
  | Some m => (fun id => (id, m)) <$> flexibleId_UnmarshalJSON (wm_Id m)
  | None => None
  end.

Definition ParseJsonRpcWsMessage (body : string) : option WsResponse :=
  let finish id subId message responseType upstreamError :=
    let upstreamError :=
      if bool_decide (id = "") && bool_decide (subId = "") && bool_decide (upstreamError = None)
      then Some (IncorrectResponseBodyError (OtherError "wrong json-rpc ws response"))
      else upstreamError in
    mkWsResponse id subId message responseType upstreamError body in
  match decode_wsMessage body with
  | None => Some (finish "" "" body Unknown None)
  | Some (id, m) =>
    match wm_Params m with
    | Some (result, subscription) =>
      (fun subId => finish id subId result Ws None) <$> ResultAsString subscription
    | None =>
      let '(message, responseType) :=
        if bool_decide (wm_Result m = "") then (body, Unknown) else (wm_Result m, JsonRpc) in
      Some (if bool_decide (wm_Error m = "") then finish id "" message responseType None
            else finish id "" (wm_Error m) JsonRpc (Some (parseJsonRpcError (wm_Error m))))
    end
  end.
End Parse.

(** ** Retries and kinds *)

(** [regexp.Regexp.MatchString], for a pattern of the error configuration. *)
Class ErrorPatterns := re_MatchString : string -> string -> bool.

Inductive ErrorConfig := ErrorRe (re : string) | ErrorStr (str : string) | ErrorNone.

Record ErrorConfigs := mkErrorConfigs {
  RetryableErrors : list ErrorConfig;
  NonRetryableErrors : list ErrorConfig;
}.

Definition isMatched `{ErrorPatterns} (cfg : ErrorConfig) (error : string) : bool :=
  match cfg with
  | ErrorRe re => re_MatchString re error
  | ErrorStr str => Contains error str
  | ErrorNone => false
  end.

Definition errors_config_IsRetryable `{ErrorPatterns} (cfgs : ErrorConfigs) (error : string) : bool :=
  if existsb (fun cfg => isMatched cfg error) (NonRetryableErrors cfgs) then false
  else existsb (fun cfg => isMatched cfg error) (RetryableErrors cfgs).

Definition IsRetryable `{ErrorPatterns} (cfgs : ErrorConfigs) (response : ResponseHolder) : bool :=
  match response with
  | GenericResponse r =>
    match g_error r with Some e => errors_config_IsRetryable cfgs (Message e) | None => false end
  | ReplyErrorResponse r => bool_decide (ErrorKind r = PartialFailure)
  | _ => false
  end.

Inductive ResultType := ResultOk | ResultOkWithError | ResultPartialFailure | ResultTotalFailure | ResultStop.

#[export] Instance ResultType_eq_dec : EqDecision ResultType.
Proof. solve_decision. Defined.

(** The order of the Go constants, in which a hedge prefers results. *)
Definition ResultType_code (t : ResultType) : Z :=
  match t with
  | ResultOk => 0 | ResultOkWithError => 1 | ResultPartialFailure => 2
  | ResultTotalFailure => 3 | ResultStop => 4
  end.

Definition GetResponseType (response : option ResponseHolder) (err : option GoError) : ResultType :=
  let by_error :=
    match err with
    | Some err => if is_StopRetryErr err then ResultStop else ResultTotalFailure
    | None => ResultOk
    end in
  match response with
  | Some (ReplyErrorResponse r) =>
    if bool_decide (ErrorKind r = PartialFailure) then ResultPartialFailure else ResultTotalFailure
  | Some (GenericResponse r) => if bool_decide (is_Some (g_error r)) then ResultOkWithError else by_error
  | _ => by_error
  end.

Inductive ResponseKind := UnknownRespKind | RespOk | Cancelled | RespError' | RetryableError | RoutingError.

Definition GetRespKindFromResponse `{ErrorPatterns} (cfgs : ErrorConfigs) (response : ResponseHolder)
    : ResponseKind :=
  match response with
  | GenericResponse r =>
    if HasError response then if IsRetryable cfgs response then RetryableError else RespError' else RespOk
  | ReplyErrorResponse r =>
    let code := Code (responseError r) in
    if code =? CtxErrorCode then Cancelled
    else if (code =? NoAvailableUpstreams) || (code =? NoSupportedMethod) then RoutingError
    else if IsRetryable cfgs response then RetryableError else RespError'
  | _ => UnknownRespKind
  end.

Definition IsStream (method : string) : bool :=
  bool_decide (method = "eth_getLogs") || bool_decide (method = "getProgramAccounts").

Definition ToHttpCode (response : ResponseHolder) : Z :=
  match response with
  | ReplyErrorResponse r =>
    let code := Code (responseError r) in
    if bool_decide (code ∈ [ClientErrorCode; WrongChain; NoSupportedMethod]) then 400
    else if code =? AuthErrorCode then 403
    else if code =? RequestTimeout then 408
    else if bool_decide (code ∈ [InternalServerErrorCode; IncorrectResponseBody]) then 500
    else if code =? RateLimitExceeded then 429
    else 500
  | GenericResponse r => if bool_decide (g_requestType r = Rest) then g_responseCode r else 200
  | _ => 200
  end.

(** ** What an error says about a method *)

Inductive MethodAvailability := MethodAvailabilityUnknown | MethodNotAvailable | MethodAvailable.

#[export] Instance MethodAvailability_eq_dec : EqDecision MethodAvailability.
Proof. solve_decision. Defined.

(** [[A-Za-z0-9_]] and [[0-9]] *)
Definition word_char (c : ascii) : bool :=
  let n := N_of_ascii c in
  bool_decide (48 <= n <= 57)%N || bool_decide (65 <= n <= 90)%N || bool_decide (97 <= n <= 122)%N ||
  bool_decide (n = 95)%N.

Definition digit_char (c : ascii) : bool := bool_decide (48 <= N_of_ascii c <= 57)%N.

Fixpoint span (p : ascii -> bool) (s : string) : string * string :=
  match s with
  | String c s' => if p c then let '(w, rest) := span p s' in (String c w, rest) else ("", s)
  | EmptyString => ("", "")
  end.

(** An unanchored pattern matches at some place. *)
Fixpoint match_somewhere (f : string -> bool) (s : string) : bool :=
  f s || match s with EmptyString => false | String _ s' => match_somewhere f s' end.

(** The pattern [pre(class+)post]. *)
Definition match_run (p : ascii -> bool) (pre post s : string) : bool :=
  match_somewhere (fun t =>
    match strip_prefix pre t with
    | Some rest => let '(w, rest) := span p rest in negb (bool_decide (w = "")) && HasPrefix rest post
    | None => false
    end) s.

Definition methodNotAvailablePatterns : list (string -> bool) :=
  [match_run word_char "method " " does not exist/is not available";
   match_run word_char "" " found but the containing module is disabled";
   (fun s => Contains s "Method not found" || Contains s "method not found");
   (fun s => Contains s "Method is not available" || Contains s "method is not available");
   match_run word_char "The method " " is not available"].

Definition methodAvailablePatterns : list (string -> bool) :=
  [match_run digit_char "missing value for required argument " "";
   (fun s => Contains s "Invalid params")].

Definition ClassifyMethodAvailability (respError : option ResponseError) : MethodAvailability :=
  match respError with
  | None => MethodAvailabilityUnknown
  | Some e =>
    if Code e =? NoSupportedMethod then MethodNotAvailable
    else if existsb (fun pattern => pattern (Message e)) methodNotAvailablePatterns then MethodNotAvailable
    else if existsb (fun pattern => pattern (Message e)) methodAvailablePatterns then MethodAvailable
    else MethodAvailabilityUnknown
  end.

(** ** Laws *)

Lemma in_quotes_quoted s : in_quotes (quoted s) = true.
Proof.
  unfold in_quotes, quoted. rewrite bool_decide_eq_true_2 by done. apply bool_decide_eq_true.
  simpl. rewrite Nat.sub_0_r, length_append_str. simpl. replace (String.length s + 1)%nat with (S (String.length s)) by lia.
  simpl. induction s as [|c s IH]; [done|exact IH].
Qed.

Lemma unquoted_quoted s : unquoted (quoted s) = Some s.
Proof.
  unfold unquoted. replace (Z.of_nat (String.length (quoted s)) - 1)
    with (Z.of_nat (String.length (String quote "") + String.length s)).
  - apply (go_slice_mid (String quote "") s (String quote "")).
  - unfold quoted. simpl. rewrite length_append_str. simpl. lia.
Qed.

Lemma ResultAsString_quoted s : ResultAsString (quoted s) = Some s.
Proof. unfold ResultAsString. by rewrite in_quotes_quoted, unquoted_quoted. Qed.

Lemma in_quotes_spec s : in_quotes s = true -> s = String quote "" \/ exists t, s = quoted t.
Proof.
  unfold in_quotes, quoted. intros [H0%bool_decide_eq_true Hl%bool_decide_eq_true]%andb_true_iff.
  destruct s as [|c s]; [done|]. injection H0 as ->. destruct s as [|c s]; [by left|right].
  simpl in Hl.
  assert (forall s c, String.get (String.length s) (String c s) = Some quote -> exists t, String c s = t +:+ String quote "") as Hend.
  { clear. induction s as [|d s IH]; intros c H; [injection H as ->; by exists ""|].
    destruct (IH d) as [t Ht]; [exact H|]. exists (String c t). by rewrite Ht. }
  destruct (Hend s c) as [t Ht]; [exact Hl|]. exists t. by rewrite Ht.
Qed.

(** The one text on which the accessor panics. *)
Lemma result_string_panics result : result_string result = None <-> result = String quote "".
Proof.
  unfold result_string. split; [|by intros ->].
  destruct (in_quotes result) eqn:E; [|done]. apply in_quotes_spec in E as [->|[t ->]]; [done|].
  by rewrite unquoted_quoted.
Qed.

Lemma result_string_Some result s :
  result_string result = Some (inr s) <-> result = quoted s.
Proof.
  unfold result_string. split.
  - destruct (in_quotes result) eqn:E; [|done]. apply in_quotes_spec in E as [->|[t ->]]; [done|].
    rewrite unquoted_quoted. by intros [= ->].
  - intros ->. by rewrite in_quotes_quoted, unquoted_quoted.
Qed.

Lemma HasError_GetError h : HasError h = bool_decide (is_Some (GetError h)).
Proof. destruct h; try done; simpl; by rewrite bool_decide_eq_true_2. Qed.

Lemma HasError_false h : HasError h = false <-> GetError h = None.
Proof.
  rewrite HasError_GetError, bool_decide_eq_false. split; intros H; [by apply eq_None_not_Some|by rewrite H; intros [? ?]].
Qed.

Lemma TotalFailureFromErr_HasError id err t : HasError (NewTotalFailureFromErr id err t) = true.
Proof. unfold NewTotalFailureFromErr. by destruct (as_ResponseError err). Qed.

Lemma TotalFailureFromErr_HasStream id err t : HasStream (NewTotalFailureFromErr id err t) = false.
Proof. unfold NewTotalFailureFromErr. by destruct (as_ResponseError err). Qed.

Lemma TotalFailureFromErr_not_retryable `{ErrorPatterns} cfgs id err t :
  IsRetryable cfgs (NewTotalFailureFromErr id err t) = false.
Proof. unfold NewTotalFailureFromErr. by destruct (as_ResponseError err). Qed.

(** *** Patterns *)

Fixpoint all_chars (p : ascii -> bool) (s : string) : bool :=
  match s with EmptyString => true | String c s' => p c && all_chars p s' end.

Lemma span_spec p s w rest :
  span p s = (w, rest) ->
  s = w +:+ rest /\ all_chars p w = true /\ match rest with String c _ => p c = false | EmptyString => True end.
Proof.
  revert w rest. induction s as [|c s IH]; intros w rest; simpl; [by intros [= <- <-]|].
  destruct (p c) eqn:E; [|by intros [= <- <-]].
  destruct (span p s) as [w' rest'] eqn:Es. intros [= <- <-]. destruct (IH _ _ eq_refl) as (-> & Hw & Hr).
  simpl. by rewrite E.
Qed.

Lemma span_app p w rest :
  all_chars p w = true -> match rest with String c _ => p c = false | EmptyString => True end ->
  span p (w +:+ rest) = (w, rest).
Proof.
  intros Hw Hr. induction w as [|c w IH]; simpl.
  - destruct rest as [|c rest]; [done|]. simpl. by rewrite Hr.
  - simpl in Hw. apply andb_true_iff in Hw as [Hc Hw]. by rewrite Hc, IH.
Qed.

Lemma match_somewhere_spec f s : match_somewhere f s = true <-> exists a t, s = a +:+ t /\ f t = true.
Proof.
  split.
  - induction s as [|c s IH]; simpl; intros H; apply orb_true_iff in H as [H|H]; try done.
    + by exists "", "".
    + by exists "", (String c s).
    + destruct (IH H) as (a & t & -> & Ht). by exists (String c a), t.
  - intros (a & t & -> & Ht). induction a as [|c a IH].
    + destruct t; simpl in *; by rewrite Ht.
    + simpl. by rewrite IH, orb_true_r.
Qed.

(** The scan decides the pattern [pre(class+)post], when [post] does not begin
    with a character of the class. *)
Lemma match_run_spec p pre post s :
  match post with String c _ => p c = false | EmptyString => True end ->
  match_run p pre post s = true <->
  exists a w b, s = a +:+ pre +:+ w +:+ post +:+ b /\ w <> "" /\ all_chars p w = true.
Proof.
  intros Hpost. unfold match_run. rewrite match_somewhere_spec. split.
  - intros (a & t & -> & H). destruct (strip_prefix pre t) as [rest|] eqn:E; [|done].
    apply strip_prefix_Some in E as ->. destruct (span p rest) as [w rest'] eqn:Es.
    apply span_spec in Es as (-> & Hw & _). apply andb_true_iff in H as [Hne%negb_true_iff%bool_decide_eq_false H].
    apply HasPrefix_spec in H as [b ->]. by exists a, w, b.
  - intros (a & w & b & -> & Hne & Hw). destruct post as [|c post].
    + (* the class may go on after the run *)
      exists a, (pre +:+ w +:+ b). split; [done|]. rewrite strip_prefix_append.
      destruct (span p (w +:+ b)) as [w' rest] eqn:Es. rewrite (bool_decide_eq_false_2 (w' = "")); [by destruct rest|].
      destruct w as [|d w]; [done|]. simpl in Es, Hw. apply andb_true_iff in Hw as [Hd _]. rewrite Hd in Es.
      destruct (span p (w +:+ b)). by injection Es as <- _.
    + exists a, (pre +:+ w +:+ String c post +:+ b). split; [done|].
      rewrite strip_prefix_append, span_app by done. rewrite bool_decide_eq_false_2 by done. simpl.
      apply HasPrefix_spec. by exists b.
Qed.

Lemma length_substring n s : (String.length (String.substring 0 n s) <= n)%nat.
Proof. revert s. induction n as [|n IH]; intros [|c s]; simpl; [lia..|]. specialize (IH s). lia. Qed.

Lemma truncate_bound body : (String.length (truncateRestErrorMessage body) <= 527)%nat.
Proof.
  unfold truncateRestErrorMessage. case_bool_decide; [cbn; lia|].
  destruct (_ <? _)%nat eqn:E.
  - rewrite length_append_str. pose proof (length_substring restErrorMessageMaxLen (TrimSpace body)) as Hl.
    unfold restErrorMessageMaxLen in *. change (String.length "... (truncated)") with 15%nat. lia.
  - apply Nat.ltb_ge in E. unfold restErrorMessageMaxLen in E. lia.
Qed.

(** ** Properties *)

(** What a JSON-RPC upstream answered reaches the client byte for byte under
    the client's own id: the raw [error] member when there is one (a [null] one
    counts as absent), else the raw [result]; a body with neither is an error of
    the code for incorrect bodies.  Parsing never panics, and the response is an
    error exactly in the first and the last case. *)
Theorem json_rpc_body_forwarded `{JsonLaws} id body code realId :
  exists r, NewHttpUpstreamResponse id body code JsonRpc = Some r /\ response_Id r = id /\
    match error_member body with
    | Some (_, raw) => HasError r = true /\ EncodeResponse r realId = Some (inr (jsonRpcResponseReader realId "error" raw))
    | None =>
      if bool_decide (raw_result body = "")
      then exists e, GetError r = Some e /\ Code e = IncorrectResponseBody
      else HasError r = false /\
           EncodeResponse r realId = Some (inr (jsonRpcResponseReader realId "result" (raw_result body)))
    end.
Proof.
  unfold NewHttpUpstreamResponse, parseJsonRpcBody.
  destruct (error_member body) as [[t raw]|] eqn:Em.
  - case_bool_decide as Ht; [|by eexists].
    assert (exists s, raw = quoted s) as [s ->]; [|rewrite unquoted_quoted; by eexists].
    unfold error_member in Em. destruct (GetByPath body "error") as [[t' raw']|] eqn:Eg; [|done].
    case_bool_decide; [done|]. destruct raw' as [raw'|]; [|done]. simpl in Em. injection Em as -> ->.
    rewrite Ht in Eg. by eapply raw_string.
  - case_bool_decide; by repeat eexists.
Qed.

(** Members of flat objects, read off a table. *)
#[local] Instance demo_json : Json := {
  GetByPath body key :=
    if bool_decide (body = "ok" /\ key = "result") then Some (mkJsonNode V_OTHER (Some "7"))
    else if bool_decide (body = "bad" /\ key = "error") then Some (mkJsonNode V_STRING (Some (quoted "boom")))
    else if bool_decide (body = "ok" /\ key = "error") then Some (mkJsonNode V_NULL (Some "null"))
    else None;
  unmarshal_jsonRpcError _ := None;
  marshal_jsonRpcError _ := inr "{}";
  unmarshal_string _ := None;
  unmarshal_wsMessage _ := None;
  marshal_wsSubResponse _ _ _ := inr "{}";
}.

#[local] Instance demo_json_laws : JsonLaws (H := demo_json).
Proof.
  split; intros body key; cbn [GetByPath demo_json]; repeat case_bool_decide; intros; simplify_eq; try done.
  by eexists.
Qed.

Lemma json_rpc_body_forwarded_witness :
  exists r, NewHttpUpstreamResponse "1" "ok" 200 JsonRpc = Some r /\ HasError r = false /\
    EncodeResponse r "9" = Some (inr (jsonRpcResponseReader "9" "result" "7")).
Proof.
  destruct (json_rpc_body_forwarded "1" "ok" 200 "9") as (r & E & _ & Hm). exists r. split; [exact E|].
  change (error_member "ok") with (@None (NodeType * string)) in Hm. by apply Hm.
Defined.

(** A REST response is an error exactly when its status is not a success.
    The error then has a code other than zero, and a body that is not a
    structured error gives a message of at most 527 bytes. *)
Theorem rest_error_classified `{Json} id body code :
  let r := with_type Rest (parseHttpResponse id body code) in
  NewHttpUpstreamResponse id body code Rest = Some (GenericResponse r) /\
  ToHttpCode (GenericResponse r) = code /\
  (g_error r = None <-> 200 <= code < 300) /\
  (forall e, g_error r = Some e -> code <> 0 -> Code e <> 0 /\
     (tryParseStructuredError body = None -> Code e = code /\ (String.length (Message e) <= 527)%nat)).
Proof.
  simpl. split; [done|]. split; [done|]. split.
  - destruct (code <? 200) eqn:E1, (300 <=? code) eqn:E2; reflect_bool; simpl; split; (done || lia).
  - intros e. destruct (_ || _); [|done]. intros [= <-] Hc. unfold parseRestErrorBody.
    destruct (tryParseStructuredError body) as [e|].
    + split; [|done]. destruct (Code e =? 0) eqn:Ee; reflect_bool; done.
    + simpl. split; [done|]. intros _. split; [done|apply truncate_bound].
Qed.
