(* ===== verification/Specs.v ===== *)
(** Method specs: the per-chain method definitions grouped by name and by
    connector, and the lookups the upstreams run against them
    ([pkg/methods/method.go], [data.go], [method_groups.go],
    [connector_methods.go], [helpers.go]). *)

From S2P Require Import Prelude.

(** ** Data *)

Inductive ApiConnectorType :=
  UnknownType | JsonRpcConnector | TendermintConnector | RestConnector
| RestIndexer | GrpcConnector | WebsocketConnector | RestAdditional.

#[export] Instance ApiConnectorType_eq_dec : EqDecision ApiConnectorType.
Proof. solve_decision. Defined.

Definition connector_code (c : ApiConnectorType) : N :=
  match c with
  | UnknownType => 0 | JsonRpcConnector => 1 | TendermintConnector => 2
  | RestConnector => 3 | RestIndexer => 4 | GrpcConnector => 5
  | WebsocketConnector => 6 | RestAdditional => 7
  end%N.

#[export] Instance ApiConnectorType_countable : Countable ApiConnectorType.
Proof.
  refine (inj_countable' connector_code (fun n =>
    match n with
    | 0 => UnknownType | 1 => JsonRpcConnector | 2 => TendermintConnector
    | 3 => RestConnector | 4 => RestIndexer | 5 => GrpcConnector
    | 6 => WebsocketConnector | _ => RestAdditional
    end%N) _). by intros [].
Defined.

Definition ApiConnectorType_String (a : ApiConnectorType) : string :=
  match a with
  | JsonRpcConnector => "json-rpc"
  | RestConnector => "rest"
  | GrpcConnector => "grpc"
  | WebsocketConnector => "websocket"
  | UnknownType => "unknown"
  | RestIndexer => "rest-indexer"
  | RestAdditional => "rest-additional"
  | TendermintConnector => "tendermint"
  end.

Definition apiConnectorNames : gmap string ApiConnectorType :=
  list_to_map [("json-rpc", JsonRpcConnector); ("tendermint", TendermintConnector); ("rest", RestConnector);
    ("grpc", GrpcConnector); ("websocket", WebsocketConnector); ("rest-indexer", RestIndexer);
    ("rest-additional", RestAdditional)].

Definition plainApiConnectorTypes : list ApiConnectorType :=
  [JsonRpcConnector; TendermintConnector; RestConnector; GrpcConnector; WebsocketConnector; RestIndexer].

Definition IsAdditionalApiConnectorType (a : ApiConnectorType) : bool := bool_decide (a ∈ [RestAdditional]).

Definition GetApiConnectorType (name : string) : ApiConnectorType := default UnknownType (apiConnectorNames !! name).

Definition ValidateApiConnectorType (connectorName : string) : option string :=
  match apiConnectorNames !! connectorName with
  | Some _ => None
  | None => Some ("invalid connector type - '" +:+ connectorName +:+ "'")
  end.

Inductive DispatchPolicy :=
  DispatchDefault | DispatchBroadcast | DispatchMaximumValue | DispatchNotNull.

#[export] Instance DispatchPolicy_eq_dec : EqDecision DispatchPolicy.
Proof. solve_decision. Defined.

Record Sticky := mkSticky { SendSticky : bool; CreateSticky : bool }.
#[export] Instance Sticky_eq_dec : EqDecision Sticky.
Proof. solve_decision. Defined.

Record Subscription := mkSubscription {
  sub_IsSubscribe : bool; sub_Method : string; UnsubMethod : string }.
#[export] Instance Subscription_eq_dec : EqDecision Subscription.
Proof. solve_decision. Defined.

(** The query that finds the tag of a request, by its text, with the type of what
    it returns; the compiled query that replaces a value is kept by its text too. *)
Record jqParser := mkJqParser { returnType : string; query : string }.
#[export] Instance jqParser_eq_dec : EqDecision jqParser.
Proof. solve_decision. Defined.

Record Method := mkMethod {
  Name : string;
  Group : string;
  method_Subscription : option Subscription;
  sticky : option Sticky;
  apiConnectorTypes : list ApiConnectorType;
  parser : option jqParser;
  modifyParser : option string;
  enabled : bool;
  cacheable : bool;
  enforceIntegrity : bool;
  local : bool;
  dispatch : DispatchPolicy;
}.
#[export] Instance Method_eq_dec : EqDecision Method.
Proof. solve_decision. Defined.

(** What a method's parser finds in the parameters of a request; [NoParam] is the
    nil interface. *)
Inductive MethodParam :=
| NoParam
| BlockNumberParam (number : Z)
| BlockRangeParam (from to : option Z)
| HashTagParam (hash : string)
| StringParam (value : string).
#[export] Instance MethodParam_eq_dec : EqDecision MethodParam.
Proof. solve_decision. Defined.

Definition DefaultMethod (name : string) : Method :=
  mkMethod name "" None None [] None None true false false false DispatchDefault.

Definition DefaultMethodWithConnectorTypes (name : string) (types : list ApiConnectorType)
    : Method :=
  mkMethod name "" None None types None None true false false false DispatchDefault.

Definition IsSubscribe (m : Method) : bool :=
  match method_Subscription m with None => false | Some s => sub_IsSubscribe s end.

Definition IsStickySend (m : Method) : bool :=
  match sticky m with None => false | Some s => SendSticky s end.

Definition IsStickyCreate (m : Method) : bool :=
  match sticky m with None => false | Some s => CreateSticky s end.

Definition DefaultMethodGroup : string := "default".
Definition SubMethodGroup : string := "sub".

(** ** Method groups *)

Abbreviation GroupMap := (gmap string (gmap string Method)).

Definition newMethodGroups : GroupMap :=
  <[SubMethodGroup := ∅]> {[DefaultMethodGroup := ∅]}.

Definition ensureGroup (group : string) (m : GroupMap) : GroupMap :=
  match m !! group with Some _ => m | None => <[group := ∅]> m end.

(** [m.byGroup[group][name] = method] on an existing group. *)
Definition put_method (group name : string) (method : Method) (m : GroupMap) : GroupMap :=
  alter (fun g => <[name := method]> g) group m.

(** Store a method in its group and in the synthetic indexes. *)
Definition put_indexed (group name : string) (method : Method) (m : GroupMap) : GroupMap :=
  let m := put_method group name method m in
  let m := put_method DefaultMethodGroup name method m in
  if IsSubscribe method then put_method SubMethodGroup name method m else m.

Definition methodGroups_add (group : string) (method : Method) (m : GroupMap) : GroupMap :=
  put_indexed group (Name method) method (ensureGroup group m).

Definition group_methods (m : GroupMap) (group : string) : gmap string Method :=
  default ∅ (m !! group).

Definition defaultMethods (m : GroupMap) : gmap string Method :=
  group_methods m DefaultMethodGroup.

Definition subMethods (m : GroupMap) : gmap string Method :=
  group_methods m SubMethodGroup.

(** ** Resolved specs *)

Record connectorMethods := mkConnectorMethods {
  byConnector : gmap ApiConnectorType GroupMap;
  apiConnectors : list ApiConnectorType;
}.

Record resolvedSpec := mkResolvedSpec {
  spec_methods : option GroupMap;
  connectors : option connectorMethods;
}.

(** The registry of loaded specs, a package variable of the program. *)
Abbreviation Registry := (gmap string resolvedSpec).

Definition is_synthetic (group : string) : bool :=
  bool_decide (group = DefaultMethodGroup) || bool_decide (group = SubMethodGroup).

(** One method of one group: [overlayMethodGroups]' inner loop body. *)
Definition overlay_method (group : string) (st : GroupMap * gset string) (e : string * Method)
    : GroupMap * gset string :=
  let '(dst, selected) := st in
  let '(name, method) := e in
  if bool_decide (name ∈ selected) then (dst, selected)
  else (put_indexed group name method dst, {[name]} ∪ selected).

Section Lookup.
Context `{MR : MapRange}.

Definition overlay_group (st : GroupMap * gset string) (e : string * gmap string Method)
    : GroupMap * gset string :=
  let '(group, methods) := e in
  if is_synthetic group then st
  else foldl (overlay_method group) (ensureGroup group st.1, st.2) (range methods).

Definition overlayMethodGroups (dst src : GroupMap) (selected : gset string)
    : GroupMap * gset string :=
  foldl overlay_group (dst, selected) (range src).

Definition GetSpecMethodsByConnectors (reg : Registry) (specName : string)
    (connectorTypes : list ApiConnectorType) : option GroupMap :=
  spec ← reg !! specName;
  methods ← spec_methods spec;
  match connectorTypes with
  | [] => Some methods
  | _ =>
    match connectors spec with
    | None => Some newMethodGroups
    | Some conns =>
      Some (foldl (fun st c =>
        match byConnector conns !! c with
        | None => st
        | Some current => overlayMethodGroups st.1 current st.2
        end) (newMethodGroups, ∅) connectorTypes).1
    end
  end.
End Lookup.

Definition GetSpecConnectors (reg : Registry) (specName : string) : list ApiConnectorType :=
  match reg !! specName ≫= connectors with
  | None => []
  | Some c => apiConnectors c
  end.

Definition GetSpecMethod (reg : Registry) (specName methodName : string) : option Method :=
  methods ← reg !! specName ≫= spec_methods;
  defaultMethods methods !! methodName.

Definition GetSpecMethodWithFallback (reg : Registry) (specName methodName : string) : Method :=
  match GetSpecMethod reg specName methodName with
  | Some m => m
  | None => DefaultMethodWithConnectorTypes methodName (GetSpecConnectors reg specName)
  end.

Definition GetSubMethods (reg : Registry) (specName : string) : gset string :=
  match reg !! specName ≫= spec_methods with
  | None => ∅
  | Some m => dom (subMethods m)
  end.

Definition subscribeSettings (reg : Registry) (specName methodName : string)
    : option Subscription :=
  m ← GetSpecMethod reg specName methodName; method_Subscription m.

Definition IsSubscribeMethod (reg : Registry) (specName methodName : string) : bool :=
  match subscribeSettings reg specName methodName with
  | None => false
  | Some s => sub_IsSubscribe s
  end.

Definition GetUnsubscribeMethod (reg : Registry) (specName methodName : string)
    : option string :=
  s ← subscribeSettings reg specName methodName; Some (UnsubMethod s).

(** ** Well-formed groups

    The two synthetic groups are indexes over the methods of the real groups:
    [default] holds every method and [sub] the subscription methods, each under
    its own name. *)

Record groups_wf (m : GroupMap) : Prop := {
  wf_default : is_Some (m !! DefaultMethodGroup);
  wf_sub : is_Some (m !! SubMethodGroup);
  wf_indexed : forall g n x, is_synthetic g = false ->
    group_methods m g !! n = Some x -> defaultMethods m !! n = Some x;
  wf_owner : forall n x, defaultMethods m !! n = Some x ->
    exists g, is_synthetic g = false /\ group_methods m g !! n = Some x;
  wf_unique : forall g g' n, is_synthetic g = false -> is_synthetic g' = false ->
    is_Some (group_methods m g !! n) -> is_Some (group_methods m g' !! n) -> g = g';
  wf_sub_iff : forall n x, subMethods m !! n = Some x <->
    defaultMethods m !! n = Some x /\ IsSubscribe x = true;
}.

Lemma group_methods_ensure g g' m :
  group_methods (ensureGroup g m) g' = group_methods m g'.
Proof.
  unfold ensureGroup, group_methods. destruct (m !! g) eqn:E; [done|].
  rewrite lookup_insert. case_decide; subst; by rewrite ?E.
Qed.

Lemma ensureGroup_some g g' m :
  is_Some (ensureGroup g m !! g') <-> g' = g \/ is_Some (m !! g').
Proof.
  unfold ensureGroup. destruct (m !! g) eqn:E.
  - split; [by right|]. intros [->|?]; eauto.
  - rewrite lookup_insert. case_decide; subst; naive_solver.
Qed.

Lemma group_methods_put g n x m g' n' :
  is_Some (m !! g) ->
  group_methods (put_method g n x m) g' !! n' =
  if decide (g = g' /\ n = n') then Some x else group_methods m g' !! n'.
Proof.
  intros [y Hy]. unfold put_method, group_methods. rewrite lookup_alter.
  destruct (decide (g = g')) as [<-|]; [|by case_decide; naive_solver].
  rewrite Hy. simpl. rewrite lookup_insert. repeat case_decide; naive_solver.
Qed.

Lemma put_method_some g n x m g' : is_Some (put_method g n x m !! g') <-> is_Some (m !! g').
Proof.
  unfold put_method. rewrite lookup_alter.
  case_decide; subst; [apply fmap_is_Some|done].
Qed.

Lemma put_indexed_some g n x m g' :
  is_Some (put_indexed g n x m !! g') <-> is_Some (m !! g').
Proof. unfold put_indexed. destruct (IsSubscribe x); by rewrite !put_method_some. Qed.

(** Where a method stored by [put_indexed] is found. *)
Lemma group_methods_put_indexed g n x m g' n' :
  is_Some (m !! g) -> is_Some (m !! DefaultMethodGroup) -> is_Some (m !! SubMethodGroup) ->
  group_methods (put_indexed g n x m) g' !! n' =
  if decide (n = n' /\ (g = g' \/ g' = DefaultMethodGroup \/
                        (g' = SubMethodGroup /\ IsSubscribe x = true)))
  then Some x else group_methods m g' !! n'.
Proof.
  intros Hg Hd Hs. unfold put_indexed.
  destruct (IsSubscribe x);
    repeat (rewrite group_methods_put; [|by rewrite ?put_method_some]);
    repeat case_decide; naive_solver.
Qed.

Lemma synthetic_default : is_synthetic DefaultMethodGroup = true.
Proof. done. Qed.
Lemma synthetic_sub : is_synthetic SubMethodGroup = true.
Proof. done. Qed.

Lemma not_synthetic g :
  is_synthetic g = false <-> g <> DefaultMethodGroup /\ g <> SubMethodGroup.
Proof.
  unfold is_synthetic. rewrite orb_false_iff, !bool_decide_eq_false. done.
Qed.

Lemma newMethodGroups_wf : groups_wf newMethodGroups.
Proof.
  assert (forall g, group_methods newMethodGroups g = ∅) as E.
  { intros g. unfold group_methods, newMethodGroups. rewrite lookup_insert.
    case_decide; [done|]. rewrite lookup_singleton. by case_decide. }
  split; [by eexists|by eexists|..]; unfold defaultMethods, subMethods;
    intros *; rewrite !E, !lookup_empty; try naive_solver.
Qed.

Lemma ensureGroup_wf g m : groups_wf m -> groups_wf (ensureGroup g m).
Proof.
  intros [Hd Hs Hi Ho Hu Hsi].
  split; unfold defaultMethods, subMethods in *;
    try (setoid_rewrite group_methods_ensure); try done;
    rewrite ensureGroup_some; by right.
Qed.

Section PutIndexed.
Context (g n : string) (x : Method) (m : GroupMap).
Context (Hd : is_Some (m !! DefaultMethodGroup)) (Hs : is_Some (m !! SubMethodGroup)).
Context (Hg : is_synthetic g = false) (Hmg : is_Some (m !! g)).

Lemma put_indexed_real g' n' :
  is_synthetic g' = false ->
  group_methods (put_indexed g n x m) g' !! n' =
  if decide (g = g' /\ n = n') then Some x else group_methods m g' !! n'.
Proof using All.
  intros [? ?]%not_synthetic. rewrite group_methods_put_indexed by done.
  apply decide_ext. tauto.
Qed.

Lemma put_indexed_default n' :
  defaultMethods (put_indexed g n x m) !! n' =
  if decide (n = n') then Some x else defaultMethods m !! n'.
Proof using All.
  unfold defaultMethods. rewrite group_methods_put_indexed by done.
  apply decide_ext. tauto.
Qed.

Lemma put_indexed_sub n' :
  subMethods (put_indexed g n x m) !! n' =
  if decide (n = n' /\ IsSubscribe x = true) then Some x else subMethods m !! n'.
Proof using All.
  apply not_synthetic in Hg as [? ?].
  unfold subMethods. rewrite group_methods_put_indexed by done.
  apply decide_ext. split; [|tauto]. intros (-> & [?|[?|[? ?]]]); done.
Qed.
End PutIndexed.

(** Storing a fresh name in a real group keeps the indexes exact. *)
Lemma put_indexed_wf g n x m :
  groups_wf m -> is_synthetic g = false -> is_Some (m !! g) ->
  defaultMethods m !! n = None -> groups_wf (put_indexed g n x m).
Proof.
  intros [Hd Hs Hi Ho Hu Hsi] Hg Hmg Hfresh.
  pose proof (put_indexed_real g n x m Hd Hs Hg Hmg) as ER.
  pose proof (put_indexed_default g n x m Hd Hs Hg Hmg) as ED.
  pose proof (put_indexed_sub g n x m Hd Hs Hg Hmg) as ES.
  assert (forall g', is_synthetic g' = false -> ~ is_Some (group_methods m g' !! n)) as Hnone.
  { intros g' Hg' [y Hy]. apply Hi in Hy; [congruence|done]. }
  split; rewrite ?put_indexed_some; try done.
  - intros g' n' y Hg'. rewrite ER, ED by done.
    destruct (decide (g = g' /\ n = n')) as [[_ <-]|Hc]; [by rewrite decide_True|].
    destruct (decide (n = n')) as [<-|]; [|by apply Hi].
    intros Hl. destruct (Hnone g' Hg'). by exists y.
  - intros n' y. rewrite ED. destruct (decide (n = n')) as [<-|Hc]; intros Hl.
    + exists g. rewrite ER, decide_True by done. done.
    + apply Ho in Hl as (g' & Hg' & Hl). exists g'. split; [done|].
      by rewrite ER, decide_False by (done || intros [_ ?]; done).
  - intros g1 g2 n' H1 H2. rewrite !ER by done. specialize (Hu g1 g2 n' H1 H2).
    pose proof (Hnone g1 H1). pose proof (Hnone g2 H2).
    repeat case_decide; destruct_and?; subst; intros; done || by auto.
  - intros n' y. rewrite ED, ES. specialize (Hsi n' y). destruct (decide (n = n')) as [<-|Hne].
    + destruct (IsSubscribe x) eqn:Ex.
      * rewrite decide_True by done. naive_solver.
      * rewrite decide_False by (by intros [_ ?]). rewrite Hsi, Hfresh.
        split; [by intros [? _]|]. intros [[= <-] ?]. congruence.
    + rewrite decide_False by (by intros [? _]). done.
Qed.

Lemma methodGroups_add_wf g x m :
  groups_wf m -> is_synthetic g = false -> defaultMethods m !! Name x = None ->
  groups_wf (methodGroups_add g x m).
Proof.
  intros Hwf Hg Hn. unfold methodGroups_add. apply put_indexed_wf; [|done|..].
  - by apply ensureGroup_wf.
  - apply ensureGroup_some. by left.
  - unfold defaultMethods. by rewrite group_methods_ensure.
Qed.

(** ** The connector view of a spec *)

(** [selectedMethods] is the set of names already stored. *)
Definition overlay_ok (st : GroupMap * gset string) : Prop :=
  groups_wf st.1 /\ forall n, n ∈ st.2 <-> is_Some (defaultMethods st.1 !! n).

Section Overlay.
Context `{MR : MapRange}.

Lemma overlay_method_ok g st e :
  is_synthetic g = false -> is_Some (st.1 !! g) -> overlay_ok st ->
  overlay_ok (overlay_method g st e) /\ is_Some ((overlay_method g st e).1 !! g) /\
  (overlay_method g st e).2 = {[e.1]} ∪ st.2.
Proof using Type.
  destruct st as [dst sel], e as [n x]. intros Hg Hmg [Hwf Hsel]. simpl in *.
  case_bool_decide as Hin; simpl.
  - split; [by split|]. split; [done|]. set_solver.
  - assert (defaultMethods dst !! n = None) as Hnone.
    { apply eq_None_not_Some. by rewrite <- Hsel. }
    split; [split|].
    + by apply put_indexed_wf.
    + intros n'. simpl. destruct Hwf.
      rewrite put_indexed_default by done. rewrite elem_of_union, elem_of_singleton, Hsel.
      case_decide; subst; naive_solver.
    + split; [by apply put_indexed_some|done].
Qed.

Lemma overlay_methods_ok g l st :
  is_synthetic g = false -> is_Some (st.1 !! g) -> overlay_ok st ->
  overlay_ok (foldl (overlay_method g) st l) /\
  (foldl (overlay_method g) st l).2 = list_to_set l.*1 ∪ st.2.
Proof using Type.
  intros Hg. revert st. induction l as [|e l IH]; intros st Hmg Hok; simpl.
  - split; [done|set_solver].
  - destruct (overlay_method_ok g st e Hg Hmg Hok) as (Hok' & Hmg' & Hsel).
    destruct (IH _ Hmg' Hok') as [? ->]. split; [done|]. rewrite Hsel. set_solver.
Qed.

(** The names a source contributes: those of its real groups. *)
Definition real_names (src : GroupMap) (n : string) : Prop :=
  exists g, is_synthetic g = false /\ is_Some (group_methods src g !! n).

Lemma overlay_group_ok st g ms :
  overlay_ok st ->
  overlay_ok (overlay_group st (g, ms)) /\
  (overlay_group st (g, ms)).2 = (if is_synthetic g then ∅ else dom ms) ∪ st.2.
Proof using Type.
  destruct st as [dst sel]. intros [Hwf Hsel]. simpl. destruct (is_synthetic g) eqn:Hg.
  - split; [done|set_solver].
  - destruct (overlay_methods_ok g (range ms) (ensureGroup g dst, sel)) as [Hok ->]; simpl.
    + done.
    + apply ensureGroup_some. by left.
    + split; [by apply ensureGroup_wf|]. simpl. intros n. rewrite Hsel.
      unfold defaultMethods. by rewrite group_methods_ensure.
    + split; [done|]. by rewrite range_keys_dom.
Qed.

Lemma overlay_groups_ok l st :
  overlay_ok st ->
  overlay_ok (foldl overlay_group st l) /\
  forall n, n ∈ (foldl overlay_group st l).2 <->
    n ∈ st.2 \/ exists g ms, (g, ms) ∈ l /\ is_synthetic g = false /\ n ∈ dom ms.
Proof using Type.
  revert st. induction l as [|[g ms] l IH]; intros st Hok; simpl.
  - split; [done|]. set_solver.
  - destruct (overlay_group_ok st g ms Hok) as [Hok' Hsel].
    destruct (IH _ Hok') as [? Hin]. split; [done|]. intros n. rewrite Hin, Hsel.
    destruct (is_synthetic g) eqn:Hg; set_solver by congruence.
Qed.

Lemma overlayMethodGroups_ok dst src sel :
  overlay_ok (dst, sel) ->
  overlay_ok (overlayMethodGroups dst src sel) /\
  forall n, n ∈ (overlayMethodGroups dst src sel).2 <-> n ∈ sel \/ real_names src n.
Proof using Type.
  intros Hok. unfold overlayMethodGroups.
  destruct (overlay_groups_ok (range src) (dst, sel) Hok) as [? Hin].
  split; [done|]. intros n. rewrite Hin. simpl. apply or_iff_compat_l.
  unfold real_names, group_methods. split.
  - intros (g & ms & Hl%elem_of_range & Hg & Hn%elem_of_dom). exists g. by rewrite Hl.
  - intros (g & Hg & Hn). destruct (src !! g) as [ms|] eqn:El; simpl in Hn.
    + exists g, ms. by rewrite elem_of_range, elem_of_dom.
    + rewrite lookup_empty in Hn. by apply is_Some_None in Hn.
Qed.
End Overlay.

Section ConnectorView.
Context `{MR : MapRange}.

Definition connector_names (conns : connectorMethods) (cs : list ApiConnectorType)
    (n : string) : Prop :=
  exists c src, c ∈ cs /\ byConnector conns !! c = Some src /\ real_names src n.

Lemma overlay_connectors_ok conns cs st :
  overlay_ok st ->
  let r := foldl (fun st c =>
    match byConnector conns !! c with
    | None => st
    | Some current => overlayMethodGroups st.1 current st.2
    end) st cs in
  overlay_ok r /\ forall n, n ∈ r.2 <-> n ∈ st.2 \/ connector_names conns cs n.
Proof using Type.
  revert st. induction cs as [|c cs IH]; intros [dst sel] Hok; simpl in *.
  - split; [done|]. unfold connector_names. set_solver.
  - destruct (byConnector conns !! c) as [src|] eqn:Hc.
    + destruct (overlayMethodGroups_ok dst src sel Hok) as [Hok' Hsel].
      destruct (IH _ Hok') as [? Hin]. split; [done|]. intros n. rewrite Hin, Hsel.
      unfold connector_names. set_solver by congruence.
    + destruct (IH _ Hok) as [? Hin]. split; [done|]. intros n. rewrite Hin.
      unfold connector_names. set_solver by congruence.
Qed.

(** The view of a spec restricted to a list of connectors is well formed
    whatever order its maps are ranged in: its [default] group holds exactly
    the methods of the real groups of the chosen connectors, each in one real
    group, and its [sub] group exactly the subscription methods among them. *)
Theorem GetSpecMethodsByConnectors_view reg specName spec ms conns c cs :
  reg !! specName = Some spec -> spec_methods spec = Some ms ->
  connectors spec = Some conns ->
  exists view, GetSpecMethodsByConnectors reg specName (c :: cs) = Some view /\
    groups_wf view /\
    forall n, is_Some (defaultMethods view !! n) <-> connector_names conns (c :: cs) n.
Proof using Type.
  intros Hs Hm Hc. unfold GetSpecMethodsByConnectors. rewrite Hs. simpl. rewrite Hm. simpl.
  rewrite Hc. eexists. split; [reflexivity|].
  destruct (overlay_connectors_ok conns (c :: cs) (newMethodGroups, ∅)) as [[Hwf Hsel] Hin].
  { split; [apply newMethodGroups_wf|]. simpl. intros n. split; [set_solver|].
    intros [x Hx]. apply (wf_owner _ newMethodGroups_wf) in Hx as (g & Hg & Hx).
    unfold group_methods, newMethodGroups in Hx. apply not_synthetic in Hg as [? ?].
    rewrite lookup_insert_ne, lookup_singleton_ne in Hx by done. done. }
  split; [done|]. intros n. rewrite <- Hsel, Hin. set_solver.
Qed.
End ConnectorView.

(** A spec with one JSON-RPC and one REST method, to evaluate the lookups on. *)
Definition demo_call : Method :=
  mkMethod "eth_call" "common" None None [JsonRpcConnector] None None true true false false DispatchDefault.
Definition demo_sub : Method :=
  mkMethod "eth_subscribe" "subs" (Some (mkSubscription true "" "eth_unsubscribe")) None
    [WebsocketConnector] None None true false false false DispatchDefault.
Definition demo_groups : GroupMap :=
  methodGroups_add "subs" demo_sub (methodGroups_add "common" demo_call newMethodGroups).
Definition demo_connectors : connectorMethods :=
  mkConnectorMethods
    (<[WebsocketConnector := demo_groups]>
      {[JsonRpcConnector := methodGroups_add "common" demo_call newMethodGroups]})
    [JsonRpcConnector; WebsocketConnector].
Definition demo_spec : resolvedSpec := mkResolvedSpec (Some demo_groups) (Some demo_connectors).
Definition demo_registry : Registry := {["eth" := demo_spec]}.

#[local] Existing Instance Prelude.default_range.

Lemma GetSpecMethodsByConnectors_view_witness :
  exists view, GetSpecMethodsByConnectors demo_registry "eth" [JsonRpcConnector] = Some view /\
    groups_wf view /\
    forall n, is_Some (defaultMethods view !! n) <->
      connector_names demo_connectors [JsonRpcConnector] n.
Proof.
  apply (GetSpecMethodsByConnectors_view demo_registry "eth" demo_spec demo_groups
    demo_connectors JsonRpcConnector []); reflexivity.
Defined.
