(* ===== verification/SpecLoading.v ===== *)
(** Loading of method specs: validation of the spec files, defaults, imports
    with the detection of cycles, and the merging of method groups into the
    registry that [Specs] reads ([pkg/methods/data.go], [method.go],
    [method_groups.go], [connector_methods.go], [resolved_specs.go],
    [methods_spec.go]).

    While a view of a spec is built its methods are shared: the entries of a
    method's group and of the [default] and [sub] indexes are one object, and a
    merge into one of them is seen through the others.  The model keeps the
    objects of a view in a table and the groups refer to them by position.  A
    finished view is read out once; its importers only clone from it.  The
    subscription settings of a method are kept by value. *)

From Stdlib Require Import Ascii.
From S2P Require Import Prelude GoStrings Specs.

(** ** Outcomes

    A load ends with an error or a result; [Panic] is a nil dereference and
    [OutOfFuel] an exhausted bound of the model, both shown not to happen. *)

Inductive Outcome (A : Type) :=
| OutOfFuel
| Panic
| Err (err : string)
| Ok (a : A).
Arguments OutOfFuel {A}.
Arguments Panic {A}.
Arguments Err {A} err.
Arguments Ok {A} a.

#[export] Instance Outcome_ret : MRet Outcome := fun A a => Ok a.
#[export] Instance Outcome_bind : MBind Outcome := fun A B f o =>
  match o with OutOfFuel => OutOfFuel | Panic => Panic | Err e => Err e | Ok a => f a end.

Definition of_error {A} (r : string + A) : Outcome A := match r with inl e => Err e | inr a => Ok a end.
Definition or_error (e : option string) : Outcome unit := match e with Some e => Err e | None => Ok tt end.
Definition wrap_error {A} (f : string -> string) (o : Outcome A) : Outcome A :=
  match o with Err e => Err (f e) | o => o end.

Fixpoint foldM {A B} (f : A -> B -> Outcome A) (a : A) (l : list B) : Outcome A :=
  match l with
  | [] => Ok a
  | x :: l => a ← f a x; foldM f a l
  end.

(** ** Spec files *)

Record TagParser := mkTagParser { tp_ReturnType : string; tp_Path : string }.

Record MethodSettings := mkMethodSettings {
  Cacheable : option bool;
  EnforceIntegrity : bool;
  settings_Sticky : option Sticky;
  settings_Subscription : option Subscription;
  settings_Local : bool;
  settings_Dispatch : string;
}.

Record MethodData := mkMethodData {
  md_Name : string;
  md_Group : string;
  md_Settings : option MethodSettings;
  md_TagParser : option TagParser;
  md_Enabled : option bool;
}.

Inductive SpecType := UnknownSpec | BundleSpec | PlainSpec.
#[export] Instance SpecType_eq_dec : EqDecision SpecType.
Proof. solve_decision. Defined.

Definition specTypes : gmap string SpecType := list_to_map [("bundle", BundleSpec); ("plain", PlainSpec)].
Definition GetSpecType (name : string) : SpecType := default UnknownSpec (specTypes !! name).

Record SpecData := mkSpecData {
  sd_Name : string;
  ApiConnectors : list string;
  sd_Type : string;
  sd_apiConnectors : list ApiConnectorType;
  specType : SpecType;
}.

Record MethodSpec := mkMethodSpec {
  spec_SpecData : option SpecData;
  SpecImports : list string;
  spec_Methods : list MethodData;
}.

(** The content of a file: name, connectors and type of the spec, the imports and
    the methods. *)
Record RawSpec := mkRawSpec {
  raw_spec : option (string * list string * string);
  raw_imports : list string;
  raw_methods : list MethodData;
}.

(** The fields read from JSON, completed with the derived ones. *)
Definition SpecData_UnmarshalJSON (name : string) (connectors : list string) (type : string) : SpecData :=
  mkSpecData name connectors type (map GetApiConnectorType connectors) (GetSpecType type).

Definition unmarshal_spec (r : RawSpec) : MethodSpec :=
  mkMethodSpec ((fun '(name, connectors, type) => SpecData_UnmarshalJSON name connectors type) <$> raw_spec r)
    (raw_imports r) (raw_methods r).

(** ** Validation and defaults *)

Definition ParserReturnType_validate (p : string) : option string :=
  if bool_decide (p ∈ ["blockRef"; "blockNumber"; "string"; "object"; "blockRange"]) then None
  else Some ("wrong return type of tag-parser - " +:+ p).

Definition TagParser_validate (p : TagParser) : option string :=
  if bool_decide (tp_Path p = "") then Some "empty tag-parser path"
  else ParserReturnType_validate (tp_ReturnType p).

Definition dispatchPolicies : gmap string DispatchPolicy :=
  list_to_map [("", DispatchDefault); ("broadcast", DispatchBroadcast);
    ("maximum-value", DispatchMaximumValue); ("not-null", DispatchNotNull)].

Definition DispatchPolicy_validate (d : string) : option string :=
  match dispatchPolicies !! d with
  | Some _ => None
  | None => Some ("unknown dispatch policy - " +:+ d)
  end.

Definition sticky_both (s : option Sticky) : option string :=
  match s with
  | Some s => if CreateSticky s && SendSticky s
              then Some "both 'create-sticky' and 'send-sticky' are enabled" else None
  | None => None
  end.

Definition MethodSettings_validate (m : MethodSettings) : option string :=
  match DispatchPolicy_validate (settings_Dispatch m) with
  | Some e => Some e
  | None =>
    if bool_decide (settings_Dispatch m <> "") then
      if settings_Local m then Some "dispatch cannot be used with local methods"
      else if match settings_Subscription m with Some s => sub_IsSubscribe s | None => false end
      then Some "dispatch cannot be used with subscription methods"
      else if match settings_Sticky m with Some s => SendSticky s || CreateSticky s | None => false end
      then Some "dispatch cannot be used with sticky methods"
      else sticky_both (settings_Sticky m)
    else sticky_both (settings_Sticky m)
  end.

Definition MethodData_validate (m : MethodData) : option string :=
  match md_TagParser m ≫= TagParser_validate with
  | Some e => Some e
  | None => md_Settings m ≫= MethodSettings_validate
  end.

Definition MethodSpec_validate (m : MethodSpec) : option string :=
  match spec_SpecData m with
  | None => Some "missing spec data"
  | Some d =>
    if bool_decide (sd_Name d = "") then Some "missing spec name"
    else match specType d with
    | UnknownSpec => Some "unknown spec type"
    | BundleSpec =>
      if bool_decide (ApiConnectors d <> []) then Some "bundle spec api connectors must be empty"
      else match spec_Methods m with [] => None | _ => Some "bundle spec methods must be empty" end
    | PlainSpec =>
      if bool_decide (ApiConnectors d = []) then Some "plain spec api connectors must not be empty" else None
    end
  end.

Definition setDefaults (m : MethodData) : MethodData :=
  mkMethodData (md_Name m)
    (if bool_decide (md_Group m = "") then "common" else md_Group m)
    (Some match md_Settings m with
          | None => mkMethodSettings (Some true) false None None false ""
          | Some s => mkMethodSettings (Some (default true (Cacheable s))) (EnforceIntegrity s)
                        (settings_Sticky s) (settings_Subscription s) (settings_Local s) (settings_Dispatch s)
          end)
    (md_TagParser m)
    (Some (default true (md_Enabled m))).

(** The methods of a file, checked and completed one by one: the index and the
    names seen so far. *)
Definition check_method (path : string) (st : Z * gset string * list MethodData) (m : MethodData)
    : Outcome (Z * gset string * list MethodData) :=
  let '(i, names, done) := st in
  if bool_decide (md_Name m = "")
  then Err ("empty method name, file - '" +:+ path +:+ "', index - " +:+ pretty i)
  else match MethodData_validate m with
  | Some e => Err ("error during method '" +:+ md_Name m +:+ "' of '" +:+ path +:+ "' validation, cause: " +:+ e)
  | None =>
    if bool_decide (md_Name m ∈ names)
    then Err ("method '" +:+ md_Name m +:+ "' already exists, file - '" +:+ path +:+ "'")
    else Ok (i + 1, {[md_Name m]} ∪ names, done ++ [setDefaults m])
  end.

(** What [fs.WalkDir] passes to its callback for one path, with the bytes the
    file would give: the error of the walk, the file information and the content. *)
Record WalkEntry := mkWalkEntry {
  we_path : string;
  we_err : option string;
  we_info : string + bool;
  we_read : string + string;
}.

(** Outside the source: the JSON decoder ([sonic]), the jq library ([gojq]: the
    error of parsing a query, of compiling it) and the struct merge ([mergo]). *)
Class SpecLib := {
  decode_spec : string -> string + RawSpec;
  gojq_Parse : string -> option string;
  gojq_Compile : string -> list string -> option string;
  mergo_Merge : Method -> Method -> string + Method;
}.

(** [filepath.Ext]: the suffix from the last dot of the last element. *)
Definition filepath_Ext (path : string) : string :=
  match cut_last "."%char path with
  | Some (_, ext) => if contains_char "/"%char ext then "" else "." +:+ ext
  | None => ""
  end.

Definition loadSpec `{SpecLib} (e : WalkEntry) (isDir : bool) : Outcome (option MethodSpec) :=
  if negb isDir && bool_decide (filepath_Ext (we_path e) = ".json") then
    specBytes ← of_error (we_read e);
    raw ← of_error (decode_spec specBytes);
    let spec := unmarshal_spec raw in
    _ ← wrap_error (fun e' => "file - '" +:+ we_path e +:+ "', spec validation error: " +:+ e')
          (or_error (MethodSpec_validate spec));
    st ← foldM (check_method (we_path e)) (0, ∅, []) (spec_Methods spec);
    Ok (Some (mkMethodSpec (spec_SpecData spec) (SpecImports spec) st.2))
  else Ok None.

Definition walk_entry `{SpecLib} (specs : gmap string MethodSpec) (e : WalkEntry)
    : Outcome (gmap string MethodSpec) :=
  _ ← or_error (we_err e);
  isDir ← of_error (we_info e);
  spec ← loadSpec e isDir;
  match spec with
  | None => Ok specs
  | Some spec =>
    match spec_SpecData spec with
    | None => Panic
    | Some d =>
      match specs !! sd_Name d with
      | Some _ => Err ("spec with name '" +:+ sd_Name d +:+ "' already exists")
      | None => Ok (<[sd_Name d := spec]> specs)
      end
    end
  end.

Definition walkSpecs `{SpecLib} (fsys : list WalkEntry) (specs : gmap string MethodSpec)
    : Outcome (gmap string MethodSpec) := foldM walk_entry specs fsys.

(** ** Methods and their groups *)

Definition newValue : string := "$newValue".

Definition modify_parser `{SpecLib} (name : string) (sticky : Sticky) (tagParser : option TagParser)
    : Outcome (option string) :=
  match tagParser with
  | Some p =>
    if SendSticky sticky then
      let query := tp_Path p +:+ " = " +:+ newValue in
      let failed e := "cound't create a modify parser query for method " +:+ name +:+ ", error - " +:+ e in
      _ ← wrap_error failed (or_error (gojq_Parse query));
      _ ← wrap_error failed (or_error (gojq_Compile query [newValue]));
      Ok (Some query)
    else Ok None
  | None => Ok None
  end.

(** The dispatch policy of a string: one that is not a policy is compared with
    the three others and behaves as the default one. *)
Definition dispatch_of (d : string) : DispatchPolicy := default DispatchDefault (dispatchPolicies !! d).

Definition fromMethodData `{SpecLib} (d : MethodData) (types : list ApiConnectorType) : Outcome Method :=
  parser ← match md_TagParser d with
           | None => Ok None
           | Some p =>
             _ ← wrap_error (fun e => "couldn't parse a jq path of method " +:+ md_Name d +:+ " - " +:+ e)
                   (or_error (gojq_Parse (tp_Path p)));
             Ok (Some (mkJqParser (tp_ReturnType p) (tp_Path p)))
           end;
  modifyParser ← match md_Settings d ≫= settings_Sticky with
                 | Some st => modify_parser (md_Name d) st (md_TagParser d)
                 | None => Ok None
                 end;
  match md_Enabled d with
  | None => Panic
  | Some enabled =>
    Ok (mkMethod (md_Name d) (md_Group d) (md_Settings d ≫= settings_Subscription)
          (md_Settings d ≫= settings_Sticky) types parser modifyParser enabled
          (default true (md_Settings d ≫= Cacheable))
          (match md_Settings d with Some s => EnforceIntegrity s | None => false end)
          (match md_Settings d with Some s => settings_Local s | None => false end)
          (match md_Settings d with Some s => dispatch_of (settings_Dispatch s) | None => DispatchDefault end))
  end.

Definition MethodWithSettings `{SpecLib} (name : string) (types : list ApiConnectorType)
    (settings : option MethodSettings) (tagParser : option TagParser) : option Method :=
  match fromMethodData (mkMethodData name "" settings tagParser (Some true)) types with
  | Ok m => Some m
  | _ => None
  end.

(** A view under construction: the table of method objects, and the groups with
    references into it. *)
Record methodGroups := mkMethodGroups {
  objects : list Method;
  byGroup : gmap string (gmap string nat);
}.

Definition empty_view : methodGroups :=
  mkMethodGroups [] (<[SubMethodGroup := ∅]> {[DefaultMethodGroup := ∅]}).

Definition new_object (m : Method) (v : methodGroups) : methodGroups :=
  mkMethodGroups (objects v ++ [m]) (byGroup v).

(** [m.byGroup[group][name] = r] on an existing group. *)
Definition put_ref (group name : string) (r : nat) (v : methodGroups) : methodGroups :=
  mkMethodGroups (objects v) (alter <[name := r]> group (byGroup v)).

Definition ensure_view_group (group : string) (v : methodGroups) : methodGroups :=
  match byGroup v !! group with
  | Some _ => v
  | None => mkMethodGroups (objects v) (<[group := ∅]> (byGroup v))
  end.

Definition view_add (group : string) (method : Method) (v : methodGroups) : methodGroups :=
  let r := length (objects v) in
  let v := ensure_view_group group (new_object method v) in
  let v := put_ref group (Name method) r v in
  let v := put_ref DefaultMethodGroup (Name method) r v in
  if IsSubscribe method then put_ref SubMethodGroup (Name method) r v else v.

(** What the groups hold: every reference followed. *)
Definition view (v : methodGroups) : GroupMap :=
  (fun g : gmap string nat => omap (fun r => objects v !! r) g : gmap string Method) <$> byGroup v.

Definition add_method `{SpecLib} (types : list ApiConnectorType) (removeDisabled : bool) (v : methodGroups)
    (d : MethodData) : Outcome methodGroups :=
  let skipped := if removeDisabled
                 then match md_Enabled d with None => Panic | Some b => Ok (negb b) end else Ok false in
  skip ← skipped;
  if skip : bool then Ok v
  else method ← fromMethodData d types; Ok (view_add (md_Group d) method v).

Definition newMethodGroupsFromSpec `{SpecLib} (spec : MethodSpec) (types : list ApiConnectorType)
    (removeDisabled : bool) : Outcome methodGroups :=
  foldM (add_method types removeDisabled) empty_view (spec_Methods spec).

(** One imported method merged into the group of the current view that has the
    same name as its own group. *)
Definition merge_method `{SpecLib} (group : string) (v : methodGroups) (e : string * Method)
    : Outcome methodGroups :=
  let '(name, imported) := e in
  match byGroup v !! group ≫= (fun g => g !! name) with
  | Some r =>
    match objects v !! r with
    | None => Panic
    | Some method =>
      if negb (enabled method)
      then Ok (mkMethodGroups (objects v) (alter (delete name) group (byGroup v)))
      else merged ← of_error (mergo_Merge method imported);
           Ok (put_ref group name r (mkMethodGroups (<[r := merged]> (objects v)) (byGroup v)))
    end
  | None => Ok (put_ref group name (length (objects v)) (new_object imported v))
  end.

Section Load.
Context `{MR : MapRange} `{SL : SpecLib}.

(** A group the current view lacks is adopted with clones of its methods. *)
Definition cloneMethodMap (group : string) (methods : gmap string Method) (v : methodGroups) : methodGroups :=
  foldl (fun v e => put_ref group e.1 (length (objects v)) (new_object e.2 v))
    (mkMethodGroups (objects v) (<[group := ∅]> (byGroup v))) (range methods).

Definition merge_group (v : methodGroups) (e : string * gmap string Method) : Outcome methodGroups :=
  let '(group, methods) := e in
  match byGroup v !! group with
  | None => Ok (cloneMethodMap group methods v)
  | Some _ => foldM (merge_method group) v (range methods)
  end.

Definition mergeFrom (v : methodGroups) (imported : GroupMap) : Outcome methodGroups :=
  foldM merge_group v (range imported).

(** ** Views per connector *)

Definition newConnectorMethodsFromSpec (spec : MethodSpec) (types : list ApiConnectorType) (removeDisabled : bool)
    : Outcome (gmap ApiConnectorType methodGroups) :=
  foldM (fun cs c => methods ← newMethodGroupsFromSpec spec types removeDisabled; Ok (<[c := methods]> cs))
    ∅ types.

Definition connectorTypeSet (types : list ApiConnectorType) : gmap ApiConnectorType unit :=
  foldl (fun s c => <[c := tt]> s) ∅ types.

Definition merge_connector (allowed : gmap ApiConnectorType unit) (cs : gmap ApiConnectorType methodGroups)
    (e : ApiConnectorType * GroupMap) : Outcome (gmap ApiConnectorType methodGroups) :=
  let '(c, imported) := e in
  if bool_decide (0 < size allowed)%nat && negb (bool_decide (is_Some (allowed !! c))) then Ok cs
  else current ← mergeFrom (default empty_view (cs !! c)) imported; Ok (<[c := current]> cs).

Definition connectors_mergeFrom (allowed : gmap ApiConnectorType unit) (cs : gmap ApiConnectorType methodGroups)
    (imported : connectorMethods) : Outcome (gmap ApiConnectorType methodGroups) :=
  foldM (merge_connector allowed) cs (range (byConnector imported)).

Definition collectTypes (c : connectorMethods) (types : gmap ApiConnectorType unit) : gmap ApiConnectorType unit :=
  foldl (fun s e => <[e.1 := tt]> s) types (range (byConnector c)).

Record importedSpecData := mkImportedSpecData {
  specsByName : gmap string resolvedSpec;
  connectorTypes : gmap ApiConnectorType unit;
}.

Definition imported_add (name : string) (spec : resolvedSpec) (i : importedSpecData) : importedSpecData :=
  mkImportedSpecData (<[name := spec]> (specsByName i))
    (match connectors spec with Some c => collectTypes c (connectorTypes i) | None => connectorTypes i end).

Definition mergeImports (imported : importedSpecData) (types : list ApiConnectorType) (names : list string)
    (cs : gmap ApiConnectorType methodGroups) : Outcome (gmap ApiConnectorType methodGroups) :=
  foldM (fun cs name =>
    match specsByName imported !! name ≫= connectors with
    | None => Ok cs
    | Some c => connectors_mergeFrom (connectorTypeSet types) cs c
    end) cs names.

Definition initConnectors (cs : gmap ApiConnectorType GroupMap) : connectorMethods :=
  mkConnectorMethods cs (stable_sort (fun a b => (connector_code a <? connector_code b)%N) (range cs).*1).

(** ** Imports *)

Definition effectiveConnectorTypes (data : MethodSpec) (spec : resolvedSpec) : list ApiConnectorType :=
  match spec_SpecData data with
  | None => []
  | Some d =>
    if bool_decide (specType d = PlainSpec) then sd_apiConnectors d
    else match connectors spec with None => [] | Some c => apiConnectors c end
  end.

Definition sameConnectorTypes (left right : list ApiConnectorType) : bool :=
  let leftSet := connectorTypeSet left in
  let rightSet := connectorTypeSet right in
  bool_decide (size leftSet = size rightSet) &&
  forallb (fun e : ApiConnectorType * unit => bool_decide (is_Some (rightSet !! e.1))) (range leftSet).

Definition connectorTypeNames (types : list ApiConnectorType) : string :=
  "[" +:+ join_with " "%char (stable_sort String.ltb (map ApiConnectorType_String types)) +:+ "]".

Definition validateImportedSpecCompatibility (current data : MethodSpec) (spec : resolvedSpec) : option string :=
  match spec_SpecData current with
  | None => None
  | Some d =>
    if bool_decide (specType d = BundleSpec) then None
    else let imported := effectiveConnectorTypes data spec in
    if sameConnectorTypes (sd_apiConnectors d) imported then None
    else Some ("plain spec " +:+ sd_Name d +:+ " cannot import spec " +:+
               match spec_SpecData data with Some d' => sd_Name d' | None => "" end +:+
               " because api connectors differ: current=" +:+ connectorTypeNames (sd_apiConnectors d) +:+
               " imported=" +:+ connectorTypeNames imported)
  end.

(** The owner of each method imported so far; a second import that has the
    method is refused. *)
Definition claim_method (name : string) (owners : gmap string string) (e : string * Method)
    : Outcome (gmap string string) :=
  match owners !! e.1 with
  | Some previous =>
    Err ("same-level imported specs " +:+ previous +:+ " and " +:+ name +:+ " define method " +:+ e.1)
  | None => Ok (<[e.1 := name]> owners)
  end.

Definition validateSameLevelImportedMethods (owners : gmap string string) (name : string) (imported : GroupMap)
    : Outcome (gmap string string) :=
  foldM (claim_method name) owners (range (defaultMethods imported)).

Definition mergeImportedSpecMethods (current : methodGroups) (owners : gmap string string) (name : string)
    (spec : resolvedSpec) : Outcome (methodGroups * gmap string string) :=
  match spec_methods spec with
  | None => Ok (current, owners)
  | Some imported =>
    owners ← validateSameLevelImportedMethods owners name imported;
    current ← mergeFrom current imported;
    Ok (current, owners)
  end.

Record ImportState := mkImportState {
  is_resolved : Registry;
  is_imported : importedSpecData;
  is_owners : gmap string string;
  is_current : methodGroups;
}.

(** One import: it is resolved itself, then merged into the current methods. *)
Definition resolve_import (enrich : string -> Registry -> Outcome Registry) (specs : gmap string MethodSpec)
    (spec : MethodSpec) (st : ImportState) (name : string) : Outcome ImportState :=
  match specs !! name with
  | None => Err ("imported spec " +:+ name +:+ " not found")
  | Some data =>
    resolved ← enrich name (is_resolved st);
    match resolved !! name with
    | None => Panic
    | Some imported =>
      _ ← or_error (validateImportedSpecCompatibility spec data imported);
      merged ← mergeImportedSpecMethods (is_current st) (is_owners st) name imported;
      Ok (mkImportState resolved (imported_add name imported (is_imported st)) merged.2 merged.1)
    end
  end.

Definition resolveConnectorTypes (current : list ApiConnectorType) (imported : gmap ApiConnectorType unit)
    : list ApiConnectorType :=
  if bool_decide (current <> []) then current else (range imported).*1.

Definition wrapSpecError (name e : string) : string := "spec '" +:+ name +:+ "', error '" +:+ e +:+ "'".

(** The body of [enrichSpec] once the spec is found and marked as visited:
    [enrich] is the recursive call. *)
Definition enrich_found (enrich : string -> Registry -> Outcome Registry) (specs : gmap string MethodSpec)
    (name : string) (spec : MethodSpec) (resolved : Registry) : Outcome Registry :=
  let removeDisabled := bool_decide (SpecImports spec = []) in
  match spec_SpecData spec with
  | None => Panic
  | Some d =>
    wrap_error (wrapSpecError name) (
      current ← newMethodGroupsFromSpec spec (sd_apiConnectors d) removeDisabled;
      st ← foldM (resolve_import enrich specs spec)
             (mkImportState resolved (mkImportedSpecData ∅ ∅) ∅ current) (SpecImports spec);
      let types := resolveConnectorTypes (sd_apiConnectors d) (connectorTypes (is_imported st)) in
      cs ← newConnectorMethodsFromSpec spec types removeDisabled;
      cs ← mergeImports (is_imported st) types (SpecImports spec) cs;
      Ok (<[name := mkResolvedSpec (Some (view (is_current st))) (Some (initConnectors (view <$> cs)))]>
            (is_resolved st)))
  end.

(** [enrichSpec]: the map of visited names is extended for the nested calls and
    restored on every return. *)
Fixpoint enrichSpec (fuel : nat) (specs : gmap string MethodSpec) (visiting : gset string) (name : string)
    (resolved : Registry) : Outcome Registry :=
  match fuel with
  | O => OutOfFuel
  | S fuel =>
    match resolved !! name with
    | Some _ => Ok resolved
    | None =>
      match specs !! name with
      | None => Err ("spec '" +:+ name +:+ "' not found")
      | Some spec =>
        if bool_decide (name ∈ visiting)
        then Err ("spec '" +:+ name +:+ "', error 'circular spec import detected'")
        else enrich_found (enrichSpec fuel specs ({[name]} ∪ visiting)) specs name spec resolved
      end
    end
  end.

(** Nested calls are for different specs: one more than their number is enough. *)
Definition enrich_fuel (specs : gmap string MethodSpec) : nat := S (size specs).

Definition enrichSpecs (specs : gmap string MethodSpec) : Outcome Registry :=
  foldM (fun resolved (e : string * MethodSpec) =>
    match resolved !! e.1 with
    | Some _ => Ok resolved
    | None => enrichSpec (enrich_fuel specs) specs ∅ e.1 resolved
    end) ∅ (range specs).

Definition readSpecs (specsFS : list WalkEntry) (extraFS : option (list WalkEntry))
    : Outcome (gmap string MethodSpec) :=
  specs ← wrap_error (fun e => "couldn't read method specs: " +:+ e) (walkSpecs specsFS ∅);
  specs ← match extraFS with
          | None => Ok specs
          | Some extra => wrap_error (fun e => "couldn't read extra method specs: " +:+ e) (walkSpecs extra specs)
          end;
  if bool_decide (size specs = 0%nat) then Err "no method specs" else Ok specs.

Definition MethodSpecLoader_Load (specsFS : list WalkEntry) (extraFS : option (list WalkEntry))
    : Outcome Registry :=
  specs ← readSpecs specsFS extraFS;
  wrap_error (fun e => "couldn't merge method specs: " +:+ e) (enrichSpecs specs).
End Load.

(** ** Reasoning about outcomes

    [post Q o]: the computation ends, does not panic, and a result satisfies [Q]. *)

Definition post {A} (Q : A -> Prop) (o : Outcome A) : Prop :=
  match o with OutOfFuel | Panic => False | Err _ => True | Ok a => Q a end.

Lemma post_mono {A} (P Q : A -> Prop) o : post P o -> (forall a, P a -> Q a) -> post Q o.
Proof. destruct o; simpl; auto. Qed.

Lemma post_bind {A B} (P : A -> Prop) (Q : B -> Prop) o (f : A -> Outcome B) :
  post P o -> (forall a, P a -> post Q (f a)) -> post Q (o ≫= f).
Proof. destruct o; simpl; auto. Qed.

Lemma post_wrap {A} (Q : A -> Prop) f o : post Q o -> post Q (wrap_error f o).
Proof. by destruct o. Qed.

Lemma post_of_error {A} (Q : A -> Prop) (r : string + A) : (forall a, r = inr a -> Q a) -> post Q (of_error r).
Proof. destruct r; simpl; auto. Qed.

Lemma post_or_error (e : option string) : post (fun _ => e = None) (or_error e).
Proof. by destruct e. Qed.

Lemma post_result {A} (Q : A -> Prop) o : post Q o -> (exists e, o = Err e) \/ exists a, o = Ok a /\ Q a.
Proof. destruct o; simpl; naive_solver. Qed.

(** The rule for loops: an invariant on the elements handled so far. *)
Lemma post_foldM {A B} (f : A -> B -> Outcome A) (I : list B -> A -> Prop) a l :
  I [] a ->
  (forall done x rest a, l = done ++ x :: rest -> I done a -> post (I (done ++ [x])) (f a x)) ->
  post (I l) (foldM f a l).
Proof.
  intros H0 Hstep. cut (forall done rest a, l = done ++ rest -> I done a -> post (I l) (foldM f a rest)).
  { intros H. by apply (H [] l a). }
  intros done rest. revert done. induction rest as [|x rest IH]; intros done b Hl Hb; simpl.
  - by rewrite app_nil_r in Hl; subst.
  - eapply post_bind; [by eapply Hstep|]. intros b' Hb'. apply (IH (done ++ [x])); [|done].
    by rewrite <- app_assoc.
Qed.

Create HintDb outcomes.
#[export] Hint Resolve post_wrap post_or_error : outcomes.

(** ** The status of a method in a group

    [None]: absent; otherwise whether it is enabled. *)

Definition gstat (m : GroupMap) (group name : string) : option bool :=
  enabled <$> (m !! group ≫= fun g => g !! name).

(** What a merge makes of the status of a method, given the status it has in the
    import. *)
Definition merge_status (current imported : option bool) : option bool :=
  match current, imported with
  | None, x => x
  | Some b, None => Some b
  | Some true, Some _ => Some true
  | Some false, Some _ => None
  end.

Lemma merge_status_none s : merge_status s None = s.
Proof. by destruct s as [[]|]. Qed.

(** [mergo] leaves unexported fields alone. *)
Class MergoLaws `{SpecLib} : Prop := {
  merge_enabled : forall d s m, mergo_Merge d s = inr m -> enabled m = enabled d;
}.

Record view_ok (v : methodGroups) : Prop := {
  refs_valid : forall g m n r, byGroup v !! g = Some m -> m !! n = Some r -> (r < length (objects v))%nat;
  has_default : is_Some (byGroup v !! DefaultMethodGroup);
  has_sub : is_Some (byGroup v !! SubMethodGroup);
}.

Lemma view_lookup v g n :
  view v !! g ≫= (fun m => m !! n) =
  byGroup v !! g ≫= fun m => m !! n ≫= fun r => objects v !! r.
Proof.
  unfold view. rewrite lookup_fmap. destruct (byGroup v !! g) as [m|]; simpl; [|done]. by rewrite lookup_omap.
Qed.

Lemma gstat_view v g n :
  gstat (view v) g n = enabled <$> (byGroup v !! g ≫= fun m => m !! n ≫= fun r => objects v !! r).
Proof. unfold gstat. by rewrite view_lookup. Qed.

(** An object appended to the table is not seen through the groups. *)
Lemma view_new_object m v : view_ok v -> view (new_object m v) = view v.
Proof.
  intros Hv. apply map_eq. intros g. unfold view, new_object. simpl. rewrite !lookup_fmap.
  destruct (byGroup v !! g) as [ms|] eqn:E; simpl; [|done]. f_equal. apply map_eq. intros n.
  rewrite !lookup_omap. destruct (ms !! n) as [r|] eqn:E'; simpl; [|done].
  rewrite lookup_app_l; [done|]. by eapply refs_valid.
Qed.

Lemma gstat_put_ref g n r v m g' n' : is_Some (byGroup v !! g) -> objects v !! r = Some m ->
  gstat (view (put_ref g n r v)) g' n' =
  if decide (g' = g /\ n' = n) then Some (enabled m) else gstat (view v) g' n'.
Proof.
  intros [ms Hg] Hr. rewrite !gstat_view. unfold put_ref. simpl. destruct (decide (g' = g)) as [->|Hne].
  - rewrite lookup_alter_eq, Hg. simpl. destruct (decide (n' = n)) as [->|Hn].
    + rewrite lookup_insert_eq. simpl. rewrite Hr. by rewrite decide_True.
    + rewrite lookup_insert_ne by done. by rewrite decide_False by naive_solver.
  - rewrite lookup_alter_ne by done. by rewrite decide_False by naive_solver.
Qed.

Lemma put_ref_ok g n r v : view_ok v -> (r < length (objects v))%nat -> view_ok (put_ref g n r v).
Proof.
  intros [Hr Hd Hs] Hlt. split; simpl; [|by rewrite lookup_alter_is_Some..].
  intros g' m n' r'. destruct (decide (g' = g)) as [->|Hne]; [|rewrite lookup_alter_ne by done; by apply Hr].
  rewrite lookup_alter_eq, fmap_Some. intros (ms & Hms & ->).
  destruct (decide (n' = n)) as [->|?]; [by rewrite lookup_insert_eq; intros [= <-]|].
  rewrite lookup_insert_ne by done. by eapply Hr.
Qed.

Lemma new_object_ok m v : view_ok v -> view_ok (new_object m v).
Proof.
  intros [Hr Hd Hs]. split; simpl; [|done..]. intros g ms n r H1 H2. rewrite length_app.
  specialize (Hr g ms n r H1 H2). lia.
Qed.

Lemma put_ref_groups g n r v g' : is_Some (byGroup (put_ref g n r v) !! g') <-> is_Some (byGroup v !! g').
Proof. simpl. apply lookup_alter_is_Some. Qed.

(** A new object under a name of a group. *)
Lemma put_new_spec g n m v : view_ok v -> is_Some (byGroup v !! g) ->
  let v' := put_ref g n (length (objects v)) (new_object m v) in
  view_ok v' /\ (forall g', is_Some (byGroup v' !! g') <-> is_Some (byGroup v !! g')) /\
  forall g' n', gstat (view v') g' n' = if decide (g' = g /\ n' = n) then Some (enabled m) else gstat (view v) g' n'.
Proof.
  intros Hv Hg v'. split; [|split].
  - apply put_ref_ok; [by apply new_object_ok|]. simpl. rewrite length_app. simpl. lia.
  - intros g'. exact (put_ref_groups g n _ (new_object m v) g').
  - intros g' n'. unfold v'. rewrite (gstat_put_ref _ _ _ _ m); [|done|].
    + by rewrite view_new_object.
    + simpl. by rewrite lookup_app_r, Nat.sub_diag by lia.
Qed.

(** Writing over an object with one that is as enabled as it was. *)
Lemma gstat_update v r m m' g n : objects v !! r = Some m -> enabled m' = enabled m ->
  gstat (view (mkMethodGroups (<[r := m']> (objects v)) (byGroup v))) g n = gstat (view v) g n.
Proof.
  intros Hr He. rewrite !gstat_view. simpl. destruct (byGroup v !! g) as [ms|]; simpl; [|done].
  destruct (ms !! n) as [r'|]; simpl; [|done]. destruct (decide (r' = r)) as [->|Hne].
  - rewrite list_lookup_insert_eq by (by eapply lookup_lt_Some). rewrite Hr. simpl. by rewrite He.
  - by rewrite list_lookup_insert_ne.
Qed.

Lemma update_ok v r m : view_ok v -> view_ok (mkMethodGroups (<[r := m]> (objects v)) (byGroup v)).
Proof. intros [Hr Hd Hs]. split; simpl; [|done..]. intros. rewrite length_insert. by eapply Hr. Qed.

Lemma gstat_delete v g n g' n' :
  gstat (view (mkMethodGroups (objects v) (alter (delete n) g (byGroup v)))) g' n' =
  if decide (g' = g /\ n' = n) then None else gstat (view v) g' n'.
Proof.
  rewrite !gstat_view. simpl. destruct (decide (g' = g)) as [->|Hne].
  - rewrite lookup_alter_eq. destruct (byGroup v !! g) as [ms|]; simpl; [|by destruct (decide _)].
    destruct (decide (n' = n)) as [->|Hn]; [by rewrite lookup_delete_eq, decide_True|].
    rewrite lookup_delete_ne by done. by rewrite decide_False by naive_solver.
  - rewrite lookup_alter_ne by done. by rewrite decide_False by naive_solver.
Qed.

Lemma delete_ok v g n : view_ok v -> view_ok (mkMethodGroups (objects v) (alter (delete n) g (byGroup v))).
Proof.
  intros [Hr Hd Hs]. split; simpl; [|by rewrite lookup_alter_is_Some..].
  intros g' m n' r'. destruct (decide (g' = g)) as [->|Hne]; [|rewrite lookup_alter_ne by done; by apply Hr].
  rewrite lookup_alter_eq, fmap_Some. intros (ms & Hms & ->) [_ H]%lookup_delete_Some. by eapply Hr.
Qed.

(** [steps_to v v' st]: [v'] is a good view with the groups of [v] and the statuses [st]. *)
Definition steps_to (v : methodGroups) (st : string -> string -> option bool) (v' : methodGroups) : Prop :=
  view_ok v' /\ (forall g, is_Some (byGroup v !! g) -> is_Some (byGroup v' !! g)) /\
  forall g n, gstat (view v') g n = st g n.

Lemma merge_method_post `{MergoLaws} g v n imported : view_ok v -> is_Some (byGroup v !! g) ->
  post (steps_to v (fun g' n' => if decide (g' = g /\ n' = n)
    then merge_status (gstat (view v) g n) (Some (enabled imported)) else gstat (view v) g' n'))
    (merge_method g v (n, imported)).
Proof.
  intros Hv [ms Hg]. unfold merge_method. assert (Hst := gstat_view v g n). rewrite Hg in Hst |- *. simpl in *.
  destruct (ms !! n) as [r|] eqn:Hn.
  - pose proof (refs_valid v Hv g ms n r Hg Hn) as [m Hm]%lookup_lt_is_Some. simpl in Hst. rewrite Hm in *.
    simpl in Hst. destruct (enabled m) eqn:Hen; simpl.
    + eapply post_bind; [by apply post_of_error; intros a Ha; exact Ha|]. intros merged Hmerged. simpl.
      pose proof (merge_enabled _ _ _ Hmerged) as He. split; [|split].
      * apply put_ref_ok; [by apply update_ok|]. simpl. rewrite length_insert. by eapply lookup_lt_Some.
      * intros g' Hg'. by apply put_ref_groups.
      * intros g' n'. rewrite (gstat_put_ref _ _ _ _ merged); [|by eauto|].
        -- rewrite (gstat_update _ _ m), He, Hen by done. rewrite Hst. by destruct (decide _).
        -- simpl. apply list_lookup_insert_eq. by eapply lookup_lt_Some.
    + split; [by apply delete_ok|]. split; [by intros g' Hg'; simpl; rewrite lookup_alter_is_Some|].
      intros g' n'. rewrite gstat_delete, Hst. by destruct (decide _).
  - simpl in Hst. destruct (put_new_spec g n imported v Hv ltac:(eauto)) as (H1 & H2 & H3).
    split; [done|]. split; [by intros g' ?; apply H2|]. intros g' n'. rewrite H3, Hst. by destruct (decide _).
Qed.

Section Views.
Context `{MR : MapRange} `{SL : SpecLib} `{ML : !MergoLaws}.

(** The rule for a loop that ranges over a map: an invariant on the entries seen. *)
Lemma post_range {A K V} `{Countable K} (f : A -> K * V -> Outcome A) (I : gmap K V -> A -> Prop) a m :
  I ∅ a ->
  (forall seen k v a, seen !! k = None -> m !! k = Some v -> I seen a -> post (I (<[k := v]> seen)) (f a (k, v))) ->
  post (I m) (foldM f a (range m)).
Proof using Type.
  intros H0 Hstep. rewrite <- (list_to_map_range m) at 1.
  apply (post_foldM f (fun done => I (list_to_map done))); [done|].
  intros done [k v] rest b E Hb. assert (m !! k = Some v) as Hk.
  { apply elem_of_range. rewrite E. apply elem_of_app. right. by left. }
  apply range_split_fresh in E. rewrite list_to_map_snoc by done.
  apply Hstep; [by apply not_elem_of_list_to_map_1|done..].
Qed.

Lemma merge_methods_post g v ms : view_ok v -> is_Some (byGroup v !! g) ->
  post (steps_to v (fun g' n => if decide (g' = g)
    then merge_status (gstat (view v) g n) (enabled <$> ms !! n) else gstat (view v) g' n))
    (foldM (merge_method g) v (range ms)).
Proof using ML.
  intros Hv Hg. apply (post_range _ (fun seen => steps_to v (fun g' n => if decide (g' = g)
    then merge_status (gstat (view v) g n) (enabled <$> seen !! n) else gstat (view v) g' n))).
  - split; [done|]. split; [done|]. intros g' n. destruct (decide (g' = g)) as [->|]; [|done].
    by rewrite lookup_empty, merge_status_none.
  - intros seen n m w Hn _ (Hw & Hgs & Hst).
    eapply post_mono; [apply merge_method_post; [done|by apply Hgs]|].
    intros w' (Hw' & Hgs' & Hst'). split; [done|]. split; [by auto|]. intros g' n'. rewrite Hst'.
    destruct (decide (g' = g)) as [->|Hne].
    + destruct (decide (n' = n)) as [->|Hnn].
      * rewrite decide_True by done. rewrite Hst, decide_True, lookup_insert_eq by done.
        by rewrite Hn, merge_status_none.
      * rewrite decide_False by naive_solver. by rewrite Hst, decide_True, lookup_insert_ne by done.
    + rewrite decide_False by naive_solver. by rewrite Hst, decide_False.
Qed.

Lemma foldM_pure {A B} (f : A -> B -> A) a l : foldM (fun a x => Ok (f a x)) a l = Ok (foldl f a l).
Proof using Type. revert a. induction l as [|x l IH]; intros a; simpl; [done|apply IH]. Qed.

(** A fresh, empty group leaves the statuses as they are. *)
Lemma new_group_ok v g : view_ok v -> byGroup v !! g = None ->
  steps_to v (gstat (view v)) (mkMethodGroups (objects v) (<[g := ∅]> (byGroup v))).
Proof using Type.
  intros [Hr Hd Hs] Hg. split; [split; simpl|split].
  - intros g' m n r [[<- <-]|[_ H]]%lookup_insert_Some; [by rewrite lookup_empty|by eapply Hr].
  - by apply lookup_insert_is_Some'; right.
  - by apply lookup_insert_is_Some'; right.
  - intros g' Hg'. simpl. by apply lookup_insert_is_Some'; right.
  - intros g' n. rewrite !gstat_view. simpl. destruct (decide (g' = g)) as [->|].
    + rewrite lookup_insert_eq, Hg. simpl. by rewrite !lookup_empty.
    + by rewrite lookup_insert_ne.
Qed.

Lemma cloneMethodMap_spec g v ms : view_ok v -> byGroup v !! g = None ->
  steps_to v (fun g' n => if decide (g' = g) then enabled <$> ms !! n else gstat (view v) g' n) (cloneMethodMap g ms v).
Proof using MR.
  intros Hv Hg. unfold cloneMethodMap.
  set (f := fun v e => put_ref g e.1 (length (objects v)) (new_object e.2 v)).
  set (w := mkMethodGroups _ _). destruct (new_group_ok v g Hv Hg) as (Hw0 & Hgs0 & Hst0).
  cut (post (fun w' => steps_to v (fun g' n => if decide (g' = g)
    then enabled <$> ms !! n else gstat (view v) g' n) w' /\ is_Some (byGroup w' !! g))
    (foldM (fun v e => Ok (f v e)) w (range ms))).
  { rewrite foldM_pure. by intros [? _]. }
  apply (post_range _ (fun seen w' => steps_to v (fun g' n => if decide (g' = g)
    then enabled <$> seen !! n else gstat (view v) g' n) w' /\ is_Some (byGroup w' !! g))).
  - split; [|by simpl; rewrite lookup_insert_eq]. split; [done|]. split; [done|]. intros g' n. unfold w. rewrite Hst0.
    destruct (decide (g' = g)) as [->|]; [|done]. by rewrite gstat_view, Hg, lookup_empty.
  - intros seen n m w' Hn _ ((Hw & Hgs & Hst) & Hg'). unfold f. simpl.
    destruct (put_new_spec g n m w' Hw Hg') as (H1 & H2 & H3). split; [|by apply H2].
    split; [done|]. split; [by intros; apply H2, Hgs|]. intros g' n'. rewrite H3.
    destruct (decide (g' = g)) as [->|Hne]; [|rewrite decide_False by naive_solver; by rewrite Hst, decide_False].
    destruct (decide (n' = n)) as [->|Hnn].
    + by rewrite decide_True, lookup_insert_eq by done.
    + rewrite decide_False by naive_solver. by rewrite Hst, decide_True, lookup_insert_ne by done.
Qed.

Lemma mergeFrom_post v imported : view_ok v ->
  post (steps_to v (fun g n => merge_status (gstat (view v) g n) (gstat imported g n))) (mergeFrom v imported).
Proof using ML.
  intros Hv. apply (post_range _ (fun seen => steps_to v (fun g n =>
    merge_status (gstat (view v) g n) (gstat seen g n)))).
  - split; [done|]. split; [done|]. intros g n. unfold gstat at 3. rewrite lookup_empty. simpl.
    by rewrite merge_status_none.
  - intros seen g ms w Hg _ (Hw & Hgs & Hst).
    assert (forall st, (forall g' n, st g' n = if decide (g' = g)
      then merge_status (gstat (view w) g n) (enabled <$> ms !! n) else gstat (view w) g' n) ->
      forall w', steps_to w st w' -> steps_to v (fun g' n => merge_status (gstat (view v) g' n)
        (gstat (<[g := ms]> seen) g' n)) w') as Hgo.
    { intros st Heq w' (Hw' & Hgs' & Hst'). split; [done|]. split; [by auto|]. intros g' n.
      rewrite Hst', Heq, !Hst. destruct (decide (g' = g)) as [->|Hne].
      - unfold gstat at 2 4. rewrite lookup_insert_eq, Hg. simpl. by rewrite merge_status_none.
      - unfold gstat at 2 4. by rewrite lookup_insert_ne. }
    unfold merge_group. destruct (byGroup w !! g) as [cur|] eqn:Hcur.
    + eapply post_mono; [apply merge_methods_post; [done|by eauto]|]. by apply Hgo.
    + eapply Hgo; [|by apply (cloneMethodMap_spec g w ms)]. intros g' n. simpl.
      destruct (decide (g' = g)) as [->|]; [|done]. rewrite gstat_view, Hcur. by destruct (ms !! n).
Qed.
End Views.

(** ** The methods a spec declares itself *)

Definition subscribes (d : MethodData) : bool :=
  match md_Settings d ≫= settings_Subscription with Some s => sub_IsSubscribe s | None => false end.

(** A method is listed in its own group and in the indexes. *)
Definition listed_in (group : string) (subscribe : bool) (g : string) : bool :=
  bool_decide (g = group) || bool_decide (g = DefaultMethodGroup) || (bool_decide (g = SubMethodGroup) && subscribe).

Definition find_data (n : string) (ds : list MethodData) : option MethodData :=
  snd <$> list_find (fun d => md_Name d = n) ds.

Definition declared_in (removeDisabled : bool) (ds : list MethodData) (g n : string) : option bool :=
  d ← find_data n ds;
  e ← md_Enabled d;
  if (removeDisabled && negb e) || negb (listed_in (md_Group d) (subscribes d) g) then None else Some e.

(** The status of a method by the declarations of a spec alone: a spec without
    imports drops what is disabled. *)
Definition declared (spec : MethodSpec) : string -> string -> option bool :=
  declared_in (bool_decide (SpecImports spec = [])) (spec_Methods spec).

Record spec_wf (spec : MethodSpec) : Prop := {
  wf_data : is_Some (spec_SpecData spec);
  wf_enabled : Forall (fun d => is_Some (md_Enabled d)) (spec_Methods spec);
  wf_names : NoDup (map md_Name (spec_Methods spec));
}.

Lemma find_data_none n ds : n ∉ map md_Name ds -> find_data n ds = None.
Proof.
  intros Hn. unfold find_data. rewrite (proj2 (list_find_None _ _)); [done|].
  apply Forall_forall. intros d Hd <-. apply Hn. by apply list_elem_of_fmap_2.
Qed.

Lemma find_data_cons n d ds :
  find_data n (d :: ds) = if decide (md_Name d = n) then Some d else find_data n ds.
Proof.
  unfold find_data. simpl. destruct (decide _); [done|]. by destruct (list_find _ ds) as [[]|].
Qed.

Lemma find_data_snoc n ds d : md_Name d ∉ map md_Name ds ->
  find_data n (ds ++ [d]) = if decide (n = md_Name d) then Some d else find_data n ds.
Proof.
  intros Hd. induction ds as [|x ds IH]; simpl app; rewrite !find_data_cons.
  - by destruct (decide (md_Name d = n)), (decide (n = md_Name d)).
  - rewrite IH by (intros ?; apply Hd; by right). destruct (decide (md_Name x = n)) as [<-|Hne]; [|done].
    rewrite decide_False; [done|]. intros E. apply Hd. rewrite <- E. by left.
Qed.

Section Declared.
Context `{SL : SpecLib}.

Lemma fromMethodData_post d types e : md_Enabled d = Some e ->
  post (fun m => Name m = md_Name d /\ enabled m = e /\ IsSubscribe m = subscribes d) (fromMethodData d types).
Proof using Type.
  intros He. unfold fromMethodData. eapply (post_bind (fun _ => True)).
  { destruct (md_TagParser d); simpl; [|done]. eapply post_bind; [by apply post_wrap, post_or_error|done]. }
  intros p _. eapply (post_bind (fun _ => True)).
  { destruct (md_Settings d ≫= settings_Sticky); [|done]. unfold modify_parser. destruct (md_TagParser d); [|done].
    destruct (SendSticky _); [|done]. eapply post_bind; [by apply post_wrap, post_or_error|]. intros _ _.
    eapply post_bind; [by apply post_wrap, post_or_error|done]. }
  intros q _. rewrite He. done.
Qed.

Lemma put_ref_listed v r m g n : view_ok v -> is_Some (byGroup v !! g) -> objects v !! r = Some m ->
  view_ok (put_ref g n r v) /\ objects (put_ref g n r v) = objects v /\
  forall g' n', gstat (view (put_ref g n r v)) g' n' =
    if decide (g' = g /\ n' = n) then Some (enabled m) else gstat (view v) g' n'.
Proof using Type.
  intros Hv Hg Hr. split; [apply put_ref_ok; [done|by eapply lookup_lt_Some]|]. split; [done|].
  intros g' n'. by apply gstat_put_ref.
Qed.

Lemma ensure_view_group_spec g v : view_ok v ->
  view_ok (ensure_view_group g v) /\ is_Some (byGroup (ensure_view_group g v) !! g) /\
  objects (ensure_view_group g v) = objects v /\
  forall g' n', gstat (view (ensure_view_group g v)) g' n' = gstat (view v) g' n'.
Proof using Type.
  intros Hv. unfold ensure_view_group. destruct (byGroup v !! g) as [ms|] eqn:E; [by eauto|].
  destruct (new_group_ok v g Hv E) as (H1 & _ & H3). split; [done|]. split; [by simpl; rewrite lookup_insert_eq; eauto|].
  by split.
Qed.

Lemma view_add_spec g m v : view_ok v ->
  view_ok (view_add g m v) /\ forall g' n', gstat (view (view_add g m v)) g' n' =
    if decide (n' = Name m) then if listed_in g (IsSubscribe m) g' then Some (enabled m) else gstat (view v) g' n'
    else gstat (view v) g' n'.
Proof using Type.
  intros Hv. unfold view_add. set (r := length (objects v)).
  destruct (ensure_view_group_spec g (new_object m v) (new_object_ok m v Hv)) as (Hw & Hg & Ho & Hst).
  set (w := ensure_view_group g (new_object m v)) in *.
  assert (objects w !! r = Some m) as Hr by (rewrite Ho; simpl; by rewrite lookup_app_r, Nat.sub_diag by lia).
  assert (forall g' n', gstat (view w) g' n' = gstat (view v) g' n') as Hst' by (intros; by rewrite Hst, view_new_object).
  destruct (put_ref_listed w r m g (Name m) Hw Hg Hr) as (H1 & Ho1 & E1).
  set (w1 := put_ref g (Name m) r w) in *. rewrite <- Ho1 in Hr.
  destruct (put_ref_listed w1 r m DefaultMethodGroup (Name m) H1 (has_default _ H1) Hr) as (H2 & Ho2 & E2).
  set (w2 := put_ref DefaultMethodGroup (Name m) r w1) in *. rewrite <- Ho2 in Hr.
  destruct (put_ref_listed w2 r m SubMethodGroup (Name m) H2 (has_sub _ H2) Hr) as (H3 & _ & E3).
  split; [by destruct (IsSubscribe m)|]. intros g' n'. unfold listed_in.
  destruct (IsSubscribe m); rewrite ?E3, ?E2, ?E1, Hst', ?andb_true_r, ?andb_false_r;
    repeat case_decide; destruct_and?; subst; repeat case_bool_decide; simplify_eq/=; try done; naive_solver.
Qed.
End Declared.

Lemma newMethodGroupsFromSpec_post `{SpecLib} spec types rd : spec_wf spec ->
  post (fun v => view_ok v /\ forall g n, gstat (view v) g n = declared_in rd (spec_Methods spec) g n)
    (newMethodGroupsFromSpec spec types rd).
Proof.
  intros [_ He Hn]. apply (post_foldM _ (fun done v => view_ok v /\
    forall g n, gstat (view v) g n = declared_in rd done g n)).
  - split; [split; simpl; [|by eauto..]|].
    + intros g m n r. rewrite lookup_insert_Some, lookup_singleton_Some.
      intros [[_ <-]|[_ [_ <-]]]; by rewrite lookup_empty.
    + intros g n. rewrite gstat_view. simpl. unfold declared_in, find_data. simpl.
      destruct (_ !! g) as [ms|] eqn:E; [|done]. simpl. revert E.
      rewrite lookup_insert_Some, lookup_singleton_Some. intros [[_ <-]|[_ [_ <-]]]; by rewrite lookup_empty.
  - intros done d rest v E [Hv Hst]. rewrite E in He, Hn. rewrite map_app in Hn.
    apply NoDup_app in Hn as (_ & Hd & _). assert (md_Name d ∉ map md_Name done) as Hfresh
      by (intros Hx; apply (Hd _ Hx); by left).
    apply Forall_app in He as [_ [[e He] _]%Forall_cons]. unfold add_method. rewrite He.
    assert (forall g n, declared_in rd (done ++ [d]) g n = if decide (n = md_Name d)
      then if (rd && negb e) || negb (listed_in (md_Group d) (subscribes d) g) then None else Some e
      else declared_in rd done g n) as Hdecl.
    { intros g n. unfold declared_in. rewrite find_data_snoc by done. destruct (decide _); simpl; [by rewrite He|done]. }
    assert (forall g, declared_in rd done g (md_Name d) = None) as Hnone
      by (intros g; unfold declared_in; by rewrite find_data_none).
    apply (post_bind (fun skip => skip = rd && negb e)); [by destruct rd|]. intros skip ->.
    destruct (rd && negb e) eqn:Es; simpl.
    + split; [done|]. intros g n. rewrite Hdecl, Hst. simpl. destruct (decide _) as [->|]; [apply Hnone|done].
    + eapply post_bind; [by apply fromMethodData_post|]. intros m (Hname & Hen & Hsub).
      destruct (view_add_spec (md_Group d) m v Hv) as [Hv' Hst']. split; [done|]. intros g n.
      rewrite Hst', Hdecl, Hst, Hname, Hen, Hsub. simpl. destruct (decide _) as [->|]; [|done].
      rewrite Hnone. by destruct (listed_in _ _ _).
Qed.

(** ** Types of connectors *)

Lemma connectorTypeSet_spec types c : is_Some (connectorTypeSet types !! c) <-> c ∈ types.
Proof.
  unfold connectorTypeSet. assert (forall s, is_Some (foldl (fun (s : gmap ApiConnectorType unit) c => <[c := tt]> s) s types !! c)
    <-> is_Some (s !! c) \/ c ∈ types) as ->; [|rewrite lookup_empty; split; [intros [[]%is_Some_None|?]; done|by right]].
  induction types as [|x types IH]; intros s; simpl; [rewrite elem_of_nil; tauto|].
  rewrite IH, lookup_insert_is_Some', elem_of_cons. naive_solver.
Qed.

Lemma connectorTypeSet_size types : (0 < size (connectorTypeSet types))%nat <-> types <> [].
Proof.
  split.
  - intros Hs ->. unfold connectorTypeSet in Hs. simpl in Hs. rewrite map_size_empty in Hs. lia.
  - destruct types as [|c types]; [done|]. intros _. destruct (size _) eqn:E; [|lia].
    apply map_size_empty_inv in E. pose proof (proj2 (connectorTypeSet_spec (c :: types) c) ltac:(by left)) as Hc.
    rewrite E, lookup_empty in Hc. by destruct Hc.
Qed.

Section Connectors.
Context `{MR : MapRange} `{SL : SpecLib} `{ML : !MergoLaws}.

Lemma collectTypes_spec c types x :
  is_Some (collectTypes c types !! x) <-> is_Some (byConnector c !! x) \/ is_Some (types !! x).
Proof using Type.
  unfold collectTypes. rewrite <- (elem_of_range_keys (byConnector c)).
  generalize (range (byConnector c)). intros l. revert types.
  induction l as [|e l IH]; intros types; simpl; [rewrite elem_of_nil; tauto|].
  rewrite IH, lookup_insert_is_Some', elem_of_cons. naive_solver.
Qed.

(** The views per connector hold [st c] on the connectors of [types]. *)
Definition views_hold (types : list ApiConnectorType) (st : ApiConnectorType -> string -> string -> option bool)
    (cs : gmap ApiConnectorType methodGroups) : Prop :=
  forall c, match cs !! c with
            | Some v => c ∈ types /\ view_ok v /\ forall g n, gstat (view v) g n = st c g n
            | None => c ∉ types
            end.

Lemma newConnectorMethodsFromSpec_post spec types rd : spec_wf spec ->
  post (views_hold types (fun _ => declared_in rd (spec_Methods spec))) (newConnectorMethodsFromSpec spec types rd).
Proof using Type.
  clear ML. intros Hwf. apply (post_foldM _ (fun done => views_hold done (fun _ => declared_in rd (spec_Methods spec)))).
  - intros c. rewrite lookup_empty. apply not_elem_of_nil.
  - intros done c rest cs _ Hcs. eapply post_bind; [by apply newMethodGroupsFromSpec_post|]. intros v Hv c'. simpl.
    destruct (decide (c' = c)) as [->|Hne].
    + rewrite lookup_insert_eq. split; [set_solver|done].
    + rewrite lookup_insert_ne by done. specialize (Hcs c'). destruct (cs !! c'); set_solver.
Qed.

Definition cm_status (m : gmap ApiConnectorType GroupMap) (c : ApiConnectorType) (g n : string) : option bool :=
  m !! c ≫= fun v => gstat v g n.

Lemma connectors_mergeFrom_post types st cs imported :
  (types = [] -> byConnector imported = ∅) -> views_hold types st cs ->
  post (views_hold types (fun c g n => merge_status (st c g n) (cm_status (byConnector imported) c g n)))
    (connectors_mergeFrom (connectorTypeSet types) cs imported).
Proof using ML.
  intros Hemp Hcs. apply (post_range _ (fun seen => views_hold types (fun c g n =>
    merge_status (st c g n) (cm_status seen c g n)))).
  - intros c. specialize (Hcs c). destruct (cs !! c); [|done]. destruct Hcs as (? & ? & Hst). split_and!; [done..|].
    intros g n. unfold cm_status. rewrite lookup_empty. simpl. by rewrite merge_status_none.
  - intros seen c m cs' Hc Hm Hcs'. assert (types <> []) as Hne.
    { intros E. rewrite Hemp, lookup_empty in Hm; done. }
    assert (forall c' g n, c' <> c -> cm_status (<[c := m]> seen) c' g n = cm_status seen c' g n) as Hother
      by (intros; unfold cm_status; by rewrite lookup_insert_ne).
    unfold merge_connector. rewrite bool_decide_eq_true_2 by (by apply connectorTypeSet_size). simpl.
    pose proof (Hcs' c) as Hat. case_bool_decide as Hin; rewrite connectorTypeSet_spec in Hin; simpl.
    + destruct (cs' !! c) as [v|] eqn:Ev; [|done]. destruct Hat as (_ & Hv & Hst). simpl.
      eapply post_bind; [by apply mergeFrom_post|]. intros v' (Hv' & _ & Hst') c'. simpl.
      destruct (decide (c' = c)) as [->|Hcc].
      * rewrite lookup_insert_eq. split_and!; [done..|]. intros g n. rewrite Hst', Hst. unfold cm_status.
        rewrite lookup_insert_eq, Hc. simpl. by rewrite merge_status_none.
      * rewrite lookup_insert_ne by done. specialize (Hcs' c'). destruct (cs' !! c'); [|done].
        destruct Hcs' as (? & ? & Hst2). split_and!; [done..|]. intros. by rewrite Hst2, Hother.
    + intros c'. specialize (Hcs' c'). destruct (cs' !! c') eqn:E; [|done]. destruct Hcs' as (? & ? & Hst2).
      split_and!; [done..|]. intros. rewrite Hst2, Hother; [done|]. by intros ->.
Qed.

Definition spec_connectors (reg : Registry) (i : string) : option connectorMethods := reg !! i ≫= connectors.

(** The status of a method in the view of a connector, and in the methods, of a
    registered spec. *)
Definition connector_status (reg : Registry) (c : ApiConnectorType) (g n : string) (i : string) : option bool :=
  cm ← spec_connectors reg i; cm_status (byConnector cm) c g n.

Definition method_status (reg : Registry) (g n : string) (i : string) : option bool :=
  ms ← (reg !! i ≫= spec_methods); gstat ms g n.

Definition merged_status (st : option bool) (f : string -> option bool) (imports : list string) : option bool :=
  foldl merge_status st (map f imports).

Lemma merged_status_snoc st f l i : merged_status st f (l ++ [i]) = merge_status (merged_status st f l) (f i).
Proof using Type. unfold merged_status. by rewrite map_app, foldl_app. Qed.

Lemma merged_status_ext st f f' l : (forall i, i ∈ l -> f i = f' i) -> merged_status st f l = merged_status st f' l.
Proof using Type.
  clear ML. intros H. unfold merged_status. f_equal. apply map_ext_in. intros i Hi. by apply H, list_elem_of_In.
Qed.

Lemma views_hold_ext types st st' cs :
  (forall c g n, st c g n = st' c g n) -> views_hold types st cs -> views_hold types st' cs.
Proof using Type.
  clear ML. intros Hst H c. specialize (H c). destruct (cs !! c); [|done]. destruct H as (? & ? & H).
  split_and!; [done..|]. intros. by rewrite H.
Qed.

Lemma mergeImports_post imported types st cs names :
  (forall i cm, i ∈ names -> spec_connectors (specsByName imported) i = Some cm -> types = [] -> byConnector cm = ∅) ->
  views_hold types st cs ->
  post (views_hold types (fun c g n => merged_status (st c g n) (connector_status (specsByName imported) c g n) names))
    (mergeImports imported types names cs).
Proof using ML.
  intros Hemp Hcs. apply (post_foldM _ (fun done => views_hold types (fun c g n =>
    merged_status (st c g n) (connector_status (specsByName imported) c g n) done))); [done|].
  intros done i rest cs' E Hcs'. assert (i ∈ names) as Hi by (rewrite E; set_solver).
  specialize (Hemp i). unfold spec_connectors in Hemp.
  destruct (specsByName imported !! i ≫= connectors) as [cm|] eqn:Ecm.
  - eapply post_mono; [by apply connectors_mergeFrom_post; [intros; by apply (Hemp cm)|]|]. intros cs2.
    apply views_hold_ext. intros c g n. rewrite merged_status_snoc. unfold connector_status at 3, spec_connectors.
    by rewrite Ecm.
  - revert Hcs'. apply views_hold_ext. intros c g n. rewrite merged_status_snoc. unfold connector_status at 3, spec_connectors.
    rewrite Ecm. simpl. by rewrite merge_status_none.
Qed.
End Connectors.

(** ** What a resolved spec is

    Its groups hold the declared methods merged with those of the imports, on
    the whole and on each connector; its connectors are the declared ones or,
    when it declares none, those of its imports. *)

Definition own_connectors (spec : MethodSpec) : list ApiConnectorType :=
  match spec_SpecData spec with Some d => sd_apiConnectors d | None => [] end.

Definition has_connector (reg : Registry) (c : ApiConnectorType) (i : string) : Prop :=
  exists cm, spec_connectors reg i = Some cm /\ is_Some (byConnector cm !! c).

Definition connector_of (reg : Registry) (spec : MethodSpec) (c : ApiConnectorType) : Prop :=
  (own_connectors spec <> [] /\ c ∈ own_connectors spec) \/
  (own_connectors spec = [] /\ exists i, i ∈ SpecImports spec /\ has_connector reg c i).

Record resolved_as (reg : Registry) (spec : MethodSpec) (r : resolvedSpec) : Prop := {
  ra_methods : exists ms, spec_methods r = Some ms /\ forall g n,
    gstat ms g n = merged_status (declared spec g n) (method_status reg g n) (SpecImports spec);
  ra_connectors : exists cm, connectors r = Some cm /\
    (forall c, is_Some (byConnector cm !! c) <-> connector_of reg spec c) /\
    forall c v g n, byConnector cm !! c = Some v ->
      gstat v g n = merged_status (declared spec g n) (connector_status reg c g n) (SpecImports spec);
}.

(** Specs listed so that every import of a spec comes after it: the imports have
    no cycle. *)
Inductive import_order (specs : gmap string MethodSpec) : list string -> Prop :=
| order_nil : import_order specs []
| order_cons s spec l : specs !! s = Some spec -> s ∉ l -> (forall i, i ∈ SpecImports spec -> i ∈ l) ->
    import_order specs l -> import_order specs (s :: l).

Record registry_ok (specs : gmap string MethodSpec) (reg : Registry) : Prop := {
  ro_order : exists l, import_order specs l /\ forall s, s ∈ l <-> is_Some (reg !! s);
  ro_specs : forall s r, reg !! s = Some r -> exists spec, specs !! s = Some spec /\
    (forall i, i ∈ SpecImports spec -> is_Some (reg !! i)) /\ resolved_as reg spec r;
}.

(** A larger registry says the same of the specs of a smaller one. *)
Lemma registry_same (reg reg' : Registry) i : reg ⊆ reg' -> is_Some (reg !! i) -> reg' !! i = reg !! i.
Proof. intros Hsub [r Hr]. rewrite Hr. by eapply lookup_weaken. Qed.

Section Same.
Context (reg reg' : Registry) (l : list string).
Context (Hsame : forall i, i ∈ l -> reg' !! i = reg !! i).

Lemma method_status_same st g n : merged_status st (method_status reg' g n) l = merged_status st (method_status reg g n) l.
Proof using Hsame. apply merged_status_ext. intros i Hi. unfold method_status. by rewrite Hsame. Qed.

Lemma connector_status_same st c g n :
  merged_status st (connector_status reg' c g n) l = merged_status st (connector_status reg c g n) l.
Proof using Hsame. apply merged_status_ext. intros i Hi. unfold connector_status, spec_connectors. by rewrite Hsame. Qed.

Lemma has_connector_same c : (exists i, i ∈ l /\ has_connector reg' c i) <-> exists i, i ∈ l /\ has_connector reg c i.
Proof using Hsame.
  unfold has_connector, spec_connectors. split; intros (i & Hi & H); exists i; (split; [done|]);
    [rewrite Hsame in H by done|rewrite Hsame by done]; done.
Qed.
End Same.

Lemma resolved_as_same reg reg' spec r : (forall i, i ∈ SpecImports spec -> reg' !! i = reg !! i) ->
  resolved_as reg spec r -> resolved_as reg' spec r.
Proof.
  intros Hs [(ms & Hms & H1) (cm & Hcm & H2 & H3)]. split.
  - exists ms. split; [done|]. intros g n. by rewrite (method_status_same reg reg').
  - exists cm. split; [done|]. split.
    + intros c. rewrite H2. unfold connector_of. by rewrite (has_connector_same reg reg').
    + intros c v g n Hv. rewrite (connector_status_same reg reg') by done. by apply H3.
Qed.

Lemma registry_insert specs reg s spec r :
  registry_ok specs reg -> reg !! s = None -> specs !! s = Some spec ->
  (forall i, i ∈ SpecImports spec -> is_Some (reg !! i)) -> resolved_as reg spec r ->
  registry_ok specs (<[s := r]> reg).
Proof.
  intros [(l & Hl & Hdom) Hspecs] Hs Hspec Himp Hr.
  assert (forall i, is_Some (reg !! i) -> <[s := r]> reg !! i = reg !! i) as Hsame
    by (intros i [x Hx]; apply lookup_insert_ne; by intros ->; simplify_eq).
  split.
  - exists (s :: l). split.
    + apply (order_cons specs s spec); [done| |by intros; apply Hdom, Himp|done].
      intros Hin. apply Hdom in Hin as [x Hx]. by simplify_eq.
    + intros s'. rewrite elem_of_cons, lookup_insert_is_Some', Hdom. naive_solver.
  - intros s' r' [[<- <-]|[Hne Hr']]%lookup_insert_Some.
    + exists spec. split; [done|]. split; [intros; apply lookup_insert_is_Some'; by right; apply Himp|].
      eapply resolved_as_same; [|done]. intros. by apply Hsame, Himp.
    + destruct (Hspecs s' r' Hr') as (spec' & Hspec' & Himp' & Has). exists spec'. split; [done|].
      split; [intros; apply lookup_insert_is_Some'; by right; apply Himp'|].
      eapply resolved_as_same; [|done]. intros. by apply Hsame, Himp'.
Qed.

Section Enrich.
Context `{MR : MapRange} `{SL : SpecLib} `{ML : !MergoLaws}.
Context (specs : gmap string MethodSpec) (Hwf : forall s spec, specs !! s = Some spec -> spec_wf spec).

(** A nested call only adds to the registry, and nothing under a visited name. *)
Definition grows (visiting : gset string) (reg reg' : Registry) : Prop :=
  registry_ok specs reg' /\ reg ⊆ reg' /\ forall s, s ∈ visiting -> reg' !! s = reg !! s.

Definition enrich_ok (visiting : gset string) (enrich : string -> Registry -> Outcome Registry) : Prop :=
  forall name reg, registry_ok specs reg ->
    post (fun reg' => grows visiting reg reg' /\ is_Some (reg' !! name)) (enrich name reg).

Record imports_done (visiting : gset string) (reg : Registry) (spec : MethodSpec) (done : list string)
    (st : ImportState) : Prop := {
  id_grows : grows visiting reg (is_resolved st);
  id_resolved : forall i, i ∈ done -> is_Some (is_resolved st !! i);
  id_imported : forall i, i ∈ done -> specsByName (is_imported st) !! i = is_resolved st !! i;
  id_types : forall c, is_Some (connectorTypes (is_imported st) !! c) <->
    exists i, i ∈ done /\ has_connector (is_resolved st) c i;
  id_view : view_ok (is_current st);
  id_status : forall g n, gstat (view (is_current st)) g n =
    merged_status (declared spec g n) (method_status (is_resolved st) g n) done;
}.

Lemma claims_post owners name imported :
  post (fun _ => True) (validateSameLevelImportedMethods owners name imported).
Proof using Type.
  apply (post_foldM _ (fun _ _ => True)); [done|]. intros done [n m] rest o _ _. unfold claim_method. simpl.
  by destruct (o !! n).
Qed.

Lemma resolve_import_post visiting reg spec enrich done st i : enrich_ok visiting enrich ->
  imports_done visiting reg spec done st ->
  post (imports_done visiting reg spec (done ++ [i])) (resolve_import enrich specs spec st i).
Proof using ML.
  clear Hwf. intros Henr [(Hok & Hsub & Hvis) Hres Himp Htyp Hv Hst]. unfold resolve_import.
  destruct (specs !! i) as [data|] eqn:Hi; [|done].
  eapply post_bind; [by apply Henr|]. intros reg' ((Hok' & Hsub' & Hvis') & [r Hr]). rewrite Hr.
  eapply post_bind; [apply post_or_error|]. intros _ _.
  destruct (ro_specs specs reg' Hok' i r Hr) as (spec' & _ & _ & [(ms & Hms & _) (cm & Hcm & _ & _)]).
  unfold mergeImportedSpecMethods. rewrite Hms.
  assert (forall j, j ∈ done -> reg' !! j = is_resolved st !! j) as Hsame
    by (intros j Hj; apply registry_same; [done|by apply Hres]).
  eapply (post_bind (fun p => view_ok p.1 /\ forall g n,
    gstat (view p.1) g n = merge_status (gstat (view (is_current st)) g n) (gstat ms g n))).
  { eapply post_bind; [apply claims_post|]. intros owners _. eapply post_bind; [by apply mergeFrom_post|].
    by intros v' (Hv' & _ & Hst'). }
  intros [cur owners] [Hv' Hst']. split; simpl in *.
  - split; [done|]. split; [by etransitivity|]. intros s Hs. by rewrite Hvis', Hvis.
  - intros j [Hj|Hj%list_elem_of_singleton]%elem_of_app; [|subst j; by eauto]. rewrite Hsame by done. by apply Hres.
  - intros j Hj. destruct (decide (j = i)) as [->|Hne]; [by rewrite lookup_insert_eq|].
    rewrite lookup_insert_ne by done. apply elem_of_app in Hj as [Hj|Hj%list_elem_of_singleton]; [|done].
    rewrite Hsame by done. by apply Himp.
  - intros c. rewrite Hcm, collectTypes_spec, Htyp. rewrite <- (has_connector_same (is_resolved st) reg') by done.
    unfold has_connector, spec_connectors. split.
    + intros [Hc|(j & Hj & H)].
      * exists i. split; [set_solver|]. exists cm. by rewrite Hr.
      * exists j. split; [set_solver|done].
    + intros (j & [Hj|Hj%list_elem_of_singleton]%elem_of_app & H); [by eauto|]. subst j. left.
      destruct H as (cm' & Hcm' & H). rewrite Hr in Hcm'. simpl in Hcm'. rewrite Hcm in Hcm'. by simplify_eq.
  - done.
  - intros g n. rewrite Hst', Hst, merged_status_snoc, (method_status_same (is_resolved st) reg') by done.
    f_equal. unfold method_status. by rewrite Hr; simpl; rewrite Hms.
Qed.

Lemma resolveConnectorTypes_spec own ct c :
  c ∈ resolveConnectorTypes own ct <-> (own <> [] /\ c ∈ own) \/ (own = [] /\ is_Some (ct !! c)).
Proof using Type.
  clear ML Hwf. unfold resolveConnectorTypes. case_bool_decide as H; [naive_solver|]. rewrite elem_of_range_keys.
  subst own. naive_solver.
Qed.

Lemma enrich_found_post visiting enrich name spec reg : enrich_ok ({[name]} ∪ visiting) enrich ->
  specs !! name = Some spec -> reg !! name = None -> name ∉ visiting -> registry_ok specs reg ->
  post (fun reg' => grows visiting reg reg' /\ is_Some (reg' !! name)) (enrich_found enrich specs name spec reg).
Proof using ML Hwf.
  intros Henr Hspec Hnone Hnv Hok. pose proof (Hwf name spec Hspec) as Hs.
  unfold enrich_found. destruct (wf_data _ Hs) as [d Hd]. rewrite Hd. apply post_wrap.
  eapply post_bind; [by apply newMethodGroupsFromSpec_post|]. intros cur [Hcur Hcst].
  eapply (post_bind (imports_done ({[name]} ∪ visiting) reg spec (SpecImports spec))).
  { apply (post_foldM _ (imports_done ({[name]} ∪ visiting) reg spec)).
    - split; simpl; [done|set_solver|set_solver| |done|by intros; rewrite Hcst].
      intros c. rewrite lookup_empty. split; [by intros []|set_solver].
    - intros. by apply resolve_import_post. }
  intros st [(Hok' & Hsub & Hvis) Hres Himp Htyp Hv Hst].
  assert (forall c, c ∈ resolveConnectorTypes (sd_apiConnectors d) (connectorTypes (is_imported st)) <->
    connector_of (is_resolved st) spec c) as Htypes.
  { intros c. rewrite resolveConnectorTypes_spec, Htyp. unfold connector_of, own_connectors. by rewrite Hd. }
  set (types := resolveConnectorTypes _ _) in *.
  eapply post_bind; [by apply newConnectorMethodsFromSpec_post|]. intros cs Hcs.
  eapply post_bind; [apply mergeImports_post; [|exact Hcs]|].
  { intros i cm Hi Hcm Ht. apply map_empty. intros c. destruct (byConnector cm !! c) eqn:Ec; [|done]. exfalso.
    assert (c ∈ types) as Hc; [|rewrite Ht in Hc; by apply elem_of_nil in Hc].
    unfold types. apply resolveConnectorTypes_spec. destruct (sd_apiConnectors d) eqn:Ed.
    - right. split; [done|]. apply Htyp. exists i. split; [done|]. exists cm. split; [|by eauto].
      unfold spec_connectors in *. by rewrite <- Himp.
    - exfalso. revert Ht. unfold types, resolveConnectorTypes. by rewrite bool_decide_eq_true_2. }
  intros cs' Hcs'. simpl. assert (is_resolved st !! name = None) as Hname by (rewrite Hvis; [done|set_solver]).
  split; [|by rewrite lookup_insert_eq]. split; [|split].
  - apply registry_insert with spec; [done..|]. split; simpl; [by eauto|]. eexists. split; [done|]. simpl. split.
    + intros c. rewrite lookup_fmap, fmap_is_Some, <- Htypes. specialize (Hcs' c).
      destruct (cs' !! c) eqn:E; [naive_solver|]. split; [by intros []|done].
    + intros c v g n Hc. rewrite lookup_fmap in Hc. apply fmap_Some in Hc as (w & Hw & ->).
      specialize (Hcs' c). rewrite Hw in Hcs'. destruct Hcs' as (_ & _ & ->).
      apply (connector_status_same (is_resolved st) (specsByName (is_imported st))). intros i Hi. by rewrite Himp.
  - etransitivity; [exact Hsub|]. by apply insert_subseteq.
  - intros s Hs'. rewrite lookup_insert_ne; [apply Hvis; set_solver|]. by intros ->.
Qed.

Lemma enrichSpec_post fuel visiting : visiting ⊆ dom specs -> (size specs < fuel + size visiting)%nat ->
  enrich_ok visiting (enrichSpec fuel specs visiting).
Proof using ML Hwf.
  revert visiting. induction fuel as [|fuel IH]; intros visiting Hsub Hsize name reg Hok.
  - apply subseteq_size in Hsub. rewrite size_dom in Hsub. lia.
  - simpl. destruct (reg !! name) as [r|] eqn:Hr; [by split; [|eauto]|].
    destruct (specs !! name) as [spec|] eqn:Hspec; [|done]. case_bool_decide as Hv; [done|].
    apply enrich_found_post; [|done..]. apply IH.
    + apply elem_of_dom_2 in Hspec. set_solver.
    + rewrite size_union by set_solver. rewrite size_singleton. lia.
Qed.

Lemma enrichSpecs_post :
  post (fun reg => registry_ok specs reg /\ forall s, is_Some (specs !! s) -> is_Some (reg !! s)) (enrichSpecs specs).
Proof using ML Hwf.
  unfold enrichSpecs. apply (post_range _ (fun seen reg => registry_ok specs reg /\
    forall s, is_Some (seen !! s) -> is_Some (reg !! s))).
  - split; [|intros s; by rewrite lookup_empty; intros []]. split.
    + exists []. split; [constructor|]. intros s. rewrite elem_of_nil, lookup_empty. split; [done|by intros []].
    + intros s r. by rewrite lookup_empty.
  - intros seen s spec reg Hseen Hspec [Hok Hin]. cbn [fst]. destruct (reg !! s) as [r|] eqn:Hr.
    + simpl. split; [done|]. intros s'. rewrite lookup_insert_is_Some'. intros [<-|H]; [by eauto|by apply Hin].
    + eapply post_mono; [apply (enrichSpec_post (enrich_fuel specs) ∅); [set_solver| |exact Hok]|].
      * unfold enrich_fuel. rewrite size_empty. lia.
      * intros reg' [(Hok' & Hsub & _) Hs]. split; [done|]. intros s'. rewrite lookup_insert_is_Some'.
        intros [<-|H]; [done|]. rewrite (registry_same reg reg'); [by apply Hin|done|by apply Hin].
Qed.
End Enrich.

Section Loaded.
Context `{MR : MapRange} `{SL : SpecLib} `{ML : !MergoLaws}.

Lemma setDefaults_enabled m : is_Some (md_Enabled (setDefaults m)).
Proof using Type. simpl. eauto. Qed.

Lemma check_methods_post path ms :
  post (fun st => Forall (fun d => is_Some (md_Enabled d)) st.2 /\ NoDup (map md_Name st.2))
    (foldM (check_method path) (0, ∅, []) ms).
Proof using Type.
  clear ML SL. eapply post_mono.
  - apply (post_foldM _ (fun _ st => Forall (fun d => is_Some (md_Enabled d)) st.2 /\ NoDup (map md_Name st.2) /\
      forall n, n ∈ map md_Name st.2 <-> n ∈ st.1.2)).
    + split_and!; [constructor|constructor|set_solver].
    + intros _ m _ [[i names] done] _ (He & Hn & Hin). cbn [fst snd] in *. unfold check_method.
      case_bool_decide; [done|]. destruct (MethodData_validate m); [done|]. case_bool_decide as Hnew; [done|].
      cbn [post fst snd]. rewrite map_app. split_and!.
      * apply Forall_app. split; [done|]. constructor; [apply setDefaults_enabled|constructor].
      * apply NoDup_app. split; [done|]. split; [|apply NoDup_singleton]. intros n Hn' ->%list_elem_of_singleton.
        by apply Hnew, Hin.
      * intros n. rewrite elem_of_app, Hin. simpl. set_solver.
  - naive_solver.
Qed.

Lemma loadSpec_post e isDir : post (fun o => forall spec, o = Some spec -> spec_wf spec) (loadSpec e isDir).
Proof using Type.
  unfold loadSpec. destruct (_ && _); [|by simpl].
  eapply post_bind; [by apply post_of_error; intros ? H; exact H|]. intros bytes _.
  eapply post_bind; [by apply post_of_error; intros ? H; exact H|]. intros raw _. cbn zeta.
  eapply post_bind; [by apply post_wrap, post_or_error|]. intros ? Hval. simpl in Hval.
  eapply post_bind; [apply check_methods_post|]. intros st [He Hn]. intros spec [= <-]. split; [|done..].
  change (is_Some (spec_SpecData (unmarshal_spec raw))). revert Hval. unfold MethodSpec_validate.
  by destruct (spec_SpecData (unmarshal_spec raw)); [eauto|].
Qed.

Definition specs_wf (specs : gmap string MethodSpec) : Prop := forall s spec, specs !! s = Some spec -> spec_wf spec.

(** The files of a directory add specs under new names only. *)
Lemma walkSpecs_post fsys specs : specs_wf specs ->
  post (fun specs' => specs_wf specs' /\ specs ⊆ specs') (walkSpecs fsys specs).
Proof using Type.
  intros Hwf. apply (post_foldM _ (fun _ specs' => specs_wf specs' /\ specs ⊆ specs')); [done|].
  intros _ e _ specs' _ [Hwf' Hsub]. unfold walk_entry.
  eapply post_bind; [apply post_or_error|]. intros _ _.
  eapply post_bind; [by apply post_of_error; intros ? H; exact H|]. intros isDir _.
  eapply post_bind; [apply loadSpec_post|]. intros [spec|] Hspec; [|done]. specialize (Hspec spec eq_refl).
  destruct (wf_data _ Hspec) as [d Hd]. rewrite Hd. destruct (specs' !! sd_Name d) eqn:E; [done|]. split.
  - intros s spec' [[_ <-]|[_ H]]%lookup_insert_Some; [done|by apply (Hwf' s)].
  - etransitivity; [exact Hsub|]. by apply insert_subseteq.
Qed.

Lemma readSpecs_post specsFS extraFS : post specs_wf (readSpecs specsFS extraFS).
Proof using Type.
  unfold readSpecs. eapply post_bind; [apply post_wrap, walkSpecs_post; intros s spec; by rewrite lookup_empty|].
  intros specs [Hwf _]. eapply (post_bind specs_wf).
  - destruct extraFS; [|done]. apply post_wrap. eapply post_mono; [by apply walkSpecs_post|]. by intros specs' [].
  - intros specs' Hwf'. by case_bool_decide.
Qed.

Lemma Load_post specsFS extraFS :
  post (fun reg => exists specs, readSpecs specsFS extraFS = Ok specs /\ registry_ok specs reg /\
    forall s, is_Some (specs !! s) -> is_Some (reg !! s)) (MethodSpecLoader_Load specsFS extraFS).
Proof using ML.
  unfold MethodSpecLoader_Load. pose proof (readSpecs_post specsFS extraFS) as Hwf.
  destruct (readSpecs specsFS extraFS) as [| | |specs]; [done..|]. simpl. apply post_wrap.
  eapply post_mono; [by apply enrichSpecs_post|]. intros reg [Hok Hall]. eauto.
Qed.

(** Loading the method specs ends with an error or a registry for every set
    of files, however their imports are arranged: the resolution of imports never
    runs past the number of specs and never follows a nil pointer. *)
Theorem Load_terminates specsFS extraFS :
  (exists e, MethodSpecLoader_Load specsFS extraFS = Err e) \/ exists reg, MethodSpecLoader_Load specsFS extraFS = Ok reg.
Proof using ML.
  destruct (post_result _ _ (Load_post specsFS extraFS)) as [He|(reg & Hreg & _)]; eauto.
Qed.

(** C27.  When the specs are loaded, every spec that was read is registered, the
    imports have no cycle, and the methods of a spec are, in every group and on
    every connector, the ones it declares merged with those of its imports: an
    enabled declaration wins over an import, a disabled one removes it. *)
Theorem loaded_specs specsFS extraFS reg : MethodSpecLoader_Load specsFS extraFS = Ok reg ->
  exists specs, readSpecs specsFS extraFS = Ok specs /\ dom reg = dom specs /\
    (exists order, import_order specs order /\ forall s, s ∈ order <-> is_Some (specs !! s)) /\
    forall s spec, specs !! s = Some spec -> exists r, reg !! s = Some r /\ resolved_as reg spec r.
Proof using ML.
  intros Hload. pose proof (Load_post specsFS extraFS) as Hp. rewrite Hload in Hp.
  destruct Hp as (specs & Hspecs & [(l & Hl & Hdom) Hok] & Hall). exists specs. split; [done|].
  assert (forall s, is_Some (reg !! s) <-> is_Some (specs !! s)) as Heq.
  { intros s. split; [|apply Hall]. intros [r Hr]. destruct (Hok s r Hr) as (spec & Hspec & _). eauto. }
  split; [apply set_eq; intros s; rewrite !elem_of_dom; apply Heq|].
  split; [exists l; split; [done|]; intros s; by rewrite Hdom|].
  intros s spec Hspec. destruct (Hall s ltac:(eauto)) as [r Hr]. exists r. split; [done|].
  destruct (Hok s r Hr) as (spec' & Hspec' & _ & Has). by simplify_eq.
Qed.

(** A method that a spec disables stays, disabled, in the view of a connector on
    which no import has it: the declaration is meant to remove the inherited
    method, and the lookups per connector do not test whether it is enabled. *)
Lemma disabled_kept_on_connector reg spec r cm c v g n :
  resolved_as reg spec r -> connectors r = Some cm -> byConnector cm !! c = Some v ->
  declared spec g n = Some false ->
  (forall i, i ∈ SpecImports spec -> connector_status reg c g n i = None) ->
  gstat v g n = Some false.
Proof using Type.
  intros [_ (cm' & Hcm' & _ & H)] Hcm Hv Hdecl Hno. simplify_eq. rewrite (H c v g n Hv), Hdecl.
  rewrite (merged_status_ext _ _ (fun _ => None)) by done. unfold merged_status.
  clear. by induction (SpecImports spec) as [|i l IH].
Qed.
End Loaded.

(** ** A loaded set of specs *)

Definition fill (a b : string) : string := if bool_decide (a = "") then b else a.

Definition fill_subscription (d s : option Subscription) : option Subscription :=
  match d, s with
  | Some a, Some b => Some (mkSubscription (sub_IsSubscribe a) (fill (sub_Method a) (sub_Method b))
                              (fill (UnsubMethod a) (UnsubMethod b)))
  | Some a, None => Some a
  | None, b => b
  end.

Definition plain_method (name group : string) (enabled : option bool) : MethodData :=
  mkMethodData name group None None enabled.

Definition subscribe_method : MethodData :=
  mkMethodData "eth_subscribe" "" (Some (mkMethodSettings None false None
    (Some (mkSubscription true "eth_subscription" "eth_unsubscribe")) false "")) None None.

Definition demo_file (name : string) : RawSpec :=
  if bool_decide (name = "eth-json-rpc")
  then mkRawSpec (Some (name, ["json-rpc"], "plain")) [] [plain_method "eth_call" "" None; plain_method "trace_call" "trace" None]
  else if bool_decide (name = "eth-websocket")
  then mkRawSpec (Some (name, ["websocket"], "plain")) [] [subscribe_method]
  else if bool_decide (name = "eth")
  then mkRawSpec (Some (name, [], "bundle")) ["eth-json-rpc"; "eth-websocket"] []
  else mkRawSpec (Some (name, ["json-rpc"; "websocket"], "plain")) ["eth"]
         [plain_method "arbtrace_call" "trace" None; plain_method "trace_call" "trace" (Some false)].

#[local] Instance sample_spec_lib : SpecLib := {|
  decode_spec s := inr (demo_file s);
  gojq_Parse _ := None;
  gojq_Compile _ _ := None;
  mergo_Merge d s := inr (mkMethod (fill (Name d) (Name s)) (fill (Group d) (Group s))
    (fill_subscription (method_Subscription d) (method_Subscription s)) (sticky d) (apiConnectorTypes d)
    (parser d) (modifyParser d) (enabled d) (cacheable d) (enforceIntegrity d) (local d) (dispatch d));
|}.

#[local] Instance sample_mergo_laws : MergoLaws.
Proof. split. by intros d s m [= <-]. Defined.

Definition demo_files : list WalkEntry :=
  map (fun n => mkWalkEntry (n +:+ ".json") None (inr false) (inr n)) ["arbitrum"; "eth"; "eth-json-rpc"; "eth-websocket"].

Definition load_or_empty (o : Outcome Registry) : Registry := match o with Ok reg => reg | _ => ∅ end.

#[local] Existing Instance Prelude.default_range.

Lemma Load_terminates_witness :
  (exists e, MethodSpecLoader_Load demo_files None = Err e) \/ exists reg, MethodSpecLoader_Load demo_files None = Ok reg.
Proof. apply Load_terminates. Defined.

Example demo_loaded : match MethodSpecLoader_Load demo_files None with Ok _ => true | _ => false end = true.
Proof. vm_compute. reflexivity. Qed.

Lemma loaded_specs_witness :
  exists reg specs, MethodSpecLoader_Load demo_files None = Ok reg /\ readSpecs demo_files None = Ok specs /\
    dom reg = dom specs.
Proof.
  pose proof demo_loaded as Hd. destruct (MethodSpecLoader_Load demo_files None) as [| | |reg] eqn:E; try discriminate Hd.
  destruct (loaded_specs demo_files None reg E) as (specs & H1 & H2 & _). exists reg, specs. exact (conj eq_refl (conj H1 H2)).
Defined.

(** With the specs above, as in the specs of the program, [trace_call] is disabled
    for the chain.  It is gone from the methods of the chain and from its JSON-RPC
    connector, and is offered, disabled, as soon as a node has a websocket
    connector. *)
Definition offered (reg : Registry) (cs : list ApiConnectorType) (n : string) : option bool :=
  m ← GetSpecMethodsByConnectors reg "arbitrum" cs; gstat m DefaultMethodGroup n.

Lemma disabled_method_offered :
  let reg := load_or_empty (MethodSpecLoader_Load demo_files None) in
  offered reg [] "trace_call" = None /\
  offered reg [JsonRpcConnector] "trace_call" = None /\
  offered reg [JsonRpcConnector; WebsocketConnector] "trace_call" = Some false.
Proof. vm_compute. done. Qed.
