(* ===== verification/Heads.v ===== *)
(** The heads and the finalized and safe blocks of one upstream
    ([internal/upstreams/blocks/head_processor.go], [head.go],
    [block_processor.go]): which blocks are published, and when a head that brings
    no blocks is asked for again.

    Times and durations are in nanoseconds. *)

From S2P Require Import Prelude.
From S2P Require Import GoStrings.
From S2P Require Import Protocol.
From S2P Require Import Specs.
From S2P Require Import Errors.
From Stdlib Require Import Ascii.

Definition Minute : Z := 60000000000.

(** ** The kind of a head *)

Inductive HeadKind := RpcHead | SubscriptionHead.

(** [createHead]; [None] is nil. *)
Definition createHead (connector : ApiConnectorType) : option HeadKind :=
  match connector with
  | JsonRpcConnector | TendermintConnector | RestConnector | RestIndexer => Some RpcHead
  | WebsocketConnector => Some SubscriptionHead
  | _ => None
  end.

(** How long a head may bring nothing. *)
Definition headNoUpdatesTimeout (kind : option HeadKind) (pollInterval expectedBlockTime : Z) : Z :=
  match kind with
  | Some RpcHead => if Minute <=? pollInterval then pollInterval * 3 else Minute
  | Some SubscriptionHead => if Minute <=? expectedBlockTime then expectedBlockTime + Minute else Minute
  | None => Minute
  end.

(** ** The loop of the head processor

    [current] is the block of the head, [sending] the block a goroutine of the head
    stored and waits to hand over, [deadline] the time the timer fires. *)

Record HeadProcessor := mkHeadProcessor {
  current : Block;
  sending : option Block;
  lastUpdate : Z;
  deadline : Z;
}.

Inductive HeadOutput := PublishedHead (block : Block) | NoHeadUpdates.

Inductive head_input :=
| HeadStored (block : Block)
| HeadReceived
| ManualHead (block : Block)
| TimerFired.

Section HeadLoop.
Context (timeout : Z).

Definition start_processor (now : Z) : HeadProcessor := mkHeadProcessor ZeroBlock None now (now + timeout).

(** [None] is a step that cannot happen: there is nothing to receive, the head hands
    over one block at a time, and the timer fires at its time. *)
Definition head_step (now : Z) (i : head_input) (h : HeadProcessor) : option (list HeadOutput * HeadProcessor) :=
  match i with
  | HeadStored block =>
    match sending h with
    | Some _ => None
    | None => Some ([], mkHeadProcessor block (Some block) (lastUpdate h) (deadline h))
    end
  | HeadReceived =>
    match sending h with
    | Some block => Some ([PublishedHead block], mkHeadProcessor (current h) None now (now + timeout))
    | None => None
    end
  | ManualHead block =>
    if Height (current h) <? Height block then
      Some ([PublishedHead block], mkHeadProcessor block (sending h) now (now + timeout))
    else Some ([], mkHeadProcessor (current h) (sending h) (lastUpdate h) (now + timeout))
  | TimerFired =>
    if deadline h <=? now then
      Some ([NoHeadUpdates], mkHeadProcessor (current h) (sending h) (lastUpdate h) (now + timeout))
    else None
  end.

Fixpoint head_run (inputs : list (Z * head_input)) (h : HeadProcessor) : option (list HeadOutput * HeadProcessor) :=
  match inputs with
  | [] => Some ([], h)
  | (now, i) :: inputs' =>
    match head_step now i h with
    | None => None
    | Some (out, h) =>
      match head_run inputs' h with
      | None => None
      | Some (out', h) => Some (out ++ out', h)
      end
    end
  end.
End HeadLoop.

(** ** The blocks that are finalized or safe *)

Definition ethErrorsToDisable : list string :=
  ["bad request"; "block not found"; "Unknown block"; "tag not supported on pre-merge network";
   "hex string without 0x prefix"; "Invalid params"; "invalid syntax"; "invalid block number"].

Record BlockProcessor := mkBlockProcessor {
  bp_blocks : gmap BlockType Block;
  disabled : gset BlockType;
  manualBlocks : list (Block * BlockType);
}.

Definition NewGenericBlockProcessor : BlockProcessor := mkBlockProcessor ∅ ∅ [].

Definition detectionDisabled (t : BlockType) (b : BlockProcessor) : bool := bool_decide (t ∈ disabled b).
Definition disableBlockDetection (t : BlockType) (b : BlockProcessor) : BlockProcessor :=
  mkBlockProcessor (bp_blocks b) ({[t]} ∪ disabled b) (manualBlocks b).
Definition UpdateBlock (block : Block) (t : BlockType) (b : BlockProcessor) : BlockProcessor :=
  mkBlockProcessor (bp_blocks b) (disabled b) (manualBlocks b ++ [(block, t)]).

(** What detection found: [SafeUnsupported] is a chain without safe blocks. *)
Inductive detection :=
| Detected (block : Block)
| DetectionFailed (err : GoError)
| SafeUnsupported.

Definition poll_failed (t : BlockType) (err : GoError) (b : BlockProcessor) : BlockProcessor :=
  match as_ResponseError err with
  | Some _ =>
    if existsb (Contains (error_text err)) ethErrorsToDisable then disableBlockDetection t b else b
  | None => b
  end.

Definition poll (t : BlockType) (found : detection) (b : BlockProcessor) : BlockProcessor :=
  if detectionDisabled t b then b
  else match found with
       | Detected block => UpdateBlock block t b
       | DetectionFailed err => poll_failed t err b
       | SafeUnsupported => disableBlockDetection SafeBlock b
       end.

(** [blockEventLoop] takes the next block. *)
Definition block_event (b : BlockProcessor) : list (Block * BlockType) * BlockProcessor :=
  match manualBlocks b with
  | [] => ([], b)
  | (block, t) :: rest =>
    let higher := match bp_blocks b !! t with Some cur => Height cur <? Height block | None => true end in
    if higher then ([(block, t)], mkBlockProcessor (<[t := block]> (bp_blocks b)) (disabled b) rest)
    else ([], mkBlockProcessor (bp_blocks b) (disabled b) rest)
  end.

Inductive block_input := BlockPolled (t : BlockType) (found : detection) | BlockUpdated (block : Block) (t : BlockType) | BlockTaken.

Definition block_step (i : block_input) (b : BlockProcessor) : list (Block * BlockType) * BlockProcessor :=
  match i with
  | BlockPolled t found => ([], poll t found b)
  | BlockUpdated block t => ([], UpdateBlock block t b)
  | BlockTaken => block_event b
  end.

Fixpoint block_run (inputs : list block_input) (b : BlockProcessor) : list (Block * BlockType) * BlockProcessor :=
  match inputs with
  | [] => ([], b)
  | i :: inputs' =>
    let '(out, b) := block_step i b in let '(out', b) := block_run inputs' b in (out ++ out', b)
  end.

(** ** Facts *)

(** The heights published for a kind of block. *)
Definition heights_of (t : BlockType) (out : list (Block * BlockType)) : list Z :=
  omap (fun x => if bool_decide (x.2 = t) then Some (Height x.1) else None) out.

Lemma block_step_heights i b t out b' : block_step i b = (out, b') ->
  heights_of t out = [] /\ Height <$> bp_blocks b' !! t = Height <$> bp_blocks b !! t \/
  exists h, heights_of t out = [h] /\ Height <$> bp_blocks b' !! t = Some h /\
    forall h', Height <$> bp_blocks b !! t = Some h' -> h' < h.
Proof.
  destruct i as [u found|block u|]; simpl.
  - intros [= <- <-]. left. split; [done|]. unfold poll. destruct (detectionDisabled u b); [done|].
    destruct found; [done| |done]. unfold poll_failed. destruct (as_ResponseError err); [|done]. by destruct (existsb _ _).
  - intros [= <- <-]. by left.
  - unfold block_event. destruct (manualBlocks b) as [|[block u] rest]; [intros [= <- <-]; by left|].
    destruct (match bp_blocks b !! u with Some cur => _ | None => true end) eqn:Eh; intros [= <- <-]; [|by left].
    unfold heights_of. simpl. destruct (decide (u = t)) as [->|Hne].
    + rewrite bool_decide_eq_true_2 by done. right. exists (Height block). rewrite lookup_insert_eq. split_and!; [done|done|].
      intros h'. destruct (bp_blocks b !! t) as [cur|]; [|done]. intros [= <-]. reflect_bool. lia.
    + rewrite bool_decide_eq_false_2 by done. left. by rewrite lookup_insert_ne.
Qed.

(** The finalized block of an upstream never goes back, nor does its safe block:
    whatever detection finds and whatever clients' answers tell, the blocks
    published for a kind have strictly increasing heights, each above the block
    held before, and the block held is the one published last. *)
Theorem published_blocks_increase inputs b t out b' :
  block_run inputs b = (out, b') ->
  StronglySorted Z.lt (option_list (Height <$> bp_blocks b !! t) ++ heights_of t out) /\
  Height <$> bp_blocks b' !! t = last (option_list (Height <$> bp_blocks b !! t) ++ heights_of t out).
Proof.
  revert b out. induction inputs as [|i inputs IH]; intros b out; simpl.
  - intros [= <- <-]. destruct (bp_blocks b !! t); simpl; repeat constructor.
  - destruct (block_step i b) as [out1 b1] eqn:E1. destruct (block_run inputs b1) as [out2 b2] eqn:E2. intros [= <- <-].
    destruct (IH b1 out2 E2) as [Hs Hl]. unfold heights_of in *. rewrite omap_app.
    destruct (block_step_heights i b t out1 b1 E1) as [[Ho Hb]|(h & Ho & Hb & Hlt)]; unfold heights_of in Ho; rewrite Ho, Hb in *.
    + by split.
    + simpl in *. destruct (Height <$> bp_blocks b !! t) as [h0|] eqn:Eb; [|by split]. specialize (Hlt h0 eq_refl). simpl.
      split; [|done]. constructor; [done|]. inversion_clear Hs as [|? ? Hs' Hf]. constructor; [done|].
      eapply Forall_impl; [exact Hf|]. intros. simpl in *. lia.
Qed.

Lemma published_blocks_increase_witness :
  let b n := mkBlock n 0 [] [] [] in
  let inputs := [BlockPolled FinalizedBlock (Detected (b 5)); BlockUpdated (b 9) FinalizedBlock;
                 BlockPolled FinalizedBlock (Detected (b 7)); BlockTaken; BlockTaken; BlockTaken] in
  heights_of FinalizedBlock (block_run inputs NewGenericBlockProcessor).1 = [5; 9] /\ StronglySorted Z.lt [5; 9].
Proof.
  intros b inputs. split; [by vm_compute|].
  assert (block_run inputs NewGenericBlockProcessor =
    ([(b 5, FinalizedBlock); (b 9, FinalizedBlock)], mkBlockProcessor {[FinalizedBlock := b 9]} ∅ [])) as E by (by vm_compute).
  exact (proj1 (published_blocks_increase inputs NewGenericBlockProcessor FinalizedBlock _ _ E)).
Defined.

(** *** A head that is stuck *)

(** Heads that clients' answers report, none of them new, one in every timeout. *)
Fixpoint answers_within (timeout height last : Z) (inputs : list (Z * head_input)) : Prop :=
  match inputs with
  | [] => True
  | (now, i) :: inputs' =>
    (exists b, i = ManualHead b /\ Height b <= height) /\ last <= now < last + timeout /\ answers_within timeout height now inputs'
  end.

(** The timer is started anew by every one of them, so a subscription that died is
    not opened again, however long ago its last block came. *)
Lemma ignored_heads_postpone_resubscription timeout inputs h last :
  deadline h = last + timeout -> answers_within timeout (Height (current h)) last inputs ->
  exists h', head_run timeout inputs h = Some ([], h') /\ lastUpdate h' = lastUpdate h /\
    deadline h' = List.last (map fst inputs) last + timeout.
Proof.
  revert h last. induction inputs as [|[now i] inputs IH]; intros h l Hd; simpl; [by exists h|].
  intros ((b & -> & Hb) & Hnow & Hin). simpl. rewrite (proj2 (Z.ltb_ge _ _)) by done.
  destruct (IH (mkHeadProcessor (current h) (sending h) (lastUpdate h) (now + timeout)) now eq_refl Hin) as (h' & -> & Hu & Hdl).
  exists h'. split; [done|]. split; [done|]. rewrite Hdl. destruct (map fst inputs) as [|x l'] eqn:E; [done|].
  f_equal. simpl. clear. revert x. induction l' as [|y l' IH]; intros x; [done|]. apply IH.
Qed.
