(* ===== verification/WsRegistry.v ===== *)
(** The registry of the requests of a websocket connection: the operations
    ([internal/upstreams/ws/data.go]), the commands of the registry's loop
    ([registry_commands.go]), and the registry with the goroutines around it
    ([request_registry.go]) as the steps they take on the shared state.

    An operation is an object referred to by its position in the table of
    operations.  A channel is the list of what it holds.  Where the code selects
    between ready cases the choice is an argument of the step. *)

From Stdlib Require Import Ascii.
From S2P Require Import Prelude GoStrings Protocol Errors Responses Specs.

(** ** Operations *)

Definition defaultRequestOpBufferSize : Z := 50.
Definition subscriptionRequestOpBufferSize : Z := 4096.

Definition requestOpBufferSize (subType : string) : Z :=
  if bool_decide (subType <> "") then subscriptionRequestOpBufferSize else defaultRequestOpBufferSize.

(** [op_ctxDone] is [ctx.Done()]: a parent context may end before [Cancel] is
    called.  [op_read] is what the client has taken out of the response channel,
    and [op_running] whether the goroutine of [Start] is in its loop. *)
Record GenericRequestOp := mkOp {
  op_id : string;
  op_method : string;
  op_subType : string;
  op_subId : string;
  op_subIdAsBytes : string;
  op_completed : bool;
  op_ctxDone : bool;
  op_skipDoOnClose : bool;
  op_internal : list WsResponse;
  op_responses : list WsResponse;
  op_closed : bool;
  op_read : list WsResponse;
  op_running : bool;
}.

Definition NewGenericRequestOp (id method subType : string) : GenericRequestOp :=
  mkOp id method subType "" "" false false false [] [] false [] false.

Definition op_SetDone (o : GenericRequestOp) : GenericRequestOp :=
  mkOp (op_id o) (op_method o) (op_subType o) (op_subId o) (op_subIdAsBytes o) (op_completed o) true
    (op_skipDoOnClose o) (op_internal o) (op_responses o) (op_closed o) (op_read o) (op_running o).

Definition op_Cancel (o : GenericRequestOp) : GenericRequestOp :=
  if op_completed o then o
  else mkOp (op_id o) (op_method o) (op_subType o) (op_subId o) (op_subIdAsBytes o) true true
    (op_skipDoOnClose o) (op_internal o) (op_responses o) (op_closed o) (op_read o) (op_running o).

(** The channel is closed by a goroutine some time after [Cancel]. *)
Definition op_Close (o : GenericRequestOp) : GenericRequestOp :=
  mkOp (op_id o) (op_method o) (op_subType o) (op_subId o) (op_subIdAsBytes o) (op_completed o) (op_ctxDone o)
    (op_skipDoOnClose o) (op_internal o) (op_responses o) true (op_read o) (op_running o).

Definition op_SetSkipDoOnClose (o : GenericRequestOp) : GenericRequestOp :=
  mkOp (op_id o) (op_method o) (op_subType o) (op_subId o) (op_subIdAsBytes o) (op_completed o) (op_ctxDone o)
    true (op_internal o) (op_responses o) (op_closed o) (op_read o) (op_running o).

(** [None]: the result cannot be sliced, a panic of [ResultAsString]. *)
Definition op_SetSubID (subID : string) (o : GenericRequestOp) : option GenericRequestOp :=
  (fun id => mkOp (op_id o) (op_method o) (op_subType o) id subID (op_completed o) (op_ctxDone o)
    (op_skipDoOnClose o) (op_internal o) (op_responses o) (op_closed o) (op_read o) (op_running o))
  <$> ResultAsString subID.

Definition op_set_channels (internal responses read : list WsResponse) (o : GenericRequestOp) : GenericRequestOp :=
  mkOp (op_id o) (op_method o) (op_subType o) (op_subId o) (op_subIdAsBytes o) (op_completed o) (op_ctxDone o)
    (op_skipDoOnClose o) internal responses (op_closed o) read (op_running o).

Definition op_set_running (running : bool) (o : GenericRequestOp) : GenericRequestOp :=
  mkOp (op_id o) (op_method o) (op_subType o) (op_subId o) (op_subIdAsBytes o) (op_completed o) (op_ctxDone o)
    (op_skipDoOnClose o) (op_internal o) (op_responses o) (op_closed o) (op_read o) running.

Definition op_ShouldDoOnClose (o : GenericRequestOp) : bool := negb (op_skipDoOnClose o).

Definition has_room (o : GenericRequestOp) (channel : list WsResponse) : bool :=
  Z.of_nat (length channel) <? requestOpBufferSize (op_subType o).

(** [Write] on the internal channel: with the context done and room in the
    channel both cases are ready and [quit] is the choice; a full channel drops
    the message. *)
Definition write_internal (quit : bool) (message : WsResponse) (o : GenericRequestOp) : GenericRequestOp :=
  if op_ctxDone o && quit then o
  else if has_room o (op_internal o)
  then op_set_channels (op_internal o ++ [message]) (op_responses o) (op_read o) o
  else o.

(** [Write] on the response channel; [None]: a send on the closed channel. *)
Definition write_response (quit : bool) (message : WsResponse) (o : GenericRequestOp) : option GenericRequestOp :=
  if op_ctxDone o && quit then Some o
  else if op_closed o then None
  else if has_room o (op_responses o)
  then Some (op_set_channels (op_internal o) (op_responses o ++ [message]) (op_read o) o)
  else Some o.

(** ** The registry's loop *)

Record registrySubscription := mkRegistrySubscription {
  sub_subType : string;
  sub_ops : gmap string nat;
}.

Record registryState := mkRegistryState {
  requests : gmap string nat;
  subs : gmap string registrySubscription;
}.

(** The commands; a finish command names its caller, who waits for the result. *)
Inductive registryCommand :=
| registerCommand (requestID : string) (req : nat)
| abortCommand (requestID : string)
| rpcCommand (response : WsResponse)
| subscriptionCommand (response : WsResponse)
| finishCommand (req : nat) (caller : nat)
| cancelAllCommand.

(** What a handler changes: the operations and the registry's maps. *)
Record Tables := mkTables { ops : list GenericRequestOp; state : registryState }.

Definition on_op (r : nat) (f : GenericRequestOp -> GenericRequestOp) (t : Tables) : Tables :=
  mkTables (alter f r (ops t)) (state t).

Definition set_requests (m : gmap string nat) (t : Tables) : Tables :=
  mkTables (ops t) (mkRegistryState m (subs (state t))).

Definition set_subs (m : gmap string registrySubscription) (t : Tables) : Tables :=
  mkTables (ops t) (mkRegistryState (requests (state t)) m).

Definition handle_register (requestID : string) (req : nat) (t : Tables) : Tables :=
  set_requests (<[requestID := req]> (requests (state t))) t.

Definition stop_op (o : GenericRequestOp) : GenericRequestOp := op_Cancel (op_SetSkipDoOnClose o).

Definition handle_abort (requestID : string) (t : Tables) : Tables :=
  match requests (state t) !! requestID with
  | Some req => on_op req stop_op (set_requests (delete requestID (requests (state t))) t)
  | None => t
  end.

(** The operation joins the operations of its subscription. *)
Definition join_sub (req : nat) (o : GenericRequestOp) (t : Tables) : Tables :=
  let sub := default (mkRegistrySubscription (op_subType o) ∅) (subs (state t) !! op_subId o) in
  set_subs (<[op_subId o := mkRegistrySubscription (sub_subType sub) (<[op_id o := req]> (sub_ops sub))]>
    (subs (state t))) t.

Section Registry.
Context `{MR : MapRange} (specs : Registry) (methodSpec : string).

(** [None]: a panic.  [late]: the operation is cancelled by another goroutine
    between the two tests of [IsCompleted]. *)
Definition handle_rpc (quit late : bool) (response : WsResponse) (t : Tables) : option Tables :=
  match requests (state t) !! ws_Id response with
  | None => Some t
  | Some req =>
    let t := set_requests (delete (ws_Id response) (requests (state t))) t in
    match ops t !! req with
    | None => None
    | Some o =>
      if op_completed o then Some t
      else if bool_decide (ws_Error response = None) && IsSubscribeMethod specs methodSpec (op_method o) then
        match op_SetSubID (ws_Message response) o with
        | None => None
        | Some o' =>
          let o' := if late then op_Cancel o' else o' in
          let t := on_op req (fun _ => o') t in
          let t := if bool_decide (op_subId o' <> "") && negb (op_completed o') then join_sub req o' t else t in
          Some (on_op req (write_internal quit response) t)
        end
      else Some (on_op req (write_internal quit response) t)
    end
  end.

Definition handle_subscription (quit : nat -> bool) (response : WsResponse) (t : Tables) : Tables :=
  match subs (state t) !! ws_SubId response with
  | None => t
  | Some sub =>
    foldl (fun t r => on_op r (write_internal (quit r) response) t) t (range (sub_ops sub)).*2
  end.

(** The tables and the result sent back. *)
Definition handle_finish (req : nat) (t : Tables) : Tables * bool :=
  let t := on_op req op_Cancel t in
  match ops t !! req with
  | None => (t, false)
  | Some o =>
    if bool_decide (op_subId o = "") then (t, false)
    else match subs (state t) !! op_subId o with
    | None => (t, false)
    | Some sub =>
      let left := delete (op_id o) (sub_ops sub) in
      if bool_decide (left <> ∅)
      then (set_subs (<[op_subId o := mkRegistrySubscription (sub_subType sub) left]> (subs (state t))) t, false)
      else (set_subs (delete (op_subId o) (subs (state t))) t, op_ShouldDoOnClose o)
    end
  end.

Definition registered (s : registryState) : list nat :=
  (range (requests s)).*2 ++ (range (subs s) ≫= fun e : string * registrySubscription => (range (sub_ops e.2)).*2).

Definition handle_cancelAll (t : Tables) : Tables :=
  foldl (fun t r => on_op r stop_op t) (mkTables (ops t) (mkRegistryState ∅ ∅)) (registered (state t)).

(** ** The goroutines around the loop

    A call of [closeReq] waits for the result of its finish command. *)

Record CloseCall := mkCloseCall { cc_op : nat; cc_result : option bool; cc_ended : bool }.

Record System := mkSystem {
  tables : Tables;
  commands : list registryCommand;
  allOps : gmap string nat;
  calls : list CloseCall;
  down : bool;
  internalId : Z;
  unsubscribed : list nat;
  handled : list registryCommand;
  crashed : bool;
}.

Definition initialInternalId : Z := 100.

Definition NewGenericRequestRegistry : System :=
  mkSystem (mkTables [] (mkRegistryState ∅ ∅)) [] ∅ [] false initialInternalId [] [] false.

Definition commandsSize : Z := 1000.

(** [sendCmd]: [None] while the call blocks.  [ignore]: the case of the finished
    context is taken. *)
Definition sendCmd (ignore : bool) (cmd : registryCommand) (s : System) : option System :=
  if ignore then if down s then Some s else None
  else if Z.of_nat (length (commands s)) <? commandsSize
  then Some (mkSystem (tables s) (commands s ++ [cmd]) (allOps s) (calls s) (down s) (internalId s)
               (unsubscribed s) (handled s) (crashed s))
  else None.

Definition set_tables (t : Tables) (s : System) : System :=
  mkSystem t (commands s) (allOps s) (calls s) (down s) (internalId s) (unsubscribed s) (handled s) (crashed s).
Definition set_allOps (m : gmap string nat) (s : System) : System :=
  mkSystem (tables s) (commands s) m (calls s) (down s) (internalId s) (unsubscribed s) (handled s) (crashed s).
Definition set_calls (l : list CloseCall) (s : System) : System :=
  mkSystem (tables s) (commands s) (allOps s) l (down s) (internalId s) (unsubscribed s) (handled s) (crashed s).
Definition set_crashed (s : System) : System :=
  mkSystem (tables s) (commands s) (allOps s) (calls s) (down s) (internalId s) (unsubscribed s) (handled s) true.

(** The identifier of the next frame ([RequestFrame]), taken even if the frame
    cannot be made after all. *)
Definition next_frame (s : System) : string * System :=
  let n := i64 (internalId s + 1) in
  (pretty n, mkSystem (tables s) (commands s) (allOps s) (calls s) (down s) n (unsubscribed s) (handled s) (crashed s)).

(** [Register] and [Start] of a new operation under the identifier of its frame. *)
Definition Register (ignore : bool) (method subType : string) (s : System) : option System :=
  let '(requestId, s) := next_frame s in
  let r := length (ops (tables s)) in
  let o := op_set_running true (NewGenericRequestOp requestId method subType) in
  s' ← sendCmd ignore (registerCommand requestId r) s;
  Some (if ignore
        then set_tables (mkTables (ops (tables s) ++ [op_Cancel o]) (state (tables s))) s'
        else set_allOps (<[requestId := r]> (allOps s'))
               (set_tables (mkTables (ops (tables s) ++ [o]) (state (tables s))) s')).

(** The first half of [closeReq]: the finish command is sent. *)
Definition closeReq (ignore : bool) (r : nat) (s : System) : option System :=
  s' ← sendCmd ignore (finishCommand r (length (calls s))) s;
  Some (set_calls (calls s ++ [mkCloseCall r None false]) s').

(** The second half: with the result, or after the timeout or the end of the
    context ([giveUp]), the operation is cancelled and forgotten. *)
Definition closeReq_end (giveUp : bool) (caller : nat) (s : System) : option System :=
  c ← calls s !! caller;
  if cc_ended c then None
  else
    doClose ← (if giveUp then Some false else cc_result c);
    o ← ops (tables s) !! cc_op c;
    Some (mkSystem (on_op (cc_op c) op_Cancel (tables s)) (commands s) (delete (op_id o) (allOps s))
      (<[caller := mkCloseCall (cc_op c) (cc_result c) true]> (calls s)) (down s) (internalId s)
      (if doClose : bool then unsubscribed s ++ [cc_op c] else unsubscribed s) (handled s) (crashed s)).

(** One command of the queue, handled by the registry's loop. *)
Definition handle (quit : nat -> bool) (late : bool) (cmd : registryCommand) (s : System) : System :=
  let t := tables s in
  match cmd with
  | registerCommand id r => set_tables (handle_register id r t) s
  | abortCommand id => set_tables (handle_abort id t) s
  | rpcCommand response =>
    match handle_rpc (quit 0%nat) late response t with
    | Some t => set_tables t s
    | None => set_crashed s
    end
  | subscriptionCommand response => set_tables (handle_subscription quit response t) s
  | finishCommand r caller =>
    let '(t, result) := handle_finish r t in
    set_calls (alter (fun c => mkCloseCall (cc_op c) (Some result) (cc_ended c)) caller (calls s)) (set_tables t s)
  | cancelAllCommand => set_tables (handle_cancelAll t) s
  end.

Definition run_command (quit : nat -> bool) (late : bool) (s : System) : option System :=
  match commands s with
  | [] => None
  | cmd :: rest =>
    Some (handle quit late cmd (mkSystem (tables s) rest (allOps s) (calls s) (down s) (internalId s)
      (unsubscribed s) (handled s ++ [cmd]) (crashed s)))
  end.

(** The goroutine of an operation takes an internal message. *)
Definition deliver (quit : bool) (r : nat) (s : System) : option System :=
  o ← ops (tables s) !! r;
  if op_running o then
    match op_internal o with
    | [] => None
    | message :: rest =>
      let o := op_set_channels rest (op_responses o) (op_read o) o in
      match write_response quit message o with
      | None => Some (set_crashed s)
      | Some o =>
        let o := match ws_Error message with Some _ => op_Cancel o | None => o end in
        Some (set_tables (on_op r (fun _ => o) (tables s)) s)
      end
    end
  else None.

(** The goroutine of an operation sees the end of its context. *)
Definition op_finish (ignore : bool) (r : nat) (s : System) : option System :=
  o ← ops (tables s) !! r;
  if op_running o && op_ctxDone o
  then closeReq ignore r (set_tables (on_op r (op_set_running false) (tables s)) s)
  else None.

Definition Cancel (ignore : bool) (opId : string) (s : System) : option System :=
  match allOps s !! opId with
  | None => Some s
  | Some r => closeReq ignore r (set_allOps (delete opId (allOps s)) s)
  end.

Definition Abort (ignore : bool) (requestId : string) (s : System) : option System :=
  s' ← sendCmd ignore (abortCommand requestId) s; Some (set_allOps (delete requestId (allOps s')) s').

(** The client reads a response. *)
Definition read_response (r : nat) (s : System) : option System :=
  o ← ops (tables s) !! r;
  match op_responses o with
  | [] => None
  | m :: rest => Some (set_tables (on_op r (op_set_channels (op_internal o) rest (op_read o ++ [m])) (tables s)) s)
  end.

(** ** Steps *)

Inductive action :=
| ARegister (ignore : bool) (method subType : string)
| AFrameFailed
| ACommand (quit : nat -> bool) (late : bool)
| ADeliver (quit : bool) (r : nat)
| AFinish (ignore : bool) (r : nat)
| ACloseEnd (giveUp : bool) (caller : nat)
| ACancel (ignore : bool) (opId : string)
| AAbort (ignore : bool) (requestId : string)
| AMessage (ignore : bool) (response : WsResponse)
| ASubscriptionMessage (ignore : bool) (response : WsResponse)
| ACancelAll (ignore : bool)
| AContextDone (r : nat)
| ACloseChannel (r : nat)
| ARead (r : nat)
| ADown.

Definition step (a : action) (s : System) : option System :=
  if crashed s then None
  else match a with
  | ARegister ignore method subType => if internalId s <? two63 - 1 then Register ignore method subType s else None
  | AFrameFailed => if internalId s <? two63 - 1 then Some (next_frame s).2 else None
  | ACommand quit late => run_command quit late s
  | ADeliver quit r => deliver quit r s
  | AFinish ignore r => op_finish ignore r s
  | ACloseEnd giveUp caller => closeReq_end giveUp caller s
  | ACancel ignore opId => Cancel ignore opId s
  | AAbort ignore requestId => Abort ignore requestId s
  | AMessage ignore response => sendCmd ignore (rpcCommand response) s
  | ASubscriptionMessage ignore response => sendCmd ignore (subscriptionCommand response) s
  | ACancelAll ignore => sendCmd ignore cancelAllCommand s
  | AContextDone r => o ← ops (tables s) !! r; Some (set_tables (on_op r op_SetDone (tables s)) s)
  | ACloseChannel r =>
    o ← ops (tables s) !! r;
    if op_completed o && negb (op_closed o) then Some (set_tables (on_op r op_Close (tables s)) s) else None
  | ARead r => read_response r s
  | ADown => Some (mkSystem (tables s) (commands s) (allOps s) (calls s) true (internalId s) (unsubscribed s)
                     (handled s) (crashed s))
  end.

Fixpoint steps (l : list action) (s : System) : option System :=
  match l with
  | [] => Some s
  | a :: l => s' ← step a s; steps l s'
  end.
End Registry.

(** ** What an operation has got

    Everything that was put into its channels and not dropped, in order. *)

Definition got (o : GenericRequestOp) : list WsResponse := op_read o ++ op_responses o ++ op_internal o.

(** The messages of a subscription among the handled commands. *)
Definition sub_message (subId : string) (cmd : registryCommand) : option WsResponse :=
  match cmd with
  | subscriptionCommand m => if bool_decide (ws_SubId m = subId /\ subId <> "") then Some m else None
  | _ => None
  end.

(** The operation got at most the answer to its own request, then messages of its
    own subscription, in the order they arrived. *)
Definition own_messages (h : list registryCommand) (o : GenericRequestOp) : Prop :=
  exists answer, got o `sublist_of` answer ++ omap (sub_message (op_subId o)) h /\
    (answer = [] \/ exists a, answer = [a] /\ ws_Id a = op_id o /\ rpcCommand a ∈ h).

Definition fresh_op (o : GenericRequestOp) : Prop := got o = [] /\ op_subId o = "".

(** A change of an operation that adds no message. *)
Record keeps (o o' : GenericRequestOp) : Prop := {
  keeps_id : op_id o' = op_id o;
  keeps_sub : op_subId o' = op_subId o;
  keeps_completed : op_completed o = true -> op_completed o' = true;
  keeps_got : got o' `sublist_of` got o;
}.

#[export] Instance keeps_preorder : PreOrder keeps.
Proof.
  split.
  - intros o. by split.
  - intros o1 o2 o3 [A1 A2 A3 A4] [B1 B2 B3 B4]. split; [congruence|congruence|auto|by etransitivity].
Qed.

Lemma keeps_refl o : keeps o o.
Proof. reflexivity. Qed.

Lemma op_Cancel_keeps o : keeps o (op_Cancel o).
Proof. unfold op_Cancel. destruct (op_completed o) eqn:E; by split; simpl. Qed.

Lemma op_Cancel_completed o : op_completed (op_Cancel o) = true.
Proof. unfold op_Cancel. by destruct (op_completed o) eqn:E. Qed.

Lemma stop_op_keeps o : keeps o (stop_op o).
Proof. unfold stop_op. etransitivity; [|apply op_Cancel_keeps]. by split. Qed.

Lemma write_response_keeps quit m rest o o' : op_internal o = m :: rest ->
  write_response quit m (op_set_channels rest (op_responses o) (op_read o) o) = Some o' -> keeps o o'.
Proof.
  intros Hi. unfold write_response.
  assert (keeps o (op_set_channels rest (op_responses o) (op_read o) o)) as Hk.
  { split; try done. unfold got. simpl. rewrite Hi. apply sublist_app; [done|]. apply sublist_app; [done|].
    by apply sublist_cons. }
  destruct (_ && quit); [by intros [= <-]|]. destruct (op_closed _); [done|].
  destruct (has_room _ _); intros [= <-]; [|done]. split; try done. unfold got. simpl. rewrite Hi.
  by rewrite <- (app_assoc (op_responses o)).
Qed.

(** ** The invariant *)

Definition register_refs (cmds : list registryCommand) : list nat :=
  omap (fun c => match c with registerCommand _ r => Some r | _ => None end) cmds.

Definition unique_ids (t : Tables) : Prop :=
  forall r r' o o', ops t !! r = Some o -> ops t !! r' = Some o' -> op_id o = op_id o' -> r = r'.

Record inv (t : Tables) (cmds h : list registryCommand) : Prop := {
  inv_unique : unique_ids t;
  inv_requests : forall id r, requests (state t) !! id = Some r ->
    exists o, ops t !! r = Some o /\ op_id o = id /\ fresh_op o;
  inv_registers : forall id r, registerCommand id r ∈ cmds ->
    exists o, ops t !! r = Some o /\ op_id o = id /\ fresh_op o /\ forall id', requests (state t) !! id' <> Some r;
  inv_once : NoDup (register_refs cmds);
  inv_subs : forall x sub, subs (state t) !! x = Some sub -> x <> "" /\ sub_ops sub <> ∅ /\
    forall id r, sub_ops sub !! id = Some r -> exists o, ops t !! r = Some o /\ op_id o = id /\ op_subId o = x;
  inv_live : forall r o, ops t !! r = Some o -> op_subId o <> "" -> op_completed o = false ->
    exists sub, subs (state t) !! op_subId o = Some sub /\ sub_ops sub !! op_id o = Some r;
  inv_own : forall r o, ops t !! r = Some o -> own_messages h o;
}.

Lemma own_messages_keeps h o o' : keeps o o' -> own_messages h o -> own_messages h o'.
Proof.
  intros [Hi Hs _ Hg] (ans & Hsub & Ha). exists ans. rewrite Hi, Hs. split; [by etransitivity|done].
Qed.

Lemma fresh_keeps o o' : keeps o o' -> fresh_op o -> fresh_op o'.
Proof.
  intros [_ Hs _ Hg] [Hn Hf]. rewrite Hn in Hg. split; [by apply sublist_nil_r|by rewrite Hs].
Qed.

Lemma lookup_on_op t r f r' :
  ops (on_op r f t) !! r' = if decide (r' = r) then f <$> ops t !! r else ops t !! r'.
Proof.
  unfold on_op. simpl. rewrite list_lookup_alter.
  destruct (decide (r = r')), (decide (r' = r)); congruence.
Qed.

(** Operations keep their identifiers. *)
Definition same_ids (t t' : Tables) : Prop :=
  forall r o', ops t' !! r = Some o' -> exists o, ops t !! r = Some o /\ op_id o' = op_id o.

Lemma same_ids_refl t t' : ops t' = ops t -> same_ids t t'.
Proof. intros E r o. rewrite E. eauto. Qed.

Lemma same_ids_trans t1 t2 t3 : same_ids t1 t2 -> same_ids t2 t3 -> same_ids t1 t3.
Proof.
  intros H12 H23 r o3 H3. destruct (H23 r o3 H3) as (o2 & H2 & E2). destruct (H12 r o2 H2) as (o1 & H1 & E1).
  exists o1. split; [done|congruence].
Qed.

Lemma on_op_same_ids t r f : (forall o, ops t !! r = Some o -> op_id (f o) = op_id o) -> same_ids t (on_op r f t).
Proof.
  intros Hf r' o'. rewrite lookup_on_op. destruct (decide (r' = r)) as [->|]; [|by eauto].
  intros (o & Ho & ->)%fmap_Some. eauto.
Qed.

Lemma unique_same_ids t t' : unique_ids t -> same_ids t t' -> unique_ids t'.
Proof.
  intros Hu Hs r r' o o' Ho Ho' E. destruct (Hs r o Ho) as (x & Hx & Ex), (Hs r' o' Ho') as (y & Hy & Ey).
  eapply Hu; [done..|congruence].
Qed.

(** Every operation is changed in place, as [R] allows. *)
Definition ops_rel (R : GenericRequestOp -> GenericRequestOp -> Prop) (t t' : Tables) : Prop :=
  (forall r o', ops t' !! r = Some o' -> exists o, ops t !! r = Some o /\ R o o') /\
  (forall r o, ops t !! r = Some o -> exists o', ops t' !! r = Some o' /\ R o o').

Lemma ops_keep_trans t1 t2 t3 : ops_rel keeps t1 t2 -> ops_rel keeps t2 t3 -> ops_rel keeps t1 t3.
Proof.
  intros [A1 A2] [B1 B2]. split.
  - intros r o3 H3. destruct (B1 r o3 H3) as (o2 & H2 & K2). destruct (A1 r o2 H2) as (o1 & H1 & K1).
    exists o1. split; [done|by etransitivity].
  - intros r o1 H1. destruct (A2 r o1 H1) as (o2 & H2 & K2). destruct (B2 r o2 H2) as (o3 & H3 & K3).
    exists o3. split; [done|by etransitivity].
Qed.

Lemma on_op_rel (R : GenericRequestOp -> GenericRequestOp -> Prop) t r f :
  (forall r o, ops t !! r = Some o -> R o o) -> (forall o, ops t !! r = Some o -> R o (f o)) -> ops_rel R t (on_op r f t).
Proof.
  intros HR Hf. split; intros r' o'; rewrite lookup_on_op; destruct (decide (r' = r)) as [->|Hne].
  - intros (o & Ho & ->)%fmap_Some. eauto.
  - eauto.
  - intros Ho. rewrite Ho. simpl. eauto.
  - eauto.
Qed.

Lemma on_op_keep t r f : (forall o, ops t !! r = Some o -> keeps o (f o)) -> ops_rel keeps t (on_op r f t).
Proof. apply on_op_rel. intros. apply keeps_refl. Qed.

(** A change of an operation the invariant allows; [h] is what is handled then. *)
Record changes (h : list registryCommand) (o o' : GenericRequestOp) : Prop := {
  ch_id : op_id o' = op_id o;
  ch_sub : op_subId o' = op_subId o;
  ch_completed : op_completed o = true -> op_completed o' = true;
  ch_fresh : fresh_op o -> fresh_op o';
  ch_own : own_messages h o';
}.

Lemma inv_change t t' cmds h h' : state t' = state t -> ops_rel (changes h') t t' -> inv t cmds h -> inv t' cmds h'.
Proof.
  intros Hst [Hb Hf] [I1 I2 I3 I4 I5 I6 I7]. split; try rewrite Hst.
  - eapply unique_same_ids; [exact I1|]. intros r o' Ho'. destruct (Hb r o' Ho') as (o & Ho & K). exists o.
    by rewrite (ch_id _ _ _ K).
  - intros id r Hr. destruct (I2 id r Hr) as (o & Ho & Hid & Hfr). destruct (Hf r o Ho) as (o' & Ho' & K).
    exists o'. split; [done|]. split; [by rewrite (ch_id _ _ _ K)|by eapply ch_fresh].
  - intros id r Hr. destruct (I3 id r Hr) as (o & Ho & Hid & Hfr & Hn). destruct (Hf r o Ho) as (o' & Ho' & K).
    exists o'. split; [done|]. split; [by rewrite (ch_id _ _ _ K)|]. split; [by eapply ch_fresh|done].
  - done.
  - intros x sub Hx. destruct (I5 x sub Hx) as (H1 & H2 & H3). split; [done|]. split; [done|]. intros id r Hr.
    destruct (H3 id r Hr) as (o & Ho & Hid & Hs). destruct (Hf r o Ho) as (o' & Ho' & K). exists o'.
    by rewrite (ch_id _ _ _ K), (ch_sub _ _ _ K).
  - intros r o' Ho' Hs Hc. destruct (Hb r o' Ho') as (o & Ho & K).
    rewrite (ch_sub _ _ _ K) in *. rewrite (ch_id _ _ _ K). apply (I6 r o Ho); [done|].
    destruct (op_completed o) eqn:E; [|done]. by rewrite (ch_completed _ _ _ K E) in Hc.
  - intros r o' Ho'. destruct (Hb r o' Ho') as (o & Ho & K). by apply K.
Qed.

Lemma keeps_changes h o o' : own_messages h o -> keeps o o' -> changes h o o'.
Proof.
  intros Ho K. split; [apply K..| |]; [by apply fresh_keeps|by eapply own_messages_keeps].
Qed.

(** A change that only touches operations and adds no message. *)
Lemma inv_ops_keep t t' cmds h : state t' = state t -> ops_rel keeps t t' -> inv t cmds h -> inv t' cmds h.
Proof.
  intros Hst [Hb Hf] I. apply (inv_change t t' cmds h h); [done| |done]. split.
  - intros r o' Ho'. destruct (Hb r o' Ho') as (o & Ho & K). exists o. split; [done|].
    apply keeps_changes; [by eapply inv_own|done].
  - intros r o Ho. destruct (Hf r o Ho) as (o' & Ho' & K). exists o'. split; [done|].
    apply keeps_changes; [by eapply inv_own|done].
Qed.

(** What was handled only grows. *)
Lemma own_messages_handled h h' o : own_messages h o -> own_messages (h ++ h') o.
Proof.
  intros (ans & Hsub & Ha). exists ans. split.
  - rewrite omap_app, app_assoc. by apply sublist_inserts_r.
  - destruct Ha as [->|(a & -> & ? & ?)]; [by left|right]. exists a. split_and!; [done..|]. apply elem_of_app. by left.
Qed.

(** A command is taken from the queue. *)
Lemma inv_drop t cmd rest h : inv t (cmd :: rest) h -> inv t rest h.
Proof.
  intros [I1 I2 I3 I4 I5 I6 I7]. split; try done.
  - intros id r Hr. apply I3. by right.
  - unfold register_refs in *. simpl in I4. destruct cmd; try done. by inversion I4.
Qed.

Lemma inv_dequeue t cmd rest h : inv t (cmd :: rest) h -> inv t rest (h ++ [cmd]).
Proof.
  intros [I1 I2 I3 I4 I5 I6 I7]%inv_drop. split; try done. intros r o Ho. apply own_messages_handled. eauto.
Qed.

Lemma elem_of_register_refs r cmds : r ∈ register_refs cmds <-> exists id, registerCommand id r ∈ cmds.
Proof.
  unfold register_refs. rewrite list_elem_of_omap. split.
  - intros ([] & Hin & [= <-]). eauto.
  - intros [id Hin]. by exists (registerCommand id r).
Qed.

(** The references of an operation's identifier. *)
Lemma inv_same_id t cmds h r r' o o' : inv t cmds h ->
  ops t !! r = Some o -> ops t !! r' = Some o' -> op_id o = op_id o' -> r = r'.
Proof.
  intros I. apply (inv_unique _ _ _ I).
Qed.

(** An operation is not pending: it is neither queued nor waiting for its answer. *)
Definition not_pending (t : Tables) (cmds : list registryCommand) (r : nat) : Prop :=
  (r ∉ register_refs cmds) /\ (forall id, requests (state t) !! id <> Some r).

Lemma handle_register_inv id r t rest h : inv t (registerCommand id r :: rest) h ->
  inv (handle_register id r t) rest (h ++ [registerCommand id r]).
Proof.
  intros I. destruct (inv_registers _ _ _ I id r) as (o & Ho & Hid & Hf & Hn); [by left|].
  pose proof (inv_once _ _ _ I) as Hnd. unfold register_refs in Hnd. simpl in Hnd.
  apply NoDup_cons in Hnd as [Hr _]. fold (register_refs rest) in Hr.
  destruct (inv_dequeue _ _ _ _ I) as [I1 I2 I3 I4 I5 I6 I7]. split; try done.
  - simpl. intros id' r' [[<- <-]|[_ H]]%lookup_insert_Some; eauto.
  - intros id' r' Hin. destruct (I3 id' r' Hin) as (o' & Ho' & Hid' & Hf' & Hn'). exists o'. split_and!; [done..|].
    simpl. intros id2 [[<- <-]|[_ H]]%lookup_insert_Some; [|by apply (Hn' id2)].
    apply Hr, elem_of_register_refs. eauto.
Qed.

(** Forgetting requests. *)
Lemma inv_forget t cmds h m : m ⊆ requests (state t) -> inv t cmds h -> inv (set_requests m t) cmds h.
Proof.
  intros Hm [I1 I2 I3 I4 I5 I6 I7]. split; try done; simpl.
  - intros id r Hr. apply I2. by eapply lookup_weaken.
  - intros id r Hr. destruct (I3 id r Hr) as (o & ? & ? & ? & Hn). exists o. split_and!; [done..|].
    intros id' Hr'. apply (Hn id'). by eapply lookup_weaken.
Qed.

Lemma handle_abort_inv id t cmds h : inv t cmds h -> inv (handle_abort id t) cmds h.
Proof.
  intros I. unfold handle_abort. destruct (requests (state t) !! id) as [r|]; [|done].
  apply (inv_ops_keep (set_requests (delete id (requests (state t))) t));
    [done|apply on_op_keep; intros; apply stop_op_keeps|]. apply inv_forget; [apply delete_subseteq|done].
Qed.

(** An operation that is not pending takes a message. *)
Lemma write_internal_changes h quit m o : own_messages h o -> ~ fresh_op o ->
  own_messages h (op_set_channels (op_internal o ++ [m]) (op_responses o) (op_read o) o) ->
  changes h o (write_internal quit m o).
Proof.
  intros Ho Hf Hm. unfold write_internal. destruct (_ && quit); [by split|]. by destruct (has_room _ _); split.
Qed.

(** One operation that is not pending gets another content. *)
Lemma inv_update t cmds h r o o' : inv t cmds h -> not_pending t cmds r -> ops t !! r = Some o ->
  op_id o' = op_id o -> own_messages h o' ->
  (op_subId o' = op_subId o /\ (op_completed o = true -> op_completed o' = true) \/
   op_subId o = "" /\ (op_subId o' = "" \/ op_completed o' = true)) ->
  inv (on_op r (fun _ => o') t) cmds h.
Proof.
  intros [I1 I2 I3 I4 I5 I6 I7] [Hq Hn] Ho Hid Hown Hsub.
  assert (forall r', r' <> r -> ops (on_op r (fun _ => o') t) !! r' = ops t !! r') as Hne
    by (intros; rewrite lookup_on_op; by rewrite decide_False).
  assert (ops (on_op r (fun _ => o') t) !! r = Some o') as Hat by (rewrite lookup_on_op, decide_True, Ho; done).
  split; try done; change (state (on_op r (fun _ => o') t)) with (state t).
  - eapply unique_same_ids; [exact I1|]. apply on_op_same_ids. intros. by simplify_eq.
  - intros id r' Hr. destruct (decide (r' = r)) as [->|?]; [by destruct (Hn id)|]. rewrite Hne by done. eauto.
  - intros id r' Hr. destruct (decide (r' = r)) as [->|?]; [|rewrite Hne by done; eauto].
    destruct Hq. apply elem_of_register_refs. eauto.
  - intros x sub Hx. destruct (I5 x sub Hx) as (H1 & H2 & H3). split; [done|]. split; [done|]. intros id r' Hr.
    destruct (H3 id r' Hr) as (p & Hp & Hpid & Hps). destruct (decide (r' = r)) as [->|?]; [|rewrite Hne by done; eauto].
    exists o'. simplify_eq. split; [done|]. split; [done|]. destruct Hsub as [[-> _]|[? _]]; [done|congruence].
  - intros r' x Hx Hs Hc. destruct (decide (r' = r)) as [->|?]; [|rewrite Hne in Hx by done; eauto].
    rewrite Hat in Hx. simplify_eq. destruct Hsub as [[Heq Hcm]|[_ [?|?]]]; [|congruence|congruence].
    rewrite Heq, Hid in *. apply (I6 r o Ho); [done|]. destruct (op_completed o); [|done]. by rewrite Hcm in Hc.
  - intros r' x. destruct (decide (r' = r)) as [->|?]; [rewrite Hat; by intros [= <-]|rewrite Hne; eauto].
Qed.

(** An operation joins its subscription. *)
Lemma inv_join t cmds h r o o' : inv t cmds h -> not_pending t cmds r -> ops t !! r = Some o ->
  op_id o' = op_id o -> own_messages h o' -> op_subId o = "" -> op_subId o' <> "" ->
  inv (join_sub r o' (on_op r (fun _ => o') t)) cmds h.
Proof.
  intros I Hnp Ho Hid Hown Hsub Hsub'.
  destruct I as [I1 I2 I3 I4 I5 I6 I7], Hnp as [Hq Hn]. set (t1 := on_op r (fun _ => o') t).
  set (t2 := join_sub r o' t1). assert (ops t2 = ops t1) as Hops by done.
  assert (forall r', r' <> r -> ops t2 !! r' = ops t !! r') as Hne
    by (intros; rewrite Hops; unfold t1; rewrite lookup_on_op; by rewrite decide_False).
  assert (ops t2 !! r = Some o') as Hat by (rewrite Hops; unfold t1; rewrite lookup_on_op, decide_True, Ho; done).
  set (old := default (mkRegistrySubscription (op_subType o') ∅) (subs (state t) !! op_subId o')).
  assert (forall id r', sub_ops old !! id = Some r' -> exists p, ops t !! r' = Some p /\ op_id p = id /\ op_subId p = op_subId o') as Hold.
  { unfold old. destruct (subs (state t) !! op_subId o') as [sub|] eqn:E; simpl; [|intros id r'; by rewrite lookup_empty].
    by apply (I5 _ _ E). }
  assert (subs (state t2) = <[op_subId o' := mkRegistrySubscription (sub_subType old) (<[op_id o' := r]> (sub_ops old))]>
    (subs (state t))) as Hsubs by done.
  assert (forall id r', sub_ops old !! id = Some r' -> r' <> r) as Hnotr.
  { intros id r' Hr ->. destruct (Hold id r Hr) as (p & Hp & _ & Hps). simplify_eq. congruence. }
  split; try done; change (requests (state t2)) with (requests (state t)).
  - eapply unique_same_ids; [exact I1|]. apply on_op_same_ids. intros. by simplify_eq.
  - intros id r' Hr. destruct (decide (r' = r)) as [->|?]; [by destruct (Hn id)|]. rewrite Hne by done. eauto.
  - intros id r' Hr. destruct (decide (r' = r)) as [->|?]; [|rewrite Hne by done; eauto].
    destruct Hq. apply elem_of_register_refs. eauto.
  - intros x sub. rewrite Hsubs. intros [[<- <-]|[_ Hx]]%lookup_insert_Some.
    + split; [done|]. split; [apply insert_non_empty|]. simpl. intros id r' [[<- <-]|[_ Hr]]%lookup_insert_Some; [by eauto|].
      rewrite Hne by eauto. by apply Hold.
    + destruct (I5 x sub Hx) as (H1 & H2 & H3). split; [done|]. split; [done|]. intros id r' Hr.
      destruct (H3 id r' Hr) as (p & Hp & Hpid & Hps). rewrite Hne; [by eauto|]. intros ->. simplify_eq.
  - intros r' x Hx Hs Hc. rewrite Hsubs. destruct (decide (r' = r)) as [->|Hr].
    + rewrite Hat in Hx. simplify_eq. eexists. split; [apply lookup_insert_eq|]. simpl. apply lookup_insert_eq.
    + rewrite Hne in Hx by done. destruct (I6 r' x Hx Hs Hc) as (sub & Hsub2 & Hr2).
      destruct (decide (op_subId x = op_subId o')) as [E|E]; [|rewrite lookup_insert_ne by done; eauto].
      rewrite E, lookup_insert_eq. eexists. split; [done|]. simpl. rewrite lookup_insert_ne.
      * unfold old. rewrite <- E, Hsub2. done.
      * rewrite Hid. intros E'. apply Hr. by apply (I1 r' r x o).
  - intros r' x. destruct (decide (r' = r)) as [->|?]; [rewrite Hat; by intros [= <-]|rewrite Hne; eauto].
Qed.

Lemma on_op_const t r o f : ops t !! r = Some o -> on_op r f t = on_op r (fun _ => f o) t.
Proof. intros Ho. unfold on_op. f_equal. apply list_alter_ext; [|done]. intros. by simplify_eq. Qed.

Lemma write_internal_frame quit m o :
  op_id (write_internal quit m o) = op_id o /\ op_subId (write_internal quit m o) = op_subId o /\
  op_completed (write_internal quit m o) = op_completed o /\
  (got (write_internal quit m o) = got o \/ got (write_internal quit m o) = got o ++ [m]).
Proof.
  unfold write_internal. destruct (_ && quit); [by auto|]. destruct (has_room _ _); [|by auto].
  split_and!; [done..|]. right. unfold got. simpl. by rewrite !app_assoc.
Qed.

(** The answer to a request reaches the operation that waits for it. *)
Lemma answer_own h quit m o : got o = [] -> ws_Id m = op_id o -> rpcCommand m ∈ h -> own_messages h (write_internal quit m o).
Proof.
  intros Hg Hid Hin. destruct (write_internal_frame quit m o) as (Hi & Hs & _ & Hgot). exists [m]. split.
  - rewrite Hg in Hgot. destruct Hgot as [->| ->]; [apply sublist_nil_l|]. by apply sublist_inserts_r.
  - right. exists m. by rewrite Hi.
Qed.

Lemma inv_write_answer t cmds h r o quit m : inv t cmds h -> not_pending t cmds r -> ops t !! r = Some o ->
  got o = [] -> ws_Id m = op_id o -> rpcCommand m ∈ h -> inv (on_op r (write_internal quit m) t) cmds h.
Proof.
  intros I Hnp Ho Hg Hid Hin. rewrite (on_op_const _ _ o) by done.
  destruct (write_internal_frame quit m o) as (Hi & Hs & Hc & _).
  eapply inv_update; [done..|by apply answer_own|]. left. rewrite Hs, Hc. done.
Qed.

Lemma requests_not_pending t cmds h id r : inv t cmds h -> requests (state t) !! id = Some r ->
  not_pending (set_requests (delete id (requests (state t))) t) cmds r.
Proof.
  intros I Hr. split.
  - intros [id' Hin]%elem_of_register_refs. destruct (inv_registers _ _ _ I id' r Hin) as (? & _ & _ & _ & Hn). by apply (Hn id).
  - simpl. intros id' [Hne Hr']%lookup_delete_Some. destruct (inv_requests _ _ _ I id r Hr) as (o & Ho & <- & _).
    destruct (inv_requests _ _ _ I id' r Hr') as (o' & Ho' & <- & _). by simplify_eq.
Qed.

Lemma op_SetSubID_frame m o o' : op_SetSubID m o = Some o' ->
  op_id o' = op_id o /\ op_completed o' = op_completed o /\ got o' = got o.
Proof. unfold op_SetSubID. by intros (x & _ & ->)%fmap_Some. Qed.

Lemma op_Cancel_frame o :
  op_id (op_Cancel o) = op_id o /\ op_subId (op_Cancel o) = op_subId o /\ got (op_Cancel o) = got o.
Proof. unfold op_Cancel. by destruct (op_completed o). Qed.

Section Handlers.
Context `{MR : MapRange} (specs : Registry) (methodSpec : string).

Lemma handle_rpc_inv quit late m t t' cmds h : inv t cmds h -> rpcCommand m ∈ h ->
  handle_rpc specs methodSpec quit late m t = Some t' -> inv t' cmds h.
Proof using Type.
  intros I Hin. unfold handle_rpc. destruct (requests (state t) !! ws_Id m) as [r|] eqn:Hr; [|by intros [= <-]].
  pose proof (requests_not_pending _ _ _ _ _ I Hr) as Hnp.
  destruct (inv_requests _ _ _ I _ _ Hr) as (o & Ho & Hid & [Hg Hs]).
  apply (inv_forget t cmds h (delete (ws_Id m) (requests (state t)))) in I; [|apply delete_subseteq].
  set (t1 := set_requests _ t) in *. change (ops t) with (ops t1) in Ho. cbv zeta. fold t1. rewrite Ho.
  destruct (op_completed o) eqn:Hc; [by intros [= <-]|].
  destruct (_ && IsSubscribeMethod _ _ _).
  2: { intros [= <-]. by eapply inv_write_answer. }
  destruct (op_SetSubID (ws_Message m) o) as [o'|] eqn:Ho'; [|done]. intros [= <-].
  destruct (op_SetSubID_frame _ _ _ Ho') as (Hid' & Hc' & Hg').
  set (o2 := if late then op_Cancel o' else o'). assert (op_id o2 = op_id o /\ got o2 = []) as [Hid2 Hg2].
  { unfold o2. destruct late; [destruct (op_Cancel_frame o') as (-> & _ & ->)|]; by rewrite Hid', Hg'. }
  assert (own_messages h o2) as Hown.
  { exists []. rewrite Hg2. split; [apply sublist_nil_l|by left]. }
  assert (forall T, ops T = ops (on_op r (fun _ => o2) t1) -> ops T !! r = Some o2) as Hat.
  { intros T ->. rewrite lookup_on_op, decide_True, Ho; done. }
  destruct (bool_decide (op_subId o2 <> "") && negb (op_completed o2)) eqn:Ej.
  - reflect_bool. eapply (inv_write_answer _ _ _ _ o2); [by eapply inv_join|done|by apply Hat|done|by rewrite Hid2|done].
  - eapply (inv_write_answer _ _ _ _ o2); [|done|by apply Hat|done|by rewrite Hid2|done].
    eapply inv_update; [done..|]. right. split; [done|]. apply andb_false_iff in Ej as [E|E]; reflect_bool; [|by right].
    left. by apply dec_stable in E.
Qed.

Lemma foldl_on_op f l t r : NoDup l ->
  state (foldl (fun t r => on_op r (f r) t) t l) = state t /\
  ops (foldl (fun t r => on_op r (f r) t) t l) !! r = if decide (r ∈ l) then f r <$> ops t !! r else ops t !! r.
Proof using Type.
  intros Hnd. revert t. induction Hnd as [|x l Hx _ IH]; intros t; simpl; [done|].
  destruct (IH (on_op x (f x) t)) as [Hs Ho]. split; [done|]. rewrite Ho, lookup_on_op.
  destruct (decide (r ∈ l)) as [Hl|Hl].
  - rewrite (decide_True (P := r ∈ x :: l)) by (by right). by rewrite decide_False by (intros ->; done).
  - destruct (decide (r = x)) as [->|Hne].
    + by rewrite (decide_True (P := x ∈ x :: l)) by (by left).
    + rewrite (decide_False (P := r ∈ x :: l)); [done|]. by intros [?|?]%elem_of_cons.
Qed.

Lemma sub_refs_NoDup t cmds h x sub : inv t cmds h -> subs (state t) !! x = Some sub -> NoDup (range (sub_ops sub)).*2.
Proof using Type.
  intros I Hx. destruct (inv_subs _ _ _ I x sub Hx) as (_ & _ & Hs). apply NoDup_fmap_2_strong.
  - intros [id r] [id' r'] H1%elem_of_range H2%elem_of_range E. simpl in E. subst r'.
    destruct (Hs _ _ H1) as (o & Ho & <- & _). destruct (Hs _ _ H2) as (o' & Ho' & <- & _). by simplify_eq.
  - rewrite range_perm. apply NoDup_map_to_list.
Qed.

Lemma handle_subscription_inv quit m t cmds h : inv t cmds h ->
  inv (handle_subscription quit m t) cmds (h ++ [subscriptionCommand m]).
Proof using Type.
  intros I. assert (forall o, own_messages h o -> own_messages (h ++ [subscriptionCommand m]) o) as Hgrow
    by (intros; by apply own_messages_handled).
  unfold handle_subscription. destruct (subs (state t) !! ws_SubId m) as [sub|] eqn:Hx.
  2: { eapply inv_change; [done| |done]. split; intros r o Ho; exists o; (split; [done|]); split; eauto using inv_own. }
  destruct (inv_subs _ _ _ I _ _ Hx) as (Hne & _ & Hs). pose proof (sub_refs_NoDup _ _ _ _ _ I Hx) as Hnd.
  assert (forall r o, ops t !! r = Some o -> r ∈ (range (sub_ops sub)).*2 ->
    changes (h ++ [subscriptionCommand m]) o (write_internal (quit r) m o)) as Hch.
  { intros r o Ho Hr. apply elem_of_range_values in Hr as [id Hr].
    destruct (Hs id r Hr) as (o' & Ho' & _ & Hsub). simplify_eq.
    destruct (write_internal_frame (quit r) m o) as (Wi & Ws & Wc & Wg). split; [done..|by rewrite Wc| |].
    - intros [_ E]. by rewrite Hsub in E.
    - destruct (inv_own _ _ _ I r o Ho) as (ans & Hans & Ha). exists ans. rewrite Wi, Ws, omap_app. split.
      + simpl. rewrite bool_decide_eq_true_2 by (rewrite Hsub; done). rewrite app_assoc. destruct Wg as [->| ->]; [by apply sublist_inserts_r|].
        by apply sublist_app.
      + destruct Ha as [->|(a & -> & ? & ?)]; [by left|right]. exists a. split_and!; [done..|]. apply elem_of_app. by left. }
  apply (inv_change t _ cmds h); [by apply (foldl_on_op _ _ t 0%nat Hnd)| |done].
  split; intros r o; rewrite (proj2 (foldl_on_op _ _ t r Hnd)); destruct (decide (r ∈ _)) as [Hr|Hr].
  - intros (o' & Ho' & ->)%fmap_Some. eauto.
  - intros Ho. exists o. split; [done|]. split; eauto using inv_own.
  - intros Ho. rewrite Ho. simpl. eauto.
  - intros Ho. exists o. split; [done|]. split; eauto using inv_own.
Qed.

(** The subscriptions without an operation that is completed. *)
Lemma inv_leave t cmds h r o sub : inv t cmds h -> ops t !! r = Some o -> op_completed o = true ->
  subs (state t) !! op_subId o = Some sub ->
  inv (if bool_decide (delete (op_id o) (sub_ops sub) <> ∅)
       then set_subs (<[op_subId o := mkRegistrySubscription (sub_subType sub) (delete (op_id o) (sub_ops sub))]>
              (subs (state t))) t
       else set_subs (delete (op_subId o) (subs (state t))) t) cmds h.
Proof using Type.
  intros I Ho Hc Hx. pose proof (inv_same_id t cmds h) as Hsame.
  assert (forall r' o', ops t !! r' = Some o' -> op_subId o' <> "" -> op_completed o' = false ->
    op_subId o' = op_subId o -> delete (op_id o) (sub_ops sub) !! op_id o' = Some r') as Hother.
  { intros r' o' Ho' Hs' Hc' E. destruct (inv_live _ _ _ I r' o' Ho' Hs' Hc') as (sub' & Hx' & Hr').
    rewrite E in Hx'. simplify_eq. rewrite lookup_delete_ne; [done|]. intros E2.
    assert (r' = r) as -> by (by apply (Hsame r' r o' o)). congruence. }
  destruct I as [I1 I2 I3 I4 I5 I6 I7]. case_bool_decide as Hd; split; try done; simpl.
  - intros x sub' [[<- <-]|[_ H]]%lookup_insert_Some; [|by eauto]. destruct (I5 _ _ Hx) as (H1 & _ & H3).
    split; [done|]. split; [done|]. simpl. intros id r' [_ Hr]%lookup_delete_Some. by apply H3.
  - intros r' o' Ho' Hs' Hc'. destruct (decide (op_subId o' = op_subId o)) as [E|E].
    + rewrite E, lookup_insert_eq. eexists. split; [done|]. simpl. by apply Hother.
    + rewrite lookup_insert_ne by done. by apply I6.
  - intros x sub' [_ H]%lookup_delete_Some. eauto.
  - intros r' o' Ho' Hs' Hc'. rewrite lookup_delete_ne; [by apply I6|]. intros E.
    specialize (Hother r' o' Ho' Hs' Hc' (eq_sym E)). by rewrite Hd, lookup_empty in Hother.
Qed.

Lemma handle_finish_inv r t cmds h : inv t cmds h -> inv (handle_finish r t).1 cmds h.
Proof using Type.
  intros I. unfold handle_finish.
  apply (inv_ops_keep t (on_op r op_Cancel t)) in I; [|done|apply on_op_keep; intros; apply op_Cancel_keeps].
  destruct (ops (on_op r op_Cancel t) !! r) as [o|] eqn:Ho; [|done]. case_bool_decide; [done|].
  assert (op_completed o = true) as Hc.
  { rewrite lookup_on_op, decide_True in Ho by done. apply fmap_Some in Ho as (o' & _ & ->). apply op_Cancel_completed. }
  destruct (subs (state (on_op r op_Cancel t)) !! op_subId o) as [sub|] eqn:Hx; [|done].
  pose proof (inv_leave _ _ _ _ _ _ I Ho Hc Hx) as I'. by case_bool_decide.
Qed.

Lemma foldl_stop l t : state (foldl (fun t r => on_op r stop_op t) t l) = state t /\
  ops_rel keeps t (foldl (fun t r => on_op r stop_op t) t l) /\
  forall r o, r ∈ l -> ops (foldl (fun t r => on_op r stop_op t) t l) !! r = Some o -> op_completed o = true.
Proof using Type.
  revert t. induction l as [|x l IH]; intros t; simpl.
  - split; [done|]. split; [split; eauto using keeps_refl|]. intros r o Hr. by apply elem_of_nil in Hr.
  - destruct (IH (on_op x stop_op t)) as (Hs & Hk & Hc). split; [done|]. split.
    + eapply ops_keep_trans; [apply on_op_keep; intros; apply stop_op_keeps|done].
    + intros r o Hr Ho. destruct (decide (r ∈ l)) as [Hl|Hl]; [by eapply Hc|].
      apply elem_of_cons in Hr as [->|Hr]; [|done]. destruct Hk as [Hb _]. destruct (Hb x o Ho) as (o1 & Ho1 & K).
      apply (keeps_completed _ _ K). rewrite lookup_on_op, decide_True in Ho1 by done.
      apply fmap_Some in Ho1 as (o0 & _ & ->). apply op_Cancel_completed.
Qed.

Lemma registered_spec s r : r ∈ registered s <->
  (exists id, requests s !! id = Some r) \/ exists x sub id, subs s !! x = Some sub /\ sub_ops sub !! id = Some r.
Proof using Type.
  unfold registered. rewrite elem_of_app, elem_of_range_values, list_elem_of_bind. split.
  - intros [H|([x sub] & Hr & Hx)]; [by left|right]. apply elem_of_range in Hx. apply elem_of_range_values in Hr as [id Hr]. eauto.
  - intros [H|(x & sub & id & Hx & Hr)]; [by left|right]. exists (x, sub). split; [by apply elem_of_range_values; eauto|by apply elem_of_range].
Qed.

(** After a disconnect nothing is registered and every operation that was is
    completed. *)
Lemma handle_cancelAll_spec t : state (handle_cancelAll t) = mkRegistryState ∅ ∅ /\
  ops_rel keeps t (handle_cancelAll t) /\
  forall r o, r ∈ registered (state t) -> ops (handle_cancelAll t) !! r = Some o -> op_completed o = true.
Proof using Type.
  unfold handle_cancelAll. destruct (foldl_stop (registered (state t)) (mkTables (ops t) (mkRegistryState ∅ ∅))) as (H1 & H2 & H3).
  done.
Qed.

Lemma handle_cancelAll_inv t cmds h : inv t cmds h -> inv (handle_cancelAll t) cmds h.
Proof using Type.
  intros I. destruct (handle_cancelAll_spec t) as (Hst & [Hb Hf] & Hc). set (t' := handle_cancelAll t) in *. clearbody t'.
  pose proof I as [I1 I2 I3 I4 I5 I6 I7]. split; try rewrite Hst; simpl; try done.
  - eapply unique_same_ids; [exact I1|]. intros r o' Ho'. destruct (Hb r o' Ho') as (o & Ho & K). exists o.
    by rewrite (keeps_id _ _ K).
  - intros id r Hr. destruct (I3 id r Hr) as (o & Ho & Hid & Hfr & Hn). destruct (Hf r o Ho) as (o' & Ho' & K).
    exists o'. split; [done|]. split; [by rewrite (keeps_id _ _ K)|]. split; [by eapply fresh_keeps|]. intros id'.
    by rewrite lookup_empty.
  - intros r o' Ho' Hs Hn. exfalso. destruct (Hb r o' Ho') as (o & Ho & K). rewrite (keeps_sub _ _ K) in *.
    destruct (op_completed o) eqn:E; [by rewrite (keeps_completed _ _ K E) in Hn|].
    destruct (I6 r o Ho Hs E) as (sub & Hx & Hr). rewrite (Hc r o') in Hn; [done| |done].
    apply registered_spec. right. eauto.
  - intros r o' Ho'. destruct (Hb r o' Ho') as (o & Ho & K). eapply own_messages_keeps; eauto.
Qed.
End Handlers.

(** ** Reachable states *)

Record sys_inv (s : System) : Prop := {
  si_inv : inv (tables s) (commands s) (handled s);
  si_ids : forall r o, ops (tables s) !! r = Some o -> exists k, k <= internalId s /\ op_id o = pretty k;
  si_pos : 100 <= internalId s;
}.

Definition is_register (c : registryCommand) : Prop := match c with registerCommand _ _ => True | _ => False end.

Lemma inv_enqueue t cmds h c : ~ is_register c -> inv t cmds h -> inv t (cmds ++ [c]) h.
Proof.
  intros Hc [I1 I2 I3 I4 I5 I6 I7]. split; try done.
  - intros id r [H|H%list_elem_of_singleton]%elem_of_app; [by apply I3|]. subst c. by destruct Hc.
  - unfold register_refs. rewrite omap_app. destruct c; simpl; by rewrite ?app_nil_r.
Qed.

Lemma sendCmd_spec ignore c s s' : sendCmd ignore c s = Some s' ->
  ignore = true /\ s' = s \/
  ignore = false /\ s' = mkSystem (tables s) (commands s ++ [c]) (allOps s) (calls s) (down s) (internalId s)
                          (unsubscribed s) (handled s) (crashed s).
Proof.
  unfold sendCmd. destruct ignore; [by destruct (down s); [intros [= <-]; left|]|].
  destruct (_ <? _); [|done]. intros [= <-]. by right.
Qed.

Lemma sendCmd_inv ignore c s s' : ~ is_register c -> sys_inv s -> sendCmd ignore c s = Some s' -> sys_inv s'.
Proof.
  intros Hc [I Hn Hp] [[_ ->]|[_ ->]]%sendCmd_spec; [done|]. split; [|done..]. by apply inv_enqueue.
Qed.

(** A change of the tables alone. *)
Lemma sys_inv_tables t s : sys_inv s -> inv t (commands s) (handled s) -> same_ids (tables s) t -> sys_inv (set_tables t s).
Proof.
  intros [_ Hn Hp] I Hl. split; [done| |done]. simpl. intros r o Ho. destruct (Hl r o Ho) as (o' & Ho' & ->). eauto.
Qed.

Lemma sys_inv_on_op r f s : sys_inv s -> (forall o, ops (tables s) !! r = Some o -> keeps o (f o)) ->
  sys_inv (set_tables (on_op r f (tables s)) s).
Proof.
  intros Hs Hf. apply sys_inv_tables; [done| |apply on_op_same_ids; intros; by apply Hf].
  eapply (inv_ops_keep (tables s)); [done|by apply on_op_keep|apply Hs].
Qed.

Lemma closeReq_inv ignore r s s' : sys_inv s -> closeReq ignore r s = Some s' -> sys_inv s'.
Proof.
  intros Hs (s1 & H1 & [= <-])%bind_Some. eapply sendCmd_inv in H1; [|by intros []|done]. destruct H1. by split.
Qed.

Lemma new_op_inv t cmds h id m st : let r := length (ops t) in
  inv t cmds h -> (forall r o, ops t !! r = Some o -> op_id o <> id) ->
  let o := op_set_running true (NewGenericRequestOp id m st) in
  inv (mkTables (ops t ++ [o]) (state t)) (cmds ++ [registerCommand id r]) h /\
  inv (mkTables (ops t ++ [op_Cancel o]) (state t)) cmds h.
Proof.
  intros r I Hid o. assert (forall x y r', (ops t ++ [x]) !! r' = Some y ->
    r' = r /\ y = x \/ ops t !! r' = Some y) as Hnew.
  { intros x y r' [H|[Hle H]]%lookup_app_Some; [by right|left]. unfold r. destruct (r' - length (ops t))%nat eqn:E; simpl in H; [|done].
    simplify_eq. split; [lia|done]. }
  assert (forall x y r', ops t !! r' = Some y -> (ops t ++ [x]) !! r' = Some y) as Hold
    by (intros; by apply lookup_app_l_Some).
  assert (forall x, (ops t ++ [x]) !! r = Some x) as Hat by (intros; unfold r; by rewrite lookup_app_r, Nat.sub_diag by lia).
  assert (forall r' y, ops t !! r' = Some y -> r' <> r) as Hlt
    by (intros r' y Hy ->; apply lookup_lt_Some in Hy; unfold r in Hy; lia).
  assert (fresh_op o) as Hfo by done.
  assert (forall x, op_id x = id -> unique_ids (mkTables (ops t ++ [x]) (state t))) as Huniq.
  { intros x Hx r1 r2 y1 y2 [[-> ->]|H1]%Hnew [[-> ->]|H2]%Hnew E; [done| | |by apply (inv_unique _ _ _ I r1 r2 y1 y2)].
    - destruct (Hid _ _ H2). congruence.
    - destruct (Hid _ _ H1). congruence. }
  destruct I as [I1 I2 I3 I4 I5 I6 I7]. split; split; simpl; try done.
  - by apply Huniq.
  - intros id' r' Hr. destruct (I2 id' r' Hr) as (y & Hy & ?). eauto.
  - intros id' r' [H|H%list_elem_of_singleton]%elem_of_app.
    + destruct (I3 id' r' H) as (y & Hy & ?). eauto.
    + simplify_eq. exists o. split_and!; [done..|]. intros id' Hr. destruct (I2 id' r Hr) as (y & Hy & _). by apply Hlt in Hy.
  - unfold register_refs. rewrite omap_app. simpl. apply NoDup_app. split; [done|]. split; [|apply NoDup_singleton].
    intros r' [id' H]%elem_of_register_refs ->%list_elem_of_singleton. destruct (I3 id' r H) as (y & Hy & _). by apply Hlt in Hy.
  - intros x sub Hx. destruct (I5 x sub Hx) as (? & ? & H3). split_and!; [done..|]. intros id' r' Hr.
    destruct (H3 id' r' Hr) as (y & Hy & ?). eauto.
  - intros r' y [[-> ->]|H]%Hnew; [done|by apply I6].
  - intros r' y [[-> ->]|H]%Hnew; [|by eapply I7]. exists []. split; [apply sublist_nil_l|by left].
  - by apply Huniq.
  - intros id' r' Hr. destruct (I2 id' r' Hr) as (y & Hy & ?). eauto.
  - intros id' r' Hr. destruct (I3 id' r' Hr) as (y & Hy & ?). eauto.
  - intros x sub Hx. destruct (I5 x sub Hx) as (? & ? & H3). split_and!; [done..|]. intros id' r' Hr.
    destruct (H3 id' r' Hr) as (y & Hy & ?). eauto.
  - intros r' y [[-> ->]|H]%Hnew; [done|by apply I6].
  - intros r' y [[-> ->]|H]%Hnew; [|by eapply I7]. exists []. split; [apply sublist_nil_l|by left].
Qed.

Lemma Register_inv ignore m st s s' : sys_inv s -> internalId s < two63 - 1 -> Register ignore m st s = Some s' -> sys_inv s'.
Proof.
  intros [I Hn Hp] Hlt. unfold Register, next_frame.
  rewrite i64_id by (apply is_i64_of_small; lia). set (id := pretty (internalId s + 1)).
  assert (forall r o, ops (tables s) !! r = Some o -> op_id o <> id) as Hid.
  { intros r o Ho. destruct (Hn r o Ho) as (k & Hk & ->). intros E%(inj pretty). lia. }
  destruct (new_op_inv (tables s) (commands s) (handled s) id m st I Hid) as [I1 I2].
  intros (s1 & H1 & [= <-])%bind_Some. apply sendCmd_spec in H1 as [[-> ->]|[-> ->]]; (split; [done| |simpl; lia]); simpl;
    (intros r o [H|[_ H]]%lookup_app_Some;
      [destruct (Hn r o H) as (k & Hk & ->); exists k; split; [lia|done]
      |exists (internalId s + 1); split; [lia|]; destruct (r - _)%nat; simpl in H; [|done]; by injection H as <-]).
Qed.

Section Steps.
Context `{MR : MapRange} (specs : Registry) (methodSpec : string).

Lemma foldl_on_op_ids (f : nat -> GenericRequestOp -> GenericRequestOp) l t :
  (forall r o, op_id (f r o) = op_id o) -> same_ids t (foldl (fun t r => on_op r (f r) t) t l).
Proof using Type.
  intros Hf. revert t. induction l as [|x l IH]; intros t; simpl; [by apply same_ids_refl|].
  eapply same_ids_trans; [|apply IH]. by apply on_op_same_ids.
Qed.

Lemma handle_rpc_ids quit late m t t' : handle_rpc specs methodSpec quit late m t = Some t' -> same_ids t t'.
Proof using Type.
  unfold handle_rpc. destruct (_ !! ws_Id m) as [r|]; [|by intros [= <-]; apply same_ids_refl]. cbv zeta.
  set (t1 := set_requests _ t). assert (same_ids t t1) as H1 by (by apply same_ids_refl).
  assert (forall q T, same_ids T (on_op r (write_internal q m) T)) as Hw
    by (intros; apply on_op_same_ids; intros; apply write_internal_frame).
  destruct (ops t1 !! r) as [o|] eqn:Ho; [|done]. destruct (op_completed o); [by intros [= <-]|].
  destruct (_ && _); [|intros [= <-]; by eapply same_ids_trans].
  destruct (op_SetSubID _ _) as [o'|] eqn:Ho'; [|done]. intros [= <-]. eapply same_ids_trans; [|apply Hw].
  apply (same_ids_trans _ (on_op r (fun _ => if late then op_Cancel o' else o') t1)); [|destruct (_ && _); by apply same_ids_refl].
  eapply same_ids_trans; [exact H1|]. apply on_op_same_ids. intros x Hx. simplify_eq.
  destruct (op_SetSubID_frame _ _ _ Ho') as (<- & _). destruct late; [apply op_Cancel_frame|done].
Qed.

Lemma handle_finish_ids r t : same_ids t (handle_finish r t).1.
Proof using Type.
  assert (same_ids t (on_op r op_Cancel t)) as H by (apply on_op_same_ids; intros; apply op_Cancel_frame).
  unfold handle_finish. destruct (_ !! r) as [o|]; [|done]. case_bool_decide; [done|].
  destruct (_ !! op_subId o); [|done]. case_bool_decide; (eapply same_ids_trans; [exact H|by apply same_ids_refl]).
Qed.

Lemma handle_inv quit late cmd rest h s : sys_inv s -> commands s = rest -> handled s = h ++ [cmd] ->
  inv (tables s) (cmd :: rest) h -> sys_inv (handle specs methodSpec quit late cmd s).
Proof using Type.
  intros Hs Hc Hh I. pose proof Hs as [I' Hn Hp]. rewrite Hc, Hh in I'.
  assert (forall t, inv t rest (h ++ [cmd]) -> same_ids (tables s) t -> sys_inv (set_tables t s)) as Hgo.
  { intros t It Hl. apply sys_inv_tables; [done|by rewrite Hc, Hh|done]. }
  assert (forall o, op_id (stop_op o) = op_id o) as Hstop by (intros; apply stop_op_keeps).
  destruct cmd as [id r|id|m|m|r caller|]; cbn [handle].
  - apply Hgo; [by apply handle_register_inv|by apply same_ids_refl].
  - apply Hgo; [by apply handle_abort_inv|]. unfold handle_abort. destruct (_ !! id); [|by apply same_ids_refl].
    apply (same_ids_trans _ (set_requests (delete id (requests (state (tables s)))) (tables s))); [by apply same_ids_refl|].
    by apply on_op_same_ids.
  - destruct (handle_rpc _ _ _ _ _ _) as [t|] eqn:E; [|destruct Hs; by split].
    apply Hgo; [eapply handle_rpc_inv; [done| |done]; apply elem_of_app; right; by left|by eapply handle_rpc_ids].
  - apply Hgo; [by apply handle_subscription_inv, (inv_drop _ _ _ _ I)|].
    unfold handle_subscription. destruct (_ !! ws_SubId m); [|by apply same_ids_refl].
    apply foldl_on_op_ids. intros. apply write_internal_frame.
  - pose proof (handle_finish_inv r (tables s) _ _ I') as If. pose proof (handle_finish_ids r (tables s)) as Hf.
    destruct (handle_finish r (tables s)) as [t res]. destruct (Hgo t If Hf). by split.
  - apply Hgo; [by apply handle_cancelAll_inv|]. unfold handle_cancelAll.
    apply (same_ids_trans _ (mkTables (ops (tables s)) (mkRegistryState ∅ ∅))); [by apply same_ids_refl|].
    by apply (foldl_on_op_ids (fun _ => stop_op)).
Qed.

Lemma step_inv a s s' : sys_inv s -> step specs methodSpec a s = Some s' -> sys_inv s'.
Proof using Type.
  intros Hs. unfold step. destruct (crashed s); [done|]. destruct a.
  - destruct (_ <? _) eqn:E; [|done]. reflect_bool. by apply Register_inv.
  - destruct (_ <? _) eqn:E; [|done]. intros [= <-]. reflect_bool. destruct Hs as [I Hn Hp]. unfold next_frame.
    rewrite i64_id by (apply is_i64_of_small; lia). split; simpl; [done| |lia]. intros r o Ho.
    destruct (Hn r o Ho) as (k & Hk & ?). exists k. split; [lia|done].
  - unfold run_command. destruct (commands s) as [|cmd rest] eqn:Ec; [done|]. intros [= <-].
    destruct Hs as [I Hn]. rewrite Ec in I. apply (handle_inv _ _ _ rest (handled s)); [|done..].
    split; [|done..]. by apply inv_dequeue.
  - unfold deliver. intros (o & Ho & H)%bind_Some. destruct (op_running o); [|done].
    destruct (op_internal o) as [|m rest] eqn:Ei; [done|]. destruct (write_response _ _ _) as [o'|] eqn:Ew.
    2: { simplify_eq. destruct Hs. by split. }
    simplify_eq. apply sys_inv_on_op; [done|]. intros o2 Ho2. simplify_eq.
    pose proof (write_response_keeps _ _ _ _ _ Ei Ew) as K. destruct (ws_Error m); [|done].
    etransitivity; [done|apply op_Cancel_keeps].
  - unfold op_finish. intros (o & Ho & H)%bind_Some. destruct (_ && _); [|done]. eapply closeReq_inv; [|done].
    apply sys_inv_on_op; [done|]. intros o2 _. by split.
  - unfold closeReq_end. intros (c & Hc & H)%bind_Some. destruct (cc_ended c); [done|].
    apply bind_Some in H as (b & Hb & H). apply bind_Some in H as (o & Ho & [= <-]).
    pose proof (sys_inv_on_op (cc_op c) op_Cancel s Hs) as Hk. destruct Hk as [I Hn]; [intros; apply op_Cancel_keeps|]. by split.
  - unfold Cancel. destruct (_ !! opId); [|by intros [= <-]]. apply closeReq_inv. destruct Hs. by split.
  - unfold Abort. intros (s1 & H1 & [= <-])%bind_Some. apply sendCmd_inv in H1; [destruct H1; by split|by intros []|done].
  - apply sendCmd_inv; [by intros []|done].
  - apply sendCmd_inv; [by intros []|done].
  - apply sendCmd_inv; [by intros []|done].
  - intros (o & Ho & [= <-])%bind_Some. apply sys_inv_on_op; [done|]. intros o2 _. by split.
  - intros (o & Ho & H)%bind_Some. destruct (_ && _); [|done]. simplify_eq. apply sys_inv_on_op; [done|]. intros o2 _. by split.
  - unfold read_response. intros (o & Ho & H)%bind_Some. destruct (op_responses o) as [|m rest] eqn:Er; [done|].
    simplify_eq. apply sys_inv_on_op; [done|]. intros o2 Ho2. simplify_eq. split; try done.
    unfold got. simpl. rewrite Er. by rewrite <- app_assoc.
  - intros [= <-]. destruct Hs. by split.
Qed.

Lemma steps_inv l s s' : sys_inv s -> steps specs methodSpec l s = Some s' -> sys_inv s'.
Proof using Type.
  revert s. induction l as [|a l IH]; intros s Hs; simpl; [by intros [= <-]|].
  intros (s1 & H1 & H2)%bind_Some. eapply IH; [|done]. by eapply step_inv.
Qed.

Lemma initial_inv : sys_inv NewGenericRequestRegistry.
Proof using Type.
  split; [|done..]. split; simpl; try done; try (intros ? ?; by rewrite lookup_empty).
  - intros id r Hin. by apply elem_of_nil in Hin.
  - constructor.
Qed.
End Steps.

(** Whatever the interleaving of the node's messages, the registry's loop and
    the goroutines of the operations, an operation gets at most the answer with
    its own identifier, followed by messages of its own subscription in the order
    in which the connection delivered them. *)
Theorem ws_messages_own `{MapRange} specs methodSpec l s r o :
  steps specs methodSpec l NewGenericRequestRegistry = Some s -> ops (tables s) !! r = Some o ->
  own_messages (handled s) o.
Proof.
  intros Hl Ho. destruct (steps_inv _ _ _ _ _ initial_inv Hl) as [I _]. by apply (inv_own _ _ _ I r).
Qed.

(** C28.  A subscription is kept while an operation uses it: a message of the
    subscription is put into the channel of every operation that is not finished
    and has room, and no finish command of another operation makes the registry
    unsubscribe from the node. *)
Theorem subscription_kept_while_used `{MapRange} specs methodSpec l s r o :
  steps specs methodSpec l NewGenericRequestRegistry = Some s -> ops (tables s) !! r = Some o ->
  op_completed o = false -> op_subId o <> "" ->
  (forall quit m, ws_SubId m = op_subId o -> op_ctxDone o = false -> has_room o (op_internal o) = true ->
     exists o', ops (handle_subscription quit m (tables s)) !! r = Some o' /\ op_internal o' = op_internal o ++ [m]) /\
  (forall r' o', r' <> r -> ops (tables s) !! r' = Some o' -> op_subId o' = op_subId o ->
     (handle_finish r' (tables s)).2 = false).
Proof.
  intros Hl Ho Hc Hs. destruct (steps_inv _ _ _ _ _ initial_inv Hl) as [I _].
  destruct (inv_live _ _ _ I r o Ho Hs Hc) as (sub & Hx & Hr). split.
  - intros quit m Hm Hd Hroom. unfold handle_subscription. rewrite Hm, Hx.
    pose proof (sub_refs_NoDup _ _ _ _ _ I Hx) as Hnd. rewrite (proj2 (foldl_on_op _ _ _ r Hnd)).
    rewrite decide_True by (apply elem_of_range_values; eauto). rewrite Ho. simpl. eexists. split; [done|].
    unfold write_internal. rewrite Hd. simpl. by rewrite Hroom.
  - intros r' o' Hne Ho' Hsub. unfold handle_finish. rewrite lookup_on_op, decide_True, Ho' by done. simpl.
    destruct (op_Cancel_frame o') as (-> & -> & _). rewrite Hsub. case_bool_decide; [done|]. rewrite Hx.
    rewrite bool_decide_eq_true_2; [done|]. intros E. assert (delete (op_id o') (sub_ops sub) !! op_id o = Some r) as Hin.
    { rewrite lookup_delete_ne; [done|]. intros E'. apply Hne. by eapply (inv_same_id _ _ _ _ _ o' o I). }
    by rewrite E, lookup_empty in Hin.
Qed.

(** ** Runs *)

Definition always (b : bool) : nat -> bool := fun _ => b.

Definition answer_of (id result : string) : WsResponse := mkWsResponse id "" result JsonRpc None "".
Definition event_of (subId result : string) : WsResponse := mkWsResponse "" subId result Ws None "".

Definition demo_actions : list action :=
  [ARegister false "eth_subscribe" "newHeads"; ACommand (always false) false;
   AMessage false (answer_of "101" "0x7"); ACommand (always false) false;
   ASubscriptionMessage false (event_of "0x7" "head"); ACommand (always false) false; ADeliver false 0].

#[local] Existing Instance Prelude.default_range.

Definition run_demo (l : list action) : option System := steps demo_registry "eth" l NewGenericRequestRegistry.

Definition op_summary (s : option System) : option (string * bool * list WsResponse) :=
  s' ← s; o ← ops (tables s') !! 0%nat; Some (op_subId o, op_completed o, got o).

Example demo_run_summary :
  op_summary (run_demo demo_actions) = Some ("0x7", false, [answer_of "101" "0x7"; event_of "0x7" "head"]).
Proof. vm_compute. reflexivity. Qed.

Lemma demo_run : exists s o, run_demo demo_actions = Some s /\ ops (tables s) !! 0%nat = Some o /\
  op_completed o = false /\ op_subId o <> "".
Proof.
  pose proof demo_run_summary as Hs. unfold op_summary in Hs. destruct (run_demo demo_actions) as [s|]; [|done].
  simpl in Hs. destruct (ops (tables s) !! 0%nat) as [o|] eqn:Ho; [|done]. simpl in Hs. exists s, o.
  injection Hs as H1 H2 H3. split_and!; [done..|]. by rewrite H1.
Qed.

Lemma ws_messages_own_witness :
  exists s o, run_demo demo_actions = Some s /\ ops (tables s) !! 0%nat = Some o /\ own_messages (handled s) o.
Proof.
  destruct demo_run as (s & o & Hs & Ho & _). exists s, o. split; [exact Hs|]. split; [exact Ho|].
  exact (ws_messages_own demo_registry "eth" demo_actions s 0 o Hs Ho).
Defined.

Lemma subscription_kept_while_used_witness :
  exists s o, run_demo demo_actions = Some s /\ ops (tables s) !! 0%nat = Some o /\
    forall r' o', r' <> 0%nat -> ops (tables s) !! r' = Some o' -> op_subId o' = op_subId o ->
      (handle_finish r' (tables s)).2 = false.
Proof.
  destruct demo_run as (s & o & Hs & Ho & Hc & Hx). exists s, o. split; [exact Hs|]. split; [exact Ho|].
  exact (proj2 (subscription_kept_while_used demo_registry "eth" demo_actions s 0 o Hs Ho Hc Hx)).
Defined.

(** A client that leaves before its subscription is confirmed: the confirmation is
    dropped and the subscription stays open at the node, without an operation and
    without a request to unsubscribe. *)
Definition abandoned_actions : list action :=
  [ARegister false "eth_subscribe" "newHeads"; AContextDone 0; AFinish false 0;
   ACommand (always false) false; ACommand (always false) false; ACloseEnd false 0;
   AMessage false (answer_of "101" "0x7"); ACommand (always false) false].

Lemma abandoned_subscription_not_closed :
  match run_demo abandoned_actions with
  | Some s => unsubscribed s = [] /\ state (tables s) = mkRegistryState ∅ ∅ /\ commands s = [] /\
              map cc_ended (calls s) = [true]
  | None => False
  end.
Proof. vm_compute. done. Qed.

(** The response channel is closed by a timer after the cancellation; the
    goroutine of the operation may still write a message it took before. *)
Definition late_write_actions : list action :=
  [ARegister false "eth_subscribe" "newHeads"; ACommand (always false) false;
   AMessage false (answer_of "101" "0x7"); ACommand (always false) false;
   ACancelAll false; ACommand (always false) false; ACloseChannel 0; ADeliver false 0].

Lemma late_write_panics : crashed <$> run_demo late_write_actions = Some true.
Proof. vm_compute. reflexivity. Qed.
