(* ===== verification/Methods.v ===== *)
(** The methods an upstream and a chain support, and the aggregation of the
    method detectors ([internal/upstreams/methods/methods.go],
    [methods_processor.go], [detector.go]). *)

From S2P Require Import Prelude.
From S2P Require Import Specs.

(** ** The [Methods] interface

    What the rest of the program may rely on: the set of names, the membership
    test and the lookup agree. *)

Class MethodsI (M : Type) := {
  GetSupportedMethods : M -> gset string;
  HasMethod : M -> string -> bool;
  GetMethod : M -> string -> option Method;
}.

Class MethodsLaws (M : Type) `{MethodsI M} (valid : M -> Prop) := {
  HasMethod_supported : forall m n, valid m ->
    HasMethod m n = true <-> n ∈ GetSupportedMethods m;
  GetMethod_supported : forall m n, valid m ->
    is_Some (GetMethod m n) <-> n ∈ GetSupportedMethods m;
}.

(** ** The methods of one upstream *)

Record MethodsConfig := mkMethodsConfig {
  EnableMethods : list string;
  DisableMethods : list string;
}.

Record UpstreamMethods := mkUpstreamMethods {
  availableMethods : gmap string Method;
  methodNames : gset string;
}.

#[export] Instance UpstreamMethods_methods : MethodsI UpstreamMethods := {
  GetSupportedMethods u := methodNames u;
  HasMethod u n := bool_decide (n ∈ methodNames u);
  GetMethod u n := if bool_decide (n ∈ methodNames u) then availableMethods u !! n else None;
}.

(** One iteration of the loop over the disabled names. *)
Definition disable_method (specMethods : GroupMap) (avail : gmap string Method)
    (disabled : string) : gmap string Method :=
  match specMethods !! disabled with
  | Some methodGroup => avail ∖ methodGroup
  | None => delete disabled avail
  end.

(** One iteration of the loop over the enabled names. *)
Definition enable_method (reg : Registry) (specName : string) (specMethods : GroupMap)
    (avail : gmap string Method) (enabled : string) : gmap string Method :=
  match specMethods !! enabled with
  | Some methodGroup => methodGroup ∪ avail
  | None =>
    match defaultMethods specMethods !! enabled with
    | Some method => <[enabled := method]> avail
    | None => <[enabled := DefaultMethodWithConnectorTypes enabled
                             (GetSpecConnectors reg specName)]> avail
    end
  end.

Definition NewUpstreamMethods `{MapRange} (reg : Registry) (methodSpecName : string)
    (methodsConfig : option MethodsConfig) (apiConnectorTypes : list ApiConnectorType)
    : option UpstreamMethods :=
  let cfg := default (mkMethodsConfig [] []) methodsConfig in
  specMethods ← GetSpecMethodsByConnectors reg methodSpecName apiConnectorTypes;
  let avail := defaultMethods specMethods in
  let avail := foldl (disable_method specMethods) avail (DisableMethods cfg) in
  let avail := foldl (enable_method reg methodSpecName specMethods) avail (EnableMethods cfg) in
  Some (mkUpstreamMethods avail (dom avail)).

(** ** The methods of a chain: the union over its upstreams *)

Record ChainMethods (M : Type) := mkChainMethods {
  delegates : list M;
  chainAvailable : gset string;
}.
Arguments mkChainMethods {M} _ _.
Arguments delegates {M} _.
Arguments chainAvailable {M} _.

Section Chain.
Context {M : Type} `{MethodsI M}.

Definition NewChainMethods (ds : list M) : ChainMethods M :=
  mkChainMethods ds (foldl (fun acc d => acc ∪ GetSupportedMethods d) ∅ ds).

Fixpoint chain_GetMethod (ds : list M) (n : string) : option Method :=
  match ds with
  | [] => None
  | d :: ds' => if HasMethod d n then GetMethod d n else chain_GetMethod ds' n
  end.

#[export] Instance ChainMethods_methods : MethodsI (ChainMethods M) := {
  GetSupportedMethods c := chainAvailable c;
  HasMethod c n := bool_decide (n ∈ chainAvailable c);
  GetMethod c n := chain_GetMethod (delegates c) n;
}.
End Chain.

(** ** Config-enabled methods *)

Definition IsForceEnabled (methodsConfig : option MethodsConfig) (method : option Method) : bool :=
  match methodsConfig, method with
  | Some cfg, Some m =>
    existsb (fun e =>
      bool_decide (e = Name m) || bool_decide (e = DefaultMethodGroup) ||
      (negb (bool_decide (Group m = "")) && bool_decide (e = Group m)) ||
      (bool_decide (e = SubMethodGroup) && IsSubscribe m)) (EnableMethods cfg)
  | _, _ => false
  end.

(** ** Method detection *)

Section Processor.
(** [verdicts] is what the detectors answered this round: [None] is "never
    found out".  [latest] keeps each detector's last answer. *)
Definition detect_merge (latest verdicts : list (option (gset string)))
    : list (option (gset string)) :=
  zip_with (fun l v => match v with Some _ => v | None => l end) latest verdicts.

Definition merged (latest : list (option (gset string))) : gset string :=
  foldl (fun acc l => match l with Some s => acc ∪ s | None => acc end) ∅ latest.

Definition anyOpinion (latest : list (option (gset string))) : bool :=
  existsb (fun l => match l with Some _ => true | None => false end) latest.

Definition detect (latest verdicts : list (option (gset string)))
    : list (option (gset string)) * (gset string * bool) :=
  let latest := detect_merge latest verdicts in
  (latest, (merged latest, anyOpinion latest)).

Record ProcessorState := mkProcessorState {
  proc_latest : list (option (gset string));
  proc_published : option (gset string);
}.

(** The state after a round and the set it publishes, if any. *)
Definition detectAndPublish (st : ProcessorState) (verdicts : list (option (gset string)))
    : ProcessorState * option (gset string) :=
  let '(latest, (m, opinion)) := detect (proc_latest st) verdicts in
  if negb opinion then (mkProcessorState latest (proc_published st), None)
  else if bool_decide (proc_published st = Some m)
  then (mkProcessorState latest (proc_published st), None)
  else (mkProcessorState latest (Some m), Some m).

Definition initial_processor (detectors : nat) : ProcessorState :=
  mkProcessorState (replicate detectors None) None.
End Processor.

Definition DetectableMethods `{MapRange} (reg : Registry) (specName : string)
    (connectorTypes : list ApiConnectorType) : gset string :=
  match connectorTypes with
  | [] => ∅
  | _ =>
    match GetSpecMethodsByConnectors reg specName connectorTypes with
    | None => ∅
    | Some specMethods => dom (filter (fun '(_, m) => local m = false) (defaultMethods specMethods))
    end
  end.

(** ** Facts about the loops *)

(** A configured name stands for a whole group when a group has that name. *)
Definition covers (specMethods : GroupMap) (name method : string) : Prop :=
  match specMethods !! name with
  | Some g => is_Some (g !! method)
  | None => name = method
  end.

Lemma disable_method_lookup sm avail d n :
  is_Some (disable_method sm avail d !! n) <-> is_Some (avail !! n) /\ ~ covers sm d n.
Proof.
  unfold disable_method, covers. destruct (sm !! d) as [g|].
  - rewrite lookup_difference. destruct (g !! n); naive_solver.
  - rewrite lookup_delete. case_decide; naive_solver.
Qed.

Lemma disable_methods_lookup sm ds avail n :
  is_Some (foldl (disable_method sm) avail ds !! n) <->
  is_Some (avail !! n) /\ forall d, d ∈ ds -> ~ covers sm d n.
Proof.
  revert avail. induction ds as [|d ds IH]; intros avail; simpl.
  - split; [|by intros [? _]]. intros ?. split; [done|]. by intros d ?%elem_of_nil.
  - rewrite IH, disable_method_lookup. setoid_rewrite elem_of_cons. naive_solver.
Qed.

Lemma enable_method_lookup reg sn sm avail e n :
  is_Some (enable_method reg sn sm avail e !! n) <-> is_Some (avail !! n) \/ covers sm e n.
Proof.
  unfold enable_method, covers. destruct (sm !! e) as [g|].
  - rewrite lookup_union. destruct (g !! n) eqn:E, (avail !! n); naive_solver.
  - destruct (defaultMethods sm !! e); rewrite lookup_insert; case_decide; naive_solver.
Qed.

Lemma enable_methods_lookup reg sn sm es avail n :
  is_Some (foldl (enable_method reg sn sm) avail es !! n) <->
  is_Some (avail !! n) \/ exists e, e ∈ es /\ covers sm e n.
Proof.
  revert avail. induction es as [|e es IH]; intros avail; simpl.
  - split; [by left|]. intros [?|(e & ?%elem_of_nil & _)]; done.
  - rewrite IH, enable_method_lookup. setoid_rewrite elem_of_cons. naive_solver.
Qed.

(** The composition rule: a method is available iff the configuration enables
    it, or the spec's default group has it and nothing disables it. *)
Lemma NewUpstreamMethods_available `{MapRange} reg sn cfg cs sm um :
  GetSpecMethodsByConnectors reg sn cs = Some sm ->
  NewUpstreamMethods reg sn (Some cfg) cs = Some um ->
  forall n, n ∈ GetSupportedMethods um <->
    (exists e, e ∈ EnableMethods cfg /\ covers sm e n) \/
    (is_Some (defaultMethods sm !! n) /\ forall d, d ∈ DisableMethods cfg -> ~ covers sm d n).
Proof.
  unfold NewUpstreamMethods. intros Hsm. rewrite Hsm. simpl. intros [= <-] n. simpl.
  rewrite elem_of_dom, enable_methods_lookup, disable_methods_lookup. tauto.
Qed.

Lemma NewUpstreamMethods_some `{MapRange} reg sn cfg cs :
  is_Some (NewUpstreamMethods reg sn cfg cs) <-> is_Some (GetSpecMethodsByConnectors reg sn cs).
Proof.
  unfold NewUpstreamMethods. destruct (GetSpecMethodsByConnectors reg sn cs); simpl; naive_solver.
Qed.

(** [methodNames] is the key set of [availableMethods]. *)
Definition upstream_methods_ok (u : UpstreamMethods) : Prop :=
  methodNames u = dom (availableMethods u).

Lemma NewUpstreamMethods_ok `{MapRange} reg sn cfg cs um :
  NewUpstreamMethods reg sn cfg cs = Some um -> upstream_methods_ok um.
Proof.
  unfold NewUpstreamMethods. destruct (GetSpecMethodsByConnectors reg sn cs); naive_solver.
Qed.

#[export] Instance UpstreamMethods_laws : MethodsLaws UpstreamMethods upstream_methods_ok.
Proof.
  split; intros m n Hok; simpl.
  - apply bool_decide_eq_true.
  - case_bool_decide as Hin; rewrite Hok in *.
    + split; [done|]. intros _. by apply elem_of_dom.
    + split; [by intros [? ?]|done].
Qed.

Lemma chain_union {M : Type} `{MethodsI M} (ds : list M) acc n :
  n ∈ foldl (fun acc d => acc ∪ GetSupportedMethods d) acc ds <->
  n ∈ acc \/ exists d, d ∈ ds /\ n ∈ GetSupportedMethods d.
Proof.
  revert acc. induction ds as [|d ds IH]; intros acc; simpl; [set_solver|].
  rewrite IH. set_solver.
Qed.

Section ChainFacts.
Context {M : Type} `{MethodsI M} {valid : M -> Prop} `{!MethodsLaws M valid}.

Definition chain_methods_ok (c : ChainMethods M) : Prop :=
  c = NewChainMethods (delegates c) /\ Forall valid (delegates c).

Lemma chain_GetMethod_some (ds : list M) n :
  Forall valid ds ->
  is_Some (chain_GetMethod ds n) <-> exists d, d ∈ ds /\ n ∈ GetSupportedMethods d.
Proof using All.
  induction 1 as [|d ds Hd Hds IH]; simpl.
  - split; [by intros [? ?]|]. by intros (d & ?%elem_of_nil & _).
  - destruct (HasMethod d n) eqn:E.
    + rewrite HasMethod_supported in E by done.
      rewrite GetMethod_supported by done. set_solver.
    + assert (n ∉ GetSupportedMethods d).
      { intros Hin. rewrite <- HasMethod_supported in Hin by done. congruence. }
      rewrite IH. set_solver.
Qed.

(** A chain built over lawful upstreams is lawful. *)
#[export] Instance ChainMethods_laws : MethodsLaws (ChainMethods M) chain_methods_ok.
Proof using All.
  split; intros c n [Hc Hv]; simpl; [apply bool_decide_eq_true|].
  rewrite chain_GetMethod_some by done.
  replace (chainAvailable c) with (chainAvailable (NewChainMethods (delegates c)))
    by (by rewrite <- Hc).
  simpl. rewrite chain_union. set_solver.
Qed.
End ChainFacts.

(** The methods of a chain are exactly the union of its upstreams' methods,
    and looking one up finds the definition of some upstream that has it:
    [ChainMethods] keeps the promise of the [Methods] interface whenever the
    upstreams' own method sets were built by [NewUpstreamMethods]. *)
Theorem chain_methods_union `{MapRange} reg sn cfgs cs ums n :
  Forall2 (fun cfg um => NewUpstreamMethods reg sn cfg cs = Some um) cfgs ums ->
  (HasMethod (NewChainMethods ums) n = true <-> exists um, um ∈ ums /\ HasMethod um n = true) /\
  (is_Some (GetMethod (NewChainMethods ums) n) <-> HasMethod (NewChainMethods ums) n = true).
Proof.
  intros Hf.
  assert (Forall upstream_methods_ok ums) as Hok.
  { clear n. induction Hf; constructor; eauto using NewUpstreamMethods_ok. }
  assert (chain_methods_ok (valid := upstream_methods_ok) (NewChainMethods ums)) as Hc by done.
  split.
  - rewrite (HasMethod_supported _ _ Hc). pose proof (chain_union ums ∅ n) as Hu.
    simpl in *. rewrite Hu. setoid_rewrite bool_decide_eq_true. set_solver.
  - rewrite (GetMethod_supported _ _ Hc), (HasMethod_supported _ _ Hc). done.
Qed.

#[local] Existing Instance Prelude.default_range.

Lemma chain_methods_union_witness :
  let ums := [mkUpstreamMethods (defaultMethods demo_groups) (dom (defaultMethods demo_groups))] in
  (HasMethod (NewChainMethods ums) "eth_call" = true <->
     exists um, um ∈ ums /\ HasMethod um "eth_call" = true) /\
  (is_Some (GetMethod (NewChainMethods ums) "eth_call") <->
     HasMethod (NewChainMethods ums) "eth_call" = true).
Proof.
  intros ums. apply (chain_methods_union demo_registry "eth" [None] [] ums "eth_call").
  repeat constructor.
Defined.

(** ** Config enable wins, and [IsForceEnabled] reads it back *)

(** No method is called like a group. *)
Definition names_apart (sm : GroupMap) : Prop :=
  forall n, is_Some (defaultMethods sm !! n) -> sm !! n = None.

(** Methods are stored under their own name, in the group they declare. *)
Definition groups_named (sm : GroupMap) : Prop :=
  forall g n m, is_synthetic g = false -> group_methods sm g !! n = Some m ->
    Name m = n /\ Group m = g.

Lemma group_methods_covers sm g n :
  is_Some (sm !! g) -> covers sm g n <-> is_Some (group_methods sm g !! n).
Proof. intros [ms Hg]. unfold covers, group_methods. by rewrite Hg. Qed.

Lemma IsForceEnabled_covers sm cfg n m :
  groups_wf sm -> names_apart sm -> groups_named sm -> sm !! "" = None ->
  defaultMethods sm !! n = Some m ->
  IsForceEnabled (Some cfg) (Some m) = true <->
  exists e, e ∈ EnableMethods cfg /\ covers sm e n.
Proof.
  intros Hwf Hap Hnm Hempty Hm. simpl. rewrite existsb_exists.
  setoid_rewrite list_elem_of_In. apply exist_proper. intros e. apply and_iff_compat_l.
  destruct (wf_owner _ Hwf _ _ Hm) as (g & Hg & Hgm).
  destruct (Hnm _ _ _ Hg Hgm) as [<- Hgr]. pose proof Hg as [Hg1 Hg2]%not_synthetic.
  rewrite !orb_true_iff, !andb_true_iff, negb_true_iff, !bool_decide_eq_true,
    bool_decide_eq_false.
  destruct (sm !! e) as [ms|] eqn:He.
  - rewrite group_methods_covers by done.
    assert (e <> Name m). { intros ->. by rewrite Hap in He. }
    destruct (decide (e = DefaultMethodGroup)) as [->|]; [split; [eauto|tauto]|].
    destruct (decide (e = SubMethodGroup)) as [->|].
    + fold (subMethods sm). split.
      * intros [[[?|?]|[? ?]]|[_ Hs]]; try done; [|].
        -- congruence.
        -- exists m. by apply (wf_sub_iff _ Hwf).
      * intros [m' Hm']. apply (wf_sub_iff _ Hwf) in Hm' as [? ?]. right. split; [done|]. congruence.
    + split.
      * intros [[[?|?]|[? ->]]|[? _]]; try done. rewrite Hgr. eauto.
      * intros Hs. left. right.
        assert (e = g) as -> by (eapply wf_unique; eauto; by apply not_synthetic).
        split; [|by rewrite Hgr]. rewrite Hgr. intros ->. congruence.
  - unfold covers. rewrite He. split.
    + intros [[[?|?]|[? ?]]|[? _]]; try done; subst.
      * destruct (wf_default _ Hwf). congruence.
      * unfold group_methods in Hgm. rewrite He in Hgm. done.
      * destruct (wf_sub _ Hwf). congruence.
    + intros ->. tauto.
Qed.

(** [IsForceEnabled] is the read side of [NewUpstreamMethods]: for a method
    of the spec it answers true exactly when no list of disabled names (bans and
    detected gaps included) can take the method away. *)
Theorem IsForceEnabled_iff_unbannable `{MapRange} reg sn cs sm cfg n m :
  GetSpecMethodsByConnectors reg sn cs = Some sm ->
  groups_wf sm -> names_apart sm -> groups_named sm -> sm !! "" = None ->
  defaultMethods sm !! n = Some m -> GetSpecMethod reg sn n = Some m ->
  IsForceEnabled (Some cfg) (Some (GetSpecMethodWithFallback reg sn n)) = true <->
  (forall disabled um,
     NewUpstreamMethods reg sn (Some (mkMethodsConfig (EnableMethods cfg) disabled)) cs = Some um ->
     HasMethod um n = true).
Proof.
  intros Hsm Hwf Hap Hnm Hempty Hm Hspec.
  assert (GetSpecMethodWithFallback reg sn n = m) as ->.
  { unfold GetSpecMethodWithFallback. by rewrite Hspec. }
  rewrite (IsForceEnabled_covers sm cfg n m) by done. split.
  - intros Hen ds um Hum. rewrite HasMethod_supported by (by eapply NewUpstreamMethods_ok).
    eapply NewUpstreamMethods_available; [done..|]. by left.
  - intros Hall.
    destruct (NewUpstreamMethods reg sn
      (Some (mkMethodsConfig (EnableMethods cfg) [n])) cs) as [um|] eqn:Hum.
    + specialize (Hall _ _ Hum).
      rewrite HasMethod_supported in Hall by (by eapply NewUpstreamMethods_ok).
      eapply NewUpstreamMethods_available in Hall; [|done..].
      destruct Hall as [Hen|[_ Hdis]]; [done|]. exfalso. apply (Hdis n); [by left|].
      unfold covers. by rewrite Hap by eauto.
    + assert (is_Some (GetSpecMethodsByConnectors reg sn cs)) as Hs by eauto.
      rewrite <- (NewUpstreamMethods_some reg sn
        (Some (mkMethodsConfig (EnableMethods cfg) [n]))) in Hs.
      rewrite Hum in Hs. by apply is_Some_None in Hs.
Qed.

Lemma demo_default n x :
  defaultMethods demo_groups !! n = Some x ->
  (n = "eth_subscribe" /\ x = demo_sub) \/ (n = "eth_call" /\ x = demo_call).
Proof.
  replace (defaultMethods demo_groups)
    with (<["eth_subscribe" := demo_sub]> {["eth_call" := demo_call]} : gmap string Method)
    by (by vm_compute).
  rewrite lookup_insert. case_decide; [naive_solver|].
  rewrite lookup_singleton_Some. naive_solver.
Qed.

Lemma demo_group g n x :
  is_synthetic g = false -> group_methods demo_groups g !! n = Some x ->
  Name x = n /\ Group x = g.
Proof.
  replace demo_groups with
    (<["subs" := {["eth_subscribe" := demo_sub]}]>
      (<["common" := {["eth_call" := demo_call]}]>
        (<["sub" := {["eth_subscribe" := demo_sub]}]>
          {["default" := <["eth_subscribe" := demo_sub]> {["eth_call" := demo_call]}]})) : GroupMap)
    by (by vm_compute).
  intros [Hd Hs]%not_synthetic. unfold group_methods. rewrite !lookup_insert.
  repeat case_decide; subst; simpl; rewrite ?lookup_singleton_Some; try naive_solver.
  rewrite lookup_singleton_ne by done. done.
Qed.

Lemma IsForceEnabled_iff_unbannable_witness :
  IsForceEnabled (Some (mkMethodsConfig ["subs"] []))
    (Some (GetSpecMethodWithFallback demo_registry "eth" "eth_subscribe")) = true <->
  (forall disabled um,
     NewUpstreamMethods demo_registry "eth" (Some (mkMethodsConfig ["subs"] disabled)) [] = Some um ->
     HasMethod um "eth_subscribe" = true).
Proof.
  apply (IsForceEnabled_iff_unbannable demo_registry "eth" [] demo_groups
    (mkMethodsConfig ["subs"] []) "eth_subscribe" demo_sub); try reflexivity.
  - apply methodGroups_add_wf; [|done|done].
    apply methodGroups_add_wf; [apply newMethodGroups_wf|done|done].
  - by intros n [x [[-> _]|[-> _]]%demo_default].
  - intros g n x. apply demo_group.
Defined.

(** ** Detection rounds *)

(** The last answer of detector [i] over the rounds so far. *)
Definition last_answer (rounds : list (list (option (gset string)))) (i : nat)
    : option (gset string) :=
  last (omap (fun r => mjoin (r !! i)) rounds).

Definition run_detection (detectors : nat) (rounds : list (list (option (gset string))))
    : ProcessorState :=
  foldl (fun st r => (detectAndPublish st r).1) (initial_processor detectors) rounds.

Lemma detectAndPublish_latest st r :
  proc_latest (detectAndPublish st r).1 = detect_merge (proc_latest st) r.
Proof.
  unfold detectAndPublish, detect.
  destruct (negb _); [done|]. by case_bool_decide.
Qed.

Lemma run_detection_latest n rounds i :
  Forall (fun r => length r = n) rounds -> (i < n)%nat ->
  proc_latest (run_detection n rounds) !! i = Some (last_answer rounds i) /\
  length (proc_latest (run_detection n rounds)) = n.
Proof.
  intros Hlen Hi. unfold run_detection, last_answer.
  induction rounds as [|r rounds IH] using rev_ind; simpl.
  - rewrite length_replicate. split; [|done]. by apply lookup_replicate.
  - apply Forall_app in Hlen as [Hl [Hr _]%Forall_cons].
    specialize (IH Hl) as [IH1 IH2]. rewrite foldl_snoc, omap_app, detectAndPublish_latest.
    unfold detect_merge. rewrite length_zip_with, IH2, Hr. split; [|lia].
    destruct (lookup_lt_is_Some_2 r i) as [v Hv]; [lia|].
    rewrite lookup_zip_with, IH1, Hv. simpl. rewrite Hv. simpl.
    destruct v; simpl; [by rewrite last_snoc|by rewrite app_nil_r].
Qed.

Lemma run_detection_latest_eq n rounds :
  Forall (fun r => length r = n) rounds ->
  proc_latest (run_detection n rounds) = map (last_answer rounds) (seq 0 n).
Proof.
  intros Hlen. apply list_eq_same_length with n.
  - by rewrite length_map, length_seq.
  - destruct n as [|n]; [|by apply (run_detection_latest (S n) rounds 0 Hlen); lia].
    unfold run_detection. induction rounds as [|r rounds IH] using rev_ind; [done|].
    apply Forall_app in Hlen as [Hl _]. rewrite foldl_snoc, detectAndPublish_latest.
    unfold detect_merge. rewrite length_zip_with, IH by done. done.
  - intros i x y Hi. destruct (run_detection_latest n rounds i Hlen Hi) as [-> _].
    rewrite list_lookup_fmap, lookup_seq_lt by done. simpl. congruence.
Qed.

(** An opinion once formed is never lost. *)
Lemma detect_merge_opinion l r :
  length r = length l -> anyOpinion l = true -> anyOpinion (detect_merge l r) = true.
Proof.
  unfold anyOpinion, detect_merge. revert r. induction l as [|x l IH]; intros [|y r]; simpl;
    try done. intros [= Hlen]. rewrite !orb_true_iff.
  intros [Hx|Hx]; [left; by destruct y|right; by apply IH].
Qed.

Lemma anyOpinion_replicate n : anyOpinion (replicate n None) = false.
Proof. by induction n. Qed.

Lemma run_detection_published n rounds :
  Forall (fun r => length r = n) rounds ->
  proc_published (run_detection n rounds) =
    if anyOpinion (proc_latest (run_detection n rounds))
    then Some (merged (proc_latest (run_detection n rounds))) else None.
Proof.
  intros Hlen. pose proof (run_detection_latest_eq n) as Hlat. revert Hlat Hlen.
  unfold run_detection. intros Hlat.
  induction rounds as [|r rounds IH] using rev_ind; intros Hlen.
  - simpl. by rewrite anyOpinion_replicate.
  - apply Forall_app in Hlen as [Hl [Hr _]%Forall_cons]. specialize (IH Hl).
    specialize (Hlat rounds Hl). rewrite !foldl_snoc, detectAndPublish_latest.
    assert (length (proc_latest (foldl (fun st r => (detectAndPublish st r).1)
      (initial_processor n) rounds)) = n) as Hn by (by rewrite Hlat, length_map, length_seq).
    set (st := foldl _ _ rounds) in *. clearbody st. clear Hlat Hl.
    pose proof (detect_merge_opinion (proc_latest st) r ltac:(lia)) as Hop.
    unfold detectAndPublish, detect. destruct (anyOpinion (detect_merge _ r)) eqn:E; simpl.
    + by case_bool_decide.
    + rewrite IH. destruct (anyOpinion (proc_latest st)); [|done]. by discriminate Hop.
Qed.

(** After any number of detection rounds the published set is the union of
    the detectors' last answers, a detector that did not answer keeping what it
    said before, and nothing is published before the first answer. *)
Theorem detection_publishes_last_answers n rounds :
  Forall (fun r => length r = n) rounds ->
  proc_published (run_detection n rounds) =
    (if existsb (fun i => bool_decide (is_Some (last_answer rounds i))) (seq 0 n)
     then Some (foldl (fun acc i => acc ∪ default ∅ (last_answer rounds i)) ∅ (seq 0 n))
     else None).
Proof.
  intros Hlen. rewrite run_detection_published, run_detection_latest_eq by done.
  generalize (seq 0 n). intros l.
  assert (anyOpinion (map (last_answer rounds) l) =
    existsb (fun i => bool_decide (is_Some (last_answer rounds i))) l) as ->.
  { unfold anyOpinion. induction l as [|i l IH]; simpl; [done|]. rewrite IH. f_equal.
    destruct (last_answer rounds i); [by rewrite bool_decide_eq_true_2 by eauto|].
    by rewrite bool_decide_eq_false_2 by apply is_Some_None. }
  split_test; [|done]. clear Heqb. f_equal. unfold merged. generalize (∅ : gset string) at 1 3.
  induction l as [|i l IH]; intros acc; simpl; [done|]. rewrite IH.
  destruct (last_answer rounds i); simpl; [done|]. f_equal. set_solver.
Qed.

Lemma detection_publishes_last_answers_witness :
  proc_published (run_detection 2 [[Some {["a"]}; None]; [None; Some {["b"]}]]) =
    Some {["a"; "b"]}.
Proof.
  rewrite (detection_publishes_last_answers 2); [by vm_compute|by repeat constructor].
Defined.
