(* ===== verification/UpstreamState.v ===== *)
(** The state of one upstream as the rest of the program sees it, the events
    that change it and the events an upstream publishes
    ([internal/protocol/data.go], [upstream_state_events.go]). *)

From S2P Require Import Prelude.
From S2P Require Import Protocol.
From S2P Require Import Specs.
From S2P Require Import Methods.

(** Budgets and auto-tuners are shared mutable objects: the state holds
    references to them. *)
Abbreviation BudgetRef := string (only parsing).
Abbreviation TuneRef := string (only parsing).

Record UpstreamState := mkUpstreamState {
  Status : AvailabilityStatus;
  HeadData : Block;
  st_methods : UpstreamMethods;
  Caps : gset Cap;
  UpstreamIndex : string;
  RateLimiterBudget : option BudgetRef;
  AutoTuneRateLimiter : option TuneRef;
  st_blocks : BlockInfo;
  st_lowerBounds : LowerBoundInfo;
  st_labels : Labels;
}.

Definition DefaultUpstreamState (upstreamMethods : UpstreamMethods) (caps : gset Cap)
    (upstreamIndex : string) (rt : option BudgetRef) (autoTune : option TuneRef)
    : UpstreamState :=
  mkUpstreamState Available ZeroBlock upstreamMethods caps upstreamIndex rt autoTune
    NewBlockInfo NewLowerBoundInfo NewLabels.

(** Field updates ([state.F = v] on a copied struct). *)
Definition set_Status (v : AvailabilityStatus) (s : UpstreamState) : UpstreamState :=
  mkUpstreamState v (HeadData s) (st_methods s) (Caps s) (UpstreamIndex s)
    (RateLimiterBudget s) (AutoTuneRateLimiter s) (st_blocks s) (st_lowerBounds s) (st_labels s).
Definition set_HeadData (v : Block) (s : UpstreamState) : UpstreamState :=
  mkUpstreamState (Status s) v (st_methods s) (Caps s) (UpstreamIndex s)
    (RateLimiterBudget s) (AutoTuneRateLimiter s) (st_blocks s) (st_lowerBounds s) (st_labels s).
Definition set_Methods (v : UpstreamMethods) (s : UpstreamState) : UpstreamState :=
  mkUpstreamState (Status s) (HeadData s) v (Caps s) (UpstreamIndex s)
    (RateLimiterBudget s) (AutoTuneRateLimiter s) (st_blocks s) (st_lowerBounds s) (st_labels s).
Definition set_Caps (v : gset Cap) (s : UpstreamState) : UpstreamState :=
  mkUpstreamState (Status s) (HeadData s) (st_methods s) v (UpstreamIndex s)
    (RateLimiterBudget s) (AutoTuneRateLimiter s) (st_blocks s) (st_lowerBounds s) (st_labels s).
Definition set_BlockInfo (v : BlockInfo) (s : UpstreamState) : UpstreamState :=
  mkUpstreamState (Status s) (HeadData s) (st_methods s) (Caps s) (UpstreamIndex s)
    (RateLimiterBudget s) (AutoTuneRateLimiter s) v (st_lowerBounds s) (st_labels s).
Definition set_LowerBounds (v : LowerBoundInfo) (s : UpstreamState) : UpstreamState :=
  mkUpstreamState (Status s) (HeadData s) (st_methods s) (Caps s) (UpstreamIndex s)
    (RateLimiterBudget s) (AutoTuneRateLimiter s) (st_blocks s) v (st_labels s).
Definition set_Labels (v : Labels) (s : UpstreamState) : UpstreamState :=
  mkUpstreamState (Status s) (HeadData s) (st_methods s) (Caps s) (UpstreamIndex s)
    (RateLimiterBudget s) (AutoTuneRateLimiter s) (st_blocks s) (st_lowerBounds s) v.

(** ** Events that change the state of an upstream *)

Inductive StateEvent :=
| InitEvent
| LowerBoundEvent (data : LowerBoundData)
| StatusEvent (status : AvailabilityStatus) (lag : option Z)
| FatalErrorEvent
| ValidEvent
| HeadEvent (head : Block)
| BlockEvent (block : Block) (blockType : BlockType)
| BanMethodEvent (method : string)
| UnbanMethodEvent (method : string)
| UnsupportedMethodsEvent (methods : gset string)
| CapsEvent (caps : gset Cap)
| LabelsEvent (key value : string).

(** [Same]: the event would not change the state. *)
Definition Same (e : StateEvent) (s : UpstreamState) : bool :=
  match e with
  | LowerBoundEvent data =>
    bool_decide (LowerBoundInfo_GetLowerBound (st_lowerBounds s) (BoundType data) = Some data)
  | BlockEvent b t => Block_Equals (BlockInfo_GetBlock (st_blocks s) t) b
  | CapsEvent caps => bool_decide (Caps s = caps)
  | LabelsEvent k v => bool_decide (Labels_GetLabel (st_labels s) k = Some v)
  | InitEvent | StatusEvent _ _ | FatalErrorEvent | ValidEvent | HeadEvent _
  | BanMethodEvent _ | UnbanMethodEvent _ | UnsupportedMethodsEvent _ => false
  end.

Definition ProcessEvent (e : StateEvent) (s : UpstreamState) : UpstreamState :=
  match e with
  | LowerBoundEvent data =>
    set_LowerBounds (LowerBoundInfo_AddLowerBound data (LowerBoundInfo_Copy (st_lowerBounds s))) s
  | HeadEvent head => set_HeadData head s
  | BlockEvent b t => set_BlockInfo (BlockInfo_AddBlock b t (BlockInfo_Copy (st_blocks s))) s
  | CapsEvent caps => set_Caps caps s
  | LabelsEvent k v => set_Labels (Labels_AddLabel k v (Labels_Copy (st_labels s))) s
  | InitEvent | StatusEvent _ _ | FatalErrorEvent | ValidEvent
  | BanMethodEvent _ | UnbanMethodEvent _ | UnsupportedMethodsEvent _ => s
  end.

(** ** Events an upstream publishes *)

Inductive UpstreamEventType :=
| StateUpstreamEvent (state : UpstreamState)
| HeadUpstreamEvent (status : AvailabilityStatus) (head : Block)
| RemoveUpstreamEvent
| ValidUpstreamEvent (state : option UpstreamState).

Record UpstreamEvent := mkUpstreamEvent { event_id : string; EventType : UpstreamEventType }.

(** ** Facts *)

(** Processing an event never touches the fields another component owns. *)
Lemma ProcessEvent_frame e s :
  Status (ProcessEvent e s) = Status s /\ st_methods (ProcessEvent e s) = st_methods s /\
  UpstreamIndex (ProcessEvent e s) = UpstreamIndex s /\
  RateLimiterBudget (ProcessEvent e s) = RateLimiterBudget s /\
  AutoTuneRateLimiter (ProcessEvent e s) = AutoTuneRateLimiter s.
Proof. by destruct e. Qed.

Definition state_wf (s : UpstreamState) : Prop :=
  LowerBoundInfo_wf (st_lowerBounds s) /\ upstream_methods_ok (st_methods s).

Lemma ProcessEvent_wf e s : state_wf s -> state_wf (ProcessEvent e s).
Proof.
  intros [Hlb Hm]. destruct e; try done. split; [|done]. simpl.
  apply AddLowerBound_wf. by rewrite LowerBoundInfo_Copy_id.
Qed.

(** A processed event is recognised as already applied. *)
Lemma ProcessEvent_Same e s :
  match e with
  | LowerBoundEvent _ | BlockEvent _ _ | CapsEvent _ | LabelsEvent _ _ =>
      Same e (ProcessEvent e s) = true
  | _ => True
  end.
Proof.
  destruct e; simpl; try done.
  - unfold LowerBoundInfo_GetLowerBound. simpl. by rewrite lookup_insert_eq, bool_decide_eq_true_2.
  - unfold BlockInfo_GetBlock. simpl. rewrite lookup_insert_eq. apply Block_Equals_refl.
  - by rewrite bool_decide_eq_true_2.
  - unfold Labels_GetLabel. simpl. by rewrite lookup_insert_eq, bool_decide_eq_true_2.
Qed.
