(* ===== verification/Upstream.v ===== *)
(** The event loop of one upstream: the pipeline that turns the events of its
    detectors and processors into its state and the events it publishes
    ([internal/upstreams/upstream_events.go], [upstream.go]). *)

From S2P Require Import Prelude.
From S2P Require Import Protocol.
From S2P Require Import Specs.
From S2P Require Import Methods.
From S2P Require Import UpstreamState.

(** What the loop reads of the upstream's configuration. *)
Record UpstreamEnv := mkUpstreamEnv {
  env_id : string;
  env_registry : Registry;
  env_specName : string;
  env_methods : MethodsConfig;
  env_connectors : list ApiConnectorType;
  env_syncingLag : Z;
}.

(** The variables of [processStateEvents] and the fields of the upstream it
    uses: the stored state and the head lag the chain supervisor writes. *)
Record LoopState := mkLoopState {
  upstreamState : UpstreamState;
  headLag : Z;
  bannedMethods : gset string;
  unsupportedMethods : gset string;
  validUpstream : bool;
  baseAvail : AvailabilityStatus;
}.

(** What an iteration does besides changing its variables: publish an event, or
    start the timer that emits the unban event. *)
Inductive Output :=
| Published (event : UpstreamEvent)
| ArmUnban (method : string).

(** [lo.Union] of the samber/lo package: the distinct elements of some lists. *)
Class LoUnion := lo_Union : list (list string) -> list string.
Class LoUnionLaws `{LoUnion} : Prop :=
  lo_Union_elem : forall ls x, x ∈ lo_Union ls <-> exists l, l ∈ ls /\ x ∈ l.

Section Loop.
Context `{MR : MapRange} `{LU : LoUnion} (env : UpstreamEnv).

(** Without a spec the result would be nil; the upstream was created from the
    same spec, so there is one. *)
Definition newUpstreamMethods (banned unsupported : gset string) : UpstreamMethods :=
  default (mkUpstreamMethods ∅ ∅)
    (NewUpstreamMethods (env_registry env) (env_specName env)
      (Some (mkMethodsConfig (EnableMethods (env_methods env))
        (lo_Union [elements banned; elements unsupported; DisableMethods (env_methods env)])))
      (env_connectors env)).

Definition forceEnabled (method : string) : bool :=
  IsForceEnabled (Some (env_methods env))
    (Some (GetSpecMethodWithFallback (env_registry env) (env_specName env) method)).

Definition createUpstreamEvent (t : UpstreamEventType) : UpstreamEvent :=
  mkUpstreamEvent (env_id env) t.

(** [publishUpstreamEvent] stores the state and publishes. *)
Definition publish (s : UpstreamState) (t : UpstreamEventType) (l : LoopState)
    : list Output * LoopState :=
  ([Published (createUpstreamEvent t)],
   mkLoopState s (headLag l) (bannedMethods l) (unsupportedMethods l) (validUpstream l) (baseAvail l)).

(** The end of an iteration: a valid upstream publishes. *)
Definition finish (s : UpstreamState) (t : UpstreamEventType) (l : LoopState)
    : list Output * LoopState :=
  if validUpstream l then publish s t l else ([], l).

Definition set_banned (banned : gset string) (l : LoopState) : LoopState :=
  mkLoopState (upstreamState l) (headLag l) banned (unsupportedMethods l) (validUpstream l) (baseAvail l).
Definition set_unsupported (unsupported : gset string) (l : LoopState) : LoopState :=
  mkLoopState (upstreamState l) (headLag l) (bannedMethods l) unsupported (validUpstream l) (baseAvail l).
Definition set_valid (valid : bool) (l : LoopState) : LoopState :=
  mkLoopState (upstreamState l) (headLag l) (bannedMethods l) (unsupportedMethods l) valid (baseAvail l).

(** The new method set goes into the state of this iteration only. *)
Definition finish_methods (l : LoopState) : list Output * LoopState :=
  let s := set_Methods (newUpstreamMethods (bannedMethods l) (unsupportedMethods l)) (upstreamState l) in
  finish s (StateUpstreamEvent s) l.

(** One iteration of [processStateEvents]. *)
Definition processStateEvent (e : StateEvent) (l : LoopState) : list Output * LoopState :=
  let state := upstreamState l in
  match e with
  | FatalErrorEvent =>
    if negb (validUpstream l) then ([], l)
    else
      let l := set_valid false l in
      let '(o1, l) := publish state RemoveUpstreamEvent l in
      let '(o2, l) := finish state RemoveUpstreamEvent l in
      (o1 ++ o2, l)
  | ValidEvent =>
    if validUpstream l then ([], l)
    else finish state (ValidUpstreamEvent (Some state)) (set_valid true l)
  | BanMethodEvent m =>
    if bool_decide (m ∈ bannedMethods l) || forceEnabled m then ([], l)
    else
      let '(o, l) := finish_methods (set_banned ({[m]} ∪ bannedMethods l) l) in
      (ArmUnban m :: o, l)
  | UnbanMethodEvent m =>
    if bool_decide (m ∉ bannedMethods l) then ([], l)
    else finish_methods (set_banned (bannedMethods l ∖ {[m]}) l)
  | UnsupportedMethodsEvent ms =>
    if bool_decide (unsupportedMethods l = ms) then ([], l)
    else finish_methods (set_unsupported ms l)
  | StatusEvent status lag =>
    if negb (validUpstream l) then ([], l)
    else
      let l := match lag with
               | None => mkLoopState (upstreamState l) (headLag l) (bannedMethods l)
                           (unsupportedMethods l) (validUpstream l) status
               | Some _ => l
               end in
      let newAvail := StatusByLag (headLag l) (baseAvail l) (env_syncingLag env) in
      if bool_decide (newAvail = Status state) then ([], l)
      else let s := set_Status newAvail state in publish s (StateUpstreamEvent s) l
  | HeadEvent _ =>
    let s := ProcessEvent e state in
    finish s (HeadUpstreamEvent (Status s) (HeadData s)) l
  | InitEvent | LowerBoundEvent _ | BlockEvent _ _ | CapsEvent _ | LabelsEvent _ _ =>
    if Same e state then ([], l)
    else let s := ProcessEvent e state in finish s (StateUpstreamEvent s) l
  end.

(** The loop's variables at its start. *)
Definition initial_loop (s : UpstreamState) (lag : Z) (initialValid : bool) : LoopState :=
  mkLoopState s lag ∅ ∅ initialValid (Status s).

(** ** The upstream as the rest of the program uses it

    The events wait in a channel; the head lag is written directly. *)

Record UpstreamRt := mkUpstreamRt { stateChan : list StateEvent; loop : LoopState }.

Definition emit (e : StateEvent) (u : UpstreamRt) : UpstreamRt :=
  mkUpstreamRt (stateChan u ++ [e]) (loop u).

Definition UpdateHeadLag (lag : Z) (u : UpstreamRt) : UpstreamRt :=
  let lag := if lag <? 0 then 0 else lag in
  let l := loop u in
  emit (StatusEvent Available (Some lag))
    (mkUpstreamRt (stateChan u)
      (mkLoopState (upstreamState l) lag (bannedMethods l) (unsupportedMethods l)
        (validUpstream l) (baseAvail l))).

Definition BanMethod (method : string) (u : UpstreamRt) : UpstreamRt := emit (BanMethodEvent method) u.

Definition UpdateLowerBound (data : LowerBoundData) (u : UpstreamRt) : UpstreamRt :=
  emit (LowerBoundEvent data) u.

(** [PredictLowerBound]; [predicted] is the regression's answer. *)
Definition PredictLowerBound (predicted : Z) (t : LowerBoundType) (u : UpstreamRt) : Z :=
  match LowerBoundInfo_GetLowerBound (st_lowerBounds (upstreamState (loop u))) t with
  | Some bound => if predicted <? Bound bound then Bound bound else predicted
  | None => predicted
  end.

(** The steps of an upstream: the loop takes the next event, or another
    component emits an event (of those [allowed]) or updates the head lag. *)
Context (allowed : StateEvent -> Prop).

Inductive up_step : UpstreamRt -> list Output -> UpstreamRt -> Prop :=
| up_process e q l o l' :
    processStateEvent e l = (o, l') -> up_step (mkUpstreamRt (e :: q) l) o (mkUpstreamRt q l')
| up_emit e u : allowed e -> up_step u [] (emit e u)
| up_lag lag u : up_step u [] (UpdateHeadLag lag u).

Inductive up_run (u : UpstreamRt) : list Output -> UpstreamRt -> Prop :=
| up_nil : up_run u [] u
| up_snoc os u' o u'' : up_run u os u' -> up_step u' o u'' -> up_run u (os ++ o) u''.
End Loop.

(** ** Proofs about one iteration *)

Section Iteration.
Context `{MR : MapRange} `{LU : LoUnion} (env : UpstreamEnv).

Definition effective_status (l : LoopState) : AvailabilityStatus :=
  StatusByLag (headLag l) (baseAvail l) (env_syncingLag env).

Definition is_status (e : StateEvent) : bool :=
  match e with StatusEvent _ _ => true | _ => false end.

(** What an iteration of a valid upstream leaves, unless it was a fatal error. *)
Lemma processStateEvent_valid e l o l' :
  processStateEvent env e l = (o, l') -> validUpstream l = true -> e <> FatalErrorEvent ->
  validUpstream l' = true /\ headLag l' = headLag l /\
  (if is_status e then Status (upstreamState l') = effective_status l'
   else Status (upstreamState l') = Status (upstreamState l) /\ baseAvail l' = baseAvail l) /\
  (st_methods (upstreamState l) = newUpstreamMethods env (bannedMethods l) (unsupportedMethods l) ->
   st_methods (upstreamState l') = newUpstreamMethods env (bannedMethods l') (unsupportedMethods l')).
Proof using Type.
  intros E Hv Hf. unfold processStateEvent, finish_methods, finish, publish, effective_status in *.
  destruct e; try done; cbn [set_banned set_unsupported validUpstream] in E; rewrite ?Hv in E;
    cbn [negb] in E; unfold is_status.
  all: try (destruct (Same _ _); [by simplify_eq|]; injection E as <- <-; done).
  - destruct lag as [lag|]; cbn [headLag baseAvail upstreamState] in E;
      case_bool_decide as Hb; injection E as <- <-; simpl; rewrite ?Hb; done.
  - by simplify_eq.
  - by injection E as <- <-.
  - destruct (bool_decide (method ∈ bannedMethods l) || forceEnabled env method); by injection E as <- <-.
  - case_bool_decide; by injection E as <- <-.
  - case_bool_decide; by injection E as <- <-.
Qed.

(** An invalid upstream neither publishes nor stores anything until it is
    valid again. *)
Lemma processStateEvent_invalid e l o l' :
  processStateEvent env e l = (o, l') -> validUpstream l = false -> e <> ValidEvent ->
  validUpstream l' = false /\ upstreamState l' = upstreamState l /\
  forall ev, Published ev ∉ o.
Proof using Type.
  intros E Hv Hf. unfold processStateEvent, finish_methods, finish, publish in *.
  assert (forall ev, Published ev ∉ []) as Hnil by (intros; apply not_elem_of_nil).
  destruct e; try done; cbn [set_banned set_unsupported validUpstream] in E; rewrite ?Hv in E;
    cbn [negb] in E.
  all: try (destruct (Same _ _); by simplify_eq).
  all: try (by simplify_eq).
  - destruct (bool_decide (method ∈ bannedMethods l) || forceEnabled env method); simplify_eq; [done|].
    split_and!; [done|done|]. intros ev [?|?]%elem_of_cons; [done|]. by eapply Hnil.
  - case_bool_decide; by simplify_eq.
  - case_bool_decide; by simplify_eq.
Qed.

(** The invariant of an upstream that stays valid. *)
Definition up_ok (u : UpstreamRt) : Prop :=
  let l := loop u in
  validUpstream l = true /\ (FatalErrorEvent ∉ stateChan u) /\
  (existsb is_status (stateChan u) = true \/ Status (upstreamState l) = effective_status l) /\
  st_methods (upstreamState l) = newUpstreamMethods env (bannedMethods l) (unsupportedMethods l).

Lemma up_step_ok u o u' :
  up_step env (fun e => e <> FatalErrorEvent) u o u' -> up_ok u -> up_ok u'.
Proof using Type.
  destruct 1 as [e q l o l' E|e u He|lag u]; intros (Hv & Hf & Hs & Hm); simpl in *.
  - apply not_elem_of_cons in Hf as [He Hf].
    destruct (processStateEvent_valid e l o l' E Hv ltac:(done)) as (Hv' & Hlag & Hst & Hm').
    unfold up_ok. simpl. split_and!; [done|done| |by apply Hm'].
    destruct (is_status e) eqn:Ee; [by right|]. simpl in Hs.
    destruct Hs as [?|Hs]; [by left|right]. destruct Hst as [-> Hb]. rewrite Hs.
    unfold effective_status. by rewrite Hlag, Hb.
  - unfold up_ok, emit. simpl. split_and!; [done| | |done].
    + intros [?|Hin]%elem_of_app; [done|]. apply list_elem_of_singleton in Hin. congruence.
    + destruct Hs as [Hs|Hs]; [left|by right]. by rewrite existsb_app, Hs.
  - unfold up_ok, UpdateHeadLag, emit. simpl. split_and!; [done| | |done].
    + intros [?|Hin]%elem_of_app; [done|]. by apply list_elem_of_singleton in Hin.
    + left. by rewrite existsb_app, orb_true_r.
Qed.

Lemma up_run_ok u os u' :
  up_run env (fun e => e <> FatalErrorEvent) u os u' -> up_ok u -> up_ok u'.
Proof using Type. induction 1; [done|]. intros. eapply up_step_ok; eauto. Qed.
End Iteration.

(** ** What was reported

    The steps again, as actions: [ActProcess] is an iteration of the loop, the others
    are what the rest of the program does. *)
Inductive UpAction := ActProcess | ActEmit (e : StateEvent) | ActLag (lag : Z).

(** The last health report among some events, and the last lag among some actions,
    where there is none the one before. *)
Definition last_report (before : AvailabilityStatus) (evs : list StateEvent) : AvailabilityStatus :=
  foldl (fun b e => match e with StatusEvent s None => s | _ => b end) before evs.

Definition last_lag (before : Z) (acts : list UpAction) : Z :=
  foldl (fun b a => match a with ActLag lag => Z.max 0 lag | _ => b end) before acts.

(** The events others emit. *)
Definition emitted (acts : list UpAction) : list StateEvent :=
  omap (fun a => match a with ActEmit e => Some e | _ => None end) acts.

Section Actions.
Context `{MR : MapRange} `{LU : LoUnion} (env : UpstreamEnv).

(** There is nothing to process while no event waits. *)
Definition up_act (a : UpAction) (u : UpstreamRt) : option (list Output * UpstreamRt) :=
  match a with
  | ActProcess =>
    match stateChan u with
    | [] => None
    | e :: q => let '(o, l) := processStateEvent env e (loop u) in Some (o, mkUpstreamRt q l)
    end
  | ActEmit e => Some ([], emit e u)
  | ActLag lag => Some ([], UpdateHeadLag lag u)
  end.

Fixpoint up_acts (acts : list UpAction) (u : UpstreamRt) : option (list Output * UpstreamRt) :=
  match acts with
  | [] => Some ([], u)
  | a :: acts =>
    '(o, u) ← up_act a u;
    '(os, u) ← up_acts acts u;
    Some (o ++ os, u)
  end.

Lemma up_acts_snoc acts a u :
  up_acts (acts ++ [a]) u = ('(os, u1) ← up_acts acts u; '(o, u2) ← up_act a u1; Some (os ++ o, u2)).
Proof using Type.
  revert u. induction acts as [|b acts IH]; intros u; cbn [app up_acts].
  - cbn [mbind option_bind]. destruct (up_act a u) as [[o u1]|]; [|done]. cbn [mbind option_bind]. by rewrite app_nil_r.
  - destruct (up_act b u) as [[o u1]|]; [|done]. cbn [mbind option_bind]. rewrite IH.
    destruct (up_acts acts u1) as [[os u2]|]; [|done]. cbn [mbind option_bind].
    destruct (up_act a u2) as [[o' u3]|]; [|done]. cbn [mbind option_bind]. by rewrite app_assoc.
Qed.

(** Actions and steps are the same runs. *)
Lemma up_acts_run (allowed : StateEvent -> Prop) acts u os u' :
  (forall e, e ∈ emitted acts -> allowed e) -> up_acts acts u = Some (os, u') -> up_run env allowed u os u'.
Proof using Type.
  revert os u'. induction acts as [|a acts IH] using rev_ind; intros os u' Ha.
  { intros [= <- <-]. constructor. }
  rewrite up_acts_snoc. intros ([os1 u1] & E & ([o u2] & E2 & [= <- <-])%bind_Some)%bind_Some.
  econstructor; [eapply IH; [|exact E]|].
  { intros e He. apply Ha. unfold emitted in *. rewrite omap_app. set_solver. }
  destruct a as [|e|lag]; cbn [up_act] in E2.
  - destruct u1 as [[|e q] l]; [done|]. cbn [stateChan loop] in E2.
    destruct (processStateEvent env e l) as [o' l'] eqn:Ep. injection E2 as <- <-. by constructor.
  - injection E2 as <- <-. constructor. apply Ha. unfold emitted. rewrite omap_app. simpl. set_solver.
  - injection E2 as <- <-. constructor.
Qed.

Lemma up_run_acts (allowed : StateEvent -> Prop) u os u' :
  up_run env allowed u os u' -> exists acts, (forall e, e ∈ emitted acts -> allowed e) /\ up_acts acts u = Some (os, u').
Proof using Type.
  induction 1 as [|os u1 o u2 _ (acts & Ha & E) Hs]; [exists []; split; [set_solver|done]|].
  assert (exists a, (forall e, e ∈ emitted [a] -> allowed e) /\ up_act a u1 = Some (o, u2)) as (a & Ha' & Eact).
  { destruct Hs as [e q l o' l' Ep|e u1 He|lag u1].
    - exists ActProcess. split; [set_solver|]. cbn [up_act stateChan loop]. by rewrite Ep.
    - exists (ActEmit e). split; [|done]. simpl. set_solver.
    - exists (ActLag lag). split; [set_solver|done]. }
  exists (acts ++ [a]). split.
  - intros e. unfold emitted in *. rewrite omap_app. set_solver.
  - rewrite up_acts_snoc, E. cbn [mbind option_bind]. rewrite Eact. done.
Qed.

Lemma last_report_app b evs evs' : last_report b (evs ++ evs') = last_report (last_report b evs) evs'.
Proof using Type. apply foldl_app. Qed.

(** An iteration of a valid upstream takes over the report it processes. *)
Lemma processStateEvent_report e l o l' :
  processStateEvent env e l = (o, l') -> validUpstream l = true -> e <> FatalErrorEvent ->
  baseAvail l' = last_report (baseAvail l) [e].
Proof using Type.
  intros E Hv Hf. destruct (is_status e) eqn:He.
  - destruct e; try done. unfold processStateEvent, publish in E. rewrite Hv in E. cbn [negb] in E.
    destruct lag; (case_bool_decide; injection E as <- <-; done).
  - destruct (processStateEvent_valid env e l o l' E Hv Hf) as (_ & _ & Hs & _). rewrite He in Hs.
    destruct Hs as [_ ->]. by destruct e.
Qed.

(** Nothing reported is lost: what the loop knows and what waits for it end in the
    last report, and the lag is the last one. *)
Lemma up_acts_reports acts u os u' :
  up_ok env u -> (forall e, e ∈ emitted acts -> e <> FatalErrorEvent) -> up_acts acts u = Some (os, u') ->
  up_ok env u' /\
  last_report (baseAvail (loop u')) (stateChan u') = last_report (last_report (baseAvail (loop u)) (stateChan u)) (emitted acts) /\
  headLag (loop u') = last_lag (headLag (loop u)) acts.
Proof using Type.
  intros Hok. revert os u'. induction acts as [|a acts IH] using rev_ind; intros os u' Ha.
  { by intros [= <- <-]. }
  intros E. split; [eapply up_run_ok; [by eapply up_acts_run|done]|].
  rewrite up_acts_snoc in E. apply bind_Some in E as ([os1 u1] & E & ([o u2] & E2 & [= <- <-])%bind_Some).
  destruct (IH os1 u1) as (Hok1 & Hr & Hl); [|exact E|].
  { intros e He. apply Ha. unfold emitted in *. rewrite omap_app. set_solver. }
  unfold emitted, last_lag in *. rewrite omap_app, last_report_app, foldl_app, <- Hr, <- Hl.
  destruct a as [|e|lag]; cbn [up_act] in E2.
  - destruct u1 as [[|e q] l]; [done|]. cbn [stateChan loop] in *.
    destruct (processStateEvent env e l) as [o' l'] eqn:Ep. injection E2 as <- <-. cbn [stateChan loop omap list_omap].
    destruct Hok1 as (Hv & Hf & _). cbn [stateChan loop] in *. apply not_elem_of_cons in Hf as [Hf _].
    rewrite (processStateEvent_report _ _ _ _ Ep Hv) by done.
    destruct (processStateEvent_valid env _ _ _ _ Ep Hv ltac:(done)) as (_ & -> & _). done.
  - injection E2 as <- <-. cbn [emit stateChan loop]. split; [|done]. apply last_report_app.
  - injection E2 as <- <-. cbn [UpdateHeadLag emit stateChan loop headLag baseAvail]. split; [by rewrite last_report_app|].
    simpl. destruct (lag <? 0) eqn:En; reflect_bool; lia.
Qed.
End Actions.

(** C21. While an upstream stays valid, its published status is, whenever no status
    event is waiting, the one that the last health report and the last head lag
    determine: of all reports and lags that were emitted, whatever order and
    interleaving they came in with each other, with other events, and with the
    iterations of the loop. *)
Theorem status_converges `{MapRange} `{LoUnion} env acts u os u' :
  up_ok env u -> (forall e, e ∈ emitted acts -> e <> FatalErrorEvent) -> up_acts env acts u = Some (os, u') ->
  existsb is_status (stateChan u') = false ->
  Status (upstreamState (loop u')) =
    StatusByLag (last_lag (headLag (loop u)) acts)
      (last_report (baseAvail (loop u)) (stateChan u ++ emitted acts)) (env_syncingLag env).
Proof.
  intros Hok Ha E Hq. destruct (up_acts_reports env acts u os u' Hok Ha E) as ((_ & _ & Hs & _) & Hr & Hl).
  rewrite last_report_app, <- Hr, <- Hl. destruct Hs as [Hs|Hs]; [congruence|].
  assert (last_report (baseAvail (loop u')) (stateChan u') = baseAvail (loop u')) as ->; [|done].
  clear -Hq. induction (stateChan u') as [|e q IH]; [done|]. cbn [existsb] in Hq.
  apply orb_false_iff in Hq as [He Hq]. destruct e; try done; by apply IH.
Qed.

Lemma union_of_three `{LoUnionLaws} l1 l2 l3 x : x ∈ lo_Union [l1; l2; l3] <-> x ∈ l1 \/ x ∈ l2 \/ x ∈ l3.
Proof. rewrite lo_Union_elem. set_solver. Qed.

(** While an upstream stays valid, it offers a method exactly when the
    configuration enables it, or the spec has it and neither the configuration
    nor a ban nor method detection takes it away: an unban never restores what
    detection found missing, and a detection never lifts a ban. *)
Theorem offered_methods `{MapRange} `{LoUnionLaws} env u os u' sm n :
  up_ok env u -> up_run env (fun e => e <> FatalErrorEvent) u os u' ->
  GetSpecMethodsByConnectors (env_registry env) (env_specName env) (env_connectors env) = Some sm ->
  let l := loop u' in
  HasMethod (st_methods (upstreamState l)) n = true <->
    (exists e, e ∈ EnableMethods (env_methods env) /\ covers sm e n) \/
    (is_Some (defaultMethods sm !! n) /\
     (forall d, d ∈ DisableMethods (env_methods env) -> ~ covers sm d n) /\
     (forall d, d ∈ bannedMethods l -> ~ covers sm d n) /\
     (forall d, d ∈ unsupportedMethods l -> ~ covers sm d n)).
Proof.
  intros Hok Hrun Hsm l. destruct (up_run_ok env u os u' Hrun Hok) as (_ & _ & _ & Hm).
  fold l in Hm. rewrite Hm. unfold newUpstreamMethods.
  set (cfg := mkMethodsConfig _ _).
  destruct (NewUpstreamMethods_some (env_registry env) (env_specName env) (Some cfg) (env_connectors env))
    as [_ Hsome]. destruct Hsome as [um Hum]; [eauto|]. rewrite Hum. simpl default.
  rewrite HasMethod_supported by (by eapply NewUpstreamMethods_ok).
  rewrite (NewUpstreamMethods_available _ _ _ _ _ _ Hsm Hum). simpl.
  setoid_rewrite union_of_three. setoid_rewrite elem_of_elements. apply or_iff_compat_l. naive_solver.
Qed.

(** A concrete [lo.Union], for the witnesses. *)
#[local] Instance demo_union : LoUnion := fun ls => remove_dups (mjoin ls).
#[local] Instance demo_union_laws : LoUnionLaws.
Proof.
  intros ls x. unfold lo_Union, demo_union. rewrite elem_of_remove_dups, list_elem_of_join. naive_solver.
Qed.

Definition demo_env : UpstreamEnv :=
  mkUpstreamEnv "up1" demo_registry "eth" (mkMethodsConfig [] []) [] 5.

#[local] Existing Instance Prelude.default_range.

Definition demo_loop : LoopState :=
  initial_loop (DefaultUpstreamState (newUpstreamMethods demo_env ∅ ∅) ∅ "00001" None None) 0 true.

Definition run_loop `{MapRange} `{LoUnion} (env : UpstreamEnv) (evs : list StateEvent) (l : LoopState) : LoopState :=
  foldl (fun l e => (processStateEvent env e l).2) l evs.

Lemma demo_up_ok : up_ok demo_env (mkUpstreamRt [] demo_loop).
Proof. split_and!; [done|apply not_elem_of_nil|by right|done]. Qed.

(** The head falls behind, the node reports that it is down and up again, and the head
    catches up; a method is banned in between. *)
Definition demo_acts (lag : Z) : list UpAction :=
  [ActLag 10; ActEmit (StatusEvent Unavailable None); ActProcess; ActEmit (BanMethodEvent "eth_call"); ActProcess;
   ActEmit (StatusEvent Available None); ActLag lag; ActProcess; ActProcess; ActProcess].

Definition demo_end (lag : Z) : UpstreamRt :=
  default (mkUpstreamRt [] demo_loop) (snd <$> up_acts demo_env (demo_acts lag) (mkUpstreamRt [] demo_loop)).

Lemma status_converges_witness :
  Status (upstreamState (loop (demo_end 9))) = Syncing /\
  Status (upstreamState (loop (demo_end (-1)))) = Available.
Proof.
  assert (forall e, e ∈ [StatusEvent Unavailable None; BanMethodEvent "eth_call"; StatusEvent Available None] -> e <> FatalErrorEvent) as Hf.
  { intros e He. repeat (apply elem_of_cons in He as [->|He]; [done|]). by apply elem_of_nil in He. }
  split.
  - apply (status_converges demo_env (demo_acts 9) (mkUpstreamRt [] demo_loop)
      (default [] (fst <$> up_acts demo_env (demo_acts 9) (mkUpstreamRt [] demo_loop))) (demo_end 9) demo_up_ok Hf);
      [by vm_compute|by vm_compute].
  - apply (status_converges demo_env (demo_acts (-1)) (mkUpstreamRt [] demo_loop)
      (default [] (fst <$> up_acts demo_env (demo_acts (-1)) (mkUpstreamRt [] demo_loop))) (demo_end (-1)) demo_up_ok Hf);
      [by vm_compute|by vm_compute].
Defined.

Lemma offered_methods_witness :
  let l := run_loop demo_env [BanMethodEvent "eth_call"] demo_loop in
  HasMethod (st_methods (upstreamState demo_loop)) "eth_call" = true /\
  HasMethod (st_methods (upstreamState l)) "eth_call" = false.
Proof.
  intros l. split; [by vm_compute|]. apply not_true_is_false.
  pose proof (offered_methods demo_env (mkUpstreamRt [] demo_loop)
    ([] ++ [] ++ (processStateEvent demo_env (BanMethodEvent "eth_call") demo_loop).1)
    (mkUpstreamRt [] l) demo_groups "eth_call" demo_up_ok) as Hw.
  assert (up_run demo_env (fun e => e <> FatalErrorEvent) (mkUpstreamRt [] demo_loop)
    ([] ++ [] ++ (processStateEvent demo_env (BanMethodEvent "eth_call") demo_loop).1)
    (mkUpstreamRt [] l)) as Hrun.
  { apply (up_snoc _ _ _ ([] ++ []) (emit (BanMethodEvent "eth_call") (mkUpstreamRt [] demo_loop))).
    - apply (up_snoc _ _ _ [] (mkUpstreamRt [] demo_loop)); [apply up_nil|by apply up_emit].
    - apply up_process. by apply surjective_pairing. }
  specialize (Hw Hrun eq_refl). clear Hrun. intros [(e & He & _)|(_ & _ & Hb & _)]%Hw.
  - by apply elem_of_nil in He.
  - apply (Hb "eth_call"); [apply (bool_decide_unpack _); by vm_compute|]. by vm_compute.
Defined.

(** A ban that ends while the upstream is invalid is dropped from the ban
    list, but the recomputed method set is thrown away: when the upstream is
    valid again it publishes the old set, without the method, and no later
    unban can bring the method back. *)
Theorem unban_while_invalid_is_lost `{MapRange} `{LoUnion} env l m :
  validUpstream l = false -> m ∈ bannedMethods l ->
  HasMethod (st_methods (upstreamState l)) m = false ->
  let l1 := (processStateEvent env (UnbanMethodEvent m) l).2 in
  let '(o, l2) := processStateEvent env ValidEvent l1 in
  (m ∉ bannedMethods l2) /\ validUpstream l2 = true /\
  o = [Published (mkUpstreamEvent (env_id env) (ValidUpstreamEvent (Some (upstreamState l))))] /\
  HasMethod (st_methods (upstreamState l2)) m = false /\
  processStateEvent env (UnbanMethodEvent m) l2 = ([], l2).
Proof.
  intros Hv Hb Hm.
  assert ((processStateEvent env (UnbanMethodEvent m) l).2 = set_banned (bannedMethods l ∖ {[m]}) l) as ->.
  { unfold processStateEvent. rewrite bool_decide_eq_false_2 by (intros Hn; done).
    unfold finish_methods, finish. cbn [set_banned validUpstream]. by rewrite Hv. }
  cbv zeta. unfold processStateEvent at 1. cbn [set_banned validUpstream]. rewrite Hv.
  unfold finish, publish. cbn [set_valid validUpstream set_banned upstreamState headLag bannedMethods
    unsupportedMethods baseAvail].
  assert (m ∉ bannedMethods l ∖ {[m]}) as Hnin by set_solver.
  split_and!; [done|done|done|done|].
  unfold processStateEvent. cbn [bannedMethods]. by rewrite bool_decide_eq_true_2.
Qed.

(** Ban, fatal error, the ban expires, the settings are valid again: the method
    is gone although nothing bans it. *)
Lemma unban_while_invalid_is_lost_witness :
  let l := run_loop demo_env [BanMethodEvent "eth_call"; FatalErrorEvent] demo_loop in
  let l2 := run_loop demo_env [UnbanMethodEvent "eth_call"; ValidEvent] l in
  bannedMethods l2 = ∅ /\ HasMethod (st_methods (upstreamState l2)) "eth_call" = false.
Proof.
  intros l l2. split; [by vm_compute|].
  pose proof (unban_while_invalid_is_lost demo_env l "eth_call") as Hw.
  specialize (Hw ltac:(by vm_compute) ltac:(apply (bool_decide_unpack _); by vm_compute) ltac:(by vm_compute)).
  cbv zeta in Hw. unfold l2, run_loop. cbn [foldl]. 
  destruct (processStateEvent demo_env ValidEvent _) as [o l3]. apply Hw.
Defined.
