(* ===== verification/Matchers.v ===== *)
(** Upstream matchers and request selectors: the checks an upstream must pass
    to serve a request, the reason it fails one, and the compilation of the
    client's selectors into checks and a preferred order
    ([internal/upstreams/flow/matchers.go], [selectors.go], [match_trace.go]).
    Upstream states are never nil here: they come from [DefaultUpstreamState],
    which allocates every part, so the nil tests of the code are omitted. *)

From S2P Require Import Prelude.
From S2P Require Import Protocol.
From S2P Require Import Specs.
From S2P Require Import Methods.
From S2P Require Import UpstreamState.

(** ** Responses *)

Inductive MatchResponseType :=
  MethodType | AvailabilityType | RateLimiterType | UpstreamIndexType | SelectorType | SuccessType.

#[export] Instance MatchResponseType_eq_dec : EqDecision MatchResponseType.
Proof. solve_decision. Defined.

(** The integer value of the Go constant ([iota]). *)
Definition type_code (t : MatchResponseType) : Z :=
  match t with
  | MethodType => 0 | AvailabilityType => 1 | RateLimiterType => 2
  | UpstreamIndexType => 3 | SelectorType => 4 | SuccessType => 5
  end.

Inductive MatchResponse :=
| RateLimiterResponse
| UpstreamIndexResponse (index : string)
| SuccessResponse
| MethodResponse (method : string)
| AvailabilityResponse
| LabelResponse (name : string) (values : list string)
| ExistsResponse (name : string)
| HeightResponse (height currentHeight : Z)
| SlotHeightResponse (slot currentSlotHeight : Z)
| LowerHeightResponse (lowerHeight predictedHeight : Z) (boundType : LowerBoundType)
| SelectorUnsupportedResponse (reason : string)
| NotMatchedResponse (response : MatchResponse)
| MultiResponse (responses : list MatchResponse).

Definition response_type (r : MatchResponse) : MatchResponseType :=
  match r with
  | RateLimiterResponse => RateLimiterType
  | UpstreamIndexResponse _ => UpstreamIndexType
  | SuccessResponse => SuccessType
  | MethodResponse _ => MethodType
  | AvailabilityResponse => AvailabilityType
  | LabelResponse _ _ | ExistsResponse _ | HeightResponse _ _ | SlotHeightResponse _ _
  | LowerHeightResponse _ _ _ | SelectorUnsupportedResponse _ | NotMatchedResponse _
  | MultiResponse _ => SelectorType
  end.

Definition Type_ (r : MatchResponse) : Z := type_code (response_type r).

Definition is_success (r : MatchResponse) : bool := Type_ r =? 5.

Lemma is_success_iff r : is_success r = true <-> r = SuccessResponse.
Proof. destruct r; simpl; split; intros H; done || discriminate H. Qed.

Lemma Type_bounds r : 0 <= Type_ r <= 5.
Proof. by destruct r. Qed.

(** [flattenResponses] splices nested multi-responses. *)
Fixpoint flatten_response (r : MatchResponse) : list MatchResponse :=
  match r with
  | MultiResponse rs => concat (map flatten_response rs)
  | _ => [r]
  end.

Definition flattenResponses (rs : list MatchResponse) : list MatchResponse :=
  concat (map flatten_response rs).

Definition joinCauses (parts : list string) : string :=
  match parts with
  | [] => ""
  | p :: ps => foldl (fun out p => out +:+ "; " +:+ p) p ps
  end.

(** [fmt.Sprintf("%v", values)] of a slice of strings. *)
Definition show_values (values : list string) : string :=
  "[" +:+ String.concat " " values +:+ "]".

(** The client-visible explanation of a response. *)
Fixpoint Cause (r : MatchResponse) : string :=
  match r with
  | RateLimiterResponse => "too many requests"
  | UpstreamIndexResponse i => "no upstream with index " +:+ i
  | SuccessResponse => ""
  | MethodResponse m => "method " +:+ m +:+ " is not supported"
  | AvailabilityResponse => "upstream is not available"
  | LabelResponse n vs => "No label `" +:+ n +:+ "` with values " +:+ show_values vs
  | ExistsResponse n => "Label " +:+ n +:+ " does not exist"
  | HeightResponse h cur =>
      "Upstream height " +:+ pretty cur +:+ " is less than " +:+ pretty h
  | SlotHeightResponse s cur =>
      "Upstream slot height " +:+ pretty cur +:+ " is less than " +:+ pretty s
  | LowerHeightResponse low pred t =>
      if pred =? 0
      then "Upstream lower height of type " +:+ LowerBoundType_String t +:+ " cannot be predicted"
      else "Upstream lower height " +:+ pretty pred +:+ " of type " +:+
           LowerBoundType_String t +:+ " is greater than " +:+ pretty low
  | SelectorUnsupportedResponse reason => reason
  | NotMatchedResponse r => "Not matched - " +:+ Cause r
  | MultiResponse rs =>
      joinCauses (concat (map (fun r =>
        (fix causes (r : MatchResponse) : list string :=
           match r with
           | MultiResponse rs => concat (map causes rs)
           | SuccessResponse => []
           | r => [Cause r]
           end) r) rs))
  end.

(** ** Matchers *)

(** [LowerHeightPredictor]; the matcher keeps the function it was given. *)
Abbreviation LowerHeightPredictor := (string -> LowerBoundType -> Z -> Z).

Inductive Matcher :=
| StatusMatcher
| MethodMatcher (method : string)
| WsCapMatcher (method : string)
| UpstreamIndexMatcher (upstreamIndex : string)
| MultiMatcher (matchers : list Matcher)
| LabelMatcher (name : string) (values : list string)
| LabelExistsMatcher (name : string)
| HeightMatcher (height : Z)
| SlotHeightMatcher (slotHeight : Z)
| LowerHeightMatcher (height : Z) (boundType : LowerBoundType) (timeOffset delta : Z)
    (predict : option LowerHeightPredictor)
| SelectorAndMatcher (matchers : list Matcher)
| SelectorOrMatcher (matchers : list Matcher)
| SelectorNotMatcher (matcher : Matcher)
| UnsupportedSelectorMatcher (reason : string).

Definition match_label (name : string) (values : list string) (l : Labels) : MatchResponse :=
  match Labels_GetLabel l name with
  | None => LabelResponse name values
  | Some value =>
    if bool_decide (values = []) || bool_decide (value ∈ values)
    then SuccessResponse else LabelResponse name values
  end.

Definition match_height (height : Z) (s : UpstreamState) : MatchResponse :=
  let cur := i64 (Height (HeadData s)) in
  if height <=? cur then SuccessResponse else HeightResponse height cur.

Definition match_slot (slot : Z) (s : UpstreamState) : MatchResponse :=
  let cur := i64 (Slot (HeadData s)) in
  if slot <=? cur then SuccessResponse else SlotHeightResponse slot cur.

Definition match_lower (height : Z) (t : LowerBoundType) (offset delta : Z)
    (predict : option LowerHeightPredictor) (upId : string) : MatchResponse :=
  let predicted := match predict with Some p => p upId t offset | None => 0 end in
  if negb (predicted =? 0) && (i64 (predicted - delta) <=? height)
  then SuccessResponse else LowerHeightResponse height predicted t.

(** [SelectorAndMatcher] keeps the failures, [SelectorOrMatcher] stops at the
    first success. *)
Definition and_response (rs : list MatchResponse) : MatchResponse :=
  match filter (fun r => is_success r = false) rs with
  | [] => SuccessResponse
  | failures => MultiResponse failures
  end.

Definition or_response (rs : list MatchResponse) : MatchResponse :=
  if existsb is_success rs then SuccessResponse else MultiResponse rs.

Fixpoint Match (m : Matcher) (upId : string) (s : UpstreamState) : MatchResponse :=
  match m with
  | StatusMatcher =>
      if bool_decide (Status s = Available) then SuccessResponse else AvailabilityResponse
  | MethodMatcher method =>
      if HasMethod (st_methods s) method then SuccessResponse else MethodResponse method
  | WsCapMatcher method =>
      if bool_decide (WsCap ∈ Caps s) then SuccessResponse else MethodResponse method
  | UpstreamIndexMatcher i =>
      if bool_decide (UpstreamIndex s = i) then SuccessResponse else UpstreamIndexResponse i
  | MultiMatcher ms => argmin Type_ SuccessResponse (map (fun m => Match m upId s) ms)
  | LabelMatcher n vs => match_label n vs (st_labels s)
  | LabelExistsMatcher n =>
      match Labels_GetLabel (st_labels s) n with
      | Some _ => SuccessResponse
      | None => ExistsResponse n
      end
  | HeightMatcher h => match_height h s
  | SlotHeightMatcher h => match_slot h s
  | LowerHeightMatcher h t off delta p => match_lower h t off delta p upId
  | SelectorAndMatcher ms => and_response (map (fun m => Match m upId s) ms)
  | SelectorOrMatcher ms => or_response (map (fun m => Match m upId s) ms)
  | SelectorNotMatcher m =>
      let r := Match m upId s in
      if is_success r then NotMatchedResponse r else SuccessResponse
  | UnsupportedSelectorMatcher reason => SelectorUnsupportedResponse reason
  end.

Definition matches (m : Matcher) (upId : string) (s : UpstreamState) : bool :=
  is_success (Match m upId s).

(** ** Request selectors *)

Inductive RequestBlockTag :=
  BlockTagLatest | BlockTagSafe | BlockTagFinalized | BlockTagOther (tag : Z).

(** [RequestNilSelector] is the nil interface value. *)
Inductive RequestSelector :=
| RequestNilSelector
| RequestAnySelector
| RequestLabelSelector (name : string) (values : list string)
| RequestExistsSelector (name : string)
| RequestAndSelector (children : list RequestSelector)
| RequestOrSelector (children : list RequestSelector)
| RequestNotSelector (child : RequestSelector)
| RequestHeightSelector (height : Z)
| RequestBlockTagSelector (tag : RequestBlockTag)
| RequestSlotHeightSelector (slotHeight : Z)
| RequestLowerHeightSelector (height : Z) (boundType : LowerBoundType) (timeOffset heightDelta : Z)
| RequestUnsupportedSelector (reason : string).

Inductive sortKind :=
  sortDefault | sortHeadDesc | sortSafeDesc | sortFinalizedDesc | sortPredictedLowerBoundAsc.

#[export] Instance sortKind_eq_dec : EqDecision sortKind.
Proof. solve_decision. Defined.

Definition sortKind_code (k : sortKind) : Z :=
  match k with
  | sortDefault => 0 | sortHeadDesc => 1 | sortSafeDesc => 2 | sortFinalizedDesc => 3
  | sortPredictedLowerBoundAsc => 4
  end.

(** Go's zero value of [lowerBoundType] is none of the named constants. *)
Record sortSpec := mkSortSpec {
  kind : sortKind;
  lowerBoundType : option LowerBoundType;
  sort_timeOffset : Z;
}.

#[export] Instance sortSpec_eq_dec : EqDecision sortSpec.
Proof. solve_decision. Defined.

Definition sort_by (k : sortKind) : sortSpec := mkSortSpec k None 0.

Abbreviation Compiled := (option Matcher * option sortSpec)%type.

Definition unsupported (reason : string) : Compiled :=
  (Some (UnsupportedSelectorMatcher reason), None).

(** The loop over an AND's children: matchers collected so far and the sort
    hint they agreed on. *)
Fixpoint and_children (cs : list Compiled) (ms : list Matcher) (combined : option sortSpec)
    : list Matcher * option sortSpec :=
  match cs with
  | [] => (ms, combined)
  | (m, sort) :: cs' =>
    let ms := ms ++ option_list m in
    match sort, combined with
    | None, _ => and_children cs' ms combined
    | Some s, Some c =>
      if bool_decide (c = s) then and_children cs' ms sort
      else and_children cs' (ms ++ [UnsupportedSelectorMatcher
             ("conflicting selector sort hints " +:+ pretty (sortKind_code (kind c)) +:+
              " and " +:+ pretty (sortKind_code (kind s)) +:+ " are not supported")]) combined
    | Some s, None => and_children cs' ms sort
    end
  end.

(** The loop over an OR's children: [None] when one of them carries a sort. *)
Fixpoint or_children (cs : list Compiled) (ms : list Matcher) : option (list Matcher) :=
  match cs with
  | [] => Some ms
  | (m, sort) :: cs' =>
    match sort with
    | Some _ => None
    | None => or_children cs' (ms ++ option_list m)
    end
  end.

Section Compile.
Context (predict : LowerHeightPredictor).

Fixpoint compileSelector (selector : RequestSelector) : Compiled :=
  match selector with
  | RequestNilSelector | RequestAnySelector => (None, None)
  | RequestLabelSelector n vs => (Some (LabelMatcher n vs), None)
  | RequestExistsSelector n => (Some (LabelExistsMatcher n), None)
  | RequestAndSelector cs =>
      let '(ms, sort) := and_children (map compileSelector cs) [] None in
      (Some (SelectorAndMatcher ms), sort)
  | RequestOrSelector cs =>
      match or_children (map compileSelector cs) [] with
      | None => unsupported "sort-bearing selectors inside OR are not supported"
      | Some ms => (Some (SelectorOrMatcher ms), None)
      end
  | RequestNotSelector c =>
      match compileSelector c with
      | (_, Some _) => unsupported "sort-bearing selectors inside NOT are not supported"
      | (None, None) => (None, None)
      | (Some m, None) => (Some (SelectorNotMatcher m), None)
      end
  | RequestHeightSelector h => (Some (HeightMatcher h), None)
  | RequestBlockTagSelector tag =>
      match tag with
      | BlockTagLatest => (None, Some (sort_by sortHeadDesc))
      | BlockTagSafe => (None, Some (sort_by sortSafeDesc))
      | BlockTagFinalized => (None, Some (sort_by sortFinalizedDesc))
      | BlockTagOther _ => unsupported "unsupported block tag selector"
      end
  | RequestSlotHeightSelector h => (Some (SlotHeightMatcher h), None)
  | RequestLowerHeightSelector h t off delta =>
      if h =? 0 then (None, Some (mkSortSpec sortPredictedLowerBoundAsc (Some t) off))
      else (Some (LowerHeightMatcher h t off delta (Some predict)), None)
  | RequestUnsupportedSelector reason => unsupported reason
  end.

(** Top level: the matchers of every selector, the last sort hint wins. *)
Definition compile_all (selectors : list RequestSelector)
    : list Matcher * option sortSpec :=
  foldl (fun '(ms, order) sel =>
    let '(m, sort) := compileSelector sel in
    (ms ++ option_list m, match sort with Some _ => sort | None => order end))
    ([], None) selectors.
End Compile.

(** ** Match traces *)

Record UpstreamMatchTrace := mkUpstreamMatchTrace {
  trace_UpstreamID : string;
  trace_Response : MatchResponse;
}.

Definition trace_Add (t : list UpstreamMatchTrace) (id : string) (r : MatchResponse)
    : list UpstreamMatchTrace :=
  if is_success r then t else t ++ [mkUpstreamMatchTrace id r].

Definition maxMatchTraceCauseLen : nat := 200.

Definition trace_Cause (t : list UpstreamMatchTrace) : string :=
  match t with
  | [] => "Response is empty"
  | _ =>
    let cause := String.concat "; "
      (map (fun item => trace_UpstreamID item +:+ " - " +:+ Cause (trace_Response item)) t) in
    if (maxMatchTraceCauseLen <? String.length cause)%nat
    then String.substring 0 maxMatchTraceCauseLen cause else cause
  end.

(** ** Facts about the matchers *)

(** The multi-matcher succeeds when every check does, and otherwise reports a
    failure of the most important (smallest) type. *)
Lemma MultiMatcher_success ms upId s :
  matches (MultiMatcher ms) upId s = forallb (fun m => matches m upId s) ms.
Proof.
  apply Bool.eq_iff_eq_true. unfold matches, is_success. rewrite Z.eqb_eq, forallb_forall. simpl.
  rewrite argmin_key_eq. setoid_rewrite <- list_elem_of_In. setoid_rewrite Z.eqb_eq. split.
  - intros (_ & Hl & _) m Hm. apply Z.le_antisymm; [apply Type_bounds|]. apply Hl.
    by apply (list_elem_of_fmap_2 (fun m => Match m upId s)).
  - intros Hall. split; [done|]. split; [|by left].
    intros r [m [-> Hm]]%list_elem_of_fmap. by rewrite (Hall m Hm).
Qed.

Lemma MultiMatcher_reason ms upId s :
  (forall m, m ∈ ms -> Type_ (Match (MultiMatcher ms) upId s) <= Type_ (Match m upId s)) /\
  (matches (MultiMatcher ms) upId s = false ->
   exists m, m ∈ ms /\ Match (MultiMatcher ms) upId s = Match m upId s).
Proof.
  simpl. split.
  - intros m Hm. apply argmin_le. by apply (list_elem_of_fmap_2 (fun m => Match m upId s)).
  - unfold matches. simpl. destruct (argmin_elem Type_ SuccessResponse
      (map (fun m => Match m upId s) ms)) as [->|Hin]; [done|].
    intros _. apply list_elem_of_fmap in Hin as [m [-> Hm]]. eauto.
Qed.

Lemma and_response_success rs :
  is_success (and_response rs) = forallb is_success rs.
Proof.
  unfold and_response. induction rs as [|r rs IH]; simpl; [done|].
  rewrite filter_cons. destruct (is_success r) eqn:E; simpl; [apply IH|done].
Qed.

Lemma or_response_success rs :
  is_success (or_response rs) = existsb is_success rs.
Proof. unfold or_response. by destruct (existsb is_success rs). Qed.

(** ** What a selector means

    The contract of the selector language: which upstreams a selector admits,
    independently of how it is compiled. *)

Section Meaning.
Context (predict : LowerHeightPredictor) (upId : string) (s : UpstreamState).

Fixpoint sel_holds (sel : RequestSelector) : bool :=
  match sel with
  | RequestNilSelector | RequestAnySelector => true
  | RequestLabelSelector n vs =>
      match Labels_GetLabel (st_labels s) n with
      | Some v => bool_decide (vs = []) || bool_decide (v ∈ vs)
      | None => false
      end
  | RequestExistsSelector n => bool_decide (is_Some (Labels_GetLabel (st_labels s) n))
  | RequestAndSelector cs => forallb sel_holds cs
  | RequestOrSelector cs => existsb sel_holds cs
  | RequestNotSelector c => negb (sel_holds c)
  | RequestHeightSelector h => h <=? i64 (Height (HeadData s))
  | RequestBlockTagSelector (BlockTagOther _) => false
  | RequestBlockTagSelector _ => true
  | RequestSlotHeightSelector h => h <=? i64 (Slot (HeadData s))
  | RequestLowerHeightSelector h t off delta =>
      (h =? 0) ||
      (negb (predict upId t off =? 0) && (i64 (predict upId t off - delta) <=? h))
  | RequestUnsupportedSelector _ => false
  end.
End Meaning.

(** The sort hint a selector carries, when its parts agree on one. *)
Definition first_sort (sorts : list (option sortSpec)) : option sortSpec :=
  head (omap id sorts).

Definition sorts_agree (sorts : list (option sortSpec)) : bool :=
  forallb (fun o => bool_decide (o = None) || bool_decide (o = first_sort sorts)) sorts.

Fixpoint sel_sort (sel : RequestSelector) : option sortSpec :=
  match sel with
  | RequestAndSelector cs => first_sort (map sel_sort cs)
  | RequestBlockTagSelector BlockTagLatest => Some (sort_by sortHeadDesc)
  | RequestBlockTagSelector BlockTagSafe => Some (sort_by sortSafeDesc)
  | RequestBlockTagSelector BlockTagFinalized => Some (sort_by sortFinalizedDesc)
  | RequestLowerHeightSelector h t off _ =>
      if h =? 0 then Some (mkSortSpec sortPredictedLowerBoundAsc (Some t) off) else None
  | _ => None
  end.

(** Whether a selector contributes a check at all. *)
Fixpoint restricts (sel : RequestSelector) : bool :=
  match sel with
  | RequestNilSelector | RequestAnySelector => false
  | RequestNotSelector c => restricts c
  | RequestBlockTagSelector (BlockTagOther _) => true
  | RequestBlockTagSelector _ => false
  | RequestLowerHeightSelector h _ _ _ => negb (h =? 0)
  | _ => true
  end.

(** The fragment the routing supports: under OR and NOT only selectors that are
    real checks, and no two different sort hints in one AND. *)
Fixpoint supported (sel : RequestSelector) : bool :=
  match sel with
  | RequestAndSelector cs => forallb supported cs && sorts_agree (map sel_sort cs)
  | RequestOrSelector cs =>
      forallb (fun c => supported c && restricts c && bool_decide (sel_sort c = None)) cs
  | RequestNotSelector c => supported c && restricts c && bool_decide (sel_sort c = None)
  | _ => true
  end.

(** Induction over selectors and their lists of children. *)
Section SelectorInd.
Context (P : RequestSelector -> Prop).
Context (Hleaf : forall sel,
  match sel with
  | RequestAndSelector _ | RequestOrSelector _ | RequestNotSelector _ => False
  | _ => True
  end -> P sel).
Context (Hand : forall cs, Forall P cs -> P (RequestAndSelector cs)).
Context (Hor : forall cs, Forall P cs -> P (RequestOrSelector cs)).
Context (Hnot : forall c, P c -> P (RequestNotSelector c)).

Fixpoint selector_ind (sel : RequestSelector) : P sel.
Proof using All.
  destruct sel; try (by apply Hleaf).
  - apply Hand. induction children; constructor; [apply selector_ind|done].
  - apply Hor. induction children; constructor; [apply selector_ind|done].
  - apply Hnot, selector_ind.
Defined.
End SelectorInd.

Definition holds_opt (m : option Matcher) (upId : string) (s : UpstreamState) : bool :=
  match m with Some m => matches m upId s | None => true end.

Lemma forallb_option_list m ms upId s :
  forallb (fun m => matches m upId s) (ms ++ option_list m) =
  forallb (fun m => matches m upId s) ms && holds_opt m upId s.
Proof. rewrite forallb_app. by destruct m; simpl; rewrite ?andb_true_r. Qed.

(** The AND loop on children that agree on their sort. *)
Lemma and_children_spec cs ms combined upId s :
  (forall o, o ∈ map snd cs -> o = None \/ o = match combined with
     | Some _ => combined | None => first_sort (map snd cs) end) ->
  let r := and_children cs ms combined in
  forallb (fun m => matches m upId s) r.1 =
    forallb (fun m => matches m upId s) ms && forallb (fun c => holds_opt c.1 upId s) cs /\
  r.2 = match combined with Some _ => combined | None => first_sort (map snd cs) end.
Proof.
  revert ms combined. induction cs as [|[m so] cs IH]; intros ms combined Hag; simpl in *.
  - rewrite andb_true_r. split; [done|]. by destruct combined.
  - destruct so as [so|].
    + destruct (Hag (Some so)) as [?|Heq]; [by left|done|].
      destruct (IH (ms ++ option_list m) (Some so)) as [IH1 IH2].
      { intros o Ho. destruct (Hag o) as [-> | ->]; [by right|by left|].
        right. destruct combined; [|done]. by simplify_eq. }
      destruct combined as [c|]; simplify_eq; [rewrite bool_decide_eq_true_2 by done|];
        by rewrite IH1, IH2, forallb_option_list, andb_assoc.
    + destruct (IH (ms ++ option_list m) combined) as [IH1 IH2].
      { intros o Ho. apply Hag. by right. }
      rewrite IH1, IH2, forallb_option_list, andb_assoc. done.
Qed.

Lemma first_sort_none sorts :
  first_sort sorts = None -> forall o, o ∈ sorts -> o = None.
Proof.
  unfold first_sort. induction sorts as [|[x|] sorts IH]; simpl.
  - by intros _ o ?%elem_of_nil.
  - done.
  - intros Hn o [->|Ho]%elem_of_cons; [done|by apply IH].
Qed.

Lemma or_children_spec cs ms :
  Forall (fun c => snd c = None /\ is_Some (fst c)) cs ->
  or_children cs ms = Some (ms ++ omap fst cs).
Proof.
  intros Hf. revert ms. induction Hf as [|[m so] cs [Hs [m' Hm]] Hf IH]; intros ms; simpl in *.
  - by rewrite app_nil_r.
  - subst. rewrite IH. simpl. by rewrite <- app_assoc.
Qed.

Section CompileCorrect.
Context (predict : LowerHeightPredictor) (upId : string) (s : UpstreamState).

Definition compile_ok (sel : RequestSelector) : Prop :=
  supported sel = true ->
  snd (compileSelector predict sel) = sel_sort sel /\
  bool_decide (is_Some (fst (compileSelector predict sel))) = restricts sel /\
  holds_opt (fst (compileSelector predict sel)) upId s = sel_holds predict upId s sel.

Lemma compile_leaf sel :
  match sel with
  | RequestAndSelector _ | RequestOrSelector _ | RequestNotSelector _ => False
  | _ => True
  end -> compile_ok sel.
Proof using Type.
  unfold compile_ok. destruct sel; try done; intros _ _; simpl;
    unfold matches; simpl; try (split_and!; done).
  - split_and!; try done. unfold match_label.
    destruct (Labels_GetLabel _ _); [|done]. by destruct (bool_decide _ || bool_decide _).
  - split_and!; try done. by destruct (Labels_GetLabel _ _).
  - split_and!; try done. unfold match_height. by destruct (_ <=? _).
  - by destruct tag.
  - split_and!; try done. unfold match_slot. by destruct (_ <=? _).
  - destruct (height =? 0) eqn:E; [done|]. split_and!; try done. simpl.
    unfold matches. simpl. unfold match_lower. by destruct (_ && _).
Qed.

Lemma compile_and cs : Forall compile_ok cs -> compile_ok (RequestAndSelector cs).
Proof using Type.
  intros Hcs Hs. simpl in *. reflect_bool.
  rewrite forallb_forall in H. setoid_rewrite <- list_elem_of_In in H.
  rewrite Forall_forall in Hcs.
  assert (map snd (map (compileSelector predict) cs) = map sel_sort cs) as Esort.
  { rewrite map_map. apply map_ext_in. intros c Hc%list_elem_of_In. by apply Hcs, H. }
  destruct (and_children_spec (map (compileSelector predict) cs) [] None upId s) as [E1 E2].
  { rewrite Esort. intros o Ho. unfold sorts_agree in H0. rewrite forallb_forall in H0.
    apply list_elem_of_In, H0 in Ho. reflect_bool. destruct Ho; reflect_bool; auto. }
  destruct (and_children _ _ _) as [ms so]. simpl in *. split_and!; [by rewrite E2, Esort|done|].
  unfold matches. simpl. rewrite and_response_success, forallb_map. unfold matches in E1.
  rewrite E1, forallb_map. apply forallb_ext_elem. intros c Hc. by apply Hcs, H.
Qed.

Lemma compile_or cs : Forall compile_ok cs -> compile_ok (RequestOrSelector cs).
Proof using Type.
  intros Hcs Hs. simpl in *. rewrite forallb_forall in Hs.
  rewrite Forall_forall in Hcs.
  assert (forall c, c ∈ cs -> snd (compileSelector predict c) = None /\
    is_Some (fst (compileSelector predict c)) /\
    holds_opt (fst (compileSelector predict c)) upId s = sel_holds predict upId s c) as Hc.
  { intros c Hin. pose proof (proj1 (list_elem_of_In cs c) Hin) as Hin'. apply Hs in Hin'.
    reflect_bool. destruct (Hcs c Hin) as (E1 & E2 & E3); [done|].
    rewrite E1. split; [done|]. split; [|done]. apply (bool_decide_eq_true _). by rewrite E2. }
  rewrite or_children_spec by (apply Forall_fmap, Forall_forall; naive_solver).
  simpl. split_and!; try done. unfold matches. simpl. rewrite or_response_success, existsb_map.
  clear Hs Hcs. induction cs as [|c cs IH]; simpl; [done|].
  destruct (Hc c) as (_ & [m Hm] & E); [by left|]. rewrite Hm in *. simpl.
  f_equal; [exact E|]. apply IH. intros; apply Hc; by right.
Qed.

Lemma compile_correct sel : compile_ok sel.
Proof using Type.
  induction sel as [sel Hl|cs|cs|c IH] using selector_ind;
    auto using compile_leaf, compile_and, compile_or.
  intros Hs. simpl in *. reflect_bool. destruct IH as (E1 & E2 & E3); [done|].
  rewrite <- E2 in H1. reflect_bool.
  destruct (compileSelector predict c) as [[m|] [so|]]; simpl in *; try congruence.
  - rewrite <- E2. split_and!; try done. unfold matches in *. simpl.
    rewrite <- E3. by destruct (is_success _).
  - by apply is_Some_None in H1.
Qed.
End CompileCorrect.

(** ** Outside the fragment

    A selector that is not of the fragment may admit fewer upstreams than it means
    to, but never others, as long as what it negates is of the fragment. *)
Fixpoint negations_supported (sel : RequestSelector) : bool :=
  match sel with
  | RequestAndSelector cs | RequestOrSelector cs => forallb negations_supported cs
  | RequestNotSelector c => supported (RequestNotSelector c)
  | _ => true
  end.

Section CompileSound.
Context (predict : LowerHeightPredictor) (upId : string) (s : UpstreamState).

Definition compile_sound (sel : RequestSelector) : Prop :=
  negations_supported sel = true ->
  holds_opt (fst (compileSelector predict sel)) upId s = true -> sel_holds predict upId s sel = true.

Lemma and_children_all cs ms combined :
  forallb (fun m => matches m upId s) (and_children cs ms combined).1 = true ->
  forallb (fun m => matches m upId s) ms = true /\ forallb (fun c => holds_opt c.1 upId s) cs = true.
Proof using Type.
  revert ms combined. induction cs as [|[m so] cs IH]; intros ms combined; [done|]. cbn [and_children forallb fst].
  assert (forall ms' combined', forallb (fun m => matches m upId s) (and_children cs ((ms ++ option_list m) ++ ms') combined').1 = true ->
    forallb (fun m => matches m upId s) ms = true /\ holds_opt m upId s && forallb (fun c => holds_opt c.1 upId s) cs = true) as Hgo.
  { intros ms' combined' (Hms & Hcs)%IH. rewrite forallb_app, forallb_option_list in Hms.
    apply andb_true_iff in Hms as [(H1 & H2)%andb_true_iff _]. by rewrite H1, H2, Hcs. }
  destruct so as [so|]; [destruct combined as [c|]; [case_bool_decide|]|]; intros Hx.
  2: by eapply Hgo.
  all: eapply (Hgo []); rewrite app_nil_r; exact Hx.
Qed.

Lemma or_children_some cs ms ms' :
  or_children cs ms = Some ms' -> existsb (fun m => matches m upId s) ms' = true ->
  existsb (fun m => matches m upId s) ms = true \/ existsb (fun c => holds_opt c.1 upId s) cs = true.
Proof using Type.
  revert ms. induction cs as [|[m [so|]] cs IH]; intros ms; cbn [or_children existsb fst]; [by intros [= ->]; left|done|].
  intros H Hm. destruct (IH _ H Hm) as [Hms|Hcs]; [|right; by rewrite Hcs, orb_true_r].
  rewrite existsb_app in Hms. apply orb_true_iff in Hms as [Hms|Hms]; [by left|right].
  destruct m as [m|]; simpl in *; [|done]. rewrite orb_false_r in Hms. by rewrite Hms.
Qed.

Lemma children_sound cs :
  Forall compile_sound cs -> forallb negations_supported cs = true ->
  forall c, c ∈ cs -> holds_opt (fst (compileSelector predict c)) upId s = true -> sel_holds predict upId s c = true.
Proof using Type.
  intros Hcs Hn c Hc. rewrite Forall_forall in Hcs. apply Hcs; [done|].
  rewrite forallb_forall in Hn. by apply Hn, list_elem_of_In.
Qed.

Lemma sound_and cs : Forall compile_sound cs -> compile_sound (RequestAndSelector cs).
Proof using Type.
  intros Hcs Hn Hh. pose proof (children_sound cs Hcs Hn) as Hc. cbn [compileSelector] in Hh.
  pose proof (and_children_all (map (compileSelector predict) cs) [] None) as Ha.
  destruct (and_children _ _ _) as [ms so]. cbn [fst holds_opt] in *. unfold matches in Hh. cbn [Match] in Hh.
  rewrite and_response_success, forallb_map in Hh. destruct (Ha Hh) as [_ Hall]. rewrite forallb_map in Hall.
  cbn [sel_holds]. rewrite forallb_forall in *. intros c Hin. by apply Hc; [apply list_elem_of_In|apply Hall].
Qed.

Lemma sound_or cs : Forall compile_sound cs -> compile_sound (RequestOrSelector cs).
Proof using Type.
  intros Hcs Hn Hh. pose proof (children_sound cs Hcs Hn) as Hc. cbn [compileSelector] in Hh.
  destruct (or_children _ _) as [ms|] eqn:Eo; [|done]. cbn [fst holds_opt] in *. unfold matches in Hh. cbn [Match] in Hh.
  rewrite or_response_success, existsb_map in Hh. destruct (or_children_some _ _ _ Eo Hh) as [|Hex]; [done|].
  rewrite existsb_map in Hex. cbn [sel_holds]. rewrite existsb_exists in *. destruct Hex as (c & Hin & Hx).
  exists c. split; [done|]. by apply Hc; [apply list_elem_of_In|].
Qed.

Lemma compile_all_sound sel : compile_sound sel.
Proof using Type.
  induction sel as [sel Hl|cs|cs|c IH] using selector_ind; auto using sound_and, sound_or; intros Hn Hh.
  - destruct (compile_leaf predict upId s sel Hl) as (_ & _ & <-); [by destruct sel|done].
  - destruct (compile_correct predict upId s (RequestNotSelector c) Hn) as (_ & _ & <-). done.
Qed.
End CompileSound.

(** C11. Compiling a selector keeps its meaning where routing supports it: no sort
    hint below an OR or a NOT, below them only selectors that are checks (an
    alternative that admits every upstream is dropped, see
    [compileSelector_or_any]), and no two different sort hints in one AND.  There the
    compiled check admits an upstream exactly when the selector does (a selector
    that compiles to no check admits every upstream), and the sort hint is the one
    the selector carries.  Outside of this fragment the check never admits an
    upstream the selector does not, as long as what is negated is of the fragment.
    Heights are compared as the signed 64-bit values the code converts them to. *)
Theorem compileSelector_correct predict sel upId s :
  (supported sel = true ->
   snd (compileSelector predict sel) = sel_sort sel /\
   holds_opt (fst (compileSelector predict sel)) upId s = sel_holds predict upId s sel) /\
  (negations_supported sel = true ->
   holds_opt (fst (compileSelector predict sel)) upId s = true -> sel_holds predict upId s sel = true).
Proof.
  split; [|by apply compile_all_sound]. intros Hs. by destruct (compile_correct predict upId s sel Hs) as (? & _ & ?).
Qed.

(** An upstream at height 100 with one label, used by the witnesses. *)
Definition demo_state : UpstreamState :=
  set_HeadData (NewBlockWithHeight 100)
    (set_Labels (Labels_AddLabel "client" "reth" NewLabels)
      (DefaultUpstreamState (mkUpstreamMethods (defaultMethods demo_groups)
        (dom (defaultMethods demo_groups))) {[WsCap]} "00001" None None)).

Definition demo_selector : RequestSelector :=
  RequestAndSelector [
    RequestOrSelector [RequestLabelSelector "client" ["geth"; "reth"]; RequestHeightSelector 200];
    RequestNotSelector (RequestExistsSelector "region");
    RequestBlockTagSelector BlockTagLatest].

Lemma compileSelector_correct_witness :
  sel_holds (fun _ _ _ => 0) "up" demo_state demo_selector = true /\
  snd (compileSelector (fun _ _ _ => 0) demo_selector) = sel_sort demo_selector /\
  holds_opt (fst (compileSelector (fun _ _ _ => 0) demo_selector)) "up" demo_state =
    sel_holds (fun _ _ _ => 0) "up" demo_state demo_selector.
Proof.
  split; [by vm_compute|].
  apply (compileSelector_correct (fun _ _ _ => 0) demo_selector "up" demo_state).
  by vm_compute.
Defined.

(** Outside the supported fragment the meaning is lost: an OR with an
    "any" alternative admits every upstream by its meaning, but compiling it
    drops that alternative, and [OR(any)] then admits none. *)
Theorem compileSelector_or_any predict n vs upId s :
  sel_holds predict upId s (RequestOrSelector [RequestAnySelector]) = true /\
  holds_opt (fst (compileSelector predict (RequestOrSelector [RequestAnySelector]))) upId s = false /\
  sel_holds predict upId s
    (RequestOrSelector [RequestAnySelector; RequestLabelSelector n vs]) = true /\
  holds_opt (fst (compileSelector predict
    (RequestOrSelector [RequestAnySelector; RequestLabelSelector n vs]))) upId s =
    sel_holds predict upId s (RequestLabelSelector n vs).
Proof.
  split_and!; try done. simpl. unfold matches. simpl. unfold or_response, match_label. simpl.
  destruct (Labels_GetLabel _ _); [|done]. by destruct (bool_decide _ || bool_decide _).
Qed.
