(* ===== verification/GrpcSelectors.v ===== *)
(** The selectors of gRPC requests ([internal/server/emerald/selector_mapper.go]):
    their translation into the selectors of the router, and what a client's
    selectors make of the choice of the upstream.

    The messages are those of [pkg/dshackle/blockchain.pb.go], with an absent
    message as [None] and an enumeration as its number. *)

From S2P Require Import Prelude.
From S2P Require Import GoStrings.
From S2P Require Import Protocol.
From S2P Require Import Specs.
From S2P Require Import Methods.
From S2P Require Import UpstreamState.
From S2P Require Import Matchers.

#[local] Arguments String.append !_ _ /.

(** ** Messages *)

Definition BlockTag_LATEST : Z := 2.
Definition BlockTag_SAFE : Z := 3.
Definition BlockTag_FINALIZED : Z := 4.

Definition LOWER_BOUND_UNSPECIFIED : Z := 0.
Definition LOWER_BOUND_SLOT : Z := 1.
Definition LOWER_BOUND_STATE : Z := 2.
Definition LOWER_BOUND_BLOCK : Z := 3.
Definition LOWER_BOUND_TX : Z := 4.
Definition LOWER_BOUND_LOGS : Z := 5.
Definition LOWER_BOUND_TRACE : Z := 6.
Definition LOWER_BOUND_PROOF : Z := 7.
Definition LOWER_BOUND_BLOB : Z := 8.
Definition LOWER_BOUND_EPOCH : Z := 9.
Definition LOWER_BOUND_RECEIPTS : Z := 10.

(** The member [heightOrNumber]. *)
Inductive HeightOrNumber := NumberHeight (number : Z) | TagHeight (tag : Z).

Record HeightSelectorMsg := mkHeightSelector { hs_Height : Z; hs_HeightOrNumber : option HeightOrNumber }.

Record LowerHeightSelectorMsg := mkLowerHeightSelector {
  lh_Height : Z; lh_LowerBoundType : Z; lh_TimeOffset : Z; lh_HeightDelta : Z;
}.

(** [VersionSelector] stands for both version selectors, [EmptySelector] for a
    message without a type or of a type that is not known. *)
Inductive Selector :=
| LabelSelector (label : option (string * list string))
| ExistsSelector (name : string)
| AndSelector (selectors : list (option Selector))
| OrSelector (selectors : list (option Selector))
| NotSelector (selector : option Selector)
| HeightSelector (selector : option HeightSelectorMsg)
| SlotHeightSelector (slotHeight : Z)
| LowerHeightSelector (selector : option LowerHeightSelectorMsg)
| VersionSelector
| EmptySelector.

Section SelectorInd.
Context (P : Selector -> Prop).
Definition optionP (o : option Selector) : Prop := match o with Some s => P s | None => True end.
Context (Hleaf : forall s, match s with AndSelector _ | OrSelector _ | NotSelector _ => False | _ => True end -> P s).
Context (Hand : forall l, Forall optionP l -> P (AndSelector l)).
Context (Hor : forall l, Forall optionP l -> P (OrSelector l)).
Context (Hnot : forall o, optionP o -> P (NotSelector o)).

Fixpoint Selector_rec' (s : Selector) : P s.
Proof using All.
  destruct s as [| |l|l|o| | | | |]; try (by apply Hleaf).
  - apply Hand. induction l as [|[s|] l IH]; constructor; [apply Selector_rec'|done|done|done].
  - apply Hor. induction l as [|[s|] l IH]; constructor; [apply Selector_rec'|done|done|done].
  - apply Hnot. destruct o; [apply Selector_rec'|done].
Defined.
End SelectorInd.

(** ** The translation *)

Definition compactStrings (values : list string) : list string :=
  List.filter (fun v => negb (bool_decide (v = ""))) (map TrimSpace values).

(** [tag.String()] and [boundType.String()] of the generated code only appear in
    texts: [enum_name] is the text of a number. *)
Section Mapping.
Context (tag_name bound_name : Z -> string).

Definition mapDshackleBlockTag (tag : Z) : option RequestBlockTag :=
  if tag =? BlockTag_LATEST then Some BlockTagLatest
  else if tag =? BlockTag_SAFE then Some BlockTagSafe
  else if tag =? BlockTag_FINALIZED then Some BlockTagFinalized
  else None.

Definition mapDshackleLowerBoundType (boundType : Z) : option LowerBoundType :=
  if boundType =? LOWER_BOUND_SLOT then Some SlotBound
  else if boundType =? LOWER_BOUND_STATE then Some StateBound
  else if boundType =? LOWER_BOUND_BLOCK then Some BlockBound
  else if boundType =? LOWER_BOUND_TX then Some TxBound
  else if boundType =? LOWER_BOUND_RECEIPTS then Some ReceiptsBound
  else if boundType =? LOWER_BOUND_LOGS then Some LogsBound
  else if boundType =? LOWER_BOUND_TRACE then Some TraceBound
  else if boundType =? LOWER_BOUND_PROOF then Some ProofBound
  else if boundType =? LOWER_BOUND_BLOB then Some BlobBound
  else if boundType =? LOWER_BOUND_EPOCH then Some EpochBound
  else None.

Definition mapDshackleHeightSelector (selector : option HeightSelectorMsg) : RequestSelector :=
  match selector with
  | None => RequestAnySelector
  | Some m =>
    match hs_HeightOrNumber m with
    | Some (NumberHeight number) =>
      if two63 - 1 <? number
      then RequestUnsupportedSelector ("height selector number " +:+ pretty number +:+
             " exceeds max supported height " +:+ pretty (two63 - 1))
      else RequestHeightSelector (i64 number)
    | Some (TagHeight tag) =>
      match mapDshackleBlockTag tag with
      | None => RequestUnsupportedSelector ("height selector tag " +:+ tag_name tag +:+ " is not supported")
      | Some blockTag => RequestBlockTagSelector blockTag
      end
    | None =>
      if hs_Height m =? -1 then RequestBlockTagSelector BlockTagLatest
      else if hs_Height m <? 0
      then RequestUnsupportedSelector ("height selector value " +:+ pretty (hs_Height m) +:+ " is not supported")
      else RequestHeightSelector (hs_Height m)
    end
  end.

Definition mapDshackleLowerHeightSelector (selector : option LowerHeightSelectorMsg) : RequestSelector :=
  match selector with
  | None => RequestAnySelector
  | Some m =>
    if lh_Height m <? 0
    then RequestUnsupportedSelector ("lower height selector value " +:+ pretty (lh_Height m) +:+ " is not supported")
    else if lh_HeightDelta m <? 0
    then RequestUnsupportedSelector ("lower height selector delta " +:+ pretty (lh_HeightDelta m) +:+ " is not supported")
    else match mapDshackleLowerBoundType (lh_LowerBoundType m) with
    | None => RequestUnsupportedSelector ("lower bound type " +:+ bound_name (lh_LowerBoundType m) +:+ " is not supported")
    | Some boundType => RequestLowerHeightSelector (lh_Height m) boundType (lh_TimeOffset m) (lh_HeightDelta m)
    end
  end.

Definition map_label (label : option (string * list string)) : RequestSelector :=
  match label with
  | None => RequestAnySelector
  | Some (name, values) =>
    if bool_decide (TrimSpace name = "") then RequestAnySelector else RequestLabelSelector name (compactStrings values)
  end.

Definition map_slot (slotHeight : Z) : RequestSelector :=
  if slotHeight <? 0
  then RequestUnsupportedSelector ("slot height selector value " +:+ pretty slotHeight +:+ " is not supported")
  else RequestSlotHeightSelector slotHeight.

(** The selector of a message that is not nil. *)
Fixpoint map_selector (selector : Selector) : RequestSelector :=
  let map_child := fun o : option Selector => match o with None => RequestAnySelector | Some s => map_selector s end in
  match selector with
  | LabelSelector label => map_label label
  | ExistsSelector name => RequestExistsSelector name
  | AndSelector l => RequestAndSelector (map map_child l)
  | OrSelector l => RequestOrSelector (map map_child l)
  | NotSelector o => RequestNotSelector (map_child o)
  | HeightSelector m => mapDshackleHeightSelector m
  | SlotHeightSelector h => map_slot h
  | LowerHeightSelector m => mapDshackleLowerHeightSelector m
  | VersionSelector => RequestUnsupportedSelector "version selectors are not supported in nodecore routing"
  | EmptySelector => RequestUnsupportedSelector "unsupported selector"
  end.

Definition mapDshackleSelector (selector : option Selector) : RequestSelector :=
  match selector with None => RequestAnySelector | Some s => map_selector s end.

Definition mapDshackleSelectors (selectors : list (option Selector)) : list RequestSelector :=
  map mapDshackleSelector selectors.

(** ** Conflicting hints *)

(** [kind] is the text [block:n], or [lower]. *)
Record selectorSortSpec := mkSelectorSortSpec {
  ss_kind : string; ss_boundType : option LowerBoundType; ss_offset : Z;
}.

#[export] Instance selectorSortSpec_eq_dec : EqDecision selectorSortSpec.
Proof. solve_decision. Defined.

Definition tag_code (tag : RequestBlockTag) : Z :=
  match tag with BlockTagLatest => 0 | BlockTagSafe => 1 | BlockTagFinalized => 2 | BlockTagOther t => t end.

Definition requestSelectorSortSpec (selector : RequestSelector) : option selectorSortSpec :=
  match selector with
  | RequestBlockTagSelector tag => Some (mkSelectorSortSpec ("block:" +:+ pretty (tag_code tag)) None 0)
  | RequestLowerHeightSelector height boundType timeOffset _ =>
    if height =? 0 then Some (mkSelectorSortSpec "lower" (Some boundType) timeOffset) else None
  | _ => None
  end.

(** The loop, with the hint found so far. *)
Fixpoint conflicting (current : option selectorSortSpec) (selectors : list RequestSelector) : bool :=
  match selectors with
  | [] => false
  | selector :: rest =>
    match requestSelectorSortSpec selector with
    | None => conflicting current rest
    | Some spec =>
      match current with
      | Some c => if bool_decide (c <> spec) then true else conflicting (Some spec) rest
      | None => conflicting (Some spec) rest
      end
    end
  end.

Definition rejectConflictingSortSelectors (selectors : list RequestSelector) : string + list RequestSelector :=
  if conflicting None selectors then inl "conflicting selector sort hints are not supported" else inr selectors.

(** [mapNativeCallSelectors] of [native_call_adapter.go]: the selector of the call,
    when it has one, and those of the item. *)
Definition mapNativeCallSelectors (requestSelector : option Selector) (itemSelectors : list (option Selector))
    : string + list RequestSelector :=
  rejectConflictingSortSelectors
    (match requestSelector with Some s => [map_selector s] | None => [] end ++ mapDshackleSelectors itemSelectors).

(** ** What the selectors of a client ask for *)

Section Meaning.
Context (predict : LowerHeightPredictor) (upId : string) (s : UpstreamState).

Definition label_asked (name : string) (values : list string) : bool :=
  if bool_decide (TrimSpace name = "") then true
  else match Labels_GetLabel (st_labels s) name with
       | None => false
       | Some v => let vs := compactStrings values in bool_decide (vs = []) || bool_decide (v ∈ vs)
       end.

Definition height_asked (m : HeightSelectorMsg) : bool :=
  match hs_HeightOrNumber m with
  | Some (NumberHeight n) => (n <? two63) && (n <=? i64 (Height (HeadData s)))
  | Some (TagHeight t) => bool_decide (t ∈ [BlockTag_LATEST; BlockTag_SAFE; BlockTag_FINALIZED])
  | None => (hs_Height m =? -1) || ((0 <=? hs_Height m) && (hs_Height m <=? i64 (Height (HeadData s))))
  end.

Definition lower_asked (m : LowerHeightSelectorMsg) : bool :=
  (0 <=? lh_Height m) && (0 <=? lh_HeightDelta m) &&
  match mapDshackleLowerBoundType (lh_LowerBoundType m) with
  | None => false
  | Some t => (lh_Height m =? 0) ||
      (negb (predict upId t (lh_TimeOffset m) =? 0) &&
       (i64 (predict upId t (lh_TimeOffset m) - lh_HeightDelta m) <=? lh_Height m))
  end.

(** Whether an upstream is one the client asks for; what the router does not
    support asks for none. *)
Fixpoint asked (selector : Selector) : bool :=
  let child := fun o : option Selector => match o with None => true | Some x => asked x end in
  match selector with
  | LabelSelector None | HeightSelector None | LowerHeightSelector None => true
  | LabelSelector (Some (name, values)) => label_asked name values
  | ExistsSelector name => bool_decide (is_Some (Labels_GetLabel (st_labels s) name))
  | AndSelector l => forallb child l
  | OrSelector l => existsb child l
  | NotSelector o => negb (child o)
  | HeightSelector (Some m) => height_asked m
  | SlotHeightSelector h => (0 <=? h) && (h <=? i64 (Slot (HeadData s)))
  | LowerHeightSelector (Some m) => lower_asked m
  | VersionSelector | EmptySelector => false
  end.

Definition asked_opt (o : option Selector) : bool := match o with None => true | Some x => asked x end.

(** The numbers of the messages are of their types. *)
Fixpoint sized (selector : Selector) : bool :=
  let child := fun o : option Selector => match o with None => true | Some x => sized x end in
  match selector with
  | AndSelector l | OrSelector l => forallb child l
  | NotSelector o => child o
  | HeightSelector (Some (mkHeightSelector _ (Some (NumberHeight n)))) => 0 <=? n
  | _ => true
  end.

Lemma map_height_asked m : sized (HeightSelector (Some m)) = true ->
  sel_holds predict upId s (mapDshackleHeightSelector (Some m)) = height_asked m.
Proof using All.
  destruct m as [h [[n|t]|]]; simpl; intros Hs; unfold height_asked; simpl.
  - reflect_bool. destruct (two63 - 1 <? n) eqn:E; reflect_bool; simpl.
    + destruct (n <? two63) eqn:E2; [|done]. reflect_bool. lia.
    + rewrite i64_id by (unfold is_i64, two63 in *; lia). destruct (n <? two63) eqn:E2; [done|]. reflect_bool. lia.
  - unfold mapDshackleBlockTag. destruct (t =? BlockTag_LATEST) eqn:E1; reflect_bool; [subst; done|].
    destruct (t =? BlockTag_SAFE) eqn:E2; reflect_bool; [subst; done|].
    destruct (t =? BlockTag_FINALIZED) eqn:E3; reflect_bool; [subst; done|]. simpl.
    symmetry. apply bool_decide_eq_false. set_solver.
  - destruct (h =? -1) eqn:E1; [done|]. reflect_bool. simpl. destruct (h <? 0) eqn:E2; reflect_bool; simpl.
    + destruct (0 <=? h) eqn:E3; [|done]. reflect_bool. lia.
    + destruct (0 <=? h) eqn:E3; [done|]. reflect_bool. lia.
Qed.

Lemma map_lower_asked m : sel_holds predict upId s (mapDshackleLowerHeightSelector (Some m)) = lower_asked m.
Proof using All.
  unfold lower_asked. simpl. rewrite !Z.leb_antisym. destruct (lh_Height m <? 0); [done|]. destruct (lh_HeightDelta m <? 0); [done|].
  destruct (mapDshackleLowerBoundType _); done.
Qed.

Lemma map_slot_asked h : sel_holds predict upId s (map_slot h) = (0 <=? h) && (h <=? i64 (Slot (HeadData s))).
Proof using Type. unfold map_slot. rewrite (Z.leb_antisym h 0). by destruct (h <? 0). Qed.

(** The translation keeps the meaning. *)
Lemma map_selector_asked selector : sized selector = true ->
  sel_holds predict upId s (map_selector selector) = asked selector.
Proof using All.
  induction selector as [x Hx|l IH|l IH|o IH] using Selector_rec'.
  - destruct x as [[[name values]|]| | | | |[m|]|h|[m|]| |]; intros Hs; try done.
    + simpl. unfold label_asked. case_bool_decide; [done|]. simpl. by destruct (Labels_GetLabel _ _).
    + by apply map_height_asked.
    + apply map_slot_asked.
    + apply map_lower_asked.
  - simpl. induction IH as [|[x|] l Hx Hl IHl]; simpl; [done| |exact IHl].
    intros [H1 H2]%andb_true_iff. by rewrite Hx, IHl.
  - simpl. induction IH as [|[x|] l Hx Hl IHl]; simpl; [done| |done].
    intros [H1 H2]%andb_true_iff. by rewrite Hx, IHl.
  - destruct o as [x|]; simpl; [|done]. intros Hs. by rewrite IH.
Qed.
End Meaning.

(** ** The hints of the selectors *)

Definition is_and (selector : RequestSelector) : bool := match selector with RequestAndSelector _ => true | _ => false end.

(** A tag the translation may give. *)
Definition known_tag (selector : RequestSelector) : bool :=
  match selector with RequestBlockTagSelector (BlockTagOther _) => false | _ => true end.

Lemma mapped_known_tag o : known_tag (mapDshackleSelector o) = true.
Proof using All.
  destruct o as [x|]; [|done]. destruct x as [[[name values]|]| | | | |[[h [[n|t]|]]|]|h|[m|]| |]; try done.
  - simpl. by case_bool_decide.
  - simpl. by destruct (_ <? n).
  - simpl. unfold mapDshackleBlockTag. repeat (destruct (t =? _); [done|]). done.
  - simpl. destruct (h =? -1); [done|]. by destruct (h <? 0).
  - simpl. unfold map_slot. by destruct (h <? 0).
  - simpl. repeat (destruct (_ <? 0); [done|]). by destruct (mapDshackleLowerBoundType _).
Qed.

Lemma hint_of_spec x : known_tag x = true -> is_and x = false ->
  match requestSelectorSortSpec x with
  | Some spec => sel_sort x = Some (match ss_boundType spec with
      | Some t => mkSortSpec sortPredictedLowerBoundAsc (Some t) (ss_offset spec)
      | None => if bool_decide (ss_kind spec = "block:0") then sort_by sortHeadDesc
                else if bool_decide (ss_kind spec = "block:1") then sort_by sortSafeDesc else sort_by sortFinalizedDesc
      end)
  | None => sel_sort x = None
  end.
Proof using Type.
  destruct x as [| | | | | | | |[]| |h t off delta|]; try done. simpl. by destruct (h =? 0).
Qed.

(** The hints the loop passes are all the same. *)
Lemma conflicting_false current l : conflicting current l = false ->
  forall x spec, x ∈ l -> requestSelectorSortSpec x = Some spec ->
    (forall c, current = Some c -> spec = c) /\
    (forall y spec', y ∈ l -> requestSelectorSortSpec y = Some spec' -> spec' = spec).
Proof using Type.
  revert current. induction l as [|z l IH]; intros current; simpl; [intros _ x spec Hx; set_solver|].
  destruct (requestSelectorSortSpec z) as [sz|] eqn:Ez.
  - intros Hc. assert (conflicting (Some sz) l = false /\ forall c, current = Some c -> sz = c) as [Hl Hcur].
    { destruct current as [c|]; [|by split]. case_bool_decide as E; [done|]. split; [done|]. intros ? [= <-].
      by destruct (decide (c = sz)). }
    assert (forall y spec, y ∈ z :: l -> requestSelectorSortSpec y = Some spec -> spec = sz) as Hall.
    { intros y spec [->|Hy]%elem_of_cons Hs; [congruence|]. by destruct (IH _ Hl y spec Hy Hs) as [H _]; apply H. }
    intros x spec Hx Hs. rewrite (Hall x spec Hx Hs). split; [done|]. apply Hall.
  - intros Hl x spec [->|Hx]%elem_of_cons Hs; [congruence|]. destruct (IH _ Hl x spec Hx Hs) as [H1 H2].
    split; [done|]. intros y spec' [->|Hy]%elem_of_cons Hy'; [congruence|]. by eapply H2.
Qed.
End Mapping.

Lemma compile_all_app predict sels x :
  compile_all predict (sels ++ [x]) =
  ((compile_all predict sels).1 ++ option_list (compileSelector predict x).1,
   match (compileSelector predict x).2 with Some so => Some so | None => (compile_all predict sels).2 end).
Proof.
  unfold compile_all. rewrite foldl_snoc. destruct (foldl _ _ sels) as [ms order].
  by destruct (compileSelector predict x) as [m [so|]].
Qed.

Lemma compile_all_holds predict upId s sels : Forall (fun x => supported x = true) sels ->
  forallb (fun m => matches m upId s) (compile_all predict sels).1 = forallb (sel_holds predict upId s) sels /\
  (compile_all predict sels).2 = last (omap sel_sort sels).
Proof.
  induction sels as [|x sels IH] using rev_ind; [done|]. intros [Hs Hx]%Forall_app.
  apply Forall_cons in Hx as [Hx _]. destruct (IH Hs) as [IH1 IH2].
  destruct (compile_correct predict upId s x Hx) as (E1 & _ & E3).
  rewrite compile_all_app. cbn [fst snd]. rewrite forallb_option_list, forallb_app, IH1, E3. simpl. rewrite andb_true_r.
  split; [done|]. rewrite E1, omap_app, last_app, IH2. simpl. by destruct (sel_sort x).
Qed.

(** ** The choice of upstreams *)

Lemma last_hint sels o : last (omap sel_sort sels) = Some o -> exists x, x ∈ sels /\ sel_sort x = Some o.
Proof.
  intros [l E]%last_Some. assert (o ∈ omap sel_sort sels) as (x & Hx & Hs)%list_elem_of_omap by (rewrite E; set_solver). eauto.
Qed.

Definition sized_opt (o : option Selector) : Prop := match o with Some x => sized x = true | None => True end.

Lemma map_selectors_asked tag_name bound_name predict upId s l : Forall sized_opt l ->
  forallb (sel_holds predict upId s) (mapDshackleSelectors tag_name bound_name l) = forallb (asked_opt predict upId s) l.
Proof.
  intros Hl. unfold mapDshackleSelectors. induction Hl as [|[x|] l Ho Hl IH]; simpl; [done| |done].
  by rewrite map_selector_asked, IH.
Qed.

(** Of the hints outside ANDs, none of which conflicts, each is the last. *)
Lemma hints_agree l x o : conflicting None l = false -> Forall (fun y => known_tag y = true) l ->
  (forall y, y ∈ l -> is_and y = true -> sel_sort y = None) ->
  x ∈ l -> sel_sort x = Some o -> last (omap sel_sort l) = Some o.
Proof.
  intros Hc Ht Ha Hx Hs. rewrite Forall_forall in Ht.
  assert (forall y, y ∈ l -> is_Some (sel_sort y) -> is_and y = false) as Hn.
  { intros y Hy [oy Ey]. destruct (is_and y) eqn:E; [|done]. rewrite (Ha y Hy E) in Ey. done. }
  destruct (last (omap sel_sort l)) as [o'|] eqn:El.
  - apply last_hint in El as (y & Hy & Hsy). f_equal.
    pose proof (hint_of_spec x (Ht x Hx) (Hn x Hx ltac:(eauto))) as Hhx.
    pose proof (hint_of_spec y (Ht y Hy) (Hn y Hy ltac:(eauto))) as Hhy.
    destruct (requestSelectorSortSpec x) as [sx|] eqn:Ex; [|congruence].
    destruct (requestSelectorSortSpec y) as [sy|] eqn:Ey; [|congruence].
    destruct (conflicting_false None l Hc x sx Hx Ex) as [_ He]. rewrite (He y sy Hy Ey) in Hhy. congruence.
  - apply last_None in El. assert (o ∈ omap sel_sort l) as Hin by (apply list_elem_of_omap; eauto).
    rewrite El in Hin. set_solver.
Qed.

(** What the checks of a list of selectors admit, the selectors do. *)
Lemma compile_all_admits predict upId s sels :
  Forall (fun x => negations_supported x = true) sels ->
  forallb (fun m => matches m upId s) (compile_all predict sels).1 = true -> forallb (sel_holds predict upId s) sels = true.
Proof.
  induction sels as [|x sels IH] using rev_ind; [done|]. intros [Hs [Hx _]%Forall_cons]%Forall_app.
  rewrite compile_all_app. cbn [fst]. rewrite forallb_option_list, forallb_app. simpl. rewrite andb_true_r.
  intros [H1 H2]%andb_true_iff. by rewrite IH, (compile_all_sound predict upId s x Hx).
Qed.

(** C35. A gRPC call goes where its selectors ask, once the selectors of the call and of
    its item are accepted (a number of a height is unsigned on the wire).  When the
    router supports their translation (no order hint below an OR or a NOT, below them
    only checks, no two different hints in one AND), the checks made of them admit
    exactly the upstreams that all of the selectors ask for, and the order in which
    these are tried is the hint of the last selector that has one.  When no hint is
    inside an AND this is every hint among them: selectors with different hints are
    refused.  A hint inside an AND is not compared with the others: the last one takes
    its place ([conflict_inside_and_accepted]).  When the router does not support the
    translation, still no upstream is admitted that one of the selectors does not ask
    for, unless what is not supported is below a NOT. *)
Theorem selectors_routed_as_asked tag_name bound_name predict requestSelector itemSelectors sels upId s :
  mapNativeCallSelectors tag_name bound_name requestSelector itemSelectors = inr sels ->
  Forall sized_opt (requestSelector :: itemSelectors) ->
  let admitted := forallb (fun m => matches m upId s) (compile_all predict sels).1 in
  let asked := forallb (asked_opt predict upId s) (requestSelector :: itemSelectors) in
  (Forall (fun x => supported x = true) sels ->
   admitted = asked /\ (compile_all predict sels).2 = last (omap sel_sort sels) /\
   ((forall x, x ∈ sels -> is_and x = true -> sel_sort x = None) ->
    forall x o, x ∈ sels -> sel_sort x = Some o -> (compile_all predict sels).2 = Some o)) /\
  (Forall (fun x => negations_supported x = true) sels -> admitted = true -> asked = true).
Proof.
  intros Hm [H0 Hz]%Forall_cons. cbv zeta.
  unfold mapNativeCallSelectors, rejectConflictingSortSelectors in Hm.
  destruct (conflicting None _) eqn:Ec; [done|]. injection Hm as <-.
  set (sels := _ ++ _) in *.
  assert (forallb (sel_holds predict upId s) sels = forallb (asked_opt predict upId s) (requestSelector :: itemSelectors)) as Hasked.
  { unfold sels. rewrite forallb_app, map_selectors_asked by done. simpl. f_equal.
    destruct requestSelector; simpl; [|done]. by rewrite andb_true_r, map_selector_asked. }
  split; [|rewrite <- Hasked; by apply compile_all_admits].
  intros Hsup. destruct (compile_all_holds predict upId s sels Hsup) as [-> ->]. split_and!; [done..|].
  intros Ha x o. apply hints_agree; [done| |done]. apply Forall_app. split.
  - destruct requestSelector as [q|]; constructor; [|constructor]. apply (mapped_known_tag _ _ (Some q)).
  - apply Forall_fmap, Forall_forall. intros y _. apply mapped_known_tag.
Qed.

Definition some_tag (n : Z) : string := pretty n.

(** The nodes with an archive, the freshest first. *)
Lemma selectors_routed_as_asked_witness :
  let archive := LabelSelector (Some ("client", [" geth "; "reth"])) in
  let latest := HeightSelector (Some (mkHeightSelector (-1) None)) in
  exists sels, mapNativeCallSelectors some_tag some_tag (Some archive) [Some latest; None] = inr sels /\
    forallb (fun m => matches m "up" demo_state) (compile_all (fun _ _ _ => 0) sels).1 = true /\
    (compile_all (fun _ _ _ => 0) sels).2 = Some (sort_by sortHeadDesc).
Proof.
  eexists. split; [reflexivity|].
  destruct (selectors_routed_as_asked some_tag some_tag (fun _ _ _ => 0)
    (Some (LabelSelector (Some ("client", [" geth "; "reth"])))) [Some (HeightSelector (Some (mkHeightSelector (-1) None))); None]
    _ "up" demo_state eq_refl) as [H _]; [repeat constructor|].
  destruct H as (H1 & _ & H2).
  - repeat constructor.
  - split; [rewrite H1; vm_compute; reflexivity|]. apply (H2 ltac:(intros x Hx; repeat (apply elem_of_cons in Hx as [->|Hx]; [done|]); set_solver)
      (RequestBlockTagSelector BlockTagLatest)); [set_solver|reflexivity].
Defined.

(** ** What is not refused

    A conflict with a hint inside an AND is not seen: the last hint is taken. *)
Lemma conflict_inside_and_accepted :
  let latest := HeightSelector (Some (mkHeightSelector 0 (Some (TagHeight BlockTag_LATEST)))) in
  let finalized := HeightSelector (Some (mkHeightSelector 0 (Some (TagHeight BlockTag_FINALIZED)))) in
  mapNativeCallSelectors some_tag some_tag (Some latest) [Some finalized] =
    inl "conflicting selector sort hints are not supported" /\
  exists sels, mapNativeCallSelectors some_tag some_tag (Some (AndSelector [Some latest])) [Some finalized] = inr sels /\
    (compile_all (fun _ _ _ => 0) sels).2 = Some (sort_by sortFinalizedDesc).
Proof. split; [reflexivity|]. eexists. split; reflexivity. Qed.

(** The negation of a selector that is not supported is satisfied by every
    upstream, where the selector itself is refused. *)
Lemma negated_unsupported_admits_all tag_name bound_name predict upId s :
  let sel := mapDshackleSelector tag_name bound_name (Some (NotSelector (Some VersionSelector))) in
  holds_opt (compileSelector predict (mapDshackleSelector tag_name bound_name (Some VersionSelector))).1 upId s = false /\
  holds_opt (compileSelector predict sel).1 upId s = true.
Proof. split; reflexivity. Qed.
