(* ===== verification/UpstreamLife.v ===== *)
(** The life of an upstream: its place among the upstreams
    ([internal/upstreams/upstream_supervisor.go]), the validation of its settings
    ([validations/validator.go], [event_processors/validation_event_processor.go]),
    the processors that watch it ([event_processors/event_processor.go],
    [upstream.go]), and what the supervisor of the upstreams does with its events. *)

From S2P Require Import Prelude.
From S2P Require Import GoStrings.
From S2P Require Import Protocol.
From S2P Require Import Specs.
From S2P Require Import Methods.
From S2P Require Import UpstreamState.
From S2P Require Import Upstream.
From S2P Require Import Matchers.
From Stdlib Require Import Ascii.

(** ** Validation *)

Inductive ValidationSettingResult := Valid | SettingsError | FatalSettingError | UnknownResult.
#[export] Instance ValidationSettingResult_eq_dec : EqDecision ValidationSettingResult.
Proof. solve_decision. Defined.

Definition result_code (r : ValidationSettingResult) : Z :=
  match r with Valid => 1 | SettingsError => 2 | FatalSettingError => 3 | UnknownResult => 4 end.

(** [lo.Max]: the first of the greatest; the factory makes no processor without
    validators. *)
Definition lo_Max {A} (code : A -> Z) (x : A) (l : list A) : A :=
  foldl (fun m y => if code m <? code y then y else m) x l.

Definition Settings_Validate (first : ValidationSettingResult) (others : list ValidationSettingResult)
    : ValidationSettingResult := lo_Max result_code first others.
Definition Health_Validate (first : AvailabilityStatus) (others : list AvailabilityStatus) : AvailabilityStatus :=
  lo_Max status_code first others.

(** A round of the settings processor: the result before it, the result of it, and
    the event emitted. *)
Definition settings_event (current result : ValidationSettingResult) : option StateEvent :=
  match result with
  | FatalSettingError =>
    if bool_decide (current = SettingsError) || bool_decide (current = Valid) then Some FatalErrorEvent else None
  | Valid =>
    if bool_decide (current = SettingsError) || bool_decide (current = FatalSettingError) then Some ValidEvent else None
  | SettingsError | UnknownResult => None
  end.

(** The rounds after [current], by their results. *)
Fixpoint settings_events (current : ValidationSettingResult) (results : list ValidationSettingResult) : list StateEvent :=
  match results with
  | [] => []
  | result :: results' =>
    match settings_event current result with Some e => [e] | None => [] end ++ settings_events result results'
  end.

Definition health_event (status : AvailabilityStatus) : StateEvent := StatusEvent status None.

(** ** The processors of an upstream *)

Inductive EventProcessorType :=
| BlockEventProcessorType | HeadEventProcessorType | LowerBoundEventProcessorType | HealthValidatorProcessorType
| SettingsValidatorProcessorType | LabelsProcessorType | CapEventProcessorType | MethodsEventProcessorType.
#[export] Instance EventProcessorType_eq_dec : EqDecision EventProcessorType.
Proof. solve_decision. Defined.

Definition processor_code (t : EventProcessorType) : N :=
  match t with
  | BlockEventProcessorType => 0 | HeadEventProcessorType => 1 | LowerBoundEventProcessorType => 2
  | HealthValidatorProcessorType => 3 | SettingsValidatorProcessorType => 4 | LabelsProcessorType => 5
  | CapEventProcessorType => 6 | MethodsEventProcessorType => 7
  end%N.
#[export] Instance EventProcessorType_countable : Countable EventProcessorType.
Proof.
  refine (inj_countable' processor_code (fun n => match n with
    | 0 => BlockEventProcessorType | 1 => HeadEventProcessorType | 2 => LowerBoundEventProcessorType
    | 3 => HealthValidatorProcessorType | 4 => SettingsValidatorProcessorType | 5 => LabelsProcessorType
    | 6 => CapEventProcessorType | _ => MethodsEventProcessorType end%N) _).
  by intros [].
Defined.

(** The processors the upstream has, and those that run. *)
Record Processors := mkProcessors { configured : gset EventProcessorType; running : gset EventProcessorType }.

Definition NewUpstreamProcessorAggregator (types : list EventProcessorType) : Processors :=
  mkProcessors (list_to_set types) ∅.

(** [GenericLifecycle.Start] and [Stop] of a processor that starts without error. *)
Definition StartProcessor (t : EventProcessorType) (p : Processors) : Processors :=
  if bool_decide (t ∈ configured p) then mkProcessors (configured p) ({[t]} ∪ running p) else p.
Definition StopProcessor (t : EventProcessorType) (p : Processors) : Processors :=
  if bool_decide (t ∈ configured p) then mkProcessors (configured p) (running p ∖ {[t]}) else p.

Definition resumed_types : list EventProcessorType :=
  [HeadEventProcessorType; BlockEventProcessorType; HealthValidatorProcessorType; LowerBoundEventProcessorType;
   LabelsProcessorType; CapEventProcessorType; MethodsEventProcessorType].
Definition stopped_types : list EventProcessorType :=
  [BlockEventProcessorType; HealthValidatorProcessorType; LowerBoundEventProcessorType; HeadEventProcessorType;
   LabelsProcessorType; CapEventProcessorType; MethodsEventProcessorType].

Definition Resume (p : Processors) : Processors := foldl (fun p t => StartProcessor t p) p resumed_types.
Definition PartialStop (p : Processors) : Processors := foldl (fun p t => StopProcessor t p) p stopped_types.

(** [Start]: [validated] is the verdict of the settings, [None] without a settings
    processor.  The result is [None] if the upstream does not start, or whether its
    loop starts valid, with its processors. *)
Definition upstream_Start (validated : option ValidationSettingResult) (p : Processors) : option (bool * Processors) :=
  match validated with
  | None => Some (true, Resume (StartProcessor SettingsValidatorProcessorType p))
  | Some FatalSettingError => None
  | Some SettingsError => Some (false, StartProcessor SettingsValidatorProcessorType p)
  | Some Valid => Some (true, Resume (StartProcessor SettingsValidatorProcessorType p))
  | Some UnknownResult => Some (true, p)
  end.

Definition upstream_Stop (p : Processors) : Processors := PartialStop (StopProcessor SettingsValidatorProcessorType p).

(** The supervisor of the upstreams reacts to an event of one. *)
Definition supervisor_react (event : UpstreamEventType) (p : Processors) : Processors :=
  match event with
  | RemoveUpstreamEvent => PartialStop p
  | ValidUpstreamEvent _ => Resume p
  | _ => p
  end.

Definition react_outputs (outs : list Output) (p : Processors) : Processors :=
  foldl (fun p o => match o with Published ev => supervisor_react (EventType ev) p | ArmUnban _ => p end) p outs.

(** The loop of the upstream over some events, with the supervisor's reactions. *)
Fixpoint live `{MapRange} `{LoUnion} (env : UpstreamEnv) (events : list StateEvent) (l : LoopState) (p : Processors)
    : LoopState * Processors :=
  match events with
  | [] => (l, p)
  | e :: events' => let '(outs, l) := processStateEvent env e l in live env events' l (react_outputs outs p)
  end.

(** ** Indices of upstreams

    [StartUpstreams] numbers the upstreams from one and stops at five hexadecimal
    digits. *)

Definition max_upstream_index : Z := 1048575.

Fixpoint assign_indices {A} (counter : Z) (configs : list A) : list (A * Z) :=
  match configs with
  | [] => []
  | c :: configs' =>
    if counter =? max_upstream_index then [] else (c, counter) :: assign_indices (counter + 1) configs'
  end.

Definition StartUpstreams {A} (configs : list A) : list (A * Z) := assign_indices 1 configs.

(** [fmt.Sprintf(%05x)] of a number below 16^5. *)
Definition upstreamIndexHex (index : Z) : string :=
  let digit i := hex_digit (Z.to_N (index / 16 ^ i) mod 16)%N in
  String (digit 4) (String (digit 3) (String (digit 2) (String (digit 1) (String (digit 0) "")))).

(** ** The settings of an upstream decide whether it serves *)

(** What the results say of the settings, the inconclusive ones aside. *)
Definition verdict (v : bool) (results : list ValidationSettingResult) : bool :=
  foldl (fun v r => match r with Valid => true | FatalSettingError => false | _ => v end) v results.

Definition is_settings_event (e : StateEvent) : bool :=
  match e with FatalErrorEvent | ValidEvent => true | _ => false end.

Definition valid_after (v : bool) (events : list StateEvent) : bool :=
  foldl (fun v e => match e with ValidEvent => true | FatalErrorEvent => false | _ => v end) v events.

Lemma valid_after_filter v events :
  valid_after v events = valid_after v (List.filter is_settings_event events).
Proof. revert v. induction events as [|e events IH]; intros v; [done|]. destruct e; simpl; apply IH. Qed.

(** The events that are emitted tell as much as the results. *)
Lemma valid_after_results v current results :
  UnknownResult ∉ results -> current <> UnknownResult ->
  (current = Valid -> v = true) -> (current = FatalSettingError -> v = false) ->
  valid_after v (settings_events current results) = verdict v results.
Proof.
  revert v current. induction results as [|r results IH]; intros v c Hn Hc Hv Hf; [done|].
  apply not_elem_of_cons in Hn as [Hr Hn]. simpl. unfold valid_after. rewrite foldl_app. fold (valid_after).
  destruct r; try done; simpl.
  - destruct c; try done; simpl; rewrite ?Hv by done; by apply IH.
  - apply IH; done.
  - destruct c; try done; simpl; rewrite ?Hf by done; by apply IH.
Qed.

(** The processors that should run. *)
Definition running_for (v : bool) (p : Processors) : Prop :=
  running p = if v then configured p else configured p ∩ {[SettingsValidatorProcessorType]}.

Lemma StartProcessor_running ts p :
  foldl (fun p t => StartProcessor t p) p ts =
  mkProcessors (configured p) (running p ∪ (configured p ∩ list_to_set ts)).
Proof.
  revert p. induction ts as [|t ts IH]; intros p; simpl; [destruct p; f_equal; set_solver|].
  rewrite IH. unfold StartProcessor. case_bool_decide as Ht; simpl; f_equal; set_solver.
Qed.

Lemma StopProcessor_running ts p :
  running p ⊆ configured p ->
  foldl (fun p t => StopProcessor t p) p ts = mkProcessors (configured p) (running p ∖ list_to_set ts).
Proof.
  revert p. induction ts as [|t ts IH]; intros p Hs; simpl; [destruct p; f_equal; set_solver|].
  assert (running (StopProcessor t p) ⊆ configured (StopProcessor t p)) as Hs'
    by (unfold StopProcessor; case_bool_decide; simpl; set_solver).
  rewrite IH by done. unfold StopProcessor. case_bool_decide as Ht; simpl; f_equal; set_solver.
Qed.

(** Together with the settings validator these are all the processors there are. *)
Lemma all_types t : t = SettingsValidatorProcessorType \/ t ∈ resumed_types.
Proof. destruct t; unfold resumed_types; set_solver. Qed.

Lemma Resume_running v p : running_for v p -> SettingsValidatorProcessorType ∈ running p \/
  SettingsValidatorProcessorType ∉ configured p -> running_for true (Resume p) /\ configured (Resume p) = configured p.
Proof.
  intros Hr Hs. unfold Resume. rewrite StartProcessor_running. split; [|done]. unfold running_for in *. cbn [running configured].
  apply set_eq. intros t. rewrite elem_of_union, elem_of_intersection, elem_of_list_to_set.
  assert (running p ⊆ configured p) by (rewrite Hr; destruct v; set_solver).
  destruct (all_types t) as [->|Ht]; set_solver.
Qed.

Lemma PartialStop_running p : running_for true p ->
  running_for false (PartialStop p) /\ configured (PartialStop p) = configured p.
Proof.
  unfold running_for. intros Hr. unfold PartialStop. rewrite StopProcessor_running by (rewrite Hr; done). cbn [running configured].
  split; [|done]. rewrite Hr. apply set_eq. intros t.
  rewrite elem_of_difference, elem_of_intersection, elem_of_list_to_set, elem_of_singleton.
  assert (t ∈ stopped_types <-> t <> SettingsValidatorProcessorType) as Ht
    by (destruct t; unfold stopped_types; split; try done; set_solver).
  rewrite Ht. destruct (decide (t = SettingsValidatorProcessorType)); naive_solver.
Qed.

#[local] Opaque Resume PartialStop.

Section Live.
Context `{MR : MapRange} `{LU : LoUnion} (env : UpstreamEnv).

Definition no_reaction (o : Output) : bool :=
  match o with
  | Published ev => match EventType ev with RemoveUpstreamEvent | ValidUpstreamEvent _ => false | _ => true end
  | ArmUnban _ => true
  end.

Lemma react_none outs p : forallb no_reaction outs = true -> react_outputs outs p = p.
Proof using Type.
  revert p. induction outs as [|o outs IH]; intros p; [done|]. simpl. rewrite andb_true_iff. intros [Ho Hos].
  destruct o as [ev|m]; [|by apply IH]. simpl in Ho. unfold supervisor_react. destruct (EventType ev); try done; by apply IH.
Qed.

(** Events that are not about the settings change neither the verdict nor what runs. *)
Lemma other_event e l outs l' : is_settings_event e = false -> processStateEvent env e l = (outs, l') ->
  validUpstream l' = validUpstream l /\ forallb no_reaction outs = true.
Proof using Type.
  unfold processStateEvent, finish_methods, finish, publish. intros He. destruct e; try done;
    cbn [set_banned set_unsupported validUpstream]; repeat case_match; intros [= <- <-]; simplify_eq; simpl in *; split;
    try done; try congruence.
Qed.

Lemma live_ok events l p : running_for (validUpstream l) p ->
  let '(l', p') := live env events l p in
  validUpstream l' = valid_after (validUpstream l) events /\ configured p' = configured p /\
  running_for (validUpstream l') p'.
Proof using Type.
  revert l p. induction events as [|e events IH]; intros l p Hr; [done|]. simpl.
  destruct (processStateEvent env e l) as [outs l1] eqn:E.
  assert (validUpstream l1 = valid_after (validUpstream l) [e] /\ configured (react_outputs outs p) = configured p /\
          running_for (validUpstream l1) (react_outputs outs p)) as (Hv & Hc & Hr1).
  { destruct (is_settings_event e) eqn:Es.
    - destruct e; try done; cbn in E; destruct (validUpstream l) eqn:Ev; cbn in E; rewrite ?Ev in E;
        injection E as <- <-.
      + destruct (PartialStop_running p Hr) as [H1 H2]. split; [done|]. split; [exact H2|exact H1].
      + rewrite Ev. by split_and!.
      + rewrite Ev. by split_and!.
      + destruct (Resume_running false p Hr) as [H1 H2]; [|split; [done|]; split; [exact H2|exact H1]].
        unfold running_for in Hr. rewrite Hr. destruct (decide (SettingsValidatorProcessorType ∈ configured p)); set_solver.
    - destruct (other_event e l outs l1 Es E) as [Hv Ho]. rewrite (react_none _ _ Ho), Hv.
      split; [by destruct e|done]. }
  specialize (IH l1 (react_outputs outs p) Hr1). destruct (live env events l1 _) as [l2 p2].
  destruct IH as (IHv & IHc & IHr). split_and!; [|congruence|done].
  rewrite IHv, Hv. by destruct e.
Qed.
End Live.

Lemma upstream_Start_running first types v p :
  upstream_Start (Some first) (NewUpstreamProcessorAggregator types) = Some (v, p) -> first <> UnknownResult ->
  v = bool_decide (first = Valid) /\ configured p = list_to_set types /\ running_for v p.
Proof.
  assert (running_for false (StartProcessor SettingsValidatorProcessorType (NewUpstreamProcessorAggregator types)) /\
          configured (StartProcessor SettingsValidatorProcessorType (NewUpstreamProcessorAggregator types)) =
            list_to_set types /\
          (SettingsValidatorProcessorType ∈
             running (StartProcessor SettingsValidatorProcessorType (NewUpstreamProcessorAggregator types)) \/
           SettingsValidatorProcessorType ∉
             configured (StartProcessor SettingsValidatorProcessorType (NewUpstreamProcessorAggregator types))))
    as (Hs & Hc & Hi).
  { unfold running_for, StartProcessor. simpl. case_bool_decide; simpl; split_and!; try done; set_solver. }
  destruct (Resume_running false _ Hs Hi) as [Hr Hr']. rewrite Hc in Hr'.
  unfold upstream_Start. destruct first; intros E Hu; [| |discriminate E|by destruct (Hu eq_refl)];
    apply (inj Some), pair_equal_spec in E as [<- <-].
  - split; [done|]. split; [exact Hr'|exact Hr].
  - split; [done|]. split; [exact Hc|exact Hs].
Qed.

(** An upstream serves exactly while its settings are valid.  Whatever the
    validations find, round after round, and whatever else happens to the upstream
    in between, once the events of the rounds are processed the upstream counts as
    valid if and only if the last conclusive result was valid; and then all of its
    processors run, while otherwise only the one that validates its settings does,
    so that it can recover. *)
Theorem settings_drive_upstream `{MapRange} `{LoUnion} env first results types s lag events v0 p0 :
  first <> UnknownResult -> UnknownResult ∉ results ->
  upstream_Start (Some first) (NewUpstreamProcessorAggregator types) = Some (v0, p0) ->
  List.filter is_settings_event events = settings_events first results ->
  let '(l, p) := live env events (initial_loop s lag v0) p0 in
  validUpstream l = verdict (bool_decide (first = Valid)) results /\
  running p = if validUpstream l then list_to_set types
              else list_to_set types ∩ {[SettingsValidatorProcessorType]}.
Proof.
  intros Hf Hr Hs He. destruct (upstream_Start_running first types v0 p0 Hs Hf) as (-> & Hc & Hrun).
  pose proof (live_ok env events (initial_loop s lag (bool_decide (first = Valid))) p0 Hrun) as Hl.
  destruct (live env events _ p0) as [l p]. destruct Hl as (Hv & Hc' & Hrun'). simpl in Hv.
  rewrite valid_after_filter, He, valid_after_results in Hv; [|done|done|by intros ->|].
  - split; [exact Hv|]. unfold running_for in Hrun'. by rewrite Hrun', Hc', Hc.
  - intros ->. by apply bool_decide_eq_false.
Qed.

#[local] Existing Instance Upstream.demo_union.

#[local] Existing Instance Prelude.default_range.

(** Settings that fail, fail for good and are corrected, while heads arrive. *)
Lemma settings_drive_upstream_witness :
  let types := [HeadEventProcessorType; SettingsValidatorProcessorType] in
  let events := [FatalErrorEvent; HeadEvent (NewBlockWithHeight 5); FatalErrorEvent; ValidEvent] in
  let '(l, p) := live demo_env events (initial_loop demo_state 0 true)
                   (mkProcessors (list_to_set types) (list_to_set types)) in
  validUpstream l = true /\ running p = list_to_set types.
Proof.
  pose proof (settings_drive_upstream demo_env Valid [SettingsError; FatalSettingError; SettingsError; FatalSettingError; Valid]
    [HeadEventProcessorType; SettingsValidatorProcessorType] demo_state 0
    [FatalErrorEvent; HeadEvent (NewBlockWithHeight 5); FatalErrorEvent; ValidEvent] true
    (mkProcessors (list_to_set [HeadEventProcessorType; SettingsValidatorProcessorType])
       (list_to_set [HeadEventProcessorType; SettingsValidatorProcessorType]))
    ltac:(done) ltac:(set_solver) ltac:(by vm_compute) ltac:(done)) as Hd.
  cbv zeta. destruct (live demo_env _ _ _) as [l p]. destruct Hd as [Hv Hr]. simpl in Hv. by rewrite Hv in Hr.
Defined.

(** A result that is not known hides a recovery: the event of the next valid result
    is not emitted, and the upstream stays stopped.  No validator gives it. *)
Lemma unknown_result_hides_recovery :
  settings_events Valid [FatalSettingError; UnknownResult; Valid] = [FatalErrorEvent] /\
  verdict true [FatalSettingError; UnknownResult; Valid] = true.
Proof. done. Qed.

(** ** Indices *)

Lemma assign_indices_lookup {A} counter (configs : list A) i c n : assign_indices counter configs !! i = Some (c, n) ->
  configs !! i = Some c /\ n = counter + Z.of_nat i.
Proof.
  revert counter i. induction configs as [|x configs IH]; intros counter i; [done|]. simpl.
  destruct (counter =? max_upstream_index); [done|]. destruct i as [|i]; simpl.
  - intros [= <- <-]. split; [done|lia].
  - intros [Hc ->]%IH. split; [done|lia].
Qed.

Lemma assign_indices_bound {A} counter (configs : list A) c n : counter <= max_upstream_index ->
  (c, n) ∈ assign_indices counter configs -> counter <= n < max_upstream_index.
Proof.
  revert counter. induction configs as [|x configs IH]; intros counter Hc; [by intros ?%elem_of_nil|]. simpl.
  destruct (counter =? max_upstream_index) eqn:E; reflect_bool; [by intros ?%elem_of_nil|].
  intros [[= -> ->]|Hin]%elem_of_cons; [lia|]. apply IH in Hin; lia.
Qed.

Lemma hex_value_digit k : (k < 16)%N -> hex_value (hex_digit k) = Some k.
Proof.
  intros Hk. assert (forallb (fun n => bool_decide (hex_value (hex_digit (N.of_nat n)) = Some (N.of_nat n))) (seq 0 16) = true)
    as Hall by (by vm_compute).
  rewrite forallb_forall in Hall. specialize (Hall (N.to_nat k)). rewrite N2Nat.id in Hall.
  refine (proj1 (bool_decide_eq_true _) (Hall _)). apply in_seq. lia.
Qed.

Lemma hex_digit_inj m n : (m < 16)%N -> (n < 16)%N -> hex_digit m = hex_digit n -> m = n.
Proof. intros Hm Hn E%(f_equal hex_value). rewrite !hex_value_digit in E by done. by injection E. Qed.

Lemma upstreamIndexHex_inj m n : 0 <= m <= max_upstream_index -> 0 <= n <= max_upstream_index ->
  upstreamIndexHex m = upstreamIndexHex n -> m = n.
Proof.
  unfold max_upstream_index, upstreamIndexHex. intros Hm Hn. generalize dependent n. intros n Hn E.
  injection E as E4 E3 E2 E1 E0.
  apply hex_digit_inj in E0, E1, E2, E3, E4; try (apply N.mod_lt; done).
  assert (forall x, 0 <= x -> Z.of_N (Z.to_N x mod 16) = x mod 16) as Hd
    by (intros x Hx; rewrite N2Z.inj_mod, Z2N.id by lia; done).
  apply (f_equal Z.of_N) in E0, E1, E2, E3, E4.
  rewrite !Hd in E0, E1, E2, E3, E4 by (apply Z.div_pos; lia).
  change (16 ^ 0) with 1 in *. change (16 ^ 1) with 16 in *. change (16 ^ 2) with 256 in *. change (16 ^ 3) with 4096 in *.
  change (16 ^ 4) with 65536 in *. Z.to_euclidean_division_equations. lia.
Qed.

(** Every upstream that is started has an index of its own: five hexadecimal
    digits, different from those of all others, so that a sticky request, whose last
    five characters are the index, names one upstream.  All upstreams are started
    unless there are 1048575 or more. *)
Theorem upstream_indices_unique {A} (configs : list A) :
  (forall i j c d m n, StartUpstreams configs !! i = Some (c, m) -> StartUpstreams configs !! j = Some (d, n) ->
     upstreamIndexHex m = upstreamIndexHex n -> i = j) /\
  (forall c n, (c, n) ∈ StartUpstreams configs -> String.length (upstreamIndexHex n) = 5%nat /\ 1 <= n < max_upstream_index) /\
  (Z.of_nat (length configs) < max_upstream_index -> (StartUpstreams configs).*1 = configs).
Proof.
  split; [|split].
  - intros i j c d m n Hi Hj E. pose proof (list_elem_of_lookup_2 _ _ _ Hi) as Hm. pose proof (list_elem_of_lookup_2 _ _ _ Hj) as Hn.
    apply assign_indices_bound in Hm, Hn; [|done..]. apply upstreamIndexHex_inj in E; [|lia..].
    apply assign_indices_lookup in Hi as [_ ->], Hj as [_ ->]. lia.
  - intros c n Hn%assign_indices_bound; done.
  - unfold StartUpstreams. assert (forall counter, counter + Z.of_nat (length configs) <= max_upstream_index ->
      (assign_indices counter configs).*1 = configs) as Hg; [|intros; apply Hg; lia].
    induction configs as [|x configs IH]; intros counter Hc; [done|]. simpl in *.
    destruct (counter =? max_upstream_index) eqn:E; reflect_bool; [lia|]. simpl. f_equal. apply IH. lia.
Qed.
