(* ===== verification/Strategy.v ===== *)
(** Upstream selection: the filter every strategy runs, the strategies
    themselves and the orders they try upstreams in
    ([internal/upstreams/flow/strategy.go], [selectors.go],
    [label_group_strategy.go]). *)

From S2P Require Import Prelude.
From S2P Require Import Protocol.
From S2P Require Import Errors.
From S2P Require Import Specs.
From S2P Require Import Methods.
From S2P Require Import UpstreamState.
From S2P Require Import Matchers.

(** ** Interfaces

    The rate limiters an upstream state refers to are shared objects with a
    state of their own, in a world [W]: a budget answers for a method (with an
    error when its engine fails) and an auto-tuner for one more request. *)
Class Limiters (W : Type) := {
  budget_Allow : BudgetRef -> string -> W -> (bool * option string) * W;
  autotune_Allow : TuneRef -> W -> bool * W;
}.

(** What selection reads from the chain supervisor. *)
Record ChainView := mkChainView {
  cv_ids : list string;
  cv_state : string -> option UpstreamState;
}.

(** What it reads from the upstream supervisor: [PredictLowerBound] of a known
    upstream. *)
Abbreviation PredictView := (string -> option (LowerBoundType -> Z -> Z)).

(** The part of a request selection looks at. *)
Record Request := mkRequest { req_method : string; req_subscribe : bool }.

Abbreviation UpstreamOrder := (list string -> list string).

(** ** Sort hints *)

Definition lower_predictor (supervisor : option PredictView) : LowerHeightPredictor :=
  fun id t off =>
    match supervisor with
    | None => 0
    | Some sup => match sup id with None => 0 | Some predict => predict t off end
    end.

Definition predictedLowerBoundOf (supervisor : option PredictView) (id : string)
    (t : LowerBoundType) (offset : Z) : Z :=
  match supervisor with
  | None => 2 ^ 62
  | Some sup =>
    match sup id with
    | None => 2 ^ 62
    | Some predict => let value := predict t offset in if value =? 0 then 2 ^ 62 else value
    end
  end.

Definition heightOf (s : option UpstreamState) : Z :=
  match s with None => 0 | Some s => Height (HeadData s) end.

Definition blockHeightOf (s : option UpstreamState) (t : BlockType) : Z :=
  match s with None => 0 | Some s => Height (BlockInfo_GetBlock (st_blocks s) t) end.

Definition selectorSortKey (spec : sortSpec) (supervisor : option PredictView)
    (chainSupervisor : option ChainView) (id : string) : Z :=
  match kind spec with
  | sortPredictedLowerBoundAsc =>
      match lowerBoundType spec with
      | Some t => predictedLowerBoundOf supervisor id t (sort_timeOffset spec)
      | None => 2 ^ 62
      end
  | k =>
    match chainSupervisor with
    | None => 0
    | Some cv =>
      let state := cv_state cv id in
      match k with
      | sortHeadDesc => i64 (heightOf state)
      | sortSafeDesc => i64 (blockHeightOf state SafeBlock)
      | sortFinalizedDesc => i64 (blockHeightOf state FinalizedBlock)
      | _ => 0
      end
    end
  end.

Definition sort_less (spec : sortSpec) (keyOf : string -> Z) (x y : string) : bool :=
  match kind spec with
  | sortHeadDesc | sortSafeDesc | sortFinalizedDesc => keyOf y <? keyOf x
  | sortPredictedLowerBoundAsc => keyOf x <? keyOf y
  | sortDefault => false
  end.

Definition buildSelectorOrder (spec : option sortSpec) (supervisor : option PredictView)
    (chainSupervisor : option ChainView) : option UpstreamOrder :=
  match spec with
  | None => None
  | Some sp =>
    if bool_decide (kind sp = sortDefault) then None
    else Some (fun ids =>
      stable_sort (sort_less sp (selectorSortKey sp supervisor chainSupervisor)) ids)
  end.

Definition buildSelectorRouting (selectors : list RequestSelector)
    (supervisor : option PredictView) (chainSupervisor : option ChainView)
    : list Matcher * option UpstreamOrder :=
  let '(matchers, orderSpec) := compile_all (lower_predictor supervisor) selectors in
  (matchers, buildSelectorOrder orderSpec supervisor chainSupervisor).

(** ** The filter *)

Section Select.
Context {W : Type} `{Limiters W}.

(** The upstreams already handed out for this request, and the world. *)
Record SelState := mkSelState { selected : gset string; world : W }.

(** [state.RateLimiterBudget.Allow], when the upstream has a budget. *)
Definition budget_allows (s : UpstreamState) (method : string) (w : W) : bool * W :=
  match RateLimiterBudget s with
  | None => (true, w)
  | Some b =>
    let '((allow, err), w) := budget_Allow b method w in
    (match err with Some _ => false | None => allow end, w)
  end.

Definition autotune_allows (s : UpstreamState) (w : W) : bool * W :=
  match AutoTuneRateLimiter s with
  | None => (true, w)
  | Some t => autotune_Allow t w
  end.

(** Runs under the strategy's mutex: one atomic step. *)
Definition processMatchedResponse (matched : MatchResponse) (currentReason : option MatchResponse)
    (id : string) (s : UpstreamState) (method : string) (st : SelState)
    : (bool * option MatchResponse) * SelState :=
  if bool_decide (id ∈ selected st) then ((false, None), st)
  else if is_success matched then
    let '(allow, w) := budget_allows s method (world st) in
    if allow then ((true, None), mkSelState ({[id]} ∪ selected st) w)
    else ((false, Some RateLimiterResponse), mkSelState (selected st) w)
  else
    match currentReason with
    | None => ((false, Some matched), st)
    | Some r => if Type_ matched <? Type_ r then ((false, Some matched), st) else ((false, None), st)
    end.

Definition request_matchers (additional : list Matcher) (req : Request) : Matcher :=
  MultiMatcher (additional ++ [StatusMatcher; MethodMatcher (req_method req)] ++
    (if req_subscribe req then [WsCapMatcher (req_method req)] else [])).

Record Filtered := mkFiltered {
  f_upstream : string;
  f_reason : option MatchResponse;
  f_trace : list UpstreamMatchTrace;
}.

Fixpoint filter_loop (cv : ChainView) (m : Matcher) (method : string) (ids : list string)
    (currentReason : option MatchResponse) (trace : list UpstreamMatchTrace) (st : SelState)
    : Filtered * SelState :=
  match ids with
  | [] => (mkFiltered "" currentReason trace, st)
  | id :: ids' =>
    match cv_state cv id with
    | None => filter_loop cv m method ids' currentReason trace st
    | Some s =>
      let matched := Match m id s in
      let trace := trace_Add trace id matched in
      let '((upstreamMatched, newReason), st) :=
        processMatchedResponse matched currentReason id s method st in
      if upstreamMatched then
        let '(allowed, w) := autotune_allows s (world st) in
        let st := mkSelState (selected st) w in
        if allowed then (mkFiltered id None trace, st)
        else
          let currentReason :=
            match currentReason with
            | None => Some RateLimiterResponse
            | Some r => if Type_ RateLimiterResponse <? Type_ r
                        then Some RateLimiterResponse else currentReason
            end in
          filter_loop cv m method ids' currentReason trace st
      else
        let currentReason := match newReason with Some _ => newReason | None => currentReason end in
        filter_loop cv m method ids' currentReason trace st
    end
  end.

Definition filterUpstreams (req : Request) (ids : list string) (cv : ChainView)
    (additional : list Matcher) (order : option UpstreamOrder) (st : SelState)
    : Filtered * SelState :=
  let ids := match order with Some o => o ids | None => ids end in
  filter_loop cv (request_matchers additional req) (req_method req) ids None [] st.

Definition selectionError (reason : option MatchResponse) (trace : option (list UpstreamMatchTrace))
    : ResponseError :=
  match reason with
  | None => NoAvailableUpstreamsError
  | Some (MethodResponse m) => NotSupportedMethodError m
  | Some RateLimiterResponse => RateLimitError
  | Some r =>
    match trace with
    | Some t =>
      if bool_decide (response_type r = SelectorType)
      then NoAvailableUpstreamsErrorWithCause (trace_Cause t) else NoAvailableUpstreamsError
    | None => NoAvailableUpstreamsError
    end
  end.

(** The common tail of the strategies. *)
Definition select_result (f : Filtered) : ResponseError + string :=
  if bool_decide (f_upstream f = "") then inl (selectionError (f_reason f) (Some (f_trace f)))
  else inr (f_upstream f).

(** ** Strategies *)

(** [SpecificOrderUpstreamStrategy] and [RatingStrategy] keep a fixed list. *)
Definition ListStrategy_SelectUpstream (ups : list string) (cv : ChainView)
    (additional : list Matcher) (order : option UpstreamOrder) (req : Request) (st : SelState)
    : (ResponseError + string) * SelState :=
  match ups with
  | [] => (inl NoAvailableUpstreamsError, st)
  | _ => let '(f, st) := filterUpstreams req ups cv additional order st in (select_result f, st)
  end.

(** Go's [append(ids[pos:], ids[:pos]...)]. *)
Definition rotate_at (pos : nat) (ids : list string) : list string :=
  drop pos ids ++ take pos ids.

(** [NextIndex] adds one to an unsigned counter and returns it. *)
Definition NextIndex (rr : Z) : Z := u64 (rr + 1).

Definition GenericStrategy_SelectUpstream (cv : ChainView) (rr : Z)
    (additional : list Matcher) (order : option UpstreamOrder) (req : Request) (st : SelState)
    : (ResponseError + string) * (SelState * Z) :=
  match cv_ids cv with
  | [] => (inl NoAvailableUpstreamsError, (st, rr))
  | ids =>
    let rr := NextIndex rr in
    let pos := rr `mod` Z.of_nat (length ids) in
    let '(f, st) :=
      filterUpstreams req (rotate_at (Z.to_nat pos) ids) cv additional order st in
    (select_result f, (st, rr))
  end.

(** ** Label groups *)

Record LabelGroupState := mkLabelGroupState {
  currentGroupIdx : nat;
  firstCall : bool;
  lg_sel : SelState;
}.

(** The loop over the groups from [idx] on; [gs] are the groups left. *)
Fixpoint group_loop (gs : list (list string)) (idx : nat) (cv : ChainView)
    (additional : list Matcher) (order : option UpstreamOrder) (req : Request)
    (currentReason : option MatchResponse) (trace : option (list UpstreamMatchTrace))
    (st : SelState) : (ResponseError + string) * (nat * SelState) :=
  match gs with
  | [] => (inl (selectionError currentReason trace), (idx, st))
  | g :: gs' =>
    let '(f, st) := filterUpstreams req g cv additional order st in
    if bool_decide (f_upstream f = "") then
      let currentReason :=
        match f_reason f, currentReason with
        | Some r, None => Some r
        | Some r, Some c => if Type_ r <? Type_ c then Some r else currentReason
        | None, _ => currentReason
        end in
      group_loop gs' (S idx) cv additional order req currentReason (Some (f_trace f)) st
    else (inr (f_upstream f), (idx, st))
  end.

Definition LabelGroupStrategy_SelectUpstream (groups : list (list string)) (passOnError : bool)
    (cv : ChainView) (additional : list Matcher) (order : option UpstreamOrder)
    (req : Request) (lg : LabelGroupState) : (ResponseError + string) * LabelGroupState :=
  match groups with
  | [] => (inl NoAvailableUpstreamsError, lg)
  | _ =>
    let idx := if passOnError && negb (firstCall lg)
               then S (currentGroupIdx lg) else currentGroupIdx lg in
    let '(res, (idx, st)) :=
      group_loop (drop idx groups) idx cv additional order req None None (lg_sel lg) in
    (res, mkLabelGroupState idx false st)
  end.
End Select.

Arguments SelState : clear implicits.
Arguments LabelGroupState : clear implicits.

Definition PartitionLabelGroups (sortedIds order : list string) (includeDefault : bool)
    (labelsOf : string -> gset string) : list (list string) :=
  let groups := map (fun label => filter (fun id => label ∈ labelsOf id) sortedIds) order in
  let defaultGroup :=
    filter (fun id => existsb (fun label => bool_decide (label ∈ labelsOf id)) order = false) sortedIds in
  if includeDefault && negb (bool_decide (defaultGroup = [])) then groups ++ [defaultGroup] else groups.

(** ** Each upstream is handed out at most once per request

    Retries and hedges of one request share a strategy and run concurrently;
    the only access to the set of selected upstreams is
    [processMatchedResponse], under the strategy's lock.  An execution is then
    any interleaving of such steps with changes of the world. *)

Section Once.
Context {W : Type} `{Limiters W}.
Implicit Types st : SelState W.

Inductive pick_step : SelState W -> list string -> SelState W -> Prop :=
| pick_process matched reason id s method st b r st' :
    processMatchedResponse matched reason id s method st = ((b, r), st') ->
    pick_step st (if b then [id] else []) st'
| pick_world st w : pick_step st [] (mkSelState (selected st) w).

Inductive pick_run : SelState W -> list string -> SelState W -> Prop :=
| pick_nil st : pick_run st [] st
| pick_cons st ids st' rest st'' :
    pick_step st ids st' -> pick_run st' rest st'' -> pick_run st (ids ++ rest) st''.

Lemma processMatchedResponse_spec matched reason id s method st b r st' :
  processMatchedResponse matched reason id s method st = ((b, r), st') ->
  if b then (id ∉ selected st) /\ matched = SuccessResponse /\ r = None /\
            selected st' = {[id]} ∪ selected st
  else selected st' = selected st.
Proof using Type.
  unfold processMatchedResponse. case_bool_decide; [by intros [= <- _ <-]|].
  destruct (is_success matched) eqn:E.
  - apply is_success_iff in E. destruct (budget_allows s method (world st)) as [[] w];
      intros [= <- <- <-]; done.
  - destruct reason as [r'|]; [destruct (_ <? _)|]; intros [= <- _ <-]; done.
Qed.

Lemma pick_step_spec st ids st' :
  pick_step st ids st' ->
  NoDup ids /\ (forall id, id ∈ ids -> id ∉ selected st) /\
  selected st' = list_to_set ids ∪ selected st.
Proof using Type.
  destruct 1 as [matched reason id s method st b r st' E|st w].
  - apply processMatchedResponse_spec in E. destruct b.
    + destruct E as (? & _ & _ & ->). split; [apply NoDup_singleton|].
      split; [set_solver|]. simpl. set_solver.
    + rewrite E. split; [constructor|]. set_solver.
  - split; [constructor|]. simpl. set_solver.
Qed.

Lemma pick_run_spec st ids st' :
  pick_run st ids st' ->
  NoDup ids /\ (forall id, id ∈ ids -> id ∉ selected st) /\
  selected st' = list_to_set ids ∪ selected st.
Proof using Type.
  induction 1 as [st|st ids st' rest st'' Hs Hr (IH1 & IH2 & IH3)].
  - split; [constructor|]. set_solver.
  - apply pick_step_spec in Hs as (H1 & H2 & H3). rewrite IH3, H3. rewrite H3 in IH2. split; [|set_solver].
    apply NoDup_app. split_and!; [done| |done]. intros id Hid Hin.
    apply (IH2 id Hin). set_solver.
Qed.

(** C1. No upstream is handed out twice for one request, in any interleaving
    of the concurrent selections that share the request's strategy, whatever
    the limiters answer and however their state changes in between. *)
Theorem upstream_selected_once st ids st' :
  pick_run st ids st' -> NoDup ids /\ (forall id, id ∈ ids -> id ∉ selected st).
Proof using Type. intros (? & ? & _)%pick_run_spec. done. Qed.
End Once.

(** A world without limiters. *)
#[local] Instance no_limiters : Limiters unit := {
  budget_Allow _ _ w := ((true, None), w);
  autotune_Allow _ w := (true, w);
}.

Lemma upstream_selected_once_witness :
  NoDup ["up"] /\ (forall id, id ∈ ["up"] -> id ∉ selected (mkSelState ∅ tt)).
Proof.
  apply (upstream_selected_once (mkSelState ∅ tt) ["up"] (mkSelState {["up"]} tt)).
  refine (pick_cons _ ["up"] _ ([] ++ []) _ (pick_process SuccessResponse None "up" demo_state
    "eth_call" _ true None _ _) _); [done|].
  refine (pick_cons _ [] _ [] _ (pick_process SuccessResponse None "up" demo_state
    "eth_call" _ false None _ _) (pick_nil _)). done.
Defined.

(** ** Soundness of the filter *)

Definition ordered (order : option UpstreamOrder) (ids : list string) : list string :=
  match order with Some o => o ids | None => ids end.

(** An order only rearranges the upstreams. *)
Definition order_ok (order : option UpstreamOrder) : Prop :=
  match order with Some o => forall l, o l ≡ₚ l | None => True end.

Lemma ordered_perm order ids : order_ok order -> ordered order ids ≡ₚ ids.
Proof. destruct order; simpl; auto. Qed.

Lemma request_matchers_iff additional req id s :
  matches (request_matchers additional req) id s = true <->
  (forall m, m ∈ additional -> matches m id s = true) /\ Status s = Available /\
  HasMethod (st_methods s) (req_method req) = true /\
  (req_subscribe req = true -> WsCap ∈ Caps s).
Proof.
  unfold request_matchers.
  rewrite MultiMatcher_success, !forallb_app, !andb_true_iff, forallb_forall.
  setoid_rewrite <- list_elem_of_In. apply and_iff_compat_l. simpl. rewrite andb_true_r, andb_true_iff.
  assert (matches StatusMatcher id s = true <-> Status s = Available) as ->.
  { unfold matches. simpl. by case_bool_decide. }
  assert (matches (MethodMatcher (req_method req)) id s = true <->
    HasMethod (st_methods s) (req_method req) = true) as ->.
  { unfold matches. simpl. by case_bool_decide. }
  rewrite Logic.and_assoc. do 2 apply and_iff_compat_l. destruct (req_subscribe req); simpl; [|naive_solver].
  rewrite andb_true_r. unfold matches. simpl. case_bool_decide; naive_solver.
Qed.

Section Sound.
Context {W : Type} `{Limiters W}.
Implicit Types st : SelState W.

(** The upstream is known and passes every check of the request. *)
Definition eligible (cv : ChainView) (m : Matcher) (id : string) : bool :=
  match cv_state cv id with
  | None => false
  | Some s => matches m id s
  end.

Lemma filter_loop_sound cv m method ids reason trace st f st' :
  filter_loop cv m method ids reason trace st = (f, st') ->
  selected st ⊆ selected st' /\
  (f_upstream f <> "" ->
     f_upstream f ∈ ids /\ eligible cv m (f_upstream f) = true /\
     (f_upstream f ∉ selected st) /\ f_upstream f ∈ selected st').
Proof using Type.
  revert reason trace st. induction ids as [|id ids IH]; intros reason trace st; simpl.
  - intros [= <- <-]. split; [done|]. simpl. done.
  - assert (forall reason trace st1, selected st ⊆ selected st1 ->
      filter_loop cv m method ids reason trace st1 = (f, st') ->
      selected st ⊆ selected st' /\
      (f_upstream f <> "" -> f_upstream f ∈ id :: ids /\ eligible cv m (f_upstream f) = true /\
       (f_upstream f ∉ selected st) /\ f_upstream f ∈ selected st')) as Hrest.
    { clear -IH. intros ??? Hsub (Hs & Hf)%IH. split; [set_solver|]. set_solver. }
    destruct (cv_state cv id) as [s|] eqn:Es; [|by apply Hrest].
    destruct (processMatchedResponse (Match m id s) reason id s method st)
      as [[b r] st1] eqn:Ep.
    apply processMatchedResponse_spec in Ep. destruct b.
    + destruct Ep as (Hnew & Hm & _ & Hsel).
      destruct (autotune_allows s (world st1)) as [[] w].
      * intros [= <- <-]. simpl. rewrite Hsel. split; [set_solver|]. intros _.
        split; [by left|]. split; [|set_solver]. unfold eligible, matches. by rewrite Es, Hm.
      * apply Hrest. simpl. rewrite Hsel. set_solver.
    + apply Hrest. by rewrite Ep.
Qed.
End Sound.

Lemma select_eligible `{Limiters W} ups cv additional order req (st : SelState W) id st' :
  order_ok order ->
  ListStrategy_SelectUpstream ups cv additional order req st = (inr id, st') ->
  id ∈ ups /\ eligible cv (request_matchers additional req) id = true /\
  (id ∉ selected st) /\ id ∈ selected st'.
Proof.
  intros Hord. unfold ListStrategy_SelectUpstream. destruct ups as [|u us]; [done|].
  set (l := u :: us). clearbody l. unfold filterUpstreams.
  destruct (filter_loop _ _ _ _ _ _ st) as [f st1] eqn:Ef. unfold select_result.
  case_bool_decide as Hne; [done|]. intros [= <- <-].
  apply filter_loop_sound in Ef as [_ Hf]. destruct (Hf Hne) as (Hin & Hel & Hnew & Hsel).
  split; [|done]. by rewrite <- (ordered_perm order l Hord).
Qed.

(** C3. A strategy only returns an upstream of its list that is known to the
    chain, is available, supports the method (and, for a subscription, has a
    websocket), passes every selector of the request, and was not returned for
    this request before. *)
Theorem SelectUpstream_sound `{Limiters W} ups cv additional order req (st : SelState W) id st' :
  order_ok order ->
  ListStrategy_SelectUpstream ups cv additional order req st = (inr id, st') ->
  exists s, cv_state cv id = Some s /\ id ∈ ups /\ Status s = Available /\
    HasMethod (st_methods s) (req_method req) = true /\
    (req_subscribe req = true -> WsCap ∈ Caps s) /\
    (forall m, m ∈ additional -> matches m id s = true) /\
    (id ∉ selected st) /\ id ∈ selected st'.
Proof.
  intros Hord Hsel. apply select_eligible in Hsel as (Hin & Hel & Hnew & Hst); [|done].
  unfold eligible in Hel. destruct (cv_state cv id) as [s|] eqn:Es; [|done].
  apply request_matchers_iff in Hel as (? & ? & ? & ?). exists s. by split_and!.
Qed.

Definition demo_view : ChainView :=
  mkChainView ["up1"; "up2"] (fun id => if decide (id = "up1" \/ id = "up2") then Some demo_state else None).

Lemma SelectUpstream_sound_witness :
  exists s, cv_state demo_view "up1" = Some s /\ "up1" ∈ ["up1"; "up2"] /\ Status s = Available /\
    HasMethod (st_methods s) "eth_call" = true /\
    (false = true -> WsCap ∈ Caps s) /\
    (forall m, m ∈ [HeightMatcher 50] -> matches m "up1" s = true) /\
    ("up1" ∉ selected (mkSelState ∅ tt)) /\ "up1" ∈ selected (mkSelState {["up1"]} tt).
Proof.
  refine (SelectUpstream_sound ["up1"; "up2"] demo_view [HeightMatcher 50] None
    (mkRequest "eth_call" false) (mkSelState ∅ tt) "up1" (mkSelState {["up1"]} tt) _ _).
  - done.
  - by vm_compute.
Defined.

(** ** Completeness: what selection returns when the limiters allow *)

Class AllowingLimiters (W : Type) `{Limiters W} := {
  budget_allowing : forall b m w, exists w', budget_Allow b m w = ((true, None), w');
  autotune_allowing : forall t w, exists w', autotune_Allow t w = (true, w');
}.

#[local] Instance no_limiters_allowing : AllowingLimiters unit.
Proof. split; intros; by eexists. Qed.

(** The fold that keeps the most important reason. *)
Definition keep_reason (acc : option MatchResponse) (r : MatchResponse) : option MatchResponse :=
  match acc with
  | None => Some r
  | Some c => if Type_ r <? Type_ c then Some r else acc
  end.

Lemma keep_reasons_from c l :
  foldl keep_reason (Some c) l = Some (argmin Type_ c l).
Proof.
  revert c. induction l as [|r l IH]; intros c; simpl; [done|].
  destruct (Type_ r <? Type_ c); apply IH.
Qed.

Lemma keep_reasons_none l : foldl keep_reason None l = None <-> l = [].
Proof. destruct l; simpl; [done|]. rewrite keep_reasons_from. done. Qed.

Lemma keep_reasons_min l r :
  foldl keep_reason None l = Some r -> r ∈ l /\ forall x, x ∈ l -> Type_ r <= Type_ x.
Proof.
  destruct l as [|c l]; simpl; [done|]. rewrite keep_reasons_from. intros [= <-]. split.
  - destruct (argmin_elem Type_ c l) as [->|?]; [by left|by right].
  - intros x [->|Hx]%elem_of_cons; [apply argmin_le_acc|by apply argmin_le].
Qed.

Section Complete.
Context {W : Type} `{AllowingLimiters W}.
Implicit Types st : SelState W.

(** The upstreams that may still be returned, in the order tried. *)
Definition candidates (cv : ChainView) (m : Matcher) (sel : gset string) (ids : list string)
    : list string :=
  filter (fun id => eligible cv m id = true /\ id ∉ sel) ids.

(** The failures of the upstreams not handed out yet. *)
Definition failures (cv : ChainView) (m : Matcher) (sel : gset string) (ids : list string)
    : list MatchResponse :=
  omap (fun id =>
    if bool_decide (id ∈ sel) then None
    else match cv_state cv id with
         | None => None
         | Some s => if matches m id s then None else Some (Match m id s)
         end) ids.

Lemma budget_allows_allowing s method w : exists w', budget_allows s method w = (true, w').
Proof using All.
  unfold budget_allows. destruct (RateLimiterBudget s) as [b|]; [|by eexists].
  destruct (budget_allowing b method w) as [w' ->]. by eexists.
Qed.

Lemma autotune_allows_allowing s w : exists w', autotune_allows s w = (true, w').
Proof using All.
  unfold autotune_allows. destruct (AutoTuneRateLimiter s) as [t|]; [|by eexists].
  apply autotune_allowing.
Qed.

Lemma filter_loop_complete cv m method ids reason trace st f st' :
  filter_loop cv m method ids reason trace st = (f, st') ->
  match candidates cv m (selected st) ids with
  | [] => f_upstream f = "" /\ selected st' = selected st /\
          f_reason f = foldl keep_reason reason (failures cv m (selected st) ids)
  | id :: _ => f_upstream f = id /\ selected st' = {[id]} ∪ selected st
  end.
Proof using All.
  revert reason trace st. induction ids as [|id ids IH]; intros reason trace st; simpl.
  - by intros [= <- <-].
  - unfold candidates. rewrite filter_cons.
    assert (eligible cv m id = match cv_state cv id with
      | None => false | Some s => matches m id s end) as Eel by done.
    destruct (cv_state cv id) as [s|] eqn:Es.
    2:{ rewrite decide_False by (intros [? _]; congruence). intros Hf. apply IH in Hf.
        unfold candidates in Hf. destruct (filter _ ids); [|done].
        destruct Hf as (? & ? & ->). split_and!; try done. by case_bool_decide. }
    unfold processMatchedResponse. case_bool_decide as Hsel.
    { rewrite decide_False by (intros [_ ?]; done). apply IH. }
    fold (matches m id s). destruct (matches m id s) eqn:Em.
    + rewrite decide_True by done.
      destruct (budget_allows_allowing s method (world st)) as [w1 ->]. simpl.
      destruct (autotune_allows_allowing s w1) as [w2 ->]. by intros [= <- <-].
    + rewrite decide_False by (intros [? _]; congruence).
      intros Hf. specialize (IH (keep_reason reason (Match m id s))
        (trace_Add trace id (Match m id s)) st). apply IH.
      revert Hf. clear. destruct reason as [r|]; simpl; [|done].
      by destruct (Type_ (Match m id s) <? Type_ r).
Qed.
End Complete.

Section MatcherInd.
Context (P : Matcher -> Prop).
Context (Hmulti : forall ms, Forall P ms -> P (MultiMatcher ms)).
Context (Hother : forall m, (forall ms, m <> MultiMatcher ms) -> P m).

(** Induction that only looks under [MultiMatcher]. *)
Fixpoint multi_ind (m : Matcher) : P m.
Proof using All.
  destruct m; try (by apply Hother).
  apply Hmulti. induction matchers; constructor; [apply multi_ind|done].
Defined.
End MatcherInd.

(** Matchers never report a rate limit: that reason comes from the limiters. *)
Lemma Match_not_rate_limit m id s : Match m id s <> RateLimiterResponse.
Proof.
  induction m as [ms Hms|m Hm] using multi_ind.
  - simpl. destruct (argmin_elem Type_ SuccessResponse (map (fun m => Match m id s) ms))
      as [->|Hin]; [done|].
    apply list_elem_of_fmap in Hin as [m [-> Hin]]. rewrite Forall_forall in Hms. by apply Hms.
  - destruct m; simpl; try done; try (by case_bool_decide).
    + by destruct (Hm matchers).
    + unfold match_label. destruct (Labels_GetLabel _ _); [|done]. by destruct (_ || _).
    + by destruct (Labels_GetLabel _ _).
    + unfold match_height. by destruct (_ <=? _).
    + unfold match_slot. by destruct (_ <=? _).
    + unfold match_lower. by destruct (_ && _).
    + unfold and_response. by destruct (filter _ _).
    + unfold or_response. by destruct (existsb _ _).
    + by destruct (is_success _).
Qed.

Lemma elem_of_failures cv m sel ids r :
  r ∈ failures cv m sel ids <->
  exists id s, id ∈ ids /\ (id ∉ sel) /\ cv_state cv id = Some s /\
    matches m id s = false /\ r = Match m id s.
Proof.
  unfold failures. rewrite list_elem_of_omap. split.
  - intros (id & Hin & E). case_bool_decide; [done|].
    destruct (cv_state cv id) as [s|] eqn:Es; [|done].
    destruct (matches m id s) eqn:Em; [done|]. naive_solver.
  - intros (id & s & Hin & Hsel & Es & Em & ->). exists id. split; [done|].
    rewrite bool_decide_eq_false_2 by done. by rewrite Es, Em.
Qed.

(** The error of a selection that found no upstream. *)
Lemma selectionError_code cv m sel ids trace e :
  e = selectionError (foldl keep_reason None (failures cv m sel ids)) (Some trace) ->
  (Code e = NoSupportedMethod \/ Code e = NoAvailableUpstreams) /\
  (Code e = NoSupportedMethod <->
   exists id s, id ∈ ids /\ (id ∉ sel) /\ cv_state cv id = Some s /\
     response_type (Match m id s) = MethodType).
Proof.
  intros ->. destruct (foldl keep_reason None (failures cv m sel ids)) as [r|] eqn:E.
  - apply keep_reasons_min in E as [Hin Hmin].
    assert (r <> RateLimiterResponse) as Hnr.
    { apply elem_of_failures in Hin as (id & s & _ & _ & _ & _ & ->). apply Match_not_rate_limit. }
    assert ((exists id s, id ∈ ids /\ (id ∉ sel) /\ cv_state cv id = Some s /\
      response_type (Match m id s) = MethodType) <-> response_type r = MethodType) as ->.
    { split.
      - intros (id & s & Hid & Hsel & Es & Ht). assert (Match m id s ∈ failures cv m sel ids) as Hf.
        { apply elem_of_failures. exists id, s. split_and!; try done.
          unfold matches, is_success, Type_. by rewrite Ht. }
        apply Hmin in Hf. unfold Type_ in Hf. rewrite Ht in Hf. by destruct r.
      - intros Ht. apply elem_of_failures in Hin as (id & s & ? & ? & ? & _ & ->). naive_solver. }
    destruct r; simpl; try done; try (split; [by left|done]); split; try (by right); try done;
      unfold NoAvailableUpstreamsErrorWithCause; case_bool_decide; (by right) || done.
  - apply keep_reasons_none in E. simpl. split; [by right|]. split; [done|].
    intros (id & s & Hid & Hsel & Es & Ht).
    assert (Match m id s ∈ failures cv m sel ids) as Hf.
    { apply elem_of_failures. exists id, s. split_and!; try done.
      unfold matches, is_success, Type_. by rewrite Ht. }
    rewrite E in Hf. by apply elem_of_nil in Hf.
Qed.

(** C9. When the limiters allow, selection returns the first upstream in the
    order tried that is eligible and not handed out yet; when there is none it
    fails, with "method not supported" exactly when some upstream not handed
    out yet lacks the method (or the websocket a subscription needs), and with
    "no available upstreams" otherwise. *)
Theorem SelectUpstream_complete `{AllowingLimiters W} ups cv additional order req (st : SelState W) :
  ups <> [] -> ("" ∉ ordered order ups) ->
  let m := request_matchers additional req in
  let res := (ListStrategy_SelectUpstream ups cv additional order req st).1 in
  match candidates cv m (selected st) (ordered order ups) with
  | id :: _ => res = inr id
  | [] => exists e, res = inl e /\
      (Code e = NoSupportedMethod \/ Code e = NoAvailableUpstreams) /\
      (Code e = NoSupportedMethod <->
       exists id s, id ∈ ordered order ups /\ (id ∉ selected st) /\ cv_state cv id = Some s /\
         response_type (Match m id s) = MethodType)
  end.
Proof.
  intros Hne Hempty m res. unfold res, ListStrategy_SelectUpstream.
  destruct ups as [|u us]; [done|]. clear Hne res. set (l := u :: us) in *. clearbody l.
  unfold filterUpstreams. fold m. fold (ordered order l).
  clearbody m. destruct (filter_loop cv m _ _ _ _ st) as [f st1] eqn:Ef. cbn [fst].
  apply filter_loop_complete in Ef. unfold select_result.
  destruct (candidates cv m (selected st) (ordered order l)) as [|id rest] eqn:Ec.
  - destruct Ef as (-> & _ & ->). rewrite bool_decide_eq_true_2 by done.
    eexists. split; [done|]. by eapply (selectionError_code cv m).
  - destruct Ef as [-> _]. rewrite bool_decide_eq_false_2; [done|]. intros ->.
    apply Hempty. eapply list_elem_of_filter. unfold candidates in Ec. rewrite Ec. by left.
Qed.

Lemma SelectUpstream_complete_witness :
  (ListStrategy_SelectUpstream ["up1"; "up2"] demo_view [] None
    (mkRequest "eth_call" false) (mkSelState {["up1"]} tt)).1 = inr "up2".
Proof.
  pose proof (SelectUpstream_complete ["up1"; "up2"] demo_view [] None
    (mkRequest "eth_call" false) (mkSelState {["up1"]} tt)) as Hw.
  assert (["up1"; "up2"] <> [] /\ ("" ∉ ordered None ["up1"; "up2"])) as [Hne Hempty].
  { split; [done|]. apply (bool_decide_unpack _). by vm_compute. }
  specialize (Hw Hne Hempty). clear Hne Hempty. vm_compute in Hw. vm_compute. exact Hw.
Defined.
