(* ===== verification/Balancing.v ===== *)
(** How the strategies spread requests: repeated selection for one request,
    round robin across requests, label groups and selector orders (theorems
    about the definitions of [Strategy]). *)

From S2P Require Import Prelude.
From S2P Require Import Protocol.
From S2P Require Import Errors.
From S2P Require Import Specs.
From S2P Require Import Methods.
From S2P Require Import UpstreamState.
From S2P Require Import Matchers.
From S2P Require Import Strategy.

(** ** Retries drain the eligible upstreams in order *)

Section Drain.
Context {W : Type} `{AllowingLimiters W}.
Context (ups : list string) (cv : ChainView) (additional : list Matcher)
  (order : option UpstreamOrder) (req : Request).
Implicit Types st : SelState W.

(** [n] attempts of one request, as its retries make them. *)
Fixpoint attempts (n : nat) st : list (ResponseError + string) * SelState W :=
  match n with
  | O => ([], st)
  | S n' =>
    let '(r, st) := ListStrategy_SelectUpstream ups cv additional order req st in
    let '(rs, st) := attempts n' st in
    (r :: rs, st)
  end.

Lemma attempts_S n st :
  let r := ListStrategy_SelectUpstream ups cv additional order req st in
  (attempts (S n) st).1 = r.1 :: (attempts n r.2).1.
Proof using Type.
  simpl. destruct (ListStrategy_SelectUpstream ups cv additional order req st) as [r st'].
  cbn [fst snd]. by destruct (attempts n st').
Qed.

Let m := request_matchers additional req.
Let cands st := candidates cv m (selected st) (ordered order ups).

Context (Hord : order_ok order) (Hempty : "" ∉ ups) (Hnodup : NoDup ups).

Lemma ordered_empty : "" ∉ ordered order ups.
Proof using Hord Hempty. by rewrite (ordered_perm order ups Hord). Qed.

Lemma ups_nonempty st id rest : cands st = id :: rest -> ups <> [].
Proof using Hord.
  intros Hc Hu. unfold cands in Hc. rewrite Hu in Hc.
  rewrite (proj1 (Permutation_nil_r _) (ordered_perm order [] Hord)) in Hc. done.
Qed.

Lemma select_step st id rest :
  cands st = id :: rest ->
  (ListStrategy_SelectUpstream ups cv additional order req st).1 = inr id /\
  selected (ListStrategy_SelectUpstream ups cv additional order req st).2 = {[id]} ∪ selected st.
Proof using All.
  intros Hc. pose proof (ups_nonempty _ _ _ Hc) as Hne. pose proof ordered_empty as Hoe.
  unfold ListStrategy_SelectUpstream, filterUpstreams. unfold cands in Hc.
  destruct ups as [|u us]; [done|]. fold m. fold (ordered order (u :: us)).
  destruct (filter_loop cv m _ _ _ _ st) as [f st1] eqn:Ef. cbn [fst snd].
  apply filter_loop_complete in Ef. rewrite Hc in Ef.
  destruct Ef as [Ef ->]. split; [|done]. unfold select_result.
  rewrite bool_decide_eq_false_2, Ef; [done|]. intros E. apply Hoe.
  rewrite E in Ef. subst id. eapply list_elem_of_filter. unfold candidates in Hc.
  rewrite Hc. by left.
Qed.

Lemma cands_next st st' id rest :
  cands st = id :: rest -> selected st' = {[id]} ∪ selected st -> cands st' = rest.
Proof using All.
  intros Hc Hsel. unfold cands in *. rewrite Hsel.
  assert (NoDup (id :: rest)) as Hnd.
  { rewrite <- Hc. apply NoDup_filter. by rewrite (ordered_perm order ups Hord). }
  assert (candidates cv m ({[id]} ∪ selected st) (ordered order ups) =
    filter (fun x => x <> id) (candidates cv m (selected st) (ordered order ups))) as ->.
  { unfold candidates. rewrite list_filter_filter. apply list_filter_iff. set_solver. }
  rewrite Hc, filter_cons, decide_False by (intros ?; done).
  apply NoDup_cons in Hnd as [Hid _]. clear -Hid. induction rest as [|x rest IH]; [done|].
  rewrite filter_cons, decide_True by set_solver. f_equal. apply IH. set_solver.
Qed.

Lemma attempts_drain st :
  exists e, (attempts (S (length (cands st))) st).1 = map inr (cands st) ++ [inl e].
Proof using All.
  remember (cands st) as cs eqn:Hcs. symmetry in Hcs. revert st Hcs.
  induction cs as [|id cs IH]; intros st Hcs; cbn [length].
  - simpl. destruct (ListStrategy_SelectUpstream ups cv additional order req st) as [r st1] eqn:E.
    simpl. unfold ListStrategy_SelectUpstream, filterUpstreams in E.
    destruct ups as [|u us]; [simplify_eq; by eexists|]. fold m in E.
    fold (ordered order (u :: us)) in E.
    destruct (filter_loop cv m _ _ _ _ st) as [f st2] eqn:Ef.
    apply filter_loop_complete in Ef. unfold cands in Hcs. rewrite Hcs in Ef.
    destruct Ef as (Hf & _ & _). unfold select_result in E.
    rewrite bool_decide_eq_true_2 in E by done. simplify_eq. by eexists.
  - destruct (select_step st id cs Hcs) as [Hr Hs].
    pose proof (cands_next _ _ _ _ Hcs Hs) as Hn. destruct (IH _ Hn) as [e He].
    exists e. by rewrite attempts_S, Hr, He.
Qed.
End Drain.

(** When the limiters allow, the attempts of one request (retries and hedges
    made one after another) return every eligible upstream exactly once, in the
    order tried, and then fail: retrying more often than there are upstreams
    never repeats one and never misses one. *)
Theorem attempts_return_each_upstream_once `{AllowingLimiters W} ups cv additional order req
    (st : SelState W) :
  order_ok order -> ("" ∉ ups) -> NoDup ups ->
  let cs := candidates cv (request_matchers additional req) (selected st) (ordered order ups) in
  exists e, (attempts ups cv additional order req (S (length cs)) st).1 = map inr cs ++ [inl e].
Proof. intros Hord Hempty Hnodup cs. by apply attempts_drain. Qed.

#[local] Existing Instance Strategy.no_limiters.
#[local] Existing Instance Strategy.no_limiters_allowing.

Lemma attempts_return_each_upstream_once_witness :
  exists e, (attempts ["up1"; "up2"] demo_view [] None (mkRequest "eth_call" false) 3
    (mkSelState ∅ tt)).1 = [inr "up1"; inr "up2"; inl e].
Proof.
  pose proof (attempts_return_each_upstream_once ["up1"; "up2"] demo_view [] None
    (mkRequest "eth_call" false) (mkSelState ∅ tt)) as Hw.
  assert (order_ok None /\ ("" ∉ ["up1"; "up2"]) /\ NoDup ["up1"; "up2"]) as (H1 & H2 & H3).
  { split; [done|]. split; apply (bool_decide_unpack _); by vm_compute. }
  specialize (Hw H1 H2 H3). clear H1 H2 H3. vm_compute in Hw. vm_compute. exact Hw.
Defined.

(** ** Round robin over requests *)

Lemma GenericStrategy_nonempty `{Limiters W} cv rr additional order req (st : SelState W) :
  cv_ids cv <> [] ->
  GenericStrategy_SelectUpstream cv rr additional order req st =
    let pos := u64 (rr + 1) `mod` Z.of_nat (length (cv_ids cv)) in
    let '(f, st) :=
      filterUpstreams req (rotate_at (Z.to_nat pos) (cv_ids cv)) cv additional order st in
    (select_result f, (st, u64 (rr + 1))).
Proof. unfold GenericStrategy_SelectUpstream. by destruct (cv_ids cv). Qed.

Section RoundRobin.
Context {W : Type} `{AllowingLimiters W}.
Context (cv : ChainView) (additional : list Matcher) (req : Request).

(** [n] requests one after another, each with a generic strategy of its own
    (nothing selected yet); the counter and the world are shared. *)
Fixpoint requests (n : nat) (rr : Z) (w : W) : list (ResponseError + string) :=
  match n with
  | O => []
  | S n' =>
    let '(r, (st, rr)) :=
      GenericStrategy_SelectUpstream cv rr additional None req (mkSelState ∅ w) in
    r :: requests n' rr (world st)
  end.

Let ids := cv_ids cv.
Let len := Z.of_nat (length ids).
Context (Hids : ids <> []) (Hempty : "" ∉ ids).
Context (Hel : forall id, id ∈ ids -> eligible cv (request_matchers additional req) id = true).

Lemma len_pos : 0 < len.
Proof using Hids. unfold len. pose proof (proj1 (length_zero_iff_nil ids)). destruct (length ids); [naive_solver|lia]. Qed.

Lemma candidates_all l :
  (forall id, id ∈ l -> id ∈ ids) ->
  candidates cv (request_matchers additional req) ∅ l = l.
Proof using Hel.
  intros Hl. induction l as [|x l IH]; [done|]. unfold candidates in *.
  rewrite filter_cons, decide_True, IH; [done| |].
  - intros. apply Hl. by right.
  - split; [apply Hel, Hl; by left|apply not_elem_of_empty].
Qed.

Lemma rotate_at_head pos x :
  ids !! pos = Some x -> exists rest, rotate_at pos ids = x :: rest.
Proof using Type. intros Hx. unfold rotate_at. rewrite (drop_S _ _ _ Hx). by eexists. Qed.

(** One request takes the upstream the counter points at. *)
Lemma request_next rr w :
  is_u64 rr ->
  exists x st, ids !! Z.to_nat (u64 (rr + 1) `mod` len) = Some x /\
    GenericStrategy_SelectUpstream cv rr additional None req (mkSelState ∅ w) =
      (inr x, (st, u64 (rr + 1))).
Proof using All.
  intros Hrr. pose proof len_pos as Hlen.
  pose proof (Z.mod_pos_bound (u64 (rr + 1)) len Hlen) as Hpos.
  destruct (lookup_lt_is_Some_2 ids (Z.to_nat (u64 (rr + 1) `mod` len))) as [x Hx].
  { unfold len in *. lia. }
  destruct (rotate_at_head _ _ Hx) as [rest Hrot].
  rewrite GenericStrategy_nonempty by done. fold ids len.
  assert (x ∈ ids) as Hin by (by eapply list_elem_of_lookup_2).
  assert (x <> "") as Hne by (intros ->; done).
  unfold filterUpstreams. rewrite Hrot.
  destruct (filter_loop cv _ _ _ _ _ _) as [f st] eqn:Ef.
  apply filter_loop_complete in Ef. cbn [selected] in Ef.
  rewrite candidates_all in Ef.
  - destruct Ef as [Ef _]. exists x, st. split; [done|]. unfold select_result.
    by rewrite Ef, bool_decide_eq_false_2.
  - rewrite <- Hrot. unfold rotate_at. intros id. rewrite elem_of_app.
    intros [?|?].
    + by eapply subseteq_drop.
    + by eapply subseteq_take.
Qed.

Lemma requests_lookup n rr w i :
  0 <= rr -> rr + Z.of_nat n < two64 -> (i < n)%nat ->
  requests n rr w !! i = inr <$> (ids !! Z.to_nat ((rr + 1 + Z.of_nat i) `mod` len)).
Proof using All.
  revert rr w i. induction n as [|n IH]; intros rr w i Hrr Hw Hi; [lia|].
  assert (is_u64 rr) as Hu by (unfold is_u64; lia).
  destruct (request_next rr w Hu) as (x & st & Hx & E). simpl. rewrite E.
  rewrite u64_id in Hx |- * by (unfold is_u64; lia).
  destruct i as [|i]; simpl.
  - by rewrite Z.add_0_r, Hx.
  - rewrite IH by lia. by replace (rr + 1 + 1 + Z.of_nat i) with (rr + 1 + Z.of_nat (S i)) by lia.
Qed.

Lemma requests_length n rr w : length (requests n rr w) = n.
Proof using Type.
  revert rr w. induction n as [|n IH]; intros rr w; simpl; [done|].
  destruct (GenericStrategy_SelectUpstream _ _ _ _ _ _) as [r [st rr']]. simpl. by rewrite IH.
Qed.

Lemma rotate_at_lookup pos (i : nat) :
  0 <= pos -> (i < length ids)%nat ->
  rotate_at (Z.to_nat (pos `mod` len)) ids !! i = ids !! Z.to_nat ((pos + Z.of_nat i) `mod` len).
Proof using Hids.
  intros Hpos Hi. pose proof len_pos as Hlen.
  pose proof (Z.mod_pos_bound pos len Hlen) as Hb. unfold rotate_at.
  rewrite Zplus_mod, (Z.mod_small (Z.of_nat i)) by (unfold len; lia).
  set (p := pos `mod` len) in *. rewrite lookup_app, lookup_drop.
  destruct (decide (p + Z.of_nat i < len)) as [Hlt|Hge].
  - rewrite (Z.mod_small (p + Z.of_nat i)) by lia.
    replace (Z.to_nat (p + Z.of_nat i)) with (Z.to_nat p + i)%nat by lia.
    destruct (lookup_lt_is_Some_2 ids (Z.to_nat p + i)) as [x ->]; [unfold len in *; lia|done].
  - rewrite lookup_ge_None_2 by (unfold len in *; lia).
    rewrite length_drop, lookup_take_lt by (unfold len in *; lia).
    f_equal. rewrite <- (Z_mod_plus_full _ (-1) len), Z.mod_small; unfold len in *; lia.
Qed.
End RoundRobin.

(** Successive requests that every upstream of the chain can serve go
    through the upstreams in turn: as many requests as there are upstreams
    return the sorted list rotated at the counter, so each upstream serves
    exactly one of them. *)
Theorem round_robin_fair `{AllowingLimiters W} cv additional req rr (w : W) :
  cv_ids cv <> [] -> ("" ∉ cv_ids cv) ->
  (forall id, id ∈ cv_ids cv -> eligible cv (request_matchers additional req) id = true) ->
  0 <= rr -> rr + Z.of_nat (length (cv_ids cv)) < two64 ->
  requests cv additional req (length (cv_ids cv)) rr w =
    inr <$> rotate_at (Z.to_nat ((rr + 1) `mod` Z.of_nat (length (cv_ids cv)))) (cv_ids cv).
Proof.
  intros Hne Hempty Hel Hrr Hmax. apply list_eq_same_length with (length (cv_ids cv)).
  - rewrite length_fmap. unfold rotate_at. rewrite length_app, length_drop, length_take. lia.
  - apply requests_length.
  - intros i x y Hi. rewrite list_lookup_fmap, requests_lookup, rotate_at_lookup by (done || lia).
    congruence.
Qed.

Lemma round_robin_fair_witness :
  requests demo_view [] (mkRequest "eth_call" false) 2 6 tt = [inr "up2"; inr "up1"].
Proof.
  pose proof (round_robin_fair demo_view [] (mkRequest "eth_call" false) 6 tt) as Hw.
  assert (cv_ids demo_view <> [] /\ ("" ∉ cv_ids demo_view)) as [H1 H2].
  { split; [done|]. apply (bool_decide_unpack _). by vm_compute. }
  specialize (Hw H1 H2). clear H1 H2.
  assert (Forall (fun id => eligible demo_view (request_matchers [] (mkRequest "eth_call" false)) id = true)
    (cv_ids demo_view)) as Hf by (repeat constructor; by vm_compute).
  rewrite Forall_forall in Hf. specialize (Hw Hf ltac:(lia) ltac:(done)). clear Hf.
  vm_compute in Hw. vm_compute. exact Hw.
Defined.

(** ** Selector orders *)

(** The key the comparison of a sort hint follows, smallest first. *)
Definition order_key (spec : sortSpec) (keyOf : string -> Z) (id : string) : Z :=
  match kind spec with
  | sortPredictedLowerBoundAsc => keyOf id
  | sortDefault => 0
  | _ => - keyOf id
  end.

Lemma sort_less_key spec keyOf x y :
  sort_less spec keyOf x y = (order_key spec keyOf x <? order_key spec keyOf y).
Proof.
  unfold sort_less, order_key. destruct (kind spec); try done;
    apply Bool.eq_iff_eq_true; rewrite !Z.ltb_lt; lia.
Qed.

(** A sort hint of a request rearranges the upstreams, largest head, safe or
    finalized height first (smallest predicted lower bound first), and
    upstreams with equal keys keep the order of the strategy. *)
Theorem buildSelectorOrder_sorts spec sup cv o :
  buildSelectorOrder (Some spec) sup cv = Some o ->
  let key := order_key spec (selectorSortKey spec sup cv) in
  order_ok (Some o) /\
  (forall ids, StronglySorted (fun x y => key x <= key y) (o ids)) /\
  (forall ids k, filter (fun x => key x = k) (o ids) = filter (fun x => key x = k) ids).
Proof.
  intros E key. unfold buildSelectorOrder in E. case_bool_decide; [done|]. injection E as <-.
  assert (forall x y, sort_less spec (selectorSortKey spec sup cv) x y = (key x <? key y)) as Hkey
    by apply sort_less_key.
  split_and!.
  - intros l. apply stable_sort_perm.
  - intros ids. by apply (stable_sort_sorted _ key).
  - intros ids k. by apply (stable_sort_stable _ key).
Qed.

Definition demo_heads : ChainView :=
  mkChainView ["up1"; "up2"; "up3"] (fun id =>
    if decide (id = "up2") then Some (set_HeadData (NewBlockWithHeight 200) demo_state)
    else Some (set_HeadData (NewBlockWithHeight 100) demo_state)).

Lemma buildSelectorOrder_sorts_witness :
  let spec := mkSortSpec sortHeadDesc None 0 in
  exists o, o (cv_ids demo_heads) = ["up2"; "up1"; "up3"] /\
    StronglySorted (fun x y => order_key spec (selectorSortKey spec None (Some demo_heads)) x <=
      order_key spec (selectorSortKey spec None (Some demo_heads)) y) (o (cv_ids demo_heads)).
Proof.
  intros spec. eexists. split; [|].
  2:{ pose proof (buildSelectorOrder_sorts spec None (Some demo_heads) _ eq_refl) as Hw.
      cbv zeta in Hw. destruct Hw as (_ & Hs & _). apply Hs. }
  by vm_compute.
Defined.

(** ** Label groups *)

Section Groups.
Context {W : Type} `{AllowingLimiters W}.
Context (cv : ChainView) (additional : list Matcher) (order : option UpstreamOrder)
  (req : Request).
Implicit Types st : SelState W.

(** The upstreams of a group that may still be returned, in the order tried. *)
Definition group_candidates st (g : list string) : list string :=
  candidates cv (request_matchers additional req) (selected st) (ordered order g).

(** The first group, with its index, that has an upstream to return. *)
Fixpoint first_group st (gs : list (list string)) (idx : nat) : option (nat * string) :=
  match gs with
  | [] => None
  | g :: gs' =>
    match group_candidates st g with
    | id :: _ => Some (idx, id)
    | [] => first_group st gs' (S idx)
    end
  end.

Lemma first_group_selected st st' gs idx :
  selected st = selected st' -> first_group st gs idx = first_group st' gs idx.
Proof using Type.
  intros E. revert idx. induction gs as [|g gs IH]; intros idx; simpl; [done|].
  unfold group_candidates. rewrite E. by destruct (candidates _ _ _ _).
Qed.

Lemma group_loop_first gs idx reason trace st :
  (forall g, g ∈ gs -> "" ∉ ordered order g) ->
  let r := group_loop gs idx cv additional order req reason trace st in
  match first_group st gs idx with
  | Some (k, id) => r.1 = inr id /\ r.2.1 = k /\ selected r.2.2 = {[id]} ∪ selected st
  | None => (exists e, r.1 = inl e) /\ r.2.1 = (idx + length gs)%nat /\
      selected r.2.2 = selected st
  end.
Proof using All.
  revert idx reason trace st. induction gs as [|g gs IH]; intros idx reason trace st Hne; simpl.
  - split; [by eexists|]. by rewrite Nat.add_0_r.
  - unfold filterUpstreams. fold (ordered order g).
    destruct (filter_loop _ _ _ _ _ _ st) as [f st1] eqn:Ef.
    apply filter_loop_complete in Ef. fold (group_candidates st g) in Ef.
    destruct (group_candidates st g) as [|id rest] eqn:Ec.
    + destruct Ef as (-> & Hsel & _). rewrite bool_decide_eq_true_2 by done.
      rewrite (first_group_selected _ st1) by done. rewrite <- Hsel.
      replace (idx + S (length gs))%nat with (S idx + length gs)%nat by lia.
      apply IH. intros g' Hg'. apply Hne. by right.
    + destruct Ef as [-> Hsel]. rewrite bool_decide_eq_false_2; [done|]. intros ->.
      apply (Hne g); [by left|]. eapply list_elem_of_filter. unfold group_candidates, candidates in Ec.
      rewrite Ec. by left.
Qed.
End Groups.

(** The label-group strategy returns an upstream of the first group that
    still has one, starting at its cursor; with [passOnError] every attempt
    after the first starts one group later.  The cursor moves to the group that
    served the attempt, and past the last group when no group could. *)
Theorem LabelGroup_first_group `{AllowingLimiters W} groups passOnError cv additional order req
    (lg : LabelGroupState W) :
  groups <> [] -> (forall g, g ∈ groups -> "" ∉ ordered order g) ->
  let start := if passOnError && negb (firstCall lg)
               then S (currentGroupIdx lg) else currentGroupIdx lg in
  let '(res, lg') :=
    LabelGroupStrategy_SelectUpstream groups passOnError cv additional order req lg in
  firstCall lg' = false /\
  match first_group cv additional order req (lg_sel lg) (drop start groups) start with
  | Some (k, id) => res = inr id /\ currentGroupIdx lg' = k /\
      selected (lg_sel lg') = {[id]} ∪ selected (lg_sel lg)
  | None => (exists e, res = inl e) /\
      currentGroupIdx lg' = (start + (length groups - start))%nat /\
      selected (lg_sel lg') = selected (lg_sel lg)
  end.
Proof.
  intros Hne Hempty start. unfold LabelGroupStrategy_SelectUpstream. fold start.
  destruct groups as [|g0 gs]; [done|]. set (groups := g0 :: gs) in *. clearbody groups.
  pose proof (group_loop_first cv additional order req (drop start groups) start None None
    (lg_sel lg)) as Hl.
  destruct (group_loop _ _ _ _ _ _ _ _ _) as [res [idx st]]. cbn [fst snd] in Hl.
  rewrite length_drop in Hl. split; [done|]. apply Hl.
  intros g Hg. apply Hempty. by eapply subseteq_drop.
Qed.

Lemma LabelGroup_first_group_witness :
  let '(res, lg') := LabelGroupStrategy_SelectUpstream [["up9"]; ["up1"]; ["up2"; "up1"]] true
    demo_view [] None (mkRequest "eth_call" false)
    (mkLabelGroupState 1 false (mkSelState {["up1"]} tt)) in
  res = inr "up2" /\ currentGroupIdx lg' = 2%nat.
Proof.
  pose proof (LabelGroup_first_group [["up9"]; ["up1"]; ["up2"; "up1"]] true demo_view [] None
    (mkRequest "eth_call" false) (mkLabelGroupState 1 false (mkSelState {["up1"]} tt))) as Hw.
  assert (Forall (fun g => "" ∉ ordered None g) [["up9"]; ["up1"]; ["up2"; "up1"]]) as Hf
    by (repeat constructor; apply (bool_decide_unpack _); by vm_compute).
  rewrite Forall_forall in Hf. specialize (Hw ltac:(done) Hf). clear Hf.
  vm_compute in Hw. vm_compute. naive_solver.
Defined.

Lemma not_any_label (labelsOf : string -> gset string) order id :
  existsb (fun label => bool_decide (label ∈ labelsOf id)) order = false <->
  forall label, label ∈ order -> label ∉ labelsOf id.
Proof.
  induction order as [|l order IH]; simpl; [set_solver|].
  rewrite orb_false_iff, bool_decide_eq_false, IH. set_solver.
Qed.

(** Partitioning by label keeps the rating order inside every group, puts
    an upstream in the group of each label it carries, and, with the default
    group, leaves no upstream out; the default group holds exactly the
    upstreams without any of the labels. *)
Theorem PartitionLabelGroups_spec sortedIds order includeDefault labelsOf :
  let groups := PartitionLabelGroups sortedIds order includeDefault labelsOf in
  (forall g, g ∈ groups -> g `sublist_of` sortedIds) /\
  (forall i label, order !! i = Some label ->
     exists g, groups !! i = Some g /\
       forall id, id ∈ g <-> id ∈ sortedIds /\ label ∈ labelsOf id) /\
  (forall id, id ∈ sortedIds ->
     ((exists g, g ∈ groups /\ id ∈ g) <->
      includeDefault = true \/ exists label, label ∈ order /\ label ∈ labelsOf id)) /\
  (forall g, groups !! length order = Some g -> forall id, id ∈ g <->
     id ∈ sortedIds /\ forall label, label ∈ order -> label ∉ labelsOf id).
Proof.
  intros groups. unfold groups, PartitionLabelGroups.
  set (lg := fun label => filter (fun id => label ∈ labelsOf id) sortedIds).
  set (dg := filter _ sortedIds).
  assert (forall id, id ∈ dg <-> id ∈ sortedIds /\ forall label, label ∈ order -> label ∉ labelsOf id)
    as Hdg.
  { intros id. unfold dg. rewrite list_elem_of_filter, not_any_label. tauto. }
  set (b := includeDefault && negb (bool_decide (dg = []))).
  assert (forall g, g ∈ (if b then map lg order ++ [dg] else map lg order) <->
    (exists label, g = lg label /\ label ∈ order) \/ (b = true /\ g = dg)) as Hg.
  { intros g. destruct b; rewrite ?elem_of_app, ?list_elem_of_fmap, ?list_elem_of_singleton; naive_solver. }
  split_and!.
  - intros g [(label & -> & _)|[_ ->]]%Hg; apply sublist_filter.
  - intros i label Hi. exists (lg label). split.
    + assert (map lg order !! i = Some (lg label)) as Hm by (rewrite list_lookup_fmap, Hi; done).
      destruct b; [|done]. rewrite lookup_app_l; [done|]. by eapply lookup_lt_Some.
    + intros id. unfold lg. rewrite list_elem_of_filter. tauto.
  - intros id Hid. setoid_rewrite Hg. split.
    + intros (g & [(label & -> & Hl)|[Hb ->]] & Hin); [right|left].
      * exists label. apply list_elem_of_filter in Hin as [? _]. done.
      * unfold b in Hb. by reflect_bool.
    + destruct (existsb (fun label => bool_decide (label ∈ labelsOf id)) order) eqn:E.
      * intros _. apply existsb_exists in E as (label & Hl%list_elem_of_In & Hi).
        exists (lg label). split; [left; eauto|]. apply list_elem_of_filter. by reflect_bool.
      * rewrite not_any_label in E. assert (id ∈ dg) as Hin by (by apply Hdg).
        intros [Hinc|(label & Hl & Hi)]; [|by destruct (E label Hl)].
        exists dg. split; [right|done]. split; [|done]. unfold b. rewrite Hinc. simpl.
        apply negb_true_iff, bool_decide_eq_false. intros E2. rewrite E2 in Hin. by apply elem_of_nil in Hin.
  - intros g. destruct b; rewrite ?lookup_app, list_lookup_fmap, ?lookup_ge_None_2 by lia; simpl.
    + rewrite length_map, Nat.sub_diag. simpl. by intros [= <-].
    + done.
Qed.
