(* ===== verification/RateLimiter.v ===== *)
(** Rate limiting: budgets of rules, the in-memory and the Redis engine that
    count requests, and the worlds of limiters upstream selection runs in
    ([internal/ratelimiter/budget.go], [memory_engine.go], [redis_engine.go],
    [types.go], [internal/config/ratelimit_config.go]). *)

From S2P Require Import Prelude.
From S2P Require Import Protocol.
From Stdlib Require Import Ascii.

(** ** Rules and budgets *)

(** Regular expressions come from Go's [regexp]: which patterns compile, and
    which names one matches. *)
Class Regexp := {
  regexp_valid : string -> bool;
  MatchString : string -> string -> bool;
}.

Record FixedRateLimiterType := mkFixed { requests_ : Z; period_ : Z }.

Inductive ruleCheck :=
| ruleCheckMethod (method : string)
| ruleCheckPattern (pattern : string).

Definition rule_match `{Regexp} (c : ruleCheck) (method : string) : bool :=
  match c with
  | ruleCheckMethod m => bool_decide (m = method)
  | ruleCheckPattern p => MatchString p method
  end.

Definition rule_name (c : ruleCheck) : string :=
  match c with ruleCheckMethod m => m | ruleCheckPattern p => p end.

Record Rule := mkRule { Check_ : ruleCheck; rule_Type : FixedRateLimiterType }.

Record RateLimitCommand := mkCommand { cmd_Type : FixedRateLimiterType; cmd_Name : string }.

Record RateLimitBudget := mkBudget { budget_Name : string; Rules : list Rule }.

(** The configuration of a budget, and its validation. *)
Record RateLimitRule := mkRateLimitRule {
  rule_Method : string;
  rule_Pattern : string;
  rule_Requests : Z;
  rule_Period : Z;
}.

Section Budget.
Context `{Regexp}.

(** [methodRegex]: which names are plain method names. *)
Context (methodRegex : string -> bool).

Fixpoint rules_validate (rules : list RateLimitRule) : option string :=
  match rules with
  | [] => None
  | rule :: rules' =>
    if bool_decide (rule_Method rule = "") && bool_decide (rule_Pattern rule = "")
    then Some "the method or pattern must be specified"
    else if negb (bool_decide (rule_Method rule = "")) && negb (bool_decide (rule_Pattern rule = ""))
    then Some "the method and pattern can't be specified at the same time"
    else if negb (bool_decide (rule_Method rule = "")) && negb (methodRegex (rule_Method rule))
    then Some "the method must be a valid method name, you can't use regex, otherwise use pattern: 'pattern' instead of method"
    else if rule_Period rule <=? 0 then Some "the period must be greater than 0"
    else if rule_Requests rule <? 1 then Some "the requests must be greater than 0"
    else rules_validate rules'
  end.

(** [NewRateLimitBudget]; [None] is the panic of [regexp.MustCompile]. *)
Fixpoint new_rules (rules : list RateLimitRule) : option (list Rule) :=
  match rules with
  | [] => Some []
  | rule :: rules' =>
    let tp := mkFixed (rule_Requests rule) (rule_Period rule) in
    if negb (bool_decide (rule_Method rule = "")) then
      cons (mkRule (ruleCheckMethod (rule_Method rule)) tp) <$> new_rules rules'
    else if regexp_valid (rule_Pattern rule) then
      cons (mkRule (ruleCheckPattern (rule_Pattern rule)) tp) <$> new_rules rules'
    else None
  end.

Definition NewRateLimitBudget (name : string) (rules : list RateLimitRule)
    : option RateLimitBudget := mkBudget name <$> new_rules rules.

(** The commands [Allow] sends to the engine, from rule index [i] on. *)
Fixpoint budget_commands (name : string) (i : N) (rules : list Rule) (method : string)
    : list RateLimitCommand :=
  match rules with
  | [] => []
  | rule :: rules' =>
    let rest := budget_commands name (i + 1) rules' method in
    if rule_match (Check_ rule) method then
      mkCommand (rule_Type rule)
        (name +:+ "-" +:+ pretty i +:+ "-" +:+ rule_name (Check_ rule)) :: rest
    else rest
  end.
End Budget.

(** An engine runs the commands of one request against its store at a time:
    the answer, an error, and the new store. *)
Class RateLimitEngine (E : Type) := {
  Execute : Z -> list RateLimitCommand -> E -> (bool * option string) * E;
}.

Definition Allow `{Regexp} `{RateLimitEngine E} (b : RateLimitBudget) (now : Z) (method : string)
    (e : E) : (bool * option string) * E :=
  Execute now (budget_commands (budget_Name b) 0 (Rules b) method) e.

(** ** The in-memory engine

    Token buckets come from [github.com/juju/ratelimit]; the clock is the
    argument of each call. *)

Class BucketLib := {
  Bucket : Type;
  NewBucketWithQuantum : Z -> Z -> Z -> Z -> Bucket;
  TakeAvailable : Z -> Z -> Bucket -> Z * Bucket;
}.

(** What the library documents.  [NewBucketWithQuantum now interval capacity
    quantum] is full; every [interval] [quantum] tokens are added, up to
    [capacity]; [TakeAvailable] removes up to [count] available tokens and
    returns how many.  [bucket_tick] counts the intervals since creation and
    [Available] the tokens there are. *)
Class BucketLaws `{BucketLib} := {
  Available : Z -> Bucket -> Z;
  bucket_tick : Z -> Bucket -> Z;
  bucket_params : Bucket -> Z * Z * Z;
  new_params now p c q : bucket_params (NewBucketWithQuantum now p c q) = (p, c, q);
  new_available now p c q : 0 < p -> 0 < c -> 0 < q ->
    Available now (NewBucketWithQuantum now p c q) = c;
  refill now now' b p c q : bucket_params b = (p, c, q) -> 0 < p -> 0 < q -> now <= now' ->
    Available now b <= Available now' b <=
      Available now b + q * (bucket_tick now' b - bucket_tick now b);
  refill_cap now b p c q : bucket_params b = (p, c, q) -> Available now b <= c;
  tick_speed now now' b p c q : bucket_params b = (p, c, q) -> 0 < p -> now <= now' ->
    0 <= bucket_tick now' b - bucket_tick now b <= (now' - now) / p + 1;
  take_count now b : 
    (TakeAvailable now 1 b).1 = if 0 <? Available now b then 1 else 0;
  take_available now b :
    Available now (TakeAvailable now 1 b).2 = Available now b - (TakeAvailable now 1 b).1;
  take_params now b : bucket_params (TakeAvailable now 1 b).2 = bucket_params b;
  take_tick now now' b : bucket_tick now' (TakeAvailable now 1 b).2 = bucket_tick now' b;
}.

Section Memory.
Context `{BucketLib}.

Abbreviation MemoryEngine := (gmap string Bucket).

Definition load_or_create (now : Z) (cmd : RateLimitCommand) (e : MemoryEngine) : Bucket :=
  match e !! cmd_Name cmd with
  | Some b => b
  | None => NewBucketWithQuantum now (period_ (cmd_Type cmd))
              (i64 (requests_ (cmd_Type cmd))) (i64 (requests_ (cmd_Type cmd)))
  end.

(** The loop of [Execute]; [result && ...] skips the bucket once a rule denied. *)
Fixpoint memory_loop (now : Z) (cmds : list RateLimitCommand) (result : bool) (e : MemoryEngine)
    : bool * MemoryEngine :=
  match cmds with
  | [] => (result, e)
  | cmd :: cmds' =>
    let limiter := load_or_create now cmd e in
    if result then
      let '(n, limiter) := TakeAvailable now 1 limiter in
      memory_loop now cmds' (0 <? n) (<[cmd_Name cmd := limiter]> e)
    else memory_loop now cmds' false (<[cmd_Name cmd := limiter]> e)
  end.

#[export] Instance MemoryEngine_Execute : RateLimitEngine MemoryEngine := {
  Execute now cmds e := let '(r, e) := memory_loop now cmds true e in ((r, None), e);
}.
End Memory.

(** ** How many requests the in-memory engine lets through *)

Section MemoryRate.
Context `{BL : BucketLaws}.
Implicit Types e : gmap string Bucket.

(** Executions one after another, at the given times. *)
Fixpoint exec_run (calls : list (Z * list RateLimitCommand)) e : list bool :=
  match calls with
  | [] => []
  | (now, cmds) :: calls' =>
    let '((r, _), e) := Execute now cmds e in r :: exec_run calls' e
  end.

Context (n : string) (tp : FixedRateLimiterType).
Context (Hp : 0 < period_ tp) (Hr : 0 < requests_ tp < two63).

(** The commands of the limiter [n] all carry its type. *)
Definition typed (cmds : list RateLimitCommand) : Prop :=
  forall c, c ∈ cmds -> cmd_Name c = n -> cmd_Type c = tp.

(** A bucket of the limiter: its parameters, and no debt. *)
Definition bucket_ok (t : Z) (b : Bucket) : Prop :=
  bucket_params b = (period_ tp, requests_ tp, requests_ tp) /\ 0 <= Available t b.

Definition engine_ok (t : Z) e : Prop := forall b, e !! n = Some b -> bucket_ok t b.

Lemma bucket_ok_later t t' b : t <= t' -> bucket_ok t b -> bucket_ok t' b.
Proof using Hp Hr.
  intros Ht [Hpar Ha]. split; [done|].
  pose proof (refill t t' b _ _ _ Hpar Hp ltac:(lia) Ht). lia.
Qed.

Lemma created_ok t c :
  cmd_Type c = tp -> bucket_ok t (load_or_create t c ∅) /\
  Available t (load_or_create t c ∅) = requests_ tp.
Proof using Hp Hr.
  intros Hc. unfold load_or_create. rewrite lookup_empty, Hc.
  rewrite i64_id by (apply is_i64_of_small; lia).
  rewrite new_available by lia. split; [|done]. split; [apply new_params|].
  rewrite new_available; lia.
Qed.

(** [b'] is [b] after [k] tokens were taken at time [t]. *)
Definition taken (t : Z) (k : Z) (b b' : Bucket) : Prop :=
  bucket_ok t b' /\ Available t b' = Available t b - k /\
  (forall t', bucket_tick t' b' = bucket_tick t' b).

Lemma take_taken t b :
  bucket_ok t b -> let r := TakeAvailable t 1 b in
  taken t (if 0 <? r.1 then 1 else 0) b r.2.
Proof using Type.
  intros [Hpar Ha] r. unfold taken, bucket_ok, r. rewrite take_params, take_available, take_count.
  pose proof (fun t' => take_tick t t' b) as Ht.
  destruct (0 <? Available t b) eqn:E; simpl; reflect_bool; split_and!; done || lia.
Qed.

Lemma taken_trans t k1 k2 b1 b2 b3 :
  taken t k1 b1 b2 -> taken t k2 b2 b3 -> taken t (k1 + k2) b1 b3.
Proof using Type.
  intros (_ & Ha & Ht) (Hok & Ha' & Ht'). split; [done|]. split; [lia|]. congruence.
Qed.

Lemma taken_refl t b : bucket_ok t b -> taken t 0 b b.
Proof using Type. intros. split; [done|]. split; [lia|done]. Qed.

Lemma memory_loop_false t cmds e : (memory_loop t cmds false e).1 = false.
Proof using Type. revert e. induction cmds; intros e; simpl; auto. Qed.

Lemma memory_loop_cons t c cmds (r : bool) e :
  let b := load_or_create t c e in
  memory_loop t (c :: cmds) r e =
  memory_loop t cmds (if r then 0 <? (TakeAvailable t 1 b).1 else false)
    (<[cmd_Name c := if r then (TakeAvailable t 1 b).2 else b]> e).
Proof using Type.
  simpl. destruct r; [|done]. by destruct (TakeAvailable t 1 (load_or_create t c e)).
Qed.

(** What one execution does to the bucket of [n]. *)
Lemma memory_loop_effect t cmds (r : bool) e c :
  engine_ok t e -> typed cmds -> cmd_Name c = n -> cmd_Type c = tp ->
  let res := memory_loop t cmds r e in
  if bool_decide (n ∈ map cmd_Name cmds) then
    exists k b', 0 <= k /\ (res.1 = true -> 1 <= k) /\ res.2 !! n = Some b' /\
      taken t k (load_or_create t c e) b'
  else res.2 !! n = e !! n.
Proof using Hp Hr.
  intros Hok Hty Hc Hct. revert r e Hok. induction cmds as [|c' cmds IH]; intros r e Hok.
  { by rewrite bool_decide_eq_false_2 by apply not_elem_of_nil. }
  assert (typed cmds) as Hty' by (intros x Hx; apply Hty; by right).
  specialize (IH Hty').
  rewrite memory_loop_cons. set (b0 := load_or_create t c' e).
  set (b1 := if r then (TakeAvailable t 1 b0).2 else b0).
  set (r1 := if r then 0 <? (TakeAvailable t 1 b0).1 else false).
  destruct (decide (cmd_Name c' = n)) as [En|En].
  - rewrite bool_decide_eq_true_2 by (rewrite <- En; by left).
    assert (load_or_create t c' e = load_or_create t c e) as El.
    { unfold load_or_create. rewrite En, Hc. destruct (e !! n); [done|].
      by rewrite Hct, (Hty c' ltac:(by left) En). }
    assert (bucket_ok t (load_or_create t c e)) as Hb.
    { unfold load_or_create. rewrite Hc. destruct (e !! n) eqn:E; [by apply Hok|].
      pose proof (created_ok t c Hct) as [Hcr _]. unfold load_or_create in Hcr.
      by rewrite lookup_empty in Hcr. }
    assert (taken t (if r1 then 1 else 0) (load_or_create t c e) b1) as H1.
    { rewrite <- El in Hb |- *. unfold b1, r1.
      destruct r; [by apply take_taken|by apply taken_refl]. }
    rewrite En.
    specialize (IH r1 (<[n := b1]> e)). cbv zeta in IH |- *. case_bool_decide.
    + destruct IH as (k & b' & Hk & Hres & Hb' & Ht).
      { intros b. rewrite lookup_insert_eq. intros [= <-]. apply H1. }
      exists ((if r1 then 1 else 0) + k), b'. split_and!; try done.
      * destruct r1; lia.
      * intros Hres'. specialize (Hres Hres'). destruct r1; lia.
      * eapply taken_trans; [done|]. unfold load_or_create in Ht at 1.
        by rewrite Hc, lookup_insert_eq in Ht.
    + rewrite IH.
      2:{ intros b. rewrite lookup_insert_eq. intros [= <-]. apply H1. }
      rewrite lookup_insert_eq. exists (if r1 then 1 else 0), b1. split_and!; try done.
      * by destruct r1.
      * destruct r1; [done|]. by rewrite memory_loop_false.
  - specialize (IH r1 (<[cmd_Name c' := b1]> e)). cbv zeta in IH |- *.
    unfold load_or_create at 1 in IH. unfold engine_ok in IH.
    rewrite Hc, !lookup_insert_ne in IH by done. unfold load_or_create. rewrite Hc.
    specialize (IH Hok). 
    rewrite (bool_decide_ext (n ∈ map cmd_Name (c' :: cmds)) (n ∈ map cmd_Name cmds)); [done|].
    simpl. set_solver.
Qed.

(** The requests that [n] limits and that were let through. *)
Fixpoint allowed_count (calls : list (Z * list RateLimitCommand)) (rs : list bool) : Z :=
  match calls, rs with
  | (_, cmds) :: calls', r :: rs' =>
    (if r && bool_decide (n ∈ map cmd_Name cmds) then 1 else 0) + allowed_count calls' rs'
  | _, _ => 0
  end.

(** Calls from time [t] on, in order, none after [tend]. *)
Fixpoint timed (t tend : Z) (calls : list (Z * list RateLimitCommand)) : Prop :=
  match calls with
  | [] => t <= tend
  | (t', cmds) :: calls' => t <= t' /\ typed cmds /\ timed t' tend calls'
  end.

Lemma timed_le t tend calls : timed t tend calls -> t <= tend.
Proof using Type.
  revert t. induction calls as [|[t' cmds] calls IH]; intros t; simpl; [done|].
  intros (? & _ & ?%IH). lia.
Qed.

(** The tokens the limiter can still hand out until [tend]. *)
Definition credit (t tend : Z) e : Z :=
  match e !! n with
  | Some b => Available t b + requests_ tp * (bucket_tick tend b - bucket_tick t b)
  | None => requests_ tp + requests_ tp * ((tend - t) / period_ tp + 1)
  end.

Lemma credit_taken t t' tend k b b' :
  bucket_ok t b -> t <= t' -> taken t' k b b' ->
  Available t' b' + requests_ tp * (bucket_tick tend b' - bucket_tick t' b') + k <=
  Available t b + requests_ tp * (bucket_tick tend b - bucket_tick t b).
Proof using Hp Hr.
  intros [Hpar _] Ht (_ & Ha & Htick). rewrite !Htick.
  pose proof (refill t t' b _ _ _ Hpar Hp ltac:(lia) Ht). lia.
Qed.

Lemma credit_created t tend k b b' :
  bucket_ok t b -> Available t b = requests_ tp -> t <= tend -> taken t k b b' ->
  Available t b' + requests_ tp * (bucket_tick tend b' - bucket_tick t b') + k <=
  requests_ tp + requests_ tp * ((tend - t) / period_ tp + 1).
Proof using Hp Hr.
  intros [Hpar _] Hav Ht (_ & Ha & Htick). rewrite !Htick.
  pose proof (tick_speed t tend b _ _ _ Hpar Hp Ht). nia.
Qed.

Lemma credit_step t t' tend cmds e :
  engine_ok t e -> typed cmds -> t <= t' <= tend ->
  let res := memory_loop t' cmds true e in
  engine_ok t' res.2 /\
  (if res.1 && bool_decide (n ∈ map cmd_Name cmds) then 1 else 0) + credit t' tend res.2
    <= credit t tend e.
Proof using Hp Hr.
  intros Hok Hty Ht res. set (c := mkCommand tp n).
  assert (engine_ok t' e) as Hok' by (intros b Hb; eapply bucket_ok_later; [|by apply Hok]; lia).
  pose proof (memory_loop_effect t' cmds true e c Hok' Hty eq_refl eq_refl) as Heff.
  fold res in Heff. cbv zeta in Heff. unfold credit.
  assert ((tend - t') / period_ tp <= (tend - t) / period_ tp) as Hdiv by (apply Z.div_le_mono; lia).
  case_bool_decide as Hin.
  - destruct Heff as (k & b' & Hk & Hres & Hb' & Htk). rewrite Hb'. split.
    { intros b Hb. rewrite Hb' in Hb. injection Hb as <-. apply Htk. }
    enough (Available t' b' + requests_ tp * (bucket_tick tend b' - bucket_tick t' b') + k <=
      match e !! n with
      | Some b => Available t b + requests_ tp * (bucket_tick tend b - bucket_tick t b)
      | None => requests_ tp + requests_ tp * ((tend - t) / period_ tp + 1)
      end) by (destruct res.1; simpl; lia).
    unfold load_or_create in Htk. simpl in Htk. destruct (e !! n) as [b|] eqn:E.
    + eapply (credit_taken _ t'); [by apply Hok|lia|done].
    + etrans; [eapply (credit_created t'); [| |lia|apply Htk]|nia];
        pose proof (created_ok t' c eq_refl) as [H1 H2]; unfold load_or_create in H1, H2;
        by rewrite lookup_empty in H1, H2.
  - rewrite Heff, andb_false_r. split; [intros b Hb; rewrite Heff in Hb; by apply Hok'|].
    destruct (e !! n) as [b|] eqn:E; [|nia].
    pose proof (refill t t' b _ _ _ (proj1 (Hok b E)) Hp ltac:(lia)). lia.
Qed.

Lemma exec_run_credit calls t tend e :
  engine_ok t e -> timed t tend calls ->
  allowed_count calls (exec_run calls e) <= credit t tend e.
Proof using Hp Hr.
  revert t e. induction calls as [|[t' cmds] calls IH]; intros t e Hok Ht.
  - simpl in *. unfold credit. destruct (e !! n) as [b|] eqn:E.
    + destruct (Hok b E) as [Hpar Ha]. pose proof (tick_speed t tend b _ _ _ Hpar Hp Ht). nia.
    + pose proof (Z.div_pos (tend - t) (period_ tp)). nia.
  - destruct Ht as (Ht & Hty & Htail). pose proof (timed_le _ _ _ Htail) as Hend.
    destruct (credit_step t t' tend cmds e Hok Hty) as [Hok' Hc]; [lia|].
    cbn [exec_run allowed_count Execute MemoryEngine_Execute].
    destruct (memory_loop t' cmds true e) as [r e']. cbn [fst snd] in *.
    cbn [allowed_count]. specialize (IH t' e' Hok' Htail). lia.
Qed.
End MemoryRate.

(** C22. The in-memory engine keeps a limiter to its rate: in any window of time,
    whatever other commands run in between, at most [requests] times (the
    number of periods in the window plus two) of the requests it limits are let
    through (a full bucket, one refill per period begun). *)
Theorem memory_engine_rate_bound `{BucketLaws} n tp calls t tend (e : gmap string Bucket) :
  0 < period_ tp -> 0 < requests_ tp < two63 ->
  engine_ok n tp t e -> timed n tp t tend calls ->
  allowed_count n calls (exec_run calls e) <=
    requests_ tp * ((tend - t) / period_ tp + 2).
Proof.
  intros Hp Hr Hok Ht. pose proof (timed_le _ _ _ _ _ Ht) as Hle.
  etrans; [by eapply exec_run_credit|]. unfold credit.
  destruct (e !! n) as [b|] eqn:E; [|lia]. destruct (Hok b E) as [Hpar _].
  pose proof (tick_speed t tend b _ _ _ Hpar Hp Hle).
  pose proof (refill_cap t b _ _ _ Hpar). nia.
Qed.

(** A token bucket that meets the documented behaviour. *)
Record DemoBucket := mkDemoBucket {
  db_start : Z; db_params : Z * Z * Z; db_tokens : Z; db_latest : Z;
}.

Definition demo_tick (now : Z) (b : DemoBucket) : Z := (now - db_start b) / (db_params b).1.1.

Definition demo_available (now : Z) (b : DemoBucket) : Z :=
  let '(_, c, q) := db_params b in
  Z.min c (db_tokens b + q * (demo_tick now b - db_latest b)).

#[local] Instance demo_buckets : BucketLib := {
  Bucket := DemoBucket;
  NewBucketWithQuantum now p c q := mkDemoBucket now (p, c, q) c 0;
  TakeAvailable now count b :=
    let a := demo_available now b in
    let n := Z.max 0 (Z.min count a) in
    (n, mkDemoBucket (db_start b) (db_params b) (a - n) (demo_tick now b));
}.

#[local] Instance demo_buckets_laws : BucketLaws.
Proof.
  refine {| Available := demo_available; bucket_tick := demo_tick; bucket_params := db_params |}.
  - done.
  - intros now p c q Hp Hc Hq. unfold demo_available, demo_tick. simpl.
    rewrite Z.sub_diag, Z.div_0_l by lia. lia.
  - intros now now' [s pp a l] p c q Hpar Hp Hq Hle. simpl in *. subst pp.
    unfold demo_available, demo_tick. simpl.
    assert ((now - s) / p <= (now' - s) / p) by (apply Z.div_le_mono; lia). nia.
  - intros now [s pp a l] p c q Hpar. simpl in *. subst pp. unfold demo_available. simpl. lia.
  - intros now now' [s pp a l] p c q Hpar Hp Hle. simpl in *. subst pp. unfold demo_tick. simpl.
    pose proof (Z.div_le_mono (now - s) (now' - s) p). replace (now' - s) with ((now' - now) + (now - s)) in * by lia.
    set (x := now' - now) in *. set (y := now - s) in *.
    pose proof (Z.div_mod x p). pose proof (Z.div_mod y p). pose proof (Z.div_mod (x + y) p).
    pose proof (Z.mod_pos_bound x p). pose proof (Z.mod_pos_bound y p). pose proof (Z.mod_pos_bound (x + y) p).
    nia.
  - intros now b. simpl. destruct (0 <? demo_available now b) eqn:E; reflect_bool; lia.
  - intros now b. unfold demo_available at 1. simpl. destruct b as [s [[p c] q] a l].
    unfold demo_tick. simpl. unfold demo_available, demo_tick. simpl. lia.
  - done.
  - done.
Defined.

Lemma memory_engine_rate_bound_witness :
  let c := [mkCommand (mkFixed 2 1000) "b-0-eth_call"] in
  let calls := [(0, c); (1, c); (2, c); (999, c); (1000, c)] in
  exec_run calls ∅ = [true; true; false; false; true] /\
  allowed_count "b-0-eth_call" calls (exec_run calls ∅) <= 2 * ((1000 - 0) / 1000 + 2).
Proof.
  intros c calls. split; [by vm_compute|].
  apply (memory_engine_rate_bound "b-0-eth_call" (mkFixed 2 1000) calls 0 1000 ∅); try done.
  assert (typed "b-0-eth_call" (mkFixed 2 1000) c) as Hc.
  { intros x ->%list_elem_of_singleton. done. }
  simpl. repeat (split; [done|]); done.
Defined.

(** ** What a budget decides *)

(** Strings without a dash. *)
Fixpoint no_dash (s : string) : bool :=
  match s with
  | EmptyString => true
  | String c s' => negb (bool_decide (c = "-"%char)) && no_dash s'
  end.

Lemma pretty_no_dash (i : N) : no_dash (pretty i) = true.
Proof.
  cut (forall x s, no_dash s = true -> no_dash (pretty_N_go x s) = true).
  { intros Hgo. unfold pretty, pretty_N. destruct (decide (i = 0)%N); [done|]. by apply Hgo. }
  intros x. induction (N.lt_wf_0 x) as [x _ IH]; intros s Hs.
  assert (x = 0 \/ 0 < x)%N as [->|Hx] by lia; [done|].
  rewrite pretty_N_go_step by done. apply IH; [by apply N.div_lt|].
  simpl. rewrite Hs, andb_true_r. unfold pretty_N_char. by repeat case_match.
Qed.

Lemma no_dash_split s1 s2 x y :
  no_dash s1 = true -> no_dash s2 = true -> s1 +:+ "-" +:+ x = s2 +:+ "-" +:+ y -> s1 = s2.
Proof.
  revert s2. induction s1 as [|c s1 IH]; intros [|d s2] H1 H2 E; simpl in *; try done.
  - injection E as <- _. by reflect_bool.
  - injection E as -> _. by reflect_bool.
  - injection E as -> E. reflect_bool. f_equal. by apply IH.
Qed.

Section Decides.
Context `{RX : Regexp} `{BL : BucketLaws}.

(** The names of a budget's limiters tell its rules apart. *)
Lemma budget_commands_index name i rules method c :
  c ∈ budget_commands name i rules method ->
  exists j x, (i <= j)%N /\ cmd_Name c = name +:+ "-" +:+ pretty j +:+ "-" +:+ x.
Proof using Type.
  revert i. induction rules as [|rule rules IH]; intros i; simpl; [by intros ?%elem_of_nil|].
  assert (c ∈ budget_commands name (i + 1) rules method -> exists j x, (i <= j)%N /\
    cmd_Name c = name +:+ "-" +:+ pretty j +:+ "-" +:+ x) as Hrest.
  { intros (j & x & Hj & E)%IH. exists j, x. split; [lia|done]. }
  destruct (rule_match (Check_ rule) method); [|done].
  intros [->|Hin]%elem_of_cons; [|by apply Hrest]. eexists _, _. split; [|done]. lia.
Qed.

Lemma budget_commands_nodup name i rules method :
  NoDup (map cmd_Name (budget_commands name i rules method)).
Proof using Type.
  revert i. induction rules as [|rule rules IH]; intros i; simpl; [constructor|].
  destruct (rule_match (Check_ rule) method); [|done]. simpl. constructor; [|done].
  rewrite list_elem_of_fmap. intros (c & E & Hin).
  apply budget_commands_index in Hin as (j & x & Hj & E'). rewrite E' in E.
  apply (inj (String.append name)) in E. simpl in E. injection E as E.
  apply no_dash_split in E; [|apply pretty_no_dash..]. apply (inj pretty) in E. lia.
Qed.

Lemma elem_of_budget_commands name i rules method c :
  c ∈ budget_commands name i rules method <->
  exists j rule, rules !! j = Some rule /\ rule_match (Check_ rule) method = true /\
    c = mkCommand (rule_Type rule)
      (name +:+ "-" +:+ pretty (i + N.of_nat j)%N +:+ "-" +:+ rule_name (Check_ rule)).
Proof using Type.
  revert i. induction rules as [|rule rules IH]; intros i; simpl.
  - rewrite elem_of_nil. naive_solver.
  - assert (c ∈ budget_commands name (i + 1) rules method <-> exists j rule',
      rules !! j = Some rule' /\ rule_match (Check_ rule') method = true /\
      c = mkCommand (rule_Type rule') (name +:+ "-" +:+ pretty (i + N.of_nat (S j))%N +:+ "-" +:+
        rule_name (Check_ rule'))) as Hrest.
    { rewrite IH. do 4 f_equiv. by replace (i + 1 + N.of_nat a)%N with (i + N.of_nat (S a))%N by lia. }
    destruct (rule_match (Check_ rule) method) eqn:Em; [rewrite elem_of_cons|]; rewrite Hrest; split.
    + intros [->|(j & r & ?)]; [exists 0%nat, rule|by exists (S j), r].
      by rewrite N.add_0_r.
    + intros ([|j] & r & Hl & Hm & ->); simpl in Hl.
      * left. injection Hl as ->. by rewrite N.add_0_r.
      * right. by exists j, r.
    + intros (j & r & ?). by exists (S j), r.
    + intros ([|j] & r & Hl & Hm & ->); simpl in Hl; [congruence|]. by exists j, r.
Qed.

Lemma memory_loop_result t cmds (e : gmap string Bucket) :
  NoDup (map cmd_Name cmds) ->
  (memory_loop t cmds true e).1 = forallb (fun c => 0 <? Available t (load_or_create t c e)) cmds.
Proof using Type.
  revert e. induction cmds as [|c cmds IH]; intros e Hnd; [done|].
  rewrite memory_loop_cons, take_count. cbn [forallb map] in *.
  apply NoDup_cons in Hnd as [Hc Hnd].
  destruct (0 <? Available t (load_or_create t c e)); simpl.
  - rewrite IH by done. apply forallb_ext_elem. intros c' Hc'. unfold load_or_create.
    rewrite lookup_insert_ne; [done|]. intros E. apply Hc. rewrite E.
    by apply list_elem_of_fmap_2.
  - apply memory_loop_false.
Qed.
End Decides.

(** The limiter of rule [j] of a budget. *)
Definition rule_command (b : RateLimitBudget) (j : nat) (rule : Rule) : RateLimitCommand :=
  mkCommand (rule_Type rule)
    (budget_Name b +:+ "-" +:+ pretty (N.of_nat j) +:+ "-" +:+ rule_name (Check_ rule)).

(** A budget with the in-memory engine allows a request exactly when the
    limiter of each rule that matches the method has a token (a limiter not
    used before is full); the engine never fails. *)
Theorem Allow_decides `{Regexp} `{BucketLaws} (b : RateLimitBudget) now method
    (e : gmap string Bucket) :
  exists r, (Allow b now method e).1 = (r, None) /\
    (r = true <->
     forall j rule, Rules b !! j = Some rule -> rule_match (Check_ rule) method = true ->
       0 < Available now (load_or_create now (rule_command b j rule) e)).
Proof.
  unfold Allow. cbn [Execute MemoryEngine_Execute].
  pose proof (memory_loop_result now (budget_commands (budget_Name b) 0 (Rules b) method) e
    (budget_commands_nodup _ _ _ _)) as Hr.
  destruct (memory_loop now _ true e) as [r e']. exists r. split; [done|].
  cbn [fst] in Hr. rewrite Hr, forallb_forall. setoid_rewrite <- list_elem_of_In.
  setoid_rewrite elem_of_budget_commands. setoid_rewrite Z.ltb_lt. split.
  - intros Hall j rule Hj Hm. apply Hall. exists j, rule. by rewrite N.add_0_l.
  - intros Hall c (j & rule & Hj & Hm & ->). by apply Hall.
Qed.
