(* ===== verification/RedisLimiter.v ===== *)
(** The Redis rate-limit engine: a counter per limiter with a time to live
    ([internal/ratelimiter/redis_engine.go]). *)

From S2P Require Import Prelude.
From S2P Require Import RateLimiter.

(** ** Redis

    The commands the engine sends, at a time: [INCR] and [EXPIRE]; the round
    trip of a pipeline may fail, leaving the store in any state. *)
Class RedisLib := {
  Redis : Type;
  Incr : Z -> string -> Redis -> Z * Redis;
  Expire : Z -> string -> Z -> Redis -> Redis;
  exec_error : Z -> Redis -> option (string * Redis);
}.

(** What Redis documents: [counter] is the value of a key at a time, 0 when it
    is absent or has expired. *)
Class RedisLaws `{RedisLib} := {
  counter : Z -> string -> Redis -> Z;
  incr_value now k r : (Incr now k r).1 = counter now k r + 1;
  incr_counter now k r : counter now k (Incr now k r).2 = counter now k r + 1;
  incr_other now t k k' r : k <> k' -> counter t k' (Incr now k r).2 = counter t k' r;
  expire_live now t k ttl r : now <= t < now + ttl ->
    counter t k (Expire now k ttl r) = counter now k r;
  expire_gone now t k ttl r : now + ttl <= t -> counter t k (Expire now k ttl r) = 0;
  expire_other now t k k' ttl r : k <> k' -> counter t k' (Expire now k ttl r) = counter t k' r;
}.

Section Engine.
Context `{RedisLib} (engine_name : string).

Definition redisKey (c : RateLimitCommand) : string :=
  "ratelimit:" +:+ engine_name +:+ ":" +:+ cmd_Name c.

(** The pipeline, executed: the replies to the [INCR]s, in order. *)
Fixpoint pipeline (now : Z) (cmds : list RateLimitCommand) (r : Redis) : list Z * Redis :=
  match cmds with
  | [] => ([], r)
  | c :: cmds' =>
    let '(count, r) := Incr now (redisKey c) r in
    let r := Expire now (redisKey c) (period_ (cmd_Type c)) r in
    let '(counts, r) := pipeline now cmds' r in
    (count :: counts, r)
  end.

(** The loop over the replies. *)
Fixpoint within_limits (cmds : list RateLimitCommand) (counts : list Z) (result : bool) : bool :=
  match cmds, counts with
  | c :: cmds', count :: counts' =>
    within_limits cmds' counts' (if requests_ (cmd_Type c) <? i64 count then false else result)
  | _, _ => result
  end.

Definition Redis_Execute (now : Z) (cmds : list RateLimitCommand) (r : Redis)
    : (bool * option string) * Redis :=
  match exec_error now r with
  | Some (err, r) => ((false, Some err), r)
  | None =>
    let '(counts, r) := pipeline now cmds r in
    ((within_limits cmds counts true, None), r)
  end.

#[export] Instance RedisEngine_Execute : RateLimitEngine Redis := { Execute := Redis_Execute }.
End Engine.

(** ** Proofs *)

Section RedisProofs.
Context `{RL : RedisLaws} (name : string).

Lemma redisKey_inj c c' : redisKey name c = redisKey name c' -> cmd_Name c = cmd_Name c'.
Proof using Type.
  unfold redisKey. intros E. by do 3 apply (inj (String.append _)) in E.
Qed.

Lemma pipeline_counter_other now cmds r t k :
  (k ∉ map (redisKey name) cmds) -> counter t k (pipeline name now cmds r).2 = counter t k r.
Proof using Type.
  revert r. induction cmds as [|c cmds IH]; intros r Hk; [done|]. cbn [pipeline].
  cbn [map] in Hk. apply not_elem_of_cons in Hk as [Hne Hk].
  destruct (Incr now (redisKey name c) r) as [count r1] eqn:E1.
  specialize (IH (Expire now (redisKey name c) (period_ (cmd_Type c)) r1) Hk).
  destruct (pipeline name now cmds _) as [counts r2]. cbn [snd] in *. rewrite IH.
  rewrite expire_other by done. pose proof (incr_other now t (redisKey name c) k r) as Ho.
  rewrite E1 in Ho. by apply Ho.
Qed.

Lemma pipeline_counts now cmds r :
  NoDup (map cmd_Name cmds) ->
  (pipeline name now cmds r).1 = map (fun c => counter now (redisKey name c) r + 1) cmds.
Proof using Type.
  revert r. induction cmds as [|c cmds IH]; intros r Hnd; [done|]. cbn [pipeline map] in *.
  apply NoDup_cons in Hnd as [Hc Hnd].
  destruct (Incr now (redisKey name c) r) as [count r1] eqn:E1.
  specialize (IH (Expire now (redisKey name c) (period_ (cmd_Type c)) r1) Hnd).
  destruct (pipeline name now cmds _) as [counts r2]. cbn [fst] in *. subst counts. f_equal.
  - pose proof (incr_value now (redisKey name c) r) as Hv. by rewrite E1 in Hv.
  - apply list_fmap_ext. intros i c' Hi. f_equal.
    assert (redisKey name c <> redisKey name c') as Hne.
    { intros E%redisKey_inj. apply Hc. rewrite E. apply list_elem_of_fmap_2.
      by eapply list_elem_of_lookup_2. }
    rewrite expire_other by done. pose proof (incr_other now now _ (redisKey name c') r Hne) as Ho.
    by rewrite E1 in Ho.
Qed.

Lemma within_limits_forallb cmds f (result : bool) :
  within_limits cmds (map f cmds) result =
  result && forallb (fun c => i64 (f c) <=? requests_ (cmd_Type c)) cmds.
Proof using Type.
  revert result. induction cmds as [|c cmds IH]; intros result; simpl; [by rewrite andb_true_r|].
  rewrite IH. rewrite Z.ltb_antisym. by destruct result, (i64 (f c) <=? requests_ (cmd_Type c)).
Qed.

(** The decision of one execution. *)
Lemma Redis_Execute_decides now cmds r :
  exec_error now r = None -> NoDup (map cmd_Name cmds) ->
  (Redis_Execute name now cmds r).1 =
    (forallb (fun c => i64 (counter now (redisKey name c) r + 1) <=? requests_ (cmd_Type c)) cmds, None).
Proof using Type.
  intros He Hnd. unfold Redis_Execute. rewrite He.
  pose proof (pipeline_counts now cmds r Hnd) as Hc.
  destruct (pipeline name now cmds r) as [counts r']. cbn [fst] in *. subst counts.
  by rewrite within_limits_forallb.
Qed.

(** The counter after one execution of a single command. *)
Lemma Redis_Execute_counter now t c r :
  exec_error now r = None -> now <= t < now + period_ (cmd_Type c) ->
  counter t (redisKey name c) (Redis_Execute name now [c] r).2 = counter now (redisKey name c) r + 1.
Proof using Type.
  intros He Ht. unfold Redis_Execute. rewrite He. simpl.
  destruct (Incr now (redisKey name c) r) as [count r1] eqn:E. cbn [snd].
  rewrite expire_live by done. pose proof (incr_counter now (redisKey name c) r) as Hi.
  by rewrite E in Hi.
Qed.

(** Calls with the command [c] at the given times. *)
Fixpoint redis_calls (c : RateLimitCommand) (times : list Z) (r : Redis) : list bool :=
  match times with
  | [] => []
  | now :: times' =>
    let '((b, _), r) := Redis_Execute name now [c] r in b :: redis_calls c times' r
  end.

(** Each call comes less than [p] after the one before. *)
Fixpoint steady (p t : Z) (times : list Z) : Prop :=
  match times with
  | [] => True
  | t' :: times' => t <= t' < t + p /\ steady p t' times'
  end.

Lemma redis_calls_streak c times t r k :
  (forall now r, exec_error now r = None) ->
  steady (period_ (cmd_Type c)) t times ->
  (forall t', t <= t' < t + period_ (cmd_Type c) -> counter t' (redisKey name c) r = k) ->
  0 <= k -> k + Z.of_nat (length times) < two63 ->
  redis_calls c times r =
    map (fun i => (k + Z.of_nat i + 1 <=? requests_ (cmd_Type c))) (seq 0 (length times)).
Proof using Type.
  intros He. revert t r k. induction times as [|t' times IH]; intros t r k Hs Hk Hpos Hmax; [done|].
  destruct Hs as [Ht Hs]. cbn [redis_calls length seq map].
  pose proof (Redis_Execute_decides t' [c] r (He _ _)) as Hd.
  pose proof (fun u => Redis_Execute_counter t' u c r (He _ _)) as Hc.
  destruct (Redis_Execute name t' [c] r) as [[b err] r']. cbn [fst snd] in *.
  specialize (Hd ltac:(simpl; apply NoDup_singleton)). cbn [forallb] in Hd.
  rewrite (Hk t') in Hd by done. cbn [length] in Hmax.
  rewrite i64_id, andb_true_r in Hd by (apply is_i64_of_small; lia). injection Hd as -> _.
  f_equal; [f_equal; lia|].
  rewrite (IH t' r' (k + 1)); [|done| |lia|lia].
  - rewrite <- seq_shift, map_map. apply list_fmap_ext. intros i x _. f_equal. lia.
  - intros u Hu. rewrite Hc by done. rewrite Hk; [done|lia].
Qed.
End RedisProofs.

(** The Redis engine extends the life of a limiter's counter with every
    request, denied ones included: as long as requests come less than a period
    apart, exactly the first [requests] of them are allowed and every later one
    is denied, however many periods have passed since. *)
Theorem redis_limiter_never_resets `{RedisLaws} name c t times r :
  (forall now r, exec_error now r = None) ->
  (forall u, counter u (redisKey name c) r = 0) ->
  steady (period_ (cmd_Type c)) t times -> Z.of_nat (length times) < two63 ->
  redis_calls name c times r =
    map (fun i => Z.of_nat i <? requests_ (cmd_Type c)) (seq 0 (length times)).
Proof.
  intros He Hc Hs Hmax. rewrite (redis_calls_streak name c times t r 0); try done; try lia.
  apply list_fmap_ext. intros i x _. apply Bool.eq_iff_eq_true. rewrite Z.leb_le, Z.ltb_lt. lia.
Qed.

(** A store that meets the documented behaviour: values with deadlines. *)
Definition demo_counter (now : Z) (k : string) (r : gmap string (Z * option Z)) : Z :=
  match r !! k with
  | None => 0
  | Some (v, None) => v
  | Some (v, Some d) => if d <=? now then 0 else v
  end.

Definition demo_deadline (now : Z) (k : string) (r : gmap string (Z * option Z)) : option Z :=
  match r !! k with
  | Some (_, Some d) => if d <=? now then None else Some d
  | _ => None
  end.

Lemma demo_deadline_live now k r d : demo_deadline now k r = Some d -> (d <=? now) = false.
Proof.
  unfold demo_deadline. destruct (r !! k) as [[v [d'|]]|]; try done.
  destruct (d' <=? now) eqn:El; [done|]. by intros [= <-].
Qed.

#[local] Instance demo_redis : RedisLib := {
  Redis := gmap string (Z * option Z);
  Incr now k r :=
    (demo_counter now k r + 1, <[k := (demo_counter now k r + 1, demo_deadline now k r)]> r);
  Expire now k ttl r := <[k := (demo_counter now k r, Some (now + ttl))]> r;
  exec_error _ _ := None;
}.

#[local] Instance demo_redis_laws : RedisLaws.
Proof.
  refine {| counter := demo_counter |}.
  - done.
  - intros now k r. unfold demo_counter at 1. cbn [Incr demo_redis snd].
    rewrite lookup_insert_eq. destruct (demo_deadline now k r) as [d|] eqn:E; [|done].
    by rewrite (demo_deadline_live _ _ _ _ E).
  - intros now t k k' r Hne. unfold demo_counter at 1. cbn [Incr demo_redis snd].
    by rewrite lookup_insert_ne.
  - intros now t k ttl r Ht. unfold demo_counter at 1. cbn [Expire demo_redis].
    rewrite lookup_insert_eq. destruct (now + ttl <=? t) eqn:E; reflect_bool; [lia|done].
  - intros now t k ttl r Ht. unfold demo_counter at 1. cbn [Expire demo_redis].
    rewrite lookup_insert_eq. destruct (now + ttl <=? t) eqn:E; reflect_bool; [done|lia].
  - intros now t k k' ttl r Hne. unfold demo_counter at 1. cbn [Expire demo_redis].
    by rewrite lookup_insert_ne.
Defined.

(** Two requests per 1000 allowed, one sent every 900: all after the second
    are denied. *)
Lemma redis_limiter_never_resets_witness :
  redis_calls "redis" (mkCommand (mkFixed 2 1000) "b-0-eth_call")
    [0; 900; 1800; 2700; 3600] ∅ = [true; true; false; false; false].
Proof.
  refine (eq_trans (redis_limiter_never_resets "redis" (mkCommand (mkFixed 2 1000) "b-0-eth_call")
    0 [0; 900; 1800; 2700; 3600] ∅ _ _ _ _) _); try done.
Defined.
