(* ===== verification/Float64.v ===== *)
(** Go's [float64]: IEEE binary64 numbers with round to nearest even, by the
    standard library's executable specification of floating point. *)

From S2P Require Import Prelude.
From Stdlib Require Export SpecFloat.

Abbreviation float64 := spec_float.

#[export] Instance float64_eq_dec : EqDecision float64.
Proof. solve_decision. Defined.

Definition f64_add : float64 -> float64 -> float64 := SFadd 53 1024.
Definition f64_sub : float64 -> float64 -> float64 := SFsub 53 1024.
Definition f64_mul : float64 -> float64 -> float64 := SFmul 53 1024.
Definition f64_div : float64 -> float64 -> float64 := SFdiv 53 1024.

(** The conversion [float64(z)]. *)
Definition f64_of_Z (z : Z) : float64 := binary_normalize 53 1024 z 0 false.

(** A decimal literal [n / 10^d]: the division of two exact numbers is
    correctly rounded, as the literal is. *)
Definition f64_lit (n d : Z) : float64 := f64_div (f64_of_Z n) (f64_of_Z (10 ^ d)).

Definition f64_min (x y : float64) : float64 := if SFltb y x then y else x.
Definition f64_max (x y : float64) : float64 := if SFltb x y then y else x.

(** [int(math.Ceil(x))] and [int64(math.Round(x))].  The conversion of a value
    outside the range of [int] is the one of amd64. *)
Definition to_int (z : Z) : Z := if bool_decide (- two63 <= z < two63) then z else - two63.

Definition f64_ceil_int (x : float64) : Z :=
  match x with
  | S754_zero _ => 0
  | S754_infinity _ | S754_nan => - two63
  | S754_finite s m e =>
    let m := if s then Zneg m else Zpos m in
    to_int (if 0 <=? e then m * 2 ^ e else - ((- m) / 2 ^ (- e)))
  end.

(** Round half away from zero. *)
Definition f64_round_int (x : float64) : Z :=
  match x with
  | S754_zero _ => 0
  | S754_infinity _ | S754_nan => - two63
  | S754_finite s m e =>
    let a := if 0 <=? e then Zpos m * 2 ^ e
             else (Zpos m + 2 ^ (- e - 1)) / 2 ^ (- e) in
    to_int (if s then - a else a)
  end.

Example f64_ceil_inexact : f64_ceil_int (f64_mul (f64_of_Z 100) (f64_add (f64_of_Z 1)
  (f64_div (f64_of_Z 10) (f64_of_Z 100)))) = 111.
Proof. by vm_compute. Qed.

Example f64_round_half : f64_round_int (f64_lit 25 1) = 3 /\ f64_round_int (f64_lit (-25) 1) = -3.
Proof. by vm_compute. Qed.

(** A comparison with a value that is not a number fails. *)
Lemma SFltb_nan_r x : SFltb x S754_nan = false.
Proof. by destruct x. Qed.
Lemma SFltb_nan_l x : SFltb S754_nan x = false.
Proof. by destruct x. Qed.

(** Zero divided by anything is zero or not a number. *)
Lemma f64_div_zero x : f64_div (S754_zero false) x = S754_nan \/
  exists s, f64_div (S754_zero false) x = S754_zero s.
Proof. destruct x; simpl; eauto. Qed.
