(* ===== verification/AutoTune.v ===== *)
(** The auto-tuned rate limit of an upstream
    ([internal/ratelimiter/upstream_autotune.go]). *)

From S2P Require Import Prelude.
From S2P Require Import RateLimiter.
From S2P Require Import Float64.

Inductive direction := directionStable | directionIncrease | directionDecrease.

#[export] Instance direction_eq_dec : EqDecision direction.
Proof. solve_decision. Defined.

Definition i32 (z : Z) : Z := (z + 2 ^ 31) `mod` 2 ^ 32 - 2 ^ 31.

Definition fl (z : Z) : float64 := f64_of_Z z.

Section Tune.
Context `{BucketLib} `{MapRange}.

Record UpstreamAutoTune := mkTune {
  rateLimitPeriod : Z;
  ratelimit : Z;
  errorRateThreshold : float64;
  bucket : Bucket;
  accumErrors : Z;
  accumRateLimited : Z;
  attemptCounts : gmap Z Z;
  lastDirection : direction;
  stepPercent : float64;
}.

(** [now] is the clock in nanoseconds. *)
Definition NewUpstreamAutoTune (now : Z) (initRateLimit initRateLimitPeriod : Z)
    (threshold : float64) : UpstreamAutoTune :=
  mkTune initRateLimitPeriod (i32 initRateLimit) threshold
    (NewBucketWithQuantum now initRateLimitPeriod initRateLimit initRateLimit)
    0 0 ∅ directionStable (fl 10).

(** [time.Now().UnixMilli() / int64(u.rateLimitPeriod)] *)
Definition attempt_key (now : Z) (u : UpstreamAutoTune) : Z :=
  (now / 1000000) `quot` rateLimitPeriod u.

Definition tune_Allow (now : Z) (u : UpstreamAutoTune) : bool * UpstreamAutoTune :=
  let timeKey := attempt_key now u in
  let counts := <[timeKey := i32 (default 0 (attemptCounts u !! timeKey) + 1)]> (attemptCounts u) in
  let '(n, b) := TakeAvailable now 1 (bucket u) in
  let allowed := 0 <? n in
  (allowed,
   mkTune (rateLimitPeriod u) (ratelimit u) (errorRateThreshold u) b (accumErrors u)
     (if allowed then accumRateLimited u else i32 (accumRateLimited u + 1)) counts
     (lastDirection u) (stepPercent u)).

Definition IncErrors (u : UpstreamAutoTune) : UpstreamAutoTune :=
  mkTune (rateLimitPeriod u) (ratelimit u) (errorRateThreshold u) (bucket u)
    (i32 (accumErrors u + 1)) (accumRateLimited u) (attemptCounts u) (lastDirection u)
    (stepPercent u).

Definition next_step (lastDir newDirection : direction) (currentStepPercent : float64) : float64 :=
  if bool_decide (newDirection = lastDir) && negb (bool_decide (lastDir = directionStable))
  then f64_min (f64_mul currentStepPercent (fl 2)) (fl 50)
  else if negb (bool_decide (newDirection = lastDir)) && negb (bool_decide (lastDir = directionStable))
  then f64_max (f64_div currentStepPercent (fl 2)) (f64_lit 25 1)
  else fl 10.

Definition step_factor (newDirection : direction) (step : float64) : float64 :=
  if bool_decide (newDirection = directionDecrease)
  then f64_sub (fl 1) (f64_div step (fl 100))
  else f64_add (fl 1) (f64_div step (fl 100)).

(** The new limit, with the direction and the step that are stored. *)
Definition applyAdaptiveStep (currentLimit : Z) (newDirection : direction) (u : UpstreamAutoTune)
    : Z * (direction * float64) :=
  let newStepPercent := next_step (lastDirection u) newDirection (stepPercent u) in
  (f64_ceil_int (f64_mul (fl currentLimit) (step_factor newDirection newStepPercent)),
   (newDirection, newStepPercent)).

Definition total_attempts (m : gmap Z Z) : Z :=
  foldl (fun acc v => i64 (acc + v)) 0 (range m).*2.

Definition peak_requests (m : gmap Z Z) : Z :=
  foldl (fun acc v => if acc <? v then v else acc) 0 (range m).*2.

Definition RecalculateRateLimit (now : Z) (u : UpstreamAutoTune) : UpstreamAutoTune :=
  let errors := accumErrors u in
  let rateLimited := accumRateLimited u in
  let oldMap := attemptCounts u in
  let totalAttempts := total_attempts oldMap in
  let oldLimit := ratelimit u in
  let rateLimitedRate := f64_div (fl rateLimited) (fl totalAttempts) in
  let peakRequests := peak_requests oldMap in
  let peakUtilization := f64_div (fl peakRequests) (fl oldLimit) in
  let allowed := i64 (totalAttempts - rateLimited) in
  let errorRate := if 0 <? allowed then f64_div (fl errors) (fl allowed) else fl 0 in
  let '(newLimit, (dir, step)) :=
    if SFleb (errorRateThreshold u) errorRate && (0 <? allowed)
    then applyAdaptiveStep oldLimit directionDecrease u
    else if (errors =? 0) && (SFltb (f64_lit 95 2) peakUtilization ||
                              SFltb (errorRateThreshold u) rateLimitedRate)
    then applyAdaptiveStep oldLimit directionIncrease u
    else (oldLimit, (lastDirection u, stepPercent u)) in
  let newLimit := if newLimit <? 1 then 1 else newLimit in
  if newLimit =? oldLimit then
    mkTune (rateLimitPeriod u) (ratelimit u) (errorRateThreshold u) (bucket u) 0 0 ∅ dir step
  else
    mkTune (rateLimitPeriod u) (i32 newLimit) (errorRateThreshold u)
      (NewBucketWithQuantum now (rateLimitPeriod u) newLimit newLimit) 0 0 ∅ dir step.

(** What happens to a tuner: requests, errors and the periodic recalculation,
    in any order. *)
Inductive tune_step : UpstreamAutoTune -> UpstreamAutoTune -> Prop :=
| step_allow now u : tune_step u (tune_Allow now u).2
| step_error u : tune_step u (IncErrors u)
| step_recalculate now u : tune_step u (RecalculateRateLimit now u).

Inductive tune_reach (init : UpstreamAutoTune) : UpstreamAutoTune -> Prop :=
| reach_init : tune_reach init init
| reach_step u u' : tune_reach init u -> tune_step u u' -> tune_reach init u'.
End Tune.

(** ** Proofs *)

(** Every step size the tuner can reach, in percent. *)
Definition step_sizes : list float64 :=
  [f64_lit 25 1; f64_lit 3125 3; fl 5; f64_lit 625 2; fl 10; f64_lit 125 1; fl 20; fl 25; fl 40; fl 50].

Lemma next_step_sizes lastDir newDir s :
  s ∈ step_sizes -> next_step lastDir newDir s ∈ step_sizes.
Proof.
  assert (Forall (fun s => Forall (fun p : direction * direction =>
      bool_decide (next_step p.1 p.2 s ∈ step_sizes) = true)
    (d ← [directionStable; directionIncrease; directionDecrease];
     e ← [directionStable; directionIncrease; directionDecrease]; [(d, e)])) step_sizes) as Hall
    by (repeat constructor; by vm_compute).
  intros Hs. rewrite Forall_forall in Hall. specialize (Hall s Hs).
  rewrite Forall_forall in Hall.
  assert (bool_decide (next_step lastDir newDir s ∈ step_sizes) = true) as E; [|by reflect_bool].
  apply (Hall (lastDir, newDir)). clear. destruct lastDir, newDir;
    apply (bool_decide_unpack _); by vm_compute.
Qed.

Section TuneProofs.
Context `{BL : BucketLaws} `{MR : MapRange}.

(** The bucket refills with the tuned limit, which is at least one. *)
Definition tune_wf (u : UpstreamAutoTune) : Prop :=
  (exists c, 1 <= c /\ ratelimit u = i32 c /\ bucket_params (bucket u) = (rateLimitPeriod u, c, c)) /\
  stepPercent u ∈ step_sizes.

Lemma RecalculateRateLimit_wf now u : tune_wf u -> tune_wf (RecalculateRateLimit now u).
Proof using Type.
  intros [(c & Hc & Hl & Hb) Hs]. unfold RecalculateRateLimit.
  set (res := if _ && _ then _ else _).
  assert (res.2.2 ∈ step_sizes) as Hstep.
  { unfold res, applyAdaptiveStep. destruct (_ && _); [by apply next_step_sizes|].
    destruct (_ && _); [by apply next_step_sizes|done]. }
  destruct res as [limit [dir step]]. simpl in Hstep.
  set (l := if limit <? 1 then 1 else limit).
  assert (1 <= l) by (unfold l; destruct (limit <? 1) eqn:?; reflect_bool; lia).
  destruct (l =? ratelimit u); split; simpl; try done; [by eauto|].
  exists l. split_and!; [done..|]. apply new_params.
Qed.

Lemma tune_step_wf u u' : tune_step u u' -> tune_wf u -> tune_wf u'.
Proof using Type.
  destruct 1 as [now u|u|now u]; [|done|apply RecalculateRateLimit_wf].
  intros [(c & Hc & Hl & Hb) Hs]. unfold tune_Allow.
  pose proof (take_params now (bucket u)) as Hp.
  destruct (TakeAvailable now 1 (bucket u)) as [n b]. simpl in *.
  split; [|done]. exists c. simpl. by rewrite Hp.
Qed.
End TuneProofs.

(** Whatever requests, errors and recalculations happen, the auto-tuned
    limit stays at least one request per period, the token bucket holds and
    refills exactly that limit, and the step stays one of ten sizes between
    2.5 and 50 percent. *)
Theorem tuned_limit_invariant `{BucketLaws} `{MapRange} now limit period threshold u :
  1 <= limit ->
  tune_reach (NewUpstreamAutoTune now limit period threshold) u -> tune_wf u.
Proof.
  intros Hl. induction 1 as [|u u' _ IH Hs]; [|by eapply tune_step_wf].
  split; [|by apply (bool_decide_unpack _); vm_compute].
  exists limit. split_and!; [done..|]. apply new_params.
Qed.

#[local] Existing Instance RateLimiter.demo_buckets.
#[local] Existing Instance RateLimiter.demo_buckets_laws.

#[local] Existing Instance Prelude.default_range.

Lemma tuned_limit_invariant_witness :
  let u := RecalculateRateLimit 2000 (tune_Allow 5 (IncErrors (NewUpstreamAutoTune 0 10 1000 (f64_lit 1 1)))).2 in
  tune_wf u /\ ratelimit u = 9.
Proof.
  intros u. split; [|by vm_compute].
  apply (tuned_limit_invariant 0 10 1000 (f64_lit 1 1)); [done|].
  eapply reach_step; [|apply step_recalculate]. eapply reach_step; [|apply step_allow].
  eapply reach_step; [|apply step_error]. apply reach_init.
Defined.

(** A period without requests and errors leaves the limit and the bucket as
    they are, although the rates computed for it are not numbers. *)
Theorem idle_period_keeps_limit `{BucketLib} `{MapRange} now u :
  accumErrors u = 0 -> accumRateLimited u = 0 -> attemptCounts u = ∅ -> 1 <= ratelimit u ->
  ratelimit (RecalculateRateLimit now u) = ratelimit u /\
  bucket (RecalculateRateLimit now u) = bucket u /\
  stepPercent (RecalculateRateLimit now u) = stepPercent u.
Proof.
  intros He Hr Ha Hl. unfold RecalculateRateLimit, total_attempts, peak_requests.
  rewrite He, Hr, Ha, range_empty. cbn [list_fmap fmap foldl].
  change (i64 (0 - 0)) with 0. rewrite andb_false_r. change (fl 0) with (S754_zero false).
  assert (SFltb (f64_lit 95 2) (f64_div (S754_zero false) (fl (ratelimit u))) = false) as ->.
  { destruct (f64_div_zero (fl (ratelimit u))) as [->|[s ->]]; [apply SFltb_nan_r|by destruct s]. }
  change (f64_div (S754_zero false) (S754_zero false)) with S754_nan.
  rewrite SFltb_nan_r. simpl.
  assert ((ratelimit u <? 1) = false) as -> by (apply Z.ltb_ge; lia). by rewrite Z.eqb_refl.
Qed.

Lemma idle_period_keeps_limit_witness :
  ratelimit (RecalculateRateLimit 7 (NewUpstreamAutoTune 0 10 1000 (f64_lit 1 1))) = 10.
Proof.
  exact (proj1 (idle_period_keeps_limit 7 (NewUpstreamAutoTune 0 10 1000 (f64_lit 1 1))
    eq_refl eq_refl eq_refl ltac:(done))).
Defined.

(** The attempts of one rate-limit period are meant to share a counter, but
    the key divides milliseconds by a period in nanoseconds: a counter covers a
    million periods. *)
Theorem attempt_window_is_million_periods `{BucketLib} now u :
  0 <= now -> 0 < rateLimitPeriod u ->
  attempt_key now u = now / (1000000 * rateLimitPeriod u).
Proof.
  intros Hn Hp. unfold attempt_key. rewrite Z.quot_div_nonneg by (try apply Z.div_pos; lia).
  apply Z.div_div; lia.
Qed.

(** With a period of one second, requests an hour apart are counted together. *)
Lemma attempt_window_is_million_periods_witness :
  let u := NewUpstreamAutoTune 0 10 1000000000 (f64_lit 1 1) in
  attempt_key 1700000000000000000 u = attempt_key 1700003600000000000 u.
Proof.
  intros u. rewrite !attempt_window_is_million_periods; done.
Defined.
