(* ===== verification/ForkChoice.v ===== *)
(** The fork choice of a chain: the merged head is the highest head of the live
    upstreams ([internal/upstreams/fork_choice/height_fc.go]). *)

From S2P Require Import Prelude.
From S2P Require Import Protocol.

Record HeightForkChoice := mkForkChoice {
  heads : gmap string Block;
  fc_max : Block;
}.

Definition NewHeightForkChoice : HeightForkChoice := mkForkChoice ∅ ZeroBlock.

(** [protocol.HeadUpstreamEvent]: the status and the head of the upstream. *)
Record HeadUpdate := mkHeadUpdate { hu_status : AvailabilityStatus; hu_head : Block }.

Section Choose.
Context `{MR : MapRange}.

Definition maxHeight (hs : gmap string Block) : Block :=
  foldl (fun cur head => if CompareWithHeight head cur =? 1 then head else cur)
    ZeroBlock (range hs).*2.

(** The second half of [Choose], after the live set changed. *)
Definition refresh_max (hs : gmap string Block) (oldMax : Block)
    : (bool * Block) * HeightForkChoice :=
  let newMax := maxHeight hs in
  if CompareWithHeight newMax oldMax =? 0 then ((false, oldMax), mkForkChoice hs oldMax)
  else ((true, newMax), mkForkChoice hs newMax).

Definition Choose (upstreamId : string) (event : HeadUpdate) (h : HeightForkChoice)
    : (bool * Block) * HeightForkChoice :=
  if bool_decide (hu_status event = Available) then
    if IsEmptyByHeight (hu_head event) then ((false, fc_max h), h)
    else refresh_max (<[upstreamId := hu_head event]> (heads h)) (fc_max h)
  else
    match heads h !! upstreamId with
    | None => ((false, fc_max h), h)
    | Some _ => refresh_max (delete upstreamId (heads h)) (fc_max h)
    end.

(** A sequence of head events. *)
Definition choose_all (evs : list (string * HeadUpdate)) (h : HeightForkChoice) : HeightForkChoice :=
  foldl (fun h '(id, ev) => (Choose id ev h).2) h evs.

(** ** The maximum *)

Lemma maxHeight_argmin hs :
  maxHeight hs = argmin (fun b => - Height b) ZeroBlock (range hs).*2.
Proof using Type.
  unfold maxHeight, argmin. generalize ZeroBlock. induction (range hs).*2 as [|x l IH]; intros acc; [done|].
  simpl. rewrite IH. f_equal.
  assert ((CompareWithHeight x acc =? 1) = (- Height x <? - Height acc)) as ->; [|done].
  apply Bool.eq_iff_eq_true. rewrite Z.eqb_eq, Z.ltb_lt, CompareWithHeight_gt. lia.
Qed.

(** [b] has the greatest height of the heads, 0 when there is none. *)
Definition is_max (hs : gmap string Block) (h : Z) : Prop :=
  (forall id b, hs !! id = Some b -> Height b <= h) /\
  (h = 0 \/ exists id b, hs !! id = Some b /\ Height b = h) /\ 0 <= h.

Lemma maxHeight_spec hs : is_max hs (Height (maxHeight hs)).
Proof using Type.
  rewrite maxHeight_argmin. split_and!.
  - intros id b Hb. assert (b ∈ (range hs).*2) as Hin by (apply elem_of_range_values; eauto).
    pose proof (argmin_le (fun b => - Height b) ZeroBlock _ _ Hin). simpl in *. lia.
  - destruct (argmin_elem (fun b => - Height b) ZeroBlock (range hs).*2) as [->|Hin]; [by left|].
    right. apply elem_of_range_values in Hin as [id Hid]. eauto.
  - pose proof (argmin_le_acc (fun b => - Height b) ZeroBlock (range hs).*2). simpl in *. lia.
Qed.

Lemma is_max_unique hs h h' : is_max hs h -> is_max hs h' -> h = h'.
Proof using Type.
  intros (Hu & He & Hp) (Hu' & He' & Hp').
  destruct He as [->|(id & b & Hb & <-)], He' as [->|(id' & b' & Hb' & <-)]; try done.
  - specialize (Hu _ _ Hb'). lia.
  - specialize (Hu' _ _ Hb). lia.
  - specialize (Hu _ _ Hb'). specialize (Hu' _ _ Hb). lia.
Qed.

Definition fc_ok (h : HeightForkChoice) : Prop := is_max (heads h) (Height (fc_max h)).

Lemma refresh_max_spec hs oldMax :
  let r := refresh_max hs oldMax in
  heads r.2 = hs /\ fc_ok r.2 /\ r.1.2 = fc_max r.2 /\
  (r.1.1 = true <-> Height (fc_max r.2) <> Height oldMax) /\
  (r.1.1 = false -> fc_max r.2 = oldMax).
Proof using Type.
  unfold refresh_max, fc_ok. pose proof (maxHeight_spec hs) as Hm.
  destruct (CompareWithHeight (maxHeight hs) oldMax =? 0) eqn:E; reflect_bool; simpl;
    rewrite CompareWithHeight_eq in E.
  - rewrite E in Hm. split_and!; try done.
  - split_and!; done.
Qed.

Lemma Choose_spec id ev h :
  fc_ok h -> let r := Choose id ev h in
  fc_ok r.2 /\ r.1.2 = fc_max r.2 /\
  (r.1.1 = true <-> Height (fc_max r.2) <> Height (fc_max h)) /\
  (r.1.1 = false -> fc_max r.2 = fc_max h).
Proof using Type.
  intros Hok. unfold Choose. case_bool_decide.
  - destruct (IsEmptyByHeight (hu_head ev)); [by split_and!|].
    edestruct refresh_max_spec as (_ & ?). done.
  - destruct (heads h !! id); [|by split_and!]. edestruct refresh_max_spec as (_ & ?). done.
Qed.

Lemma Choose_heads id ev h :
  heads (Choose id ev h).2 =
    if bool_decide (hu_status ev = Available) then
      if IsEmptyByHeight (hu_head ev) then heads h else <[id := hu_head ev]> (heads h)
    else delete id (heads h).
Proof using Type.
  unfold Choose. case_bool_decide.
  - destruct (IsEmptyByHeight (hu_head ev)); [done|]. by edestruct refresh_max_spec as [? _].
  - destruct (heads h !! id) eqn:E; [by edestruct refresh_max_spec as [? _]|].
    simpl. by rewrite delete_id.
Qed.

(** ** The specification: the last word of each upstream *)

(** Events that say something about an upstream: an available upstream without
    a head does not. *)
Definition speaks (id : string) (e : string * HeadUpdate) : bool :=
  bool_decide (e.1 = id) &&
  negb (bool_decide (hu_status e.2 = Available) && IsEmptyByHeight (hu_head e.2)).

Definition live_head (evs : list (string * HeadUpdate)) (id : string) : option Block :=
  e ← last (filter (fun e => speaks id e = true) evs);
  if bool_decide (hu_status e.2 = Available) then Some (hu_head e.2) else None.

Lemma choose_all_snoc evs e h : choose_all (evs ++ [e]) h = (Choose e.1 e.2 (choose_all evs h)).2.
Proof using Type. unfold choose_all. rewrite foldl_snoc. by destruct e. Qed.

Lemma live_head_snoc evs e id :
  live_head (evs ++ [e]) id =
    if speaks id e
    then if bool_decide (hu_status e.2 = Available) then Some (hu_head e.2) else None
    else live_head evs id.
Proof using Type.
  unfold live_head. rewrite filter_app, filter_cons, filter_nil.
  destruct (speaks id e) eqn:E.
  - rewrite decide_True by done. by rewrite last_snoc.
  - rewrite decide_False by congruence. by rewrite app_nil_r.
Qed.

Lemma choose_all_heads evs id :
  heads (choose_all evs NewHeightForkChoice) !! id = live_head evs id.
Proof using Type.
  induction evs as [|[id' ev] evs IH] using rev_ind; [done|].
  rewrite choose_all_snoc, Choose_heads, live_head_snoc. cbn [fst snd].
  unfold speaks. cbn [fst snd].
  destruct (decide (id' = id)) as [->|Hne].
  - rewrite (bool_decide_eq_true_2 (id = id)) by done. case_bool_decide; simpl.
    + destruct (IsEmptyByHeight (hu_head ev)); simpl; [done|by rewrite lookup_insert_eq].
    + by rewrite lookup_delete_eq.
  - rewrite (bool_decide_eq_false_2 (id' = id)) by done. simpl. case_bool_decide.
    + destruct (IsEmptyByHeight (hu_head ev)); [done|by rewrite lookup_insert_ne].
    + by rewrite lookup_delete_ne.
Qed.

Lemma choose_all_ok evs h : fc_ok h -> fc_ok (choose_all evs h).
Proof using Type.
  intros Hok. induction evs as [|e evs IH] using rev_ind; [done|].
  rewrite choose_all_snoc. by apply Choose_spec.
Qed.
End Choose.

(** After any sequence of head events, the height of the merged head is the
    greatest of the live upstreams' heights (0 when none is live), where an
    upstream is live with the head of its last event that says something; and
    the choice reports an update exactly when that height changed. *)
Theorem merged_head_is_max `{MapRange} evs id ev :
  let h := choose_all evs NewHeightForkChoice in
  let r := Choose id ev h in
  (forall id b, live_head evs id = Some b -> Height b <= Height (fc_max h)) /\
  (Height (fc_max h) = 0 \/ exists id b, live_head evs id = Some b /\ Height b = Height (fc_max h)) /\
  r.1.2 = fc_max r.2 /\
  (r.1.1 = true <-> Height (fc_max r.2) <> Height (fc_max h)).
Proof.
  intros h r. assert (fc_ok h) as Hok.
  { apply choose_all_ok. unfold fc_ok, is_max. simpl. split_and!; [|by left|done].
    intros ? ?. by rewrite lookup_empty. }
  destruct (Choose_spec id ev h Hok) as (_ & H2 & H3 & _).
  destruct Hok as (Hu & He & _). unfold h in Hu, He. setoid_rewrite choose_all_heads in Hu.
  setoid_rewrite choose_all_heads in He. by split_and!.
Qed.
