(* ===== verification/BlockTracker.v ===== *)
(** The reorganisation tracker of the local logs source: it turns the merged heads
    of a chain into announcements of new blocks and removals of orphaned ones
    ([internal/upstreams/flow/subengine/blockupdates.go]). *)

From S2P Require Import Prelude.
From S2P Require Import Protocol.
From Stdlib Require Import Strings.Byte.

#[export] Instance byte_countable : Countable byte.
Proof.
  refine (inj_countable Byte.to_N Byte.of_N _). intros b. apply Byte.of_to_N.
Defined.

Definition historyRingSize : Z := 18.

Inductive UpdateKind := BlockNew | BlockDrop.

(** The update carries a whole block. *)
Record BlockUpdate := mkBlockUpdate { upd_Block : Block; upd_Kind : UpdateKind }.

Record ringEntry := mkRingEntry { populated : bool; re_height : Z; re_hash : HashId }.

Definition emptyEntry : ringEntry := mkRingEntry false 0 [].

Record blockTracker := mkTracker { ring : list ringEntry; haveTip : bool; tipH : Z }.

Definition newBlockTracker : blockTracker :=
  mkTracker (replicate (Z.to_nat historyRingSize) emptyEntry) false 0.

(** [t.ring[h%historyRingSize]] *)
Definition slot_of (h : Z) : nat := Z.to_nat (h `mod` historyRingSize).
Definition ring_at (r : list ringEntry) (h : Z) : ringEntry := default emptyEntry (r !! slot_of h).

(** An entry of the ring that is about height [h]. *)
Definition holds (e : ringEntry) (h : Z) : bool := populated e && (re_height e =? h).

Definition put (b : Block) (r : list ringEntry) : list ringEntry :=
  <[slot_of (Height b) := mkRingEntry true (Height b) (Hash b)]> r.

Definition reorgPoint (t : blockTracker) (b : Block) : option Z :=
  let h := Height b in
  if tipH t <? h then
    if (h =? u64 (tipH t + 1)) && negb (bool_decide (ParentHash b = [])) then
      let e := ring_at (ring t) (tipH t) in
      if holds e (tipH t) && negb (HashId_Equals (re_hash e) (ParentHash b)) then Some (tipH t) else None
    else None
  else if holds (ring_at (ring t) h) h then Some h else None.

(** The loop of [dropFrom] over [n] heights from [hh] downwards. *)
Fixpoint drop_loop (n : nat) (hh : Z) (r : list ringEntry) : list BlockUpdate * list ringEntry :=
  match n with
  | O => ([], r)
  | S n' =>
    let e := ring_at r hh in
    if holds e hh then
      let '(drops, r) := drop_loop n' (hh - 1) (<[slot_of hh := emptyEntry]> r) in
      (mkBlockUpdate (mkBlock (re_height e) 0 (re_hash e) [] []) BlockDrop :: drops, r)
    else drop_loop n' (hh - 1) r
  end.

Definition dropFrom (reorgFrom : Z) (t : blockTracker) : list BlockUpdate * list ringEntry :=
  let lo := if (historyRingSize <=? tipH t) && (reorgFrom <? tipH t - historyRingSize + 1)
            then tipH t - historyRingSize + 1 else reorgFrom in
  drop_loop (Z.to_nat (tipH t - lo + 1)) (tipH t) (ring t).

Definition advance (b : Block) (t : blockTracker) : list BlockUpdate * blockTracker :=
  if bool_decide (Hash b = []) then ([], t)
  else
    let h := Height b in
    if negb (haveTip t) then ([mkBlockUpdate b BlockNew], mkTracker (put b (ring t)) true h)
    else
      let e := ring_at (ring t) h in
      if holds e h && HashId_Equals (re_hash e) (Hash b) then ([], t)
      else
        match reorgPoint t b with
        | Some reorgFrom =>
          let '(updates, r) := dropFrom reorgFrom t in
          (updates ++ [mkBlockUpdate b BlockNew], mkTracker (put b r) true h)
        | None =>
          if tipH t <? h then ([mkBlockUpdate b BlockNew], mkTracker (put b (ring t)) true h)
          else ([], t)
        end.

(** ** What a client that applies the updates holds

    A client keeps the blocks announced and not removed.  A removal of a block it
    does not hold makes its view inconsistent ([None]). *)

Abbreviation LiveBlocks := (gset (Z * HashId)).

Definition apply_update (u : BlockUpdate) (live : LiveBlocks) : option LiveBlocks :=
  let k := (Height (upd_Block u), Hash (upd_Block u)) in
  match upd_Kind u with
  | BlockNew => Some ({[k]} ∪ live)
  | BlockDrop => if bool_decide (k ∈ live) then Some (live ∖ {[k]}) else None
  end.

Fixpoint apply_updates (us : list BlockUpdate) (live : LiveBlocks) : option LiveBlocks :=
  match us with
  | [] => Some live
  | u :: us' => match apply_update u live with Some live => apply_updates us' live | None => None end
  end.

Definition follow_head (b : Block) (s : blockTracker * LiveBlocks) : option (blockTracker * LiveBlocks) :=
  let '(us, t) := advance b s.1 in
  match apply_updates us s.2 with Some live => Some (t, live) | None => None end.

Fixpoint follow (heads : list Block) (s : blockTracker * LiveBlocks) : option (blockTracker * LiveBlocks) :=
  match heads with
  | [] => Some s
  | b :: heads' => match follow_head b s with Some s => follow heads' s | None => None end
  end.

(** Heights the ring may have forgotten: [historyRingSize] below the highest head. *)
Definition window_floor (heads : list Block) : Z :=
  foldr Z.max 0 (map Height (filter (fun b => Hash b <> []) heads)) - historyRingSize.

(** ** The invariant

    The entries of the ring are live, and the live blocks above the floor [f] are
    at most [top] high and in the ring. *)

Record ring_inv (r : list ringEntry) (live : LiveBlocks) (top f : Z) : Prop := mkRingInv {
  ri_length : length r = 18%nat;
  ri_ring : forall i e, r !! i = Some e -> populated e = true ->
    slot_of (re_height e) = i /\ (re_height e, re_hash e) ∈ live;
  ri_live : forall h x, (h, x) ∈ live -> f < h -> 0 <= h <= top /\ ring_at r h = mkRingEntry true h x;
}.

Definition track_inv (t : blockTracker) (live : LiveBlocks) (f : Z) : Prop :=
  ring_inv (ring t) live (if haveTip t then tipH t else -1) f /\ is_u64 (tipH t) /\ tipH t - historyRingSize <= f.

Lemma slot_of_lt h : (slot_of h < 18)%nat.
Proof. unfold slot_of, historyRingSize. pose proof (Z.mod_pos_bound h 18). lia. Qed.

Lemma slot_of_inj h h' : slot_of h = slot_of h' -> h - 18 < h' < h + 18 -> h = h'.
Proof.
  unfold slot_of, historyRingSize. intros E Hr.
  pose proof (Z.mod_pos_bound h 18). pose proof (Z.mod_pos_bound h' 18).
  pose proof (Z.div_mod h 18). pose proof (Z.div_mod h' 18).
  assert (h `mod` 18 = h' `mod` 18) as Em by lia. rewrite Em in *. nia.
Qed.

Lemma ring_at_lookup r h : length r = 18%nat -> r !! slot_of h = Some (ring_at r h).
Proof.
  intros Hl. unfold ring_at. destruct (lookup_lt_is_Some_2 r (slot_of h)) as [e ->]; [|done].
  rewrite Hl. apply slot_of_lt.
Qed.

Lemma ring_at_insert r h h' e : length r = 18%nat ->
  ring_at (<[slot_of h := e]> r) h' = if decide (slot_of h = slot_of h') then e else ring_at r h'.
Proof.
  intros Hl. unfold ring_at. destruct (decide (slot_of h = slot_of h')) as [E|E].
  - rewrite <- E, list_lookup_insert_eq; [done|]. rewrite Hl. apply slot_of_lt.
  - by rewrite list_lookup_insert_ne.
Qed.

Lemma holds_spec e h : holds e h = true <-> populated e = true /\ re_height e = h.
Proof. unfold holds. rewrite andb_true_iff, Z.eqb_eq. done. Qed.

Lemma put_inv r live top f f' b :
  ring_inv r live top f -> top < Height b \/ top <= f -> 0 <= Height b -> f <= f' -> Height b - historyRingSize <= f' ->
  ring_inv (put b r) ({[(Height b, Hash b)]} ∪ live) (Height b) f'.
Proof.
  intros [Hl Hr Hv] Htop Hh Hf Hf'. unfold put. split; [by rewrite length_insert|..].
  - intros i e He Hp. destruct (decide (i = slot_of (Height b))) as [->|Hne].
    + rewrite list_lookup_insert_eq in He by (rewrite Hl; apply slot_of_lt). injection He as <-. set_solver.
    + rewrite list_lookup_insert_ne in He by done. destruct (Hr i e He Hp). set_solver.
  - intros h x Hx Hlt. rewrite (ring_at_insert _ _ _ _ Hl). apply elem_of_union in Hx as [Hx|Hx].
    + apply elem_of_singleton in Hx as [= -> ->]. rewrite decide_True by done. split; [lia|done].
    + destruct (Hv h x Hx) as [Hrange Hat]; [lia|]. rewrite decide_False; [split; [lia|done]|].
      intros E. apply slot_of_inj in E; unfold historyRingSize in *; lia.
Qed.

Lemma drop_loop_inv n hh r live f :
  ring_inv r live hh f -> Z.of_nat n <= hh + 1 ->
  let '(us, r') := drop_loop n hh r in
  exists live', apply_updates us live = Some live' /\ ring_inv r' live' (hh - Z.of_nat n) f.
Proof.
  revert hh r live. induction n as [|n IH]; intros hh r live Hi Hn.
  { exists live. split; [done|]. by rewrite Z.sub_0_r. }
  replace (hh - Z.of_nat (S n)) with (hh - 1 - Z.of_nat n) by lia. simpl.
  pose proof Hi as [Hl Hr Hv]. pose proof (ring_at_lookup r hh Hl) as Hat.
  destruct (holds (ring_at r hh) hh) eqn:Eh.
  - apply holds_spec in Eh as [Hp Ehh]. destruct (Hr _ _ Hat Hp) as [_ Hin].
    set (e := ring_at r hh) in *.
    assert (ring_inv (<[slot_of hh := emptyEntry]> r) (live ∖ {[(re_height e, re_hash e)]}) (hh - 1) f) as Hi'.
    { split; [by rewrite length_insert|..].
      - intros i e' He' Hp'. destruct (decide (i = slot_of hh)) as [->|Hne].
        + rewrite list_lookup_insert_eq in He' by (rewrite Hl; apply slot_of_lt). by injection He' as <-.
        + rewrite list_lookup_insert_ne in He' by done. destruct (Hr i e' He' Hp') as [Hs Hin'].
          split; [done|]. apply elem_of_difference. split; [done|]. rewrite elem_of_singleton. intros [= E _].
          congruence.
      - intros h x [Hx Hnx]%elem_of_difference Hlt. destruct (Hv h x Hx Hlt) as [Hrange Hat'].
        assert (h <> hh) as Hne.
        { intros ->. fold e in Hat'. apply Hnx. rewrite Hat'. set_solver. }
        split; [lia|]. rewrite (ring_at_insert _ _ _ _ Hl). rewrite decide_False; [done|]. intros E.
        assert (e = mkRingEntry true h x) as Ee by (unfold e, ring_at in *; by rewrite E).
        rewrite Ee in Ehh. simpl in Ehh. done. }
    specialize (IH (hh - 1) _ _ Hi' ltac:(lia)). destruct (drop_loop n (hh - 1) _) as [us r'].
    destruct IH as (live' & Ha & Hi2). exists live'. split; [|done]. simpl. unfold apply_update. simpl.
    by rewrite bool_decide_eq_true_2.
  - apply IH; [|lia]. split; [done|done|]. intros h x Hx Hlt. destruct (Hv h x Hx Hlt) as [Hrange Hat'].
    split; [|done]. assert (h <> hh); [|lia]. intros ->. rewrite Hat' in Eh. unfold holds in Eh. simpl in Eh.
    by rewrite Z.eqb_refl in Eh.
Qed.

Lemma apply_updates_app us us' live :
  apply_updates (us ++ us') live =
  match apply_updates us live with Some live => apply_updates us' live | None => None end.
Proof.
  revert live. induction us as [|u us IH]; intros live; simpl; [done|]. destruct (apply_update u live); [apply IH|done].
Qed.

Lemma reorgPoint_spec t b from : reorgPoint t b = Some from -> from <= tipH t /\ from <= Height b /\
  (from = Height b \/ Height b = u64 (tipH t + 1) /\ from = tipH t).
Proof.
  unfold reorgPoint. cbn zeta. destruct (tipH t <? Height b) eqn:E1.
  - destruct (_ && _) eqn:E2; [|done]. destruct (holds _ _ && _); [|done]. intros E3. injection E3 as <-. reflect_bool. lia.
  - destruct (holds _ _); [|done]. intros E3. injection E3 as <-. reflect_bool. lia.
Qed.

Lemma track_inv_mono t live f f' : track_inv t live f -> f <= f' -> track_inv t live f'.
Proof.
  intros ([Hl Hr Hv] & Hu & Hf) Hle. split; [|split; [done|lia]]. split; [done..|].
  intros h x Hx Hlt. apply Hv; [done|lia].
Qed.

Lemma follow_head_inv t live f b :
  track_inv t live f -> block_wf b -> Hash b <> [] ->
  exists t' live', follow_head b (t, live) = Some (t', live') /\
    track_inv t' live' (f `max` (Height b - historyRingSize)) /\
    (t' = t \/ tipH t' = Height b /\ (Height b, Hash b) ∈ live').
Proof.
  intros Hinv [Hw _] Hhash. pose proof (track_inv_mono _ _ _ (f `max` (Height b - historyRingSize)) Hinv ltac:(lia)) as Hmono.
  destruct Hinv as (Hi & Hu & Hf). unfold follow_head, advance. cbn [fst snd]. rewrite bool_decide_eq_false_2 by done.
  set (f' := f `max` (Height b - historyRingSize)).
  assert (forall r live1 top, ring_inv r live1 top f -> top < Height b \/ top <= f ->
    track_inv (mkTracker (put b r) true (Height b)) ({[(Height b, Hash b)]} ∪ live1) f') as Hput.
  { intros r live1 top Hri Htop. split; [|simpl; split; [done|lia]]. simpl. eapply put_inv; eauto; unfold is_u64 in Hw; lia. }
  assert (forall live1 : LiveBlocks, (Height b, Hash b) ∈ {[(Height b, Hash b)]} ∪ live1) as Hin by set_solver.
  destruct (haveTip t) eqn:Eht; simpl.
  2: { eexists _, _. split; [done|]. split; [eapply Hput; [exact Hi|unfold is_u64 in Hw; lia]|by right]. }
  destruct (holds _ _ && _).
  { exists t, live. split; [done|]. split; [|by left]. exact Hmono. }
  destruct (reorgPoint t b) as [from|] eqn:Er.
  - apply reorgPoint_spec in Er as (Hft & Hfh & Hcase). unfold dropFrom.
    set (lo := if (historyRingSize <=? tipH t) && _ then _ else from).
    assert (from <= lo <= tipH t) as Hlo.
    { unfold lo. destruct (_ && _) eqn:E; reflect_bool; unfold historyRingSize in *; lia. }
    assert (0 <= from) as Hfrom by (unfold is_u64 in *; lia).
    pose proof (drop_loop_inv (Z.to_nat (tipH t - lo + 1)) (tipH t) (ring t) live f Hi ltac:(lia)) as Hd.
    destruct (drop_loop _ _ _) as [us r']. destruct Hd as (live1 & Ha & Hi1).
    rewrite apply_updates_app, Ha. simpl. eexists _, _. split; [done|]. split; [|by right].
    eapply Hput; [exact Hi1|]. replace (tipH t - Z.of_nat (Z.to_nat (tipH t - lo + 1))) with (lo - 1) by lia.
    unfold lo. destruct (_ && _) eqn:E; reflect_bool; unfold historyRingSize in *; [lia|lia].
  - destruct (tipH t <? Height b) eqn:Et; simpl.
    + reflect_bool. eexists _, _. split; [done|]. split; [eapply Hput; [exact Hi|lia]|by right].
    + exists t, live. split; [done|]. split; [|by left]. exact Hmono.
Qed.

Lemma follow_head_hashless b s : Hash b = [] -> follow_head b s = Some s.
Proof. intros Hb. unfold follow_head, advance. rewrite bool_decide_eq_true_2 by done. by destruct s. Qed.

Lemma foldr_max_acc a x l : foldr Z.max (a `max` x) l = x `max` foldr Z.max a l.
Proof. induction l as [|y l IH]; simpl; [lia|]. rewrite IH. lia. Qed.

Definition floor_from (f : Z) (heads : list Block) : Z :=
  foldr Z.max (f + historyRingSize) (map Height (filter (fun b => Hash b <> []) heads)) - historyRingSize.

Lemma follow_inv heads t live f :
  track_inv t live f -> Forall block_wf heads ->
  exists t' live', follow heads (t, live) = Some (t', live') /\ track_inv t' live' (floor_from f heads).
Proof.
  intros Hi Hw. revert t live f Hi. induction Hw as [|b heads Hb _ IH]; intros t live f Hi; simpl.
  - exists t, live. split; [done|]. unfold floor_from. simpl. by rewrite Z.add_simpl_r.
  - unfold floor_from. rewrite filter_cons. destruct (decide (Hash b <> [])) as [Hh|Hh].
    + destruct (follow_head_inv t live f b Hi Hb Hh) as (t1 & live1 & -> & Hi1 & _).
      destruct (IH _ _ _ Hi1) as (t' & live' & -> & Hi'). exists t', live'. split; [done|].
      unfold floor_from in Hi'. simpl. rewrite <- foldr_max_acc.
      by replace ((f + historyRingSize) `max` Height b) with (f `max` (Height b - historyRingSize) + historyRingSize)
        by (unfold historyRingSize; lia).
    + rewrite follow_head_hashless by (by apply dec_stable). by apply IH.
Qed.

Lemma track_inv_start : track_inv newBlockTracker ∅ (- historyRingSize).
Proof.
  split; [|unfold is_u64, two64; simpl; lia]. split; [done| |].
  - intros i e He. apply lookup_replicate in He as [-> _]. done.
  - intros h x []%elem_of_empty.
Qed.

(** C24. Whatever heads a chain reports, reorganisations included, a client of the
    block updates stays consistent: only blocks it holds are removed, and above
    the window of the last 18 heights it holds at most one block per height and
    none above the tip.  A head with a hash is either ignored or becomes the tip,
    and then the client holds it. *)
Theorem tracker_consistent heads :
  Forall block_wf heads ->
  exists t live, follow heads (newBlockTracker, ∅) = Some (t, live) /\
    (forall h x, (h, x) ∈ live -> window_floor heads < h ->
       h <= tipH t /\ forall y, (h, y) ∈ live -> x = y) /\
    (forall b, block_wf b -> Hash b <> [] ->
       exists t' live', follow_head b (t, live) = Some (t', live') /\
         (t' = t \/ tipH t' = Height b /\ (Height b, Hash b) ∈ live')).
Proof.
  intros Hw. destruct (follow_inv heads _ _ _ track_inv_start Hw) as (t & live & E & Hi).
  exists t, live. split; [exact E|]. change (floor_from _ heads) with (window_floor heads) in Hi. split.
  - destruct Hi as ([_ _ Hv] & Hu & _). intros h x Hx Hlt. destruct (Hv h x Hx Hlt) as [Hr Hat]. split.
    + destruct (haveTip t); unfold is_u64 in Hu; lia.
    + intros y Hy. destruct (Hv h y Hy Hlt) as [_ Hat']. congruence.
  - intros b Hb Hh. destruct (follow_head_inv t live _ b Hi Hb Hh) as (t' & live' & Ef & _ & Hc). eauto.
Qed.

(** Heads 5, 6 and a different block 5: both announced blocks are removed. *)
Lemma tracker_consistent_witness :
  let heads := [NewBlock 5 0 [x01] []; NewBlock 6 0 [x02] [x01]; NewBlock 5 0 [x03] []] in
  exists t live, follow heads (newBlockTracker, ∅) = Some (t, live) /\ live = {[(5, [x03])]} /\
    forall y, (5, y) ∈ live -> [x03] = y.
Proof.
  intros heads. destruct (tracker_consistent heads) as (t & live & E & Hone & _).
  { repeat constructor; unfold is_u64, two64; simpl; lia. }
  exists t, live. split; [exact E|].
  assert (live = {[(5, [x03])]}) as ->.
  { assert (snd <$> follow heads (newBlockTracker, ∅) = Some {[(5, [x03])]}) as E' by (by vm_compute).
    rewrite E in E'. simpl in E'. by injection E'. }
  split; [done|]. apply (Hone 5 [x03]); [set_solver|]. vm_compute. done.
Defined.
