(* ===== verification/SubEngine.v ===== *)
(** The aggregation of subscriptions: one actor per key that fans the events of a
    shared source out to its subscribers
    ([internal/upstreams/flow/subengine/engine.go]).

    The actor's goroutine takes one arm of its [select] at a time; clients read
    their channels and detach at any moment.  A subscriber object is shared by the
    actor and its client, so the objects live in a heap indexed by their ids. *)

From S2P Require Import Prelude.
From S2P Require Import Protocol.
From S2P Require Import Errors.

Definition subscriberBufferSize : Z := 100.

Section Actor.
Context {Ev : Type}.

(** [src.Buffer], zero for the default. *)
Context (buffer : Z).

Definition bufSize : Z := if buffer =? 0 then subscriberBufferSize else buffer.

(** [ch] holds the events sent and not read; [closed] and [err] are the signal of
    the end.  [start], [received] and [left] are history: how many events the
    source had sent when the subscriber came, what its client has read, and
    whether its client detached. *)
Record subscriber := mkSubscriber {
  ch : list Ev;
  closed : bool;
  err : option ResponseError;
  start : nat;
  received : list Ev;
  left : bool;
}.

(** [heap] has every subscriber there ever was, [subs] those the actor serves;
    [events] is what the actor took from the source. *)
Record Actor := mkActor {
  heap : gmap nat subscriber;
  subs : gset nat;
  seq : nat;
  refs : Z;
  armed : bool;
  draining : bool;
  done : bool;
  events : list Ev;
}.

Definition newActor : Actor := mkActor ∅ ∅ 0 0 false false false [].

(** A send to a full channel takes the [default] arm: the subscriber is closed. *)
Definition has_room (s : subscriber) : bool := Z.of_nat (length (ch s)) <? bufSize.

Definition send_event (ev : Ev) (s : subscriber) : subscriber :=
  if has_room s then mkSubscriber (ch s ++ [ev]) (closed s) (err s) (start s) (received s) (left s)
  else mkSubscriber (ch s) true (Some WsSubscriberTooSlowError) (start s) (received s) (left s).

Definition keeps_up (a : Actor) (id : nat) : Prop :=
  match heap a !! id with Some s => has_room s = true | None => False end.
#[local] Instance keeps_up_dec a id : Decision (keeps_up a id).
Proof. unfold keeps_up. destruct (heap a !! id); apply _. Defined.

Definition arm_if_idle (refs : Z) (armed : bool) : bool := if refs =? 0 then true else armed.

(** An event: the subscribers are served independently of each other, so the order
    of the map does not matter. *)
Definition on_event (ev : Ev) (a : Actor) : Actor :=
  let slow := filter (fun id => ~ keeps_up a id) (subs a) in
  let refs' := refs a - Z.of_nat (size slow) in
  mkActor (map_imap (fun id s => Some (if bool_decide (id ∈ subs a) then send_event ev s else s)) (heap a))
    (subs a ∖ slow) (seq a) refs' (arm_if_idle refs' (armed a)) (draining a) (done a) (events a ++ [ev]).

Definition close_with (cause : ResponseError) (s : subscriber) : subscriber :=
  mkSubscriber (ch s) true (Some cause) (start s) (received s) (left s).

Definition terminate (cause : option ResponseError) (a : Actor) : Actor :=
  let cause := default WsTotalFailureError cause in
  mkActor (map_imap (fun id s => Some (if bool_decide (id ∈ subs a) then close_with cause s else s)) (heap a))
    (subs a) (seq a) (refs a) (armed a) (draining a) true (events a).

Definition on_subscribe (a : Actor) : Actor :=
  let id := S (seq a) in
  mkActor (<[id := mkSubscriber [] false None (length (events a)) [] false]> (heap a))
    ({[id]} ∪ subs a) id (refs a + 1) false true (done a) (events a).

Definition on_unsubscribe (id : nat) (a : Actor) : Actor :=
  if bool_decide (id ∈ subs a) then
    let refs' := refs a - 1 in
    mkActor (heap a) (subs a ∖ {[id]}) (seq a) refs' (arm_if_idle refs' (armed a)) (draining a) (done a) (events a)
  else a.

Definition on_teardown (a : Actor) : Actor := if refs a =? 0 then terminate None a else a.

(** The client of [id] reads an event, or calls [Unsubscribe]. *)
Definition client_read (s : subscriber) : option subscriber :=
  match ch s with
  | ev :: rest => Some (mkSubscriber rest (closed s) (err s) (start s) (received s ++ [ev]) (left s))
  | [] => None
  end.
Definition client_left (s : subscriber) : subscriber :=
  mkSubscriber (ch s) (closed s) (err s) (start s) (received s) true.

Definition set_sub (id : nat) (s : subscriber) (a : Actor) : Actor :=
  mkActor (<[id := s]> (heap a)) (subs a) (seq a) (refs a) (armed a) (draining a) (done a) (events a).

Inductive actor_step (a : Actor) : Actor -> Prop :=
| step_event ev : done a = false -> draining a = true -> actor_step a (on_event ev a)
| step_source_end cause : done a = false -> draining a = true -> actor_step a (terminate cause a)
| step_shutdown : done a = false -> actor_step a (terminate (Some WsTotalFailureError) a)
| step_subscribe : done a = false -> actor_step a (on_subscribe a)
| step_unsubscribe id s : done a = false -> heap a !! id = Some s ->
    actor_step a (on_unsubscribe id (set_sub id (client_left s) a))
| step_teardown : done a = false -> armed a = true -> actor_step a (on_teardown a)
| step_read id s s' : heap a !! id = Some s -> client_read s = Some s' -> actor_step a (set_sub id s' a)
| step_leave_done id s : done a = true -> heap a !! id = Some s -> actor_step a (set_sub id (client_left s) a).

Inductive actor_reach : Actor -> Prop :=
| reach_new : actor_reach newActor
| reach_next a a' : actor_reach a -> actor_step a a' -> actor_reach a'.

(** ** The invariant *)

(** The events a subscriber was sent. *)
Definition sent (s : subscriber) : list Ev := received s ++ ch s.

Record sub_ok (a : Actor) (id : nat) (s : subscriber) : Prop := mkSubOk {
  so_start : (start s <= length (events a))%nat;
  so_room : Z.of_nat (length (ch s)) <= Z.max bufSize 0;
  so_prefix : sent s `prefix_of` drop (start s) (events a);
  so_active : id ∈ subs a -> sent s = drop (start s) (events a);
  so_open : id ∈ subs a -> done a = false -> closed s = false;
  so_gone : id ∉ subs a -> closed s = true \/ left s = true;
  so_end : done a = true -> id ∈ subs a -> closed s = true;
  so_cause : closed s = true <-> is_Some (err s);
}.

Record actor_inv (a : Actor) : Prop := mkActorInv {
  ai_refs : refs a = Z.of_nat (size (subs a));
  ai_subs : forall id, id ∈ subs a -> is_Some (heap a !! id);
  ai_heap : forall id s, heap a !! id = Some s -> (id <= seq a)%nat /\ sub_ok a id s;
  ai_armed : armed a = true -> refs a = 0;
  ai_idle : done a = false -> (0 < seq a)%nat -> refs a = 0 -> armed a = true;
}.

Lemma actor_inv_new : actor_inv newActor.
Proof using Type.
  split; simpl; [done| |done|done|lia]. intros id []%elem_of_empty.
Qed.

Lemma arm_if_idle_spec r b : (b = true -> r = 0) ->
  (arm_if_idle r b = true -> r = 0) /\ (r = 0 -> arm_if_idle r b = true).
Proof. unfold arm_if_idle. intros Hb. destruct (r =? 0) eqn:E; reflect_bool; split; auto. Qed.

Lemma sub_ok_event a ev id s :
  heap a !! id = Some s -> id ∈ subs a -> sub_ok a id s -> done a = false ->
  sub_ok (on_event ev a) id (send_event ev s).
Proof using Type.
  intros Hs Hin Hok Hd. destruct Hok as [Hst Hro Hpr Hac Hop Hgo Hen Hca]. unfold send_event.
  assert (keeps_up a id <-> has_room s = true) as Hk by (unfold keeps_up; by rewrite Hs).
  assert (drop (start s) (events a ++ [ev]) = drop (start s) (events a) ++ [ev]) as Hdr by (by rewrite drop_app_le).
  destruct (has_room s) eqn:Er; split; simpl; rewrite ?length_app, ?Hdr; simpl; try lia; try done.
  - unfold has_room in Er. reflect_bool. lia.
  - unfold sent. simpl. rewrite app_assoc. rewrite <- (Hac Hin). done.
  - intros _. unfold sent. simpl. rewrite app_assoc. by rewrite <- (Hac Hin).
  - intros _ _. by apply Hop.
  - intros Hn. exfalso. apply Hn. apply elem_of_difference. split; [done|].
    intros [Hnk _]%elem_of_filter. apply Hnk. by apply Hk.
  - congruence.
  - unfold sent. simpl. rewrite <- (Hac Hin). by apply prefix_app_r.
  - intros [_ Hn]%elem_of_difference. exfalso. apply Hn. apply elem_of_filter. split; [|done]. by rewrite Hk.
  - intros [_ Hn]%elem_of_difference _. exfalso. apply Hn. apply elem_of_filter. split; [|done]. by rewrite Hk.
Qed.

(** A subscriber the actor no longer serves. *)
Lemma sub_ok_gone a a' id s l :
  sub_ok a id s -> id ∉ subs a -> id ∉ subs a' -> events a' = events a ++ l -> sub_ok a' id s.
Proof using Type.
  intros [Hst Hro Hpr Hac Hop Hgo Hen Hca] Hn Hn' He. split; try done; rewrite ?He.
  - rewrite length_app. lia.
  - rewrite drop_app_le by done. by apply prefix_app_r.
  - intros _. by apply Hgo.
Qed.

Lemma on_event_inv ev a : actor_inv a -> done a = false -> actor_inv (on_event ev a).
Proof using Type.
  intros [Hr Hs Hh Ha Hi] Hd. unfold on_event.
  set (slow := filter (fun id => ~ keeps_up a id) (subs a)).
  assert (slow ⊆ subs a) as Hsub by (intros id [_ ?]%elem_of_filter; done).
  assert (refs a - Z.of_nat (size slow) = Z.of_nat (size (subs a ∖ slow))) as Hr'.
  { rewrite size_difference by done. pose proof (subseteq_size _ _ Hsub). lia. }
  destruct (arm_if_idle_spec (refs a - Z.of_nat (size slow)) (armed a)) as [Ha1 Ha2].
  { intros Harm. apply Ha in Harm. pose proof (subseteq_size _ _ Hsub). lia. }
  split; simpl; [done| | |done|auto].
  - intros id [Hin _]%elem_of_difference. destruct (Hs id Hin) as [s E]. rewrite map_lookup_imap, E. by eexists.
  - intros id s'. rewrite map_lookup_imap. destruct (heap a !! id) as [s|] eqn:E; [|done]. simpl. intros [= <-].
    destruct (Hh id s E) as [Hle Hok]. split; [done|]. case_bool_decide as Hin.
    + by apply sub_ok_event.
    + apply (sub_ok_gone a _ id s [ev]); [done..| |done]. simpl. intros [? _]%elem_of_difference. done.
Qed.

Lemma terminate_inv cause a : actor_inv a -> done a = false -> actor_inv (terminate cause a).
Proof using Type.
  intros [Hr Hs Hh Ha Hi] Hd. split; simpl; [done| | |done|done].
  - intros id Hin. destruct (Hs id Hin) as [s E]. rewrite map_lookup_imap, E. by eexists.
  - intros id s'. rewrite map_lookup_imap. destruct (heap a !! id) as [s|] eqn:E; [|done]. simpl. intros [= <-].
    destruct (Hh id s E) as [Hle Hok]. split; [done|]. case_bool_decide as Hin.
    + destruct Hok as [Hst Hro Hpr Hac Hop Hgo Hen Hca]. split; simpl; auto; done.
    + apply (sub_ok_gone a _ id s []); [done..|]. by rewrite app_nil_r.
Qed.

Lemma on_subscribe_inv a : actor_inv a -> done a = false -> actor_inv (on_subscribe a).
Proof using Type.
  intros [Hr Hs Hh Ha Hi] Hd.
  assert (S (seq a) ∉ subs a) as Hn.
  { intros Hin. destruct (Hs _ Hin) as [s E]. apply Hh in E as [Hle _]. lia. }
  split; simpl; [| | |done|].
  - rewrite size_union by set_solver. rewrite size_singleton. lia.
  - intros id [->%elem_of_singleton|Hin]%elem_of_union; [rewrite lookup_insert_eq; by eexists|].
    rewrite lookup_insert_ne by (by intros <-). by apply Hs.
  - intros id s. destruct (decide (id = S (seq a))) as [->|Hne].
    + rewrite lookup_insert_eq. intros [= <-]. split; [lia|]. split; simpl; try done.
      * lia.
      * by rewrite drop_all.
      * intros _. by rewrite drop_all.
      * intros Hnin. exfalso. apply Hnin. set_solver.
      * congruence.
    + rewrite lookup_insert_ne by done. intros E. destruct (Hh id s E) as [Hle [Hst Hro Hpr Hac Hop Hgo Hen Hca]].
      split; [lia|]. split; simpl; try done; rewrite ?elem_of_union, ?elem_of_singleton.
      * intros [?|?]; [done|auto].
      * intros [?|?]; [done|auto].
      * intros Hnin. apply Hgo. auto.
      * congruence.
  - intros _ _. pose proof Hr. lia.
Qed.

(** A client touches its own subscriber only. *)
Lemma set_sub_inv a id s s' :
  actor_inv a -> heap a !! id = Some s -> (sub_ok a id s -> sub_ok a id s') -> actor_inv (set_sub id s' a).
Proof using Type.
  intros [Hr Hs Hh Ha Hi] E Hok. split; simpl; try done.
  - intros i Hin. destruct (decide (id = i)) as [<-|]; [rewrite lookup_insert_eq; by eexists|].
    rewrite lookup_insert_ne by done. by apply Hs.
  - intros i x. destruct (decide (id = i)) as [<-|].
    + rewrite lookup_insert_eq. intros [= <-]. destruct (Hh id s E) as [Hle Hoks]. split; [done|].
      destruct (Hok Hoks) as [Hst Hro Hpr Hac Hop Hgo Hen Hca]. by split.
    + rewrite lookup_insert_ne by done. intros E'. destruct (Hh i x E') as [Hle [Hst Hro Hpr Hac Hop Hgo Hen Hca]].
      split; [done|]. by split.
Qed.

Lemma client_left_ok a id s : sub_ok a id s -> sub_ok a id (client_left s).
Proof using Type. intros [Hst Hro Hpr Hac Hop Hgo Hen Hca]. split; simpl; try done. intros _. by right. Qed.

Lemma client_read_ok a id s s' : client_read s = Some s' -> sub_ok a id s -> sub_ok a id s'.
Proof using Type.
  unfold client_read. destruct (ch s) as [|ev rest] eqn:E; [done|]. intros [= <-] [Hst Hro Hpr Hac Hop Hgo Hen Hca].
  assert (sent s = (received s ++ [ev]) ++ rest) as Hsent by (unfold sent; by rewrite E, <- app_assoc).
  rewrite E in Hro. rewrite Hsent in Hpr, Hac. split; simpl in *; try done. lia.
Qed.

Lemma on_unsubscribe_inv a id s :
  actor_inv a -> done a = false -> heap a !! id = Some s -> left s = true -> actor_inv (on_unsubscribe id a).
Proof using Type.
  intros Hinv Hd E Hl. unfold on_unsubscribe. case_bool_decide as Hin; [|done]. destruct Hinv as [Hr Hs Hh Ha Hi].
  assert (refs a - 1 = Z.of_nat (size (subs a ∖ {[id]}))) as Hr'.
  { rewrite size_difference by set_solver. rewrite size_singleton.
    assert (size (subs a) <> 0%nat); [|lia]. intros Hz. apply size_empty_iff in Hz. set_solver. }
  destruct (arm_if_idle_spec (refs a - 1) (armed a)) as [Ha1 Ha2].
  { intros Harm. apply Ha in Harm. lia. }
  split; simpl; [done| | |done|auto].
  - intros i [Hi' _]%elem_of_difference. by apply Hs.
  - intros i x Ex. destruct (Hh i x Ex) as [Hle Hok]. split; [done|].
    destruct (decide (i = id)) as [->|Hne].
    + rewrite E in Ex. injection Ex as <-. destruct Hok as [Hst Hro Hpr Hac Hop Hgo Hen Hca].
      assert (id ∉ subs a ∖ {[id]}) as Hnin by set_solver. split; simpl; try done. intros _. by right.
    + destruct Hok as [Hst Hro Hpr Hac Hop Hgo Hen Hca].
      assert (i ∈ subs a ∖ {[id]} <-> i ∈ subs a) as Hiff by set_solver. split; simpl; rewrite ?Hiff; done.
Qed.

Lemma actor_step_inv a a' : actor_inv a -> actor_step a a' -> actor_inv a'.
Proof using Type.
  intros Hi Hs. destruct Hs as [ev Hd _|cause Hd _|Hd|Hd|id s Hd E|Hd Harm|id s s' E Er|id s Hd E].
  - by apply on_event_inv.
  - by apply terminate_inv.
  - by apply terminate_inv.
  - by apply on_subscribe_inv.
  - apply (on_unsubscribe_inv _ id (client_left s)); [|done|simpl; by rewrite lookup_insert_eq|done].
    eapply set_sub_inv; [done..|apply client_left_ok].
  - unfold on_teardown. destruct (refs a =? 0); [by apply terminate_inv|done].
  - eapply set_sub_inv; [done..|by apply client_read_ok].
  - eapply set_sub_inv; [done..|apply client_left_ok].
Qed.

Lemma actor_reach_inv a : actor_reach a -> actor_inv a.
Proof using Type. induction 1; [apply actor_inv_new|by eapply actor_step_inv]. Qed.
End Actor.

Arguments subscriber : clear implicits.
Arguments Actor : clear implicits.

(** C17. No subscriber of a shared source ever misses an event silently: at any
    moment, what a subscriber was sent is a run of consecutive events of the source
    from the moment it subscribed, all of them while it is served.  A subscriber
    that is no longer served either detached itself or finds its channel closed
    with a cause.  A source without subscribers always has its teardown timer
    running, and one with subscribers never has. *)
Theorem subscribers_see_no_gaps {Ev} (buffer : Z) (a : Actor Ev) :
  actor_reach buffer a ->
  (forall id s, heap a !! id = Some s ->
     sent s `prefix_of` drop (start s) (events a) /\
     Z.of_nat (length (ch s)) <= Z.max (bufSize buffer) 0 /\
     (id ∈ subs a -> sent s = drop (start s) (events a)) /\
     (id ∉ subs a \/ done a = true -> left s = true \/ closed s = true /\ is_Some (err s))) /\
  (done a = false -> (0 < seq a)%nat -> (armed a = true <-> subs a = ∅)).
Proof.
  intros [Hr Hs Hh Ha Hi]%actor_reach_inv. split.
  - intros id s E. destruct (Hh id s E) as [_ [Hst Hro Hpr Hac Hop Hgo Hen Hca]]. split_and!; [done..|].
    assert (closed s = true -> left s = true \/ closed s = true /\ is_Some (err s)) as Hc.
    { intros Hc. right. split; [done|by apply Hca]. }
    intros [Hn|Hd]; [destruct (Hgo Hn); auto|]. destruct (decide (id ∈ subs a)) as [Hin|Hn]; [auto|].
    destruct (Hgo Hn); auto.
  - intros Hd Hseq. rewrite <- leibniz_equiv_iff, <- size_empty_iff. split; [intros Harm; apply Ha in Harm; lia|].
    intros Hz. apply Hi; [done..|lia].
Qed.

(** Two events to a subscriber whose buffer holds one and who reads nothing. *)
Lemma subscribers_see_no_gaps_witness :
  let a := on_event 1 false (on_event 1 true (on_subscribe (newActor (Ev := bool)))) in
  exists s, heap a !! 1%nat = Some s /\ sent s = [true] /\ err s = Some WsSubscriberTooSlowError /\
    sent s `prefix_of` drop (start s) (events a).
Proof.
  intros a. assert (actor_reach 1 a) as Hr.
  { eapply reach_next; [eapply reach_next; [eapply reach_next; [apply reach_new|]|]|].
    - by apply step_subscribe.
    - by apply step_event.
    - by apply step_event. }
  destruct (subscribers_see_no_gaps 1 a Hr) as [Hsub _].
  eexists. split; [by vm_compute|]. split; [done|]. split; [done|]. apply (Hsub 1%nat). by vm_compute.
Defined.
