(* ===== verification/ChainState.v ===== *)
(** The aggregate state of a chain and its pure aggregation functions
    ([internal/upstreams/chain_supervisor_state.go], [state_wrappers.go]). *)

From S2P Require Import Prelude.
From S2P Require Import Protocol.
From S2P Require Import Specs.
From S2P Require Import Methods.
From S2P Require Import UpstreamState.

Record ChainHeadData := mkChainHeadData { Head : Block; head_UpstreamId : string }.

Definition NewChainHeadData := mkChainHeadData.

Definition ChainHeadData_IsEmpty (c : ChainHeadData) : bool := IsEmptyByHeight (Head c).

Record AggregatedLabels := mkAggregatedLabels { Amount : Z; agg_Labels : gmap string string }.

Definition NewAggregatedLabels := mkAggregatedLabels.

Definition AggregatedLabels_Equals (a other : AggregatedLabels) : bool :=
  (Amount a =? Amount other) && bool_decide (agg_Labels a = agg_Labels other).

Definition CompareAggregatedLabels (a b : list AggregatedLabels) : bool :=
  bool_decide (length a = length b) &&
  forallb (fun labelA => existsb (fun item => AggregatedLabels_Equals item labelA) b) a.

Record ChainSupervisorState := mkChainState {
  cs_Status : AvailabilityStatus;
  cs_HeadData : ChainHeadData;
  cs_Methods : ChainMethods UpstreamMethods;
  cs_Blocks : gmap BlockType Block;
  cs_LowerBounds : gmap LowerBoundType LowerBoundData;
  cs_ChainLabels : list AggregatedLabels;
  cs_SubMethods : gset string;
  cs_Caps : gset Cap;
}.

(** What subscribers of the chain are told ([state_wrappers.go]). *)
Inductive ChainSupervisorStateWrapper :=
| SubMethodsWrapper (subMethods : list string)
| LabelsWrapper (labels : list AggregatedLabels)
| StatusWrapper (status : AvailabilityStatus)
| MethodsWrapper (methods : list string)
| BlocksWrapper (blocks : gmap BlockType Block)
| LowerBoundsWrapper (lowerBounds : list LowerBoundData)
| CapsWrapper (caps : gset Cap)
| HeadWrapper (head : Block) (upstreamId : string).

Definition capsEqual (a b : gset Cap) : bool := bool_decide (a = b).

(** [maps.EqualFunc] with [Block.Equals]. *)
Definition blocks_equal (a b : gmap BlockType Block) : bool :=
  bool_decide (size a = size b) &&
  forallb (fun kv : BlockType * Block =>
    match b !! kv.1 with Some v => Block_Equals kv.2 v | None => false end) (map_to_list a).

Section Compare.
Context `{MapRange}.

Definition Compare (c new : ChainSupervisorState) : list ChainSupervisorStateWrapper :=
  (if bool_decide (cs_Status c = cs_Status new) then [] else [StatusWrapper (cs_Status new)]) ++
  (if bool_decide (GetSupportedMethods (cs_Methods c) = GetSupportedMethods (cs_Methods new)) then []
   else [MethodsWrapper (elements (GetSupportedMethods (cs_Methods new)))]) ++
  (if blocks_equal (cs_Blocks c) (cs_Blocks new) then [] else [BlocksWrapper (cs_Blocks new)]) ++
  (if bool_decide (cs_LowerBounds c = cs_LowerBounds new) then []
   else [LowerBoundsWrapper (range (cs_LowerBounds new)).*2]) ++
  (if CompareAggregatedLabels (cs_ChainLabels c) (cs_ChainLabels new) then []
   else [LabelsWrapper (cs_ChainLabels new)]) ++
  (if bool_decide (cs_SubMethods c = cs_SubMethods new) then []
   else [SubMethodsWrapper (elements (cs_SubMethods new))]) ++
  (if capsEqual (cs_Caps c) (cs_Caps new) then [] else [CapsWrapper (cs_Caps new)]).
End Compare.

(** ** Aggregation over the available upstreams *)

Definition processCaps (ups : list UpstreamState) : gset Cap :=
  foldl (fun caps s => caps ∪ Caps s) ∅ ups.

(** [lo.FindIndexOf] and the increment: count the set of labels, or append it. *)
Fixpoint add_labels (upLabels : gmap string string) (all : list AggregatedLabels)
    : list AggregatedLabels :=
  match all with
  | [] => [NewAggregatedLabels 1 upLabels]
  | a :: all' =>
    if bool_decide (upLabels = agg_Labels a)
    then mkAggregatedLabels (Amount a + 1) (agg_Labels a) :: all'
    else a :: add_labels upLabels all'
  end.

Definition processLabels (ups : list UpstreamState) : list AggregatedLabels :=
  foldl (fun all s =>
    let upLabels := Labels_GetAllLabels (st_labels s) in
    if bool_decide (upLabels = ∅) then all else add_labels upLabels all) [] ups.

Definition processUpstreamMethods (ups : list UpstreamState) : ChainMethods UpstreamMethods :=
  NewChainMethods (map st_methods ups).

Definition merge_bound (bounds : gmap LowerBoundType LowerBoundData) (bound : LowerBoundData)
    : gmap LowerBoundType LowerBoundData :=
  match bounds !! BoundType bound with
  | None => <[BoundType bound := bound]> bounds
  | Some current =>
    if Bound bound <? Bound current then <[BoundType bound := bound]> bounds else bounds
  end.

Definition processLowerBounds `{MapRange} (ups : list UpstreamState)
    : gmap LowerBoundType LowerBoundData :=
  foldl (fun bounds s => foldl merge_bound bounds (LowerBoundInfo_GetAllBounds (st_lowerBounds s)))
    ∅ ups.

Definition compareBlocks (t : BlockType) (currentBlock newBlock : Block) : Block :=
  match t with
  | FinalizedBlock | SafeBlock =>
    if Height currentBlock <? Height newBlock then newBlock else currentBlock
  end.

Definition merge_block (blocks : gmap BlockType Block) (kv : BlockType * Block)
    : gmap BlockType Block :=
  match blocks !! kv.1 with
  | None => <[kv.1 := kv.2]> blocks
  | Some current => <[kv.1 := compareBlocks kv.1 current kv.2]> blocks
  end.

Definition processUpstreamBlocks `{MapRange} (ups : list UpstreamState) : gmap BlockType Block :=
  foldl (fun blocks s => foldl merge_block blocks (range (BlockInfo_GetBlocks (st_blocks s)))) ∅ ups.

(** ** Facts about the aggregates *)

Lemma processCaps_spec ups c : c ∈ processCaps ups <-> exists s, s ∈ ups /\ c ∈ Caps s.
Proof.
  unfold processCaps. rewrite <- (left_id_L ∅ (∪) (foldl _ ∅ ups)).
  assert (forall acc, c ∈ foldl (fun caps s => caps ∪ Caps s) acc ups <->
    c ∈ acc \/ exists s, s ∈ ups /\ c ∈ Caps s) as Hg; [|rewrite elem_of_union, Hg; set_solver].
  induction ups as [|s ups IH]; intros acc; simpl; [set_solver|]. rewrite IH.
  rewrite elem_of_union. setoid_rewrite elem_of_cons. naive_solver.
Qed.

(** The aggregated labels count, for each set of labels, the upstreams with it. *)
Definition amount_of (all : list AggregatedLabels) (l : gmap string string) : Z :=
  foldr (fun a acc => (if bool_decide (agg_Labels a = l) then Amount a else 0) + acc) 0 all.

Lemma add_labels_amount upLabels all l :
  NoDup (map agg_Labels all) ->
  amount_of (add_labels upLabels all) l =
    (if bool_decide (upLabels = l) then 1 else 0) + amount_of all l /\
  NoDup (map agg_Labels (add_labels upLabels all)) /\
  (forall x, x ∈ map agg_Labels (add_labels upLabels all) <-> x = upLabels \/ x ∈ map agg_Labels all).
Proof.
  induction all as [|a all IH]; simpl; intros Hnd.
  - split_and!; [done|apply NoDup_singleton|]. set_solver.
  - apply NoDup_cons in Hnd as [Ha Hnd]. destruct (IH Hnd) as (E & Hnd' & Hin). clear IH.
    destruct (decide (upLabels = agg_Labels a)) as [Heq|Heq].
    + rewrite (bool_decide_eq_true_2 (upLabels = agg_Labels a)) by done. simpl.
      subst upLabels. split_and!; [|by apply NoDup_cons|set_solver].
      case_bool_decide; lia.
    + rewrite (bool_decide_eq_false_2 (upLabels = agg_Labels a)) by done. simpl. rewrite E. split_and!; [lia| |set_solver]. apply NoDup_cons. split; [|done].
      rewrite Hin. intros [?|?]; [congruence|done].
Qed.

Lemma processLabels_snoc ups s :
  processLabels (ups ++ [s]) =
    if bool_decide (labels (st_labels s) = ∅) then processLabels ups
    else add_labels (labels (st_labels s)) (processLabels ups).
Proof.
  unfold processLabels at 1. rewrite foldl_snoc. fold (processLabels ups). cbv zeta.
  unfold Labels_GetAllLabels. by rewrite copy_map_id.
Qed.

Lemma processLabels_spec ups l :
  NoDup (map agg_Labels (processLabels ups)) /\
  amount_of (processLabels ups) l =
    if bool_decide (l = ∅) then 0
    else Z.of_nat (length (filter (fun s => labels (st_labels s) = l) ups)).
Proof.
  induction ups as [|s ups [Hnd IH]] using rev_ind.
  - split; [constructor|]. by case_bool_decide.
  - rewrite processLabels_snoc, filter_app, length_app, filter_cons, filter_nil.
    destruct (decide (labels (st_labels s) = ∅)) as [He|He].
    + rewrite (bool_decide_eq_true_2 (labels (st_labels s) = ∅)) by done.
      split; [done|]. rewrite IH. repeat case_bool_decide; try case_decide; simpl; try lia; congruence.
    + rewrite (bool_decide_eq_false_2 (labels (st_labels s) = ∅)) by done.
      destruct (add_labels_amount (labels (st_labels s)) _ l Hnd) as (E & Hnd' & _).
      split; [done|]. rewrite E, IH. repeat case_bool_decide; try case_decide; simpl; try lia; congruence.
Qed.

Lemma merge_bound_keep_best bounds b :
  merge_bound bounds b = keep_best Bound bounds (BoundType b, b).
Proof. done. Qed.

Lemma merge_block_keep_best blocks kv :
  merge_block blocks kv = keep_best (fun b => - Height b) blocks kv.
Proof.
  unfold merge_block, keep_best. destruct kv as [t b]. simpl.
  destruct (blocks !! t) as [cur|] eqn:E; [|done].
  assert ((- Height b <? - Height cur) = (Height cur <? Height b)) as ->.
  { apply Bool.eq_iff_eq_true. rewrite !Z.ltb_lt. lia. }
  unfold compareBlocks. destruct t; destruct (Height cur <? Height b); try done; by rewrite insert_id.
Qed.

Lemma foldl_foldl {A B C} (f : A -> B -> A) (g : C -> list B) acc (l : list C) :
  foldl (fun acc x => foldl f acc (g x)) acc l = foldl f acc (l ≫= g).
Proof.
  revert acc. induction l as [|x l IH]; intros acc; simpl; [done|]. by rewrite foldl_app, IH.
Qed.

(** The bounds and the blocks the upstreams report, with their types. *)
Definition reported_bounds `{MapRange} (ups : list UpstreamState) : list (LowerBoundType * LowerBoundData) :=
  ups ≫= fun s => map (fun b => (BoundType b, b)) (LowerBoundInfo_GetAllBounds (st_lowerBounds s)).

Lemma processLowerBounds_best `{MapRange} ups :
  best_of Bound (reported_bounds ups) (processLowerBounds ups).
Proof.
  unfold processLowerBounds. rewrite foldl_foldl.
  replace (reported_bounds ups) with ([] ++ reported_bounds ups) by done.
  assert (forall l acc, foldl merge_bound acc l =
    foldl (keep_best Bound) acc (map (fun b => (BoundType b, b)) l)) as Hf.
  { induction l as [|b l IH]; intros acc; simpl; [done|]. by rewrite IH. }
  rewrite Hf. unfold reported_bounds.
  replace (map (fun b => (BoundType b, b)) (ups ≫= _)) with
    (ups ≫= fun s => map (fun b => (BoundType b, b)) (LowerBoundInfo_GetAllBounds (st_lowerBounds s))).
  { apply foldl_keep_best, best_of_empty. }
  clear. induction ups as [|s ups IH]; simpl; [done|]. rewrite map_app. f_equal. exact IH.
Qed.

Lemma elem_of_reported_bounds `{MapRange} ups t d :
  (forall s, s ∈ ups -> LowerBoundInfo_wf (st_lowerBounds s)) ->
  (t, d) ∈ reported_bounds ups <-> exists s, s ∈ ups /\ lowerBounds (st_lowerBounds s) !! t = Some d.
Proof.
  intros Hwf. unfold reported_bounds. rewrite list_elem_of_bind. split.
  - intros (s & Hin & Hs). exists s. split; [done|].
    apply list_elem_of_fmap in Hin as (b & [= -> ->] & Hb).
    apply elem_of_range_values in Hb as [t' Hb]. by rewrite (Hwf s Hs t' b Hb).
  - intros (s & Hs & Hl). exists s. split; [|done]. apply list_elem_of_fmap. exists d.
    split; [by rewrite (Hwf s Hs t d Hl)|]. apply elem_of_range_values. eauto.
Qed.

Definition reported_blocks `{MapRange} (ups : list UpstreamState) : list (BlockType * Block) :=
  ups ≫= fun s => range (BlockInfo_GetBlocks (st_blocks s)).

Lemma processUpstreamBlocks_best `{MapRange} ups :
  best_of (fun b => - Height b) (reported_blocks ups) (processUpstreamBlocks ups).
Proof.
  unfold processUpstreamBlocks. rewrite foldl_foldl.
  replace (reported_blocks ups) with ([] ++ reported_blocks ups) by done.
  assert (forall l acc, foldl merge_block acc l = foldl (keep_best (fun b => - Height b)) acc l) as ->.
  { induction l as [|b l IH]; intros acc; cbn [foldl]; [done|]. by rewrite merge_block_keep_best, IH. }
  apply foldl_keep_best, best_of_empty.
Qed.

Lemma elem_of_reported_blocks `{MapRange} ups t b :
  (t, b) ∈ reported_blocks ups <-> exists s, s ∈ ups /\ blocks (st_blocks s) !! t = Some b.
Proof.
  unfold reported_blocks. rewrite list_elem_of_bind. unfold BlockInfo_GetBlocks.
  setoid_rewrite copy_map_id. setoid_rewrite elem_of_range. naive_solver.
Qed.
