(* ===== verification/ChainSupervisor.v ===== *)
(** The supervisor of one chain: the loop that folds the events of its upstreams
    into the aggregate state, the merged head and the head lags
    ([internal/upstreams/chain_supervisor.go]). *)

From S2P Require Import Prelude.
From S2P Require Import Protocol.
From S2P Require Import Specs.
From S2P Require Import Methods.
From S2P Require Import UpstreamState.
From S2P Require Import Matchers.
From S2P Require Import Strategy.
From S2P Require Import ForkChoice.
From S2P Require Import ChainState.

Record SupervisorConfig := mkSupervisorConfig {
  hasTracker : bool;
  validateLag : bool;
  syncingLag : Z;
  subChainMethods : gset string;
}.

Record Supervisor := mkSupervisor {
  sup_state : ChainSupervisorState;
  sup_fc : HeightForkChoice;
  upstreamStates : gmap string UpstreamState;
  lastOver : gmap string bool;
}.

(** What the supervisor does to the rest of the program. *)
Inductive Effect :=
| Publish (wrappers : list ChainSupervisorStateWrapper)
| TrackHeadLag (id : string) (lag : Z)
| TrackFinalizationLag (id : string) (lag : Z)
| PushHeadLag (id : string) (lag : Z)
| AvailabilityMetric (id : string) (status : AvailabilityStatus).

Definition NewGenericChainSupervisor : Supervisor :=
  mkSupervisor
    (mkChainState Available (NewChainHeadData ZeroBlock "") (NewChainMethods []) ∅ ∅ [] ∅ ∅)
    NewHeightForkChoice ∅ ∅.

Definition set_state (st : ChainSupervisorState) (b : Supervisor) : Supervisor :=
  mkSupervisor st (sup_fc b) (upstreamStates b) (lastOver b).
Definition set_upstreams (ups : gmap string UpstreamState) (b : Supervisor) : Supervisor :=
  mkSupervisor (sup_state b) (sup_fc b) ups (lastOver b).

Section Supervisor.
Context `{MR : MapRange} (cfg : SupervisorConfig).

(** [getUpstream]: whether the upstream supervisor knows the upstream now. *)
Context (known : string -> bool).

Definition availableUpstreams (b : Supervisor) : list UpstreamState :=
  filter (fun s => Status s = Available) (range (upstreamStates b)).*2.

Definition processSubMethods (caps : gset Cap) : gset string :=
  if bool_decide (WsCap ∈ caps) then
    if bool_decide ("eth_subscribe" ∈ subChainMethods cfg) then
      (subChainMethods cfg ∖ {["eth_subscribe"]}) ∪
      (if bool_decide (NewHeadsCap ∈ caps) then {["newHeads"]} else ∅) ∪
      (if bool_decide (LogsCap ∈ caps) then {["logs"]} else ∅) ∪
      (if bool_decide (PendingTxCap ∈ caps)
       then {["newPendingTransactions"; "drpc_pendingTransactions"]} else ∅)
    else subChainMethods cfg
  else ∅.

Definition processUpstreamStatuses (b : Supervisor) : AvailabilityStatus :=
  foldl (fun status s => if status_code (Status s) <? status_code status then Status s else status)
    Unavailable (range (upstreamStates b)).*2.

Definition finalization_lag (st : ChainSupervisorState) (s : UpstreamState) : Z :=
  match cs_Blocks st !! FinalizedBlock with
  | Some finalizationBlock =>
    if negb (IsEmptyByHeight finalizationBlock) then
      let upFinalized := BlockInfo_GetBlock (st_blocks s) FinalizedBlock in
      if negb (IsEmptyByHeight upFinalized) && (Height upFinalized <=? Height finalizationBlock)
      then Height finalizationBlock - Height upFinalized else 0
    else 0
  | None => 0
  end.

Definition calculateFinalizationLags (b : Supervisor) : list Effect :=
  if hasTracker cfg then
    map (fun '(id, s) => TrackFinalizationLag id (finalization_lag (sup_state b) s))
      (range (upstreamStates b))
  else [].

Definition head_lag (st : ChainSupervisorState) (s : UpstreamState) : Z :=
  if Height (HeadData s) <=? Height (Head (cs_HeadData st))
  then Height (Head (cs_HeadData st)) - Height (HeadData s) else 0.

(** One iteration of the loop of [calculateHeadLags]. *)
Definition head_lag_step (st : ChainSupervisorState) (acc : list Effect * gmap string bool)
    (kv : string * UpstreamState) : list Effect * gmap string bool :=
  let '(id, s) := kv in
  let '(effs, over_map) := acc in
  let headLag := head_lag st s in
  let effs := effs ++ (if hasTracker cfg then [TrackHeadLag id headLag] else []) in
  if validateLag cfg then
    let lag := i64 headLag in
    let over := LagExceeds lag (syncingLag cfg) in
    if negb (eqb (default false (over_map !! id)) over) && known id
    then (effs ++ [PushHeadLag id lag], <[id := over]> over_map)
    else (effs, over_map)
  else (effs, over_map).

Definition calculateHeadLags (b : Supervisor) : list Effect * Supervisor :=
  let '(effs, over_map) :=
    foldl (head_lag_step (sup_state b)) ([], lastOver b) (range (upstreamStates b)) in
  (effs, mkSupervisor (sup_state b) (sup_fc b) (upstreamStates b) over_map).

Definition updateHead (upstreamId : string) (headEvent : HeadUpdate) (b : Supervisor)
    : list Effect * Supervisor :=
  let st := sup_state b in
  let with_head hd := mkChainState (cs_Status st) hd (cs_Methods st) (cs_Blocks st)
    (cs_LowerBounds st) (cs_ChainLabels st) (cs_SubMethods st) (cs_Caps st) in
  let '(st', fc', effs) :=
    if negb (IsEmptyByHeight (hu_head headEvent)) then
      let '((updated, head), fc') := Choose upstreamId headEvent (sup_fc b) in
      if updated then
        let hd := NewChainHeadData head upstreamId in
        (with_head hd, fc',
         if ChainHeadData_IsEmpty hd then [] else [Publish [HeadWrapper (Head hd) upstreamId]])
      else (st, fc', [])
    else (with_head (NewChainHeadData ZeroBlock upstreamId), sup_fc b, []) in
  let '(lags, b') :=
    calculateHeadLags (mkSupervisor st' fc' (upstreamStates b) (lastOver b)) in
  (effs ++ lags, b').

Definition updateState (b : Supervisor) : list Effect * Supervisor :=
  let currentState := sup_state b in
  let ups := availableUpstreams b in
  let caps := processCaps ups in
  let newState := mkChainState (processUpstreamStatuses b) (cs_HeadData currentState)
    (processUpstreamMethods ups) (processUpstreamBlocks ups) (processLowerBounds ups)
    (processLabels ups) (processSubMethods caps) caps in
  let wrappers := Compare currentState newState in
  let b' := set_state newState b in
  ((if bool_decide (length wrappers = 0%nat) then [] else [Publish wrappers]) ++
   calculateFinalizationLags b', b').

(** The body of [processEvents] for one event. *)
Definition processEvent (event : UpstreamEvent) (b : Supervisor) : list Effect * Supervisor :=
  let id := event_id event in
  match EventType event with
  | RemoveUpstreamEvent =>
    match upstreamStates b !! id with
    | Some upState =>
      let b := mkSupervisor (sup_state b) (sup_fc b) (delete id (upstreamStates b))
                 (delete id (lastOver b)) in
      let '(e1, b) := updateState b in
      let '(e2, b) := updateHead id (mkHeadUpdate Unavailable (HeadData upState)) b in
      (e1 ++ e2, b)
    | None => ([], b)
    end
  | HeadUpstreamEvent status head =>
    let b := match upstreamStates b !! id with
             | Some upState => set_upstreams (<[id := set_HeadData head upState]> (upstreamStates b)) b
             | None => b
             end in
    updateHead id (mkHeadUpdate status head) b
  | StateUpstreamEvent s =>
    let '(e, b) := updateState (set_upstreams (<[id := s]> (upstreamStates b)) b) in
    (AvailabilityMetric id (Status s) :: e, b)
  | ValidUpstreamEvent (Some s) =>
    let '(e1, b) := updateState (set_upstreams (<[id := s]> (upstreamStates b)) b) in
    let '(e2, b) :=
      if IsEmptyByHeight (HeadData s) then ([], b)
      else updateHead id (mkHeadUpdate (Status s) (HeadData s)) b in
    (AvailabilityMetric id (Status s) :: e1 ++ e2, b)
  | ValidUpstreamEvent None => ([], b)
  end.

Definition run_events (evs : list UpstreamEvent) (b : Supervisor) : Supervisor :=
  foldl (fun b e => (processEvent e b).2) b evs.

(** ** What the rest of the program reads *)

Definition GetUpstreamState (b : Supervisor) (id : string) : option UpstreamState :=
  upstreamStates b !! id.

(** [slices.Sort] on strings. *)
Definition GetUpstreamIds (b : Supervisor) : list string :=
  stable_sort String.ltb (range (upstreamStates b)).*1.

(** [slices.SortFunc] with the caller's comparison; entries that compare equal
    come in the order of the map, which is arbitrary. *)
Definition GetSortedUpstreamIds (filterFunc : string -> UpstreamState -> bool)
    (sortFunc : string * UpstreamState -> string * UpstreamState -> Z) (b : Supervisor)
    : list string :=
  (stable_sort (fun x y => sortFunc x y <? 0)
     (filter (fun kv : string * UpstreamState => filterFunc kv.1 kv.2 = true)
        (range (upstreamStates b)))).*1.

Definition chain_GetMethodByName (b : Supervisor) (n : string) : option Method :=
  GetMethod (cs_Methods (sup_state b)) n.

Definition supervisor_view (b : Supervisor) : ChainView :=
  mkChainView (GetUpstreamIds b) (GetUpstreamState b).
End Supervisor.

(** ** The specification of the aggregate state *)

(** [cs] summarises the available upstreams among [ups]. *)
Record aggregates (cfg : SupervisorConfig) (ups : gmap string UpstreamState)
    (cs : ChainSupervisorState) : Prop := {
  agg_status_le : forall id s, ups !! id = Some s ->
    status_code (cs_Status cs) <= status_code (Status s);
  agg_status_ex : cs_Status cs = Unavailable \/ exists id s, ups !! id = Some s /\ Status s = cs_Status cs;
  agg_status_max : status_code (cs_Status cs) <= status_code Unavailable;
  agg_methods : forall n, n ∈ GetSupportedMethods (cs_Methods cs) <->
    exists id s, ups !! id = Some s /\ Status s = Available /\ n ∈ GetSupportedMethods (st_methods s);
  agg_caps : forall c, c ∈ cs_Caps cs <->
    exists id s, ups !! id = Some s /\ Status s = Available /\ c ∈ Caps s;
  agg_sub : cs_SubMethods cs = processSubMethods cfg (cs_Caps cs);
  agg_blocks : forall t, match cs_Blocks cs !! t with
    | None => forall id s, ups !! id = Some s -> Status s = Available -> blocks (st_blocks s) !! t = None
    | Some b =>
        (exists id s, ups !! id = Some s /\ Status s = Available /\ blocks (st_blocks s) !! t = Some b) /\
        forall id s b', ups !! id = Some s -> Status s = Available -> blocks (st_blocks s) !! t = Some b' ->
          Height b' <= Height b
    end;
  agg_bounds : forall t, match cs_LowerBounds cs !! t with
    | None => forall id s, ups !! id = Some s -> Status s = Available ->
        lowerBounds (st_lowerBounds s) !! t = None
    | Some d =>
        (exists id s, ups !! id = Some s /\ Status s = Available /\
           lowerBounds (st_lowerBounds s) !! t = Some d) /\
        forall id s d', ups !! id = Some s -> Status s = Available ->
          lowerBounds (st_lowerBounds s) !! t = Some d' -> Bound d <= Bound d'
    end;
  agg_labels_nodup : NoDup (map agg_Labels (cs_ChainLabels cs));
  agg_labels_amount : forall l, amount_of (cs_ChainLabels cs) l =
    if bool_decide (l = ∅) then 0
    else Z.of_nat (length (filter (fun s => Status s = Available /\ labels (st_labels s) = l)
           (map_to_list ups).*2));
}.

Section Aggregates.
Context `{MR : MapRange} (cfg : SupervisorConfig).

Definition upstreams_wf (ups : gmap string UpstreamState) : Prop :=
  forall id s, ups !! id = Some s -> LowerBoundInfo_wf (st_lowerBounds s).

Lemma elem_of_available b s :
  s ∈ availableUpstreams b <-> exists id, upstreamStates b !! id = Some s /\ Status s = Available.
Proof using MR cfg.
  unfold availableUpstreams. rewrite list_elem_of_filter, elem_of_range_values. naive_solver.
Qed.

Lemma statuses_argmin b :
  processUpstreamStatuses b =
  argmin status_code Unavailable (map Status (range (upstreamStates b)).*2).
Proof using MR cfg.
  unfold processUpstreamStatuses. generalize Unavailable.
  induction (range (upstreamStates b)).*2 as [|s l IH]; intros acc; simpl; [done|]. apply IH.
Qed.

Lemma elem_of_statuses b x :
  x ∈ map Status (range (upstreamStates b)).*2 <->
  exists id s, upstreamStates b !! id = Some s /\ Status s = x.
Proof using MR cfg.
  rewrite list_elem_of_fmap. setoid_rewrite elem_of_range_values. naive_solver.
Qed.

Lemma available_labels b l :
  length (filter (fun s => labels (st_labels s) = l) (availableUpstreams b)) =
  length (filter (fun s => Status s = Available /\ labels (st_labels s) = l)
    (map_to_list (upstreamStates b)).*2).
Proof using MR cfg.
  unfold availableUpstreams. rewrite list_filter_filter. apply Permutation_length.
  erewrite list_filter_iff; [by rewrite range_perm|]. naive_solver.
Qed.

Lemma updateState_upstreams b : upstreamStates (updateState cfg b).2 = upstreamStates b.
Proof using MR cfg. done. Qed.

(** [updateState] establishes the summary. *)
Lemma updateState_aggregates b :
  upstreams_wf (upstreamStates b) ->
  aggregates cfg (upstreamStates b) (sup_state (updateState cfg b).2).
Proof using MR cfg.
  intros Hwf. split; simpl.
  - intros id s Hs. rewrite statuses_argmin. apply argmin_le. apply elem_of_statuses. eauto.
  - rewrite statuses_argmin.
    destruct (argmin_elem status_code Unavailable (map Status (range (upstreamStates b)).*2))
      as [->|Hin]; [by left|right]. by apply elem_of_statuses.
  - rewrite statuses_argmin. etrans; [apply argmin_le_acc|done].
  - intros n. pose proof (chain_union (map st_methods (availableUpstreams b)) ∅ n) as Hu.
    simpl in Hu. rewrite Hu, elem_of_empty. clear Hu. setoid_rewrite list_elem_of_fmap.
    setoid_rewrite elem_of_available. naive_solver.
  - intros c. rewrite processCaps_spec. setoid_rewrite elem_of_available. naive_solver.
  - done.
  - intros t. pose proof (processUpstreamBlocks_best (availableUpstreams b) t) as Hb.
    destruct (processUpstreamBlocks (availableUpstreams b) !! t) as [blk|];
      setoid_rewrite elem_of_reported_blocks in Hb; setoid_rewrite elem_of_available in Hb.
    + destruct Hb as [(s & (id & Hs & Ha) & Hb) Hmin]. split; [by eauto 10|].
      intros id' s' b' Hs' Ha' Hb'. specialize (Hmin b'). simpl in Hmin. 
      enough (- Height blk <= - Height b') by lia. apply Hmin. eauto 10.
    + intros id s Hs Ha. destruct (blocks (st_blocks s) !! t) as [blk|] eqn:E; [|done].
      destruct (Hb blk). eauto 10.
  - intros t. pose proof (processLowerBounds_best (availableUpstreams b) t) as Hb.
    assert (forall s, s ∈ availableUpstreams b -> LowerBoundInfo_wf (st_lowerBounds s)) as Hwf'.
    { intros s [id [Hs _]]%elem_of_available. by eapply Hwf. }
    pose proof (fun t d => elem_of_reported_bounds _ t d Hwf') as Hrep.
    destruct (processLowerBounds (availableUpstreams b) !! t) as [d|];
      setoid_rewrite Hrep in Hb; setoid_rewrite elem_of_available in Hb.
    + destruct Hb as [(s & (id & Hs & Ha) & Hb) Hmin]. split; [by eauto 10|].
      intros id' s' d' Hs' Ha' Hd'. apply Hmin. eauto 10.
    + intros id s Hs Ha. destruct (lowerBounds (st_lowerBounds s) !! t) as [d|] eqn:E; [|done].
      destruct (Hb d). eauto 10.
  - apply (processLabels_spec _ ∅).
  - intros l. destruct (processLabels_spec (availableUpstreams b) l) as [_ ->].
    by rewrite available_labels.
Qed.
End Aggregates.

(** ** Head changes do not touch the summary *)

(** An upstream state without its head. *)
Definition headless (s : UpstreamState) : UpstreamState := set_HeadData ZeroBlock s.

Lemma headless_fields s s' :
  headless s = headless s' ->
  Status s = Status s' /\ st_methods s = st_methods s' /\ Caps s = Caps s' /\
  st_blocks s = st_blocks s' /\ st_lowerBounds s = st_lowerBounds s' /\ st_labels s = st_labels s'.
Proof. unfold headless, set_HeadData. by intros [=]. Qed.

Lemma headless_lookup (ups ups' : gmap string UpstreamState) id s :
  headless <$> ups = headless <$> ups' -> ups !! id = Some s ->
  exists s', ups' !! id = Some s' /\ headless s = headless s'.
Proof.
  intros E Hs. assert ((headless <$> ups') !! id = Some (headless s)) as Hl.
  { by rewrite <- E, lookup_fmap, Hs. }
  rewrite lookup_fmap in Hl. destruct (ups' !! id) as [s'|]; [|done]. injection Hl as Hl.
  exists s'. split; [done|]. by unfold headless, set_HeadData; f_equal.
Qed.

Lemma headless_count (P : UpstreamState -> Prop) `{forall s, Decision (P s)} ups ups' :
  (forall s, P s <-> P (headless s)) -> headless <$> ups = headless <$> ups' ->
  length (filter P (map_to_list (M := gmap string UpstreamState) ups).*2) =
  length (filter P (map_to_list (M := gmap string UpstreamState) ups').*2).
Proof.
  intros HP. assert (forall ups : gmap string UpstreamState,
    length (filter P (map_to_list ups).*2) = length (filter P (map_to_list (headless <$> ups)).*2)) as Hs.
  { clear -HP. intros ups. rewrite map_to_list_fmap, <- list_fmap_compose.
    change (snd ∘ prod_map id headless) with (headless ∘ (snd : string * UpstreamState -> _)).
    rewrite list_fmap_compose. generalize (map_to_list ups).*2. clear ups.
    induction l as [|s l IH]; [done|]. rewrite fmap_cons, !filter_cons.
    destruct (decide (P s)) as [Hp|Hp]; rewrite HP in Hp.
    - rewrite decide_True by done. simpl. by rewrite IH.
    - by rewrite decide_False by done. }
  intros E. by rewrite (Hs ups), (Hs ups'), E.
Qed.

Lemma aggregates_headless cfg ups ups' cs :
  headless <$> ups = headless <$> ups' -> aggregates cfg ups cs -> aggregates cfg ups' cs.
Proof.
  intros E [A1 A2 A3 A4 A5 A6 A7 A8 A9 A10]. pose proof (eq_sym E) as E'.
  assert (forall id s, ups' !! id = Some s -> exists s', ups !! id = Some s' /\
    Status s' = Status s /\ st_methods s' = st_methods s /\ Caps s' = Caps s /\
    st_blocks s' = st_blocks s /\ st_lowerBounds s' = st_lowerBounds s) as Hback.
  { intros id s Hs. destruct (headless_lookup _ _ _ _ E' Hs) as (s' & Hs' & Hh).
    apply headless_fields in Hh. exists s'. naive_solver. }
  assert (forall id s, ups !! id = Some s -> exists s', ups' !! id = Some s' /\
    Status s' = Status s /\ st_methods s' = st_methods s /\ Caps s' = Caps s /\
    st_blocks s' = st_blocks s /\ st_lowerBounds s' = st_lowerBounds s) as Hforw.
  { intros id s Hs. destruct (headless_lookup _ _ _ _ E Hs) as (s' & Hs' & Hh).
    apply headless_fields in Hh. exists s'. naive_solver. }
  clear E'. split.
  - intros id s (s' & Hs' & <- & _)%Hback. by eapply A1.
  - destruct A2 as [?|(id & s & (s' & Hs' & Es & _)%Hforw & <-)]; [by left|right; eauto].
  - done.
  - intros n. rewrite A4. split.
    + intros (id & s & (s' & Hs' & Es & Em & _)%Hforw & Ha & Hn). exists id, s'.
      rewrite Es, Em. done.
    + intros (id & s & (s' & Hs' & Es & Em & _)%Hback & Ha & Hn). exists id, s'.
      rewrite Es, Em. done.
  - intros c. rewrite A5. split.
    + intros (id & s & (s' & Hs' & Es & _ & Ec & _)%Hforw & Ha & Hn). exists id, s'.
      rewrite Es, Ec. done.
    + intros (id & s & (s' & Hs' & Es & _ & Ec & _)%Hback & Ha & Hn). exists id, s'.
      rewrite Es, Ec. done.
  - done.
  - intros t. specialize (A7 t). destruct (cs_Blocks cs !! t) as [b|].
    + destruct A7 as [(id & s & (s' & Hs' & Es & _ & _ & Eb & _)%Hforw & Ha & Hb) Hmax]. split.
      * exists id, s'. rewrite Es, Eb. done.
      * intros id' s2 b' (s3 & Hs3 & <- & _ & _ & <- & _)%Hback. by eapply Hmax.
    + intros id s (s' & Hs' & <- & _ & _ & <- & _)%Hback. by eapply A7.
  - intros t. specialize (A8 t). destruct (cs_LowerBounds cs !! t) as [d|].
    + destruct A8 as [(id & s & (s' & Hs' & Es & _ & _ & _ & El)%Hforw & Ha & Hb) Hmin]. split.
      * exists id, s'. rewrite Es, El. done.
      * intros id' s2 b' (s3 & Hs3 & <- & _ & _ & _ & <-)%Hback. by eapply Hmin.
    + intros id s (s' & Hs' & <- & _ & _ & _ & <-)%Hback. by eapply A8.
  - done.
  - intros l. rewrite A10. case_bool_decide; [done|]. f_equal. by apply headless_count.
Qed.

(** [cs] and [cs'] differ at most in the head. *)
Definition same_summary (cs cs' : ChainSupervisorState) : Prop :=
  cs_Status cs = cs_Status cs' /\ cs_Methods cs = cs_Methods cs' /\ cs_Blocks cs = cs_Blocks cs' /\
  cs_LowerBounds cs = cs_LowerBounds cs' /\ cs_ChainLabels cs = cs_ChainLabels cs' /\
  cs_SubMethods cs = cs_SubMethods cs' /\ cs_Caps cs = cs_Caps cs'.

Lemma aggregates_summary cfg ups cs cs' :
  same_summary cs cs' -> aggregates cfg ups cs -> aggregates cfg ups cs'.
Proof.
  intros (E1 & E2 & E3 & E4 & E5 & E6 & E7) [A1 A2 A3 A4 A5 A6 A7 A8 A9 A10].
  split; rewrite <- ?E1, <- ?E2, <- ?E3, <- ?E4, <- ?E5, <- ?E6, <- ?E7; done.
Qed.

Section Events.
Context `{MR : MapRange} (cfg : SupervisorConfig) (known : string -> bool).

Lemma calculateHeadLags_frame b effs b' :
  calculateHeadLags cfg known b = (effs, b') ->
  sup_state b' = sup_state b /\ sup_fc b' = sup_fc b /\ upstreamStates b' = upstreamStates b.
Proof using Type. unfold calculateHeadLags. destruct (foldl _ _ _). by intros [= <- <-]. Qed.

Lemma updateHead_frame id ev b :
  let b' := (updateHead cfg known id ev b).2 in
  upstreamStates b' = upstreamStates b /\ same_summary (sup_state b) (sup_state b').
Proof using Type.
  unfold updateHead, same_summary. destruct (negb (IsEmptyByHeight (hu_head ev))).
  1: destruct (Choose id ev (sup_fc b)) as [[[] head] fc'].
  all: destruct (calculateHeadLags cfg known _) as [lags b'] eqn:E;
    apply calculateHeadLags_frame in E as (Hs & _ & Hu); simpl in *; by rewrite Hs.
Qed.

(** The event registers the upstream. *)
Definition registers (e : UpstreamEvent) : bool :=
  match EventType e with
  | StateUpstreamEvent _ | ValidUpstreamEvent (Some _) => true
  | _ => false
  end.

Definition event_wf (e : UpstreamEvent) : Prop :=
  match EventType e with
  | StateUpstreamEvent s | ValidUpstreamEvent (Some s) => LowerBoundInfo_wf (st_lowerBounds s)
  | _ => True
  end.

(** Before any upstream is registered there is none; afterwards the state is
    the summary of the upstreams. *)
Definition sup_ok (touched : bool) (b : Supervisor) : Prop :=
  upstreams_wf (upstreamStates b) /\
  if touched then aggregates cfg (upstreamStates b) (sup_state b) else upstreamStates b = ∅.

Lemma updateHead_ok touched id ev b :
  sup_ok touched b -> sup_ok touched (updateHead cfg known id ev b).2.
Proof using Type.
  intros [Hwf Hok]. destruct (updateHead_frame id ev b) as [Hu Hs]. unfold sup_ok. rewrite Hu.
  split; [done|]. destruct touched; [|done]. by eapply aggregates_summary.
Qed.

Lemma updateState_ok b :
  upstreams_wf (upstreamStates b) -> sup_ok true (updateState cfg b).2.
Proof using Type.
  intros Hwf. split; [done|]. rewrite updateState_upstreams. by apply updateState_aggregates.
Qed.

Lemma upstreams_wf_insert id s ups :
  LowerBoundInfo_wf (st_lowerBounds s) -> upstreams_wf ups -> upstreams_wf (<[id := s]> ups).
Proof using Type.
  intros Hs Hwf id' s'. rewrite lookup_insert. case_decide; [by intros [= <-]|apply Hwf].
Qed.

Lemma upstreams_wf_delete id ups : upstreams_wf ups -> upstreams_wf (delete id ups).
Proof using Type.
  intros Hwf id' s'. rewrite lookup_delete. case_decide; [done|apply Hwf].
Qed.

Lemma set_head_ok touched id s h b :
  upstreamStates b !! id = Some s -> sup_ok touched b ->
  sup_ok touched (set_upstreams (<[id := set_HeadData h s]> (upstreamStates b)) b).
Proof using Type.
  intros Hs [Hwf Hok]. split.
  - apply upstreams_wf_insert; [|done]. exact (Hwf id s Hs).
  - destruct touched; simpl; [|by rewrite Hok, lookup_empty in Hs].
    eapply aggregates_headless; [|done]. rewrite fmap_insert, insert_id; [done|].
    by rewrite lookup_fmap, Hs.
Qed.

Lemma processEvent_ok touched e b :
  event_wf e -> sup_ok touched b -> sup_ok (touched || registers e) (processEvent cfg known e b).2.
Proof using Type.
  intros He Hok. unfold processEvent, registers, event_wf in *.
  destruct (EventType e) as [s|status head| |[s|]]; rewrite ?orb_false_r, ?orb_true_r.
  - destruct (updateState cfg _) as [eff b'] eqn:E. simpl.
    replace b' with (updateState cfg (set_upstreams (<[event_id e := s]> (upstreamStates b)) b)).2
      by (by rewrite E).
    apply updateState_ok, upstreams_wf_insert; [done|apply Hok].
  - apply updateHead_ok. destruct (upstreamStates b !! event_id e) eqn:Es; [|done].
    by apply set_head_ok.
  - destruct (upstreamStates b !! event_id e) as [s|] eqn:Es; [|done].
    assert (touched = true) as ->.
    { destruct touched; [done|]. destruct Hok as [_ Hem]. by rewrite Hem, lookup_empty in Es. }
    set (b1 := mkSupervisor _ _ _ _).
    pose proof (updateState_ok b1 (upstreams_wf_delete _ _ (proj1 Hok))) as H1.
    destruct (updateState cfg b1) as [e1 b2]. simpl in H1.
    pose proof (updateHead_ok true (event_id e) (mkHeadUpdate Unavailable (HeadData s)) b2 H1) as H2.
    by destruct (updateHead cfg known _ _ b2) as [e2 b3].
  - set (b1 := set_upstreams _ _).
    pose proof (updateState_ok b1 (upstreams_wf_insert _ _ _ He (proj1 Hok))) as H1.
    destruct (updateState cfg b1) as [e1 b2]. simpl in H1.
    destruct (IsEmptyByHeight (HeadData s)); [done|].
    pose proof (updateHead_ok true (event_id e) (mkHeadUpdate (Status s) (HeadData s)) b2 H1) as H2.
    by destruct (updateHead cfg known _ _ b2) as [e2 b3].
  - done.
Qed.

Lemma run_events_ok evs touched b :
  Forall event_wf evs -> sup_ok touched b ->
  sup_ok (touched || existsb registers evs) (run_events cfg known evs b).
Proof using Type.
  intros Hwf. revert touched b. induction Hwf as [|e evs He _ IH]; intros touched b Hok; simpl.
  - by rewrite orb_false_r.
  - rewrite orb_assoc. apply IH. by apply processEvent_ok.
Qed.
End Events.

(** C6. Once an upstream was registered, the aggregate state of a chain is, after
    every further event, the summary of the upstreams it holds: the best status,
    the union of methods and capabilities, the subscription methods these
    allow, the highest safe and finalized blocks, the smallest lower bounds and
    the count of each set of labels, over the available upstreams. *)
Theorem chain_state_aggregates `{MapRange} cfg known evs :
  Forall event_wf evs -> existsb registers evs = true ->
  let b := run_events cfg known evs NewGenericChainSupervisor in
  aggregates cfg (upstreamStates b) (sup_state b).
Proof.
  intros Hwf Hreg b. pose proof (run_events_ok cfg known evs false NewGenericChainSupervisor Hwf) as Hok.
  rewrite Hreg in Hok. apply Hok. split; [|done]. intros id s. simpl. by rewrite lookup_empty.
Qed.

Definition demo_cfg : SupervisorConfig := mkSupervisorConfig true true 5 {["eth_subscribe"]}.

Definition demo_events : list UpstreamEvent :=
  [mkUpstreamEvent "up1" (StateUpstreamEvent (set_HeadData ZeroBlock demo_state));
   mkUpstreamEvent "up1" (HeadUpstreamEvent Available (mkBlock 100 0 [] [] []))].

#[local] Existing Instance Prelude.default_range.

Lemma chain_state_aggregates_witness :
  let b := run_events demo_cfg (fun _ => true) demo_events NewGenericChainSupervisor in
  aggregates demo_cfg (upstreamStates b) (sup_state b) /\
  cs_Status (sup_state b) = Available /\ Height (Head (cs_HeadData (sup_state b))) = 100.
Proof.
  intros b. split; [|by vm_compute].
  apply (chain_state_aggregates demo_cfg (fun _ => true) demo_events); [|done].
  assert (LowerBoundInfo_wf (st_lowerBounds demo_state)) as Hwf by done.
  repeat constructor; done.
Defined.
