(* ===== verification/StatusStream.v ===== *)
(** The stream of chain states to gRPC clients
    ([internal/server/emerald/chain_event_mapper.go], [sub_chain_status.go]): the
    events a state and its changes are translated into, when they are sent, and
    what a client that follows the stream knows of the chain. *)

From S2P Require Import Prelude.
From S2P Require Import GoStrings.
From S2P Require Import Protocol.
From S2P Require Import HashIds.
From S2P Require Import Specs.
From S2P Require Import Methods.
From S2P Require Import UpstreamState.
From S2P Require Import Matchers.
From S2P Require Import Strategy.
From S2P Require Import ForkChoice.
From S2P Require Import ChainState.
From S2P Require Import ChainSupervisor.

(** ** Messages

    Enumerations are their numbers. *)

Record LowerBoundMsg := mkLowerBoundMsg { LowerBoundTimestamp : Z; LowerBoundValue : Z; LowerBoundType_ : Z }.
Record HeadMsg := mkHeadMsg { hm_Height : Z; hm_BlockId : string; hm_Slot : Z; hm_ParentBlockId : string }.
Record NodeDetails := mkNodeDetails { nd_Quorum : Z; nd_Labels : list (string * string) }.

(** A finalization is a height and the type of the block. *)
Inductive ChainEvent :=
| SupportedSubscriptionsEvent (subs : list string)
| NodesEvent (nodes : list NodeDetails)
| ChainStatusEvent (availability : Z)
| SupportedMethodsEvent (methods : list string)
| LowerBoundsEvent (lowerBounds : list LowerBoundMsg)
| FinalizationDataEvent (data : list (Z * Z))
| HeadEvent_ (head : HeadMsg).

(** [None] is the nil event of a list. *)
Record StatusResponse := mkStatusResponse {
  sr_Chain : Z;
  sr_ChainEvent : list (option ChainEvent);
  sr_FullResponse : bool;
}.

(** ** Translation *)

Definition availabilityStatusToApi (status : AvailabilityStatus) : Z :=
  match status with Available => 1 | Unavailable => 5 | Immature => 3 | Syncing => 4 | UnknownStatus => 0 end.

Definition blockTypeToApi (t : BlockType) : Z := match t with FinalizedBlock => 2 | SafeBlock => 1 end.

Definition lowerBoundTypeToApi (t : LowerBoundType) : Z :=
  match t with
  | TxBound => 4 | SlotBound => 1 | StateBound => 2 | ReceiptsBound => 10 | BlockBound => 3 | LogsBound => 5
  | TraceBound => 6 | ProofBound => 7 | EpochBound => 9 | BlobBound => 8 | UnknownBound => 0
  end.

Definition u32 (z : Z) : Z := z `mod` 2 ^ 32.

Section Api.
Context `{MR : MapRange}.

Definition node_details (item : AggregatedLabels) : NodeDetails := mkNodeDetails (u32 (Amount item)) (range (agg_Labels item)).

Definition LabelsToApi (labels : list AggregatedLabels) : ChainEvent := NodesEvent (map node_details labels).

Definition bound_msg (item : LowerBoundData) : LowerBoundMsg :=
  mkLowerBoundMsg (u64 (Timestamp item)) (u64 (Bound item)) (lowerBoundTypeToApi (BoundType item)).

Definition LowerBoundsToApi (lowerBounds : list LowerBoundData) : ChainEvent := LowerBoundsEvent (map bound_msg lowerBounds).

Definition BlocksToApi (blocks : gmap BlockType Block) : ChainEvent :=
  FinalizationDataEvent (map (fun kv => (Height kv.2, blockTypeToApi kv.1)) (range blocks)).

(** A block is never its own parent. *)
Definition head_msg (head : Block) : HeadMsg :=
  let blockId := ToHex (Hash head) in
  let parentBlockId := ToHex (ParentHash head) in
  mkHeadMsg (Height head) blockId (Slot head) (if bool_decide (parentBlockId = blockId) then "" else parentBlockId).

Definition HeadToApi (head : Block) : ChainEvent := HeadEvent_ (head_msg head).

(** The switch has no case for capabilities. *)
Definition wrapperToApi (wrapper : ChainSupervisorStateWrapper) : option ChainEvent :=
  match wrapper with
  | HeadWrapper head _ => Some (HeadToApi head)
  | BlocksWrapper blocks => Some (BlocksToApi blocks)
  | MethodsWrapper methods => Some (SupportedMethodsEvent methods)
  | StatusWrapper status => Some (ChainStatusEvent (availabilityStatusToApi status))
  | LowerBoundsWrapper lowerBounds => Some (LowerBoundsToApi lowerBounds)
  | LabelsWrapper labels => Some (LabelsToApi labels)
  | SubMethodsWrapper subMethods => Some (SupportedSubscriptionsEvent subMethods)
  | CapsWrapper _ => None
  end.

Definition stateWrappersToResponse (grpcId : Z) (wrappers : list ChainSupervisorStateWrapper) : StatusResponse :=
  mkStatusResponse grpcId (map wrapperToApi wrappers) false.

(** Everything but the head. *)
Definition snapshotStateWrappers (state : ChainSupervisorState) : list ChainSupervisorStateWrapper :=
  [StatusWrapper (cs_Status state);
   MethodsWrapper (elements (GetSupportedMethods (cs_Methods state)));
   LowerBoundsWrapper (range (cs_LowerBounds state)).*2;
   BlocksWrapper (cs_Blocks state);
   SubMethodsWrapper (elements (cs_SubMethods state));
   LabelsWrapper (cs_ChainLabels state)].

Definition toFullResponse (grpcId : Z) (state : ChainSupervisorState) : StatusResponse :=
  mkStatusResponse grpcId
    [Some (ChainStatusEvent (availabilityStatusToApi (cs_Status state)));
     Some (SupportedMethodsEvent (elements (GetSupportedMethods (cs_Methods state))));
     Some (LowerBoundsToApi (range (cs_LowerBounds state)).*2);
     Some (HeadToApi (Head (cs_HeadData state)));
     Some (BlocksToApi (cs_Blocks state));
     Some (SupportedSubscriptionsEvent (elements (cs_SubMethods state)));
     Some (LabelsToApi (cs_ChainLabels state))] true.

(** ** The goroutine of a chain

    [fullSent] and what it sends; each time it reads the chain's state. *)

Definition stream_start (grpcId : Z) (state : ChainSupervisorState) : list StatusResponse * bool :=
  if ChainHeadData_IsEmpty (cs_HeadData state) then ([], false) else ([toFullResponse grpcId state], true).

Definition stream_tick (grpcId : Z) (state : ChainSupervisorState) (fullSent : bool) : list StatusResponse :=
  if fullSent then [stateWrappersToResponse grpcId (snapshotStateWrappers state)] else [].

Definition stream_event (grpcId : Z) (wrappers : list ChainSupervisorStateWrapper) (state : ChainSupervisorState)
    (fullSent : bool) : list StatusResponse * bool :=
  if bool_decide (wrappers = []) then ([], fullSent)
  else if fullSent then ([stateWrappersToResponse grpcId wrappers], true)
  else if ChainHeadData_IsEmpty (cs_HeadData state) then ([], false)
  else ([toFullResponse grpcId state], true).

(** ** A client

    What a client knows of a chain after the events it was sent.  A client makes
    its object for the chain from a full response and takes only the head of any
    later response that has one, as the comments of the source say. *)

Record View := mkView {
  v_status : Z;
  v_methods : gset string;
  v_bounds : gmap Z (Z * Z);
  v_blocks : gmap Z Z;
  v_subs : gset string;
  v_nodes : list (Z * gmap string string);
  v_head : HeadMsg;
}.

Definition node_view (n : NodeDetails) : Z * gmap string string := (nd_Quorum n, list_to_map (nd_Labels n)).

Definition apply_event (v : View) (e : option ChainEvent) : View :=
  match e with
  | None => v
  | Some (ChainStatusEvent a) => mkView a (v_methods v) (v_bounds v) (v_blocks v) (v_subs v) (v_nodes v) (v_head v)
  | Some (SupportedMethodsEvent l) =>
    mkView (v_status v) (list_to_set l) (v_bounds v) (v_blocks v) (v_subs v) (v_nodes v) (v_head v)
  | Some (LowerBoundsEvent l) =>
    mkView (v_status v) (v_methods v)
      (list_to_map (map (fun b => (LowerBoundType_ b, (LowerBoundValue b, LowerBoundTimestamp b))) l))
      (v_blocks v) (v_subs v) (v_nodes v) (v_head v)
  | Some (FinalizationDataEvent l) =>
    mkView (v_status v) (v_methods v) (v_bounds v) (list_to_map (map (fun d => (d.2, d.1)) l)) (v_subs v) (v_nodes v) (v_head v)
  | Some (SupportedSubscriptionsEvent l) =>
    mkView (v_status v) (v_methods v) (v_bounds v) (v_blocks v) (list_to_set l) (v_nodes v) (v_head v)
  | Some (NodesEvent l) =>
    mkView (v_status v) (v_methods v) (v_bounds v) (v_blocks v) (v_subs v) (map node_view l) (v_head v)
  | Some (HeadEvent_ h) => mkView (v_status v) (v_methods v) (v_bounds v) (v_blocks v) (v_subs v) (v_nodes v) h
  end.

Definition new_view : View := mkView 0 ∅ ∅ ∅ ∅ [] (mkHeadMsg 0 "" 0 "").

Definition is_head (e : option ChainEvent) : bool := match e with Some (HeadEvent_ _) => true | _ => false end.

Definition client_step (v : option View) (r : StatusResponse) : option View :=
  match v with
  | None => if sr_FullResponse r then Some (foldl apply_event new_view (sr_ChainEvent r)) else None
  | Some v =>
    let events := sr_ChainEvent r in
    Some (foldl apply_event v (if existsb is_head events then List.filter is_head events else events))
  end.
End Api.

(** ** The chain, the stream and a client together *)

Definition published (effs : list Effect) : list (list ChainSupervisorStateWrapper) :=
  omap (fun e => match e with Publish ws => Some ws | _ => None end) effs.

(** [queue] is the channel of the subscription.  [restFresh] and [headFresh] tell
    whether no change was lost that has not been made good since. *)
Record StatusSystem := mkStatusSystem {
  chain : Supervisor;
  queue : list (list ChainSupervisorStateWrapper);
  started : bool;
  fullSent : bool;
  client : option View;
  restFresh : bool;
  headFresh : bool;
}.

(** The chain's loop changes the upstreams, its state or its head, and publishes
    what changed, which is lost if the channel is full; the goroutine starts, takes
    an event or resends the state. *)
Inductive status_action :=
| ChangeUpstreams (ups : gmap string UpstreamState)
| ChangeState (lost : bool)
| ChangeHead (upstreamId : string) (headEvent : HeadUpdate) (lost : bool)
| StreamStarts
| StreamTakes
| StreamTicks.

Section System.
Context `{MR : MapRange} (cfg : SupervisorConfig) (known : string -> bool) (grpcId : Z).

Definition receive (rs : list StatusResponse) (v : option View) : option View := foldl client_step v rs.

Definition publish_all (effs : list Effect) (b : Supervisor) (lost head : bool) (y : StatusSystem) : StatusSystem :=
  let ws := published effs in
  mkStatusSystem b (if lost then queue y else queue y ++ ws) (started y) (fullSent y) (client y)
    (if head then restFresh y else restFresh y && (negb lost || bool_decide (ws = [])))
    (if head then if bool_decide (ws = []) then headFresh y else negb lost else headFresh y).

Definition status_step (a : status_action) (y : StatusSystem) : option StatusSystem :=
  match a with
  | ChangeUpstreams ups =>
    Some (mkStatusSystem (set_upstreams ups (chain y)) (queue y) (started y) (fullSent y) (client y) (restFresh y) (headFresh y))
  | ChangeState lost => let '(effs, b) := updateState cfg (chain y) in Some (publish_all effs b lost false y)
  | ChangeHead id hu lost => let '(effs, b) := updateHead cfg known id hu (chain y) in Some (publish_all effs b lost true y)
  | StreamStarts =>
    if started y then None
    else let '(rs, full) := stream_start grpcId (sup_state (chain y)) in
         Some (mkStatusSystem (chain y) (queue y) true full (receive rs (client y)) (restFresh y) (headFresh y))
  | StreamTakes =>
    match queue y with
    | ws :: rest =>
      if started y
      then let '(rs, full) := stream_event grpcId ws (sup_state (chain y)) (fullSent y) in
           Some (mkStatusSystem (chain y) rest true full (receive rs (client y)) (restFresh y) (headFresh y))
      else None
    | [] => None
    end
  | StreamTicks =>
    if started y
    then Some (mkStatusSystem (chain y) (queue y) true (fullSent y)
                 (receive (stream_tick grpcId (sup_state (chain y)) (fullSent y)) (client y))
                 (restFresh y || (fullSent y && bool_decide (queue y = []))) (headFresh y))
    else None
  end.

Fixpoint status_steps (l : list status_action) (y : StatusSystem) : option StatusSystem :=
  match l with [] => Some y | a :: l => y ← status_step a y; status_steps l y end.

Definition new_status_system (b : Supervisor) : StatusSystem := mkStatusSystem b [] false false None true true.

(** ** What the events say of each component *)

Definition ev_status (e : option ChainEvent) : option Z := match e with Some (ChainStatusEvent a) => Some a | _ => None end.
Definition ev_methods (e : option ChainEvent) : option (gset string) :=
  match e with Some (SupportedMethodsEvent l) => Some (list_to_set l) | _ => None end.
Definition ev_bounds (e : option ChainEvent) : option (gmap Z (Z * Z)) :=
  match e with
  | Some (LowerBoundsEvent l) => Some (list_to_map (map (fun b => (LowerBoundType_ b, (LowerBoundValue b, LowerBoundTimestamp b))) l))
  | _ => None
  end.
Definition ev_blocks (e : option ChainEvent) : option (gmap Z Z) :=
  match e with Some (FinalizationDataEvent l) => Some (list_to_map (map (fun d => (d.2, d.1)) l)) | _ => None end.
Definition ev_subs (e : option ChainEvent) : option (gset string) :=
  match e with Some (SupportedSubscriptionsEvent l) => Some (list_to_set l) | _ => None end.
Definition ev_nodes (e : option ChainEvent) : option (list (Z * gmap string string)) :=
  match e with Some (NodesEvent l) => Some (map node_view l) | _ => None end.
Definition ev_head (e : option ChainEvent) : option HeadMsg := match e with Some (HeadEvent_ h) => Some h | _ => None end.

Lemma fold_component {A} (p : View -> A) (g : option ChainEvent -> option A) :
  (forall v e, p (apply_event v e) = default (p v) (g e)) ->
  forall es v, p (foldl apply_event v es) = default (p v) (last (omap g es)).
Proof using Type.
  intros Hp es v. induction es as [|e es IH] using rev_ind; [done|].
  rewrite foldl_snoc, Hp, omap_app, last_app, IH. simpl. by destruct (g e).
Qed.

Lemma apply_status v e : v_status (apply_event v e) = default (v_status v) (ev_status e).
Proof using Type. by destruct e as [[]|]. Qed.
Lemma apply_methods v e : v_methods (apply_event v e) = default (v_methods v) (ev_methods e).
Proof using Type. by destruct e as [[]|]. Qed.
Lemma apply_bounds v e : v_bounds (apply_event v e) = default (v_bounds v) (ev_bounds e).
Proof using Type. by destruct e as [[]|]. Qed.
Lemma apply_blocks v e : v_blocks (apply_event v e) = default (v_blocks v) (ev_blocks e).
Proof using Type. by destruct e as [[]|]. Qed.
Lemma apply_subs v e : v_subs (apply_event v e) = default (v_subs v) (ev_subs e).
Proof using Type. by destruct e as [[]|]. Qed.
Lemma apply_nodes v e : v_nodes (apply_event v e) = default (v_nodes v) (ev_nodes e).
Proof using Type. by destruct e as [[]|]. Qed.
Lemma apply_head v e : v_head (apply_event v e) = default (v_head v) (ev_head e).
Proof using Type. by destruct e as [[]|]. Qed.

(** ** Views that agree with a state *)

Definition bounds_view (st : ChainSupervisorState) : gmap Z (Z * Z) :=
  default ∅ (ev_bounds (Some (LowerBoundsToApi (range (cs_LowerBounds st)).*2))).
Definition blocks_view (blocks : gmap BlockType Block) : gmap Z Z := default ∅ (ev_blocks (Some (BlocksToApi blocks))).
Definition nodes_view (labels : list AggregatedLabels) : list (Z * gmap string string) :=
  map (fun item => node_view (node_details item)) labels.

(** The nodes are those of the state up to their order, as far as the chain tells
    apart its lists of labels. *)
Definition nodes_agree (n : list (Z * gmap string string)) (labels : list AggregatedLabels) : Prop :=
  exists l, n = nodes_view l /\ CompareAggregatedLabels l labels = true.

(** Everything but the head. *)
Record agrees (v : View) (st : ChainSupervisorState) : Prop := mkAgrees {
  ag_status : v_status v = availabilityStatusToApi (cs_Status st);
  ag_methods : v_methods v = GetSupportedMethods (cs_Methods st);
  ag_bounds : v_bounds v = bounds_view st;
  ag_blocks : v_blocks v = blocks_view (cs_Blocks st);
  ag_subs : v_subs v = cs_SubMethods st;
  ag_nodes : nodes_agree (v_nodes v) (cs_ChainLabels st);
}.

Lemma AggregatedLabels_Equals_trans a b c :
  AggregatedLabels_Equals a b = true -> AggregatedLabels_Equals b c = true -> AggregatedLabels_Equals a c = true.
Proof using Type. unfold AggregatedLabels_Equals. intros H1 H2. reflect_bool. rewrite H1, H, H2, H0. by rewrite Z.eqb_refl, bool_decide_eq_true_2. Qed.

Lemma CompareAggregatedLabels_spec a b : CompareAggregatedLabels a b = true <->
  length a = length b /\ forall x, x ∈ a -> exists y, y ∈ b /\ AggregatedLabels_Equals y x = true.
Proof using Type.
  unfold CompareAggregatedLabels. rewrite andb_true_iff, bool_decide_eq_true, forallb_forall. apply and_iff_compat_l.
  setoid_rewrite existsb_exists. by setoid_rewrite <- list_elem_of_In.
Qed.

Lemma CompareAggregatedLabels_refl a : CompareAggregatedLabels a a = true.
Proof using Type.
  apply CompareAggregatedLabels_spec. split; [done|]. intros x Hx. exists x. split; [done|].
  unfold AggregatedLabels_Equals. by rewrite Z.eqb_refl, bool_decide_eq_true_2.
Qed.

Lemma CompareAggregatedLabels_trans a b c :
  CompareAggregatedLabels a b = true -> CompareAggregatedLabels b c = true -> CompareAggregatedLabels a c = true.
Proof using Type.
  rewrite !CompareAggregatedLabels_spec. intros [H1 H2] [H3 H4]. split; [congruence|].
  intros x (y & Hy & E1)%H2. destruct (H4 y Hy) as (z & Hz & E2). exists z. split; [done|].
  by eapply AggregatedLabels_Equals_trans.
Qed.

#[local] Instance blockTypeToApi_inj : Inj (=) (=) blockTypeToApi.
Proof using Type. by intros [] []. Qed.

Lemma blocks_view_kmap m : blocks_view m = kmap blockTypeToApi (Height <$> m).
Proof using Type.
  unfold blocks_view, BlocksToApi, kmap. simpl. rewrite map_to_list_fmap. rewrite map_map.
  rewrite <- list_fmap_compose. apply list_to_map_proper.
  - rewrite <- list_fmap_compose. simpl.
    change (NoDup ((blockTypeToApi ∘ fst) <$> range m)). rewrite list_fmap_compose. apply (NoDup_fmap_2 _). rewrite range_perm. apply NoDup_fst_map_to_list.
  - rewrite (Permutation_map _ (range_perm m)). match goal with |- ?l ≡ₚ ?r => enough (l = r) as -> by done end.
    apply list_fmap_ext. by intros i [].
Qed.

Lemma blocks_equal_view a b : blocks_equal a b = true -> blocks_view a = blocks_view b.
Proof using Type.
  unfold blocks_equal. rewrite andb_true_iff, bool_decide_eq_true, forallb_forall. intros [Hs Hf].
  rewrite !blocks_view_kmap. f_equal. apply map_subseteq_size_eq; [|by rewrite !map_size_fmap, Hs].
  apply map_subseteq_spec. intros t h. rewrite !lookup_fmap, fmap_Some. intros (x & Hx & ->).
  specialize (Hf (t, x)). rewrite <- list_elem_of_In, elem_of_map_to_list in Hf. specialize (Hf Hx). simpl in Hf.
  destruct (b !! t) as [y|]; [|done]. unfold Block_Equals in Hf. reflect_bool. simpl. congruence.
Qed.

(** ** What keeps a view in agreement *)

(** Events after which a view agrees with a state bring any view that agrees with it
    back to one that agrees. *)
Lemma agrees_later v v' es st : agrees (foldl apply_event v es) st -> agrees v' st -> agrees (foldl apply_event v' es) st.
Proof using Type.
  intros [H1 H2 H3 H4 H5 H6] [G1 G2 G3 G4 G5 G6].
  rewrite (fold_component _ _ apply_status) in H1. rewrite (fold_component _ _ apply_methods) in H2.
  rewrite (fold_component _ _ apply_bounds) in H3. rewrite (fold_component _ _ apply_blocks) in H4.
  rewrite (fold_component _ _ apply_subs) in H5. rewrite (fold_component _ _ apply_nodes) in H6.
  split.
  - rewrite (fold_component _ _ apply_status). revert H1. by destruct (last (omap ev_status es)).
  - rewrite (fold_component _ _ apply_methods). revert H2. by destruct (last (omap ev_methods es)).
  - rewrite (fold_component _ _ apply_bounds). revert H3. by destruct (last (omap ev_bounds es)).
  - rewrite (fold_component _ _ apply_blocks). revert H4. by destruct (last (omap ev_blocks es)).
  - rewrite (fold_component _ _ apply_subs). revert H5. by destruct (last (omap ev_subs es)).
  - rewrite (fold_component _ _ apply_nodes). revert H6. by destruct (last (omap ev_nodes es)).
Qed.

Lemma list_to_set_elements (X : gset string) : list_to_set (elements X) = X.
Proof using Type. apply leibniz_equiv, list_to_set_elements. Qed.

Lemma snapshot_agrees v st : agrees (foldl apply_event v (map wrapperToApi (snapshotStateWrappers st))) st.
Proof using Type.
  split; simpl; rewrite ?list_to_set_elements; try done.
  exists (cs_ChainLabels st). split; [unfold nodes_view; by rewrite map_map|apply CompareAggregatedLabels_refl].
Qed.

Lemma full_agrees v st : let w := foldl apply_event v (sr_ChainEvent (toFullResponse grpcId st)) in
  agrees w st /\ v_head w = head_msg (Head (cs_HeadData st)).
Proof using Type.
  split; [|done]. split; simpl; rewrite ?list_to_set_elements; try done.
  exists (cs_ChainLabels st). split; [unfold nodes_view; by rewrite map_map|apply CompareAggregatedLabels_refl].
Qed.

Lemma map_opt_list {A B} (f : A -> B) (b : bool) x : map f (if b then [] else [x]) = if b then [] else [f x].
Proof using Type. by destruct b. Qed.

Lemma omap_opt_list {A B} (g : A -> option B) (b : bool) x : omap g (if b then [] else [x]) = if b then [] else option_list (g x).
Proof using Type. destruct b; [done|]. simpl. by destruct (g x). Qed.

Lemma if_nil {A} (b : bool) : (if b then [] else []) = @nil A.
Proof using Type. by destruct b. Qed.

(** A change of the state brings a view along. *)
Lemma Compare_agrees v old new : agrees v old -> agrees (foldl apply_event v (map wrapperToApi (Compare old new))) new.
Proof using Type.
  intros [H1 H2 H3 H4 H5 H6].
  assert (forall A (g : option ChainEvent -> option A), omap g (map wrapperToApi (Compare old new)) =
    (if bool_decide (cs_Status old = cs_Status new) then [] else option_list (g (wrapperToApi (StatusWrapper (cs_Status new))))) ++
    (if bool_decide (GetSupportedMethods (cs_Methods old) = GetSupportedMethods (cs_Methods new)) then []
     else option_list (g (wrapperToApi (MethodsWrapper (elements (GetSupportedMethods (cs_Methods new))))))) ++
    (if blocks_equal (cs_Blocks old) (cs_Blocks new) then [] else option_list (g (wrapperToApi (BlocksWrapper (cs_Blocks new))))) ++
    (if bool_decide (cs_LowerBounds old = cs_LowerBounds new) then []
     else option_list (g (wrapperToApi (LowerBoundsWrapper (range (cs_LowerBounds new)).*2)))) ++
    (if CompareAggregatedLabels (cs_ChainLabels old) (cs_ChainLabels new) then []
     else option_list (g (wrapperToApi (LabelsWrapper (cs_ChainLabels new))))) ++
    (if bool_decide (cs_SubMethods old = cs_SubMethods new) then []
     else option_list (g (wrapperToApi (SubMethodsWrapper (elements (cs_SubMethods new)))))) ++
    (if capsEqual (cs_Caps old) (cs_Caps new) then [] else option_list (g (wrapperToApi (CapsWrapper (cs_Caps new))))))
    as Hc by (intros A g; unfold Compare; by rewrite !map_app, !omap_app, !map_opt_list, !omap_opt_list).
  split.
  - rewrite (fold_component _ _ apply_status), Hc. clear Hc. simpl. rewrite !if_nil. simpl.
    case_bool_decide as E; simpl; [by rewrite H1, E|done].
  - rewrite (fold_component _ _ apply_methods), Hc. clear Hc. simpl. rewrite !if_nil, !app_nil_r. simpl.
    case_bool_decide as E; simpl; [rewrite H2; exact E|by rewrite list_to_set_elements].
  - rewrite (fold_component _ _ apply_bounds), Hc. clear Hc. simpl. rewrite !if_nil, !app_nil_r. simpl.
    case_bool_decide as E; simpl; [by rewrite H3; unfold bounds_view; rewrite E|done].
  - rewrite (fold_component _ _ apply_blocks), Hc. clear Hc. simpl. rewrite !if_nil, !app_nil_r. simpl.
    destruct (blocks_equal _ _) eqn:E; simpl; [by rewrite H4; apply blocks_equal_view|done].
  - rewrite (fold_component _ _ apply_subs), Hc. clear Hc. simpl. rewrite !if_nil, !app_nil_r. simpl.
    case_bool_decide as E; simpl; [by rewrite H5, E|by rewrite list_to_set_elements].
  - rewrite (fold_component _ _ apply_nodes), Hc. clear Hc. simpl. rewrite !if_nil, !app_nil_r. simpl.
    destruct (CompareAggregatedLabels _ _) eqn:E; simpl.
    + destruct H6 as (l & -> & Hl). exists l. split; [done|]. by eapply CompareAggregatedLabels_trans.
    + exists (cs_ChainLabels new). split; [unfold nodes_view; by rewrite map_map|apply CompareAggregatedLabels_refl].
Qed.

(** ** What the chain publishes *)

Definition plain (ws : list ChainSupervisorStateWrapper) : Prop :=
  ws <> [] /\ (existsb is_head (map wrapperToApi ws) = false \/ exists h id, ws = [HeadWrapper h id]).

Lemma Compare_no_head old new : existsb is_head (map wrapperToApi (Compare old new)) = false.
Proof using Type.
  unfold Compare. rewrite !map_app, !existsb_app, !map_opt_list. repeat (apply orb_false_iff; split);
    by match goal with |- context [if ?b then _ else _] => destruct b end.
Qed.

Lemma no_head_events es : existsb is_head es = false -> omap ev_head es = [].
Proof using Type.
  induction es as [|e es IH]; [done|]. simpl. intros [H1 H2]%orb_false_iff. destruct e as [[]|]; try done; by apply IH.
Qed.

Lemma published_app l l' : published (l ++ l') = published l ++ published l'.
Proof using Type. apply omap_app. Qed.

Lemma published_finalization b : published (calculateFinalizationLags cfg b) = [].
Proof using Type.
  unfold calculateFinalizationLags. destruct (hasTracker cfg); [|done].
  induction (range (upstreamStates b)) as [|[id u] l IH]; [done|exact IH].
Qed.

Lemma published_head_lags b : published (calculateHeadLags cfg known b).1 = [].
Proof using Type.
  unfold calculateHeadLags.
  assert (forall l effs m, published effs = [] -> published (foldl (head_lag_step cfg known (sup_state b)) (effs, m) l).1 = []) as Hl.
  { induction l as [|[id u] l IH]; intros effs m He; [done|]. simpl.
    destruct (validateLag cfg); [destruct (_ && _)|]; apply IH; rewrite !published_app, He; by destruct (hasTracker cfg). }
  specialize (Hl (range (upstreamStates b)) [] (lastOver b) eq_refl). by destruct (foldl _ _ _).
Qed.

(** [updateState] publishes the comparison of the states, unless nothing changed. *)
Lemma updateState_publishes b effs b' : updateState cfg b = (effs, b') ->
  cs_HeadData (sup_state b') = cs_HeadData (sup_state b) /\
  published effs = (if bool_decide (Compare (sup_state b) (sup_state b') = []) then [] else [Compare (sup_state b) (sup_state b')]).
Proof using Type.
  unfold updateState. intros [= <- <-]. split; [done|]. rewrite published_app, published_finalization, app_nil_r.
  cbn [sup_state set_state]. destruct (Compare _ _); [done|]. by rewrite !bool_decide_eq_false_2.
Qed.

(** [updateHead] publishes a new head by itself. *)
Lemma updateHead_publishes id hu b effs b' : updateHead cfg known id hu b = (effs, b') ->
  same_summary (sup_state b) (sup_state b') /\
  (published effs = [] /\ (cs_HeadData (sup_state b') = cs_HeadData (sup_state b) \/ ChainHeadData_IsEmpty (cs_HeadData (sup_state b')) = true) \/
   exists id', published effs = [[HeadWrapper (Head (cs_HeadData (sup_state b'))) id']]).
Proof using Type.
  intros E. pose proof (updateHead_frame cfg known id hu b) as [_ Hs]. rewrite E in Hs. split; [exact Hs|]. revert E.
  unfold updateHead. destruct (negb (IsEmptyByHeight (hu_head hu))).
  - destruct (Choose id hu (sup_fc b)) as [[[] head] fc'] eqn:Ec.
    + destruct (calculateHeadLags cfg known _) as [lags b1] eqn:El. intros [= <- <-].
      pose proof (published_head_lags (mkSupervisor
        (mkChainState (cs_Status (sup_state b)) (NewChainHeadData head id) (cs_Methods (sup_state b)) (cs_Blocks (sup_state b))
           (cs_LowerBounds (sup_state b)) (cs_ChainLabels (sup_state b)) (cs_SubMethods (sup_state b)) (cs_Caps (sup_state b)))
        fc' (upstreamStates b) (lastOver b))) as Hp. rewrite El in Hp. simpl in Hp.
      apply calculateHeadLags_frame in El as (-> & _ & _). rewrite published_app, Hp, app_nil_r. simpl.
      destruct (ChainHeadData_IsEmpty _) eqn:Ee; [left; by split; [|right]|right; by exists id].
    + destruct (calculateHeadLags cfg known _) as [lags b1] eqn:El. intros [= <- <-]. left.
      pose proof (published_head_lags (mkSupervisor (sup_state b) fc' (upstreamStates b) (lastOver b))) as Hp.
      rewrite El in Hp. apply calculateHeadLags_frame in El as (-> & _ & _). split; [exact Hp|by left].
  - destruct (calculateHeadLags cfg known _) as [lags b1] eqn:El. intros [= <- <-]. left.
    match type of El with calculateHeadLags _ _ ?x = _ => pose proof (published_head_lags x) as Hp end.
    rewrite El in Hp. apply calculateHeadLags_frame in El as (-> & _ & _). split; [exact Hp|by right].
Qed.

(** ** The invariant *)

Definition events_of (q : list (list ChainSupervisorStateWrapper)) : list (option ChainEvent) := map wrapperToApi (concat q).

Lemma events_of_app q ws : events_of (q ++ [ws]) = events_of q ++ map wrapperToApi ws.
Proof using Type. unfold events_of. by rewrite concat_app, map_app, concat_cons, app_nil_r. Qed.

Definition head_agrees (v : View) (st : ChainSupervisorState) : Prop :=
  ChainHeadData_IsEmpty (cs_HeadData st) = true \/ v_head v = head_msg (Head (cs_HeadData st)).

(** A view, the client's if there is one, that the waiting events bring to [P]. *)
Definition comes_to (P : View -> Prop) (y : StatusSystem) : Prop :=
  exists v0, (forall v, client y = Some v -> v = v0) /\ P (foldl apply_event v0 (events_of (queue y))).

Record status_inv (y : StatusSystem) : Prop := mkStatusInv {
  si_plain : Forall plain (queue y);
  si_full : fullSent y = true <-> is_Some (client y);
  si_started : started y = false -> fullSent y = false;
  si_rest : restFresh y = true -> comes_to (fun v => agrees v (sup_state (chain y))) y;
  si_head : headFresh y = true -> comes_to (fun v => head_agrees v (sup_state (chain y))) y;
}.

Lemma new_status_inv b : status_inv (new_status_system b).
Proof using grpcId.
  split; simpl; [constructor|split; [done|by intros []]|done| |]; intros _;
    destruct (full_agrees new_view (sup_state b)) as [H1 H2]; eexists; (split; [done|]); [exact H1|right; exact H2].
Qed.

Lemma agrees_same v st st' : same_summary st st' -> agrees v st -> agrees v st'.
Proof using Type.
  intros (E1 & E2 & E3 & E4 & E5 & E6 & E7) [H1 H2 H3 H4 H5 H6].
  split; unfold bounds_view in *; rewrite <- ?E1, <- ?E2, <- ?E3, <- ?E4, <- ?E5, <- ?E6; done.
Qed.

Lemma head_keeps_rest v h st : agrees v st -> agrees (apply_event v (Some (HeadEvent_ h))) st.
Proof using Type. intros [H1 H2 H3 H4 H5 H6]. by split. Qed.

Lemma head_of_fold v es : v_head (foldl apply_event v es) = default (v_head v) (last (omap ev_head es)).
Proof using Type. apply fold_component, apply_head. Qed.

Lemma head_agrees_later v v' es st : head_agrees (foldl apply_event v es) st -> v_head v' = head_msg (Head (cs_HeadData st)) ->
  head_agrees (foldl apply_event v' es) st.
Proof using Type.
  unfold head_agrees. rewrite !head_of_fold. intros [?|H] Hv; [by left|right]. revert H. by destruct (last (omap ev_head es)).
Qed.

Lemma client_takes v ws : plain ws ->
  client_step (Some v) (stateWrappersToResponse grpcId ws) = Some (foldl apply_event v (map wrapperToApi ws)).
Proof using Type. intros [_ [H|(h & id & ->)]]; [|done]. unfold client_step, stateWrappersToResponse. cbn [sr_ChainEvent]. by rewrite H. Qed.

Lemma snapshot_no_head st : existsb is_head (map wrapperToApi (snapshotStateWrappers st)) = false.
Proof using Type. done. Qed.

Lemma comes_to_client P y v : comes_to P y -> client y = Some v -> P (foldl apply_event v (events_of (queue y))).
Proof using Type. intros (v0 & Hc & HP) E. by rewrite (Hc v E). Qed.

(** The chain publishes. *)
Lemma state_inv b effs b' lost y : status_inv y -> chain y = b -> updateState cfg b = (effs, b') ->
  status_inv (publish_all effs b' lost false y).
Proof using Type.
  intros [Hp Hf Hst Hr Hh] <- E. destruct (updateState_publishes _ _ _ E) as [Ehd Eps].
  pose proof (Compare_no_head (sup_state (chain y)) (sup_state b')) as Hn.
  set (ws := Compare (sup_state (chain y)) (sup_state b')) in *.
  assert (forall v q, agrees (foldl apply_event v (events_of q)) (sup_state (chain y)) ->
    agrees (foldl apply_event v (events_of (q ++ published effs))) (sup_state b')) as Hstep.
  { intros v q Ha. apply (Compare_agrees _ _ (sup_state b')) in Ha. fold ws in Ha. rewrite Eps.
    case_bool_decide as Ew; [by rewrite Ew, ?app_nil_r in *|]. by rewrite events_of_app, foldl_app. }
  assert (forall q, omap ev_head (events_of (q ++ published effs)) = omap ev_head (events_of q)) as Hhead.
  { intros q. rewrite Eps. case_bool_decide; [by rewrite app_nil_r|]. by rewrite events_of_app, omap_app, (no_head_events _ Hn), app_nil_r. }
  unfold publish_all. split; unfold comes_to; cbn [queue fullSent client started restFresh headFresh chain]; try done.
  - destruct lost; [done|]. apply Forall_app. split; [done|]. rewrite Eps. case_bool_decide as Ew; [constructor|].
    constructor; [|constructor]. split; [done|by left].
  - intros [Hrf Hl]%andb_true_iff. destruct (Hr Hrf) as (v0 & Hc & Ha). exists v0. split; [done|].
    apply orb_true_iff in Hl as [Hl|Hl]; [destruct lost; [done|]; by apply Hstep|]. apply bool_decide_eq_true in Hl.
    apply Hstep in Ha. rewrite Hl, app_nil_r in Ha. rewrite Hl, app_nil_r. by destruct lost.
  - intros Hhf. destruct (Hh Hhf) as (v0 & Hc & Ha). exists v0. split; [done|]. unfold head_agrees in *.
    rewrite head_of_fold in *. rewrite Ehd. destruct lost; [done|]. by rewrite Hhead.
Qed.

Lemma head_inv id hu effs b' lost y : status_inv y -> updateHead cfg known id hu (chain y) = (effs, b') ->
  status_inv (publish_all effs b' lost true y).
Proof using Type.
  intros [Hp Hf Hst Hr Hh] E. destruct (updateHead_publishes _ _ _ _ _ E) as [Hs Hpub].
  unfold publish_all. split; unfold comes_to; cbn [queue fullSent client started restFresh headFresh chain]; try done.
  - destruct lost; [done|]. apply Forall_app. split; [done|]. destruct Hpub as [[-> _]|[id' ->]]; [constructor|].
    constructor; [|constructor]. split; [done|right; by eauto].
  - intros Hrf. destruct (Hr Hrf) as (v0 & Hc & Ha). exists v0. split; [done|]. apply (agrees_same _ _ _ Hs) in Ha.
    destruct lost; [done|]. destruct Hpub as [[-> _]|[id' ->]]; [by rewrite app_nil_r|].
    rewrite events_of_app, foldl_app. by apply head_keeps_rest.
  - destruct Hpub as [[-> Hhd]|[id' Ew]].
    + rewrite bool_decide_eq_true_2, app_nil_r by done. intros Hhf. destruct (Hh Hhf) as (v0 & Hc & Ha).
      exists v0. split; [done|]. assert (queue (mkStatusSystem b' (if lost then queue y else queue y) (started y) (fullSent y) (client y)
        (restFresh y) (headFresh y)) = queue y) as Hq by by destruct lost. cbn [queue] in *. rewrite Hq.
      unfold head_agrees in *. destruct Hhd as [->|He]; [done|by left].
    + rewrite Ew, bool_decide_eq_false_2 by done. intros Hl. destruct lost; [done|].
      destruct (client y) as [v|] eqn:Ec.
      * exists v. split; [by intros ? [= <-]|]. right. by rewrite events_of_app, foldl_app.
      * exists new_view. split; [done|]. right. by rewrite events_of_app, foldl_app.
Qed.

(** A full response makes the client agree with the state. *)
Lemma full_inv y rest : status_inv y -> client y = None -> Forall plain rest ->
  (forall P, comes_to P y -> exists v0, P (foldl apply_event v0 (events_of rest))) ->
  ChainHeadData_IsEmpty (cs_HeadData (sup_state (chain y))) = false ->
  status_inv (mkStatusSystem (chain y) rest true true (receive [toFullResponse grpcId (sup_state (chain y))] (client y))
                (restFresh y) (headFresh y)).
Proof using Type.
  intros [Hp Hf Hst Hr Hh] Hn Hpr Hcome Hne. destruct (full_agrees new_view (sup_state (chain y))) as [Ha Hhd].
  rewrite Hn. unfold receive. cbn [foldl client_step sr_FullResponse toFullResponse].
  set (w := foldl apply_event new_view _) in *.
  split; unfold comes_to; cbn [queue fullSent client started restFresh headFresh chain]; try done.
  - intros Hrf. destruct (Hcome _ (Hr Hrf)) as (v0 & Hv0). exists w. split; [by intros v [= <-]|].
    by eapply agrees_later.
  - intros Hhf. destruct (Hcome _ (Hh Hhf)) as (v0 & Hv0). exists w. split; [by intros v [= <-]|].
    by eapply head_agrees_later.
Qed.

Lemma client_none y : status_inv y -> fullSent y = false -> client y = None.
Proof using Type. intros I Hf. destruct (client y) eqn:E; [|done]. rewrite (proj2 (si_full y I)) in Hf by (rewrite E; eauto). done. Qed.

Lemma status_step_inv a y y' : status_inv y -> status_step a y = Some y' -> status_inv y'.
Proof using Type.
  intros I. destruct a as [ups|lost|id hu lost| | |]; simpl.
  - intros [= <-]. destruct I as [Hp Hf Hst Hr Hh]. by split.
  - destruct (updateState cfg (chain y)) as [effs b'] eqn:E. intros [= <-]. by eapply state_inv.
  - destruct (updateHead cfg known id hu (chain y)) as [effs b'] eqn:E. intros [= <-]. by eapply head_inv.
  - destruct (started y) eqn:Es; [done|]. pose proof (si_started y I Es) as Hfs. pose proof (client_none y I Hfs) as Hn.
    unfold stream_start. destruct (ChainHeadData_IsEmpty _) eqn:Ee; intros [= <-].
    + destruct I as [Hp Hf Hst Hr Hh]. rewrite Hn in *. split; simpl; [done|by split; [|intros []]|done| |].
      * intros Hrf. destruct (Hr Hrf) as (v0 & _ & Ha). by exists v0.
      * intros Hhf. destruct (Hh Hhf) as (v0 & _ & Ha). by exists v0.
    + apply full_inv; [done|done|by apply I| |done]. intros P (v0 & _ & HP). by exists v0.
  - destruct (queue y) as [|ws rest] eqn:Eq; [done|]. destruct (started y) eqn:Es; [|done].
    pose proof (si_plain y I) as Hp. rewrite Eq in Hp. apply Forall_cons in Hp as [Hw Hp].
    assert (forall P, comes_to P y -> exists v0, (forall v, client y = Some v -> v = v0) /\
      P (foldl apply_event (foldl apply_event v0 (map wrapperToApi ws)) (events_of rest))) as Hcome.
    { intros P (v0 & Hc & HP). exists v0. split; [done|]. rewrite Eq in HP. unfold events_of in HP.
      rewrite concat_cons, map_app, foldl_app in HP. exact HP. }
    unfold stream_event. rewrite bool_decide_eq_false_2 by apply Hw. destruct (fullSent y) eqn:Ef.
    + intros [= <-]. destruct (proj1 (si_full y I) Ef) as [v Ev]. rewrite Ev. unfold receive. cbn [foldl].
      rewrite client_takes by done.
      split; unfold comes_to; cbn [queue fullSent client started restFresh headFresh chain]; try done.
      * intros Hrf. destruct (Hcome _ (si_rest y I Hrf)) as (v0 & Hc & HP). eexists. split; [by intros v' [= <-]|].
        rewrite (Hc v Ev). exact HP.
      * intros Hhf. destruct (Hcome _ (si_head y I Hhf)) as (v0 & Hc & HP). eexists. split; [by intros v' [= <-]|].
        rewrite (Hc v Ev). exact HP.
    + pose proof (client_none y I Ef) as Hn. destruct (ChainHeadData_IsEmpty _) eqn:Ee; intros [= <-].
      * rewrite Hn. split; simpl; [done|by split; [|intros []]|done| |].
        -- intros Hrf. destruct (Hcome _ (si_rest y I Hrf)) as (v0 & _ & HP). by eexists.
        -- intros Hhf. destruct (Hcome _ (si_head y I Hhf)) as (v0 & _ & HP). by eexists.
      * apply full_inv; [done|done|done| |done]. intros P HP. destruct (Hcome P HP) as (v0 & _ & HP'). by eexists.
  - destruct (started y) eqn:Es; [|done]. intros [= <-]. unfold stream_tick. destruct (fullSent y) eqn:Ef.
    + destruct (proj1 (si_full y I) Ef) as [v Ev]. rewrite Ev. unfold receive. cbn [foldl client_step sr_ChainEvent stateWrappersToResponse].
      rewrite snapshot_no_head. cbn match. pose proof (snapshot_agrees v (sup_state (chain y))) as Ha.
      set (w := foldl apply_event v _) in *.
      split; unfold comes_to; cbn [queue fullSent client started restFresh headFresh chain]; try done; [by apply I| |].
      * intros Hrf. exists w. split; [by intros v' [= <-]|]. apply orb_true_iff in Hrf as [Hrf|Hq].
        -- exact (agrees_later _ _ _ _ (comes_to_client _ _ v (si_rest y I Hrf) Ev) Ha).
        -- simpl in Hq. apply bool_decide_eq_true in Hq. by rewrite Hq.
      * intros Hhf. exists w. split; [by intros v' [= <-]|].
        pose proof (comes_to_client _ _ v (si_head y I Hhf) Ev) as Hv. unfold head_agrees in *. rewrite head_of_fold in *.
        assert (v_head w = v_head v) as -> by (unfold w; rewrite head_of_fold, no_head_events; [done|apply snapshot_no_head]).
        exact Hv.
    + rewrite orb_false_r. destruct I as [Hp Hf Hst Hr Hh]. rewrite Ef in Hf. by split.
Qed.

Lemma status_steps_inv l y y' : status_inv y -> status_steps l y = Some y' -> status_inv y'.
Proof using Type.
  revert y. induction l as [|a l IH]; intros y I; simpl; [by intros [= <-]|].
  intros (y1 & H1 & H2)%bind_Some. eapply IH; [by eapply status_step_inv|done].
Qed.
End System.

(** ** What a client of the stream knows *)

(** C32. A client of the stream mirrors the chain.  However the changes of the chain,
    the events the goroutine takes and its periodic resends interleave: once every
    waiting event is taken, a client that was sent the full state knows the status,
    the methods, the bounds, the blocks, the subscriptions and the nodes of the
    chain, and its head as long as it has one, provided no change of these was lost
    that was not made good; and whatever was lost, the next resend makes everything
    but the head good. *)
Theorem client_mirrors_chain `{MapRange} cfg known grpcId b l y v :
  status_steps cfg known grpcId l (new_status_system b) = Some y -> client y = Some v -> queue y = [] ->
  (restFresh y = true -> agrees v (sup_state (chain y))) /\
  (headFresh y = true -> ChainHeadData_IsEmpty (cs_HeadData (sup_state (chain y))) = true \/
     v_head v = head_msg (Head (cs_HeadData (sup_state (chain y))))) /\
  forall y', status_step cfg known grpcId StreamTicks y = Some y' ->
    restFresh y' = true /\ exists v', client y' = Some v' /\ agrees v' (sup_state (chain y')).
Proof.
  intros Hl Hv Hq. pose proof (status_steps_inv cfg known grpcId l _ _ (new_status_inv grpcId b) Hl) as I. split_and!.
  - intros Hf. pose proof (comes_to_client _ _ v (si_rest y I Hf) Hv) as Ha. by rewrite Hq in Ha.
  - intros Hf. pose proof (comes_to_client _ _ v (si_head y I Hf) Hv) as Ha. by rewrite Hq in Ha.
  - intros y' Hy'. pose proof (status_step_inv cfg known grpcId _ _ _ I Hy') as I'. simpl in Hy'.
    destruct (started y); [|done]. injection Hy' as <-. simpl in *.
    rewrite (proj2 (si_full y I) ltac:(eauto)), Hq, bool_decide_eq_true_2, orb_true_r in * by done. split; [done|].
    rewrite Hv in *. simpl in *. eexists. split; [done|].
    exact (comes_to_client _ _ _ (si_rest _ I' eq_refl) eq_refl).
Qed.

(** A node registers before the goroutine starts; it gets a head, of which the client
    is told at once, and a second one; the loss of its methods is lost, and resent. *)
Definition status_actions : list status_action :=
  [ChangeUpstreams {["up" := demo_state]}; StreamStarts; ChangeState false; StreamTakes;
   ChangeHead "up" (mkHeadUpdate Available (NewBlockWithHeight 100)) false; StreamTakes;
   ChangeHead "up" (mkHeadUpdate Available (NewBlockWithHeight 101)) false; StreamTakes;
   ChangeUpstreams ∅; ChangeState true; StreamTicks].

#[local] Existing Instance Prelude.default_range.

Definition status_end : option StatusSystem :=
  status_steps (mkSupervisorConfig false false 0 ∅) (fun _ => false) 1 status_actions (new_status_system NewGenericChainSupervisor).

Example status_end_facts : match status_end with
  | Some y => bool_decide (queue y = []) && restFresh y && headFresh y && bool_decide (is_Some (client y))
  | None => false end = true.
Proof. vm_compute. reflexivity. Qed.

Lemma client_mirrors_chain_witness : exists y v, status_end = Some y /\ client y = Some v /\ queue y = [] /\
  agrees v (sup_state (chain y)).
Proof.
  pose proof status_end_facts as Hf. destruct status_end as [y|] eqn:E; [|discriminate Hf].
  apply andb_true_iff in Hf as [Hf [v Hv]%bool_decide_eq_true]. apply andb_true_iff in Hf as [Hf Hh].
  apply andb_true_iff in Hf as [Hq%bool_decide_eq_true Hr]. exists y, v. split; [done|]. split; [exact Hv|]. split; [exact Hq|].
  unfold status_end in E. exact (proj1 (client_mirrors_chain (mkSupervisorConfig false false 0 ∅) (fun _ => false) 1 NewGenericChainSupervisor
    status_actions y v E Hv Hq) Hr).
Defined.

(** A head that is sent is not its own parent. *)
Lemma head_not_own_parent head : hm_ParentBlockId (head_msg head) = hm_BlockId (head_msg head) ->
  hm_ParentBlockId (head_msg head) = "".
Proof. unfold head_msg. simpl. case_bool_decide; [done|]. intros E. done. Qed.

(** A change of the capabilities alone, or among others, is sent as an event without
    content. *)
Lemma caps_change_sends_empty_event grpcId caps :
  sr_ChainEvent (stateWrappersToResponse grpcId [CapsWrapper caps]) = [None].
Proof. done. Qed.
