(* ===== verification/ChainHead.v ===== *)
(** The merged head, the head lags and the selection view of a chain supervisor
    (theorems about the definitions of [ChainSupervisor]). *)

From S2P Require Import Prelude.
From S2P Require Import Protocol.
From S2P Require Import Specs.
From S2P Require Import Methods.
From S2P Require Import UpstreamState.
From S2P Require Import Matchers.
From S2P Require Import Strategy.
From S2P Require Import ForkChoice.
From S2P Require Import ChainState.
From S2P Require Import ChainSupervisor.

(** ** The merged head follows the fork choice *)

Section MergedHead.
Context `{MR : MapRange} (cfg : SupervisorConfig) (known : string -> bool).

(** The event does not bring an empty head to [updateHead]: a head event has a
    head, and a removed upstream had one. *)
Definition head_event_ok (e : UpstreamEvent) (b : Supervisor) : Prop :=
  match EventType e with
  | HeadUpstreamEvent _ head => IsEmptyByHeight head = false
  | RemoveUpstreamEvent => forall s, upstreamStates b !! event_id e = Some s ->
      IsEmptyByHeight (HeadData s) = false
  | _ => True
  end.

Inductive reaches : Supervisor -> Prop :=
| reaches_new : reaches NewGenericChainSupervisor
| reaches_event e b :
    reaches b -> head_event_ok e b -> reaches (processEvent cfg known e b).2.

Definition head_ok (b : Supervisor) : Prop :=
  Head (cs_HeadData (sup_state b)) = fc_max (sup_fc b) /\ fc_ok (sup_fc b).

Lemma updateHead_nonempty id ev b :
  IsEmptyByHeight (hu_head ev) = false ->
  let b' := (updateHead cfg known id ev b).2 in
  let r := Choose id ev (sup_fc b) in
  sup_fc b' = r.2 /\
  Head (cs_HeadData (sup_state b')) = if r.1.1 then r.1.2 else Head (cs_HeadData (sup_state b)).
Proof using Type.
  intros He. unfold updateHead. rewrite He. simpl.
  destruct (Choose id ev (sup_fc b)) as [[[] head] fc'];
    destruct (calculateHeadLags cfg known _) as [lags b'] eqn:E;
    apply calculateHeadLags_frame in E as (Hs & Hf & _); simpl in *; by rewrite Hs, Hf.
Qed.

Lemma updateHead_empty id ev b :
  IsEmptyByHeight (hu_head ev) = true ->
  let b' := (updateHead cfg known id ev b).2 in
  sup_fc b' = sup_fc b /\ Head (cs_HeadData (sup_state b')) = ZeroBlock.
Proof using Type.
  intros He. unfold updateHead. rewrite He. simpl.
  destruct (calculateHeadLags cfg known _) as [lags b'] eqn:E.
  apply calculateHeadLags_frame in E as (Hs & Hf & _). simpl in *. by rewrite Hs, Hf.
Qed.

Lemma updateHead_head_ok id ev b :
  IsEmptyByHeight (hu_head ev) = false -> head_ok b -> head_ok (updateHead cfg known id ev b).2.
Proof using Type.
  intros He [Hh Hf]. destruct (updateHead_nonempty id ev b He) as [E1 E2].
  destruct (Choose_spec id ev (sup_fc b) Hf) as (Hok & Hm & _ & Hsame).
  unfold head_ok. rewrite E1, E2. split; [|done].
  destruct (Choose id ev (sup_fc b)).1.1 eqn:E; [done|]. rewrite Hh. symmetry. by apply Hsame.
Qed.

(** What each event does: a change of the upstream states that leaves the head
    alone, then at most one [updateHead]. *)
Lemma processEvent_head e b :
  exists b1, sup_fc b1 = sup_fc b /\ cs_HeadData (sup_state b1) = cs_HeadData (sup_state b) /\
    ((processEvent cfg known e b).2 = b1 \/
     exists ev, (processEvent cfg known e b).2 = (updateHead cfg known (event_id e) ev b1).2 /\
       match EventType e with
       | HeadUpstreamEvent _ head => hu_head ev = head
       | RemoveUpstreamEvent => exists s, upstreamStates b !! event_id e = Some s /\ hu_head ev = HeadData s
       | ValidUpstreamEvent (Some s) => IsEmptyByHeight (hu_head ev) = false
       | _ => False
       end).
Proof using Type.
  unfold processEvent. destruct (EventType e) as [s|status head| |[s|]].
  - eexists. split; [|split; [|left; reflexivity]]; done.
  - eexists. split; [|split; [|right; eexists; split; [reflexivity|reflexivity]]];
      by destruct (upstreamStates b !! event_id e).
  - destruct (upstreamStates b !! event_id e) as [s|] eqn:Es; [|exists b; auto].
    destruct (updateState cfg _) as [e1 b1] eqn:E. exists b1.
    unfold updateState in E. injection E as _ <-. split; [done|]. split; [done|]. right.
    exists (mkHeadUpdate Unavailable (HeadData s)).
    destruct (updateHead cfg known _ _ _). split; [done|]. by exists s.
  - destruct (updateState cfg _) as [e1 b1] eqn:E. exists b1.
    unfold updateState in E. injection E as _ <-. split; [done|]. split; [done|].
    destruct (IsEmptyByHeight (HeadData s)) eqn:Eh; [by left|right].
    exists (mkHeadUpdate (Status s) (HeadData s)). by destruct (updateHead cfg known _ _ _).
  - exists b. auto.
Qed.

Lemma processEvent_head_ok e b :
  head_event_ok e b -> head_ok b -> head_ok (processEvent cfg known e b).2.
Proof using Type.
  intros He Hok. destruct (processEvent_head e b) as (b1 & Hf & Hh & Hres).
  assert (head_ok b1) as Hok1 by (unfold head_ok; by rewrite Hf, Hh).
  destruct Hres as [->|(ev & -> & Hev)]; [done|]. apply updateHead_head_ok; [|done].
  unfold head_event_ok in He. destruct (EventType e) as [s|status head| |[s|]]; try done.
  - by rewrite Hev.
  - destruct Hev as (s & Hs & ->). by apply He.
Qed.

Lemma head_ok_new : head_ok NewGenericChainSupervisor.
Proof using Type.
  split; [done|]. unfold fc_ok, is_max. simpl. split_and!; [|by left|done].
  intros ??. by rewrite lookup_empty.
Qed.
End MergedHead.

(** As long as head events carry a head and removed upstreams had one, the
    head of the chain is the one of its fork choice, and its height the greatest
    of the live upstreams' heads. *)
Theorem chain_head_tracks_max `{MapRange} cfg known b :
  reaches cfg known b ->
  Head (cs_HeadData (sup_state b)) = fc_max (sup_fc b) /\
  is_max (heads (sup_fc b)) (Height (Head (cs_HeadData (sup_state b)))).
Proof.
  intros Hr. assert (head_ok b) as [Hh Hf].
  { induction Hr as [|e b _ IH He]; [apply head_ok_new|by apply processEvent_head_ok]. }
  split; [done|]. by rewrite Hh.
Qed.

Definition demo_head (id : string) (h : Z) : UpstreamEvent :=
  mkUpstreamEvent id (HeadUpstreamEvent Available (mkBlock h 0 [] [] [])).

#[local] Existing Instance Prelude.default_range.
#[local] Existing Instance Strategy.no_limiters.

Lemma chain_head_tracks_max_witness :
  let b := run_events demo_cfg (fun _ => true)
    [demo_head "up1" 100; demo_head "up2" 102; demo_head "up2" 101] NewGenericChainSupervisor in
  Height (Head (cs_HeadData (sup_state b))) = 101 /\
  Head (cs_HeadData (sup_state b)) = fc_max (sup_fc b) /\
  is_max (heads (sup_fc b)) (Height (Head (cs_HeadData (sup_state b)))).
Proof.
  intros b. split; [by vm_compute|].
  apply (chain_head_tracks_max demo_cfg (fun _ => true)). unfold b, run_events, foldl.
  repeat (apply reaches_event; [|done]). apply reaches_new.
Defined.

(** Removing an upstream that has no head yet sets the head of the chain to
    zero although the live upstreams still have one, and head events that leave
    the greatest height unchanged do not bring it back. *)
Theorem removing_headless_upstream_loses_head `{MapRange} cfg known id s b :
  upstreamStates b !! id = Some s -> IsEmptyByHeight (HeadData s) = true ->
  let b1 := (processEvent cfg known (mkUpstreamEvent id RemoveUpstreamEvent) b).2 in
  Head (cs_HeadData (sup_state b1)) = ZeroBlock /\ sup_fc b1 = sup_fc b /\
  forall id2 status h, IsEmptyByHeight h = false ->
    (Choose id2 (mkHeadUpdate status h) (sup_fc b)).1.1 = false ->
    Head (cs_HeadData (sup_state
      (processEvent cfg known (mkUpstreamEvent id2 (HeadUpstreamEvent status h)) b1).2)) = ZeroBlock.
Proof.
  intros Hs He b1. assert (Head (cs_HeadData (sup_state b1)) = ZeroBlock /\ sup_fc b1 = sup_fc b)
    as [H1 H2].
  { unfold b1, processEvent. cbn [EventType event_id]. rewrite Hs.
    destruct (updateState cfg _) as [e1 b2] eqn:E. unfold updateState in E. injection E as _ <-.
    set (b2 := set_state _ _).
    destruct (updateHead_empty cfg known id (mkHeadUpdate Unavailable (HeadData s)) b2 He) as [Hf Hh].
    destruct (updateHead cfg known id _ b2) as [e2 b3]. simpl in *. by rewrite Hf, Hh. }
  split; [done|]. split; [done|]. intros id2 status h Hh Hc. clearbody b1.
  unfold processEvent. cbn [EventType event_id].
  set (b2 := match upstreamStates b1 !! id2 with Some _ => _ | None => _ end).
  assert (sup_fc b2 = sup_fc b /\ Head (cs_HeadData (sup_state b2)) = ZeroBlock) as [Hf2 Hh2].
  { unfold b2. by destruct (upstreamStates b1 !! id2). }
  destruct (updateHead_nonempty cfg known id2 (mkHeadUpdate status h) b2 Hh) as [_ ->].
  by rewrite Hf2, Hc.
Qed.

(** Two upstreams, one at height 100 and one without a head: removing the second
    zeroes the head, and the first announcing 100 again does not restore it. *)
Lemma removing_headless_upstream_loses_head_witness :
  let b := run_events demo_cfg (fun _ => true) (demo_events ++
    [mkUpstreamEvent "up2" (StateUpstreamEvent (set_HeadData ZeroBlock demo_state))])
    NewGenericChainSupervisor in
  let b1 := (processEvent demo_cfg (fun _ => true) (mkUpstreamEvent "up2" RemoveUpstreamEvent) b).2 in
  Height (Head (cs_HeadData (sup_state b))) = 100 /\
  Height (Head (cs_HeadData (sup_state
    (processEvent demo_cfg (fun _ => true) (demo_head "up1" 100) b1).2))) = 0.
Proof.
  intros b b1. split; [by vm_compute|].
  pose proof (removing_headless_upstream_loses_head demo_cfg (fun _ => true) "up2"
    (set_HeadData ZeroBlock demo_state) b ltac:(by vm_compute) eq_refl) as Hw.
  cbv zeta in Hw. destruct Hw as (_ & _ & Hw).
  refine (f_equal Height (Hw "up1" Available (mkBlock 100 0 [] [] []) _ _)); by vm_compute.
Defined.

(** ** Head lags *)

Section Lags.
Context `{MR : MapRange} (cfg : SupervisorConfig) (known : string -> bool).
Context (Hval : validateLag cfg = true) (st : ChainSupervisorState).

Definition lag_over (s : UpstreamState) : bool :=
  LagExceeds (i64 (head_lag st s)) (syncingLag cfg).

Definition crosses (over_map : gmap string bool) (id : string) (s : UpstreamState) : Prop :=
  default false (over_map !! id) <> lag_over s /\ known id = true.

Lemma head_lag_step_spec effs over_map id s :
  let r := head_lag_step cfg known st (effs, over_map) (id, s) in
  (forall id' lag, PushHeadLag id' lag ∈ r.1 <-> PushHeadLag id' lag ∈ effs \/
     (id' = id /\ lag = i64 (head_lag st s) /\ crosses over_map id s)) /\
  (forall id', default false (r.2 !! id') =
     if bool_decide (id' = id /\ known id = true) then lag_over s
     else default false (over_map !! id')).
Proof using Hval.
  unfold head_lag_step. rewrite Hval. fold (lag_over s). unfold crosses.
  assert (forall id' lag, PushHeadLag id' lag ∈
    effs ++ (if hasTracker cfg then [TrackHeadLag id (head_lag st s)] else []) <->
    PushHeadLag id' lag ∈ effs) as Ht.
  { intros id' lag. rewrite elem_of_app. destruct (hasTracker cfg).
    - rewrite list_elem_of_singleton. naive_solver.
    - rewrite elem_of_nil. naive_solver. }
  destruct (eqb (default false (over_map !! id)) (lag_over s)) eqn:E, (known id) eqn:Ek; cbn [negb andb fst snd].
  all: split; [intros id' lag|intros id'].
  - apply eqb_prop in E. rewrite Ht, E. tauto.
  - apply eqb_prop in E. case_bool_decide as Hd; [|done]. destruct Hd as [-> _]. done.
  - rewrite Ht. split; [by left|]. by intros [?|(_ & _ & _ & ?)].
  - case_bool_decide as Hd; [by destruct Hd|done].
  - rewrite elem_of_app, Ht, list_elem_of_singleton. apply eqb_false_iff in E.
    split; (intros [?|Hx]; [by left|right]); [by injection Hx as -> ->|].
    destruct Hx as (-> & -> & _). done.
  - destruct (decide (id' = id)) as [->|Hne].
    + by rewrite lookup_insert_eq, bool_decide_eq_true_2.
    + rewrite lookup_insert_ne, bool_decide_eq_false_2; [done| |done]. by intros [? _].
  - rewrite Ht. split; [by left|]. by intros [?|(_ & _ & _ & ?)].
  - case_bool_decide as Hd; [by destruct Hd|done].
Qed.

Lemma head_lag_loop l effs over_map :
  NoDup l.*1 ->
  let r := foldl (head_lag_step cfg known st) (effs, over_map) l in
  (forall id lag, PushHeadLag id lag ∈ r.1 <-> PushHeadLag id lag ∈ effs \/
     exists s, (id, s) ∈ l /\ lag = i64 (head_lag st s) /\ crosses over_map id s) /\
  (forall id s, (id, s) ∈ l -> known id = true -> default false (r.2 !! id) = lag_over s) /\
  (forall id, (id ∉ l.*1) -> default false (r.2 !! id) = default false (over_map !! id)).
Proof using Hval.
  revert effs over_map. induction l as [|[id s] l IH]; intros effs over_map Hnd.
  - simpl. split_and!; [|by intros ?? ?%elem_of_nil|done].
    intros. split; [by left|]. intros [?|(? & ?%elem_of_nil & _)]; done.
  - apply NoDup_cons in Hnd as [Hid Hnd]. cbn [foldl].
    pose proof (head_lag_step_spec effs over_map id s) as [Hpush Hover].
    destruct (head_lag_step cfg known st (effs, over_map) (id, s)) as [effs1 over1].
    destruct (IH effs1 over1 Hnd) as (I1 & I2 & I3). cbn [fst snd] in *.
    assert (forall id' s', (id', s') ∈ l -> id' <> id) as Hne.
    { intros id' s' Hin ->. apply Hid. apply (list_elem_of_fmap_2 fst) in Hin. done. }
    split_and!.
    + intros id' lag. rewrite I1, Hpush. split.
      * intros [[?|(-> & ? & ?)]|(s' & Hin & ? & Hc)]; [by left|right; exists s; set_solver|].
        right. exists s'. split; [by right|]. split; [done|]. unfold crosses in *.
        rewrite Hover in Hc. rewrite bool_decide_eq_false_2 in Hc; [done|].
        specialize (Hne _ _ Hin). naive_solver.
      * intros [?|(s' & Hin & ? & Hc)]; [by left; left|].
        apply elem_of_cons in Hin as [[= -> ->]|Hin]; [by left; right|].
        right. exists s'. split; [done|]. split; [done|]. unfold crosses in *.
        rewrite Hover, bool_decide_eq_false_2; [done|]. specialize (Hne _ _ Hin). naive_solver.
    + intros id' s' Hin Hk. apply elem_of_cons in Hin as [[= -> ->]|Hin]; [|by apply I2].
      rewrite I3 by done. by rewrite Hover, bool_decide_eq_true_2.
    + intros id' Hnin. cbn [list_fmap fmap] in Hnin. apply not_elem_of_cons in Hnin as [Hne' Hnin].
      rewrite I3 by done. rewrite Hover, bool_decide_eq_false_2; [done|]. naive_solver.
Qed.
End Lags.

(** The lag of an upstream is pushed to it exactly when it crossed the syncing
    threshold since the last push (and the upstream is known); after that the
    recorded side of the threshold is the current one, so computing the lags
    again pushes nothing. *)
Theorem lag_pushed_on_crossing `{MapRange} cfg known b :
  validateLag cfg = true ->
  let '(effs, b') := calculateHeadLags cfg known b in
  (forall id lag, PushHeadLag id lag ∈ effs <->
     exists s, upstreamStates b !! id = Some s /\ known id = true /\
       lag = i64 (head_lag (sup_state b) s) /\
       default false (lastOver b !! id) <> LagExceeds lag (syncingLag cfg)) /\
  (forall id s, upstreamStates b !! id = Some s -> known id = true ->
     default false (lastOver b' !! id) =
       LagExceeds (i64 (head_lag (sup_state b) s)) (syncingLag cfg)) /\
  (forall id lag, PushHeadLag id lag ∉ (calculateHeadLags cfg known b').1).
Proof.
  intros Hval. unfold calculateHeadLags.
  assert (NoDup (range (upstreamStates b)).*1) as Hnd
    by (rewrite range_perm; apply NoDup_fst_map_to_list).
  pose proof (head_lag_loop cfg known Hval (sup_state b) _ [] (lastOver b) Hnd) as (H1 & H2 & _).
  destruct (foldl _ _ _) as [effs over]. cbn [fst snd] in *.
  pose proof (head_lag_loop cfg known Hval (sup_state b) _ [] over Hnd) as (H3 & _).
  assert (forall id lag, PushHeadLag id lag ∉ ([] : list Effect)) as Hnil by (intros; apply not_elem_of_nil).
  split_and!.
  - intros id lag. rewrite H1. setoid_rewrite elem_of_range. unfold crosses, lag_over. split.
    + intros [?|(s & Hs & -> & Hc & Hk)]; [by destruct (Hnil id lag)|]. by exists s.
    + intros (s & Hs & Hk & -> & Hc). right. by exists s.
  - intros id s Hs Hk. by apply H2; [apply elem_of_range|].
  - intros id lag. simpl. destruct (foldl _ _ _) as [effs2 over2]. cbn [fst] in *.
    rewrite H3. intros [?|(s & Hs & _ & Hc & Hk)]; [by destruct (Hnil id lag)|].
    apply Hc. by apply H2.
Qed.

(** An upstream ten blocks behind a threshold of five. *)
Lemma lag_pushed_on_crossing_witness :
  let b := run_events demo_cfg (fun _ => false) [demo_head "up1" 110;
    mkUpstreamEvent "up2" (StateUpstreamEvent demo_state)] NewGenericChainSupervisor in
  PushHeadLag "up2" 10 ∈ (calculateHeadLags demo_cfg (fun _ => true) b).1 /\
  forall id lag, PushHeadLag id lag ∉
    (calculateHeadLags demo_cfg (fun _ => true) (calculateHeadLags demo_cfg (fun _ => true) b).2).1.
Proof.
  intros b. pose proof (lag_pushed_on_crossing demo_cfg (fun _ => true) b eq_refl) as Hw.
  destruct (calculateHeadLags demo_cfg (fun _ => true) b) as [effs b'] eqn:E.
  destruct Hw as (H1 & _ & H3). split; [|exact H3].
  apply H1. exists demo_state. split_and!; by vm_compute.
Defined.

(** ** Selection against the supervisor *)

Section View.
Context `{MR : MapRange} (cfg : SupervisorConfig) (known : string -> bool).

Lemma processEvent_upstreams e b :
  upstreamStates (processEvent cfg known e b).2 =
    match EventType e with
    | RemoveUpstreamEvent => delete (event_id e) (upstreamStates b)
    | HeadUpstreamEvent _ head =>
      match upstreamStates b !! event_id e with
      | Some s => <[event_id e := set_HeadData head s]> (upstreamStates b)
      | None => upstreamStates b
      end
    | StateUpstreamEvent s | ValidUpstreamEvent (Some s) => <[event_id e := s]> (upstreamStates b)
    | ValidUpstreamEvent None => upstreamStates b
    end.
Proof using Type.
  unfold processEvent. destruct (EventType e) as [s|status head| |[s|]]; try done.
  - destruct (upstreamStates b !! event_id e) eqn:E; by rewrite (proj1 (updateHead_frame _ _ _ _ _)).
  - destruct (upstreamStates b !! event_id e) eqn:E; [|simpl; by rewrite delete_id].
    destruct (updateState cfg _) as [e1 b1] eqn:E1. unfold updateState in E1. injection E1 as _ <-.
    set (b1 := set_state _ _).
    pose proof (proj1 (updateHead_frame cfg known (event_id e) (mkHeadUpdate Unavailable (HeadData u)) b1)) as Hf.
    destruct (updateHead cfg known _ _ b1). simpl in *. by rewrite Hf.
  - destruct (updateState cfg _) as [e1 b1] eqn:E1. unfold updateState in E1. injection E1 as _ <-.
    destruct (IsEmptyByHeight (HeadData s)); [done|]. set (b1 := set_state _ _).
    pose proof (proj1 (updateHead_frame cfg known (event_id e) (mkHeadUpdate (Status s) (HeadData s)) b1)) as Hf.
    destruct (updateHead cfg known _ _ b1). simpl in *. by rewrite Hf.
Qed.

Lemma elem_of_GetUpstreamIds b id : id ∈ GetUpstreamIds b <-> is_Some (upstreamStates b !! id).
Proof using Type. unfold GetUpstreamIds. by rewrite stable_sort_perm, elem_of_range_keys. Qed.
End View.

(** A removed upstream is not selected until an event registers it again:
    after the removal and any events of other upstreams, or head events of its
    own, no strategy, not even one built before the removal, returns it. *)
Theorem removed_upstream_not_selected `{MapRange} `{Limiters W} cfg known id b evs
    ups additional order req (st : SelState W) st' :
  Forall (fun e => event_id e = id -> registers e = false) evs ->
  order_ok order ->
  let b' := run_events cfg known (mkUpstreamEvent id RemoveUpstreamEvent :: evs) b in
  (id ∉ GetUpstreamIds b') /\
  ListStrategy_SelectUpstream ups (supervisor_view b') additional order req st <> (inr id, st').
Proof.
  intros Hevs Hord b'. assert (upstreamStates b' !! id = None) as Hnone.
  { unfold b', run_events. cbn [foldl].
    assert (upstreamStates (processEvent cfg known (mkUpstreamEvent id RemoveUpstreamEvent) b).2 !! id = None)
      as Hn by (rewrite processEvent_upstreams; apply lookup_delete_eq).
    revert Hn. generalize (processEvent cfg known (mkUpstreamEvent id RemoveUpstreamEvent) b).2. clear b b'.
    induction Hevs as [|e evs He _ IH]; intros b Hn; [done|]. cbn [foldl]. apply IH.
    rewrite processEvent_upstreams. unfold registers in He.
    destruct (decide (event_id e = id)) as [Heq|Hne].
    - specialize (He Heq). rewrite Heq. destruct (EventType e) as [s|status head| |[s|]]; try done.
      + by rewrite Hn.
      + apply lookup_delete_eq.
    - destruct (EventType e) as [s|status head| |[s|]]; rewrite ?lookup_insert_ne, ?lookup_delete_ne by done; try done.
      destruct (upstreamStates b !! event_id e); [by rewrite lookup_insert_ne|done]. }
  split.
  - rewrite elem_of_GetUpstreamIds, Hnone. by intros [? ?].
  - intros Hsel. apply select_eligible in Hsel as (_ & Hel & _); [|done].
    unfold eligible in Hel. simpl in Hel. unfold GetUpstreamState in Hel. by rewrite Hnone in Hel.
Qed.

Lemma removed_upstream_not_selected_witness :
  let b' := run_events demo_cfg (fun _ => true)
    (mkUpstreamEvent "up1" RemoveUpstreamEvent :: [demo_head "up1" 120])
    (run_events demo_cfg (fun _ => true) demo_events NewGenericChainSupervisor) in
  ListStrategy_SelectUpstream ["up1"; "up2"] (supervisor_view b') [] None
    (mkRequest "eth_call" false) (mkSelState ∅ tt) <> (inr "up1", mkSelState {["up1"]} tt).
Proof.
  intros b'. refine (proj2 (removed_upstream_not_selected demo_cfg (fun _ => true) "up1" _
    [demo_head "up1" 120] ["up1"; "up2"] [] None (mkRequest "eth_call" false) (mkSelState ∅ tt) _ _ _)).
  - by repeat constructor.
  - done.
Defined.
