(* ===== verification/ChainMirror.v ===== *)
(** The chain supervisor's copy of an upstream mirrors the upstream's own state
    ([internal/upstreams/upstream_events.go], [upstream_supervisor.go],
    [chain_supervisor.go]): a simulation between the loop of an upstream and the
    loop of its chain, which are connected by ordered channels. *)

From S2P Require Import Prelude.
From S2P Require Import Protocol.
From S2P Require Import Specs.
From S2P Require Import Methods.
From S2P Require Import UpstreamState.
From S2P Require Import Upstream.
From S2P Require Import Matchers.
From S2P Require Import Strategy.
From S2P Require Import ForkChoice.
From S2P Require Import ChainState.
From S2P Require Import ChainSupervisor.
From S2P Require Import ChainHead.

(** What a published event does to the entry of its upstream. *)
Definition mirror (m : option UpstreamState) (e : UpstreamEvent) : option UpstreamState :=
  match EventType e with
  | StateUpstreamEvent s | ValidUpstreamEvent (Some s) => Some s
  | HeadUpstreamEvent _ head => set_HeadData head <$> m
  | RemoveUpstreamEvent => None
  | ValidUpstreamEvent None => m
  end.

Definition published (o : list Output) : list UpstreamEvent :=
  omap (fun x => match x with Published e => Some e | ArmUnban _ => None end) o.

(** Whether the last registration is not followed by a removal. *)
Definition registered (evs : list UpstreamEvent) : bool :=
  foldl (fun r e => match EventType e with
                    | StateUpstreamEvent _ | ValidUpstreamEvent (Some _) => true
                    | RemoveUpstreamEvent => false
                    | _ => r
                    end) false evs.

Lemma mirror_registered evs : is_Some (foldl mirror None evs) <-> registered evs = true.
Proof.
  unfold registered.
  induction evs as [|e evs IH] using rev_ind; [split; [by intros [? ?]|done]|].
  rewrite !foldl_snoc. unfold mirror at 1.
  destruct (EventType e) as [s|status head| |[s|]]; try done.
  by rewrite fmap_is_Some.
Qed.

Section Mirror.
Context `{MR : MapRange} `{LU : LoUnion} (cfg : SupervisorConfig) (known : string -> bool) (env : UpstreamEnv).

(** The chain's entry of [id] only depends on the events of [id]. *)
Lemma run_events_entry id evs b :
  upstreamStates (run_events cfg known evs b) !! id =
  foldl mirror (upstreamStates b !! id) (filter (fun e => event_id e = id) evs).
Proof using Type.
  revert b. induction evs as [|e evs IH]; intros b; [done|]. cbn [run_events foldl].
  fold (run_events cfg known evs (processEvent cfg known e b).2). rewrite IH, filter_cons.
  assert (upstreamStates (processEvent cfg known e b).2 !! id =
    if decide (event_id e = id) then mirror (upstreamStates b !! id) e else upstreamStates b !! id) as ->.
  { rewrite processEvent_upstreams. unfold mirror. case_decide as Hid.
    - subst id. destruct (EventType e) as [s|status head| |[s|]];
        rewrite ?lookup_insert_eq, ?lookup_delete_eq; try done.
      destruct (upstreamStates b !! event_id e) eqn:E; [|by rewrite E]. by rewrite lookup_insert_eq.
    - destruct (EventType e) as [s|status head| |[s|]];
        rewrite ?lookup_insert_ne, ?lookup_delete_ne by done; try done.
      destruct (upstreamStates b !! event_id e); [by rewrite lookup_insert_ne|done]. }
  case_decide; done.
Qed.

(** The simulation relation: an entry is the stored state of a valid upstream. *)
Definition mirrors (m : option UpstreamState) (l : LoopState) : Prop :=
  match m with
  | Some s => validUpstream l = true /\ s = upstreamState l
  | None => True
  end.

Lemma mirrors_publish_state m s l :
  validUpstream l = true ->
  let r := publish env s (StateUpstreamEvent s) l in mirrors (foldl mirror m (published r.1)) r.2.
Proof using Type. intros Hv. simpl. done. Qed.

Lemma mirrors_step m e l o l' :
  processStateEvent env e l = (o, l') -> mirrors m l -> mirrors (foldl mirror m (published o)) l'.
Proof using Type.
  intros E Hm. destruct (validUpstream l) eqn:Hv.
  - unfold processStateEvent, finish_methods, finish in E.
    destruct e; cbn [set_banned set_unsupported set_valid validUpstream] in E; rewrite ?Hv in E;
      cbn [negb] in E.
    all: try (destruct (Same _ _); injection E as <- <-; [done|by simpl]).
    + destruct lag; case_bool_decide; injection E as <- <-;
        [done|by simpl| |by simpl].
      destruct m as [s|]; [|done]. by destruct Hm as [_ ->].
    + injection E as <- <-. by simpl.
    + by injection E as <- <-.
    + injection E as <- <-. destruct m as [s|]; [|done]. destruct Hm as [_ ->]. by simpl.
    + destruct (bool_decide (method ∈ bannedMethods l) || forceEnabled env method);
        injection E as <- <-; [done|by simpl].
    + case_bool_decide; injection E as <- <-; [done|by simpl].
    + case_bool_decide; injection E as <- <-; [done|by simpl].
  - destruct m as [s|]; [by destruct Hm as [? _]; congruence|].
    assert (e = ValidEvent \/ e <> ValidEvent) as [->|Hne] by (destruct e; auto).
    + unfold processStateEvent, finish, publish in E. rewrite Hv in E.
      cbn [set_valid validUpstream] in E. injection E as <- <-. by simpl.
    + destruct (processStateEvent_invalid env e l o l' E Hv Hne) as (_ & _ & Hnp).
      assert (published o = []) as ->; [|done].
      clear -Hnp. unfold published. induction o as [|x o IH]; [done|]. simpl.
      destruct x as [ev|]; [by destruct (Hnp ev); left|]. apply IH. intros ev Hin.
      apply (Hnp ev). by right.
Qed.

(** Any number of iterations of the upstream's loop. *)
Fixpoint loop_run (evs : list StateEvent) (l : LoopState) : list Output * LoopState :=
  match evs with
  | [] => ([], l)
  | e :: evs' =>
    let '(o, l) := processStateEvent env e l in
    let '(os, l) := loop_run evs' l in
    (o ++ os, l)
  end.

Lemma mirrors_run evs m l :
  mirrors m l ->
  mirrors (foldl mirror m (published (loop_run evs l).1)) (loop_run evs l).2.
Proof using Type.
  revert m l. induction evs as [|e evs IH]; intros m l Hm; [done|]. cbn [loop_run].
  destruct (processStateEvent env e l) as [o l1] eqn:E.
  specialize (IH (foldl mirror m (published o)) l1 (mirrors_step m e l o l1 E Hm)).
  destruct (loop_run evs l1) as [os l2]. cbn [fst snd] in *.
  unfold published in *. by rewrite omap_app, foldl_app.
Qed.
End Mirror.

(** C8. However the published events of an upstream are interleaved with those
    of the other upstreams of its chain, once they are delivered the chain holds
    exactly the upstream's own state if the upstream is registered, and nothing
    otherwise; a registered upstream is valid.  [registered] says that the last
    state or recovery event was not followed by a removal. *)
Theorem chain_mirrors_upstream `{MapRange} `{LoUnion} cfg known env evs l b chain_evs :
  upstreamStates b !! env_id env = None ->
  filter (fun e => event_id e = env_id env) chain_evs = published (loop_run env evs l).1 ->
  let l' := (loop_run env evs l).2 in
  let r := registered (published (loop_run env evs l).1) in
  GetUpstreamState (run_events cfg known chain_evs b) (env_id env) =
    (if r then Some (upstreamState l') else None) /\
  (r = true -> validUpstream l' = true).
Proof.
  intros Hb Hf l' r. unfold GetUpstreamState. rewrite run_events_entry, Hb, Hf.
  pose proof (mirrors_run env evs None l I) as Hm. fold l' in Hm.
  pose proof (mirror_registered (published (loop_run env evs l).1)) as Hr. fold r in Hr.
  destruct (foldl mirror None _) as [s|].
  - assert (r = true) as -> by (apply Hr; eauto). by destruct Hm as [? ->].
  - destruct r; [|done]. assert (is_Some (None : option UpstreamState)) as [? ?] by (by apply Hr). done.
Qed.

#[local] Existing Instance Upstream.demo_union.

#[local] Existing Instance Prelude.default_range.

Lemma chain_mirrors_upstream_witness :
  let evs := [InitEvent; HeadEvent (NewBlockWithHeight 7); FatalErrorEvent;
    LabelsEvent "region" "eu"; ValidEvent; CapsEvent {[WsCap]}] in
  let pubs := published (loop_run demo_env evs demo_loop).1 in
  let other := demo_head "up2" 9 in
  GetUpstreamState (run_events demo_cfg (fun _ => true)
    (flat_map (fun e => [e; other]) pubs) NewGenericChainSupervisor) "up1" =
  Some (upstreamState (loop_run demo_env evs demo_loop).2).
Proof.
  intros evs pubs other.
  exact (proj1 (chain_mirrors_upstream demo_cfg (fun _ => true) demo_env evs demo_loop
    NewGenericChainSupervisor (flat_map (fun e => [e; other]) pubs) eq_refl
    ltac:(by vm_compute))).
Defined.
