(* ===== verification/LowerBoundSearch.v ===== *)
(** The search for the lowest height an upstream still has data for
    ([internal/upstreams/lower_bounds/lower_bound_search.go]). *)

From S2P Require Import Prelude.
From S2P Require Import Protocol.

Record boundRange := mkRange { left : Z; right : Z; current : Z; found : bool }.

Record LowerBoundSearchCalculator := mkCalculator {
  calc_UpstreamId : string;
  MainBoundType : LowerBoundType;
  allSupportedTypes : list LowerBoundType;
  maxOffset : Z;
  lastBound : Z;
}.

(** A node is asked for data through its connection: each probe may change the
    state of the world, and probing the same height again may answer
    differently. *)
Section Search.
Context {W : Type} (hasData : Z -> W -> bool * W) (c : LowerBoundSearchCalculator).

Definition detect_error : string :=
  "upstream '" +:+ calc_UpstreamId c +:+ "' could not detect " +:+
  LowerBoundType_String (MainBoundType c) +:+ " lower bound".

Definition initialRange (cached latest : Z) : boundRange :=
  mkRange (if 0 <? cached then cached else 0) latest 0 false.

Definition converge (state : boundRange) (w : W) : (string + boundRange) * W :=
  let cur := if current state =? 0 then 1 else current state in
  let '(ok, w) := hasData cur w in
  if ok then (inr (mkRange 0 0 cur true), w)
  else if (cur =? 1) && (10 <? right state) then (inl detect_error, w)
  else (inr (mkRange 0 0 cur true), w).

Definition middle_of (state : boundRange) : Z :=
  i64 (left state + (i64 (right state - left state)) `quot` 2).

(** One turn of the loop of [detectPlain] while the range is not empty. *)
Definition plain_step (state : boundRange) (w : W) : boundRange * W :=
  let middle := middle_of state in
  let '(ok, w) := hasData middle w in
  if ok then (mkRange (left state) (i64 (middle - 1)) middle false, w)
  else (mkRange (i64 (middle + 1)) (right state) (current state) false, w).

(** [for !state.found]; [None] means the fuel was not enough. *)
Fixpoint plain_loop (fuel : nat) (state : boundRange) (w : W) : option ((string + Z) * W) :=
  match fuel with
  | O => None
  | S fuel =>
    if found state then Some (inr (current state), w)
    else if right state <? left state then
      match converge state w with
      | (inl err, w) => Some (inl err, w)
      | (inr state, w) => plain_loop fuel state w
      end
    else
      let '(state, w) := plain_step state w in plain_loop fuel state w
  end.

(** The loop of [shiftLeftAndSearch]; [left_over] is how many more blocks may
    be skipped, [maxOffset - count]. *)
Fixpoint shift_loop (left_over : nat) (moveRight : boundRange) (lo block : Z) (visited : gset Z) (w : W)
    : boundRange * gset Z * W :=
  if bool_decide (block ∈ visited) || (block <? 0) then (moveRight, visited, w)
  else
    let '(ok, w) := hasData block w in
    if ok then (mkRange lo (i64 (block - 1)) block false, visited, w)
    else
      match left_over with
      | O => (moveRight, visited, w)
      | S left_over =>
        shift_loop left_over moveRight lo (i64 (block - 1)) ({[block]} ∪ visited) w
      end.

Definition shiftLeftAndSearch (state : boundRange) (currentMiddle : Z) (visited : gset Z) (w : W)
    : boundRange * gset Z * W :=
  shift_loop (Z.to_nat (maxOffset c))
    (mkRange (i64 (currentMiddle + 1)) (right state) (current state) false)
    (left state) (i64 (currentMiddle - 1)) visited w.

Definition offset_step (state : boundRange) (visited : gset Z) (w : W) : boundRange * gset Z * W :=
  let middle := middle_of state in
  let '(ok, w) := hasData middle w in
  if ok then (mkRange (left state) (i64 (middle - 1)) middle false, visited, w)
  else if middle <? 0 then (mkRange (i64 (middle + 1)) (right state) (current state) false, visited, w)
  else shiftLeftAndSearch state middle visited w.

Fixpoint offset_loop (fuel : nat) (state : boundRange) (visited : gset Z) (w : W)
    : option ((string + Z) * W) :=
  match fuel with
  | O => None
  | S fuel =>
    if found state then Some (inr (current state), w)
    else if right state <? left state then
      match converge state w with
      | (inl err, w) => Some (inl err, w)
      | (inr state, w) => offset_loop fuel state visited w
      end
    else
      let '(state, visited, w) := offset_step state visited w in
      offset_loop fuel state visited w
  end.

(** Each turn removes at least one height from the range; two more turns
    converge and leave. *)
Definition search_fuel (state : boundRange) : nat :=
  (Z.to_nat (right state - left state + 1) + 2)%nat.

Definition detectPlain (cached latest : Z) (w : W) : option ((string + Z) * W) :=
  let search w := plain_loop (search_fuel (initialRange cached latest)) (initialRange cached latest) w in
  if 0 <? cached then
    let '(ok, w) := hasData cached w in if ok then Some (inr cached, w) else search w
  else search w.

Definition detectWithOffset (cached latest : Z) (w : W) : option ((string + Z) * W) :=
  let search w :=
    offset_loop (search_fuel (initialRange cached latest)) (initialRange cached latest) ∅ w in
  if 0 <? cached then
    let '(ok, w) := hasData cached w in if ok then Some (inr cached, w) else search w
  else search w.

Definition lowerBoundResults (now : Z) (bound : Z) : list LowerBoundData :=
  match allSupportedTypes c with
  | [] => [mkLowerBoundData bound now (MainBoundType c)]
  | ts => map (mkLowerBoundData bound now) ts
  end.

Definition set_lastBound (bound : Z) : LowerBoundSearchCalculator :=
  mkCalculator (calc_UpstreamId c) (MainBoundType c) (allSupportedTypes c) (maxOffset c) bound.

(** [DetectLowerBound]: [latest] is the answer of the (retried) request for the
    latest height; the result is with the calculator's new cache. *)
Definition DetectLowerBound (latest : string + Z) (now : Z) (w : W)
    : option ((string + list LowerBoundData) * LowerBoundSearchCalculator * W) :=
  match latest with
  | inl err =>
    Some (inl ("cannot fetch latest height for upstream '" +:+ calc_UpstreamId c +:+ "': " +:+ err), c, w)
  | inr latest =>
    if latest <=? 0 then
      Some (inl ("upstream '" +:+ calc_UpstreamId c +:+ "' returned non-positive latest height " +:+
        pretty latest), c, w)
    else
      match (if 0 <? maxOffset c then detectWithOffset (lastBound c) latest w
             else detectPlain (lastBound c) latest w) with
      | None => None
      | Some (inl err, w) => Some (inl err, c, w)
      | Some (inr bound, w) => Some (inr (lowerBoundResults now bound), set_lastBound bound, w)
      end
  end.
End Search.

(** ** Every search ends, whatever the node answers *)

(** The range of a search below the largest height, with its candidate. *)
Definition range_wf (s : boundRange) : Prop :=
  0 <= left s < two63 /\ -1 <= right s < two63 - 1 /\ 0 <= current s < two63.

Definition height_ok (r : string + Z) : Prop := match r with inl _ => True | inr b => 1 <= b < two63 end.

Definition range_size (s : boundRange) : nat := Z.to_nat (right s - left s + 1).

Lemma middle_of_eq s :
  range_wf s -> left s <= right s ->
  middle_of s = left s + (right s - left s) / 2 /\ left s <= middle_of s <= right s.
Proof.
  intros [Hl Hr] Hle. unfold middle_of.
  rewrite (i64_id (right s - left s)) by (unfold is_i64; lia).
  rewrite Z.quot_div_nonneg by lia.
  assert (0 <= (right s - left s) / 2 <= right s - left s) as Hd
    by (split; [apply Z.div_pos|apply Z.div_le_upper_bound]; lia).
  rewrite i64_id by (unfold is_i64; lia). lia.
Qed.

Section Ends.
Context {W : Type} (hasData : Z -> W -> bool * W) (c : LowerBoundSearchCalculator).

(** [s'] is a smaller range to go on with. *)
Definition shrinks (s s' : boundRange) : Prop :=
  range_wf s' /\ found s' = false /\ (range_size s' < range_size s)%nat.

Lemma move_right_shrinks s m :
  range_wf s -> left s <= m <= right s -> shrinks s (mkRange (i64 (m + 1)) (right s) (current s) false).
Proof.
  unfold shrinks, range_wf, range_size. intros [Hl Hr] Hm. simpl.
  rewrite i64_id by (unfold is_i64; lia). split; [lia|]. split; [done|]. lia.
Qed.

Lemma move_left_shrinks s m :
  range_wf s -> left s <= right s -> 0 <= m <= right s ->
  shrinks s (mkRange (left s) (i64 (m - 1)) m false).
Proof.
  unfold shrinks, range_wf, range_size. intros [Hl Hr] Hle Hm. simpl.
  rewrite i64_id by (unfold is_i64, two63 in *; lia). split; [lia|]. split; [done|]. lia.
Qed.

Lemma plain_step_shrinks s w :
  range_wf s -> left s <= right s -> shrinks s (plain_step hasData s w).1.
Proof.
  intros Hwf Hle. destruct (middle_of_eq s Hwf Hle) as [_ Hm]. unfold plain_step.
  destruct (hasData (middle_of s) w) as [[] w']; simpl.
  - apply move_left_shrinks; [done|done|]. destruct Hwf. lia.
  - by apply move_right_shrinks.
Qed.

(** The scan below a gap stops at a block below the gap, or gives up. *)
Lemma shift_loop_shrinks n s mr block visited w :
  shrinks s mr -> range_wf s -> left s <= right s -> -1 <= block <= right s ->
  shrinks s (shift_loop hasData n mr (left s) block visited w).1.1.
Proof.
  intros Hmr Hwf Hle. revert block visited w. induction n as [|n IH]; intros block visited w Hb; simpl.
  all: destruct (bool_decide (block ∈ visited) || (block <? 0)) eqn:E; [done|];
    reflect_bool; destruct (hasData block w) as [[] w']; [by apply move_left_shrinks; [..|lia]|].
  - done.
  - apply IH. destruct Hwf. rewrite i64_id by (unfold is_i64, two63 in *; lia). lia.
Qed.

Lemma offset_step_shrinks s visited w :
  range_wf s -> left s <= right s -> shrinks s (offset_step hasData c s visited w).1.1.
Proof.
  intros Hwf Hle. destruct (middle_of_eq s Hwf Hle) as [_ Hm]. unfold offset_step.
  assert (0 <= middle_of s) as Hpos by (destruct Hwf; lia).
  destruct (hasData (middle_of s) w) as [[] w']; simpl.
  - apply move_left_shrinks; [done|done|lia].
  - rewrite (proj2 (Z.ltb_ge _ _) Hpos). apply shift_loop_shrinks; [by apply move_right_shrinks|done|done|].
    destruct Hwf. rewrite i64_id by (unfold is_i64, two63 in *; lia). lia.
Qed.

Lemma converge_found s w r w' :
  range_wf s -> converge hasData c s w = (r, w') ->
  match r with inl _ => True | inr s' => found s' = true /\ height_ok (inr (current s')) end.
Proof.
  intros (_ & _ & Hc). unfold converge.
  assert (1 <= (if current s =? 0 then 1 else current s) < two63) as Hcur
    by (destruct (current s =? 0) eqn:E; reflect_bool; unfold two63 in *; lia).
  destruct (hasData _ w) as [[] w1]; [by intros [= <- _]|].
  destruct (_ && _); by intros [= <- _].
Qed.

(** The loop ends, and the height it found is one. *)
Definition ends (o : option ((string + Z) * W)) : Prop := exists r w, o = Some (r, w) /\ height_ok r.

Lemma plain_loop_ends fuel s w :
  range_wf s -> found s = false -> (range_size s + 2 <= fuel)%nat -> ends (plain_loop hasData c fuel s w).
Proof.
  revert s w. induction fuel as [|fuel IH]; intros s w Hwf Hf Hfuel; [lia|]. simpl. rewrite Hf.
  destruct (right s <? left s) eqn:E; reflect_bool.
  - destruct (converge hasData c s w) as [[err|s'] w'] eqn:Ec; [by eexists _, _|].
    apply (converge_found _ _ _ _ Hwf) in Ec as [Ec ?]. destruct fuel; [lia|]. simpl. rewrite Ec. by eexists _, _.
  - destruct (plain_step_shrinks s w Hwf E) as (Hwf' & Hf' & Hsz).
    destruct (plain_step hasData s w) as [s' w']. apply IH; [done|done|]. simpl in *. lia.
Qed.

Lemma offset_loop_ends fuel s visited w :
  range_wf s -> found s = false -> (range_size s + 2 <= fuel)%nat -> ends (offset_loop hasData c fuel s visited w).
Proof.
  revert s visited w. induction fuel as [|fuel IH]; intros s visited w Hwf Hf Hfuel; [lia|].
  simpl. rewrite Hf. destruct (right s <? left s) eqn:E; reflect_bool.
  - destruct (converge hasData c s w) as [[err|s'] w'] eqn:Ec; [by eexists _, _|].
    apply (converge_found _ _ _ _ Hwf) in Ec as [Ec ?]. destruct fuel; [lia|]. simpl. rewrite Ec. by eexists _, _.
  - destruct (offset_step_shrinks s visited w Hwf E) as (Hwf' & Hf' & Hsz).
    destruct (offset_step hasData c s visited w) as [[s' v'] w']. apply IH; [done|done|]. simpl in *. lia.
Qed.

Lemma initialRange_wf cached latest :
  cached < two63 -> 0 < latest < two63 - 1 -> range_wf (initialRange cached latest).
Proof.
  unfold range_wf, initialRange. simpl. destruct (0 <? cached) eqn:E; reflect_bool; unfold two63 in *; lia.
Qed.
End Ends.

(** A search from a cached bound below the largest height ends. *)
Lemma search_ends {W} (hasData : Z -> W -> bool * W) c latest w :
  lastBound c < two63 -> 0 < latest < two63 - 1 ->
  ends (if 0 <? maxOffset c then detectWithOffset hasData c (lastBound c) latest w
    else detectPlain hasData c (lastBound c) latest w).
Proof.
  intros Hc Hl. assert (range_wf (initialRange (lastBound c) latest)) as Hwf by (by apply initialRange_wf).
  unfold detectWithOffset, detectPlain, search_fuel.
  destruct (0 <? maxOffset c), (0 <? lastBound c) eqn:E; reflect_bool;
    [destruct (hasData (lastBound c) w) as [[] w']; [eexists _, _; split; [done|simpl; lia]|]| |
     destruct (hasData (lastBound c) w) as [[] w']; [eexists _, _; split; [done|simpl; lia]|]|].
  1,2: by apply offset_loop_ends. all: by apply plain_loop_ends.
Qed.

(** The bound on the head is needed: at the largest height the next height wraps
    around.  On a node that reports this head and has no data the range ends up at
    the heights from [1 - 2^63] on, whose size wraps around too, and the plain search
    asks for the same height for ever. *)
Section Stuck.
Context {W : Type} (hasData : Z -> W -> bool * W) (c : LowerBoundSearchCalculator).
Context (Hnone : forall h w, (hasData h w).1 = false).

Definition stuck_range (s : boundRange) : Prop :=
  found s = false /\ right s = two63 - 1 /\ (0 <= left s < two63 \/ left s = - two63 \/ left s = 1 - two63).

Lemma plain_step_stuck s w : stuck_range s -> stuck_range (plain_step hasData s w).1.
Proof using Hnone.
  intros (Hf & Hr & Hl). unfold plain_step. pose proof (Hnone (middle_of s) w) as Hn.
  destruct (hasData (middle_of s) w) as [b w']. cbn [fst] in Hn. subst b. cbn [fst]. split; [done|]. split; [done|]. cbn [left].
  assert (i64 (- two63 + 1) = 1 - two63) as E1 by reflexivity.
  destruct Hl as [Hl|Hl].
  - assert (left s <= middle_of s <= right s) as Hm.
    { unfold middle_of. rewrite Hr. rewrite (i64_id (two63 - 1 - left s)) by (unfold is_i64; lia).
      rewrite Z.quot_div_nonneg by lia.
      assert (0 <= (two63 - 1 - left s) / 2 <= two63 - 1 - left s) as Hd
        by (split; [apply Z.div_pos|apply Z.div_le_upper_bound]; lia).
      rewrite i64_id by (unfold is_i64, two63 in *; lia). lia. }
    destruct (decide (middle_of s = two63 - 1)) as [->|Hne]; [right; left; reflexivity|left].
    rewrite i64_id by (unfold is_i64, two63 in *; lia). unfold two63 in *. lia.
  - right. right. assert (middle_of s = - two63) as ->; [|exact E1].
    unfold middle_of. rewrite Hr. destruct Hl as [->| ->]; reflexivity.
Qed.

Lemma plain_loop_stuck fuel s w : stuck_range s -> plain_loop hasData c fuel s w = None.
Proof using Hnone.
  revert s w. induction fuel as [|fuel IH]; intros s w Hs; [done|]. cbn [plain_loop]. pose proof (plain_step_stuck s w Hs) as Hs'.
  destruct Hs as (-> & Hr & Hl). rewrite (proj2 (Z.ltb_ge _ _)) by (unfold two63 in *; lia).
  destruct (plain_step hasData s w) as [s' w']. by apply IH.
Qed.

Lemma largest_head_never_ends fuel w : plain_loop hasData c fuel (initialRange 0 (two63 - 1)) w = None.
Proof using Hnone. apply plain_loop_stuck. split; [done|]. split; [done|]. left. unfold two63. simpl. lia. Qed.
End Stuck.

(** The detection of a lower bound ends for every node, even one that
    answers the same probe differently each time, in both search modes: the
    fuel of the loops (the size of the range plus two) is always enough. A failure keeps
    the calculator, a bound is a height and is remembered. *)
Theorem DetectLowerBound_terminates {W} (hasData : Z -> W -> bool * W) c latest now w :
  lastBound c < two63 -> (forall h, latest = inr h -> h < two63 - 1) ->
  exists res c' w', DetectLowerBound hasData c latest now w = Some (res, c', w') /\
    match res with
    | inl _ => c' = c
    | inr bounds => 1 <= lastBound c' < two63 /\ c' = set_lastBound c (lastBound c') /\ bounds = lowerBoundResults c now (lastBound c')
    end.
Proof.
  intros Hc Hl. unfold DetectLowerBound. destruct latest as [err|latest]; [by eexists _, _, _|].
  destruct (latest <=? 0) eqn:E; reflect_bool; [by eexists _, _, _|]. specialize (Hl latest eq_refl).
  destruct (search_ends hasData c latest w Hc ltac:(lia)) as ([err|bound] & w' & -> & Hb); by eexists _, _, _.
Qed.

(** ** What a search leaves alone *)

Section Kept.
Context {W : Type} (hasData : Z -> W -> bool * W) (c : LowerBoundSearchCalculator) (P : W -> Prop).
Context (Hkept : forall h w, P w -> P (hasData h w).2).

Lemma converge_keeps s w : P w -> P (converge hasData c s w).2.
Proof using Hkept.
  intros Hw. unfold converge. destruct (hasData _ w) as [[] w1] eqn:E; [|destruct (_ && _)]; simpl; eapply eq_ind; try by apply Hkept.
  all: by rewrite E.
Qed.

Lemma shift_loop_keeps n mr lo block visited w : P w -> P (shift_loop hasData n mr lo block visited w).2.
Proof using Hkept.
  revert block visited w. induction n as [|n IH]; intros block visited w Hw; simpl; (destruct (_ || _); [done|]);
    apply (Hkept block) in Hw; destruct (hasData block w) as [[] w1]; try done. by apply IH.
Qed.

Lemma plain_loop_keeps fuel s w r w' : P w -> plain_loop hasData c fuel s w = Some (r, w') -> P w'.
Proof using Hkept.
  revert s w. induction fuel as [|fuel IH]; intros s w Hw; simpl; [done|]. destruct (found s); [by intros [= _ <-]|].
  destruct (right s <? left s).
  - pose proof (converge_keeps s w Hw). destruct (converge hasData c s w) as [[err|s'] w1]; [by intros [= _ <-]|by apply IH].
  - unfold plain_step. apply (Hkept (middle_of s)) in Hw. destruct (hasData (middle_of s) w) as [[] w1]; by apply IH.
Qed.

Lemma offset_loop_keeps fuel s visited w r w' : P w -> offset_loop hasData c fuel s visited w = Some (r, w') -> P w'.
Proof using Hkept.
  revert s visited w. induction fuel as [|fuel IH]; intros s visited w Hw; simpl; [done|]. destruct (found s); [by intros [= _ <-]|].
  destruct (right s <? left s).
  - pose proof (converge_keeps s w Hw). destruct (converge hasData c s w) as [[err|s'] w1]; [by intros [= _ <-]|by apply IH].
  - unfold offset_step. apply (Hkept (middle_of s)) in Hw. destruct (hasData (middle_of s) w) as [[] w1]; [by apply IH|].
    destruct (middle_of s <? 0); [by apply IH|]. unfold shiftLeftAndSearch.
    match goal with |- context [shift_loop hasData ?n ?mr ?lo ?b visited w1] => pose proof (shift_loop_keeps n mr lo b visited w1 Hw) end.
    destruct (shift_loop _ _ _ _ _ _ _) as [[s' v'] w2]. by apply IH.
Qed.

Lemma DetectLowerBound_keeps latest now w res c' w' :
  P w -> DetectLowerBound hasData c latest now w = Some (res, c', w') -> P w'.
Proof using Hkept.
  intros Hw. unfold DetectLowerBound. destruct latest as [err|latest]; [by intros [= _ _ <-]|].
  destruct (latest <=? 0); [by intros [= _ _ <-]|].
  destruct (if 0 <? maxOffset c then _ else _) as [[r w1]|] eqn:E; [|done]. assert (P w1) as Hw1.
  { unfold detectWithOffset, detectPlain in E. pose proof (Hkept (lastBound c) w Hw) as Hw2.
    destruct (hasData (lastBound c) w) as [[] w2]; destruct (0 <? maxOffset c), (0 <? lastBound c);
      first [by injection E as _ <- | by eapply offset_loop_keeps, E | by eapply plain_loop_keeps, E]. }
  destruct r; by intros [= _ _ <-].
Qed.
End Kept.

Definition demo_calc (offset : Z) : LowerBoundSearchCalculator :=
  mkCalculator "up1" StateBound [StateBound; TraceBound] offset 0.

(** A node that flips its answer with every probe. *)
Lemma DetectLowerBound_terminates_witness :
  exists res c' w', DetectLowerBound (fun _ (b : bool) => (b, negb b)) (demo_calc 3) (inr 1000) 7 true = Some (res, c', w').
Proof.
  destruct (DetectLowerBound_terminates (fun _ (b : bool) => (b, negb b)) (demo_calc 3) (inr 1000) 7 true) as (r & c' & w' & E & _);
    [done|by intros h [= <-]|]. by exists r, c', w'.
Defined.

(** ** What the search finds on a node that answers consistently *)

(** A node whose answer only depends on the height. *)
Definition steady_node (p : Z -> bool) : Z -> unit -> bool * unit := fun h w => (p h, w).

Section Monotone.
(** The node has the data of every height from [t] on. *)
Context (c : LowerBoundSearchCalculator) (t latest : Z).
Let p (h : Z) : bool := t <=? h.
Let node := steady_node p.
Context (Ht : 0 <= t) (Hlatest : 0 < latest < two63 - 1).

(** Nothing below [left] has data, and the best candidate is just above
    [right] and has data, or there is none yet. *)
Definition search_inv (s : boundRange) : Prop :=
  range_wf s /\ found s = false /\ left s <= t /\
  ((current s = 0 /\ right s = latest) \/ (current s = right s + 1 /\ t <= current s <= latest)).

Lemma plain_step_inv s :
  search_inv s -> left s <= right s -> search_inv (plain_step node s tt).1.
Proof using All.
  intros (Hwf & Hf & Hl & Hc) Hle.
  destruct (plain_step_shrinks node s tt Hwf Hle) as (Hwf' & Hf' & _).
  destruct (middle_of_eq s Hwf Hle) as [_ Hm]. unfold search_inv. split; [done|]. split; [done|].
  unfold plain_step, node, steady_node, p.
  destruct (t <=? middle_of s) eqn:E; reflect_bool; simpl; destruct Hwf.
  - rewrite i64_id by (unfold is_i64, two63 in *; lia). split; [done|]. right. lia.
  - rewrite i64_id by (unfold is_i64, two63 in *; lia). split; [lia|]. lia.
Qed.

(** Where the search ends. *)
Definition search_result : string + Z :=
  if t <=? latest then inr (Z.max 1 t)
  else if 10 <? latest then inl (detect_error c) else inr 1.

Lemma converge_result s :
  search_inv s -> right s < left s ->
  converge node c s tt =
    (match search_result with inl err => inl err | inr b => inr (mkRange 0 0 b true) end, tt).
Proof using All.
  intros (Hwf & Hf & Hl & Hc) Hlt. unfold converge, node, steady_node, search_result, p.
  destruct Hc as [[Hc Hr]|[Hc Ht']].
  - rewrite Hc, Hr. simpl. assert ((t <=? latest) = false) as -> by (apply Z.leb_gt; lia).
    assert ((t <=? 1) = false) as -> by (apply Z.leb_gt; lia). by destruct (10 <? latest).
  - assert (t = current s) as Hts by (destruct Hwf; lia).
    assert ((t <=? latest) = true) as -> by (apply Z.leb_le; lia). rewrite <- Hts.
    destruct (t =? 0) eqn:E; reflect_bool.
    + rewrite E. done.
    + rewrite Z.leb_refl. by replace (Z.max 1 t) with t by lia.
Qed.

Lemma plain_loop_result fuel s :
  search_inv s -> (range_size s + 2 <= fuel)%nat ->
  plain_loop node c fuel s tt = Some (search_result, tt).
Proof using All.
  revert s. induction fuel as [|fuel IH]; intros s Hinv Hfuel; [lia|]. simpl.
  rewrite (proj1 (proj2 Hinv)). destruct (right s <? left s) eqn:E; reflect_bool.
  - rewrite converge_result by done. destruct search_result as [err|b]; [done|].
    destruct fuel; [lia|done].
  - pose proof (plain_step_inv s Hinv E) as Hinv'.
    destruct (plain_step_shrinks node s tt (proj1 Hinv) E) as (_ & _ & Hsz).
    destruct (plain_step node s tt) as [s' []]. apply IH; [done|]. simpl in *. lia.
Qed.

(** Without gaps the scan to the left finds nothing. *)
Lemma shift_loop_none n mr lo block visited :
  block < t -> -1 <= block < two63 -> (shift_loop node n mr lo block visited tt).1.1 = mr.
Proof using All.
  revert block visited. induction n as [|n IH]; intros block visited Hb Hr; simpl;
    (destruct (bool_decide (block ∈ visited) || (block <? 0)) eqn:E; [done|]);
    unfold node, steady_node, p in *; reflect_bool;
    (assert ((t <=? block) = false) as -> by (apply Z.leb_gt; lia)); [done|].
  rewrite i64_id by (unfold is_i64, two63 in *; lia). apply IH; lia.
Qed.

Lemma offset_step_plain s visited :
  range_wf s -> left s <= right s ->
  (offset_step node c s visited tt).1.1 = (plain_step node s tt).1.
Proof using All.
  intros Hwf Hle. destruct (middle_of_eq s Hwf Hle) as [_ Hm]. unfold offset_step, plain_step.
  assert ((middle_of s <? 0) = false) as Hpos by (apply Z.ltb_ge; destruct Hwf; lia).
  unfold node, steady_node, p at 1 3. destruct (t <=? middle_of s) eqn:E; [done|]. rewrite Hpos.
  reflect_bool. destruct Hwf. apply shift_loop_none;
    rewrite i64_id by (unfold is_i64, two63 in *; lia); lia.
Qed.

Lemma offset_loop_plain fuel s visited :
  search_inv s -> offset_loop node c fuel s visited tt = plain_loop node c fuel s tt.
Proof using All.
  revert s visited. induction fuel as [|fuel IH]; intros s visited Hinv; [done|]. simpl.
  rewrite (proj1 (proj2 Hinv)). destruct (right s <? left s) eqn:E; reflect_bool.
  - rewrite converge_result by done. destruct search_result as [err|b]; [done|].
    by destruct fuel.
  - pose proof (plain_step_inv s Hinv E) as Hinv'.
    pose proof (offset_step_plain s visited (proj1 Hinv) E) as Hst.
    destruct (offset_step node c s visited tt) as [[s1 v] []].
    destruct (plain_step node s tt) as [s2 []]. simpl in *. subst s2. by apply IH.
Qed.
End Monotone.

(** On a node that has exactly the data from height [t] on, the search
    returns [t] (1 instead of 0), whatever older bound was cached below it, and
    confirms a cached bound that still has data; when no height has data it
    reports an error (or 1 on a chain of at most ten blocks).  Tolerating gaps
    ([maxOffset]) does not change the result. *)
Theorem search_finds_bound c t cached latest :
  0 <= t -> 0 < latest < two63 - 1 -> 0 <= cached < two63 ->
  let node := steady_node (fun h => t <=? h) in
  let result :=
    if (0 <? cached) && (t <=? cached) then inr cached
    else if t <=? latest then inr (Z.max 1 t)
    else if 10 <? latest then inl (detect_error c) else inr 1 in
  detectPlain node c cached latest tt = Some (result, tt) /\
  detectWithOffset node c cached latest tt = Some (result, tt).
Proof.
  intros Ht Hl Hc node result. unfold detectPlain, detectWithOffset.
  assert (range_wf (initialRange cached latest)) as Hwf by (apply initialRange_wf; lia).
  assert ((0 <? cached) && (t <=? cached) = false -> search_inv t latest (initialRange cached latest)) as Hinv.
  { intros E. split; [done|]. split; [done|]. unfold initialRange. simpl.
    destruct (0 <? cached); simpl in E; reflect_bool; split; [lia|by left|lia|by left]. }
  destruct ((0 <? cached) && (t <=? cached)) eqn:E.
  - reflect_bool. rewrite (proj2 (Z.ltb_lt _ _) H). unfold node, steady_node.
    by rewrite (proj2 (Z.leb_le _ _) H0).
  - specialize (Hinv eq_refl).
    pose proof (plain_loop_result c t latest Ht Hl _ _ Hinv (Nat.le_refl _)) as Hres.
    pose proof (fun f => offset_loop_plain c t latest Ht Hl f _ ∅ Hinv) as Hoff.
    unfold search_fuel. fold (range_size (initialRange cached latest)). fold node in Hres, Hoff.
    destruct (0 <? cached) eqn:E0; [|by rewrite Hoff]. simpl in E.
    assert (node cached tt = (false, tt)) as -> by (unfold node, steady_node; by rewrite E).
    by rewrite Hoff.
Qed.

Lemma search_finds_bound_witness :
  let node := steady_node (fun h => 137 <=? h) in
  detectPlain node (demo_calc 0) 100 1000 tt = Some (inr 137, tt) /\
  detectWithOffset node (demo_calc 3) 100 1000 tt = Some (inr 137, tt).
Proof.
  split; [apply (search_finds_bound (demo_calc 0) 137 100 1000)
         |apply (search_finds_bound (demo_calc 3) 137 100 1000)]; done.
Defined.

Section Sound.
Context (c : LowerBoundSearchCalculator) (p : Z -> bool).
Let node := steady_node p.

(** The candidate was seen to have data. *)
Definition candidate_ok (s : boundRange) : Prop := current s = 0 \/ p (current s) = true.

Lemma plain_step_candidate s : candidate_ok s -> candidate_ok (plain_step node s tt).1.
Proof using Type.
  unfold plain_step, node, steady_node, candidate_ok.
  destruct (p (middle_of s)) eqn:E; simpl; [by right|done].
Qed.

Lemma shift_loop_candidate n mr lo block visited :
  candidate_ok mr -> candidate_ok (shift_loop node n mr lo block visited tt).1.1.
Proof using Type.
  intros Hmr. revert block visited. induction n as [|n IH]; intros block visited; simpl;
    (destruct (bool_decide (block ∈ visited) || (block <? 0)); [done|]);
    unfold node, steady_node in *; (destruct (p block) eqn:E; [by right|]); [done|]. apply IH.
Qed.

Lemma offset_step_candidate s visited :
  candidate_ok s -> candidate_ok (offset_step node c s visited tt).1.1.
Proof using Type.
  intros Hs. unfold offset_step, node, steady_node at 1.
  destruct (p (middle_of s)) eqn:E; simpl; [by right|].
  destruct (middle_of s <? 0); [done|]. by apply shift_loop_candidate.
Qed.

Definition sound_result (r : string + Z) : Prop :=
  match r with inl _ => True | inr b => p b = true \/ b = 1 end.

Lemma converge_sound s r w :
  candidate_ok s -> converge node c s tt = (r, w) ->
  match r with inl _ => True | inr s' => found s' = true /\ sound_result (inr (current s')) end.
Proof using Type.
  intros Hs. unfold converge, node, steady_node.
  set (cur := if current s =? 0 then 1 else current s).
  assert (p cur = true \/ cur = 1) as Hcur.
  { unfold cur. destruct (current s =? 0) eqn:E; reflect_bool; [by right|].
    destruct Hs as [?|?]; [done|by left]. }
  destruct (p cur) eqn:E; [intros [= <- <-]; split; [done|by left]|].
  destruct Hcur as [?|Hcur]; [done|].
  destruct ((cur =? 1) && (10 <? right s)); intros [= <- <-]; [done|]. split; [done|by right].
Qed.

Lemma plain_loop_sound fuel s r w :
  candidate_ok s -> found s = false -> plain_loop node c fuel s tt = Some (r, w) -> sound_result r.
Proof using Type.
  revert s. induction fuel as [|fuel IH]; intros s Hs Hf; [done|]. simpl. rewrite Hf.
  destruct (right s <? left s).
  - destruct (converge node c s tt) as [[err|s'] []] eqn:E; apply converge_sound in E; try done.
    + by intros [= <- _].
    + destruct E as [Hf' Hr]. destruct fuel; [done|]. simpl. rewrite Hf'. by intros [= <- _].
  - pose proof (plain_step_candidate s Hs) as Hs'. destruct (plain_step node s tt) as [s' []] eqn:E.
    apply IH; [done|]. unfold plain_step, node, steady_node in E.
    destruct (p (middle_of s)); by injection E as <-.
Qed.

Lemma shift_loop_not_found n mr lo block visited :
  found mr = false -> found (shift_loop node n mr lo block visited tt).1.1 = false.
Proof using Type.
  intros Hmr. revert block visited. induction n as [|n IH]; intros block visited; simpl;
    (destruct (bool_decide (block ∈ visited) || (block <? 0)); [done|]);
    unfold node, steady_node in *; (destruct (p block); [done|]); [done|]. apply IH.
Qed.

Lemma offset_loop_sound fuel s visited r w :
  candidate_ok s -> found s = false -> offset_loop node c fuel s visited tt = Some (r, w) -> sound_result r.
Proof using Type.
  revert s visited. induction fuel as [|fuel IH]; intros s visited Hs Hf; [done|]. simpl. rewrite Hf.
  destruct (right s <? left s).
  - destruct (converge node c s tt) as [[err|s'] []] eqn:E; apply converge_sound in E; try done.
    + by intros [= <- _].
    + destruct E as [Hf' Hr]. destruct fuel; [done|]. simpl. rewrite Hf'. by intros [= <- _].
  - pose proof (offset_step_candidate s visited Hs) as Hs'.
    assert (found (offset_step node c s visited tt).1.1 = false) as Hf'.
    { unfold offset_step, node, steady_node at 1. destruct (p (middle_of s)); [done|].
      destruct (middle_of s <? 0); [done|]. by apply shift_loop_not_found. }
    destruct (offset_step node c s visited tt) as [[s' v'] []]. by apply IH.
Qed.
End Sound.

(** Whatever gaps the data of a node has, a detected bound is a height the
    node has data for, or 1; it is reported for every supported type and
    becomes the cached bound, and a failed detection keeps the cached one. *)
Theorem detected_bound_has_data c p latest now res c' w :
  DetectLowerBound (steady_node p) c latest now tt = Some (res, c', w) ->
  match res with
  | inl _ => c' = c
  | inr bounds =>
    (p (lastBound c') = true \/ lastBound c' = 1) /\
    bounds = lowerBoundResults c now (lastBound c') /\ bounds <> [] /\
    (forall b, b ∈ bounds -> Bound b = lastBound c') /\
    (forall t, t ∈ allSupportedTypes c -> exists b, b ∈ bounds /\ BoundType b = t)
  end.
Proof.
  unfold DetectLowerBound. destruct latest as [err|latest]; [by intros [= <- <- _]|].
  destruct (latest <=? 0); [by intros [= <- <- _]|].
  destruct (if 0 <? maxOffset c then _ else _) as [[[err|bound] []]|] eqn:E; [by intros [= <- <- _]| |done].
  intros [= <- <- _]. cbn [set_lastBound lastBound].
  assert (sound_result p (inr bound)) as Hs.
  { unfold detectWithOffset, detectPlain in E.
    change (steady_node p (lastBound c) tt) with (p (lastBound c), tt) in E.
    destruct (0 <? maxOffset c), (0 <? lastBound c);
      [destruct (p (lastBound c)) eqn:Ep; [injection E as <-; by left|]| |
       destruct (p (lastBound c)) eqn:Ep; [injection E as <-; by left|]|].
    1,2: eapply offset_loop_sound, E; [by left|done].
    all: eapply plain_loop_sound, E; [by left|done]. }
  split; [done|]. split; [done|]. unfold lowerBoundResults.
  destruct (allSupportedTypes c) as [|t ts]; split_and!; try done.
  - intros b ->%list_elem_of_singleton. done.
  - by intros t ?%elem_of_nil.
  - intros b (t' & -> & _)%list_elem_of_fmap. done.
  - intros t' Ht'. eexists. split; [by apply list_elem_of_fmap_2|]. done.
Qed.

(** Data with a gap: 40 is missing. *)
Lemma detected_bound_has_data_witness :
  let p := fun h => (20 <=? h) && negb (h =? 40) in
  exists bounds c', DetectLowerBound (steady_node p) (demo_calc 3) (inr 80) 7 tt =
    Some (inr bounds, c', tt) /\ lastBound c' = 20 /\ bounds <> [].
Proof.
  intros p. eexists _, _. split; [vm_compute; reflexivity|]. split; [done|].
  pose proof (detected_bound_has_data (demo_calc 3) p (inr 80) 7) as Hw.
  specialize (Hw _ _ _ eq_refl). vm_compute in Hw. destruct Hw as (_ & _ & Hw & _). exact Hw.
Defined.
