(* ===== verification/LowerBounds.v ===== *)
(** The lower bounds of an upstream over time
    ([internal/upstreams/lower_bounds/lower_bounds.go], [lower_bound_processor.go]):
    which detected bounds are published, the last ones that are kept, and the line that
    predicts the next one.

    The regression is a library ([Regression]); the detectors are arguments. *)

From S2P Require Import Prelude.
From S2P Require Import Protocol.
From S2P Require Import Float64.

(** [github.com/sajari/regression] on points (y, x): the second coefficient, [None] for
    an error. *)
Class Regression := regression_slope : list (float64 * float64) -> option float64.

Definition maxBounds : nat := 3.

(** ** The bounds of one type *)

Record LowerBoundCoeffs := mkCoeffs { lowerBounds : list LowerBoundData; coeff_k : float64; coeff_b : float64 }.

Definition NewLowerBoundCoeffs : LowerBoundCoeffs := mkCoeffs [] (f64_of_Z 0) (f64_of_Z 0).

Definition addBound (bound : LowerBoundData) (c : LowerBoundCoeffs) : LowerBoundCoeffs :=
  mkCoeffs (lowerBounds c ++ [bound]) (coeff_k c) (coeff_b c).
Definition updateCoeffs (newK newB : float64) (c : LowerBoundCoeffs) : LowerBoundCoeffs := mkCoeffs (lowerBounds c) newK newB.
Definition clearBounds (c : LowerBoundCoeffs) : LowerBoundCoeffs := mkCoeffs [] (coeff_k c) (coeff_b c).
Definition removeFirst (c : LowerBoundCoeffs) : LowerBoundCoeffs := mkCoeffs (tail (lowerBounds c)) (coeff_k c) (coeff_b c).

(** [None] is the panic on an empty list. *)
Definition getLastBound (c : LowerBoundCoeffs) : option LowerBoundData := last (lowerBounds c).

Definition calculateB (averageSpeed : float64) (bound : LowerBoundData) : float64 :=
  f64_sub (f64_of_Z (Bound bound)) (f64_mul averageSpeed (f64_of_Z (Timestamp bound))).

Abbreviation LowerBounds := (gmap LowerBoundType LowerBoundCoeffs).

Section Bounds.
Context `{RG : Regression} (averageSpeed : float64).

(** The line through the last point, with the slope of the regression or the average
    one. *)
Definition train (c : LowerBoundCoeffs) : option LowerBoundCoeffs :=
  lastLowerBound ← getLastBound c;
  let points := map (fun b => (f64_of_Z (Bound b), f64_of_Z (Timestamp b))) (lowerBounds c) in
  let k := default averageSpeed (regression_slope points) in
  Some (updateCoeffs k (f64_sub (f64_of_Z (Bound lastLowerBound)) (f64_mul k (f64_of_Z (Timestamp lastLowerBound)))) c).

Definition initBound (newBound : LowerBoundData) : LowerBoundCoeffs :=
  let coeffs := addBound newBound NewLowerBoundCoeffs in
  if Bound newBound =? 1 then updateCoeffs (f64_of_Z 0) (f64_of_Z 1) coeffs
  else updateCoeffs averageSpeed (calculateB averageSpeed newBound) coeffs.

Definition resetBound (newBound : LowerBoundData) (a b : float64) (coeffs : LowerBoundCoeffs) : LowerBoundCoeffs :=
  addBound newBound (clearBounds (updateCoeffs a b coeffs)).

Definition appendBound (newBound : LowerBoundData) (coeffs : LowerBoundCoeffs) : LowerBoundCoeffs :=
  addBound newBound (if bool_decide (length (lowerBounds coeffs) = maxBounds) then removeFirst coeffs else coeffs).

(** [UpdateBound] on the bounds of the type. *)
Definition update_coeffs (newBound : LowerBoundData) (coeffs : LowerBoundCoeffs) : option LowerBoundCoeffs :=
  lastBound ← getLastBound coeffs;
  if Timestamp newBound =? Timestamp lastBound then Some coeffs
  else if Bound newBound =? 1 then Some (resetBound newBound (f64_of_Z 0) (f64_of_Z 1) coeffs)
  else if (Bound newBound <? Bound lastBound) || (100000 <=? i64 (Bound newBound - Bound lastBound))
  then Some (resetBound newBound averageSpeed (calculateB averageSpeed newBound) coeffs)
  else
    let coeffs := appendBound newBound coeffs in
    if bool_decide (length (lowerBounds coeffs) < maxBounds)%nat
    then Some (updateCoeffs averageSpeed (calculateB averageSpeed newBound) coeffs)
    else train coeffs.

(** ** All types *)

Definition UpdateBound (newBound : LowerBoundData) (lb : LowerBounds) : option LowerBounds :=
  match lb !! BoundType newBound with
  | None => Some (<[BoundType newBound := initBound newBound]> lb)
  | Some coeffs => coeffs ← update_coeffs newBound coeffs; Some (<[BoundType newBound := coeffs]> lb)
  end.

Definition PredictNextBoundAtSpecificTime (lb : LowerBounds) (t : LowerBoundType) (timestamp : Z) : Z :=
  match lb !! t with
  | None => 0
  | Some c => f64_round_int (f64_add (f64_mul (coeff_k c) (f64_of_Z timestamp)) (coeff_b c))
  end.

(** [now] in seconds. *)
Definition PredictNextBound (now : Z) (lb : LowerBounds) (t : LowerBoundType) (timeOffsetSeconds : Z) : Z :=
  PredictNextBoundAtSpecificTime lb t (i64 (now + timeOffsetSeconds)).

Definition GetLastBound (lb : LowerBounds) (t : LowerBoundType) : option (option LowerBoundData) :=
  match lb !! t with
  | None => Some None
  | Some c => bound ← getLastBound c; Some (Some bound)
  end.

Definition GetAllBounds (lb : LowerBounds) (t : LowerBoundType) : list LowerBoundData :=
  match lb !! t with None => [] | Some c => lowerBounds c end.

(** ** The processor *)

(** [processBounds] on the bounds that are left: what is published, and the state. *)
Fixpoint publish_bounds (bounds : list LowerBoundData) (lb : LowerBounds) : option (list LowerBoundData * LowerBounds) :=
  match bounds with
  | [] => Some ([], lb)
  | data :: bounds =>
    lastBound ← GetLastBound lb (BoundType data);
    let bound := match lastBound with None => 0 | Some b => Bound b end in
    if (bound <=? Bound data) || (Bound data =? 1) then
      lb ← UpdateBound data lb;
      '(out, lb) ← publish_bounds bounds lb;
      Some (data :: out, lb)
    else publish_bounds bounds lb
  end.

(** A detection and its error; nothing is published for an error. *)
Definition processBounds (detected : string + list LowerBoundData) (lb : LowerBounds) : option (list LowerBoundData * LowerBounds) :=
  match detected with inl _ => Some ([], lb) | inr bounds => publish_bounds bounds lb end.

(** The detections of the detectors, as they come in: what subscribers are told. *)
Fixpoint process_all (detections : list (string + list LowerBoundData)) (lb : LowerBounds)
    : option (list LowerBoundData * LowerBounds) :=
  match detections with
  | [] => Some ([], lb)
  | d :: detections =>
    '(out, lb) ← processBounds d lb;
    '(out', lb) ← process_all detections lb;
    Some (out ++ out', lb)
  end.

(** ** The invariant *)

(** A later bound after an earlier one: at another time, not lower, and less than
    100000 higher. *)
Definition follows (a b : LowerBoundData) : Prop :=
  Timestamp a <> Timestamp b /\ Bound a <= Bound b < Bound a + 100000.

Fixpoint chained (l : list LowerBoundData) : Prop :=
  match l with
  | a :: (b :: _) as l' => follows a b /\ chained l'
  | _ => True
  end.

Record coeffs_ok (t : LowerBoundType) (c : LowerBoundCoeffs) : Prop := mkCoeffsOk {
  co_nonempty : lowerBounds c <> [];
  co_small : (length (lowerBounds c) <= maxBounds)%nat;
  co_type : Forall (fun b => BoundType b = t /\ is_i64 (Bound b) /\ 0 <= Bound b) (lowerBounds c);
  co_chain : chained (lowerBounds c);
}.

Definition bounds_ok (lb : LowerBounds) : Prop := map_Forall coeffs_ok lb.

Lemma chained_snoc l a b : chained (l ++ [a]) -> follows a b -> chained ((l ++ [a]) ++ [b]).
Proof using Type.
  intros Hl Hf. induction l as [|x l IH]; [done|]. destruct l as [|y l]; simpl in *; [by destruct Hl|].
  destruct Hl as [Hx Hl]. split; [done|]. by apply IH.
Qed.

Lemma chained_tail l : chained l -> chained (tail l).
Proof using Type. destruct l as [|a [|b l]]; simpl; [done..|]. by intros [_ H]. Qed.

Lemma last_snoc_inv (l : list LowerBoundData) a : last l = Some a -> exists l', l = l' ++ [a].
Proof using Type. intros Hl. apply last_Some in Hl as [l' ->]. by exists l'. Qed.

Lemma append_ok t c a d : coeffs_ok t c -> getLastBound c = Some a -> BoundType d = t -> is_i64 (Bound d) -> 0 <= Bound d ->
  follows a d -> coeffs_ok t (appendBound d c) /\ getLastBound (appendBound d c) = Some d.
Proof using Type.
  intros [Hne Hs Ht Hc] Hl Hd Hi H0 Hf. unfold appendBound, addBound, getLastBound. cbn [lowerBounds].
  assert (forall l, last l = Some a -> (length l < maxBounds)%nat -> chained l ->
    Forall (fun b => BoundType b = t /\ is_i64 (Bound b) /\ 0 <= Bound b) l ->
    coeffs_ok t (mkCoeffs (l ++ [d]) (coeff_k c) (coeff_b c))) as Happ.
  { intros l Hla Hle Hch Hall. apply last_snoc_inv in Hla as [l' ->]. split; cbn [lowerBounds].
    - by destruct l'.
    - rewrite !length_app in *. simpl in *. lia.
    - apply Forall_app. split; [done|]. by apply Forall_singleton.
    - by apply chained_snoc. }
  case_bool_decide as Elen; cbn [lowerBounds removeFirst].
  - split; [|by rewrite last_app]. unfold maxBounds in *. destruct c as [l k b]. cbn [lowerBounds] in *.
    destruct l as [|x [|y l]]; [done..|]. apply (Happ (y :: l)); simpl in *; [done|lia|by destruct Hc|].
    by apply Forall_cons in Ht as [_ Ht].
  - split; [|by rewrite last_app]. destruct c as [l k b]. cbn [lowerBounds] in *. apply Happ; [done|lia|done|done].
Qed.

Lemma reset_ok t c d a b : BoundType d = t -> is_i64 (Bound d) -> 0 <= Bound d ->
  coeffs_ok t (resetBound d a b c) /\ getLastBound (resetBound d a b c) = Some d.
Proof using Type. intros Ht Hi H0. split; [|done]. split; simpl; [done|unfold maxBounds; lia|by apply Forall_singleton|done]. Qed.

(** Every update succeeds and keeps the invariant; the last bound is then the new one,
    unless it has the time of the one before, and is dropped. *)
Lemma update_coeffs_ok t c d : coeffs_ok t c -> BoundType d = t -> is_i64 (Bound d) -> 0 <= Bound d ->
  exists a c', getLastBound c = Some a /\ update_coeffs d c = Some c' /\ coeffs_ok t c' /\
    ((Timestamp d = Timestamp a /\ c' = c) \/ (Timestamp d <> Timestamp a /\ getLastBound c' = Some d)).
Proof using Type.
  intros Hok Ht Hi H0. destruct (getLastBound c) as [a|] eqn:Ea; [|by apply last_None in Ea; destruct (co_nonempty _ _ Hok)].
  exists a. unfold update_coeffs. rewrite Ea. cbn [mbind option_bind].
  destruct (Timestamp d =? Timestamp a) eqn:Et; reflect_bool; [exists c; naive_solver|].
  destruct (Bound d =? 1); [eexists; split; [done|]; split; [done|]; destruct (reset_ok t c d (f64_of_Z 0) (f64_of_Z 1)); naive_solver|].
  destruct (_ || _) eqn:Er.
  { eexists; split; [done|]; split; [done|]. destruct (reset_ok t c d averageSpeed (calculateB averageSpeed d)); naive_solver. }
  apply orb_false_iff in Er as [Hlt Hfar]. reflect_bool.
  assert (is_i64 (Bound a) /\ 0 <= Bound a) as [Hia Ha0].
  { apply last_snoc_inv in Ea as [l El]. pose proof (co_type _ _ Hok) as Hall. rewrite El in Hall.
    apply Forall_app in Hall as [_ Hall]. by apply Forall_cons in Hall as [(_ & ? & ?) _]. }
  rewrite i64_id in Hfar by (unfold is_i64, two63 in *; lia).
  destruct (append_ok t c a d Hok Ea Ht Hi H0) as [Hok' Hl']; [split; [congruence|lia]|].
  assert (forall k b, coeffs_ok t (updateCoeffs k b (appendBound d c))) as Hup by (intros k b; by destruct Hok').
  case_bool_decide; [eexists; split; [done|]; split; [done|]; split; [apply Hup|by right]|].
  unfold train. rewrite Hl'. cbn [mbind option_bind]. eexists. split; [done|]. split; [done|]. split; [apply Hup|]. by right.
Qed.
End Bounds.

(** ** What subscribers are told *)

Section Published.
Context `{RG : Regression} (averageSpeed : float64).

Definition stored (lb : LowerBounds) (t : LowerBoundType) : option LowerBoundData := lb !! t ≫= getLastBound.

(** Each bound is 1 or not lower than the one before. *)
Fixpoint advancing (prev : option LowerBoundData) (l : list LowerBoundData) : Prop :=
  match l with
  | [] => True
  | d :: l => (Bound d = 1 \/ match prev with None => 0 <= Bound d | Some a => Bound a <= Bound d end) /\ advancing (Some d) l
  end.

Definition of_type (t : LowerBoundType) (l : list LowerBoundData) : list LowerBoundData := base.filter (fun d => BoundType d = t) l.

Definition valid_bound (d : LowerBoundData) : Prop := is_i64 (Bound d) /\ 0 <= Bound d.

(** No two bounds of a type have the same time, also counting the one that is stored. *)
Definition times_differ (lb : LowerBounds) (l : list LowerBoundData) : Prop :=
  forall t, NoDup (map Timestamp (match stored lb t with Some a => [a] | None => [] end ++ of_type t l)).

Lemma GetLastBound_ok lb t : bounds_ok lb -> GetLastBound lb t = Some (stored lb t).
Proof using Type.
  intros Hok. unfold GetLastBound, stored. destruct (lb !! t) as [c|] eqn:Ec; [|done]. cbn [mbind option_bind].
  pose proof (Hok t c Ec) as Hc. destruct (getLastBound c) eqn:El; [done|].
  apply last_None in El. by destruct (co_nonempty _ _ Hc).
Qed.

Lemma UpdateBound_ok lb d : bounds_ok lb -> valid_bound d ->
  exists lb', UpdateBound averageSpeed d lb = Some lb' /\ bounds_ok lb' /\
    (forall t, t <> BoundType d -> stored lb' t = stored lb t) /\
    ((exists a, stored lb (BoundType d) = Some a /\ Timestamp d = Timestamp a /\ stored lb' (BoundType d) = Some a) \/
     stored lb' (BoundType d) = Some d).
Proof using Type.
  intros Hok [Hi H0]. unfold UpdateBound. destruct (lb !! BoundType d) as [c|] eqn:Ec.
  - destruct (update_coeffs_ok averageSpeed (BoundType d) c d (Hok _ _ Ec) eq_refl Hi H0) as (a & c' & Ha & -> & Hc' & Hcase).
    cbn [mbind option_bind]. eexists. split; [done|]. split; [by apply map_Forall_insert_2|]. unfold stored. split.
    + intros t Ht. by rewrite lookup_insert_ne.
    + rewrite lookup_insert_eq, Ec. cbn [mbind option_bind]. destruct Hcase as [[Ht ->]|[_ Hl]]; [left; by exists a|by right].
  - eexists. split; [done|]. unfold stored. split_and!.
    + apply map_Forall_insert_2; [|done]. unfold initBound.
      split; (destruct (_ =? 1); simpl; [..]); try done; unfold maxBounds; try lia; by apply Forall_singleton.
    + intros t Ht. by rewrite lookup_insert_ne.
    + right. rewrite lookup_insert_eq. cbn [mbind option_bind]. unfold initBound. by destruct (_ =? 1).
Qed.

Lemma times_differ_tail lb lb' d l : times_differ lb (d :: l) ->
  (forall t, t <> BoundType d -> stored lb' t = stored lb t) ->
  (stored lb' (BoundType d) = stored lb (BoundType d) \/ stored lb' (BoundType d) = Some d) -> times_differ lb' l.
Proof using Type.
  intros Ht Hne Heq t. specialize (Ht t). unfold of_type in Ht. destruct (decide (BoundType d = t)) as [<-|Hd].
  - rewrite filter_cons_True in Ht by done. rewrite map_app in Ht. cbn [map] in Ht. destruct Heq as [-> | ->].
    + rewrite map_app. eapply sublist_NoDup; [exact Ht|]. apply sublist_app; [done|]. by apply sublist_cons.
    + apply NoDup_app in Ht as (_ & _ & Ht). exact Ht.
  - rewrite filter_cons_False in Ht by done. by rewrite Hne.
Qed.

(** Nothing panics, and of every type the published bounds advance. *)
Lemma publish_bounds_ok l lb : bounds_ok lb -> Forall valid_bound l -> times_differ lb l ->
  exists out lb', publish_bounds averageSpeed l lb = Some (out, lb') /\ bounds_ok lb' /\
    (forall t, advancing (stored lb t) (of_type t out)) /\
    (forall t, stored lb' t = match last (of_type t out) with Some d => Some d | None => stored lb t end) /\ sublist out l.
Proof using Type.
  revert lb. induction l as [|d l IH]; intros lb Hok Hv Ht; cbn [publish_bounds].
  { exists [], lb. by split_and!. }
  apply Forall_cons in Hv as [Hd Hv]. rewrite (GetLastBound_ok lb _ Hok). cbn [mbind option_bind].
  destruct ((_ <=? Bound d) || _) eqn:Ep.
  - destruct (UpdateBound_ok lb d Hok Hd) as (lb1 & -> & Hok1 & Hne & Hcase). cbn [mbind option_bind].
    assert (stored lb1 (BoundType d) = Some d) as Hst.
    { destruct Hcase as [(a & Ha & Hts & _)|]; [|done]. specialize (Ht (BoundType d)). rewrite Ha in Ht. unfold of_type in Ht.
      rewrite filter_cons_True in Ht by done. cbn [map app] in Ht. apply NoDup_cons in Ht as [Hni _]. destruct Hni.
      rewrite Hts. by left. }
    destruct (IH lb1 Hok1 Hv) as (out & lb2 & -> & Hok2 & Hadv & Hlast & Hsub);
      [by eapply times_differ_tail; [done|done|right]|].
    exists (d :: out), lb2. split; [done|]. split; [done|]. split_and!.
    + intros t. unfold of_type. destruct (decide (BoundType d = t)) as [<-|Hdt].
      * rewrite filter_cons_True by done. cbn [advancing]. split; [|rewrite <- Hst; apply Hadv].
        apply orb_true_iff in Ep as [Ep|Ep]; reflect_bool; [right; by destruct (stored lb (BoundType d))|by left].
      * rewrite filter_cons_False, <- (Hne t) by congruence. apply Hadv.
    + intros t. rewrite Hlast. unfold of_type. destruct (decide (BoundType d = t)) as [<-|Hdt].
      * rewrite filter_cons_True, last_cons by done. by destruct (last _).
      * rewrite filter_cons_False, (Hne t) by congruence. done.
    + by apply sublist_skip.
  - destruct (IH lb Hok Hv) as (out & lb2 & -> & Hok2 & Hadv & Hlast & Hsub); [eapply times_differ_tail; [done|done|by left]|].
    exists out, lb2. split_and!; [done..|]. by apply sublist_cons.
Qed.

Definition detected_bounds (d : string + list LowerBoundData) : list LowerBoundData := match d with inl _ => [] | inr l => l end.

Lemma publish_bounds_app l l' lb : publish_bounds averageSpeed (l ++ l') lb =
  '(out, lb) ← publish_bounds averageSpeed l lb; '(out', lb) ← publish_bounds averageSpeed l' lb; Some (out ++ out', lb).
Proof using Type.
  revert lb. induction l as [|d l IH]; intros lb; cbn [app publish_bounds].
  { cbn. destruct (publish_bounds _ l' lb) as [[out' lb']|]; done. }
  destruct (GetLastBound lb (BoundType d)) as [b|]; [|done]. cbn [mbind option_bind]. destruct (_ || _); [|apply IH].
  destruct (UpdateBound _ d lb) as [lb1|]; [|done]. cbn [mbind option_bind]. rewrite IH.
  destruct (publish_bounds _ l lb1) as [[o1 lb2]|]; [|done]. cbn. by destruct (publish_bounds _ l' lb2) as [[o2 lb3]|].
Qed.

Lemma process_all_flat ds lb : process_all averageSpeed ds lb = publish_bounds averageSpeed (concat (map detected_bounds ds)) lb.
Proof using Type.
  revert lb. induction ds as [|d ds IH]; intros lb; cbn [process_all map concat]; [done|]. rewrite publish_bounds_app.
  unfold processBounds. destruct d as [err|l]; cbn [detected_bounds publish_bounds].
  - cbn [mbind option_bind app]. rewrite IH. by destruct (publish_bounds _ _ lb) as [[o lb']|].
  - destruct (publish_bounds _ l lb) as [[o lb']|]; [|done]. cbn. by rewrite IH.
Qed.
End Published.

(** However often the detectors of an upstream report, with errors in between, the
    processor never fails, publishes only bounds they reported, in order, and of every
    type a bound is published only if it is 1 or not lower than the one before, as
    long as no two reports of a type have the same second; it keeps at most three
    bounds of a type, the last one being the last published, each within 100000 of the
    one before. *)
Theorem lower_bounds_advance `{Regression} averageSpeed ds :
  Forall valid_bound (concat (map detected_bounds ds)) -> times_differ ∅ (concat (map detected_bounds ds)) ->
  exists out lb, process_all averageSpeed ds ∅ = Some (out, lb) /\ sublist out (concat (map detected_bounds ds)) /\
    forall t, advancing None (of_type t out) /\ stored lb t = last (of_type t out) /\
      (length (GetAllBounds lb t) <= maxBounds)%nat /\ chained (GetAllBounds lb t).
Proof.
  intros Hv Ht. rewrite process_all_flat.
  destruct (publish_bounds_ok averageSpeed _ ∅ (map_Forall_empty _) Hv Ht) as (out & lb & -> & Hok & Hadv & Hlast & Hsub).
  exists out, lb. split; [done|]. split; [done|]. intros t.
  assert (stored ∅ t = None) as H0 by (unfold stored; by rewrite lookup_empty).
  specialize (Hadv t). specialize (Hlast t). rewrite H0 in *. split; [done|]. split; [by destruct (last _)|].
  unfold GetAllBounds. destruct (lb !! t) as [c|] eqn:Ec; [|split; [simpl; lia|done]]. by destruct (Hok t c Ec).
Qed.

#[local] Instance sample_regression : Regression := fun _ => None.

Definition sample_reports : list (string + list LowerBoundData) :=
  [inr [mkLowerBoundData 100 1 StateBound; mkLowerBoundData 7 1 TxBound]; inl "timeout";
   inr [mkLowerBoundData 90 2 StateBound; mkLowerBoundData 1 2 TxBound]; inr [mkLowerBoundData 130 3 StateBound]].

Lemma lower_bounds_advance_witness : exists out lb, process_all (f64_of_Z 0) sample_reports ∅ = Some (out, lb) /\
  advancing None (of_type StateBound out) /\ stored lb StateBound = last (of_type StateBound out).
Proof.
  destruct (lower_bounds_advance (f64_of_Z 0) sample_reports) as (out & lb & Hp & _ & Ht).
  - repeat (apply Forall_cons; split; [split; [split; [vm_compute; discriminate|reflexivity]|vm_compute; discriminate]|]). constructor.
  - intros t. unfold times_differ, stored. rewrite lookup_empty. by destruct t; apply (bool_decide_unpack _); vm_compute.
  - exists out, lb. split; [exact Hp|]. destruct (Ht StateBound) as (Ha & Hl & _). split; [exact Ha|exact Hl].
Defined.

(** Two reports in one second: the second one is published but not kept, so the next
    one may be lower than what was last published. *)
Lemma same_second_not_kept :
  exists lb, process_all (f64_of_Z 0)
    [inr [mkLowerBoundData 10 5 StateBound]; inr [mkLowerBoundData 20 5 StateBound]; inr [mkLowerBoundData 15 6 StateBound]] ∅ =
    Some ([mkLowerBoundData 10 5 StateBound; mkLowerBoundData 20 5 StateBound; mkLowerBoundData 15 6 StateBound], lb).
Proof. eexists. vm_compute. reflexivity. Qed.
