(* ===== verification/PathMatcher.v ===== *)
(** Matching REST paths against templates with a trie, and rebuilding the URL
    from a match ([pkg/utils/path.go]). *)

From S2P Require Import Prelude.
From S2P Require Import GoStrings.
From Stdlib Require Import Ascii.

(** [strings.TrimPrefix] with a slash. *)
Definition trim_slash (s : string) : string :=
  match s with String "/"%char s' => s' | _ => s end.

(** ** The trie *)

Inductive pathNode := PathNode {
  children : gmap string pathNode;
  wildcard : option pathNode;
  template : string;
}.

Definition newPathNode : pathNode := PathNode ∅ None "".

Definition splitTemplate (s : string) : list string :=
  let '(verb, rest) := cut_at "#" s in
  (if bool_decide (verb = "") then [] else [verb]) ++
  filter (fun p => p <> "") (split_on "/" (trim_slash rest)).

Fixpoint add_path (segs : list string) (t : string) (node : pathNode) : pathNode :=
  match segs with
  | [] => PathNode (children node) (wildcard node) t
  | seg :: segs' =>
    if bool_decide (seg = "*") then
      PathNode (children node) (Some (add_path segs' t (default newPathNode (wildcard node)))) (template node)
    else
      PathNode (<[seg := add_path segs' t (default newPathNode (children node !! seg))]> (children node))
        (wildcard node) (template node)
  end.

Definition PathMatcher_add (root : pathNode) (t : string) : pathNode := add_path (splitTemplate t) t root.

Definition NewPathMatcher (templates : list string) : pathNode :=
  foldl PathMatcher_add newPathNode templates.

Fixpoint match_path (segs : list string) (node : pathNode) (captures : list string)
    : option (string * list string) :=
  match segs with
  | [] => if bool_decide (template node = "") then None else Some (template node, captures)
  | seg :: segs' =>
    match children node !! seg with
    | Some child => match_path segs' child captures
    | None =>
      match wildcard node with
      | Some w => match_path segs' w (captures ++ [seg])
      | None => None
      end
    end
  end.

Definition PathMatcher_Match (root : pathNode) (fullPath : string) : option (string * list string) :=
  match_path (splitTemplate fullPath) root [].

(** The loop over the segments of the template. *)
Fixpoint fill_segments (segments params : list string) : option (list string) :=
  match segments with
  | [] => Some []
  | seg :: segments' =>
    if bool_decide (seg = "*") then
      match params with
      | [] => None
      | p :: params' => cons p <$> fill_segments segments' params'
      end
    else cons seg <$> fill_segments segments' params
  end.

(** [None] is the error of missing path parameters. *)
Definition BuildRestURL (t : string) (pathParams : list string) : option (string * string) :=
  let '(verb, rest) := cut_at "#" t in
  if negb (contains_char "*" rest) then Some (verb, rest)
  else
    segments ← fill_segments (split_on "/" rest) pathParams;
    Some (verb, join_with "/" segments).

(** ** What the trie holds *)

(** The template registered under exactly these segments. *)
Fixpoint registered_at (node : pathNode) (pattern : list string) : string :=
  match pattern with
  | [] => template node
  | seg :: pattern' =>
    if bool_decide (seg = "*") then
      match wildcard node with Some w => registered_at w pattern' | None => "" end
    else
      match children node !! seg with Some n => registered_at n pattern' | None => "" end
  end.

Lemma registered_at_new pattern : registered_at newPathNode pattern = "".
Proof. destruct pattern; simpl; [done|]. by case_bool_decide. Qed.

Lemma registered_at_add segs t node pattern :
  registered_at (add_path segs t node) pattern =
    if bool_decide (pattern = segs) then t else registered_at node pattern.
Proof.
  revert node pattern. induction segs as [|seg segs IH]; intros node pattern.
  - destruct pattern as [|s pattern]; [done|]. cbn [add_path registered_at children wildcard]. by rewrite (bool_decide_eq_false_2 (s :: pattern = [])).
  - destruct pattern as [|s pattern]; cbn [add_path registered_at].
    + rewrite (bool_decide_eq_false_2 ([] = seg :: segs)) by done. by case_bool_decide.
    + assert (bool_decide (s :: pattern = seg :: segs) =
        bool_decide (s = seg) && bool_decide (pattern = segs)) as ->.
      { apply Bool.eq_iff_eq_true. rewrite andb_true_iff, !bool_decide_eq_true. naive_solver. }
      destruct (decide (seg = "*")) as [->|Hseg].
      * rewrite (bool_decide_eq_true_2 ("*" = "*")) by done. cbn [wildcard children].
        destruct (decide (s = "*")) as [->|Hs].
        -- rewrite (bool_decide_eq_true_2 ("*" = "*")) by done. rewrite IH. simpl.
           destruct (wildcard node); simpl; [done|]. by rewrite registered_at_new.
        -- rewrite !(bool_decide_eq_false_2 (s = "*")) by done. done.
      * rewrite (bool_decide_eq_false_2 (seg = "*")) by done. cbn [wildcard children].
        destruct (decide (s = "*")) as [->|Hs].
        -- rewrite (bool_decide_eq_true_2 ("*" = "*")) by done.
           by rewrite (bool_decide_eq_false_2 ("*" = seg)) by congruence.
        -- rewrite (bool_decide_eq_false_2 (s = "*")) by done.
           destruct (decide (s = seg)) as [->|Hne].
           ++ rewrite lookup_insert_eq, IH, (bool_decide_eq_true_2 (seg = seg)) by done. simpl.
              destruct (children node !! seg); simpl; [done|]. by rewrite registered_at_new.
           ++ by rewrite lookup_insert_ne, (bool_decide_eq_false_2 (s = seg)) by congruence.
Qed.

(** Every template in the trie was registered, under its own segments. *)
Lemma NewPathMatcher_registered templates pattern :
  registered_at (NewPathMatcher templates) pattern <> "" ->
  registered_at (NewPathMatcher templates) pattern ∈ templates /\
  splitTemplate (registered_at (NewPathMatcher templates) pattern) = pattern.
Proof.
  unfold NewPathMatcher. induction templates as [|t ts IH] using rev_ind.
  - simpl. by rewrite registered_at_new.
  - rewrite foldl_snoc. unfold PathMatcher_add at 1 3 5. rewrite registered_at_add.
    case_bool_decide as Hp; [intros _; split; [set_solver|done]|].
    intros Hne. destruct (IH Hne). split; [set_solver|done].
Qed.

(** Every registered template is found under its segments (the last one with
    the same segments wins). *)
Lemma NewPathMatcher_complete templates t :
  t ∈ templates -> ("" ∉ templates) ->
  registered_at (NewPathMatcher templates) (splitTemplate t) <> "".
Proof.
  unfold NewPathMatcher. induction templates as [|u ts IH] using rev_ind; [by intros ?%elem_of_nil|].
  intros Hin Hne. rewrite foldl_snoc. unfold PathMatcher_add at 1. rewrite registered_at_add.
  case_bool_decide as Hp; [set_solver|].
  apply elem_of_app in Hin as [Hin|Hin]; [|apply list_elem_of_singleton in Hin; congruence]. apply IH; set_solver.
Qed.

(** No literal child is called "*": that segment always goes to the wildcard. *)
Inductive trie_ok : pathNode -> Prop :=
| trie_ok_node ch w t :
    ch !! "*" = None -> (forall s n, ch !! s = Some n -> trie_ok n) ->
    (forall n, w = Some n -> trie_ok n) -> trie_ok (PathNode ch w t).

Lemma newPathNode_ok : trie_ok newPathNode.
Proof. constructor; [done|intros s n; by rewrite lookup_empty|done]. Qed.

Lemma add_path_ok segs t node : trie_ok node -> trie_ok (add_path segs t node).
Proof.
  revert node. induction segs as [|seg segs IH]; intros node [ch w t' Hs Hc Hw]; cbn [add_path children wildcard template];
    [by constructor|].
  case_bool_decide as Hseg.
  - constructor; [done|done|]. intros n [= <-]. apply IH.
    destruct w; simpl; [by apply Hw|apply newPathNode_ok].
  - constructor; [by rewrite lookup_insert_ne| |done]. intros s n. rewrite lookup_insert. case_decide; [|apply Hc].
    intros [= <-]. apply IH. destruct (ch !! seg) eqn:E; simpl; [by eapply Hc|apply newPathNode_ok].
Qed.

Lemma NewPathMatcher_ok templates : trie_ok (NewPathMatcher templates).
Proof.
  unfold NewPathMatcher. induction templates as [|t ts IH] using rev_ind; [apply newPathNode_ok|].
  rewrite foldl_snoc. by apply add_path_ok.
Qed.

Lemma match_path_sound segs node captures t caps :
  trie_ok node -> match_path segs node captures = Some (t, caps) ->
  t <> "" /\ exists pattern new, registered_at node pattern = t /\ caps = captures ++ new /\
    length new = length (filter (fun s => s = "*") pattern) /\ fill_segments pattern new = Some segs.
Proof.
  revert node captures. induction segs as [|seg segs IH]; intros node captures [ch w t' Hs Hc Hw];
    cbn [match_path children wildcard template].
  - case_bool_decide; [done|]. intros [= <- <-]. split; [done|]. exists [], [].
    by rewrite app_nil_r.
  - destruct (ch !! seg) as [child|] eqn:Ec.
    + intros Hm. destruct (IH _ _ (Hc _ _ Ec) Hm) as (Hne & pattern & new & Hr & Hcap & Hl & Hf).
      assert (seg <> "*") as Hseg by congruence. split; [done|].
      exists (seg :: pattern), new. cbn [registered_at fill_segments children wildcard].
      rewrite !(bool_decide_eq_false_2 (seg = "*")), Ec, Hf by done.
      by rewrite filter_cons, decide_False by done.
    + destruct w as [w|]; [|done]. intros Hm.
      destruct (IH _ _ (Hw _ eq_refl) Hm) as (Hne & pattern & new & Hr & Hcap & Hl & Hf).
      split; [done|]. exists ("*" :: pattern), (seg :: new). cbn [registered_at fill_segments children wildcard].
      rewrite !(bool_decide_eq_true_2 ("*" = "*")), Hf by done.
      rewrite filter_cons, decide_True by done. rewrite Hcap, <- app_assoc. simpl. by rewrite Hl.
Qed.

(** ** Splitting and joining *)

Lemma filter_split_trim s :
  filter (fun p => p <> "") (split_on "/" (trim_slash s)) = filter (fun p => p <> "") (split_on "/" s).
Proof.
  destruct s as [|x s]; [done|]. destruct (decide (x = "/"%char)) as [->|Hx].
  - cbn [trim_slash split_on]. rewrite (bool_decide_eq_true_2 ("/"%char = "/"%char)) by done.
    by rewrite filter_cons, decide_False by (intros ?; done).
  - assert (trim_slash (String x s) = String x s) as ->; [|done].
    unfold trim_slash. destruct x as [[] [] [] [] [] [] [] []]; done || by destruct Hx.
Qed.

Lemma splitTemplate_parts verb path :
  contains_char "#" verb = false ->
  splitTemplate (verb +:+ String "#" path) =
    (if bool_decide (verb = "") then [] else [verb]) ++ filter (fun p => p <> "") (split_on "/" path).
Proof. intros Hv. unfold splitTemplate. by rewrite cut_at_app, filter_split_trim. Qed.

Lemma splitTemplate_cut s :
  splitTemplate s = (if bool_decide ((cut_at "#" s).1 = "") then [] else [(cut_at "#" s).1]) ++
    filter (fun p => p <> "") (split_on "/" (cut_at "#" s).2).
Proof. unfold splitTemplate. destruct (cut_at "#" s). simpl. by rewrite filter_split_trim. Qed.

Lemma splitTemplate_segments s :
  contains_char "/" (cut_at "#" s).1 = false ->
  Forall (fun w => w <> "" /\ contains_char "/" w = false) (splitTemplate s).
Proof.
  intros Hv. rewrite splitTemplate_cut. apply Forall_app. split.
  - case_bool_decide; [constructor|by repeat constructor].
  - apply Forall_forall. intros w [Hw Hin]%list_elem_of_filter. split; [done|].
    pose proof (split_on_no_sep "/" (cut_at "#" s).2) as Hf. rewrite Forall_forall in Hf. by apply Hf.
Qed.

(** ** Filling in the captures *)

Lemma fill_segments_filter l params r :
  Forall (fun w => w <> "") params ->
  fill_segments (filter (fun p => p <> "") l) params = Some r ->
  exists filled, fill_segments l params = Some filled /\ filter (fun p => p <> "") filled = r.
Proof.
  revert params r. induction l as [|seg l IH]; intros params r Hp; [intros [= <-]; by exists []|].
  rewrite filter_cons. destruct (decide (seg <> "")) as [Hs|Hs]; cbn [fill_segments].
  - case_bool_decide as Hstar.
    + destruct params as [|p params]; [done|]. apply Forall_cons in Hp as [Hp Hps].
      destruct (fill_segments (filter _ l) params) as [r'|] eqn:E; [|done]. intros [= <-].
      destruct (IH _ _ Hps E) as (filled & -> & <-). exists (p :: filled).
      by rewrite filter_cons, decide_True.
    + destruct (fill_segments (filter _ l) params) as [r'|] eqn:E; [|done]. intros [= <-].
      destruct (IH _ _ Hp E) as (filled & -> & <-). exists (seg :: filled).
      by rewrite filter_cons, decide_True.
  - assert (seg = "") as -> by (by destruct (decide (seg = ""))). intros E.
    destruct (IH _ _ Hp E) as (filled & -> & <-). exists ("" :: filled).
    by rewrite filter_cons, decide_False.
Qed.

Lemma fill_segments_forall (P : string -> Prop) l params r :
  Forall P l -> Forall P params -> fill_segments l params = Some r -> Forall P r.
Proof.
  intros Hl. revert params r. induction Hl as [|seg l Hs Hl IH]; intros params r Hp; cbn [fill_segments];
    [by intros [= <-]|].
  case_bool_decide.
  - destruct params as [|p params]; [done|]. apply Forall_cons in Hp as [Hp Hps].
    destruct (fill_segments l params) eqn:E; [|done]. intros [= <-]. constructor; [done|by eapply IH].
  - destruct (fill_segments l params) eqn:E; [|done]. intros [= <-]. constructor; [done|by eapply IH].
Qed.

Lemma fill_segments_params l params r :
  fill_segments l params = Some r -> length params = length (filter (fun s => s = "*") l) ->
  forall p, p ∈ params -> p ∈ r.
Proof.
  revert params r. induction l as [|seg l IH]; intros params r; cbn [fill_segments].
  - intros [= <-] Hl p Hp. destruct params; [by apply elem_of_nil in Hp|done].
  - rewrite filter_cons. case_bool_decide as Hs.
    + rewrite decide_True by done. destruct params as [|q params]; [done|].
      destruct (fill_segments l params) eqn:E; [|done]. intros [= <-] Hl p Hp. simpl in Hl.
      injection Hl as Hl. apply elem_of_cons in Hp as [->|Hp]; [by left|right]. by eapply IH.
    + rewrite decide_False by done. destruct (fill_segments l params) eqn:E; [|done].
      intros [= <-] Hl p Hp. right. by eapply IH.
Qed.

Lemma fill_segments_app_literal v l params :
  v <> "*" -> fill_segments (v :: l) params = cons v <$> fill_segments l params.
Proof. intros Hv. cbn [fill_segments]. by rewrite bool_decide_eq_false_2. Qed.

Lemma fill_segments_id l : (forall s, s ∈ l -> s <> "*") -> fill_segments l [] = Some l.
Proof.
  induction l as [|s l IH]; intros Hl; [done|]. rewrite fill_segments_app_literal by (apply Hl; by left).
  rewrite IH; [done|]. intros. apply Hl. by right.
Qed.

Lemma fill_segments_length l params r : fill_segments l params = Some r -> length r = length l.
Proof.
  revert params r. induction l as [|seg l IH]; intros params r; cbn [fill_segments]; [by intros [= <-]|].
  case_bool_decide; [destruct params as [|p params]; [done|]|];
    (destruct (fill_segments l params) eqn:E; [|done]); intros [= <-]; simpl; f_equal; by eapply IH.
Qed.

(** Filling the segments of a template, or those of the path after its verb. *)
Lemma fill_splitTemplate t new segs :
  (cut_at "#" t).1 <> "*" -> fill_segments (splitTemplate t) new = Some segs ->
  exists segs', fill_segments (filter (fun p => p <> "") (split_on "/" (cut_at "#" t).2)) new = Some segs' /\
    segs = (if bool_decide ((cut_at "#" t).1 = "") then [] else [(cut_at "#" t).1]) ++ segs'.
Proof.
  intros Hv. rewrite splitTemplate_cut. case_bool_decide as He; simpl app; [eauto|].
  rewrite fill_segments_app_literal by done.
  destruct (fill_segments (filter _ _) new) as [segs'|]; [|done]. intros [= <-]. eauto.
Qed.

Lemma count_stars_none l :
  Forall (fun w => contains_char "*" w = false) l -> filter (fun s => s = "*") l = [].
Proof.
  induction 1 as [|w l Hw Hl IH]; [done|]. rewrite filter_cons, decide_False; [done|]. by intros ->.
Qed.

(** The URL rebuilt from a filled template has the segments of the path. *)
Lemma BuildRestURL_segments t new segs :
  (cut_at "#" t).1 <> "*" -> Forall (fun w => w <> "" /\ contains_char "/" w = false) new ->
  length new = length (filter (fun s => s = "*") (splitTemplate t)) ->
  fill_segments (splitTemplate t) new = Some segs ->
  exists verb path, BuildRestURL t new = Some (verb, path) /\ splitTemplate (verb +:+ String "#" path) = segs.
Proof.
  intros Hv Hnew Hlen Hfill. destruct (fill_splitTemplate t new segs Hv Hfill) as (segs' & Hf & ->).
  rewrite splitTemplate_cut in Hlen. pose proof (cut_at_no_sep "#" t) as Hsep.
  unfold BuildRestURL. destruct (cut_at "#" t) as [verb rest]. cbn [fst snd] in *.
  destruct (contains_char "*" rest) eqn:Hstar; cbn [negb].
  - apply fill_segments_filter in Hf as (filled & Hf & Hfl); [|eapply Forall_impl; [done|naive_solver]].
    rewrite Hf. simpl. eexists _, _. split; [done|]. rewrite splitTemplate_parts by done. f_equal.
    rewrite split_join; [done| |].
    + intros ->. apply fill_segments_length in Hf. pose proof (split_on_nonempty "/" rest).
      by destruct (split_on "/" rest).
    + eapply fill_segments_forall; [apply split_on_no_sep| |done].
      eapply Forall_impl; [done|naive_solver].
  - eexists _, _. split; [done|]. rewrite splitTemplate_parts by done. f_equal.
    assert (Forall (fun w => contains_char "*" w = false)
      (filter (fun p => p <> "") (split_on "/" rest))) as Hno.
    { apply Forall_forall. intros w [_ Hw]%list_elem_of_filter.
      pose proof (split_on_contains "*" "/" rest Hstar) as Hs. rewrite Forall_forall in Hs. by apply Hs. }
    assert (new = []) as ->.
    { rewrite filter_app, (count_stars_none _ Hno), app_nil_r in Hlen. revert Hlen.
      case_bool_decide; [by destruct new|]. rewrite filter_cons, decide_False by done. by destruct new. }
    rewrite fill_segments_id in Hf; [by injection Hf|]. rewrite Forall_forall in Hno.
    intros s Hs ->. by specialize (Hno _ Hs).
Qed.

(** A matched REST path belongs to a registered template, and rebuilding the
    URL from the template and the captures gives back the verb and the path (up
    to empty segments): [BuildRestURL] never fails on the result of a match. *)
Theorem Match_BuildRestURL templates full t caps :
  (forall u, u ∈ templates -> (cut_at "#" u).1 <> "*") ->
  contains_char "/" (cut_at "#" full).1 = false ->
  PathMatcher_Match (NewPathMatcher templates) full = Some (t, caps) ->
  t ∈ templates /\
  exists verb path, BuildRestURL t caps = Some (verb, path) /\
    splitTemplate (verb +:+ "#" +:+ path) = splitTemplate full.
Proof.
  intros Hverb Hfull Hm.
  apply match_path_sound in Hm as (Hne & pattern & new & Hr & -> & Hl & Hf); [|apply NewPathMatcher_ok].
  destruct (NewPathMatcher_registered templates pattern) as [Hin Hp]; [by rewrite Hr|].
  rewrite Hr in Hin, Hp. split; [done|]. subst pattern.
  apply BuildRestURL_segments; [by apply Hverb| |done|done].
  pose proof (splitTemplate_segments full Hfull) as Hs. rewrite Forall_forall in Hs |- *.
  intros w Hw. apply Hs. by eapply fill_segments_params.
Qed.

Lemma Match_BuildRestURL_witness :
  let root := NewPathMatcher ["GET#/v2/accounts/*"; "GET#/v2/blocks/*/txs/*"; "POST#/info"] in
  PathMatcher_Match root "GET#/v2/blocks/12/txs/ab" = Some ("GET#/v2/blocks/*/txs/*", ["12"; "ab"]) /\
  exists verb path, BuildRestURL "GET#/v2/blocks/*/txs/*" ["12"; "ab"] = Some (verb, path) /\
    splitTemplate (verb +:+ "#" +:+ path) = splitTemplate "GET#/v2/blocks/12/txs/ab".
Proof.
  intros root. split; [by vm_compute|].
  refine (proj2 (Match_BuildRestURL ["GET#/v2/accounts/*"; "GET#/v2/blocks/*/txs/*"; "POST#/info"]
    "GET#/v2/blocks/12/txs/ab" _ _ _ _ _)); [|done|by vm_compute].
  assert (Forall (fun u => (cut_at "#" u).1 <> "*")
    ["GET#/v2/accounts/*"; "GET#/v2/blocks/*/txs/*"; "POST#/info"]) as Hf by (by repeat constructor).
  rewrite Forall_forall in Hf. exact Hf.
Defined.

(** A template without wildcards is always found: a path with the segments
    of a registered literal template matches a template with these segments and
    captures nothing, whatever wildcard templates overlap it. *)
Theorem Match_literal templates full t :
  t ∈ templates -> ("" ∉ templates) -> splitTemplate full = splitTemplate t ->
  Forall (fun s => s <> "*") (splitTemplate t) ->
  exists t', PathMatcher_Match (NewPathMatcher templates) full = Some (t', []) /\
    t' ∈ templates /\ splitTemplate t' = splitTemplate full.
Proof.
  intros Hin Hne Hs Hlit. pose proof (NewPathMatcher_complete templates t Hin Hne) as Hr.
  destruct (NewPathMatcher_registered templates _ Hr) as [Hin' Hp].
  exists (registered_at (NewPathMatcher templates) (splitTemplate t)). rewrite Hs. split; [|done].
  unfold PathMatcher_Match. rewrite Hs. clear -Hr Hlit. revert Hr.
  generalize (NewPathMatcher templates). induction Hlit as [|seg segs Hseg _ IH]; intros node Hr.
  - cbn [match_path registered_at] in *. by rewrite bool_decide_eq_false_2.
  - cbn [match_path registered_at] in *. rewrite (bool_decide_eq_false_2 (seg = "*")) in * by done.
    destruct (children node !! seg); [by apply IH|done].
Qed.

Lemma Match_literal_witness :
  exists t', PathMatcher_Match (NewPathMatcher ["GET#/blocks/*"; "GET#/blocks/latest"]) "GET#/blocks/latest" =
    Some (t', []) /\ t' = "GET#/blocks/latest".
Proof.
  destruct (Match_literal ["GET#/blocks/*"; "GET#/blocks/latest"] "GET#/blocks/latest" "GET#/blocks/latest")
    as (t' & Hm & _ & _).
  - right. left.
  - apply (bool_decide_unpack _). by vm_compute.
  - done.
  - by repeat constructor.
  - exists t'. split; [done|]. vm_compute in Hm. by injection Hm.
Defined.
