(* ===== verification/SelectorKeys.v ===== *)
(** The node-class key of a request's selectors, which keeps the responses of
    different classes of nodes apart in the cache
    ([internal/protocol/request_selector_key.go]). *)

From S2P Require Import Prelude.
From S2P Require Import GoStrings.
From S2P Require Import Protocol.
From S2P Require Import UpstreamState.
From S2P Require Import Matchers.
From Stdlib Require Import Ascii.

(** [sort.Strings] *)
Definition sort_Strings (l : list string) : list string := stable_sort String.ltb l.

Definition label_Key (name : string) (values : list string) : string :=
  "label(" +:+ name +:+ "=" +:+ join_with "|" (sort_Strings values) +:+ ")".

Definition exists_Key (name : string) : string := "exists(" +:+ name +:+ ")".

(** A group with no part has no key, one with a single part the key of the part. *)
Definition group_key (op : string) (parts : list string) : string :=
  match parts with
  | [] => ""
  | [part] => part
  | _ => op +:+ "(" +:+ join_with "|" parts +:+ ")"
  end.

Fixpoint labelClassKey (selector : RequestSelector) : string :=
  match selector with
  | RequestLabelSelector n vs => label_Key n vs
  | RequestExistsSelector n => exists_Key n
  | RequestAndSelector cs =>
      group_key "and" (sort_Strings (filter (fun k => k <> "") (map labelClassKey cs)))
  | RequestOrSelector cs =>
      let parts := map labelClassKey cs in
      if bool_decide ("" ∈ parts) then "" else group_key "or" (sort_Strings parts)
  | RequestNotSelector c =>
      let key := labelClassKey c in
      if bool_decide (key = "") then "" else "not(" +:+ key +:+ ")"
  | _ => ""
  end.

Definition LabelCacheKey (selectors : list RequestSelector) : string :=
  labelClassKey (RequestAndSelector selectors).

(** ** Sorting does not depend on the order *)

Definition str_le (s t : string) : Prop := String.compare s t <> Gt.

Lemma str_le_trans s t u : str_le s t -> str_le t u -> str_le s u.
Proof.
  unfold str_le. revert t u. induction s as [|a s IH]; intros [|b t] [|c u]; simpl; try done.
  unfold Ascii.compare. specialize (IH t u).
  destruct (N.compare_spec (N_of_ascii a) (N_of_ascii b)), (N.compare_spec (N_of_ascii b) (N_of_ascii c)),
    (N.compare_spec (N_of_ascii a) (N_of_ascii c)); try done; try lia; auto.
Qed.

Lemma str_le_antisym s t : str_le s t -> str_le t s -> s = t.
Proof.
  unfold str_le. rewrite (String.compare_antisym t s). intros H1 H2.
  destruct (String.compare s t) eqn:E; [by apply String.compare_eq_iff|by destruct H2|done].
Qed.

Lemma str_le_ltb s t : String.ltb s t = false <-> str_le t s.
Proof.
  unfold String.ltb, str_le. rewrite (String.compare_antisym t s).
  destruct (String.compare s t); simpl; naive_solver.
Qed.

Lemma str_le_ltb_true s t : String.ltb s t = true -> str_le s t.
Proof. unfold String.ltb, str_le. by destruct (String.compare s t). Qed.

Instance str_le_transitive : Transitive str_le.
Proof. intros s t u. apply str_le_trans. Qed.
Instance str_le_anti_symm : AntiSymm (=) str_le.
Proof. intros s t. apply str_le_antisym. Qed.

Lemma insert_stable_str_sorted x l :
  StronglySorted str_le l -> StronglySorted str_le (insert_stable String.ltb x l).
Proof.
  induction 1 as [|y l Hs IH Hf]; simpl; [repeat constructor|].
  destruct (String.ltb y x) eqn:E.
  - constructor; [done|]. rewrite insert_stable_perm. constructor; [by apply str_le_ltb_true|done].
  - apply str_le_ltb in E. constructor; [by constructor|]. constructor; [done|].
    eapply Forall_impl; [done|]. intros z. by apply str_le_trans.
Qed.

Lemma sort_Strings_sorted l : StronglySorted str_le (sort_Strings l).
Proof.
  unfold sort_Strings. induction l as [|x l IH]; simpl; [constructor|]. by apply insert_stable_str_sorted.
Qed.

Lemma sort_Strings_perm l l' : l ≡ₚ l' -> sort_Strings l = sort_Strings l'.
Proof.
  intros Hp. apply (StronglySorted_unique str_le); [apply sort_Strings_sorted..|].
  unfold sort_Strings. by rewrite !stable_sort_perm.
Qed.

(** ** Selectors that differ in order only *)

Inductive reordered : RequestSelector -> RequestSelector -> Prop :=
| reordered_same s : reordered s s
| reordered_label n vs vs' : vs ≡ₚ vs' -> reordered (RequestLabelSelector n vs) (RequestLabelSelector n vs')
| reordered_not s s' : reordered s s' -> reordered (RequestNotSelector s) (RequestNotSelector s')
| reordered_and cs ds es : reordered_all cs ds -> ds ≡ₚ es -> reordered (RequestAndSelector cs) (RequestAndSelector es)
| reordered_or cs ds es : reordered_all cs ds -> ds ≡ₚ es -> reordered (RequestOrSelector cs) (RequestOrSelector es)
with reordered_all : list RequestSelector -> list RequestSelector -> Prop :=
| reordered_nil : reordered_all [] []
| reordered_cons s s' cs cs' : reordered s s' -> reordered_all cs cs' -> reordered_all (s :: cs) (s' :: cs').

Scheme reordered_mut := Induction for reordered Sort Prop
with reordered_all_mut := Induction for reordered_all Sort Prop.

Lemma labelClassKey_reordered s s' : reordered s s' -> labelClassKey s = labelClassKey s'.
Proof.
  apply (reordered_mut (fun s s' _ => labelClassKey s = labelClassKey s')
    (fun cs cs' _ => map labelClassKey cs = map labelClassKey cs')); simpl.
  - done.
  - intros n vs vs' Hp. unfold label_Key. by rewrite (sort_Strings_perm _ _ Hp).
  - intros t t' _ ->. done.
  - intros cs ds es _ -> Hp. f_equal. apply sort_Strings_perm. by rewrite Hp.
  - intros cs ds es _ -> Hp. assert (map labelClassKey ds ≡ₚ map labelClassKey es) as Hm by (by rewrite Hp).
    rewrite (sort_Strings_perm _ _ Hm). by rewrite (bool_decide_ext _ ("" ∈ map labelClassKey es)) by (by rewrite Hm).
  - done.
  - intros t t' cs cs' _ -> _ ->. done.
Qed.

(** The node-class key of a request does not depend on the order of its
    selectors, of the members of an AND or OR at any depth, or of the values of
    a label. *)
Theorem LabelCacheKey_order_independent sels sels' sels'' :
  reordered_all sels sels' -> sels' ≡ₚ sels'' -> LabelCacheKey sels = LabelCacheKey sels''.
Proof. intros Hr Hp. apply labelClassKey_reordered. by eapply reordered_and. Qed.

Lemma LabelCacheKey_order_independent_witness :
  LabelCacheKey [RequestLabelSelector "a" ["y"; "x"]; RequestExistsSelector "b"] =
  LabelCacheKey [RequestExistsSelector "b"; RequestLabelSelector "a" ["x"; "y"]].
Proof.
  apply (LabelCacheKey_order_independent _ [RequestLabelSelector "a" ["x"; "y"]; RequestExistsSelector "b"]).
  - apply reordered_cons; [apply reordered_label, Permutation_swap|].
    apply reordered_cons; [apply reordered_same|apply reordered_nil].
  - apply Permutation_swap.
Defined.

(** ** What an empty key means *)

Section Classes.
Context (labelsOf : string -> option string).

(** The label part of a selector: every other condition holds for all classes of
    nodes. *)
Fixpoint admits_class (sel : RequestSelector) : bool :=
  match sel with
  | RequestLabelSelector n vs =>
      match labelsOf n with
      | Some v => bool_decide (vs = []) || bool_decide (v ∈ vs)
      | None => false
      end
  | RequestExistsSelector n => bool_decide (is_Some (labelsOf n))
  | RequestAndSelector cs => forallb admits_class cs
  | RequestOrSelector cs => existsb admits_class cs
  | RequestNotSelector c => negb (admits_class c)
  | _ => true
  end.
End Classes.

(** No negation of a condition without labels and no empty OR. *)
Fixpoint regular (sel : RequestSelector) : bool :=
  match sel with
  | RequestAndSelector cs => forallb regular cs
  | RequestOrSelector cs => negb (bool_decide (length cs = 0%nat)) && forallb regular cs
  | RequestNotSelector c => negb (bool_decide (labelClassKey c = "")) && regular c
  | _ => true
  end.

Lemma group_key_empty op parts :
  op <> "" -> ("" ∉ parts) -> group_key op parts = "" -> parts = [].
Proof.
  intros Hop Hp. destruct parts as [|p [|q parts]]; [done| |]; simpl.
  - intros ->. by destruct Hp; left.
  - by destruct op.
Qed.

Lemma sort_Strings_nil l : sort_Strings l = [] -> l = [].
Proof. intros E. apply Permutation_nil_r. unfold sort_Strings in E. rewrite <- E. symmetry. apply stable_sort_perm. Qed.

Lemma elem_of_sort_Strings x l : x ∈ sort_Strings l <-> x ∈ l.
Proof. unfold sort_Strings. by rewrite stable_sort_perm. Qed.

Lemma labelClassKey_empty labelsOf sel :
  regular sel = true -> labelClassKey sel = "" -> admits_class labelsOf sel = true.
Proof.
  induction sel as [sel Hl|cs IH|cs IH|c IH] using selector_ind; simpl.
  - destruct sel; done.
  - rewrite Forall_forall in IH. rewrite !forallb_forall. intros Hr Hk c Hc.
    apply IH; [by apply list_elem_of_In|by apply Hr|]. apply group_key_empty in Hk; [|done|].
    + apply sort_Strings_nil in Hk. destruct (decide (labelClassKey c = "")) as [|Hne]; [done|].
      assert (labelClassKey c ∈ filter (fun k => k <> "") (map labelClassKey cs)) as Hin.
      { apply list_elem_of_filter. split; [done|]. apply list_elem_of_fmap. exists c. by rewrite list_elem_of_In. }
      rewrite Hk in Hin. by apply elem_of_nil in Hin.
    + rewrite elem_of_sort_Strings. intros [? _]%list_elem_of_filter. done.
  - rewrite Forall_forall in IH. rewrite andb_true_iff, forallb_forall. intros [Hne Hr] Hk. apply existsb_exists.
    case_bool_decide as Hin.
    + apply list_elem_of_fmap in Hin as (c & Hc & Hin). exists c. split; [by apply list_elem_of_In|].
      apply IH; [done|by apply Hr, list_elem_of_In|done].
    + apply group_key_empty in Hk; [|done|by rewrite elem_of_sort_Strings].
      apply sort_Strings_nil in Hk. destruct cs; [|done]. by rewrite bool_decide_eq_true_2 in Hne.
  - rewrite andb_true_iff. intros [Hne _]. apply negb_true_iff, bool_decide_eq_false in Hne.
    by rewrite bool_decide_eq_false_2.
Qed.

(** Requests that share the default cache entry ask for no class of nodes:
    when the node-class key is empty, every node satisfies the label conditions
    of the selectors (negations of conditions without labels and empty ORs,
    which no node satisfies, apart). *)
Theorem empty_key_unconstrained labelsOf sels :
  Forall (fun sel => regular sel = true) sels -> LabelCacheKey sels = "" ->
  Forall (fun sel => admits_class labelsOf sel = true) sels.
Proof.
  intros Hr Hk. apply (labelClassKey_empty labelsOf (RequestAndSelector sels)) in Hk.
  - simpl in Hk. rewrite forallb_forall in Hk. apply Forall_forall. intros c Hc. by apply Hk, list_elem_of_In.
  - simpl. apply forallb_forall. intros c Hc. rewrite Forall_forall in Hr. by apply Hr, list_elem_of_In.
Qed.

Lemma empty_key_unconstrained_witness :
  Forall (fun sel => admits_class (fun _ => None) sel = true)
    [RequestOrSelector [RequestHeightSelector 5; RequestLabelSelector "client" ["geth"]]].
Proof. by apply empty_key_unconstrained; [repeat constructor|vm_compute]. Defined.

(** The key of a label joins its values with a bar and does not escape it: a
    label with the one value [a|b] has the key of a label with the values [a]
    and [b], although a node labelled [a] satisfies only the second, so a
    response of one class of nodes is served to requests for the other. *)
Theorem label_key_collision predict upId s n a b :
  String.ltb b a = false -> Labels_GetLabel (st_labels s) n = Some a ->
  let one := RequestLabelSelector n [a +:+ "|" +:+ b] in
  let two := RequestLabelSelector n [a; b] in
  LabelCacheKey [one] = LabelCacheKey [two] /\
  sel_holds predict upId s one = false /\ sel_holds predict upId s two = true.
Proof.
  intros Hlt Hl one two. split_and!.
  - unfold LabelCacheKey, one, two. simpl. unfold label_Key, sort_Strings. simpl. by rewrite Hlt.
  - simpl. rewrite Hl.
    apply bool_decide_eq_false_2. intros E%list_elem_of_singleton.
    apply (f_equal String.length) in E. rewrite !length_append_str in E. simpl in E. lia.
  - simpl. rewrite Hl. apply bool_decide_eq_true_2. by left.
Qed.

Lemma label_key_collision_witness :
  LabelCacheKey [RequestLabelSelector "client" ["reth|s"]] = LabelCacheKey [RequestLabelSelector "client" ["reth"; "s"]].
Proof. exact (proj1 (label_key_collision (fun _ _ _ => 0) "up" demo_state "client" "reth" "s" eq_refl eq_refl)). Defined.
