(* ===== verification/Config.v ===== *)
(** The configuration of upstreams: its records, the defaults that are filled in
    after loading and the validation ([internal/config/upstream_config.go],
    [defaults.go], [option_defaults.go], [ratelimit_config.go],
    [pkg/chains/options.go]).

    A pointer is an option: [None] is an absent member of the file.  The entries
    of a list are not null; an entry of [chain-defaults] may be, since lookups
    check for it.  Durations are in nanoseconds.  A validation returns the text
    of its error. *)

From S2P Require Import Prelude.
From S2P Require Import GoStrings.
From S2P Require Import Specs.
From S2P Require Import Methods.
From S2P Require Import RateLimiter.
From S2P Require Import Float64.
From S2P Require Import SelectorKeys.
From Stdlib Require Import Ascii.

Definition millisecond : Z := 1000000.
Definition second : Z := 1000 * millisecond.
Definition minute : Z := 60 * second.
Definition hour : Z := 60 * minute.

(** ** Checks

    A validation runs its checks in order and returns the first error. *)

Definition check (failed : bool) (error : string) : option string := if failed then Some error else None.

Fixpoint first_error (checks : list (option string)) : option string :=
  match checks with
  | [] => None
  | Some e :: _ => Some e
  | None :: checks => first_error checks
  end.

Definition wrap (prefix : string) (e : option string) : option string := (fun c => prefix +:+ c) <$> e.

Definition if_set {A} (o : option A) (validate : A -> option string) : option string := o ≫= validate.

(** A loop that checks each entry against the keys seen before it. *)
Section EachNew.
Context {A K : Type} `{Countable K} (key : A -> K) (validate : N -> gset K -> A -> option string).

Fixpoint each_new (i : N) (seen : gset K) (l : list A) : option string :=
  match l with
  | [] => None
  | a :: l => first_error [validate i seen a; each_new (i + 1) ({[key a]} ∪ seen) l]
  end.
End EachNew.

Definition in_apostrophes (s : string) : string := "'" +:+ s +:+ "'".

(** ** Records *)

Record Options := mkOptions {
  InternalTimeout : Z;
  ValidationInterval : Z;
  DisableValidation : option bool;
  DisableSettingsValidation : option bool;
  DisableChainValidation : option bool;
  DisableHealthValidation : option bool;
  DisableLowerBoundsDetection : option bool;
  DisableSafeBlockDetection : option bool;
  DisableFinalizedBlockDetection : option bool;
  DisableLabelsDetection : option bool;
  DisableMethodsDetection : option bool;
  DisableLogIndexValidation : option bool;
  DisableLivenessSubscriptionValidation : option bool;
  ArchiveCapability : option bool;
  ValidateSyncing : option bool;
  ValidatePeers : option bool;
  MinPeers : Z;
  ValidateCallLimit : option bool;
  ValidateClientVersion : option bool;
  CallLimitSize : Z;
}.

Definition emptyOptions : Options :=
  mkOptions 0 0 None None None None None None None None None None None None None None 0 None None 0.

(** The settings of a chain ([chains.Settings]). *)
Record LagConfig := mkLagConfig { Lagging : Z; Syncing : Z }.

Record Settings := mkSettings {
  ExpectedBlockTime : Z;
  settings_MethodSpec : string;
  Lags : LagConfig;
  settings_Options : option Options;
  SupportFinalizedBlockTag : option bool;
  SupportSafeBlockTag : option bool;
}.

Record LabelBalancingConfig := mkLabelBalancing {
  lb_Order : list string;
  lb_PassOnError : bool;
  lb_IncludeDefault : option bool;
}.

Record DispatchOptions := mkDispatchOptions {
  do_Broadcast : option bool;
  do_MaximumValue : option bool;
  do_NotNull : option bool;
}.

Record LocalSubscriptionsConfig := mkLocalSubscriptions {
  ls_Enable : option bool;
  ls_EnableNewHeads : option bool;
  ls_EnableLogs : option bool;
  ls_EnableNewPendingTransactions : option bool;
}.

Record ChainDefaults := mkChainDefaults {
  cd_PollInterval : Z;
  cd_Options : option Options;
  cd_LabelBalancing : option LabelBalancingConfig;
  cd_Dispatch : option DispatchOptions;
  cd_LocalSubscriptions : option LocalSubscriptionsConfig;
  cd_ValidateLag : option bool;
  cd_BalancingStrategy : string;
}.

Record RetryConfig := mkRetryConfig {
  rt_Attempts : Z;
  rt_Delay : Z;
  rt_MaxDelay : option Z;
  rt_Jitter : option Z;
}.

Record HedgeConfig := mkHedgeConfig { hg_Delay : Z; hg_Count : Z }.

Record FailsafeConfig := mkFailsafeConfig {
  fs_Hedge : option HedgeConfig;
  fs_Timeout : option Z;
  fs_Retry : option RetryConfig;
}.

Record ScorePolicyConfig := mkScorePolicy {
  CalculationInterval : Z;
  CalculationFunctionName : string;
  CalculationFunctionFilePath : string;
}.

(** The lists of methods with the duration of a ban. *)
Record MethodsSection := mkMethodsSection { BanDuration : Z; method_lists : MethodsConfig }.

Record RateLimitAutoTuneConfig := mkAutoTuneConfig {
  at_Enabled : bool;
  at_Period : Z;
  at_ErrorRateThreshold : float64;
  at_InitRateLimit : Z;
  at_InitRateLimitPeriod : Z;
}.

Record ApiConnectorConfig := mkConnectorConfig {
  c_Type : string;
  c_Url : string;
  c_Headers : gmap string string;
  c_Ca : string;
  c_ResponseHeaderDeny : list string;
}.

Record Upstream := mkUpstream {
  u_Id : string;
  u_ChainName : string;
  u_Connectors : list ApiConnectorConfig;
  u_HeadConnector : string;
  u_PollInterval : Z;
  u_Methods : option MethodsSection;
  u_FailsafeConfig : option FailsafeConfig;
  u_Options : option Options;
  u_RateLimitBudget : string;
  u_RateLimit : option (list RateLimitRule);
  u_RateLimitAutoTune : option RateLimitAutoTuneConfig;
  u_GroupLabels : list string;
  u_Labels : gmap string string;
}.

Record UpstreamConfig := mkUpstreamConfig {
  uc_Upstreams : list Upstream;
  uc_ChainDefaults : gmap string (option ChainDefaults);
  uc_FailsafeConfig : option FailsafeConfig;
  uc_ScorePolicy : option ScorePolicyConfig;
  uc_Integrity : option bool;
  uc_LabelBalancing : option LabelBalancingConfig;
  uc_BalancingStrategy : string;
  uc_Mode : string;
}.

Definition RatingBalancingStrategy : string := "rating".
Definition BaseBalancingStrategy : string := "base".
Definition DefaultMode : string := "default".
Definition StrictMode : string := "strict".
Definition ArchiveLabel : string := "archive".
Definition SecureSignedLabel : string := "secure-signed".
Definition DefaultLatencyPolicyFuncName : string := "defaultLatencyPolicyFunc".
Definition DefaultLatencyErrorRatePolicyFuncName : string := "defaultLatencyErrorRatePolicyFunc".

(** ** Lookups *)

Definition chain_defaults (u : UpstreamConfig) (chain : string) : option ChainDefaults :=
  default None (uc_ChainDefaults u !! chain).

Definition BalancingStrategyFor (u : UpstreamConfig) (chainName : string) : string :=
  match chain_defaults u chainName with
  | Some d => if bool_decide (cd_BalancingStrategy d = "") then uc_BalancingStrategy u else cd_BalancingStrategy d
  | None => uc_BalancingStrategy u
  end.

(** [None] is the panic on a null entry. *)
Definition LabelBalancingFor (u : UpstreamConfig) (chain : string) : option (option LabelBalancingConfig) :=
  match uc_ChainDefaults u !! chain with
  | Some None => None
  | Some (Some d) =>
    Some (match cd_LabelBalancing d with Some l => Some l | None => uc_LabelBalancing u end)
  | None => Some (uc_LabelBalancing u)
  end.

Definition GetDispatchOptions (u : UpstreamConfig) (chainName : string) : DispatchOptions :=
  let defaultEnabled := bool_decide (uc_Mode u = StrictMode) in
  let options := mkDispatchOptions (Some defaultEnabled) (Some defaultEnabled) (Some defaultEnabled) in
  match chain_defaults u chainName ≫= cd_Dispatch with
  | None => options
  | Some d =>
    let over field := match field d with Some b => Some b | None => field options end in
    mkDispatchOptions (over do_Broadcast) (over do_MaximumValue) (over do_NotNull)
  end.

Definition ValidateLagFor (u : option UpstreamConfig) (chainName : string) : bool :=
  match u with
  | None => false
  | Some u =>
    match chain_defaults u chainName ≫= cd_ValidateLag with
    | Some b => b
    | None => bool_decide (uc_Mode u = StrictMode)
    end
  end.

Record LocalSubSettings := mkLocalSubSettings { NewHeads : bool; Logs : bool; PendingTx : bool }.

Definition LocalSubSettingsFor (u : option UpstreamConfig) (chainName : string) : LocalSubSettings :=
  match u ≫= fun u => chain_defaults u chainName ≫= cd_LocalSubscriptions with
  | None => mkLocalSubSettings true true true
  | Some ls =>
    let base := default true (ls_Enable ls) in
    mkLocalSubSettings (default base (ls_EnableNewHeads ls)) (default base (ls_EnableLogs ls))
      (default base (ls_EnableNewPendingTransactions ls))
  end.

Definition connector_type (a : ApiConnectorConfig) : ApiConnectorType := GetApiConnectorType (c_Type a).

Definition GetApiConnectorTypes (u : Upstream) : list ApiConnectorType := map connector_type (u_Connectors u).

Definition GetHeadApiConnectorType (u : Upstream) : ApiConnectorType := GetApiConnectorType (u_HeadConnector u).

Definition connector_rank (a : ApiConnectorConfig) : Z := Z.of_N (connector_code (connector_type a)).

Definition is_plain (a : ApiConnectorConfig) : bool :=
  negb (bool_decide (connector_type a = UnknownType)) && negb (IsAdditionalApiConnectorType (connector_type a)).

(** [lo.MinBy] keeps the first smallest, [lo.MaxBy] the first largest. *)
Definition GetBestConnector (mode : string) (u : Upstream) : ApiConnectorType :=
  match base.filter (fun a => is_plain a = true) (u_Connectors u) with
  | [] => UnknownType
  | c :: cs =>
    if bool_decide (mode = DefaultMode) then connector_type (argmin connector_rank c cs)
    else if bool_decide (mode = StrictMode) then connector_type (argmin (fun a => - connector_rank a) c cs)
    else UnknownType
  end.

(** ** Options *)

Definition resolveDuration (defaultValue chainValue fallback : Z) : Z :=
  if negb (defaultValue =? 0) then defaultValue
  else if negb (chainValue =? 0) then chainValue
  else fallback.

Definition resolveBool (defaultValue chainValue : option bool) (fallback : bool) : option bool :=
  let value := match chainValue with Some b => b | None => fallback end in
  Some (match defaultValue with Some b => b | None => value end).

Definition getDuration (options : option Options) (getter : Options -> Z) : Z :=
  match options with Some o => getter o | None => 0 end.

Definition getBool (options : option Options) (getter : Options -> option bool) : option bool :=
  options ≫= getter.

Section OptionDefaults.
Context (chainDefaults : option ChainDefaults) (chainSettings : Settings) (mode : string).

Let defaultChainOptions : option Options := chainDefaults ≫= cd_Options.
Let globalChainOptions : option Options := settings_Options chainSettings.
Let strict : bool := bool_decide (mode = StrictMode).

Definition number_default (o : Options) (getter : Options -> Z) (fallback : Z) : Z :=
  if getter o =? 0
  then resolveDuration (getDuration defaultChainOptions getter) (getDuration globalChainOptions getter) fallback
  else getter o.

Definition bool_default (o : Options) (getter : Options -> option bool) (fallback : bool) : option bool :=
  match getter o with
  | None => resolveBool (getBool defaultChainOptions getter) (getBool globalChainOptions getter) fallback
  | Some _ => getter o
  end.

(** A chain that does not support the tag turns the detection off by default. *)
Definition tag_fallback (support : option bool) (fallback : bool) : bool :=
  if bool_decide (support = Some false) then true else fallback.

Definition setOptionsDefaults (o : Options) : Options := {|
  InternalTimeout := number_default o InternalTimeout (5 * second);
  ValidationInterval := number_default o ValidationInterval (30 * second);
  DisableValidation := bool_default o DisableValidation false;
  DisableSettingsValidation := bool_default o DisableSettingsValidation false;
  DisableChainValidation := bool_default o DisableChainValidation false;
  DisableHealthValidation := bool_default o DisableHealthValidation false;
  DisableLowerBoundsDetection := bool_default o DisableLowerBoundsDetection (negb strict);
  DisableSafeBlockDetection :=
    bool_default o DisableSafeBlockDetection (tag_fallback (SupportSafeBlockTag chainSettings) (negb strict));
  DisableFinalizedBlockDetection :=
    bool_default o DisableFinalizedBlockDetection (tag_fallback (SupportFinalizedBlockTag chainSettings) false);
  DisableLabelsDetection := bool_default o DisableLabelsDetection (negb strict);
  DisableMethodsDetection := bool_default o DisableMethodsDetection (negb strict);
  DisableLogIndexValidation := bool_default o DisableLogIndexValidation (negb strict);
  DisableLivenessSubscriptionValidation := bool_default o DisableLivenessSubscriptionValidation (negb strict);
  ArchiveCapability := ArchiveCapability o;
  ValidateSyncing := bool_default o ValidateSyncing strict;
  ValidatePeers := bool_default o ValidatePeers strict;
  MinPeers := number_default o MinPeers 1;
  ValidateCallLimit := bool_default o ValidateCallLimit strict;
  ValidateClientVersion := bool_default o ValidateClientVersion strict;
  CallLimitSize := number_default o CallLimitSize 1000000;
|}.
End OptionDefaults.

(** ** Defaults *)

(** The chains the program knows ([chains.GetChain], [chains.IsSupported]); the
    registry of [Chains.v] implements it.  The settings of [UnknownChain] are empty. *)
Class Chains := {
  chain_settings : string -> option Settings;
}.

Definition unknownSettings : Settings := mkSettings 0 "" (mkLagConfig 0 0) None None None.

Definition or_zero (value fallback : Z) : Z := if value =? 0 then fallback else value.

Definition retry_setDefaults (r : RetryConfig) : RetryConfig :=
  mkRetryConfig (or_zero (rt_Attempts r) 3) (rt_Delay r) (rt_MaxDelay r) (rt_Jitter r).

Definition hedge_setDefaults (h : HedgeConfig) : HedgeConfig :=
  mkHedgeConfig (or_zero (hg_Delay h) second) (or_zero (hg_Count h) 2).

Definition methods_setDefaults (m : MethodsSection) : MethodsSection :=
  mkMethodsSection (or_zero (BanDuration m) (5 * minute)) (method_lists m).

Definition autotune_setDefaults (r : RateLimitAutoTuneConfig) : RateLimitAutoTuneConfig :=
  mkAutoTuneConfig (at_Enabled r) (or_zero (at_Period r) minute)
    (if SFeqb (at_ErrorRateThreshold r) (f64_of_Z 0) then f64_lit 1 1 else at_ErrorRateThreshold r)
    (or_zero (at_InitRateLimit r) 100) (or_zero (at_InitRateLimitPeriod r) second).

Definition labelBalancing_setDefaults (l : LabelBalancingConfig) : LabelBalancingConfig :=
  mkLabelBalancing (lb_Order l) (lb_PassOnError l) (Some (default true (lb_IncludeDefault l))).

Definition scorePolicy_setDefaults (s : ScorePolicyConfig) : ScorePolicyConfig :=
  mkScorePolicy (or_zero (CalculationInterval s) (10 * second))
    (if bool_decide (CalculationFunctionName s = "") && bool_decide (CalculationFunctionFilePath s = "")
     then DefaultLatencyPolicyFuncName else CalculationFunctionName s)
    (CalculationFunctionFilePath s).

Definition getDefaultPollInterval `{Chains} (chainName mode : string) : Z :=
  if bool_decide (mode = DefaultMode) then minute
  else match chain_settings chainName with
       | None => minute
       | Some settings => ExpectedBlockTime settings
       end.

Definition add_label (label value : string) (labels : gmap string string) : gmap string string :=
  match labels !! label with Some _ => labels | None => <[label := value]> labels end.

Definition translateDeprecatedArchiveOption (options : Options) (labels : gmap string string) : gmap string string :=
  match ArchiveCapability options with
  | None => labels
  | Some b => add_label ArchiveLabel (if b then "true" else "false") labels
  end.

Definition default_head_connector (mode : string) (u : Upstream) : string :=
  if bool_decide (u_HeadConnector u = "") && negb (bool_decide (u_Connectors u = [])) then
    let headConnector := GetBestConnector mode u in
    if bool_decide (headConnector = UnknownType) then u_HeadConnector u else ApiConnectorType_String headConnector
  else u_HeadConnector u.

(** Only the retries of an upstream's failsafe section get defaults. *)
Definition upstream_failsafe_defaults (f : FailsafeConfig) : FailsafeConfig :=
  mkFailsafeConfig (fs_Hedge f) (fs_Timeout f) (retry_setDefaults <$> fs_Retry f).

Definition upstream_setDefaults `{Chains} (defaults : option ChainDefaults) (mode : string) (u : Upstream) : Upstream :=
  let settings := default unknownSettings (chain_settings (u_ChainName u)) in
  let options := setOptionsDefaults defaults settings mode (default emptyOptions (u_Options u)) in
  let pollInterval :=
    match defaults with
    | Some d => if cd_PollInterval d =? 0 then getDefaultPollInterval (u_ChainName u) mode else cd_PollInterval d
    | None => getDefaultPollInterval (u_ChainName u) mode
    end in
  {| u_Id := u_Id u;
     u_ChainName := u_ChainName u;
     u_Connectors := u_Connectors u;
     u_HeadConnector := default_head_connector mode u;
     u_PollInterval := or_zero (u_PollInterval u) pollInterval;
     u_Methods := Some (methods_setDefaults (default (mkMethodsSection 0 (mkMethodsConfig [] [])) (u_Methods u)));
     u_FailsafeConfig := Some (upstream_failsafe_defaults (default (mkFailsafeConfig None None None) (u_FailsafeConfig u)));
     u_Options := Some options;
     u_RateLimitBudget := u_RateLimitBudget u;
     u_RateLimit := u_RateLimit u;
     u_RateLimitAutoTune := autotune_setDefaults <$> u_RateLimitAutoTune u;
     u_GroupLabels := u_GroupLabels u;
     u_Labels := translateDeprecatedArchiveOption options (u_Labels u); |}.

Definition setSecureSignedLabel (u : Upstream) : Upstream :=
  mkUpstream (u_Id u) (u_ChainName u) (u_Connectors u) (u_HeadConnector u) (u_PollInterval u) (u_Methods u)
    (u_FailsafeConfig u) (u_Options u) (u_RateLimitBudget u) (u_RateLimit u) (u_RateLimitAutoTune u)
    (u_GroupLabels u) (add_label SecureSignedLabel "true" (u_Labels u)).

(** [uc_Integrity] is [IntegrityConfig.Enabled]. *)
Definition integrity_setDefaults (mode : string) (enabled : bool) : bool :=
  if bool_decide (mode = StrictMode) then false else enabled.

Definition chainDefaults_setDefaults (c : ChainDefaults) : ChainDefaults :=
  mkChainDefaults (cd_PollInterval c) (cd_Options c) (labelBalancing_setDefaults <$> cd_LabelBalancing c)
    (cd_Dispatch c) (cd_LocalSubscriptions c) (cd_ValidateLag c) (cd_BalancingStrategy c).

Definition flow_failsafe_defaults (f : FailsafeConfig) : FailsafeConfig :=
  mkFailsafeConfig (hedge_setDefaults <$> fs_Hedge f) (fs_Timeout f) (retry_setDefaults <$> fs_Retry f).

(** Whether a null entry makes the loop over [chain-defaults] panic. *)
Definition null_defaults (u : UpstreamConfig) : bool :=
  existsb (fun kv => match kv.2 with None => true | Some _ => false end) (map_to_list (uc_ChainDefaults u)).

(** [None] is a panic. *)
Definition upstreamConfig_setDefaults `{Chains} (grpcAuthDisabled : bool) (u : UpstreamConfig) : option UpstreamConfig :=
  let mode := if bool_decide (uc_Mode u = "") then DefaultMode else uc_Mode u in
  if null_defaults u then None
  else
    let defaults := fmap (M := option) chainDefaults_setDefaults <$> uc_ChainDefaults u in
    let upstream_defaults up :=
      let up := upstream_setDefaults (default None (defaults !! u_ChainName up)) mode up in
      if grpcAuthDisabled then up else setSecureSignedLabel up in
    Some {|
      uc_Upstreams := map upstream_defaults (uc_Upstreams u);
      uc_ChainDefaults := defaults;
      uc_FailsafeConfig := Some (flow_failsafe_defaults (default (mkFailsafeConfig None None None) (uc_FailsafeConfig u)));
      uc_ScorePolicy := Some (scorePolicy_setDefaults (default (mkScorePolicy 0 "" "") (uc_ScorePolicy u)));
      uc_Integrity := Some (integrity_setDefaults mode (default false (uc_Integrity u)));
      uc_LabelBalancing := labelBalancing_setDefaults <$> uc_LabelBalancing u;
      uc_BalancingStrategy :=
        if bool_decide (uc_BalancingStrategy u = "") then RatingBalancingStrategy else uc_BalancingStrategy u;
      uc_Mode := mode; |}.

(** ** Validation *)

Definition balancingStrategy_validate (s : string) : option string :=
  check (negb (bool_decide (s ∈ [""; RatingBalancingStrategy; BaseBalancingStrategy])))
    ("invalid balancing strategy - " +:+ in_apostrophes s).

Definition mode_Validate (u : string) : option string :=
  check (negb (bool_decide (u ∈ [DefaultMode; StrictMode]))) ("invalid upstream mode: " +:+ u).

Definition labelBalancing_validate (l : LabelBalancingConfig) : option string :=
  first_error [
    check (bool_decide (lb_Order l = [])) "label-balancing order must contain at least one label";
    each_new id (fun _ seen label => first_error [
      check (bool_decide (label = "")) "label-balancing order must not contain an empty label";
      check (bool_decide (label ∈ seen)) ("label-balancing order contains a duplicate label " +:+ in_apostrophes label)
    ]) 0 ∅ (lb_Order l)
  ].

Definition options_Validate (o : Options) : option string :=
  first_error [
    check (InternalTimeout o <? 0) "internal timeout can't be less than 0";
    check (ValidationInterval o <? 0) "validation interval can't be less than 0"
  ].

Definition chainDefaults_validate (c : ChainDefaults) : option string :=
  first_error [
    if_set (cd_Options c) options_Validate;
    if_set (cd_LabelBalancing c) labelBalancing_validate;
    balancingStrategy_validate (cd_BalancingStrategy c)
  ].

Definition retry_validate (r : RetryConfig) : option string :=
  first_error [
    check (rt_Attempts r <? 1) "the number of attempts can't be less than 1";
    check (rt_Delay r <? 0) "the retry delay can't be less than 0";
    if_set (rt_MaxDelay r) (fun d => check (d <=? 0) "the retry max delay can't be less than 0");
    if_set (rt_Jitter r) (fun j => check (j <=? 0) "the retry jitter can't be 0");
    if_set (rt_MaxDelay r) (fun d =>
      check (d <? rt_Delay r) "the retry delay can't be greater than the retry max delay")
  ].

(** [Duration.Milliseconds] truncates. *)
Definition hedge_validate (h : HedgeConfig) : option string :=
  first_error [
    check (hg_Count h <=? 0) "the number of hedges can't be less than 1";
    check (hg_Delay h `quot` millisecond <? 50) "the hedge delay can't be less than 50ms"
  ].

Definition failsafe_validate (f : FailsafeConfig) : option string :=
  first_error [
    wrap "hedge config validation error - " (if_set (fs_Hedge f) hedge_validate);
    wrap "retry config validation error - " (if_set (fs_Retry f) retry_validate)
  ].

Definition methods_validate (m : MethodsSection) : option string :=
  first_error (
    check (BanDuration m <=? 0) "the method ban duration can't be less than 0" ::
    map (fun d => check (bool_decide (d ∈ EnableMethods (method_lists m)))
                    ("the method " +:+ in_apostrophes d +:+ " must not be enabled and disabled at the same time"))
      (DisableMethods (method_lists m))).

Definition autotune_validate (r : RateLimitAutoTuneConfig) : option string :=
  if negb (at_Enabled r) then None
  else first_error [
    check (at_Period r <=? 0) "period must be greater than 0 when auto-tune is enabled";
    check (SFltb (at_ErrorRateThreshold r) (f64_of_Z 0) || SFltb (f64_of_Z 1) (at_ErrorRateThreshold r))
      "error-threshold must be between 0 and 1";
    check (at_InitRateLimit r <=? 0) "init-rate-limit must be greater than 0 when auto-tune is enabled";
    check (at_InitRateLimitPeriod r <=? 0) "init-rate-limit-period must be greater than 0 when auto-tune is enabled";
    check (at_Period r <? at_InitRateLimitPeriod r)
      "init-rate-limit-period must be less than or equal to the period when auto-tune is enabled"
  ].

(** [methodRegex]: [^[a-zA-Z0-9_]+$]. *)
Definition method_char (c : ascii) : bool :=
  let n := nat_of_ascii c in
  ((97 <=? n) && (n <=? 122) || (65 <=? n) && (n <=? 90) || (48 <=? n) && (n <=? 57) || (n =? 95))%nat.

Definition methodRegex (s : string) : bool :=
  negb (bool_decide (s = "")) && forallb method_char (String.list_ascii_of_string s).

(** Outside the source: [url.Parse] gives the scheme, the host and the host name,
    or an error; the rating function is compiled by [esbuild] and [goja], from
    the table of default functions or from a file. *)
Class ConfigEnv := {
  url_Parse : string -> string + string * string * string;
  compileFunc : ScorePolicyConfig -> option string;
}.

Definition connector_validate `{ConfigEnv} (torProxyUrl : string) (a : ApiConnectorConfig) : option string :=
  first_error [
    ValidateApiConnectorType (c_Type a);
    check (bool_decide (c_Url a = "")) ("url must be specified for connector " +:+ in_apostrophes (c_Type a));
    match url_Parse (c_Url a) with
    | inl err => Some ("invalid url for connector " +:+ in_apostrophes (c_Type a) +:+ " - " +:+ err)
    | inr (scheme, host, hostname) => first_error [
        check (bool_decide (scheme = "") || bool_decide (host = ""))
          ("invalid url for connector " +:+ in_apostrophes (c_Type a) +:+ " - scheme and host are required");
        check (bool_decide (is_Some (strip_suffix ".onion" hostname)) && bool_decide (torProxyUrl = ""))
          "tor proxy url is required for onion endpoints"
      ]
    end
  ].

Definition validateHeadConnector (u : Upstream) : option string :=
  first_error [
    wrap "invalid head connector, " (ValidateApiConnectorType (u_HeadConnector u));
    check (IsAdditionalApiConnectorType (GetHeadApiConnectorType u))
      ("additional api connector type " +:+ in_apostrophes (ApiConnectorType_String (GetHeadApiConnectorType u)) +:+
       " is forbidden for head connector")
  ].

Definition validateLabels (u : Upstream) : option string :=
  first_error (map (fun label => first_error [
      check (bool_decide (label = "")) "labels must not contain an empty key";
      check (bool_decide (default "" (u_Labels u !! label) = ""))
        ("label " +:+ in_apostrophes label +:+ " must have a non-empty value")
    ]) (sort_Strings (map_to_list (u_Labels u)).*1)).

Definition onlyAdditional (u : Upstream) : bool :=
  match u_Connectors u with
  | [c] => IsAdditionalApiConnectorType (connector_type c)
  | _ => false
  end.

(** The sections [u_Methods], [u_FailsafeConfig] and [u_Options] are set by the
    defaults; [if_set] stands for a use that would panic without. *)
Definition upstream_validate `{Chains} `{ConfigEnv} (torProxyUrl : string) (u : Upstream) : option string :=
  first_error [
    check (negb (bool_decide (is_Some (chain_settings (u_ChainName u)))))
      ("not supported chain " +:+ in_apostrophes (u_ChainName u));
    check (bool_decide (u_Connectors u = [])) "there must be at least one upstream connector";
    wrap "error during rate limit validation, cause: " (if_set (u_RateLimit u) (rules_validate methodRegex));
    check (onlyAdditional u)
      ("additional api connector rest-additional can't be the only upstream connector, there must be at least one plain connector [" +:+
       join_with " "%char (map ApiConnectorType_String plainApiConnectorTypes) +:+ "]");
    each_new connector_type (fun _ seen c => first_error [
      check (bool_decide (connector_type c ∈ seen))
        ("there can be only one connector of type " +:+ in_apostrophes (c_Type c));
      connector_validate torProxyUrl c
    ]) 0 ∅ (u_Connectors u);
    validateHeadConnector u;
    check (negb (bool_decide (GetHeadApiConnectorType u ∈ GetApiConnectorTypes u)))
      ("there is no " +:+ in_apostrophes (u_HeadConnector u) +:+ " connector for head");
    if_set (u_FailsafeConfig u) failsafe_validate;
    if_set (u_Methods u) methods_validate;
    if_set (u_Options u) options_Validate;
    first_error (map (fun label => check (bool_decide (label = "")) "group-labels must not contain an empty label")
      (u_GroupLabels u));
    validateLabels u
  ].

Definition scorePolicy_validate `{ConfigEnv} (s : ScorePolicyConfig) : option string :=
  first_error [
    check (CalculationInterval s <=? 0) "the calculation interval can't be less than 0";
    check (negb (bool_decide (CalculationFunctionName s = "")) && negb (bool_decide (CalculationFunctionFilePath s = "")))
      "one setting must be specified - either 'calculation-function' or 'calculation-function-file-path'";
    check (negb (bool_decide (CalculationFunctionName s = "")) &&
           negb (bool_decide (CalculationFunctionName s ∈
             [DefaultLatencyPolicyFuncName; DefaultLatencyErrorRatePolicyFuncName])))
      (in_apostrophes (CalculationFunctionName s) +:+ " default function doesn't exist");
    wrap "couldn't read a ts script, " (compileFunc s)
  ].

Definition defaults_entry_validate `{Chains} (kv : string * option ChainDefaults) : option string :=
  first_error [
    check (negb (bool_decide (is_Some (chain_settings kv.1))))
      ("error during chain defaults validation, cause: not supported chain " +:+ kv.1);
    wrap ("error during chain " +:+ in_apostrophes kv.1 +:+ " defaults validation, cause: ")
      (if_set kv.2 chainDefaults_validate)
  ].

Definition upstream_entry_validate `{Chains} `{ConfigEnv} (budgets : gset string) (torProxyUrl : string)
    (i : N) (seen : gset string) (u : Upstream) : option string :=
  first_error [
    check (bool_decide (u_Id u = ""))
      ("error during upstream validation, cause: no upstream id under index " +:+ pretty i);
    check (bool_decide (u_Id u ∈ seen))
      ("error during upstream validation, cause: upstream with id " +:+ in_apostrophes (u_Id u) +:+ " already exists");
    wrap ("error during upstream " +:+ in_apostrophes (u_Id u) +:+ " validation, cause: ")
      (upstream_validate torProxyUrl u);
    check (negb (bool_decide (u_RateLimitBudget u = "")) && negb (bool_decide (u_RateLimitBudget u ∈ budgets)))
      ("upstream " +:+ in_apostrophes (u_Id u) +:+ " references non-existent rate limit budget " +:+
       in_apostrophes (u_RateLimitBudget u));
    wrap "error during rate limit auto-tune config validation, cause: "
      (if_set (u_RateLimitAutoTune u) autotune_validate)
  ].

Definition upstreamConfig_validate `{MapRange} `{Chains} `{ConfigEnv} (budgets : gset string) (torProxyUrl : string)
    (u : UpstreamConfig) : option string :=
  first_error [
    mode_Validate (uc_Mode u);
    wrap "error during score policy config validation, cause: " (if_set (uc_ScorePolicy u) scorePolicy_validate);
    wrap "error during label-balancing config validation, cause: "
      (if_set (uc_LabelBalancing u) labelBalancing_validate);
    balancingStrategy_validate (uc_BalancingStrategy u);
    first_error (map defaults_entry_validate (range (uc_ChainDefaults u)));
    wrap "error during failsafe validation of upstream-conifg: " (if_set (uc_FailsafeConfig u) failsafe_validate);
    check (bool_decide (uc_Upstreams u = [])) "there must be at least one upstream in the config";
    each_new u_Id (upstream_entry_validate budgets torProxyUrl) 0 ∅ (uc_Upstreams u)
  ].

(** ** Lemmas on checks *)

Lemma check_None b e : check b e = None <-> b = false.
Proof. by destruct b. Qed.

Lemma first_error_None l : first_error l = None <-> Forall (fun e => e = None) l.
Proof.
  induction l as [|[e|] l IH]; simpl; [by rewrite Forall_nil| |]; rewrite Forall_cons; naive_solver.
Qed.

Lemma wrap_None p e : wrap p e = None <-> e = None.
Proof. by destruct e. Qed.

Lemma if_set_None {A} (o : option A) f : if_set o f = None <-> forall a, o = Some a -> f a = None.
Proof. destruct o; simpl; naive_solver. Qed.

Lemma negb_decide_false P `{Decision P} : negb (bool_decide P) = false <-> P.
Proof. by rewrite negb_false_iff, bool_decide_eq_true. Qed.

Section EachNewFacts.
Context {A K : Type} `{Countable K} (key : A -> K) (validate : N -> gset K -> A -> option string).

Lemma each_new_None i seen l :
  (forall i seen a, validate i seen a = None -> key a ∉ seen) ->
  each_new key validate i seen l = None ->
  NoDup (map key l) /\ Forall (fun k => k ∉ seen) (map key l) /\
  Forall (fun a => exists i seen, validate i seen a = None) l.
Proof using Type.
  intros Hv. revert i seen. induction l as [|a l IH]; intros i seen; [intros _; repeat constructor|]. cbn [each_new map].
  rewrite first_error_None, !Forall_cons. intros (Ha & Hl & _).
  destruct (IH _ _ Hl) as (Hn & Hs & Hf). pose proof (Hv _ _ _ Ha) as Hk. split_and!.
  - apply NoDup_cons. split; [|done]. intros Hin. rewrite Forall_forall in Hs. specialize (Hs _ Hin). set_solver.
  - done.
  - eapply Forall_impl; [exact Hs|]. set_solver.
  - eauto.
  - done.
Qed.
End EachNewFacts.

(** Turn an accepted validation into the negation of its checks. *)
Ltac accepted H :=
  repeat rewrite ?first_error_None, ?Forall_cons, ?check_None, ?wrap_None, ?negb_decide_false,
    ?bool_decide_eq_false in H.

(** ** Connector types *)

Lemma connector_name_roundtrip t : t <> UnknownType -> GetApiConnectorType (ApiConnectorType_String t) = t.
Proof. by destruct t. Qed.

Lemma ValidateApiConnectorType_None name :
  ValidateApiConnectorType name = None <-> GetApiConnectorType name <> UnknownType.
Proof.
  unfold ValidateApiConnectorType, GetApiConnectorType. destruct (apiConnectorNames !! name) as [t|] eqn:E; [|done].
  simpl. split; [intros _ ->|done]. revert E. unfold apiConnectorNames.
  intros E%elem_of_list_to_map_2. set_solver.
Qed.

Definition plain_type (t : ApiConnectorType) : Prop := t <> UnknownType /\ t <> RestAdditional.

Lemma plain_type_listed t : plain_type t <-> t ∈ plainApiConnectorTypes.
Proof.
  unfold plain_type, plainApiConnectorTypes. split; [intros [??]; destruct t; try done; set_solver|].
  intros Hin. rewrite !elem_of_cons in Hin. naive_solver set_solver.
Qed.

Lemma IsAdditional_iff t : IsAdditionalApiConnectorType t = true <-> t = RestAdditional.
Proof. by destruct t. Qed.

Lemma best_connector_spec mode u :
  mode ∈ [DefaultMode; StrictMode] ->
  (exists c, c ∈ u_Connectors u /\ plain_type (connector_type c)) ->
  exists b, b ∈ u_Connectors u /\ GetBestConnector mode u = connector_type b /\ plain_type (connector_type b) /\
    forall c, c ∈ u_Connectors u -> plain_type (connector_type c) ->
      if bool_decide (mode = StrictMode) then connector_rank c <= connector_rank b
      else connector_rank b <= connector_rank c.
Proof.
  intros Hm Hex. unfold GetBestConnector.
  assert (forall c, c ∈ base.filter (fun a => is_plain a = true) (u_Connectors u) <->
    c ∈ u_Connectors u /\ plain_type (connector_type c)) as Hf.
  { intros c. rewrite list_elem_of_filter. unfold is_plain, plain_type. rewrite andb_true_iff, !negb_true_iff.
    rewrite bool_decide_eq_false. rewrite <- not_true_iff_false, IsAdditional_iff. naive_solver. }
  revert Hf. generalize (base.filter (fun a => is_plain a = true) (u_Connectors u)) as l.
  intros [|c l] Hf; [destruct Hex as (c & Hc); by apply Hf in Hc as ?%elem_of_nil|].
  assert (forall key b, b = argmin key c l -> b ∈ u_Connectors u /\ plain_type (connector_type b) /\
    forall x, x ∈ u_Connectors u -> plain_type (connector_type x) -> key b <= key x) as Hbest.
  { intros key b ->. split_and!.
    - apply Hf. destruct (argmin_elem key c l) as [->|]; [by left|by right].
    - apply Hf. destruct (argmin_elem key c l) as [->|]; [by left|by right].
    - intros x Hx Hp. assert (x ∈ c :: l) as [-> |Hin]%elem_of_cons by (by apply Hf);
        [apply argmin_le_acc|by apply argmin_le]. }
  apply elem_of_cons in Hm as [-> |Hm]; [|apply list_elem_of_singleton in Hm as ->].
  - destruct (Hbest connector_rank _ eq_refl) as (H1 & H2 & H3). by eexists.
  - destruct (Hbest (fun a => - connector_rank a) _ eq_refl) as (H1 & H2 & H3). eexists. split; [exact H1|].
    split; [done|]. split; [done|]. intros x Hx Hp. specialize (H3 x Hx Hp). simpl. lia.
Qed.

(** ** Running the defaults again *)

Lemma or_zero_idem v f : or_zero (or_zero v f) f = or_zero v f.
Proof. unfold or_zero. destruct (v =? 0) eqn:E; [by destruct (f =? 0)|by rewrite E]. Qed.

Lemma add_label_idem l v labels : add_label l v (add_label l v labels) = add_label l v labels.
Proof.
  unfold add_label at 2 3. destruct (labels !! l) eqn:E; unfold add_label; [by rewrite E|by rewrite lookup_insert_eq].
Qed.

Lemma add_label_swap l v l' v' labels :
  l <> l' -> add_label l v (add_label l' v' labels) = add_label l' v' (add_label l v labels).
Proof.
  intros Hne. unfold add_label. destruct (labels !! l) eqn:E, (labels !! l') eqn:E';
    rewrite ?lookup_insert_ne, ?E, ?E' by done; try done.
  by rewrite insert_insert_ne.
Qed.

Lemma number_default_idem d s o o' getter f :
  f <> 0 -> getter o' = number_default d s o getter f -> number_default d s o' getter f = number_default d s o getter f.
Proof.
  intros Hf Eo. unfold number_default at 1. rewrite Eo. unfold number_default.
  destruct (getter o =? 0) eqn:E; [|by rewrite E].
  assert (resolveDuration (getDuration (d ≫= cd_Options) getter) (getDuration (settings_Options s) getter) f <> 0) as Hr.
  { unfold resolveDuration. repeat split_test; reflect_bool; done. }
  by rewrite (proj2 (Z.eqb_neq _ _) Hr).
Qed.

Lemma bool_default_idem d s o o' getter f :
  getter o' = bool_default d s o getter f -> bool_default d s o' getter f = bool_default d s o getter f.
Proof. intros E. unfold bool_default at 1. rewrite E. unfold bool_default. by destruct (getter o). Qed.

Lemma setOptionsDefaults_idem d s m o :
  setOptionsDefaults d s m (setOptionsDefaults d s m o) = setOptionsDefaults d s m o.
Proof.
  unfold setOptionsDefaults at 1 3. f_equal; try (by apply number_default_idem);
    by apply bool_default_idem.
Qed.

Lemma retry_setDefaults_idem r : retry_setDefaults (retry_setDefaults r) = retry_setDefaults r.
Proof. unfold retry_setDefaults. simpl. by rewrite or_zero_idem. Qed.

Lemma hedge_setDefaults_idem h : hedge_setDefaults (hedge_setDefaults h) = hedge_setDefaults h.
Proof. unfold hedge_setDefaults. simpl. by rewrite !or_zero_idem. Qed.

Lemma autotune_setDefaults_idem r : autotune_setDefaults (autotune_setDefaults r) = autotune_setDefaults r.
Proof.
  unfold autotune_setDefaults. simpl. rewrite !or_zero_idem. f_equal.
  by destruct (SFeqb (at_ErrorRateThreshold r) _) eqn:E; [|rewrite E].
Qed.

Lemma scorePolicy_setDefaults_idem s : scorePolicy_setDefaults (scorePolicy_setDefaults s) = scorePolicy_setDefaults s.
Proof.
  unfold scorePolicy_setDefaults. simpl. rewrite or_zero_idem. f_equal.
  by destruct (bool_decide (CalculationFunctionName s = "")) eqn:E1,
    (bool_decide (CalculationFunctionFilePath s = "")) eqn:E2; simpl; rewrite ?E1.
Qed.

Lemma option_map_idem {A} (f : A -> A) (o : option A) :
  (forall a, f (f a) = f a) -> f <$> (f <$> o) = f <$> o.
Proof. intros Hf. destruct o; simpl; [by rewrite Hf|done]. Qed.

Lemma default_head_connector_idem mode u u' :
  u_Connectors u' = u_Connectors u -> u_HeadConnector u' = default_head_connector mode u ->
  default_head_connector mode u' = default_head_connector mode u.
Proof.
  intros Hc Hh. assert (GetBestConnector mode u' = GetBestConnector mode u) as Hb
    by (unfold GetBestConnector; by rewrite Hc).
  unfold default_head_connector at 1. rewrite Hh, Hc, Hb. unfold default_head_connector.
  destruct (bool_decide (u_HeadConnector u = "") && negb (bool_decide (u_Connectors u = []))) eqn:E; [|by rewrite E].
  destruct (bool_decide (GetBestConnector mode u = UnknownType)) eqn:Eb; [by rewrite E|].
  by destruct (GetBestConnector mode u).
Qed.

Lemma archive_labels_idem o l :
  translateDeprecatedArchiveOption o (translateDeprecatedArchiveOption o l) = translateDeprecatedArchiveOption o l.
Proof. unfold translateDeprecatedArchiveOption. destruct (ArchiveCapability o); [apply add_label_idem|done]. Qed.

Section Idempotent.
Context `{CH : Chains}.

Lemma upstream_setDefaults_idem d mode u :
  upstream_setDefaults d mode (upstream_setDefaults d mode u) = upstream_setDefaults d mode u.
Proof using Type.
  unfold upstream_setDefaults at 1 3. f_equal; cbn [u_ChainName u_PollInterval u_Methods u_FailsafeConfig u_Options
    u_RateLimitAutoTune u_Labels upstream_setDefaults default from_option id].
  - by apply default_head_connector_idem.
  - apply or_zero_idem.
  - unfold methods_setDefaults. simpl. by rewrite or_zero_idem.
  - unfold upstream_failsafe_defaults. simpl. rewrite option_map_idem; [done|apply retry_setDefaults_idem].
  - by rewrite setOptionsDefaults_idem.
  - apply option_map_idem, autotune_setDefaults_idem.
  - rewrite setOptionsDefaults_idem. apply archive_labels_idem.
Qed.

Lemma secure_label_swap d mode u :
  upstream_setDefaults d mode (setSecureSignedLabel u) = setSecureSignedLabel (upstream_setDefaults d mode u).
Proof using Type.
  unfold upstream_setDefaults, setSecureSignedLabel. simpl. f_equal.
  unfold translateDeprecatedArchiveOption. destruct (ArchiveCapability _); [by apply add_label_swap|done].
Qed.

Lemma secure_label_idem u : setSecureSignedLabel (setSecureSignedLabel u) = setSecureSignedLabel u.
Proof using Type. unfold setSecureSignedLabel. simpl. by rewrite add_label_idem. Qed.
End Idempotent.

Lemma null_defaults_iff u : null_defaults u = true <-> exists chain, uc_ChainDefaults u !! chain = Some None.
Proof.
  unfold null_defaults. rewrite existsb_exists. split.
  - intros ([k v] & Hin & Hv). exists k. destruct v; [done|]. apply elem_of_map_to_list. by apply list_elem_of_In.
  - intros [k Hk]. exists (k, None). split; [|done]. apply list_elem_of_In. by apply elem_of_map_to_list.
Qed.

Lemma defaults_not_null `{Chains} gd u u' : upstreamConfig_setDefaults gd u = Some u' -> null_defaults u' = false.
Proof.
  unfold upstreamConfig_setDefaults. destruct (null_defaults u) eqn:En; [done|]. intros [= <-].
  apply not_true_iff_false. rewrite null_defaults_iff. intros [c Hc]. simpl in Hc.
  rewrite lookup_fmap in Hc. apply not_true_iff_false in En. apply En, null_defaults_iff. exists c.
  destruct (uc_ChainDefaults u !! c) as [[d|]|]; by simplify_eq/=.
Qed.

Lemma chain_defaults_idem (m : gmap string (option ChainDefaults)) :
  let f := fmap (M := option) chainDefaults_setDefaults in f <$> (f <$> m) = f <$> m.
Proof.
  intros f. rewrite <- map_fmap_compose. apply map_fmap_ext. intros k d _. destruct d as [c|]; [|done]. simpl. f_equal.
  unfold chainDefaults_setDefaults. simpl. f_equal. apply option_map_idem. by intros [].
Qed.

(** Filling in the defaults is idempotent: a configuration written out with
    its defaults and loaded again is the same one, upstreams, labels, chain
    defaults and options included. *)
Theorem upstream_defaults_idempotent `{Chains} grpcAuthDisabled u u' :
  upstreamConfig_setDefaults grpcAuthDisabled u = Some u' ->
  upstreamConfig_setDefaults grpcAuthDisabled u' = Some u'.
Proof.
  intros Hd. pose proof (defaults_not_null _ _ _ Hd) as Hn. revert Hd Hn.
  unfold upstreamConfig_setDefaults at 1. destruct (null_defaults u); [done|]. intros [= <-] Hn.
  unfold upstreamConfig_setDefaults. rewrite Hn. clear Hn.
  set (mode := if bool_decide (uc_Mode u = "") then DefaultMode else uc_Mode u).
  set (f := fmap (M := option) chainDefaults_setDefaults).
  assert (mode <> "") as Hm by (unfold mode; by case_bool_decide).
  cbn [uc_Mode uc_ChainDefaults uc_Upstreams uc_FailsafeConfig uc_ScorePolicy uc_Integrity uc_LabelBalancing
    uc_BalancingStrategy].
  rewrite (bool_decide_eq_false_2 (mode = "")) by done.
  rewrite chain_defaults_idem. f_equal. f_equal.
  - rewrite map_map. apply map_ext. intros up.
    destruct grpcAuthDisabled; [apply upstream_setDefaults_idem|].
    cbn [u_ChainName setSecureSignedLabel upstream_setDefaults].
    by rewrite secure_label_swap, secure_label_idem, upstream_setDefaults_idem.
  - unfold flow_failsafe_defaults. simpl. rewrite !option_map_idem;
      [done|apply retry_setDefaults_idem|apply hedge_setDefaults_idem].
  - simpl. by rewrite scorePolicy_setDefaults_idem.
  - simpl. unfold integrity_setDefaults. by case_bool_decide.
  - apply option_map_idem. by intros [].
  - by destruct (bool_decide (uc_BalancingStrategy u = "")) eqn:E; [|rewrite E].
Qed.

(** ** What an accepted configuration guarantees *)

Definition rule_wf (r : RateLimitRule) : Prop :=
  0 < rule_Period r /\ 1 <= rule_Requests r /\
  (rule_Method r = "" /\ rule_Pattern r <> "" \/ methodRegex (rule_Method r) = true /\ rule_Pattern r = "").

Definition retry_wf (r : RetryConfig) : Prop :=
  1 <= rt_Attempts r /\ 0 <= rt_Delay r /\ forall d, rt_MaxDelay r = Some d -> 0 < d /\ rt_Delay r <= d.

Definition autotune_wf (r : RateLimitAutoTuneConfig) : Prop :=
  at_Enabled r = true -> 0 < at_InitRateLimit r /\ 0 < at_InitRateLimitPeriod r <= at_Period r.

(** The options the rest of the program dereferences without a check. *)
Definition option_flags (o : Options) : list (option bool) :=
  [DisableValidation o; DisableSettingsValidation o; DisableChainValidation o; DisableHealthValidation o;
   DisableLowerBoundsDetection o; DisableSafeBlockDetection o; DisableFinalizedBlockDetection o;
   DisableLabelsDetection o; DisableMethodsDetection o; DisableLogIndexValidation o;
   DisableLivenessSubscriptionValidation o; ValidateSyncing o; ValidatePeers o; ValidateCallLimit o;
   ValidateClientVersion o].

Definition options_wf (o : Options) : Prop :=
  0 < InternalTimeout o /\ 0 < ValidationInterval o /\ MinPeers o <> 0 /\ CallLimitSize o <> 0 /\
  Forall is_Some (option_flags o).

Definition methods_wf (m : MethodsSection) : Prop :=
  0 < BanDuration m /\ forall n, n ∈ EnableMethods (method_lists m) -> n ∉ DisableMethods (method_lists m).

Record upstream_wf `{Chains} (budgets : gset string) (u : Upstream) : Prop := mkUpstreamWf {
  wf_id : u_Id u <> "";
  wf_chain : is_Some (chain_settings (u_ChainName u));
  wf_connectors : NoDup (GetApiConnectorTypes u) /\ UnknownType ∉ GetApiConnectorTypes u;
  wf_head : GetHeadApiConnectorType u ∈ GetApiConnectorTypes u /\ plain_type (GetHeadApiConnectorType u);
  wf_methods : exists m, u_Methods u = Some m /\ methods_wf m;
  wf_failsafe : exists f, u_FailsafeConfig u = Some f /\ forall r, fs_Retry f = Some r -> retry_wf r;
  wf_options : exists o, u_Options u = Some o /\ options_wf o;
  wf_rules : forall rules, u_RateLimit u = Some rules -> Forall rule_wf rules;
  wf_tune : forall t, u_RateLimitAutoTune u = Some t -> autotune_wf t;
  wf_budget : u_RateLimitBudget u = "" \/ u_RateLimitBudget u ∈ budgets;
  wf_labels : forall l v, u_Labels u !! l = Some v -> l <> "" /\ v <> "";
}.

Lemma rules_validate_wf rules : rules_validate methodRegex rules = None -> Forall rule_wf rules.
Proof.
  induction rules as [|r rules IH]; [by constructor|]. simpl. unfold rule_wf.
  destruct (bool_decide (rule_Method r = "")) eqn:Em, (bool_decide (rule_Pattern r = "")) eqn:Ep; simpl; try done.
  - destruct (_ <=? 0) eqn:E1; [done|]. destruct (_ <? 1) eqn:E2; [done|]. intros Hr. reflect_bool.
    constructor; [|by apply IH]. split_and!; [lia|lia|by left].
  - destruct (methodRegex (rule_Method r)) eqn:Er; [|done]. simpl.
    destruct (_ <=? 0) eqn:E1; [done|]. destruct (_ <? 1) eqn:E2; [done|]. intros Hr. reflect_bool.
    constructor; [|by apply IH]. split_and!; [lia|lia|by right].
Qed.

Lemma retry_validate_wf r : retry_validate r = None -> retry_wf r.
Proof.
  unfold retry_validate. intros Hv. accepted Hv. destruct Hv as (H1 & H2 & H3 & _ & H5 & _).
  reflect_bool. split_and!; [lia..|]. intros d Hd. rewrite if_set_None in H3, H5.
  specialize (H3 d Hd). specialize (H5 d Hd). accepted H3. accepted H5. reflect_bool. lia.
Qed.

Lemma autotune_validate_wf r : autotune_validate r = None -> autotune_wf r.
Proof.
  unfold autotune_validate, autotune_wf. intros Hv He. rewrite He in Hv. cbn [negb] in Hv. accepted Hv.
  destruct Hv as (H1 & _ & H3 & H4 & H5 & _). reflect_bool. lia.
Qed.

Lemma methods_validate_wf m : methods_validate m = None -> methods_wf m.
Proof.
  unfold methods_validate, methods_wf. intros Hv. accepted Hv. destruct Hv as [H1 H2]. reflect_bool.
  split; [lia|]. intros n Hn Hd. rewrite Forall_map, Forall_forall in H2. specialize (H2 n Hd). simpl in H2.
  by accepted H2.
Qed.

Lemma number_default_nonzero d s o getter f : f <> 0 -> number_default d s o getter f <> 0.
Proof.
  intros Hf. unfold number_default. destruct (getter o =? 0) eqn:E; reflect_bool; [|done].
  unfold resolveDuration. repeat split_test; reflect_bool; done.
Qed.

Lemma bool_default_set d s o getter f : is_Some (bool_default d s o getter f).
Proof. unfold bool_default. destruct (getter o); [by eexists|]. by eexists. Qed.

Lemma setOptionsDefaults_wf d s m o :
  options_Validate (setOptionsDefaults d s m o) = None -> options_wf (setOptionsDefaults d s m o).
Proof.
  unfold options_Validate. intros Hv. accepted Hv. destruct Hv as (H1 & H2 & _). reflect_bool.
  pose proof (number_default_nonzero d s o InternalTimeout (5 * second)) as N1.
  pose proof (number_default_nonzero d s o ValidationInterval (30 * second)) as N2.
  simpl in H1, H2. unfold options_wf. cbn [setOptionsDefaults InternalTimeout ValidationInterval MinPeers CallLimitSize].
  unfold second, millisecond in *. split_and!; [lia|lia|by apply number_default_nonzero..|].
  repeat constructor; apply bool_default_set.
Qed.

Section Accepted.
Context `{MR : MapRange} `{CH : Chains} `{CE : ConfigEnv}.

(** The sections the defaults fill in. *)
Definition has_defaults (u : Upstream) : Prop :=
  is_Some (u_Methods u) /\ is_Some (u_FailsafeConfig u) /\
  exists d s m o, u_Options u = Some (setOptionsDefaults d s m o).

Lemma connectors_accepted tor u seen :
  each_new connector_type (fun _ seen c => first_error [
      check (bool_decide (connector_type c ∈ seen))
        ("there can be only one connector of type " +:+ in_apostrophes (c_Type c));
      connector_validate tor c
    ]) 0 seen (u_Connectors u) = None ->
  NoDup (GetApiConnectorTypes u) /\ UnknownType ∉ GetApiConnectorTypes u.
Proof using Type.
  intros Hv. apply each_new_None in Hv as (Hn & _ & Hf).
  2: { intros i s a Ha. accepted Ha. tauto. }
  split; [exact Hn|]. intros (c & Hu & Hc)%list_elem_of_fmap. rewrite Forall_forall in Hf.
  destruct (Hf c Hc) as (i & s & Ha). unfold connector_validate in Ha. accepted Ha.
  destruct Ha as (_ & (Ht & _) & _). by apply ValidateApiConnectorType_None in Ht.
Qed.

Lemma labels_accepted u l v : validateLabels u = None -> u_Labels u !! l = Some v -> l <> "" /\ v <> "".
Proof using Type.
  unfold validateLabels. rewrite first_error_None, Forall_map, Forall_forall. intros Hv Hl.
  assert (l ∈ sort_Strings (map_to_list (u_Labels u)).*1) as Hin.
  { unfold sort_Strings. rewrite stable_sort_perm. apply list_elem_of_fmap. exists (l, v). split; [done|].
    by apply elem_of_map_to_list. }
  specialize (Hv l Hin). cbn beta in Hv. accepted Hv. rewrite Hl in Hv. simpl in Hv. tauto.
Qed.

Lemma head_accepted u : validateHeadConnector u = None -> plain_type (GetHeadApiConnectorType u).
Proof using Type.
  unfold validateHeadConnector. intros Hv. accepted Hv. destruct Hv as (Ht & Ha & _).
  apply ValidateApiConnectorType_None in Ht. split; [done|]. intros E. rewrite E in Ha. done.
Qed.

Lemma upstream_accepted budgets tor i seen u :
  has_defaults u -> upstream_entry_validate budgets tor i seen u = None -> upstream_wf budgets u /\ u_Id u ∉ seen.
Proof using Type.
  intros ([m Hm] & [f Hf] & d & s & mode & o & Ho). unfold upstream_entry_validate, upstream_validate.
  intros Hv. accepted Hv.
  destruct Hv as (Hid & Hseen & (Hch & _ & Hru & _ & Hcn & Hhd & Hin & Hfs & Hme & Hop & _ & Hla & _) & Hbu & Htu & _).
  rewrite Hm in Hme. rewrite Hf in Hfs. rewrite Ho in Hop. simpl in Hme, Hfs, Hop. split; [|done].
  rewrite if_set_None in Hru. rewrite if_set_None in Htu. constructor.
  - done.
  - done.
  - by apply connectors_accepted in Hcn.
  - split; [done|by apply head_accepted].
  - exists m. split; [done|by apply methods_validate_wf].
  - exists f. split; [done|]. unfold failsafe_validate in Hfs. accepted Hfs. destruct Hfs as (_ & Hr & _).
    rewrite if_set_None in Hr. intros r Hrt. by apply retry_validate_wf, Hr.
  - eexists. split; [exact Ho|]. by apply setOptionsDefaults_wf.
  - intros rules Hr. by apply rules_validate_wf, Hru.
  - intros t Ht. by apply autotune_validate_wf, Htu.
  - apply andb_false_iff in Hbu as [Hb|Hb]; accepted Hb; [by left|by right].
  - intros l v. by apply labels_accepted.
Qed.

Lemma upstream_setDefaults_has (b : bool) d mode u :
  has_defaults (if b then upstream_setDefaults d mode u else setSecureSignedLabel (upstream_setDefaults d mode u)).
Proof using Type.
  destruct b; (split; [by eexists|]; split; [by eexists|]; by eexists _, _, _, _).
Qed.

Lemma setDefaults_upstreams gd u u' :
  upstreamConfig_setDefaults gd u = Some u' ->
  Forall has_defaults (uc_Upstreams u') /\ map u_Id (uc_Upstreams u') = map u_Id (uc_Upstreams u) /\
  is_Some (uc_FailsafeConfig u') /\ is_Some (uc_ScorePolicy u') /\
  (uc_Mode u' = StrictMode -> uc_Integrity u' = Some false).
Proof using Type.
  unfold upstreamConfig_setDefaults. destruct (null_defaults u); [done|]. intros [= <-]. simpl. split_and!.
  - apply Forall_map, Forall_true. intros up. apply upstream_setDefaults_has.
  - rewrite map_map. apply map_ext. intros up. by destruct gd.
  - by eexists.
  - by eexists.
  - intros ->. done.
Qed.
End Accepted.

Definition order_wf (l : LabelBalancingConfig) : Prop :=
  lb_Order l <> [] /\ ("" ∉ lb_Order l) /\ NoDup (lb_Order l).

Lemma labelBalancing_validate_wf l : labelBalancing_validate l = None -> order_wf l.
Proof.
  unfold labelBalancing_validate. intros Hv. accepted Hv. destruct Hv as (Hne & Hea & _).
  apply each_new_None in Hea as (Hn & _ & Hf).
  2: { intros i s a Ha. accepted Ha. tauto. }
  rewrite map_id in Hn. split_and!; [done| |done]. intros Hin. rewrite Forall_forall in Hf.
  destruct (Hf "" Hin) as (i & s & Ha). accepted Ha. tauto.
Qed.

(** C25. What the rest of the program relies on holds of every configuration that is
    loaded and accepted: unique ids; per upstream a supported chain, known and
    distinct connector types, a head connector among them that is not an
    additional one, no method both enabled and disabled, every option set and the
    timeouts positive, sane retries, rate limits and auto-tuning, an existing
    budget and labels with values; a usable label order per chain; and no
    integrity checks in strict mode. *)
Theorem accepted_config_wf `{MapRange} `{Chains} `{ConfigEnv} grpcAuthDisabled budgets tor u u' :
  upstreamConfig_setDefaults grpcAuthDisabled u = Some u' ->
  upstreamConfig_validate budgets tor u' = None ->
  uc_Upstreams u' <> [] /\ NoDup (map u_Id (uc_Upstreams u)) /\ Forall (upstream_wf budgets) (uc_Upstreams u') /\
  uc_Mode u' ∈ [DefaultMode; StrictMode] /\ (uc_Mode u' = StrictMode -> uc_Integrity u' = Some false) /\
  (forall chain, exists o, LabelBalancingFor u' chain = Some o /\ forall l, o = Some l -> order_wf l) /\
  (exists f, uc_FailsafeConfig u' = Some f /\ forall r, fs_Retry f = Some r -> retry_wf r).
Proof.
  intros Hd Hv. pose proof (setDefaults_upstreams _ _ _ Hd) as (Hhas & Hids & [f Hf] & _ & Hint).
  pose proof (defaults_not_null _ _ _ Hd) as Hnull.
  unfold upstreamConfig_validate in Hv. accepted Hv.
  destruct Hv as (Hmo & _ & Hlb & _ & Hcd & Hfs & Hne & Hup & _). unfold mode_Validate in Hmo. accepted Hmo.
  apply each_new_None in Hup as (Hnd & _ & Hok).
  2: { intros i s a Ha. unfold upstream_entry_validate in Ha. accepted Ha. tauto. }
  rewrite Hf in Hfs. simpl in Hfs. split_and!; try done.
  - by rewrite <- Hids.
  - rewrite Forall_forall in *. intros x Hx. destruct (Hok x Hx) as (i & s & Ha).
    by apply upstream_accepted in Ha as [Hw _]; [|apply Hhas].
  - intros chain. unfold LabelBalancingFor. rewrite if_set_None in Hlb.
    assert (forall l, uc_LabelBalancing u' = Some l -> order_wf l) as Hg
      by (intros l Hl; by apply labelBalancing_validate_wf, Hlb).
    destruct (uc_ChainDefaults u' !! chain) as [[d|]|] eqn:Ec; [|exfalso|by eexists].
    + rewrite Forall_map, Forall_forall in Hcd.
      specialize (Hcd (chain, Some d)). unfold defaults_entry_validate in Hcd. cbn [fst snd if_set mbind option_bind] in Hcd.
      assert ((chain, Some d) ∈ range (uc_ChainDefaults u')) as Hin by (by apply elem_of_range).
      specialize (Hcd Hin). accepted Hcd. destruct Hcd as (_ & Hcd & _).
      unfold chainDefaults_validate in Hcd. accepted Hcd. destruct Hcd as (_ & Hcl & _). rewrite if_set_None in Hcl.
      eexists. split; [done|]. intros l Hl. destruct (cd_LabelBalancing d) eqn:E; [|by apply Hg].
      injection Hl as <-. by apply labelBalancing_validate_wf, Hcl.
    + apply not_true_iff_false in Hnull. apply Hnull, null_defaults_iff. by exists chain.
  - exists f. split; [done|]. unfold failsafe_validate in Hfs. accepted Hfs. destruct Hfs as (_ & Hr & _).
    rewrite if_set_None in Hr. intros r Hrt. by apply retry_validate_wf, Hr.
Qed.

(** ** A configuration *)

#[local] Instance config_chains : Chains := {|
  chain_settings c := if bool_decide (c = "ethereum") then Some (mkSettings (12 * second) "" (mkLagConfig 3 6) None None (Some false)) else None
|}.

#[local] Instance demo_config_env : ConfigEnv := {|
  url_Parse _ := inr ("https", "node", "node");
  compileFunc _ := None;
|}.

Definition demo_upstream : Upstream :=
  mkUpstream "up1" "ethereum"
    [mkConnectorConfig "websocket" "wss://node" ∅ "" []; mkConnectorConfig "json-rpc" "https://node" ∅ "" []]
    "" 0 None None None "" None None [] ∅.

Definition demo_upstream_config : UpstreamConfig :=
  mkUpstreamConfig [demo_upstream] {["ethereum" := Some (mkChainDefaults 0 None None None None None "base")]}
    None None None None "" "strict".

Example demo_head : map u_HeadConnector <$>
    (uc_Upstreams <$> upstreamConfig_setDefaults true demo_upstream_config) = Some ["websocket"].
Proof. by vm_compute. Qed.

#[local] Existing Instance Prelude.default_range.

Example demo_loads :
  upstreamConfig_validate ∅ "" <$> upstreamConfig_setDefaults true demo_upstream_config = Some None.
Proof. vm_compute. reflexivity. Qed.

Lemma upstream_defaults_idempotent_witness :
  exists u', upstreamConfig_setDefaults true demo_upstream_config = Some u' /\
    upstreamConfig_setDefaults true u' = Some u'.
Proof.
  pose proof demo_loads as Hl. destruct (upstreamConfig_setDefaults true demo_upstream_config) as [u'|] eqn:E;
    [|discriminate Hl].
  exists u'. split; [reflexivity|]. exact (upstream_defaults_idempotent true demo_upstream_config u' E).
Defined.

Lemma accepted_config_wf_witness :
  exists u', upstreamConfig_setDefaults true demo_upstream_config = Some u' /\ Forall (upstream_wf ∅) (uc_Upstreams u').
Proof.
  pose proof demo_loads as Hl. destruct (upstreamConfig_setDefaults true demo_upstream_config) as [u'|] eqn:E;
    [|discriminate Hl].
  cbn [fmap option_fmap option_map] in Hl. injection Hl as Hv. exists u'. split; [reflexivity|].
  exact (proj1 (proj2 (proj2 (accepted_config_wf true ∅ "" demo_upstream_config u' E Hv)))).
Defined.
