(* ===== verification/Chains.v ===== *)
(** The registry of chains: the bundled definitions, the extra chains a deployment
    adds, and the lookups of every other component ([pkg/chains/chains.go], with the
    [Chain] type and its [String] as [cmd/chains/init_chains.go] generates them). *)

From S2P Require Import Prelude.
From S2P Require Import GoStrings.
From S2P Require Import Errors.
From S2P Require Import Config.

(** ** The definitions as YAML decodes them *)

(** A decoded value: only maps are told apart. *)
Inductive Yaml := YMap (m : list (string * Yaml)) | YOther (text : string).

Definition YamlMap : Type := list (string * Yaml).

Record GoldLowerBound := mkGold { gold_Block : Z; gold_Hash : string }.
Record ChainLowerBounds := mkChainLowerBounds { lb_Tx : option GoldLowerBound; lb_Receipts : option GoldLowerBound }.

Record ChainData := mkChainData {
  cd_ShortNames : list string;
  cd_ChainId : string;
  cd_GrpcId : Z;
  cd_MethodSpec : string;
  cd_Settings : YamlMap;
  cd_NetVersion : string;
  cd_CallValidateContract : string;
  cd_GasPriceCondition : list string;
  cd_LowerBounds : option ChainLowerBounds;
}.

Record Protocol := mkProtocol { pr_Chains : list ChainData; pr_Settings : YamlMap; pr_Type : string }.

Record ChainConfig := mkChainConfig { cc_Protocols : list Protocol; cc_Default : YamlMap }.

(** The decoding of the file and of merged settings, and the number of [big.Int]
    as [getNetVersion] prints it. *)
Class ChainYaml := {
  unmarshal_chains : string -> string + ChainConfig;
  decode_settings : YamlMap -> string + Settings;
  getNetVersion : string -> string;
}.

(** ** Types of chains *)

Definition blockchain_types : list string :=
  ["avm"; "bitcoin"; "cosmos"; "eth"; "eth-beacon-chain"; "near"; "polkadot"; "solana"; "starknet"; "stellar";
   "ton"; "aztec"; "aptos"].

Definition IsValidBlockchainType (t : string) : bool := bool_decide (t ∈ blockchain_types).

(** Every type but [avm] names its own specification. *)
Definition getMethodSpecName (blockchainType methodSpecName : string) : string :=
  if negb (bool_decide (methodSpecName = "")) then methodSpecName
  else if bool_decide (blockchainType = "avm") then "algorand"
  else if IsValidBlockchainType blockchainType then blockchainType
  else "".

(** ** Merging of settings *)

Fixpoint yaml_get (k : string) (m : YamlMap) : option Yaml :=
  match m with
  | [] => None
  | (k', v) :: m => if bool_decide (k = k') then Some v else yaml_get k m
  end.

Fixpoint yaml_set (k : string) (v : Yaml) (m : YamlMap) : YamlMap :=
  match m with
  | [] => [(k, v)]
  | (k', v') :: m => if bool_decide (k = k') then (k, v) :: m else (k', v') :: yaml_set k v m
  end.

(** The value of a key both maps have. *)
Fixpoint merge_value (dstVal srcVal : Yaml) : Yaml :=
  match srcVal, dstVal with
  | YMap src, YMap dst =>
    YMap ((fix merge (src newMap : YamlMap) : YamlMap :=
             match src with
             | [] => newMap
             | (key, srcVal) :: src =>
               merge src (yaml_set key (match yaml_get key dst with
                                        | Some dstVal => merge_value dstVal srcVal
                                        | None => srcVal
                                        end) newMap)
             end) src dst)
  | _, _ => srcVal
  end.

Definition deepMerge (dst src : YamlMap) : YamlMap :=
  foldl (fun newMap '(key, srcVal) =>
           yaml_set key (match yaml_get key dst with
                         | Some dstVal => merge_value dstVal srcVal
                         | None => srcVal
                         end) newMap) dst src.

(** ** The registry *)

Record ConfiguredChain := mkConfiguredChain {
  GrpcId : Z;
  ChainId : string;
  NetVersion : string;
  ShortNames : list string;
  cc_Type : string;
  cc_Settings : Settings;
  cc_Chain : Z;
  cc_MethodSpec : string;
  CallValidateContract : string;
  GasPriceCondition : list string;
  cc_LowerBounds : option ChainLowerBounds;
}.

Definition UnknownChain : ConfiguredChain :=
  mkConfiguredChain 0 "0x0" "0" [] "" unknownSettings (-1) "" "" [] None.

Definition dynamicChainBaseId : Z := 2 ^ 30.

(** The numbers of chains: [chainsMap] starts as generated. *)
Record ChainIds := mkChainIds {
  chainsMap : gmap string Z;
  dynamicChainNames : gmap Z string;
  nextDynamicChainId : Z;
}.

Record ChainRegistry := mkChainRegistry {
  ids : ChainIds;
  chains : gmap string ConfiguredChain;
  grpcChains : gmap Z ConfiguredChain;
  extraChainsLoadedFlag : bool;
}.

(** The generated [Chain.String]: [generated] lists the constants and their names. *)
Definition Chain_String (generated : gmap Z string) (dynamic : gmap Z string) (c : Z) : string :=
  if c =? 0 then "unknown"
  else match generated !! c with
       | Some name => name
       | None => default "unknown" (dynamic !! c)
       end.

(** A load fails with an error, or panics. *)
Inductive LoadFailure := LoadPanic | LoadError (text : string).

Section Load.
Context `{MR : MapRange} `{CY : ChainYaml} `{QU : Quoting}.

Definition ChainMaps : Type := gmap string ConfiguredChain * gmap Z ConfiguredChain.

(** The number of a chain, allocated unless the primary name has one. *)
Definition allocate (primary : string) (st : ChainIds) : Z * ChainIds :=
  match chainsMap st !! primary with
  | Some network => (network, st)
  | None =>
    let network := nextDynamicChainId st in
    (network, mkChainIds (<[primary := network]> (chainsMap st)) (<[network := primary]> (dynamicChainNames st))
                (network + 1))
  end.

Definition configured (protocolType : string) (chain : ChainData) (settings : Settings) (network : Z) : ConfiguredChain :=
  let netVersion := if bool_decide (cd_NetVersion chain = "") then getNetVersion (cd_ChainId chain) else cd_NetVersion chain in
  mkConfiguredChain (cd_GrpcId chain) (ToLower (cd_ChainId chain)) (ToLower netVersion) (cd_ShortNames chain)
    protocolType settings network
    (getMethodSpecName protocolType
       (if bool_decide (cd_MethodSpec chain = "") then settings_MethodSpec settings else cd_MethodSpec chain))
    (cd_CallValidateContract chain) (cd_GasPriceCondition chain) (cd_LowerBounds chain).

Definition register (c : ConfiguredChain) (maps : ChainMaps) : ChainMaps :=
  (foldl (fun m shortName => <[shortName := c]> m) maps.1 (ShortNames c), <[GrpcId c := c]> maps.2).

(** The body of the loops: one chain of one protocol. *)
Definition configure_chain (defaultSettings : YamlMap) (protocolType : string) (chain : ChainData)
    (maps : ChainMaps) (st : ChainIds) : (LoadFailure + ChainMaps) * ChainIds :=
  match decode_settings (deepMerge defaultSettings (cd_Settings chain)) with
  | inl err => (inl (LoadError err), st)
  | inr settings =>
    if ExpectedBlockTime settings =? 0 then (inl LoadPanic, st)
    else match cd_ShortNames chain with
         | [] => (inl (LoadError "chain entry has no short-names"), st)
         | primary :: _ =>
           let '(network, st) := allocate primary st in
           (inr (register (configured protocolType chain settings network) maps), st)
         end
  end.

Fixpoint configure_all (l : list (YamlMap * string * ChainData)) (maps : ChainMaps) (st : ChainIds)
    : (LoadFailure + ChainMaps) * ChainIds :=
  match l with
  | [] => (inr maps, st)
  | (defaultSettings, protocolType, chain) :: l =>
    match configure_chain defaultSettings protocolType chain maps st with
    | (inl err, st) => (inl err, st)
    | (inr maps, st) => configure_all l maps st
    end
  end.

(** The chains of a file with the settings of their protocols. *)
Definition entries (config : ChainConfig) : list (YamlMap * string * ChainData) :=
  p ← cc_Protocols config; c ← pr_Chains p; [(deepMerge (cc_Default config) (pr_Settings p), pr_Type p, c)].

Definition configureChainsFromBytes (rawYaml : string) (st : ChainIds) : (LoadFailure + ChainMaps) * ChainIds :=
  match unmarshal_chains rawYaml with
  | inl err => (inl (LoadError err), st)
  | inr config => configure_all (entries config) (∅, ∅) st
  end.

(** The package's [init]; a failure is a panic. *)
Definition init_chains (chainsCfg : string) (st : ChainIds) : option ChainRegistry :=
  match configureChainsFromBytes chainsCfg st with
  | (inl _, _) => None
  | (inr (result, grpcResult), st) => Some (mkChainRegistry st result grpcResult false)
  end.

Definition extra_conflict (reg : ChainRegistry) (e : string * ConfiguredChain) : option string :=
  let '(shortName, configured) := e in
  if bool_decide (is_Some (chains reg !! shortName))
  then Some ("extra chain short-name " +:+ Quote shortName +:+ " already registered")
  else if bool_decide (is_Some (grpcChains reg !! GrpcId configured)) && negb (GrpcId configured =? 0)
  then Some ("extra chain grpcId " +:+ pretty (GrpcId configured) +:+ " (" +:+ Quote shortName +:+
             ") collides with an existing chain")
  else None.

Definition loadExtraChainsLocked (extraYaml : string) (reg : ChainRegistry) : option LoadFailure * ChainRegistry :=
  let '(result, st) := configureChainsFromBytes extraYaml (ids reg) in
  let reg := mkChainRegistry st (chains reg) (grpcChains reg) (extraChainsLoadedFlag reg) in
  match result with
  | inl err => (Some err, reg)
  | inr (extraConfigured, extraGrpc) =>
    match first_error (map (extra_conflict reg) (range extraConfigured)) with
    | Some err => (Some (LoadError err), reg)
    | None =>
      (None, mkChainRegistry st
        (foldl (fun m '(shortName, c) => <[shortName := c]> m) (chains reg) (range extraConfigured))
        (foldl (fun m '(grpcId, c) => if grpcId =? 0 then m else <[grpcId := c]> m) (grpcChains reg) (range extraGrpc))
        (extraChainsLoadedFlag reg))
    end
  end.

Definition LoadExtraChains (extraYaml : string) (reg : ChainRegistry) : option LoadFailure * ChainRegistry :=
  if bool_decide (extraYaml = "") then (None, reg)
  else if extraChainsLoadedFlag reg
  then (Some (LoadError "LoadExtraChains already succeeded once; the chain registry is locked after first successful load"), reg)
  else match loadExtraChainsLocked extraYaml reg with
       | (Some err, reg) => (Some err, reg)
       | (None, reg) => (None, mkChainRegistry (ids reg) (chains reg) (grpcChains reg) true)
       end.

(** ** Lookups *)

Definition IsSupported (reg : ChainRegistry) (chainName : string) : bool := bool_decide (is_Some (chains reg !! chainName)).

Definition GetChain (reg : ChainRegistry) (chainName : string) : ConfiguredChain :=
  default UnknownChain (chains reg !! chainName).

Definition GetChainByGrpcId (reg : ChainRegistry) (grpcId : Z) : ConfiguredChain :=
  default UnknownChain (grpcChains reg !! grpcId).

Definition GetChainByChainIdAndVersion (reg : ChainRegistry) (blockchainType chainId netVersion : string)
    : ConfiguredChain :=
  default UnknownChain
    (head (base.filter (fun c => cc_Type c = blockchainType /\ ChainId c = chainId /\ NetVersion c = netVersion)
             (map snd (range (chains reg))))).

Definition GetMethodSpecNameByChainName (reg : ChainRegistry) (chainName : string) : string :=
  cc_MethodSpec (GetChain reg chainName).

Definition GetMethodSpecNameByChain (reg : ChainRegistry) (generated : gmap Z string) (chain : Z) : string :=
  cc_MethodSpec (GetChain reg (Chain_String generated (dynamicChainNames (ids reg)) chain)).
End Load.

(** ** Merged settings *)

Lemma yaml_get_set k k' v m : yaml_get k (yaml_set k' v m) = if bool_decide (k = k') then Some v else yaml_get k m.
Proof.
  induction m as [|[k1 v1] m IH]; simpl; [done|].
  destruct (decide (k' = k1)) as [-> |Hne]; simpl.
  - rewrite (bool_decide_eq_true_2 (k1 = k1)) by done. simpl. by case_bool_decide.
  - rewrite (bool_decide_eq_false_2 (k' = k1)) by done. simpl. rewrite IH.
    repeat case_bool_decide; congruence.
Qed.

Lemma yaml_get_key k m v : yaml_get k m = Some v -> k ∈ map fst m.
Proof.
  induction m as [|[k1 v1] m IH]; simpl; [done|]. case_bool_decide as Hk; [subst; by left|right; auto].
Qed.

(** A key of the more specific settings wins, except that two maps are merged; every
    other key keeps its value. *)
Lemma deepMerge_get dst src k :
  NoDup (map fst src) ->
  yaml_get k (deepMerge dst src) =
  match yaml_get k src with
  | Some s => Some (match yaml_get k dst with Some d => merge_value d s | None => s end)
  | None => yaml_get k dst
  end.
Proof.
  unfold deepMerge. generalize dst at 2 4 as acc. induction src as [|[k1 v1] src IH]; intros acc Hnd; simpl; [done|].
  apply NoDup_cons in Hnd as [Hni Hnd]. rewrite IH, yaml_get_set by done.
  case_bool_decide as Hk; [|done]. subst k1. by destruct (yaml_get k src) as [s|] eqn:Es; [apply yaml_get_key in Es|].
Qed.

(** ** The registry stays well formed *)

Section Registry.
Context `{MR : MapRange} `{CY : ChainYaml} `{QU : Quoting}.

(** The constants the generator writes: numbers from 1 on, below the dynamic ones. *)
Context (generated : gmap Z string).

Record ids_wf (st : ChainIds) : Prop := mkIdsWf {
  ids_generated : forall id n, generated !! id = Some n -> 0 < id < dynamicChainBaseId;
  ids_base : dynamicChainBaseId <= nextDynamicChainId st;
  ids_named : forall n id, chainsMap st !! n = Some id ->
    generated !! id = Some n \/
    dynamicChainBaseId <= id < nextDynamicChainId st /\ dynamicChainNames st !! id = Some n;
}.

Definition chain_wf (st : ChainIds) (c : ConfiguredChain) : Prop :=
  exists primary rest, ShortNames c = primary :: rest /\ chainsMap st !! primary = Some (cc_Chain c).

Record maps_wf (st : ChainIds) (m : gmap string ConfiguredChain) : Prop := mkMapsWf {
  maps_named : forall n c, m !! n = Some c -> n ∈ ShortNames c;
  maps_chain : forall n c, m !! n = Some c -> chain_wf st c;
}.

Definition registry_wf (reg : ChainRegistry) : Prop := ids_wf (ids reg) /\ maps_wf (ids reg) (chains reg).

(** Numbers that were given out stay. *)
Definition ids_extend (st st' : ChainIds) : Prop :=
  forall n id, chainsMap st !! n = Some id -> chainsMap st' !! n = Some id.

Lemma ids_extend_refl st : ids_extend st st.
Proof using Type. by intros ? ?. Qed.
#[local] Hint Resolve ids_extend_refl : core.

Lemma ids_extend_trans st1 st2 st3 : ids_extend st1 st2 -> ids_extend st2 st3 -> ids_extend st1 st3.
Proof using Type. unfold ids_extend. auto. Qed.

Lemma named_string st n id :
  ids_wf st -> chainsMap st !! n = Some id -> Chain_String generated (dynamicChainNames st) id = n.
Proof using Type.
  intros [Hg _ Hn] H. unfold Chain_String. destruct (Hn n id H) as [E|[Hr E]].
  - rewrite (proj2 (Z.eqb_neq _ _)) by (apply Hg in E; lia). by rewrite E.
  - rewrite (proj2 (Z.eqb_neq _ _)) by (unfold dynamicChainBaseId in Hr; lia).
    destruct (generated !! id) as [n'|] eqn:Eg; [apply Hg in Eg; lia|]. by rewrite E.
Qed.

Lemma allocate_wf primary st network st' :
  ids_wf st -> allocate primary st = (network, st') ->
  ids_wf st' /\ ids_extend st st' /\ chainsMap st' !! primary = Some network.
Proof using Type.
  intros Hwf. unfold allocate. destruct (chainsMap st !! primary) as [id|] eqn:E; intros [= <- <-]; [by split_and!|].
  destruct Hwf as [Hg Hb Hn]. split_and!; simpl.
  - constructor; simpl; [done|lia|]. intros n id. rewrite lookup_insert_Some. intros [[<- <-]|[Hne Hid]].
    + right. rewrite lookup_insert_eq. split; [lia|done].
    + destruct (Hn n id Hid) as [?|[Hr Hd]]; [by left|right]. split; [lia|]. rewrite lookup_insert_ne by lia. done.
  - intros n id Hid. apply lookup_insert_Some. right. split; [|done]. congruence.
  - by rewrite lookup_insert_eq.
Qed.

Lemma names_inserted (c : ConfiguredChain) names (m : gmap string ConfiguredChain) (n : string) :
  foldl (fun m shortName => <[shortName := c]> m) m names !! n = if bool_decide (n ∈ names) then Some c else m !! n.
Proof using Type.
  revert m. induction names as [|a names IH]; intros m; cbn [foldl]; [by rewrite bool_decide_eq_false_2 by apply not_elem_of_nil|].
  rewrite IH. destruct (decide (n ∈ names)) as [Hin|Hni].
  - rewrite !bool_decide_eq_true_2 by (done || by right). done.
  - rewrite (bool_decide_eq_false_2 (n ∈ names)) by done. destruct (decide (n = a)) as [-> |Hne].
    + rewrite lookup_insert_eq, bool_decide_eq_true_2 by (by left). done.
    + rewrite lookup_insert_ne, bool_decide_eq_false_2 by (done || by intros [?|?]%elem_of_cons). done.
Qed.

Lemma maps_wf_extend st st' m : ids_extend st st' -> maps_wf st m -> maps_wf st' m.
Proof using Type.
  intros He [Hn Hc]. constructor; [done|]. intros n c H. destruct (Hc n c H) as (p & rest & Hs & Hp).
  exists p, rest. split; [done|]. by apply He.
Qed.

Lemma configure_chain_wf dflt t chain maps st res st' :
  ids_wf st -> maps_wf st maps.1 -> configure_chain dflt t chain maps st = (res, st') ->
  ids_wf st' /\ ids_extend st st' /\
  match res with
  | inl _ => True
  | inr maps' => maps_wf st' maps'.1 /\ exists c, maps' = register c maps /\ ShortNames c = cd_ShortNames chain /\
                 chain_wf st' c
  end.
Proof using Type.
  intros Hi Hm. unfold configure_chain. destruct (decode_settings _) as [err|settings]; [by intros [= <- <-]|].
  destruct (_ =? 0); [by intros [= <- <-]|]. destruct (cd_ShortNames chain) as [|primary rest] eqn:Es; [by intros [= <- <-]|].
  destruct (allocate primary st) as [network st1] eqn:Ea. destruct (allocate_wf _ _ _ _ Hi Ea) as (Hi' & He & Hp).
  intros [= <- <-]. split_and!; [done..| |].
  - apply (maps_wf_extend st st1) in Hm as [Hn Hc]; [|done].
    assert (chain_wf st1 (configured t chain settings network)) as Hwf by (by exists primary, rest).
    constructor; intros n c; cbn [register fst]; rewrite names_inserted; case_bool_decide as Hin; [|by eauto| |by eauto].
    + by intros [= <-].
    + by intros [= <-].
  - eexists. split; [done|]. split; [done|]. by exists primary, rest.
Qed.

Lemma configure_all_wf l maps st res st' :
  ids_wf st -> maps_wf st maps.1 -> configure_all l maps st = (res, st') ->
  ids_wf st' /\ ids_extend st st' /\ match res with inl _ => True | inr maps' => maps_wf st' maps'.1 end.
Proof using Type.
  revert maps st. induction l as [|[[dflt t] chain] l IH]; intros maps st Hi Hm; simpl; [by intros [= <- <-]|].
  destruct (configure_chain dflt t chain maps st) as [r st1] eqn:E.
  destruct (configure_chain_wf _ _ _ _ _ _ _ Hi Hm E) as (Hi1 & He1 & Hr).
  destruct r as [err|maps1]; [by intros [= <- <-]|]. destruct Hr as [Hm1 _]. intros Hall.
  destruct (IH maps1 st1 Hi1 Hm1 Hall) as (Hi' & He' & Hm'). split_and!; [done|by eapply ids_extend_trans|done].
Qed.

Lemma empty_maps_wf st : maps_wf st ∅.
Proof using Type. constructor; intros n c H; by rewrite lookup_empty in H. Qed.

Lemma configure_wf raw st res st' :
  ids_wf st -> configureChainsFromBytes raw st = (res, st') ->
  ids_wf st' /\ ids_extend st st' /\ match res with inl _ => True | inr maps => maps_wf st' maps.1 end.
Proof using Type.
  intros Hi. unfold configureChainsFromBytes. destruct (unmarshal_chains raw); [by intros [= <- <-]|].
  apply configure_all_wf; [done|]. apply empty_maps_wf.
Qed.

(** The short names of a file, with repetitions. *)
Definition file_names (l : list (YamlMap * string * ChainData)) : list string := l ≫= (fun e => cd_ShortNames e.2).

(** Without a repeated name, every chain with a gRPC id is under one of its names. *)
Lemma configure_all_grpc l maps st maps' st' :
  ids_wf st -> maps_wf st maps.1 ->
  NoDup (file_names l) -> (forall n, n ∈ file_names l -> maps.1 !! n = None) ->
  (forall g c, maps.2 !! g = Some c -> g = GrpcId c /\ exists n, maps.1 !! n = Some c) ->
  configure_all l maps st = (inr maps', st') ->
  forall g c, maps'.2 !! g = Some c -> g = GrpcId c /\ exists n, maps'.1 !! n = Some c.
Proof using Type.
  revert maps st. induction l as [|[[dflt t] chain] l IH]; intros maps st Hi Hm Hnd Hfree Hg; cbn [configure_all].
  { by intros [= <- <-]. }
  destruct (configure_chain dflt t chain maps st) as [[err|maps1] st1] eqn:E; [done|].
  destruct (configure_chain_wf _ _ _ _ _ _ _ Hi Hm E) as (Hi1 & _ & Hm1 & c & -> & Hs & (p & rest & Hp & _)).
  change (file_names ((dflt, t, chain) :: l)) with (cd_ShortNames chain ++ file_names l) in Hnd, Hfree.
  rewrite <- Hs in Hnd, Hfree. apply NoDup_app in Hnd as (_ & Hdis & Hnd). apply IH; [done..| |].
  - intros n Hn. cbn [register fst]. rewrite names_inserted, bool_decide_eq_false_2.
    + apply Hfree, elem_of_app. by right.
    + intros Hin. by apply (Hdis n).
  - intros g x. cbn [register snd fst]. rewrite lookup_insert_Some. intros [[<- <-]|[_ Hx]].
    + split; [done|]. exists p. rewrite names_inserted, bool_decide_eq_true_2; [done|]. rewrite Hp. by left.
    + destruct (Hg g x Hx) as (? & n & Hn). split; [done|]. exists n.
      rewrite names_inserted, bool_decide_eq_false_2; [done|]. intros Hin. rewrite Hfree in Hn; [done|].
      apply elem_of_app. by left.
Qed.

Lemma range_inserted {K V} `{Countable K} (keep : K -> bool) (m : gmap K V) (l : list (K * V)) k :
  foldl (fun m '(k, v) => if keep k then m else <[k := v]> m) m l !! k = m !! k \/
  exists v, (k, v) ∈ l /\ keep k = false /\ foldl (fun m '(k, v) => if keep k then m else <[k := v]> m) m l !! k = Some v.
Proof using Type.
  revert m. induction l as [|[k1 v1] l IH]; intros m; cbn [foldl]; [by left|].
  destruct (IH (if keep k1 then m else <[k1 := v1]> m)) as [-> |(v & Hv & Hk & ->)].
  - destruct (keep k1) eqn:Ek; [by left|]. destruct (decide (k = k1)) as [-> |Hne].
    + right. exists v1. split; [by left|]. by rewrite lookup_insert_eq.
    + left. by rewrite lookup_insert_ne.
  - right. exists v. split; [by right|done].
Qed.

(** What a load leaves: [names] holds the short names of its file. *)
Lemma loadExtra_spec extraYaml reg err reg' :
  registry_wf reg -> loadExtraChainsLocked extraYaml reg = (err, reg') ->
  registry_wf reg' /\ ids_extend (ids reg) (ids reg') /\
  (forall n c, chains reg !! n = Some c -> chains reg' !! n = Some c) /\
  (forall config, unmarshal_chains extraYaml = inr config -> NoDup (file_names (entries config)) ->
     forall g c, g <> 0 -> grpcChains reg !! g = Some c -> grpcChains reg' !! g = Some c) /\
  (is_Some err -> chains reg' = chains reg /\ grpcChains reg' = grpcChains reg) /\
  extraChainsLoadedFlag reg' = extraChainsLoadedFlag reg.
Proof using Type.
  intros [Hi Hm]. unfold loadExtraChainsLocked.
  destruct (configureChainsFromBytes extraYaml (ids reg)) as [res st] eqn:E.
  destruct (configure_wf _ _ _ _ Hi E) as (Hi' & He & Hr). pose proof (maps_wf_extend _ _ _ He Hm) as Hm'.
  destruct res as [err0|[extra extraGrpc]]; [by intros [= <- <-]|].
  set (reg1 := mkChainRegistry st (chains reg) (grpcChains reg) (extraChainsLoadedFlag reg)).
  destruct (first_error _) as [err0|] eqn:Ef; intros [= <- <-]; [by split_and!|].
  rewrite first_error_None, Forall_map, Forall_forall in Ef.
  assert (forall n c, extra !! n = Some c -> chains reg !! n = None /\
    (GrpcId c <> 0 -> grpcChains reg !! GrpcId c = None)) as Hfree.
  { intros n c Hn. specialize (Ef (n, c)). cbn beta iota in Ef. unfold extra_conflict in Ef. rewrite elem_of_range in Ef.
    specialize (Ef Hn). case_bool_decide as H1; [done|]. apply eq_None_not_Some in H1. split; [done|].
    intros Hz. destruct (_ && _) eqn:E2; [done|]. apply andb_false_iff in E2 as [E2|E2].
    - apply bool_decide_eq_false in E2. by apply eq_None_not_Some.
    - apply negb_false_iff, Z.eqb_eq in E2. done. }
  split_and!; [split; [done|]| | | | |]; cbn [ids chains grpcChains extraChainsLoadedFlag reg1]; try done.
  - destruct Hr as [Hrn Hrc]. destruct Hm' as [Hmn Hmc]. cbn [fst] in *.
    constructor; intros n c Hn;
      destruct (range_inserted (fun _ => false) (chains reg) (range extra) n) as [Hl|(v & Hv%elem_of_range & _ & Hl)];
      cbn beta iota in Hl; rewrite Hl in Hn; eauto; injection Hn as ->; eauto.
  - intros n c Hn.
    destruct (range_inserted (fun _ => false) (chains reg) (range extra) n) as [Hl|(v & Hv%elem_of_range & _ & Hl)];
      cbn beta iota in Hl; rewrite Hl; [done|]. destruct (Hfree n v Hv). congruence.
  - intros config Hc Hnd g c Hz Hg. unfold configureChainsFromBytes in E. rewrite Hc in E.
    destruct (range_inserted (fun g => g =? 0) (grpcChains reg) (range extraGrpc) g) as [Hl|(v & Hv%elem_of_range & _ & Hl)];
      rewrite Hl; [done|].
    destruct (configure_all_grpc (entries config) (∅, ∅) (ids reg) (extra, extraGrpc) st) with (g := g) (c := v)
      as (-> & n & Hn); [done|apply empty_maps_wf|done|by intros; apply lookup_empty| |done|done|].
    { intros ? ? Hx. cbn [snd] in Hx. by rewrite lookup_empty in Hx. }
    destruct (Hfree n v Hn) as [_ Hgr]. rewrite Hgr in Hg by done. done.
Qed.
End Registry.

(** Loading extra chains keeps the registry well formed: every registered
    chain is under its own short names, the number of every chain prints as its
    primary short name, and chains with different primary names have different
    numbers.  No name that was registered changes its meaning; a gRPC id does not
    either, when no short name is repeated in the file.  A load that fails leaves
    the lookups as they were, and can be repeated. *)
Theorem extra_chains_keep_registry `{MapRange} `{ChainYaml} `{Quoting} generated extraYaml reg err reg' :
  registry_wf generated reg -> LoadExtraChains extraYaml reg = (err, reg') ->
  registry_wf generated reg' /\
  (forall n c, chains reg' !! n = Some c -> n ∈ ShortNames c /\
     head (ShortNames c) = Some (Chain_String generated (dynamicChainNames (ids reg')) (cc_Chain c))) /\
  (forall n c n' c', chains reg' !! n = Some c -> chains reg' !! n' = Some c' ->
     cc_Chain c = cc_Chain c' -> head (ShortNames c) = head (ShortNames c')) /\
  (forall n, IsSupported reg n = true -> IsSupported reg' n = true /\ GetChain reg' n = GetChain reg n) /\
  (forall config g, unmarshal_chains extraYaml = inr config -> NoDup (file_names (entries config)) -> g <> 0 ->
     is_Some (grpcChains reg !! g) -> GetChainByGrpcId reg' g = GetChainByGrpcId reg g) /\
  (is_Some err -> chains reg' = chains reg /\ grpcChains reg' = grpcChains reg /\
     extraChainsLoadedFlag reg' = extraChainsLoadedFlag reg).
Proof.
  intros Hwf Hload.
  assert (registry_wf generated reg' /\
    (forall n c, chains reg !! n = Some c -> chains reg' !! n = Some c) /\
    (forall config, unmarshal_chains extraYaml = inr config -> NoDup (file_names (entries config)) ->
       forall g c, g <> 0 -> grpcChains reg !! g = Some c -> grpcChains reg' !! g = Some c) /\
    (is_Some err -> chains reg' = chains reg /\ grpcChains reg' = grpcChains reg /\
       extraChainsLoadedFlag reg' = extraChainsLoadedFlag reg)) as ([Hi Hm] & Hk & Hg & He).
  { unfold LoadExtraChains in Hload. case_bool_decide; [by injection Hload as <- <-|].
    destruct (extraChainsLoadedFlag reg) eqn:Efl; [by injection Hload as <- <-|].
    destruct (loadExtraChainsLocked extraYaml reg) as [[e|] reg1] eqn:El; injection Hload as <- <-;
      destruct (loadExtra_spec generated _ _ _ _ Hwf El) as (Hwf' & _ & Hk & Hg & He & Hf).
    - split_and!; [done..|]. intros Hs. destruct (He Hs). rewrite Hf. done.
    - by split_and!. }
  assert (forall n c, chains reg' !! n = Some c ->
    head (ShortNames c) = Some (Chain_String generated (dynamicChainNames (ids reg')) (cc_Chain c))) as Hstr.
  { intros n c Hn. destruct (maps_chain _ _ Hm n c Hn) as (p & rest & -> & Hp). simpl.
    by rewrite (named_string generated _ p (cc_Chain c) Hi Hp). }
  split_and!; [done| | | | |done].
  - intros n c Hn. split; [by apply (maps_named _ _ Hm n)|by eapply Hstr].
  - intros n c n' c' Hn Hn' Heq. rewrite (Hstr n c Hn), (Hstr n' c' Hn'). by rewrite Heq.
  - intros n Hs%bool_decide_eq_true. destruct Hs as [c Hc]. unfold IsSupported, GetChain. rewrite Hc, (Hk n c Hc).
    split; [|done]. by apply bool_decide_eq_true.
  - intros config g Hc Hnd Hz [c Hgc]. unfold GetChainByGrpcId. by rewrite Hgc, (Hg config Hc Hnd g c Hz Hgc).
Qed.

(** ** A small registry *)

Definition sample_settings : Settings := mkSettings second "" (mkLagConfig 3 6) None None None.
Definition sample_entry (names : list string) (grpcId : Z) : ChainData :=
  mkChainData names "0x1" grpcId "" [] "" "" [] None.

#[local] Instance sample_yaml : ChainYaml := {
  unmarshal_chains raw :=
    if bool_decide (raw = "bundled") then inr (mkChainConfig [mkProtocol [sample_entry ["ethereum"; "eth"] 1] [] "eth"] [])
    else if bool_decide (raw = "private") then inr (mkChainConfig [mkProtocol [sample_entry ["private"] 0] [] "eth"] [])
    else inr (mkChainConfig [mkProtocol [sample_entry ["twice"] 1; sample_entry ["twice"] 7] [] "eth"] []);
  decode_settings _ := inr sample_settings;
  getNetVersion _ := "1";
}.

#[local] Instance sample_quoting : Quoting := fun s => s.

Definition sample_generated : gmap Z string := {[ 1 := "ethereum" ]}.
Definition sample_ids : ChainIds := mkChainIds {[ "ethereum" := 1 ]} ∅ dynamicChainBaseId.
Definition sample_registry : ChainRegistry :=
  default (mkChainRegistry sample_ids ∅ ∅ false) (init_chains "bundled" sample_ids).

Lemma sample_ids_wf : ids_wf sample_generated sample_ids.
Proof.
  constructor; cbn [chainsMap sample_ids]; unfold sample_generated.
  - intros id n [<- _]%lookup_singleton_Some. unfold dynamicChainBaseId. lia.
  - done.
  - intros n id [<- <-]%lookup_singleton_Some. by left.
Qed.

Lemma sample_registry_wf : registry_wf sample_generated sample_registry.
Proof.
  unfold sample_registry, init_chains.
  destruct (configureChainsFromBytes "bundled" sample_ids) as [[err|[result grpc]] st] eqn:E; [by vm_compute in E|].
  destruct (configure_wf sample_generated _ _ _ _ sample_ids_wf E) as (Hi & _ & Hm). by split.
Qed.

#[local] Existing Instance Prelude.default_range.

Example sample_load :
  (LoadExtraChains "private" sample_registry).1 = None /\
  IsSupported (LoadExtraChains "private" sample_registry).2 "private" = true /\ IsSupported sample_registry "eth" = true.
Proof. vm_compute. split_and!; reflexivity. Qed.

Lemma extra_chains_keep_registry_witness :
  (LoadExtraChains "private" sample_registry).1 = None /\
  IsSupported (LoadExtraChains "private" sample_registry).2 "private" = true /\
  registry_wf sample_generated (LoadExtraChains "private" sample_registry).2 /\
  GetChain (LoadExtraChains "private" sample_registry).2 "eth" = GetChain sample_registry "eth".
Proof.
  destruct sample_load as (H1 & H2 & H3).
  destruct (extra_chains_keep_registry sample_generated "private" sample_registry _ _ sample_registry_wf
    (surjective_pairing _)) as (Hwf & _ & _ & Hs & _).
  split; [exact H1|]. split; [exact H2|]. split; [exact Hwf|]. exact (proj2 (Hs "eth" H3)).
Defined.

(** A file that repeats a short name passes the check of gRPC ids with the last
    entry only, and the id of the first one replaces that of a bundled chain. *)
Lemma repeated_name_takes_over_grpc_id :
  (LoadExtraChains "twice" sample_registry).1 = None /\
  ShortNames (GetChainByGrpcId sample_registry 1) = ["ethereum"; "eth"] /\
  ShortNames (GetChainByGrpcId (LoadExtraChains "twice" sample_registry).2 1) = ["twice"].
Proof. by vm_compute. Qed.

(** ** The interface of the configuration *)

(** What the configuration reads of the chains, by the registry. *)
Definition registry_settings (reg : ChainRegistry) : Config.Chains :=
  {| chain_settings name := cc_Settings <$> chains reg !! name |}.

Lemma registry_settings_supported reg name :
  is_Some (chain_settings (Chains := registry_settings reg) name) <-> IsSupported reg name = true.
Proof. simpl. rewrite fmap_is_Some. unfold IsSupported. by rewrite bool_decide_eq_true. Qed.
