(* ===== verification/EvmBounds.v ===== *)
(** The lower bounds of an EVM node
    ([internal/upstreams/lower_bounds/evm_bounds/]): the probes of the search, the
    report of the node's own capabilities and its cache, and the gold bound.

    The connection to the node is an argument ([EvmNode]), JSON a library ([EvmJson]). *)

From S2P Require Import Prelude.
From S2P Require Import GoStrings.
From S2P Require Import Protocol.
From S2P Require Import Errors.
From S2P Require Import Responses.
From S2P Require Import LowerBoundSearch.
From S2P Require Import Chains.
From Stdlib Require Import Ascii.

(** ** The node *)

(** The parameters of a call. *)
Inductive Param := PStr (s : string) | PBool (b : bool) | PArr (l : list Param) | PObj (l : list (string * Param)).

(** The connector of the node, the time in nanoseconds, and whether the detection was
    called off; every call may change the world. *)
Class EvmNode (W : Type) := {
  SendRequest : string -> list Param -> W -> ResponseHolder * W;
  clock : W -> Z;
  ctx_done : W -> bool;
}.

(** An entry of the report, with the JSON text of its block. *)
Record evmCapabilityEntry := mkCapEntry { ce_Disabled : bool; ce_OldestBlock : string }.

Record evmCapabilitiesResponse := mkCapResponse {
  cr_State : option evmCapabilityEntry;
  cr_Tx : option evmCapabilityEntry;
  cr_Receipts : option evmCapabilityEntry;
  cr_Blocks : option evmCapabilityEntry;
  cr_Logs : option evmCapabilityEntry;
  cr_StateProofs : option evmCapabilityEntry;
}.

(** [sonic.Unmarshal] into a string, a block (the JSON texts of its transactions), a
    transaction (its hash) and a report; [None] is an error. *)
Class EvmJson := {
  unmarshal_text : string -> option string;
  unmarshal_block : string -> option (list string);
  unmarshal_tx : string -> option string;
  unmarshal_capabilities : string -> option evmCapabilitiesResponse;
}.

(** ** Reading results *)

Fixpoint drop_quotes (l : list ascii) : list ascii :=
  match l with c :: l' => if bool_decide (c = quote) then drop_quotes l' else l | [] => [] end.

(** [strings.Trim(s, quote)] *)
Definition trim_quotes (s : string) : string :=
  String.string_of_list_ascii (rev (drop_quotes (rev (drop_quotes (String.list_ascii_of_string s))))).

(** [strconv.ParseInt(s, 16, 64)] *)
Definition ParseInt16 (s : string) : option Z :=
  let '(negative, digits) :=
    match s with
    | String "-" t => (true, t)
    | String "+" t => (false, t)
    | _ => (false, s)
    end in
  if bool_decide (digits = "") then None
  else n ← parse_hex_digits 0 digits;
       if negative then (if n <=? two63 then Some (- n) else None) else (if n <? two63 then Some n else None).

Definition no_data_hints : list string :=
  ["no state available for block"; "missing trie node"; "header not found"; "metadata is not found";
   "distance to target block exceeds maximum proof window"; "node state is pruned"; "is not available, lowest height is";
   "state already discarded for"; "your node is running with state pruning"; "failed to compute tipset state";
   "bad tipset height"; "body not found for block"; "request beyond head block"; "block not found"; "could not find block";
   "unknown block"; "header for hash not found"; "after last accepted block";
   "version has either been pruned, or is for a future block"; "no historical rpc is available for this historical";
   "historical backend error"; "load state tree: failed to load state tree"; "purged for block"; "no state data";
   "state is not available"; "block with such an id is pruned"; "state at block"; "unsupported block number";
   "unexpected state root"; "evm module does not exist on height"; "failed to load state at height"; "no state found for block";
   "old data not available due"; "state not found for block"; "state does not maintain archive data";
   "access to archival, debug, or trace data is not included in your current plan"; "empty reader set";
   "request might be querying historical state that is not available"; "no receipts data"; "no tx data"; "no block data";
   "historical state not available in path scheme yet"; "historical state is not available";
   "required historical state unavailable"; "state histories haven't been fully indexed yet"; "but it out-of-bounds";
   "has been pruned; earliest available is"; "error loading messages for tipset"; "height is not available";
   "method handler crashed"; "unexpected error"; "invalid block height"; "pruned history unavailable";
   "no transactions snapshot file for"; "could not find block for height"; "transaction indexing is in progress";
   "old data not available due to pruning"; "requested epoch was a null round"].

Definition method_not_found_hints : list string :=
  ["method not found"; "does not exist"; "not supported"; "unsupported method"; "not enabled"; "not implemented"].

Definition hinted (hints : list string) (message : string) : bool := existsb (Contains (ToLower message)) hints.

Definition isEvmNoDataError (err : option ResponseError) : bool :=
  match err with None => false | Some e => hinted no_data_hints (Message e) end.

Definition isEvmMethodNotFoundError (err : option ResponseError) : bool :=
  match err with
  | None => false
  | Some e => if bool_decide (Code e = NoSupportedMethod) then true else hinted method_not_found_hints (Message e)
  end.

Definition isEvmNullResult (raw : string) : bool := bool_decide (TrimSpace raw = "null") || bool_decide (TrimSpace raw = "").

Fixpoint hex_digits (fuel : nat) (n : N) (acc : string) : string :=
  match fuel with
  | O => acc
  | S fuel => let acc := String (hex_digit (n mod 16)) acc in if bool_decide (n / 16 = 0)%N then acc else hex_digits fuel (n / 16) acc
  end.

(** [%x] of an [int64] has at most 16 digits. *)
Definition evmBlockTag (height : Z) : string :=
  if height <? 0 then "0x-" +:+ hex_digits 16 (Z.to_N (- height)) "" else "0x" +:+ hex_digits 16 (Z.to_N height) "".

Section Results.
Context `{EJ : EvmJson}.

(** [None] is an error. *)
Definition parseHexInt (raw : string) : option Z :=
  let hexValue := TrimSpace (default (trim_quotes raw) (unmarshal_text raw)) in
  let hexValue := default hexValue (strip_prefix "0x" hexValue) in
  if bool_decide (hexValue = "") then None else ParseInt16 hexValue.

Definition isEvmEmptyHexResult (raw : string) : bool :=
  let value := ToLower (TrimSpace (default (trim_quotes raw) (unmarshal_text raw))) in
  bool_decide (value ∈ [""; "0x"; "0x0"; "null"]).

(** [evmBlockEnvelope.firstTxHash] *)
Definition first_tx (transactions : list string) : option string :=
  match transactions with
  | [] => None
  | raw :: _ =>
    let first := TrimSpace raw in
    if bool_decide (first = "") || bool_decide (first = "null") then None
    else if HasPrefix first (String quote "") then
      match unmarshal_text raw with Some hash => if bool_decide (hash = "") then None else Some hash | None => None end
    else match unmarshal_tx raw with Some hash => if bool_decide (hash = "") then None else Some hash | None => None end
  end.
End Results.

(** ** The report of a node *)

Record evmCapabilityResource := mkCapResource { cp_disabled : bool; cp_bound : Z }.

#[export] Instance evmCapabilityResource_eq_dec : EqDecision evmCapabilityResource.
Proof. solve_decision. Defined.

Abbreviation evmCapabilitiesSnapshot := (gmap LowerBoundType evmCapabilityResource).

Definition snapshot_resource (s : evmCapabilitiesSnapshot) (t : LowerBoundType) : option evmCapabilityResource :=
  s !! (if bool_decide (t = TraceBound) then StateBound else t).

Section Report.
Context `{EJ : EvmJson}.

Definition entry_resource (e : evmCapabilityEntry) : option evmCapabilityResource :=
  if ce_Disabled e then Some (mkCapResource true 0)
  else match parseHexInt (ce_OldestBlock e) with
  | None => None
  | Some bound => if bound <? 0 then None else Some (mkCapResource false (if bound =? 0 then 1 else bound))
  end.

Definition capability_entries (r : evmCapabilitiesResponse) : list (LowerBoundType * option evmCapabilityEntry) :=
  [(StateBound, cr_State r); (TxBound, cr_Tx r); (ReceiptsBound, cr_Receipts r); (BlockBound, cr_Blocks r); (LogsBound, cr_Logs r);
   (ProofBound, cr_StateProofs r)].

Definition parseEvmCapabilities (raw : string) : option evmCapabilitiesSnapshot :=
  if isEvmNullResult raw then None
  else
    parsed ← unmarshal_capabilities raw;
    let resources : evmCapabilitiesSnapshot :=
      foldl (fun m te => match te.2 ≫= entry_resource with Some r => <[te.1 := r]> m | None => m end) ∅ (capability_entries parsed) in
    if bool_decide (resources = ∅) then None else Some resources.
End Report.

Inductive evmCapabilitiesSupport := CapabilitiesUnknown | CapabilitiesSupported | CapabilitiesUnsupported.

#[export] Instance evmCapabilitiesSupport_eq_dec : EqDecision evmCapabilitiesSupport.
Proof. solve_decision. Defined.

(** [lastAttemptAt] is [None] for the zero time. *)
Record EvmCapabilities := mkCapabilities {
  resultTtl : Z;
  reprobeInterval : Z;
  retryAttempts : Z;
  support : evmCapabilitiesSupport;
  lastAttemptAt : option Z;
  cached : option evmCapabilitiesSnapshot;
}.

Definition minute : Z := 60 * 1000000000.
Definition evmLowerBoundPeriod : Z := 3 * minute.

Definition NewEvmCapabilities : EvmCapabilities :=
  mkCapabilities (evmLowerBoundPeriod / 2) (60 * minute) 3 CapabilitiesUnknown None None.

Definition SetProbeWindows (ttl reprobe : Z) (c : EvmCapabilities) : EvmCapabilities :=
  mkCapabilities ttl reprobe (retryAttempts c) (support c) (lastAttemptAt c) (cached c).
Definition SetRetryPolicy (attempts : Z) (c : EvmCapabilities) : EvmCapabilities :=
  mkCapabilities (resultTtl c) (reprobeInterval c) (if attempts <? 1 then 1 else attempts) (support c) (lastAttemptAt c) (cached c).

Section Capabilities.
Context {W : Type} `{EN : EvmNode W} `{EJ : EvmJson}.

(** The report, whether a failure is worth another attempt, and the new verdict. *)
Definition fetch (support : evmCapabilitiesSupport) (w : W) : option evmCapabilitiesSnapshot * bool * evmCapabilitiesSupport * W :=
  let '(response, w) := SendRequest "eth_capabilities" [] w in
  if HasError response then
    if isEvmMethodNotFoundError (GetError response) then (None, false, CapabilitiesUnsupported, w) else (None, true, support, w)
  else match parseEvmCapabilities (ResponseResult response) with
  | None => (None, false, CapabilitiesUnsupported, w)
  | Some s => (Some s, false, CapabilitiesSupported, w)
  end.

(** [refresh] with [more] attempts left after this one. *)
Fixpoint refresh (more : nat) (support : evmCapabilitiesSupport) (w : W)
    : option evmCapabilitiesSnapshot * evmCapabilitiesSupport * W :=
  let '(snapshot, retryable, support, w) := fetch support w in
  match snapshot, more with
  | Some s, _ => (Some s, support, w)
  | None, O => (None, support, w)
  | None, S more =>
    if negb retryable then (None, support, w)
    else if ctx_done w then (None, support, w) else refresh more support w
  end.

Definition window (c : EvmCapabilities) : Z :=
  if bool_decide (support c = CapabilitiesUnsupported) then reprobeInterval c else resultTtl c.

Definition fresh (c : EvmCapabilities) (now : Z) : bool :=
  match lastAttemptAt c with Some last => now - last <? window c | None => false end.

Definition snapshot (c : EvmCapabilities) (w : W) : option evmCapabilitiesSnapshot * EvmCapabilities * W :=
  if fresh c (clock w) then (cached c, c, w)
  else
    let at_ := clock w in
    let '(s, sup, w) := refresh (Z.to_nat (retryAttempts c - 1)) (support c) w in
    (s, mkCapabilities (resultTtl c) (reprobeInterval c) (retryAttempts c) sup (Some at_) s, w).
End Capabilities.

(** ** A detector *)

Inductive StateOverrideSupport := OverrideUnknown | OverrideSupported | OverrideUnsupported.

(** [ed_chain] is [chain.LowerBounds]; [ed_capable] whether the shared report is
    attached. *)
Record EvmLowerBoundDetector := mkDetector {
  ed_calc : LowerBoundSearchCalculator;
  ed_chain : option ChainLowerBounds;
  ed_capable : bool;
}.

Definition evmLowerBoundMaxOffset : Z := 20.

Definition new_detector (upstreamId : string) (chain : option ChainLowerBounds) (t : LowerBoundType) (ts : list LowerBoundType)
    (offset : Z) : EvmLowerBoundDetector :=
  mkDetector (mkCalculator upstreamId t ts offset 0) chain false.

Definition NewEvmBlockLowerBoundDetector u chain := new_detector u chain BlockBound [BlockBound; LogsBound] 0.
Definition NewEvmProofLowerBoundDetector u chain := new_detector u chain ProofBound [ProofBound] 0.
Definition NewEvmReceiptsLowerBoundDetector u chain := new_detector u chain ReceiptsBound [ReceiptsBound] evmLowerBoundMaxOffset.
Definition NewEvmStateLowerBoundDetector u chain := new_detector u chain StateBound [StateBound; TraceBound] 0.
Definition NewEvmTxLowerBoundDetector u chain := new_detector u chain TxBound [TxBound] evmLowerBoundMaxOffset.
Definition WithCapabilities (d : EvmLowerBoundDetector) : EvmLowerBoundDetector := mkDetector (ed_calc d) (ed_chain d) true.

(** What a detection runs in: the verdict on state overrides, the shared report, and
    the world. *)
Record Env (W : Type) := mkEnv { env_override : StateOverrideSupport; env_capabilities : EvmCapabilities; env_world : W }.
Arguments mkEnv {W}.
Arguments env_override {W}.
Arguments env_capabilities {W}.
Arguments env_world {W}.

Definition evmZeroAddress : string := "0x0000000000000000000000000000000000000000".
Definition stateCheckerAddress : string := "0x1111111111111111111111111111111111111111".
Definition stateCheckerCallData : string := "0x1eaf190c".
Definition stateCheckerBytecode : string := "0x6080604052348015600e575f5ffd5b50600436106026575f3560e01c80631eaf190c14602a575b5f5ffd5b60306044565b604051603b91906078565b60405180910390f35b5f5f73ffffffffffffffffffffffffffffffffffffffff1631905090565b5f819050919050565b6072816062565b82525050565b5f60208201905060895f830184606b565b9291505056fea2646970667358221220251f5b4d2ed1abe77f66fde198a57ada08562dc3b0afbc6bac0261d1bf516b5d64736f6c634300081e0033".

Section Detector.
Context {W : Type} `{EN : EvmNode W} `{EJ : EvmJson}.
Context (d : EvmLowerBoundDetector).

Definition stateOverrideParams (block : string) : list Param :=
  [PObj [("to", PStr stateCheckerAddress); ("data", PStr stateCheckerCallData)]; PStr block;
   PObj [(stateCheckerAddress, PObj [("code", PStr stateCheckerBytecode)])]].

(** An error, no data, or the result. *)
Inductive Called := CallError (text : string) | NoData | Data (raw : string).

Definition call (method : string) (params : list Param) (w : W) : Called * W :=
  let '(response, w) := SendRequest method params w in
  (if HasError response then
     if isEvmNoDataError (GetError response) then NoData
     else CallError (match GetError response with Some e => ResponseError_Error e | None => "" end)
   else if isEvmNullResult (ResponseResult response) then NoData
   else Data (ResponseResult response), w).

(** The error of a probe, or whether there is data; the checks of [isEvmNullResult]
    that follow a call that found data change nothing. *)
Definition probed (c : Called) : string + bool :=
  match c with CallError text => inl text | NoData => inr false | Data raw => inr (negb (isEvmNullResult raw)) end.

Definition hasBlock (height : Z) (w : W) : (string + bool) * W :=
  let '(c, w) := call "eth_getBlockByNumber" [PStr (evmBlockTag height); PBool false] w in (probed c, w).

Definition hasProof (height : Z) (w : W) : (string + bool) * W :=
  let '(c, w) := call "eth_getProof" [PStr evmZeroAddress; PArr []; PStr (evmBlockTag height)] w in (probed c, w).

(** [firstTxHash] of the detector: an error, no hash, or the hash. *)
Definition firstTxHash (height : Z) (w : W) : Called * W :=
  let '(c, w) := call "eth_getBlockByNumber" [PStr (evmBlockTag height); PBool false] w in
  (match c with
   | Data raw =>
     match unmarshal_block raw with
     | None => CallError ("EVM upstream '" +:+ calc_UpstreamId (ed_calc d) +:+ "' block " +:+ pretty height +:+ " unparseable")
     | Some txs => match first_tx txs with Some hash => Data hash | None => NoData end
     end
   | c => c
   end, w).

Definition by_first_tx (method : string) (height : Z) (w : W) : (string + bool) * W :=
  match firstTxHash height w with
  | (CallError text, w) => (inl text, w)
  | (NoData, w) => (inr false, w)
  | (Data hash, w) => let '(c, w) := call method [PStr hash] w in (probed c, w)
  end.

Definition hasTx : Z -> W -> (string + bool) * W := by_first_tx "eth_getTransactionByHash".
Definition hasReceipts : Z -> W -> (string + bool) * W := by_first_tx "eth_getTransactionReceipt".

Definition supportsStateOverride (s : StateOverrideSupport) (w : W) : bool * StateOverrideSupport * W :=
  match s with
  | OverrideSupported => (true, s, w)
  | OverrideUnsupported => (false, s, w)
  | OverrideUnknown =>
    let '(c, w) := call "eth_call" (stateOverrideParams "latest") w in
    match c with
    | Data raw => if isEvmEmptyHexResult raw then (false, OverrideUnsupported, w) else (true, OverrideSupported, w)
    | _ => (false, OverrideUnsupported, w)
    end
  end.

Definition hasStateWithOverride (height : Z) (w : W) : (string + bool) * W :=
  let '(c, w) := call "eth_call" (stateOverrideParams (evmBlockTag height)) w in
  (match c with Data raw => inr (negb (isEvmEmptyHexResult raw)) | c => probed c end, w).

Definition hasStateWithBalance (height : Z) (w : W) : (string + bool) * W :=
  let '(c, w) := call "eth_getBalance" [PStr evmZeroAddress; PStr (evmBlockTag height)] w in (probed c, w).

Definition hasState (height : Z) (s : StateOverrideSupport) (w : W) : (string + bool) * StateOverrideSupport * W :=
  let '(supported, s, w) := supportsStateOverride s w in
  let '(by_override, w) := if supported then hasStateWithOverride height w else (inr false, w) in
  match by_override with
  | inr true => (inr true, s, w)
  | _ => let '(r, w) := hasStateWithBalance height w in (r, s, w)
  end.

Definition probe (height : Z) (e : Env W) : (string + bool) * Env W :=
  let with_world (r : (string + bool) * W) := (r.1, mkEnv (env_override e) (env_capabilities e) r.2) in
  match MainBoundType (ed_calc d) with
  | StateBound =>
    let '(r, s, w) := hasState height (env_override e) (env_world e) in (r, mkEnv s (env_capabilities e) w)
  | BlockBound => with_world (hasBlock height (env_world e))
  | TxBound => with_world (hasTx height (env_world e))
  | ReceiptsBound => with_world (hasReceipts height (env_world e))
  | ProofBound => with_world (hasProof height (env_world e))
  | t => (inl ("unsupported EVM lower-bound type " +:+ LowerBoundType_String t), e)
  end.

Definition fetchLatestHeight (w : W) : (string + Z) * W :=
  let '(c, w) := call "eth_blockNumber" [] w in
  (match c with
   | CallError text => inl text
   | NoData => inl "eth_blockNumber unavailable"
   | Data raw => match parseHexInt raw with Some n => inr n | None => inl "strconv.ParseInt" end
   end, w).

(** The retries of the search: attempts until there is no error, with [more] left
    after this one; the delays are left out. *)
Fixpoint retried {A} (ask : Env W -> (string + A) * Env W) (more : nat) (e : Env W) : (string + A) * Env W :=
  match ask e, more with
  | (inl err, e), S more => if ctx_done (env_world e) then (inl err, e) else retried ask more e
  | r, _ => r
  end.

Definition lower_bound_attempts : nat := 30.

Definition hasData (height : Z) (e : Env W) : bool * Env W :=
  let '(r, e) := retried (probe height) (lower_bound_attempts - 1) e in
  (match r with inr available => available | inl _ => false end, e).

Definition latestHeight (e : Env W) : (string + Z) * Env W :=
  retried (fun e => let '(r, w) := fetchLatestHeight (env_world e) in (r, mkEnv (env_override e) (env_capabilities e) w))
    (lower_bound_attempts - 1) e.

(** The bounds of the report for the types of the detector, [None] when one of them is
    not covered; [now] in seconds. *)
Fixpoint covered_bounds (s : evmCapabilitiesSnapshot) (now : Z) (ts : list LowerBoundType) : option (list LowerBoundData) :=
  match ts with
  | [] => Some []
  | t :: ts =>
    res ← snapshot_resource s t;
    rest ← covered_bounds s now ts;
    Some (if cp_disabled res then rest else mkLowerBoundData (cp_bound res) now t :: rest)
  end.

Definition unix (w : W) : Z := clock w / 1000000000.

Definition detectFromCapabilities (e : Env W) : option (list LowerBoundData) * Env W :=
  if negb (ed_capable d) then (None, e)
  else
    let '(s, caps, w) := snapshot (env_capabilities e) (env_world e) in
    (s ← s; covered_bounds s (unix w) (allSupportedTypes (ed_calc d)), mkEnv (env_override e) caps w).

Definition gold_call : option (string * string) :=
  bounds ← ed_chain d;
  '(method, gold) ← match MainBoundType (ed_calc d) with
    | TxBound => Some ("eth_getTransactionByHash", lb_Tx bounds)
    | ReceiptsBound => Some ("eth_getTransactionReceipt", lb_Receipts bounds)
    | _ => None
    end;
  g ← gold;
  if bool_decide (gold_Hash g = "") then None else Some (method, gold_Hash g).

Definition detectFromGoldBound (e : Env W) : option (list LowerBoundData) * Env W :=
  match gold_call with
  | None => (None, e)
  | Some (method, hash) =>
    let '(c, w) := call method [PStr hash] (env_world e) in
    (match c with Data raw => Some (lowerBoundResults (ed_calc d) (unix w) 1) | _ => None end,
     mkEnv (env_override e) (env_capabilities e) w)
  end.

(** The time of a bound is the time its detection ended. *)
Definition stamp (now : Z) (bounds : list LowerBoundData) : list LowerBoundData :=
  map (fun b => mkLowerBoundData (Bound b) now (BoundType b)) bounds.

(** The result of a detection, with the calculator that remembers the bound. *)
Definition evm_DetectLowerBound (e : Env W)
    : option ((string + list LowerBoundData) * LowerBoundSearchCalculator * Env W) :=
  match detectFromCapabilities e with
  | (Some results, e) => Some (inr results, ed_calc d, e)
  | (None, e) =>
    match detectFromGoldBound e with
    | (Some results, e) => Some (inr results, ed_calc d, e)
    | (None, e) =>
      let '(latest, e) := latestHeight e in
      match DetectLowerBound hasData (ed_calc d) latest 0 e with
      | Some (inr bounds, c, e) => Some (inr (stamp (unix (env_world e)) bounds), c, e)
      | r => r
      end
    end
  end.
End Detector.

(** ** The report *)

(** What the search path and the routing rely on: a report says something, only about
    the types it has an entry for, and a bound is at least 1. *)
Definition report_types : list LowerBoundType := [StateBound; TxBound; ReceiptsBound; BlockBound; LogsBound; ProofBound].

Definition report_wf (s : evmCapabilitiesSnapshot) : Prop :=
  s <> ∅ /\ map_Forall (fun t r => t ∈ report_types /\ (cp_disabled r = true \/ 1 <= cp_bound r)) s.

Definition capabilities_wf (c : EvmCapabilities) : Prop :=
  1 <= retryAttempts c /\ from_option report_wf True (cached c).

Section Reported.
Context {W : Type} `{EN : EvmNode W} `{EJ : EvmJson}.

Lemma entry_resource_wf e r : entry_resource e = Some r -> cp_disabled r = true \/ 1 <= cp_bound r.
Proof using Type.
  unfold entry_resource. destruct (ce_Disabled e); [intros [= <-]; by left|].
  destruct (parseHexInt _) as [n|]; [|done]. destruct (n <? 0) eqn:E; [done|]. intros [= <-]. right. simpl.
  apply Z.ltb_ge in E. destruct (n =? 0) eqn:E2; [lia|]. apply Z.eqb_neq in E2. lia.
Qed.

Lemma parseEvmCapabilities_wf raw s : parseEvmCapabilities raw = Some s -> report_wf s.
Proof using Type.
  unfold parseEvmCapabilities. destruct (isEvmNullResult raw); [done|].
  intros (p & _ & Hs)%bind_Some. revert Hs. case_bool_decide as He; [done|].
  intros Hs%(inj Some). subst s. split; [exact He|]. clear He.
  assert (Forall (fun te => te.1 ∈ report_types) (capability_entries p)) as Ht by (repeat constructor; set_solver).
  revert Ht. generalize (capability_entries p). generalize (map_Forall_empty (M := gmap LowerBoundType)
    (fun t r => t ∈ report_types /\ (cp_disabled r = true \/ 1 <= cp_bound r))).
  generalize (∅ : evmCapabilitiesSnapshot). intros m Hm l. revert m Hm.
  induction l as [|[t e] l IH]; intros m Hm Ht; [done|]. inversion_clear Ht. simpl. apply IH; [|done].
  destruct (e ≫= entry_resource) as [r|] eqn:E; [|done]. apply map_Forall_insert_2; [|done]. split; [done|].
  apply bind_Some in E as (? & _ & ?). by eapply entry_resource_wf.
Qed.

(** [n] calls for the report. *)
Definition asked (n : nat) (w : W) : W := Nat.iter n (fun w => (SendRequest "eth_capabilities" [] w).2) w.

Lemma fetch_calls sup w s retry sup' w' :
  fetch sup w = (s, retry, sup', w') -> w' = asked 1 w /\ from_option report_wf True s.
Proof using Type.
  unfold fetch, asked. simpl. destruct (SendRequest _ _ w) as [r w1].
  destruct (HasError r); [destruct (isEvmMethodNotFoundError _); intros [= <- <- <- <-]; done|].
  destruct (parseEvmCapabilities _) as [p|] eqn:E; intros [= <- <- <- <-]; [|done].
  split; [done|]. by eapply parseEvmCapabilities_wf.
Qed.

(** A refresh calls the node at least once and at most as often as it may try. *)
Lemma refresh_calls more sup w s sup' w' :
  refresh more sup w = (s, sup', w') -> (exists n, (1 <= n <= S more)%nat /\ w' = asked n w) /\ from_option report_wf True s.
Proof using Type.
  revert sup w. induction more as [|more IH]; intros sup w; simpl;
    destruct (fetch sup w) as [[[s1 retry] sup1] w1] eqn:E; apply fetch_calls in E as [-> Hs]; destruct s1 as [s1|].
  1-3: intros [= <- <- <-]; split; [exists 1%nat; split; [lia|done]|done].
  destruct (negb retry); [intros [= <- <- <-]; split; [exists 1%nat; split; [lia|done]|done]|].
  destruct (ctx_done _); [intros [= <- <- <-]; split; [exists 1%nat; split; [lia|done]|done]|].
  intros ((n & Hn & ->) & Hs')%IH. split; [|done]. exists (S n). split; [lia|]. unfold asked. by rewrite <- Nat.iter_succ_r.
Qed.

Definition same_windows (c c' : EvmCapabilities) : Prop :=
  resultTtl c' = resultTtl c /\ reprobeInterval c' = reprobeInterval c /\ retryAttempts c' = retryAttempts c.

Lemma snapshot_wf c w s c' w' :
  capabilities_wf c -> snapshot c w = (s, c', w') ->
  capabilities_wf c' /\ from_option report_wf True s /\ s = cached c' /\ same_windows c c' /\
  (exists n, (n <= Z.to_nat (retryAttempts c))%nat /\ w' = asked n w).
Proof using Type.
  intros [Ha Hc]. unfold snapshot. destruct (fresh c (clock w)).
  { intros [= <- <- <-]. split_and!; [done..|]. exists 0%nat. split; [lia|done]. }
  destruct (refresh _ _ w) as [[s1 sup] w1] eqn:E. apply refresh_calls in E as [(n & Hn & ->) Hs]. intros [= <- <- <-].
  split_and!; [done..|]. exists n. split; [lia|done].
Qed.

(** Until the window of the last report is over, every detector of the upstream is
    served from it and the node is not called. *)
Lemma report_shared c w s c' w' w2 :
  snapshot c w = (s, c', w') ->
  (forall last, lastAttemptAt c' = Some last -> clock w2 - last < Z.min (resultTtl c') (reprobeInterval c')) ->
  snapshot c' w2 = (s, c', w2).
Proof using Type.
  intros E Hw. assert (fresh c' (clock w2) = true /\ s = cached c') as [Hf ->].
  { unfold snapshot in E. destruct (fresh c (clock w)) eqn:Ef.
    - injection E as <- <- <-. split; [|done]. unfold fresh in *. destruct (lastAttemptAt c) as [l|]; [|done].
      specialize (Hw l eq_refl). unfold window. case_bool_decide; lia.
    - destruct (refresh _ _ w) as [[s1 sup] w1]. injection E as <- <- <-. split; [|done]. unfold fresh. simpl.
      specialize (Hw _ eq_refl). simpl in Hw. unfold window. simpl. case_bool_decide; lia. }
  unfold snapshot. by rewrite Hf.
Qed.
End Reported.

(** ** A detection *)

Definition detector_types (c : LowerBoundSearchCalculator) : list LowerBoundType :=
  match allSupportedTypes c with [] => [MainBoundType c] | ts => ts end.

(** The bounds of a report that covers the types of a detector. *)
Definition reported (s : evmCapabilitiesSnapshot) (now : Z) (ts : list LowerBoundType) : list LowerBoundData :=
  omap (fun t => r ← snapshot_resource s t; if cp_disabled r then None else Some (mkLowerBoundData (cp_bound r) now t)) ts.

(** Bounds of a detection that ended at [now]: at least 1, each for another type of the
    detector. *)
Definition bounds_of (c : LowerBoundSearchCalculator) (now : Z) (bounds : list LowerBoundData) : Prop :=
  Forall (fun b => 1 <= Bound b /\ Timestamp b = now) bounds /\ map BoundType bounds `sublist_of` detector_types c.

Section Detections.
Context {W : Type} `{EN : EvmNode W} `{EJ : EvmJson}.

Lemma covered_bounds_reported s now ts bounds : covered_bounds s now ts = Some bounds -> bounds = reported s now ts.
Proof using Type.
  revert bounds. induction ts as [|t ts IH]; intros bounds; simpl; [by intros [= <-]|].
  destruct (snapshot_resource s t) as [r|]; [|done]. simpl. destruct (covered_bounds s now ts) as [rest|]; [|done]. simpl.
  rewrite (IH rest eq_refl). destruct (cp_disabled r); by intros [= <-].
Qed.

Lemma covered_bounds_complete s now ts :
  (forall t, t ∈ ts -> is_Some (snapshot_resource s t)) -> covered_bounds s now ts = Some (reported s now ts).
Proof using Type.
  induction ts as [|t ts IH]; [done|]. intros H. simpl.
  destruct (H t) as [r ->]; [by left|]. simpl. rewrite IH by (intros; apply H; by right). simpl. by destruct (cp_disabled r).
Qed.

Lemma reported_bounds c s now : report_wf s -> allSupportedTypes c <> [] -> bounds_of c now (reported s now (allSupportedTypes c)).
Proof using Type.
  intros [_ Hs] Hc. unfold bounds_of, detector_types. destruct (allSupportedTypes c) as [|t0 ts0] eqn:E; [done|].
  clear Hc E. generalize (t0 :: ts0). intros ts. induction ts as [|t ts IH]; [split; [constructor|done]|]. simpl.
  unfold snapshot_resource in *. destruct (s !! _) as [r|] eqn:E; simpl.
  - destruct (cp_disabled r) eqn:Ed; simpl; [split; [apply IH|by apply sublist_cons; apply IH]|].
    apply Hs in E as [_ [?|?]]; [congruence|]. split; [constructor; [done|apply IH]|by apply sublist_skip; apply IH].
  - split; [apply IH|by apply sublist_cons; apply IH].
Qed.

Lemma search_bounds c now bound : 1 <= bound -> bounds_of c now (lowerBoundResults c now bound).
Proof using Type.
  intros Hb. unfold bounds_of, lowerBoundResults, detector_types. destruct (allSupportedTypes c) as [|t ts].
  - split; [by repeat constructor|done].
  - split; [|by rewrite map_map, map_id]. apply Forall_forall. by intros b (? & -> & _)%list_elem_of_fmap.
Qed.

Lemma stamp_bounds c now now' bound : stamp now (lowerBoundResults c now' bound) = lowerBoundResults c now bound.
Proof using Type. unfold stamp, lowerBoundResults. destruct (allSupportedTypes c); [done|]. apply map_map. Qed.

Lemma detectFromCapabilities_ok d e r e' :
  capabilities_wf (env_capabilities e) -> detectFromCapabilities d e = (r, e') ->
  capabilities_wf (env_capabilities e') /\
  (allSupportedTypes (ed_calc d) <> [] -> from_option (bounds_of (ed_calc d) (unix (env_world e'))) True r).
Proof using Type.
  intros Hc. unfold detectFromCapabilities. destruct (ed_capable d); [|by intros [= <- <-]]. simpl.
  destruct (snapshot _ _) as [[s caps] w] eqn:E. apply (snapshot_wf _ _ _ _ _ Hc) in E as (Hc' & Hs & _).
  intros [= <- <-]. split; [exact Hc'|]. intros Ht. destruct s as [s|]; [|done]. simpl.
  destruct (covered_bounds _ _ _) as [bs|] eqn:Eb; [|done]. apply covered_bounds_reported in Eb as ->. by apply reported_bounds.
Qed.
(** The latest height comes from the node. *)
Lemma latestHeight_ok (e : Env W) n e' :
  (forall w h, (fetchLatestHeight w).1 = inr h -> h < two63 - 1) -> latestHeight e = (inr n, e') ->
  n < two63 - 1 /\ env_capabilities e' = env_capabilities e.
Proof using Type.
  intros Hn. unfold latestHeight. generalize (lower_bound_attempts - 1)%nat. intros more. revert e.
  induction more as [|more IH]; intros e; simpl; specialize (Hn (env_world e)); destruct (fetchLatestHeight (env_world e)) as [[err|h] w]; simpl.
  - done.
  - intros [= -> <-]. split; [by apply Hn|done].
  - destruct (ctx_done w); [done|]. by intros ?%IH.
  - intros [= -> <-]. split; [by apply Hn|done].
Qed.

Lemma retried_capabilities {A} (ask : Env W -> (string + A) * Env W) more e :
  (forall e, env_capabilities (ask e).2 = env_capabilities e) -> env_capabilities (retried ask more e).2 = env_capabilities e.
Proof using Type.
  intros Hk. revert e. induction more as [|more IH]; intros e; simpl; specialize (Hk e); destruct (ask e) as [[err|a] e1]; simpl in *; try done.
  destruct (ctx_done _); [done|]. by rewrite IH.
Qed.
Lemma hasData_capabilities d h (e : Env W) : env_capabilities (hasData d h e).2 = env_capabilities e.
Proof using Type.
  unfold hasData. pose proof (retried_capabilities (probe d h) (lower_bound_attempts - 1) e) as Hk.
  destruct (retried _ _ _) as [r e1]. apply Hk. intros e2. unfold probe.
  destruct (MainBoundType (ed_calc d)); try done. by destruct (hasState _ _ _) as [[? ?] ?].
Qed.

(** The search of a detector. *)
Definition searched d (e : Env W) : option ((string + list LowerBoundData) * LowerBoundSearchCalculator * Env W) :=
  let '(latest, e) := latestHeight e in
  match DetectLowerBound (hasData d) (ed_calc d) latest 0 e with
  | Some (inr bounds, c, e) => Some (inr (stamp (unix (env_world e)) bounds), c, e)
  | r => r
  end.

Definition detection_ok (d : EvmLowerBoundDetector) (o : option ((string + list LowerBoundData) * LowerBoundSearchCalculator * Env W)) : Prop :=
  exists res c' e', o = Some (res, c', e') /\ capabilities_wf (env_capabilities e') /\
    match res with
    | inl _ => c' = ed_calc d
    | inr bounds => lastBound c' < two63 /\ bounds_of (ed_calc d) (unix (env_world e')) bounds
    end.

Lemma searched_ok d e :
  capabilities_wf (env_capabilities e) -> lastBound (ed_calc d) < two63 ->
  (forall w n, (fetchLatestHeight w).1 = inr n -> n < two63 - 1) -> detection_ok d (searched d e).
Proof using Type.
  intros Hc Hl Hn. unfold searched, detection_ok.
  assert (env_capabilities (latestHeight e).2 = env_capabilities e) as Hk.
  { apply retried_capabilities. intros e1. by destruct (fetchLatestHeight (env_world e1)). }
  destruct (latestHeight e) as [latest e1] eqn:E. simpl in Hk.
  destruct (DetectLowerBound_terminates (hasData d) (ed_calc d) latest 0 e1 Hl) as (res & c' & e' & Ed & Hres).
  { intros h ->. by apply latestHeight_ok in E as [? _]. }
  assert (capabilities_wf (env_capabilities e')) as Hc'.
  { eapply (DetectLowerBound_keeps _ _ (fun e => capabilities_wf (env_capabilities e))), Ed; [|by rewrite Hk].
    intros h e2. by rewrite hasData_capabilities. }
  rewrite Ed. destruct res as [err|bounds]; [by eexists _, _, _|]. destruct Hres as (Hb & _ & ->).
  eexists _, _, _. split; [done|]. split; [done|]. split; [lia|]. rewrite stamp_bounds. apply search_bounds. lia.
Qed.
End Detections.

(** C36. Every detection of an EVM bound ends, whatever the node answers and however
    often it fails, as long as it never reports a head of 2^63 - 1, the largest there is
    (then the plain search may not end, see [LowerBoundSearch.largest_head_never_ends]):
    with an error that leaves the detector as it was, or with bounds of at least 1, each
    for another type of the detector and stamped with the time of the detection. A report of the node that covers all these types decides them alone: the
    bounds are those it names, disabled types have none, and the node is asked nothing
    else. *)
Theorem evm_detection {W} `{EvmNode W, EvmJson} d (e : Env W) :
  capabilities_wf (env_capabilities e) -> lastBound (ed_calc d) < two63 -> allSupportedTypes (ed_calc d) <> [] ->
  (forall w n, (fetchLatestHeight w).1 = inr n -> n < two63 - 1) ->
  detection_ok d (evm_DetectLowerBound d e) /\
  (forall s caps w, ed_capable d = true -> snapshot (env_capabilities e) (env_world e) = (Some s, caps, w) ->
   (forall t, t ∈ allSupportedTypes (ed_calc d) -> is_Some (snapshot_resource s t)) ->
   evm_DetectLowerBound d e =
     Some (inr (reported s (unix w) (allSupportedTypes (ed_calc d))), ed_calc d, mkEnv (env_override e) caps w)).
Proof.
  intros Hc Hl Ht Hn. split.
  - unfold evm_DetectLowerBound. destruct (detectFromCapabilities d e) as [[results|] e1] eqn:E1;
      apply (detectFromCapabilities_ok _ _ _ _ Hc) in E1 as [Hc1 Hr]; [eexists _, _, _; by split; [done|split; [done|split; [done|apply Hr]]]|].
    unfold detectFromGoldBound. destruct (gold_call d) as [[method hash]|]; [|by apply searched_ok].
    destruct (call method _ _) as [[text| |raw] w] eqn:E2; try by apply searched_ok.
    eexists _, _, _. split; [done|]. split; [done|]. split; [done|]. by apply search_bounds.
  - intros s caps w Hd Es Hcov. unfold evm_DetectLowerBound, detectFromCapabilities. rewrite Hd. simpl. rewrite Es. simpl.
    by rewrite covered_bounds_complete.
Qed.

(** A node that reports its state from block 0, its transactions from block 256 and
    no receipts, and has nothing else. *)
Record SampleWorld := mkSampleWorld { sw_time : Z; sw_calls : Z }.

#[local] Instance sample_json : EvmJson := {
  unmarshal_text raw := Some raw;
  unmarshal_block _ := None;
  unmarshal_tx _ := None;
  unmarshal_capabilities _ :=
    Some (mkCapResponse (Some (mkCapEntry false "0x0")) (Some (mkCapEntry false "0x100")) (Some (mkCapEntry true "")) None None None);
}.

#[local] Instance sample_evm_node : EvmNode SampleWorld := {
  SendRequest method _ w :=
    (if bool_decide (method = "eth_capabilities") then WsJsonRpcResponse "1" "{}" None
     else if bool_decide (method = "eth_blockNumber") then WsJsonRpcResponse "1" "0x40" None
     else WsJsonRpcResponse "1" "null" None,
     mkSampleWorld (sw_time w + 1000000000) (sw_calls w + 1));
  clock := sw_time;
  ctx_done _ := false;
}.

Definition sample_env : Env SampleWorld := mkEnv OverrideUnknown NewEvmCapabilities (mkSampleWorld 5000000000 0).

(** A detector of transactions takes the bound of the report. *)
Definition tx_detector : EvmLowerBoundDetector := WithCapabilities (NewEvmTxLowerBoundDetector "u1" None).

Definition sample_report : evmCapabilitiesSnapshot :=
  {[ReceiptsBound := mkCapResource true 0; TxBound := mkCapResource false 256; StateBound := mkCapResource false 1]}.

Definition sample_caps : EvmCapabilities :=
  mkCapabilities (90 * 1000000000) (60 * minute) 3 CapabilitiesSupported (Some 5000000000) (Some sample_report).

Example sample_snapshot :
  snapshot NewEvmCapabilities (mkSampleWorld 5000000000 0) = (Some sample_report, sample_caps, mkSampleWorld 6000000000 1).
Proof. vm_compute. reflexivity. Qed.

Lemma evm_detection_witness :
  evm_DetectLowerBound tx_detector sample_env =
    Some (inr [mkLowerBoundData 256 6 TxBound], ed_calc tx_detector, mkEnv OverrideUnknown sample_caps (mkSampleWorld 6000000000 1)).
Proof.
  destruct (evm_detection tx_detector sample_env) as [_ Hrep].
  - split; [done|exact I].
  - done.
  - done.
  - intros w n Hn. change (inr 64 = @inr string Z n) in Hn. by injection Hn as <-.
  - rewrite (Hrep _ _ _ eq_refl sample_snapshot); [reflexivity|]. intros t ->%list_elem_of_singleton. by eexists.
Defined.

(** The state detector needs the bounds of state and traces, and both are in the
    report; the one of blocks also serves logs, which are not, and searches. *)
Example block_detector_searches :
  let d := WithCapabilities (NewEvmBlockLowerBoundDetector "u1" None) in
  exists c e, evm_DetectLowerBound d sample_env = Some (inl (detect_error (ed_calc d)), c, e).
Proof. vm_compute. by eexists _, _. Qed.
