(* ===== verification/EvmMethods.v ===== *)
(** Which methods an EVM node serves
    ([internal/upstreams/methods/evm_methods/method_probe_detector.go],
    [rpc_modules_detector.go], and [MethodsProcessor] of
    [internal/upstreams/chains_specific/evm_specific/evm_chain_specific.go]): the modules
    a node reports, the methods that are probed one by one, and what the processor of
    [Methods] makes of both.

    The answers of the node are arguments; the JSON of a module map is a library
    ([ModulesJson]). *)

From S2P Require Import Prelude.
From S2P Require Import GoStrings.
From S2P Require Import Protocol.
From S2P Require Import Errors.
From S2P Require Import Responses.
From S2P Require Import Specs.
From S2P Require Import Methods.
From Stdlib Require Import Ascii.

#[local] Arguments String.append !_ _ /.

(** ** Probes *)

Definition probedMethods : list string :=
  ["eth_getBlockReceipts"; "trace_callMany"; "trace_rawTransaction"; "eth_simulateV1"; "eth_getStorageValues";
   "debug_storageRangeAt"; "eth_getTdByNumber"; "eth_callBundle"].

Record MethodProbeDetector := mkProbeDetector { probes : gset string; known : gmap string MethodAvailability }.

Definition NewMethodProbeDetector (base : gset string) : MethodProbeDetector :=
  mkProbeDetector (list_to_set (base.filter (fun m => m ∈ base) probedMethods)) ∅.

(** What the answer to a call without parameters says about the method. *)
Definition probe_verdict (response : ResponseHolder) : MethodAvailability :=
  if HasError response then ClassifyMethodAvailability (GetError response) else MethodAvailable.

(** The merge of a round: only conclusive answers replace what is known. *)
Definition merge_probe (answer : string -> ResponseHolder) (known : gmap string MethodAvailability) (method : string)
    : gmap string MethodAvailability :=
  match probe_verdict (answer method) with
  | MethodAvailabilityUnknown => known
  | v => <[method := v]> known
  end.

Definition not_available (known : gmap string MethodAvailability) : gset string :=
  dom (base.filter (fun kv => kv.2 = MethodNotAvailable) known).

(** A round, with the answer to each probe; rounds that overlap are in the order in
    which they merge, which the lock of the detector makes one step. *)
Definition probe_DetectUnsupported (answer : string -> ResponseHolder) (d : MethodProbeDetector)
    : option (gset string) * MethodProbeDetector :=
  let known := foldl (merge_probe answer) (known d) (elements (probes d)) in
  (if bool_decide (known = ∅) then None else Some (not_available known), mkProbeDetector (probes d) known).

(** ** Modules *)

(** [sonic.Unmarshal] into a [map[string]string]. *)
Class ModulesJson := unmarshal_modules : string -> option (gmap string string).

(** The module of a method, the part before the first underscore. *)
Definition moduleOf (method : string) : option string :=
  let '(module, _) := cut_at "_" method in
  if contains_char "_" method && negb (bool_decide (module = "")) then Some module else None.

Definition module_missing (modules : gmap string string) (method : string) : bool :=
  match moduleOf method with Some m => bool_decide (modules !! m = None) | None => false end.

Section Modules.
Context `{MJ : ModulesJson}.

(** The modules of an answer to [rpc_modules], [None] without a usable one. *)
Definition detectModules (response : ResponseHolder) : option (gmap string string) :=
  if HasError response then None else unmarshal_modules (ResponseResult response).

Definition rpc_DetectUnsupported (base : gset string) (response : ResponseHolder) : option (gset string) :=
  let modules := default ∅ (detectModules response) in
  if bool_decide (modules = ∅) then None
  else Some (base.filter (fun method => module_missing modules method = true) base).
End Modules.

(** ** Both detectors of an upstream *)

Definition detectableConnectorTypes (types : list ApiConnectorType) : list ApiConnectorType :=
  base.filter (fun t => t = JsonRpcConnector \/ t = WebsocketConnector) types.

Definition detectableMethods `{MapRange} (reg : Registry) (methodSpec : string) (types : list ApiConnectorType) : gset string :=
  DetectableMethods reg methodSpec (detectableConnectorTypes types).

Section Rounds.
Context `{MJ : ModulesJson} (base : gset string).

(** A round of both detectors: the node's answer to every method, and the state of the
    probes. *)
Definition evm_round (answer : string -> ResponseHolder) (d : MethodProbeDetector)
    : list (option (gset string)) * MethodProbeDetector :=
  let '(probed, d) := probe_DetectUnsupported answer d in
  ([rpc_DetectUnsupported base (answer "rpc_modules"); probed], d).

(** The verdicts of the rounds, fed to the processor of [Methods]. *)
Fixpoint evm_rounds (rounds : list (string -> ResponseHolder)) (d : MethodProbeDetector) : list (list (option (gset string))) :=
  match rounds with
  | [] => []
  | answer :: rounds => let '(verdicts, d) := evm_round answer d in verdicts :: evm_rounds rounds d
  end.

Definition run_evm_detection (rounds : list (string -> ResponseHolder)) : ProcessorState :=
  run_detection 2 (evm_rounds rounds (NewMethodProbeDetector base)).
End Rounds.

(** ** What is known after some rounds *)

(** The last answer about a method that said something. *)
Definition conclusive (answer : string -> ResponseHolder) (method : string) : option MethodAvailability :=
  match probe_verdict (answer method) with MethodAvailabilityUnknown => None | v => Some v end.

Definition last_conclusive (rounds : list (string -> ResponseHolder)) (method : string) : option MethodAvailability :=
  last (omap (fun answer => conclusive answer method) rounds).

(** The last modules the node reported. *)
Definition usable_modules `{ModulesJson} (answer : string -> ResponseHolder) : option (gmap string string) :=
  modules ← detectModules (answer "rpc_modules"); if bool_decide (modules = ∅) then None else Some modules.

Definition last_modules `{ModulesJson} (rounds : list (string -> ResponseHolder)) : option (gmap string string) :=
  last (omap usable_modules rounds).

Lemma probed_in base m : m ∈ probes (NewMethodProbeDetector base) <-> m ∈ probedMethods /\ m ∈ base.
Proof. simpl. rewrite elem_of_list_to_set, list_elem_of_filter. tauto. Qed.

(** A round keeps what was not answered and takes what was. *)
Lemma merge_probes_lookup answer l known m :
  foldl (merge_probe answer) known l !! m =
    if decide (m ∈ l) then match conclusive answer m with Some v => Some v | None => known !! m end else known !! m.
Proof.
  revert known. induction l as [|x l IH]; intros known; [done|]. simpl. rewrite IH. unfold merge_probe, conclusive.
  destruct (decide (x = m)) as [->|Hx].
  - rewrite (decide_True (P := m ∈ m :: l)) by (by left).
    destruct (probe_verdict (answer m)); rewrite ?lookup_insert_eq; by destruct (decide (m ∈ l)).
  - assert (forall known' : gmap string MethodAvailability, known' !! m = known !! m ->
      (if decide (m ∈ l) then match conclusive answer m with Some v => Some v | None => known' !! m end else known' !! m) =
      (if decide (m ∈ x :: l) then match conclusive answer m with Some v => Some v | None => known !! m end else known !! m)) as H.
    { intros known' ->. destruct (decide (m ∈ l)); [rewrite decide_True by (by right)|rewrite decide_False by set_solver]; done. }
    destruct (probe_verdict (answer x)); apply H; rewrite ?lookup_insert_ne by done; done.
Qed.

Section Known.
Context `{MJ : ModulesJson} (base : gset string).

(** The state of the probes after the rounds. *)
Definition after_rounds (rounds : list (string -> ResponseHolder)) (d : MethodProbeDetector) : MethodProbeDetector :=
  foldl (fun d answer => (evm_round base answer d).2) d rounds.

Lemma after_rounds_snoc rounds answer d : after_rounds (rounds ++ [answer]) d = (evm_round base answer (after_rounds rounds d)).2.
Proof using Type. unfold after_rounds. by rewrite foldl_app. Qed.

Lemma evm_rounds_snoc rounds answer d :
  evm_rounds base (rounds ++ [answer]) d = evm_rounds base rounds d ++ [(evm_round base answer (after_rounds rounds d)).1].
Proof using Type.
  revert d. induction rounds as [|a rounds IH]; intros d; simpl.
  - unfold after_rounds. simpl. by destruct (evm_round base answer d).
  - by rewrite IH.
Qed.

Lemma evm_rounds_length rounds d : Forall (fun r => length r = 2%nat) (evm_rounds base rounds d).
Proof using Type.
  revert d. induction rounds as [|a rounds IH]; intros d; simpl; [done|]. unfold evm_round.
  destruct (probe_DetectUnsupported a d). by constructor.
Qed.

Lemma after_rounds_known rounds m :
  let d := after_rounds rounds (NewMethodProbeDetector base) in
  probes d = probes (NewMethodProbeDetector base) /\
  known d !! m = if decide (m ∈ probes d) then last_conclusive rounds m else None.
Proof using Type.
  cbv zeta. unfold after_rounds, last_conclusive. induction rounds as [|answer rounds [IHp IH]] using rev_ind.
  - split; [done|]. simpl. by case_decide.
  - rewrite foldl_snoc, omap_app. set (d := foldl _ _ rounds) in *. unfold evm_round, probe_DetectUnsupported. simpl.
    split; [done|]. rewrite merge_probes_lookup, IH.
    destruct (decide (m ∈ probes d)) as [Hm|Hm]; [rewrite decide_True by (by apply elem_of_elements)|
      by rewrite decide_False by (by rewrite elem_of_elements)].
    destruct (conclusive answer m); simpl; [by rewrite last_snoc|by rewrite app_nil_r].
Qed.

(** The last verdict of each detector. *)
Lemma last_probe_verdict rounds :
  last_answer (evm_rounds base rounds (NewMethodProbeDetector base)) 1 =
    let known := known (after_rounds rounds (NewMethodProbeDetector base)) in
    if bool_decide (known = ∅) then None else Some (not_available known).
Proof using Type.
  unfold last_answer. induction rounds as [|answer rounds IH] using rev_ind; [done|].
  rewrite evm_rounds_snoc, omap_app, after_rounds_snoc.
  set (d := after_rounds rounds _) in *. unfold evm_round, probe_DetectUnsupported. simpl.
  set (k := foldl _ _ _).
  destruct (decide (k = ∅)) as [Hk|Hk]; [rewrite !(bool_decide_eq_true_2 (k = ∅)) by done|rewrite !(bool_decide_eq_false_2 (k = ∅)) by done];
    simpl; [|by rewrite last_snoc]. rewrite app_nil_r, IH. simpl.
  assert (known d = ∅) as ->; [|by rewrite bool_decide_eq_true_2].
  apply map_eq. intros m. rewrite lookup_empty.
  pose proof (merge_probes_lookup answer (elements (probes d)) (known d) m) as Hm. fold k in Hm. rewrite Hk, lookup_empty in Hm.
  destruct (decide _); [by destruct (conclusive answer m)|done].
Qed.

Lemma last_modules_verdict rounds :
  last_answer (evm_rounds base rounds (NewMethodProbeDetector base)) 0 =
    (fun modules => base.filter (fun m => module_missing modules m = true) base) <$> last_modules rounds.
Proof using Type.
  unfold last_answer, last_modules. induction rounds as [|answer rounds IH] using rev_ind; [done|].
  rewrite evm_rounds_snoc, !omap_app. unfold evm_round at 1. destruct (probe_DetectUnsupported _ _) as [p d]. simpl.
  unfold rpc_DetectUnsupported, usable_modules. destruct (detectModules _) as [modules|]; simpl.
  - case_bool_decide; simpl; [by rewrite !app_nil_r|by rewrite !last_snoc].
  - rewrite bool_decide_eq_true_2 by done. by rewrite !app_nil_r.
Qed.
Lemma known_after rounds m :
  known (after_rounds rounds (NewMethodProbeDetector base)) !! m =
    if decide (m ∈ probedMethods /\ m ∈ base) then last_conclusive rounds m else None.
Proof using Type.
  destruct (after_rounds_known rounds m) as [Hp ->]. rewrite Hp.
  by rewrite (decide_ext (m ∈ probes (NewMethodProbeDetector base)) _ _ _ (probed_in base m)).
Qed.

Lemma not_available_after rounds m :
  m ∈ not_available (known (after_rounds rounds (NewMethodProbeDetector base))) <->
  m ∈ base /\ m ∈ probedMethods /\ last_conclusive rounds m = Some MethodNotAvailable.
Proof using Type.
  unfold not_available. rewrite elem_of_dom. split.
  - intros [v (Hv & Hn)%map_lookup_filter_Some]. simpl in Hn. subst v. rewrite known_after in Hv.
    case_decide as Hd; [|done]. by destruct Hd.
  - intros (Hp & Hb & Hl). exists MethodNotAvailable. apply map_lookup_filter_Some. split; [|done].
    rewrite known_after. by rewrite decide_True.
Qed.

Lemma nothing_known rounds :
  known (after_rounds rounds (NewMethodProbeDetector base)) = ∅ <->
  forall m, m ∈ probedMethods -> m ∈ base -> last_conclusive rounds m = None.
Proof using Type.
  split.
  - intros He m Hp Hb. pose proof (known_after rounds m) as Hk. by rewrite He, lookup_empty, decide_True in Hk.
  - intros Hall. apply map_eq. intros m. rewrite known_after, lookup_empty. case_decide as Hd; [by apply Hall; apply Hd|done].
Qed.

Lemma something_known rounds :
  known (after_rounds rounds (NewMethodProbeDetector base)) <> ∅ ->
  exists m, m ∈ probedMethods /\ m ∈ base /\ is_Some (last_conclusive rounds m).
Proof using Type.
  intros (m & v & Hv)%map_choose. exists m. rewrite known_after in Hv. case_decide as Hd; [|done]. destruct Hd.
  split; [done|split; [done|by exists v]].
Qed.

Lemma not_available_empty : not_available ∅ = ∅.
Proof using Type. reflexivity. Qed.

(** What the processor published. *)
Lemma run_evm_published rounds :
  let k := known (after_rounds rounds (NewMethodProbeDetector base)) in
  proc_published (run_evm_detection base rounds) =
    if bool_decide (last_modules rounds = None) && bool_decide (k = ∅) then None
    else Some (default ∅ ((fun modules => base.filter (fun m => module_missing modules m = true) base) <$> last_modules rounds) ∪
           not_available k).
Proof using Type.
  cbv zeta. unfold run_evm_detection.
  rewrite run_detection_published, run_detection_latest_eq by apply evm_rounds_length. simpl seq. cbn [map].
  rewrite last_probe_verdict, last_modules_verdict. cbv zeta. set (k := known _). clearbody k.
  destruct (last_modules rounds) as [modules|]; (destruct (decide (k = ∅)) as [->|Hk];
    [rewrite !(bool_decide_eq_true_2 (∅ = ∅)) by done|rewrite !(bool_decide_eq_false_2 (k = ∅)) by done]); simpl;
    rewrite ?bool_decide_eq_false_2, ?bool_decide_eq_true_2 by done; simpl; unfold merged; cbn [foldl]; try done;
    by rewrite ?not_available_empty, ?(left_id_L ∅ (∪)), ?(right_id_L ∅ (∪)).
Qed.
End Known.

(** C37. Which methods an EVM node is found not to serve, after any rounds of detection
    whatever the node answered or failed to answer in each: exactly the methods of the
    base whose module the last report of modules lacks, and the probed methods of the
    base of which the last conclusive answer said that they are not available; and
    nothing is published as long as the node has neither reported its modules nor
    answered a probe conclusively. *)
Theorem evm_methods_detected `{ModulesJson} base rounds :
  match proc_published (run_evm_detection base rounds) with
  | None => last_modules rounds = None /\ forall m, m ∈ probedMethods -> m ∈ base -> last_conclusive rounds m = None
  | Some s =>
    (is_Some (last_modules rounds) \/ exists m, m ∈ probedMethods /\ m ∈ base /\ is_Some (last_conclusive rounds m)) /\
    forall m, m ∈ s <-> m ∈ base /\
      ((exists modules, last_modules rounds = Some modules /\ module_missing modules m = true) \/
       m ∈ probedMethods /\ last_conclusive rounds m = Some MethodNotAvailable)
  end.
Proof.
  pose proof (run_evm_published base rounds) as Hp. cbv zeta in Hp. rewrite Hp. clear Hp.
  pose proof (nothing_known base rounds) as Hn. pose proof (something_known base rounds) as Hs.
  pose proof (not_available_after base rounds) as Hna. set (k := known _) in *. clearbody k.
  destruct (last_modules rounds) as [modules|]; simpl; [|case_bool_decide as Hk]; simpl.
  - split; [by left; eexists|]. intros m. rewrite elem_of_union, elem_of_filter, Hna. naive_solver.
  - split; [done|by apply Hn].
  - split; [right; by apply Hs|]. intros m. rewrite elem_of_union, elem_of_empty, Hna. naive_solver.
Qed.

Lemma stripped_in_base `{ModulesJson} base rounds s m :
  proc_published (run_evm_detection base rounds) = Some s -> m ∈ s -> m ∈ base.
Proof.
  pose proof (run_evm_published base rounds) as Hp. cbv zeta in Hp. rewrite Hp. destruct (_ && _); [done|].
  intros [= <-] [Hm|Hm%not_available_after]%elem_of_union; [|by destruct Hm].
  destruct (last_modules rounds); [|set_solver]. by apply elem_of_filter in Hm as [_ ?].
Qed.

(** Methods that nodecore serves itself are never found to be missing. *)
Lemma local_never_stripped `{MapRange, ModulesJson} reg methodSpec types rounds s m :
  proc_published (run_evm_detection (detectableMethods reg methodSpec types) rounds) = Some s -> m ∈ s ->
  exists groups method, GetSpecMethodsByConnectors reg methodSpec (detectableConnectorTypes types) = Some groups /\
    defaultMethods groups !! m = Some method /\ local method = false.
Proof.
  intros Hs Hm. pose proof (stripped_in_base (detectableMethods reg methodSpec types) rounds s m Hs Hm) as Hb.
  unfold detectableMethods, DetectableMethods in Hb. destruct (detectableConnectorTypes types) as [|t ts]; [set_solver|].
  destruct (GetSpecMethodsByConnectors _ _ _) as [groups|]; [|set_solver].
  apply elem_of_dom in Hb as [method [Hl Hloc]%map_lookup_filter_Some]. by exists groups, method.
Qed.

(** A probe that is not answered keeps what its last answer said, the others go on. *)
#[local] Instance sample_modules_json : ModulesJson := fun s => if bool_decide (s = "modules") then Some {["eth" := "1.0"]} else None.

Definition sample_answer (missing silent : string) (method : string) : ResponseHolder :=
  if bool_decide (method = "rpc_modules") then WsJsonRpcResponse "1" "modules" None
  else if bool_decide (method = missing) then WsJsonRpcResponse "1" "" (Some (mkResponseError (-32601) "Method not found"))
  else if bool_decide (method = silent) then WsJsonRpcResponse "1" "" (Some (mkResponseError 0 "connection reset by peer"))
  else WsJsonRpcResponse "1" "{}" None.

Example probes_are_kept :
  let base := {["eth_getBlockReceipts"; "eth_simulateV1"; "eth_call"; "trace_block"]} in
  proc_published (run_evm_detection base [sample_answer "eth_simulateV1" ""; sample_answer "eth_getBlockReceipts" "eth_simulateV1"]) =
    Some {["eth_getBlockReceipts"; "eth_simulateV1"; "trace_block"]}.
Proof. vm_compute. reflexivity. Qed.
