(* ===== verification/ClientIp.v ===== *)
(** The client's address: trusted reverse proxies and the [X-Forwarded-For] header
    ([pkg/utils/context.go]). *)

From S2P Require Import Prelude.
From S2P Require Import GoStrings.
From S2P Require Import Errors.
From Stdlib Require Import Ascii.

#[local] Arguments String.append !_ _ /.

(** Go's [net/netip] and [net.SplitHostPort]; a failed parse is [None], with the
    text of its error by [parse_error]. *)
Class Netip := {
  Addr : Type;
  Prefix : Type;
  ParseAddr : string -> option Addr;
  ParseAddrPort : string -> option Addr;
  ParsePrefix : string -> option Prefix;
  parse_error : string -> string;
  Addr_String : Addr -> string;
  Unmap : Addr -> Addr;
  host_prefix : Addr -> Prefix;
  Masked : Prefix -> Prefix;
  Prefix_Contains : Prefix -> Addr -> bool;
  SplitHostPort : string -> option string;
}.

(** The parts of a request this file reads. *)
Record HttpPeer := mkHttpPeer { RemoteAddr : string; xForwardedFor : list string }.

Definition localhostIP : string := "127.0.0.1".

Section ClientIp.
Context `{NI : Netip} `{QU : Quoting}.

Definition trusted_entry (e : string) : string + option Prefix :=
  let e := TrimSpace e in
  if bool_decide (e = "") then inr None
  else if contains_char "/" e then
    match ParsePrefix e with
    | None => inl ("invalid trusted proxy CIDR " +:+ Quote e +:+ ": " +:+ parse_error e)
    | Some p => inr (Some (Masked p))
    end
  else
    match ParseAddr e with
    | None => inl ("invalid trusted proxy IP " +:+ Quote e +:+ ": " +:+ parse_error e)
    | Some addr => inr (Some (host_prefix addr))
    end.

Fixpoint ParseTrustedProxies (entries : list string) : string + list Prefix :=
  match entries with
  | [] => inr []
  | e :: entries =>
    match trusted_entry e with
    | inl err => inl err
    | inr p =>
      match ParseTrustedProxies entries with
      | inl err => inl err
      | inr ps => inr (option_list p ++ ps)
      end
    end
  end.

Definition isTrustedProxy (addr : Addr) (trustedProxies : list Prefix) : bool :=
  existsb (fun p => Prefix_Contains p (Unmap addr)) trustedProxies.

Definition remoteIP (remoteAddr : string) : string :=
  match SplitHostPort remoteAddr with
  | Some host => match ParseAddr host with Some _ => host | None => localhostIP end
  | None => match ParseAddr remoteAddr with Some _ => remoteAddr | None => localhostIP end
  end.

Definition header_ips (value : string) : list string :=
  base.filter (fun ip => ip <> "") (map TrimSpace (split_on "," value)).

Definition forwardedForIPs (values : list string) : list string := concat (map header_ips values).

Definition parseForwardedHop (hop : string) : option Addr :=
  match ParseAddr hop with
  | Some addr => Some addr
  | None => ParseAddrPort hop
  end.

(** The loop over the entries, given from the right. *)
Fixpoint rightmost_untrusted (trustedProxies : list Prefix) (hops : list string) : option string :=
  match hops with
  | [] => None
  | hop :: hops =>
    match parseForwardedHop hop with
    | None => rightmost_untrusted trustedProxies hops
    | Some addr =>
      if isTrustedProxy addr trustedProxies then rightmost_untrusted trustedProxies hops else Some (Addr_String addr)
    end
  end.

Definition trusted_peer (r : HttpPeer) (trustedProxies : list Prefix) : bool :=
  match ParseAddr (remoteIP (RemoteAddr r)) with
  | None => false
  | Some addr => isTrustedProxy addr trustedProxies
  end.

Definition clientIP (r : HttpPeer) (trustedProxies : list Prefix) : string :=
  let peer := remoteIP (RemoteAddr r) in
  if trusted_peer r trustedProxies
  then default peer (rightmost_untrusted trustedProxies (rev (forwardedForIPs (xForwardedFor r))))
  else peer.

(** [ContextWithIps]: the set put into the context. *)
Definition ContextWithIps (r : HttpPeer) (trustedProxies : list Prefix) : gset string :=
  if bool_decide (length trustedProxies = 0%nat) then
    let ips := list_to_set (forwardedForIPs (xForwardedFor r)) in
    if bool_decide (ips = ∅) then {[ remoteIP (RemoteAddr r) ]} else ips
  else {[ clientIP r trustedProxies ]}.

(** ** Which entries decide *)

Definition untrusted_hop (trustedProxies : list Prefix) (hop : string) (addr : Addr) : Prop :=
  parseForwardedHop hop = Some addr /\ isTrustedProxy addr trustedProxies = false.

Lemma rightmost_untrusted_app ps l l' ip :
  rightmost_untrusted ps l = Some ip -> rightmost_untrusted ps (l ++ l') = Some ip.
Proof using Type.
  induction l as [|h l IH]; simpl; [done|]. destruct (parseForwardedHop h); [|done].
  by destruct (isTrustedProxy _ ps).
Qed.

Lemma rightmost_untrusted_some ps l hop addr :
  hop ∈ l -> untrusted_hop ps hop addr ->
  exists hop' addr', hop' ∈ l /\ untrusted_hop ps hop' addr' /\ rightmost_untrusted ps l = Some (Addr_String addr').
Proof using Type.
  intros Hin [Hp Ht]. induction l as [|h l IH]; [by apply elem_of_nil in Hin|]. simpl.
  destruct (parseForwardedHop h) as [a|] eqn:Eh.
  - destruct (isTrustedProxy a ps) eqn:Ea; [|exists h, a; split_and!; [by left|done..]].
    apply elem_of_cons in Hin as [-> |Hin]; [congruence|].
    destruct (IH Hin) as (h' & a' & ? & ? & ->). exists h', a'. split_and!; [by right|done..].
  - apply elem_of_cons in Hin as [-> |Hin]; [congruence|].
    destruct (IH Hin) as (h' & a' & ? & ? & ->). exists h', a'. split_and!; [by right|done..].
Qed.

Lemma split_on_comma c a b : split_on c (a +:+ String c b) = split_on c a ++ split_on c b.
Proof using Type.
  induction a as [|x a IH]; simpl; [by rewrite bool_decide_eq_true_2|].
  case_bool_decide; rewrite IH; [done|].
  destruct (split_on c a) eqn:E; [by apply split_on_nonempty in E|done].
Qed.

Lemma forwarded_appended evil e real more :
  forwardedForIPs (evil ++ (e +:+ String "," real) :: more) =
  (forwardedForIPs evil ++ header_ips e) ++ forwardedForIPs (real :: more).
Proof using Type.
  unfold forwardedForIPs. rewrite map_app, concat_app. cbn [map concat].
  assert (header_ips (e +:+ String "," real) = header_ips e ++ header_ips real) as ->.
  { unfold header_ips. by rewrite split_on_comma, map_app, filter_app. }
  by rewrite <- !app_assoc.
Qed.
End ClientIp.

(** C20. With trusted proxies configured, a client cannot choose the address it is
    taken for: whatever it puts into the [X-Forwarded-For] header before the
    proxies append their part, in header lines of its own and at the start of the
    line they append to, the one address of the request stays the same.  It is the
    direct peer when that is no trusted proxy, and otherwise an address the
    proxies appended that is not one of theirs. *)
Theorem client_ip_not_spoofable `{Netip} proxies r r' evil evil' e e' real more :
  proxies <> [] -> RemoteAddr r = RemoteAddr r' ->
  xForwardedFor r = evil ++ (e +:+ String "," real) :: more ->
  xForwardedFor r' = evil' ++ (e' +:+ String "," real) :: more ->
  (exists hop addr, hop ∈ forwardedForIPs (real :: more) /\ untrusted_hop proxies hop addr) ->
  exists ip, ContextWithIps r proxies = {[ip]} /\ ContextWithIps r' proxies = {[ip]} /\
    if trusted_peer r proxies
    then exists hop addr, hop ∈ forwardedForIPs (real :: more) /\ untrusted_hop proxies hop addr /\ ip = Addr_String addr
    else ip = remoteIP (RemoteAddr r).
Proof.
  intros Hp Hr Hx Hx' (hop & addr & Hin & Hu).
  assert (forall q, ContextWithIps q proxies = {[clientIP q proxies]}) as Hc.
  { intros q. unfold ContextWithIps. rewrite bool_decide_eq_false_2; [done|]. by destruct proxies. }
  assert (trusted_peer r' proxies = trusted_peer r proxies) as Ht by (unfold trusted_peer; by rewrite Hr).
  rewrite !Hc. unfold clientIP. rewrite Ht, <- Hr. destruct (trusted_peer r proxies); [|by eexists].
  apply list_elem_of_In, in_rev, list_elem_of_In in Hin.
  destruct (rightmost_untrusted_some proxies _ hop addr Hin Hu) as (hop' & addr' & Hin' & Hu' & E).
  exists (Addr_String addr'). rewrite Hx, Hx', !forwarded_appended, !rev_app_distr.
  rewrite !(rightmost_untrusted_app _ _ _ _ E). split_and!; [done..|]. exists hop', addr'. split; [|done].
  by apply list_elem_of_In, in_rev, list_elem_of_In.
Qed.

(** Addresses are their text, and those that start with 10 are trusted. *)
#[local] Instance demo_netip : Netip := {|
  Addr := string;
  Prefix := string;
  ParseAddr s := Some s;
  ParseAddrPort s := Some s;
  ParsePrefix s := Some s;
  parse_error s := "";
  Addr_String a := a;
  Unmap a := a;
  host_prefix a := a;
  Masked p := p;
  Prefix_Contains p a := HasPrefix a p;
  SplitHostPort s := None;
|}.

Lemma client_ip_not_spoofable_witness :
  exists ip, ContextWithIps (NI := demo_netip) (mkHttpPeer "10.0.0.1" ["1.1.1.1,7.7.7.7, 10.0.0.2"]) ["10."] = {[ip]} /\
             ContextWithIps (NI := demo_netip) (mkHttpPeer "10.0.0.1" ["6.6.6.6"; "8.8.8.8,7.7.7.7, 10.0.0.2"]) ["10."] = {[ip]}.
Proof.
  destruct (client_ip_not_spoofable (H := demo_netip) ["10."] (mkHttpPeer "10.0.0.1" ["1.1.1.1,7.7.7.7, 10.0.0.2"])
    (mkHttpPeer "10.0.0.1" ["6.6.6.6"; "8.8.8.8,7.7.7.7, 10.0.0.2"]) [] ["6.6.6.6"] "1.1.1.1" "8.8.8.8"
    "7.7.7.7, 10.0.0.2" []) as (ip & H1 & H2 & _); try reflexivity; [discriminate| |exists ip; split; assumption].
  exists "7.7.7.7", "7.7.7.7". split; [|split; reflexivity]. vm_compute. left.
Defined.
