(* ===== verification/Cache.v ===== *)
(** Response caching: which responses a policy may store and serve, the policies'
    configuration, the in-memory connector, and the processor that asks every
    policy ([internal/caches/cache_policies.go], [cache.go],
    [cache_processor.go]). *)

From S2P Require Import Prelude.
From S2P Require Import GoStrings.
From S2P Require Import Protocol.
From S2P Require Import Specs.
From S2P Require Import Methods.
From S2P Require Import ChainState.
From Stdlib Require Import Ascii.

(** ** What the code takes from its libraries *)

(** [path.Match], an error counting as no match. *)
Class Globs := path_Match : string -> string -> bool.

(** The block tags go-ethereum's [rpc.BlockNumber] sets apart. *)
Class BlockTags := block_tags : list Z.

(** The table of configured chains: the name, the id and the type of each. *)
Class ChainTable := {
  chain_of : string -> option Z;
  chain_String : Z -> string;
  chain_type : Z -> string;
  valid_type : string -> bool;
}.

(** ** Requests *)

Record CacheRequest := mkCacheRequest {
  cr_method : string;
  cr_spec : option Method;
  cr_params : MethodParam;
  cr_hash : string;
}.

Definition IsBlockTagNumber `{BlockTags} (num : Z) : bool := bool_decide (num ∈ block_tags).

(** ** Policies *)

Inductive finalizationType := Finalized | NoFinalization.

#[export] Instance finalizationType_eq_dec : EqDecision finalizationType.
Proof. solve_decision. Defined.

(** A missing set of chains or types ([None]) matches nothing, an empty one
    everything; an empty set of methods matches everything. *)
Record CachePolicy := mkCachePolicy {
  policy_id : string;
  policy_chains : option (gset Z);
  policy_types : option (gset string);
  policy_methods : gset string;
  cacheEmpty : bool;
  maxSizeBytes : Z;
  ttl : Z;
  policy_finalization : finalizationType;
}.

(** The first one is the string 0x with its quotes (the character 34). *)
Definition EmptyResponses : list string :=
  [String "034" ("0x" +:+ String "034" ""); "null"; "{}"; "[]"].

Definition maxSizeInBytes (maxSizeStr : string) : Z :=
  let '(multiplier, maxSize) :=
    match strip_suffix "MB" maxSizeStr with
    | Some s => (1024 * 1024, s)
    | None => match strip_suffix "KB" maxSizeStr with Some s => (1024, s) | None => (1024, "") end
    end in
  if bool_decide (maxSize = "") then multiplier
  else match Atoi (TrimSpace maxSize) with
       | None => multiplier
       | Some n => i64 (n * multiplier)
       end.

Definition config_items (config : string) : list string :=
  map TrimSpace (split_on "|" config).

Definition getCacheChains `{ChainTable} (chainConfig : string) : option (gset Z) :=
  if bool_decide (chainConfig = "*") || bool_decide (chainConfig = "") then Some ∅
  else
    let chains := list_to_set (omap chain_of (config_items chainConfig)) in
    if bool_decide (chains = ∅) then None else Some chains.

Definition getCacheBlockchainTypes `{ChainTable} (typeConfig : string) : option (gset string) :=
  if bool_decide (typeConfig = "*") || bool_decide (typeConfig = "") then Some ∅
  else
    let types := list_to_set (filter (fun t => valid_type t = true) (config_items typeConfig)) in
    if bool_decide (types = ∅) then None else Some types.

Definition getCacheMethods (methodConfig : string) : gset string :=
  if bool_decide (methodConfig = "*") then ∅ else list_to_set (config_items methodConfig).

Definition getCacheKey `{ChainTable} (chain : Z) (requestHash : string) : string :=
  chain_String chain +:+ "_" +:+ requestHash.

Section Policy.
Context `{GL : Globs} `{CT : ChainTable} `{BT : BlockTags}.

(** The states of the chains, as the upstream supervisor gives them. *)
Context (supervisor : Z -> option ChainSupervisorState).

Definition methodMatched (c : CachePolicy) (req : CacheRequest) : bool :=
  existsb (fun method =>
    if contains_char "*" method then path_Match method (cr_method req)
    else bool_decide (method = cr_method req)) (elements (policy_methods c)).

Definition chainNotMatched (c : CachePolicy) (chain : Z) : bool :=
  match policy_chains c with
  | None => true
  | Some chains => negb (bool_decide (chains = ∅)) && negb (bool_decide (chain ∈ chains))
  end.

Definition blockchainTypeNotMatched (c : CachePolicy) (chain : Z) : bool :=
  match policy_types c with
  | None => true
  | Some types => negb (bool_decide (types = ∅)) && negb (bool_decide (chain_type chain ∈ types))
  end.

(** The height the chain has finalized, when it is known. *)
Definition finalized_height (state : ChainSupervisorState) : option Z :=
  match cs_Blocks state !! FinalizedBlock with
  | Some b => if IsEmptyByHeight b then None else Some (Height b)
  | None => None
  end.

Definition is_tag (n : option Z) : bool :=
  match n with Some n => IsBlockTagNumber n | None => false end.

Definition isMethodCacheable (c : CachePolicy) (chain : Z) (req : CacheRequest) : bool :=
  match supervisor chain, cr_spec req with
  | Some state, Some method =>
    if negb (cacheable method) then false
    else
      match cr_params req with
      | BlockNumberParam number =>
        if IsBlockTagNumber number then false
        else if bool_decide (policy_finalization c = Finalized) then
          match finalized_height state with
          | None => false
          | Some height => negb (height <? u64 number)
          end
        else true
      | BlockRangeParam from to =>
        if is_tag from then false
        else if is_tag to then false
        else if bool_decide (policy_finalization c = Finalized) then
          match finalized_height state with
          | None => false
          | Some height =>
            match from, to with
            | Some from, Some to => negb (height <? u64 (Z.max from to))
            | None, Some to => negb (height <? u64 to)
            | _, None => false
            end
          end
        else true
      | _ => true
      end
  | _, _ => false
  end.

Definition baseCacheableCheck (c : CachePolicy) (chain : Z) (req : CacheRequest) : bool :=
  if negb (isMethodCacheable c chain req) then false
  else if chainNotMatched c chain then false
  else if blockchainTypeNotMatched c chain then false
  else if negb (bool_decide (policy_methods c = ∅)) then methodMatched c req
  else true.
End Policy.

(** ** Connectors *)

(** A connector over a store [W]; a failed operation is [false] or [None]. *)
Class CacheConnector (W : Type) := {
  connector_Store : Z -> string -> string -> Z -> W -> bool * W;
  connector_Receive : string -> W -> option string * W;
}.

Section Operations.
Context `{GL : Globs} `{CT : ChainTable} `{BT : BlockTags} {W : Type} `{CC : CacheConnector W}.
Context (supervisor : Z -> option ChainSupervisorState).

Definition storable (c : CachePolicy) (response : string) : bool :=
  negb (maxSizeBytes c <? Z.of_nat (String.length response)) &&
  (cacheEmpty c || negb (bool_decide (response ∈ EmptyResponses))).

Definition policy_Store (c : CachePolicy) (now chain : Z) (req : CacheRequest) (response : string) (w : W)
    : bool * W :=
  if negb (baseCacheableCheck supervisor c chain req) then (false, w)
  else if negb (storable c response) then (false, w)
  else connector_Store now (getCacheKey chain (cr_hash req)) response (ttl c) w.

Definition policy_Receive (c : CachePolicy) (chain : Z) (req : CacheRequest) (w : W) : option string * W :=
  if negb (baseCacheableCheck supervisor c chain req) then (None, w)
  else
    match connector_Receive (getCacheKey chain (cr_hash req)) w with
    | (Some object, w) => (if bool_decide (object = "") then None else Some object, w)
    | (None, w) => (None, w)
    end.

End Operations.

(** [GenericCacheProcessor.Store]: every policy with its connector, over the
    stores of all of them. *)
Definition processor_Store `{Globs} `{ChainTable} `{BlockTags} {W : Type}
    (supervisor : Z -> option ChainSupervisorState) (policies : list (CachePolicy * CacheConnector W))
    (now chain : Z) (req : CacheRequest) (response : string) (w : W) : W :=
  foldl (fun w p => (policy_Store (CC := p.2) supervisor p.1 now chain req response w).2) w policies.

(** ** The in-memory connector *)

Record cacheItem := mkCacheItem { item_object : string; item_expireAt : option Z }.

(** The LRU cache of [hashicorp/golang-lru]: the least recently used items may be
    gone at any addition. *)
Class LruLib := {
  Lru : Type;
  lru_New : Lru;
  lru_Add : string -> cacheItem -> Lru -> Lru;
  lru_Get : string -> Lru -> option cacheItem * Lru;
  lru_Peek : string -> Lru -> option cacheItem;
  lru_Remove : string -> Lru -> Lru;
  lru_Keys : Lru -> list string;
}.

Class LruLaws `{LruLib} : Prop := {
  lru_Peek_New : forall k, lru_Peek k lru_New = None;
  lru_Peek_Add : forall k x c, lru_Peek k (lru_Add k x c) = Some x;
  lru_Peek_Add_ne : forall k k' x y c, k <> k' ->
    lru_Peek k (lru_Add k' x c) = Some y -> lru_Peek k c = Some y;
  lru_Get_Peek : forall k c, (lru_Get k c).1 = lru_Peek k c;
  lru_Peek_Get : forall k k' c, lru_Peek k (lru_Get k' c).2 = lru_Peek k c;
  lru_Peek_Remove : forall k k' c,
    lru_Peek k (lru_Remove k' c) = if bool_decide (k = k') then None else lru_Peek k c;
}.

#[export] Instance InMemoryConnector `{LruLib} : CacheConnector Lru := {
  connector_Store now key object ttl c :=
    (true, lru_Add key (mkCacheItem object (if 0 <? ttl then Some (now + ttl) else None)) c);
  connector_Receive key c :=
    let '(item, c) := lru_Get key c in (item_object <$> item, c);
}.

(** One round of [removeExpired]; [now] is the time a key is looked at. *)
Definition removeExpired `{LruLib} (now : string -> Z) (c : Lru) : Lru :=
  foldl (fun c key =>
    match lru_Peek key c with
    | Some (mkCacheItem _ (Some expireAt)) => if expireAt <? now key then lru_Remove key c else c
    | _ => c
    end) c (lru_Keys c).

(** ** What the cache serves *)

(** A response that a policy stored. *)
Record Stored := mkStored {
  st_policy : CachePolicy;
  st_chain : Z;
  st_request : CacheRequest;
  st_response : string;
}.

Section Serves.
Context `{GL : Globs} `{CT : ChainTable} `{BT : BlockTags} `{LL : LruLaws}.

(** The store after any stores, lookups and clean-ups of any policies, at any
    states of the chains, with the log of what was stored. *)
Inductive cache_reach : list Stored -> Lru -> Prop :=
| reach_new : cache_reach [] lru_New
| reach_store log w sup c now chain req response :
    cache_reach log w ->
    cache_reach
      (if (policy_Store sup c now chain req response w).1 then mkStored c chain req response :: log else log)
      (policy_Store sup c now chain req response w).2
| reach_receive log w sup c chain req :
    cache_reach log w -> cache_reach log (policy_Receive sup c chain req w).2
| reach_sweep log w now : cache_reach log w -> cache_reach log (removeExpired now w).

Definition stored_ok (e : Stored) : Prop :=
  storable (st_policy e) (st_response e) = true /\
  exists sup, baseCacheableCheck sup (st_policy e) (st_chain e) (st_request e) = true.

Definition logged (log : list Stored) (w : Lru) : Prop :=
  forall k item, lru_Peek k w = Some item ->
    exists e, e ∈ log /\ stored_ok e /\ item_object item = st_response e /\
      k = getCacheKey (st_chain e) (cr_hash (st_request e)).

Lemma logged_sweep log now w : logged log w -> logged log (removeExpired now w).
Proof using LL.
  unfold removeExpired. revert w. generalize (lru_Keys). intros keys w. generalize (keys w). intros ks.
  revert w. induction ks as [|key ks IH]; intros w Hl; [done|]. simpl. apply IH.
  destruct (lru_Peek key w) as [[obj [t|]]|]; [|done..]. destruct (t <? now key); [|done].
  intros k item. rewrite lru_Peek_Remove. case_bool_decide; [done|]. apply Hl.
Qed.

Lemma logged_get log k w : logged log w -> logged log (lru_Get k w).2.
Proof using LL. intros Hl k' item. rewrite lru_Peek_Get. apply Hl. Qed.

Lemma policy_Receive_store sup c chain req w :
  (policy_Receive sup c chain req w).2 = w \/
  (policy_Receive sup c chain req w).2 = (lru_Get (getCacheKey chain (cr_hash req)) w).2.
Proof using Type.
  unfold policy_Receive. destruct (negb _); [by left|right]. simpl.
  destruct (lru_Get _ w) as [[item|] w']; done.
Qed.

Lemma cache_reach_logged log w : cache_reach log w -> logged log w.
Proof using LL.
  induction 1 as [|log w sup c now chain req response _ IH|log w sup c chain req _ IH|log w now _ IH].
  - intros k item. by rewrite lru_Peek_New.
  - unfold policy_Store. destruct (baseCacheableCheck sup c chain req) eqn:Hb; [|done].
    destruct (storable c response) eqn:Hs; [|done]. simpl. intros k item Hk.
    destruct (decide (k = getCacheKey chain (cr_hash req))) as [->|Hne].
    + rewrite lru_Peek_Add in Hk. injection Hk as <-. exists (mkStored c chain req response).
      split; [by left|]. split; [|done]. split; [done|by exists sup].
    + apply lru_Peek_Add_ne in Hk; [|done]. destruct (IH _ _ Hk) as (e & He & ?). exists e. split; [by right|done].
  - destruct (policy_Receive_store sup c chain req w) as [-> | ->]; [done|by apply logged_get].
  - by apply logged_sweep.
Qed.

Lemma getCacheKey_inj chain chain' hash hash' :
  (forall x y, chain_String x = chain_String y -> x = y) ->
  contains_char "_" hash = false -> contains_char "_" hash' = false ->
  getCacheKey chain hash = getCacheKey chain' hash' -> chain = chain' /\ hash = hash'.
Proof using Type.
  intros Hinj Hh Hh' E. unfold getCacheKey in E. apply (f_equal (cut_last "_")) in E.
  change ("_" +:+ ?s) with (String "_" s) in E. rewrite !cut_last_app in E by done.
  injection E as E ->. by apply Hinj in E.
Qed.
End Serves.

(** C12. The cache serves a request only what was stored for the same chain and a
    request with the same hash, by a policy that allowed it: within the size
    limit of that policy and, unless the policy caches them, no empty response.
    Stores, lookups and clean-ups of any policies may come in between. *)
Theorem cache_serves_stored `{Globs} `{ChainTable} `{BlockTags} `{LruLaws} log w sup c chain req object w' :
  (forall x y, chain_String x = chain_String y -> x = y) ->
  (forall e, e ∈ log -> contains_char "_" (cr_hash (st_request e)) = false) ->
  contains_char "_" (cr_hash req) = false ->
  cache_reach log w -> policy_Receive sup c chain req w = (Some object, w') ->
  exists e, e ∈ log /\ stored_ok e /\ st_chain e = chain /\ cr_hash (st_request e) = cr_hash req /\
    st_response e = object /\ object <> "".
Proof.
  intros Hinj Hlog Hreq Hr Hrec. apply cache_reach_logged in Hr. unfold policy_Receive in Hrec.
  destruct (baseCacheableCheck sup c chain req); [|done]. simpl in Hrec.
  pose proof (lru_Get_Peek (getCacheKey chain (cr_hash req)) w) as Hg.
  destruct (lru_Get (getCacheKey chain (cr_hash req)) w) as [item w1]. simpl in Hg, Hrec. subst item.
  destruct (lru_Peek (getCacheKey chain (cr_hash req)) w) as [item|] eqn:Hp; [|done]. simpl in Hrec.
  case_bool_decide as Hne; [done|]. injection Hrec as <- <-.
  destruct (Hr _ _ Hp) as (e & He & Hok & Hobj & Hk). exists e.
  apply getCacheKey_inj in Hk as [-> ->]; [|done|done|by apply Hlog]. done.
Qed.

(** Block numbers are 64-bit integers. *)
Definition param_wf (p : MethodParam) : Prop :=
  match p with
  | BlockNumberParam n => is_i64 n
  | BlockRangeParam from to => forall x, from = Some x \/ to = Some x -> is_i64 x
  | _ => True
  end.

(** Under a policy for finalized data, a request about blocks is cacheable
    only when the finalized height of its chain is known and every block number
    it names is not a tag and not above that height; a range without an upper
    end is never cacheable. *)
Theorem finalized_policy_caches_final `{Globs} `{ChainTable} `{BlockTags} sup c chain req :
  param_wf (cr_params req) -> policy_finalization c = Finalized -> baseCacheableCheck sup c chain req = true ->
  match cr_params req with
  | BlockNumberParam n =>
    IsBlockTagNumber n = false /\
    exists state h, sup chain = Some state /\ finalized_height state = Some h /\ u64 n <= h
  | BlockRangeParam from to =>
    is_Some to /\
    exists state h, sup chain = Some state /\ finalized_height state = Some h /\
      forall x, from = Some x \/ to = Some x ->
        IsBlockTagNumber x = false /\ (0 <= x -> x <= h)
  | _ => True
  end.
Proof.
  intros Hwf Hf Hb. unfold baseCacheableCheck in Hb. destruct (isMethodCacheable sup c chain req) eqn:Hm; [clear Hb|done].
  unfold isMethodCacheable in Hm. destruct (sup chain) as [state|]; [|done].
  destruct (cr_spec req) as [method|]; [|done]. destruct (negb (cacheable method)); [done|].
  rewrite (bool_decide_eq_true_2 (policy_finalization c = Finalized)) in Hm by done.
  destruct (cr_params req) as [|n|from to| |]; try done.
  - destruct (IsBlockTagNumber n); [done|]. split; [done|]. destruct (finalized_height state) as [h|] eqn:Hh; [|done].
    exists state, h. reflect_bool. split_and!; [done|done|lia].
  - destruct (is_tag from) eqn:Ef; [done|]. destruct (is_tag to) eqn:Et; [done|].
    destruct (finalized_height state) as [h|] eqn:Hh; [|by destruct from, to].
    destruct to as [to|]; [|by destruct from]. split; [done|]. exists state, h. split_and!; [done|done|].
    assert (forall m, 0 <= m -> is_i64 m -> (h <? u64 m) = false -> m <= h) as Hle.
    { intros m Hm0 Hm1 Hm'. rewrite u64_id in Hm' by (unfold is_u64, is_i64, two63, two64 in *; lia). reflect_bool. lia. }
    assert (is_i64 to) as Hto by (apply Hwf; auto).
    intros x [->|[= <-]]; (split; [done|]); intros Hx.
    + pose proof (Hwf x (or_introl eq_refl)) as Hxi. apply negb_true_iff in Hm. etrans; [apply (Z.le_max_l x to)|].
      apply Hle; [lia| |done]. destruct (Z.max_spec x to) as [[_ ->]|[_ ->]]; done.
    + destruct from as [from|]; apply negb_true_iff in Hm; [|by apply Hle].
      pose proof (Hwf from (or_introl eq_refl)) as Hfi. etrans; [apply (Z.le_max_r from to)|].
      apply Hle; [lia| |done]. destruct (Z.max_spec from to) as [[_ ->]|[_ ->]]; done.
Qed.

(** ** Examples *)

#[local] Instance demo_globs : Globs := fun _ _ => false.
#[local] Instance demo_tags : BlockTags := [-1; -2; -3; -4; -5].
#[local] Instance demo_chains : ChainTable := {
  chain_of name := if bool_decide (name = "ethereum") then Some 1 else None;
  chain_String c := pretty c;
  chain_type _ := "eth";
  valid_type t := bool_decide (t = "eth");
}.

(** An LRU cache that never evicts. *)
#[local] Instance demo_lru : LruLib := {
  Lru := gmap string cacheItem;
  lru_New := ∅;
  lru_Add k x c := <[k := x]> c;
  lru_Get k c := (c !! k, c);
  lru_Peek k c := c !! k;
  lru_Remove k c := delete k c;
  lru_Keys c := (map_to_list c).*1;
}.
#[local] Instance demo_lru_laws : LruLaws.
Proof.
  split; simpl.
  - intros k. by rewrite lookup_empty.
  - intros k x c. by rewrite lookup_insert_eq.
  - intros k k' x y c Hne. by rewrite lookup_insert_ne.
  - done.
  - done.
  - intros k k' c. case_bool_decide as E; [by rewrite E, lookup_delete_eq|by rewrite lookup_delete_ne].
Qed.

Definition demo_policy (f : finalizationType) : CachePolicy :=
  mkCachePolicy "p" (Some ∅) (Some ∅) ∅ false 1024 30 f.

Definition demo_chain (finalized : gmap BlockType Block) : Z -> option ChainSupervisorState :=
  fun _ => Some (mkChainState Available (NewChainHeadData ZeroBlock "") (NewChainMethods []) finalized ∅ [] ∅ ∅).

Definition demo_request (p : MethodParam) : CacheRequest :=
  mkCacheRequest "eth_getBlockByNumber" (Some demo_call) p "ab12".

Definition demo_final : Z -> option ChainSupervisorState := demo_chain {[ FinalizedBlock := NewBlockWithHeight 100 ]}.

Lemma finalized_policy_caches_final_witness :
  baseCacheableCheck demo_final (demo_policy Finalized) 1 (demo_request (BlockNumberParam 90)) = true /\
  baseCacheableCheck demo_final (demo_policy Finalized) 1 (demo_request (BlockNumberParam 101)) = false /\
  IsBlockTagNumber 90 = false.
Proof.
  split; [by vm_compute|]. split; [by vm_compute|].
  pose proof (finalized_policy_caches_final demo_final (demo_policy Finalized) 1
    (demo_request (BlockNumberParam 90))) as Hw.
  exact (proj1 (Hw ltac:(done) eq_refl ltac:(by vm_compute))).
Defined.

Lemma demo_names_inj (x y : Z) : chain_String x = chain_String y -> x = y.
Proof. apply (inj (pretty (A := Z))). Qed.

(** A response is stored and served to the same request. *)
Lemma cache_serves_stored_witness :
  let req := demo_request (BlockNumberParam 90) in
  let w := (policy_Store demo_final (demo_policy Finalized) 0 1 req "[1]" lru_New).2 in
  (policy_Receive demo_final (demo_policy Finalized) 1 req w).1 = Some "[1]" /\ "[1]" <> "".
Proof.
  intros req w. split; [by vm_compute|].
  destruct (cache_serves_stored [mkStored (demo_policy Finalized) 1 req "[1]"] w demo_final
    (demo_policy Finalized) 1 req "[1]" w demo_names_inj) as (e & _ & _ & _ & _ & _ & Hne); [| | | |done].
  - intros e ->%list_elem_of_singleton. done.
  - done.
  - exact (reach_store [] lru_New demo_final (demo_policy Finalized) 0 1 req "[1]" reach_new).
  - by vm_compute.
Defined.

(** What a policy for finalized data still caches, and what any policy caches
    that follows the head: a request that names no block is cacheable although
    no finalized height is known, and without the finality check a range that
    has no upper end (which means the latest block) is cacheable although one
    that names the tag is not. *)
Theorem cacheable_without_finality `{Globs} `{ChainTable} `{BlockTags} sup c chain state name method params hash :
  sup chain = Some state -> finalized_height state = None -> cacheable method = true ->
  (params = NoParam \/ (exists h, params = HashTagParam h) \/ (exists v, params = StringParam v)) ->
  isMethodCacheable sup c chain (mkCacheRequest name (Some method) params hash) = true /\
  forall from tag, IsBlockTagNumber from = false -> IsBlockTagNumber tag = true ->
    policy_finalization c = NoFinalization ->
    isMethodCacheable sup c chain (mkCacheRequest name (Some method) (BlockRangeParam (Some from) None) hash) = true /\
    isMethodCacheable sup c chain (mkCacheRequest name (Some method) (BlockRangeParam (Some from) (Some tag)) hash) = false.
Proof.
  intros Hs Hf Hc Hp. unfold isMethodCacheable. cbn [cr_spec cr_params]. rewrite Hs, Hc. cbn [negb]. split.
  - by destruct Hp as [->|[[h ->]|[v ->]]].
  - intros from tag Hfrom Htag Hfin. cbn [is_tag]. rewrite Hfrom, Htag, Hfin.
    by rewrite bool_decide_eq_false_2.
Qed.

Lemma cacheable_without_finality_witness :
  isMethodCacheable (demo_chain ∅) (demo_policy Finalized) 1 (demo_request NoParam) = true.
Proof.
  apply (cacheable_without_finality (demo_chain ∅) (demo_policy Finalized) 1 _ "eth_getBlockByNumber" demo_call
    NoParam "ab12" eq_refl); [done|done|by left].
Defined.
