(* ===== verification/AppConfig.v ===== *)
(** The configuration of the application beside the upstreams: servers, storages,
    cache, authentication, statistics, integrations and rate-limit budgets, with
    the defaults and the validation of the whole ([internal/config/config.go],
    [config_validations.go], [defaults.go], [server_config.go],
    [storages_config.go], [cache_config.go], [auth_config.go],
    [stats_config.go], [integration_config.go], [ratelimit_config.go]); and the
    registries of storages and of budgets that the start of the program makes of it
    ([internal/storages], [internal/ratelimiter/budget_registry.go]). *)

From S2P Require Import Prelude.
From S2P Require Import GoStrings.
From S2P Require Import Errors.
From S2P Require Import ClientIp.
From S2P Require Import Specs.
From S2P Require Import Methods.
From S2P Require Import RateLimiter.
From S2P Require Import SelectorKeys.
From S2P Require Import Cache.
From S2P Require Import Config.
From Stdlib Require Import Ascii.

(** ** Records *)

Record TlsConfig := mkTls { tls_Enabled : bool; tls_Certificate : string; tls_Key : string; tls_Ca : string }.

Record PyroscopeConfig := mkPyroscope {
  py_Enabled : bool;
  py_Url : string;
  py_Username : string;
  py_Password : string;
  py_AdditionalTags : gmap string string;
}.

Record GrpcAuthConfig := mkGrpcAuth {
  ga_Enabled : bool;
  ga_PublicKeyOwner : string;
  ga_ProviderPrivateKeyPath : string;
  ga_ExternalPublicKeyPath : string;
  ga_SessionTTL : Z;
}.

(** [trustedProxyPrefixes], parsed by the validation, is not a member. *)
Record ServerConfig := mkServerConfig {
  sv_Port : Z;
  sv_GrpcPort : Z;
  sv_MetricsPort : Z;
  sv_PprofPort : Z;
  sv_HealthPort : Z;
  sv_Tls : option TlsConfig;
  sv_Pyroscope : option PyroscopeConfig;
  sv_GrpcAuth : option GrpcAuthConfig;
  sv_TorUrl : string;
  sv_TrustedProxies : list string;
}.

Record RedisTimeouts := mkRedisTimeouts {
  to_Connect : option Z;
  to_Read : option Z;
  to_Write : option Z;
}.

Record RedisPool := mkRedisPool {
  pool_Size : Z;
  pool_Timeout : option Z;
  pool_MinIdleConns : Z;
  pool_MaxIdleConns : Z;
  pool_MaxActiveConns : Z;
  pool_ConnMaxIdleTime : option Z;
  pool_ConnMaxLifeTime : option Z;
}.

Record RedisStorageConfig := mkRedisStorage {
  rs_FullUrl : string;
  rs_Address : string;
  rs_Username : string;
  rs_Password : string;
  rs_DB : option Z;
  rs_Timeouts : option RedisTimeouts;
  rs_Pool : option RedisPool;
}.

(** [as_Postgres] is the URL. *)
Record AppStorageConfig := mkAppStorage {
  as_Name : string;
  as_Redis : option RedisStorageConfig;
  as_Postgres : option string;
}.

Record MemoryCacheConfig := mkMemoryCache { mem_MaxItems : Z; mem_ExpiredRemoveInterval : Z }.

Record PostgresCacheConfig := mkPostgresCache {
  pg_StorageName : string;
  pg_QueryTimeout : option Z;
  pg_CacheTable : string;
  pg_ExpiredRemoveInterval : Z;
}.

(** [cc_Redis] is the name of the storage. *)
Record CacheConnectorConfig := mkCacheConnectorConfig {
  cc_Id : string;
  cc_Driver : string;
  cc_Redis : option string;
  cc_Memory : option MemoryCacheConfig;
  cc_Postgres : option PostgresCacheConfig;
}.

Record CachePolicyConfig := mkCachePolicyConfig {
  cp_Id : string;
  cp_Chain : string;
  cp_BlockchainType : string;
  cp_Method : string;
  cp_FinalizationType : string;
  cp_CacheEmpty : bool;
  cp_Connector : string;
  cp_ObjectMaxSize : string;
  cp_TTL : string;
}.

Record CacheConfig := mkCacheConfig {
  ca_ReceiveTimeout : Z;
  ca_Connectors : list CacheConnectorConfig;
  ca_Policies : list CachePolicyConfig;
}.

Record DrpcIntegrationConfig := mkDrpcIntegration { dr_Url : string; dr_RequestTimeout : Z }.

Record StatsConfig := mkStatsConfig {
  ss_Enabled : bool;
  ss_StorageType : string;
  ss_Type : string;
  ss_FlushInterval : Z;
}.

Record KeySettingsConfig := mkKeySettings {
  ks_AllowedIps : list string;
  ks_Methods : option (list string * list string);
  ks_Contracts : option (list string);
  ks_CorsOrigins : list string;
}.

Record LocalKeyConfig := mkLocalKeyConfig { lk_Key : string; lk_Settings : option KeySettingsConfig }.

(** The owner's id and API token. *)
Record DrpcOwnerConfig := mkDrpcOwner { ow_Id : string; ow_ApiToken : string }.

Record KeyConfig := mkKeyConfig {
  kc_Id : string;
  kc_Type : string;
  kc_Local : option LocalKeyConfig;
  kc_Drpc : option (option DrpcOwnerConfig);
}.

Record JwtConfig := mkJwtConfig { jwt_PublicKey : string; jwt_AllowedIssuer : string; jwt_ExpirationRequired : bool }.

(** [rq_Token] is the value of the token. *)
Record RequestStrategyConfig := mkRequestStrategy {
  rq_Type : string;
  rq_Token : option string;
  rq_Jwt : option JwtConfig;
}.

Record AuthConfig := mkAuthConfig {
  au_Enabled : bool;
  au_RequestStrategy : option RequestStrategyConfig;
  au_Keys : list KeyConfig;
}.

Record BudgetConfig := mkBudgetConfig {
  bg_Name : string;
  bg_Storage : string;
  bg_Rules : option (list RateLimitRule);
}.

Record RateLimitBudgetsConfig := mkBudgetsConfig { bs_DefaultStorage : string; bs_Budgets : list BudgetConfig }.

(** [ap_Integration] is the integration section, with its [drpc] member. *)
Record AppConfig := mkAppConfig {
  ap_Server : option ServerConfig;
  ap_Upstreams : option UpstreamConfig;
  ap_Cache : option CacheConfig;
  ap_Auth : option AuthConfig;
  ap_RateLimit : list RateLimitBudgetsConfig;
  ap_Storages : list AppStorageConfig;
  ap_Integration : option (option DrpcIntegrationConfig);
  ap_Stats : option StatsConfig;
}.

(** ** Defaults *)

Definition or_empty (s fallback : string) : string := if bool_decide (s = "") then fallback else s.
Definition or_some {A} (o : option A) (a : A) : option A := Some (default a o).

Definition stats_setDefaults (s : StatsConfig) : StatsConfig :=
  mkStatsConfig (ss_Enabled s) (ss_StorageType s) (ss_Type s) (or_zero (ss_FlushInterval s) (3 * minute)).

Definition drpc_setDefaults (d : DrpcIntegrationConfig) : DrpcIntegrationConfig :=
  mkDrpcIntegration (dr_Url d) (or_zero (dr_RequestTimeout d) (10 * second)).

Definition keySettings_setDefaults (a : KeySettingsConfig) : KeySettingsConfig :=
  mkKeySettings (ks_AllowedIps a) (or_some (ks_Methods a) ([], [])) (or_some (ks_Contracts a) []) (ks_CorsOrigins a).

Definition key_setDefaults (k : KeyConfig) : KeyConfig :=
  mkKeyConfig (kc_Id k) (kc_Type k)
    ((fun l => mkLocalKeyConfig (lk_Key l) (keySettings_setDefaults <$> lk_Settings l)) <$> kc_Local k) (kc_Drpc k).

Definition auth_setDefaults (a : AuthConfig) : AuthConfig :=
  mkAuthConfig (au_Enabled a) (au_RequestStrategy a) (map key_setDefaults (au_Keys a)).

Definition grpcAuth_setDefaults (g : GrpcAuthConfig) : GrpcAuthConfig :=
  mkGrpcAuth (ga_Enabled g) (or_empty (ga_PublicKeyOwner g) "drpc") (ga_ProviderPrivateKeyPath g)
    (ga_ExternalPublicKeyPath g) (or_zero (ga_SessionTTL g) (24 * hour)).

Definition grpcAuth_Disabled (g : GrpcAuthConfig) : bool :=
  negb (ga_Enabled g) || bool_decide (ga_ProviderPrivateKeyPath g = "").

Definition defaultPort : Z := 9090.

Definition server_setDefaults (s : ServerConfig) : ServerConfig :=
  mkServerConfig (or_zero (sv_Port s) defaultPort) (sv_GrpcPort s) (sv_MetricsPort s) (sv_PprofPort s)
    (or_zero (sv_HealthPort s) 9096)
    (or_some (sv_Tls s) (mkTls false "" "" "")) (or_some (sv_Pyroscope s) (mkPyroscope false "" "" "" ∅))
    (Some (grpcAuth_setDefaults (default (mkGrpcAuth false "" "" "" 0) (sv_GrpcAuth s))))
    (sv_TorUrl s) (sv_TrustedProxies s).

Definition policy_setDefaults (p : CachePolicyConfig) : CachePolicyConfig :=
  let ttl := or_empty (cp_TTL p) "10m" in
  mkCachePolicyConfig (cp_Id p) (cp_Chain p) (cp_BlockchainType p) (cp_Method p)
    (or_empty (cp_FinalizationType p) "none") (cp_CacheEmpty p) (cp_Connector p)
    (or_empty (cp_ObjectMaxSize p) "500KB") (if bool_decide (ttl = "0") then "0s" else ttl).

Definition memory_setDefaults (m : MemoryCacheConfig) : MemoryCacheConfig :=
  mkMemoryCache (or_zero (mem_MaxItems m) 10000) (or_zero (mem_ExpiredRemoveInterval m) (30 * second)).

Definition postgres_setDefaults (p : PostgresCacheConfig) : PostgresCacheConfig :=
  mkPostgresCache (pg_StorageName p) (or_some (pg_QueryTimeout p) (300 * millisecond))
    (or_empty (pg_CacheTable p) "cache_rpc") (or_zero (pg_ExpiredRemoveInterval p) (30 * second)).

Definition cacheConnector_setDefaults (c : CacheConnectorConfig) : CacheConnectorConfig :=
  if bool_decide (cc_Driver c = "memory") then
    mkCacheConnectorConfig (cc_Id c) (cc_Driver c) (cc_Redis c)
      (Some (memory_setDefaults (default (mkMemoryCache 0 0) (cc_Memory c)))) (cc_Postgres c)
  else if bool_decide (cc_Driver c = "redis") then
    mkCacheConnectorConfig (cc_Id c) (cc_Driver c) (or_some (cc_Redis c) "") (cc_Memory c) (cc_Postgres c)
  else if bool_decide (cc_Driver c = "postgres") then
    mkCacheConnectorConfig (cc_Id c) (cc_Driver c) (cc_Redis c) (cc_Memory c)
      (Some (postgres_setDefaults (default (mkPostgresCache "" None "" 0) (cc_Postgres c))))
  else c.

Definition cache_setDefaults (c : CacheConfig) : CacheConfig :=
  mkCacheConfig (or_zero (ca_ReceiveTimeout c) second) (map cacheConnector_setDefaults (ca_Connectors c))
    (map policy_setDefaults (ca_Policies c)).

Definition timeouts_setDefaults (t : RedisTimeouts) : RedisTimeouts :=
  mkRedisTimeouts (or_some (to_Connect t) (500 * millisecond)) (or_some (to_Read t) (200 * millisecond))
    (or_some (to_Write t) (200 * millisecond)).

(** [gomaxprocs] is [runtime.GOMAXPROCS(0)]. *)
Definition pool_setDefaults (gomaxprocs : Z) (t : RedisTimeouts) (p : RedisPool) : RedisPool :=
  mkRedisPool (or_zero (pool_Size p) (10 * gomaxprocs))
    (or_some (pool_Timeout p) (default 0 (to_Read t) + second)) (pool_MinIdleConns p) (pool_MaxIdleConns p)
    (pool_MaxActiveConns p) (or_some (pool_ConnMaxIdleTime p) (30 * minute)) (or_some (pool_ConnMaxLifeTime p) 0).

Definition redis_setDefaults (gomaxprocs : Z) (r : RedisStorageConfig) : RedisStorageConfig :=
  let timeouts := timeouts_setDefaults (default (mkRedisTimeouts None None None) (rs_Timeouts r)) in
  mkRedisStorage (rs_FullUrl r) (rs_Address r) (rs_Username r) (rs_Password r) (or_some (rs_DB r) 0) (Some timeouts)
    (Some (pool_setDefaults gomaxprocs timeouts (default (mkRedisPool 0 None 0 0 0 None None) (rs_Pool r)))).

Definition storage_setDefaults (gomaxprocs : Z) (a : AppStorageConfig) : AppStorageConfig :=
  mkAppStorage (as_Name a) (redis_setDefaults gomaxprocs <$> as_Redis a) (as_Postgres a).

(** [None] is the panic of the upstream section. *)
Definition app_setDefaults `{Chains} (gomaxprocs : Z) (a : AppConfig) : option AppConfig :=
  let server := server_setDefaults (default (mkServerConfig 0 0 0 0 0 None None None "" []) (ap_Server a)) in
  let grpcAuthDisabled := default true (grpcAuth_Disabled <$> sv_GrpcAuth server) in
  (fun upstreams => {|
     ap_Server := Some server;
     ap_Upstreams := Some upstreams;
     ap_Cache := Some (cache_setDefaults (default (mkCacheConfig 0 [] []) (ap_Cache a)));
     ap_Auth := auth_setDefaults <$> ap_Auth a;
     ap_RateLimit := ap_RateLimit a;
     ap_Storages := map (storage_setDefaults gomaxprocs) (ap_Storages a);
     ap_Integration := fmap (M := option) drpc_setDefaults <$> ap_Integration a;
     ap_Stats := stats_setDefaults <$> ap_Stats a;
   |}) <$> upstreamConfig_setDefaults grpcAuthDisabled
             (default (mkUpstreamConfig [] ∅ None None None None "" "") (ap_Upstreams a)).

(** ** Validation *)

(** Outside the source: [time.ParseDuration], [os.Stat] and the text of the
    errors of [strconv.ParseInt]; [None] is no error. *)
Class AppEnv := {
  ParseDuration_error : string -> option string;
  Stat_error : string -> option string;
  ParseInt_error : string -> string;
}.

Definition integrationType_validate (s : string) : option string :=
  check (negb (bool_decide (s ∈ ["local"; "drpc"]))) ("invalid settings strategy type - " +:+ in_apostrophes s).

Definition negative (o : option Z) : bool := match o with Some d => d <? 0 | None => false end.

Definition redis_validate (r : RedisStorageConfig) : option string :=
  first_error [
    check (bool_decide (rs_FullUrl r = "") && bool_decide (rs_Address r = ""))
      "either 'address' or 'full_url' must be specified";
    if_set (rs_Timeouts r) (fun t => first_error [
      check (negative (to_Read t)) "read timeout cannot be negative";
      check (negative (to_Write t)) "write timeout cannot be negative";
      check (negative (to_Connect t)) "connect timeout cannot be negative"
    ]);
    if_set (rs_Pool r) (fun p => first_error [
      check (pool_Size p <? 0) "pool size cannot be negative";
      check (negative (pool_Timeout p)) "pool timeout cannot be negative";
      check (pool_MinIdleConns p <? 0) "pool min idle connections cannot be negative";
      check (pool_MaxIdleConns p <? 0) "pool max idle connections cannot be negative";
      check (pool_MaxIdleConns p <? pool_MinIdleConns p)
        "pool min idle connections cannot be greater than pool max idle connections";
      check (pool_MaxActiveConns p <? 0) "pool max connections cannot be negative";
      check (negative (pool_ConnMaxLifeTime p)) "pool conn max life time cannot be negative";
      check (negative (pool_ConnMaxIdleTime p)) "pool conn max idle time cannot be negative"
    ])
  ].

(** The type of the storage, or an error. *)
Definition storage_validate (a : AppStorageConfig) : string + string :=
  if bool_decide (as_Name a = "") then inl "app storage name cannot be empty"
  else match as_Redis a, as_Postgres a with
       | Some r, _ =>
         match redis_validate r with
         | Some err => inl ("error during redis storage config validation, cause: " +:+ err)
         | None => inr "redis"
         end
       | None, Some url => if bool_decide (url = "") then inl "postgres url cannot be empty" else inr "postgres"
       | None, None => inl "storage must have either redis or postgres configuration"
       end.

(** The loop that collects the types of the storages by name. *)
Fixpoint storages_validate (i : N) (names : gmap string string) (l : list AppStorageConfig)
    : string + gmap string string :=
  match l with
  | [] => inr names
  | a :: l =>
    match storage_validate a with
    | inl err => inl ("error during app storage config validation at index " +:+ pretty i +:+ ", cause: " +:+ err)
    | inr type =>
      if bool_decide (is_Some (names !! as_Name a))
      then inl ("duplicate storage name " +:+ in_apostrophes (as_Name a) +:+ " at index " +:+ pretty i)
      else storages_validate (i + 1) (<[as_Name a := type]> names) l
    end
  end.

(** A reference to a storage of a type. *)
Definition storage_ref (storages : gmap string string) (type name : string) : option string :=
  match storages !! name with
  | None => Some (type +:+ " storage name " +:+ in_apostrophes name +:+ " not found")
  | Some t => check (negb (bool_decide (t = type)))
                (type +:+ " storage name " +:+ in_apostrophes name +:+ " is not a " +:+ type +:+ " storage")
  end.

Definition postgresCache_validate (storages : gmap string string) (p : PostgresCacheConfig) : option string :=
  first_error [
    storage_ref storages "postgres" (pg_StorageName p);
    check (negative (pg_QueryTimeout p)) "query-timeout must be greater than or equal to 0";
    check (pg_ExpiredRemoveInterval p <=? 0) "expired remove interval must be > 0"
  ].

Definition memoryCache_validate (m : MemoryCacheConfig) : option string :=
  first_error [
    check (mem_MaxItems m <=? 0) "memory max items must be > 0";
    check (mem_ExpiredRemoveInterval m <=? 0) "expired remove interval must be > 0"
  ].

Definition cacheConnector_validate (storages : gmap string string) (c : CacheConnectorConfig) : option string :=
  first_error [
    check (negb (bool_decide (cc_Driver c ∈ ["memory"; "redis"; "postgres"])))
      ("invalid cache driver - " +:+ in_apostrophes (cc_Driver c));
    if_set (cc_Memory c) memoryCache_validate;
    if_set (cc_Redis c) (storage_ref storages "redis");
    if_set (cc_Postgres c) (postgresCache_validate storages)
  ].

Definition validateSize `{AppEnv} (size : string) : option string :=
  let number :=
    match strip_suffix "MB" size with
    | Some s => Some s
    | None => strip_suffix "KB" size
    end in
  match number with
  | None => Some "size must be in KB or MB"
  | Some maxSize =>
    match Atoi (TrimSpace maxSize) with
    | None => Some ("couldn't parse size - " +:+ ParseInt_error (TrimSpace maxSize))
    | Some n => check (n <=? 0) "size must be > 0"
    end
  end.

Definition validatePolicyChain `{Chains} (chain : string) : option string :=
  if bool_decide (chain = "") then Some "empty chain setting"
  else if bool_decide (chain = "*") then None
  else first_error (map (fun c => check (negb (bool_decide (is_Some (chain_settings c))))
                                    ("chain " +:+ in_apostrophes c +:+ " is not supported"))
         (map TrimSpace (split_on "|" chain))).

Definition validatePolicyBlockchainType `{ChainTable} (blockchainType : string) : option string :=
  if bool_decide (blockchainType = "*") then None
  else first_error (map (fun t => check (negb (valid_type t))
                                    ("blockchain type " +:+ in_apostrophes t +:+ " is not supported"))
         (map TrimSpace (split_on "|" blockchainType))).

Section Validate.
Context `{MR : MapRange} `{CH : Chains} `{CT : ChainTable} `{CE : ConfigEnv} `{AE : AppEnv} `{NI : Netip} `{QU : Quoting}.

Definition policy_validate (connectors : list string) (p : CachePolicyConfig) : option string :=
  first_error [
    if negb (bool_decide (cp_Chain p = "")) && negb (bool_decide (cp_BlockchainType p = ""))
    then Some "chain and blockchain-type are mutually exclusive"
    else if bool_decide (cp_Chain p = "") && bool_decide (cp_BlockchainType p = "")
    then Some "either chain or blockchain-type must be set"
    else if negb (bool_decide (cp_Chain p = "")) then validatePolicyChain (cp_Chain p)
    else validatePolicyBlockchainType (cp_BlockchainType p);
    validateSize (cp_ObjectMaxSize p);
    check (bool_decide (cp_Method p = "")) "empty method setting";
    check (bool_decide (cp_Connector p = "")) "empty connector";
    check (negb (bool_decide (cp_FinalizationType p ∈ ["finalized"; "none"])))
      ("invalid finalization type - " +:+ in_apostrophes (cp_FinalizationType p));
    ParseDuration_error (cp_TTL p);
    check (negb (bool_decide (cp_Connector p ∈ connectors)))
      ("there is no such connector - " +:+ in_apostrophes (cp_Connector p))
  ].

Definition cache_validate (storages : gmap string string) (c : CacheConfig) : option string :=
  first_error [
    each_new cc_Id (fun i seen connector => first_error [
      check (bool_decide (cc_Id connector = ""))
        ("error during cache connectors validation, cause: no connector id under index " +:+ pretty i);
      check (bool_decide (cc_Id connector ∈ seen))
        ("error during cache connectors validation, connector with id " +:+ in_apostrophes (cc_Id connector) +:+
         " already exists");
      wrap ("error during cache connector " +:+ in_apostrophes (cc_Id connector) +:+ " validation, cause: ")
        (cacheConnector_validate storages connector)
    ]) 0 ∅ (ca_Connectors c);
    each_new cp_Id (fun i seen policy => first_error [
      check (bool_decide (cp_Id policy = ""))
        ("error during cache policies validation, cause: no policy id under index " +:+ pretty i);
      check (bool_decide (cp_Id policy ∈ seen))
        ("error during cache policies validation, policy with id " +:+ in_apostrophes (cp_Id policy) +:+
         " already exists");
      wrap ("error during cache policy " +:+ in_apostrophes (cp_Id policy) +:+ " validation, cause: ")
        (policy_validate (map cc_Id (ca_Connectors c)) policy)
    ]) 0 ∅ (ca_Policies c)
  ].

Definition drpc_validate (d : DrpcIntegrationConfig) : option string :=
  first_error [
    check (bool_decide (dr_Url d = "")) "url cannot be empty";
    check (dr_RequestTimeout d <? 0) "request timeout cannot be less than 0"
  ].

Definition integration_validate (i : option DrpcIntegrationConfig) : option string :=
  wrap "error during drpc integration validation, cause - " (if_set i drpc_validate).

(** [FlushInterval.Minutes() < 3] *)
Definition stats_validate (s : StatsConfig) : option string :=
  first_error [
    wrap "stats type validation error - " (integrationType_validate (ss_Type s));
    check (ss_Enabled s && (ss_FlushInterval s <? 3 * minute)) "stats flush-interval must be greater than 3 minutes"
  ].

Definition requestStrategy_validate (r : RequestStrategyConfig) : option string :=
  let missing := "specified " +:+ in_apostrophes (rq_Type r) +:+ " request strategy type but there are no its settings" in
  let cause := "error during " +:+ in_apostrophes (rq_Type r) +:+ " request strategy validation, cause: " in
  if bool_decide (rq_Type r = "token") then
    match rq_Token r with
    | None => Some missing
    | Some value => wrap cause (check (bool_decide (value = "")) "there is no secret value")
    end
  else if bool_decide (rq_Type r = "jwt") then
    match rq_Jwt r with
    | None => Some missing
    | Some j => wrap cause (check (bool_decide (jwt_PublicKey j = "")) "there is no the public key path")
    end
  else Some ("invalid request strategy type - " +:+ in_apostrophes (rq_Type r)).

Definition keyNoSettingsError (keyType : string) : string :=
  "specified " +:+ in_apostrophes keyType +:+ " key management rule type but there are no its settings".

Definition drpcKey_validate (d : option DrpcOwnerConfig) : option string :=
  match d with
  | None => Some "owner config is empty"
  | Some o => first_error [
      check (bool_decide (ow_Id o = "")) "owner id is empty";
      check (bool_decide (ow_ApiToken o = "")) "owner API token is empty"
    ]
  end.

Definition key_validate (integration : option (option DrpcIntegrationConfig)) (k : KeyConfig) : option string :=
  first_error [
    integrationType_validate (kc_Type k);
    if bool_decide (kc_Type k = "local") then
      match kc_Local k with
      | None => Some (keyNoSettingsError (kc_Type k))
      | Some l => check (bool_decide (lk_Key l = "")) "'key' field is empty"
      end
    else if bool_decide (integration ≫= id = None) then Some "there is no drpc integration for drpc keys"
    else match kc_Drpc k with
         | None => Some (keyNoSettingsError (kc_Type k))
         | Some d => drpcKey_validate d
         end
  ].

(** The loop over the keys, with the ids and the local keys seen. *)
Fixpoint keys_validate (integration : option (option DrpcIntegrationConfig)) (i : N) (ids keys : gset string)
    (l : list KeyConfig) : option string :=
  match l with
  | [] => None
  | k :: l =>
    let local := lk_Key <$> kc_Local k in
    first_error [
      check (bool_decide (kc_Id k = "")) ("error during key config validation, cause: no key id under index " +:+ pretty i);
      check (bool_decide (kc_Id k ∈ ids))
        ("error during key config validation, key with id " +:+ in_apostrophes (kc_Id k) +:+ " already exists");
      if_set local (fun key => check (bool_decide (key ∈ keys))
        ("error during key config validation, local key " +:+ in_apostrophes key +:+ " already exists"));
      wrap ("error during " +:+ in_apostrophes (kc_Id k) +:+ " key config validation, cause: ")
        (key_validate integration k);
      keys_validate integration (i + 1) ({[kc_Id k]} ∪ ids) (option_to_set local ∪ keys) l
    ]
  end.

Definition auth_validate (integration : option (option DrpcIntegrationConfig)) (a : AuthConfig) : option string :=
  if negb (au_Enabled a) then None
  else first_error [
    if_set (au_RequestStrategy a) requestStrategy_validate;
    keys_validate integration 0 ∅ ∅ (au_Keys a)
  ].

(** The ports in the order they are compared; zero means off. *)
Definition listeners (s : ServerConfig) : list (string * Z) :=
  [("grpc", sv_GrpcPort s); ("metrics", sv_MetricsPort s); ("pprof", sv_PprofPort s); ("health", sv_HealthPort s)].

Fixpoint ports_validate (ports : gset Z) (l : list (string * Z)) : option string :=
  match l with
  | [] => None
  | (name, port) :: l =>
    if bool_decide (port ∈ ports) && negb (port =? 0)
    then Some (name +:+ " port " +:+ pretty port +:+ " is already in use")
    else ports_validate ({[port]} ∪ ports) l
  end.

Definition tls_validate (t : TlsConfig) : option string :=
  if tls_Enabled t then first_error [
    check (bool_decide (tls_Certificate t = "")) "the tls certificate can't be empty";
    check (bool_decide (tls_Key t = "")) "the tls certificate key can't be empty"
  ] else None.

Definition pyroscope_validate (p : PyroscopeConfig) : option string :=
  if py_Enabled p then first_error [
    check (bool_decide (py_Url p = "")) "pyroscope is enabled, url must be specified";
    check (bool_decide (py_Username p = "")) "pyroscope is enabled, username must be specified";
    check (bool_decide (py_Password p = "")) "pyroscope is enabled, password must be specified"
  ] else None.

Definition grpcAuth_validate (g : GrpcAuthConfig) : option string :=
  if negb (ga_Enabled g) then None
  else first_error [
    check (bool_decide (ga_PublicKeyOwner g = "")) "grpc auth is enabled, public-key-owner must be specified";
    check (bool_decide (TrimSpace (ga_ProviderPrivateKeyPath g) = ""))
      "grpc auth is enabled, provider-private-key-path must be specified";
    check (bool_decide (TrimSpace (ga_ExternalPublicKeyPath g) = ""))
      "grpc auth is enabled, external-public-key-path must be specified";
    wrap "grpc auth provider-private-key-path is invalid: " (Stat_error (ga_ProviderPrivateKeyPath g));
    wrap "grpc auth external-public-key-path is invalid: " (Stat_error (ga_ExternalPublicKeyPath g))
  ].

Definition server_validate (s : ServerConfig) : option string :=
  first_error [
    check (sv_Port s <? 0) ("incorrect server port - " +:+ pretty (sv_Port s));
    check (sv_GrpcPort s <? 0) ("incorrect grpc port - " +:+ pretty (sv_GrpcPort s));
    check (sv_MetricsPort s <? 0) ("incorrect metrics port - " +:+ pretty (sv_MetricsPort s));
    check (sv_PprofPort s <? 0) ("incorrect pprof port - " +:+ pretty (sv_PprofPort s));
    check (sv_HealthPort s <? 0) ("incorrect health port - " +:+ pretty (sv_HealthPort s));
    ports_validate {[sv_Port s]} (listeners s);
    match ParseTrustedProxies (sv_TrustedProxies s) with
    | inl err => Some ("trusted-proxies validation error - " +:+ err)
    | inr _ => None
    end;
    wrap "tls config validation error - " (if_set (sv_Tls s) tls_validate);
    if_set (sv_Pyroscope s) pyroscope_validate;
    if_set (sv_GrpcAuth s) grpcAuth_validate
  ].

Definition budget_validate (storages : gmap string string) (b : BudgetConfig) : option string :=
  first_error [
    check (bool_decide (bg_Name b = "")) "rate limit budget name cannot be empty";
    wrap ("rate limit budget " +:+ in_apostrophes (bg_Name b) +:+ " validation error: ")
      (if_set (bg_Rules b) (rules_validate methodRegex));
    if bool_decide (bg_Storage b = "") then None
    else match storages !! bg_Storage b with
         | None => Some ("rate limit budget " +:+ in_apostrophes (bg_Name b) +:+ " references non-existent storage " +:+
                         in_apostrophes (bg_Storage b))
         | Some type => check (negb (bool_decide (type = "redis")))
             ("rate limit budget " +:+ in_apostrophes (bg_Name b) +:+ " storage " +:+ in_apostrophes (bg_Storage b) +:+
              " is not a redis storage (type: " +:+ type +:+ ")")
         end
  ].

(** The budgets of one section; the set of names is shared by all sections. *)
Fixpoint budgets_validate (storages : gmap string string) (i : N) (names : gset string) (l : list BudgetConfig)
    : string + gset string :=
  match l with
  | [] => inr names
  | b :: l =>
    match first_error [
      check (bool_decide (bg_Name b = "")) ("rate limit budget name cannot be empty at index " +:+ pretty i);
      check (bool_decide (bg_Name b ∈ names)) ("duplicate budget name " +:+ in_apostrophes (bg_Name b));
      wrap ("error during rate limit budget " +:+ in_apostrophes (bg_Name b) +:+ " validation, cause: ")
        (budget_validate storages b)
    ] with
    | Some err => inl err
    | None => budgets_validate storages (i + 1) ({[bg_Name b]} ∪ names) l
    end
  end.

Fixpoint sections_validate (storages : gmap string string) (i : N) (names : gset string)
    (l : list RateLimitBudgetsConfig) : string + gset string :=
  match l with
  | [] => inr names
  | s :: l =>
    match budgets_validate storages 0 names (bs_Budgets s) with
    | inl err => inl ("error during rate limit budget config validation at index " +:+ pretty i +:+ ", cause: " +:+ err)
    | inr names => sections_validate storages (i + 1) names l
    end
  end.

Definition app_validate (a : AppConfig) : option string :=
  match storages_validate 0 ∅ (ap_Storages a) with
  | inl err => Some err
  | inr storages => first_error [
      if_set (ap_Cache a) (cache_validate storages);
      if_set (ap_Integration a) integration_validate;
      if_set (ap_Auth a) (auth_validate (ap_Integration a));
      if_set (ap_Stats a) stats_validate;
      if_set (ap_Server a) server_validate;
      match sections_validate storages 0 ∅ (ap_RateLimit a) with
      | inl err => Some err
      | inr budgets =>
        if_set (ap_Upstreams a) (upstreamConfig_validate budgets (default "" (sv_TorUrl <$> ap_Server a)))
      end
    ]
  end.
End Validate.

(** ** Storages and budgets at startup

    What the application makes of an accepted configuration: the clients of its
    storages ([internal/storages]) and its registry of budgets
    ([internal/ratelimiter/budget_registry.go]). *)

(** The options of a client of [go-redis]. *)
Record RedisOptions := mkRedisOptions {
  op_Addr : string;
  op_Username : string;
  op_Password : string;
  op_DB : Z;
  op_DialTimeout : Z;
  op_ReadTimeout : Z;
  op_WriteTimeout : Z;
  op_PoolSize : Z;
  op_PoolTimeout : Z;
  op_MinIdleConns : Z;
  op_MaxIdleConns : Z;
  op_MaxActiveConns : Z;
  op_ConnMaxIdleTime : Z;
  op_ConnMaxLifetime : Z;
}.

(** The drivers: [redis.ParseURL], and the errors of [pgxpool.ParseConfig] and
    [pgxpool.NewWithConfig] for a URL. *)
Class StorageDrivers := {
  redis_ParseURL : string -> string + RedisOptions;
  pgx_ParseConfig_error : string -> option string;
  pgx_NewWithConfig_error : string -> option string;
}.

Inductive Storage := RedisStorage (options : RedisOptions) | PostgresStorage (url : string).

(** The engine of a budget; the budgets of a section share one in memory. *)
Inductive BudgetEngine := MemoryEngineOf (section : nat) | RedisEngineOf (storage : string) (options : RedisOptions).

Record RegisteredBudget := mkRegistered { rb_Budget : RateLimitBudget; rb_Engine : BudgetEngine }.

Section Startup.
Context `{SD : StorageDrivers} `{RX : Regexp}.

(** A value where one is configured and the URL gave none. *)
Definition or_configured (current : Z) (configured : option Z) : Z :=
  match configured with Some v => if current =? 0 then v else current | None => current end.

Definition set_text (current configured : string) : string := if bool_decide (configured = "") then current else configured.

(** In the client no timeout is -1. *)
Definition no_timeout (t : option Z) : option Z := (fun t => if t =? 0 then -1 else t) <$> t.

Definition empty_options : RedisOptions := mkRedisOptions "" "" "" 0 0 0 0 0 0 0 0 0 0 0.

Definition NewRedisStorage (name : string) (r : RedisStorageConfig) : string + Storage :=
  match (if bool_decide (rs_FullUrl r = "") then inr empty_options else redis_ParseURL (rs_FullUrl r)) with
  | inl err => inl ("couldn't read the full redis url " +:+ rs_FullUrl r +:+ " of storage " +:+ in_apostrophes name +:+ ": " +:+ err)
  | inr o =>
    let timeout (f : RedisTimeouts -> option Z) := rs_Timeouts r ≫= f in
    let pool (f : RedisPool -> option Z) := rs_Pool r ≫= f in
    inr (RedisStorage (mkRedisOptions
      (set_text (op_Addr o) (rs_Address r)) (set_text (op_Username o) (rs_Username r)) (set_text (op_Password o) (rs_Password r))
      (default (op_DB o) (rs_DB r))
      (or_configured (op_DialTimeout o) (timeout to_Connect))
      (or_configured (op_ReadTimeout o) (no_timeout (timeout to_Read)))
      (or_configured (op_WriteTimeout o) (no_timeout (timeout to_Write)))
      (or_configured (op_PoolSize o) (pool (fun p => Some (pool_Size p))))
      (or_configured (op_PoolTimeout o) (pool pool_Timeout))
      (or_configured (op_MinIdleConns o) (pool (fun p => Some (pool_MinIdleConns p))))
      (or_configured (op_MaxIdleConns o) (pool (fun p => Some (pool_MaxIdleConns p))))
      (or_configured (op_MaxActiveConns o) (pool (fun p => Some (pool_MaxActiveConns p))))
      (or_configured (op_ConnMaxIdleTime o) (pool pool_ConnMaxIdleTime))
      (or_configured (op_ConnMaxLifetime o) (pool pool_ConnMaxLifeTime))))
  end.

Definition NewPostgresStorage (name url : string) : string + Storage :=
  match pgx_ParseConfig_error url with
  | Some err => inl ("couldn't parse postgres url " +:+ url +:+ " of storage " +:+ in_apostrophes name +:+ ": " +:+ err)
  | None =>
    match pgx_NewWithConfig_error url with
    | Some err => inl ("couldn't create a postgres pool: " +:+ err)
    | None => inr (PostgresStorage url)
    end
  end.

Fixpoint new_storages (l : list AppStorageConfig) (m : gmap string Storage) : string + gmap string Storage :=
  match l with
  | [] => inr m
  | a :: l =>
    match as_Redis a, as_Postgres a with
    | Some r, _ =>
      match NewRedisStorage (as_Name a) r with
      | inl err => inl ("couldn't create a redis storage with name " +:+ as_Name a +:+ ", reason - " +:+ err)
      | inr s => new_storages l (<[as_Name a := s]> m)
      end
    | None, Some url =>
      match NewPostgresStorage (as_Name a) url with
      | inl err => inl ("couldn't create a postgres storage with name " +:+ as_Name a +:+ ", reason - " +:+ err)
      | inr s => new_storages l (<[as_Name a := s]> m)
      end
    | None, None => new_storages l m
    end
  end.

Definition NewStorageRegistry (l : list AppStorageConfig) : string + gmap string Storage := new_storages l ∅.

Definition storageToEngine (name : string) (s : Storage) : string + BudgetEngine :=
  match s with
  | RedisStorage o => inr (RedisEngineOf name o)
  | PostgresStorage _ => inl "unsupported storage type *storages.PostgresStorage"
  end.

(** The engine of a named storage; [what] starts the text of a missing one. *)
Definition engine_of (what : string) (storages : gmap string Storage) (name : string) : string + BudgetEngine :=
  match storages !! name with
  | None => inl (what +:+ " " +:+ name +:+ " not found")
  | Some s =>
    match storageToEngine name s with
    | inl err => inl ("couldn't create a rate limit engine for storage " +:+ name +:+ ", reason - " +:+ err)
    | inr e => inr e
    end
  end.

(** The budgets of a section.  [None] is a panic: of a nil configuration, or of a
    pattern that does not compile. *)
Fixpoint register_budgets (storages : gmap string Storage) (defaultEngine : BudgetEngine) (l : list BudgetConfig)
    (m : gmap string RegisteredBudget) : option (string + gmap string RegisteredBudget) :=
  match l with
  | [] => Some (inr m)
  | b :: l =>
    match (if bool_decide (bg_Storage b = "") then inr defaultEngine else engine_of "storage" storages (bg_Storage b)) with
    | inl err => Some (inl err)
    | inr engine =>
      rules ← bg_Rules b;
      budget ← NewRateLimitBudget (bg_Name b) rules;
      register_budgets storages defaultEngine l (<[bg_Name b := mkRegistered budget engine]> m)
    end
  end.

Fixpoint register_sections (storages : gmap string Storage) (i : nat) (l : list RateLimitBudgetsConfig)
    (m : gmap string RegisteredBudget) : option (string + gmap string RegisteredBudget) :=
  match l with
  | [] => Some (inr m)
  | s :: l =>
    match (if bool_decide (bs_DefaultStorage s = "") then inr (MemoryEngineOf i)
           else engine_of "default storage" storages (bs_DefaultStorage s)) with
    | inl err => Some (inl err)
    | inr defaultEngine =>
      match register_budgets storages defaultEngine (bs_Budgets s) m with
      | Some (inr m) => register_sections storages (S i) l m
      | r => r
      end
    end
  end.

Definition NewRateLimitBudgetRegistry (l : list RateLimitBudgetsConfig) (storages : gmap string Storage)
    : option (string + gmap string RegisteredBudget) := register_sections storages 0 l ∅.
End Startup.

(** ** What an accepted configuration guarantees *)

Definition nonzero (l : list Z) : list Z := base.filter (fun p => p <> 0) l.

Definition storage_of (a : AppConfig) (type name : string) : Prop :=
  exists s, s ∈ ap_Storages a /\ as_Name s = name /\ storage_validate s = inr type.

Definition all_budgets (a : AppConfig) : list BudgetConfig := concat (map bs_Budgets (ap_RateLimit a)).

Lemma ports_validate_None ports l :
  ports_validate ports l = None -> NoDup (nonzero l.*2) /\ forall p, p ∈ nonzero l.*2 -> p ∉ ports.
Proof.
  revert ports. induction l as [|[name p] l IH]; intros ports; simpl; [split; [constructor|by intros ? ?%elem_of_nil]|].
  destruct (_ && _) eqn:E; [done|]. intros Hv. destruct (IH _ Hv) as [Hn Hi]. unfold nonzero in *. rewrite filter_cons.
  destruct (decide (p <> 0)) as [Hp|Hp].
  - apply andb_false_iff in E as [E|E]; reflect_bool; [|done]. split.
    + constructor; [|done]. intros Hin. specialize (Hi p Hin). set_solver.
    + intros q [-> |Hq]%elem_of_cons; [done|]. specialize (Hi q Hq). set_solver.
  - split; [done|]. intros q Hq. specialize (Hi q Hq). set_solver.
Qed.

Lemma storages_validate_inr i names l m :
  storages_validate i names l = inr m ->
  NoDup (map as_Name l) /\ (forall n, n ∈ map as_Name l -> names !! n = None) /\
  forall n t, m !! n = Some t ->
    names !! n = Some t \/ exists s, s ∈ l /\ as_Name s = n /\ storage_validate s = inr t.
Proof.
  revert i names. induction l as [|a l IH]; intros i names; simpl.
  { intros [= <-]. split; [constructor|]. split; [by intros ? ?%elem_of_nil|]. by left. }
  destruct (storage_validate a) as [err|type] eqn:Ea; [done|]. case_bool_decide as Hn; [done|]. intros Hv.
  destruct (IH _ _ Hv) as (Hnd & Hnew & Hm). apply eq_None_not_Some in Hn. split; [|split].
  - apply NoDup_cons. split; [|done]. intros Hin. specialize (Hnew _ Hin). by rewrite lookup_insert_eq in Hnew.
  - intros n [-> |Hin]%elem_of_cons; [done|]. specialize (Hnew n Hin). by apply lookup_insert_None in Hnew as [? _].
  - intros n t Ht. destruct (Hm n t Ht) as [Hi|(s & Hs & Hr)].
    + apply lookup_insert_Some in Hi as [[<- <-]|[_ Hi]]; [right; exists a; split; [by left|done]|by left].
    + right. exists s. split; [by right|done].
Qed.

Lemma budgets_validate_inr storages i names l names' :
  budgets_validate storages i names l = inr names' ->
  NoDup (map bg_Name l) /\ (forall n, n ∈ map bg_Name l -> n ∉ names) /\
  names' = list_to_set (map bg_Name l) ∪ names /\
  Forall (fun b => budget_validate storages b = None) l.
Proof.
  revert i names. induction l as [|b l IH]; intros i names; cbn [budgets_validate map list_to_set].
  { intros [= <-]. split_and!; [constructor|by intros ? ?%elem_of_nil|set_solver|constructor]. }
  destruct (first_error _) eqn:E; [done|]. accepted E. destruct E as (_ & Hn & Hb & _). intros Hv.
  destruct (IH _ _ Hv) as (Hnd & Hnew & -> & Hf). split_and!.
  - apply NoDup_cons. split; [|done]. intros Hin. specialize (Hnew _ Hin). set_solver.
  - intros n [-> |Hin]%elem_of_cons; [done|]. specialize (Hnew n Hin). set_solver.
  - set_solver.
  - by constructor.
Qed.

Lemma sections_validate_inr storages i names l names' :
  sections_validate storages i names l = inr names' ->
  let bs := concat (map bs_Budgets l) in
  NoDup (map bg_Name bs) /\ (forall n, n ∈ map bg_Name bs -> n ∉ names) /\
  names' = list_to_set (map bg_Name bs) ∪ names /\
  Forall (fun b => budget_validate storages b = None) bs.
Proof.
  revert i names. induction l as [|s l IH]; intros i names; cbn [sections_validate map concat].
  { intros [= <-]. simpl. split_and!; [constructor|by intros ? ?%elem_of_nil|set_solver|constructor]. }
  destruct (budgets_validate _ _ _ _) as [err|ns] eqn:E; [done|]. intros Hv.
  apply budgets_validate_inr in E as (Hn1 & Hf1 & -> & Hb1). destruct (IH _ _ Hv) as (Hn2 & Hf2 & -> & Hb2).
  simpl. rewrite !map_app. split_and!.
  - apply NoDup_app. split_and!; [done| |done]. intros n H1 H2. specialize (Hf2 n H2).
    rewrite elem_of_union, elem_of_list_to_set in Hf2. tauto.
  - intros n [H1|H2]%elem_of_app; [by apply Hf1|]. specialize (Hf2 n H2). set_solver.
  - rewrite list_to_set_app_L. set_solver.
  - by apply Forall_app.
Qed.

Lemma keys_validate_None integration i ids keys l :
  keys_validate integration i ids keys l = None ->
  NoDup (map kc_Id l) /\ (forall n, n ∈ map kc_Id l -> n ∉ ids) /\
  NoDup (omap (fun k => lk_Key <$> kc_Local k) l) /\
  (forall n, n ∈ omap (fun k => lk_Key <$> kc_Local k) l -> n ∉ keys).
Proof.
  revert i ids keys. induction l as [|k l IH]; intros i ids keys; cbn [keys_validate map omap list_omap].
  { intros _. split_and!; [constructor|by intros ? ?%elem_of_nil|constructor|by intros ? ?%elem_of_nil]. }
  intros Hv. accepted Hv. destruct Hv as (_ & Hid & Hl & _ & Hv & _).
  destruct (IH _ _ _ Hv) as (H1 & H2 & H3 & H4). rewrite if_set_None in Hl. split; [|split].
  - apply NoDup_cons. split; [|done]. intros Hin. specialize (H2 _ Hin). set_solver.
  - intros n [-> |Hin]%elem_of_cons; [done|]. specialize (H2 n Hin). set_solver.
  - destruct (kc_Local k) as [loc|]; simpl in *; [|split; [done|]; intros n Hin; specialize (H4 n Hin); set_solver].
    specialize (Hl (lk_Key loc) eq_refl). accepted Hl. split.
    + constructor; [|done]. intros Hin. specialize (H4 _ Hin). set_solver.
    + intros n [-> |Hin]%elem_of_cons; [done|]. specialize (H4 n Hin). set_solver.
Qed.

(** ** What the registry of budgets makes of it *)

Lemma storages_validate_all i names l m :
  storages_validate i names l = inr m ->
  (forall n t, names !! n = Some t -> m !! n = Some t) /\
  forall s, s ∈ l -> exists t, storage_validate s = inr t /\ m !! as_Name s = Some t.
Proof.
  revert i names. induction l as [|a l IH]; intros i names; simpl.
  { intros [= <-]. split; [done|]. by intros s ?%elem_of_nil. }
  destruct (storage_validate a) as [err|type] eqn:Ea; [done|]. case_bool_decide as Hn; [done|]. intros Hv.
  destruct (IH _ _ Hv) as [Hk Hs]. apply eq_None_not_Some in Hn. split.
  - intros n t Ht. apply Hk. rewrite lookup_insert_ne; [done|]. intros <-. congruence.
  - intros s [-> |Hin]%elem_of_cons; [|by apply Hs]. exists type. split; [done|]. apply Hk. apply lookup_insert_eq.
Qed.

Section Registered.
Context `{SD : StorageDrivers} `{RX : Regexp}.

(** The clients are those of the storages that were validated. *)
Lemma new_storages_types i types l types' m m' :
  storages_validate i types l = inr types' -> new_storages l m = inr m' ->
  (forall n, (exists o, m !! n = Some (RedisStorage o)) <-> types !! n = Some "redis") ->
  forall n, (exists o, m' !! n = Some (RedisStorage o)) <-> types' !! n = Some "redis".
Proof using Type.
  revert i types m. induction l as [|a l IH]; intros i types m; simpl; [by intros [= <-] [= <-]|].
  destruct (storage_validate a) as [err|type] eqn:Ea; [done|]. case_bool_decide as Hn; [done|]. intros Hv Hm Hi.
  assert (exists st, new_storages l (<[as_Name a := st]> m) = inr m' /\ ((exists o, st = RedisStorage o) <-> type = "redis"))
    as (st & Hm' & Hst).
  { unfold storage_validate in Ea. case_bool_decide; [done|]. destruct (as_Redis a) as [r|].
    - destruct (redis_validate r); [done|]. injection Ea as <-. unfold NewRedisStorage in Hm.
      destruct (if bool_decide _ then _ else _) as [err|o]; [done|]. eexists. split; [exact Hm|]. split; [done|by eexists].
    - destruct (as_Postgres a) as [url|]; [|done]. case_bool_decide; [done|]. injection Ea as <-.
      destruct (NewPostgresStorage (as_Name a) url) as [err|st] eqn:Ep; [done|]. exists st. split; [exact Hm|].
      unfold NewPostgresStorage in Ep. destruct (pgx_ParseConfig_error url); [done|].
      destruct (pgx_NewWithConfig_error url); [done|]. injection Ep as <-. split; [by intros [? ?]|done]. }
  eapply IH; [exact Hv|exact Hm'|]. intros n. destruct (decide (as_Name a = n)) as [->|Hne].
  - rewrite !lookup_insert_eq. split.
    + intros (o & [= ->]). f_equal. by apply Hst; eexists.
    + intros [= ->]. destruct (proj2 Hst eq_refl) as [o ->]. by exists o.
  - by rewrite !lookup_insert_ne by done.
Qed.

(** A budget that makes its construction panic: without a configuration, or with a
    pattern that does not compile. *)
Definition panicking (b : BudgetConfig) : Prop :=
  match bg_Rules b with
  | None => True
  | Some rules => exists rule, rule ∈ rules /\ rule_Method rule = "" /\ regexp_valid (rule_Pattern rule) = false
  end.

Lemma new_rules_None rules :
  new_rules rules = None -> exists rule, rule ∈ rules /\ rule_Method rule = "" /\ regexp_valid (rule_Pattern rule) = false.
Proof using Type.
  induction rules as [|rule rules IH]; simpl; [done|]. destruct (bool_decide (rule_Method rule = "")) eqn:Em; cbn [negb].
  - destruct (regexp_valid (rule_Pattern rule)) eqn:Ev.
    + destruct (new_rules rules); [done|]. intros _. destruct IH as (r & Hr & H); [done|]. exists r. split; [by right|done].
    + intros _. exists rule. reflect_bool. split; [by left|done].
  - destruct (new_rules rules); [done|]. intros _. destruct IH as (r & Hr & H); [done|]. exists r. split; [by right|done].
Qed.

(** A budget is registered under its name, with its rules, on the engine of its own
    storage or the one of its section. *)
Definition registered (storages : gmap string Storage) (d : BudgetEngine) (b : BudgetConfig)
    (m : gmap string RegisteredBudget) : Prop :=
  exists rules budget e, bg_Rules b = Some rules /\ NewRateLimitBudget (bg_Name b) rules = Some budget /\
    m !! bg_Name b = Some (mkRegistered budget e) /\
    if bool_decide (bg_Storage b = "") then e = d
    else exists o, storages !! bg_Storage b = Some (RedisStorage o) /\ e = RedisEngineOf (bg_Storage b) o.

Definition section_engine (storages : gmap string Storage) (k : nat) (s : RateLimitBudgetsConfig) (d : BudgetEngine) : Prop :=
  if bool_decide (bs_DefaultStorage s = "") then d = MemoryEngineOf k
  else exists o, storages !! bs_DefaultStorage s = Some (RedisStorage o) /\ d = RedisEngineOf (bs_DefaultStorage s) o.

Lemma engine_of_spec what storages name :
  match engine_of what storages name with
  | inl _ => ~ exists o, storages !! name = Some (RedisStorage o)
  | inr e => exists o, storages !! name = Some (RedisStorage o) /\ e = RedisEngineOf name o
  end.
Proof using Type. unfold engine_of, storageToEngine. destruct (storages !! name) as [[o|url]|]; naive_solver. Qed.

Lemma register_budgets_spec storages d l m :
  NoDup (map bg_Name l) ->
  (forall b, b ∈ l -> bg_Storage b = "" \/ exists o, storages !! bg_Storage b = Some (RedisStorage o)) ->
  match register_budgets storages d l m with
  | None => exists b, b ∈ l /\ panicking b
  | Some (inl _) => False
  | Some (inr m') => (forall n, n ∉ map bg_Name l -> m' !! n = m !! n) /\ forall b, b ∈ l -> registered storages d b m'
  end.
Proof using Type.
  revert m. induction l as [|b l IH]; intros m; simpl; [intros _ _; split; [done|by intros b ?%elem_of_nil]|].
  intros [Hni Hnd]%NoDup_cons Hst.
  pose proof (Hst b ltac:(by left)) as Hb. assert (forall x, x ∈ l -> bg_Storage x = "" \/ exists o, storages !! bg_Storage x = Some (RedisStorage o)) as Hl
    by (intros x Hx; apply Hst; by right).
  pose proof (engine_of_spec "storage" storages (bg_Storage b)) as He.
  destruct (if bool_decide (bg_Storage b = "") then inr d else engine_of "storage" storages (bg_Storage b)) as [err|e] eqn:Ee.
  { case_bool_decide; [done|]. rewrite Ee in He. naive_solver. }
  destruct (bg_Rules b) as [rules|] eqn:Er; [|exists b; split; [by left|unfold panicking; by rewrite Er]]. cbn [mbind option_bind].
  destruct (NewRateLimitBudget (bg_Name b) rules) as [budget|] eqn:En; cbn [mbind option_bind].
  2:{ exists b. split; [by left|]. unfold panicking. rewrite Er. apply new_rules_None.
      unfold NewRateLimitBudget in En. by destruct (new_rules rules). }
  specialize (IH (<[bg_Name b := mkRegistered budget e]> m) Hnd Hl).
  destruct (register_budgets _ _ _ _) as [[err|m']|]; [done| |destruct IH as (x & Hx & Hp); exists x; split; [by right|done]].
  destruct IH as [Hkeep Hreg]. split.
  - intros n Hn. rewrite Hkeep by (intros Hin; apply Hn; by right). apply lookup_insert_ne. intros <-. apply Hn. by left.
  - intros x [-> |Hx]%elem_of_cons; [|by apply Hreg]. exists rules, budget, e. split; [done|]. split; [done|]. split.
    + rewrite Hkeep by done. apply lookup_insert_eq.
    + case_bool_decide; [by injection Ee as <-|]. rewrite Ee in He. exact He.
Qed.

Lemma registered_kept storages d b m m' : m' !! bg_Name b = m !! bg_Name b -> registered storages d b m -> registered storages d b m'.
Proof using Type. intros Hm (rules & budget & e & H1 & H2 & H3 & H4). exists rules, budget, e. by rewrite Hm. Qed.

Lemma register_sections_spec storages i l m :
  NoDup (map bg_Name (concat (map bs_Budgets l))) ->
  (forall b, b ∈ concat (map bs_Budgets l) -> bg_Storage b = "" \/ exists o, storages !! bg_Storage b = Some (RedisStorage o)) ->
  match register_sections storages i l m with
  | None => exists b, b ∈ concat (map bs_Budgets l) /\ panicking b
  | Some (inl _) => exists s, s ∈ l /\ bs_DefaultStorage s <> "" /\ ~ exists o, storages !! bs_DefaultStorage s = Some (RedisStorage o)
  | Some (inr m') => (forall n, n ∉ map bg_Name (concat (map bs_Budgets l)) -> m' !! n = m !! n) /\
      forall k s b, l !! k = Some s -> b ∈ bs_Budgets s -> exists d, section_engine storages (i + k) s d /\ registered storages d b m'
  end.
Proof using Type.
  revert i m. induction l as [|s l IH]; intros i m; simpl; [intros _ _; split; [done|by intros k s b Hk; rewrite lookup_nil in Hk]|].
  rewrite map_app. intros (Hn1 & Hdis & Hn2)%NoDup_app Hst.
  pose proof (engine_of_spec "default storage" storages (bs_DefaultStorage s)) as He.
  destruct (if bool_decide (bs_DefaultStorage s = "") then inr (MemoryEngineOf i) else _) as [err|d] eqn:Ed.
  { case_bool_decide; [done|]. rewrite Ed in He. exists s. split; [by left|done]. }
  assert (section_engine storages i s d) as Hd.
  { unfold section_engine. case_bool_decide; [by injection Ed as <-|]. rewrite Ed in He. exact He. }
  pose proof (register_budgets_spec storages d (bs_Budgets s) m Hn1 ltac:(intros b Hb; apply Hst; set_solver)) as Hb.
  destruct (register_budgets _ _ _ _) as [[err|m1]|]; [done| |destruct Hb as (x & Hx & Hp); exists x; split; [set_solver|done]].
  destruct Hb as [Hk1 Hr1]. specialize (IH (S i) m1 Hn2 ltac:(intros b Hb; apply Hst; set_solver)).
  destruct (register_sections _ _ _ _) as [[err|m2]|].
  - destruct IH as (x & Hx & Hp). exists x. split; [by right|done].
  - destruct IH as [Hk2 Hr2]. split.
    + intros n Hn. rewrite Hk2, Hk1; [done|set_solver|set_solver].
    + intros [|k] s' b; simpl.
      * intros [= <-] Hb. exists d. rewrite Nat.add_0_r. split; [done|]. eapply registered_kept; [|by apply Hr1].
        apply Hk2, Hdis. by apply list_elem_of_fmap_2.
      * rewrite Nat.add_succ_r. apply Hr2.
  - destruct IH as (x & Hx & Hp). exists x. split; [set_solver|done].
Qed.
End Registered.

(** The references of a configuration: caches and budgets to storages of the
    right kind, policies to cache connectors, upstreams to budgets. *)
Record references_resolved (a : AppConfig) : Prop := mkResolved {
  ref_redis : forall c conn name, ap_Cache a = Some c -> conn ∈ ca_Connectors c -> cc_Redis conn = Some name ->
    storage_of a "redis" name;
  ref_postgres : forall c conn p, ap_Cache a = Some c -> conn ∈ ca_Connectors c -> cc_Postgres conn = Some p ->
    storage_of a "postgres" (pg_StorageName p);
  ref_policy : forall c p, ap_Cache a = Some c -> p ∈ ca_Policies c ->
    exists conn, conn ∈ ca_Connectors c /\ cc_Id conn = cp_Connector p;
  ref_budget : forall b, b ∈ all_budgets a -> bg_Storage b = "" \/ storage_of a "redis" (bg_Storage b);
  ref_upstream : forall c u, ap_Upstreams a = Some c -> u ∈ uc_Upstreams c ->
    u_RateLimitBudget u = "" \/ exists b, b ∈ all_budgets a /\ bg_Name b = u_RateLimitBudget u;
}.

Section Resolved.
Context `{MR : MapRange} `{CH : Chains} `{CT : ChainTable} `{CE : ConfigEnv} `{AE : AppEnv} `{NI : Netip} `{QU : Quoting}.
Context (a : AppConfig) (storages : gmap string string).
Context (Hst : forall n t, storages !! n = Some t -> storage_of a t n).

Lemma storage_ref_of type name : storage_ref storages type name = None -> storage_of a type name.
Proof using Hst.
  unfold storage_ref. destruct (storages !! name) as [t|] eqn:E; [|done]. rewrite check_None, negb_decide_false.
  intros ->. by apply Hst.
Qed.

Lemma cache_refs c :
  cache_validate storages c = None ->
  Forall (fun conn => cacheConnector_validate storages conn = None) (ca_Connectors c) /\
  Forall (fun p => cp_Connector p ∈ map cc_Id (ca_Connectors c)) (ca_Policies c).
Proof using Type.
  unfold cache_validate. intros Hv. accepted Hv. destruct Hv as (Hc & Hp & _). split.
  - apply each_new_None in Hc as (_ & _ & Hf); [|intros i s x Hx; accepted Hx; tauto].
    eapply Forall_impl; [exact Hf|]. intros x (i & s & Hx). accepted Hx. tauto.
  - apply each_new_None in Hp as (_ & _ & Hf); [|intros i s x Hx; accepted Hx; tauto].
    eapply Forall_impl; [exact Hf|]. intros x (i & s & Hx). accepted Hx. destruct Hx as (_ & _ & Hx & _).
    unfold policy_validate in Hx. accepted Hx. tauto.
Qed.

Lemma connector_redis_ref conn name :
  cacheConnector_validate storages conn = None -> cc_Redis conn = Some name -> storage_of a "redis" name.
Proof using Hst.
  unfold cacheConnector_validate. intros Hv Hr. accepted Hv. destruct Hv as (_ & _ & Hv & _).
  rewrite if_set_None in Hv. by apply storage_ref_of, Hv.
Qed.

Lemma connector_postgres_ref conn p :
  cacheConnector_validate storages conn = None -> cc_Postgres conn = Some p -> storage_of a "postgres" (pg_StorageName p).
Proof using Hst.
  unfold cacheConnector_validate. intros Hv Hr. accepted Hv. destruct Hv as (_ & _ & _ & Hv & _).
  rewrite if_set_None in Hv. specialize (Hv p Hr). unfold postgresCache_validate in Hv. accepted Hv.
  by apply storage_ref_of, Hv.
Qed.

Lemma budget_ref b : budget_validate storages b = None -> bg_Storage b = "" \/ storage_of a "redis" (bg_Storage b).
Proof using Hst.
  unfold budget_validate. intros Hv. accepted Hv. destruct Hv as (_ & _ & Hv & _). case_bool_decide; [by left|right].
  destruct (storages !! bg_Storage b) as [t|] eqn:E; [|done]. accepted Hv. subst. by apply Hst.
Qed.

Lemma budgets_on_redis (clients : gmap string Storage) :
  (forall n, (exists o, clients !! n = Some (RedisStorage o)) <-> storages !! n = Some "redis") ->
  (forall b, b ∈ all_budgets a -> budget_validate storages b = None) ->
  forall b, b ∈ all_budgets a -> bg_Storage b = "" \/ exists o, clients !! bg_Storage b = Some (RedisStorage o).
Proof using Type.
  intros Hred Hbv b Hb. specialize (Hbv b Hb). unfold budget_validate in Hbv. accepted Hbv. destruct Hbv as (_ & _ & Hv & _).
  case_bool_decide; [by left|right]. apply Hred. destruct (storages !! bg_Storage b) as [t|]; [|done]. accepted Hv. by subst.
Qed.

Lemma upstream_budget_refs budgets tor c u :
  upstreamConfig_validate budgets tor c = None -> u ∈ uc_Upstreams c ->
  u_RateLimitBudget u = "" \/ u_RateLimitBudget u ∈ budgets.
Proof using Type.
  unfold upstreamConfig_validate. intros Hv Hu. accepted Hv. destruct Hv as (_ & _ & _ & _ & _ & _ & _ & Hv & _).
  apply each_new_None in Hv as (_ & _ & Hf).
  2: { intros i s x Hx. unfold upstream_entry_validate in Hx. accepted Hx. tauto. }
  rewrite Forall_forall in Hf. destruct (Hf u Hu) as (i & s & Hx). unfold upstream_entry_validate in Hx. accepted Hx.
  destruct Hx as (_ & _ & _ & Hb & _). apply andb_false_iff in Hb as [Hb|Hb]; accepted Hb; [by left|by right].
Qed.
End Resolved.

(** C26. What an accepted configuration refers to is there: the storages of the cache
    connectors and of the budgets are of the right kind, the policies name cache
    connectors and the upstreams budgets; storages, budgets (over all sections) and
    keys have distinct names; and no two servers listen on the same port.  The default
    engine of a section, the presence of a budget's configuration and the patterns of
    its rules are not checked.  With the clients of its storages made, the registry of
    budgets therefore fails only on a default engine that is no Redis storage, and
    panics only on a budget without a configuration or with a pattern that does not
    compile; otherwise it holds every budget, on its own storage's engine or the one of
    its section, and every budget an upstream names. *)
Theorem accepted_app_config `{MapRange} `{Chains} `{ChainTable} `{ConfigEnv} `{AppEnv} `{Netip} `{Quoting}
    `{StorageDrivers} `{Regexp} a :
  app_validate a = None ->
  references_resolved a /\ NoDup (map as_Name (ap_Storages a)) /\ NoDup (map bg_Name (all_budgets a)) /\
  (forall au, ap_Auth a = Some au -> au_Enabled au = true ->
     NoDup (map kc_Id (au_Keys au)) /\ NoDup (omap (fun k => lk_Key <$> kc_Local k) (au_Keys au))) /\
  (forall s, ap_Server a = Some s -> sv_Port s <> 0 ->
     NoDup (nonzero (sv_Port s :: (listeners s).*2)) /\ Forall (fun p => 0 <= p) (sv_Port s :: (listeners s).*2)) /\
  (forall clients, NewStorageRegistry (ap_Storages a) = inr clients ->
     match NewRateLimitBudgetRegistry (ap_RateLimit a) clients with
     | None => exists b, b ∈ all_budgets a /\ panicking b
     | Some (inl _) => exists s, s ∈ ap_RateLimit a /\ bs_DefaultStorage s <> "" /\ ~ storage_of a "redis" (bs_DefaultStorage s)
     | Some (inr budgets) =>
       (forall k s b, ap_RateLimit a !! k = Some s -> b ∈ bs_Budgets s ->
          exists d, section_engine clients k s d /\ registered clients d b budgets) /\
       (forall c u, ap_Upstreams a = Some c -> u ∈ uc_Upstreams c ->
          u_RateLimitBudget u = "" \/ is_Some (budgets !! u_RateLimitBudget u))
     end).
Proof.
  unfold app_validate. destruct (storages_validate 0 ∅ (ap_Storages a)) as [err|storages] eqn:Es; [done|].
  pose proof (storages_validate_all _ _ _ _ Es) as [_ Hall]. pose proof Es as Etypes.
  apply storages_validate_inr in Es as (Hsn & _ & Hst). intros Hv. accepted Hv.
  destruct Hv as (Hca & _ & Hau & _ & Hsv & Hrl & _).
  destruct (sections_validate storages 0 ∅ (ap_RateLimit a)) as [err|budgets] eqn:Eb; [done|].
  apply sections_validate_inr in Eb as (Hbn & _ & Hbs & Hbv). rewrite if_set_None in Hca. rewrite if_set_None in Hau.
  rewrite if_set_None in Hsv. rewrite if_set_None in Hrl.
  assert (forall n t, storages !! n = Some t -> storage_of a t n) as Hst'
    by (intros n t Ht; destruct (Hst n t Ht) as [Hn|Hs]; [by rewrite lookup_empty in Hn|exact Hs]).
  assert (forall c u, ap_Upstreams a = Some c -> u ∈ uc_Upstreams c ->
    u_RateLimitBudget u = "" \/ exists b, b ∈ all_budgets a /\ bg_Name b = u_RateLimitBudget u) as Hup.
  { intros c u Hc Hu. destruct (upstream_budget_refs _ _ c u (Hrl c Hc) Hu) as [|Hb]; [by left|right].
    rewrite Hbs, elem_of_union, elem_of_list_to_set in Hb. destruct Hb as [Hb|Hb]; [|set_solver].
    apply list_elem_of_fmap in Hb as (b & E & Hb). by exists b. }
  split_and!; [|done|exact Hbn| | |].
  - rewrite Forall_forall in Hbv. constructor.
    + intros c conn name Hc Hin Hr. destruct (cache_refs storages c (Hca c Hc)) as [Hf _]. rewrite Forall_forall in Hf.
      exact (connector_redis_ref a storages Hst' conn name (Hf conn Hin) Hr).
    + intros c conn p Hc Hin Hr. destruct (cache_refs storages c (Hca c Hc)) as [Hf _]. rewrite Forall_forall in Hf.
      exact (connector_postgres_ref a storages Hst' conn p (Hf conn Hin) Hr).
    + intros c p Hc Hin. destruct (cache_refs storages c (Hca c Hc)) as [_ Hf]. rewrite Forall_forall in Hf.
      destruct (proj1 (list_elem_of_fmap _ _ _) (Hf p Hin)) as (conn & E & Hconn). by exists conn.
    + intros b Hb. exact (budget_ref a storages Hst' b (Hbv b Hb)).
    + exact Hup.
  - intros au Ha He. specialize (Hau au Ha). unfold auth_validate in Hau. rewrite He in Hau. cbn [negb] in Hau.
    accepted Hau. destruct Hau as (_ & Hk & _). apply keys_validate_None in Hk as (Hk1 & _ & Hk2 & _). done.
  - intros s Hs Hp. specialize (Hsv s Hs). unfold server_validate in Hsv. accepted Hsv.
    destruct Hsv as (P1 & P2 & P3 & P4 & P5 & Hpo & _). apply ports_validate_None in Hpo as [Hn Hi]. split.
    + unfold nonzero in *. rewrite filter_cons, decide_True by done. constructor; [|done].
      intros Hin. specialize (Hi _ Hin). set_solver.
    + reflect_bool. repeat constructor; simpl; lia.
  - intros clients Hcl. unfold NewStorageRegistry in Hcl.
    assert (forall n, (exists o, clients !! n = Some (RedisStorage o)) <-> storages !! n = Some "redis") as Hred.
    { apply (new_storages_types 0 ∅ (ap_Storages a) storages ∅ clients Etypes Hcl). intros n. rewrite !lookup_empty. naive_solver. }
    rewrite Forall_forall in Hbv. unfold NewRateLimitBudgetRegistry.
    pose proof (register_sections_spec clients 0 (ap_RateLimit a) ∅ Hbn) as Hr.
    destruct (register_sections _ _ _ _) as [[err|registry]|].
    + destruct Hr as (s & Hs & Hne & Hno); [by apply budgets_on_redis with (a := a) (storages := storages)|].
      exists s. split; [done|]. split; [done|]. intros (st & Hin & Hname & Hty). apply Hno, Hred.
      destruct (Hall st Hin) as (t & Ht & Hlook). rewrite <- Hname. congruence.
    + destruct Hr as [_ Hr]; [by apply budgets_on_redis with (a := a) (storages := storages)|]. split; [exact Hr|].
      intros c u Hc Hu. destruct (Hup c u Hc Hu) as [|(b & Hb & <-)]; [by left|right].
      apply list_elem_of_In, in_concat in Hb as (l & Hl & Hb). apply list_elem_of_In in Hl, Hb.
      apply list_elem_of_fmap in Hl as (s & -> & Hs). apply list_elem_of_lookup in Hs as [k Hk].
      destruct (Hr k s b Hk Hb) as (d & _ & rules & budget & e & _ & _ & Hlook & _). by rewrite Hlook.
    + apply Hr. by apply budgets_on_redis with (a := a) (storages := storages).
Qed.

(** ** A configuration *)

#[local] Instance demo_app_env : AppEnv := {|
  ParseDuration_error _ := None;
  Stat_error _ := None;
  ParseInt_error _ := "";
|}.

Definition demo_app : AppConfig :=
  mkAppConfig (Some (mkServerConfig 0 9091 0 0 0 None None None "" []))
    (Some demo_upstream_config)
    (Some (mkCacheConfig 0 [mkCacheConnectorConfig "c1" "redis" (Some "r1") None None]
      [mkCachePolicyConfig "p1" "ethereum" "" "*" "" false "c1" "" ""]))
    None
    [mkBudgetsConfig "" [mkBudgetConfig "b1" "r1" (Some [mkRateLimitRule "eth_call" "" 10 1000000000])]]
    [mkAppStorage "r1" (Some (mkRedisStorage "" "host" "" "" None None None)) None] None None.

#[local] Existing Instance Cache.demo_chains.
#[local] Existing Instance Config.demo_config_env.

#[local] Existing Instance Prelude.default_range.
#[local] Existing Instance Config.config_chains.

Example demo_app_loads : app_validate (NI := demo_netip) (QU := fun s => s) <$> app_setDefaults 8 demo_app = Some None.
Proof. vm_compute. reflexivity. Qed.

#[local] Instance demo_drivers : StorageDrivers := {|
  redis_ParseURL _ := inl "unsupported";
  pgx_ParseConfig_error _ := None;
  pgx_NewWithConfig_error _ := None;
|}.
#[local] Instance demo_regexp : Regexp := {| regexp_valid p := negb (bool_decide (p = "eth_(")); MatchString p n := bool_decide (p = n) |}.

(** What is not checked: a default engine without a storage, and a budget without a
    configuration. *)
Definition with_budgets (default_engine : string) (rules : option (list RateLimitRule)) : AppConfig :=
  mkAppConfig (ap_Server demo_app) (ap_Upstreams demo_app) (ap_Cache demo_app) None
    [mkBudgetsConfig default_engine [mkBudgetConfig "b1" "" rules]] (ap_Storages demo_app) None None.

Definition started (a : AppConfig) : option (option string) :=
  match NewStorageRegistry (ap_Storages a) with
  | inl _ => None
  | inr clients =>
    match NewRateLimitBudgetRegistry (ap_RateLimit a) clients with
    | None => None
    | Some (inl err) => Some (Some err)
    | Some (inr _) => Some None
    end
  end.

Example default_engine_not_checked :
  let a := with_budgets "no-such-storage" (Some [mkRateLimitRule "eth_call" "" 1 1]) in
  app_validate (NI := demo_netip) (QU := fun s => s) <$> app_setDefaults 8 a = Some None /\
  started a = Some (Some "default storage no-such-storage not found").
Proof. vm_compute. split; reflexivity. Qed.

Example budget_without_config_panics :
  let a := with_budgets "" None in
  app_validate (NI := demo_netip) (QU := fun s => s) <$> app_setDefaults 8 a = Some None /\ started a = None.
Proof. vm_compute. split; reflexivity. Qed.

Example demo_app_starts : started demo_app = Some None.
Proof. vm_compute. reflexivity. Qed.

Lemma accepted_app_config_witness :
  exists a, app_setDefaults 8 demo_app = Some a /\ references_resolved a.
Proof.
  pose proof demo_app_loads as Hl. destruct (app_setDefaults 8 demo_app) as [a|] eqn:E; [|discriminate Hl].
  cbn [fmap option_fmap option_map] in Hl. injection Hl as Hv. exists a. split; [reflexivity|].
  exact (proj1 (accepted_app_config a Hv)).
Defined.
