(* ===== verification/GrpcAuth.v ===== *)
(** The sessions of gRPC clients ([internal/server/emerald/grpc_auth.go]): the token
    a client authenticates with, the sessions that are given out, and how they are
    kept alive and expire while calls use them concurrently. *)

From S2P Require Import Prelude.
From S2P Require Import GoStrings.
From S2P Require Import Config.
From S2P Require Import AppConfig.
From S2P Require Import Float64.

#[local] Arguments String.append !_ _ /.

(** ** Errors *)

Inductive Code := Unauthenticated | InvalidArgument | Unimplemented | Internal | Unavailable.
#[export] Instance Code_eq_dec : EqDecision Code.
Proof. solve_decision. Defined.

Record GrpcStatus := mkStatus { st_code : Code; st_message : string }.

(** ** The token of a client *)

(** A claim as the JWT library decodes it; [ClaimOther] is a value of another type,
    by its text. *)
Inductive ClaimValue :=
| ClaimFloat (v : float64)
| ClaimInt (v : Z)
| ClaimNumber (text : string)
| ClaimString (s : string)
| ClaimOther (type text : string).
#[export] Instance ClaimValue_eq_dec : EqDecision ClaimValue.
Proof. solve_decision. Defined.

(** The parser, for RS256 and the external public key: an error, or whether the
    token is valid and its claims, [None] if they are no map. *)
Class GrpcJwt := {
  parse_RS256 : string -> string + (bool * option (gmap string ClaimValue));
  number_text : ClaimValue -> string;
}.

Definition grpcAuthVersionV1 : string := "V1".
Definition second : Z := 1000000000.
Definition grpcAuthTokenFreshness : Z := 60 * second.

(** [fmt.Sprintf] with [%v]. *)
Definition claim_text `{GrpcJwt} (c : ClaimValue) : string :=
  match c with ClaimString s | ClaimNumber s | ClaimOther _ s => s | c => number_text c end.

(** The conversion of a [float64] to [int64]. *)
Definition f64_trunc_int (x : float64) : Z :=
  match x with
  | S754_zero _ => 0
  | S754_infinity _ | S754_nan => - two63
  | S754_finite s m e =>
    let a := if 0 <=? e then Zpos m * 2 ^ e else Zpos m / 2 ^ (- e) in
    to_int (if s then - a else a)
  end.

Definition parseJWTNumericClaim (value : ClaimValue) : string + Z :=
  match value with
  | ClaimFloat v => inr (f64_trunc_int v)
  | ClaimInt v => inr v
  | ClaimNumber s | ClaimString s =>
    match Atoi s with
    | Some n => inr n
    | None => inl ("strconv.ParseInt: parsing " +:+ s)
    end
  | ClaimOther type _ => inl ("unsupported type " +:+ type)
  end.

(** The instant of a second of the Unix time, counted in nanoseconds from the year
    one as a [time.Time] counts it; the seconds wrap around. *)
Definition unixToInternal : Z := 62135596800.
Definition time_Unix (sec : Z) : Z := i64 (sec + unixToInternal) * second.

Record GrpcAuthService := mkGrpcAuthService {
  as_enabled : bool;
  as_publicKeyOwner : string;
  as_hasExternalKey : bool;
  as_allowedAuthVersion : string;
}.

Definition invalid (msg : string) : option GrpcStatus := Some (mkStatus InvalidArgument msg).

Definition validate_claims `{GrpcJwt} (s : GrpcAuthService) (now : Z) (claims : gmap string ClaimValue) : option GrpcStatus :=
  match claims !! "version" with
  | None => invalid "Version is not specified in the token"
  | Some version =>
    if negb (bool_decide (claim_text version = as_allowedAuthVersion s))
    then invalid ("Unsupported auth version " +:+ claim_text version)
    else match claims !! "iss" with
    | None => invalid "Invalid token: issuer is not specified"
    | Some issuer =>
      if negb (bool_decide (issuer = ClaimString (as_publicKeyOwner s)))
      then invalid ("Invalid token: invalid issuer " +:+ claim_text issuer)
      else match claims !! "iat" with
      | None => invalid "Invalid token: iat is not specified"
      | Some iat =>
        match parseJWTNumericClaim iat with
        | inl err => invalid ("Invalid token: invalid iat (" +:+ err +:+ ")")
        | inr issuedAtUnix =>
          let issuedAt := time_Unix issuedAtUnix in
          if (issuedAt <? now - grpcAuthTokenFreshness) || (now + grpcAuthTokenFreshness <? issuedAt)
          then invalid "Invalid token: iat is out of allowed range" else None
        end
      end
    end
  end.

Definition validateIncomingToken `{GrpcJwt} (s : GrpcAuthService) (now : Z) (token : string) : option GrpcStatus :=
  if bool_decide (token = "") then invalid "Invalid token: token is empty"
  else if negb (as_hasExternalKey s)
  then Some (mkStatus Internal "Error during auth - External public key is not configured")
  else match parse_RS256 token with
  | inl err => invalid ("Invalid token: " +:+ err)
  | inr (false, _) => invalid "Invalid token: token is invalid"
  | inr (true, None) => invalid "Invalid token: unsupported claims"
  | inr (true, Some claims) => validate_claims s now claims
  end.

(** ** Sessions *)

Definition default_ttl : Z := 24 * 3600 * second.

Record grpcSessionStore := mkStore { ttl : Z; sessions : gmap string Z }.

Definition newGrpcSessionStore (ttl : Z) : grpcSessionStore := mkStore (if ttl <=? 0 then default_ttl else ttl) ∅.

Definition set_sessions (m : gmap string Z) (s : grpcSessionStore) : grpcSessionStore := mkStore (ttl s) m.

Definition store_Put (now : Z) (sessionID : string) (s : grpcSessionStore) : grpcSessionStore :=
  if bool_decide (sessionID = "") then s else set_sessions (<[sessionID := now + ttl s]> (sessions s)) s.

(** [Exists] reads an entry, and writes it in a second step of the map: the call is
    over, or the entry is to be deleted, or extended. *)
Inductive Looked := LookedUp (exists_ : bool) | ToDelete | ToExtend (expireAt : Z).

Definition Exists_load (now : Z) (sessionID : string) (s : grpcSessionStore) : Looked :=
  if bool_decide (sessionID = "") then LookedUp false
  else match sessions s !! sessionID with
  | None => LookedUp false
  | Some expireAt => if expireAt <? now then ToDelete else ToExtend (now + ttl s)
  end.

Definition Exists_commit (sessionID : string) (l : Looked) (s : grpcSessionStore) : bool * grpcSessionStore :=
  match l with
  | LookedUp b => (b, s)
  | ToDelete => (false, set_sessions (delete sessionID (sessions s)) s)
  | ToExtend e => (true, set_sessions (<[sessionID := e]> (sessions s)) s)
  end.

Definition Exists_ (now : Z) (sessionID : string) (s : grpcSessionStore) : bool * grpcSessionStore :=
  Exists_commit sessionID (Exists_load now sessionID s) s.

Record grpcSessionAuth := mkSessionAuth { sa_enabled : bool; sa_hasStore : bool }.

(** The session a call names: the first value of its header.  [md] is the metadata
    of the call. *)
Definition named_session (md : option (list string)) : option string :=
  values ← md; Some (TrimSpace (default "" (head values))).

(** [requireSession] up to the look into the store: the call may go on, is refused,
    or depends on its session. *)
Inductive Required := Admitted_ | Refused (e : GrpcStatus) | Needs (sessionID : string).

Definition session_required (a : option grpcSessionAuth) (md : option (list string)) : Required :=
  match a with
  | None => Admitted_
  | Some a =>
    if negb (sa_enabled a) then Admitted_
    else if negb (sa_hasStore a) then Refused (mkStatus Unauthenticated "Session store is not configured")
    else match named_session md with
    | None => Refused (mkStatus Unauthenticated "no metadata")
    | Some sessionID =>
      if bool_decide (sessionID = "") then Refused (mkStatus Unauthenticated "sessionId is not passed") else Needs sessionID
    end
  end.

Definition requireSession (a : option grpcSessionAuth) (now : Z) (md : option (list string)) (s : grpcSessionStore)
    : option GrpcStatus * grpcSessionStore :=
  match session_required a md with
  | Admitted_ => (None, s)
  | Refused e => (Some e, s)
  | Needs sessionID =>
    let '(ok, s') := Exists_ now sessionID s in
    (if ok then None else Some (mkStatus Unauthenticated ("Session " +:+ sessionID +:+ " does not exist")), s')
  end.

(** ** Authentication *)

(** [request] is the token, [None] a nil request; [sign] the provider token for the
    session and the time, or the error of the signature. *)
Definition Authenticate `{GrpcJwt} (s : GrpcAuthService) (now issued : Z) (request : option string) (sessionID : string)
    (sign : Z -> string -> string + string) (store : grpcSessionStore) : (GrpcStatus + string) * grpcSessionStore :=
  if negb (as_enabled s) then (inl (mkStatus Unimplemented "Authentication process is not enabled"), store)
  else match request with
  | None => (inl (mkStatus InvalidArgument "Invalid request: request is nil"), store)
  | Some token =>
    match validateIncomingToken s now token with
    | Some err => (inl err, store)
    | None =>
      match sign issued sessionID with
      | inl err => (inl (mkStatus Internal ("Error during auth - Internal error: " +:+ err)), store)
      | inr signed => (inr signed, store_Put issued sessionID store)
      end
    end
  end.

(** [NewGrpcAuthService]; [loads] are the errors of loading the private and the
    public key. *)
Definition NewGrpcAuthService (cfg : option GrpcAuthConfig) (loadPrivate loadPublic : string -> option string)
    : string + option (GrpcAuthService * grpcSessionAuth * grpcSessionStore) :=
  match cfg with
  | None => inr None
  | Some c =>
    if negb (ga_Enabled c) then inr None
    else match loadPrivate (ga_ProviderPrivateKeyPath c) with
    | Some err => inl ("unable to load grpc provider private key: " +:+ err)
    | None =>
      match loadPublic (ga_ExternalPublicKeyPath c) with
      | Some err => inl ("unable to load grpc external public key: " +:+ err)
      | None => inr (Some (mkGrpcAuthService true (ga_PublicKeyOwner c) true grpcAuthVersionV1,
                           mkSessionAuth true true, newGrpcSessionStore (ga_SessionTTL c)))
      end
    end
  end.

(** ** Calls that run at the same time *)

(** What the sessions were given for: a token that was valid at its time, or a use. *)
Inductive SessionEvent :=
| Issued (sessionID : string) (at_ : Z) (token : string) (checked : Z)
| Used (sessionID : string) (at_ : Z).

Record Lookup_ := mkLookup { lk_id : string; lk_now : Z; lk_found : Looked; lk_result : option bool }.

Record AuthSystem := mkAuthSystem {
  as_store : grpcSessionStore;
  lookups : list Lookup_;
  history : list SessionEvent;
}.

Inductive auth_action :=
| DoAuthenticate (now issued : Z) (request : option string) (sessionID : string)
| DoLook (now : Z) (sessionID : string)
| DoCommit (i : nat).

Section System.
Context `{JW : GrpcJwt} (service : GrpcAuthService) (sign : Z -> string -> string + string).

Definition auth_step (a : auth_action) (y : AuthSystem) : option AuthSystem :=
  match a with
  | DoAuthenticate now issued request sessionID =>
    match Authenticate service now issued request sessionID sign (as_store y), request with
    | (inr _, store), Some token =>
      Some (mkAuthSystem store (lookups y) (Issued sessionID issued token now :: history y))
    | (_, store), _ => Some (mkAuthSystem store (lookups y) (history y))
    end
  | DoLook now sessionID =>
    Some (mkAuthSystem (as_store y)
            (lookups y ++ [mkLookup sessionID now (Exists_load now sessionID (as_store y)) None]) (history y))
  | DoCommit i =>
    k ← lookups y !! i;
    match lk_result k with
    | Some _ => None
    | None =>
      let '(ok, store) := Exists_commit (lk_id k) (lk_found k) (as_store y) in
      Some (mkAuthSystem store (<[i := mkLookup (lk_id k) (lk_now k) (lk_found k) (Some ok)]> (lookups y))
              (if ok then Used (lk_id k) (lk_now k) :: history y else history y))
    end
  end.

Fixpoint auth_steps (l : list auth_action) (y : AuthSystem) : option AuthSystem :=
  match l with [] => Some y | a :: l => y ← auth_step a y; auth_steps l y end.

(** A session that was issued and used often enough to be good at a time. *)
Inductive alive (d : Z) (h : list SessionEvent) (sessionID : string) : Z -> Prop :=
| alive_issued t token checked : Issued sessionID t token checked ∈ h -> alive d h sessionID t
| alive_used t t' : alive d h sessionID t -> t' <= t + d -> Used sessionID t' ∈ h -> alive d h sessionID t'.

Lemma alive_more d h e sessionID t : alive d h sessionID t -> alive d (e :: h) sessionID t.
Proof using Type. induction 1; [econstructor|eapply alive_used]; eauto; by right. Qed.

(** An expiry that is due to a use of the session. *)
Definition due (d : Z) (h : list SessionEvent) (sessionID : string) (e : Z) : Prop :=
  exists t, alive d h sessionID t /\ e = t + d.

Definition found_ok (d : Z) (h : list SessionEvent) (k : Lookup_) : Prop :=
  match lk_found k with
  | ToExtend e => e = lk_now k + d /\ exists t, alive d h (lk_id k) t /\ lk_now k <= t + d
  | LookedUp b => b = false
  | ToDelete => True
  end.

Record auth_inv (d : Z) (y : AuthSystem) : Prop := mkAuthInv {
  ai_ttl : ttl (as_store y) = d;
  ai_sessions : forall sid e, sessions (as_store y) !! sid = Some e -> due d (history y) sid e;
  ai_lookups : Forall (fun k => found_ok d (history y) k /\
                 (lk_result k = Some true -> alive d (history y) (lk_id k) (lk_now k))) (lookups y);
  ai_tokens : forall sid t token checked, Issued sid t token checked ∈ history y ->
                validateIncomingToken service checked token = None;
}.

Lemma due_more d h e sid x : due d h sid x -> due d (e :: h) sid x.
Proof using Type. intros (t & Ht & ->). exists t. split; [by apply alive_more|done]. Qed.

Lemma lookups_more d h e l :
  Forall (fun k => found_ok d h k /\ (lk_result k = Some true -> alive d h (lk_id k) (lk_now k))) l ->
  Forall (fun k => found_ok d (e :: h) k /\ (lk_result k = Some true -> alive d (e :: h) (lk_id k) (lk_now k))) l.
Proof using Type.
  intros Hl. eapply Forall_impl; [exact Hl|]. intros k [H1 H2]. split; [|intros; by apply alive_more, H2].
  unfold found_ok in *. destruct (lk_found k); try done. destruct H1 as (-> & t & Ht & Hle).
  split; [done|]. exists t. split; [by apply alive_more|done].
Qed.

Lemma new_store_inv d : 0 < d -> auth_inv d (mkAuthSystem (newGrpcSessionStore d) [] []).
Proof using Type.
  intros Hd. unfold newGrpcSessionStore. destruct (d <=? 0) eqn:E; reflect_bool; [lia|].
  split; simpl; [done| |constructor|]; intros *; [by rewrite lookup_empty|set_solver].
Qed.

Lemma auth_step_inv d a y y' : auth_inv d y -> auth_step a y = Some y' -> auth_inv d y'.
Proof using Type.
  intros [Ht Hs Hl Hk]. destruct a as [now issued request sid|now sid|i]; simpl.
  - unfold Authenticate. destruct (as_enabled service); simpl; [|intros [= <-]; by split].
    destruct request as [token|]; simpl; [|intros [= <-]; by split].
    destruct (validateIncomingToken service now token) eqn:Ev; simpl; [intros [= <-]; by split|].
    destruct (sign issued sid); simpl; intros [= <-]; [by split|]. split; simpl.
    + unfold store_Put. by case_bool_decide.
    + intros sid' e. unfold store_Put. case_bool_decide; simpl; [intros Hx; by apply due_more, Hs|].
      intros [(<- & <-)|[_ Hx]]%lookup_insert_Some; [|by apply due_more, Hs].
      exists issued. rewrite Ht. split; [|done]. eapply alive_issued. by left.
    + by apply lookups_more.
    + intros sid' t token' checked [E|Hin]%elem_of_cons; [by simplify_eq|by eapply Hk].
  - intros [= <-]. split; simpl; [done|done| |done]. apply Forall_app. split; [done|]. constructor; [|constructor].
    split; [|done]. unfold found_ok, Exists_load. simpl. case_bool_decide; [done|].
    destruct (sessions (as_store y) !! sid) as [e|] eqn:Es; [|done]. destruct (e <? now) eqn:E; [done|].
    rewrite Ht. split; [done|]. destruct (Hs _ _ Es) as (t & Ha & ->). exists t. split; [done|]. by reflect_bool.
  - destruct (lookups y !! i) as [k|] eqn:Ek; [|done]. simpl. destruct (lk_result k) eqn:Er; [done|].
    pose proof (proj1 (Forall_lookup _ _) Hl i k Ek) as [Hf _]. unfold found_ok in Hf.
    destruct (lk_found k) as [b| |e] eqn:Ef; simpl.
    + subst b. intros [= <-]. split; simpl; [done|done| |done].
      apply Forall_insert; [done|]. by split.
    + intros [= <-]. split; simpl; [done| | |done].
      * intros sid' e [_ Hx]%lookup_delete_Some. by apply Hs.
      * apply Forall_insert; [done|]. by split.
    + intros [= <-]. destruct Hf as (-> & t & Ha & Hle).
      assert (alive d (Used (lk_id k) (lk_now k) :: history y) (lk_id k) (lk_now k)) as Hnow.
      { eapply alive_used; [by apply alive_more|done|by left]. }
      split; simpl; [done| | |].
      * intros sid' e [(<- & <-)|[_ Hx]]%lookup_insert_Some; [by eexists|by apply due_more, Hs].
      * apply Forall_insert; [by apply lookups_more|]. split; [|by intros _]. unfold found_ok. simpl.
        split; [done|]. exists t. split; [by apply alive_more|done].
      * intros sid' t' token checked [E|Hin]%elem_of_cons; [done|by eapply Hk].
Qed.

Lemma auth_steps_inv d l y y' : auth_inv d y -> auth_steps l y = Some y' -> auth_inv d y'.
Proof using Type.
  revert y. induction l as [|a l IH]; intros y I; simpl; [by intros [= <-]|].
  intros (y1 & H1 & H2)%bind_Some. eapply IH; [by eapply auth_step_inv|done].
Qed.

(** What a token says that is accepted. *)
Lemma valid_token now token : validateIncomingToken service now token = None ->
  exists claims version iat n, parse_RS256 token = inr (true, Some claims) /\
    claims !! "version" = Some version /\ claim_text version = as_allowedAuthVersion service /\
    claims !! "iss" = Some (ClaimString (as_publicKeyOwner service)) /\
    claims !! "iat" = Some iat /\ parseJWTNumericClaim iat = inr n /\
    now - grpcAuthTokenFreshness <= time_Unix n <= now + grpcAuthTokenFreshness.
Proof using Type.
  unfold validateIncomingToken, invalid. case_bool_decide; [done|]. destruct (as_hasExternalKey service); simpl; [|done].
  destruct (parse_RS256 token) as [|[[] [claims|]]] eqn:Ep; try done. unfold validate_claims, invalid.
  destruct (claims !! "version") as [version|] eqn:E1; [|done].
  destruct (bool_decide (claim_text version = _)) eqn:E2; [|done]. simpl.
  destruct (claims !! "iss") as [issuer|] eqn:E3; [|done].
  destruct (bool_decide (issuer = _)) eqn:E4; [|done]. simpl.
  destruct (claims !! "iat") as [iat|] eqn:E5; [|done]. destruct (parseJWTNumericClaim iat) as [|n] eqn:E6; [done|].
  destruct (_ <? _) eqn:E7; [done|]. destruct (now + _ <? _) eqn:E8; [done|]. intros _. reflect_bool. subst issuer.
  exists claims, version, iat, n. split_and!; done.
Qed.
End System.

Lemma alive_issued_once d h sid t : alive d h sid t -> exists t0 token checked, Issued sid t0 token checked ∈ h.
Proof. induction 1; eauto. Qed.

(** A call that needs a session goes on exactly if the look into the store, in its
    two steps, finds it. *)
Lemma requireSession_looks a now md s sid : session_required a md = Needs sid ->
  (requireSession a now md s).1 = None <-> (Exists_commit sid (Exists_load now sid s) s).1 = true.
Proof. unfold requireSession, Exists_. intros ->. destruct (Exists_commit _ _ _) as [[] s']; done. Qed.

(** C16. A session lets calls through only for a client that authenticated, and only
    while it is used.  However the authentications and the looks and writes of
    concurrent calls interleave, when a call finds its session at a time, the
    session was issued for a token that was signed with the external key, names the
    owner as its issuer and the supported version, and was made within a minute of
    its check; and from then on no two successive uses of the session, this one
    included, lie further apart than its time to live. *)
Theorem session_needs_token `{GrpcJwt} service sign d l y i k : 0 < d ->
  auth_steps service sign l (mkAuthSystem (newGrpcSessionStore d) [] []) = Some y ->
  lookups y !! i = Some k -> lk_result k = Some true ->
  alive d (history y) (lk_id k) (lk_now k) /\
  exists t0 token checked claims version iat n,
    Issued (lk_id k) t0 token checked ∈ history y /\
    parse_RS256 token = inr (true, Some claims) /\
    claims !! "version" = Some version /\ claim_text version = as_allowedAuthVersion service /\
    claims !! "iss" = Some (ClaimString (as_publicKeyOwner service)) /\
    claims !! "iat" = Some iat /\ parseJWTNumericClaim iat = inr n /\
    checked - grpcAuthTokenFreshness <= time_Unix n <= checked + grpcAuthTokenFreshness.
Proof.
  intros Hd Hl Hk Hr. destruct (auth_steps_inv service sign d l _ y (new_store_inv service d Hd) Hl) as [_ _ Hlk Htok].
  destruct (proj1 (Forall_lookup _ _) Hlk i k Hk) as [_ Ha]. specialize (Ha Hr). split; [done|].
  destruct (alive_issued_once _ _ _ _ Ha) as (t0 & token & checked & Hin).
  destruct (valid_token service checked token (Htok _ _ _ _ Hin)) as (claims & version & iat & n & Hp).
  exists t0, token, checked, claims, version, iat, n. by split.
Qed.

(** ** A run *)

#[local] Instance sample_jwt : GrpcJwt := {|
  parse_RS256 token :=
    if bool_decide (token = "good")
    then inr (true, Some (<["version" := ClaimString "V1"]> (<["iss" := ClaimString "drpc"]>
                      (<["iat" := ClaimFloat (f64_of_Z 1700000000)]> ∅))))
    else inl "token is malformed";
  number_text _ := "";
|}.

Definition auth_service : GrpcAuthService := mkGrpcAuthService true "drpc" true grpcAuthVersionV1.

(** A bad token is refused; two calls use the session at the same time, and a third
    comes too late. *)
Definition auth_run : list auth_action :=
  let t := time_Unix 1700000010 in
  [DoAuthenticate t t (Some "bad") "s0"; DoAuthenticate t t (Some "good") "s1"; DoLook (t + 5) "s1"; DoLook (t + 7) "s1";
   DoCommit 1; DoCommit 0; DoLook (t + 30) "s1"; DoCommit 2].

Definition auth_end : option AuthSystem :=
  auth_steps auth_service (fun _ s => inr s) auth_run (mkAuthSystem (newGrpcSessionStore 20) [] []).

Example auth_end_results : map lk_result <$> (lookups <$> auth_end) = Some [Some true; Some true; Some false].
Proof. vm_compute. reflexivity. Qed.

Lemma session_needs_token_witness : exists y k,
  auth_end = Some y /\ lookups y !! 1%nat = Some k /\ lk_result k = Some true /\
  alive 20 (history y) (lk_id k) (lk_now k).
Proof.
  pose proof auth_end_results as Hr. destruct auth_end as [y|] eqn:E; [|discriminate Hr]. simpl in Hr. injection Hr as Hr.
  destruct (lookups y) as [|k0 [|k rest]] eqn:El; try discriminate Hr. injection Hr as _ Hk _. exists y, k.
  assert (lookups y !! 1%nat = Some k) as Hl by (rewrite El; reflexivity). split; [done|]. split; [exact Hl|].
  split; [done|]. exact (proj1 (session_needs_token auth_service (fun _ s => inr s) 20 auth_run y 1 k ltac:(lia) E Hl Hk)).
Defined.
