(* ===== verification/Quorum.v ===== *)
(** Quorum reads: the signatures an upstream returns in its headers, and their
    verification against the keys of the providers
    ([internal/quorum/quorum.go], [context.go]).  The texts of the errors are not modelled. *)

From S2P Require Import Prelude.
From S2P Require Import GoStrings.
From Stdlib Require Import Ascii.

(** ** Quorum parameters *)

Record Params := mkParams { p_Quorum : Z; p_QuorumOf : Z }.

Definition Requested (p : Params) : bool :=
  (0 <? p_Quorum p) && (0 <? p_QuorumOf p) && (p_Quorum p <=? p_QuorumOf p).

(** [q] is [url.Values.Get], empty for an absent key. *)
Definition ParamsFromQuery (q : string -> string) : Params :=
  let read key := if bool_decide (q key = "") then 0 else default 0 (Atoi (q key)) in
  mkParams (read "quorum_required") (read "quorum").

(** The pairs [EncodeQuery] writes, in the order of [url.Values.Encode]. *)
Definition query_pairs (p : Params) : list (string * string) :=
  if Requested p then [("quorum", pretty (p_QuorumOf p)); ("quorum_required", pretty (p_Quorum p))] else [].

Definition WithParams (ctx : option Params) (p : Params) : option Params :=
  if Requested p then Some p else ctx.

(** ** What the code takes from Go's libraries *)

(** The hash and the two signature schemes, over byte strings. *)
Class Crypto := {
  EcdsaKey : Type;
  RsaKey : Type;
  sha256_Sum256 : string -> string;
  ecdsa_VerifyASN1 : EcdsaKey -> string -> string -> bool;
  rsa_VerifyPKCS1v15 : RsaKey -> string -> string -> bool;
}.

(** [strings.EqualFold] compares up to Unicode case folding. *)
Class Folding := EqualFold : string -> string -> bool.
Class FoldingLaws `{Folding} : Prop := EqualFold_refl : forall s, EqualFold s s = true.

(** [sort.Slice] sorts, in no fixed order among equal elements. *)
Class SliceSort := {
  sort_slice : forall {A}, (A -> A -> bool) -> list A -> list A;
  sort_slice_perm : forall {A} (less : A -> A -> bool) l, sort_slice less l ≡ₚ l;
}.

(** ** Data *)

Record Signature := mkSignature {
  Index : Z;
  RequestID : string;
  ProviderID : string;
  UpstreamID : string;
  Nonce : Z;
  Raw : string;
}.

Inductive HeaderCause :=
| BadIndex
| MissingNonce
| EmptyPrefix
| MissingSig
| InvalidNonce (nonce : string)
| EmptySignature
| InvalidHex
| PrefixNotClosed (prefix : string)
| PrefixNotOpened (prefix : string)
| EmptyProvider
| EmptyUpstream.

Inductive KeyCause := EcdsaMismatch | RsaMismatch | UnsupportedKey.

Inductive QuorumError :=
| MissingSignaturesError
| InsufficientSignaturesError (got required : Z)
| UnknownProviderError (provider : string) (index : Z)
| InvalidSignatureError (provider : string) (index : Z) (cause : KeyCause)
| MalformedHeaderError (header : string) (cause : HeaderCause)
| UnexpectedRequestIDError (expected got : string) (index : Z).

Section Verify.
Context `{CR : Crypto} `{FO : Folding} `{SS : SliceSort} `{MR : MapRange}.

(** The types a [crypto.PublicKey] is switched on. *)
Inductive PublicKey :=
| EcdsaPublicKey (k : EcdsaKey)
| RsaPublicKey (k : RsaKey)
| OtherPublicKey.

Abbreviation Registry := (gmap string PublicKey).

(** A nil registry has no keys, as an empty one. *)
Definition Registry_Lookup (r : Registry) (providerID : string) : option PublicKey := r !! providerID.

(** ** The signed message *)

Definition WrapMessage (nonce : Z) (source message : string) : string :=
  "DSHACKLESIG" +:+ "/" +:+ FormatUint nonce +:+ "/" +:+ source +:+ "/" +:+
  hex_encode (sha256_Sum256 message).

Definition verifyDigest (pub : PublicKey) (digest signature : string) : option KeyCause :=
  match pub with
  | EcdsaPublicKey k => if ecdsa_VerifyASN1 k digest signature then None else Some EcdsaMismatch
  | RsaPublicKey k => if rsa_VerifyPKCS1v15 k digest signature then None else Some RsaMismatch
  | OtherPublicKey => Some UnsupportedKey
  end.

Definition verifySignature (r : Registry) (s : Signature) (result : string) : option QuorumError :=
  match Registry_Lookup r (ProviderID s) with
  | None => Some (UnknownProviderError (ProviderID s) (Index s))
  | Some pub =>
    let digest := sha256_Sum256 (WrapMessage (Nonce s) (UpstreamID s) result) in
    match verifyDigest pub digest (Raw s) with
    | Some cause => Some (InvalidSignatureError (ProviderID s) (Index s) cause)
    | None => None
    end
  end.

Definition Verify (r : Registry) (providerID upstreamID : string) (nonce : Z) (signature message : string)
    : option QuorumError :=
  match Registry_Lookup r providerID with
  | None => Some (UnknownProviderError providerID 0)
  | Some pub =>
    match verifyDigest pub (sha256_Sum256 (WrapMessage nonce upstreamID message)) signature with
    | Some cause => Some (InvalidSignatureError providerID 0 cause)
    | None => None
    end
  end.

(** ** Headers *)

Definition splitPrefix (prefix : string) : HeaderCause + string * string :=
  match strip_last ")" prefix with
  | None => inl (PrefixNotClosed prefix)
  | Some body =>
    match cut_last "(" body with
    | None => inl (PrefixNotOpened prefix)
    | Some (providerID, upstreamID) =>
      if bool_decide (providerID = "") then inl EmptyProvider
      else if bool_decide (upstreamID = "") then inl EmptyUpstream
      else inr (providerID, upstreamID)
    end
  end.

Definition trim_prefix (p s : string) : string := default s (strip_prefix p s).

Definition parseHeaderValue (value : string) : HeaderCause + string * Z * string :=
  match cut_string "_nonce_" value with
  | None => inl MissingNonce
  | Some (prefix, rest) =>
    if bool_decide (prefix = "") then inl EmptyPrefix
    else
      match cut_string "_sig_" rest with
      | None => inl MissingSig
      | Some (nonceStr, sigHex) =>
        match ParseUint nonceStr with
        | None => inl (InvalidNonce nonceStr)
        | Some nonce =>
          let sigHex := trim_prefix "0X" (trim_prefix "0x" sigHex) in
          if bool_decide (sigHex = "") then inl EmptySignature
          else
            match hex_decode sigHex with
            | None => inl InvalidHex
            | Some sig => inr (prefix, nonce, sig)
            end
        end
      end
  end.

(** The regular expression [(?i)^QR(\d+)-id-(.+)$] and its two groups; a dot does
    not match a newline (the character 10). *)
Definition to_lower (c : ascii) : ascii :=
  let n := N_of_ascii c in if bool_decide (65 <= n <= 90)%N then ascii_of_N (n + 32) else c.

Fixpoint strip_prefix_fold (p s : string) : option string :=
  match p, s with
  | EmptyString, _ => Some s
  | String x p', String y s' =>
    if bool_decide (to_lower x = to_lower y) then strip_prefix_fold p' s' else None
  | String _ _, EmptyString => None
  end.

Fixpoint span_digits (s : string) : string * string :=
  match s with
  | EmptyString => ("", "")
  | String c s' =>
    match digit_value c with
    | Some _ => let '(d, rest) := span_digits s' in (String c d, rest)
    | None => ("", s)
    end
  end.

Definition qrHeaderName (name : string) : option (string * string) :=
  match strip_prefix_fold "QR" name with
  | None => None
  | Some rest =>
    let '(digits, rest) := span_digits rest in
    if bool_decide (digits = "") then None
    else
      match strip_prefix_fold "-id-" rest with
      | None => None
      | Some id =>
        if bool_decide (id = "") || contains_char "010" id then None else Some (digits, id)
      end
  end.

(** The loop over the values of one header. *)
Fixpoint extract_values (name : string) (index : Z) (reqID : string) (values : list string)
    : QuorumError + list Signature :=
  match values with
  | [] => inr []
  | value :: values' =>
    match parseHeaderValue value with
    | inl cause => inl (MalformedHeaderError name cause)
    | inr (prefix, nonce, sig) =>
      match splitPrefix prefix with
      | inl cause => inl (MalformedHeaderError name cause)
      | inr (providerID, upstreamID) =>
        match extract_values name index reqID values' with
        | inl e => inl e
        | inr sigs => inr (mkSignature index reqID providerID upstreamID nonce sig :: sigs)
        end
      end
    end
  end.

(** The loop over the headers, in the order the map is ranged in. *)
Fixpoint extract_headers (headers : list (string * list string)) : QuorumError + list Signature :=
  match headers with
  | [] => inr []
  | (name, values) :: headers' =>
    match qrHeaderName name with
    | None => extract_headers headers'
    | Some (digits, reqID) =>
      match Atoi digits with
      | None => inl (MalformedHeaderError name BadIndex)
      | Some index =>
        match extract_values name index reqID values with
        | inl e => inl e
        | inr sigs =>
          match extract_headers headers' with
          | inl e => inl e
          | inr rest => inr (sigs ++ rest)
          end
        end
      end
    end
  end.

Definition ExtractSignatures (headers : gmap string (list string)) : QuorumError + list Signature :=
  match extract_headers (range headers) with
  | inl e => inl e
  | inr out => inr (sort_slice (fun a b => Index a <? Index b) out)
  end.

(** The loop of [VerifyHeaders]. *)
Fixpoint verify_all (r : Registry) (result expectedRequestID : string) (sigs : list Signature)
    : option QuorumError :=
  match sigs with
  | [] => None
  | s :: sigs' =>
    if negb (bool_decide (expectedRequestID = "")) && negb (EqualFold (RequestID s) expectedRequestID)
    then Some (UnexpectedRequestIDError expectedRequestID (RequestID s) (Index s))
    else
      match verifySignature r s result with
      | Some e => Some e
      | None => verify_all r result expectedRequestID sigs'
      end
  end.

(** [None] is acceptance. *)
Definition VerifyHeaders (r : Registry) (headers : gmap string (list string))
    (result expectedRequestID : string) (minRequired : Z) : option QuorumError :=
  match ExtractSignatures headers with
  | inl e => Some e
  | inr sigs =>
    let got := Z.of_nat (length sigs) in
    if got =? 0 then Some MissingSignaturesError
    else if (0 <? minRequired) && (got <? minRequired)
    then Some (InsufficientSignaturesError got minRequired)
    else verify_all r result expectedRequestID sigs
  end.
End Verify.

(** ** What acceptance means *)

Section Accept.
Context `{CR : Crypto} `{FO : Folding} `{SS : SliceSort} `{MR : MapRange}.

(** The signature in one value of a header. *)
Definition header_signature (name value : string) : option Signature :=
  match qrHeaderName name with
  | None => None
  | Some (digits, reqID) =>
    match Atoi digits, parseHeaderValue value with
    | Some index, inr (prefix, nonce, sig) =>
      match splitPrefix prefix with
      | inr (providerID, upstreamID) => Some (mkSignature index reqID providerID upstreamID nonce sig)
      | inl _ => None
      end
    | _, _ => None
    end
  end.

(** The values of the signature headers, with their names. *)
Definition qr_entries (headers : list (string * list string)) : list (string * string) :=
  mjoin (map (fun '(name, values) =>
    match qrHeaderName name with Some _ => map (pair name) values | None => [] end) headers).

Definition index_ok (h : string * list string) : Prop :=
  forall digits reqID, qrHeaderName h.1 = Some (digits, reqID) -> is_Some (Atoi digits).

(** The provider's key verifies the signature over the result. *)
Definition signature_valid (r : gmap string PublicKey) (s : Signature) (result : string) : Prop :=
  exists pub, r !! ProviderID s = Some pub /\
    verifyDigest pub (sha256_Sum256 (WrapMessage (Nonce s) (UpstreamID s) result)) (Raw s) = None.

Definition id_matches (expected : string) (s : Signature) : Prop :=
  expected = "" \/ EqualFold (RequestID s) expected = true.

Lemma extract_values_spec name digits reqID index values sigs :
  qrHeaderName name = Some (digits, reqID) -> Atoi digits = Some index ->
  extract_values name index reqID values = inr sigs <->
  mapM (header_signature name) values = Some sigs.
Proof using Type.
  intros Hq Hi. revert sigs. induction values as [|v values IH]; intros sigs; simpl;
    [split; by intros [= <-]|].
  destruct (header_signature name v) as [s|] eqn:Eh; unfold header_signature in Eh; rewrite Hq, Hi in Eh;
    destruct (parseHeaderValue v) as [|[[prefix nonce] sig]]; simplify_eq; try (by split);
    destruct (splitPrefix prefix) as [|[p u]]; simplify_eq; try (by split).
  destruct (extract_values name index reqID values) as [e|rest] eqn:E.
  - destruct (mapM (header_signature name) values) as [rest|] eqn:Em; [|by split].
    destruct (IH rest) as [_ IH2]. by specialize (IH2 eq_refl).
  - rewrite (proj1 (IH rest)) by done. simpl. split; by intros [= <-].
Qed.

Lemma mapM_pairs name values :
  mapM (uncurry header_signature) (map (pair name) values) = mapM (header_signature name) values.
Proof using Type. induction values as [|v values IH]; [done|]. simpl. by rewrite IH. Qed.

Lemma mapM_app_some {A B} (f : A -> option B) l1 l2 k :
  mapM f (l1 ++ l2) = Some k <-> exists k1 k2, mapM f l1 = Some k1 /\ mapM f l2 = Some k2 /\ k = k1 ++ k2.
Proof using Type.
  revert k. induction l1 as [|x l1 IH]; intros k; simpl.
  - split; [intros; by exists [], k|by intros (k1 & k2 & [= <-] & ? & ->)].
  - destruct (f x) as [y|]; simpl; [|by split; [|intros (? & ? & ? & _)]].
    destruct (mapM f (l1 ++ l2)) as [k'|] eqn:E; simpl.
    + destruct (proj1 (IH k') eq_refl) as (k1 & k2 & E1 & E2 & ->). rewrite E1, E2. simpl.
      split; [intros [= <-]; by exists (y :: k1), k2|by intros (? & ? & [= <-] & [= <-] & ->)].
    + split; [done|]. intros (k1 & k2 & E1 & E2 & ->).
      destruct (mapM f l1) as [k1'|] eqn:E1'; [|done].
      destruct (IH (k1' ++ k2)) as [_ IH2]. discriminate IH2. by exists k1', k2.
Qed.

Lemma extract_headers_spec hs sigs :
  extract_headers hs = inr sigs <->
  Forall index_ok hs /\ mapM (uncurry header_signature) (qr_entries hs) = Some sigs.
Proof using Type.
  revert sigs. induction hs as [|[name values] hs IH]; intros sigs.
  - unfold qr_entries. simpl. split; [intros [= <-]; by split|by intros [_ [= <-]]].
  - assert (qr_entries ((name, values) :: hs) =
      (match qrHeaderName name with Some _ => map (pair name) values | None => [] end) ++ qr_entries hs)
      as Hcons by done.
    rewrite Hcons, Forall_cons, mapM_app_some. cbn [extract_headers].
    destruct (qrHeaderName name) as [[digits reqID]|] eqn:Hq.
    + destruct (Atoi digits) as [index|] eqn:Hi.
      * assert (index_ok (name, values)) as Hok by (intros d r Hd; simpl in Hd; naive_solver).
        rewrite mapM_pairs. setoid_rewrite <- (extract_values_spec name digits reqID index values); [|done..].
        destruct (extract_values name index reqID values) as [e|k1]; [naive_solver|].
        destruct (extract_headers hs) as [e|k2].
        -- split; [done|]. intros [[_ Hf] (k1' & k2 & _ & H2 & _)].
           destruct (IH k2) as [_ IH2]. specialize (IH2 (conj Hf H2)). done.
        -- destruct (IH k2) as [IH2 _]. destruct (IH2 eq_refl) as [Hf H2]. split.
           ++ intros [= <-]. eauto 8.
           ++ intros [_ (k1' & k2' & [= <-] & H2' & ->)]. rewrite H2 in H2'. by injection H2' as <-.
      * split; [done|]. intros [[Hok _] _]. destruct (Hok digits reqID Hq) as [? E]. by rewrite Hi in E.
    + rewrite IH. assert (index_ok (name, values)) as Hok by (intros d r Hd; simpl in Hd; congruence).
      split.
      * intros [Hf Hm]. split; [done|]. by exists [], sigs.
      * intros [[_ Hf] (k1 & k2 & [= <-] & Hm & ->)]. done.
Qed.

Lemma verify_all_spec r result expected sigs :
  verify_all r result expected sigs = None <->
  Forall (fun s => id_matches expected s /\ signature_valid r s result) sigs.
Proof using Type.
  induction sigs as [|s sigs IH]; simpl; [by split|]. rewrite Forall_cons.
  unfold id_matches at 1, signature_valid at 1, verifySignature, Registry_Lookup.
  destruct (bool_decide (expected = "")) eqn:He, (EqualFold (RequestID s) expected) eqn:Hf; reflect_bool;
    cbn [negb andb]; try (split; [done|naive_solver]).
  all: destruct (r !! ProviderID s) as [pub|]; [|naive_solver].
  all: destruct (verifyDigest pub _ _) eqn:Hv; naive_solver.
Qed.

Lemma qr_entries_perm hs hs' : hs ≡ₚ hs' -> qr_entries hs ≡ₚ qr_entries hs'.
Proof using Type. intros Hp. unfold qr_entries. by rewrite Hp. Qed.

Lemma elem_of_qr_entries (headers : gmap string (list string)) name v :
  (name, v) ∈ qr_entries (map_to_list headers) <->
  exists values, headers !! name = Some values /\ is_Some (qrHeaderName name) /\ v ∈ values.
Proof using Type.
  unfold qr_entries. rewrite list_elem_of_join. split.
  - intros (l & Hin & ([name' values] & -> & Hh%elem_of_map_to_list)%list_elem_of_fmap).
    destruct (qrHeaderName name') eqn:Hq; [|by apply elem_of_nil in Hin].
    apply list_elem_of_fmap in Hin as (w & [= -> ->] & Hw). rewrite Hq. eauto.
  - intros (values & Hh%elem_of_map_to_list & [q Hq] & Hv). exists (map (pair name) values).
    split; [by apply list_elem_of_fmap; eauto|]. apply list_elem_of_fmap.
    exists (name, values). by rewrite Hq.
Qed.

Definition accepts (r : gmap string PublicKey) (result expected : string) (e : string * string) : Prop :=
  exists s, header_signature e.1 e.2 = Some s /\ id_matches expected s /\ signature_valid r s result.

Lemma mapM_perm {A B} (f : A -> option B) (P : B -> Prop) l l' k :
  l ≡ₚ l' -> mapM f l = Some k ->
  length k = length l' /\ (Forall P k <-> Forall (fun x => exists y, f x = Some y /\ P y) l').
Proof using Type.
  intros Hp Hm. rewrite <- Hp. clear l' Hp. apply mapM_Some_1 in Hm.
  induction Hm as [|x y l k Hxy _ IH]; [by split|]. simpl. destruct IH as [-> IH]. split; [done|].
  rewrite !Forall_cons, IH. naive_solver.
Qed.

Lemma mapM_total {A B} (f : A -> option B) l : Forall (fun x => is_Some (f x)) l -> is_Some (mapM f l).
Proof using Type.
  induction 1 as [|x l [y Hy] _ [k IH]]; [eauto|]. simpl. rewrite Hy. simpl. rewrite IH. simpl. eauto.
Qed.

(** The acceptance of a list of headers does not depend on the order they are
    ranged and sorted in. *)
Lemma VerifyHeaders_accepts r headers result expected minRequired :
  VerifyHeaders r headers result expected minRequired = None <->
  Forall index_ok (map_to_list headers) /\
  (0 < Z.of_nat (length (qr_entries (map_to_list headers))) /\
   minRequired <= Z.of_nat (length (qr_entries (map_to_list headers)))) /\
  Forall (accepts r result expected) (qr_entries (map_to_list headers)).
Proof using Type.
  pose proof (range_perm headers) as Hr. pose proof (qr_entries_perm _ _ Hr) as Hq.
  unfold VerifyHeaders, ExtractSignatures.
  destruct (extract_headers (range headers)) as [e|out] eqn:E.
  - split; [done|]. intros (Hi & _ & Hf). rewrite <- Hr in Hi.
    destruct (mapM_total (uncurry header_signature) (qr_entries (range headers))) as [k Hk].
    { rewrite Hq. eapply Forall_impl; [done|]. intros [n v] (s & Hs & _). eauto. }
    destruct (extract_headers_spec (range headers) k) as [_ H2]. rewrite E in H2.
    discriminate (H2 (conj Hi Hk)).
  - apply extract_headers_spec in E as [Hi Hm]. rewrite Hr in Hi.
    destruct (mapM_perm _ (fun s => id_matches expected s /\ signature_valid r s result) _ _ _ Hq Hm) as [Hl Hf].
    cbv zeta. assert (length (sort_slice (fun a b => Index a <? Index b) out) =
      length (qr_entries (map_to_list headers))) as -> by (by rewrite sort_slice_perm, Hl).
    set (n := Z.of_nat (length (qr_entries (map_to_list headers)))).
    assert (verify_all r result expected (sort_slice (fun a b => Index a <? Index b) out) = None <->
      Forall (accepts r result expected) (qr_entries (map_to_list headers))) as Hv.
    { rewrite verify_all_spec, (sort_slice_perm _ out), Hf. apply Forall_iff. by intros []. }
    destruct (n =? 0) eqn:E0, ((0 <? minRequired) && (n <? minRequired)) eqn:E1; reflect_bool;
      [split; [done|lia]|split; [done|lia]|split; [done|lia]|].
    rewrite Hv. assert (0 < n /\ minRequired <= n) by (destruct E1; reflect_bool; lia). tauto.
Qed.
End Accept.

(** Quorum verification accepts a response exactly when every signature
    header is well formed, there is at least one and at least as many as
    required, and every one of them belongs to the expected request and
    verifies under its provider's key over the result; the order in which the
    headers are visited and sorted does not matter. *)
Theorem VerifyHeaders_accepts_iff `{Crypto} `{Folding} `{SliceSort} `{MapRange}
    r headers result expected minRequired :
  VerifyHeaders r headers result expected minRequired = None <->
  (forall name values digits id, headers !! name = Some values ->
     qrHeaderName name = Some (digits, id) -> is_Some (Atoi digits)) /\
  (let n := Z.of_nat (length (qr_entries (map_to_list headers))) in 0 < n /\ minRequired <= n) /\
  (forall name values v, headers !! name = Some values -> is_Some (qrHeaderName name) -> v ∈ values ->
     exists s, header_signature name v = Some s /\ id_matches expected s /\ signature_valid r s result).
Proof.
  rewrite VerifyHeaders_accepts. cbv zeta. rewrite !Forall_forall. split; intros (Hi & Hn & Hf); (split; [|split; [exact Hn|]]).
  - intros name values digits id Hh Hq. by apply (Hi (name, values) ltac:(by apply elem_of_map_to_list) digits id).
  - intros name values v Hh Hq Hv. apply (Hf (name, v)). apply elem_of_qr_entries. eauto.
  - intros [name values] Hh%elem_of_map_to_list d id Hq. by eapply Hi.
  - intros [name v] (values & Hh & Hq & Hv)%elem_of_qr_entries. by eapply Hf.
Qed.

(** ** Round trips *)

(** The value of a signature header, as the package's documentation gives it. *)
Definition header_value (providerID upstreamID : string) (nonce : Z) (sig : string) : string :=
  (providerID +:+ "(" +:+ upstreamID) +:+ ")" +:+ "_nonce_" +:+ FormatUint nonce +:+ "_sig_" +:+ hex_encode sig.

Definition header_name (index : Z) (requestID : string) : string :=
  "QR" +:+ FormatUint index +:+ "-id-" +:+ requestID.

Lemma span_digits_word s acc n c rest :
  parse_digits acc s = Some n -> digit_value c = None ->
  span_digits (s +:+ String c rest) = (s, String c rest).
Proof.
  intros Hs Hc. revert acc Hs. induction s as [|x s IH]; intros acc; simpl; [by rewrite Hc|].
  destruct (digit_value x); [|done]. intros Hs. by rewrite (IH _ Hs).
Qed.

Lemma qrHeaderName_header_name index requestID :
  0 <= index -> requestID <> "" -> contains_char "010" requestID = false ->
  qrHeaderName (header_name index requestID) = Some (FormatUint index, requestID).
Proof.
  intros Hi Hne Hnl. unfold qrHeaderName, header_name.
  change ("QR" +:+ ?s) with (String "Q" (String "R" s)). cbn [strip_prefix_fold].
  rewrite !bool_decide_eq_true_2 by done.
  change ("-id-" +:+ requestID) with (String "-" ("id-" +:+ requestID)).
  rewrite (span_digits_word _ 0 index) by (by try apply parse_FormatUint).
  rewrite (bool_decide_eq_false_2 (FormatUint index = "")) by apply FormatUint_nonempty.
  change ("id-" +:+ requestID) with (String "i" (String "d" (String "-" requestID))).
  cbn [strip_prefix_fold]. rewrite !bool_decide_eq_true_2 by done.
  by rewrite bool_decide_eq_false_2, Hnl.
Qed.

Lemma hex_encode_no_prefix x s : x = "x"%char \/ x = "X"%char ->
  strip_prefix (String "0" (String x "")) (hex_encode s) = None.
Proof.
  intros Hx. destruct s as [|c s]; [done|]. cbn [hex_encode strip_prefix].
  destruct (bool_decide ("0"%char = _)); [|done].
  rewrite bool_decide_eq_false_2; [done|]. unfold hex_digit.
  destruct Hx as [-> | ->]; by repeat case_match.
Qed.

Lemma trim_prefix_hex s : trim_prefix "0X" (trim_prefix "0x" (hex_encode s)) = hex_encode s.
Proof.
  assert (trim_prefix "0x" (hex_encode s) = hex_encode s) as ->
    by (unfold trim_prefix; by rewrite hex_encode_no_prefix by auto).
  unfold trim_prefix. by rewrite hex_encode_no_prefix by auto.
Qed.

Lemma parseHeaderValue_header_value p u nonce sig :
  is_u64 nonce -> sig <> "" -> cut_string "_nonce_" (p +:+ "(" +:+ u) = None ->
  parseHeaderValue (header_value p u nonce sig) = inr ((p +:+ "(" +:+ u) +:+ ")", nonce, sig).
Proof.
  intros Hn Hs Hc. unfold parseHeaderValue, header_value.
  change (")" +:+ "_nonce_" +:+ ?r) with (String ")" ("_nonce_" +:+ r)).
  rewrite cut_string_after by done.
  assert ((p +:+ "(" +:+ u) +:+ String ")" "" <> "") by (by destruct p).
  rewrite bool_decide_eq_false_2 by done.
  change ("_sig_" +:+ ?r) with (String "_" "sig_" +:+ r).
  rewrite cut_string_word
    by (apply FormatUint_no_char; intros d _; unfold pretty_N_char; by repeat case_match).
  rewrite ParseUint_FormatUint by done. rewrite trim_prefix_hex.
  rewrite hex_decode_encode, bool_decide_eq_false_2; [done|]. by destruct sig.
Qed.

Lemma splitPrefix_spec p u :
  p <> "" -> u <> "" -> contains_char "(" u = false ->
  splitPrefix ((p +:+ "(" +:+ u) +:+ ")") = inr (p, u).
Proof.
  intros Hp Hu Hc. unfold splitPrefix. rewrite strip_last_app.
  change ("(" +:+ u) with (String "(" u). rewrite cut_last_app by done.
  by rewrite !bool_decide_eq_false_2.
Qed.

(** A signature header built as documented is read back: its name gives the
    index and the request id, and its value the provider, the upstream, the
    nonce and the signature bytes, whatever underscores and parentheses the
    provider id holds, as long as the separator is not one of its parts. *)
Theorem header_roundtrip index requestID p u nonce sig :
  0 <= index < two63 -> requestID <> "" -> contains_char "010" requestID = false ->
  is_u64 nonce -> sig <> "" -> p <> "" -> u <> "" -> contains_char "(" u = false ->
  cut_string "_nonce_" (p +:+ "(" +:+ u) = None ->
  header_signature (header_name index requestID) (header_value p u nonce sig) =
    Some (mkSignature index requestID p u nonce sig).
Proof.
  intros Hi Hid Hnl Hn Hs Hp Hu Hc Hsep. unfold header_signature.
  rewrite qrHeaderName_header_name, Atoi_FormatUint, parseHeaderValue_header_value by (done || lia).
  by rewrite splitPrefix_spec.
Qed.

Lemma header_roundtrip_witness :
  header_signature "QR1-id-42" "drpc@eu#0(eth_main)_nonce_7_sig_ab01" =
    Some (mkSignature 1 "42" "drpc@eu#0" "eth_main" 7 (String "171" (String "001" ""))).
Proof.
  exact (header_roundtrip 1 "42" "drpc@eu#0" "eth_main" 7 (String "171" (String "001" ""))
    ltac:(done) ltac:(done) ltac:(done) ltac:(done) ltac:(done) ltac:(done) ltac:(done) ltac:(done)
    ltac:(done)).
Defined.

(** The signed message is unambiguous: two of them are equal only if the
    nonces, the upstream ids and the hashes of the results are. *)
Theorem WrapMessage_injective `{Crypto} n1 n2 source1 source2 message1 message2 :
  is_u64 n1 -> is_u64 n2 -> WrapMessage n1 source1 message1 = WrapMessage n2 source2 message2 ->
  n1 = n2 /\ source1 = source2 /\ sha256_Sum256 message1 = sha256_Sum256 message2.
Proof.
  intros H1 H2 E. unfold WrapMessage in E. do 2 apply (inj (String.append _)) in E.
  assert (forall n, contains_char "/" (FormatUint n) = false) as Hf
    by (intros n; apply FormatUint_no_char; intros d _; unfold pretty_N_char; by repeat case_match).
  assert (forall s, contains_char "/" (hex_encode s) = false) as Hh
    by (intros s; apply hex_encode_no_char; intros d; unfold hex_digit; by repeat case_match).
  apply (f_equal (cut_at "/")) in E. change ("/" +:+ ?s) with (String "/" s) in E.
  rewrite !cut_at_app in E by apply Hf. injection E as En E.
  apply (f_equal ParseUint) in En. rewrite !ParseUint_FormatUint in En by done. injection En as ->.
  change ("/" +:+ ?s) with (String "/" s) in E. apply (f_equal (cut_last "/")) in E.
  rewrite !cut_last_app in E by apply Hh. injection E as -> E.
  apply (f_equal hex_decode) in E. rewrite !hex_decode_encode in E. by injection E.
Qed.

(** A toy signature scheme, for the witnesses: the signature is the key followed
    by the digest. *)
#[local] Instance demo_crypto : Crypto := {|
  EcdsaKey := string;
  RsaKey := string;
  sha256_Sum256 s := s;
  ecdsa_VerifyASN1 k digest sig := bool_decide (sig = k +:+ digest);
  rsa_VerifyPKCS1v15 k digest sig := bool_decide (sig = k +:+ digest);
|}.

#[local] Instance demo_folding : Folding := fun s t => bool_decide (s = t).
#[local] Instance demo_folding_laws : FoldingLaws.
Proof. intros s. by apply bool_decide_eq_true_2. Qed.

#[local] Instance demo_sort : SliceSort.
Proof. exists (fun A less l => stable_sort less l). intros. apply stable_sort_perm. Defined.

Definition demo_keys : gmap string PublicKey := {[ "p" := EcdsaPublicKey ("k" : EcdsaKey) ]}.

(** The provider's signature over the result [r]. *)
Definition demo_value : string :=
  header_value "p" "u" 7 ("k" +:+ sha256_Sum256 (WrapMessage 7 "u" "r")).

Lemma WrapMessage_injective_witness :
  WrapMessage 7 "a/b" "r" = WrapMessage 7 "a/b" "r" /\ 7 = 7.
Proof. split; [done|]. exact (proj1 (WrapMessage_injective 7 7 "a/b" "a/b" "r" "r" ltac:(done) ltac:(done) eq_refl)). Defined.

#[local] Existing Instance Prelude.default_range.

Lemma VerifyHeaders_accepts_iff_witness :
  VerifyHeaders demo_keys {[ "Qr0-Id-9" := [demo_value] ]} "r" "9" 1 = None /\
  VerifyHeaders demo_keys {[ "Qr0-Id-9" := [demo_value] ]} "forged" "9" 1 <> None /\
  exists s, header_signature "Qr0-Id-9" demo_value = Some s /\ signature_valid demo_keys s "r".
Proof.
  split; [by vm_compute|]. split; [by vm_compute|].
  pose proof (proj1 (VerifyHeaders_accepts_iff demo_keys {[ "Qr0-Id-9" := [demo_value] ]} "r" "9" 1)) as Hw.
  destruct (Hw ltac:(by vm_compute)) as (_ & _ & Hs).
  destruct (Hs "Qr0-Id-9" [demo_value] demo_value eq_refl ltac:(by vm_compute; eexists) ltac:(by left))
    as (s & E & _ & Hv). eauto.
Defined.

(** Neither the request id nor the number of providers is protected: a
    signature accepted once is accepted again for every other request with the
    same result, and copies of this one signature fill every quorum, because
    the id is only read from the unsigned name of the header and nothing asks
    for different providers. *)
Theorem replayed_signature_fills_quorum `{Crypto} `{FoldingLaws} `{SliceSort} `{MapRange}
    r headers result id0 min0 name values v id n :
  VerifyHeaders r headers result id0 min0 = None ->
  headers !! name = Some values -> is_Some (qrHeaderName name) -> v ∈ values ->
  id <> "" -> contains_char "010" id = false -> (0 < n)%nat ->
  VerifyHeaders r {[ header_name 0 id := replicate n v ]} result id (Z.of_nat n) = None.
Proof.
  intros Hacc Hh Hq Hv Hid Hnl Hn. rewrite VerifyHeaders_accepts in Hacc |- *.
  destruct Hacc as (_ & _ & Hf). rewrite Forall_forall in Hf.
  destruct (Hf (name, v)) as (s & Hs & _ & Hval); [by apply elem_of_qr_entries; eauto|]. cbn [fst snd] in Hs.
  pose proof (qrHeaderName_header_name 0 id ltac:(lia) Hid Hnl) as Hname.
  rewrite map_to_list_singleton.
  assert (qr_entries [(header_name 0 id, replicate n v)] = replicate n (header_name 0 id, v)) as ->.
  { unfold qr_entries. cbn [map mjoin list_join]. rewrite Hname, app_nil_r. by rewrite <- fmap_replicate. }
  rewrite length_replicate. split_and!; [|lia|lia|].
  - apply Forall_singleton. intros digits reqID Hd. cbn [fst] in Hd. rewrite Hname in Hd.
    injection Hd as <- <-. eexists. by apply Atoi_FormatUint.
  - apply Forall_replicate. unfold header_signature in Hs. destruct (qrHeaderName name) as [[d i]|]; [|done].
    destruct (Atoi d); [|done]. destruct (parseHeaderValue v) as [|[[prefix nonce] sig]] eqn:Ep; [done|].
    destruct (splitPrefix prefix) as [|[p u]] eqn:Es; [done|]. injection Hs as <-.
    exists (mkSignature 0 id p u nonce sig). cbn [fst snd]. split_and!; [|by right; apply EqualFold_refl|done].
    unfold header_signature. rewrite Hname, Ep, Es. rewrite Atoi_FormatUint by done. done.
Qed.

(** One provider, a quorum of three. *)
Lemma replayed_signature_fills_quorum_witness :
  VerifyHeaders demo_keys {[ "QR0-id-777" := [demo_value; demo_value; demo_value] ]} "r" "777" 3 = None.
Proof.
  apply (replayed_signature_fills_quorum demo_keys {[ "Qr0-Id-9" := [demo_value] ]} "r" "9" 1
    "Qr0-Id-9" [demo_value] demo_value "777" 3);
    [by vm_compute|done|by vm_compute; eexists|by left|done|done|lia].
Defined.
