(* ===== verification/ReplySigning.v ===== *)
(** The signatures of gRPC replies ([internal/signature/signer.go],
    [internal/server/emerald/reply_signature.go]): what is signed, when, and that the
    verifying half ([Quorum]) accepts it for this reply and for no other.

    RSA and the encoding of keys are libraries ([Signing]). *)

From S2P Require Import Prelude.
From S2P Require Import GoStrings.
From S2P Require Import AppConfig.
From S2P Require Import Quorum.
From Stdlib Require Import Ascii.

(** [rsa.SignPKCS1v15], [x509.MarshalPKIXPublicKey], the public half of a key, and the
    reading of a key file ([os.ReadFile], [jwt.ParseRSAPrivateKeyFromPEM]); an [inl]
    is the text of an error. *)
Class Signing `{Crypto} := {
  PrivateKey : Type;
  PublicKeyOf : PrivateKey -> RsaKey;
  rsa_SignPKCS1v15 : PrivateKey -> string -> string + string;
  MarshalPKIXPublicKey : RsaKey -> string + string;
  loadRSAPrivateKeyFromFile : string -> string + PrivateKey;
}.

(** A signature is accepted under the public half of its key, for the one digest it
    was made for. *)
Class SigningLaws `{Signing} : Prop := {
  signed_accepted : forall key digest value,
    rsa_SignPKCS1v15 key digest = inr value -> rsa_VerifyPKCS1v15 (PublicKeyOf key) digest value = true;
  accepted_once : forall key digest digest' value,
    rsa_VerifyPKCS1v15 key digest value = true -> rsa_VerifyPKCS1v15 key digest' value = true -> digest = digest';
}.

(** [binary.BigEndian.Uint64(digest[:8])] *)
Definition be_uint64 (s : string) : Z :=
  foldl (fun acc c => 256 * acc + Z.of_N (N_of_ascii c)) 0 (String.list_ascii_of_string (String.substring 0 8 s)).

Inductive SignError := ErrSigningNotConfigured | SignFailed (text : string).

#[export] Instance SignError_eq_dec : EqDecision SignError.
Proof. solve_decision. Defined.

Definition SignError_text (err : SignError) : string :=
  match err with
  | ErrSigningNotConfigured => "Response signing requested via nonce but signing key is not configured"
  | SignFailed text => "unable to sign a response: " +:+ text
  end.

(** [NativeCallReplySignature] *)
Record ReplySignature := mkReplySignature { rs_Nonce : Z; rs_Signature : string; rs_KeyId : Z; rs_UpstreamId : string }.

#[export] Instance ReplySignature_eq_dec : EqDecision ReplySignature.
Proof. solve_decision. Defined.

Section Signer.
Context `{SG : Signing}.

(** [NewDisabledSigner] and the [rsaSigner]. *)
Inductive ResponseSigner := disabledSigner | rsaSigner (key : PrivateKey) (keyID : Z).

Definition Enabled (s : ResponseSigner) : bool := match s with disabledSigner => false | rsaSigner _ _ => true end.

Definition KeyID (pub : RsaKey) : string + Z :=
  match MarshalPKIXPublicKey pub with
  | inl err => inl ("unable to marshal a public key: " +:+ err)
  | inr der => inr (be_uint64 (sha256_Sum256 der))
  end.

Definition NewRSASigner (key : PrivateKey) : string + ResponseSigner :=
  match KeyID (PublicKeyOf key) with inl err => inl err | inr keyID => inr (rsaSigner key keyID) end.

(** The value of the signature and the id of the key. *)
Definition Sign (s : ResponseSigner) (nonce : Z) (message source : string) : SignError + string * Z :=
  match s with
  | disabledSigner => inl ErrSigningNotConfigured
  | rsaSigner key keyID =>
    match rsa_SignPKCS1v15 key (sha256_Sum256 (WrapMessage nonce source message)) with
    | inl err => inl (SignFailed err)
    | inr value => inr (value, keyID)
    end
  end.

Definition newResponseSigner (cfg : GrpcAuthConfig) : string + ResponseSigner :=
  if grpcAuth_Disabled cfg then inr disabledSigner
  else match loadRSAPrivateKeyFromFile (ga_ProviderPrivateKeyPath cfg) with
  | inl err => inl ("unable to load the grpc provider private key for response signing: " +:+ err)
  | inr key => NewRSASigner key
  end.

Definition signingUnavailable (nonce : Z) (signer : ResponseSigner) : option SignError :=
  if negb (bool_decide (nonce = 0)) && negb (Enabled signer) then Some ErrSigningNotConfigured else None.

Definition buildReplySignature (signer : ResponseSigner) (nonce : Z) (result source : string)
    : SignError + option ReplySignature :=
  if bool_decide (nonce = 0) then inr None
  else match Sign signer nonce result source with
  | inl err => inl err
  | inr (value, keyID) => inr (Some (mkReplySignature nonce value keyID source))
  end.

(** ** What a signature says *)

(** A reply that was signed. *)
Definition signed_by (signer : ResponseSigner) (result : string) (sig : ReplySignature) : Prop :=
  Sign signer (rs_Nonce sig) result (rs_UpstreamId sig) = inr (rs_Signature sig, rs_KeyId sig).

Lemma buildReplySignature_spec signer nonce result source sig :
  buildReplySignature signer nonce result source = inr sig ->
  match sig with
  | None => nonce = 0
  | Some s => nonce <> 0 /\ rs_Nonce s = nonce /\ rs_UpstreamId s = source /\ signed_by signer result s
  end.
Proof using Type.
  unfold buildReplySignature, signed_by. case_bool_decide; [by intros [= <-]|].
  destruct (Sign _ _ _ _) as [err|[value keyID]] eqn:E; intros [= <-]; done.
Qed.

(** Where signing is possible, it only fails in the library. *)
Lemma buildReplySignature_available signer nonce result source err :
  signingUnavailable nonce signer = None -> buildReplySignature signer nonce result source = inl err ->
  exists text, err = SignFailed text.
Proof using Type.
  unfold signingUnavailable, buildReplySignature, Sign. case_bool_decide; [done|].
  destruct signer as [|key keyID]; [done|]. intros _. destruct (rsa_SignPKCS1v15 _ _); intros [= <-]; by eexists.
Qed.

(** A signer is made with the id of its own key, when and only when sessions are
    on and have a provider's key. *)
Lemma newResponseSigner_spec cfg signer : newResponseSigner cfg = inr signer ->
  match signer with
  | disabledSigner => ga_Enabled cfg = false \/ ga_ProviderPrivateKeyPath cfg = ""
  | rsaSigner key keyID => ga_Enabled cfg = true /\ KeyID (PublicKeyOf key) = inr keyID /\
      loadRSAPrivateKeyFromFile (ga_ProviderPrivateKeyPath cfg) = inr key
  end.
Proof using Type.
  unfold newResponseSigner, NewRSASigner, grpcAuth_Disabled. destruct (negb (ga_Enabled cfg) || _) eqn:Ed.
  - intros [= <-]. apply orb_true_iff in Ed as [He|Hp]; [left; by destruct (ga_Enabled cfg)|right].
    by apply bool_decide_eq_true in Hp.
  - destruct (loadRSAPrivateKeyFromFile _) as [|key]; [done|]. destruct (KeyID _) as [|keyID] eqn:Ek; [done|].
    intros [= <-]. apply orb_false_iff in Ed as [He _]. split_and!; [by destruct (ga_Enabled cfg)|done..].
Qed.

Lemma be_uint64_range s : is_u64 (be_uint64 s).
Proof using Type.
  assert (forall l acc, 0 <= acc ->
    0 <= foldl (fun acc c => 256 * acc + Z.of_N (N_of_ascii c)) acc l < (acc + 1) * 256 ^ Z.of_nat (length l)) as Hl.
  { induction l as [|c l IH]; intros acc Ha; cbn [foldl length]; [rewrite Z.pow_0_r; lia|].
    pose proof (N_ascii_bounded c). destruct (IH (256 * acc + Z.of_N (N_of_ascii c)) ltac:(lia)) as [H1 H2].
    rewrite Nat2Z.inj_succ, Z.pow_succ_r by lia. split; [done|].
    eapply Z.lt_le_trans; [exact H2|]. rewrite Z.mul_assoc. apply Z.mul_le_mono_nonneg_r; lia. }
  assert (forall n s, (length (String.list_ascii_of_string (String.substring 0 n s)) <= n)%nat) as Hs.
  { induction n as [|n IH]; intros [|c t]; simpl; try lia. specialize (IH t). lia. }
  destruct (Hl (String.list_ascii_of_string (String.substring 0 8 s)) 0 ltac:(lia)) as [H1 H2].
  split; [exact H1|]. eapply Z.lt_le_trans; [exact H2|]. rewrite Z.mul_1_l. change two64 with (256 ^ 8).
  apply Z.pow_le_mono_r; [lia|]. specialize (Hs 8%nat s). lia.
Qed.
End Signer.

(** ** What is signed here is verified there *)

(** C34. A signature on a reply is accepted by a verifier that has the provider's key,
    for the nonce the client sent, the upstream that answered and the result; and as
    long as the hash tells the messages apart, for no other nonce, upstream or
    result.  A reply is signed when and only when the nonce is not zero and the
    signature succeeds, and the key it names is the key that signed. *)
Theorem signed_reply_binds `{SL : SigningLaws} cfg signer keys provider key keyID nonce result source sig :
  newResponseSigner cfg = inr signer -> signer = rsaSigner key keyID ->
  keys !! provider = Some (RsaPublicKey (PublicKeyOf key)) ->
  is_u64 nonce -> buildReplySignature signer nonce result source = inr sig ->
  (sig = None <-> nonce = 0) /\
  forall s, sig = Some s ->
    rs_Nonce s = nonce /\ rs_UpstreamId s = source /\ KeyID (PublicKeyOf key) = inr (rs_KeyId s) /\
    Verify keys provider (rs_UpstreamId s) (rs_Nonce s) (rs_Signature s) result = None /\
    forall nonce' source' result',
      is_u64 nonce' -> (forall x y, sha256_Sum256 x = sha256_Sum256 y ->
        x ∈ [result; result'; WrapMessage nonce source result; WrapMessage nonce' source' result'] ->
        y ∈ [result; result'; WrapMessage nonce source result; WrapMessage nonce' source' result'] -> x = y) ->
      Verify keys provider source' nonce' (rs_Signature s) result' = None ->
      nonce' = nonce /\ source' = source /\ result' = result.
Proof.
  intros Hcfg -> Hkey Hn Hb. apply newResponseSigner_spec in Hcfg as (_ & Hid & _).
  apply buildReplySignature_spec in Hb. split; [destruct sig; [split; [done|by destruct Hb]|done]|].
  intros s ->. destruct Hb as (Hnz & <- & <- & Hs). unfold signed_by, Sign in Hs.
  destruct (rsa_SignPKCS1v15 _ _) as [|value] eqn:Ev; [done|]. injection Hs as Hv Hk. subst value.
  pose proof (signed_accepted _ _ _ Ev) as Ha. split_and!; [done|done|by rewrite <- Hk|..].
  - unfold Verify, Registry_Lookup. rewrite Hkey. cbn [verifyDigest]. by rewrite Ha.
  - intros nonce' source' result' Hn' Hinj Hv. unfold Verify, Registry_Lookup in Hv. rewrite Hkey in Hv. cbn [verifyDigest] in Hv.
    assert (rsa_VerifyPKCS1v15 (PublicKeyOf key) (sha256_Sum256 (WrapMessage nonce' source' result')) (rs_Signature s) = true) as Ha'
      by (destruct (rsa_VerifyPKCS1v15 _ _ (rs_Signature s)) in Hv |- *; done).
    pose proof (accepted_once _ _ _ _ Ha Ha') as Hd. apply Hinj in Hd; [|set_solver..].
    apply WrapMessage_injective in Hd as (-> & -> & Hr); [|done..]. apply Hinj in Hr; [done|set_solver..].
Qed.

(** ** A key that signs *)

#[local] Existing Instance Quorum.demo_crypto.

#[local] Instance demo_signing : Signing := {
  PrivateKey := string;
  PublicKeyOf key := key;
  rsa_SignPKCS1v15 key digest := inr (key +:+ digest);
  MarshalPKIXPublicKey key := inr key;
  loadRSAPrivateKeyFromFile path := inr path;
}.

#[local] Instance demo_signing_laws : SigningLaws.
Proof.
  split.
  - intros key digest value [= <-]. by apply bool_decide_eq_true_2.
  - intros key digest digest' value. cbn [rsa_VerifyPKCS1v15 demo_crypto]. rewrite !bool_decide_eq_true.
    intros -> E. by apply (inj (String.append _)) in E.
Qed.

Definition signing_config : GrpcAuthConfig := mkGrpcAuth true "drpc" "k" "pub" 0.

Definition demo_private : PrivateKey := ("k" : string).

Definition demo_registry : gmap string PublicKey := {[ "p" := RsaPublicKey (PublicKeyOf demo_private) ]}.

Definition signed_reply : SignError + option ReplySignature :=
  buildReplySignature (rsaSigner demo_private (be_uint64 "k")) 14484681713855751539 "0xabc" "eth-1".

Lemma signed_reply_binds_witness : exists s, signed_reply = inr (Some s) /\ rs_Nonce s = 14484681713855751539 /\
  Verify demo_registry "p" (rs_UpstreamId s) (rs_Nonce s) (rs_Signature s) "0xabc" = None.
Proof.
  assert (exists s, signed_reply = inr (Some s)) as [s Es] by (eexists; reflexivity).
  destruct (signed_reply_binds signing_config (rsaSigner demo_private (be_uint64 "k")) demo_registry
    "p" demo_private (be_uint64 "k") 14484681713855751539 "0xabc" "eth-1" (Some s) eq_refl eq_refl eq_refl ltac:(done) Es) as [_ Hs].
  destruct (Hs s eq_refl) as (H1 & _ & _ & H2 & _). exists s. split; [exact Es|]. split; [exact H1|exact H2].
Defined.
