(* ===== verification/EthValidators.v ===== *)
(** The validators of an EVM node
    ([internal/upstreams/validations/eth_validations/], [ValidatorExecutor] of
    [validations/validator.go], the client labels of [labels/eth_labels/eth_client_detector.go],
    and the choice of validators in [chains_specific/evm_specific/evm_chain_specific.go]):
    what a node must answer to serve its chain.

    The connection to the node is an argument ([EvmNode]), JSON a library ([EthJson]);
    [None] is a run-time panic. *)

From S2P Require Import Prelude.
From S2P Require Import GoStrings.
From S2P Require Import Protocol.
From S2P Require Import Errors.
From S2P Require Import Responses.
From S2P Require Import UpstreamLife.
From S2P Require Import Config.
From S2P Require Import Chains.
From S2P Require Import EvmBounds.
From S2P Require Import Quorum.
From Stdlib Require Import Ascii.

#[local] Arguments String.append !_ _ /.

(** ** Numbers with a prefix ([strconv], base 0) *)

Definition digit_in (base : Z) (c : ascii) : option Z :=
  let n := Z.of_N (N_of_ascii c) in
  let d := if (48 <=? n) && (n <=? 57) then n - 48
           else if (97 <=? n) && (n <=? 122) then n - 87
           else if (65 <=? n) && (n <=? 90) then n - 55 else 36 in
  if d <? base then Some d else None.

Fixpoint digits_in (base acc : Z) (s : string) : option Z :=
  match s with
  | EmptyString => Some acc
  | String "_" s => digits_in base acc s
  | String c s => match digit_in base c with Some d => digits_in base (acc * base + d) s | None => None end
  end.

(** [underscoreOK] on the digits: what came last is a digit or prefix, an underscore,
    or neither. *)
Inductive Last := AtStart | SawDigit | SawUnderscore | SawOther.

Fixpoint underscores_ok (hex : bool) (i : Last) (s : string) : bool :=
  match s with
  | EmptyString => match i with SawUnderscore => false | _ => true end
  | String c s =>
    if bool_decide (is_Some (digit_value c)) || (hex && bool_decide (is_Some (hex_value c))) then underscores_ok hex SawDigit s
    else if bool_decide (c = "_"%char)
    then match i with SawDigit => underscores_ok hex SawUnderscore s | _ => false end
    else match i with SawUnderscore => false | _ => underscores_ok hex SawOther s end
  end.

(** The base and the digits after the prefix, and whether the prefix has a letter. *)
Definition base_prefix (s : string) : Z * string * bool :=
  match s with
  | String "0" (String c (String _ _ as digits)) =>
    match lower_ascii c with
    | "b" => (2, digits, true)
    | "o" => (8, digits, true)
    | "x" => (16, digits, true)
    | _ => (8, String c digits, false)
    end%char
  | String "0" digits => (8, digits, false)
  | _ => (10, s, false)
  end.

(** [strconv.ParseUint(s, 0, 64)]; [None] is its error. *)
Definition ParseUint0 (s : string) : option Z :=
  if bool_decide (s = "") then None
  else
    let '(base, digits, letter) := base_prefix s in
    n ← digits_in base 0 digits;
    if two64 <=? n then None
    else if contains_char "_" digits &&
            negb (if letter then underscores_ok (base =? 16) SawDigit digits else underscores_ok false AtStart s)
    then None else Some n.

(** [strconv.ParseInt(s, 0, 64)] *)
Definition ParseInt0 (s : string) : option Z :=
  let '(negative, digits) :=
    match s with String "-" t => (true, t) | String "+" t => (false, t) | _ => (false, s) end in
  n ← ParseUint0 digits;
  if negative then (if n <=? two63 then Some (- n) else None) else (if n <? two63 then Some n else None).

(** [new(big.Int).SetString(s, 16)] *)
Definition SetString16 (s : string) : option Z :=
  let '(negative, digits) :=
    match s with String "-" t => (true, t) | String "+" t => (false, t) | _ => (false, s) end in
  if bool_decide (digits = "") then None
  else n ← parse_hex_digits 0 digits; Some (if negative then - n else n).

(** [strings.Fields] *)
Fixpoint take_word (s : string) : string * string :=
  match s with
  | EmptyString => ("", "")
  | String c s' =>
    match strip_any space_runes s with
    | Some _ => ("", s)
    | None => let '(w, rest) := take_word s' in (String c w, rest)
    end
  end.

Fixpoint fields_loop (fuel : nat) (s : string) : list string :=
  match fuel with
  | O => []
  | S fuel =>
    let t := trim_front (String.length s) space_runes s in
    if bool_decide (t = "") then [] else let '(w, rest) := take_word t in w :: fields_loop fuel rest
  end.

(** A word has at least a byte, so the length of the string is enough fuel. *)
Definition Fields (s : string) : list string := fields_loop (String.length s) s.

(** ** The node *)

(** [sonic.Get]: the Boolean value of the root when it has one, and the text of a
    member when there is one.  The other readers are [sonic.Unmarshal] into the hashes
    of the transactions of a block, the indices of the logs of a receipt, and a
    string; [None] is an error. *)
Record AstNode := mkAst { node_Bool : option bool; node_Get : string -> option string }.

Class EthJson := {
  sonic_Get : string -> option AstNode;
  unmarshal_log_block : string -> option (list string);
  unmarshal_receipt : string -> option (list string);
  unmarshal_str : string -> option string;
}.

Definition RetryMaxAttempts : nat := 3.

Section Validators.
Context {W : Type} `{EN : EvmNode W} `{EJ : EthJson} `{FO : Folding}.
Context (chain : ConfiguredChain) (options : Options).

(** [ValidatorExecutor] with [more] attempts left after this one; the delays are left
    out. *)
Fixpoint executor_Get (ignoreErrors : list string) (more : nat) (method : string) (params : list Param) (w : W)
    : ResponseHolder * W :=
  let '(result, w) := SendRequest method params w in
  let isIgnored := existsb (fun item => match GetError result with Some e => Contains (Message e) item | None => false end) ignoreErrors in
  match more with
  | S more => if HasError result && negb isIgnored then executor_Get ignoreErrors more method params w else (result, w)
  | O => (result, w)
  end.

Definition validator_Get (method : string) (params : list Param) (w : W) : ResponseHolder * W :=
  executor_Get [] (RetryMaxAttempts - 1) method params w.

Definition parseHexUint64 (raw : string) : option Z := ParseUint0 (trim_quotes raw).

(** *** Health *)

Definition peers_verdict (response : ResponseHolder) : AvailabilityStatus :=
  if HasError response then Unavailable
  else match unmarshal_str (ResponseResult response) ≫= ParseInt0 with
  | None => Unavailable
  | Some peers => if peers <? MinPeers options then Immature else Available
  end.

Definition peers_Validate (w : W) : AvailabilityStatus * W :=
  let '(response, w) := SendRequest "net_peerCount" [] w in (peers_verdict response, w).

(** The text after the first x. *)
Definition parseHexBig (s : string) : option Z :=
  let s := ToLower s in SetString16 (match cut_string "x" s with Some (_, rest) => rest | None => s end).

Definition syncing_verdict (response : ResponseHolder) : AvailabilityStatus :=
  if HasError response then Unavailable
  else match sonic_Get (ResponseResult response) with
  | None => Unavailable
  | Some root =>
    match node_Bool root with
    | Some b => if b then Protocol.Syncing else Available
    | None =>
      let by_members :=
        if bool_decide (is_Some (node_Get root "batchProcessed")) && bool_decide (is_Some (node_Get root "batchSeen")) &&
           bool_decide (is_Some (node_Get root "syncTargetMsgCount")) then Protocol.Syncing else Available in
      match node_Get root "currentBlock", node_Get root "highestBlock" with
      | Some cur, Some high =>
        match parseHexBig cur, parseHexBig high with
        | Some current, Some highest =>
          if Config.Syncing (Lags (cc_Settings chain)) <? highest - current then Protocol.Syncing else Available
        | _, _ => by_members
        end
      | _, _ => by_members
      end
    end
  end.

Definition syncing_Validate (w : W) : AvailabilityStatus * W :=
  let '(response, w) := SendRequest "eth_syncing" [] w in (syncing_verdict response, w).

(** *** The chain *)

(** An [inl] is an error. *)
Definition getChainId (response : ResponseHolder) : option (string + string) :=
  if HasError response then Some (inl (match GetError response with Some e => ResponseError_Error e | None => "" end))
  else match ResponseResultString response with
  | None => None
  | Some (inl err) => Some (inl (error_text err))
  | Some (inr result) => Some (inr (ToLower result))
  end.

Definition getNetVersion (response : ResponseHolder) : option (string + string) :=
  if HasError response then Some (inl (match GetError response with Some e => ResponseError_Error e | None => "" end))
  else match ResponseResultString response with
  | None => None
  | Some (inl err) => Some (inl (error_text err))
  | Some (inr result) =>
    let result := ToLower result in
    if Contains result "x"
    then match SetString16 (default result (strip_prefix "0x" result)) with
         | None => Some (inl ("invalid hex netVersion " +:+ result))
         | Some n => Some (inr (ToLower (pretty n)))
         end
    else Some (inr (ToLower result))
  end.

Definition chain_verdict (chainIdResponse netVersionResponse : ResponseHolder) : option ValidationSettingResult :=
  chainId ← getChainId chainIdResponse;
  netVersion ← getNetVersion netVersionResponse;
  Some match chainId, netVersion with
  | inr chainId, inr netVersion =>
    if bool_decide (ChainId chain = chainId) && bool_decide (NetVersion chain = netVersion) then Valid else FatalSettingError
  | _, _ => SettingsError
  end.

(** The two requests run at the same time; this is one of the orders. *)
Definition chain_Validate (w : W) : option ValidationSettingResult * W :=
  let '(chainId, w) := validator_Get "eth_chainId" [] w in
  let '(netVersion, w) := validator_Get "net_version" [] w in
  (chain_verdict chainId netVersion, w).

(** *** Limits of calls *)

(** [%064x] *)
Definition pad (n : nat) (s : string) : string := String.string_of_list_ascii (repeat "0"%char (n - String.length s)) +:+ s.
Definition hex64 (z : Z) : string :=
  if z <? 0 then "-" +:+ pad 63 (hex_digits 16 (Z.to_N (- z)) "") else pad 64 (hex_digits 16 (Z.to_N z) "").

Definition call_data : string := "0xd8a26e3a" +:+ hex64 (CallLimitSize options).

Definition call_limit_verdict (response : ResponseHolder) : ValidationSettingResult :=
  match GetError response with
  | Some e => if Contains (Message e) "rpc.returndata.limit" then FatalSettingError else SettingsError
  | None => Valid
  end.

Definition call_limit_Validate (w : W) : ValidationSettingResult * W :=
  let '(response, w) := executor_Get ["rpc.returndata.limit"] (RetryMaxAttempts - 1) "eth_call"
    [PObj [("to", PStr (CallValidateContract chain)); ("data", PStr call_data)]; PStr "latest"] w in
  (call_limit_verdict response, w).

(** *** Prices of gas *)

Record gasPriceRule := mkGasRule { rule_op : string; rule_value : Z }.

Definition parseGasPriceRule (raw : string) : option gasPriceRule :=
  match Fields raw with
  | [op; v] =>
    value ← ParseUint0 v;
    if bool_decide (op ∈ ["eq"; "ne"; "gt"; "gte"; "lt"; "lte"]) then Some (mkGasRule op value) else None
  | _ => None
  end.

Definition gas_matches (r : gasPriceRule) (actual : Z) : bool :=
  let named op := bool_decide (rule_op r = op) in
  if named "eq" then actual =? rule_value r
  else if named "ne" then negb (actual =? rule_value r)
  else if named "gt" then rule_value r <? actual
  else if named "gte" then rule_value r <=? actual
  else if named "lt" then actual <? rule_value r
  else if named "lte" then actual <=? rule_value r
  else true.

Definition parseGasPriceRules : list gasPriceRule := omap parseGasPriceRule (GasPriceCondition chain).

Definition gas_verdict (response : ResponseHolder) : option ValidationSettingResult :=
  if HasError response then Some SettingsError
  else
    result ← ResponseResultString response;
    Some match result with
    | inl _ => SettingsError
    | inr raw =>
      match parseHexUint64 (TrimSpace raw) with
      | None => SettingsError
      | Some gasPrice => if forallb (fun r => gas_matches r gasPrice) parseGasPriceRules then Valid else FatalSettingError
      end
    end.

Definition gas_Validate (w : W) : option ValidationSettingResult * W :=
  match parseGasPriceRules with
  | [] => (Some Valid, w)
  | _ => let '(response, w) := validator_Get "eth_gasPrice" [] w in (gas_verdict response, w)
  end.

(** *** The client *)

Record compatibleClientRule := mkClientRule { rule_Client : string; rule_Networks : list string; rule_Blacklist : list string }.

Definition digits_front (s : string) : option string :=
  let '(w, rest) := span digit_char s in if bool_decide (w = "") then None else Some rest.

(** The pattern [^v?\d+\.\d+\.\d+]. *)
Definition isSemverLike (version : string) : bool :=
  bool_decide (is_Some (
    rest ← digits_front (default version (strip_prefix "v" version));
    rest ← strip_prefix "." rest;
    rest ← digits_front rest;
    rest ← strip_prefix "." rest;
    digits_front rest)).

Definition isHlNode (client : string) : bool := HasPrefix (ToLower client) "hyperliquid".

Definition UnknownClientVersion : string := "unknown".
Definition DefaultClient : string := "default client".
Definition HlClientType : string := "hl".

Definition clientVersion (client : string) : string :=
  if isHlNode client then UnknownClientVersion
  else if contains_char "/" client then
    let '(_, client) := cut_at "/" client in
    if contains_char "/" client then (cut_at "/" client).1
    else if bool_decide (client = "") then UnknownClientVersion else client
  else if isSemverLike client then client
  else if negb (Contains client ".") then UnknownClientVersion
  else client.

Definition clientType (client : string) : string :=
  if bool_decide (client = "") then DefaultClient
  else if isHlNode client then HlClientType
  else if contains_char "/" client then
    let '(clientPart, _) := cut_at "/" client in if bool_decide (clientPart = "") then DefaultClient else ToLower clientPart
  else if isSemverLike client then DefaultClient
  else if negb (Contains client ".") then ToLower client
  else DefaultClient.

(** The labels of the client of a node. *)
Definition client_labels (response : ResponseHolder) : option (gmap string string) :=
  if HasError response then None
  else
    raw ← unmarshal_str (ResponseResult response);
    let set (k v : string) (m : gmap string string) := if bool_decide (v = "") then m else <[k := v]> m in
    Some (set "client_type" (clientType raw) (set "client_version" (clientVersion raw) ∅)).

Definition normalizeClientVersion (version : string) : string :=
  let version := TrimSpace (trim_quotes version) in ToLower (default version (strip_prefix "v" version)).

Definition clientVersionDenied (rawVersion clientVersion denied : string) : bool :=
  bool_decide (normalizeClientVersion rawVersion = normalizeClientVersion denied) ||
  bool_decide (normalizeClientVersion clientVersion = normalizeClientVersion denied).

(** [chain_name] is [v.chain.Chain.String()]. *)
Definition ruleApplies (chain_name : string) (rule : compatibleClientRule) (clientType : string) : bool :=
  if negb (EqualFold (rule_Client rule) clientType) then false
  else match rule_Networks rule with
  | [] => true
  | networks => existsb (fun network => bool_decide (ToLower network ∈ map ToLower (chain_name :: ShortNames chain))) networks
  end.

(** The version after the code has trimmed its quotes. *)
Definition client_denied (chain_name : string) (rules : list compatibleClientRule) (rawVersion version type : string) : bool :=
  existsb (fun rule => ruleApplies chain_name rule type &&
    existsb (clientVersionDenied rawVersion version) (rule_Blacklist rule)) rules.

Definition client_verdict (chain_name : string) (rules : list compatibleClientRule) (response : ResponseHolder)
    : option ValidationSettingResult :=
  if HasError response then Some SettingsError
  else
    result ← ResponseResultString response;
    Some match result with
    | inl _ => SettingsError
    | inr rawVersion =>
      match unmarshal_str (ResponseResult response) with
      | None => SettingsError
      | Some raw =>
        if client_denied chain_name rules (trim_quotes rawVersion) (clientVersion raw) (clientType raw) then FatalSettingError else Valid
      end
    end.

Definition client_Validate (chain_name : string) (rules : list compatibleClientRule) (w : W) : option ValidationSettingResult * W :=
  match rules with
  | [] => (Some Valid, w)
  | _ => let '(response, w) := validator_Get "web3_clientVersion" [] w in (client_verdict chain_name rules response, w)
  end.

(** *** The indices of logs *)

Definition logIndexCheckFrequency : Z := 10.
Definition logIndexCheckTxCount : nat := 6.
Definition logIndexMaxBlockSearchAttempts : nat := 5.

Record EthLogIndexValidator := mkLogIndexValidator { callCount : Z; lastResult : ValidationSettingResult }.

Definition NewEthLogIndexValidator : EthLogIndexValidator := mkLogIndexValidator 0 Valid.

Definition parseLogIndexValue (raw : string) : option Z := if bool_decide (TrimSpace raw = "") then None else parseHexUint64 raw.

(** The indices of the logs of two receipts, neither empty; [None] keeps the last
    result. *)
Definition validateLogIndices (first second : list string) : option ValidationSettingResult :=
  firstFirst ← head first ≫= parseLogIndexValue;
  firstLast ← last first ≫= parseLogIndexValue;
  secondFirst ← head second ≫= parseLogIndexValue;
  Some (if negb (firstFirst =? 0) then FatalSettingError
        else if (secondFirst =? 0) || negb (secondFirst =? u64 (firstLast + 1)) then FatalSettingError
        else Valid).

Definition getTransactionReceipt (txHash : string) (w : W) : option (list string) * W :=
  let '(response, w) := validator_Get "eth_getTransactionReceipt" [PStr txHash] w in
  (if HasError response then None else unmarshal_receipt (ResponseResult response), w).

(** The receipts with logs among the first transactions, up to two; [None] when the
    search is given up. *)
Fixpoint find_receipts (hashes : list string) (found : list (list string)) (w : W) : option (list (list string)) * W :=
  match hashes, found with
  | [], _ | _, _ :: _ :: _ => (Some found, w)
  | txHash :: hashes, _ =>
    if bool_decide (txHash = "") then (None, w)
    else match getTransactionReceipt txHash w with
    | (None, w) => (None, w)
    | (Some logs, w) => find_receipts hashes (if bool_decide (logs = []) then found else found ++ [logs]) w
    end
  end.

Definition getLogBlock (blockHex : string) (w : W) : option (list string) * W :=
  let '(response, w) := validator_Get "eth_getBlockByNumber" [PStr blockHex; PBool true] w in
  (if HasError response then None else unmarshal_log_block (ResponseResult response), w).

(** The verdict on a block, [None] to look at another one; inside, [None] keeps the
    last result. *)
Definition validateBlock (blockHex : string) (w : W) : option (option ValidationSettingResult) * W :=
  match getLogBlock blockHex w with
  | (None, w) => (None, w)
  | (Some transactions, w) =>
    if (length transactions <? 2)%nat then (None, w)
    else
      let '(found, w) := find_receipts (take logIndexCheckTxCount transactions) [] w in
      (Some match found with Some [first; second] => validateLogIndices first second | _ => None end, w)
  end.

Fixpoint search_blocks (attempts : nat) (block : Z) (w : W) : option ValidationSettingResult * W :=
  match attempts with
  | O => (None, w)
  | S attempts =>
    if block <=? 0 then (None, w)
    else match validateBlock ("0x" +:+ hex_digits 16 (Z.to_N block) "") w with
    | (Some result, w) => (result, w)
    | (None, w) => search_blocks attempts (block - 1) w
    end
  end.

Definition getLatestBlockNumber (w : W) : option (option Z) * W :=
  let '(response, w) := validator_Get "eth_blockNumber" [] w in
  (if HasError response then Some None
   else match ResponseResultString response with
        | None => None
        | Some (inl _) => Some None
        | Some (inr raw) => Some (parseHexUint64 (TrimSpace raw))
        end, w).

(** What a check finds, [None] inside when it keeps the last result. *)
Definition check_log_index (w : W) : option (option ValidationSettingResult) * W :=
  match getLatestBlockNumber w with
  | (None, w) => (None, w)
  | (Some None, w) => (Some None, w)
  | (Some (Some latest), w) => let '(r, w) := search_blocks logIndexMaxBlockSearchAttempts latest w in (Some r, w)
  end.

Definition log_index_Validate (v : EthLogIndexValidator) (w : W) : option ValidationSettingResult * EthLogIndexValidator * W :=
  let currentCount := i64 (callCount v + 1) in
  let counted := mkLogIndexValidator currentCount (lastResult v) in
  if negb (Z.rem (i64 (currentCount - 1)) logIndexCheckFrequency =? 0) then (Some (lastResult v), counted, w)
  else match check_log_index w with
  | (None, w) => (None, counted, w)
  | (Some r, w) => let result := default (lastResult v) r in (Some result, mkLogIndexValidator currentCount result, w)
  end.
End Validators.

(** ** The validators of an upstream *)

Inductive SettingsKind := ChainKind | CallLimitKind | ClientVersionKind | GasPriceKind | LogIndexKind.
Inductive HealthKind := SyncingKind | PeersKind.

(** [None] is the panic for an option that is not set. *)
Definition SettingsValidators (chain : ConfiguredChain) (o : Options) : option (list SettingsKind) :=
  match DisableChainValidation o, ValidateCallLimit o with
  | Some disableChain, Some callLimit =>
  Some ((if disableChain then [] else [ChainKind]) ++
        (if callLimit && negb (bool_decide (CallValidateContract chain = "")) then [CallLimitKind] else []) ++
        (if default false (ValidateClientVersion o) then [ClientVersionKind] else []) ++
        (match GasPriceCondition chain with [] => [] | _ => [GasPriceKind] end) ++
        (if default false (DisableLogIndexValidation o) then [] else [LogIndexKind]))
  | _, _ => None
  end.

Definition HealthValidators (o : Options) : option (list HealthKind) :=
  match ValidateSyncing o, ValidatePeers o with
  | Some syncing, Some peers => Some ((if syncing then [SyncingKind] else []) ++ (if peers then [PeersKind] else []))
  | _, _ => None
  end.

(** ** A round of the validation of settings *)

(** What the node answered to each validator, and the outcome of the check of the
    indices of logs. *)
Record NodeAnswers := mkAnswers {
  an_chainId : ResponseHolder;
  an_netVersion : ResponseHolder;
  an_call : ResponseHolder;
  an_client : ResponseHolder;
  an_gasPrice : ResponseHolder;
  an_logIndex : option ValidationSettingResult;
}.

Section Rounds.
Context `{EJ : EthJson} `{FO : Folding} (chain : ConfiguredChain) (chain_name : string) (rules : list compatibleClientRule).

Definition kind_verdict (a : NodeAnswers) (k : SettingsKind) : option ValidationSettingResult :=
  match k with
  | ChainKind => chain_verdict chain (an_chainId a) (an_netVersion a)
  | CallLimitKind => Some (call_limit_verdict (an_call a))
  | ClientVersionKind => match rules with [] => Some Valid | _ => client_verdict chain chain_name rules (an_client a) end
  | GasPriceKind => match parseGasPriceRules chain with [] => Some Valid | _ => gas_verdict chain (an_gasPrice a) end
  | LogIndexKind => an_logIndex a
  end.

(** The verdict of the processor over all validators of an upstream; [None] is a panic
    or an upstream without validators, for which there is no processor. *)
Definition settings_round (o : Options) (a : NodeAnswers) : option ValidationSettingResult :=
  kinds ← SettingsValidators chain o;
  results ← mapM (kind_verdict a) kinds;
  match results with [] => None | r :: rs => Some (Settings_Validate r rs) end.

Lemma lo_Max_ge {A} (code : A -> Z) x l y : y ∈ x :: l -> code y <= code (lo_Max code x l).
Proof using Type.
  unfold lo_Max. revert x y. induction l as [|z l IH]; intros x y; simpl; [by intros ->%list_elem_of_singleton|].
  intros [->|[->|Hy]%elem_of_cons]%elem_of_cons.
  - transitivity (code (if code x <? code z then z else x)); [|apply (IH _ _ (list_elem_of_here _ _))].
    destruct (code x <? code z) eqn:E; reflect_bool; lia.
  - transitivity (code (if code x <? code z then z else x)); [|apply (IH _ _ (list_elem_of_here _ _))].
    destruct (code x <? code z) eqn:E; reflect_bool; lia.
  - apply IH. by right.
Qed.

Lemma lo_Max_in {A} (code : A -> Z) x l : lo_Max code x l ∈ x :: l.
Proof using Type.
  unfold lo_Max. revert x. induction l as [|z l IH]; intros x; simpl; [by left|].
  specialize (IH (if code x <? code z then z else x)). apply elem_of_cons in IH as [->|Hin].
  - destruct (code x <? code z); [right; by left|by left].
  - right. by right.
Qed.

(** A round is fatal exactly when a validator is, and valid exactly when all are, as no
    validator answers [UnknownResult]. *)
Lemma kind_verdict_known a k r :
  an_logIndex a <> Some UnknownResult -> kind_verdict a k = Some r -> r <> UnknownResult.
Proof using Type.
  intros Hl. destruct k; simpl; [| |destruct rules| destruct (parseGasPriceRules chain)|intros Hr ->; by apply Hl].
  - unfold chain_verdict. destruct (getChainId _) as [[|c]|]; simpl; [| |done]; (destruct (getNetVersion _) as [[|n]|]; simpl; [| |done]);
      intros [= <-]; try done. by destruct (_ && _).
  - intros [= <-]. unfold call_limit_verdict. destruct (GetError _); [|done]. by destruct (Contains _ _).
  - by intros [= <-].
  - unfold client_verdict. destruct (HasError _); [by intros [= <-]|]. destruct (ResponseResultString _) as [[|raw]|]; simpl; [| |done].
    + by intros [= <-].
    + intros [= <-]. by repeat case_match.
  - by intros [= <-].
  - unfold gas_verdict. destruct (HasError _); [by intros [= <-]|]. destruct (ResponseResultString _) as [[|raw]|]; simpl; [| |done].
    + by intros [= <-].
    + intros [= <-]. by repeat case_match.
Qed.

Lemma settings_round_spec o a v :
  an_logIndex a <> Some UnknownResult -> settings_round o a = Some v ->
  exists kinds, SettingsValidators chain o = Some kinds /\
    (forall k, k ∈ kinds -> is_Some (kind_verdict a k)) /\
    (v = FatalSettingError <-> exists k, k ∈ kinds /\ kind_verdict a k = Some FatalSettingError) /\
    (v = Valid <-> forall k, k ∈ kinds -> kind_verdict a k = Some Valid).
Proof using Type.
  intros Hl. unfold settings_round. intros (kinds & Hk & (results & Hr & Hv)%bind_Some)%bind_Some.
  exists kinds. split; [done|]. apply mapM_Some in Hr.
  destruct results as [|r rs]; [done|]. injection Hv as <-. unfold Settings_Validate. set (v := lo_Max _ _ _).
  assert (v ∈ r :: rs) as Hin by apply lo_Max_in.
  assert (forall y, y ∈ r :: rs -> result_code y <= result_code v) as Hge by (intros y; apply lo_Max_ge).
  assert (forall k y, k ∈ kinds -> kind_verdict a k = Some y -> y ∈ r :: rs) as Hto.
  { intros k y (i & Hi)%list_elem_of_lookup Hy. destruct (Forall2_lookup_l _ _ _ _ _ Hr Hi) as (y' & Hy' & Heq).
    assert (y' = y) as -> by congruence. by eapply list_elem_of_lookup_2. }
  assert (forall y, y ∈ r :: rs -> exists k, k ∈ kinds /\ kind_verdict a k = Some y) as Hfrom.
  { intros y (i & Hi)%list_elem_of_lookup. destruct (Forall2_lookup_r _ _ _ _ _ Hr Hi) as (k & Hk' & Heq).
    exists k. split; [by eapply list_elem_of_lookup_2|done]. }
  assert (forall y, y ∈ r :: rs -> y <> UnknownResult) as Hunk.
  { intros y (k & _ & Hy)%Hfrom. by eapply kind_verdict_known. }
  clearbody v. split_and!.
  - intros k (i & Hi)%list_elem_of_lookup. destruct (Forall2_lookup_l _ _ _ _ _ Hr Hi) as (y & _ & ->). by eexists.
  - split; [intros ->; by apply Hfrom|]. intros (k & Hk' & Hf). specialize (Hge _ (Hto _ _ Hk' Hf)). specialize (Hunk _ Hin).
    destruct v; simpl in Hge; try lia; done.
  - split.
    + intros ->. intros k Hk'. destruct (proj1 (list_elem_of_lookup _ _) Hk') as (i & Hi).
      destruct (Forall2_lookup_l _ _ _ _ _ Hr Hi) as (y & _ & Hy). specialize (Hge _ (Hto _ _ Hk' Hy)).
      rewrite Hy. destruct y; simpl in Hge; try lia; done.
    + intros Hall. destruct (Hfrom _ Hin) as (k & Hk' & Hy). rewrite (Hall k Hk') in Hy. congruence.
Qed.
End Rounds.

(** What a condition on the price of gas asks for, given its two words: a comparison
    with one of the six names, and a number. *)
Definition understood (condition op : string) (n : Z) : Prop :=
  exists v, Fields condition = [op; v] /\ ParseUint0 v = Some n /\ op ∈ ["eq"; "ne"; "gt"; "gte"; "lt"; "lte"].

Definition compares (op : string) (n price : Z) : Prop :=
  (op = "eq" -> price = n) /\ (op = "ne" -> price <> n) /\ (op = "gt" -> n < price) /\ (op = "gte" -> n <= price) /\
  (op = "lt" -> price < n) /\ (op = "lte" -> price <= n).

Lemma understood_rule condition op n :
  understood condition op n -> parseGasPriceRule condition = Some (mkGasRule op n).
Proof.
  intros (v & Hf & Hv & Ho). unfold parseGasPriceRule. rewrite Hf, Hv. cbn [mbind option_bind].
  by rewrite bool_decide_eq_true_2.
Qed.

Lemma gas_matches_compares op n price : gas_matches (mkGasRule op n) price = true -> compares op n price.
Proof.
  unfold gas_matches, compares. cbn [rule_op rule_value]. intros Hm.
  split_and!; intros ->; repeat case_bool_decide; try done; reflect_bool; lia.
Qed.

(** C38. An EVM node is taken for valid only if it is a node of its chain: when the chain
    is validated, a round is valid only if the node answered with exactly the chain's
    id and network version, and an answer with another id or version makes the round
    fatal, whatever the other validators say.  A valid round also means that the price
    of gas meets every condition of the chain that is understood, which is a comparison
    eq, ne, gt, gte, lt or lte with a number (other conditions, symbolic comparisons
    among them, are dropped and not checked: [symbolic_condition_ignored]); that the
    call of the size asked for was not refused; and that no rule denies the client. *)
Theorem evm_settings_verdict `{EthJson} `{Folding} chain chain_name rules o a v :
  an_logIndex a <> Some UnknownResult -> settings_round chain chain_name rules o a = Some v ->
  (DisableChainValidation o = Some false ->
   (v = Valid -> getChainId (an_chainId a) = Some (inr (ChainId chain)) /\ getNetVersion (an_netVersion a) = Some (inr (NetVersion chain))) /\
   (forall c n, getChainId (an_chainId a) = Some (inr c) -> getNetVersion (an_netVersion a) = Some (inr n) ->
      ChainId chain <> c \/ NetVersion chain <> n -> v = FatalSettingError)) /\
  (v = Valid -> (exists condition op n, condition ∈ GasPriceCondition chain /\ understood condition op n) -> exists raw price,
     ResponseResultString (an_gasPrice a) = Some (inr raw) /\ parseHexUint64 (TrimSpace raw) = Some price /\
     forall condition op n, condition ∈ GasPriceCondition chain -> understood condition op n -> compares op n price) /\
  (v = Valid -> ValidateCallLimit o = Some true -> CallValidateContract chain <> "" -> GetError (an_call a) = None) /\
  (v = Valid -> ValidateClientVersion o = Some true -> rules <> [] -> exists raw s,
     ResponseResultString (an_client a) = Some (inr raw) /\ unmarshal_str (ResponseResult (an_client a)) = Some s /\
     client_denied chain chain_name rules (trim_quotes raw) (clientVersion s) (clientType s) = false).
Proof.
  intros Hl Hr. destruct (settings_round_spec chain chain_name rules o a v Hl Hr) as (kinds & Hk & _ & Hfatal & Hvalid).
  unfold SettingsValidators in Hk. destruct (DisableChainValidation o) as [dis|] eqn:Ed; [|done].
  destruct (ValidateCallLimit o) as [lim|] eqn:Ec; [|done]. injection Hk as Hk. split_and!.
  - intros [= ->]. assert (ChainKind ∈ kinds) as Hin by (rewrite <- Hk; set_solver). split.
    + intros Hv. pose proof (proj1 Hvalid Hv ChainKind Hin) as Hc. simpl in Hc. unfold chain_verdict in Hc.
      destruct (getChainId _) as [[|c]|]; simpl in Hc; try done; (destruct (getNetVersion _) as [[|n]|]; simpl in Hc; try done).
      destruct (bool_decide (ChainId chain = c) && bool_decide (NetVersion chain = n)) eqn:E; [|done].
      by apply andb_true_iff in E as [->%bool_decide_eq_true ->%bool_decide_eq_true].
    + intros c n Hc Hn Hne. apply Hfatal. exists ChainKind. split; [done|]. simpl. unfold chain_verdict. rewrite Hc, Hn. simpl.
      destruct (bool_decide (ChainId chain = c) && bool_decide (NetVersion chain = n)) eqn:E; [|done].
      apply andb_true_iff in E as [?%bool_decide_eq_true ?%bool_decide_eq_true]. naive_solver.
  - intros Hv (c0 & op0 & n0 & Hc0 & Hu0).
    assert (forall c op n, c ∈ GasPriceCondition chain -> understood c op n -> mkGasRule op n ∈ parseGasPriceRules chain) as Hrules.
    { intros c op n Hc Hu. apply list_elem_of_omap. exists c. split; [done|]. by apply understood_rule. }
    assert (parseGasPriceRules chain <> []) as Hg.
    { intros E. specialize (Hrules _ _ _ Hc0 Hu0). rewrite E in Hrules. by apply elem_of_nil in Hrules. }
    assert (GasPriceKind ∈ kinds) as Hin.
    { rewrite <- Hk. unfold parseGasPriceRules in Hg. destruct (GasPriceCondition chain); [done|set_solver]. }
    assert (gas_verdict chain (an_gasPrice a) = Some Valid) as Hc.
    { rewrite <- (proj1 Hvalid Hv GasPriceKind Hin). simpl. by destruct (parseGasPriceRules chain). }
    unfold gas_verdict in Hc. destruct (HasError _); [done|].
    destruct (ResponseResultString _) as [[|raw]|]; simpl in Hc; try done. destruct (parseHexUint64 (TrimSpace raw)) as [price|] eqn:Ep; [|done].
    destruct (forallb (fun r => gas_matches r price) (parseGasPriceRules chain)) eqn:Ef; [|done]. exists raw, price. split; [done|]. split; [done|].
    intros c op n Hin' Hu. rewrite forallb_forall in Ef. apply gas_matches_compares, Ef, list_elem_of_In. by eapply Hrules.
  - intros Hv [= ->] Hne. assert (CallLimitKind ∈ kinds) as Hin.
    { rewrite <- Hk. rewrite (bool_decide_eq_false_2 _ Hne). simpl. set_solver. }
    pose proof (proj1 Hvalid Hv CallLimitKind Hin) as Hc. simpl in Hc. unfold call_limit_verdict in Hc.
    destruct (GetError _); [|done]. by destruct (Contains _ _).
  - intros Hv Ev Hne. assert (ClientVersionKind ∈ kinds) as Hin by (rewrite <- Hk, Ev; simpl; set_solver).
    assert (client_verdict chain chain_name rules (an_client a) = Some Valid) as Hc.
    { rewrite <- (proj1 Hvalid Hv ClientVersionKind Hin). simpl. by destruct rules. }
    unfold client_verdict in Hc. destruct (HasError _); [done|].
    destruct (ResponseResultString _) as [[|raw]|]; cbn [mbind option_bind] in Hc; try done. destruct (unmarshal_str _) as [s|]; [|done].
    exists raw, s. split; [done|]. split; [done|].
    by destruct (client_denied chain chain_name rules (trim_quotes raw) (clientVersion s) (clientType s)).
Qed.

(** ** The indices of logs over many rounds *)

Section LogIndex.
Context {W : Type} `{EN : EvmNode W} `{EJ : EthJson}.

(** The results of [n] validations one after another, and the outcomes of [k] checks. *)
Fixpoint log_index_runs (n : nat) (w : W) : option (list ValidationSettingResult * EthLogIndexValidator * W) :=
  match n with
  | O => Some ([], NewEthLogIndexValidator, w)
  | S n =>
    match log_index_runs n w with
    | None => None
    | Some (rs, v, w) => match log_index_Validate v w with (Some r, v, w) => Some (rs ++ [r], v, w) | (None, _, _) => None end
    end
  end.

Fixpoint log_checks (k : nat) (w : W) : option (list (option ValidationSettingResult) * W) :=
  match k with
  | O => Some ([], w)
  | S k =>
    match log_checks k w with
    | None => None
    | Some (os, w) => match check_log_index w with (Some o, w) => Some (os ++ [o], w) | (None, _) => None end
    end
  end.

(** The last result that a check had. *)
Definition last_result (os : list (option ValidationSettingResult)) : ValidationSettingResult := default Valid (last (omap id os)).

Lemma last_result_snoc os o : last_result (os ++ [o]) = default (last_result os) o.
Proof using Type.
  unfold last_result. rewrite omap_app. simpl. destruct o; simpl; [by rewrite last_snoc|by rewrite app_nil_r].
Qed.

Lemma log_checks_length k w os w' : log_checks k w = Some (os, w') -> length os = k.
Proof using Type.
  revert os w'. induction k as [|k IH]; intros os w'; simpl; [by intros [= <- _]|].
  destruct (log_checks k w) as [[os1 w1]|]; [|done]. destruct (check_log_index w1) as [[o|] w2]; [|done].
  intros [= <- _]. rewrite length_app, (IH _ _ eq_refl). simpl. lia.
Qed.
Lemma i64_count n : Z.of_nat n + 1 < two63 -> i64 (Z.of_nat n + 1) = Z.of_nat n + 1 /\ i64 (i64 (Z.of_nat n + 1) - 1) = Z.of_nat n.
Proof using Type.
  intros Hn. rewrite i64_id by (apply is_i64_of_small; lia). split; [done|]. rewrite i64_id; [lia|]. apply is_i64_of_small. lia.
Qed.

(** How many checks [n] validations make. *)
Definition checks_in (n : nat) : nat := ((n + 9) / 10)%nat.

Lemma checks_in_checked n : (n mod 10 = 0)%nat -> checks_in n = (n / 10)%nat /\ checks_in (S n) = S (n / 10)%nat.
Proof using Type.
  intros Hn. unfold checks_in. pose proof (Nat.div_mod n 10 ltac:(lia)) as Hd. rewrite Hn in Hd.
  split; symmetry; [apply Nat.div_unique with 9%nat; lia|apply Nat.div_unique with 0%nat; lia].
Qed.

Lemma checks_in_skipped n : (n mod 10 <> 0)%nat -> checks_in n = S (n / 10) /\ checks_in (S n) = S (n / 10).
Proof using Type.
  intros Hn. unfold checks_in. pose proof (Nat.div_mod n 10 ltac:(lia)) as Hd. pose proof (Nat.mod_upper_bound n 10 ltac:(lia)).
  split; symmetry; [apply Nat.div_unique with (n mod 10 - 1)%nat; lia|apply Nat.div_unique with (n mod 10)%nat; lia].
Qed.

Lemma log_index_runs_spec n w rs v w' :
  Z.of_nat n < two63 -> log_index_runs n w = Some (rs, v, w') ->
  exists os, log_checks (checks_in n) w = Some (os, w') /\ callCount v = Z.of_nat n /\ lastResult v = last_result os /\
    rs = map (fun i => last_result (take (S (i / 10)) os)) (seq 0 n).
Proof using Type.
  revert rs v w'. induction n as [|n IH]; intros rs v w' Hn; cbn [log_index_runs]; [intros [= <- <- <-]; by exists []|].
  destruct (log_index_runs n w) as [[[rs1 v1] w1]|] eqn:E; [|done].
  destruct (IH _ _ _ ltac:(lia) eq_refl) as (os & Hos & Hc & Hlast & Hrs). unfold log_index_Validate.
  rewrite Hc. destruct (i64_count n ltac:(lia)) as [-> H2]. rewrite H2. clear H2.
  pose proof (log_checks_length _ _ _ _ Hos) as Hlen.
  assert (Z.rem (Z.of_nat n) logIndexCheckFrequency = Z.of_nat (n mod 10)) as ->.
  { unfold logIndexCheckFrequency. rewrite Z.rem_mod_nonneg by lia. by rewrite Nat2Z.inj_mod. }
  destruct (decide (n mod 10 = 0)%nat) as [H0|H0].
  - rewrite H0. cbn [Z.of_nat Z.eqb negb]. destruct (checks_in_checked n H0) as [Hk Hk']. rewrite Hk in Hos, Hlen.
    destruct (check_log_index w1) as [[o|] w2] eqn:Ec; [|done]. intros [= <- <- <-].
    exists (os ++ [o]). rewrite Hk'. cbn [log_checks]. rewrite Hos, Ec. split; [done|]. split; [simpl; lia|].
    cbn [lastResult]. rewrite last_result_snoc, Hlast. split; [done|]. rewrite seq_S, map_app, Hrs. f_equal.
    + apply map_ext_in. intros i Hi%in_seq. rewrite take_app_le; [done|]. rewrite Hlen.
      pose proof (Nat.div_mod n 10 ltac:(lia)). pose proof (Nat.div_mod i 10 ltac:(lia)).
      pose proof (Nat.mod_upper_bound i 10 ltac:(lia)). lia.
    + cbn [map]. f_equal. change (0 + n)%nat with n. rewrite take_ge by (rewrite length_app, Hlen; cbn [length]; lia). by rewrite last_result_snoc.
  - rewrite (proj2 (Z.eqb_neq _ _)) by lia. cbn [negb]. destruct (checks_in_skipped n H0) as [Hk Hk']. rewrite Hk in Hos, Hlen.
    intros [= <- <- <-]. exists os. rewrite Hk'. split; [done|]. split; [simpl; lia|]. split; [done|].
    rewrite seq_S, map_app, Hrs, Hlast. cbn [map]. do 2 f_equal. change (0 + n)%nat with n. by rewrite take_ge by lia.
Qed.
(** A verdict comes from two receipts. *)
Lemma check_verdict w r w' :
  check_log_index w = (Some (Some r), w') -> exists first second, validateLogIndices first second = Some r.
Proof using Type.
  unfold check_log_index. destruct (getLatestBlockNumber w) as [[[latest|]|] w1]; [|done|done].
  destruct (search_blocks _ latest w1) as [o w2] eqn:E. intros [= -> _].
  revert latest w1 E. generalize logIndexMaxBlockSearchAttempts. intros attempts. induction attempts as [|k IH]; intros latest w1;
    cbn [search_blocks]; [done|]. destruct (latest <=? 0); [done|].
  destruct (validateBlock ("0x" +:+ hex_digits 16 (Z.to_N latest) "") w1) as [[o|] w3] eqn:Ev; [|by apply IH]. intros [= -> _].
  unfold validateBlock in Ev. destruct (getLogBlock _ w1) as [[txs|] w4]; [|done]. destruct (_ <? _)%nat; [done|].
  destruct (find_receipts _ _ w4) as [[[|first [|second [|]]]|] w5]; try done. injection Ev as Ev _. by exists first, second.
Qed.

Lemma log_checks_verdicts k w os w' r : log_checks k w = Some (os, w') -> Some r ∈ os -> exists first second, validateLogIndices first second = Some r.
Proof using Type.
  revert os w'. induction k as [|k IH]; intros os w'; simpl; [intros [= <- _] []%elem_of_nil|].
  destruct (log_checks k w) as [[os1 w1]|]; [|done]. destruct (check_log_index w1) as [[o|] w2] eqn:Ec; [|done].
  intros [= <- _] [Hin|Hin%list_elem_of_singleton]%elem_of_app; [by eapply IH|].
  subst o. by eapply check_verdict.
Qed.
End LogIndex.

(** The indices of the logs of a node are checked once in ten validations, at the
    first, the eleventh and so on, and the node is not asked in between; the result of
    every validation is the one of the last check that found something out, valid
    before the first, so a check that finds nothing out, whatever failed in it, neither
    clears nor condemns a node; and a check finds a node wrong only for two receipts
    whose logs are not numbered on from zero. *)
Theorem log_index_sticky {W} `{EvmNode W} `{EthJson} n (w : W) rs v w' :
  Z.of_nat n < two63 -> log_index_runs n w = Some (rs, v, w') ->
  exists os, log_checks (checks_in n) w = Some (os, w') /\
    rs = map (fun i => last_result (take (S (i / 10)) os)) (seq 0 n) /\
    (Some FatalSettingError ∈ os -> exists (first second : list string) a b c,
       head first ≫= parseLogIndexValue = Some a /\ last first ≫= parseLogIndexValue = Some b /\
       head second ≫= parseLogIndexValue = Some c /\ ~ (a = 0 /\ c <> 0 /\ c = u64 (b + 1))).
Proof.
  intros Hn Hr. destruct (log_index_runs_spec n w rs v w' Hn Hr) as (os & Hos & _ & _ & Hrs).
  exists os. split; [done|]. split; [done|]. intros Hin.
  destruct (log_checks_verdicts _ _ _ _ _ Hos Hin) as (first & second & Hf). unfold validateLogIndices in Hf.
  apply bind_Some in Hf as (a & Ha & (b & Hb & (c & Hc & Hv)%bind_Some)%bind_Some). exists first, second, a, b, c. split_and!; [done..|].
  intros (-> & Hc0 & ->). simpl in Hv. rewrite (proj2 (Z.eqb_neq _ _) Hc0), Z.eqb_refl in Hv. done.
Qed.

(** ** Samples *)

#[local] Instance sample_eth_json : EthJson := {
  sonic_Get _ := None;
  unmarshal_log_block _ := Some ["0xaa"; "0xbb"];
  unmarshal_receipt raw := Some [raw; raw];
  unmarshal_str raw := unquoted raw;
}.
#[local] Instance sample_folding : Folding := fun s t => bool_decide (ToLower s = ToLower t).

Definition sample_ok (result : string) : ResponseHolder := WsJsonRpcResponse "1" (quoted result) None.

Definition sample_eth : ConfiguredChain := mkConfiguredChain 100 "0x1" "1" ["eth"] "ethereum" unknownSettings 1 "eth" "" ["gte 10"] None.

Definition sample_options : Options :=
  mkOptions 1 1 None None (Some false) None None None None None None None None None (Some true) (Some true) 1 (Some false) (Some true) 0.

Definition sample_rules : list compatibleClientRule := [mkClientRule "Geth" ["eth"] ["v1.13.0"]].

Definition sample_answers (chainId netVersion gas client : string) : NodeAnswers :=
  mkAnswers (sample_ok chainId) (sample_ok netVersion) (sample_ok "") (sample_ok client) (sample_ok gas) (Some Valid).

Example sample_good_round :
  settings_round sample_eth "ethereum" sample_rules sample_options (sample_answers "0x1" "0x1" "0xb" "Geth/v1.14.0/linux") = Some Valid.
Proof. vm_compute. reflexivity. Qed.

Example sample_wrong_round :
  settings_round sample_eth "ethereum" sample_rules sample_options (sample_answers "0x38" "56" "0xb" "Geth/v1.14.0/linux") = Some FatalSettingError.
Proof. vm_compute. reflexivity. Qed.

(** A condition with a symbol for its operator is no condition. *)
Example symbolic_condition_ignored : map parseGasPriceRule [">= 10"; "gte 10"] = [None; Some (mkGasRule "gte" 10)].
Proof. vm_compute. reflexivity. Qed.

Lemma evm_settings_verdict_witness :
  getNetVersion (sample_ok "0x1") = Some (inr "1") /\
  exists price, parseHexUint64 "0xb" = Some price /\ compares "gte" 10 price.
Proof.
  pose proof sample_good_round as E.
  destruct (evm_settings_verdict sample_eth "ethereum" sample_rules sample_options
    (sample_answers "0x1" "0x1" "0xb" "Geth/v1.14.0/linux") Valid ltac:(done) E) as (Hc & Hg & _).
  assert (understood "gte 10" "gte" 10) as Hu.
  { exists "10". split; [reflexivity|]. split; [reflexivity|]. by apply (bool_decide_unpack _); vm_compute. }
  assert ("gte 10" ∈ GasPriceCondition sample_eth) as Hin by (by left).
  split; [by apply (Hc eq_refl)|].
  destruct (Hg eq_refl) as (raw & price & Hr & Hp & Hall); [by exists "gte 10", "gte", 10|]. exists price.
  split; [|exact (Hall _ _ _ Hin Hu)]. injection Hr as <-. exact Hp.
Defined.

(** A node on block 5 whose first logs have the index 1. *)
#[local] Instance sample_log_node : EvmNode Z := {
  SendRequest method _ w :=
    (if bool_decide (method = "eth_blockNumber") then sample_ok "0x5" else WsJsonRpcResponse "1" "0x1" None, w + 1);
  clock w := w;
  ctx_done _ := false;
}.

Example sample_log_runs :
  log_index_runs 2 0 = Some ([FatalSettingError; FatalSettingError], mkLogIndexValidator 2 FatalSettingError, 4).
Proof. vm_compute. reflexivity. Qed.

Lemma log_index_sticky_witness : exists os, log_checks 1 (0 : Z) = Some (os, 4) /\ length os = 1%nat.
Proof.
  pose proof sample_log_runs as E.
  destruct (log_index_sticky 2 (0 : Z) _ _ _ ltac:(done) E) as (os & Hos & _).
  exists os. split; [exact Hos|]. by apply log_checks_length in Hos.
Defined.
