(* ===== verification/UpstreamFactory.v ===== *)
(** The construction of an upstream from its configuration
    ([internal/upstreams/upstream_factory.go], [upstream_processors.go], [NewGenericUpstream]
    of [upstream.go], [vendor_type.go], and what each type of chain adds in
    [chains_specific]): its connectors, its rate limit, the processors that will watch it,
    and when the construction fails.

    [None] is a run-time panic, an [inl] an error.  The construction of a client of a node,
    which may fail, is an argument. *)

From S2P Require Import Prelude.
From S2P Require Import GoStrings.
From S2P Require Import Errors.
From S2P Require Import Protocol.
From S2P Require Import Specs.
From S2P Require Import Methods.
From S2P Require Import UpstreamState.
From S2P Require Import RateLimiter.
From S2P Require Import UpstreamLife.
From S2P Require Import Heads.
From S2P Require Import Config.
From S2P Require Import Chains.
From S2P Require Import EthValidators.

(** ** The vendor *)

Inductive UpstreamVendor := UnknownVendor | QuickNode | DRPC | Alchemy | Infura.
#[export] Instance UpstreamVendor_eq_dec : EqDecision UpstreamVendor.
Proof. solve_decision. Defined.

Definition upstreamVendor (url : string) : UpstreamVendor :=
  if Contains url "infura.io" then Infura
  else if Contains url "quiknode.pro" then QuickNode
  else if Contains url "alchemy.com" || Contains url "alchemyapi.io" then Alchemy
  else if Contains url "drpc.live" || Contains url "drpc.org" then DRPC
  else UnknownVendor.

Definition DetectUpstreamVendor (urls : list string) : UpstreamVendor :=
  match urls with
  | [] => UnknownVendor
  | url :: urls =>
    let first := upstreamVendor url in
    if bool_decide (first = UnknownVendor) then UnknownVendor
    else if forallb (fun url => bool_decide (upstreamVendor url = first)) urls then first else UnknownVendor
  end.

(** ** Connectors *)

(** A connector is known by its type: an upstream has one of each at most. *)
Record ConnectorsInfo := mkConnectorsInfo {
  headConnector : option ApiConnectorType;
  internalRequestConnector : option ApiConnectorType;
  allConnectors : list ApiConnectorType;
}.

Section Connectors.
Context (new_client : string -> ApiConnectorConfig -> option string).

Definition createConnector (upId : string) (c : ApiConnectorConfig) : option (string + ApiConnectorType) :=
  match connector_type c with
  | JsonRpcConnector | WebsocketConnector | TendermintConnector | RestConnector | RestIndexer | RestAdditional =>
    Some (match new_client upId c with Some err => inl err | None => inr (connector_type c) end)
  | _ => None
  end.

Fixpoint connectors_loop (u : Upstream) (cs : list ApiConnectorConfig) (info : ConnectorsInfo)
    : option (string + ConnectorsInfo) :=
  match cs with
  | [] => Some (inr info)
  | c :: cs =>
    match createConnector (u_Id u) c with
    | None => None
    | Some (inl err) => Some (inl ("couldn't create api connector of " +:+ u_Id u +:+ ": " +:+ err))
    | Some (inr t) =>
      connectors_loop u cs (mkConnectorsInfo
        (if bool_decide (connector_type c = GetHeadApiConnectorType u) then Some t else headConnector info)
        (if bool_decide (connector_type c = GetBestConnector DefaultMode u) then Some t else internalRequestConnector info)
        (allConnectors info ++ [t]))
    end
  end.

Definition createUpstreamConnectors (u : Upstream) : option (string + ConnectorsInfo) :=
  connectors_loop u (u_Connectors u) (mkConnectorsInfo None None []).
End Connectors.

(** ** The rate limit *)

Inductive RateLimit := NoRateLimit | InplaceBudget (budget : RateLimitBudget) | SharedBudget (name : string).

(** [budgets] are the names of the registry of budgets; the flag tells whether the limit tunes itself.  [None] is a panic, on a pattern
    that does not compile or on a budget the registry does not have. *)
Definition createRateLimiter `{Regexp} (budgets : gset string) (u : Upstream) : option (RateLimit * bool) :=
  rt ← match u_RateLimit u with
       | Some rules => InplaceBudget <$> NewRateLimitBudget "inplace" rules
       | None =>
         if bool_decide (u_RateLimitBudget u = "") then Some NoRateLimit
         else if bool_decide (u_RateLimitBudget u ∈ budgets) then Some (SharedBudget (u_RateLimitBudget u)) else None
       end;
  Some (rt, match u_RateLimitAutoTune u with Some t => at_Enabled t | None => false end).

(** ** What a chain adds *)

Inductive ChainSpecific :=
| EvmSpecific | TronRestSpecific | AztecSpecific | AlgorandSpecific | BitcoinSpecific | BeaconSpecific | AptosSpecific
| NearSpecific | SolanaSpecific | TonV2Specific | TonV3Specific | TendermintSpecific | CosmosRestSpecific
| StarknetSpecific | StellarHorizonSpecific | StellarRpcSpecific | PolkadotSpecific.

(** [isTron] is [chains.IsTron], over the generated numbers of chains; the error is its
    text up to the type of the connector.  A type no case names is a panic. *)
Definition getChainSpecific (isTron : Z -> bool) (internal : option ApiConnectorType) (chain : ConfiguredChain)
    : option (string + ChainSpecific) :=
  let by_connector err (choose : ApiConnectorType -> option ChainSpecific) : string + ChainSpecific :=
    match internal with
    | None => inl "no connector specified"
    | Some t => match choose t with Some k => inr k | None => inl (err +:+ ApiConnectorType_String t) end
    end in
  let type_is t := bool_decide (cc_Type chain = t) in
  if type_is "eth" then
    if isTron (cc_Chain chain)
    then Some (by_connector "tron specific supports only json-rpc or rest connector but not " (fun t =>
      match t with RestConnector => Some TronRestSpecific | JsonRpcConnector => Some EvmSpecific | _ => None end))
    else Some (inr EvmSpecific)
  else if type_is "aztec" then Some (inr AztecSpecific)
  else if type_is "avm" then Some (inr AlgorandSpecific)
  else if type_is "bitcoin" then Some (inr BitcoinSpecific)
  else if type_is "eth-beacon-chain" then Some (inr BeaconSpecific)
  else if type_is "aptos" then Some (inr AptosSpecific)
  else if type_is "near" then Some (inr NearSpecific)
  else if type_is "solana" then Some (inr SolanaSpecific)
  else if type_is "ton"
  then Some (inr (if bool_decide (internal = Some RestIndexer) then TonV3Specific else TonV2Specific))
  else if type_is "cosmos"
  then Some (by_connector "cosmos specific supports only tendermint or rest connector but not " (fun t =>
    match t with TendermintConnector => Some TendermintSpecific | RestConnector => Some CosmosRestSpecific | _ => None end))
  else if type_is "starknet" then Some (inr StarknetSpecific)
  else if type_is "stellar"
  then Some (inr (if bool_decide (internal = Some RestConnector) then StellarHorizonSpecific else StellarRpcSpecific))
  else if type_is "polkadot" then Some (inr PolkadotSpecific)
  else None.

(** What a chain has to offer: the numbers of its validators ([None] is a panic), the
    processors it has, and the number of its detectors of capabilities. *)
Record SpecificParts := mkParts {
  settings_validators : option nat;
  health_validators : option nat;
  has_blocks : bool;
  has_lower_bounds : bool;
  has_labels : bool;
  has_methods : bool;
  cap_detectors : nat;
}.

Inductive EvmCapDetector := HeadLiveness | WsPresence (cap : Cap) | EvmHeadSub | EvmPendingTx.

Definition LivenessSubscriptionValidationDisabled (o : Options) : bool :=
  default false (DisableLivenessSubscriptionValidation o).

(** [isBase] tells the chain [BASE]; the head processor is never nil here. *)
Definition evm_CapDetectors (isBase : bool) (o : Options) (head : option ApiConnectorType) : list EvmCapDetector :=
  let gateOnLiveness := bool_decide (head = Some WebsocketConnector) && negb (LivenessSubscriptionValidationDisabled o) in
  [if gateOnLiveness then HeadLiveness else WsPresence WsCap; EvmHeadSub;
   if isBase then EvmPendingTx else WsPresence PendingTxCap].

Inductive EvmLabelDetector := ClientLabels | GasLabels | FlashBlockLabels | HLTxLabels | AllInfoLabels | ArchiveLabels.

Definition archiveDetectionSuppressed (manualLabels : gmap string string) : bool :=
  bool_decide (manualLabels !! ArchiveLabel = Some "false").

Definition evm_labelsDetectors (manualLabels : gmap string string) : list EvmLabelDetector :=
  [ClientLabels; GasLabels; FlashBlockLabels; HLTxLabels; AllInfoLabels] ++
  (if archiveDetectionSuppressed manualLabels then [] else [ArchiveLabels]).

(** The processors of an EVM chain have detectors, so none is nil. *)
Definition evm_parts (isBase : bool) (chain : ConfiguredChain) (o : Options) (manualLabels : gmap string string)
    (head : option ApiConnectorType) : SpecificParts :=
  mkParts (length <$> SettingsValidators chain o) (length <$> HealthValidators o) true true
    (negb (length (evm_labelsDetectors manualLabels) =? 0)%nat) true (length (evm_CapDetectors isBase o head)).

(** The other types.  An option that is read as a pointer panics where it is not set;
    [boolValue] and the tests for [nil] take it as false. *)
Definition count (flag : bool) : nat := if flag then 1%nat else 0%nat.
Definition boolValue (flag : option bool) : bool := default false flag.

(** The check of the chain, which a chain without an id does not have. *)
Definition chain_validators (chain : ConfiguredChain) (o : Options) : option nat :=
  if bool_decide (ChainId chain = "") then Some 0%nat
  else off ← DisableChainValidation o; Some (count (negb off)).

Definition unless_disabled (o : Options) (validators : option nat) : option nat :=
  off ← DisableHealthValidation o; if (off : bool) then Some 0%nat else validators.

(** [DefaultCapDetectors]. *)
Definition DefaultCapDetectors : nat := 1.

Definition near_parts (chain : ConfiguredChain) (o : Options) : SpecificParts :=
  mkParts (chain_validators chain o)
    (unless_disabled o (Some (count (boolValue (ValidateSyncing o)) + count (boolValue (ValidatePeers o)))%nat))
    true true true false 0.

Definition starknet_parts (chain : ConfiguredChain) (o : Options) : SpecificParts :=
  mkParts (chain_validators chain o) (unless_disabled o (Some (count (boolValue (ValidateSyncing o)))))
    true true true false 0.

(** Bitcoin, Aztec, Algorand and Aptos: one check of health, no processor of blocks. *)
Definition bitcoin_parts (chain : ConfiguredChain) (o : Options) : SpecificParts :=
  mkParts (chain_validators chain o) (unless_disabled o (Some 1%nat)) false true true false DefaultCapDetectors.
Definition aztec_parts (chain : ConfiguredChain) (o : Options) : SpecificParts :=
  mkParts (chain_validators chain o) (unless_disabled o (Some 1%nat)) false true true false DefaultCapDetectors.
Definition algorand_parts (chain : ConfiguredChain) (o : Options) : SpecificParts :=
  mkParts (chain_validators chain o) (unless_disabled o (Some 1%nat)) false true true false DefaultCapDetectors.
Definition aptos_parts (chain : ConfiguredChain) (o : Options) : SpecificParts :=
  mkParts (chain_validators chain o) (unless_disabled o (Some 1%nat)) false true true false DefaultCapDetectors.

(** One response carries both checks of Polkadot. *)
Definition polkadot_parts (chain : ConfiguredChain) (o : Options) : SpecificParts :=
  mkParts (chain_validators chain o)
    (unless_disabled o (syncing ← ValidateSyncing o; peers ← ValidatePeers o; Some (count (syncing || peers))))
    false true false false DefaultCapDetectors.

Definition solana_parts : SpecificParts := mkParts (Some 0%nat) (Some 1%nat) false true true false DefaultCapDetectors.

Definition beacon_parts (o : Options) : SpecificParts :=
  mkParts (Some 0%nat)
    (unless_disabled o (Some (1 + count (boolValue (ValidateSyncing o)) +
       count (boolValue (ValidatePeers o) && (0 <? MinPeers o)%Z))%nat))
    true true true false 0.

Definition tron_parts (o : Options) : SpecificParts :=
  mkParts (Some 0%nat) (peers ← ValidatePeers o; syncing ← ValidateSyncing o; Some (count peers + count syncing)%nat)
    true true true false DefaultCapDetectors.

Definition tendermint_parts (chain : ConfiguredChain) (o : Options) : SpecificParts :=
  mkParts (chain_validators chain o)
    (syncing ← ValidateSyncing o; peers ← ValidatePeers o; Some (count syncing + count peers)%nat)
    true true true false 0.

Definition cosmos_rest_parts (chain : ConfiguredChain) (o : Options) : SpecificParts :=
  mkParts (chain_validators chain o) (count <$> ValidateSyncing o) true true true false 0.

Definition stellar_horizon_parts (chain : ConfiguredChain) (o : Options) : SpecificParts :=
  mkParts (chain_validators chain o) (count <$> ValidateSyncing o) true true true false 0.
Definition stellar_rpc_parts (chain : ConfiguredChain) (o : Options) : SpecificParts :=
  mkParts (chain_validators chain o) (count <$> ValidateSyncing o) true true true false 0.

(** Neither has lower bounds. *)
Definition ton_v2_parts (chain : ConfiguredChain) (o : Options) : SpecificParts :=
  mkParts (chain_validators chain o) (unless_disabled o (Some 1%nat)) true false true false 0.
Definition ton_v3_parts (chain : ConfiguredChain) (o : Options) : SpecificParts :=
  mkParts (chain_validators chain o) (unless_disabled o (Some 1%nat)) true false true false 0.

(** What the object [getChainSpecific] makes has to offer. *)
Definition specific_parts (isBase : Z -> bool) (k : ChainSpecific) (chain : ConfiguredChain) (u : Upstream) (o : Options)
    (head : option ApiConnectorType) : SpecificParts :=
  match k with
  | EvmSpecific => evm_parts (isBase (cc_Chain chain)) chain o (u_Labels u) head
  | TronRestSpecific => tron_parts o
  | AztecSpecific => aztec_parts chain o
  | AlgorandSpecific => algorand_parts chain o
  | BitcoinSpecific => bitcoin_parts chain o
  | BeaconSpecific => beacon_parts o
  | AptosSpecific => aptos_parts chain o
  | NearSpecific => near_parts chain o
  | SolanaSpecific => solana_parts
  | TonV2Specific => ton_v2_parts chain o
  | TonV3Specific => ton_v3_parts chain o
  | TendermintSpecific => tendermint_parts chain o
  | CosmosRestSpecific => cosmos_rest_parts chain o
  | StarknetSpecific => starknet_parts chain o
  | StellarHorizonSpecific => stellar_horizon_parts chain o
  | StellarRpcSpecific => stellar_rpc_parts chain o
  | PolkadotSpecific => polkadot_parts chain o
  end.

(** ** The processors of an upstream *)

(** [createHealthValidationProcessor], [createSettingValidationProcessor]: [disabled] is the
    option of the kind, which is read only where validation is not disabled altogether. *)
Definition validation_processor (o : Options) (disabled : option bool) (validators : option nat) : option bool :=
  match DisableValidation o with
  | None => None
  | Some true => Some false
  | Some false =>
    match disabled with
    | None => None
    | Some true => Some false
    | Some false => n ← validators; Some (negb (n =? 0)%nat)
    end
  end.

(** [createLowerBoundsProcessor], [createLabelsProcessor], [createMethodsProcessor]. *)
Definition detection_processor (disabled : option bool) (has : bool) : option bool :=
  match disabled with None => None | Some off => Some (negb off && has) end.

(** The constructors in their order, with the type of each and whether it is there. *)
Definition event_processors (parts : SpecificParts) (o : Options) : option (list EventProcessorType) :=
  lower ← detection_processor (DisableLowerBoundsDetection o) (has_lower_bounds parts);
  health ← validation_processor o (DisableHealthValidation o) (health_validators parts);
  settings ← validation_processor o (DisableSettingsValidation o) (settings_validators parts);
  labels ← detection_processor (DisableLabelsDetection o) (has_labels parts);
  methods ← detection_processor (DisableMethodsDetection o) (has_methods parts);
  Some (map snd (base.filter (fun p => p.1 = true)
    [(has_blocks parts, BlockEventProcessorType); (true, HeadEventProcessorType); (lower, LowerBoundEventProcessorType);
     (health, HealthValidatorProcessorType); (settings, SettingsValidatorProcessorType); (labels, LabelsProcessorType);
     (methods, MethodsEventProcessorType); (negb (cap_detectors parts =? 0)%nat, CapEventProcessorType)])).

(** ** The upstream *)

Record CreatedUpstream := mkCreated {
  cu_index : string;
  cu_vendor : UpstreamVendor;
  cu_connectors : ConnectorsInfo;
  cu_methods : UpstreamMethods;
  cu_rateLimit : RateLimit;
  cu_autoTuned : bool;
  cu_labels : Labels;
  cu_head : option HeadKind;
  cu_processors : Processors;
}.

Section Create.
Context `{MR : MapRange} `{RX : Regexp} (reg : Registry) (chain_reg : ChainRegistry).
Context (new_client : string -> ApiConnectorConfig -> option string) (isTron isBase : Z -> bool).

Definition NewGenericUpstream (u : Upstream) (chain : ConfiguredChain) (index : Z) (info : ConnectorsInfo)
    (methods : UpstreamMethods) (rt : RateLimit * bool) : option (string + CreatedUpstream) :=
  match getChainSpecific isTron (internalRequestConnector info) chain with
  | None => None
  | Some (inl err) => Some (inl err)
  | Some (inr k) =>
    head ← headConnector info;
    o ← u_Options u;
    types ← event_processors (specific_parts isBase k chain u o (Some head)) o;
    Some (inr (mkCreated (upstreamIndexHex index) (DetectUpstreamVendor (map c_Url (u_Connectors u))) info methods rt.1 rt.2
      (foldl (fun l kv => Labels_AddLabel kv.1 kv.2 l) NewLabels (range (u_Labels u)))
      (createHead head) (NewUpstreamProcessorAggregator types)))
  end.

Definition CreateUpstream (budgets : gset string) (u : Upstream) (index : Z) : option (string + CreatedUpstream) :=
  let chain := GetChain chain_reg (u_ChainName u) in
  match createUpstreamConnectors new_client u with
  | None => None
  | Some (inl err) => Some (inl err)
  | Some (inr info) =>
    match NewUpstreamMethods reg (cc_MethodSpec chain) (method_lists <$> u_Methods u) (GetApiConnectorTypes u) with
    | None => Some (inl ("no method spec with name '" +:+ cc_MethodSpec chain +:+ "'"))
    | Some methods => rt ← createRateLimiter budgets u; NewGenericUpstream u chain index info methods rt
    end
  end.
End Create.

(** ** Connectors of an upstream *)

Section ConnectorFacts.
Context (new_client : string -> ApiConnectorConfig -> option string).

Lemma createConnector_result upId c :
  match createConnector new_client upId c with
  | None => connector_type c = GrpcConnector \/ connector_type c = UnknownType
  | Some (inl err) => new_client upId c = Some err
  | Some (inr t) => t = connector_type c /\ new_client upId c = None /\ connector_type c <> GrpcConnector
  end.
Proof using Type.
  unfold createConnector. destruct (connector_type c); try (by left); try (by right); by destruct (new_client upId c).
Qed.

Lemma found_cons (x t : ApiConnectorType) ts found :
  (if bool_decide (x ∈ ts) then Some x else if bool_decide (t = x) then Some t else found) =
  if bool_decide (x ∈ t :: ts) then Some x else found.
Proof.
  case_bool_decide as Hin; [by rewrite bool_decide_eq_true_2 by (by right)|].
  case_bool_decide as Ht; [by rewrite Ht, bool_decide_eq_true_2 by (by left)|].
  rewrite bool_decide_eq_false_2; [done|]. by intros [->|?]%elem_of_cons.
Qed.

Lemma connectors_loop_result u cs info :
  match connectors_loop new_client u cs info with
  | None => exists c, c ∈ cs /\ (connector_type c = GrpcConnector \/ connector_type c = UnknownType)
  | Some (inl err) => exists c e, c ∈ cs /\ new_client (u_Id u) c = Some e
  | Some (inr info') =>
    Forall (fun c => new_client (u_Id u) c = None /\ connector_type c <> GrpcConnector) cs /\
    allConnectors info' = allConnectors info ++ map connector_type cs /\
    headConnector info' =
      (if bool_decide (GetHeadApiConnectorType u ∈ map connector_type cs)
       then Some (GetHeadApiConnectorType u) else headConnector info) /\
    internalRequestConnector info' =
      (if bool_decide (GetBestConnector DefaultMode u ∈ map connector_type cs)
       then Some (GetBestConnector DefaultMode u) else internalRequestConnector info)
  end.
Proof using Type.
  revert info. induction cs as [|c cs IH]; intros info; simpl.
  - rewrite app_nil_r. split; [by constructor|]. split; [done|]. split; repeat case_bool_decide; try done; set_solver.
  - pose proof (createConnector_result (u_Id u) c) as Hc. destruct (createConnector _ _ c) as [[err|t]|].
    + exists c, err. split; [by left|done].
    + destruct Hc as (-> & Hn & Hg).
      match goal with |- context [connectors_loop _ u cs ?i] => specialize (IH i); set (i' := i) in * end.
      destruct (connectors_loop _ u cs i') as [[err|info']|].
      * destruct IH as (x & e & Hx & He). exists x, e. split; [by right|done].
      * destruct IH as (Hf & Ha & Hh & Hi). split; [by constructor|]. subst i'. simpl in *.
        rewrite Ha, <- app_assoc. split; [done|]. rewrite Hh, Hi.
        split; apply found_cons.
      * destruct IH as (x & Hx & Ht). exists x. split; [by right|done].
    + exists c. split; [by left|done].
Qed.
End ConnectorFacts.

(** The rate limit of an accepted configuration fails on a pattern only. *)
Lemma new_rules_none `{Regexp} rules :
  new_rules rules = None -> exists rule, rule ∈ rules /\ rule_Method rule = "" /\ regexp_valid (rule_Pattern rule) = false.
Proof.
  induction rules as [|rule rules IH]; simpl; [done|]. intros Hn.
  destruct (bool_decide (rule_Method rule = "")) eqn:Em; simpl in Hn; reflect_bool.
  - destruct (regexp_valid (rule_Pattern rule)) eqn:Ev; [|exists rule; split; [by left|done]].
    apply fmap_None in Hn. destruct (IH Hn) as (r & Hr & Hb). exists r. split; [by right|done].
  - apply fmap_None in Hn. destruct (IH Hn) as (r & Hr & Hb). exists r. split; [by right|done].
Qed.

Definition bad_pattern `{Regexp} (u : Upstream) : Prop :=
  exists rules rule, u_RateLimit u = Some rules /\ rule ∈ rules /\ rule_Method rule = "" /\
    regexp_valid (rule_Pattern rule) = false.

Lemma createRateLimiter_none `{Regexp} budgets u :
  u_RateLimitBudget u = "" \/ u_RateLimitBudget u ∈ budgets -> createRateLimiter budgets u = None -> bad_pattern u.
Proof.
  intros Hb. unfold createRateLimiter, bad_pattern. destruct (u_RateLimit u) as [rules|].
  - unfold NewRateLimitBudget. destruct (new_rules rules) eqn:En; [done|]. intros _.
    destruct (new_rules_none rules En) as (r & Hr). by exists rules, r.
  - repeat case_bool_decide; try done. by destruct Hb.
Qed.

(** ** The processors *)

(** What the options and the chain ask for. *)
Definition validation_wanted (o : Options) (disabled : option bool) (validators : option nat) : Prop :=
  DisableValidation o = Some false /\ disabled = Some false /\ exists n, validators = Some (S n).

Definition processor_wanted (parts : SpecificParts) (o : Options) (t : EventProcessorType) : Prop :=
  match t with
  | BlockEventProcessorType => has_blocks parts = true
  | HeadEventProcessorType => True
  | LowerBoundEventProcessorType => DisableLowerBoundsDetection o = Some false /\ has_lower_bounds parts = true
  | HealthValidatorProcessorType => validation_wanted o (DisableHealthValidation o) (health_validators parts)
  | SettingsValidatorProcessorType => validation_wanted o (DisableSettingsValidation o) (settings_validators parts)
  | LabelsProcessorType => DisableLabelsDetection o = Some false /\ has_labels parts = true
  | MethodsEventProcessorType => DisableMethodsDetection o = Some false /\ has_methods parts = true
  | CapEventProcessorType => cap_detectors parts <> 0%nat
  end.

Lemma validation_processor_wanted o disabled validators b :
  validation_processor o disabled validators = Some b -> b = true <-> validation_wanted o disabled validators.
Proof.
  unfold validation_processor, validation_wanted. destruct (DisableValidation o) as [[]|], disabled as [[]|]; try done;
    try (intros [= <-]; naive_solver).
  destruct validators as [[|n]|]; intros [= <-]; simpl; naive_solver.
Qed.

Lemma detection_processor_wanted disabled has b :
  detection_processor disabled has = Some b -> b = true <-> disabled = Some false /\ has = true.
Proof. unfold detection_processor. destruct disabled as [[]|], has; naive_solver. Qed.

(** The constructors that give something, by their types. *)
Lemma kept_cons {A} (b : bool) (x y : A) l :
  y ∈ map snd (base.filter (fun p => p.1 = true) ((b, x) :: l)) <->
  (b = true /\ y = x) \/ y ∈ map snd (base.filter (fun p => p.1 = true) l).
Proof. rewrite filter_cons. simpl. destruct b; simpl; [rewrite elem_of_cons|]; naive_solver. Qed.

Lemma event_processors_wanted parts o types t :
  event_processors parts o = Some types -> t ∈ types <-> processor_wanted parts o t.
Proof.
  unfold event_processors. intros E.
  apply bind_Some in E as (lower & Hlow & E). apply bind_Some in E as (health & Hhealth & E).
  apply bind_Some in E as (settings & Hset & E). apply bind_Some in E as (labs & Hlab & E).
  apply bind_Some in E as (meths & Hmeth & [= <-]).
  apply detection_processor_wanted in Hlow, Hlab, Hmeth. apply validation_processor_wanted in Hhealth, Hset.
  assert (negb (cap_detectors parts =? 0)%nat = true <-> cap_detectors parts <> 0%nat) as Hcap
    by (rewrite negb_true_iff; apply Nat.eqb_neq).
  rewrite !kept_cons. destruct t; simpl; rewrite <- ?Hcap, <- ?Hlow, <- ?Hlab, <- ?Hmeth, <- ?Hhealth, <- ?Hset; split.
  all: try (intros Hin; repeat destruct Hin as [[? ?]|Hin]; try done; by apply elem_of_nil in Hin).
  all: intros Hp; repeat first [left; split; [exact Hp|reflexivity] | left; split; reflexivity | right].
Qed.

(** The chain gives the numbers of its validators. *)
Definition parts_total (parts : SpecificParts) : Prop :=
  is_Some (settings_validators parts) /\ is_Some (health_validators parts).

Lemma options_flags o : options_wf o ->
  is_Some (DisableValidation o) /\ is_Some (DisableSettingsValidation o) /\ is_Some (DisableChainValidation o) /\
  is_Some (DisableHealthValidation o) /\ is_Some (DisableLowerBoundsDetection o) /\ is_Some (DisableLabelsDetection o) /\
  is_Some (DisableMethodsDetection o) /\ is_Some (ValidateSyncing o) /\ is_Some (ValidatePeers o) /\
  is_Some (ValidateCallLimit o).
Proof.
  intros (_ & _ & _ & _ & Hf). unfold option_flags in Hf. rewrite Forall_forall in Hf.
  split_and!; apply Hf; repeat first [by left|right].
Qed.

Lemma evm_parts_total isBase chain o manualLabels head :
  options_wf o -> parts_total (evm_parts isBase chain o manualLabels head).
Proof.
  intros (_ & _ & [chainOff Hc] & _ & _ & _ & _ & [syncing Hs] & [peers Hp] & [limit Hl])%options_flags.
  unfold parts_total, evm_parts, SettingsValidators, HealthValidators. simpl. by rewrite Hc, Hl, Hs, Hp.
Qed.

Lemma specific_parts_total isBase k chain u o head :
  options_wf o -> parts_total (specific_parts isBase k chain u o head).
Proof.
  intros Ho. destruct k; [by apply evm_parts_total|..].
  all: destruct (options_flags o Ho)
    as (_ & _ & [chainOff Hc] & [healthOff Hh] & _ & _ & _ & [syncing Hs] & [peers Hp] & _).
  all: unfold parts_total, specific_parts, near_parts, starknet_parts, bitcoin_parts, aztec_parts, algorand_parts,
    aptos_parts, polkadot_parts, solana_parts, beacon_parts, tron_parts, tendermint_parts, cosmos_rest_parts,
    stellar_horizon_parts, stellar_rpc_parts, ton_v2_parts, ton_v3_parts, chain_validators, unless_disabled.
  all: rewrite ?Hc, ?Hh, ?Hs, ?Hp; simpl; split; by repeat case_match.
Qed.

Lemma validation_processor_total o disabled validators :
  is_Some (DisableValidation o) -> is_Some disabled -> is_Some validators ->
  is_Some (validation_processor o disabled validators).
Proof. intros [[] Hd] [[] ->] [n ->]; unfold validation_processor; rewrite Hd; by eexists. Qed.

Lemma event_processors_total parts o : options_wf o -> parts_total parts -> is_Some (event_processors parts o).
Proof.
  intros (Hv & Hs & _ & Hh & [lower Hlow] & [labs Hlab] & [meths Hmeth] & _)%options_flags [Hps Hph].
  unfold event_processors, detection_processor. rewrite Hlow, Hlab, Hmeth. simpl.
  destruct (validation_processor_total o _ _ Hv Hh Hph) as [h ->].
  destruct (validation_processor_total o _ _ Hv Hs Hps) as [s ->]. by eexists.
Qed.

(** ** Which processors a chain has

    What each type of chain checks and detects, beside the numbers of its parts. *)

Definition health_checked (k : ChainSpecific) (o : Options) : Prop :=
  match k with
  | AztecSpecific | AlgorandSpecific | BitcoinSpecific | BeaconSpecific | AptosSpecific | SolanaSpecific
  | TonV2Specific | TonV3Specific => True
  | CosmosRestSpecific | StarknetSpecific | StellarHorizonSpecific | StellarRpcSpecific => ValidateSyncing o = Some true
  | EvmSpecific | TronRestSpecific | NearSpecific | TendermintSpecific | PolkadotSpecific =>
    ValidateSyncing o = Some true \/ ValidatePeers o = Some true
  end.

Definition settings_checked (k : ChainSpecific) (chain : ConfiguredChain) (o : Options) : Prop :=
  match k with
  | EvmSpecific =>
    DisableChainValidation o = Some false \/ (ValidateCallLimit o = Some true /\ CallValidateContract chain <> "") \/
    ValidateClientVersion o = Some true \/ GasPriceCondition chain <> [] \/ DisableLogIndexValidation o <> Some true
  | TronRestSpecific | BeaconSpecific | SolanaSpecific => False
  | _ => ChainId chain <> "" /\ DisableChainValidation o = Some false
  end.

Definition chain_processor (k : ChainSpecific) (chain : ConfiguredChain) (o : Options) (t : EventProcessorType) : Prop :=
  match t with
  | BlockEventProcessorType =>
    k ∉ [AztecSpecific; AlgorandSpecific; BitcoinSpecific; AptosSpecific; SolanaSpecific; PolkadotSpecific]
  | HeadEventProcessorType => True
  | LowerBoundEventProcessorType => DisableLowerBoundsDetection o = Some false /\ k ∉ [TonV2Specific; TonV3Specific]
  | HealthValidatorProcessorType =>
    DisableValidation o = Some false /\ DisableHealthValidation o = Some false /\ health_checked k o
  | SettingsValidatorProcessorType =>
    DisableValidation o = Some false /\ DisableSettingsValidation o = Some false /\ settings_checked k chain o
  | LabelsProcessorType => DisableLabelsDetection o = Some false /\ k <> PolkadotSpecific
  | MethodsEventProcessorType => DisableMethodsDetection o = Some false /\ k = EvmSpecific
  | CapEventProcessorType =>
    k ∈ [EvmSpecific; AztecSpecific; AlgorandSpecific; BitcoinSpecific; AptosSpecific; SolanaSpecific; PolkadotSpecific;
         TronRestSpecific]
  end.

(** Some validator is among those counted. *)
Definition some_validator (n : option nat) : Prop := exists m, n = Some (S m).

Lemma some_validator_count b : some_validator (Some (count b)) <-> b = true.
Proof. unfold some_validator. destruct b; simpl; [split; [done|]; intros _; by eexists|]. split; [by intros [m ?]|done]. Qed.

Lemma some_validator_add m n : some_validator (Some (m + n)%nat) <-> some_validator (Some m) \/ some_validator (Some n).
Proof. unfold some_validator. destruct m, n; simpl; naive_solver. Qed.

Lemma some_validator_length {A} (l : list A) : some_validator (Some (length l)) <-> l <> [].
Proof. unfold some_validator. destruct l; simpl; naive_solver. Qed.

Lemma health_checked_spec isBase k chain u o head : options_wf o -> DisableHealthValidation o = Some false ->
  some_validator (health_validators (specific_parts isBase k chain u o head)) <-> health_checked k o.
Proof.
  intros Ho Hh. destruct (options_flags o Ho) as (_ & _ & _ & _ & _ & _ & _ & [syncing Hs] & [peers Hp] & _).
  destruct k; simpl; unfold unless_disabled, boolValue, HealthValidators; rewrite ?Hh, ?Hs, ?Hp; simpl;
    rewrite ?some_validator_length, ?some_validator_add, ?some_validator_count.
  all: unfold some_validator; destruct syncing, peers; simpl; naive_solver.
Qed.

Lemma settings_checked_spec isBase k chain u o head : options_wf o ->
  some_validator (settings_validators (specific_parts isBase k chain u o head)) <-> settings_checked k chain o.
Proof.
  intros Ho. destruct (options_flags o Ho) as (_ & _ & [off Hc] & _ & _ & _ & _ & _ & _ & [limit Hl]).
  destruct k; simpl; try (unfold some_validator; naive_solver).
  1: { unfold SettingsValidators. rewrite Hc, Hl. simpl. rewrite some_validator_length.
       destruct off, limit, (ValidateClientVersion o) as [[]|], (GasPriceCondition chain), (DisableLogIndexValidation o) as [[]|];
         simpl; repeat case_bool_decide; simpl; naive_solver. }
  all: unfold chain_validators; case_bool_decide; rewrite ?Hc; simpl; rewrite ?some_validator_count.
  all: unfold some_validator; destruct off; naive_solver.
Qed.

Lemma chain_processor_spec isBase k chain u o head t : options_wf o ->
  processor_wanted (specific_parts isBase k chain u o head) o t <-> chain_processor k chain o t.
Proof.
  intros Ho. destruct t; simpl; unfold validation_wanted.
  - destruct k; simpl; rewrite !elem_of_cons, elem_of_nil; naive_solver.
  - done.
  - destruct k; simpl; rewrite !elem_of_cons, elem_of_nil; naive_solver.
  - pose proof (health_checked_spec isBase k chain u o head Ho) as Hk. unfold some_validator in Hk. naive_solver.
  - pose proof (settings_checked_spec isBase k chain u o head Ho) as Hk. unfold some_validator in Hk. naive_solver.
  - destruct k; simpl; naive_solver.
  - destruct k; simpl; rewrite !elem_of_cons, elem_of_nil; naive_solver.
  - destruct k; simpl; naive_solver.
Qed.

(** ** The labels of the configuration *)

Lemma foldl_add_labels kvs m : NoDup kvs.*1 ->
  labels (foldl (fun l kv => Labels_AddLabel kv.1 kv.2 l) (mkLabels m) kvs) = list_to_map kvs ∪ m.
Proof.
  revert m. induction kvs as [|[k v] kvs IH]; intros m Hn; simpl; [by rewrite (left_id_L ∅ (∪))|].
  apply NoDup_cons in Hn as [Hk Hn].
  change (Labels_AddLabel k v (mkLabels m)) with (mkLabels (<[k := v]> m)). rewrite IH by done. rewrite <- insert_union_l. symmetry. apply insert_union_r.
  by apply not_elem_of_list_to_map_1.
Qed.

Lemma seeded_labels `{MapRange} (m : gmap string string) :
  labels (foldl (fun l kv => Labels_AddLabel kv.1 kv.2 l) NewLabels (range m)) = m.
Proof. unfold NewLabels. rewrite foldl_add_labels by apply range_NoDup_keys. by rewrite list_to_map_range, (right_id_L ∅ (∪)). Qed.

(** ** The chain *)

Lemma getChainSpecific_total isTron t chain :
  IsValidBlockchainType (cc_Type chain) = true -> is_Some (getChainSpecific isTron t chain).
Proof.
  unfold IsValidBlockchainType. intros Ht%bool_decide_eq_true. unfold getChainSpecific.
  repeat case_bool_decide; try (by eexists); [by destruct (isTron _); eexists|].
  exfalso. unfold blockchain_types in Ht. rewrite !elem_of_cons, elem_of_nil in Ht. tauto.
Qed.

Lemma getChainSpecific_unknown isTron t chain :
  IsValidBlockchainType (cc_Type chain) = false -> getChainSpecific isTron t chain = None.
Proof.
  unfold IsValidBlockchainType. intros Ht%bool_decide_eq_false. unfold getChainSpecific.
  repeat case_bool_decide; try done; destruct Ht;
    match goal with E : cc_Type chain = _ |- _ => rewrite E end; unfold blockchain_types; set_solver.
Qed.

(** ** What an accepted configuration becomes *)

Section Accepted.
Context `{MR : MapRange} `{RX : Regexp} (reg : Registry) (chain_reg : ChainRegistry).
Context (new_client : string -> ApiConnectorConfig -> option string) (isTron isBase : Z -> bool).
Context (budgets : gset string).

Local Notation chain_of u := (GetChain chain_reg (u_ChainName u)).
Local Notation create := (CreateUpstream reg chain_reg new_client isTron isBase budgets).
Local Notation parts_of k u o := (specific_parts isBase k (chain_of u) u o (Some (GetHeadApiConnectorType u))).

(** Why the construction of an upstream may be refused. *)
Inductive refused (u : Upstream) : Prop :=
| refused_client c err : c ∈ u_Connectors u -> new_client (u_Id u) c = Some err -> refused u
| refused_spec :
    GetSpecMethodsByConnectors reg (cc_MethodSpec (chain_of u)) (GetApiConnectorTypes u) = None -> refused u
| refused_chain err :
    getChainSpecific isTron (Some (GetBestConnector DefaultMode u)) (chain_of u) = Some (inl err) -> refused u.

(** An upstream as its configuration describes it. *)
Record created_as (u : Upstream) (cu : CreatedUpstream) : Prop := {
  as_clients : Forall (fun c => new_client (u_Id u) c = None) (u_Connectors u);
  as_connectors : cu_connectors cu = mkConnectorsInfo (Some (GetHeadApiConnectorType u))
    (Some (GetBestConnector DefaultMode u)) (GetApiConnectorTypes u);
  as_head : is_Some (cu_head cu);
  as_labels : labels (cu_labels cu) = u_Labels u;
  as_methods : NewUpstreamMethods reg (cc_MethodSpec (chain_of u)) (method_lists <$> u_Methods u)
    (GetApiConnectorTypes u) = Some (cu_methods cu);
  as_idle : UpstreamLife.running (cu_processors cu) = ∅;
  as_processors : exists k o, u_Options u = Some o /\
    getChainSpecific isTron (Some (GetBestConnector DefaultMode u)) (chain_of u) = Some (inr k) /\
    forall t, t ∈ UpstreamLife.configured (cu_processors cu) <-> chain_processor k (chain_of u) o t;
}.

Lemma plain_head t : plain_type t -> t <> GrpcConnector -> is_Some (createHead t).
Proof using Type. intros [Hu Ha] Hg. destruct t; simpl; try done; by eexists. Qed.

Lemma NewGenericUpstream_created u index methods rt :
  @upstream_wf (registry_settings chain_reg) budgets u ->
  IsValidBlockchainType (cc_Type (chain_of u)) = true ->
  Forall (fun c => new_client (u_Id u) c = None) (u_Connectors u) -> GrpcConnector ∉ GetApiConnectorTypes u ->
  NewUpstreamMethods reg (cc_MethodSpec (chain_of u)) (method_lists <$> u_Methods u) (GetApiConnectorTypes u) = Some methods ->
  match NewGenericUpstream isTron isBase u (chain_of u) index (mkConnectorsInfo (Some (GetHeadApiConnectorType u))
          (Some (GetBestConnector DefaultMode u)) (GetApiConnectorTypes u)) methods rt with
  | None => False
  | Some (inl _) => refused u
  | Some (inr cu) => created_as u cu
  end.
Proof using Type.
  intros Hwf Ht Hclients Hg Hm. unfold NewGenericUpstream. cbn [internalRequestConnector headConnector].
  destruct (getChainSpecific_total isTron (Some (GetBestConnector DefaultMode u)) _ Ht) as [[err|k] Hk]; rewrite Hk;
    [by eapply refused_chain|].
  destruct (wf_options _ _ Hwf) as (o & Ho & Hoks). rewrite Ho. simpl.
  pose proof (specific_parts_total isBase k (chain_of u) u o (Some (GetHeadApiConnectorType u)) Hoks) as Hp.
  destruct (event_processors_total _ _ Hoks Hp) as [types Etypes]. rewrite Etypes. simpl.
  destruct (wf_head _ _ Hwf) as [Hin Hplain].
  constructor; try done; simpl.
  - apply plain_head; [done|]. intros E. apply Hg. by rewrite <- E.
  - apply seeded_labels.
  - exists k, o. split; [done|]. split; [done|]. intros t. rewrite elem_of_list_to_set.
    rewrite <- (chain_processor_spec isBase k _ u _ (Some (GetHeadApiConnectorType u))) by done. by apply event_processors_wanted.
Qed.

(** A chain of a type the program does not know is the end of the program. *)
Lemma NewGenericUpstream_unknown u chain index info methods rt :
  IsValidBlockchainType (cc_Type chain) = false ->
  NewGenericUpstream isTron isBase u chain index info methods rt = None.
Proof using Type. intros Ht. unfold NewGenericUpstream. by rewrite getChainSpecific_unknown. Qed.

(** C40. An upstream of an accepted configuration is the one it describes.  The construction
    stops with a panic only where the configuration has a connector of type [grpc] or
    a pattern of its rate limit that does not compile, which the validation lets pass,
    or where the type of its chain is none the program knows, which the registry
    of chains does not check; it is refused only where a client cannot be made, the specification of the chain
    is missing, or the chain does not speak over the connector of internal requests.
    Otherwise the upstream has a client for every connector, heads come over the
    connector the configuration names and internal requests go over the simplest one,
    its labels are those of the configuration, and the processors it has are exactly
    those its type of chain has and the options leave ([chain_processor]), none of them
    running yet. *)
Theorem accepted_upstream_created u index :
  @upstream_wf (registry_settings chain_reg) budgets u ->
  match create u index with
  | None =>
    GrpcConnector ∈ GetApiConnectorTypes u \/ bad_pattern u \/ IsValidBlockchainType (cc_Type (chain_of u)) = false
  | Some (inl _) => refused u
  | Some (inr cu) => created_as u cu
  end.
Proof using Type.
  intros Hwf. unfold CreateUpstream, createUpstreamConnectors.
  pose proof (connectors_loop_result new_client u (u_Connectors u) (mkConnectorsInfo None None [])) as Hl.
  destruct (connectors_loop _ _ _ _) as [[err|info]|].
  - destruct Hl as (c & e & Hc & He). by eapply refused_client.
  - destruct Hl as (Hf & Ha & Hh & Hi). apply Forall_and in Hf as [Hclients Hng].
    destruct (wf_head _ _ Hwf) as [Hin Hplain].
    rewrite bool_decide_eq_true_2 in Hh by done.
    assert (GetBestConnector DefaultMode u ∈ GetApiConnectorTypes u) as Hbest.
    { apply list_elem_of_fmap in Hin as (c & Hc & Hin).
      destruct (best_connector_spec DefaultMode u) as (b & Hb & -> & _); [set_solver|exists c; by rewrite <- Hc|].
      apply list_elem_of_fmap. by exists b. }
    rewrite bool_decide_eq_true_2 in Hi by done. destruct info as [h i all]. simpl in Ha, Hh, Hi. subst h i all.
    destruct (NewUpstreamMethods _ _ _ _) as [methods|] eqn:Em.
    + destruct (createRateLimiter budgets u) as [rt|] eqn:Er; simpl.
      * assert (GrpcConnector ∉ GetApiConnectorTypes u) as Hg
          by (intros (c & Hc & Hcin)%list_elem_of_fmap; rewrite Forall_forall in Hng; by apply (Hng c Hcin)).
        destruct (IsValidBlockchainType (cc_Type (chain_of u))) eqn:Ht;
          [|rewrite NewGenericUpstream_unknown by done; by do 2 right].
        pose proof (NewGenericUpstream_created u index methods rt Hwf Ht Hclients Hg Em) as Hcr.
        fold (GetApiConnectorTypes u). by destruct (NewGenericUpstream _ _ _ _ _ _ _ _) as [[?|?]|].
      * right. left. apply (createRateLimiter_none budgets); [apply (wf_budget _ _ Hwf)|done].
    + apply refused_spec. rewrite eq_None_not_Some. rewrite <- (NewUpstreamMethods_some reg _ (method_lists <$> u_Methods u)).
      by rewrite Em.
  - destruct Hl as (c & Hc & [Hg|Hu]); [left|destruct (wf_connectors _ _ Hwf) as [_ Hn]; destruct Hn];
      apply list_elem_of_fmap; by exists c.
Qed.

(** A [grpc] connector is the end of the program whenever the clients before it are made. *)
Lemma grpc_connector_panics u index :
  GrpcConnector ∈ GetApiConnectorTypes u -> Forall (fun c => new_client (u_Id u) c = None) (u_Connectors u) ->
  create u index = None.
Proof using Type.
  intros (g & Hg & Hin)%list_elem_of_fmap Hf. unfold CreateUpstream, createUpstreamConnectors.
  pose proof (connectors_loop_result new_client u (u_Connectors u) (mkConnectorsInfo None None [])) as Hl.
  destruct (connectors_loop _ _ _ _) as [[err|info]|]; [| |done]; exfalso; rewrite Forall_forall in Hf.
  - destruct Hl as (c & e & Hc & He). by rewrite (Hf c Hc) in He.
  - destruct Hl as (Hng & _). rewrite Forall_forall in Hng. by apply (proj2 (Hng g Hin)).
Qed.

(** [archive: false] stands: the label is published from the start, and no detector of
    the archive runs that could overwrite it. *)
Lemma manual_archive_label_stands u cu :
  u_Labels u !! ArchiveLabel = Some "false" -> created_as u cu ->
  Labels_GetLabel (cu_labels cu) ArchiveLabel = Some "false" /\ ArchiveLabels ∉ evm_labelsDetectors (u_Labels u).
Proof using Type.
  intros Hl Hc. unfold Labels_GetLabel. rewrite (as_labels _ _ Hc). split; [done|].
  unfold evm_labelsDetectors, archiveDetectionSuppressed. rewrite bool_decide_eq_true_2 by done. set_solver.
Qed.
End Accepted.

(** ** An accepted upstream of Ethereum *)

#[local] Instance sample_regexp : Regexp := {| regexp_valid p := negb (bool_decide (p = "eth_(")); MatchString p n := bool_decide (p = n) |}.
#[local] Existing Instance Prelude.default_range.

Definition sample_options : Options :=
  mkOptions 1 1 (Some false) (Some false) (Some false) (Some true) (Some false) (Some false) (Some false) (Some false)
    (Some true) (Some false) (Some false) None (Some true) (Some true) 1 (Some false) (Some false) 1000.

Definition sample_connector (type : string) : ApiConnectorConfig := mkConnectorConfig type "https://eth.drpc.org" ∅ "" [].

Definition sample_upstream (types : list string) (rules : option (list RateLimitRule)) : Upstream :=
  mkUpstream "up1" "ethereum" (map sample_connector types) "websocket" 60000 (Some (mkMethodsSection 300 (mkMethodsConfig [] [])))
    (Some (mkFailsafeConfig None None None)) (Some sample_options) "" rules None [] {[ "archive" := "false" ]}.

Definition create_on (reg : ChainRegistry) (types : list string) (rules : option (list RateLimitRule))
    : option (string + CreatedUpstream) :=
  CreateUpstream demo_registry reg (fun _ _ => None) (fun _ => false) (fun _ => false) ∅ (sample_upstream types rules) 0.

Definition sample_create : list string -> option (list RateLimitRule) -> option (string + CreatedUpstream) :=
  create_on sample_registry.

Lemma upstream_wf_on reg types rules :
  let ts := GetApiConnectorTypes (sample_upstream types rules) in
  bool_decide (NoDup ts /\ UnknownType ∉ ts /\ WebsocketConnector ∈ ts) = true ->
  is_Some (chains reg !! "ethereum") -> (forall rs, rules = Some rs -> Forall rule_wf rs) ->
  @upstream_wf (registry_settings reg) ∅ (sample_upstream types rules).
Proof.
  intros ts (Hn & Hu & Hw)%bool_decide_eq_true Hchain Hr. constructor; try done.
  - simpl. by apply fmap_is_Some.
  - eexists. split; [done|]. split; [done|]. by intros n ?%elem_of_nil.
  - eexists. split; [done|]. done.
  - eexists. split; [done|]. unfold options_wf, sample_options. simpl. split_and!; [lia..|].
    repeat constructor; by eexists.
  - by left.
  - intros l v. simpl. by intros [<- <-]%lookup_singleton_Some.
Qed.

Lemma sample_upstream_wf types rules :
  let ts := GetApiConnectorTypes (sample_upstream types rules) in
  bool_decide (NoDup ts /\ UnknownType ∉ ts /\ WebsocketConnector ∈ ts) = true ->
  (forall rs, rules = Some rs -> Forall rule_wf rs) ->
  @upstream_wf (registry_settings sample_registry) ∅ (sample_upstream types rules).
Proof. intros ts Ht. apply upstream_wf_on; [done|]. vm_compute. by eexists. Qed.

(** The validation accepts it, and its construction panics. *)
Example accepted_grpc_upstream_panics :
  @upstream_wf (registry_settings sample_registry) ∅ (sample_upstream ["json-rpc"; "websocket"; "grpc"] None) /\
  sample_create ["json-rpc"; "websocket"; "grpc"] None = None.
Proof.
  split; [apply sample_upstream_wf; [by vm_compute|done]|].
  vm_compute. reflexivity.
Qed.

Example accepted_bad_pattern_panics :
  let rules := Some [mkRateLimitRule "" "eth_(" 100 1000] in
  @upstream_wf (registry_settings sample_registry) ∅ (sample_upstream ["json-rpc"; "websocket"] rules) /\
  sample_create ["json-rpc"; "websocket"] rules = None.
Proof.
  split; [apply sample_upstream_wf; [by vm_compute|]|].
  - intros rs [= <-]. constructor; [|done]. unfold rule_wf. simpl. split_and!; [lia..|by left].
  - vm_compute. reflexivity.
Qed.

(** A file of extra chains whose type is misspelled loads, and its upstreams panic. *)
#[local] Instance misspelled_yaml : ChainYaml := {
  unmarshal_chains _ := inr (mkChainConfig
    [mkProtocol [mkChainData ["ethereum"] "0x1" 0 "eth" [] "" "" [] None] [] "ethereum"] []);
  decode_settings _ := inr sample_settings;
  getNetVersion _ := "1";
}.
#[local] Instance plain_quoting : Quoting := fun s => s.

Definition no_chains : ChainRegistry := mkChainRegistry sample_ids ∅ ∅ false.
Definition misspelled_registry : ChainRegistry := (LoadExtraChains "misspelled" no_chains).2.

Example accepted_unknown_type_panics :
  (LoadExtraChains "misspelled" no_chains).1 = None /\
  @upstream_wf (registry_settings misspelled_registry) ∅ (sample_upstream ["json-rpc"; "websocket"] None) /\
  create_on misspelled_registry ["json-rpc"; "websocket"] None = None.
Proof.
  split; [by vm_compute|]. split; [|by vm_compute].
  apply upstream_wf_on; [by vm_compute| |done]. vm_compute. by eexists.
Qed.

(** Heads over the websocket, requests over JSON-RPC, and no validation of health. *)
Example sample_created :
  match sample_create ["json-rpc"; "websocket"] None with
  | Some (inr cu) => cu_vendor cu = DRPC /\ cu_head cu = Some SubscriptionHead /\
      internalRequestConnector (cu_connectors cu) = Some JsonRpcConnector /\
      HealthValidatorProcessorType ∉ UpstreamLife.configured (cu_processors cu) /\
      SettingsValidatorProcessorType ∈ UpstreamLife.configured (cu_processors cu)
  | _ => False
  end.
Proof. vm_compute. split_and!; try reflexivity; set_solver. Qed.

Lemma accepted_upstream_created_witness :
  exists cu, sample_create ["json-rpc"; "websocket"] None = Some (inr cu) /\
    created_as demo_registry sample_registry (fun _ _ => None) (fun _ => false)
      (sample_upstream ["json-rpc"; "websocket"] None) cu.
Proof.
  pose proof sample_created as Hs. destruct (sample_create ["json-rpc"; "websocket"] None) as [[err|cu]|] eqn:E; [done| |done].
  exists cu. split; [done|].
  pose proof (accepted_upstream_created demo_registry sample_registry (fun _ _ => None) (fun _ => false) (fun _ => false) ∅
    (sample_upstream ["json-rpc"; "websocket"] None) 0) as Ht.
  unfold sample_create, create_on in E. rewrite E in Ht. apply Ht.
  apply sample_upstream_wf; [by vm_compute|done].
Defined.
