(* ===== verification/Hedge.v ===== *)
(** The parallel hedge policy: after a delay, copies of a request run in
    parallel, and one of the results is returned
    ([internal/resilience/parallel_hedge.go], [hedgeExecutor.Apply]).

    Every execution runs in a goroutine of its own; a state holds where each of
    them is and what they share, and a step is one atomic action.  What the
    inner function returns, and when, is left open, so the cancellation of the
    other executions, which only changes these results, is not a step of its own;
    whether the parent was cancelled by the time a result arrives is left open
    too. *)

From S2P Require Import Prelude.

(** [R] is what an execution gives: the result of the inner function and whether
    it came before the delay ([isFast], the test [since < delay]). *)
Section Hedge.
Context {R : Type} (isAbortable : R -> bool) (resultTypeFunc : R -> Z) (isFast : R -> bool) (maxHedges : nat).

(** Where the goroutine of an execution is: before its start, in the inner
    function, after counting its result (with [isFinalResult]), before storing it, while ranging over the stored results
    (those stored when it began), before sending, done. *)
Inductive stage :=
| Idle
| Running
| Counted (r : R) (final : bool)
| Storing (r : R) (final : bool)
| Ranging (seen : gmap nat R)
| Sending (j : nat) (r : R)
| Finished.

(** [returned] is [Some None] when the parent's cancel result was returned.
    [produced] is a history variable: the results of the inner functions. *)
Record HedgeState := mkHedgeState {
  stages : list stage;
  resultSent : bool;
  resultCount : nat;
  resultChan : option (nat * R);
  possibleResults : gmap nat R;
  timerFired : bool;
  returned : option (option (nat * R));
  produced : gmap nat R;
}.

Definition hedge_start : HedgeState :=
  mkHedgeState (Running :: replicate maxHedges Idle) false 0 None ∅ false None ∅.

Definition set_stage (i : nat) (st : stage) (s : HedgeState) : HedgeState :=
  mkHedgeState (<[i := st]> (stages s)) (resultSent s) (resultCount s) (resultChan s)
    (possibleResults s) (timerFired s) (returned s) (produced s).

(** The inner function returns and the result is counted. *)
Definition count_result (i : nat) (r : R) (s : HedgeState) : HedgeState :=
  let n := S (resultCount s) in
  mkHedgeState (<[i := Counted r (bool_decide (n = S maxHedges))]> (stages s))
    (resultSent s) n (resultChan s) (possibleResults s) (timerFired s) (returned s)
    (<[i := r]> (produced s)).

(** [(isCancellable || noNeedToHedge) && CompareAndSwap], for execution [i] *)
Definition try_send (i : nat) (r : R) (final : bool) (s : HedgeState) : HedgeState :=
  if (isAbortable r || (bool_decide (i = 0%nat) && isFast r)) && negb (resultSent s) then
    mkHedgeState (<[i := Sending i r]> (stages s)) true (resultCount s) (resultChan s)
      (possibleResults s) (timerFired s) (returned s) (produced s)
  else set_stage i (Storing r final) s.

Definition store_result (i : nat) (r : R) (final : bool) (s : HedgeState) : HedgeState :=
  let m := <[i := r]> (possibleResults s) in
  mkHedgeState (<[i := if final then Ranging m else Finished]> (stages s)) (resultSent s)
    (resultCount s) (resultChan s) m (timerFired s) (returned s) (produced s).

(** The compare-and-swap of the final execution, with the result it chose. *)
Definition send_final (i j : nat) (r : R) (s : HedgeState) : HedgeState :=
  if resultSent s then set_stage i Finished s
  else mkHedgeState (<[i := Sending j r]> (stages s)) true (resultCount s) (resultChan s)
         (possibleResults s) (timerFired s) (returned s) (produced s).

Definition send_result (i j : nat) (r : R) (s : HedgeState) : HedgeState :=
  mkHedgeState (<[i := Finished]> (stages s)) (resultSent s) (resultCount s) (Some (j, r))
    (possibleResults s) (timerFired s) (returned s) (produced s).

(** The timer starts the hedges. *)
Definition start_hedges (s : HedgeState) : HedgeState :=
  mkHedgeState
    (match stages s with st :: rest => st :: map (fun _ => Running) rest | [] => [] end)
    (resultSent s) (resultCount s) (resultChan s) (possibleResults s) true (returned s) (produced s).

(** The result is received; [x] is [None] when the parent is cancelled. *)
Definition return_result (x : option (nat * R)) (s : HedgeState) : HedgeState :=
  mkHedgeState (stages s) (resultSent s) (resultCount s) None (possibleResults s) (timerFired s)
    (Some x) (produced s).

(** [lo.MinBy] returns an element no other is smaller than. *)
Definition minimal (m : gmap nat R) (j : nat) (r : R) : Prop :=
  m !! j = Some r /\ forall j' r', m !! j' = Some r' -> resultTypeFunc r <= resultTypeFunc r'.

(** An execution counts its result. *)
Inductive count_step (s : HedgeState) : HedgeState -> Prop :=
| step_count i r : stages s !! i = Some Running -> count_step s (count_result i r s).

(** The other steps.  Ranging over a concurrent map sees what was stored when it
    began and maybe more; the receiving loop stops with its first result. *)
Inductive other_step (s : HedgeState) : HedgeState -> Prop :=
| step_try i r final :
    stages s !! i = Some (Counted r final) -> other_step s (try_send i r final s)
| step_store i r final :
    stages s !! i = Some (Storing r final) -> other_step s (store_result i r final s)
| step_choose i seen m j r :
    stages s !! i = Some (Ranging seen) -> seen ⊆ m -> m ⊆ possibleResults s -> minimal m j r ->
    other_step s (send_final i j r s)
| step_send i j r :
    stages s !! i = Some (Sending j r) -> resultChan s = None -> other_step s (send_result i j r s)
| step_timer : timerFired s = false -> returned s = None -> other_step s (start_hedges s)
| step_return x : resultChan s = Some x -> returned s = None -> other_step s (return_result (Some x) s)
| step_canceled x : resultChan s = Some x -> returned s = None -> other_step s (return_result None s).

Definition hedge_step (s s' : HedgeState) : Prop := count_step s s' \/ other_step s s'.

Inductive hedge_reach : HedgeState -> Prop :=
| reach_start : hedge_reach hedge_start
| reach_step s s' : hedge_reach s -> hedge_step s s' -> hedge_reach s'.

Inductive hedge_steps : nat -> HedgeState -> HedgeState -> Prop :=
| steps_nil s : hedge_steps 0 s s
| steps_cons n s s' s'' : hedge_step s s' -> hedge_steps n s' s'' -> hedge_steps (S n) s s''.

(** ** Counting over the executions *)

Lemma sum_list_with_insert (f : stage -> nat) l i x y :
  l !! i = Some x -> (sum_list_with f (<[i := y]> l) + f x = sum_list_with f l + f y)%nat.
Proof using Type.
  revert i. induction l as [|z l IH]; intros [|i] Hl; simpl in *; simplify_eq; try lia.
  specialize (IH _ Hl). lia.
Qed.

Lemma sum_list_with_elem (f : stage -> nat) l i x :
  l !! i = Some x -> (f x <= sum_list_with f l)%nat.
Proof using Type. revert i. induction l as [|z l IH]; intros [|i] Hl; simpl in *; simplify_eq; [lia|]. specialize (IH _ Hl). lia. Qed.

Lemma sum_list_with_pos (f : stage -> nat) l :
  (0 < sum_list_with f l)%nat -> exists i x, l !! i = Some x /\ (0 < f x)%nat.
Proof using Type.
  induction l as [|z l IH]; simpl; [lia|]. intros Hp. destruct (decide (0 < f z)%nat); [by exists 0%nat, z|].
  destruct IH as (i & x & ? & ?); [lia|]. by exists (S i), x.
Qed.

Lemma sum_list_with_bound (f : stage -> nat) l :
  (forall x, f x <= 1)%nat -> (sum_list_with f l <= length l)%nat.
Proof using Type. intros Hf. induction l as [|z l IH]; simpl; [lia|]. specialize (Hf z). lia. Qed.

Lemma sum_list_with_full (f : stage -> nat) l i x :
  (forall x, f x <= 1)%nat -> sum_list_with f l = length l -> l !! i = Some x -> f x = 1%nat.
Proof using Type.
  intros Hf. revert i. induction l as [|z l IH]; intros i Hs Hl; [done|].
  pose proof (Hf z). pose proof (sum_list_with_bound f l Hf). destruct i as [|i]; simpl in *; simplify_eq; [lia|].
  eapply IH; [|done]. lia.
Qed.

Definition weight (st : stage) : nat :=
  match st with
  | Idle => 6 | Running => 5 | Counted _ _ => 4 | Storing _ _ => 3
  | Ranging _ => 2 | Sending _ _ => 1 | Finished => 0
  end.

Definition counted (st : stage) : nat := match st with Idle | Running => 0 | _ => 1 end.
Definition token (st : stage) : nat := match st with Sending _ _ => 1 | _ => 0 end.
Definition pending (st : stage) : nat :=
  match st with Counted _ true | Storing _ true | Ranging _ => 1 | _ => 0 end.

Lemma counted_le st : (counted st <= 1)%nat.
Proof using Type. destruct st; simpl; lia. Qed.

(** The steps left. *)
Definition steps_left (s : HedgeState) : nat :=
  sum_list_with weight (stages s) + (if timerFired s then 0 else 1) +
  (match returned s with None => 1 | Some _ => 0 end).

Definition is_final (s : HedgeState) (final : bool) : Prop := final = true -> resultCount s = S maxHedges.

Definition stage_ok (s : HedgeState) (i : nat) (st : stage) : Prop :=
  match st with
  | Idle | Running => produced s !! i = None
  | Counted r final => produced s !! i = Some r /\ is_final s final
  | Storing r final => produced s !! i = Some r /\ is_final s final
  | Ranging seen => seen ⊆ possibleResults s /\ is_Some (possibleResults s !! i) /\ is_final s true
  | Sending j r => produced s !! j = Some r
  | Finished => True
  end.

Definition b2n {A} (o : option A) : nat := match o with Some _ => 1 | None => 0 end.

Record hedge_inv (s : HedgeState) : Prop := mkHedgeInv {
  inv_length : length (stages s) = S maxHedges;
  inv_tokens : (sum_list_with token (stages s) + b2n (resultChan s) + b2n (returned s))%nat =
               Nat.b2n (resultSent s);
  inv_count : resultCount s = sum_list_with counted (stages s);
  inv_pending : resultCount s = S maxHedges ->
    resultSent s = true \/ (0 < sum_list_with pending (stages s))%nat;
  inv_timer : if timerFired s then Forall (fun st => st <> Idle) (stages s)
              else exists st, st <> Idle /\ stages s = st :: replicate maxHedges Idle;
  inv_stored : possibleResults s ⊆ produced s;
  inv_stages : forall i st, stages s !! i = Some st -> stage_ok s i st;
  inv_result : forall j r, resultChan s = Some (j, r) \/ returned s = Some (Some (j, r)) -> produced s !! j = Some r;
}.

Lemma hedge_inv_start : hedge_inv hedge_start.
Proof using Type.
  split; simpl; try done.
  - by rewrite length_replicate.
  - rewrite !Nat.add_0_r. induction maxHedges; simpl; [done|]. by rewrite IHn.
  - induction maxHedges; simpl; [done|]. by rewrite <- IHn.
  - exists Running. split; [discriminate|done].
  - intros [|i] st; simpl; [by intros [= <-]|]. by intros [-> _]%lookup_replicate.
  - by intros j r [?|?].
Qed.

(** A step of execution [i] that leaves it in stage [y] keeps the timer part. *)
Lemma inv_timer_insert s i x y :
  hedge_inv s -> stages s !! i = Some x -> x <> Idle -> y <> Idle ->
  if timerFired s then Forall (fun st => st <> Idle) (<[i := y]> (stages s))
  else exists st, st <> Idle /\ <[i := y]> (stages s) = st :: replicate maxHedges Idle.
Proof using Type.
  intros Hi Hx Hnx Hny. pose proof (inv_timer s Hi) as Ht. destruct (timerFired s).
  - by apply Forall_insert.
  - destruct Ht as (st & Hst & E). rewrite E in *. destruct i as [|i]; [by exists y|].
    simpl in Hx. apply lookup_replicate in Hx as [-> _]. done.
Qed.

(** The stages after a step of execution [i]. *)
Lemma inv_stages_insert s s' i y :
  hedge_inv s -> stages s' = <[i := y]> (stages s) -> stage_ok s' i y ->
  (forall k st, k <> i -> stage_ok s k st -> stage_ok s' k st) ->
  forall k st, stages s' !! k = Some st -> stage_ok s' k st.
Proof using Type.
  intros Hi E Hy Hk k st. rewrite E. intros [(-> & -> & _)|[Hne Hl]]%list_lookup_insert_Some; [done|].
  apply Hk; [done|]. by apply (inv_stages s Hi).
Qed.

Lemma running_count s i : hedge_inv s -> stages s !! i = Some Running -> (resultCount s <= maxHedges)%nat.
Proof using Type.
  intros Hi Hl. rewrite (inv_count s Hi). pose proof (sum_list_with_bound counted (stages s) counted_le) as Hb.
  rewrite (inv_length s Hi) in Hb. destruct (decide (sum_list_with counted (stages s) = S maxHedges)) as [E|]; [|lia].
  rewrite <- (inv_length s Hi) in E. apply (sum_list_with_full _ _ _ _ counted_le E) in Hl. done.
Qed.

Ltac count_tokens Hl :=
  repeat match goal with
  | |- context [sum_list_with ?f (<[?i := ?y]> ?l)] =>
      let H := fresh in pose proof (sum_list_with_insert f l i _ y Hl) as H; cbn in H;
      let n := fresh "n" in set (n := sum_list_with f (<[i := y]> l)) in *; clearbody n
  end.

Lemma stage_ok_mono s s' k st :
  produced s' = produced s -> resultCount s' = resultCount s ->
  possibleResults s ⊆ possibleResults s' -> stage_ok s k st -> stage_ok s' k st.
Proof using Type.
  intros Hp Hc Hs. unfold stage_ok, is_final. rewrite Hp, Hc. destruct st; try done.
  intros (Hsub & [r Hr] & Hf). split_and!; [by etrans| |done]. exists r. by eapply lookup_weaken.
Qed.

(** A step of execution [i] from stage [x] to stage [y] that neither counts nor
    returns a result. *)
Lemma inv_exec_step s i x y sent chan stored :
  hedge_inv s -> stages s !! i = Some x -> counted x = 1%nat -> counted y = 1%nat ->
  let s' := mkHedgeState (<[i := y]> (stages s)) sent (resultCount s) chan stored (timerFired s)
              (returned s) (produced s) in
  (token y + b2n chan + Nat.b2n (resultSent s) = token x + b2n (resultChan s) + Nat.b2n sent)%nat ->
  (sent = true \/ (sent = resultSent s /\ pending x <= pending y)%nat) ->
  possibleResults s ⊆ stored -> stored ⊆ produced s -> stage_ok s' i y ->
  (forall j r, chan = Some (j, r) -> produced s !! j = Some r) ->
  hedge_inv s'.
Proof using Type.
  intros Hi Hl Hx Hy s' Htok Hsent Hsub Hst Hok Hchan.
  split; unfold s'; cbn [stages resultSent resultCount resultChan possibleResults timerFired returned produced].
  - by rewrite length_insert, (inv_length s Hi).
  - pose proof (inv_tokens s Hi). pose proof (sum_list_with_insert token (stages s) i x y Hl). lia.
  - rewrite (inv_count s Hi). pose proof (sum_list_with_insert counted (stages s) i x y Hl). lia.
  - intros Hc. destruct Hsent as [->|[-> Hle]]; [by left|].
    destruct (inv_pending s Hi Hc) as [->|Hp]; [by left|right].
    pose proof (sum_list_with_insert pending (stages s) i x y Hl). lia.
  - by eapply inv_timer_insert; [done|done| |]; intros ->.
  - done.
  - refine (inv_stages_insert s s' i y Hi eq_refl Hok _). intros k st _. by apply stage_ok_mono.
  - intros j r [Hj|Hj]; [by apply Hchan|]. apply (inv_result s Hi). by right.
Qed.

Lemma count_step_inv s s' : hedge_inv s -> count_step s s' -> hedge_inv s'.
Proof using Type.
  intros Hi [i r Hl]. pose proof (running_count s i Hi Hl) as Hle.
  pose proof (inv_stages s Hi i _ Hl) as Hnone. simpl in Hnone.
  assert (produced s ⊆ <[i := r]> (produced s)) as Hsub by (by apply insert_subseteq).
  unfold count_result. split; cbn [stages resultSent resultCount resultChan possibleResults timerFired returned produced].
  - by rewrite length_insert, (inv_length s Hi).
  - rewrite <- (inv_tokens s Hi). count_tokens Hl. lia.
  - rewrite (inv_count s Hi). count_tokens Hl. lia.
  - intros Hc. right. rewrite bool_decide_eq_true_2 by done. count_tokens Hl. lia.
  - by eapply inv_timer_insert.
  - etrans; [apply (inv_stored s Hi)|done].
  - refine (inv_stages_insert s (count_result i r s) i _ Hi eq_refl _ _).
    + simpl. split; [by rewrite lookup_insert_eq|]. unfold is_final. by intros ?%bool_decide_eq_true.
    + assert (forall b, is_final s b -> is_final (count_result i r s) b) as Hfin.
      { intros b Hb Ht. specialize (Hb Ht). lia. }
      intros k st Hk. destruct st; simpl; rewrite ?lookup_insert_ne by done; try done.
      * intros [? ?]. split; [done|by apply Hfin].
      * intros [? ?]. split; [done|by apply Hfin].
      * intros (? & ? & ?). split_and!; [done..|by apply Hfin].
      * intros Hp. by eapply lookup_weaken.
  - intros j r' Hj. eapply lookup_weaken; [|done]. by apply (inv_result s Hi).
Qed.

Ltac exec_side Hi :=
  first [done | by left | simpl; lia | apply (inv_stored _ Hi) | by (right; split; [done|]; apply le_n)
        | intros ? ? ?; apply (inv_result _ Hi); by left].

Lemma try_send_inv s i r final :
  hedge_inv s -> stages s !! i = Some (Counted r final) -> hedge_inv (try_send i r final s).
Proof using Type.
  intros Hi Hl. pose proof (inv_stages s Hi i _ Hl) as [Hp Hf]. unfold try_send.
  destruct (isAbortable r || _), (resultSent s) eqn:Es; cbn [negb andb]; unfold set_stage; try rewrite Es;
    eapply (inv_exec_step s i (Counted r final)); rewrite ?Es; exec_side Hi.
Qed.

Lemma store_result_inv s i r final :
  hedge_inv s -> stages s !! i = Some (Storing r final) -> hedge_inv (store_result i r final s).
Proof using Type.
  intros Hi Hl. pose proof (inv_stages s Hi i _ Hl) as [Hp Hf]. pose proof (inv_stored s Hi) as Hst.
  unfold store_result. eapply (inv_exec_step s i (Storing r final)); try (by destruct final); try exec_side Hi.
  - right. split; [done|]. by destruct final.
  - apply map_subseteq_spec. intros k x Hk. destruct (decide (k = i)) as [->|Hne]; [|by rewrite lookup_insert_ne].
    rewrite lookup_insert_eq. pose proof (lookup_weaken _ _ _ _ Hk Hst). congruence.
  - by apply insert_subseteq_l.
  - destruct final; [|done]. simpl. split_and!; [done|by rewrite lookup_insert_eq|by intros _; apply Hf].
Qed.

Lemma send_final_inv s i seen m j r :
  hedge_inv s -> stages s !! i = Some (Ranging seen) -> m ⊆ possibleResults s -> m !! j = Some r ->
  hedge_inv (send_final i j r s).
Proof using Type.
  intros Hi Hl Hm Hj. unfold send_final. destruct (resultSent s) eqn:Es; unfold set_stage; rewrite ?Es;
    eapply (inv_exec_step s i (Ranging seen)); rewrite ?Es; try exec_side Hi.
  simpl. eapply lookup_weaken; [|apply (inv_stored s Hi)]. by eapply lookup_weaken.
Qed.

Lemma send_result_inv s i j r :
  hedge_inv s -> stages s !! i = Some (Sending j r) -> resultChan s = None -> hedge_inv (send_result i j r s).
Proof using Type.
  intros Hi Hl Hc. pose proof (inv_stages s Hi i _ Hl) as Hp. unfold send_result.
  eapply (inv_exec_step s i (Sending j r)); rewrite ?Hc; try exec_side Hi. by intros j' r' [= <- <-].
Qed.

Lemma start_hedges_inv s : hedge_inv s -> timerFired s = false -> hedge_inv (start_hedges s).
Proof using Type.
  intros Hi Hf. pose proof (inv_timer s Hi) as Ht. rewrite Hf in Ht. destruct Ht as (st & Hst & E).
  assert (map (fun _ : stage => Running) (replicate maxHedges Idle) = replicate maxHedges Running) as Hm
    by exact (fmap_replicate (fun _ : stage => Running) maxHedges Idle).
  assert (forall f : stage -> nat, f Idle = f Running ->
    sum_list_with f (st :: replicate maxHedges Running) = sum_list_with f (stages s)) as Hsum.
  { intros f Hf'. rewrite E. simpl. f_equal. clear -Hf'. induction maxHedges; simpl; congruence. }
  destruct Hi as [Hlen Htok Hcnt Hpen _ Hsto Hstg Hres]. unfold start_hedges. rewrite E at 1. rewrite Hm.
  split; cbn [stages resultSent resultCount resultChan possibleResults timerFired returned produced]; try done.
  - simpl. by rewrite length_replicate.
  - by rewrite Hsum.
  - by rewrite Hsum.
  - by rewrite Hsum.
  - constructor; [done|]. by apply Forall_replicate.
  - intros [|i] x Hx; simpl in Hx.
    + injection Hx as <-. apply (stage_ok_mono s); [done..|]. apply Hstg. by rewrite E.
    + apply lookup_replicate in Hx as [-> Hlt]. simpl. apply (Hstg (S i) Idle). rewrite E. simpl.
      by apply lookup_replicate.
Qed.

Lemma return_result_inv s x y :
  hedge_inv s -> resultChan s = Some x -> returned s = None -> y = None \/ y = Some x ->
  hedge_inv (return_result y s).
Proof using Type.
  intros [Hlen Htok Hcnt Hpen Htim Hsto Hstg Hres] Hc Hr Hy.
  split; simpl; try done.
  - rewrite Hc, Hr in Htok. simpl in Htok. lia.
  - intros j r [?|[= ->]]; [done|]. destruct Hy as [?|[= <-]]; [done|]. apply Hres. by left.
Qed.

Lemma hedge_step_inv s s' : hedge_inv s -> hedge_step s s' -> hedge_inv s'.
Proof using Type.
  intros Hi [Hc|Ho]; [by eapply count_step_inv|]. destruct Ho.
  - by eapply try_send_inv.
  - by eapply store_result_inv.
  - match goal with H : minimal _ _ _ |- _ => destruct H as [? _] end. by eapply send_final_inv.
  - by eapply send_result_inv.
  - by apply start_hedges_inv.
  - eapply return_result_inv; eauto.
  - eapply return_result_inv; eauto.
Qed.

Lemma hedge_reach_inv s : hedge_reach s -> hedge_inv s.
Proof using Type. induction 1; [apply hedge_inv_start|by eapply hedge_step_inv]. Qed.

(** Every step uses up one of the steps left. *)
Lemma hedge_step_left s s' : hedge_inv s -> hedge_step s s' -> (steps_left s' < steps_left s)%nat.
Proof using Type.
  assert (forall i x y, stages s !! i = Some x -> (weight y < weight x)%nat ->
    (sum_list_with weight (<[i := y]> (stages s)) < sum_list_with weight (stages s))%nat) as Hlt.
  { intros i x y Hl Hw. pose proof (sum_list_with_insert weight (stages s) i x y Hl). lia. }
  intros Hi [[i r Hl]|Ho]; unfold steps_left.
  - simpl. pose proof (Hlt i _ (Counted r (bool_decide (S (resultCount s) = S maxHedges))) Hl). simpl in *. lia.
  - destruct Ho as [i r final Hl|i r final Hl|i seen m j r Hl _ _ _|i j r Hl _|Hf Hr|x Hc Hr|x Hc Hr].
    + unfold try_send, set_stage. destruct (_ && _); simpl;
        [pose proof (Hlt i _ (Sending i r) Hl)|pose proof (Hlt i _ (Storing r final) Hl)]; simpl in *; lia.
    + simpl. pose proof (Hlt i _ (if final then Ranging (<[i := r]> (possibleResults s)) else Finished) Hl) as Hx.
      destruct final; simpl in *; lia.
    + unfold send_final, set_stage. destruct (resultSent s); simpl;
        [pose proof (Hlt i _ Finished Hl)|pose proof (Hlt i _ (Sending j r) Hl)]; simpl in *; lia.
    + simpl. pose proof (Hlt i _ Finished Hl). simpl in *. lia.
    + simpl. rewrite Hf, Hr. pose proof (inv_timer s Hi) as Ht. rewrite Hf in Ht.
      destruct Ht as (st & _ & ->). simpl.
      assert (sum_list_with weight (map (fun _ => Running) (replicate maxHedges Idle)) <=
        sum_list_with weight (replicate maxHedges Idle))%nat; [|lia].
      clear. induction maxHedges; simpl; lia.
    + simpl. rewrite Hr. lia.
    + simpl. rewrite Hr. lia.
Qed.

Lemma hedge_steps_bound n s s' : hedge_steps n s s' -> hedge_inv s -> (n <= steps_left s)%nat.
Proof using Type.
  induction 1 as [|n s s' s'' Hs _ IH]; intros Hi; [lia|].
  pose proof (hedge_step_left s s' Hi Hs). pose proof (hedge_step_inv s s' Hi Hs) as Hi'. specialize (IH Hi'). lia.
Qed.

Lemma minimal_exists (m : gmap nat R) : m <> ∅ -> exists j r, minimal m j r.
Proof using Type.
  intros Hm. destruct (map_choose m Hm) as (j0 & r0 & H0).
  set (x := argmin (fun p => resultTypeFunc p.2) (j0, r0) (map_to_list m)).
  exists x.1, x.2. split.
  - unfold x. destruct (argmin_elem (fun p => resultTypeFunc p.2) (j0, r0) (map_to_list m)) as [->|Hin]; [done|].
    apply elem_of_map_to_list. by destruct (argmin _ _ _).
  - intros j r Hj%elem_of_map_to_list. exact (argmin_le (fun p => resultTypeFunc p.2) (j0, r0) _ _ Hj).
Qed.

(** While nothing was returned, some step can be taken. *)
Lemma hedge_progress `{Inhabited R} s :
  hedge_inv s -> returned s = None -> exists s', hedge_step s s'.
Proof using Type.
  intros Hi Hr. destruct (timerFired s) eqn:Ht; [|eexists; right; by apply step_timer].
  destruct (resultChan s) as [x|] eqn:Hc; [eexists; right; by eapply step_return|].
  destruct (decide (0 < sum_list_with weight (stages s))%nat) as [Hw|Hw].
  - apply sum_list_with_pos in Hw as (i & st & Hl & Hpos). pose proof (inv_stages s Hi i st Hl) as Hok.
    pose proof (inv_timer s Hi) as Hti. rewrite Ht in Hti. pose proof (Forall_lookup_1 _ _ _ _ Hti Hl) as Hidle.
    destruct st as [| |r final|r final|seen|j r|]; simpl in Hpos, Hok; [done| | | | | |lia].
    + eexists. left. by apply (step_count s i inhabitant).
    + eexists. right. by eapply step_try.
    + eexists. right. by eapply step_store.
    + destruct Hok as (Hsub & [r Hs] & _). destruct (minimal_exists (possibleResults s)) as (j & r' & Hm).
      { intros E. rewrite E in Hs. by rewrite lookup_empty in Hs. }
      eexists. right. by eapply (step_choose s i seen (possibleResults s) j r').
    + eexists. right. by eapply step_send.
  - assert (forall i st, stages s !! i = Some st -> st = Finished) as Hfin.
    { intros i st Hl. pose proof (sum_list_with_elem weight (stages s) i st Hl). destruct st; simpl in *; done || lia. }
    assert (resultCount s = S maxHedges) as Hcount.
    { rewrite (inv_count s Hi), <- (inv_length s Hi). clear -Hfin. induction (stages s) as [|st l IH]; [done|].
      simpl. rewrite (Hfin 0%nat st eq_refl). simpl. f_equal. apply IH. intros i st' Hl. by apply (Hfin (S i)). }
    assert (forall f : stage -> nat, f Finished = 0%nat -> ~ (0 < sum_list_with f (stages s))%nat) as Hz.
    { intros f Hf (i & st & Hl & Hpos)%sum_list_with_pos. rewrite (Hfin i st Hl), Hf in Hpos. lia. }
    pose proof (inv_tokens s Hi) as Htok. rewrite Hc, Hr in Htok. simpl in Htok.
    pose proof (Hz token eq_refl). destruct (inv_pending s Hi Hcount) as [Hsent|Hp]; [|by destruct (Hz pending eq_refl)].
    rewrite Hsent in Htok. simpl in Htok. lia.
Qed.

(** ** One execution at a time

    Runs in which an execution counts its result only when no other is between
    counting and finishing. *)

Definition quiet (st : stage) : bool := match st with Idle | Running | Finished => true | _ => false end.

Inductive hedge_seq_reach : HedgeState -> Prop :=
| seq_start : hedge_seq_reach hedge_start
| seq_count s s' :
    hedge_seq_reach s -> Forall (fun st => quiet st = true) (stages s) -> count_step s s' -> hedge_seq_reach s'
| seq_other s s' : hedge_seq_reach s -> other_step s s' -> hedge_seq_reach s'.

(** A result worth returning. *)
Definition best_result (s : HedgeState) (j : nat) (r : R) : Prop :=
  isAbortable r = true \/ (j = 0%nat /\ isFast r = true) \/
  ((forall i, (i <= maxHedges)%nat -> is_Some (produced s !! i)) /\
   forall i r', produced s !! i = Some r' -> isAbortable r' = false /\ resultTypeFunc r <= resultTypeFunc r').

Record seq_inv (s : HedgeState) : Prop := mkSeqInv {
  seq_inv_hedge : hedge_inv s;
  seq_inv_active : forall i k x y, stages s !! i = Some x -> stages s !! k = Some y ->
    quiet x = false -> quiet y = false -> i = k;
  seq_inv_produced : resultSent s = false -> forall i r, produced s !! i = Some r ->
    (possibleResults s !! i = Some r /\ isAbortable r = false) \/
    (exists final, stages s !! i = Some (Counted r final)) \/
    (exists final, stages s !! i = Some (Storing r final) /\ isAbortable r = false);
  seq_inv_counted : forall i st, stages s !! i = Some st -> counted st = 1%nat -> is_Some (produced s !! i);
  seq_inv_ranging : forall i seen, stages s !! i = Some (Ranging seen) -> seen = possibleResults s;
  seq_inv_result : forall j r,
    resultChan s = Some (j, r) \/ returned s = Some (Some (j, r)) \/ (exists i, stages s !! i = Some (Sending j r)) ->
    best_result s j r;
}.

Lemma best_result_count s i r j r' :
  hedge_inv s -> stages s !! i = Some Running -> best_result s j r' -> best_result (count_result i r s) j r'.
Proof using Type.
  intros Hi Hl [Ha|[Hf|[Hall _]]]; [by left|by right; left|].
  pose proof (lookup_lt_Some _ _ _ Hl) as Hlt. rewrite (inv_length s Hi) in Hlt.
  pose proof (inv_stages s Hi i _ Hl) as Hn. simpl in Hn. destruct (Hall i ltac:(lia)) as [x Hx]. congruence.
Qed.

Lemma seq_inv_start : seq_inv hedge_start.
Proof using Type.
  assert (forall i st, stages hedge_start !! i = Some st -> quiet st = true /\ counted st = 0%nat /\
    (forall j r, st <> Sending j r) /\ forall m, st <> Ranging m) as Hq.
  { intros [|i] st; simpl; [by intros [= <-]|]. by intros [-> _]%lookup_replicate. }
  split; [apply hedge_inv_start|..].
  - intros i k x y Hx _ Hqx. destruct (Hq i x Hx) as [E _]. congruence.
  - intros _ i r. simpl. by rewrite lookup_empty.
  - intros i st Hs Hc. destruct (Hq i st Hs) as (_ & E & _). congruence.
  - intros i seen Hs. destruct (Hq _ _ Hs) as (_ & _ & _ & E). by destruct (E seen).
  - intros j r [?|[?|[i Hs]]]; [done|done|]. destruct (Hq _ _ Hs) as (_ & _ & E & _). by destruct (E j r).
Qed.

Lemma seq_count_inv s s' :
  seq_inv s -> Forall (fun st => quiet st = true) (stages s) -> count_step s s' -> seq_inv s'.
Proof using Type.
  intros [Hi Hact Hprod Hcnt Hran Hres] Hq Hc. pose proof (count_step_inv s s' Hi Hc) as Hi'.
  destruct Hc as [i r Hl]. rewrite Forall_lookup in Hq.
  split; [done| | | | |]; cbn [count_result stages produced possibleResults resultChan returned resultSent].
  - intros i1 i2 x y [(-> & _)|[_ Hx]]%list_lookup_insert_Some [(-> & _)|[_ Hy]]%list_lookup_insert_Some Hqx Hqy;
      try done; [by rewrite (Hq _ _ Hy) in Hqy|by rewrite (Hq _ _ Hx) in Hqx|by eapply Hact].
  - intros Hs k r'. destruct (decide (k = i)) as [->|Hne].
    + rewrite lookup_insert_eq. intros [= <-]. right. left. eexists. rewrite list_lookup_insert_eq; [done|].
      by eapply lookup_lt_Some.
    + rewrite lookup_insert_ne, list_lookup_insert_ne by done. by apply Hprod.
  - intros k st [(<- & _)|[Hne Hs]]%list_lookup_insert_Some Hc; [by rewrite lookup_insert_eq|].
    rewrite lookup_insert_ne by done. by eapply Hcnt.
  - intros k seen [(_ & ? & _)|[_ Hs]]%list_lookup_insert_Some; [done|]. by eapply Hran.
  - intros j r' Hj. apply (best_result_count s); [done..|]. apply Hres.
    destruct Hj as [?|[?|[k [(_ & ? & _)|[_ Hs]]%list_lookup_insert_Some]]]; eauto. done.
Qed.

(** The parts of the invariant that hold after any step of execution [i] from an
    active stage. *)
Lemma seq_active_insert s i x y :
  seq_inv s -> stages s !! i = Some x -> quiet x = false ->
  forall i1 i2 x1 x2, <[i := y]> (stages s) !! i1 = Some x1 -> <[i := y]> (stages s) !! i2 = Some x2 ->
    quiet x1 = false -> quiet x2 = false -> i1 = i2.
Proof using Type.
  intros Hs Hl Hq i1 i2 x1 x2 [(<- & _)|[H1 Hx]]%list_lookup_insert_Some
    [(<- & _)|[H2 Hy]]%list_lookup_insert_Some Hq1 Hq2; [done| | |];
    [by destruct H2; eapply (seq_inv_active s Hs)|by destruct H1; eapply (seq_inv_active s Hs)|
     by eapply (seq_inv_active s Hs)].
Qed.

Lemma seq_counted_insert s i x y :
  seq_inv s -> stages s !! i = Some x -> counted x = 1%nat ->
  forall k st, <[i := y]> (stages s) !! k = Some st -> counted st = 1%nat -> is_Some (produced s !! k).
Proof using Type.
  intros Hs Hl Hc k st [(<- & _)|[_ Hx]]%list_lookup_insert_Some Hst; by eapply (seq_inv_counted s Hs).
Qed.

Lemma seq_try_inv s i r final :
  seq_inv s -> stages s !! i = Some (Counted r final) -> seq_inv (try_send i r final s).
Proof using Type.
  intros Hs Hl. pose proof (try_send_inv s i r final (seq_inv_hedge s Hs) Hl) as Hi'.
  pose proof (inv_stages s (seq_inv_hedge s Hs) i _ Hl) as [Hp _].
  pose proof (seq_inv_produced s Hs) as Hprod. revert Hi'. unfold try_send, set_stage.
  destruct ((isAbortable r || _) && negb (resultSent s)) eqn:Ec; intros Hi'; (split;
    [exact Hi'|by eapply seq_active_insert| |by eapply seq_counted_insert| |]);
    cbn [stages produced possibleResults resultChan returned resultSent].
  - done.
  - intros k seen [(_ & ? & _)|[_ Hk]]%list_lookup_insert_Some; [done|]. by eapply (seq_inv_ranging s Hs).
  - intros j r' [?|[?|[k [(_ & [= <- <-] & _)|[_ Hk]]%list_lookup_insert_Some]]];
      [by apply (seq_inv_result s Hs); eauto| by apply (seq_inv_result s Hs); eauto| |
       by apply (seq_inv_result s Hs); eauto].
    apply andb_true_iff in Ec as [[Ha|[H0 Hf]%andb_true_iff]%orb_true_iff _]; [by left|right; left].
    by apply bool_decide_eq_true in H0.
  - intros Hsent k r'. specialize (Hprod Hsent k r'). destruct (decide (k = i)) as [->|Hne].
    + intros Hk. right. right. exists final. rewrite Hp in Hk. injection Hk as <-.
      rewrite list_lookup_insert_eq by (by eapply lookup_lt_Some). split; [done|].
      rewrite Hsent in Ec. cbn [negb] in Ec. rewrite andb_true_r in Ec. by apply orb_false_iff in Ec as [? _].
    + rewrite list_lookup_insert_ne by done. done.
  - intros k seen [(_ & ? & _)|[_ Hk]]%list_lookup_insert_Some; [done|]. by eapply (seq_inv_ranging s Hs).
  - intros j r' [?|[?|[k [(_ & ? & _)|[_ Hk]]%list_lookup_insert_Some]]];
      [by apply (seq_inv_result s Hs); eauto| by apply (seq_inv_result s Hs); eauto|done|
       by apply (seq_inv_result s Hs); eauto].
Qed.

Lemma seq_store_inv s i r final :
  seq_inv s -> stages s !! i = Some (Storing r final) -> seq_inv (store_result i r final s).
Proof using Type.
  intros Hs Hl. pose proof (store_result_inv s i r final (seq_inv_hedge s Hs) Hl) as Hi'.
  pose proof (inv_stages s (seq_inv_hedge s Hs) i _ Hl) as [Hp _].
  pose proof (seq_inv_produced s Hs) as Hprod. revert Hi'. unfold store_result. intros Hi'.
  split; [exact Hi'|by eapply seq_active_insert| |by eapply seq_counted_insert| |];
    cbn [stages produced possibleResults resultChan returned resultSent].
  - intros Hsent k r' Hk. specialize (Hprod Hsent k r' Hk). destruct (decide (k = i)) as [->|Hne].
    + left. rewrite Hp in Hk. injection Hk as <-. rewrite lookup_insert_eq. split; [done|].
      rewrite Hl in Hprod. naive_solver.
    + rewrite lookup_insert_ne, list_lookup_insert_ne by done. done.
  - intros k seen [(_ & Hr & _)|[Hne Hk]]%list_lookup_insert_Some; [by destruct final; simplify_eq|].
    destruct Hne. by eapply (seq_inv_active s Hs).
  - intros j r' [?|[?|[k [(_ & ? & _)|[_ Hk]]%list_lookup_insert_Some]]];
      [by apply (seq_inv_result s Hs); eauto| by apply (seq_inv_result s Hs); eauto|by destruct final|
       by apply (seq_inv_result s Hs); eauto].
Qed.

(** The final execution sees every result. *)
Lemma seq_final_best s i seen j r :
  seq_inv s -> stages s !! i = Some (Ranging seen) -> resultSent s = false ->
  minimal (possibleResults s) j r -> best_result s j r.
Proof using Type.
  intros Hs Hl Hsent [_ Hmin]. pose proof (seq_inv_hedge s Hs) as Hi.
  pose proof (inv_stages s Hi i _ Hl) as (_ & _ & Hf). specialize (Hf eq_refl). right. right. split.
  - intros k Hk. destruct (lookup_lt_is_Some_2 (stages s) k) as [st Hst]; [rewrite (inv_length s Hi); lia|].
    eapply (seq_inv_counted s Hs); [done|]. eapply sum_list_with_full; [apply counted_le| |done].
    by rewrite <- (inv_count s Hi), (inv_length s Hi).
  - intros k r' Hk. destruct (seq_inv_produced s Hs Hsent k r' Hk) as [[Hst Ha]|[[final Hst]|[final [Hst _]]]].
    + split; [done|]. by eapply Hmin.
    + assert (i = k) as -> by (by eapply (seq_inv_active s Hs)). congruence.
    + assert (i = k) as -> by (by eapply (seq_inv_active s Hs)). congruence.
Qed.

Lemma seq_choose_inv s i seen m j r :
  seq_inv s -> stages s !! i = Some (Ranging seen) -> seen ⊆ m -> m ⊆ possibleResults s -> minimal m j r ->
  seq_inv (send_final i j r s).
Proof using Type.
  intros Hs Hl Hsm Hmp Hmin. pose proof (seq_inv_ranging s Hs i seen Hl) as ->.
  assert (m = possibleResults s) as -> by (by apply (anti_symm (⊆))).
  pose proof (send_final_inv s i _ _ j r (seq_inv_hedge s Hs) Hl ltac:(done) (proj1 Hmin)) as Hi'.
  pose proof (seq_final_best s i _ j r Hs Hl) as Hbest. revert Hi'. unfold send_final, set_stage.
  destruct (resultSent s) eqn:Ec; intros Hi';
    (split; [exact Hi'|by eapply seq_active_insert|done|by eapply seq_counted_insert| |]);
    cbn [stages produced possibleResults resultChan returned resultSent].
  1, 3: intros k seen [(_ & ? & _)|[_ Hk]]%list_lookup_insert_Some; [done|]; by eapply (seq_inv_ranging s Hs).
  all: intros j' r' [?|[?|[k [(_ & ? & _)|[_ Hk]]%list_lookup_insert_Some]]]; simplify_eq;
    try (by apply (seq_inv_result s Hs); eauto).
  by apply Hbest.
Qed.

Lemma seq_send_inv s i j r :
  seq_inv s -> stages s !! i = Some (Sending j r) -> resultChan s = None -> seq_inv (send_result i j r s).
Proof using Type.
  intros Hs Hl Hc. pose proof (send_result_inv s i j r (seq_inv_hedge s Hs) Hl Hc) as Hi'.
  assert (resultSent s = true) as Hsent.
  { pose proof (inv_tokens s (seq_inv_hedge s Hs)) as Ht.
    pose proof (sum_list_with_elem token (stages s) i _ Hl) as Hge. simpl in Hge.
    destruct (resultSent s); [done|]. simpl in Ht. lia. }
  split; [exact Hi'|by eapply seq_active_insert| |by eapply seq_counted_insert| |]; simpl.
  - congruence.
  - intros k seen [(_ & ? & _)|[_ Hk]]%list_lookup_insert_Some; [done|]. by eapply (seq_inv_ranging s Hs).
  - intros j' r' [Hj|[?|[k [(_ & ? & _)|[_ Hk]]%list_lookup_insert_Some]]];
      [injection Hj as <- <-| |done|]; apply (seq_inv_result s Hs); eauto.
Qed.

Lemma start_hedges_lookup s k x :
  hedge_inv s -> timerFired s = false -> stages (start_hedges s) !! k = Some x ->
  stages s !! k = Some x \/ x = Running.
Proof using Type.
  intros Hi Hf. pose proof (inv_timer s Hi) as Ht. rewrite Hf in Ht. destruct Ht as (st & _ & E).
  simpl. rewrite E. destruct k as [|k]; simpl; [by left|].
  intros (y & -> & _)%list_lookup_fmap_Some. by right.
Qed.

Lemma start_hedges_active s k x :
  hedge_inv s -> timerFired s = false -> stages s !! k = Some x -> x <> Idle ->
  stages (start_hedges s) !! k = Some x.
Proof using Type.
  intros Hi Hf. pose proof (inv_timer s Hi) as Ht. rewrite Hf in Ht. destruct Ht as (st & _ & E).
  simpl. rewrite E. destruct k as [|k]; simpl; [done|]. by intros [-> _]%lookup_replicate.
Qed.

Lemma seq_timer_inv s : seq_inv s -> timerFired s = false -> seq_inv (start_hedges s).
Proof using Type.
  intros Hs Hf. pose proof (seq_inv_hedge s Hs) as Hi.
  pose proof (fun k x => start_hedges_lookup s k x Hi Hf) as Hlook.
  split; [by apply start_hedges_inv|..].
  - intros i k x y Hx Hy Hqx Hqy. destruct (Hlook _ _ Hx) as [Hx'| ->], (Hlook _ _ Hy) as [Hy'| ->]; try done.
    by eapply (seq_inv_active s Hs).
  - intros Hsent i r Hp. destruct (seq_inv_produced s Hs Hsent i r Hp) as [?|[[fin Hst]|[fin [Hst Ha]]]];
      [by left|right; left|right; right]; exists fin; rewrite (start_hedges_active s i _ Hi Hf Hst) by done; done.
  - intros i st Hst Hc. destruct (Hlook _ _ Hst) as [Hst'| ->]; [|done]. by eapply (seq_inv_counted s Hs).
  - intros i seen Hst. destruct (Hlook _ _ Hst) as [Hst'|?]; [|done]. by eapply (seq_inv_ranging s Hs).
  - intros j r [?|[?|[i Hst]]]; try (by apply (seq_inv_result s Hs); eauto).
    destruct (Hlook _ _ Hst) as [Hst'|?]; [|done]. apply (seq_inv_result s Hs); eauto.
Qed.

Lemma seq_return_inv s x y :
  seq_inv s -> resultChan s = Some x -> returned s = None -> y = None \/ y = Some x ->
  seq_inv (return_result y s).
Proof using Type.
  intros Hs Hc Hr Hy. pose proof (return_result_inv s x y (seq_inv_hedge s Hs) Hc Hr Hy) as Hi'.
  destruct Hs as [_ Hact Hprod Hcnt Hran Hres]. split; try done.
  intros j r' [?|[Hx|?]]; [done| |apply Hres; eauto]. apply Hres. left. simpl in Hx.
  destruct Hy; congruence.
Qed.

Lemma seq_other_inv s s' : seq_inv s -> other_step s s' -> seq_inv s'.
Proof using Type.
  intros Hs [i r final Hl|i r final Hl|i seen m j r Hl Hsm Hmp Hmin|i j r Hl Hc|Hf Hr|x Hc Hr|x Hc Hr].
  - by apply seq_try_inv.
  - by apply seq_store_inv.
  - by eapply seq_choose_inv.
  - by apply seq_send_inv.
  - by apply seq_timer_inv.
  - apply (seq_return_inv s x (Some x)); auto.
  - apply (seq_return_inv s x None); auto.
Qed.

Lemma hedge_seq_inv s : hedge_seq_reach s -> seq_inv s.
Proof using Type.
  induction 1; [apply seq_inv_start|by eapply seq_count_inv|by eapply seq_other_inv].
Qed.
End Hedge.

(** C18. However the goroutines interleave, the hedge policy returns: every run is
    bounded, a run that cannot go on has returned a result some execution gave, or
    the cancel result of the parent, and no second result is ever sent. *)
Theorem hedge_returns {R} `{Inhabited R} (isAbortable : R -> bool) (resultType : R -> Z) (isFast : R -> bool)
    (maxHedges : nat) s :
  hedge_reach isAbortable resultType isFast maxHedges s ->
  (forall n s', hedge_steps isAbortable resultType isFast maxHedges n s s' -> (n <= steps_left s)%nat) /\
  ((forall s', ~ hedge_step isAbortable resultType isFast maxHedges s s') ->
   returned s = Some None \/ exists j r, returned s = Some (Some (j, r)) /\ produced s !! j = Some r) /\
  (forall x, returned s = Some x -> resultChan s = None /\
     forall i j r, stages s !! i <> Some (Sending j r)).
Proof.
  intros Hr. pose proof (hedge_reach_inv _ _ _ _ _ Hr) as Hi. split_and!.
  - intros n s' Hs. by eapply hedge_steps_bound.
  - intros Hstuck. destruct (returned s) as [[[j r]|]|] eqn:E; [|by left|].
    + right. exists j, r. split; [done|]. apply (inv_result _ _ Hi). by right.
    + destruct (hedge_progress isAbortable resultType isFast maxHedges s Hi E) as [s' Hs']. by destruct (Hstuck s').
  - intros x Hx. pose proof (inv_tokens _ _ Hi) as Ht. rewrite Hx in Ht. simpl in Ht.
    assert (Nat.b2n (resultSent s) <= 1)%nat by (destruct (resultSent s); simpl; lia). split.
    + destruct (resultChan s); [simpl in Ht; lia|done].
    + intros i j r Hl. pose proof (sum_list_with_elem token (stages s) i _ Hl) as Hge. simpl in Hge. lia.
Qed.

(** As long as the executions finish one at a time, the hedge policy returns
    the best result: one that cancels the others, or the first one when it came
    before the delay, or, when no execution gave one that cancels, one of the
    best type among the results of all executions. *)
Theorem hedge_returns_best {R} (isAbortable : R -> bool) (resultType : R -> Z) (isFast : R -> bool)
    (maxHedges : nat) s j r :
  hedge_seq_reach isAbortable resultType isFast maxHedges s -> returned s = Some (Some (j, r)) ->
  produced s !! j = Some r /\
  (isAbortable r = true \/ (j = 0%nat /\ isFast r = true) \/
   ((forall i, (i <= maxHedges)%nat -> is_Some (produced s !! i)) /\
    forall i r', produced s !! i = Some r' -> isAbortable r' = false /\ resultType r <= resultType r')).
Proof.
  intros Hs Hr. apply hedge_seq_inv in Hs. split.
  - apply (inv_result _ _ (seq_inv_hedge _ _ _ _ _ Hs)). by right.
  - apply (seq_inv_result _ _ _ _ _ Hs j r). auto.
Qed.

(** ** An example

    Results are [true] (a response without error, which cancels the others) or
    [false]; none comes before the delay. *)

Abbreviation demo_reach := (hedge_reach id (fun r : bool => if r then 0 else 1) (fun _ => false) 1%nat).
Abbreviation demo_seq := (hedge_seq_reach id (fun r : bool => if r then 0 else 1) (fun _ => false) 1%nat).

Definition demo_started : HedgeState (R := bool) := start_hedges (hedge_start 1).

(** Both executions counted their results: the first succeeded, the second not. *)
Definition demo_counted : HedgeState (R := bool) := count_result 1 1 false (count_result 1 0 true demo_started).

Definition demo_chosen (s : HedgeState (R := bool)) : HedgeState :=
  send_final 1 1 false (store_result 1 false true (try_send id (fun _ => false) 1 false true s)).

Lemma demo_chosen_reach : demo_reach (return_result (Some (1%nat, false)) (send_result 1 1 false (demo_chosen demo_counted))).
Proof.
  eapply reach_step; [|right; by apply step_return].
  eapply reach_step; [|right; by apply step_send].
  eapply reach_step.
  2: { right. eapply (step_choose _ _ _ _ 1 _ {[1%nat := false]}); [done|done|done|].
       split; [done|]. intros j r [_ <-]%lookup_singleton_Some. done. }
  eapply reach_step; [|right; by apply step_store].
  eapply reach_step; [|right; by apply (step_try _ _ _ _ 1 false true)].
  eapply reach_step; [|left; by apply step_count].
  eapply reach_step; [|left; by apply step_count].
  eapply reach_step; [apply reach_start|right; by apply step_timer].
Qed.

(** An execution counts its result before it tries to send it, so the last
    one to count may choose and send its own error while a successful response
    waits to be sent: with one hedge, a run returns the error of the hedge
    although the first execution already had a response without error. *)
Theorem hedge_race_returns_error :
  exists s : HedgeState (R := bool),
    hedge_reach id (fun r : bool => if r then 0 else 1) (fun _ => false) 1%nat s /\
    returned s = Some (Some (1%nat, false)) /\ produced s !! 0%nat = Some true.
Proof. eexists. split; [apply demo_chosen_reach|]. done. Qed.

Lemma hedge_returns_witness :
  let s := return_result (Some (1%nat, false)) (send_result 1 1 false (demo_chosen demo_counted)) in
  returned s = Some (Some (1%nat, false)) /\ resultChan s = None.
Proof.
  intros s. split; [done|].
  apply (proj2 (proj2 (hedge_returns id (fun r : bool => if r then 0 else 1) (fun _ => false) 1 s
    demo_chosen_reach)) (Some (1%nat, false)) eq_refl).
Defined.

(** The first execution succeeds and is returned while the hedge still runs. *)
Definition demo_first : HedgeState (R := bool) :=
  return_result (Some (0%nat, true)) (send_result 0 0 true (try_send id (fun _ => false) 0 true false
    (count_result 1 0 true demo_started))).

Lemma demo_first_reach : demo_seq demo_first.
Proof.
  eapply seq_other; [|by apply step_return].
  eapply seq_other; [|by apply step_send].
  eapply seq_other; [|by apply (step_try _ _ _ _ 0 true false)].
  eapply (seq_count _ _ _ _ demo_started); [|by repeat constructor|by apply step_count].
  eapply seq_other; [apply seq_start|by apply step_timer].
Qed.

Lemma hedge_returns_best_witness :
  returned demo_first = Some (Some (0%nat, true)) /\ produced demo_first !! 0%nat = Some true.
Proof.
  split; [done|].
  exact (proj1 (hedge_returns_best id (fun r : bool => if r then 0 else 1) (fun _ => false) 1 demo_first 0 true
    demo_first_reach eq_refl)).
Defined.
