(* ===== verification/Retry.v ===== *)
(** The retry policy of a request ([internal/resilience/retry.go]) and its
    configuration for the execution flow ([failsafe.go], [request_processor.go]).
    Listeners, and the delays, which only decide when the next attempt starts,
    are not modelled. *)

From S2P Require Import Prelude.
From S2P Require Import Protocol.
From S2P Require Import Errors.
From S2P Require Import Responses.

Section Retry.
Context {R E : Type} `{EqDecision E}.

(** [common.PolicyResult] of failsafe-go. *)
Record PolicyResult := mkPolicyResult {
  pr_Result : option R;
  pr_Error : option E;
  pr_Done : bool;
  pr_Success : bool;
  pr_SuccessAll : bool;
}.

(** What the policy uses of its base policies: which results are failures and
    which abort, and the error that wraps the last failure. *)
Class BasePolicy := {
  IsFailure : option R -> option E -> bool;
  IsAbortable : option R -> option E -> bool;
  exceeded_error : option R -> option E -> E;
}.

(** [PolicyResult.WithDone] and [BaseExecutor.PostExecute], which hands a failure
    to the policy's own [OnFailure]; any other result is done. *)
Class Executor := {
  WithDone : bool -> bool -> PolicyResult -> PolicyResult;
  PostExecute : forall {S}, (PolicyResult -> S -> PolicyResult * S) -> PolicyResult -> S -> PolicyResult * S;
}.

(** Two results with the same content. *)
Definition same_content (r r' : PolicyResult) : Prop := pr_Result r' = pr_Result r /\ pr_Error r' = pr_Error r.

Class ExecutorLaws `{BasePolicy} `{Executor} : Prop := {
  WithDone_content : forall d s r, same_content r (WithDone d s r);
  WithDone_done : forall d s r, pr_Done (WithDone d s r) = d;
  PostExecute_failure : forall {S} (onFailure : PolicyResult -> S -> PolicyResult * S) r s,
    IsFailure (pr_Result r) (pr_Error r) = true -> PostExecute onFailure r s = onFailure r s;
  PostExecute_success : forall {S} (onFailure : PolicyResult -> S -> PolicyResult * S) r s,
    IsFailure (pr_Result r) (pr_Error r) = false ->
    exists r', PostExecute onFailure r s = (r', s) /\ same_content r r' /\ pr_Done r' = true;
}.

(** ** The configuration *)

Record retryCfg := mkRetryCfg {
  returnLastFailure : bool;
  maxDuration : Z;
  maxRetries : Z;
  returnPreviousResultErrors : list E;
}.

Definition defaultMaxRetries : Z := 2.

Definition Builder : retryCfg := mkRetryCfg false 0 defaultMaxRetries [].

Definition ReturnLastFailure (c : retryCfg) : retryCfg :=
  mkRetryCfg true (maxDuration c) (maxRetries c) (returnPreviousResultErrors c).

Definition WithMaxAttempts (maxAttempts : Z) (c : retryCfg) : retryCfg :=
  mkRetryCfg (returnLastFailure c) (maxDuration c)
    (if maxAttempts =? -1 then -1 else maxAttempts - 1) (returnPreviousResultErrors c).

Definition WithMaxRetries (n : Z) (c : retryCfg) : retryCfg :=
  mkRetryCfg (returnLastFailure c) (maxDuration c) n (returnPreviousResultErrors c).

Definition WithMaxDuration (d : Z) (c : retryCfg) : retryCfg :=
  mkRetryCfg (returnLastFailure c) d (maxRetries c) (returnPreviousResultErrors c).

Definition ReturnPreviousResultOnErrors (errs : list E) (c : retryCfg) : retryCfg :=
  mkRetryCfg (returnLastFailure c) (maxDuration c) (maxRetries c) errs.

Definition allowsRetries (c : retryCfg) : bool := (maxRetries c =? -1) || (0 <? maxRetries c).

(** ** The executor *)

Record retryExecutor := mkRetryExecutor { failedAttempts : Z; retriesExceeded : bool }.

(** What happens around one attempt: the result of the inner function, the time
    passed since the start, and the cancellations seen after the attempt, when
    its result is recorded and before the next one. *)
Record Attempt := mkAttempt {
  at_result : PolicyResult;
  at_elapsed : Z;
  at_canceled : option PolicyResult;
  at_record : option PolicyResult;
  at_initialize : option PolicyResult;
}.

Context `{BP : BasePolicy} `{EX : Executor}.
Context (c : retryCfg).

Definition OnFailure (elapsed : Z) (result : PolicyResult) (e : retryExecutor) : PolicyResult * retryExecutor :=
  let failed := failedAttempts e + 1 in
  let maxRetriesExceeded := negb (maxRetries c =? -1) && (maxRetries c <? failed) in
  let maxDurationExceeded := negb (maxDuration c =? 0) && (maxDuration c <? elapsed) in
  let exceeded := maxRetriesExceeded || maxDurationExceeded in
  let isAbortable := IsAbortable (pr_Result result) (pr_Error result) in
  let shouldRetry := negb isAbortable && negb exceeded && allowsRetries c in
  let done := isAbortable || negb shouldRetry in
  let e := mkRetryExecutor failed exceeded in
  if exceeded && negb (returnLastFailure c) then
    (mkPolicyResult None (Some (exceeded_error (pr_Result result) (pr_Error result))) true false false, e)
  else (WithDone done false result, e).

Definition returns_previous (err : option E) : bool :=
  match err with Some x => bool_decide (x ∈ returnPreviousResultErrors c) | None => false end.

(** The loop of [Apply] over the attempts [attempt i], [attempt (i + 1)], ...;
    the answer is [None] when the fuel runs out. *)
Fixpoint apply_loop (fuel : nat) (attempt : nat -> Attempt) (i : nat) (prev : option PolicyResult)
    (e : retryExecutor) : option (PolicyResult * nat) :=
  match fuel with
  | O => None
  | S fuel =>
    let a := attempt i in
    match at_canceled a with
    | Some cancel => Some (cancel, S i)
    | None =>
      if retriesExceeded e then Some (at_result a, S i)
      else
        let '(result, e) := PostExecute (OnFailure (at_elapsed a)) (at_result a) e in
        match pr_Done result, returns_previous (pr_Error result), prev with
        | true, true, Some p => Some (mkPolicyResult (pr_Result p) (pr_Error p) true true true, S i)
        | true, _, _ => Some (result, S i)
        | false, _, _ =>
          match at_record a with
          | Some cancel => Some (cancel, S i)
          | None =>
            match at_initialize a with
            | Some cancel => Some (cancel, S i)
            | None => apply_loop fuel attempt (S i) (Some result) e
            end
          end
        end
    end
  end.

(** The result and the number of attempts made. *)
Definition Apply (fuel : nat) (attempt : nat -> Attempt) : option (PolicyResult * nat) :=
  apply_loop fuel attempt 0 None (mkRetryExecutor 0 false).

(** ** What it returns *)

Context `{EL : !ExecutorLaws} (attempt : nat -> Attempt).

Definition fails (i : nat) : bool :=
  IsFailure (pr_Result (at_result (attempt i))) (pr_Error (at_result (attempt i))).

(** The content of the result when the loop ends with attempt [k]. *)
Definition answer (k : nat) : PolicyResult :=
  if returns_previous (pr_Error (at_result (attempt k)))
  then at_result (attempt (pred k)) else at_result (attempt k).

Context (no_cancel : forall i,
  at_canceled (attempt i) = None /\ at_record (attempt i) = None /\ at_initialize (attempt i) = None).
Context (no_abort : forall r e, IsAbortable r e = false).
Context (no_limit : maxDuration c = 0) (last_failure : returnLastFailure c = true).
Context (bounded : 0 <= maxRetries c).

Lemma OnFailure_spec elapsed r i :
  Z.of_nat i <= maxRetries c ->
  OnFailure elapsed r (mkRetryExecutor (Z.of_nat i) false) =
    (WithDone (bool_decide (Z.of_nat i = maxRetries c)) false r,
     mkRetryExecutor (Z.of_nat (S i)) (bool_decide (Z.of_nat i = maxRetries c))).
Proof using bounded last_failure no_abort no_limit.
  intros Hi. unfold OnFailure, allowsRetries. cbn [failedAttempts].
  rewrite no_abort, no_limit, last_failure, (proj2 (Z.eqb_neq (maxRetries c) (-1))) by lia. cbn [negb andb orb].
  rewrite andb_false_r, orb_false_r. replace (Z.of_nat i + 1) with (Z.of_nat (S i)) by lia.
  case_bool_decide as Hd.
  - rewrite (proj2 (Z.ltb_lt (maxRetries c) (Z.of_nat (S i)))) by lia. done.
  - rewrite (proj2 (Z.ltb_ge (maxRetries c) (Z.of_nat (S i)))) by lia.
    rewrite (proj2 (Z.ltb_lt 0 (maxRetries c))) by lia. done.
Qed.

Lemma apply_loop_result fuel i prev :
  Z.of_nat (fuel + i) = maxRetries c + 1 -> (0 < fuel)%nat ->
  (forall j, (j < i)%nat -> fails j = true) ->
  match i, prev with
  | O, None => True
  | S j, Some p => same_content (at_result (attempt j)) p
  | _, _ => False
  end ->
  exists k r, apply_loop fuel attempt i prev (mkRetryExecutor (Z.of_nat i) false) = Some (r, S k) /\
    (i <= k)%nat /\ Z.of_nat k <= maxRetries c /\ (forall j, (j < k)%nat -> fails j = true) /\
    (Z.of_nat k = maxRetries c \/ fails k = false) /\
    same_content (if bool_decide (k = 0%nat) then at_result (attempt k) else answer k) r /\ pr_Done r = true.
Proof using All.
  revert i prev. induction fuel as [|fuel IH]; intros i prev Hf Hpos Hfail Hprev; [lia|].
  destruct (no_cancel i) as (Hc1 & Hc2 & Hc3). cbn [apply_loop]. rewrite Hc1. cbn [retriesExceeded].
  destruct (PostExecute (OnFailure (at_elapsed (attempt i))) (at_result (attempt i)) (mkRetryExecutor (Z.of_nat i) false))
    as [r e] eqn:Ep.
  assert (same_content (at_result (attempt i)) r /\
    (pr_Done r = true -> Z.of_nat i = maxRetries c \/ fails i = false) /\
    (pr_Done r = false -> fails i = true /\ Z.of_nat i <> maxRetries c /\ e = mkRetryExecutor (Z.of_nat (S i)) false))
    as (Hcont & Hdone & Hgo).
  { destruct (fails i) eqn:Ef; unfold fails in Ef.
    - rewrite PostExecute_failure, OnFailure_spec in Ep by (done || lia). injection Ep as <- <-.
      rewrite WithDone_done. split; [apply WithDone_content|]. case_bool_decide; [by split; [left|]|by split].
    - destruct (PostExecute_success (OnFailure (at_elapsed (attempt i))) (at_result (attempt i))
        (mkRetryExecutor (Z.of_nat i) false) Ef) as (r' & E' & Hr & Hd).
      rewrite E' in Ep. injection Ep as <- <-. split; [done|]. split; [by right|congruence]. }
  destruct Hcont as [Hres Herr]. rewrite Herr.
  destruct (pr_Done r) eqn:Ed.
  - destruct (returns_previous (pr_Error (at_result (attempt i)))) eqn:Er, prev as [p|]; destruct i as [|i]; try done;
      (eexists _, _; split; [done|]); split_and!; try done; try lia; try (by apply Hdone); simpl;
      unfold answer; rewrite ?Er; try done; try (by split).
  - destruct (Hgo eq_refl) as (Hfi & Hne & ->). rewrite Hc2, Hc3.
    destruct (IH (S i) (Some r)) as (k & r' & E' & Hk & Hrest); [lia|lia| | |].
    + intros j Hj. destruct (decide (j = i)) as [->|]; [done|]. apply Hfail. lia.
    + by split.
    + exists k, r'. split; [exact E'|]. split; [lia|done].
Qed.
End Retry.

Arguments PolicyResult : clear implicits.
Arguments Attempt : clear implicits.
Arguments retryCfg : clear implicits.

(** ** The retry policy of the execution flow *)

Section Flow.
Context `{EP : ErrorPatterns} (cfgs : ErrorConfigs).

(** The predicate given to [HandleIf]; no condition aborts. *)
#[export] Instance flow_policy : BasePolicy (R := ResponseHolderWrapper) (E := GoError) := {
  IsFailure wrapper err :=
    negb (match err with Some err => is_StopRetryErr err | None => false end) &&
    match wrapper with Some wrapper => IsRetryable cfgs (Response wrapper) | None => false end;
  IsAbortable _ _ := false;
  exceeded_error _ _ := OtherError "retries exceeded";
}.

Definition CreateFlowRetryPolicy (attempts : Z) : retryCfg GoError :=
  ReturnLastFailure (ReturnPreviousResultOnErrors [StopRetryErr]
    (if 0 <? attempts then WithMaxAttempts attempts Builder else Builder)).

(** What [executeUnaryRequest] gives to the executor for its attempts, where
    [send i] is the response of the upstream selected for attempt [i], or the
    error of the selection or of sending. *)
Definition handleErrors (retries : nat) (err : GoError) : GoError :=
  if bool_decide (0 < retries)%nat then StopRetryErr else err.

Definition inner_result (send : nat -> GoError + ResponseHolderWrapper) (i : nat)
    : PolicyResult ResponseHolderWrapper GoError :=
  match send i with
  | inl err => mkPolicyResult None (Some (handleErrors i err)) false false false
  | inr response => mkPolicyResult (Some response) None false false false
  end.

Definition inner_attempt (send : nat -> GoError + ResponseHolderWrapper) (i : nat)
    : Attempt ResponseHolderWrapper GoError :=
  mkAttempt (inner_result send i) 0 None None None.
End Flow.

(** C19. A request is tried at most as often as configured (three times by
    default), and only while the responses are retryable.  The client gets the
    response of the last attempt; when the last attempt found no upstream, it
    gets the response of the attempt before and never the internal stop error,
    and an error only when the very first attempt had no response. *)
Theorem flow_retry_result `{ErrorPatterns} cfgs (EX : Executor (R := ResponseHolderWrapper) (E := GoError))
    (EL : ExecutorLaws (H := flow_policy cfgs)) attempts send :
  let n := if 0 <? attempts then Z.to_nat attempts else 3%nat in
  exists k r, Apply (BP := flow_policy cfgs) (CreateFlowRetryPolicy attempts) n (inner_attempt send) = Some (r, S k) /\
    (k < n)%nat /\
    (forall i, (i < k)%nat -> exists response, send i = inr response /\ IsRetryable cfgs (Response response) = true) /\
    match send k with
    | inr response =>
      pr_Result r = Some response /\ pr_Error r = None /\ (S k = n \/ IsRetryable cfgs (Response response) = false)
    | inl err =>
      match k with
      | O => pr_Result r = None /\ pr_Error r = Some err
      | S j => exists response, send j = inr response /\ pr_Result r = Some response /\ pr_Error r = None
      end
    end.
Proof.
  intros n. set (c := CreateFlowRetryPolicy attempts).
  assert (maxRetries c = Z.of_nat n - 1 /\ (0 < n)%nat) as [Hmax Hn].
  { unfold c, n, CreateFlowRetryPolicy. destruct (0 <? attempts) eqn:E; reflect_bool; simpl; [|split; [done|lia]].
    rewrite (proj2 (Z.eqb_neq attempts (-1))) by lia. lia. }
  destruct (apply_loop_result (BP := flow_policy cfgs) c (inner_attempt send) (fun _ => conj eq_refl (conj eq_refl eq_refl))
    (fun _ _ => eq_refl) ltac:(unfold c, CreateFlowRetryPolicy; by destruct (0 <? attempts)) eq_refl
    ltac:(lia) n 0%nat None) as (k & r & E & _ & Hk & Hfail & Hend & Hc & _);
    [lia|lia|lia|done|].
  exists k, r. split; [exact E|]. split; [lia|].
  assert (forall i, fails (BP := flow_policy cfgs) (inner_attempt send) i = true ->
    exists response, send i = inr response /\ IsRetryable cfgs (Response response) = true) as Hf.
  { intros i. unfold fails, inner_attempt, inner_result. cbn [at_result]. destruct (send i) as [err|response]; simpl.
    - by rewrite andb_false_r.
    - eauto. }
  split; [by intros i Hi; apply Hf, Hfail|].
  destruct Hc as [Hres Herr]. rewrite Hres, Herr. clear Hres Herr E.
  destruct k as [|k].
  - rewrite bool_decide_eq_true_2 by done. unfold inner_attempt, inner_result. cbn [at_result].
    destruct (send 0%nat) as [err|response] eqn:Es; [done|]. split; [done|]. split; [done|].
    destruct Hend as [Hend|Hend]; [left; lia|right]. unfold fails, inner_attempt, inner_result in Hend.
    cbn [at_result] in Hend. by rewrite Es in Hend.
  - rewrite bool_decide_eq_false_2 by done. unfold answer, inner_attempt, inner_result. cbn [at_result pred].
    destruct (send (S k)) as [err|response] eqn:Es.
    + destruct (Hf k (Hfail k ltac:(lia))) as (response & E & _). exists response. rewrite E. done.
    + cbn [pr_Error returns_previous]. split; [done|]. split; [done|].
      destruct Hend as [Hend|Hend]; [left; lia|right]. unfold fails, inner_attempt, inner_result in Hend.
      cbn [at_result] in Hend. by rewrite Es in Hend.
Qed.

(** An executor that follows the documented behaviour, for the witness. *)
#[local] Instance demo_patterns : ErrorPatterns := fun _ _ => false.
Definition demo_errors : ErrorConfigs := mkErrorConfigs [] [].

#[local] Instance demo_executor : Executor (R := ResponseHolderWrapper) (E := GoError) := {
  WithDone d s r := mkPolicyResult (pr_Result r) (pr_Error r) d s (pr_SuccessAll r);
  PostExecute S onFailure r s :=
    if IsFailure (BasePolicy := flow_policy demo_errors) (pr_Result r) (pr_Error r)
    then onFailure r s else (mkPolicyResult (pr_Result r) (pr_Error r) true true true, s);
}.

Lemma demo_executor_laws : ExecutorLaws (H := flow_policy demo_errors) (H0 := demo_executor).
Proof.
  split; [done|done| |]; intros S onFailure r s E; cbn [PostExecute demo_executor]; rewrite E; [done|].
  eexists. split; [done|]. by split.
Qed.

(** The first upstream fails partially, and no second one is found. *)
Lemma flow_retry_result_witness :
  let failed := mkWrapper "u" "1" "" None ZeroBlock (NewPartialFailure "1" JsonRpc ServerError) in
  let send i := match i with
                | O => inr failed
                | _ => inl (RespError NoAvailableUpstreamsError)
                end in
  exists k r, Apply (BP := flow_policy demo_errors) (CreateFlowRetryPolicy 5) 5 (inner_attempt send) = Some (r, S k) /\
    pr_Result r = Some failed /\ pr_Error r = None.
Proof.
  intros failed send.
  destruct (flow_retry_result demo_errors demo_executor demo_executor_laws 5 send) as (k & r & E & _ & _ & Hw).
  exists k, r. split; [exact E|]. vm_compute in E. injection E as <- <-. done.
Defined.
