(* ===== verification/BatchStream.v ===== *)
(** The body of a batch response: responses arrive in any order and are written as
    one JSON array in the order of the requests
    ([internal/server/http_server/streaming.go]).

    A reader is the list of the bytes it still holds.  The responses are the
    values the channel yields, then it is closed. *)

From S2P Require Import Prelude.
From S2P Require Import GoStrings.
From S2P Require Import JsonStream.
From S2P Require Import Responses.
From Stdlib Require Import Ascii.

Definition jsonArrayOpen : ascii := "[".
Definition jsonArrayClose : ascii := "]".
Definition jsonArraySep : ascii := ",".

Record Response := mkResponse { ResponseReader : bytes; Order : Z }.

(** An arrival on the channel, or the timer of 90 seconds. *)
Inductive Arrival := Arrived (r : Response) | TimedOut.

(** [nextOrder] is never negative; [buff] holds [None] for a response that is not
    there yet. *)
Record SortingReader := mkSortingReader {
  data : list Arrival;
  cur : option bytes;
  nextOrder : nat;
  buff : list (option bytes);
}.

Definition NewSortingReader (data : list Arrival) (expected : nat) : SortingReader :=
  mkSortingReader data None 0 (replicate expected None).

Inductive ReadError := EOF | ErrUnexpectedEOF.

(** The bytes a [Read] returns, its error and the reader after it. *)
Definition ReadResult : Type := bytes * option ReadError * SortingReader.

Definition with_sep (body : bytes) : bytes := body ++ [jsonArraySep].

(** Take the next response out of the buffer when there is no current one. *)
Definition load_next (a : SortingReader) : option bytes :=
  match cur a with
  | Some c => Some c
  | None => with_sep <$> mjoin (buff a !! nextOrder a)
  end.

(** The text written when nothing arrives in time. *)
Definition timeoutBody : bytes :=
  String.list_ascii_of_string
    ("{" +:+ quoted "jsonrpc" +:+ ":" +:+ quoted "2.0" +:+ "," +:+ quoted "error" +:+ ":{" +:+
     quoted "message" +:+ ":" +:+ quoted "couldn't perform a request" +:+ "}}").

(** One round of the loops of [Read]: it returns ([inl]), or goes on with what it
    has written so far. *)
Definition read_step (cap : nat) (out : bytes) (a : SortingReader) : ReadResult + bytes * SortingReader :=
  match load_next a with
  | Some c =>
    let room := (cap - length out)%nat in
    let out := out ++ take room c in
    if (length c <? room)%nat then inr (out, mkSortingReader (data a) None (S (nextOrder a)) (buff a))
    else match drop room c with
         | [] =>
           if Z.of_nat (length (buff a)) - 1 <=? Z.of_nat (nextOrder a)
           then inl (out, Some EOF, mkSortingReader (data a) (Some []) (nextOrder a) (buff a))
           else inl (out, None, mkSortingReader (data a) None (S (nextOrder a)) (buff a))
         | rest => inl (out, None, mkSortingReader (data a) (Some rest) (nextOrder a) (buff a))
         end
  | None =>
    match data a with
    | [] =>
      if (nextOrder a <? length (buff a))%nat
      then inr (out, mkSortingReader [] None (S (nextOrder a)) (buff a))
      else inl (out, Some EOF, a)
    | TimedOut :: data =>
      let a := mkSortingReader data None (nextOrder a) (buff a) in
      if bool_decide (out = []) then inl (timeoutBody, Some ErrUnexpectedEOF, a) else inl (out, Some EOF, a)
    | Arrived res :: data =>
      let order := if Order res <? 0 then length (buff a) else Z.to_nat (Order res) in
      if (order =? nextOrder a)%nat
      then inr (out, mkSortingReader data (Some (with_sep (ResponseReader res))) (nextOrder a) (buff a))
      else inr (out, mkSortingReader data None (nextOrder a)
                       (if (length (buff a) <=? order)%nat then buff a ++ [Some (ResponseReader res)]
                        else <[order := Some (ResponseReader res)]> (buff a)))
    end
  end.

Fixpoint read_loop (fuel cap : nat) (out : bytes) (a : SortingReader) : option ReadResult :=
  match fuel with
  | O => None
  | S fuel =>
    match read_step cap out a with
    | inl result => Some result
    | inr (out, a) => read_loop fuel cap out a
    end
  end.

(** Every round consumes an arrival, a response or a place of the buffer. *)
Definition rounds (a : SortingReader) : nat :=
  2 * length (data a) + (length (buff a) - nextOrder a) + (match cur a with Some _ => 1 | None => 0 end).

Definition Read (cap : nat) (a : SortingReader) : option ReadResult := read_loop (S (rounds a)) cap [] a.

(** [DropLastReader]: the trailing separator goes with the end of the stream. *)
Definition drop_last (out : bytes) : bytes := take (length out - 1) out.

(** Reading to the end with buffers of the given sizes; [None] when they are used
    up before. *)
Fixpoint read_all (sizes : list nat) (a : SortingReader) : option (bytes * option ReadError) :=
  match sizes with
  | [] => None
  | cap :: sizes =>
    match Read cap a with
    | None => None
    | Some (out, None, a) => (fun '(rest, err) => (out ++ rest, err)) <$> read_all sizes a
    | Some (out, Some EOF, _) => Some (drop_last out, None)
    | Some (out, Some err, _) => Some (out, Some err)
    end
  end.

(** The closing bracket only follows the end of the stream. *)
Definition ArraySortingStream (arrivals : list Arrival) (expected : nat) (sizes : list nat) : option bytes :=
  match read_all sizes (NewSortingReader arrivals expected) with
  | None => None
  | Some (out, None) => Some (jsonArrayOpen :: out ++ [jsonArrayClose])
  | Some (out, Some _) => Some (jsonArrayOpen :: out)
  end.

(** ** The invariant *)

Section Sorting.
Context (bodies : list bytes).

Definition tail_from (k : nat) : bytes := concat (map with_sep (drop k bodies)).

(** What is still to be written. *)
Definition unwritten (a : SortingReader) : bytes :=
  match cur a with
  | Some c => c ++ tail_from (S (nextOrder a))
  | None => tail_from (nextOrder a)
  end.

(** The first order that has not been taken up. *)
Definition waiting_from (a : SortingReader) : nat := match cur a with Some _ => S (nextOrder a) | None => nextOrder a end.

Record sorting_inv (a : SortingReader) (rs : list Response) : Prop := mkSortingInv {
  inv_data : data a = map Arrived rs;
  inv_len : length (buff a) = length bodies;
  inv_from : (waiting_from a <= length bodies)%nat;
  inv_cur : forall c, cur a = Some c -> c <> [];
  inv_nodup : NoDup (map Order rs);
  inv_arrive : forall r, r ∈ rs -> exists j, Order r = Z.of_nat j /\ bodies !! j = Some (ResponseReader r) /\
    buff a !! j = Some None /\ (waiting_from a <= j)%nat;
  inv_pending : forall j, (waiting_from a <= j < length bodies)%nat ->
    (exists b, bodies !! j = Some b /\ buff a !! j = Some (Some b)) \/ exists r, r ∈ rs /\ Order r = Z.of_nat j;
}.

Lemma tail_from_S k b : bodies !! k = Some b -> tail_from k = with_sep b ++ tail_from (S k).
Proof using Type. intros Hk. unfold tail_from. by rewrite (drop_S _ b) by done. Qed.

Lemma tail_from_end k : (length bodies <= k)%nat -> tail_from k = [].
Proof using Type. intros Hk. unfold tail_from. by rewrite drop_ge. Qed.

Lemma with_sep_ne b : with_sep b <> [].
Proof using Type. unfold with_sep. by destruct b. Qed.

Lemma tail_from_ne k : (k < length bodies)%nat -> tail_from k <> [].
Proof using Type.
  intros [b Hb]%lookup_lt_is_Some. rewrite (tail_from_S k b Hb). intros [Hs _]%app_nil. by apply with_sep_ne in Hs.
Qed.

Lemma load_next_inv a rs c :
  sorting_inv a rs -> load_next a = Some c ->
  c <> [] /\ (nextOrder a < length bodies)%nat /\ unwritten a = c ++ tail_from (S (nextOrder a)) /\
  (forall r, r ∈ rs -> exists j, Order r = Z.of_nat j /\ bodies !! j = Some (ResponseReader r) /\
     buff a !! j = Some None /\ (S (nextOrder a) <= j)%nat) /\
  (waiting_from a <= S (nextOrder a))%nat.
Proof using Type.
  intros [Hd Hl Hf Hc Hn Ha Hp] E. unfold load_next, unwritten, waiting_from in *. destruct (cur a) as [c'|].
  - injection E as ->. split_and!; [by apply Hc|lia|done|exact Ha|done].
  - destruct (buff a !! nextOrder a) as [[b|]|] eqn:Eb; try done. injection E as <-.
    assert (nextOrder a < length bodies)%nat as Hlt by (rewrite <- Hl; by eapply lookup_lt_Some).
    split_and!; [apply with_sep_ne|done| | |lia].
    + destruct (Hp (nextOrder a)) as [(b' & Hb & Hb')|(r & Hr & Ho)]; [lia| |].
      * rewrite Eb in Hb'. injection Hb' as <-. by rewrite (tail_from_S _ b).
      * destruct (Ha r Hr) as (j & Hj & _ & Hbj & _). assert (j = nextOrder a) as -> by lia. congruence.
    + intros r Hr. destruct (Ha r Hr) as (j & Hj & Hbo & Hbj & Hle). exists j. split_and!; [done..|].
      assert (j <> nextOrder a) by congruence. lia.
Qed.

Lemma inv_advanced a rs c c' :
  sorting_inv a rs -> load_next a = Some c -> (forall x, c' = Some x -> x <> []) ->
  sorting_inv (mkSortingReader (data a) c' (match c' with Some _ => nextOrder a | None => S (nextOrder a) end) (buff a)) rs.
Proof using Type.
  intros Hi E Hne. destruct (load_next_inv a rs c Hi E) as (_ & Hlt & _ & Ha & Hw). destruct Hi as [Hd Hl Hf Hc Hn _ Hp].
  assert (waiting_from (mkSortingReader (data a) c' (match c' with Some _ => nextOrder a | None => S (nextOrder a) end) (buff a)) =
    S (nextOrder a)) as Hw' by (by destruct c').
  constructor; rewrite ?Hw'; simpl; try done.
  intros j Hj. apply Hp. lia.
Qed.

(** A round that goes on keeps the invariant and what is to be written. *)
Lemma read_step_continue cap out a rs out' a' :
  sorting_inv a rs -> read_step cap out a = inr (out', a') ->
  exists rs', sorting_inv a' rs' /\ out' ++ unwritten a' = out ++ unwritten a /\ (rounds a' < rounds a)%nat /\
    (length out <= cap -> length out' <= cap)%nat.
Proof using Type.
  intros Hi. unfold read_step. destruct (load_next a) as [c|] eqn:El.
  - destruct (load_next_inv a rs c Hi El) as (_ & Hlt & Hu & _ & _).
    destruct (length c <? cap - length out)%nat eqn:Eb; [|by destruct (drop _ c); [destruct (_ <=? _)|]].
    apply Nat.ltb_lt in Eb. intros [= <- <-]. exists rs. split_and!.
    + by apply (inv_advanced a rs c None).
    + rewrite Hu, take_ge by lia. by rewrite <- app_assoc.
    + pose proof (inv_len a rs Hi). unfold rounds. simpl. unfold load_next in El.
      destruct (cur a); lia.
    + rewrite length_app, length_take. lia.
  - destruct Hi as [Hd Hl Hf Hc Hn Ha Hp]. assert (cur a = None) as Ec by (unfold load_next in El; by destruct (cur a)).
    rewrite Hd. destruct rs as [|r rs]; simpl.
    + destruct (_ <? _)%nat eqn:En; [|done]. apply Nat.ltb_lt in En. exfalso.
      unfold waiting_from in Hp. rewrite Ec in Hp. destruct (Hp (nextOrder a)) as [(b & _ & Hb)|(r & Hr & _)]; [lia| |].
      * unfold load_next in El. rewrite Ec, Hb in El. done.
      * by apply elem_of_nil in Hr.
    + destruct (Ha r) as (j & Ho & Hb & Hbj & Hw); [by left|]. rewrite Ho.
      rewrite (proj2 (Z.ltb_ge _ _)) by lia. rewrite Nat2Z.id.
      assert (j < length bodies)%nat as Hj by (by eapply lookup_lt_Some).
      cbn [map] in Hn. apply NoDup_cons in Hn as [Hr Hn]. unfold waiting_from in *. rewrite Ec in *.
      assert (forall x, x ∈ rs -> Order x <> Z.of_nat j) as Hother.
      { intros x Hx Hox. apply Hr. rewrite Ho. apply list_elem_of_fmap. by exists x. }
      destruct (j =? nextOrder a)%nat eqn:En.
      * apply Nat.eqb_eq in En as ->. intros [= <- <-]. exists rs. split_and!; [constructor; unfold waiting_from; simpl|..]; try done.
        -- intros c [= <-]. apply with_sep_ne.
        -- intros x Hx. destruct (Ha x) as (i & Hox & Hbx & Hnx & Hwx); [by right|]. exists i. split_and!; [done..|].
           assert (i <> nextOrder a) by (intros ->; by apply (Hother x Hx)). lia.
        -- intros i Hi. destruct (Hp i) as [?|(x & [-> |Hx]%elem_of_cons & Hox)]; [lia|by left|lia|].
           right. by exists x.
        -- unfold unwritten. simpl. rewrite Ec. by rewrite (tail_from_S _ _ Hb).
        -- unfold rounds. cbn [data cur nextOrder buff]. rewrite Hd, Ec. cbn [map length]. rewrite !length_map. lia.
      * apply Nat.eqb_neq in En. rewrite (proj2 (Nat.leb_gt _ _)) by lia. intros [= <- <-]. exists rs.
        split_and!; [constructor; unfold waiting_from; simpl|..]; try done.
        -- by rewrite length_insert.
        -- intros x Hx. destruct (Ha x) as (i & Hox & Hbx & Hnx & Hwx); [by right|]. exists i. split_and!; [done..| |done].
           rewrite list_lookup_insert_ne; [done|]. intros ->. by apply (Hother x Hx).
        -- intros i Hi. destruct (decide (i = j)) as [-> |Hne].
           ++ left. exists (ResponseReader r). split; [done|]. apply list_lookup_insert_eq. lia.
           ++ rewrite list_lookup_insert_ne by done.
              destruct (Hp i) as [?|(x & [-> |Hx]%elem_of_cons & Hox)]; [done|by left|lia|]. right. by exists x.
        -- unfold unwritten. simpl. by rewrite Ec.
        -- unfold rounds. cbn [data cur nextOrder buff]. rewrite Hd, Ec, length_insert. cbn [map length]. rewrite !length_map. lia.
Qed.

(** A round that returns has filled the buffer with something left to write, or has
    written everything. *)
Lemma read_step_return cap out a rs out' err a' :
  sorting_inv a rs -> (length out <= cap)%nat -> read_step cap out a = inl (out', err, a') ->
  match err with
  | None => length out' = cap /\ unwritten a' <> [] /\ out' ++ unwritten a' = out ++ unwritten a /\
            exists rs', sorting_inv a' rs'
  | Some e => e = EOF /\ out' = out ++ unwritten a
  end.
Proof using Type.
  intros Hi Ho. unfold read_step. destruct (load_next a) as [c|] eqn:El.
  - destruct (load_next_inv a rs c Hi El) as (_ & Hlt & Hu & _ & _). pose proof (inv_len a rs Hi) as Hl.
    destruct (length c <? cap - length out)%nat eqn:Eb; [done|]. apply Nat.ltb_ge in Eb.
    pose proof (take_drop (cap - length out) c) as Htd.
    assert (length (out ++ take (cap - length out) c) = cap) as Hcap by (rewrite length_app, length_take; lia).
    destruct (drop _ c) as [|x rest] eqn:Ed.
    + rewrite app_nil_r in Htd. destruct (_ <=? _) eqn:En; intros [= <- <- <-].
      * apply Z.leb_le in En. rewrite Hu, Htd, (tail_from_end (S _)), app_nil_r by lia. done.
      * apply Z.leb_gt in En. split_and!; [done|apply tail_from_ne; simpl; lia| |].
        -- rewrite Hu, Htd. by rewrite <- app_assoc.
        -- exists rs. by apply (inv_advanced a rs c None).
    + intros [= <- <- <-]. split_and!; [done|done| |].
      * rewrite Hu. rewrite <- Htd at 2. by rewrite <- !app_assoc.
      * exists rs. apply (inv_advanced a rs c (Some (x :: rest))); [done..|]. by intros ? [= <-].
  - assert (cur a = None) as Ec by (unfold load_next in El; by destruct (cur a)).
    rewrite (inv_data a rs Hi). destruct rs as [|r rs]; simpl; [|by destruct (_ =? _)%nat].
    destruct (_ <? _)%nat eqn:En; [done|]. apply Nat.ltb_ge in En. intros [= <- <- <-]. split; [done|].
    unfold unwritten. rewrite Ec, tail_from_end by (rewrite <- (inv_len a _ Hi); lia). by rewrite app_nil_r.
Qed.

(** The rounds are enough for a [Read], whatever it starts with. *)
Lemma read_loop_returns fuel cap out a rs :
  sorting_inv a rs -> (length out <= cap)%nat -> (rounds a < fuel)%nat ->
  exists out' err a', read_loop fuel cap out a = Some (out', err, a') /\
  match err with
  | None => length out' = cap /\ unwritten a' <> [] /\ out' ++ unwritten a' = out ++ unwritten a /\
            exists rs', sorting_inv a' rs'
  | Some e => e = EOF /\ out' = out ++ unwritten a
  end.
Proof using Type.
  revert out a rs. induction fuel as [|fuel IH]; intros out a rs Hi Ho Hf; [lia|]. simpl.
  destruct (read_step cap out a) as [[[out' err] a']|[out' a']] eqn:E.
  - exists out', err, a'. split; [done|]. by eapply read_step_return.
  - destruct (read_step_continue cap out a rs out' a' Hi E) as (rs' & Hi' & Hu & Hr & Hc).
    rewrite <- Hu. by apply (IH out' a' rs'); [|auto|lia].
Qed.

Lemma drop_last_app (l r : bytes) : r <> [] -> drop_last (l ++ r) = l ++ drop_last r.
Proof using Type.
  intros Hr. unfold drop_last. destruct r as [|x r]; [done|]. rewrite length_app. simpl.
  rewrite take_app_ge by lia. do 2 f_equal. lia.
Qed.

Lemma read_all_writes sizes a rs :
  sorting_inv a rs -> Forall (fun n => 0 < n)%nat sizes -> (length (unwritten a) < length sizes)%nat ->
  read_all sizes a = Some (drop_last (unwritten a), None).
Proof using Type.
  revert a rs. induction sizes as [|cap sizes IH]; intros a rs Hi Hs Hlen; [simpl in Hlen; lia|].
  apply Forall_cons in Hs as [Hcap Hs]. simpl. unfold Read.
  destruct (read_loop_returns (S (rounds a)) cap [] a rs) as (out & err & a' & -> & H); [done|simpl; lia|lia|].
  destruct err as [e|].
  - destruct H as [-> ->]. done.
  - destruct H as (Hout & Hne & Hu & rs' & Hi'). simpl in Hu. rewrite <- Hu in Hlen |- *.
    rewrite length_app in Hlen. simpl in Hlen. rewrite (IH a' rs') by (done || lia). simpl.
    by rewrite drop_last_app.
Qed.
End Sorting.

(** The array the client is to read. *)
Fixpoint joined (bodies : list bytes) : bytes :=
  match bodies with
  | [] => []
  | [b] => b
  | b :: rest => b ++ jsonArraySep :: joined rest
  end.

Definition json_array (bodies : list bytes) : bytes := jsonArrayOpen :: joined bodies ++ [jsonArrayClose].

Lemma drop_last_joined bodies : drop_last (concat (map with_sep bodies)) = joined bodies.
Proof.
  induction bodies as [|b rest IH]; [done|]. destruct rest as [|b' rest].
  - simpl. rewrite app_nil_r. unfold with_sep. rewrite drop_last_app by done. apply app_nil_r.
  - change (concat (map with_sep (b :: b' :: rest))) with (with_sep b ++ concat (map with_sep (b' :: rest))).
    rewrite drop_last_app, IH.
    + unfold with_sep. by rewrite <- app_assoc.
    + simpl. intros [Hn _]%app_nil. by apply with_sep_ne in Hn.
Qed.

(** The responses to requests 0, 1, ... with the given bodies, in that order. *)
Definition answers (bodies : list bytes) : list Response := imap (fun i b => mkResponse b (Z.of_nat i)) bodies.

Lemma answers_lookup bodies r :
  r ∈ answers bodies <-> exists j, Order r = Z.of_nat j /\ bodies !! j = Some (ResponseReader r).
Proof.
  unfold answers. rewrite list_elem_of_lookup. split.
  - intros [j Hj]. rewrite list_lookup_imap in Hj. apply fmap_Some in Hj as (b & Hb & ->). by exists j.
  - intros (j & Ho & Hb). exists j. rewrite list_lookup_imap, Hb. destruct r as [b o]. simpl in *. by subst.
Qed.

Lemma new_reader_inv bodies rs :
  rs ≡ₚ answers bodies -> sorting_inv bodies (NewSortingReader (map Arrived rs) (length bodies)) rs.
Proof.
  intros Hp. assert (forall r, r ∈ rs <-> exists j, Order r = Z.of_nat j /\ bodies !! j = Some (ResponseReader r)) as Hin.
  { intros r. rewrite Hp. apply answers_lookup. }
  constructor; unfold waiting_from; simpl; try done.
  - apply length_replicate.
  - lia.
  - change (NoDup (Order <$> rs)). rewrite Hp. unfold answers. rewrite fmap_imap.
    apply NoDup_alt. intros i j x Hi Hj. rewrite list_lookup_imap in Hi, Hj.
    apply fmap_Some in Hi as (? & _ & ->). apply fmap_Some in Hj as (? & _ & E). simpl in E. lia.
  - intros r (j & Ho & Hb)%Hin. exists j. split_and!; [done..| |lia].
    apply lookup_replicate. split; [done|]. by eapply lookup_lt_Some.
  - intros j [_ Hj]. right. apply lookup_lt_is_Some in Hj as [b Hb]. exists (mkResponse b (Z.of_nat j)).
    split; [|done]. apply Hin. by exists j.
Qed.

(** However the responses of a batch are interleaved on their way back, and
    whatever the sizes of the buffers the body is read with, the client reads one
    JSON array that holds the body of every response once, in the order of the
    requests, separated by commas; reading ends (the rounds of [Read] are enough)
    as soon as there are more buffers than bytes. *)
Lemma batch_order (bodies : list bytes) (rs : list Response) (sizes : list nat) :
  rs ≡ₚ answers bodies -> Forall (fun n => 0 < n)%nat sizes ->
  (length (concat (map with_sep bodies)) < length sizes)%nat ->
  ArraySortingStream (map Arrived rs) (length bodies) sizes = Some (json_array bodies).
Proof.
  intros Hp Hs Hlen. unfold ArraySortingStream.
  rewrite (read_all_writes bodies sizes _ rs (new_reader_inv bodies rs Hp) Hs Hlen).
  unfold unwritten, tail_from. cbn [cur nextOrder NewSortingReader]. rewrite drop_0. by rewrite drop_last_joined.
Qed.

(** *** One response without a place *)

(** The state once the places no response came for are passed over. *)
Definition skipped (n k : nat) (b : bytes) : SortingReader := mkSortingReader [] None k (replicate n None ++ [Some b]).

Lemma skip_place cap n b k : (k < n)%nat -> read_step cap [] (skipped n k b) = inr ([], skipped n (S k) b).
Proof.
  intros Hk. unfold read_step, load_next, skipped. cbn [cur buff nextOrder data].
  rewrite lookup_app_l by (rewrite length_replicate; lia). rewrite lookup_replicate_2 by lia.
  cbn [mjoin option_join fmap option_fmap option_map].
  by rewrite (proj2 (Nat.ltb_lt _ _)) by (rewrite length_app, length_replicate; simpl; lia).
Qed.

Lemma skip_places fuel cap n b k :
  (k <= n)%nat -> read_loop (n - k + fuel) cap [] (skipped n k b) = read_loop fuel cap [] (skipped n n b).
Proof.
  intros Hk. remember (n - k)%nat as d eqn:Ed. revert k Hk Ed. induction d as [|d IH]; intros k Hk Ed.
  - by replace k with n by lia.
  - cbn [Nat.add read_loop]. rewrite skip_place by lia. apply (IH (S k)); lia.
Qed.

Lemma skipped_inv n b : sorting_inv (replicate n [] ++ [b]) (skipped n n b) [].
Proof.
  split; unfold waiting_from; cbn [skipped data buff cur nextOrder]; try done.
  - by rewrite !length_app, !length_replicate.
  - rewrite length_app, length_replicate. simpl. lia.
  - by apply NoDup_nil_2.
  - intros r Hr. by apply elem_of_nil in Hr.
  - intros j [Hj1 Hj2]. rewrite length_app, length_replicate in Hj2. simpl in Hj2. assert (j = n) as -> by lia.
    left. exists b. by rewrite !lookup_app_r, !length_replicate, Nat.sub_diag by (rewrite length_replicate; lia).
Qed.

Lemma read_unplaced cap n r :
  (0 < n)%nat -> Order r < 0 ->
  Read cap (NewSortingReader [Arrived r] n) = Read cap (skipped n n (ResponseReader r)).
Proof.
  intros Hn Ho. unfold Read.
  replace (rounds (NewSortingReader [Arrived r] n)) with (2 + n)%nat
    by (unfold rounds, NewSortingReader; cbn [data buff cur nextOrder length]; rewrite length_replicate; lia).
  replace (rounds (skipped n n (ResponseReader r))) with 1%nat
    by (unfold rounds, skipped; cbn [data buff cur nextOrder length]; rewrite length_app, length_replicate; simpl; lia).
  rewrite <- (skip_places 2 cap n (ResponseReader r) 0) by lia. replace (n - 0 + 2)%nat with (2 + n)%nat by lia.
  change (S (2 + n)) with (S (2 + n)%nat). unfold read_loop at 1. fold read_loop.
  assert (read_step cap [] (NewSortingReader [Arrived r] n) = inr ([], skipped n 0 (ResponseReader r))) as ->; [|done].
  unfold read_step, load_next, NewSortingReader. cbn [cur buff nextOrder data].
  rewrite lookup_replicate_2 by lia. cbn [mjoin option_join fmap option_fmap option_map].
  rewrite (proj2 (Z.ltb_lt _ _)) by done. rewrite length_replicate, (proj2 (Nat.eqb_neq _ _)) by lia.
  by rewrite Nat.leb_refl.
Qed.

(** A single response that has no place (the error that refuses a whole batch) is
    the only element of the array, whatever the number of places. *)
Lemma batch_unplaced (r : Response) n (sizes : list nat) :
  (0 < n)%nat -> Order r < 0 -> Forall (fun n => 0 < n)%nat sizes ->
  (length (with_sep (ResponseReader r)) < length sizes)%nat ->
  ArraySortingStream [Arrived r] n sizes = Some (json_array [ResponseReader r]).
Proof.
  intros Hn Ho Hs Hlen. set (b := ResponseReader r) in *.
  assert (unwritten (replicate n [] ++ [b]) (skipped n n b) = with_sep b) as Hu.
  { unfold unwritten, tail_from. cbn [skipped cur nextOrder]. rewrite drop_app_ge by (by rewrite length_replicate).
    rewrite length_replicate, Nat.sub_diag. simpl. apply app_nil_r. }
  assert (read_all sizes (NewSortingReader [Arrived r] n) = Some (b, None)) as Hr.
  { transitivity (read_all sizes (skipped n n b)).
    - destruct sizes as [|cap sizes]; [done|]. cbn [read_all]. by rewrite read_unplaced.
    - rewrite (read_all_writes _ sizes _ [] (skipped_inv n b) Hs) by (by rewrite Hu). rewrite Hu. unfold with_sep.
      rewrite drop_last_app by done. do 2 f_equal. apply app_nil_r. }
  unfold ArraySortingStream. by rewrite Hr.
Qed.

Example batch_of_three :
  ArraySortingStream
    (map Arrived [mkResponse ["c"%char] 2; mkResponse ["a"%char; "a"%char] 0; mkResponse ["b"%char] 1]) 3
    (replicate 8 2%nat) =
  Some ["["; "a"; "a"; ","; "b"; ","; "c"; "]"]%char.
Proof.
  apply (batch_order [["a"; "a"]; ["b"]; ["c"]]%char); [|repeat constructor|simpl; lia].
  exact (Permutation_app_comm [mkResponse ["c"%char] 2] [mkResponse ["a"; "a"]%char 0; mkResponse ["b"%char] 1]).
Qed.
