(* ===== verification/Requests.v ===== *)
(** Requests ([internal/protocol/request.go], [json_rpc_request.go],
    [rest_request.go]): their parameters, parsed once and rewritten by sticky
    sends ([Parse] and [Modify] of [pkg/methods/method.go]), and the hash that keys
    the cache. *)

From S2P Require Import Prelude.
From S2P Require Import GoStrings.
From S2P Require Import JsonStream.
From S2P Require Import Errors.
From S2P Require Import Responses.
From S2P Require Import Specs.
From S2P Require Import SpecLoading.
From S2P Require Import Matchers.
From S2P Require Import SelectorKeys.
From Stdlib Require Import Ascii.

#[local] Arguments String.append !_ _ /.

(** ** Libraries *)

(** A decoded value of JSON ([any]); the entries of a map in the order of a range. *)
Inductive JsonAny :=
| AnyNil
| AnyBool (b : bool)
| AnyNumber (text : string)
| AnyString (s : string)
| AnyArray (l : list JsonAny)
| AnyMap (entries : list (string * JsonAny)).

(** The decoding and encoding of JSON ([sonic]); a jq query, run on a value, and
    the compiled one with a variable, each with what its iterator gives
    ([gojq]); the text of a value that is no string ([fmt.Sprintf] of [%s]); the
    numbers and references of blocks of [go-ethereum/rpc]. *)
Class MethodParsers := {
  json_valid : string -> bool;
  unmarshal_any : string -> option JsonAny;
  marshal_any : JsonAny -> option string;
  query_Run : string -> JsonAny -> list (string + JsonAny);
  code_Run : string -> JsonAny -> JsonAny -> list (string + JsonAny);
  sprint_any : JsonAny -> string;
  unmarshal_BlockNumber : string -> option Z;
  unmarshal_BlockNumberOrHash : string -> option (option string * option Z);
  marshal_request : string -> string -> string -> GoError + string;
}.

(** What programs that have no parameters to read need of them. *)
Definition no_parsers (body : string -> string -> string -> GoError + string) : MethodParsers := {|
  json_valid _ := true; unmarshal_any _ := Some (AnyArray []); marshal_any _ := None; query_Run _ _ := [];
  code_Run _ _ _ := []; sprint_any _ := ""; unmarshal_BlockNumber _ := None; unmarshal_BlockNumberOrHash _ := None;
  marshal_request := body |}.

(** [blake2b.Sum256] and [url.Values.Encode]. *)
Class Hashing := {
  blake2b : string -> string;
  encode_query : gmap string (list string) -> string;
}.

(** ** JSON-RPC requests *)

(** [requestKey] is the hash, once computed. *)
Record UpstreamJsonRpcRequest := mkJsonRpcRequest {
  jr_id : string;
  realId : string;
  jr_method : string;
  parsedParam : MethodParam;
  jr_params : string;
  jr_key : option string;
  jr_spec : option Method;
  jr_selectors : list RequestSelector;
  parsed : bool;
  jr_isStream : bool;
  isSub : bool;
}.

Record RequestParams := mkRequestParams {
  rp_Headers : gmap string (list string);
  rp_QueryParams : gmap string (list string);
  rp_PathParams : list string;
}.

Record UpstreamRestRequest := mkRestRequest {
  ur_id : string;
  ur_method : string;
  ur_key : option string;
  ur_body : string;
  ur_params : option RequestParams;
  ur_spec : option Method;
  ur_selectors : list RequestSelector;
  ur_isStream : bool;
}.

Inductive RequestHolder :=
| JsonRpcRequest (u : UpstreamJsonRpcRequest)
| RestRequest (u : UpstreamRestRequest).

Definition NewUpstreamJsonRpcRequest `{MapRange} (reg : Registry) (id body_id method params : string)
    (sub : bool) (specName : string) (selectors : list RequestSelector) : RequestHolder :=
  JsonRpcRequest (mkJsonRpcRequest id body_id method NoParam params None
    (Some (GetSpecMethodWithFallback reg specName method)) selectors false false sub).

Definition NewUpstreamRestRequest `{MapRange} (reg : Registry) (id methodTemplate : string)
    (params : option RequestParams) (body specName : string) (selectors : list RequestSelector) : RequestHolder :=
  RestRequest (mkRestRequest id methodTemplate None body params
    (Some (GetSpecMethodWithFallback reg specName methodTemplate)) selectors false).

Definition request_Id (r : RequestHolder) : string :=
  match r with JsonRpcRequest u => jr_id u | RestRequest u => ur_id u end.

Definition request_Method (r : RequestHolder) : string :=
  match r with JsonRpcRequest u => jr_method u | RestRequest u => ur_method u end.

Definition SpecMethod (r : RequestHolder) : option Method :=
  match r with JsonRpcRequest u => jr_spec u | RestRequest u => ur_spec u end.

Definition Selectors (r : RequestHolder) : list RequestSelector :=
  match r with JsonRpcRequest u => jr_selectors u | RestRequest u => ur_selectors u end.

Definition request_IsSubscribe (r : RequestHolder) : bool :=
  match r with JsonRpcRequest u => isSub u | RestRequest _ => false end.

Definition request_IsStream (r : RequestHolder) : bool :=
  match r with JsonRpcRequest u => jr_isStream u | RestRequest u => ur_isStream u end.

Definition request_RequestType (r : RequestHolder) : RequestType :=
  match r with JsonRpcRequest _ => JsonRpc | RestRequest _ => Rest end.

Definition request_params (r : RequestHolder) : option RequestParams :=
  match r with JsonRpcRequest _ => None | RestRequest u => ur_params u end.

(** ** What a method reads of its parameters *)

Section MethodParams.
Context `{MP : MethodParsers}.

(** The first value of the iterator. *)
Definition jqParse (iter : list (string + JsonAny)) : string + JsonAny :=
  match iter with
  | [] => inl "no parsed value"
  | inl err :: _ => inl err
  | inr param :: _ => inr param
  end.

Definition isBlockTag (param : string) : bool :=
  bool_decide (param ∈ ["latest"; "earliest"; "pending"; "finalized"; "safe"]).

Definition isHexNumberOrTag (param : string) : bool := HasPrefix param "0x" || isBlockTag param.

(** One end of a range: [None] is an error. *)
Definition range_end (key : string) (entries : list (string * JsonAny)) : option (option Z) :=
  match list_find (fun e => e.1 = key) entries with
  | Some (_, (_, AnyNil)) | None => Some None
  | Some (_, (_, v)) =>
    Some <$> unmarshal_BlockNumber (quoted (match v with AnyString s => s | _ => sprint_any v end))
  end.

Definition parseTag (returnType : string) (paramAny : JsonAny) : MethodParam :=
  match paramAny with
  | AnyString param =>
    if bool_decide (returnType = "blockNumber") && isHexNumberOrTag param
    then match unmarshal_BlockNumber (quoted param) with Some num => BlockNumberParam num | None => NoParam end
    else if bool_decide (returnType = "blockRef")
    then match unmarshal_BlockNumberOrHash (quoted param) with
         | Some (Some hash, _) => HashTagParam hash
         | Some (None, Some num) => BlockNumberParam num
         | _ => NoParam
         end
    else if bool_decide (returnType = "string") then StringParam param
    else NoParam
  | AnyMap entries =>
    if bool_decide (returnType = "blockRange")
    then match range_end "from" entries, range_end "to" entries with
         | Some from, Some to => BlockRangeParam from to
         | _, _ => NoParam
         end
    else NoParam
  | _ => NoParam
  end.

(** [Parse].  A key that is no type of result panics in Go, where it has no
    parameter here; the queries of the specifications give [blockRef] and
    [blockRange] only. *)
Definition method_Parse (m : Method) (data : JsonAny) : MethodParam :=
  match parser m with
  | None => NoParam
  | Some p =>
    match jqParse (query_Run (query p) data) with
    | inr (AnyString param) => parseTag (returnType p) (AnyString param)
    | inr (AnyMap ((tp, value) :: _)) =>
      if bool_decide (returnType p = "object") && bool_decide (ParserReturnType_validate tp = None)
      then parseTag tp value else NoParam
    | _ => NoParam
    end
  end.

(** [Modify], which gives nothing on an error. *)
Definition method_Modify (m : Method) (data newV : JsonAny) : string :=
  match modifyParser m with
  | None => ""
  | Some code =>
    match jqParse (code_Run code data newV) with
    | inl _ => ""
    | inr modifiedValue => default "" (marshal_any modifiedValue)
    end
  end.
End MethodParams.

Section Params.
Context `{MP : MethodParsers} `{JS : Json}.

Definition RealId (u : UpstreamJsonRpcRequest) : string :=
  let raw := TrimSpace (realId u) in
  if bool_decide (raw = "") then ""
  else if in_quotes raw then default raw (unmarshal_string raw) else raw.

Definition request_Body (r : RequestHolder) : GoError + string :=
  match r with
  | JsonRpcRequest u => marshal_request (realId u) (jr_method u) (jr_params u)
  | RestRequest u => inr (ur_body u)
  end.

(** The decoded parameters; no parameters count as an empty array. *)
Definition params_any (u : UpstreamJsonRpcRequest) : option JsonAny :=
  if bool_decide (jr_params u = "") then Some (AnyArray []) else unmarshal_any (jr_params u).

Definition jr_ParseParams (u : UpstreamJsonRpcRequest) : MethodParam * UpstreamJsonRpcRequest :=
  match jr_spec u with
  | None => (NoParam, u)
  | Some m =>
    if negb (bool_decide (parsedParam u = NoParam)) && parsed u then (parsedParam u, u)
    else match params_any u with
    | Some data =>
      let p := method_Parse m data in
      (p, mkJsonRpcRequest (jr_id u) (realId u) (jr_method u) p (jr_params u) (jr_key u) (jr_spec u)
            (jr_selectors u) true (jr_isStream u) (isSub u))
    | None => (NoParam, u)
    end
  end.

Definition jr_ModifyParams (newValue : JsonAny) (u : UpstreamJsonRpcRequest) : UpstreamJsonRpcRequest :=
  match jr_spec u with
  | None => u
  | Some m =>
    match params_any u with
    | Some data =>
      let modifiedData := method_Modify m data newValue in
      if bool_decide (modifiedData = "") then u
      else mkJsonRpcRequest (jr_id u) (realId u) (jr_method u) (parsedParam u) modifiedData (jr_key u) (jr_spec u)
             (jr_selectors u) false (jr_isStream u) (isSub u)
    | None => u
    end
  end.

Definition ParseParams (r : RequestHolder) : MethodParam * RequestHolder :=
  match r with
  | JsonRpcRequest u => let '(p, u) := jr_ParseParams u in (p, JsonRpcRequest u)
  | RestRequest _ => (NoParam, r)
  end.

Definition ModifyParams (newValue : JsonAny) (r : RequestHolder) : RequestHolder :=
  match r with
  | JsonRpcRequest u => JsonRpcRequest (jr_ModifyParams newValue u)
  | RestRequest _ => r
  end.

(** What selection, sending and answering read of a request is not changed by
    parsing or modifying its parameters. *)
Definition same_request (r r' : RequestHolder) : Prop :=
  request_Id r' = request_Id r /\ request_Method r' = request_Method r /\ SpecMethod r' = SpecMethod r /\
  request_IsSubscribe r' = request_IsSubscribe r /\ request_RequestType r' = request_RequestType r /\
  Selectors r' = Selectors r.

Lemma same_request_refl r : same_request r r.
Proof using Type. done. Qed.

Lemma same_request_trans r1 r2 r3 : same_request r1 r2 -> same_request r2 r3 -> same_request r1 r3.
Proof using Type. unfold same_request. intuition congruence. Qed.

Lemma ParseParams_same r : same_request r (ParseParams r).2.
Proof using Type.
  destruct r as [u|u]; [|done]. simpl. unfold jr_ParseParams. destruct (jr_spec u) eqn:E; [|done].
  destruct (_ && _); [done|]. by destruct (params_any u).
Qed.

Lemma ModifyParams_same v r : same_request r (ModifyParams v r).
Proof using Type.
  destruct r as [u|u]; [|done]. simpl. unfold jr_ModifyParams. destruct (jr_spec u) eqn:E; [|done].
  destruct (params_any u); [|done]. by case_bool_decide.
Qed.

(** A request whose cached parameter, when it counts as parsed, is the one its
    parameters have: how requests are created, and kept by both operations. *)
Definition params_fresh (r : RequestHolder) : Prop :=
  match r with
  | JsonRpcRequest u =>
    forall m, jr_spec u = Some m -> parsed u = true ->
      exists data, params_any u = Some data /\ parsedParam u = method_Parse m data
  | RestRequest _ => True
  end.

(** What the parameters of a request parse to. *)
Definition param_of (r : RequestHolder) : MethodParam :=
  match r with
  | JsonRpcRequest u =>
    match jr_spec u, params_any u with
    | Some m, Some data => method_Parse m data
    | _, _ => NoParam
    end
  | RestRequest _ => NoParam
  end.

Lemma ParseParams_spec r p r' :
  params_fresh r -> ParseParams r = (p, r') ->
  p = param_of r /\ params_fresh r' /\ param_of r' = param_of r /\
  request_Id r' = request_Id r /\ request_Method r' = request_Method r /\ SpecMethod r' = SpecMethod r /\
  request_Body r' = request_Body r.
Proof using Type.
  destruct r as [u|u]; [|by intros _ [= <- <-]]. simpl. unfold jr_ParseParams. intros Hf.
  destruct (jr_spec u) as [m|] eqn:Em.
  - destruct (negb _ && parsed u) eqn:Ec.
    + apply andb_true_iff in Ec as [_ Hp]. destruct (Hf m eq_refl Hp) as (data & Hd & Hv).
      intros [= <- <-]. simpl. rewrite Em, Hd. split_and!; try done. intros m' [= <-] _. by exists data.
    + destruct (params_any u) as [data|] eqn:Ed; intros [= <- <-]; simpl.
      * unfold params_any in *. simpl. rewrite Ed. split_and!; try done. intros m' [= <-] _. by exists data.
      * rewrite Em, Ed. by split_and!.
  - intros [= <- <-]. simpl. rewrite Em. by split_and!.
Qed.

Lemma ModifyParams_fresh v r : params_fresh r -> params_fresh (ModifyParams v r).
Proof using Type.
  destruct r as [u|u]; [|done]. intros Hf. cbn [ModifyParams]. unfold jr_ModifyParams.
  destruct (jr_spec u) as [m|] eqn:Em; [|exact Hf].
  destruct (params_any u) as [data|] eqn:Ed; [|exact Hf]. case_bool_decide; [exact Hf|]. by intros m' _.
Qed.
End Params.

(** ** Hashes *)

Definition calculateHash `{Hashing} (b : string) : string := hex_encode (blake2b b).

(** What is hashed. *)
Definition json_rpc_key_text (method params : string) (selectors : list RequestSelector) : string :=
  params +:+ method +:+ LabelCacheKey selectors.

Definition calculateJsonRpcHash `{Hashing} (method params : string) (selectors : list RequestSelector) : string :=
  calculateHash (json_rpc_key_text method params selectors).

(** [binary.BigEndian.PutUint64] *)
Definition be_byte (n : N) (i : N) : ascii := ascii_of_N ((n / 256 ^ i) mod 256).
Definition be64 (n : N) : string :=
  foldr (fun i s => String (be_byte n i) s) "" [7; 6; 5; 4; 3; 2; 1; 0]%N.

Definition section (tag : ascii) (data : string) : string :=
  String tag (be64 (N.of_nat (String.length data) mod 2 ^ 64) +:+ data).

(** The sections of a request, each with its tag. *)
Definition rest_sections `{Hashing} (method : string) (params : option RequestParams) (body : string)
    (selectors : list RequestSelector) : list (ascii * string) :=
  [("m"%char, method)] ++
  match params with
  | None => []
  | Some p =>
    map (fun x => ("p"%char, x)) (rp_PathParams p) ++
    (if bool_decide (rp_QueryParams p = ∅) then [] else [("q"%char, encode_query (rp_QueryParams p))])
  end ++
  (if bool_decide (body = "") then [] else [("b"%char, body)]) ++
  (let labelKey := LabelCacheKey selectors in
   if bool_decide (labelKey = "") then [] else [("s"%char, labelKey)]).

Definition frame (l : list (ascii * string)) : string :=
  foldr (fun x s => section x.1 x.2 +:+ s) "" l.

Definition calculateRestHash `{Hashing} (method : string) (params : option RequestParams) (body : string)
    (selectors : list RequestSelector) : string :=
  calculateHash (frame (rest_sections method params body selectors)).

Definition RequestHash `{Hashing} (r : RequestHolder) : string * RequestHolder :=
  match r with
  | JsonRpcRequest u =>
    let key := default (calculateJsonRpcHash (jr_method u) (jr_params u) (jr_selectors u)) (jr_key u) in
    (key, JsonRpcRequest (mkJsonRpcRequest (jr_id u) (realId u) (jr_method u) (parsedParam u) (jr_params u) (Some key)
            (jr_spec u) (jr_selectors u) (parsed u) (jr_isStream u) (isSub u)))
  | RestRequest u =>
    let key := default (calculateRestHash (ur_method u) (ur_params u) (ur_body u) (ur_selectors u)) (ur_key u) in
    (key, RestRequest (mkRestRequest (ur_id u) (ur_method u) (Some key) (ur_body u) (ur_params u) (ur_spec u)
            (ur_selectors u) (ur_isStream u)))
  end.

(** *** Framing is injective *)

Lemma be64_length n : String.length (be64 n) = 8%nat.
Proof. done. Qed.

Lemma be_byte_inj n m i : be_byte n i = be_byte m i -> ((n / 256 ^ i) mod 256 = (m / 256 ^ i) mod 256)%N.
Proof.
  unfold be_byte. intros H. apply (f_equal N_of_ascii) in H.
  rewrite !N_ascii_embedding in H by (apply N.mod_lt; done). done.
Qed.

Lemma bytes_inj (k : nat) n m :
  (n < 256 ^ N.of_nat k)%N -> (m < 256 ^ N.of_nat k)%N ->
  (forall i, (i < k)%nat -> (n / 256 ^ N.of_nat i) mod 256 = (m / 256 ^ N.of_nat i) mod 256)%N -> n = m.
Proof.
  revert n m. induction k as [|k IH]; intros n m Hn Hm H; [simpl in *; lia|].
  rewrite Nat2N.inj_succ, N.pow_succ_r' in Hn, Hm.
  assert (n / 256 = m / 256)%N as E.
  { apply IH; [by apply N.Div0.div_lt_upper_bound..|]. intros i Hi. rewrite !N.Div0.div_div, <- !N.pow_succ_r', <- !Nat2N.inj_succ.
    apply H. lia. }
  specialize (H 0%nat ltac:(lia)). rewrite !N.pow_0_r, !N.div_1_r in H.
  rewrite (N.div_mod n 256), (N.div_mod m 256), E, H by done. done.
Qed.

Lemma be64_inj n m : (n < 2 ^ 64)%N -> (m < 2 ^ 64)%N -> be64 n = be64 m -> n = m.
Proof.
  intros Hn Hm H. unfold be64 in H. simpl in H. injection H as H7 H6 H5 H4 H3 H2 H1 H0.
  apply (bytes_inj 8); [done..|]. intros i Hi. do 8 (destruct i as [|i]; [by apply be_byte_inj|]). lia.
Qed.

Lemma append_inj_len a b s t : String.length a = String.length b -> a +:+ s = b +:+ t -> a = b /\ s = t.
Proof.
  revert b. induction a as [|c a IH]; intros [|d b] Hl; try done. simpl. intros [= -> H].
  destruct (IH b) as [-> ->]; [by injection Hl|done|done].
Qed.

Lemma String_inj a b s t : String a s = String b t -> a = b /\ s = t.
Proof. by intros [= -> ->]. Qed.

Definition small (s : string) : Prop := (N.of_nat (String.length s) < 2 ^ 64)%N.

Lemma frame_inj l l' :
  Forall (fun x => small x.2) l -> Forall (fun x => small x.2) l' -> frame l = frame l' -> l = l'.
Proof.
  intros Hl. revert l'. induction Hl as [|[t d] l Hd _ IH]; intros l' Hl'; destruct Hl' as [|[t' d'] l' Hd' Hl'];
    try done. cbn [frame foldr fst snd]. unfold section. simpl in Hd, Hd'. cbn [String.append].
  rewrite !append_assoc_str, !N.mod_small by done. intros [-> H]%String_inj.
  apply append_inj_len in H as [Hn H]; [|done]. apply be64_inj in Hn; [|done..]. apply Nat2N.inj in Hn.
  apply append_inj_len in H as [-> H]; [|done]. f_equal. by apply IH.
Qed.

(** The sections determine the parts. *)
Definition part (tag : ascii) (l : list (ascii * string)) : list string :=
  omap (fun x => if bool_decide (x.1 = tag) then Some x.2 else None) l.

Definition path_of (params : option RequestParams) : list string :=
  match params with Some p => rp_PathParams p | None => [] end.

Definition query_of `{Hashing} (params : option RequestParams) : option string :=
  match params with
  | Some p => if bool_decide (rp_QueryParams p = ∅) then None else Some (encode_query (rp_QueryParams p))
  | None => None
  end.

Lemma part_map tag t l : part tag (map (fun x => (t, x)) l) = if bool_decide (t = tag) then l else [].
Proof. induction l as [|x l IH]; simpl; [by case_bool_decide|]. rewrite IH. by case_bool_decide. Qed.

Lemma part_app tag l l' : part tag (l ++ l') = part tag l ++ part tag l'.
Proof. apply omap_app. Qed.

Lemma rest_sections_parts `{Hashing} m params body sels :
  let l := rest_sections m params body sels in
  part "m" l = [m] /\ part "p" l = path_of params /\ part "q" l = option_list (query_of params) /\
  part "b" l = (if bool_decide (body = "") then [] else [body]) /\
  part "s" l = (if bool_decide (LabelCacheKey sels = "") then [] else [LabelCacheKey sels]).
Proof.
  simpl. unfold rest_sections. rewrite !part_app.
  destruct params as [p|]; [rewrite !part_app, !part_map|]; simpl;
    repeat case_bool_decide; simpl; rewrite ?app_nil_r; split_and!; done.
Qed.

(** The hash of a REST request identifies what the response depends on: two
    requests with the same hash have the same method, path captures, encoded
    query, body and node class, unless [blake2b] itself collides.  The parts are
    framed by tag and length, so no part can pass for another. *)
Theorem rest_hash_injective `{Hashing} m m' params params' body body' sels sels' :
  Forall (fun x => small x.2) (rest_sections m params body sels) ->
  Forall (fun x => small x.2) (rest_sections m' params' body' sels') ->
  calculateRestHash m params body sels = calculateRestHash m' params' body' sels' ->
  (m = m' /\ path_of params = path_of params' /\ query_of params = query_of params' /\ body = body' /\
   LabelCacheKey sels = LabelCacheKey sels') \/
  exists x y, x <> y /\ blake2b x = blake2b y.
Proof.
  intros Hs Hs' Heq. unfold calculateRestHash, calculateHash in Heq.
  apply (f_equal hex_decode) in Heq. rewrite !hex_decode_encode in Heq. injection Heq as Heq.
  destruct (decide (frame (rest_sections m params body sels) = frame (rest_sections m' params' body' sels'))) as [E|E];
    [left|right; by eexists _, _].
  apply frame_inj in E; [|done..].
  destruct (rest_sections_parts m params body sels) as (Em & Ep & Eq & Eb & Es).
  destruct (rest_sections_parts m' params' body' sels') as (Em' & Ep' & Eq' & Eb' & Es').
  rewrite E in Em, Ep, Eq, Eb, Es. rewrite Em' in Em. rewrite Ep' in Ep. rewrite Eq' in Eq. rewrite Eb' in Eb.
  rewrite Es' in Es. split_and!; [congruence|done| | |].
  - by destruct (query_of params), (query_of params'); simpl in Eq; simplify_eq.
  - repeat case_bool_decide; simplify_eq; congruence.
  - repeat case_bool_decide; congruence.
Qed.

#[local] Instance demo_hashing : Hashing := { blake2b s := s; encode_query _ := "q=1" }.

(** A path capture and a body with the same text. *)
Lemma rest_hash_injective_witness :
  calculateRestHash "GET#/a/*" (Some (mkRequestParams ∅ ∅ ["x"])) "" [] <>
  calculateRestHash "GET#/a/*" None "x" [].
Proof.
  intros E.
  destruct (rest_hash_injective "GET#/a/*" "GET#/a/*" (Some (mkRequestParams ∅ ∅ ["x"])) None "" "x" [] [])
    as [(_ & _ & _ & Hb & _)|(x & y & Hne & Hxy)]; [repeat constructor..|done|done|done].
Defined.

(** *** The text of a JSON-RPC request *)

Abbreviation bytes_of := String.list_ascii_of_string.

Lemma bytes_of_app s t : bytes_of (s +:+ t) = bytes_of s ++ bytes_of t.
Proof. induction s as [|c s IH]; simpl; [done|]. by rewrite IH. Qed.

Lemma bytes_of_inj s t : bytes_of s = bytes_of t -> s = t.
Proof.
  intros H. rewrite <- (String.string_of_list_ascii_of_string s), <- (String.string_of_list_ascii_of_string t).
  by rewrite H.
Qed.

(** No parameters, or a JSON array or object. *)
Definition params_json (s : string) : Prop :=
  s = "" \/ exists v, (elements v /\ bytes_of s = "["%char :: v ++ ["]"%char]) \/
                     (members v /\ bytes_of s = "{"%char :: v ++ ["}"%char]).

Lemma upto_params s t : s <> "" -> params_json s -> upto (counter_for (first_byte (bytes_of s))) (bytes_of s ++ t) = Some (bytes_of s).
Proof.
  intros Hne Hs. destruct json_neutral as (_ & He & Hm).
  destruct Hs as [?|(v & [[Hv ->]|[Hv ->]])]; [done| |];
    rewrite <- app_comm_cons, <- app_assoc.
  - apply (upto_bracket counterArray); [by right|]. intros c Hc. by apply He.
  - apply (upto_bracket counterObject); [by left|]. intros c Hc. by apply Hm.
Qed.

(** A name without the characters that open a group, an array or an object. *)
Definition plain_name (s : string) : Prop :=
  contains_char "(" s = false /\ contains_char "[" s = false /\ contains_char "{" s = false.

Definition key_words : list string := ["label"; "exists"; "and"; "or"; "not"].

Definition key_shape (k : string) : Prop := k = "" \/ exists w rest, w ∈ key_words /\ k = w +:+ String "(" rest.

Lemma group_key_shape op parts :
  op ∈ key_words -> (forall k, k ∈ parts -> key_shape k) -> key_shape (group_key op parts).
Proof.
  intros Hop Hp. destruct parts as [|p [|q parts]]; [by left|apply Hp; by left|].
  right. exists op. by eexists.
Qed.

Lemma word_shape w rest : w ∈ key_words -> key_shape (w +:+ String "(" rest).
Proof. intros Hw. right. eauto. Qed.

Lemma labelClassKey_shape sel : key_shape (labelClassKey sel).
Proof.
  induction sel as [sel Hsel|cs IH|cs IH|c IH] using selector_ind.
  - destruct sel; try (by left); try done; simpl.
    + apply (word_shape "label"). by left.
    + apply (word_shape "exists"). by right; left.
  - apply group_key_shape; [by right; right; left|]. intros k. rewrite elem_of_sort_Strings, list_elem_of_filter.
    intros [_ (c & -> & Hc)%list_elem_of_fmap]. rewrite Forall_forall in IH. by apply IH.
  - simpl. case_bool_decide; [by left|]. apply group_key_shape; [by do 3 right; left|]. intros k.
    rewrite elem_of_sort_Strings. intros (c & -> & Hc)%list_elem_of_fmap. rewrite Forall_forall in IH. by apply IH.
  - simpl. case_bool_decide; [by left|]. apply (word_shape "not"). by do 4 right; left.
Qed.

Fixpoint last_char (s : string) : option ascii :=
  match s with
  | EmptyString => None
  | String c s' => match last_char s' with Some d => Some d | None => Some c end
  end.

Lemma last_char_app s w : w <> "" -> last_char (s +:+ w) = last_char w.
Proof.
  intros Hw. assert (exists d, last_char w = Some d) as [d Hd].
  { destruct w as [|c w]; [done|]. simpl. destruct (last_char w); eauto. }
  induction s as [|c s IH]; [done|]. simpl. by rewrite IH, Hd.
Qed.

(** The words a key begins with end in different letters. *)
Lemma word_last w w' : w ∈ key_words -> w' ∈ key_words -> last_char w = last_char w' -> w = w'.
Proof.
  unfold key_words. rewrite !elem_of_cons. intros Hw Hw'.
  destruct_or! Hw; destruct_or! Hw'; subst; try done; by apply not_elem_of_nil in Hw || by apply not_elem_of_nil in Hw'.
Qed.

Lemma word_plain w : w ∈ key_words -> w <> "" /\ contains_char "(" w = false.
Proof.
  unfold key_words. rewrite !elem_of_cons. intros Hw. destruct_or! Hw; subst; try done. by apply not_elem_of_nil in Hw.
Qed.

Lemma append_inj_r s t w : s +:+ w = t +:+ w -> s = t.
Proof.
  intros H. assert (String.length s = String.length t) as Hl.
  { apply (f_equal String.length) in H. rewrite !length_append_str in H. lia. }
  by destruct (append_inj_len s t w w Hl H).
Qed.

Lemma name_key_inj m m' k k' :
  contains_char "(" m = false -> contains_char "(" m' = false -> key_shape k -> key_shape k' ->
  m +:+ k = m' +:+ k' -> m = m' /\ k = k'.
Proof.
  assert (forall m w rest, contains_char "(" m = false -> w ∈ key_words ->
    cut_at "(" (m +:+ w +:+ String "(" rest) = (m +:+ w, rest)) as Hcut.
  { intros n w rest Hn Hw. rewrite <- append_assoc_str. apply cut_at_app. rewrite contains_char_app, Hn.
    by destruct (word_plain w Hw) as [_ ->]. }
  assert (forall m w rest, contains_char "(" (m +:+ w +:+ String "(" rest) = true) as Hin.
  { intros n w rest. rewrite !contains_char_app. simpl. by rewrite !orb_true_r. }
  intros Hm Hm' [->|(w & r & Hw & ->)] [->|(w' & r' & Hw' & ->)] E.
  - rewrite !append_nil_r in E. done.
  - rewrite append_nil_r in E. subst m. by rewrite Hin in Hm.
  - rewrite append_nil_r in E. subst m'. by rewrite Hin in Hm'.
  - apply (f_equal (cut_at "(")) in E. rewrite !Hcut in E by done. injection E as E ->.
    assert (w = w') as <-.
    { apply word_last; [done..|]. destruct (word_plain w Hw) as [Hne _], (word_plain w' Hw') as [Hne' _].
      rewrite <- (last_char_app m w Hne), E. by apply last_char_app. }
    apply append_inj_r in E. by subst.
Qed.

(** The first byte of what follows the parameters. *)
Lemma rest_first m k c s : plain_name m -> key_shape k -> bytes_of (m +:+ k) = c :: s -> c <> "["%char /\ c <> "{"%char.
Proof.
  intros (_ & Ha & Ho) Hk E. destruct m as [|d m].
  - destruct Hk as [->|(w & rest & Hw & ->)]; [done|]. unfold key_words in Hw. rewrite !elem_of_cons in Hw.
    destruct_or! Hw; subst; [by injection E as <- _..|by apply not_elem_of_nil in Hw].
  - simpl in *. injection E as -> _. apply orb_false_iff in Ha as [Ha%bool_decide_eq_false _].
    by apply orb_false_iff in Ho as [Ho%bool_decide_eq_false _].
Qed.

Lemma json_rpc_key_inj m m' p p' k k' :
  plain_name m -> plain_name m' -> params_json p -> params_json p' -> key_shape k -> key_shape k' ->
  p +:+ m +:+ k = p' +:+ m' +:+ k' -> p = p' /\ m = m' /\ k = k'.
Proof.
  intros Hm Hm' Hp Hp' Hk Hk' E.
  assert (p = p') as <-; [|split; [done|]; apply name_key_inj; [apply Hm|apply Hm'|done..|]; by destruct (append_inj_len p p _ _ eq_refl E)].
  assert (bytes_of p ++ bytes_of (m +:+ k) = bytes_of p' ++ bytes_of (m' +:+ k')) as Eb by (rewrite <- !bytes_of_app; congruence).
  assert (forall q n l r, q <> "" -> params_json q -> plain_name n -> key_shape l -> bytes_of q ++ r = bytes_of (n +:+ l) -> False) as Hno.
  { intros q n l r Hne Hq Hn Hl E'. destruct Hq as [?|(v & [[_ Ev]|[_ Ev]])]; [done| |];
      rewrite Ev in E'; symmetry in E'; by apply rest_first in E' as [? ?]. }
  destruct (decide (p = "")) as [-> |Hne], (decide (p' = "")) as [-> |Hne']; [done| | |].
  - symmetry in Eb. by apply Hno in Eb.
  - by apply Hno in Eb.
  - pose proof (upto_params p (bytes_of (m +:+ k)) Hne Hp) as Hu.
    pose proof (upto_params p' (bytes_of (m' +:+ k')) Hne' Hp') as Hu'.
    assert (first_byte (bytes_of p) = first_byte (bytes_of p')) as Ef.
    { destruct p as [|c p], p' as [|c' p']; try done. by injection Eb as -> _. }
    rewrite Ef, Eb, Hu' in Hu. apply bytes_of_inj. by injection Hu as ->.
Qed.

(** The hash of a JSON-RPC request identifies its parameters, its method and
    its node class, unless [blake2b] itself collides: the three are hashed without
    separators, but parameters that are a JSON array or object end where their
    brackets do, and a key of a node class begins with one of five words. *)
Theorem json_rpc_hash_injective `{Hashing} m m' p p' sels sels' :
  plain_name m -> plain_name m' -> params_json p -> params_json p' ->
  calculateJsonRpcHash m p sels = calculateJsonRpcHash m' p' sels' ->
  (m = m' /\ p = p' /\ LabelCacheKey sels = LabelCacheKey sels') \/
  exists x y, x <> y /\ blake2b x = blake2b y.
Proof.
  intros Hm Hm' Hp Hp' E. unfold calculateJsonRpcHash, calculateHash in E.
  apply (f_equal hex_decode) in E. rewrite !hex_decode_encode in E. injection E as E.
  destruct (decide (json_rpc_key_text m p sels = json_rpc_key_text m' p' sels')) as [Et|Et]; [left|right; by eexists _, _].
  apply json_rpc_key_inj in Et as (-> & -> & Hk); try done; apply labelClassKey_shape.
Qed.

Lemma json_rpc_hash_injective_witness :
  calculateJsonRpcHash "eth_call" "[]" [RequestExistsSelector "a"] <> calculateJsonRpcHash "eth_call" "[]" [].
Proof.
  intros E.
  assert (params_json "[]") as Hp.
  { right. exists []. left. split; [|done]. apply e_empty. constructor. }
  destruct (json_rpc_hash_injective "eth_call" "eth_call" "[]" "[]" [RequestExistsSelector "a"] [])
    as [(_ & _ & Hk)|(x & y & Hne & Hxy)]; done.
Defined.
