(* ===== verification/HttpConnector.v ===== *)
(** The HTTP connector: the request it sends to an upstream and the response it
    makes of the answer ([internal/upstreams/connectors/http_connector.go]; the
    websocket connector's [SendRequest] of [ws_connector.go]).

    The transport, the parsing of URLs and the context are parameters; so is the
    decision whether the start of a JSON-RPC body may be streamed, for which any
    function will do here. *)

From S2P Require Import Prelude.
From S2P Require Import GoStrings.
From S2P Require Import GoHttp.
From S2P Require Import JsonStream.
From S2P Require Import Errors.
From S2P Require Import Responses.
From S2P Require Import Specs.
From S2P Require Import PathMatcher.
From S2P Require Import Config.
From S2P Require Import Quorum.
From S2P Require Import Requests.
From Stdlib Require Import Ascii.

#[local] Arguments String.append !_ _ /.

(** ** Libraries *)

(** [net/url]; [q.Encode] is [encode_query]. *)
Class UrlLib := {
  URL : Type;
  url_Parse : string -> option URL;
  url_Query : URL -> gmap string (list string);
  set_RawQuery : string -> URL -> URL;
  url_String : URL -> string;
  url_ParseQuery : string -> option (gmap string (list string));
}.

Record OutRequest := mkOutRequest { out_verb : string; out_url : string; out_header : Header; out_body : string }.

(** An answer: the bytes of its body up to the end or to an error of the reader. *)
Record HttpReply := mkHttpReply { StatusCode : Z; reply_header : Header; reply_text : string; reply_err : option string }.

(** The client, in a world [W]: [new_request] is the text of the error of
    [http.NewRequestWithContext], [ctx_text] the error of the context. *)
Class HttpClient (W : Type) := {
  new_request : string -> string -> option string;
  http_Do : OutRequest -> W -> (string + HttpReply) * W;
  ctx_text : W -> option string;
}.

(** ** The connector *)

Record HttpConnector := mkHttpConnector {
  endpoint : string;
  upstreamId : string;
  additionalHeaders : gmap string string;
  connectorType : ApiConnectorType;
  deniedResponseHeaders : gset string;
}.

Definition defaultResponseHeaderDeny : list string :=
  ["Connection"; "Keep-Alive"; "Proxy-Authenticate"; "Proxy-Authorization"; "Te"; "Trailers"; "Transfer-Encoding";
   "Content-Length"; "Content-Encoding"; "Upgrade"; "Set-Cookie"; "Set-Cookie2"; "Server"].

Definition defaultRequestHeaderDeny : gset string :=
  list_to_set ["Connection"; "Keep-Alive"; "Proxy-Authenticate"; "Proxy-Authorization"; "Te"; "Trailer"; "Trailers";
   "Transfer-Encoding"; "Upgrade"; "Host"; "Content-Length"; "Accept-Encoding"].

Definition contentTypeHeader : string := "Content-Type".

Definition isSuccessStatus (code : Z) : bool := (200 <=? code) && (code <? 300).

Section Connector.
Context `{MR : MapRange} `{JS : Json} `{MP : MethodParsers} `{HA : Hashing} `{QU : Quoting} `{UL : UrlLib}.

Definition canonicalizeHeaders (headers : gmap string string) : gmap string string :=
  foldl (fun out '(k, v) => <[CanonicalHeaderKey k := v]> out) ∅ (range headers).

Definition buildDeniedResponseHeaders (extra : list string) : gset string :=
  list_to_set (map CanonicalHeaderKey (defaultResponseHeaderDeny ++ extra)).

(** [NewHttpConnectorWithDefaultClient], and what [NewHttpConnector] builds beside
    the client. *)
Definition NewHttpConnector (cfg : ApiConnectorConfig) (t : ApiConnectorType) (upstreamId : string) : HttpConnector :=
  mkHttpConnector (c_Url cfg) upstreamId (canonicalizeHeaders (c_Headers cfg)) t
    (buildDeniedResponseHeaders (c_ResponseHeaderDeny cfg)).

Definition filterResponseHeaders (h : HttpConnector) (src : Header) : Header :=
  base.filter (fun kv => CanonicalHeaderKey kv.1 ∉ deniedResponseHeaders h) src.

Definition applyConfigHeaders (h : HttpConnector) (header : Header) : Header :=
  foldl (fun header '(k, v) => header_Set k v header) (header_Set "Content-Type" "application/json" header)
    (range (additionalHeaders h)).

Definition clientContentTypeWins (clientContentType body : string) : bool :=
  if Contains clientContentType "json" then true else negb (json_valid body).

(** One header of the client. *)
Definition apply_client_header (h : HttpConnector) (body : string) (header : Header) (kv : string * list string) : Header :=
  let '(k, vs) := kv in
  let canonical := CanonicalHeaderKey k in
  if bool_decide (canonical ∈ defaultRequestHeaderDeny) then header
  else if bool_decide (is_Some (additionalHeaders h !! canonical)) then header
  else match vs with
       | v0 :: _ =>
         if bool_decide (canonical = contentTypeHeader)
         then if clientContentTypeWins v0 body then header_Set canonical v0 header else header
         else foldl (fun header v => header_Add k v header) header vs
       | [] => header
       end.

Definition applyClientHeaders (h : HttpConnector) (headers : gmap string (list string)) (body : string) (header : Header)
    : Header := foldl (apply_client_header h body) header (range headers).

Definition joinEndpointAndPath (endpoint path : string) : string :=
  let '(base, query) := cut_at "?" endpoint in
  let base := if HasPrefix path "/" then default base (strip_last "/" base) else base in
  base +:+ path +:+ (if bool_decide (query = "") then "" else "?" +:+ query).

Definition appendQuery (rawURL extraQuery : string) : option string :=
  if bool_decide (extraQuery = "") then Some rawURL
  else u ← url_Parse rawURL;
       extra ← url_ParseQuery extraQuery;
       Some (url_String (set_RawQuery (encode_query (extra ∪ url_Query u)) u)).

Definition EncodeQuery (p : Params) : string :=
  if Requested p then encode_query (list_to_map (map (fun kv => (kv.1, [kv.2])) (query_pairs p))) else "".

Definition encodeMultiValuedQuery (params : gmap string (list string)) : string :=
  if bool_decide (params = ∅) then "" else encode_query params.

(** ** Sending *)

Definition clientFailure (request : RequestHolder) (cause : GoError) : ResponseHolder :=
  NewTotalFailure (request_Id request) (request_RequestType request) (ClientError cause).

Context {W : Type} `{HC : HttpClient W}.

(** The parameters of a quorum read in the context. *)
Context (quorum : option Params) (jsonRpcCanStream : string -> bool).

Definition ctx_failure (h : HttpConnector) (request : RequestHolder) (text : string) : ResponseHolder :=
  NewTotalFailure (request_Id request) (request_RequestType request)
    (CtxError (OtherError ("upstream " +:+ upstreamId h +:+ ": " +:+ text))).

(** [None] is a panic of the parser. *)
Definition receiveWholeResponse (h : HttpConnector) (request : RequestHolder) (reply : HttpReply) (w : W)
    : option ResponseHolder :=
  match reply_err reply with
  | Some _ =>
    Some match ctx_text w with
         | Some text => ctx_failure h request text
         | None => NewPartialFailure (request_Id request) (request_RequestType request)
                     (ServerErrorWithCause (OtherError ("unable to read response from upstream " +:+ upstreamId h)))
         end
  | None =>
    response ← NewHttpUpstreamResponse (request_Id request) (reply_text reply) (StatusCode reply)
                 (request_RequestType request);
    Some match response with
         | GenericResponse g =>
           GenericResponse (mkGenericResponse (g_id g) (g_result g) (g_error g) (g_requestType g) (g_stream g)
             (g_responseCode g) (filterResponseHeaders h (reply_header reply)))
         | other => other
         end
  end.

Definition dispatch (h : HttpConnector) (request : RequestHolder) (req : OutRequest) (allowStream : string -> bool) (w : W)
    : option ResponseHolder * W :=
  let '(answer, w) := http_Do req w in
  (match answer with
   | inl _ =>
     Some match ctx_text w with
          | Some text => ctx_failure h request text
          | None => NewPartialFailure (request_Id request) (request_RequestType request)
                      (ServerErrorWithCause (OtherError ("upstream " +:+ upstreamId h +:+ " request failed")))
          end
   | inr reply =>
     if request_IsStream request && isSuccessStatus (StatusCode reply) && negb (bool_decide (is_Some quorum)) &&
        allowStream (reply_text reply)
     then Some (GenericResponse (mkGenericResponse (request_Id request) "" None (request_RequestType request)
            (Some (reply_text reply)) 0 (filterResponseHeaders h (reply_header reply))))
     else receiveWholeResponse h request reply w
   end, w).

Definition invalid_url (h : HttpConnector) (request : RequestHolder) : ResponseHolder :=
  clientFailure request (OtherError ("invalid url for upstream " +:+ upstreamId h)).

(** The URL with the parameters of the quorum. *)
Definition quorum_url (url : string) : option string :=
  match quorum with None => Some url | Some p => appendQuery url (EncodeQuery p) end.

Definition body_failure (request : RequestHolder) (err : GoError) : ResponseHolder :=
  clientFailure request (OtherError ("error parsing a request body: " +:+ error_text err)).
Definition request_failure (request : RequestHolder) (text : string) : ResponseHolder :=
  clientFailure request (OtherError ("error creating an http request: " +:+ text)).

Definition sendJsonRpc (h : HttpConnector) (request : RequestHolder) (w : W) : option ResponseHolder * W :=
  match request_Body request with
  | inl err => (Some (body_failure request err), w)
  | inr body =>
    match quorum_url (endpoint h) with
    | None => (Some (invalid_url h request), w)
    | Some url =>
      match new_request "POST" url with
      | Some text => (Some (request_failure request text), w)
      | None => dispatch h request (mkOutRequest "POST" url (applyConfigHeaders h ∅) body) jsonRpcCanStream w
      end
    end
  end.

(** The target of a REST call: the template with its parameters, the client's query
    and the quorum. *)
Definition rest_target (h : HttpConnector) (params : option RequestParams) (path : string) : option string :=
  let target := joinEndpointAndPath (endpoint h) path in
  target ← match params with
           | Some rp => if bool_decide (rp_QueryParams rp = ∅) then Some target
                        else appendQuery target (encodeMultiValuedQuery (rp_QueryParams rp))
           | None => Some target
           end;
  quorum_url target.

Definition rest_headers (h : HttpConnector) (params : option RequestParams) (body : string) : Header :=
  let header := applyConfigHeaders h ∅ in
  match params with Some rp => applyClientHeaders h (rp_Headers rp) body header | None => header end.

(** The request of a REST call, or the failure it ends with. *)
Definition prepareRest (h : HttpConnector) (request : RequestHolder) : ResponseHolder + OutRequest :=
  match request with
  | JsonRpcRequest _ => inl (clientFailure request (OtherError "rest connector received a non-rest request"))
  | RestRequest u =>
    let pathParams := match ur_params u with Some rp => rp_PathParams rp | None => [] end in
    match BuildRestURL (ur_method u) pathParams with
    | None =>
      inl (clientFailure request (OtherError ("rest template " +:+ Quote (ur_method u) +:+
        " needs more path params than provided (" +:+ pretty (Z.of_nat (length pathParams)) +:+ ")")))
    | Some (verb, path) =>
      if bool_decide (verb = "") || bool_decide (path = "")
      then inl (clientFailure request (OtherError "no method and url path specified for an http request"))
      else match rest_target h (ur_params u) path with
           | None => inl (invalid_url h request)
           | Some target =>
             match request_Body request with
             | inl err => inl (body_failure request err)
             | inr body =>
               match new_request verb target with
               | Some text => inl (request_failure request text)
               | None => inr (mkOutRequest verb target (rest_headers h (ur_params u) body) body)
               end
             end
           end
    end
  end.

Definition sendRest (h : HttpConnector) (request : RequestHolder) (w : W) : option ResponseHolder * W :=
  match prepareRest h request with
  | inl failure => (Some failure, w)
  | inr out => dispatch h request out (fun _ => true) w
  end.

Definition SendRequest (h : HttpConnector) (request : RequestHolder) (w : W) : option ResponseHolder * W :=
  match connectorType h with
  | JsonRpcConnector => sendJsonRpc h request w
  | TendermintConnector =>
    if bool_decide (request_RequestType request = JsonRpc) then sendJsonRpc h request w else sendRest h request w
  | _ => sendRest h request w
  end.

(** [WsConnector.SendRequest], of the answer of the websocket. *)
Definition ws_SendRequest (request : RequestHolder) (answer : string + string * option ResponseError) : ResponseHolder :=
  match answer with
  | inl err => NewTotalFailure (request_Id request) (request_RequestType request)
                 (ServerErrorWithCause (OtherError ("unable to get a response via ws - " +:+ err)))
  | inr (message, error) => WsJsonRpcResponse (request_Id request) message error
  end.
End Connector.

(** ** Responses carry the id of their request *)

Section Tagged.
Context `{MR : MapRange} `{JS : Json} `{MP : MethodParsers} `{HA : Hashing} `{QU : Quoting} `{UL : UrlLib}.
Context {W : Type} `{HC : HttpClient W}.
Context (quorum : option Params) (canStream : string -> bool).

Lemma parsed_id id body code t response : NewHttpUpstreamResponse id body code t = Some response -> response_Id response = id.
Proof using Type.
  unfold NewHttpUpstreamResponse. intros (g & Hg & ->)%fmap_Some. destruct t; try done.
  - by injection Hg as <-.
  - unfold parseJsonRpcBody in Hg. apply fmap_Some in Hg as ([e result] & _ & ->). done.
Qed.

Lemma received_id h request reply (w : W) response :
  receiveWholeResponse h request reply w = Some response -> response_Id response = request_Id request.
Proof using Type.
  unfold receiveWholeResponse. destruct (reply_err reply).
  - destruct (ctx_text w); by intros [= <-].
  - destruct (NewHttpUpstreamResponse _ _ _ _) as [r|] eqn:E; [|done]. cbn [mbind option_bind]. apply parsed_id in E.
    intros [= <-]. by destruct r.
Qed.

Lemma dispatched_id h request req allow (w : W) response w' :
  dispatch quorum h request req allow w = (Some response, w') -> response_Id response = request_Id request.
Proof using Type.
  unfold dispatch. destruct (http_Do req w) as [[err|reply] w1].
  - destruct (ctx_text w1); by intros [= <- <-].
  - destruct (_ && _); [by intros [= <- <-]|]. intros [= Hr <-]. by eapply received_id.
Qed.

Lemma prepareRest_id h request failure :
  prepareRest quorum h request = inl failure -> response_Id failure = request_Id request.
Proof using Type.
  unfold prepareRest. destruct request as [u|u]; [by intros [= <-]|].
  destruct (BuildRestURL _ _) as [[verb path]|]; [|by intros [= <-]]. destruct (_ || _); [by intros [= <-]|].
  destruct (rest_target _ _ _ _); [|by intros [= <-]]. destruct (request_Body _); [by intros [= <-]|].
  destruct (new_request _ _); by intros [= <-].
Qed.

Lemma SendRequest_id h request (w : W) response w' :
  SendRequest quorum canStream h request w = (Some response, w') -> response_Id response = request_Id request.
Proof using Type.
  assert (forall (w : W) response w', sendJsonRpc quorum canStream h request w = (Some response, w') ->
    response_Id response = request_Id request) as Hj.
  { clear. intros w response w'. unfold sendJsonRpc. destruct (request_Body request); [by intros [= <- <-]|].
    destruct (quorum_url _ _); [|by intros [= <- <-]]. destruct (new_request _ _); [by intros [= <- <-]|]. apply dispatched_id. }
  assert (forall (w : W) response w', sendRest quorum h request w = (Some response, w') ->
    response_Id response = request_Id request) as Hr.
  { clear. intros w response w'. unfold sendRest.
    destruct (prepareRest _ _ request) as [failure|out] eqn:E; [|apply dispatched_id]. intros [= <- <-].
    by apply prepareRest_id in E. }
  unfold SendRequest. destruct (connectorType h); try apply Hr; [apply Hj|]. case_bool_decide; [apply Hj|apply Hr].
Qed.
End Tagged.

(** ** Headers *)

Section Isolation.
Context `{MR : MapRange} `{MP : MethodParsers}.

(** Keys of the configured headers are canonical. *)
Definition canonical_keys (m : gmap string string) : Prop := forall k v, m !! k = Some v -> CanonicalHeaderKey k = k.

Lemma canonicalizeHeaders_keys headers : canonical_keys (canonicalizeHeaders headers).
Proof using Type.
  unfold canonicalizeHeaders. assert (canonical_keys ∅) as H0 by (intros k v Hk; by rewrite lookup_empty in Hk).
  revert H0. generalize (∅ : gmap string string) as out. induction (range headers) as [|[k v] l IH]; intros out Hout; [done|].
  apply IH. intros k' v'. rewrite lookup_insert_Some. intros [[<- _]|[_ Hk]]; [apply canonical_idemp|by eapply Hout].
Qed.

(** What the header of an outgoing request satisfies: [client] are the client's. *)
Record isolated (cfg : gmap string string) (client : gmap string (list string)) (out : Header) : Prop := mkIsolated {
  iso_config : forall k v, cfg !! k = Some v -> out !! k = Some [v];
  iso_denied : forall k, k ∈ defaultRequestHeaderDeny -> cfg !! k = None -> out !! k = None;
  iso_content : exists v, out !! contentTypeHeader = Some [v];
  iso_origin : forall k vs v, out !! k = Some vs -> v ∈ vs ->
    cfg !! k = Some v \/ k = contentTypeHeader \/
    exists k0 vs0, client !! k0 = Some vs0 /\ CanonicalHeaderKey k0 = k /\ v ∈ vs0;
}.

Lemma content_type_not_denied : contentTypeHeader ∉ defaultRequestHeaderDeny.
Proof using Type. apply (bool_decide_unpack _). vm_compute. exact I. Qed.

Lemma config_fold cfg l (out : Header) :
  canonical_keys cfg -> (forall k v, (k, v) ∈ l -> cfg !! k = Some v) ->
  forall k, foldl (fun header '(k, v) => header_Set k v header) out l !! k =
    if bool_decide (k ∈ map fst l) then (fun v => [v]) <$> cfg !! k else out !! k.
Proof using Type.
  intros Hc. revert out. induction l as [|[k1 v1] l IH]; intros out Hl k; cbn [foldl map].
  { by rewrite bool_decide_eq_false_2 by apply not_elem_of_nil. }
  assert (cfg !! k1 = Some v1) as H1 by (apply Hl; by left).
  rewrite IH by (intros k' v' Hin; apply Hl; by right). destruct (decide (k ∈ map fst l)) as [Hin|Hni].
  - rewrite !bool_decide_eq_true_2 by (done || by right). done.
  - rewrite (bool_decide_eq_false_2 _ Hni). unfold header_Set. rewrite (Hc k1 v1 H1). destruct (decide (k = k1)) as [-> |Hne].
    + rewrite lookup_insert_eq, bool_decide_eq_true_2 by (by left). by rewrite H1.
    + rewrite lookup_insert_ne by done. rewrite bool_decide_eq_false_2; [done|]. by intros [?|?]%elem_of_cons.
Qed.

Lemma config_headers_lookup h k :
  canonical_keys (additionalHeaders h) ->
  applyConfigHeaders h ∅ !! k =
  match additionalHeaders h !! k with
  | Some v => Some [v]
  | None => if bool_decide (k = contentTypeHeader) then Some ["application/json"] else None
  end.
Proof using Type.
  intros Hc. unfold applyConfigHeaders. rewrite (config_fold (additionalHeaders h)); [|done|by intros k' v'; rewrite elem_of_range].
  destruct (additionalHeaders h !! k) as [v|] eqn:E.
  - rewrite bool_decide_eq_true_2; [done|]. apply list_elem_of_fmap. exists (k, v). by rewrite elem_of_range.
  - rewrite bool_decide_eq_false_2.
    + unfold header_Set. change (CanonicalHeaderKey "Content-Type") with contentTypeHeader.
      case_bool_decide as Hk; [subst; by rewrite lookup_insert_eq|]. by rewrite lookup_insert_ne by done.
    + intros ([k' v'] & -> & Hin)%list_elem_of_fmap. apply elem_of_range in Hin. simpl in E. congruence.
Qed.

Lemma config_isolated h client : canonical_keys (additionalHeaders h) -> isolated (additionalHeaders h) client (applyConfigHeaders h ∅).
Proof using Type.
  intros Hc. constructor.
  - intros k v Hk. by rewrite config_headers_lookup, Hk by done.
  - intros k Hk Hn. rewrite config_headers_lookup, Hn by done. rewrite bool_decide_eq_false_2; [done|].
    intros ->. by apply content_type_not_denied.
  - rewrite config_headers_lookup by done. rewrite bool_decide_eq_true_2 by done.
    destruct (additionalHeaders h !! contentTypeHeader); by eexists.
  - intros k vs v. rewrite config_headers_lookup by done. destruct (additionalHeaders h !! k) as [v'|].
    + intros [= <-] ->%list_elem_of_singleton. by left.
    + case_bool_decide; [|done]. subst. intros _ _. right. by left.
Qed.

(** Adding values under a key that is neither configured nor denied. *)
Lemma add_values_lookup k vs (out : Header) k' :
  foldl (fun header v => header_Add k v header) out vs !! k' =
  if bool_decide (vs <> [] /\ k' = CanonicalHeaderKey k) then Some (default [] (out !! k') ++ vs) else out !! k'.
Proof using Type.
  revert out. induction vs as [|v vs IH]; intros out; cbn [foldl].
  { by rewrite bool_decide_eq_false_2 by (by intros [? _]). }
  rewrite IH. unfold header_Add. destruct (decide (k' = CanonicalHeaderKey k)) as [-> |Hne].
  - rewrite (bool_decide_eq_true_2 (v :: vs <> [] /\ _)) by done. rewrite lookup_insert_eq. cbn [default from_option].
    case_bool_decide as Hv; [unfold id; by rewrite <- app_assoc|]. destruct vs; [done|]. by destruct Hv.
  - rewrite lookup_insert_ne by done. rewrite !bool_decide_eq_false_2 by (by intros [_ ?]). done.
Qed.

Lemma client_header_isolated h client body out k vs :
  client !! k = Some vs -> isolated (additionalHeaders h) client out ->
  isolated (additionalHeaders h) client (apply_client_header h body out (k, vs)).
Proof using Type.
  intros Hk Hi. unfold apply_client_header. case_bool_decide as Hd; [done|]. case_bool_decide as Ht; [done|].
  apply eq_None_not_Some in Ht. destruct vs as [|v0 vs]; [done|]. destruct Hi as [Hc Hn [ct Hct] Ho].
  case_bool_decide as Hct'.
  - destruct (clientContentTypeWins v0 body); [|by constructor; [..|by exists ct|]].
    unfold header_Set. rewrite canonical_idemp. constructor.
    + intros k' v' Hk'. rewrite lookup_insert_ne by congruence. by apply Hc.
    + intros k' Hk' Hnk. rewrite lookup_insert_ne by congruence. by apply Hn.
    + exists v0. by rewrite Hct', lookup_insert_eq.
    + intros k' vs' v'. rewrite lookup_insert_Some. intros [[<- <-]|[_ Hk']]; [intros ->%list_elem_of_singleton; by (right; left)|by eauto].
  - constructor.
    + intros k' v' Hk'. rewrite add_values_lookup, bool_decide_eq_false_2; [by apply Hc|]. intros [_ ->]. congruence.
    + intros k' Hk' Hnk. rewrite add_values_lookup, bool_decide_eq_false_2; [by apply Hn|]. intros [_ ->]. done.
    + exists ct. by rewrite add_values_lookup, bool_decide_eq_false_2 by (by intros [_ ?]).
    + intros k' vs' v'. rewrite add_values_lookup. case_bool_decide as Hc'; [|by eauto]. destruct Hc' as [_ ->].
      intros [= <-] [Hv|Hv]%elem_of_app; [|right; right; by exists k, (v0 :: vs)].
      destruct (out !! CanonicalHeaderKey k) as [old|] eqn:Eo; [by eapply Ho|by apply elem_of_nil in Hv].
Qed.

Lemma rest_headers_isolated h params body :
  canonical_keys (additionalHeaders h) ->
  isolated (additionalHeaders h) (match params with Some rp => rp_Headers rp | None => ∅ end) (rest_headers h params body).
Proof using Type.
  intros Hc. unfold rest_headers. destruct params as [rp|]; [|by apply config_isolated].
  unfold applyClientHeaders. assert (forall kv, kv ∈ range (rp_Headers rp) -> rp_Headers rp !! kv.1 = Some kv.2) as Hl
    by (intros [k vs]; apply elem_of_range).
  generalize (config_isolated h (rp_Headers rp) Hc). revert Hl. generalize (applyConfigHeaders h ∅) as out.
  induction (range (rp_Headers rp)) as [|[k vs] l IH]; intros out Hl Hi; [done|]. cbn [foldl]. apply IH.
  - intros kv Hin. apply Hl. by right.
  - apply client_header_isolated; [|done]. apply (Hl (k, vs)). by left.
Qed.

Lemma filtered_not_denied h src k vs :
  filterResponseHeaders h src !! k = Some vs -> src !! k = Some vs /\ CanonicalHeaderKey k ∉ deniedResponseHeaders h.
Proof using Type. unfold filterResponseHeaders. rewrite map_lookup_filter_Some. by intros [? ?]. Qed.
End Isolation.

Section Safe.
Context `{MR : MapRange} `{JS : Json} `{MP : MethodParsers} `{HA : Hashing} `{QU : Quoting} `{UL : UrlLib}.
Context {W : Type} `{HC : HttpClient W}.
Context (quorum : option Params).

(** The headers of a response are the filtered ones of the reply, or there are none. *)
Lemma dispatch_headers h request out allow (w : W) response w' headers :
  dispatch quorum h request out allow w = (Some response, w') -> ResponseHeaders response = Some headers ->
  exists reply, http_Do out w = (inr reply, w') /\ headers = filterResponseHeaders h (reply_header reply).
Proof using Type.
  unfold dispatch. destruct (http_Do out w) as [[err|reply] w1]; intros [= Hr <-] Hh.
  - subst response. by destruct (ctx_text w1).
  - exists reply. split; [done|]. destruct (_ && _) in Hr; [injection Hr as <-; by injection Hh as <-|].
    unfold receiveWholeResponse in Hr. destruct (reply_err reply); [destruct (ctx_text w1); by injection Hr as <-|].
    destruct (NewHttpUpstreamResponse _ _ _ _) as [r|] eqn:E; [|done]. injection Hr as <-.
    unfold NewHttpUpstreamResponse in E. apply fmap_Some in E as (g & _ & ->). by injection Hh as <-.
Qed.

Lemma prepared_headers h u out :
  prepareRest quorum h (RestRequest u) = inr out -> exists body, out_header out = rest_headers h (ur_params u) body.
Proof using Type.
  unfold prepareRest. destruct (BuildRestURL _ _) as [[verb path]|]; [|done]. destruct (_ || _); [done|].
  destruct (rest_target _ _ _ _); [|done]. destruct (request_Body _) as [|body]; [done|].
  destruct (new_request _ _); [done|]. intros [= <-]. by exists body.
Qed.
End Safe.

(** C10.  Whatever a client puts into its headers, the request an upstream receives
    has every configured header with its configured value, none of the headers
    that belong to the connection between the two, one content type, and beyond
    these only what the client sent; and the client receives none of the headers
    the connector denies, in whatever case they are written. *)
Theorem headers_isolated {W : Type} `{MapRange} `{Json} `{MethodParsers} `{Hashing} `{Quoting} `{UrlLib} `{HttpClient W}
    quorum cfg t id u out :
  let h := NewHttpConnector cfg t id in
  prepareRest quorum h (RestRequest u) = inr out ->
  (forall k v, additionalHeaders h !! k = Some v -> out_header out !! k = Some [v]) /\
  (forall k, k ∈ defaultRequestHeaderDeny -> additionalHeaders h !! k = None -> out_header out !! k = None) /\
  (exists v, out_header out !! contentTypeHeader = Some [v]) /\
  (forall k vs v, out_header out !! k = Some vs -> v ∈ vs ->
     additionalHeaders h !! k = Some v \/ k = contentTypeHeader \/
     exists rp k0 vs0, ur_params u = Some rp /\ rp_Headers rp !! k0 = Some vs0 /\ CanonicalHeaderKey k0 = k /\ v ∈ vs0) /\
  forall (w : W) response w' headers k vs,
    sendRest quorum h (RestRequest u) w = (Some response, w') ->
    ResponseHeaders response = Some headers -> headers !! k = Some vs ->
    (CanonicalHeaderKey k ∉ map CanonicalHeaderKey (defaultResponseHeaderDeny ++ c_ResponseHeaderDeny cfg)) /\
    exists reply, http_Do out w = (inr reply, w') /\ reply_header reply !! k = Some vs.
Proof.
  intros h Hout. destruct (prepared_headers _ _ _ _ Hout) as [body Hb].
  destruct (rest_headers_isolated h (ur_params u) body (canonicalizeHeaders_keys _)) as [I1 I2 I3 I4].
  rewrite Hb. split_and!; [done..| |].
  - intros k vs v Hk Hv. destruct (I4 k vs v Hk Hv) as [?|[?|(k0 & vs0 & Hc & ? & ?)]]; [by left|by (right; left)|].
    right; right. destruct (ur_params u) as [rp|]; [by exists rp, k0, vs0|by rewrite lookup_empty in Hc].
  - intros w response w' headers k vs Hs Hr Hk. unfold sendRest in Hs. rewrite Hout in Hs.
    destruct (dispatch_headers _ _ _ _ _ _ _ _ _ Hs Hr) as (reply & Hdo & ->).
    apply filtered_not_denied in Hk as [Hk Hd]. split; [|by exists reply].
    cbn [h NewHttpConnector deniedResponseHeaders] in Hd. unfold buildDeniedResponseHeaders in Hd.
    by rewrite elem_of_list_to_set in Hd.
Qed.

(** ** A small upstream *)

#[local] Instance sample_url : UrlLib := {
  URL := string; url_Parse s := Some s; url_Query _ := ∅; set_RawQuery q u := u +:+ "?" +:+ q;
  url_String u := u; url_ParseQuery _ := Some ∅ }.
#[local] Instance sample_hashing : Hashing := { blake2b s := s; encode_query _ := "" }.
#[local] Instance sample_quoting : Quoting := fun s => s.
#[local] Instance sample_parsers : MethodParsers := no_parsers (fun _ _ params => inr params).

(** The transport refuses a target with an incomplete escape, and quotes it. *)
#[local] Instance sample_client : HttpClient unit := {
  new_request _ url := if Contains url "%" then Some ("parse " +:+ quoted url +:+ ": invalid URL escape") else None;
  http_Do _ w := (inr (mkHttpReply 200 {[ "Set-Cookie" := ["s"]; "X-Served" := ["1"] ]} "{}" None), w);
  ctx_text _ := None }.

Definition sample_config : ApiConnectorConfig :=
  mkConnectorConfig "rest" "https://node/v1?key=secret" {[ "authorization" := "token" ]} "" [].
#[local] Existing Instance Prelude.default_range.

Definition sample_connector : HttpConnector := NewHttpConnector sample_config RestConnector "up1".
Definition sample_rest (path : list string) : UpstreamRestRequest :=
  mkRestRequest "1" "GET#/accounts/*" None ""
    (Some (mkRequestParams {[ "Authorization" := ["mine"]; "Connection" := ["close"]; "X-A" := ["a"] ]} ∅ path)) None [] false.

Definition sample_out : OutRequest :=
  match prepareRest None sample_connector (RestRequest (sample_rest ["abc"])) with
  | inr out => out
  | inl _ => mkOutRequest "" "" ∅ ""
  end.

Example sample_prepared :
  prepareRest None sample_connector (RestRequest (sample_rest ["abc"])) = inr sample_out /\
  out_url sample_out = "https://node/v1/accounts/abc?key=secret" /\
  additionalHeaders sample_connector !! "Authorization" = Some "token" /\ out_header sample_out !! "X-A" = Some ["a"].
Proof. vm_compute. split_and!; reflexivity. Qed.

#[local] Existing Instance Responses.demo_json.

Lemma headers_isolated_witness :
  out_header sample_out !! "Authorization" = Some ["token"] /\ out_header sample_out !! "X-A" = Some ["a"].
Proof.
  destruct sample_prepared as (Hp & _ & Ha & Hx).
  destruct (headers_isolated None sample_config RestConnector "up1" (sample_rest ["abc"]) sample_out Hp) as (H1 & _).
  split; [exact (H1 "Authorization" "token" Ha)|exact Hx].
Defined.

(** ** What an error tells the client *)

(** A path parameter that makes the target no URL comes back to the client with the
    whole target, the credentials of the endpoint included. *)
Lemma bad_path_returns_target :
  exists response e, (sendRest None sample_connector (RestRequest (sample_rest ["%zz"])) tt).1 = Some response /\
    GetError response = Some e /\ Contains (Message e) "https://node/v1/accounts/%zz?key=secret" = true.
Proof. eexists _, _. vm_compute. split_and!; reflexivity. Qed.
