(* ===== verification/WsProcessor.v ===== *)
(** The websocket connection to a node: the session ([internal/upstreams/ws/session.go]),
    the frames of JSON-RPC requests ([ws_protocol.go]) and the loop that owns the
    connection ([ws_processor.go]).

    The loop, the readers of connections and the callers that write frames are
    steps on the shared state; the calls the loop makes to the request registry
    ([WsRegistry]) are recorded in order.  What a message was read from is recorded
    with it: the code does not keep it. *)

From Stdlib Require Import Ascii.
From S2P Require Import Prelude GoStrings GoHttp Protocol Errors Responses Specs.
From S2P Require Import Requests WsRegistry.

(** ** Frames *)

(** Outside the source: the JSON tree of a body ([sonic/ast]): the object with
    another id, its text, and the first parameter when it is a string. *)
Class JsonAst := {
  ast_valid : string -> option string;
  ast_set_id : Z -> string -> string + string;
  ast_first_string_param : string -> option string;
}.

Record RequestFrame := mkRequestFrame { RequestId : string; SubType : string; Body : string }.

Definition errNonUtf8SubType : string := "subscription type is not a valid utf-8 string".

(** The text of a string node has its quotes; shorter texts fall through. *)
Definition eth_sub_type `{JsonAst} (jsonBody : string) : option string :=
  sub ← ast_first_string_param jsonBody;
  if 2 <=? Z.of_nat (String.length sub) then go_slice 1 (Z.of_nat (String.length sub) - 1) sub else None.

Definition getSubscription `{JsonAst} (jsonBody : string) (request : RequestHolder) : string + string :=
  if negb (request_IsSubscribe request) then inr ""
  else if bool_decide (request_Method request = "eth_subscribe") then
    match eth_sub_type jsonBody with
    | Some subType => if ValidString subType then inr subType else inl errNonUtf8SubType
    | None => inr (request_Method request)
    end
  else inr (request_Method request).

(** The frame and the next internal id. *)
Definition protocol_RequestFrame `{MapRange} `{Json} `{MethodParsers} `{JsonAst} (internalId : Z) (request : RequestHolder)
    : (string + RequestFrame) * Z :=
  match request_Body request with
  | inl err => (inl ("couldn't parse a request body, cause - " +:+ error_text err), internalId)
  | inr body =>
    match ast_valid body with
    | Some err => (inl ("invalid json-rpc request, cause - " +:+ err), internalId)
    | None =>
      let nextId := i64 (internalId + 1) in
      (match ast_set_id nextId body with
       | inl err => inl ("couldn't replace an id, cause - " +:+ err)
       | inr jsonBody =>
         match getSubscription jsonBody request with
         | inl err => inl ("couldn't get a subscription type, cause - " +:+ err)
         | inr subType => inr (mkRequestFrame (pretty nextId) subType jsonBody)
         end
       end, nextId)
    end
  end.

(** [None]: a panic of the parser. *)
Definition ParseWsMessage `{Json} (payload : string) : option (string + WsResponse) :=
  r ← ParseJsonRpcWsMessage payload;
  Some (match ws_Type r with
        | JsonRpc | Ws => inr r
        | _ => inl "invalid response type"
        end).

(** The frame that ends a subscription, when there is one to end. *)
Definition unsubscribe_frame (reg : Registry) (methodSpec : string) (o : GenericRequestOp) : option (string * string) :=
  if bool_decide (op_subIdAsBytes o = "") then None
  else unsubMethod ← GetUnsubscribeMethod reg methodSpec (op_method o);
       Some (unsubMethod, "[" +:+ op_subIdAsBytes o +:+ "]").

(** ** The session *)

Record WebsocketSession := mkSession {
  ss_connection : option nat;
  ss_connClosed : bool;
  ss_generation : Z;
}.

Definition NewWebsocketSession : WebsocketSession := mkSession None true 0.

Definition SetConnection (conn : nat) (s : WebsocketSession) : WebsocketSession :=
  mkSession (Some conn) false (u64 (ss_generation s + 1)).

Definition CloseCurrent (s : WebsocketSession) : WebsocketSession := mkSession (ss_connection s) true (ss_generation s).

(** The write of a frame; [socket] is the error of the socket. *)
Definition session_WriteMessage (endpoint : string) (socket : option string) (s : WebsocketSession) : option string :=
  if ss_connClosed s then Some ("no connection to " +:+ endpoint) else socket.

(** ** The loop *)

Inductive SubscribeConnectorState := WsDisconnected | WsConnected.
#[export] Instance SubscribeConnectorState_eq_dec : EqDecision SubscribeConnectorState.
Proof. solve_decision. Defined.

Inductive wsReadEvent :=
| wsDisconnectEvent (reason : string) (generation : Z)
| readEvent (response : WsResponse) (source : Z).

(** A request to write: the caller's number, and the body. *)
Record wsWriteEvent := mkWriteEvent { we_caller : nat; we_body : string }.

(** A reader of one connection. *)
Record Reader := mkReader { rd_generation : Z; rd_alive : bool }.

Inductive registryCall :=
| OnRpcMessage (response : WsResponse) (source : Z)
| OnSubscriptionMessage (response : WsResponse) (source : Z)
| CancelAll.

Record GenericWsProcessor := mkProcessor {
  wsSession : WebsocketSession;
  readEventsChan : list wsReadEvent;
  writeEventsChan : list wsWriteEvent;
  writeResults : list (nat * option string);
  published : list SubscribeConnectorState;
  registryCalls : list registryCall;
  readers : list Reader;
  dials : nat;
  stopped : bool;
}.

Definition NewGenericWsProcessor : GenericWsProcessor :=
  mkProcessor NewWebsocketSession [] [] [] [] [] [] 0 false.

Definition eventsSize : Z := 100.

(** [disconnect]: the connection is closed and every operation cancelled. *)
Definition disconnect (p : GenericWsProcessor) : GenericWsProcessor :=
  mkProcessor (CloseCurrent (wsSession p)) (readEventsChan p) (writeEventsChan p) (writeResults p) (published p)
    (registryCalls p ++ [CancelAll]) (readers p) (dials p) (stopped p).

Definition publish (st : SubscribeConnectorState) (p : GenericWsProcessor) : GenericWsProcessor :=
  mkProcessor (wsSession p) (readEventsChan p) (writeEventsChan p) (writeResults p) (published p ++ [st])
    (registryCalls p) (readers p) (dials p) (stopped p).

Definition stop (p : GenericWsProcessor) : GenericWsProcessor :=
  mkProcessor (wsSession p) (readEventsChan p) (writeEventsChan p) (writeResults p) (published p)
    (registryCalls p) (readers p) (dials p) true.

(** The session is open after a successful dial, and its reader is started. *)
Definition openSession (p : GenericWsProcessor) : GenericWsProcessor :=
  mkProcessor (SetConnection (dials p) (wsSession p)) (readEventsChan p) (writeEventsChan p) (writeResults p) (published p)
    (registryCalls p) (readers p) (S (dials p)) (stopped p).

Definition startReader (p : GenericWsProcessor) : GenericWsProcessor :=
  if ss_connClosed (wsSession p) then p
  else mkProcessor (wsSession p) (readEventsChan p) (writeEventsChan p) (writeResults p) (published p)
    (registryCalls p) (readers p ++ [mkReader (ss_generation (wsSession p)) true]) (dials p) (stopped p).

Definition call_registry (c : registryCall) (p : GenericWsProcessor) : GenericWsProcessor :=
  mkProcessor (wsSession p) (readEventsChan p) (writeEventsChan p) (writeResults p) (published p)
    (registryCalls p ++ [c]) (readers p) (dials p) (stopped p).

Definition on_read_event (e : wsReadEvent) (p : GenericWsProcessor) : GenericWsProcessor :=
  match e with
  | wsDisconnectEvent _ generation =>
    if negb (generation =? ss_generation (wsSession p)) then p else publish WsDisconnected (disconnect p)
  | readEvent response source =>
    match ws_Type response with
    | JsonRpc => call_registry (OnRpcMessage response source) p
    | Ws => call_registry (OnSubscriptionMessage response source) p
    | _ => disconnect p
    end
  end.

(** The two halves of an iteration: at the top a closed session is opened (or the
    context ends meanwhile); then one event is taken. *)
Inductive loop_action :=
| LConnected
| LStopped
| LRead
| LWrite (expired socket : option string)
| RMessage (reader : nat) (payload : string)
| RFailed (reader : nat) (reason : string)
| CWrite (caller : nat) (body : string).

Definition push_read (e : wsReadEvent) (p : GenericWsProcessor) : option GenericWsProcessor :=
  if Z.of_nat (length (readEventsChan p)) <? eventsSize
  then Some (mkProcessor (wsSession p) (readEventsChan p ++ [e]) (writeEventsChan p) (writeResults p) (published p)
               (registryCalls p) (readers p) (dials p) (stopped p))
  else None.

Definition reader_gone (i : nat) (p : GenericWsProcessor) : GenericWsProcessor :=
  mkProcessor (wsSession p) (readEventsChan p) (writeEventsChan p) (writeResults p) (published p)
    (registryCalls p) (alter (fun r => mkReader (rd_generation r) false) i (readers p)) (dials p) (stopped p).

(** One message of a reader: a message that does not parse ends it. *)
Definition reader_message `{Json} (i : nat) (r : Reader) (payload : string) (p : GenericWsProcessor)
    : option GenericWsProcessor :=
  parsed ← ParseWsMessage payload;
  match parsed with
  | inl _ => push_read (wsDisconnectEvent "couldn't parse ws message" (rd_generation r)) (reader_gone i p)
  | inr response => push_read (readEvent response (rd_generation r)) p
  end.

Definition loop_step `{Json} (endpoint : string) (a : loop_action) (p : GenericWsProcessor) : option GenericWsProcessor :=
  match a with
  | LConnected =>
    if stopped p || negb (ss_connClosed (wsSession p)) then None
    else Some (startReader (publish WsConnected (openSession p)))
  | LStopped => if stopped p then None else Some (stop (disconnect p))
  | LRead =>
    if stopped p || ss_connClosed (wsSession p) then None
    else match readEventsChan p with
    | [] => None
    | e :: rest =>
      Some (on_read_event e (mkProcessor (wsSession p) rest (writeEventsChan p) (writeResults p) (published p)
        (registryCalls p) (readers p) (dials p) (stopped p)))
    end
  | LWrite expired socket =>
    if stopped p || ss_connClosed (wsSession p) then None
    else match writeEventsChan p with
    | [] => None
    | w :: rest =>
      let result := match expired with Some err => Some err | None => session_WriteMessage endpoint socket (wsSession p) end in
      Some (mkProcessor (wsSession p) (readEventsChan p) rest (writeResults p ++ [(we_caller w, result)]) (published p)
        (registryCalls p) (readers p) (dials p) (stopped p))
    end
  | RMessage i payload =>
    r ← readers p !! i;
    if rd_alive r then reader_message i r payload p else None
  | RFailed i reason =>
    r ← readers p !! i;
    if rd_alive r then push_read (wsDisconnectEvent reason (rd_generation r)) (reader_gone i p) else None
  | CWrite caller body =>
    if Z.of_nat (length (writeEventsChan p)) <? eventsSize
    then Some (mkProcessor (wsSession p) (readEventsChan p) (writeEventsChan p ++ [mkWriteEvent caller body])
                 (writeResults p) (published p) (registryCalls p) (readers p) (dials p) (stopped p))
    else None
  end.

Fixpoint loop_steps `{Json} (endpoint : string) (l : list loop_action) (p : GenericWsProcessor) : option GenericWsProcessor :=
  match l with
  | [] => Some p
  | a :: l => p' ← loop_step endpoint a p; loop_steps endpoint l p'
  end.

(** ** Requests over the connection

    What a caller sees of the channel of its operation. *)
Inductive Waited := GotResponse (response : WsResponse) | ChannelClosed | ContextDone (err : string) | TimedOut.

Definition SendRpcRequest (method : string) (written : option string) (waited : Waited) : string + WsResponse :=
  match written with
  | Some err => inl err
  | None =>
    match waited with
    | GotResponse response => inr response
    | ChannelClosed => inl ("no response on method " +:+ method +:+ " via ws")
    | ContextDone err => inl ("no response on method " +:+ method +:+ " via ws due to " +:+ err)
    | TimedOut => inl ("no response within 1m0s on method " +:+ method +:+ " via ws")
    end
  end.

Definition SendWsRequest (request : RequestHolder) (send : string + string) : string + string :=
  match SpecMethod request with
  | None => inl ("no spec method found for " +:+ request_Method request)
  | Some m =>
    if negb (IsSubscribe m)
    then inl ("'" +:+ request_Method request +:+
              "' is not subscribe method and it can't be sent via SendWsRequest, use SendRpcRequest instead")
    else send
  end.

(** ** One connection at a time *)

(** The connection whose messages were handed on since the operations were last
    cancelled; [None] outside: two connections were mixed. *)
Definition scan_source (g : Z) (st : option Z) : option (option Z) :=
  match st with
  | None => Some (Some g)
  | Some g' => if g =? g' then Some (Some g) else None
  end.

Definition scan_call (st : option (option Z)) (c : registryCall) : option (option Z) :=
  cur ← st;
  match c with
  | CancelAll => Some None
  | OnRpcMessage _ g | OnSubscriptionMessage _ g => scan_source g cur
  end.

Definition scan_calls (l : list registryCall) : option (option Z) := foldl scan_call (Some None) l.

(** Between two cancellations all messages come from one connection. *)
Definition one_connection (l : list registryCall) : Prop := is_Some (scan_calls l).

Definition state_at (i : nat) : SubscribeConnectorState := if Nat.even i then WsConnected else WsDisconnected.

Definition alternate (l : list SubscribeConnectorState) : Prop := forall i s, l !! i = Some s -> s = state_at i.

Lemma alternate_snoc l s : alternate l -> s = state_at (length l) -> alternate (l ++ [s]).
Proof.
  intros Hl Hs i x [H|[Hle H]]%lookup_app_Some; [by apply Hl|].
  destruct (i - length l)%nat eqn:E; simpl in H; [|done]. simplify_eq. f_equal. lia.
Qed.

Lemma scan_snoc l c : scan_calls (l ++ [c]) = scan_call (scan_calls l) c.
Proof. unfold scan_calls. by rewrite foldl_app. Qed.

(** A message read from the connection with generation [g]. *)
Definition message_from (g : Z) (e : wsReadEvent) : Prop :=
  match e with
  | readEvent r source => source = g /\ (ws_Type r = JsonRpc \/ ws_Type r = Ws)
  | wsDisconnectEvent _ _ => False
  end.

Definition all_gone (l : list Reader) : Prop := forall i r, l !! i = Some r -> rd_alive r = false.

(** While the session is open the queued events are those of its reader, the last
    one its end; otherwise nothing is queued and nobody reads. *)
Definition reading (p : GenericWsProcessor) : Prop :=
  if ss_connClosed (wsSession p) then readEventsChan p = [] /\ all_gone (readers p)
  else exists msgs i r tail, Forall (message_from (ss_generation (wsSession p))) msgs /\
    readEventsChan p = msgs ++ tail /\ readers p !! i = Some r /\ rd_generation r = ss_generation (wsSession p) /\
    (forall j r', j <> i -> readers p !! j = Some r' -> rd_alive r' = false) /\
    if rd_alive r then tail = [] else exists reason, tail = [wsDisconnectEvent reason (ss_generation (wsSession p))].

Record loop_inv (p : GenericWsProcessor) : Prop := {
  li_reading : stopped p = false -> reading p;
  li_published : alternate (published p);
  li_parity : stopped p = false -> ss_connClosed (wsSession p) = Nat.even (length (published p));
  li_calls : exists cur, scan_calls (registryCalls p) = Some cur /\
    (stopped p = false -> cur = None \/ ss_connClosed (wsSession p) = false /\ cur = Some (ss_generation (wsSession p)));
}.

Lemma ParseWsMessage_type `{JS : Json} payload r : ParseWsMessage payload = Some (inr r) -> ws_Type r = JsonRpc \/ ws_Type r = Ws.
Proof.
  unfold ParseWsMessage. intros (x & _ & H)%bind_Some. destruct (ws_Type x) eqn:E; simplify_eq; auto.
Qed.

Lemma connected_inv p : loop_inv p -> stopped p = false -> ss_connClosed (wsSession p) = true ->
  loop_inv (startReader (publish WsConnected (openSession p))).
Proof.
  intros [I1 I2 I3 (cur & Hcur & I4)] Hs Hc. specialize (I1 Hs). specialize (I3 Hs). specialize (I4 Hs).
  unfold reading in I1. rewrite Hc in *. destruct I1 as [Hq Hgone]. split; simpl.
  - intros _. exists [], (length (readers p)), (mkReader (u64 (ss_generation (wsSession p) + 1)) true), []. simpl.
    split; [done|]. split; [done|]. split; [by rewrite lookup_app_r, Nat.sub_diag by lia|]. split; [done|]. split; [|done].
    intros j r' Hj [H|[Hle H]]%lookup_app_Some; [by eapply Hgone|].
    destruct (j - length (readers p))%nat eqn:E; simpl in H; [lia|done].
  - apply alternate_snoc; [done|]. unfold state_at. by rewrite <- I3.
  - intros _. rewrite length_app, Nat.add_comm. simpl length. rewrite Nat.add_1_l, Nat.even_succ, <- Nat.negb_even, <- I3. done.
  - exists cur. split; [done|]. intros _. destruct I4 as [->|[? _]]; [by left|done].
Qed.

Lemma read_inv p e rest : loop_inv p -> stopped p = false -> ss_connClosed (wsSession p) = false ->
  readEventsChan p = e :: rest ->
  loop_inv (on_read_event e (mkProcessor (wsSession p) rest (writeEventsChan p) (writeResults p) (published p)
    (registryCalls p) (readers p) (dials p) (stopped p))).
Proof.
  intros [I1 I2 I3 (cur & Hcur & I4)] Hs Hc He. specialize (I1 Hs). specialize (I3 Hs). specialize (I4 Hs).
  unfold reading in I1. rewrite Hc in *. destruct I1 as (msgs & i & r & tail & Hm & Hq & Hi & Hg & Hoth & Ht).
  rewrite He in Hq. destruct msgs as [|m msgs]; simpl in Hq.
  - destruct (rd_alive r) eqn:Ha; [by subst|]. destruct Ht as [reason ->]. injection Hq as -> ->. simpl.
    rewrite Z.eqb_refl. simpl. split; simpl.
    + intros _. split; [done|]. intros j r' Hj. simpl in Hj. destruct (decide (j = i)) as [->|]; [by simplify_eq|by eapply Hoth].
    + apply alternate_snoc; [done|]. unfold state_at. by rewrite <- I3.
    + intros _. rewrite length_app, Nat.add_comm. simpl length. rewrite Nat.add_1_l, Nat.even_succ, <- Nat.negb_even, <- I3. done.
    + exists None. rewrite scan_snoc, Hcur. split; [done|by left].
  - injection Hq as -> ->. apply Forall_cons in Hm as [Hm Hms]. destruct m as [|resp src]; [done|].
    destruct Hm as [-> Htype].
    assert (forall c, (forall st, scan_call (Some st) c = scan_source (ss_generation (wsSession p)) st) ->
      loop_inv (call_registry c (mkProcessor (wsSession p) (msgs ++ tail) (writeEventsChan p) (writeResults p) (published p)
        (registryCalls p) (readers p) (dials p) (stopped p)))) as Hgo.
    { intros c Hscan. split; simpl; [intros _; unfold reading; simpl; rewrite Hc; by eauto 12|done|by rewrite Hc|].
      exists (Some (ss_generation (wsSession p))). rewrite scan_snoc, Hcur, Hscan. split; [|by auto].
      destruct I4 as [->|[_ ->]]; simpl; [done|]. by rewrite Z.eqb_refl. }
    simpl. destruct Htype as [-> | ->]; by apply Hgo.
Qed.

Lemma disconnect_stop_inv p : loop_inv p -> loop_inv (stop (disconnect p)).
Proof.
  intros [I1 I2 I3 (cur & Hcur & I4)]. split; simpl; [done|done|done|]. exists None. by rewrite scan_snoc, Hcur.
Qed.

(** A step that changes neither the session, the readers nor what was done. *)
Lemma loop_inv_same p p' : wsSession p' = wsSession p -> readEventsChan p' = readEventsChan p ->
  published p' = published p -> registryCalls p' = registryCalls p -> readers p' = readers p -> stopped p' = stopped p ->
  loop_inv p -> loop_inv p'.
Proof.
  intros E1 E2 E3 E4 E5 E6 [I1 I2 I3 I4]. split; unfold reading; rewrite ?E1, ?E2, ?E3, ?E4, ?E5, ?E6; done.
Qed.

(** What a live reader adds to the queue. *)
Lemma push_message_inv p p' i r resp : loop_inv p -> readers p !! i = Some r -> rd_alive r = true ->
  (ws_Type resp = JsonRpc \/ ws_Type resp = Ws) ->
  push_read (readEvent resp (rd_generation r)) p = Some p' -> loop_inv p'.
Proof.
  intros [I1 I2 I3 I4] Hi Ha Ht. unfold push_read. destruct (_ <? _); [|done]. intros [= <-]. split; simpl; try done.
  intros Hs. specialize (I1 Hs). unfold reading in *. simpl. destruct (ss_connClosed (wsSession p)).
  - destruct I1 as [_ Hgone]. by rewrite (Hgone i r Hi) in Ha.
  - destruct I1 as (msgs & k & r' & tail & Hm & Hq & Hk & Hg & Hoth & Htail).
    destruct (decide (i = k)) as [->|Hne]; [|by rewrite (Hoth i r Hne Hi) in Ha].
    assert (r' = r) as -> by congruence. rewrite Ha in Htail. subst tail.
    exists (msgs ++ [readEvent resp (rd_generation r)]), k, r, []. rewrite Hq, Ha, !app_nil_r. split; [|done].
    apply Forall_app. split; [done|]. by constructor.
Qed.

Lemma push_end_inv p p' i r reason : loop_inv p -> readers p !! i = Some r -> rd_alive r = true ->
  push_read (wsDisconnectEvent reason (rd_generation r)) (reader_gone i p) = Some p' -> loop_inv p'.
Proof.
  intros [I1 I2 I3 I4] Hi Ha. unfold push_read. destruct (_ <? _); [|done]. intros [= <-]. split; simpl; try done.
  intros Hs. specialize (I1 Hs). unfold reading in *. simpl. destruct (ss_connClosed (wsSession p)).
  - destruct I1 as [_ Hgone]. by rewrite (Hgone i r Hi) in Ha.
  - destruct I1 as (msgs & k & r' & tail & Hm & Hq & Hk & Hg & Hoth & Htail).
    destruct (decide (i = k)) as [->|Hne]; [|by rewrite (Hoth i r Hne Hi) in Ha].
    assert (r' = r) as -> by congruence. rewrite Ha in Htail. subst tail.
    rewrite Hq, app_nil_r. exists msgs, k, (mkReader (rd_generation r) false), [wsDisconnectEvent reason (rd_generation r)].
    split; [done|]. split; [done|]. split; [by rewrite list_lookup_alter_eq, Hi|]. split; [done|].
    split; [|exists reason; by rewrite Hg]. intros j r' Hj. rewrite list_lookup_alter_ne by done. by apply Hoth.
Qed.

Lemma loop_step_inv `{JS : Json} endpoint a p p' : loop_inv p -> loop_step endpoint a p = Some p' -> loop_inv p'.
Proof.
  intros I. destruct a; simpl.
  - destruct (stopped p) eqn:Hs; [done|]. destruct (ss_connClosed (wsSession p)) eqn:Hc; [|done]. intros [= <-].
    by apply connected_inv.
  - destruct (stopped p); [done|]. intros [= <-]. by apply disconnect_stop_inv.
  - destruct (stopped p) eqn:Hs; [done|]. destruct (ss_connClosed (wsSession p)) eqn:Hc; [done|].
    destruct (readEventsChan p) as [|e rest] eqn:He; [done|]. intros [= <-]. rewrite <- Hs. by apply read_inv.
  - destruct (_ || _); [done|]. destruct (writeEventsChan p); [done|]. intros [= <-]. by apply (loop_inv_same p).
  - intros (r & Hr & H)%bind_Some. destruct (rd_alive r) eqn:Ha; [|done]. unfold reader_message in H.
    apply bind_Some in H as (parsed & Hp & H). destruct parsed as [e|resp].
    + by eapply push_end_inv.
    + eapply push_message_inv; [done..| |done]. by eapply ParseWsMessage_type.
  - intros (r & Hr & H)%bind_Some. destruct (rd_alive r) eqn:Ha; [|done]. by eapply push_end_inv.
  - destruct (_ <? _); [|done]. intros [= <-]. by apply (loop_inv_same p).
Qed.

Lemma loop_steps_inv `{JS : Json} endpoint l p p' : loop_inv p -> loop_steps endpoint l p = Some p' -> loop_inv p'.
Proof.
  revert p. induction l as [|a l IH]; intros p I; simpl; [by intros [= <-]|].
  intros (p1 & H1 & H2)%bind_Some. eapply IH; [|done]. by eapply loop_step_inv.
Qed.

Lemma new_processor_inv : loop_inv NewGenericWsProcessor.
Proof.
  split; simpl; [done|done|done|]. exists None. split; [done|by left].
Qed.

(** C29.  However connections are lost and made again, the messages handed to the
    registry between two cancellations of its operations come from one
    connection; the published states alternate, starting with "connected", and
    while the loop runs the last one tells whether the session is open. *)
Theorem ws_one_connection `{JS : Json} endpoint l p : loop_steps endpoint l NewGenericWsProcessor = Some p ->
  one_connection (registryCalls p) /\ alternate (published p) /\
  (stopped p = false -> (ss_connClosed (wsSession p) = false <-> last (published p) = Some WsConnected)).
Proof.
  intros Hl. destruct (loop_steps_inv _ _ _ _ new_processor_inv Hl) as [_ I2 I3 (cur & Hcur & _)].
  split; [unfold one_connection; rewrite Hcur; eauto|]. split; [done|]. intros Hs. rewrite (I3 Hs).
  destruct (last (published p)) as [st|] eqn:E.
  - pose proof E as [l' Hl']%last_Some. assert (st = state_at (length l')) as ->.
    { apply I2. rewrite Hl'. by rewrite lookup_app_r, Nat.sub_diag by lia. }
    rewrite Hl', length_app, Nat.add_comm. simpl length. rewrite Nat.add_1_l, Nat.even_succ, <- Nat.negb_even. unfold state_at.
    destruct (Nat.even (length l')); split; done.
  - apply last_None in E. rewrite E. done.
Qed.

(** ** A run: a connection that is lost and made again *)

#[local] Instance sample_ws_json : Json := {|
  GetByPath _ _ := None;
  unmarshal_jsonRpcError _ := None;
  marshal_jsonRpcError _ := inr "";
  unmarshal_string _ := None;
  unmarshal_wsMessage s := Some (mkWsMessage "7" s None "");
  marshal_wsSubResponse _ _ _ := inr "";
|}.

Definition reconnect_actions : list loop_action :=
  [LConnected; RMessage 0 "1"; LRead; RMessage 0 "2"; RFailed 0 "reset"; LRead; LRead; LConnected; RMessage 1 "3"; LRead].

Example reconnect_run :
  (fun p => (published p, length (registryCalls p))) <$> loop_steps "ws" reconnect_actions NewGenericWsProcessor =
  Some ([WsConnected; WsDisconnected; WsConnected], 4%nat).
Proof. vm_compute. reflexivity. Qed.

Lemma ws_one_connection_witness : exists p,
  loop_steps "ws" reconnect_actions NewGenericWsProcessor = Some p /\ one_connection (registryCalls p) /\ alternate (published p).
Proof.
  pose proof reconnect_run as Hrun.
  destruct (loop_steps "ws" reconnect_actions NewGenericWsProcessor) as [p|] eqn:E; [|discriminate Hrun].
  exists p. split; [reflexivity|]. destruct (ws_one_connection "ws" reconnect_actions p E) as (H1 & H2 & _).
  exact (conj H1 H2).
Defined.
