(* ===== verification/Caps.v ===== *)
(** The capabilities of an upstream ([internal/upstreams/caps]): what the state of a
    connector, the progress of a head and the size of the mempool assert, and how
    the assertions of the detectors are merged
    ([ws_presence_detector.go], [ws_head_liveness_detector.go],
    [evm_caps/evm_head_sub_detector.go], [evm_caps/evm_pending_tx_detector.go],
    [cap_processor.go]).

    Times and durations are in nanoseconds. *)

From S2P Require Import Prelude.
From S2P Require Import Protocol.
From S2P Require Import Specs.
From S2P Require Import Methods.
From S2P Require Import WsProcessor.

(** ** Detectors of a connector's state *)

Definition connected (state : SubscribeConnectorState) : bool := match state with WsConnected => true | WsDisconnected => false end.

Definition WsPresence_caps (cap : Cap) (state : SubscribeConnectorState) : gset Cap :=
  if connected state then {[cap]} else ∅.

(** [EvmHeadSubCapDetector.capsFor]; [None] is the nil method set. *)
Definition capsFor {M} `{MethodsI M} (methods : option M) (state : SubscribeConnectorState) : gset Cap :=
  match methods with
  | None => ∅
  | Some m =>
    if connected state && HasMethod m "eth_subscribe" then
      {[NewHeadsCap]} ∪ (if HasMethod m "eth_getLogs" then {[LogsCap]} else ∅)
    else ∅
  end.

(** ** The mempool of an EVM node *)

Definition BaseTxLimit : Z := 1000.

(** What [txpool_content] tells: nothing, or how many senders have pending and
    queued transactions. *)
Definition txpoolAboveLimit (txLimit : Z) (content : option (Z * Z)) : bool :=
  match content with None => false | Some (pending, queued) => txLimit <=? pending + queued end.

Record PendingTxDetector := mkPendingTxDetector { pt_connected : bool; txpoolFull : bool; emitted : option (gset Cap) }.

(** A state of the connector, or the ticker; either with what the node would tell. *)
Inductive pending_input := PendingState (state : SubscribeConnectorState) (content : option (Z * Z)) | PendingTick (content : option (Z * Z)).

Definition pending_emit (d : PendingTxDetector) : list (gset Cap) * PendingTxDetector :=
  let caps := if pt_connected d && txpoolFull d then {[PendingTxCap]} else ∅ in
  if bool_decide (emitted d = Some caps) then ([], d)
  else ([caps], mkPendingTxDetector (pt_connected d) (txpoolFull d) (Some caps)).

Definition pending_detect (txLimit : Z) (i : pending_input) (d : PendingTxDetector) : list (gset Cap) * PendingTxDetector :=
  match i with
  | PendingState state content =>
    pending_emit (mkPendingTxDetector (connected state)
      (if connected state then txpoolAboveLimit txLimit content else false) (emitted d))
  | PendingTick content =>
    if pt_connected d then pending_emit (mkPendingTxDetector true (txpoolAboveLimit txLimit content) (emitted d)) else ([], d)
  end.

(** ** A head that advances *)

Definition checkedBlocksUntilLive : Z := 3.
Definition cooldown : Z := 5 * 60000000000.
Definition timeoutMultiplier : Z := 2.
Definition maxBlockTime : Z := 10 * 60000000000.
Definition defaultBlockTime : Z := 12 * 1000000000.

(** [lastHeight] and [lastBlockTime] are absent before the first block, the time of
    the last gap before the first gap: the difference to the zero time is larger
    than the cooldown. *)
Record headLivenessTracker := mkTracker {
  lastHeight : option Z;
  count : Z;
  is_live : bool;
  measuredBlockTime : Z;
  lastBlockTime : option Z;
  lastNonConsecutiveTime : option Z;
}.

Definition new_tracker (expectedBlockTime : Z) : headLivenessTracker :=
  mkTracker None 0 false (if expectedBlockTime <=? 0 then defaultBlockTime else expectedBlockTime) None None.

Definition cooled (now : Z) (t : headLivenessTracker) : bool :=
  match lastNonConsecutiveTime t with None => true | Some gap => cooldown <=? now - gap end.

(** The longest interval between two blocks. *)
Definition measured (now : Z) (t : headLivenessTracker) : Z :=
  match lastBlockTime t with
  | Some last => if measuredBlockTime t <? now - last then now - last else measuredBlockTime t
  | None => measuredBlockTime t
  end.

Definition observe (now height : Z) (t : headLivenessTracker) : bool * headLivenessTracker :=
  let time := measured now t in
  match lastHeight t with
  | None => (is_live t, mkTracker (Some height) (count t) (is_live t) time (Some now) (lastNonConsecutiveTime t))
  | Some last =>
    let diff := i64 (i64 height - i64 last) in
    if diff <=? 1 then
      let count := count t + 1 in
      let live := is_live t || ((checkedBlocksUntilLive - 1 <=? count) && cooled now t) in
      (live, mkTracker (Some height) count live time (Some now) (lastNonConsecutiveTime t))
    else (false, mkTracker (Some height) 0 false time (Some now) (Some now))
  end.

Definition onTimeout (t : headLivenessTracker) : bool * headLivenessTracker :=
  (false, mkTracker (lastHeight t) (count t) false (Z.min (measuredBlockTime t * timeoutMultiplier) maxBlockTime)
            (lastBlockTime t) (lastNonConsecutiveTime t)).

Definition liveness_timeout (t : headLivenessTracker) : Z :=
  measuredBlockTime t * checkedBlocksUntilLive * timeoutMultiplier.

(** The detector: the state of the connector, a head, or the timer. *)
Record LivenessDetector := mkLiveness { lv_connected : bool; headLive : bool; tracker : headLivenessTracker }.

Inductive liveness_input := LiveState (state : SubscribeConnectorState) | LiveHead (height : Z) | LiveTimeout.

Definition liveness_step (now : Z) (i : liveness_input) (d : LivenessDetector) : LivenessDetector :=
  match i with
  | LiveState state => mkLiveness (connected state) (headLive d) (tracker d)
  | LiveHead height => let '(live, t) := observe now height (tracker d) in mkLiveness (lv_connected d) live t
  | LiveTimeout => let '(live, t) := onTimeout (tracker d) in mkLiveness (lv_connected d) live t
  end.

(** Every step emits the capability or its absence. *)
Definition liveness_caps (cap : Cap) (d : LivenessDetector) : gset Cap :=
  if lv_connected d && headLive d then {[cap]} else ∅.

Definition new_liveness (expectedBlockTime : Z) : LivenessDetector := mkLiveness false false (new_tracker expectedBlockTime).

Definition liveness_run (inputs : list (Z * liveness_input)) (d : LivenessDetector) : LivenessDetector :=
  foldl (fun d x => liveness_step x.1 x.2 d) d inputs.

(** ** Merging *)

Record CapProcessor := mkCapProcessor { latest : list (gset Cap); cap_published : option (gset Cap) }.

Definition NewGenericCapProcessor (detectors : nat) : option CapProcessor :=
  match detectors with O => None | _ => Some (mkCapProcessor (replicate detectors ∅) None) end.

(** A snapshot of a detector; a nil set counts as the empty one. *)
Definition aggregate (index : nat) (caps : gset Cap) (p : CapProcessor) : list (gset Cap) * CapProcessor :=
  let latest := <[index := caps]> (latest p) in
  let merged := union_list latest in
  if bool_decide (cap_published p = Some merged) then ([], mkCapProcessor latest (cap_published p))
  else ([merged], mkCapProcessor latest (Some merged)).

Fixpoint aggregate_run (updates : list (nat * gset Cap)) (p : CapProcessor) : list (gset Cap) * CapProcessor :=
  match updates with
  | [] => ([], p)
  | (index, caps) :: updates' =>
    let '(out, p) := aggregate index caps p in
    let '(out', p) := aggregate_run updates' p in (out ++ out', p)
  end.

(** ** When a head counts as live *)

(** The heads seen, with their times, the last one first. *)
Definition recent (inputs : list (Z * liveness_input)) : list (Z * Z) :=
  foldl (fun l x => match x.2 with LiveHead h => (x.1, h) :: l | _ => l end) [] inputs.

(** Whether a head was seen after the last timeout. *)
Definition head_is_last (inputs : list (Z * liveness_input)) : bool :=
  foldl (fun b x => match x.2 with LiveHead _ => true | LiveTimeout => false | LiveState _ => b end) false inputs.

Definition is_connected (inputs : list (Z * liveness_input)) : bool :=
  foldl (fun b x => match x.2 with LiveState s => connected s | _ => b end) false inputs.

(** How many of the last heads skipped no block. *)
Fixpoint run_length (heads : list (Z * Z)) : Z :=
  match heads with
  | y :: (x :: _) as rest => if y.2 - x.2 <=? 1 then 1 + run_length rest else 0
  | _ => 0
  end.

(** When blocks were skipped, the last time first. *)
Fixpoint gap_times (heads : list (Z * Z)) : list Z :=
  match heads with
  | y :: (x :: _) as rest => if y.2 - x.2 <=? 1 then gap_times rest else y.1 :: gap_times rest
  | _ => []
  end.

(** The heights are those of blocks, and time does not go back. *)
Definition plausible (inputs : list (Z * liveness_input)) : Prop :=
  Forall (fun x => match x.2 with LiveHead h => 0 <= h < two63 | _ => True end) inputs /\
  StronglySorted Z.le (map fst inputs).

Lemma run_length_cons y x l : run_length (y :: x :: l) = if y.2 - x.2 <=? 1 then 1 + run_length (x :: l) else 0.
Proof. done. Qed.
Lemma gap_times_cons y x l :
  gap_times (y :: x :: l) = if y.2 - x.2 <=? 1 then gap_times (x :: l) else y.1 :: gap_times (x :: l).
Proof. done. Qed.

Lemma run_length_two heads : 2 <= run_length heads <->
  exists c b a rest, heads = c :: b :: a :: rest /\ c.2 - b.2 <= 1 /\ b.2 - a.2 <= 1.
Proof.
  assert (forall l, 0 <= run_length l) as Hpos.
  { induction l as [|y [|x l] IH]; simpl; try lia. destruct (_ <=? 1); [|lia]. simpl in IH. lia. }
  destruct heads as [|c [|b [|a rest]]]; simpl.
  - split; [lia|by intros (? & ? & ? & ? & ? & _)].
  - split; [lia|by intros (? & ? & ? & ? & ? & _)].
  - split; [destruct (_ <=? 1); lia|by intros (? & ? & ? & ? & ? & _)].
  - specialize (Hpos (a :: rest)). simpl in Hpos. split.
    + destruct (c.2 - b.2 <=? 1) eqn:E1; [|lia]. destruct (b.2 - a.2 <=? 1) eqn:E2; [|lia]. reflect_bool. intros _.
      exists c, b, a, rest. split_and!; [done|lia|lia].
    + intros (c' & b' & a' & rest' & [= <- <- <- <-] & H1 & H2).
      rewrite (proj2 (Z.leb_le _ _) H1), (proj2 (Z.leb_le _ _) H2). lia.
Qed.

(** The tracker after a history of heads, the last at [now]. *)
Record tracks (heads : list (Z * Z)) (live : bool) (d : LivenessDetector) : Prop := mkTracks {
  tk_height : lastHeight (tracker d) = snd <$> head heads;
  tk_count : count (tracker d) = run_length heads;
  tk_gap : lastNonConsecutiveTime (tracker d) = head (gap_times heads);
  tk_live : headLive d = is_live (tracker d);
  tk_verdict : headLive d = live && (2 <=? run_length heads) &&
    match head heads with Some x => cooled x.1 (tracker d) | None => false end;
}.

Lemma cooled_later t now now' : now <= now' -> cooled now t = true -> cooled now' t = true.
Proof. unfold cooled. destruct (lastNonConsecutiveTime t); [|done]. rewrite !Z.leb_le. lia. Qed.

Lemma tracks_head heads live d now height :
  tracks heads live d -> Forall (fun x => x.1 <= now /\ 0 <= x.2 < two63) heads -> 0 <= height < two63 ->
  tracks ((now, height) :: heads) true (liveness_step now (LiveHead height) d).
Proof.
  intros [Hh Hc Hg Hl Hv] Hf Hr. simpl. unfold observe. rewrite Hh. destruct heads as [|[t0 h0] heads]; simpl.
  - simpl in *. rewrite andb_false_r in Hv. split; simpl; try done; congruence.
  - apply Forall_cons in Hf as [[Ht Hr0] _]. simpl in Ht, Hr0.
    assert (i64 (i64 height - i64 h0) = height - h0) as ->
      by (rewrite (i64_id height), (i64_id h0) by (unfold is_i64; lia); apply i64_id; unfold is_i64; lia).
    destruct (height - h0 <=? 1) eqn:Ed; simpl.
    + split; rewrite ?run_length_cons, ?gap_times_cons; cbn [snd fst head]; rewrite ?Ed;
        cbn [tracker lastHeight count lastNonConsecutiveTime headLive is_live fst snd]; try done; [lia|].
      rewrite <- Hc, Z.add_comm. change (checkedBlocksUntilLive - 1) with 2. unfold cooled at 2. cbn [lastNonConsecutiveTime].
      fold (cooled now (tracker d)). destruct (is_live (tracker d)) eqn:El; [|done]. rewrite Hl in Hv. symmetry in Hv.
      rewrite !andb_true_iff in Hv. destruct Hv as [[_ H2] Hcool]. simpl in Hcool. apply (cooled_later _ _ now) in Hcool; [|lia].
      rewrite Hcool, andb_true_r. simpl. rewrite ?andb_true_r. symmetry. apply Z.leb_le. apply Z.leb_le in H2. rewrite Hc. lia.
    + split; rewrite ?run_length_cons, ?gap_times_cons; cbn [snd fst head]; rewrite ?Ed; done.
Qed.

Lemma tracks_timeout heads live d now : tracks heads live d -> tracks heads false (liveness_step now LiveTimeout d).
Proof. intros [Hh Hc Hg Hl Hv]. by split. Qed.

Lemma tracks_state heads live d now s : tracks heads live d -> tracks heads live (liveness_step now (LiveState s) d).
Proof. intros [Hh Hc Hg Hl Hv]. by split. Qed.

Lemma sorted_snoc (l : list Z) x : StronglySorted Z.le (l ++ [x]) -> StronglySorted Z.le l /\ Forall (fun y => y <= x) l.
Proof.
  induction l as [|y l IH]; simpl; [by split; constructor|]. intros Hs. inversion_clear Hs as [|? ? Hs' Hf].
  apply IH in Hs' as [H1 H2]. apply Forall_app in Hf as [Hf Hx]. inversion_clear Hx.
  split; by constructor.
Qed.

Lemma recent_times inputs now : Forall (fun y => y <= now) (map fst inputs) ->
  Forall (fun x => match x.2 with LiveHead h => 0 <= h < two63 | _ => True end) inputs ->
  Forall (fun x => x.1 <= now /\ 0 <= x.2 < two63) (recent inputs).
Proof.
  induction inputs as [|x inputs IH] using rev_ind; [constructor|]. rewrite map_app, !Forall_app. simpl.
  intros [Ht Hx] [Hh Hx']. apply Forall_cons in Hx as [Hx _], Hx' as [Hx' _]. unfold recent. rewrite foldl_snoc. fold (recent inputs).
  destruct x as [t [s|h|]]; simpl in *; auto.
Qed.

Lemma liveness_tracks e inputs : plausible inputs ->
  tracks (recent inputs) (head_is_last inputs) (liveness_run inputs (new_liveness e)) /\
  lv_connected (liveness_run inputs (new_liveness e)) = is_connected inputs.
Proof.
  induction inputs as [|[now i] inputs IH] using rev_ind; [intros _; by split|]. intros [Hh Ht].
  apply Forall_app in Hh as [Hh Hi]. apply Forall_cons in Hi as [Hi _]. rewrite map_app in Ht. simpl in Ht, Hi.
  apply sorted_snoc in Ht as [Ht Hle]. destruct (IH (conj Hh Ht)) as [IHt IHc].
  unfold recent, head_is_last, liveness_run, is_connected. rewrite !foldl_snoc. simpl fst. simpl snd.
  fold (recent inputs) (head_is_last inputs) (is_connected inputs). fold (liveness_run inputs (new_liveness e)).
  destruct i as [s|h|].
  - split; [by apply tracks_state|done].
  - split; [|unfold liveness_step; by destruct (observe _ _ _)]. apply (tracks_head _ (head_is_last inputs)); [done| |done].
    by apply recent_times.
  - split; [by eapply tracks_timeout|done].
Qed.

(** Gaps that the last one comes after. *)
Lemma gaps_cooled heads now : StronglySorted (fun x y => y.1 <= x.1) heads ->
  match head (gap_times heads) with Some g => cooldown <= now - g | None => True end <->
  Forall (fun g => cooldown <= now - g) (gap_times heads).
Proof.
  intros Hs. assert (forall l (x : Z * Z), Forall (fun y => y.1 <= x.1) l -> Forall (fun g => g <= x.1) (gap_times l)) as Hle.
  { induction l as [|y [|z l] IH]; intros x Hf; simpl; [constructor..|]. apply Forall_cons in Hf as [Hy Hf].
    destruct (_ <=? 1); [by apply IH|]. constructor; [done|by apply IH]. }
  induction Hs as [|y l Hs IH Hf]; [by split|]. destruct l as [|x l]; simpl; [by split; [constructor|]|].
  destruct (y.2 - x.2 <=? 1); [exact IH|]. simpl. rewrite Forall_cons. split; [|by intros [? _]].
  intros Hg. split; [done|]. eapply Forall_impl; [exact (Hle _ _ Hf)|]. intros g Hgy. cbn beta in *. lia.
Qed.

Lemma recent_sorted inputs : plausible inputs -> StronglySorted (fun x y : Z * Z => y.1 <= x.1) (recent inputs).
Proof.
  induction inputs as [|[now i] inputs IH] using rev_ind; [constructor|]. intros [Hh Ht].
  apply Forall_app in Hh as [Hh _]. rewrite map_app in Ht. apply sorted_snoc in Ht as [Ht Hle].
  specialize (IH (conj Hh Ht)). unfold recent. rewrite foldl_snoc. fold (recent inputs). simpl.
  destruct i as [s|h|]; [done| |done]. constructor; [done|].
  eapply Forall_impl; [apply (recent_times inputs now Hle Hh)|]. by intros x [? _].
Qed.

(** An upstream with a head of its own subscription serves subscriptions exactly
    while that head advances: its capability is asserted if and only if the
    connector is connected, a head came since the last timeout, the last three heads
    skipped no block, and every gap there was lies five minutes or more before the
    last head. *)
Theorem live_exactly_while_advancing cap expectedBlockTime inputs : plausible inputs ->
  liveness_caps cap (liveness_run inputs (new_liveness expectedBlockTime)) = {[cap]} <->
  is_connected inputs = true /\ head_is_last inputs = true /\
  exists c b a rest, recent inputs = c :: b :: a :: rest /\ c.2 - b.2 <= 1 /\ b.2 - a.2 <= 1 /\
    Forall (fun g => cooldown <= c.1 - g) (gap_times (recent inputs)).
Proof.
  intros Hp. destruct (liveness_tracks expectedBlockTime inputs Hp) as [[_ _ Hg _ Hv] Hc].
  unfold liveness_caps. rewrite Hc, Hv.
  assert (forall b : bool, (if b then {[cap]} else (∅ : gset Cap)) = {[cap]} <-> b = true) as ->.
  { intros []; [done|]. split; [|done]. intros E. exfalso. assert (cap ∈ (∅ : gset Cap)) by (rewrite E; set_solver). set_solver. }
  rewrite !andb_true_iff, Z.leb_le, run_length_two. split.
  - intros [H1 [[H2 (c & b & a & rest & E & H3 & H4)] H5]]. split_and!; [done|done|]. exists c, b, a, rest.
    split_and!; [done..|]. rewrite <- gaps_cooled by (by apply recent_sorted). rewrite E in H5. simpl in H5.
    unfold cooled in H5. rewrite Hg, E in H5. rewrite E.
    revert H5. clear. destruct (head (gap_times (c :: b :: a :: rest))); [apply Z.leb_le|done].
  - intros (H1 & H2 & c & b & a & rest & E & H3 & H4 & H5). split; [done|]. split; [split; [done|]; by exists c, b, a, rest|].
    rewrite <- gaps_cooled in H5 by (by apply recent_sorted). rewrite E at 1. simpl.
    unfold cooled. rewrite Hg, E. rewrite E in H5. revert H5. clear.
    destruct (head (gap_times (c :: b :: a :: rest))); [apply Z.leb_le|done].
Qed.

Lemma live_exactly_while_advancing_witness :
  let inputs := [(0, LiveState WsConnected); (1, LiveHead 10); (2, LiveHead 11); (3, LiveHead 11)] in
  plausible inputs /\ liveness_caps WsCap (liveness_run inputs (new_liveness 12)) = {[WsCap]}.
Proof.
  intros inputs. assert (plausible inputs) as Hp by (split; repeat constructor; unfold two63; simpl; lia).
  split; [exact Hp|]. apply (live_exactly_while_advancing WsCap 12 inputs Hp). split_and!; [done|done|].
  exists (3, 11), (2, 11), (1, 10), []. split_and!; [done|simpl; lia..|]. vm_compute. constructor.
Defined.

(** ** What is published *)

Lemma aggregate_ok index caps p out p' : aggregate index caps p = (out, p') ->
  latest p' = <[index := caps]> (latest p) /\ cap_published p' = Some (union_list (latest p')).
Proof. unfold aggregate. case_bool_decide as E; intros [= <- <-]; [by rewrite E|done]. Qed.

(** The snapshot each detector gave last. *)
Definition snapshots (n : nat) (updates : list (nat * gset Cap)) : list (gset Cap) :=
  foldl (fun l u => <[u.1 := u.2]> l) (replicate n ∅) updates.

(** The capabilities published last are those that some detector asserts. *)
Lemma published_caps n updates p0 out p :
  NewGenericCapProcessor n = Some p0 -> updates <> [] -> aggregate_run updates p0 = (out, p) ->
  last out = Some (union_list (snapshots n updates)) /\ cap_published p = Some (union_list (snapshots n updates)).
Proof.
  intros Hn Hu. assert (p0 = mkCapProcessor (replicate n ∅) None) as -> by (destruct n; [done|by injection Hn]).
  unfold snapshots. revert Hu. generalize (replicate n (∅ : gset Cap)) as ls.
  assert (forall updates ls pub out p, aggregate_run updates (mkCapProcessor ls pub) = (out, p) ->
    latest p = foldl (fun l u => <[u.1 := u.2]> l) ls updates /\
    (updates <> [] -> cap_published p = Some (union_list (latest p))) /\ (match last out with Some m => Some m | None => pub end = cap_published p)) as Hg.
  { clear. induction updates as [|[i caps] updates IH]; intros ls pub out p; simpl; [intros [= <- <-]; by split_and!|].
    destruct (aggregate i caps _) as [o1 [ls1 pub1]] eqn:E1. destruct (aggregate_run updates _) as [o2 p2] eqn:E2.
    intros [= <- <-]. destruct (aggregate_ok _ _ _ _ _ E1) as [Hl Hpub]. simpl in Hl, Hpub. subst ls1.
    destruct (IH _ _ _ _ E2) as (H1 & H2 & H3). split_and!; [done| |].
    - intros _. destruct updates as [|u updates]; [simpl in E2; by injection E2 as <- <-|by apply H2].
    - revert H3. rewrite last_app. destruct (last o2); [done|]. intros <-. unfold aggregate in E1.
      simpl in E1. case_bool_decide as Eb; injection E1 as <- <-; simpl; congruence. }
  intros ls Hu E. destruct (Hg _ _ _ _ _ E) as (H1 & H2 & H3). rewrite <- H1, <- (H2 Hu), <- H3.
  destruct (last out) eqn:El; [done|]. rewrite H2 in H3 by done. done.
Qed.
