(* ===== verification/Access.v ===== *)
(** Authentication and API keys: the request strategies and processors
    ([internal/auth]), the settings a key enforces
    ([internal/key_management/keydata/data.go], [internal/integration/local/local_key.go],
    [internal/integration/drpc/drpc_key.go]), the store of keys
    ([internal/key_management/key_service.go]) and the polling that feeds it
    ([internal/integration/drpc_integration.go], [local_integration.go]). *)

From S2P Require Import Prelude.
From S2P Require Import GoStrings.
From S2P Require Import Errors.
From S2P Require Import Responses.
From S2P Require Import Specs.
From S2P Require Import Requests.
From S2P Require Import ClientIp.
From S2P Require Import Config.
From S2P Require Import AppConfig.
From Stdlib Require Import Ascii.

(** ** Libraries *)

(** What [sonic.Get] finds under the path [params, 0, field] of a body: nothing,
    an error, a string, an array with [None] for the entries that are no
    strings, or another value. *)
Inductive ParamNode :=
| NodeMissing
| NodeBroken (err : string)
| NodeString (s : string)
| NodeArray (l : list (option string))
| NodeOther.

Class ParamJson := first_param_field : string -> string -> ParamNode.

(** The JWT parser: the public key, whether an expiration is required, the issuer
    that is required unless empty, and the token; [None] is no error. *)
Class JwtLib := {
  PubKey : Type;
  loadPubKey : string -> string + PubKey;
  jwt_Parse : PubKey -> bool -> string -> string -> option string;
}.

(** ** Request strategies *)

(** The parts of an HTTP request the authentication reads; [PathValue] is the
    key of the path, empty without one. *)
Record HttpRequest := mkHttpRequest {
  hr_peer : HttpPeer;
  hr_header : string -> string;
  hr_PathKey : string;
}.

Definition XNodecoreToken : string := "X-Nodecore-Token".
Definition XNodecoreKey : string := "X-Nodecore-Key".
Definition BearerPrefix : string := "Bearer ".

Section Strategies.
Context `{JW : JwtLib}.

Inductive AuthRequestStrategy :=
| NoopStrategy
| TokenStrategy (token : string)
| JwtStrategy (pubKey : PubKey) (allowedIssuer : string) (expirationRequired : bool).

Definition jwt_authenticate (pubKey : PubKey) (issuer : string) (expiration : bool) (r : HttpRequest) : option string :=
  let authHeader := hr_header r "Authorization" in
  if bool_decide (authHeader = "") then Some "missing Authorization header"
  else match strip_prefix BearerPrefix authHeader with
       | None | Some "" => Some "invalid Authorization header format"
       | Some rest =>
         wrap "unable to parse jwt token: " (jwt_Parse pubKey expiration issuer (TrimSpace rest))
       end.

Definition AuthenticateRequest (s : AuthRequestStrategy) (r : HttpRequest) : option string :=
  match s with
  | NoopStrategy => None
  | TokenStrategy token =>
    check (negb (bool_decide (hr_header r XNodecoreToken = token))) "invalid secret token"
  | JwtStrategy pubKey issuer expiration => jwt_authenticate pubKey issuer expiration r
  end.

(** A type that validation rejects leaves the strategy nil; its first use would
    panic, so it is an error here. *)
Definition NewAuthRequestStrategy (cfg : option RequestStrategyConfig) : string + AuthRequestStrategy :=
  match cfg with
  | None => inr NoopStrategy
  | Some c =>
    if bool_decide (rq_Type c = "token") then inr (TokenStrategy (default "" (rq_Token c)))
    else if bool_decide (rq_Type c = "jwt") then
      let j := default (mkJwtConfig "" "" false) (rq_Jwt c) in
      match loadPubKey (jwt_PublicKey j) with
      | inl err => inl ("unable to load public key: " +:+ err)
      | inr key => inr (JwtStrategy key (jwt_AllowedIssuer j) (jwt_ExpirationRequired j))
      end
    else inl "no request strategy"
  end.

(** ** Keys *)

Record LocalKey := mkLocalKey { l_id : string; l_key : string; l_settings : option KeySettingsConfig }.

Record DrpcKey := mkDrpcKey {
  KeyId : string;
  IpWhitelist : list string;
  MethodsBlacklist : list string;
  MethodsWhitelist : list string;
  ContractWhitelist : list string;
  d_CorsOrigins : list string;
  ApiKey : string;
}.

#[export] Instance DrpcKey_eq_dec : EqDecision DrpcKey.
Proof using Type. solve_decision. Defined.

Inductive Key := KeyLocal (k : LocalKey) | KeyDrpc (k : DrpcKey).

Definition NewLocalKey (id : string) (cfg : LocalKeyConfig) : LocalKey := mkLocalKey id (lk_Key cfg) (lk_Settings cfg).

Definition GetKeyValue (k : Key) : string :=
  match k with KeyLocal k => l_key k | KeyDrpc k => ApiKey k end.

Definition CheckMethod (allowedMethods forbiddenMethods : list string) (method : string) : option string :=
  let error := "method " +:+ in_apostrophes method +:+ " is not allowed" in
  first_error [
    check (negb (bool_decide (allowedMethods = [])) && negb (bool_decide (method ∈ allowedMethods))) error;
    check (negb (bool_decide (forbiddenMethods = [])) && bool_decide (method ∈ forbiddenMethods)) error
  ].

Definition address_error (address : string) : string := in_apostrophes address +:+ " address is not allowed".

Definition contract_allowed (contracts : list string) (address : string) : option string :=
  check (negb (bool_decide (address ∈ contracts))) (address_error address).

Definition mandatory_error (field : string) : string :=
  in_apostrophes field +:+ " param is mandatory due to the contracts settings".

(** The addresses of an array, unless one is no string. *)
Fixpoint string_entries (l : list (option string)) : string + list string :=
  match l with
  | [] => inr []
  | None :: _ => inl "value in 'address' param must be string"
  | Some s :: l => match string_entries l with inl e => inl e | inr ss => inr (s :: ss) end
  end.

Section Contracts.
Context `{MP : MethodParsers} `{PJ : ParamJson}.

Definition CheckContracts (contracts : list string) (request : RequestHolder) : option string :=
  if bool_decide (contracts = []) then None
  else if bool_decide (request_Method request = "eth_call") then
    match request_Body request with
    | inl err => Some (error_text err)
    | inr body =>
      match first_param_field body "to" with
      | NodeMissing => Some (mandatory_error "to")
      | NodeBroken err => Some err
      | NodeString toParam => contract_allowed contracts toParam
      | _ => Some "'to' param must be string"
      end
    end
  else if bool_decide (request_Method request = "eth_getLogs") then
    match request_Body request with
    | inl err => Some (error_text err)
    | inr body =>
      match first_param_field body "address" with
      | NodeMissing => Some (mandatory_error "address")
      | NodeBroken err => Some err
      | NodeArray l =>
        match string_entries l with
        | inl err => Some err
        | inr addresses => first_error (map (contract_allowed contracts) addresses)
        end
      | NodeString address => contract_allowed contracts address
      | NodeOther => None
      end
    end
  else None.

(** The CORS origins, and an error unless the address is allowed.  The addresses
    of the error come in the order of the set. *)
Definition check_ips (allowed : list string) (ips : gset string) : option string :=
  if bool_decide (allowed = []) then None
  else check (negb (existsb (fun ip => bool_decide (ip ∈ ips)) allowed))
         ("ips [" +:+ String.concat ", " (elements ips) +:+ "] are not allowed").

Definition PreCheckSetting (ips : gset string) (k : Key) : list string * option string :=
  match k with
  | KeyLocal k =>
    match l_settings k with
    | None => ([], None)
    | Some s => (ks_CorsOrigins s, check_ips (ks_AllowedIps s) ips)
    end
  | KeyDrpc k => (d_CorsOrigins k, check_ips (IpWhitelist k) ips)
  end.

Definition PostCheckSetting (request : RequestHolder) (k : Key) : option string :=
  match k with
  | KeyLocal k =>
    match l_settings k with
    | None => None
    | Some s =>
      let methods := default ([], []) (ks_Methods s) in
      first_error [
        CheckMethod methods.1 methods.2 (request_Method request);
        CheckContracts (default [] (ks_Contracts s)) request
      ]
    end
  | KeyDrpc k => first_error [
      CheckMethod (MethodsWhitelist k) (MethodsBlacklist k) (request_Method request);
      CheckContracts (ContractWhitelist k) request
    ]
  end.

(** ** Processors *)

(** [keys] is the store of the key service. *)
Inductive AuthProcessor :=
| NoopProcessor
| SimpleProcessor (s : AuthRequestStrategy)
| BasicProcessor (s : AuthRequestStrategy).

Definition NewAuthProcessor (cfg : option AuthConfig) : string + AuthProcessor :=
  match cfg with
  | None => inr NoopProcessor
  | Some c =>
    if negb (au_Enabled c) then inr NoopProcessor
    else match NewAuthRequestStrategy (au_RequestStrategy c) with
         | inl err => inl err
         | inr s => inr (if bool_decide (length (au_Keys c) = 0%nat) then SimpleProcessor s else BasicProcessor s)
         end
  end.

Definition Authenticate (p : AuthProcessor) (r : HttpRequest) : option string :=
  match p with
  | NoopProcessor => None
  | SimpleProcessor s | BasicProcessor s => AuthenticateRequest s r
  end.

Definition getPayloadKey (r : HttpRequest) : string :=
  if bool_decide (hr_PathKey r = "") then hr_header r XNodecoreKey else hr_PathKey r.

Definition getKey (keys : gmap string Key) (r : HttpRequest) : string + Key :=
  let keyStr := getPayloadKey r in
  if bool_decide (keyStr = "") then inl "api-key must be provided"
  else match keys !! keyStr with
       | None => inl "specified api-key not found"
       | Some k => inr k
       end.

Definition PreKeyValidate (p : AuthProcessor) (keys : gmap string Key) (ips : gset string) (r : HttpRequest)
    : list string * option string :=
  match p with
  | BasicProcessor _ =>
    match getKey keys r with
    | inl err => ([], Some err)
    | inr k => PreCheckSetting ips k
    end
  | _ => ([], None)
  end.

Definition PostKeyValidate (p : AuthProcessor) (keys : gmap string Key) (r : HttpRequest) (request : RequestHolder)
    : option string :=
  match p with
  | BasicProcessor _ =>
    match getKey keys r with
    | inl err => Some err
    | inr k => PostCheckSetting request k
    end
  | _ => None
  end.
End Contracts.
End Strategies.

(** ** The store of keys *)

Inductive KeyEvent := UpdatedKeyEvent (newKey : Key) | RemovedKeyEvent (removedKey : Key).

(** One event of [watchKeys]. *)
Definition watch_key (keys : gmap string Key) (ev : KeyEvent) : gmap string Key :=
  match ev with
  | UpdatedKeyEvent k => <[GetKeyValue k := k]> keys
  | RemovedKeyEvent k => delete (GetKeyValue k) keys
  end.

Definition watchKeys (keys : gmap string Key) (evs : list KeyEvent) : gmap string Key := foldl watch_key keys evs.

(** [LocalIntegration.InitKeys] *)
Definition local_InitKeys (id : string) (cfg : LocalKeyConfig) : list KeyEvent :=
  [UpdatedKeyEvent (KeyLocal (NewLocalKey id cfg))].

(** ** Polling the keys of an owner *)

(** [currentKeys] is the map kept per owner, [owners] the owner of each key. *)
Record OwnerState := mkOwnerState {
  currentKeys : gmap string DrpcKey;
  keyOwners : gmap string (string * string);
}.

Definition poll_key (ownerId apiToken : string) (acc : list KeyEvent * OwnerState) (key : DrpcKey)
    : list KeyEvent * OwnerState :=
  let '(evs, st) := acc in
  let owners := <[ApiKey key := (ownerId, apiToken)]> (keyOwners st) in
  if bool_decide (currentKeys st !! ApiKey key = Some key) then (evs, mkOwnerState (currentKeys st) owners)
  else (evs ++ [UpdatedKeyEvent (KeyDrpc key)], mkOwnerState (<[ApiKey key := key]> (currentKeys st)) owners).

Definition drop_key (newKeys : gset string) (acc : list KeyEvent * OwnerState) (kv : string * DrpcKey)
    : list KeyEvent * OwnerState :=
  let '(evs, st) := acc in
  let '(apiKey, key) := kv in
  if bool_decide (apiKey ∈ newKeys) then (evs, st)
  else (evs ++ [RemovedKeyEvent (KeyDrpc key)],
        mkOwnerState (delete apiKey (currentKeys st)) (delete apiKey (keyOwners st))).

(** [ownerKeys] is [None] when the owner or its keys could not be loaded. *)
Definition processKeys `{MapRange} (ownerId apiToken : string) (ownerKeys : option (list DrpcKey)) (st : OwnerState)
    : list KeyEvent * OwnerState :=
  match ownerKeys with
  | None => ([], st)
  | Some ks =>
    let '(evs, st) := foldl (poll_key ownerId apiToken) ([], st) ks in
    foldl (drop_key (list_to_set (map ApiKey ks))) (evs, st) (range (currentKeys st))
  end.

(** Polls of one owner one after another, their events watched by the service. *)
Definition poll `{MapRange} (ownerId apiToken : string) (acc : gmap string Key * OwnerState)
    (answer : option (list DrpcKey)) : gmap string Key * OwnerState :=
  let '(evs, st) := processKeys ownerId apiToken answer acc.2 in (watchKeys acc.1 evs, st).

Definition polls `{MapRange} (ownerId apiToken : string) (answers : list (option (list DrpcKey)))
    (keys : gmap string Key) : gmap string Key * OwnerState :=
  foldl (poll ownerId apiToken) (keys, mkOwnerState ∅ ∅) answers.

(** ** The store follows the owner *)

(** The keys of an answer by value; a later one replaces an earlier one. *)
Definition keys_of (ks : list DrpcKey) : gmap string DrpcKey := foldl (fun m k => <[ApiKey k := k]> m) ∅ ks.

Definition last_answer (answers : list (option (list DrpcKey))) : list DrpcKey :=
  foldl (fun acc a => default acc a) [] answers.

(** The events between a state and the next keep the store in step with it. *)
Definition in_step (base : gmap string Key) (current : gmap string DrpcKey) (keys : gmap string Key) : Prop :=
  keys = (KeyDrpc <$> current) ∪ base.

Definition by_value (m : gmap string DrpcKey) : Prop := forall v k, m !! v = Some k -> ApiKey k = v.

Lemma watchKeys_app keys evs evs' : watchKeys keys (evs ++ evs') = watchKeys (watchKeys keys evs) evs'.
Proof. apply foldl_app. Qed.

Section Follow.
Context `{MR : MapRange} (ownerId apiToken : string) (base : gmap string Key).

Lemma poll_keys_step ks keys0 evs st evs' st' :
  in_step base (currentKeys st) (watchKeys keys0 evs) -> by_value (currentKeys st) ->
  foldl (poll_key ownerId apiToken) (evs, st) ks = (evs', st') ->
  in_step base (currentKeys st') (watchKeys keys0 evs') /\ by_value (currentKeys st') /\
  currentKeys st' = foldl (fun m k => <[ApiKey k := k]> m) (currentKeys st) ks.
Proof using Type.
  revert evs st. induction ks as [|k ks IH]; intros evs st Hs Hb; simpl; [by intros [= <- <-]|].
  case_bool_decide as Hk.
  - rewrite (insert_id (currentKeys st)) by done. intros E. by apply IH in E.
  - intros E. apply IH in E; [exact E|..]; simpl.
    + rewrite watchKeys_app. unfold in_step in *. rewrite Hs, fmap_insert. simpl.
      by rewrite insert_union_l.
    + intros v k'. rewrite lookup_insert_Some. intros [[<- <-]|[_ Hv]]; [done|by apply Hb].
Qed.

Lemma drop_keys_step newKeys l keys0 evs st evs' st' :
  in_step base (currentKeys st) (watchKeys keys0 evs) -> by_value (currentKeys st) ->
  NoDup l.*1 -> (forall v k, (v, k) ∈ l -> currentKeys st !! v = Some k) ->
  (forall v, v ∈ l.*1 -> base !! v = None) ->
  foldl (drop_key newKeys) (evs, st) l = (evs', st') ->
  in_step base (currentKeys st') (watchKeys keys0 evs') /\ by_value (currentKeys st') /\
  forall v, currentKeys st' !! v =
    if bool_decide (v ∈ l.*1 /\ v ∉ newKeys) then None else currentKeys st !! v.
Proof using Type.
  revert evs st. induction l as [|[v k] l IH]; intros evs st Hs Hb Hn Hl Hd.
  { intros [= <- <-]. split; [done|]. split; [done|]. intros v. rewrite bool_decide_eq_false_2; [done|].
    by intros [?%elem_of_nil _]. }
  cbn [foldl drop_key].
  cbn [fmap list_fmap] in Hn, Hd. apply NoDup_cons in Hn as [Hv Hn].
  assert (currentKeys st !! v = Some k) as Ek by (apply Hl; by left). pose proof (Hb _ _ Ek) as Ev.
  case_bool_decide as Hin; intros E.
  - apply IH in E as (H1 & H2 & H3); [|done|done|done|intros; apply Hl; by right|intros; apply Hd; by right].
    split_and!; [done..|]. intros x. rewrite H3. erewrite bool_decide_ext; [done|].
    cbn [fmap list_fmap fst]. rewrite elem_of_cons. naive_solver.
  - apply IH in E as (H1 & H2 & H3); [| | |done| |intros; apply Hd; by right].
    + split_and!; [done..|]. intros x. rewrite H3. cbn [currentKeys].
      destruct (decide (x = v)) as [-> |Hne].
      * rewrite lookup_delete_eq, (bool_decide_eq_true_2 (v ∈ ((v, k) :: l).*1 /\ _)); [by destruct (bool_decide _)|].
        split; [by left|done].
      * rewrite lookup_delete_ne by done. erewrite bool_decide_ext; [done|].
        cbn [fmap list_fmap fst]. rewrite elem_of_cons. naive_solver.
    + rewrite watchKeys_app. unfold in_step in *. rewrite Hs. simpl. rewrite Ev.
      rewrite delete_union, fmap_delete, (delete_id base); [done|]. apply Hd. by left.
    + intros x y. simpl. rewrite lookup_delete_Some. intros [_ Hx]. by apply Hb.
    + intros x y Hx. simpl. rewrite lookup_delete_ne; [apply Hl; by right|]. intros <-.
      apply Hv, list_elem_of_fmap. by exists (v, y).
Qed.

Lemma insert_keys_union ks (m1 m2 : gmap string DrpcKey) :
  foldl (fun m k => <[ApiKey k := k]> m) (m1 ∪ m2) ks = foldl (fun m k => <[ApiKey k := k]> m) m1 ks ∪ m2.
Proof using Type.
  revert m1. induction ks as [|k ks IH]; intros m1; [done|]. simpl. by rewrite insert_union_l, IH.
Qed.

Lemma keys_of_None ks v : keys_of ks !! v = None <-> v ∉ map ApiKey ks.
Proof using Type.
  unfold keys_of. induction ks as [|k ks IH] using rev_ind.
  - split; [intros _; apply not_elem_of_nil|done].
  - rewrite foldl_app, map_app. simpl. rewrite lookup_insert_None, IH, elem_of_app, list_elem_of_singleton. naive_solver.
Qed.

Lemma keys_of_elem ks v k : keys_of ks !! v = Some k -> k ∈ ks.
Proof using Type.
  unfold keys_of. induction ks as [|k' ks IH] using rev_ind; [done|]. rewrite foldl_app. simpl.
  rewrite lookup_insert_Some, elem_of_app, list_elem_of_singleton. intros [[_ <-]|[_ Hv]]; [by right|left; by apply IH].
Qed.

Lemma keys_of_by_value ks : by_value (keys_of ks).
Proof using Type.
  unfold keys_of. induction ks as [|k ks IH] using rev_ind; [done|]. rewrite foldl_app. simpl.
  intros v k'. rewrite lookup_insert_Some. intros [[<- <-]|[_ Hv]]; [done|by apply IH].
Qed.

Lemma processKeys_follows ks old keys st keys' st' :
  currentKeys st = keys_of old -> in_step base (currentKeys st) keys ->
  (forall k, k ∈ old \/ k ∈ ks -> base !! ApiKey k = None) ->
  poll ownerId apiToken (keys, st) (Some ks) = (keys', st') ->
  currentKeys st' = keys_of ks /\ in_step base (currentKeys st') keys'.
Proof using Type.
  intros Hc Hs Hd. unfold poll, processKeys. cbn [fst snd].
  destruct (foldl (poll_key ownerId apiToken) ([], st) ks) as [evs1 st1] eqn:E1.
  apply (poll_keys_step ks keys) in E1 as (Hs1 & Hb1 & Hm1); [|done|rewrite Hc; apply keys_of_by_value].
  rewrite Hc in Hm1. rewrite <- (map_empty_union (keys_of old)), insert_keys_union in Hm1.
  change (foldl _ ∅ ks) with (keys_of ks) in Hm1.
  destruct (foldl (drop_key _) _ _) as [evs2 st2] eqn:E2. intros [= <- <-].
  assert (forall v, v ∈ (range (currentKeys st1)).*1 <-> is_Some (currentKeys st1 !! v)) as Hr
    by (intros v; apply elem_of_range_keys).
  apply (drop_keys_step _ _ keys) in E2 as (Hs2 & _ & Hm2); [|done|done|..].
  - split; [|done]. apply map_eq. intros v. rewrite Hm2. case_bool_decide as Hi.
    + symmetry. apply keys_of_None. rewrite elem_of_list_to_set in Hi. tauto.
    + destruct (decide (v ∈ map ApiKey ks)) as [Hv|Hv].
      * assert (is_Some (keys_of ks !! v)) as [k Hk]
          by (destruct (keys_of ks !! v) eqn:E; [by eexists|by apply keys_of_None in E]).
        rewrite Hm1, Hk. by apply lookup_union_Some_l.
      * rewrite (proj2 (keys_of_None ks v) Hv). apply eq_None_not_Some. intros Hsome. apply Hi.
        rewrite Hr, elem_of_list_to_set. done.
  - rewrite range_perm. apply NoDup_fst_map_to_list.
  - intros v k Hin. by apply elem_of_range.
  - intros v [k Hk]%Hr. pose proof (Hb1 v k Hk) as <-. rewrite Hm1 in Hk. apply Hd.
    apply lookup_union_Some_raw in Hk as [Hk|[_ Hk]]; [right|left]; by eapply keys_of_elem.
Qed.
End Follow.

Lemma last_answer_others answers (others : gmap string Key) k :
  (forall ks k, Some ks ∈ answers -> k ∈ ks -> others !! ApiKey k = None) ->
  k ∈ last_answer answers -> others !! ApiKey k = None.
Proof.
  unfold last_answer. induction answers as [|a answers IH] using rev_ind; [by intros _ ?%elem_of_nil|].
  rewrite foldl_app. simpl. intros Hd. destruct a as [ks|]; simpl.
  - intros Hk. apply (Hd ks); [set_solver|done].
  - apply IH. intros ks k' Hin. apply Hd. set_solver.
Qed.

(** The keys the service accepts follow the owner's account: after any polls,
    failed ones included, they are exactly the keys of the last answer, with the
    settings it gave, beside the keys of other sources.  A key that is removed
    or changed at the owner is refused, or enforced as changed, after the next
    poll, and a poll that fails takes no key away. *)
Theorem key_store_follows_owner `{MapRange} ownerId apiToken answers (others : gmap string Key) :
  (forall ks k, Some ks ∈ answers -> k ∈ ks -> others !! ApiKey k = None) ->
  let '(keys, st) := polls ownerId apiToken answers others in
  keys = (KeyDrpc <$> keys_of (last_answer answers)) ∪ others /\
  currentKeys st = keys_of (last_answer answers).
Proof.
  unfold polls. induction answers as [|a answers IH] using rev_ind; intros Hd.
  { cbn [foldl]. change (keys_of (last_answer [])) with (∅ : gmap string DrpcKey).
    by rewrite fmap_empty, map_empty_union. }
  rewrite foldl_app. cbn [foldl].
  destruct (foldl (poll ownerId apiToken) (others, mkOwnerState ∅ ∅) answers) as [keys st].
  assert (forall ks k, Some ks ∈ answers -> k ∈ ks -> others !! ApiKey k = None) as Hd'
    by (intros ks k Hin; apply Hd; set_solver).
  destruct (IH Hd') as [Hk Hc]. pose proof (last_answer_others answers others) as Hl.
  unfold last_answer in *. rewrite foldl_app. cbn [foldl]. destruct a as [ks|]; [|by simpl].
  destruct (poll ownerId apiToken (keys, st) (Some ks)) as [keys' st'] eqn:Ep.
  apply (processKeys_follows _ _ others ks (foldl (fun acc a => default acc a) [] answers)) in Ep as [Hc' Hs'];
    [|done|rewrite Hc; exact Hk|].
  - simpl. rewrite <- Hc'. split; [exact Hs'|done].
  - intros k [Hin|Hin]; [by apply Hl|]. apply (Hd ks); [set_solver|done].
Qed.

Definition demo_key (v : string) (methods : list string) : DrpcKey := mkDrpcKey "id" [] [] methods [] [] v.

#[local] Existing Instance Prelude.default_range.

Lemma key_store_follows_owner_witness :
  let '(keys, _) := polls "o" "t" [Some [demo_key "a" []; demo_key "b" []]; None; Some [demo_key "b" ["eth_call"]]] ∅ in
  keys !! "a" = None /\ keys !! "b" = Some (KeyDrpc (demo_key "b" ["eth_call"])).
Proof.
  pose proof (key_store_follows_owner "o" "t"
    [Some [demo_key "a" []; demo_key "b" []]; None; Some [demo_key "b" ["eth_call"]]] ∅
    (fun _ _ _ _ => lookup_empty _)) as Hk.
  destruct (polls _ _ _ _) as [keys st]. destruct Hk as [-> _]. split; reflexivity.
Defined.

(** ** What a key permits *)

Section Permits.
Context `{MP : MethodParsers} `{PJ : ParamJson}.

(** The addresses of a filter of logs: one address or an array of addresses, each
    of the whitelist.  A filter without the member does not pass; one whose member
    is an empty array, or neither a string nor an array, does, although it names
    no contract (see [logs_of_all_contracts_pass]). *)
Definition addresses_ok (contracts : list string) (node : ParamNode) : Prop :=
  match node with
  | NodeString address => address ∈ contracts
  | NodeArray l => Forall (fun entry => exists address, entry = Some address /\ address ∈ contracts) l
  | NodeOther => True
  | NodeMissing | NodeBroken _ => False
  end.

(** The restriction to contracts, for the two methods it covers. *)
Definition contracts_ok (contracts : list string) (request : RequestHolder) : Prop :=
  contracts = [] \/
  ((request_Method request = "eth_call" ->
      exists body toParam, request_Body request = inr body /\ first_param_field body "to" = NodeString toParam /\
        toParam ∈ contracts) /\
   (request_Method request = "eth_getLogs" ->
      exists body, request_Body request = inr body /\ addresses_ok contracts (first_param_field body "address"))).

Lemma contract_allowed_None contracts a : contract_allowed contracts a = None <-> a ∈ contracts.
Proof using Type. unfold contract_allowed. by rewrite check_None, negb_false_iff, bool_decide_eq_true. Qed.

Lemma contracts_allowed contracts l :
  first_error (map (contract_allowed contracts) l) = None <-> Forall (fun a => a ∈ contracts) l.
Proof using Type.
  rewrite first_error_None, Forall_map. apply Forall_iff. intros a. apply contract_allowed_None.
Qed.

Lemma addresses_allowed contracts l :
  match string_entries l with
  | inl _ => False
  | inr addresses => first_error (map (contract_allowed contracts) addresses) = None
  end <-> addresses_ok contracts (NodeArray l).
Proof using Type.
  cbn [addresses_ok]. induction l as [|[a|] l IH]; cbn [string_entries]; rewrite ?Forall_cons, ?Forall_nil.
  - done.
  - rewrite <- IH. destruct (string_entries l) as [e|ss]; [naive_solver|].
    rewrite !contracts_allowed, Forall_cons. naive_solver.
  - naive_solver.
Qed.

(** The check accepts exactly the calls the restriction allows. *)
Lemma CheckContracts_ok contracts request : CheckContracts contracts request = None <-> contracts_ok contracts request.
Proof using Type.
  unfold CheckContracts, contracts_ok. case_bool_decide as Hc; [tauto|].
  destruct (decide (request_Method request = "eth_call")) as [Hm|Hm].
  { rewrite Hm, bool_decide_eq_true_2 by done. destruct (request_Body request) as [err|body]; [naive_solver|].
    transitivity (exists to, first_param_field body "to" = NodeString to /\ to ∈ contracts); [|naive_solver].
    destruct (first_param_field body "to") as [| |s| |]; try (split; [done|naive_solver]).
    rewrite contract_allowed_None. naive_solver. }
  rewrite bool_decide_eq_false_2 by done.
  destruct (decide (request_Method request = "eth_getLogs")) as [Hl|Hl].
  2:{ rewrite bool_decide_eq_false_2 by done. naive_solver. }
  rewrite Hl, bool_decide_eq_true_2 by done. destruct (request_Body request) as [err|body]; [naive_solver|].
  transitivity (addresses_ok contracts (first_param_field body "address")); [|naive_solver].
  destruct (first_param_field body "address") as [| |a|l|]; try done.
  - apply contract_allowed_None.
  - rewrite <- addresses_allowed. by destruct (string_entries l).
Qed.

Definition method_ok (allowed forbidden : list string) (method : string) : Prop :=
  (allowed = [] \/ method ∈ allowed) /\ method ∉ forbidden.

Lemma CheckMethod_ok allowed forbidden method :
  CheckMethod allowed forbidden method = None -> method_ok allowed forbidden method.
Proof using Type.
  unfold CheckMethod, method_ok. intros Hv. accepted Hv. destruct Hv as (H1 & H2 & _). split.
  - apply andb_false_iff in H1 as [H1|H1]; accepted H1; [by left|by right].
  - apply andb_false_iff in H2 as [H2|H2]; accepted H2; [subst; apply not_elem_of_nil|done].
Qed.

(** The settings of a key: addresses, methods and contracts. *)
Definition allowed_ips (k : Key) : list string :=
  match k with
  | KeyLocal k => match l_settings k with Some s => ks_AllowedIps s | None => [] end
  | KeyDrpc k => IpWhitelist k
  end.

Definition method_lists_of (k : Key) : list string * list string :=
  match k with
  | KeyLocal k => default ([], []) (l_settings k ≫= ks_Methods)
  | KeyDrpc k => (MethodsWhitelist k, MethodsBlacklist k)
  end.

Definition contracts_of (k : Key) : list string :=
  match k with
  | KeyLocal k => default [] (l_settings k ≫= ks_Contracts)
  | KeyDrpc k => ContractWhitelist k
  end.

Definition permits_ips (k : Key) (ips : gset string) : Prop :=
  allowed_ips k = [] \/ exists ip, ip ∈ allowed_ips k /\ ip ∈ ips.

Definition permits (k : Key) (request : RequestHolder) : Prop :=
  method_ok (method_lists_of k).1 (method_lists_of k).2 (request_Method request) /\ contracts_ok (contracts_of k) request.

Lemma check_ips_ok allowed ips :
  check_ips allowed ips = None -> allowed = [] \/ exists ip, ip ∈ allowed /\ ip ∈ ips.
Proof using Type.
  unfold check_ips. case_bool_decide; [by left|]. rewrite check_None, negb_false_iff, existsb_exists.
  intros (ip & Hin & Hd). right. exists ip. split; [by apply list_elem_of_In|by apply bool_decide_eq_true in Hd].
Qed.

Lemma PreCheckSetting_ok ips k : (PreCheckSetting ips k).2 = None -> permits_ips k ips.
Proof using Type.
  unfold permits_ips. destruct k as [k|k]; simpl; [|apply check_ips_ok].
  destruct (l_settings k); simpl; [apply check_ips_ok|by left].
Qed.

Lemma PostCheckSetting_ok request k : PostCheckSetting request k = None -> permits k request.
Proof using Type.
  unfold permits. destruct k as [k|k]; cbn [PostCheckSetting method_lists_of contracts_of].
  - destruct (l_settings k) as [s|]; cbn [mbind option_bind default from_option].
    + intros Hv. accepted Hv. destruct Hv as (H1 & H2 & _).
      split; [by apply CheckMethod_ok|by apply CheckContracts_ok].
    + intros _. split; [|by left]. split; [by left|apply not_elem_of_nil].
  - intros Hv. accepted Hv. destruct Hv as (H1 & H2 & _). split; [by apply CheckMethod_ok|by apply CheckContracts_ok].
Qed.

(** A filter of logs with an empty list of addresses, or with a null one, passes
    every restriction to contracts, although the node reads it as all contracts. *)
Lemma logs_of_all_contracts_pass contracts request body :
  request_Method request = "eth_getLogs" -> request_Body request = inr body ->
  first_param_field body "address" ∈ [NodeArray []; NodeOther] ->
  CheckContracts contracts request = None.
Proof using Type.
  intros Hm Hb Hf. unfold CheckContracts. case_bool_decide; [done|]. rewrite Hm, Hb.
  apply elem_of_cons in Hf as [-> |Hf]; [done|]. by apply list_elem_of_singleton in Hf as ->.
Qed.
End Permits.
