(* ===== verification/MethodTranslation.v ===== *)
(** Methods served under another name or protocol
    ([internal/upstreams/flow/method_translation.go]): an alias of a JSON-RPC
    method, and bitcoind's [listunspent] over an esplora REST upstream. *)

From S2P Require Import Prelude.
From S2P Require Import GoStrings.
From S2P Require Import Errors.
From S2P Require Import Responses.
From S2P Require Import Specs.
From S2P Require Import Requests.
From Stdlib Require Import Ascii.

#[local] Arguments String.append !_ _ /.

Record esploraUtxo := mkEsploraUtxo {
  eu_Txid : string;
  eu_Vout : Z;
  eu_Confirmed : bool;
  eu_BlockHeight : Z;
  eu_Value : Z;
}.

Record listUnspentUtxo := mkListUnspent {
  lu_Txid : string;
  lu_Vout : Z;
  lu_Address : string;
  lu_Amount : string;
  lu_Confirmations : Z;
}.

(** A decoded parameter; [JOther] is a number, a boolean, null or an object. *)
Inductive JsonParam := JString (s : string) | JArray (l : list JsonParam) | JOther.

Record JsonRpcRequestBody := mkRequestBody { rb_Id : string; rb_Method : string; rb_Params : string }.

(** The decoding and encoding of [sonic]. *)
Class TranslationJson := {
  unmarshal_body : string -> GoError + JsonRpcRequestBody;
  unmarshal_params : string -> option (list JsonParam);
  unmarshal_utxos : string -> GoError + list esploraUtxo;
  marshal_unspent : list listUnspentUtxo -> GoError + string;
}.

Definition satsPerBtc : Z := 100000000.

(** [%08d] of a number that is not negative. *)
Definition zeros (n : nat) : string := Nat.iter n (String "0") "".
Definition pad8 (n : Z) : string :=
  let s := FormatUint n in zeros (8 - String.length s) +:+ s.

Definition satsToBtc (sats : Z) : string :=
  FormatUint (sats / satsPerBtc) +:+ "." +:+ pad8 (sats mod satsPerBtc).

Definition utxoConfirmations (confirmed : bool) (blockHeight headHeight : Z) : Z :=
  if negb confirmed || (blockHeight =? 0) || (headHeight <? blockHeight) then 0
  else u64 (headHeight - blockHeight + 1).

(** The loop over the parameters. *)
Fixpoint address_in (params : list JsonParam) : GoError + string :=
  match params with
  | [] => inl (RespError (InvalidParamsError "listunspent requires an address"))
  | JString value :: _ => inr value
  | JArray [JString address] :: _ => inr address
  | JArray [_] :: _ => inl (RespError (InvalidParamsError "listunspent address must be a string"))
  | JArray _ :: _ => inl (RespError (InvalidParamsError "listunspent supports exactly one address"))
  | JOther :: params => address_in params
  end.

Inductive methodTranslator :=
| jsonRpcMethodAlias (specName target : string)
| bitcoinListUnspentTranslator (specName : string).

Definition getMethodTranslator (specName method : string) : option methodTranslator :=
  if bool_decide (specName = "bitcoin") then
    if bool_decide (method = "getblocknumber") then Some (jsonRpcMethodAlias "bitcoin" "getblockcount")
    else if bool_decide (method = "listunspent") then Some (bitcoinListUnspentTranslator "bitcoin")
    else None
  else None.

Definition esploraAddressUtxoMethod : string := "GET#/address/*/utxo".

Section Translate.
Context `{MR : MapRange} `{MP : MethodParsers} `{TJ : TranslationJson} (reg : Registry).

Definition listUnspentAddress (rawParams : string) : GoError + string :=
  if bool_decide (rawParams = "") then address_in []
  else match unmarshal_params rawParams with
       | None => inl (RespError (InvalidParamsError "listunspent params must be an array"))
       | Some params => address_in params
       end.

Definition jsonRpcBodyOf (request : RequestHolder) : GoError + JsonRpcRequestBody :=
  match request_Body request with
  | inl err => inl (RespError (ClientError err))
  | inr rawBody =>
    match unmarshal_body rawBody with
    | inl err => inl (RespError (ClientError err))
    | inr body => inr body
    end
  end.

Definition TranslateRequest (t : methodTranslator) (request : RequestHolder) : GoError + RequestHolder :=
  match jsonRpcBodyOf request with
  | inl err => inl err
  | inr body =>
    match t with
    | jsonRpcMethodAlias specName target =>
      inr (NewUpstreamJsonRpcRequest reg (request_Id request) (rb_Id body) target (rb_Params body) false specName
             (Selectors request))
    | bitcoinListUnspentTranslator specName =>
      match listUnspentAddress (rb_Params body) with
      | inl err => inl err
      | inr address =>
        inr (NewUpstreamRestRequest reg (request_Id request) esploraAddressUtxoMethod
               (Some (mkRequestParams ∅ ∅ [address])) "" specName (Selectors request))
      end
    end
  end.

Definition unspent_of (address : string) (headHeight : Z) (u : esploraUtxo) : listUnspentUtxo :=
  mkListUnspent (eu_Txid u) (eu_Vout u) address (satsToBtc (eu_Value u))
    (utxoConfirmations (eu_Confirmed u) (eu_BlockHeight u) headHeight).

Definition TranslateResponse (t : methodTranslator) (request upstreamRequest : RequestHolder)
    (upstreamHeadHeight : Z) (response : ResponseHolder) : ResponseHolder :=
  match t with
  | jsonRpcMethodAlias _ _ => response
  | bitcoinListUnspentTranslator _ =>
    if HasError response then response
    else match unmarshal_utxos (ResponseResult response) with
         | inl err => NewTotalFailureFromErr (request_Id request) (RespError (IncorrectResponseBodyError err)) JsonRpc
         | inr utxos =>
           let address := match request_params upstreamRequest with
                          | Some p => default "" (head (rp_PathParams p))
                          | None => ""
                          end in
           match marshal_unspent (map (unspent_of address upstreamHeadHeight) utxos) with
           | inl err => NewTotalFailureFromErr (request_Id request) (RespError (IncorrectResponseBodyError err)) JsonRpc
           | inr result => NewSimpleHttpUpstreamResponse (request_Id request) result JsonRpc
           end
         end
  end.
End Translate.

(** ** Amounts *)

(** The amount an exact decimal of eight places stands for, in satoshis. *)
Definition btcToSats (s : string) : option Z :=
  let '(whole, frac) := cut_at "." s in
  if bool_decide (whole = "") || negb (String.length frac =? 8)%nat then None
  else match parse_digits 0 whole, parse_digits 0 frac with
       | Some w, Some f => Some (w * satsPerBtc + f)
       | _, _ => None
       end.

Lemma parse_zeros n s : parse_digits 0 (zeros n +:+ s) = parse_digits 0 s.
Proof. induction n as [|n IH]; [done|exact IH]. Qed.

Lemma zeros_length n : String.length (zeros n) = n.
Proof. induction n as [|n IH]; simpl; [done|]. by f_equal. Qed.

Lemma pretty_N_go_length k x s :
  (x < 10 ^ N.of_nat k)%N -> (String.length (pretty_N_go x s) <= k + String.length s)%nat.
Proof.
  revert x s. induction k as [|k IH]; intros x s Hx.
  - assert (x = 0)%N as -> by (simpl in Hx; lia). by rewrite pretty_N_go_0.
  - assert (x = 0 \/ 0 < x)%N as [-> |Hp] by lia; [rewrite pretty_N_go_0; lia|].
    rewrite pretty_N_go_step by done. rewrite Nat2N.inj_succ, N.pow_succ_r' in Hx.
    etransitivity; [apply IH; by apply N.Div0.div_lt_upper_bound|]. simpl. lia.
Qed.

(** A number below a hundred million has at most eight digits. *)
Lemma FormatUint_length n : 0 <= n < satsPerBtc -> (String.length (FormatUint n) <= 8)%nat.
Proof.
  intros Hn. unfold FormatUint, pretty, pretty_N. case_decide; [simpl; lia|].
  etransitivity; [apply (pretty_N_go_length 8)|simpl; lia].
  change (10 ^ N.of_nat 8)%N with 100000000%N. unfold satsPerBtc in Hn. lia.
Qed.

Lemma pad8_length n : 0 <= n < satsPerBtc -> String.length (pad8 n) = 8%nat.
Proof.
  intros Hn. unfold pad8. rewrite length_append_str, zeros_length. pose proof (FormatUint_length n Hn). lia.
Qed.

(** An amount in satoshis is written as the exact decimal number of bitcoins
    with eight places: reading it back gives the amount. *)
Theorem satsToBtc_exact sats : 0 <= sats -> btcToSats (satsToBtc sats) = Some sats.
Proof.
  intros Hs. unfold btcToSats, satsToBtc. change ("." +:+ ?x) with (String "." x).
  assert (0 < satsPerBtc) as Hp by done.
  assert (contains_char "." (FormatUint (sats / satsPerBtc)) = false) as Hdot.
  { apply FormatUint_no_char. intros d _. unfold pretty_N_char. by repeat case_match. }
  rewrite cut_at_app by done. rewrite pad8_length by (apply Z.mod_pos_bound; done).
  rewrite bool_decide_eq_false_2 by apply FormatUint_nonempty. simpl.
  rewrite parse_FormatUint by (by apply Z.div_pos). unfold pad8. rewrite parse_zeros.
  rewrite parse_FormatUint by (by apply Z.mod_pos_bound). f_equal.
  rewrite Z.mul_comm. symmetry. by apply Z.div_mod.
Qed.

Lemma satsToBtc_exact_witness : btcToSats (satsToBtc 1234567890123) = Some 1234567890123.
Proof. apply satsToBtc_exact. lia. Defined.
