(* ===== verification/Send.v ===== *)
(** Sending a unary request to an upstream
    ([internal/upstreams/flow/request_processor.go]): the translation of the
    method, the choice of the connector, what the response says about the
    upstream, and the processor that runs the attempts of a request.

    The upstreams, their connectors and the executor of the resilience policies
    are behind the interface [Net], over a world [W]. *)

From S2P Require Import Prelude.
From S2P Require Import GoStrings.
From S2P Require Import Protocol.
From S2P Require Import Errors.
From S2P Require Import Responses.
From S2P Require Import Specs.
From S2P Require Import UpstreamState.
From S2P Require Import Matchers.
From S2P Require Import Requests.
From S2P Require Import MethodTranslation.
From Stdlib Require Import Ascii.

(** The block tags of go-ethereum's [rpc] package. *)
Class RpcTags := {
  LatestBlockNumber : Z;
  SafeBlockNumber : Z;
  FinalizedBlockNumber : Z;
}.

(** The tags are three different negative numbers. *)
Class RpcTagsLaws `{RpcTags} : Prop := {
  tags_negative : LatestBlockNumber < 0 /\ SafeBlockNumber < 0 /\ FinalizedBlockNumber < 0;
  tags_distinct : NoDup [LatestBlockNumber; SafeBlockNumber; FinalizedBlockNumber];
}.

(** What the flow uses of the upstreams: [net_upstream] tells whether
    [GetUpstream] knows an id, [net_send] is [SendRequest] of a connector; the
    last four change the upstream's state. *)
Class Net (W : Type) := {
  net_upstream : string -> bool;
  net_specName : string -> string;
  net_connector : string -> ApiConnectorType -> bool;
  net_drpc : string -> bool;
  net_hashIndex : string -> string;
  net_state : string -> W -> UpstreamState;
  net_head : string -> W -> Z;
  net_now : W -> Z;
  net_send : string -> ApiConnectorType -> RequestHolder -> W -> ResponseHolder * W;
  net_IncErrors : string -> W -> W;
  net_UpdateLowerBound : string -> LowerBoundData -> W -> W;
  net_UpdateHead : string -> Z -> Z -> W -> W;
  net_UpdateBlock : string -> Block -> BlockType -> W -> W;
  net_BanMethod : string -> string -> W -> W;
}.

Definition NoUpstream : string := "NoUpstream".

(** ** What a response tells *)

Section Metadata.
Context `{RT : RpcTags}.

Definition requestBlockTagMetadata (param : MethodParam) : option RequestBlockTag :=
  match param with
  | BlockNumberParam n =>
    if n =? LatestBlockNumber then Some BlockTagLatest
    else if n =? SafeBlockNumber then Some BlockTagSafe
    else if n =? FinalizedBlockNumber then Some BlockTagFinalized
    else None
  | _ => None
  end.

Definition responseFinalizationMetadata (s : UpstreamState) (tag : option RequestBlockTag)
    : option BlockType * Block :=
  let blockType := match tag with
                   | Some BlockTagSafe => Some SafeBlock
                   | Some BlockTagFinalized => Some FinalizedBlock
                   | _ => None
                   end in
  match blockType with
  | None => (None, ZeroBlock)
  | Some t =>
    let block := BlockInfo_GetBlock (st_blocks s) t in
    if IsFullEmpty block then (None, ZeroBlock) else (Some t, block)
  end.
End Metadata.

Definition lowerBoundTypeForMethod (method : string) : option LowerBoundType :=
  if bool_decide (method = "eth_getProof") then Some ProofBound
  else if bool_decide (method = "eth_getLogs") then Some LogsBound
  else if HasPrefix method "trace_" || HasPrefix method "debug_trace" then Some TraceBound
  else None.

Definition lowerBoundRequestBlock (param : MethodParam) : option Z :=
  match param with
  | BlockNumberParam n => if 0 <=? n then Some n else None
  | BlockRangeParam (Some from) _ => if 0 <=? from then Some from else None
  | _ => None
  end.

Definition prunedMarkers : list string :=
  ["missing trie node"; "missing trie node"; "state is not available"; "required historical state unavailable";
   "header not found"; "history has been pruned"; "block #"; "pruned"].

Definition isPrunedHistoryError (message : string) : bool :=
  existsb (Contains (ToLower message)) prunedMarkers.

(** The block is a signed and the head an unsigned machine integer. *)
Definition liveLowerBoundFromPrunedError (now : Z) (method : string) (param : MethodParam)
    (response : ResponseHolder) (currentHead : Z) : option LowerBoundData :=
  match GetError response with
  | None => None
  | Some err =>
    if isPrunedHistoryError (Message err) then
      match lowerBoundTypeForMethod method, lowerBoundRequestBlock param with
      | Some boundType, Some block =>
        if (block <? 0) || (currentHead =? 0) || (currentHead <? u64 block) then None
        else Some (mkLowerBoundData (i64 (block + 1)) now boundType)
      | _, _ => None
      end
    else None
  end.

(** ** Sending *)

Section Send.
Context {W : Type} `{NT : Net W} `{RT : RpcTags} `{MR : MapRange} `{MP : MethodParsers} `{TJ : TranslationJson}.
Context (reg : Registry).

Definition getMethodConnector (upstream : string) (types : list ApiConnectorType) : option ApiConnectorType :=
  find (net_connector upstream) types.

(** A request here has a spec method: the flow answers the others itself. *)
Definition connector_types (r : RequestHolder) : list ApiConnectorType :=
  match SpecMethod r with Some m => apiConnectorTypes m | None => [] end.

Definition empty_wrapper (upstream id : string) (response : ResponseHolder) : ResponseHolderWrapper :=
  mkWrapper upstream id "" None ZeroBlock response.

Definition totalFailureWrapper (request : RequestHolder) (err : GoError) : ResponseHolderWrapper :=
  empty_wrapper NoUpstream (request_Id request)
    (NewTotalFailureFromErr (request_Id request) err (request_RequestType request)).

Definition count_rate_error (upstream : string) (response : ResponseHolder) (w : W) : W :=
  if ResponseCode response =? 429 then
    match AutoTuneRateLimiter (net_state upstream w) with
    | Some limiter => net_IncErrors limiter w
    | None => w
    end
  else w.

Definition record_lower_bound (upstream method : string) (param : MethodParam) (response : ResponseHolder) (w : W) : W :=
  match liveLowerBoundFromPrunedError (net_now w) method param response (net_head upstream w) with
  | Some lowerBound => net_UpdateLowerBound upstream lowerBound w
  | None => w
  end.

(** The part after the translation of the request. *)
Definition send_translated (upstream : string) (request upstreamRequest : RequestHolder)
    (translator : option methodTranslator) (param : MethodParam) (w : W) : (GoError + ResponseHolderWrapper) * W :=
  match getMethodConnector upstream (connector_types upstreamRequest) with
  | None => (inl (RespError (NoApiConnectorsError (request_Method request))), w)
  | Some apiConnector =>
    let '(response, w) := net_send upstream apiConnector upstreamRequest w in
    let response := match translator with
                    | Some t => TranslateResponse t request upstreamRequest (net_head upstream w) response
                    | None => response
                    end in
    let w := count_rate_error upstream response w in
    let upstreamState := net_state upstream w in
    let version := default "" (Labels_GetLabel (st_labels upstreamState) "client_version") in
    let '(blockType, block) := responseFinalizationMetadata upstreamState (requestBlockTagMetadata param) in
    let w := record_lower_bound upstream (request_Method request) param response w in
    (inr (mkWrapper upstream (request_Id request) version blockType block response), w)
  end.

Definition sendUnaryRequest (upstream : string) (request : RequestHolder) (param : MethodParam) (w : W)
    : (GoError + ResponseHolderWrapper) * W :=
  match getMethodTranslator (net_specName upstream) (request_Method request) with
  | None => send_translated upstream request request None param w
  | Some t =>
    match TranslateRequest reg t request with
    | inl err =>
      (inr (empty_wrapper upstream (request_Id request)
         (NewTotalFailureFromErr (request_Id request) err (request_RequestType request))), w)
    | inr translated => send_translated upstream request translated (Some t) param w
    end
  end.

(** ** Attempts

    A strategy is a state [S] with an operation that selects an upstream; the
    errors of the strategies are response errors. *)

Context {S : Type} (SelectUpstream : S -> W -> (ResponseError + string) * (S * W)).

(** One attempt of [executeUnaryRequest], and [selectAndSend]. *)
Definition attempt (request : RequestHolder) (param : MethodParam) (s : S) (w : W)
    : (GoError + ResponseHolderWrapper) * (S * W) :=
  let '(selection, (s, w)) := SelectUpstream s w in
  match selection with
  | inl err => (inl (RespError err), (s, w))
  | inr upstream =>
    let '(result, w) := sendUnaryRequest upstream request param w in (result, (s, w))
  end.

Definition selectAndSend (request : RequestHolder) (param : MethodParam) (s : S) (w : W)
    : (GoError + ResponseHolderWrapper) * (S * W) :=
  let '(selection, (s, w)) := SelectUpstream s w in
  match selection with
  | inl err => (inl (RespError err), (s, w))
  | inr upstream =>
    if net_upstream upstream then
      let '(result, w) := sendUnaryRequest upstream request param w in (result, (s, w))
    else (inl (RespError NoAvailableUpstreamsError), (s, w))
  end.
End Send.

(** ** Where a response comes from *)

Section SendFacts.
Context {W : Type} `{NT : Net W} `{RT : RpcTags} `{MR : MapRange} `{MP : MethodParsers} `{TJ : TranslationJson}.
Context (reg : Registry).

(** Connectors answer a request under its own id. *)
Definition net_tags : Prop := forall up c r (w : W), response_Id (net_send up c r w).1 = request_Id r.

(** A response carries the id of its request, in the wrapper and in itself. *)
Definition tagged (r : RequestHolder) (wr : ResponseHolderWrapper) : Prop :=
  RequestId wr = request_Id r /\ (net_tags -> response_Id (Response wr) = request_Id r).

Lemma tagged_same r r' wr : request_Id r = request_Id r' -> tagged r wr -> tagged r' wr.
Proof using Type. unfold tagged. intros ->. done. Qed.

Lemma total_failure_id id err t : response_Id (NewTotalFailureFromErr id err t) = id.
Proof using Type. unfold NewTotalFailureFromErr. by destruct (as_ResponseError err). Qed.

Lemma failure_tagged r err : tagged r (totalFailureWrapper r err).
Proof using Type. split; [done|]. intros _. apply total_failure_id. Qed.

Lemma translated_id t r r' : TranslateRequest reg t r = inr r' -> request_Id r' = request_Id r.
Proof using Type.
  unfold TranslateRequest. destruct (jsonRpcBodyOf r); [done|]. destruct t; [by intros [= <-]|].
  destruct (listUnspentAddress _); [done|]. by intros [= <-].
Qed.

Lemma translated_response_id t r r' head response :
  response_Id response = request_Id r -> response_Id (TranslateResponse t r r' head response) = request_Id r.
Proof using Type.
  intros Hr. destruct t; [done|]. simpl. destruct (HasError response); [done|].
  destruct (unmarshal_utxos _); [apply total_failure_id|]. destruct (marshal_unspent _); [apply total_failure_id|done].
Qed.

Lemma send_translated_from up r r' t param (w : W) wr w' :
  request_Id r' = request_Id r ->
  send_translated up r r' t param w = (inr wr, w') -> UpstreamId wr = up /\ tagged r wr.
Proof using Type.
  intros Hr. unfold send_translated. destruct (getMethodConnector up _) as [c|]; [|done].
  destruct (net_send up c r' w) as [response w1] eqn:E. destruct (responseFinalizationMetadata _ _). intros [= <- <-].
  split; [done|]. split; [done|]. intros Ht. specialize (Ht up c r' w). rewrite E, Hr in Ht. simpl in *.
  destruct t; [by apply translated_response_id|done].
Qed.

Lemma sendUnaryRequest_from up r param (w : W) wr w' :
  sendUnaryRequest reg up r param w = (inr wr, w') -> UpstreamId wr = up /\ tagged r wr.
Proof using Type.
  unfold sendUnaryRequest. destruct (getMethodTranslator _ _) as [t|]; [|by apply send_translated_from].
  destruct (TranslateRequest reg t r) as [err|r'] eqn:E; [|by apply send_translated_from, (translated_id t)].
  intros [= <- <-]. split; [done|]. split; [done|]. intros _. apply total_failure_id.
Qed.

Lemma attempt_from {S} (select : S -> W -> (ResponseError + string) * (S * W)) r param s w wr sw :
  attempt reg select r param s w = (inr wr, sw) ->
  tagged r wr /\ exists sw', select s w = (inr (UpstreamId wr), sw').
Proof using Type.
  unfold attempt. destruct (select s w) as [[err|up] [s1 w1]] eqn:E; [done|].
  destruct (sendUnaryRequest reg up r param w1) as [result w2] eqn:Es. intros [= -> <-].
  apply sendUnaryRequest_from in Es as [<- Hr]. eauto.
Qed.
End SendFacts.

Lemma totalFailureWrapper_HasError r err : HasError (Response (totalFailureWrapper r err)) = true.
Proof. apply TotalFailureFromErr_HasError. Qed.

(** ** Bounds learnt from errors *)

(** A live lower bound is only learnt from an error that speaks of pruned
    history, for a method whose history has a bound of its own, and for a block
    the upstream's head has reached; the bound is the next block, so never above
    the head's successor. *)
Theorem live_lower_bound_sound now method param response head bound :
  0 <= head < two63 - 1 -> (forall block, lowerBoundRequestBlock param = Some block -> is_i64 block) ->
  liveLowerBoundFromPrunedError now method param response head = Some bound ->
  exists e block, GetError response = Some e /\ isPrunedHistoryError (Message e) = true /\
    lowerBoundTypeForMethod method = Some (BoundType bound) /\ BoundType bound ∈ [ProofBound; LogsBound; TraceBound] /\
    lowerBoundRequestBlock param = Some block /\ Bound bound = block + 1 /\ 0 <= block <= head /\
    Timestamp bound = now.
Proof.
  intros Hh Hi. unfold liveLowerBoundFromPrunedError. destruct (GetError response) as [e|]; [|done].
  destruct (isPrunedHistoryError (Message e)) eqn:Ep; [|done].
  destruct (lowerBoundTypeForMethod method) as [t|] eqn:Et; [|done].
  destruct (lowerBoundRequestBlock param) as [block|] eqn:Eb; [|done].
  destruct (_ || _ || _) eqn:Ec; [done|]. apply orb_false_iff in Ec as [Ec Hle]. apply orb_false_iff in Ec as [Hneg Hz].
  specialize (Hi block eq_refl). unfold is_i64 in Hi. reflect_bool. intros [= <-]. exists e, block.
  rewrite u64_id in Hle by (unfold is_u64; unfold two63, two64 in *; lia).
  split_and!; try done; simpl.
  - unfold lowerBoundTypeForMethod in Et. repeat case_match; simplify_eq; set_solver.
  - apply i64_id. unfold is_i64, two63 in *. lia.
Qed.

Lemma live_lower_bound_sound_witness :
  liveLowerBoundFromPrunedError 7 "trace_block" (BlockNumberParam 5)
    (NewHttpUpstreamResponseWithError (mkResponseError (-32000) "Block #5 not found")) 100 =
    Some (mkLowerBoundData 6 7 TraceBound) /\ 0 <= 5 <= 100.
Proof.
  assert (liveLowerBoundFromPrunedError 7 "trace_block" (BlockNumberParam 5)
    (NewHttpUpstreamResponseWithError (mkResponseError (-32000) "Block #5 not found")) 100 =
    Some (mkLowerBoundData 6 7 TraceBound)) as E by (by vm_compute).
  split; [exact E|].
  destruct (live_lower_bound_sound 7 "trace_block" (BlockNumberParam 5) _ 100 _ ltac:(unfold two63; lia)
    ltac:(intros b [= <-]; unfold is_i64, two63; lia) E) as (_ & b & _ & _ & _ & _ & [= <-] & _ & Hb & _). exact Hb.
Defined.
