(* ===== verification/HttpServer.v ===== *)
(** The HTTP server: from an incoming call to the requests that are executed, and
    from the responses back to the body the client reads
    ([internal/server/http_server/http_server.go], [handlers.go], [rest_parser.go],
    [pkg/utils/strings.go]).

    The executed requests are answered by the flow; what it promises the server is
    the class [Execution]. *)

From S2P Require Import Prelude.
From S2P Require Import GoStrings.
From S2P Require Import GoHttp.
From S2P Require Import JsonStream.
From S2P Require Import Protocol.
From S2P Require Import Errors.
From S2P Require Import Responses.
From S2P Require Import Specs.
From S2P Require Import PathMatcher.
From S2P Require Import Matchers.
From S2P Require Import Config.
From S2P Require Import Chains.
From S2P Require Import ClientIp.
From S2P Require Import AppConfig.
From S2P Require Import Requests.
From S2P Require Import Access.
From S2P Require Import MethodTranslation.
From S2P Require Import Send.
From S2P Require Import BatchStream.
From Stdlib Require Import Ascii.

#[local] Arguments String.append !_ _ /.

(** ** Strings *)

(** [bytes.TrimLeft(body, " \t\n\r")] *)
Fixpoint trim_left_ws (s : string) : string :=
  match s with
  | String a s' => if bool_decide (N_of_ascii a ∈ [32; 9; 10; 13]%N) then trim_left_ws s' else s
  | EmptyString => s
  end.

(** [regexp.QuoteMeta] *)
Definition meta_chars : list ascii := String.list_ascii_of_string "\.+*?()|[]{}^$".

Fixpoint QuoteMeta (s : string) : string :=
  match s with
  | EmptyString => ""
  | String a s' => if bool_decide (a ∈ meta_chars) then String "\" (String a (QuoteMeta s')) else String a (QuoteMeta s')
  end.

Definition WildcardToRegex (pattern : string) : string :=
  match split_on "*" pattern with
  | first :: second :: rest =>
    "^" +:+ QuoteMeta first +:+
    foldr (fun literal acc => ".*" +:+ QuoteMeta literal +:+ acc) "" (second :: rest) +:+ "$"
  | _ => "^" +:+ pattern +:+ "$"
  end.

(** [regexp.MatchString], false for a pattern that does not compile. *)
Class Regexps := regexp_MatchString : string -> string -> bool.

Definition MatchWildcards `{Regexps} (pattern value : string) : bool :=
  regexp_MatchString (WildcardToRegex pattern) value.

(** ** Requests *)

(** An HTTP call as the router hands it over; a body that cannot be read is
    [None]. *)
Record HttpCall := mkHttpCall {
  hc_Method : string;
  hc_chain : string;
  hc_restPath : string;
  hc_body : option string;
  hc_request : HttpRequest;
  hc_headers : gmap string (list string);
  hc_query : gmap string (list string);
}.

Record Request := mkRequest { rq_Chain : string; UpstreamRequests : list RequestHolder }.

(** The decoding of a batch and the check of a body ([sonic]); one request is
    decoded by [unmarshal_body]. *)
Class HttpJson := {
  unmarshal_requests : string -> option (list JsonRpcRequestBody);
  sonic_Valid : string -> bool;
}.

Definition NewStreamUpstreamJsonRpcRequest `{MapRange} (reg : Registry) (id body_id method params specName : string)
    (selectors : list RequestSelector) : RequestHolder :=
  match NewUpstreamJsonRpcRequest reg id body_id method params false specName selectors with
  | JsonRpcRequest u =>
    JsonRpcRequest (mkJsonRpcRequest (jr_id u) (realId u) (jr_method u) (parsedParam u) (jr_params u) (jr_key u)
      (jr_spec u) (jr_selectors u) (parsed u) true (isSub u))
  | r => r
  end.

Definition reservedQueryParams : gset string := {[ "quorum"; "quorum_required" ]}.

(** The copy of the query without nodecore's own parameters; nil and empty are the
    same map here. *)
Definition filteredQuery (q : gmap string (list string)) : gmap string (list string) :=
  base.filter (fun kv => kv.1 ∉ reservedQueryParams) q.

Section Handlers.
Context `{MR : MapRange} `{HJ : HttpJson} `{TJ : TranslationJson} `{JS : Json}.
Context (chain_reg : ChainRegistry) (reg : Registry).

Definition buildRestMatcher (methods : option GroupMap) : option pathNode :=
  m ← methods;
  match base.filter (fun name => contains_char "#" name = true) (map fst (range (defaultMethods m))) with
  | [] => None
  | templates => Some (NewPathMatcher templates)
  end.

Definition MatchRestMethod (specName fullPath : string) : option (string * list string) :=
  spec ← reg !! specName; matcher ← buildRestMatcher (spec_methods spec); PathMatcher_Match matcher fullPath.

Definition parseRestRequest (c : HttpCall) (specName : string) : option (string * RequestParams) :=
  let fullPath := hc_Method c +:+ "#" +:+ "/" +:+ hc_restPath c in
  let '(methodTemplate, params) := default (fullPath, []) (MatchRestMethod specName fullPath) in
  if negb (ValidString methodTemplate) then None
  else Some (methodTemplate, mkRequestParams (hc_headers c) (filteredQuery (hc_query c)) params).

Record RestHandler := mkRestHandler {
  rh_Chain : string;
  methodTemplate : string;
  rh_requestBody : string;
  requestParams : RequestParams;
}.

Definition NewRestHandler (c : HttpCall) : option RestHandler :=
  body ← hc_body c;
  let contentType := hr_header (hc_request c) "Content-Type" in
  if negb (bool_decide (body = "")) && (bool_decide (contentType = "") || Contains contentType "json") && negb (sonic_Valid body)
  then None
  else '(template, params) ← parseRestRequest c (GetMethodSpecNameByChainName chain_reg (hc_chain c));
       Some (mkRestHandler (hc_chain c) template body params).

(** [idMap]: the client's own id and the place of the request, by the id it is
    given here. *)
Record JsonRpcHandler := mkJsonRpcHandler {
  jh_Chain : string;
  idMap : gmap string (string * Z);
  single : bool;
  jsonRpcRequests : list JsonRpcRequestBody;
  isWsCtx : bool;
}.

Definition decode_body (rawReq : string) : option (list JsonRpcRequestBody) :=
  match rawReq with
  | EmptyString => None
  | String a _ =>
    if bool_decide (a = "["%char) then unmarshal_requests rawReq
    else if bool_decide (a = "{"%char) then
      match unmarshal_body rawReq with inl _ => None | inr request => Some [request] end
    else Some []
  end.

Definition NewJsonRpcHandler (chain : string) (requestBody : option string) (isWsCtx : bool) : option JsonRpcHandler :=
  body ← requestBody;
  let rawReq := trim_left_ws body in
  requests ← decode_body rawReq;
  if forallb (fun r => ValidString (rb_Method r)) requests
  then Some (mkJsonRpcHandler chain ∅ (HasPrefix rawReq "{") requests isWsCtx)
  else None.

Inductive RequestHandler := HandlerRest (h : RestHandler) | HandlerJsonRpc (h : JsonRpcHandler).

Definition IsSingle (h : RequestHandler) : bool := match h with HandlerRest _ => true | HandlerJsonRpc h => single h end.
Definition RequestCount (h : RequestHandler) : nat :=
  match h with HandlerRest _ => 1 | HandlerJsonRpc h => length (jsonRpcRequests h) end.
Definition GetRequestType (h : RequestHandler) : RequestType :=
  match h with HandlerRest _ => Rest | HandlerJsonRpc _ => JsonRpc end.

(** The request of one entry, under the id it is given. *)
Definition upstream_request (h : JsonRpcHandler) (id : string) (body : JsonRpcRequestBody) : RequestHolder :=
  let specName := GetMethodSpecNameByChainName chain_reg (jh_Chain h) in
  let isSub := isWsCtx h && IsSubscribeMethod reg specName (rb_Method body) in
  if IsStream (rb_Method body)
  then NewStreamUpstreamJsonRpcRequest reg id (rb_Id body) (rb_Method body) (rb_Params body) specName []
  else NewUpstreamJsonRpcRequest reg id (rb_Id body) (rb_Method body) (rb_Params body) isSub specName [].

(** [new_uuid i] is the result of the [i]-th call of [uuid.NewUUID]. *)
Context (new_uuid : nat -> GoError + string).

Fixpoint decode_requests (h : JsonRpcHandler) (i : nat) (l : list JsonRpcRequestBody) (ids : gmap string (string * Z))
    : (GoError + list RequestHolder) * gmap string (string * Z) :=
  match l with
  | [] => (inr [], ids)
  | body :: l =>
    match new_uuid i with
    | inl err => (inl err, ids)
    | inr id =>
      let '(rest, ids) := decode_requests h (S i) l (<[id := (rb_Id body, Z.of_nat i)]> ids) in
      (match rest with inl err => inl err | inr rs => inr (upstream_request h id body :: rs) end, ids)
    end
  end.

Definition RequestDecode (h : RequestHandler) : (GoError + Request) * RequestHandler :=
  match h with
  | HandlerRest r =>
    (inr (mkRequest (rh_Chain r)
       [NewUpstreamRestRequest reg "1" (methodTemplate r) (Some (requestParams r)) (rh_requestBody r)
          (GetMethodSpecNameByChainName chain_reg (rh_Chain r)) []]), h)
  | HandlerJsonRpc j =>
    let '(reqs, ids) := decode_requests j 0 (jsonRpcRequests j) (idMap j) in
    (match reqs with inl err => inl err | inr rs => inr (mkRequest (jh_Chain j) rs) end,
     HandlerJsonRpc (mkJsonRpcHandler (jh_Chain j) ids (single j) (jsonRpcRequests j) (isWsCtx j)))
  end.

(** The reader of a response and its place; a nil reader is [None]. *)
Definition ResponseEncode (h : RequestHandler) (response : ResponseHolder) : option (GoError + string) * Z :=
  match h with
  | HandlerRest _ => (EncodeResponse response "", 0)
  | HandlerJsonRpc j =>
    match idMap j !! response_Id response with
    | Some (realId, order) => (EncodeResponse response realId, order)
    | None => (EncodeResponse response "0", -1)
    end
  end.
End Handlers.

(** ** Handling *)

(** Where the responses come from: error responses made at once, or the flow on
    these requests, each with the API key put into its observer. *)
Inductive ResponseSource :=
| Refused (wrappers : list ResponseHolderWrapper)
| Execute (chain : Z) (requests : list (RequestHolder * string)).

Record HandleResponse := mkHandleResponse { responseWrappers : ResponseSource; corsOrigins : list string }.

Definition createWrapperFromError (request : option Request) (err : GoError) (requestType : RequestType)
    : list ResponseHolderWrapper :=
  let errWrapper id := empty_wrapper NoUpstream id (NewTotalFailureFromErr id err requestType) in
  match request with
  | None | Some (mkRequest _ []) => [errWrapper "0"]
  | Some (mkRequest _ reqs) => map (fun r => errWrapper (request_Id r)) reqs
  end.

(** What is written to the client. *)
Record HttpAnswer := mkHttpAnswer { http_code : Z; http_header : Header; http_body : option (GoError + string) }.

Definition writeResponse (header : Header) (code : Z) (body : option (GoError + string)) : HttpAnswer :=
  mkHttpAnswer code
    (if bool_decide (header_Get "Content-Type" header = "") then header_Set "Content-Type" "application/json" header
     else header) body.

Definition corsHeaders : list (string * string) :=
  [("Origin", "Access-Control-Allow-Origin");
   ("Access-Control-Request-Headers", "Access-Control-Allow-Headers");
   ("Access-Control-Request-Method", "Access-Control-Allow-Methods")].

Definition handleCorsOptions (r : HttpRequest) : HttpAnswer :=
  mkHttpAnswer 204
    (foldl (fun h '(a, b) => if bool_decide (hr_header r a = "") then h else header_Set b (hr_header r a) h) ∅ corsHeaders)
    (Some (inr "")).

Fixpoint setCorsHeaders_loop `{Regexps} (origin : string) (origins : list string) (h : Header) : Header :=
  match origins with
  | [] => h
  | item :: origins =>
    if MatchWildcards item origin then header_Set "Vary" "Origin" (header_Set "Access-Control-Allow-Origin" origin h)
    else setCorsHeaders_loop origin origins h
  end.

Definition setCorsHeaders `{Regexps} (r : HttpRequest) (origins : list string) (h : Header) : Header :=
  match origins with
  | [] => header_Set "Access-Control-Allow-Origin" "*" h
  | _ => setCorsHeaders_loop (hr_header r "Origin") origins h
  end.

Definition copyUpstreamResponseHeaders `{MapRange} (dst : Header) (response : ResponseHolder) : Header :=
  match ResponseHeaders response with
  | None => dst
  | Some hs => foldl (fun h '(key, values) => foldl (fun h v => header_Add key v h) h values) dst (range hs)
  end.

Section Serve.
Context `{MR : MapRange} `{HJ : HttpJson} `{TJ : TranslationJson} `{JS : Json} `{MP : MethodParsers}.
Context `{PJ : ParamJson} `{JW : JwtLib} `{NI : Netip} `{RX : Regexps}.
Context (chain_reg : ChainRegistry) (reg : Registry).

(** The processor of authentication and the key service: [keys i] is its store at
    the [i]-th lookup of this call (other goroutines change it between lookups). *)
Context (auth : AuthProcessor) (keys : nat -> gmap string Key).

(** Whether a chain has a supervisor, the trusted proxies and the fresh ids. *)
Context (hasSupervisor : Z -> bool) (trustedProxies : list Prefix) (new_uuid : nat -> GoError + string).

Definition auth_GetKeyValue (keys : gmap string Key) (payload : HttpRequest) : string :=
  match auth with
  | BasicProcessor _ => match getKey keys payload with inl _ => "" | inr k => GetKeyValue k end
  | _ => ""
  end.

(** The loop over the requests: the first refusal, or the requests with their keys. *)
Fixpoint post_validate (i : nat) (payload : HttpRequest) (reqs : list RequestHolder)
    : string + list (RequestHolder * string) :=
  match reqs with
  | [] => inr []
  | r :: reqs =>
    match PostKeyValidate auth (keys i) payload r with
    | Some err => inl err
    | None =>
      match post_validate (S (S i)) payload reqs with
      | inl err => inl err
      | inr rest => inr ((r, auth_GetKeyValue (keys (S i)) payload) :: rest)
      end
    end
  end.

Definition handleRequest (h : RequestHandler) (ips : gset string) (payload : HttpRequest)
    : HandleResponse * RequestHandler :=
  let refuse request err h := (mkHandleResponse (Refused (createWrapperFromError request err (GetRequestType h))) [], h) in
  match PreKeyValidate auth (keys 0) ips payload with
  | (_, Some err) => refuse None (RespError (AuthError (OtherError err))) h
  | (origins, None) =>
    match RequestDecode chain_reg reg new_uuid h with
    | (inl err, h) => refuse None err h
    | (inr request, h) =>
      if negb (IsSupported chain_reg (rq_Chain request))
      then refuse (Some request) (RespError (WrongChainError (rq_Chain request))) h
      else
        let chain := cc_Chain (GetChain chain_reg (rq_Chain request)) in
        if negb (hasSupervisor chain) then refuse (Some request) (RespError NoAvailableUpstreamsError) h
        else match post_validate 1 payload (UpstreamRequests request) with
             | inl err => refuse (Some request) (RespError (AuthError (OtherError err))) h
             | inr reqs => (mkHandleResponse (Execute chain reqs) origins, h)
             end
    end
  end.

(** What becomes of a call. *)
Inductive Served :=
| Written (answer : HttpAnswer)
| Upgraded (ips : gset string)
| Handled (h : RequestHandler) (resp : HandleResponse).

Definition request_type (c : HttpCall) (isWsUpgrade : bool) : RequestType :=
  if negb (bool_decide (hc_restPath c = "")) || (bool_decide (hc_Method c = "GET") && negb isWsUpgrade) then Rest else JsonRpc.

Definition refusal (err : ResponseError) (t : RequestType) : Served :=
  let resp := NewTotalFailureFromErr "0" (RespError err) t in
  Written (writeResponse ∅ (ToHttpCode resp) (EncodeResponse resp "0")).

Definition handleHttp (c : HttpCall) (ips : gset string) (t : RequestType) : Served :=
  let handler :=
    if bool_decide (t = JsonRpc) then HandlerJsonRpc <$> NewJsonRpcHandler (hc_chain c) (hc_body c) false
    else HandlerRest <$> NewRestHandler chain_reg reg c in
  match handler with
  | None => refusal ParseError t
  | Some h => let '(resp, h) := handleRequest h ips (hc_request c) in Handled h resp
  end.

Definition serve (c : HttpCall) : Served :=
  if bool_decide (hc_Method c = "OPTIONS") then Written (handleCorsOptions (hc_request c))
  else
    let ips := ContextWithIps (hr_peer (hc_request c)) trustedProxies in
    let isWsUpgrade := bool_decide (hr_header (hc_request c) "Upgrade" = "websocket") in
    let t := request_type c isWsUpgrade in
    match Authenticate auth (hc_request c) with
    | Some err => refusal (AuthError (OtherError err)) t
    | None =>
      if negb (ValidString (hc_chain c)) then refusal ParseError t
      else if isWsUpgrade then Upgraded ips
      else handleHttp c ips t
    end.

(** ** The responses *)

(** Responses whose readers are there, as the batch takes them. *)
Definition encoded (h : RequestHandler) (w : ResponseHolderWrapper) : option BatchStream.Response :=
  match ResponseEncode h (Responses.Response w) with
  | (Some (inr text), order) => Some (mkResponse (String.list_ascii_of_string text) order)
  | _ => None
  end.

(** The event a single request is answered by. *)
Inductive SingleEvent := CtxDone | Received (w : ResponseHolderWrapper) | ChannelClosed.

Definition handle_single (h : RequestHandler) (r : HttpRequest) (origins : list string) (ev : SingleEvent) : HttpAnswer :=
  match ev with
  | CtxDone =>
    let resp := NewTotalFailureFromErr "0" (RespError RequestTimeoutError) (GetRequestType h) in
    writeResponse ∅ (ToHttpCode resp) (EncodeResponse resp "0")
  | Received w =>
    writeResponse
      (setCorsHeaders r origins
         (copyUpstreamResponseHeaders (header_Set "response-provider" (UpstreamId w) ∅) (Responses.Response w)))
      (ToHttpCode (Responses.Response w)) (ResponseEncode h (Responses.Response w)).1
  | ChannelClosed => writeResponse (setCorsHeaders r origins ∅) 200 None
  end.

(** The responses of a batch in the order they arrive, read with buffers of the
    given sizes. *)
Definition handle_batch (h : RequestHandler) (r : HttpRequest) (origins : list string)
    (arrived : list ResponseHolderWrapper) (sizes : list nat) : option HttpAnswer :=
  responses ← mapM (encoded h) arrived;
  body ← ArraySortingStream (map Arrived responses) (RequestCount h) sizes;
  Some (writeResponse (setCorsHeaders r origins ∅) 200 (Some (inr (String.string_of_list_ascii body)))).
End Serve.

(** ** Who may execute what *)

Lemma getMethod_upstream `{MapRange} chain_reg reg h id body :
  request_Id (upstream_request chain_reg reg h id body) = id /\
  request_Method (upstream_request chain_reg reg h id body) = rb_Method body.
Proof. unfold upstream_request. by destruct (IsStream _). Qed.

Section Guarantees.
Context `{MR : MapRange} `{HJ : HttpJson} `{TJ : TranslationJson} `{JS : Json} `{MP : MethodParsers}.
Context `{PJ : ParamJson} `{JW : JwtLib} `{NI : Netip}.
Context (chain_reg : ChainRegistry) (reg : Registry).
Context (auth : AuthProcessor) (keys : nat -> gmap string Key).
Context (hasSupervisor : Z -> bool) (trustedProxies : list Prefix) (new_uuid : nat -> GoError + string).

(** Handlers that decode to requests with printable methods for their own chain. *)
Definition handler_chain (h : RequestHandler) : string :=
  match h with HandlerRest r => rh_Chain r | HandlerJsonRpc j => jh_Chain j end.

Definition handler_ok (h : RequestHandler) : Prop :=
  match h with
  | HandlerRest r => ValidString (methodTemplate r) = true
  | HandlerJsonRpc j => Forall (fun b => ValidString (rb_Method b) = true) (jsonRpcRequests j) /\ idMap j = ∅
  end.

Lemma NewJsonRpcHandler_ok chain body ws h :
  NewJsonRpcHandler chain body ws = Some h -> handler_ok (HandlerJsonRpc h) /\ jh_Chain h = chain.
Proof using Type.
  unfold NewJsonRpcHandler. destruct body as [b|]; [|done]. cbn [mbind option_bind].
  destruct (decode_body _) as [l|]; [|done]. cbn [mbind option_bind].
  destruct (forallb _ l) eqn:Ef; [|done]. intros [= <-]. split; [|done]. split; [|done]. simpl.
  apply Forall_forall. intros b' Hb'. rewrite forallb_forall in Ef. apply (Ef b'). by apply list_elem_of_In.
Qed.

Lemma NewRestHandler_ok c h :
  NewRestHandler chain_reg reg c = Some h -> handler_ok (HandlerRest h) /\ rh_Chain h = hc_chain c.
Proof using Type.
  unfold NewRestHandler, parseRestRequest. destruct (hc_body c) as [b|]; [|done]. cbn [mbind option_bind].
  destruct (_ && negb (sonic_Valid b)); [done|].
  destruct (default _ _) as [t params]. destruct (ValidString t) eqn:Ev; [|done]. intros [= <-]. by split.
Qed.

(** The requests of the entries, under fresh ids. *)
Lemma decode_requests_spec h i l ids reqs ids' :
  decode_requests chain_reg reg new_uuid h i l ids = (inr reqs, ids') ->
  Forall2 (fun body r => exists id, r = upstream_request chain_reg reg h id body) l reqs /\
  forall k body, l !! k = Some body -> exists id, new_uuid (i + k)%nat = inr id /\
    reqs !! k = Some (upstream_request chain_reg reg h id body).
Proof using Type.
  revert i ids reqs. induction l as [|b l IH]; intros i ids reqs; cbn [decode_requests].
  { intros [= <- <-]. split; [done|]. intros k body Hk. by rewrite lookup_nil in Hk. }
  destruct (new_uuid i) as [err|id] eqn:Ei; [done|].
  destruct (decode_requests _ _ _ h (S i) l _) as [[err|rs] ids1] eqn:E; [done|]. intros [= <- <-].
  destruct (IH _ _ _ E) as [Hf Hl]. split.
  - constructor; [by eexists|done].
  - intros [|k] body Hk; simpl in Hk.
    + injection Hk as ->. exists id. by rewrite Nat.add_0_r.
    + destruct (Hl k body Hk) as (id' & Hid & Hr). exists id'. by rewrite Nat.add_succ_r.
Qed.

Lemma RequestDecode_ok h request h' :
  handler_ok h -> RequestDecode chain_reg reg new_uuid h = (inr request, h') ->
  rq_Chain request = handler_chain h /\ Forall (fun r => ValidString (request_Method r) = true) (UpstreamRequests request).
Proof using Type.
  intros Hok. destruct h as [r|j]; cbn [RequestDecode handler_chain].
  - intros [= <- <-]. split; [done|]. by constructor.
  - destruct (decode_requests _ _ _ j 0 _ _) as [[err|rs] ids] eqn:E; [done|]. intros [= <- <-]. split; [done|].
    destruct (decode_requests_spec _ _ _ _ _ _ E) as [Hf _]. destruct Hok as [Hv _]. simpl.
    apply Forall_forall. intros r Hr. apply list_elem_of_lookup in Hr as [k Hk].
    destruct (Forall2_lookup_r _ _ _ _ _ Hf Hk) as (body & Hb & id & ->).
    rewrite (proj2 (getMethod_upstream _ _ _ _ _)). by eapply (Forall_lookup_1 _ _ _ _ Hv).
Qed.

Lemma post_validate_ok i payload reqs out :
  post_validate auth keys i payload reqs = inr out ->
  map fst out = reqs /\
  forall k r v, out !! k = Some (r, v) -> PostKeyValidate auth (keys (i + 2 * k)%nat) payload r = None.
Proof using Type.
  revert i out. induction reqs as [|r reqs IH]; intros i out; cbn [post_validate].
  { intros [= <-]. split; [done|]. intros k r v Hk. by rewrite lookup_nil in Hk. }
  destruct (PostKeyValidate auth (keys i) payload r) eqn:Ep; [done|].
  destruct (post_validate _ _ (S (S i)) payload reqs) as [err|rest] eqn:E; [done|]. intros [= <-].
  destruct (IH _ _ E) as [<- Hk]. split; [done|]. intros [|k] r' v Hl; simpl in Hl.
  - injection Hl as <- _. by rewrite Nat.add_0_r.
  - apply Hk in Hl. replace (i + 2 * S k)%nat with (S (S i) + 2 * k)%nat by lia. done.
Qed.

(** What a key that passed allows. *)
Lemma pre_permits s ips payload :
  (PreKeyValidate (BasicProcessor s) (keys 0%nat) ips payload).2 = None ->
  exists key, getKey (keys 0%nat) payload = inr key /\ permits_ips key ips.
Proof using Type.
  cbn [PreKeyValidate]. destruct (getKey (keys 0%nat) payload) as [err|key]; [done|]. exists key. split; [done|].
  by apply PreCheckSetting_ok.
Qed.

Lemma post_permits store s payload r :
  PostKeyValidate (BasicProcessor s) store payload r = None -> exists key, getKey store payload = inr key /\ permits key r.
Proof using Type.
  cbn [PostKeyValidate]. destruct (getKey store payload) as [err|key]; [done|]. exists key. split; [done|].
  by apply PostCheckSetting_ok.
Qed.

Lemma handleRequest_executes h ips payload chain reqs origins h' :
  handler_ok h ->
  handleRequest chain_reg reg auth keys hasSupervisor new_uuid h ips payload =
    (mkHandleResponse (Execute chain reqs) origins, h') ->
  exists request, RequestDecode chain_reg reg new_uuid h = (inr request, h') /\ map fst reqs = UpstreamRequests request /\
  rq_Chain request = handler_chain h /\ Forall (fun r => ValidString (request_Method r) = true) (map fst reqs) /\
  (PreKeyValidate auth (keys 0%nat) ips payload).2 = None /\
  IsSupported chain_reg (handler_chain h) = true /\ chain = cc_Chain (GetChain chain_reg (handler_chain h)) /\
  hasSupervisor chain = true /\
  forall k r v, reqs !! k = Some (r, v) -> PostKeyValidate auth (keys (1 + 2 * k)%nat) payload r = None.
Proof using Type.
  intros Hok. unfold handleRequest. destruct (PreKeyValidate auth (keys 0%nat) ips payload) as [o [err|]]; [done|].
  destruct (RequestDecode _ _ _ h) as [[err|request] h1] eqn:Ed; [done|].
  destruct (RequestDecode_ok _ _ _ Hok Ed) as [Hc Hv]. rewrite Hc.
  destruct (IsSupported _ _) eqn:Es; [|done]. simpl. destruct (hasSupervisor _) eqn:Eh; [|done]. simpl.
  destruct (post_validate _ _ 1 payload _) as [err|out] eqn:Ep; [done|]. intros [= <- <- <- <-].
  destruct (post_validate_ok _ _ _ _ Ep) as [Hm Hk]. exists request. split_and!; try done. by rewrite Hm.
Qed.

(** Why every request of a call is refused after it was decoded, and with which
    error. *)
Definition refused_with (chain : string) (payload : HttpRequest) (reqs : list RequestHolder) (err : GoError) : Prop :=
  if negb (IsSupported chain_reg chain) then err = RespError (WrongChainError chain)
  else if negb (hasSupervisor (cc_Chain (GetChain chain_reg chain))) then err = RespError NoAvailableUpstreamsError
  else exists k r e, reqs !! k = Some r /\ PostKeyValidate auth (keys (1 + 2 * k)%nat) payload r = Some e /\
         err = RespError (AuthError (OtherError e)).

Lemma post_validate_err i payload reqs err :
  post_validate auth keys i payload reqs = inl err ->
  exists k r, reqs !! k = Some r /\ PostKeyValidate auth (keys (i + 2 * k)%nat) payload r = Some err.
Proof using Type.
  revert i. induction reqs as [|r reqs IH]; intros i; cbn [post_validate]; [done|].
  destruct (PostKeyValidate auth (keys i) payload r) as [e|] eqn:Ep.
  - intros [= <-]. exists 0%nat, r. by rewrite Nat.add_0_r.
  - destruct (post_validate _ _ (S (S i)) payload reqs) as [e|rest] eqn:E; [|done]. intros [= <-].
    destruct (IH _ E) as (k & r' & Hk & Hp). exists (S k), r'. split; [done|].
    by replace (i + 2 * S k)%nat with (S (S i) + 2 * k)%nat by lia.
Qed.

(** A call that is not executed is refused before its requests are known, or all
    its requests are refused with one error. *)
Lemma handleRequest_refuses h ips payload ws o h' :
  handleRequest chain_reg reg auth keys hasSupervisor new_uuid h ips payload = (mkHandleResponse (Refused ws) o, h') ->
  (exists err, ws = createWrapperFromError None err (GetRequestType h') /\
     ((exists e, (PreKeyValidate auth (keys 0%nat) ips payload).2 = Some e /\ err = RespError (AuthError (OtherError e)) /\ h' = h) \/
      (PreKeyValidate auth (keys 0%nat) ips payload).2 = None /\ RequestDecode chain_reg reg new_uuid h = (inl err, h'))) \/
  (exists request err, (PreKeyValidate auth (keys 0%nat) ips payload).2 = None /\
     RequestDecode chain_reg reg new_uuid h = (inr request, h') /\
     ws = createWrapperFromError (Some request) err (GetRequestType h') /\
     refused_with (rq_Chain request) payload (UpstreamRequests request) err).
Proof using Type.
  unfold handleRequest, refused_with. destruct (PreKeyValidate auth (keys 0%nat) ips payload) as [origins [e|]].
  { intros [= <- <- <-]. left. eexists. split; [done|]. left. by exists e. }
  destruct (RequestDecode _ _ _ h) as [[err|request] h1] eqn:Ed.
  { intros [= <- <- <-]. left. exists err. split; [done|]. by right. }
  intros Hr. right. exists request. destruct (negb (IsSupported _ _)); [|destruct (negb (hasSupervisor _));
    [|destruct (post_validate _ _ 1 payload _) as [e|out] eqn:Ep; [|done]]]; injection Hr as <- <- <-; eexists; split_and!; try done.
  destruct (post_validate_err _ _ _ _ Ep) as (k & r & Hk & He). by exists k, r, e.
Qed.

Lemma NewJsonRpcHandler_idMap chain body ws j : NewJsonRpcHandler chain body ws = Some j -> idMap j = ∅.
Proof using Type.
  unfold NewJsonRpcHandler. destruct body as [b|]; [|done]. cbn [mbind option_bind].
  destruct (decode_body _) as [l|]; [|done]. cbn [mbind option_bind]. by destruct (forallb _ l); [intros [= <-]|].
Qed.

Lemma decode_requests_error j i l ids err :
  (decode_requests chain_reg reg new_uuid j i l ids).1 = inl err ->
  exists k, (k < length l)%nat /\ new_uuid (i + k)%nat = inl err.
Proof using Type.
  revert i ids. induction l as [|b l IH]; intros i ids; cbn [decode_requests]; [done|].
  destruct (new_uuid i) as [e|id] eqn:Ei.
  - intros [= ->]. exists 0%nat. rewrite Nat.add_0_r. split; [simpl; lia|done].
  - specialize (IH (S i) (<[id := (rb_Id b, Z.of_nat i)]> ids)).
    destruct (decode_requests _ _ _ j (S i) l _) as [[e|rs] ids1]; [|done]. simpl in *. intros [= ->].
    destruct (IH eq_refl) as (k & Hk & Hu). exists (S k). rewrite Nat.add_succ_r. split; [lia|done].
Qed.

(** The ids the handler knows are ids it was given. *)
Lemma decode_requests_known h i l ids id :
  (forall k, new_uuid k <> inr id) -> (decode_requests chain_reg reg new_uuid h i l ids).2 !! id = ids !! id.
Proof using Type.
  intros Hid. revert i ids. induction l as [|b l IH]; intros i ids; cbn [decode_requests]; [done|].
  destruct (new_uuid i) as [err|id'] eqn:Ei; [done|].
  pose proof (IH (S i) (<[id' := (rb_Id b, Z.of_nat i)]> ids)) as IH'.
  destruct (decode_requests _ _ _ h (S i) l _) as [res ids1]. simpl in *. rewrite IH'.
  apply lookup_insert_ne. intros ->. by apply (Hid i).
Qed.
End Guarantees.

(** C2.  A request is executed only for a caller that passed the authentication
    and, where keys are configured, named a key that is in the store, allows the
    client's address, and allows the method and the contracts of that very
    request: an [eth_call] names a contract of the whitelist, an [eth_getLogs] has
    its [address] member, a contract of the whitelist or an array of such (an
    empty array, or a value that is neither, is let through: the known gap of
    [Access.logs_of_all_contracts_pass]).  The chain is one of the registry and
    has a supervisor, and every executed method name is valid UTF-8 (it becomes a
    metric label). *)
Theorem executed_requests_authorized `{MapRange} `{HttpJson} `{TranslationJson} `{Json} `{MethodParsers} `{ParamJson}
    `{JwtLib} `{Netip} chain_reg reg auth keys hasSupervisor trustedProxies new_uuid c h chain reqs origins :
  serve chain_reg reg auth keys hasSupervisor trustedProxies new_uuid c =
    Handled h (mkHandleResponse (Execute chain reqs) origins) ->
  Authenticate auth (hc_request c) = None /\
  IsSupported chain_reg (hc_chain c) = true /\ chain = cc_Chain (GetChain chain_reg (hc_chain c)) /\
  hasSupervisor chain = true /\
  Forall (fun r => ValidString (request_Method r.1) = true) reqs /\
  forall s, auth = BasicProcessor s ->
    (exists key, getKey (keys 0%nat) (hc_request c) = inr key /\
       permits_ips key (ContextWithIps (hr_peer (hc_request c)) trustedProxies)) /\
    forall i r v, reqs !! i = Some (r, v) ->
      exists key, getKey (keys (1 + 2 * i)%nat) (hc_request c) = inr key /\ permits key r.
Proof.
  unfold serve. case_bool_decide; [done|]. destruct (Authenticate auth (hc_request c)) eqn:Ea; [done|].
  destruct (ValidString (hc_chain c)); [|done]. cbn [negb]. case_bool_decide as Hws; [done|]. unfold handleHttp.
  set (handler := if bool_decide _ then _ else _).
  assert (forall h0, handler = Some h0 -> handler_ok h0 /\ handler_chain h0 = hc_chain c) as Hh.
  { intros h0. subst handler. case_bool_decide; intros (h1 & E & ->)%fmap_Some.
    - by apply NewJsonRpcHandler_ok in E.
    - by apply NewRestHandler_ok in E. }
  destruct handler as [h0|]; [|done]. destruct (Hh h0 eq_refl) as [Hok Hc].
  destruct (handleRequest _ _ _ _ _ _ h0 _ _) as [resp h1] eqn:E. intros [= -> ->].
  destruct (handleRequest_executes _ _ _ _ _ _ _ _ _ _ _ _ _ Hok E) as (request & _ & Hm & _ & Hv & Hpre & Hs & Hch & Hsup & Hpost).
  rewrite Hc in *. split_and!; [done..| |].
  - by rewrite Forall_map in Hv.
  - intros s ->. split; [by apply (pre_permits keys s)|]. intros i r v Hi. by apply (post_permits (keys (1 + 2 * i)%nat) s), (Hpost i r v).
Qed.

(** ** A batch comes back in order *)

(** What the flow promises the server: a response to a request carries the id of
    the request, and so does its wrapper. *)
Class Execution := {
  answered : Z -> RequestHolder -> ResponseHolderWrapper -> Prop;
  answered_id : forall chain r w, answered chain r w -> response_Id (Responses.Response w) = request_Id r;
  answered_request : forall chain r w, answered chain r w -> RequestId w = request_Id r;
}.

(** The responses in the order they arrive: every request is answered once. *)
Definition delivered `{Execution} (source : ResponseSource) (arrived : list ResponseHolderWrapper) : Prop :=
  match source with
  | Refused wrappers => arrived = wrappers
  | Execute chain reqs => exists ws, arrived ≡ₚ ws /\ Forall2 (fun r w => answered chain r.1 w) reqs ws
  end.

Section Batch.
Context `{MR : MapRange} `{HJ : HttpJson} `{TJ : TranslationJson} `{JS : Json}.
Context (chain_reg : ChainRegistry) (reg : Registry) (new_uuid : nat -> GoError + string).

(** [uuid.NewUUID] never gives the same id twice. *)
Definition fresh_uuids : Prop := forall i k id, new_uuid i = inr id -> new_uuid k = inr id -> i = k.

Lemma decode_requests_ids h i l ids reqs ids' :
  fresh_uuids -> decode_requests chain_reg reg new_uuid h i l ids = (inr reqs, ids') ->
  (forall id, (forall k, (i <= k)%nat -> new_uuid k <> inr id) -> ids' !! id = ids !! id) /\
  forall k body r, l !! k = Some body -> reqs !! k = Some r ->
    ids' !! request_Id r = Some (rb_Id body, Z.of_nat (i + k)).
Proof using Type.
  intros Hfresh. revert i ids reqs. induction l as [|b l IH]; intros i ids reqs; cbn [decode_requests].
  { intros [= <- <-]. split; [done|]. intros k body r Hk. by rewrite lookup_nil in Hk. }
  destruct (new_uuid i) as [err|id] eqn:Ei; [done|].
  destruct (decode_requests _ _ _ h (S i) l _) as [[err|rs] ids1] eqn:E; [done|]. intros [= <- <-].
  destruct (IH _ _ _ E) as [Hkeep Hl]. split.
  - intros id' Hid'. rewrite Hkeep by (intros k Hk; apply Hid'; lia).
    apply lookup_insert_ne. intros ->. by apply (Hid' i).
  - intros [|k] body r Hk Hr; simpl in Hk, Hr.
    + injection Hk as ->. injection Hr as <-. rewrite (proj1 (getMethod_upstream _ _ _ _ _)), Nat.add_0_r.
      rewrite Hkeep; [by rewrite lookup_insert_eq|]. intros k Hk Hu. specialize (Hfresh i k id Ei Hu). lia.
    + rewrite (Hl k body r Hk Hr). do 3 f_equal. lia.
Qed.

(** With an id for every entry, the batch is decoded. *)
Lemma decode_all j res h1 :
  (forall i, (i < length (jsonRpcRequests j))%nat -> exists id, new_uuid i = inr id) ->
  RequestDecode chain_reg reg new_uuid (HandlerJsonRpc j) = (res, h1) ->
  exists request, res = inr request /\
    (forall k body, jsonRpcRequests j !! k = Some body -> exists id, new_uuid k = inr id /\
       UpstreamRequests request !! k = Some (upstream_request chain_reg reg j id body)) /\
    (jsonRpcRequests j <> [] -> UpstreamRequests request <> []) /\ RequestCount h1 = length (jsonRpcRequests j).
Proof using Type.
  intros Hu. cbn [RequestDecode].
  assert (forall i l ids, (forall k, (k < length l)%nat -> exists id, new_uuid (i + k)%nat = inr id) ->
    exists reqs ids', decode_requests chain_reg reg new_uuid j i l ids = (inr reqs, ids')) as Hall.
  { intros i l. revert i. induction l as [|b l IH]; intros i ids Hl; cbn [decode_requests]; [by eexists _, _|].
    destruct (Hl 0%nat) as [id Hid]; [simpl; lia|]. rewrite Nat.add_0_r in Hid. rewrite Hid.
    destruct (IH (S i) (<[id := (rb_Id b, Z.of_nat i)]> ids)) as (reqs & ids' & ->); [|by eexists _, _].
    intros k Hk. destruct (Hl (S k)) as [id' Hid']; [simpl; lia|]. exists id'. by rewrite Nat.add_succ_r in Hid'. }
  destruct (Hall 0%nat (jsonRpcRequests j) (idMap j) Hu) as (reqs & ids' & E). rewrite E. intros [= <- <-].
  eexists. split; [done|]. apply decode_requests_spec in E as [Hf2 Hk]. split_and!; [done| |done].
  intros Hne Hnil. cbn [UpstreamRequests] in Hnil. subst reqs. by apply Forall2_nil_inv_r in Hf2.
Qed.

(** The place and the id every response is encoded with. *)
Lemma decoded_encode j request h' k body r w :
  fresh_uuids -> RequestDecode chain_reg reg new_uuid (HandlerJsonRpc j) = (inr request, h') ->
  jsonRpcRequests j !! k = Some body -> UpstreamRequests request !! k = Some r ->
  response_Id (Responses.Response w) = request_Id r ->
  ResponseEncode h' (Responses.Response w) = (EncodeResponse (Responses.Response w) (rb_Id body), Z.of_nat k).
Proof using Type.
  intros Hf. cbn [RequestDecode]. destruct (decode_requests _ _ _ j 0 _ _) as [[err|rs] ids] eqn:E; [done|].
  intros [= <- <-] Hk Hr Hid. destruct (decode_requests_ids _ _ _ _ _ _ Hf E) as [_ Hl].
  cbn [ResponseEncode idMap]. rewrite Hid. by rewrite (Hl k body r Hk Hr).
Qed.

Lemma mapM_permuted {A B} (f : A -> option B) l l' k :
  l ≡ₚ l' -> mapM f l = Some k -> exists k', mapM f l' = Some k' /\ k ≡ₚ k'.
Proof using Type.
  intros Hp. revert k. induction Hp as [|x l l' Hp IH|x y l|l1 l2 l3 _ IH1 _ IH2]; intros k Hk.
  - by exists k.
  - apply mapM_Some in Hk. inversion Hk as [|? b ? ks Hb Hks]; subst. apply mapM_Some in Hks.
    destruct (IH ks Hks) as (k' & Hk' & Hpk). exists (b :: k'). split; [|by constructor].
    apply mapM_Some. constructor; [done|]. by apply mapM_Some.
  - apply mapM_Some in Hk. inversion Hk as [|? b ? ks Hb Hks]; subst. inversion Hks as [|? b' ? ks' Hb' Hks']; subst.
    exists (b' :: b :: ks'). split; [|constructor]. apply mapM_Some. by repeat constructor.
  - destruct (IH1 k Hk) as (k1 & Hk1 & Hp1). destruct (IH2 k1 Hk1) as (k2 & Hk2 & Hp2).
    exists k2. split; [done|]. by etransitivity.
Qed.

Definition batch_bytes (rs : list BatchStream.Response) : nat :=
  length (concat (map (fun r => with_sep (ResponseReader r)) rs)).

Lemma batch_bytes_perm rs rs' : rs ≡ₚ rs' -> batch_bytes rs = batch_bytes rs'.
Proof using Type.
  unfold batch_bytes. induction 1; simpl; rewrite ?length_app; lia.
Qed.

Lemma in_order_answers (rs : list BatchStream.Response) :
  (forall k r, rs !! k = Some r -> Order r = Z.of_nat k) -> rs = answers (map ResponseReader rs).
Proof using Type.
  intros Ho. apply list_eq. intros k. unfold answers. rewrite list_lookup_imap.
  change (map ResponseReader rs) with (ResponseReader <$> rs). rewrite list_lookup_fmap.
  destruct (rs !! k) as [[b o]|] eqn:E; [|done]. simpl. by rewrite <- (Ho k _ E).
Qed.

(** The body of a batch whose responses all arrived, for any order of arrival. *)
Lemma batch_body j request h' ws arrived rs sizes :
  fresh_uuids -> RequestDecode chain_reg reg new_uuid (HandlerJsonRpc j) = (inr request, h') ->
  Forall2 (fun r w => response_Id (Responses.Response w) = request_Id r) (UpstreamRequests request) ws ->
  arrived ≡ₚ ws -> mapM (encoded h') arrived = Some rs ->
  Forall (fun n => 0 < n)%nat sizes -> (batch_bytes rs < length sizes)%nat ->
  exists bodies, ArraySortingStream (map Arrived rs) (length (jsonRpcRequests j)) sizes = Some (json_array bodies) /\
    length bodies = length (jsonRpcRequests j) /\
    forall k body w, jsonRpcRequests j !! k = Some body -> ws !! k = Some w ->
      exists text, EncodeResponse (Responses.Response w) (rb_Id body) = Some (inr text) /\
        bodies !! k = Some (String.list_ascii_of_string text).
Proof using Type.
  intros Hf Hd Hws Hp Hrs Hs Hlen. destruct (mapM_permuted _ _ _ _ Hp Hrs) as (rs' & Hrs' & Hpr).
  apply mapM_Some in Hrs'.
  assert (length (jsonRpcRequests j) = length (UpstreamRequests request)) as Hreq.
  { cbn [RequestDecode] in Hd. destruct (decode_requests _ _ _ j 0 _ _) as [[err|qs] ids] eqn:E; [done|].
    injection Hd as <- _. apply decode_requests_spec in E as [E _]. by apply Forall2_length in E. }
  pose proof (Forall2_length _ _ _ Hws) as Hl1. pose proof (Forall2_length _ _ _ Hrs') as Hl2.
  assert (forall k body w, jsonRpcRequests j !! k = Some body -> ws !! k = Some w ->
    ResponseEncode h' (Responses.Response w) = (EncodeResponse (Responses.Response w) (rb_Id body), Z.of_nat k)) as Henc.
  { intros k body w Hb Hw. destruct (Forall2_lookup_r _ _ _ _ _ Hws Hw) as (r & Hr & Hid). by eapply decoded_encode. }
  assert (rs' = answers (map ResponseReader rs')) as Ha.
  { apply in_order_answers. intros k r Hr. destruct (Forall2_lookup_r _ _ _ _ _ Hrs' Hr) as (w & Hw & He).
    destruct (jsonRpcRequests j !! k) as [body|] eqn:Eb; [|apply lookup_ge_None in Eb; apply lookup_lt_Some in Hw; lia].
    unfold encoded in He. rewrite (Henc k body w Eb Hw) in He.
    destruct (EncodeResponse _ _) as [[err|text]|]; try done. by injection He as <-. }
  exists (map ResponseReader rs'). split_and!.
  - replace (length (jsonRpcRequests j)) with (length (map ResponseReader rs')) by (rewrite length_map; lia).
    apply batch_order; [by rewrite <- Ha|done|]. rewrite (batch_bytes_perm _ _ Hpr) in Hlen.
    unfold batch_bytes in Hlen. by rewrite map_map.
  - rewrite length_map. lia.
  - intros k body w Hb Hw. destruct (Forall2_lookup_l _ _ _ _ _ Hrs' Hw) as (r & Hr & He).
    unfold encoded in He. rewrite (Henc k body w Hb Hw) in He.
    destruct (EncodeResponse _ _) as [[err|text]|]; try done. exists text. split; [done|].
    change (map ResponseReader rs') with (ResponseReader <$> rs'). rewrite list_lookup_fmap, Hr. by injection He as <-.
Qed.
End Batch.

Section Deliver.
Context `{MR : MapRange} `{HJ : HttpJson} `{TJ : TranslationJson} `{JS : Json} `{MP : MethodParsers}.
Context `{PJ : ParamJson} `{JW : JwtLib} `{NI : Netip} `{EX : Execution}.
Context (chain_reg : ChainRegistry) (reg : Registry).
Context (auth : AuthProcessor) (keys : nat -> gmap string Key).
Context (hasSupervisor : Z -> bool) (new_uuid : nat -> GoError + string).

Lemma refused_ids chain reqs err t :
  reqs <> [] ->
  Forall2 (fun r w => response_Id (Responses.Response w) = request_Id r) reqs
    (createWrapperFromError (Some (mkRequest chain reqs)) err t).
Proof using Type.
  intros Hne. destruct reqs as [|r reqs]; [done|]. cbn [createWrapperFromError]. apply Forall2_fmap_r, Forall_Forall2_diag.
  apply Forall_forall. intros r' _. simpl. apply total_failure_id.
Qed.

(** Once the requests are decoded, each of them is answered once, executed or not. *)
Lemma handleRequest_delivers h ips payload request h1 resp h' arrived :
  (PreKeyValidate auth (keys 0%nat) ips payload).2 = None ->
  RequestDecode chain_reg reg new_uuid h = (inr request, h1) -> UpstreamRequests request <> [] ->
  handleRequest chain_reg reg auth keys hasSupervisor new_uuid h ips payload = (resp, h') ->
  delivered (responseWrappers resp) arrived ->
  h' = h1 /\ exists ws, arrived ≡ₚ ws /\
    Forall2 (fun r w => response_Id (Responses.Response w) = request_Id r) (UpstreamRequests request) ws /\
    forall chain reqs, responseWrappers resp = Execute chain reqs ->
      Forall2 (fun r w => answered chain r w) (UpstreamRequests request) ws.
Proof using Type.
  intros Hpre Hd Hne. unfold handleRequest.
  destruct (PreKeyValidate auth (keys 0%nat) ips payload) as [o [err|]]; [done|]. rewrite Hd. clear Hpre Hd.
  destruct request as [chain reqs]. cbn [rq_Chain UpstreamRequests] in *.
  destruct (negb (IsSupported _ _)); [|destruct (negb (hasSupervisor _));
    [|destruct (post_validate _ _ 1 payload reqs) as [err|out] eqn:Ep]];
    intros [= <- <-]; cbn [delivered responseWrappers];
    [intros ->; split; [done|]; eexists; split_and!; [done|exact (refused_ids chain reqs _ _ Hne)|done]..|].
  intros (ws & Hp & Ha). split; [done|]. apply post_validate_ok in Ep as [Hm _].
  assert (Forall2 (fun r w => answered (cc_Chain (GetChain chain_reg chain)) r w) reqs ws) as Hans.
  { rewrite <- Hm. by apply Forall2_fmap_l. }
  exists ws. split_and!; [done| |].
  - eapply Forall2_impl; [exact Hans|]. intros r w. apply answered_id.
  - by intros ? ? [= <- <-].
Qed.
End Deliver.

(** C4.  A client that sends a batch reads one JSON array.  When its key, or its
    address, is refused before the batch is decoded, the only element is the error
    of the authorization, under the id 0.  Otherwise the array has one element per
    request: at the place of each request the response to it, encoded under the
    client's own id, whatever the order the responses arrive in, the sizes of the
    buffers, and whether the requests are then executed or refused. *)
Theorem batch_answered_in_order `{MapRange} `{HttpJson} `{TranslationJson} `{Json} `{MethodParsers} `{ParamJson}
    `{JwtLib} `{Netip} `{Execution} `{Regexps} chain_reg reg auth keys hasSupervisor new_uuid
    chain body j ips payload resp h' arrived rs sizes :
  fresh_uuids new_uuid -> NewJsonRpcHandler chain body false = Some j -> jsonRpcRequests j <> [] ->
  (forall i, (i < length (jsonRpcRequests j))%nat -> exists id, new_uuid i = inr id) ->
  handleRequest chain_reg reg auth keys hasSupervisor new_uuid (HandlerJsonRpc j) ips payload = (resp, h') ->
  delivered (responseWrappers resp) arrived ->
  mapM (encoded h') arrived = Some rs ->
  Forall (fun n => 0 < n)%nat sizes -> (batch_bytes rs < length sizes)%nat ->
  exists bodies,
    http_body <$> handle_batch h' payload (corsOrigins resp) arrived sizes =
      Some (Some (inr (String.string_of_list_ascii (json_array bodies)))) /\
    match (PreKeyValidate auth (keys 0%nat) ips payload).2 with
    | Some err =>
      exists text, bodies = [String.list_ascii_of_string text] /\
        EncodeResponse (NewTotalFailureFromErr "0" (RespError (AuthError (OtherError err))) JsonRpc) "0" = Some (inr text)
    | None =>
      length bodies = length (jsonRpcRequests j) /\
      forall k req, jsonRpcRequests j !! k = Some req ->
        exists id w text, new_uuid k = inr id /\ w ∈ arrived /\ response_Id (Responses.Response w) = id /\
          EncodeResponse (Responses.Response w) (rb_Id req) = Some (inr text) /\
          bodies !! k = Some (String.list_ascii_of_string text) /\
          forall c reqs, responseWrappers resp = Execute c reqs -> answered c (upstream_request chain_reg reg j id req) w
    end.
Proof.
  intros Hf Hj Hne Hu Hh Hdel Hrs Hs Hlen.
  destruct (PreKeyValidate auth (keys 0%nat) ips payload).2 as [err|] eqn:Hpre.
  { unfold handleRequest in Hh. destruct (PreKeyValidate auth (keys 0%nat) ips payload) as [o e]. cbn [snd] in Hpre. subst e.
    injection Hh as <- <-. cbn [delivered responseWrappers createWrapperFromError] in Hdel. subst arrived.
    cbn [mapM] in Hrs. unfold encoded in Hrs. cbn [ResponseEncode] in Hrs.
    rewrite (NewJsonRpcHandler_idMap _ _ _ _ Hj), lookup_empty in Hrs. cbn [Responses.Response empty_wrapper GetRequestType] in Hrs.
    destruct (EncodeResponse _ "0") as [[e|text]|] eqn:Et; try done. injection Hrs as <-.
    exists [String.list_ascii_of_string text]. split; [|by exists text].
    unfold handle_batch. cbn [mapM]. unfold encoded. cbn [ResponseEncode].
    rewrite (NewJsonRpcHandler_idMap _ _ _ _ Hj), lookup_empty. cbn [Responses.Response empty_wrapper GetRequestType]. rewrite Et.
    cbn [mbind option_bind mret option_ret map RequestCount]. rewrite batch_unplaced; [done| |done|done|].
    - destruct (jsonRpcRequests j); [done|simpl; lia].
    - unfold batch_bytes in Hlen. cbn [map concat ResponseReader] in *. by rewrite app_nil_r in Hlen. }
  destruct (RequestDecode chain_reg reg new_uuid (HandlerJsonRpc j)) as [res h1] eqn:Hd.
  destruct (decode_all chain_reg reg new_uuid j res h1 Hu Hd) as (request & -> & Hreqs & Hcount).
  destruct (handleRequest_delivers _ _ _ _ _ _ _ _ _ _ _ _ _ _ Hpre Hd (proj1 Hcount Hne) Hh Hdel) as (-> & wsl & Hp & Hi & Ha).
  destruct (batch_body _ _ _ _ _ _ _ _ _ _ Hf Hd Hi Hp Hrs Hs Hlen) as (bodies & Hb & Hbl & Hk).
  exists bodies. split_and!; [|done|].
  - unfold handle_batch. rewrite Hrs. cbn [mbind option_bind].
    rewrite (proj2 Hcount). by rewrite Hb.
  - intros k req Hk'. destruct (Hreqs k req Hk') as (id & Hid & Hr).
    destruct (Forall2_lookup_l _ _ _ _ _ Hi Hr) as (w & Hw & Hwid).
    destruct (Hk k req w Hk' Hw) as (text & Ht & Hbk). exists id, w, text. split_and!; [done| |by rewrite Hwid; apply getMethod_upstream|done|done|].
    + rewrite Hp. by eapply list_elem_of_lookup_2.
    + intros c reqs Hc. specialize (Ha c reqs Hc). destruct (Forall2_lookup_l _ _ _ _ _ Ha Hr) as (w' & Hw' & Hans). congruence.
Qed.

(** ** A small server *)

#[local] Instance sample_http_json : HttpJson := {
  unmarshal_requests _ := Some [mkRequestBody "7" "eth_chainId" "[]"; mkRequestBody "9" "eth_blockNumber" "[]"];
  sonic_Valid _ := true;
}.
#[local] Instance sample_translation : TranslationJson := {
  unmarshal_body _ := inl (OtherError ""); unmarshal_params _ := None;
  unmarshal_utxos _ := inr []; marshal_unspent _ := inr "[]" }.
#[local] Instance sample_parsers : MethodParsers := no_parsers (fun _ _ params => inr params).
#[local] Instance sample_params : ParamJson := fun _ _ => NodeOther.
#[local] Instance sample_jwt : JwtLib := {
  PubKey := unit; loadPubKey _ := inr tt; jwt_Parse _ _ _ _ := None }.
#[local] Instance sample_regexps : Regexps := fun pattern value => bool_decide (pattern = value).

Definition sample_answer (r : RequestHolder) : ResponseHolderWrapper :=
  empty_wrapper "up1" (request_Id r) (NewSimpleHttpUpstreamResponse (request_Id r) (request_Method r) JsonRpc).

#[local] Instance sample_execution : Execution.
Proof.
  refine {| answered := fun _ r w => w = sample_answer r |}; intros chain r w ->; done.
Defined.

Definition sample_uuid (i : nat) : GoError + string := inr (pretty (N.of_nat i)).

Definition sample_key : Key := KeyLocal (mkLocalKey "k" "secret" (Some (mkKeySettings ["10.0.0.1"] None None []))).
Definition sample_keys (_ : nat) : gmap string Key := {[ "secret" := sample_key ]}.

Definition sample_request : HttpRequest :=
  mkHttpRequest (mkHttpPeer "10.0.0.1" []) (fun k => if bool_decide (k = XNodecoreKey) then "secret" else "") "".
Definition sample_call : HttpCall := mkHttpCall "POST" "ethereum" "" (Some " [1]") sample_request ∅ ∅.
Definition sample_auth : AuthProcessor := BasicProcessor NoopStrategy.

#[local] Existing Instance Responses.demo_json.
#[local] Existing Instance ClientIp.demo_netip.

#[local] Existing Instance Prelude.default_range.

Definition sample_serve : Served :=
  serve sample_registry ∅ sample_auth sample_keys (fun _ => true) [] sample_uuid sample_call.

Definition sample_executed : Served -> option (RequestHandler * (Z * list (RequestHolder * string))) := fun s =>
  match s with Handled h (mkHandleResponse (Execute c reqs) _) => Some (h, (c, reqs)) | _ => None end.

Example sample_served : (fun x => length x.2.2) <$> sample_executed sample_serve = Some 2%nat.
Proof. vm_compute. reflexivity. Qed.

Lemma executed_requests_authorized_witness :
  exists h c reqs o, sample_serve = Handled h (mkHandleResponse (Execute c reqs) o) /\ length reqs = 2%nat /\
    forall i r v, reqs !! i = Some (r, v) -> permits sample_key r.
Proof.
  destruct sample_serve as [|ips|h [[ws|c reqs] o]] eqn:E;
    [pose proof sample_served as Hs; rewrite E in Hs; discriminate Hs..|].
  exists h, c, reqs, o. split; [reflexivity|]. pose proof sample_served as Hs. rewrite E in Hs.
  injection Hs as Hs. split; [exact Hs|].
  destruct (executed_requests_authorized _ _ _ _ _ _ _ _ _ _ _ _ E) as (_ & _ & _ & _ & _ & Hk).
  destruct (Hk NoopStrategy eq_refl) as [_ Hr]. intros i r v Hi. destruct (Hr i r v Hi) as (key & Hkey & Hp).
  vm_compute in Hkey. injection Hkey as <-. exact Hp.
Defined.

Definition sample_handler : JsonRpcHandler :=
  mkJsonRpcHandler "ethereum" ∅ false [mkRequestBody "7" "eth_chainId" "[]"; mkRequestBody "9" "eth_blockNumber" "[]"] false.

Definition sample_handled : HandleResponse * RequestHandler :=
  handleRequest sample_registry ∅ NoopProcessor sample_keys (fun _ => true) sample_uuid (HandlerJsonRpc sample_handler) ∅
    sample_request.

(** The second request is answered first. *)
Definition sample_arrived : list ResponseHolderWrapper :=
  match responseWrappers sample_handled.1 with Execute _ reqs => rev (map (fun r => sample_answer r.1) reqs) | _ => [] end.

Definition sample_encoded : list BatchStream.Response := default [] (mapM (encoded sample_handled.2) sample_arrived).

Example sample_batch :
  length sample_arrived = 2%nat /\ mapM (encoded sample_handled.2) sample_arrived = Some sample_encoded /\
  (batch_bytes sample_encoded < 100)%nat.
Proof. vm_compute. split_and!; [reflexivity..|lia]. Qed.

Lemma sample_delivered : delivered (responseWrappers sample_handled.1) sample_arrived.
Proof.
  destruct (responseWrappers sample_handled.1) as [ws|c reqs] eqn:E.
  - destruct sample_batch as (Hl & _). unfold sample_arrived in Hl. by rewrite E in Hl.
  - unfold sample_arrived. rewrite E. exists (map (fun r => sample_answer r.1) reqs). split.
    + symmetry. apply Permutation_rev.
    + by apply Forall2_fmap_r, Forall_Forall2_diag, Forall_true.
Qed.

Lemma batch_answered_in_order_witness :
  exists bodies, http_body <$> handle_batch sample_handled.2 sample_request (corsOrigins sample_handled.1) sample_arrived
      (replicate 100 1%nat) = Some (Some (inr (String.string_of_list_ascii (json_array bodies)))) /\ length bodies = 2%nat.
Proof.
  destruct sample_batch as (_ & Hr & Hb).
  destruct (batch_answered_in_order sample_registry ∅ NoopProcessor sample_keys (fun _ => true) sample_uuid "ethereum" (Some " [1]") sample_handler ∅
    sample_request sample_handled.1 sample_handled.2 sample_arrived sample_encoded (replicate 100 1%nat))
    as (bodies & H1 & H2 & _).
  - intros i k id [= <-] [= Hk]. apply (inj pretty) in Hk. apply Nat2N.inj in Hk. congruence.
  - vm_compute. reflexivity.
  - discriminate.
  - intros i _. exists (pretty (N.of_nat i)). reflexivity.
  - apply surjective_pairing.
  - exact sample_delivered.
  - exact Hr.
  - apply Forall_replicate. lia.
  - rewrite length_replicate. exact Hb.
  - exists bodies. split; [exact H1|exact H2].
Defined.

(** ** Two encodings that are not what they should be *)

(** A request without an id is answered with a text that is not JSON. *)
Lemma missing_id_not_json `{Json} (w : ResponseHolderWrapper) result :
  Responses.Response w = NewSimpleHttpUpstreamResponse "1" result JsonRpc ->
  exists rest, EncodeResponse (Responses.Response w) "" = Some (inr ("{" +:+ quoted "id" +:+ ":," +:+ rest)).
Proof. intros ->. eexists. reflexivity. Qed.

(** An origin without a wildcard is used as a pattern as it is. *)
Example exact_origin_not_quoted : WildcardToRegex "https://a.com" = "^https://a.com$" /\
  WildcardToRegex "https://*.a.com" = "^https://.*\.a\.com$".
Proof. split; reflexivity. Qed.
