(* ===== verification/WsServer.v ===== *)
(** The websocket connections of clients ([internal/server/http_server/ws_server.go]):
    the goroutine that reads messages, the loop that takes them, and a goroutine per
    message that writes its responses as frames.

    Every step of the model is one arm of one of their [select]s.  What the flow sends
    on the channel of a message is an answer to one of its requests (the class
    [Execution] of [HttpServer]); a subscription is answered many times.  The channel of
    messages is the list of what it holds; the lock of the writer makes the writing of a
    frame one step. *)

From S2P Require Import Prelude.
From S2P Require Import Protocol.
From S2P Require Import Errors.
From S2P Require Import Responses.
From S2P Require Import Specs.
From S2P Require Import Chains.
From S2P Require Import ClientIp.
From S2P Require Import Requests.
From S2P Require Import Access.
From S2P Require Import MethodTranslation.
From S2P Require Import Send.
From S2P Require Import HttpServer.

(** ** Data *)

Record ClientMessage := mkClientMessage { messageType : Z; message : string }.

(** A message, or the error that ends the reading. *)
Inductive messageEvent := MessageRead (m : ClientMessage) | ReadError.

(** What is put on the wire: the type of the message and the reader of the response. *)
Record Frame := mkFrame { frame_type : Z; frame_reader : option (GoError + string) }.

(** The goroutine of a message: it forwards, has got a total failure and wants to
    report it, or has ended. *)
Inductive ForwarderPc := Forwarding | Closing | Ended.

(** [received] is what it took from the channel so far. *)
Record Forwarder := mkForwarder {
  fw_message : ClientMessage;
  fw_handler : RequestHandler;
  fw_source : ResponseSource;
  received : list ResponseHolderWrapper;
  fw_pc : ForwarderPc;
}.

(** Why the loop ended: the context, a failure of a subscription, or the message it
    took last. *)
Inductive LoopEnd := ContextDone | FailureSignal | StoppedBy (e : messageEvent).

(** Where the handler is: in its loop, after it, after [cancel], after the connection
    is closed. *)
Inductive HandlerPc := Looping | LoopLeft (why : LoopEnd) | Cancelled (why : LoopEnd) | ConnClosed (why : LoopEnd).

(** [events] is all that was read from the connection, [broken] that writing to it
    fails; [frames] are the frames written with the position of their message. *)
Record WsConn := mkWsConn {
  events : list messageEvent;
  messageChan : list messageEvent;
  reading : bool;
  handler : HandlerPc;
  ctxDone : bool;
  closeChan : bool;
  broken : bool;
  forwarders : list Forwarder;
  frames : list (nat * Frame);
}.

Definition new_conn : WsConn := mkWsConn [] [] true Looping false false false [] [].

Definition messageChanSize : nat := 100.

(** A failure that ends the connection. *)
Definition is_ws_failure (w : ResponseHolderWrapper) : bool :=
  match Responses.Response w with
  | ReplyErrorResponse r => bool_decide (ErrorKind r = TotalFailure) && (Code (responseError r) =? WsTotalFailure)
  | _ => false
  end.

Definition frame_of `{Json} (f : Forwarder) (w : ResponseHolderWrapper) : Frame :=
  mkFrame (messageType (fw_message f)) (ResponseEncode (fw_handler f) (Responses.Response w)).1.

Definition set_handler (h : HandlerPc) (s : WsConn) : WsConn :=
  mkWsConn (events s) (messageChan s) (reading s) h (ctxDone s) (closeChan s) (broken s) (forwarders s) (frames s).
Definition set_chan (l : list messageEvent) (s : WsConn) : WsConn :=
  mkWsConn (events s) l (reading s) (handler s) (ctxDone s) (closeChan s) (broken s) (forwarders s) (frames s).
Definition set_reading (b : bool) (s : WsConn) : WsConn :=
  mkWsConn (events s) (messageChan s) b (handler s) (ctxDone s) (closeChan s) (broken s) (forwarders s) (frames s).
Definition set_done (s : WsConn) : WsConn :=
  mkWsConn (events s) (messageChan s) (reading s) (handler s) true (closeChan s) (broken s) (forwarders s) (frames s).
Definition set_close (b : bool) (s : WsConn) : WsConn :=
  mkWsConn (events s) (messageChan s) (reading s) (handler s) (ctxDone s) b (broken s) (forwarders s) (frames s).
Definition set_broken (s : WsConn) : WsConn :=
  mkWsConn (events s) (messageChan s) (reading s) (handler s) (ctxDone s) (closeChan s) true (forwarders s) (frames s).
Definition set_forwarders (l : list Forwarder) (s : WsConn) : WsConn :=
  mkWsConn (events s) (messageChan s) (reading s) (handler s) (ctxDone s) (closeChan s) (broken s) l (frames s).
Definition set_pc (pc : ForwarderPc) (f : Forwarder) : Forwarder :=
  mkForwarder (fw_message f) (fw_handler f) (fw_source f) (received f) pc.

Definition conn_open (s : WsConn) : bool :=
  negb (broken s) && match handler s with ConnClosed _ => false | _ => true end.

Section Conn.
Context `{MR : MapRange} `{HJ : HttpJson} `{TJ : TranslationJson} `{JS : Json} `{MP : MethodParsers}.
Context `{PJ : ParamJson} `{JW : JwtLib} `{NI : Netip} `{EX : Execution}.
Context (chain_reg : ChainRegistry) (reg : Registry) (auth : AuthProcessor).

(** The chain, the addresses and the headers are those of the upgraded call; the
    stores of keys, the supervisors and the fresh ids are those of each message. *)
Context (chain : string) (ips : gset string) (payload : HttpRequest).
Context (keys : nat -> nat -> gmap string Key) (hasSupervisor : nat -> Z -> bool) (new_uuid : nat -> nat -> GoError + string).

(** The [i]-th message of the connection: [None] when it ends the loop. *)
Definition take_message (i : nat) (e : messageEvent) : option Forwarder :=
  match e with
  | ReadError => None
  | MessageRead m =>
    j ← NewJsonRpcHandler chain (Some (message m)) true;
    let '(resp, h) := handleRequest chain_reg reg auth (keys i) (hasSupervisor i) (new_uuid i) (HandlerJsonRpc j) ips payload in
    Some (mkForwarder m h (responseWrappers resp) [] Forwarding)
  end.

(** What the channel of a message may yield next, and when it may be closed. *)
Definition yields (f : Forwarder) (w : ResponseHolderWrapper) : Prop :=
  match fw_source f with
  | Refused ws => ws !! length (received f) = Some w
  | Execute c reqs => exists r, r ∈ map fst reqs /\ answered c r w
  end.

Definition exhausted (f : Forwarder) : Prop :=
  match fw_source f with
  | Refused ws => length (received f) = length ws
  | Execute c reqs => forall r, r ∈ map fst reqs -> exists w, w ∈ received f /\ answered c r w
  end.

(** A response is taken and, unless it is the failure, written if it can be. *)
Definition receive (i : nat) (f : Forwarder) (w : ResponseHolderWrapper) (s : WsConn) : WsConn :=
  let f' := mkForwarder (fw_message f) (fw_handler f) (fw_source f) (received f ++ [w])
              (if is_ws_failure w then Closing else Forwarding) in
  let written := if is_ws_failure w || negb (conn_open s) then frames s else frames s ++ [(i, frame_of f w)] in
  mkWsConn (events s) (messageChan s) (reading s) (handler s) (ctxDone s) (closeChan s) (broken s)
    (<[i := f']> (forwarders s)) written.

Inductive ws_step : WsConn -> WsConn -> Prop :=
(** The reader. *)
| step_read s e :
    reading s = true -> (length (messageChan s) < messageChanSize)%nat ->
    ws_step s (mkWsConn (events s ++ [e]) (messageChan s ++ [e]) (match e with ReadError => false | _ => true end)
                 (handler s) (ctxDone s) (closeChan s) (broken s) (forwarders s) (frames s))
| step_read_done s : reading s = true -> ctxDone s = true -> ws_step s (set_reading false s)
(** The context of the server ends; the client is gone. *)
| step_ctx s : ws_step s (set_done s)
| step_break s : ws_step s (set_broken s)
(** The loop. *)
| step_loop_done s : handler s = Looping -> ctxDone s = true -> ws_step s (set_handler (LoopLeft ContextDone) s)
| step_loop_close s :
    handler s = Looping -> closeChan s = true -> ws_step s (set_close false (set_handler (LoopLeft FailureSignal) s))
| step_loop_stop s e rest :
    handler s = Looping -> messageChan s = e :: rest -> take_message (length (forwarders s)) e = None ->
    ws_step s (set_chan rest (set_handler (LoopLeft (StoppedBy e)) s))
| step_loop_take s e rest f :
    handler s = Looping -> messageChan s = e :: rest -> take_message (length (forwarders s)) e = Some f ->
    ws_step s (set_chan rest (set_forwarders (forwarders s ++ [f]) s))
(** After the loop. *)
| step_cancel s why : handler s = LoopLeft why -> ws_step s (set_done (set_handler (Cancelled why) s))
| step_close s why : handler s = Cancelled why -> ws_step s (set_handler (ConnClosed why) s)
(** The goroutine of a message. *)
| step_receive s i f w :
    forwarders s !! i = Some f -> fw_pc f = Forwarding -> yields f w -> ws_step s (receive i f w s)
| step_drained s i f :
    forwarders s !! i = Some f -> fw_pc f = Forwarding -> exhausted f \/ ctxDone s = true ->
    ws_step s (set_forwarders (<[i := set_pc Ended f]> (forwarders s)) s)
| step_signal s i f :
    forwarders s !! i = Some f -> fw_pc f = Closing -> closeChan s = false ->
    ws_step s (set_close true (set_forwarders (<[i := set_pc Ended f]> (forwarders s)) s))
| step_signal_done s i f :
    forwarders s !! i = Some f -> fw_pc f = Closing -> ctxDone s = true ->
    ws_step s (set_forwarders (<[i := set_pc Ended f]> (forwarders s)) s).
End Conn.

(** ** What was written *)

(** The frames of a message, and the responses of it that are frames. *)
Definition frames_of (i : nat) (l : list (nat * Frame)) : list Frame :=
  omap (fun p => if bool_decide (p.1 = i) then Some p.2 else None) l.

Definition forwarded (f : Forwarder) : list ResponseHolderWrapper :=
  base.filter (fun w => is_ws_failure w = false) (received f).

Definition loop_end (h : HandlerPc) : option LoopEnd :=
  match h with Looping => None | LoopLeft why | Cancelled why | ConnClosed why => Some why end.

Definition stopped_by (h : HandlerPc) : list messageEvent :=
  match loop_end h with Some (StoppedBy e) => [e] | _ => [] end.

Definition failed (s : WsConn) : Prop :=
  exists i f w, forwarders s !! i = Some f /\ w ∈ received f /\ is_ws_failure w = true.

Lemma frames_of_snoc i l k fr :
  frames_of i (l ++ [(k, fr)]) = if decide (k = i) then frames_of i l ++ [fr] else frames_of i l.
Proof.
  unfold frames_of. rewrite omap_app. simpl. destruct (decide (k = i)) as [->|Hk].
  - by rewrite bool_decide_eq_true_2.
  - rewrite bool_decide_eq_false_2 by done. by rewrite app_nil_r.
Qed.

Section Invariant.
Context `{MR : MapRange} `{HJ : HttpJson} `{TJ : TranslationJson} `{JS : Json} `{MP : MethodParsers}.
Context `{PJ : ParamJson} `{JW : JwtLib} `{NI : Netip} `{EX : Execution}.
Context (chain_reg : ChainRegistry) (reg : Registry) (auth : AuthProcessor).
Context (chain : string) (ips : gset string) (payload : HttpRequest).
Context (keys : nat -> nat -> gmap string Key) (hasSupervisor : nat -> Z -> bool) (new_uuid : nat -> nat -> GoError + string).

Notation take_message := (take_message chain_reg reg auth chain ips payload keys hasSupervisor new_uuid).
Notation step := (ws_step chain_reg reg auth chain ips payload keys hasSupervisor new_uuid).

(** A message was handled as it should, and what was received comes from its channel. *)
Definition received_ok (f : Forwarder) : Prop :=
  match fw_source f with
  | Refused ws => received f `prefix_of` ws
  | Execute c reqs => forall w, w ∈ received f -> exists r, r ∈ map fst reqs /\ answered c r w
  end.

Record forwarder_ok (s : WsConn) (i : nat) (f : Forwarder) : Prop := {
  made : exists f0, take_message i (MessageRead (fw_message f)) = Some f0 /\
           fw_handler f = fw_handler f0 /\ fw_source f = fw_source f0;
  from_channel : received_ok f;
  written_prefix : frames_of i (frames s) `prefix_of` map (frame_of f) (forwarded f);
  written_all : conn_open s = true -> frames_of i (frames s) = map (frame_of f) (forwarded f);
  closing_failed : fw_pc f = Closing -> exists w, w ∈ received f /\ is_ws_failure w = true;
}.

Record conn_ok (s : WsConn) : Prop := {
  each_ok : forall i f, forwarders s !! i = Some f -> forwarder_ok s i f;
  no_others : forall i, forwarders s !! i = None -> frames_of i (frames s) = [];
  in_order : events s = map MessageRead (map fw_message (forwarders s)) ++ stopped_by (handler s) ++ messageChan s;
  signalled : closeChan s = true \/ loop_end (handler s) = Some FailureSignal -> failed s;
  stopper : forall e, loop_end (handler s) = Some (StoppedBy e) -> take_message (length (forwarders s)) e = None;
  cancelled : match handler s with Cancelled _ | ConnClosed _ => ctxDone s = true | _ => True end;
}.

Lemma take_message_spec i e f :
  take_message i e = Some f -> e = MessageRead (fw_message f) /\ received f = [] /\ fw_pc f = Forwarding.
Proof using Type.
  destruct e as [m|]; [|done]. simpl. intros (j & _ & Hf)%bind_Some.
  destruct (handleRequest chain_reg reg auth (keys i) (hasSupervisor i) (new_uuid i) (HandlerJsonRpc j) ips payload) as [resp h].
  by injection Hf as <-.
Qed.

Lemma take_message_refused i m :
  take_message i (MessageRead m) = None -> NewJsonRpcHandler chain (Some (message m)) true = None.
Proof using Type.
  unfold WsServer.take_message. destruct (NewJsonRpcHandler chain (Some (message m)) true) as [j|]; [|done]. cbn [mbind option_bind].
  by destruct (handleRequest chain_reg reg auth (keys i) (hasSupervisor i) (new_uuid i) (HandlerJsonRpc j) ips payload).
Qed.

(** What only concerns the handler leaves the messages as they are. *)
Lemma forwarder_ok_frames s s' i f :
  frames s' = frames s -> (conn_open s' = true -> conn_open s = true) -> forwarder_ok s i f -> forwarder_ok s' i f.
Proof using Type. intros Hf Ho []. split; rewrite ?Hf; auto. Qed.

Lemma failed_forwarders s s' : forwarders s' = forwarders s -> failed s -> failed s'.
Proof using Type. unfold failed. by intros ->. Qed.

(** A message that ends keeps what it received. *)
Lemma forwarder_ok_ended s i f : forwarder_ok s i f -> forwarder_ok s i (set_pc Ended f).
Proof using Type. intros []. by split. Qed.

Lemma failed_ended s i f :
  forwarders s !! i = Some f -> failed s -> failed (set_forwarders (<[i := set_pc Ended f]> (forwarders s)) s).
Proof using Type.
  intros Hi (k & g & w & Hk & Hw & Hf). destruct (decide (i = k)) as [->|Hne].
  - exists k, (set_pc Ended f), w. simpl. rewrite list_lookup_insert_eq by (by eapply lookup_lt_Some).
    assert (g = f) as -> by congruence. done.
  - exists k, g, w. simpl. by rewrite list_lookup_insert_ne by done.
Qed.

Lemma map_message_insert (l : list Forwarder) i f f' :
  l !! i = Some f -> fw_message f' = fw_message f -> map fw_message (<[i := f']> l) = map fw_message l.
Proof using Type.
  intros Hi Hm. rewrite list_fmap_insert. rewrite Hm. apply list_insert_id. by rewrite list_lookup_fmap, Hi.
Qed.

(** Ending a message keeps the invariant. *)
Lemma conn_ok_ended s i f :
  conn_ok s -> forwarders s !! i = Some f -> conn_ok (set_forwarders (<[i := set_pc Ended f]> (forwarders s)) s).
Proof using Type.
  intros Hok Hi. destruct Hok. split; simpl.
  - intros k g Hk. destruct (decide (i = k)) as [->|Hne].
    + rewrite list_lookup_insert_eq in Hk by (by eapply lookup_lt_Some). injection Hk as <-.
      apply (forwarder_ok_frames s); [done|done|]. by apply forwarder_ok_ended, each_ok0.
    + rewrite list_lookup_insert_ne in Hk by done. by apply (forwarder_ok_frames s), each_ok0.
  - intros k Hk. apply no_others0. apply lookup_ge_None in Hk. rewrite length_insert in Hk. by apply lookup_ge_None.
  - by rewrite (map_message_insert _ _ f).
  - intros H. apply failed_ended; auto.
  - by rewrite length_insert.
  - done.
Qed.

Lemma conn_ok_receive s i f w :
  conn_ok s -> forwarders s !! i = Some f -> yields f w -> conn_ok (receive i f w s).
Proof using Type.
  intros Hok Hi Hy. destruct Hok. pose proof (each_ok0 i f Hi) as []. unfold receive.
  set (f' := mkForwarder _ _ _ _ _).
  assert (forwarded f' = forwarded f ++ (if is_ws_failure w then [] else [w])) as Hfw.
  { unfold forwarded, f'. simpl. rewrite filter_app. f_equal.
    destruct (is_ws_failure w) eqn:E; [by rewrite filter_cons_False by congruence|by rewrite filter_cons_True]. }
  assert (forall x, frame_of f' x = frame_of f x) as Hfr by done.
  assert (map (frame_of f') (forwarded f') = map (frame_of f) (forwarded f) ++ map (frame_of f) (if is_ws_failure w then [] else [w])) as Hmap
    by (by rewrite Hfw, map_app).
  split; cbn [forwarders events messageChan handler closeChan frames ctxDone].
  - intros k g Hk. destruct (decide (i = k)) as [->|Hne].
    + rewrite list_lookup_insert_eq in Hk by (by eapply lookup_lt_Some). injection Hk as <-. split.
      * exact made0.
      * unfold received_ok, yields in *. simpl. destruct (fw_source f) as [ws|c reqs].
        { destruct from_channel0 as [rest ->]. rewrite lookup_app_r, Nat.sub_diag in Hy by lia.
          destruct rest as [|w' rest]; [done|]. injection Hy as ->. exists rest. by rewrite <- app_assoc. }
        { intros x [Hx|Hx%list_elem_of_singleton]%elem_of_app; [by apply from_channel0|by subst]. }
      * cbn [frames]. rewrite Hmap. destruct (is_ws_failure w); cbn [orb map]; [by rewrite app_nil_r|].
        destruct (conn_open s) eqn:Eo; cbn [negb].
        { by rewrite frames_of_snoc, decide_True, written_all0. }
        { by apply prefix_app_r. }
      * unfold conn_open. cbn [broken handler frames]. fold (conn_open s). intros Ho. rewrite Hmap.
        destruct (is_ws_failure w); cbn [orb map]; [rewrite app_nil_r; by apply written_all0|].
        rewrite Ho. cbn [negb]. by rewrite frames_of_snoc, decide_True, written_all0.
      * simpl. destruct (is_ws_failure w) eqn:Ew; [|done]. intros _. exists w. split; [|done]. set_solver.
    + rewrite list_lookup_insert_ne in Hk by done. pose proof (each_ok0 k g Hk) as [].
      assert (frames_of k (if is_ws_failure w || negb (conn_open s) then frames s else frames s ++ [(i, frame_of f w)]) = frames_of k (frames s))
        as He by (destruct (_ || _); [done|by rewrite frames_of_snoc, decide_False]).
      split; cbn [frames]; rewrite ?He; auto.
  - intros k Hk. apply lookup_ge_None in Hk. rewrite length_insert in Hk.
    assert (i <> k) as Hne by (intros ->; apply lookup_lt_Some in Hi; lia).
    destruct (_ || _); [|rewrite frames_of_snoc, decide_False by done]; by apply no_others0, lookup_ge_None.
  - by rewrite (map_message_insert _ _ f).
  - intros Hs. destruct (signalled0 Hs) as (k & g & x & Hk & Hx & Hf). destruct (decide (i = k)) as [->|Hne].
    + exists k, f', x. simpl. rewrite list_lookup_insert_eq by (by eapply lookup_lt_Some). assert (g = f) as -> by congruence. set_solver.
    + exists k, g, x. simpl. by rewrite list_lookup_insert_ne by done.
  - by rewrite length_insert.
  - done.
Qed.

(** A step that leaves the messages alone. *)
Lemma conn_ok_same s s' :
  conn_ok s -> forwarders s' = forwarders s -> frames s' = frames s -> (conn_open s' = true -> conn_open s = true) ->
  events s' = map MessageRead (map fw_message (forwarders s)) ++ stopped_by (handler s') ++ messageChan s' ->
  (closeChan s' = true \/ loop_end (handler s') = Some FailureSignal -> failed s) ->
  (forall e, loop_end (handler s') = Some (StoppedBy e) -> take_message (length (forwarders s)) e = None) ->
  match handler s' with Cancelled _ | ConnClosed _ => ctxDone s' = true | _ => True end -> conn_ok s'.
Proof using Type.
  intros [] Hf Hfr Ho He Hs Hstop Hc. split; rewrite ?Hf, ?Hfr; auto.
  - intros i f Hi. by apply (forwarder_ok_frames s), each_ok0.
  - intros H. by apply (failed_forwarders s), Hs.
Qed.

Lemma conn_ok_taken s e rest f :
  conn_ok s -> handler s = Looping -> messageChan s = e :: rest -> take_message (length (forwarders s)) e = Some f ->
  conn_ok (set_chan rest (set_forwarders (forwarders s ++ [f]) s)).
Proof using Type.
  intros [] Hl Hc Ht. destruct (take_message_spec _ _ _ Ht) as (-> & Hr & Hpc).
  assert (frames_of (length (forwarders s)) (frames s) = []) as Hnew by (by apply no_others0, lookup_ge_None).
  split; cbn [set_chan set_forwarders forwarders frames events messageChan handler closeChan ctxDone]; rewrite ?Hl in *.
  - intros i g [Hg|[Hlen Hg]]%lookup_app_Some; [by apply (forwarder_ok_frames s), each_ok0|].
    destruct (i - length (forwarders s))%nat eqn:Ei; [|done]. injection Hg as <-.
    assert (i = length (forwarders s)) as -> by lia. split.
    + by exists f.
    + unfold received_ok. rewrite Hr. destruct (fw_source f); [by apply prefix_nil|by intros w ?%elem_of_nil].
    + cbn [set_chan set_forwarders frames]. rewrite Hnew. by apply prefix_nil.
    + intros _. cbn [set_chan set_forwarders frames]. rewrite Hnew. unfold forwarded. by rewrite Hr.
    + by rewrite Hpc.
  - intros i Hi. apply no_others0. apply lookup_ge_None in Hi. rewrite length_app in Hi. simpl in Hi. apply lookup_ge_None. lia.
  - rewrite in_order0, Hc, !map_app. unfold stopped_by. simpl. by rewrite <- app_assoc.
  - intros H. destruct (signalled0 H) as (i & g & w & Hi & Hw). exists i, g, w.
    split; [|done]. simpl. by apply lookup_app_l_Some.
  - done.
  - done.
Qed.

Lemma conn_ok_step s s' : step s s' -> conn_ok s -> conn_ok s'.
Proof using Type.
  intros Hs Hok. pose proof (in_order _ Hok) as Hord. pose proof (signalled _ Hok) as Hsig.
  pose proof (stopper _ Hok) as Hstop. pose proof (cancelled _ Hok) as Hcan.
  destruct Hs as [s e Hr Hlen|s Hr Hd|s|s|s Hl Hd|s Hl Hc|s e rest Hl Hm Ht|s e rest f Hl Hm Ht|s why Hl|s why Hl
    |s i f w Hi Hpc Hy|s i f Hi Hpc _|s i f Hi Hpc Hc|s i f Hi Hpc Hd].
  - apply (conn_ok_same s); [done..| |done|done|done]. simpl. by rewrite Hord, <- !app_assoc.
  - by apply (conn_ok_same s).
  - apply (conn_ok_same s); [done..|]. simpl. by destruct (handler s).
  - by apply (conn_ok_same s).
  - apply (conn_ok_same s); simpl; rewrite ?Hl in *; try done.
    + unfold conn_open. by rewrite Hl.
    + intros [H|]; [auto|done].
  - apply (conn_ok_same s); simpl; rewrite ?Hl in *; try done; [|by auto].
    unfold conn_open. by rewrite Hl.
  - apply (conn_ok_same s); simpl; rewrite ?Hl in *; try done.
    + unfold conn_open. by rewrite Hl.
    + by rewrite Hord, Hm.
    + intros [H|]; [auto|done].
    + intros ? [= <-]. done.
  - by eapply conn_ok_taken.
  - apply (conn_ok_same s); simpl; rewrite ?Hl in *; try done. unfold conn_open. by rewrite Hl.
  - apply (conn_ok_same s); simpl; rewrite ?Hl in *; try done. unfold conn_open. simpl. by rewrite andb_false_r.
  - by apply conn_ok_receive.
  - by apply conn_ok_ended.
  - apply (conn_ok_same _ _ (conn_ok_ended s i f Hok Hi)); try done.
    + simpl. by rewrite (map_message_insert _ _ f).
    + intros _. apply failed_ended; [done|]. destruct (closing_failed _ _ _ (each_ok _ Hok i f Hi) Hpc) as (w & Hw & Hf).
      by exists i, f, w.
    + simpl. by rewrite length_insert.
  - by apply conn_ok_ended.
Qed.

Lemma conn_ok_new : conn_ok new_conn.
Proof using Type. split; try done. by intros [|]. Qed.

Lemma reachable_ok s : rtc step new_conn s -> conn_ok s.
Proof using Type.
  intros H. assert (forall s0, rtc step s0 s -> conn_ok s0 -> conn_ok s) as Hr.
  { clear H. intros s0 H. induction H as [|x y z Hxy _ IH]; [done|]. intros Hx. by eapply IH, conn_ok_step. }
  by apply (Hr new_conn), conn_ok_new.
Qed.

(** What a client may count on for a response to its [i]-th message: it answers one of the
    requests of the message, which the caller was allowed to make when it was executed,
    and it is written under the client's own id. *)
Definition answers_message (i : nat) (f : Forwarder) (c : Z) (w : ResponseHolderWrapper) : Prop :=
  exists j k body id,
    NewJsonRpcHandler chain (Some (message (fw_message f))) true = Some j /\
    jsonRpcRequests j !! k = Some body /\ new_uuid i k = inr id /\
    answered c (upstream_request chain_reg reg j id body) w /\
    frame_of f w = mkFrame (messageType (fw_message f)) (EncodeResponse (Responses.Response w) (rb_Id body)) /\
    (forall s, auth = BasicProcessor s -> exists key0 key,
       getKey (keys i 0%nat) payload = inr key0 /\ permits_ips key0 ips /\
       getKey (keys i (1 + 2 * k)%nat) payload = inr key /\ permits key (upstream_request chain_reg reg j id body)).

Lemma taken_executes i m f0 :
  take_message i (MessageRead m) = Some f0 ->
  exists j, NewJsonRpcHandler chain (Some (message m)) true = Some j /\ fw_message f0 = m /\
    exists o, handleRequest chain_reg reg auth (keys i) (hasSupervisor i) (new_uuid i) (HandlerJsonRpc j) ips payload =
      (mkHandleResponse (fw_source f0) o, fw_handler f0).
Proof using Type.
  simpl. intros (j & Hj & Hf)%bind_Some. exists j. split; [done|].
  destruct (handleRequest chain_reg reg auth (keys i) (hasSupervisor i) (new_uuid i) (HandlerJsonRpc j) ips payload) as [[src o] h].
  injection Hf as <-. split; [done|]. by exists o.
Qed.

Lemma received_answers i f f0 c reqs w :
  fresh_uuids (new_uuid i) -> take_message i (MessageRead (fw_message f)) = Some f0 ->
  fw_handler f = fw_handler f0 -> fw_source f = fw_source f0 -> fw_source f = Execute c reqs ->
  (exists r, r ∈ map fst reqs /\ answered c r w) ->
  IsSupported chain_reg chain = true /\ c = cc_Chain (GetChain chain_reg chain) /\ hasSupervisor i c = true /\
  answers_message i f c w.
Proof using Type.
  intros Hfresh (j & Hj & Hm & o & Hh)%taken_executes Hfh Hfs Hsrc (r & Hr & Ha). rewrite <- Hfs, Hsrc, <- Hfh in Hh.
  destruct (NewJsonRpcHandler_ok _ _ _ _ Hj) as [Hok Hc].
  destruct (handleRequest_executes _ _ _ _ _ _ _ _ _ _ _ _ _ Hok Hh) as (request & Hd & Hreqs & _ & _ & Hpre & Hs & Hch & Hsup & Hpost).
  cbn [handler_chain] in *. rewrite Hc in *. split; [done|]. split; [done|]. split; [done|].
  apply list_elem_of_lookup in Hr as [k Hk]. pose proof Hd as Hd'. cbn [RequestDecode] in Hd'.
  destruct (decode_requests _ _ _ j 0 _ _) as [[err|rs] ids] eqn:E; [done|]. injection Hd' as Hreq _.
  destruct (decode_requests_spec _ _ _ _ _ _ _ _ _ E) as [Hf2 Hl].
  rewrite Hreqs, <- Hreq in Hk. cbn [UpstreamRequests] in Hk.
  destruct (Forall2_lookup_r _ _ _ _ _ Hf2 Hk) as (body & Hbody & _). destruct (Hl k body Hbody) as (id & Hid & Hk').
  assert (r = upstream_request chain_reg reg j id body) as -> by congruence.
  exists j, k, body, id. split_and!; [done..| |].
  - assert (UpstreamRequests request !! k = Some (upstream_request chain_reg reg j id body)) as Hr by (by rewrite <- Hreq).
    unfold frame_of. f_equal. by rewrite (decoded_encode _ _ _ _ _ _ _ _ _ w Hfresh Hd Hbody Hr (answered_id _ _ _ Ha)).
  - intros s ->. destruct (pre_permits (keys i) s ips payload Hpre) as (key0 & Hkey0 & Hp0).
    assert (exists v, reqs !! k = Some (upstream_request chain_reg reg j id body, v)) as [v Hv].
    { assert (map fst reqs !! k = Some (upstream_request chain_reg reg j id body)) as Hx by (by rewrite Hreqs, <- Hreq).
      apply list_lookup_fmap_Some in Hx as ([r v] & Hx & Hrv). exists v. by rewrite Hx. }
    destruct (post_permits (keys i (1 + 2 * k)%nat) s payload _ (Hpost _ _ _ Hv)) as (key & Hkey & Hp). by exists key0, key.
Qed.

(** The error a client is answered with, under an id of this process and an id of the
    client. *)
Definition error_frame (f : Forwarder) (err : GoError) (id realId : string) (w : ResponseHolderWrapper) : Prop :=
  Responses.Response w = NewTotalFailureFromErr id err JsonRpc /\
  frame_of f w = mkFrame (messageType (fw_message f)) (EncodeResponse (Responses.Response w) realId).

(** A message is refused before its requests are known: the key or the address is
    refused, an entry gets no id, or there is no entry and the chain is not served. *)
Definition refused_unknown (i : nat) (j : JsonRpcHandler) (err : GoError) : Prop :=
  match (PreKeyValidate auth (keys i 0%nat) ips payload).2 with
  | Some e => err = RespError (AuthError (OtherError e))
  | None =>
    (exists k, (k < length (jsonRpcRequests j))%nat /\ new_uuid i k = inl err) \/
    jsonRpcRequests j = [] /\ refused_with chain_reg auth (keys i) (hasSupervisor i) chain payload [] err
  end.

(** All requests of a message are refused: the chain is not served, or the key does not
    allow one of them. *)
Definition refused_known (i : nat) (j : JsonRpcHandler) (err : GoError) : Prop :=
  (PreKeyValidate auth (keys i 0%nat) ips payload).2 = None /\
  exists reqs, length reqs = length (jsonRpcRequests j) /\
    (forall k body, jsonRpcRequests j !! k = Some body ->
       exists id, new_uuid i k = inr id /\ reqs !! k = Some (upstream_request chain_reg reg j id body)) /\
    refused_with chain_reg auth (keys i) (hasSupervisor i) chain payload reqs err.

(** What a client may count on for the errors that refuse its [i]-th message: there is one,
    under the id 0, or there is one for each request, in order and under the client's own
    ids. *)
Definition message_refused (i : nat) (f : Forwarder) : Prop :=
  exists j err, NewJsonRpcHandler chain (Some (message (fw_message f))) true = Some j /\
    (refused_unknown i j err /\ (length (received f) <= 1)%nat /\
       (forall w, w ∈ received f -> error_frame f err "0" "0" w) \/
     refused_known i j err /\ (length (received f) <= length (jsonRpcRequests j))%nat /\
       (forall k w, received f !! k = Some w ->
          exists body id, jsonRpcRequests j !! k = Some body /\ new_uuid i k = inr id /\ error_frame f err id (rb_Id body) w)).

Lemma one_error f err w :
  received f `prefix_of` [w] -> (exists j, fw_handler f = HandlerJsonRpc j /\ idMap j !! "0" = None) ->
  Responses.Response w = NewTotalFailureFromErr "0" err JsonRpc ->
  (length (received f) <= 1)%nat /\ forall w, w ∈ received f -> error_frame f err "0" "0" w.
Proof using Type.
  intros Hp (j & Hj & Hz) Hw. split; [by apply prefix_length in Hp|]. intros w' Hw'. destruct Hp as [rest Hp].
  assert (w' ∈ [w]) as ->%list_elem_of_singleton by (rewrite Hp; set_solver). split; [done|].
  unfold frame_of. f_equal. rewrite Hj, Hw. cbn [ResponseEncode]. by rewrite total_failure_id, Hz.
Qed.

Lemma decode_known i j res h :
  (forall k, new_uuid i k <> inr "0") -> idMap j = ∅ ->
  RequestDecode chain_reg reg (new_uuid i) (HandlerJsonRpc j) = (res, h) ->
  (exists j', h = HandlerJsonRpc j' /\ idMap j' !! "0" = None) /\
  match res with
  | inl err => exists k, (k < length (jsonRpcRequests j))%nat /\ new_uuid i k = inl err
  | inr request => rq_Chain request = jh_Chain j /\ length (UpstreamRequests request) = length (jsonRpcRequests j) /\
      forall k body, jsonRpcRequests j !! k = Some body ->
        exists id, new_uuid i k = inr id /\ UpstreamRequests request !! k = Some (upstream_request chain_reg reg j id body)
  end.
Proof using Type.
  intros Hzero Hmap. cbn [RequestDecode].
  pose proof (decode_requests_known chain_reg reg (new_uuid i) j 0 (jsonRpcRequests j) (idMap j) "0" Hzero) as Hk.
  destruct (decode_requests _ _ _ j 0 _ _) as [reqs ids] eqn:E. intros [= <- <-]. split.
  { eexists. split; [done|]. simpl in *. by rewrite Hk, Hmap. }
  destruct reqs as [err|reqs].
  - apply (decode_requests_error chain_reg reg (new_uuid i) j 0 (jsonRpcRequests j) (idMap j)). by rewrite E.
  - destruct (decode_requests_spec _ _ _ _ _ _ _ _ _ E) as [Hf2 Hl]. split_and!; [done|by apply Forall2_length in Hf2|done].
Qed.

Lemma refused_errors i f f0 ws :
  fresh_uuids (new_uuid i) -> (forall k, new_uuid i k <> inr "0") ->
  take_message i (MessageRead (fw_message f)) = Some f0 ->
  fw_handler f = fw_handler f0 -> fw_source f = fw_source f0 -> fw_source f = Refused ws ->
  received f `prefix_of` ws -> message_refused i f.
Proof using Type.
  intros Hfresh Hzero (j & Hj & Hm & o & Hh)%taken_executes Hfh Hfs Hsrc Hrec. rewrite <- Hfs, Hsrc, <- Hfh in Hh.
  destruct (NewJsonRpcHandler_ok _ _ _ _ Hj) as [Hok Hc]. pose proof (NewJsonRpcHandler_idMap _ _ _ _ Hj) as Hmap.
  destruct (handleRequest_refuses _ _ _ _ _ _ _ _ _ _ _ _ Hh) as [(err & -> & Hwhy)|(request & err & Hpre & Hd & -> & Href)].
  - exists j, err. split; [done|]. left.
    assert (refused_unknown i j err /\ exists j', fw_handler f = HandlerJsonRpc j' /\ idMap j' !! "0" = None) as [Hwhy' (j' & Hj' & Hz)].
    { unfold refused_unknown. destruct Hwhy as [(e & -> & -> & Hh')|[-> Hd]].
      - split; [done|]. exists j. by rewrite Hmap.
      - destruct (decode_known _ _ _ _ Hzero Hmap Hd) as [Hz Hk]. split; [by left|done]. }
    split; [done|]. rewrite Hj' in Hrec. eapply one_error; [exact Hrec|by exists j'|done].
  - exists j, err. split; [done|]. destruct (decode_known _ _ _ _ Hzero Hmap Hd) as [(j' & Hj' & Hz) (Hch & Hlen & Hk)].
    rewrite Hch, Hc in Href. rewrite Hj' in Hrec. destruct request as [ch reqs]. cbn [UpstreamRequests rq_Chain] in *.
    destruct (decide (reqs = [])) as [->|Hne].
    + left. split.
      { unfold refused_unknown. rewrite Hpre. right. split; [|done]. by destruct (jsonRpcRequests j). }
      eapply one_error; [exact Hrec|by exists j'|done].
    + right. split; [split; [done|by exists reqs]|].
      assert (received f `prefix_of` map (fun r => empty_wrapper NoUpstream (request_Id r) (NewTotalFailureFromErr (request_Id r) err JsonRpc)) reqs)
        as Hrec' by (by destruct reqs).
      split; [apply prefix_length in Hrec'; rewrite length_map in Hrec'; lia|].
      intros k w Hw. pose proof (prefix_lookup_Some _ _ _ _ Hw Hrec') as Hw'.
      apply list_lookup_fmap_Some in Hw' as (r & -> & Hr).
      destruct (lookup_lt_is_Some_2 (jsonRpcRequests j) k) as [body Hb]; [rewrite <- Hlen; by eapply lookup_lt_Some|].
      destruct (Hk k body Hb) as (id & Hid & Hr'). assert (r = upstream_request chain_reg reg j id body) as -> by congruence.
      exists body, id. split_and!; [done..|]. rewrite (proj1 (getMethod_upstream _ _ _ _ _)). split; [done|].
      unfold frame_of. f_equal.
      rewrite (decoded_encode _ _ _ _ _ _ k body _ _ Hfresh Hd Hb Hr'); [done|].
      cbn [empty_wrapper Responses.Response]. rewrite total_failure_id. symmetry. apply getMethod_upstream.
Qed.

(** *** The end of a connection *)

Definition ended (f : Forwarder) : bool := match fw_pc f with Ended => true | _ => false end.
Definition running (l : list Forwarder) : nat := length (base.filter (fun f => ended f = false) l).

Lemma running_ended l i f : l !! i = Some f -> ended f = false -> S (running (<[i := set_pc Ended f]> l)) = running l.
Proof using Type.
  unfold running. revert i. induction l as [|g l IH]; intros [|i] Hi He; [done..| |]; simpl in Hi.
  - injection Hi as ->. simpl. rewrite filter_cons_False by done. by rewrite filter_cons_True.
  - simpl. specialize (IH i Hi He). destruct (ended g) eqn:Eg.
    + by rewrite !filter_cons_False by congruence.
    + rewrite !filter_cons_True by done. simpl. by rewrite IH.
Qed.

Lemma all_ended l : running l = 0%nat -> Forall (fun f => ended f = true) l.
Proof using Type.
  intros H. apply Forall_forall. intros f Hf. destruct (ended f) eqn:E; [done|].
  assert (f ∈ base.filter (fun f => ended f = false) l) as Hin by (by apply list_elem_of_filter).
  unfold running in H. destruct (base.filter _ l); [by apply elem_of_nil in Hin|done].
Qed.

(** Once the context has ended, every goroutine can end. *)
Lemma goroutines_end s :
  ctxDone s = true ->
  exists s', rtc step s s' /\ reading s' = false /\ Forall (fun f => ended f = true) (forwarders s').
Proof using Type.
  remember (running (forwarders s)) as n eqn:Hn. revert s Hn. induction n as [|n IH]; intros s Hn Hd.
  - destruct (reading s) eqn:Er.
    + exists (set_reading false s). split; [by apply rtc_once, step_read_done|]. split; [done|]. by apply all_ended.
    + exists s. split; [done|]. split; [done|]. by apply all_ended.
  - assert (exists i f, forwarders s !! i = Some f /\ ended f = false) as (i & f & Hi & He).
    { unfold running in Hn. destruct (base.filter _ (forwarders s)) as [|f l] eqn:E; [done|].
      assert (f ∈ base.filter (fun f => ended f = false) (forwarders s)) as Hin by (rewrite E; by left).
      apply list_elem_of_filter in Hin as [He Hin]. apply list_elem_of_lookup in Hin as [i Hi]. by exists i, f. }
    pose proof (running_ended _ _ _ Hi He) as Hr.
    assert (step s (set_forwarders (<[i := set_pc Ended f]> (forwarders s)) s)) as Hs.
    { unfold ended in He. destruct (fw_pc f) eqn:Ep; [|by eapply step_signal_done|done].
      eapply step_drained; [done|done|by right]. }
    destruct (IH (set_forwarders (<[i := set_pc Ended f]> (forwarders s)) s)) as (s' & Hs' & Hend).
    + simpl. lia.
    + done.
    + exists s'. split; [by eapply rtc_l|done].
Qed.
End Invariant.

(** C39. What a client of a websocket is served, however its messages, the responses and
    the goroutines interleave: its messages are taken in the order it sent them; when a
    message is executed, every response that came for it answers a request of that message
    which its caller was allowed to make, on a chain that is served, under the client's own
    id; a message that is refused is answered with errors: one under the id 0 when the key
    or the address is refused, no ids can be made or it holds no request, else the same
    error for each of its requests, in order and under the client's own ids, because the
    chain is not served or the key does not allow one of the requests; as long as the
    connection is open the frames of the message are exactly what came for it, in order and
    with the type of the message, but for the failure that ends the connection; the loop is
    only left when the context of the server ends, the connection cannot be read, a message
    cannot be decoded, or a subscription failed; and once it is left all goroutines of the
    connection can end. *)
Theorem ws_client_served `{MapRange} `{HttpJson} `{TranslationJson} `{Json} `{MethodParsers} `{ParamJson} `{JwtLib} `{Netip}
    `{Execution} chain_reg reg auth chain ips payload keys hasSupervisor new_uuid s :
  (forall i, fresh_uuids (new_uuid i)) -> (forall i k, new_uuid i k <> inr "0") ->
  rtc (ws_step chain_reg reg auth chain ips payload keys hasSupervisor new_uuid) new_conn s ->
  events s = map MessageRead (map fw_message (forwarders s)) ++ stopped_by (handler s) ++ messageChan s /\
  (forall i f, forwarders s !! i = Some f ->
     frames_of i (frames s) `prefix_of` map (frame_of f) (forwarded f) /\
     (conn_open s = true -> frames_of i (frames s) = map (frame_of f) (forwarded f)) /\
     match fw_source f with
     | Execute c reqs =>
       forall w, w ∈ received f ->
         IsSupported chain_reg chain = true /\ c = cc_Chain (GetChain chain_reg chain) /\ hasSupervisor i c = true /\
         answers_message chain_reg reg auth chain ips payload keys new_uuid i f c w
     | Refused _ => message_refused chain_reg reg auth chain ips payload keys hasSupervisor new_uuid i f
     end) /\
  (forall why, loop_end (handler s) = Some why ->
     match why with
     | ContextDone => True
     | FailureSignal => exists i f w, forwarders s !! i = Some f /\ w ∈ received f /\ is_ws_failure w = true
     | StoppedBy ReadError => True
     | StoppedBy (MessageRead m) => NewJsonRpcHandler chain (Some (message m)) true = None
     end) /\
  (match handler s with Cancelled _ | ConnClosed _ => True | _ => False end ->
   exists s', rtc (ws_step chain_reg reg auth chain ips payload keys hasSupervisor new_uuid) s s' /\
     reading s' = false /\ Forall (fun f => ended f = true) (forwarders s')).
Proof.
  intros Hfresh Hzero Hs. pose proof (reachable_ok _ _ _ _ _ _ _ _ _ _ Hs) as [Heach Hno Hord Hsig Hstop Hcan]. split_and!.
  - done.
  - intros i f Hi. destruct (Heach i f Hi) as [(f0 & Ht & Hh & Hsrc) Hch Hpre Hall _]. split; [done|]. split; [done|].
    unfold received_ok in Hch. destruct (fw_source f) as [ws|c reqs] eqn:Hf.
    + eapply refused_errors; [apply Hfresh|apply Hzero|exact Ht|exact Hh|congruence|exact Hf|exact Hch].
    + intros w Hw. eapply received_answers; [done|exact Ht|done|congruence|exact Hf|]. by apply Hch.
  - intros why Hwhy. destruct why as [| |[m|]]; [done|by apply Hsig; right| |done].
    by eapply take_message_refused, Hstop.
  - intros Hc. apply goroutines_end. by destruct (handler s).
Qed.

(** ** A connection with a batch *)

#[local] Existing Instance ClientIp.demo_netip.
#[local] Existing Instance Responses.demo_json.
#[local] Existing Instance HttpServer.sample_parsers.
#[local] Existing Instance HttpServer.sample_http_json.
#[local] Existing Instance HttpServer.sample_translation.
#[local] Existing Instance HttpServer.sample_params.
#[local] Existing Instance HttpServer.sample_jwt.
#[local] Existing Instance HttpServer.sample_execution.

Definition sample_message : ClientMessage := mkClientMessage 1 "[1]".

#[local] Existing Instance Prelude.default_range.

Definition ws_uuid (k : nat) : GoError + string := inr ("id-" +:+ pretty (N.of_nat k)).

Definition sample_taken : option Forwarder :=
  take_message sample_registry ∅ NoopProcessor "ethereum" ∅ sample_request (fun _ => sample_keys) (fun _ _ => true)
    (fun _ => ws_uuid) 0 (MessageRead sample_message).

Definition sample_forwarder : Forwarder := default (mkForwarder sample_message (HandlerJsonRpc sample_handler) (Refused []) [] Ended) sample_taken.

Definition sample_reply : ResponseHolderWrapper :=
  match fw_source sample_forwarder with Execute _ ((r, _) :: _) => sample_answer r | _ => empty_wrapper EmptyString EmptyString (NewSimpleHttpUpstreamResponse EmptyString EmptyString JsonRpc) end.

(** The first answer of the two is written. *)
Definition sample_conn : WsConn :=
  receive 0 sample_forwarder sample_reply
    (mkWsConn [MessageRead sample_message] [] true Looping false false false [sample_forwarder] []).

Example sample_takes : option_map (fun f => match fw_source f with Execute _ reqs => length reqs | _ => 0%nat end) sample_taken = Some 2%nat.
Proof. vm_compute. reflexivity. Qed.

Example sample_frames : map (fun p => (p.1, frame_type p.2)) (frames sample_conn) = [(0%nat, 1)].
Proof. vm_compute. reflexivity. Qed.

Lemma sample_reachable :
  rtc (ws_step sample_registry ∅ NoopProcessor "ethereum" ∅ sample_request (fun _ => sample_keys) (fun _ _ => true) (fun _ => ws_uuid))
    new_conn sample_conn.
Proof.
  assert (sample_taken = Some sample_forwarder) as Ht.
  { unfold sample_forwarder. pose proof sample_takes as E. by destruct sample_taken. }
  eapply rtc_l; [apply (step_read _ _ _ _ _ _ _ _ _ new_conn (MessageRead sample_message)); [done|simpl; unfold messageChanSize; lia]|].
  eapply rtc_l; [by eapply step_loop_take|]. apply rtc_once.
  apply (step_receive _ _ _ _ _ _ _ _ _ (mkWsConn [MessageRead sample_message] [] true Looping false false false [sample_forwarder] [])); [done|by vm_compute|].
  unfold yields, sample_reply. pose proof sample_takes as E. rewrite Ht in E. cbn [option_map] in E.
  destruct (fw_source sample_forwarder) as [|c [|[r v] reqs]]; [done..|]. exists r. split; [by left|done].
Qed.

Lemma ws_client_served_witness :
  map (fun p => (p.1, frame_type p.2)) (frames sample_conn) = [(0%nat, 1)] /\
  events sample_conn = [MessageRead sample_message] /\
  forall f, forwarders sample_conn !! 0%nat = Some f -> frames_of 0 (frames sample_conn) = map (frame_of f) (forwarded f).
Proof.
  split; [exact sample_frames|].
  destruct (ws_client_served sample_registry ∅ NoopProcessor "ethereum" ∅ sample_request (fun _ => sample_keys) (fun _ _ => true)
    (fun _ => ws_uuid) sample_conn) as (He & Hf & _).
  - intros _ i k id [= <-] [= Hk]. do 2 apply (inj _) in Hk. lia.
  - intros _ k [=].
  - exact sample_reachable.
  - split; [reflexivity|]. intros f Hi. destruct (Hf 0%nat f Hi) as (_ & Ha & _). apply Ha. reflexivity.
Defined.
