(* ===== verification/NativeCall.v ===== *)
(** Calls over gRPC ([NativeCall] of [internal/server/emerald/grpc_blockchain.go] and
    [native_call_adapter.go]): from the items of a call to the requests that are
    executed, and from their responses, buffered or streamed, to the replies.

    What [Send] of the gRPC stream answers, how the body of a streamed response is
    read, and the hint the connector left in it are arguments. *)

From S2P Require Import Prelude.
From S2P Require Import GoStrings.
From S2P Require Import JsonStream.
From S2P Require Import Protocol.
From S2P Require Import Errors.
From S2P Require Import Responses.
From S2P Require Import Specs.
From S2P Require Import Matchers.
From S2P Require Import GrpcSelectors.
From S2P Require Import AutoTune.
From S2P Require Import Chains.
From S2P Require Import GrpcAuth.
From S2P Require Import Quorum.
From S2P Require Import ReplySigning.
From S2P Require Import Requests.
From S2P Require Import Send.
From S2P Require Import HttpServer.
From Stdlib Require Import Ascii.

(** ** The messages *)

(** [RestData] *)
Record NativeRestData := mkRestData {
  rd_Payload : string;
  rd_PathParams : list string;
  rd_Headers : list (string * string);
  rd_QueryParams : list (string * string);
}.

Inductive ItemData := ItemPayload (payload : string) | ItemRest (data : NativeRestData).

Record NativeCallItem := mkCallItem {
  nc_Id : Z;
  nc_Method : string;
  nc_Nonce : Z;
  nc_Selectors : list (option Selector);
  nc_Data : option ItemData;
}.

Definition GetPayload (item : NativeCallItem) : string :=
  match nc_Data item with Some (ItemPayload payload) => payload | _ => "" end.
Definition GetRestData (item : NativeCallItem) : option NativeRestData :=
  match nc_Data item with Some (ItemRest data) => Some data | _ => None end.

Record NativeCallRequest := mkCallRequest {
  cr_Chain : Z;
  cr_Items : list NativeCallItem;
  cr_Selector : option Selector;
  cr_ChunkSize : Z;
}.

Inductive FinalizationType := FINALIZATION_SAFE_BLOCK | FINALIZATION_FINALIZED_BLOCK.
Record FinalizationData := mkFinalization { fd_Height : Z; fd_Type : FinalizationType }.

(** [NativeCallReplyItem], without the deprecated [ErrorCode], which is never set. *)
Record ReplyItem := mkReplyItem {
  ri_Id : Z;
  ri_Succeed : bool;
  ri_Payload : string;
  ri_ErrorMessage : string;
  ri_Signature : option ReplySignature;
  ri_UpstreamId : string;
  ri_ErrorData : string;
  ri_Chunked : bool;
  ri_FinalChunk : bool;
  ri_ItemErrorCode : Z;
  ri_UpstreamNodeVersion : string;
  ri_Finalization : option FinalizationData;
  ri_ResponseHeaders : list (string * string);
  ri_ErrorAsIs : string;
}.

(** [json.Valid], the JSON text of a string and of a list of JSON texts ([sonic]). *)
Class GrpcJson := {
  json_Valid : string -> bool;
  marshal_text : string -> string;
  marshal_raws : list string -> GoError + string;
}.

Definition rpc_error (text : string) : ResponseError := ClientError (OtherError text).

Section Messages.
Context `{MR : MapRange} `{JS : Json}.

Definition mapHeaders (headers : gmap string (list string)) : list (string * string) :=
  flat_map (fun kv => map (fun value => (kv.1, value)) kv.2) (range headers).

(** [data] is the JSON text of the value; a string is put on the wire unquoted. *)
Definition nativeCallErrorData (data : string) : string :=
  if in_quotes data then default data (unmarshal_string data) else data.

Definition nativeCallErrorItem (requestID : Z) (responseError : option ResponseError) (upstreamID errorAsIs : string)
    (headers : gmap string (list string)) : ReplyItem :=
  let e := default ServerError responseError in
  mkReplyItem requestID false "" (Message e) None upstreamID
    (match err_Data e with Some data => nativeCallErrorData data | None => "" end)
    false false (i32 (Errors.Code e)) "" None (mapHeaders headers) errorAsIs.

Definition nativeCallSuccessItem (requestID : Z) (upstreamID payload : string) (headers : gmap string (list string))
    : ReplyItem :=
  mkReplyItem requestID true payload "" None upstreamID "" false false 0 "" None (mapHeaders headers) "".

(** The members [sendReply] sets on the item it is about to send. *)
Definition with_origin (version : string) (finalization : option FinalizationData) (sig : option ReplySignature)
    (r : ReplyItem) : ReplyItem :=
  mkReplyItem (ri_Id r) (ri_Succeed r) (ri_Payload r) (ri_ErrorMessage r) sig (ri_UpstreamId r) (ri_ErrorData r)
    (ri_Chunked r) (ri_FinalChunk r) (ri_ItemErrorCode r) version finalization (ri_ResponseHeaders r) (ri_ErrorAsIs r).

Definition parseCallItemID (requestID : string) : Z :=
  match ParseUint requestID with Some id => if id <? 2 ^ 32 then id else 0 | None => 0 end.

Definition nativeCallFinalizationData (w : ResponseHolderWrapper) : option FinalizationData :=
  match FinalizationBlockType w with
  | None => None
  | Some t => Some (mkFinalization (Height (FinalizationBlock w))
      (if bool_decide (t = FinalizedBlock) then FINALIZATION_FINALIZED_BLOCK else FINALIZATION_SAFE_BLOCK))
  end.

Definition keyValueListToMap (items : list (string * string)) : gmap string (list string) :=
  foldl (fun out kv => <[kv.1 := default [] (out !! kv.1) ++ [kv.2]]> out) ∅ items.
End Messages.

(** ** Requests *)

Inductive Adapter := jsonRpcNativeCallAdapter | restNativeCallAdapter.

Definition adapterFor (item : NativeCallItem) : Adapter :=
  match GetRestData item with Some _ => restNativeCallAdapter | None => jsonRpcNativeCallAdapter end.

Record nativeCallItem := mkNativeItem { adapter : Adapter; nonce : Z }.

Abbreviation call_items := (gmap string nativeCallItem).

Definition validateRestMethodTemplate `{Quoting} (method : string) : option string :=
  let '(verb, path) := cut_at "#" method in
  if negb (contains_char "#" method) || bool_decide (verb = "") || bool_decide (path = "")
  then Some ("rest method must be in form VERB#path, got " +:+ Quote method) else None.

Section Requests.
Context `{MR : MapRange} `{JS : Json} `{QU : Quoting} `{SG : Signing} `{GJ : GrpcJson}.
Context (reg : Registry) (tag_name bound_name : Z -> string).

Definition NewStreamUpstreamRestRequest (id methodTemplate : string) (params : option RequestParams)
    (body specName : string) (selectors : list RequestSelector) : RequestHolder :=
  match NewUpstreamRestRequest reg id methodTemplate params body specName selectors with
  | RestRequest u => RestRequest (mkRestRequest (ur_id u) (ur_method u) (ur_key u) (ur_body u) (ur_params u) (ur_spec u)
      (ur_selectors u) true)
  | r => r
  end.

(** A refusal before anything is sent to an upstream. *)
Definition refused (item : NativeCallItem) (e : ResponseError) : ReplyItem :=
  nativeCallErrorItem (nc_Id item) (Some e) NoUpstream "" ∅.

Definition BuildRequest_jsonRpc (chain : ConfiguredChain) (item : NativeCallItem) (requestSelector : option Selector)
    (chunkSize : Z) : ReplyItem + RequestHolder :=
  let payload := if bool_decide (GetPayload item = "") then "[]" else GetPayload item in
  if negb (json_Valid payload) then inl (refused item (rpc_error "payload is not a valid JSON value"))
  else
    let requestID := FormatUint (nc_Id item) in
    match mapNativeCallSelectors tag_name bound_name requestSelector (nc_Selectors item) with
    | inl err => inl (refused item (rpc_error err))
    | inr selectors =>
      if 0 <? chunkSize
      then inr (NewStreamUpstreamJsonRpcRequest reg requestID requestID (nc_Method item) payload (cc_MethodSpec chain) selectors)
      else inr (NewUpstreamJsonRpcRequest reg requestID requestID (nc_Method item) payload false (cc_MethodSpec chain) selectors)
    end.

Definition BuildRequest_rest (chain : ConfiguredChain) (item : NativeCallItem) (requestSelector : option Selector)
    (chunkSize : Z) : ReplyItem + RequestHolder :=
  match GetRestData item with
  | None => inl (refused item (rpc_error "rest_data is missing"))
  | Some restData =>
    match validateRestMethodTemplate (nc_Method item) with
    | Some err => inl (refused item (rpc_error err))
    | None =>
      let requestParams := mkRequestParams (keyValueListToMap (rd_Headers restData))
        (keyValueListToMap (rd_QueryParams restData)) (rd_PathParams restData) in
      let requestID := FormatUint (nc_Id item) in
      match mapNativeCallSelectors tag_name bound_name requestSelector (nc_Selectors item) with
      | inl err => inl (refused item (rpc_error err))
      | inr selectors =>
        if 0 <? chunkSize
        then inr (NewStreamUpstreamRestRequest requestID (nc_Method item) (Some requestParams) (rd_Payload restData)
               (cc_MethodSpec chain) selectors)
        else inr (NewUpstreamRestRequest reg requestID (nc_Method item) (Some requestParams) (rd_Payload restData)
               (cc_MethodSpec chain) selectors)
      end
    end
  end.

Definition BuildRequest (a : Adapter) : ConfiguredChain -> NativeCallItem -> option Selector -> Z -> ReplyItem + RequestHolder :=
  match a with jsonRpcNativeCallAdapter => BuildRequest_jsonRpc | restNativeCallAdapter => BuildRequest_rest end.

(** One item: what it is answered with at once, or its request. *)
Definition build_item (signer : ResponseSigner) (chain : ConfiguredChain) (request : NativeCallRequest)
    (item : NativeCallItem) : ReplyItem + RequestHolder :=
  match signingUnavailable (nc_Nonce item) signer with
  | Some err => inl (refused item (ServerErrorWithCause (OtherError (SignError_text err))))
  | None => BuildRequest (adapterFor item) chain item (cr_Selector request) (cr_ChunkSize request)
  end.

(** [buildNativeCallRequests] on the items that are left. *)
Fixpoint build_items (signer : ResponseSigner) (chain : ConfiguredChain) (request : NativeCallRequest)
    (l : list NativeCallItem) (items : call_items) : list RequestHolder * call_items * list ReplyItem :=
  match l with
  | [] => ([], items, [])
  | item :: l =>
    match build_item signer chain request item with
    | inl failure =>
      let '(requests, items, pre) := build_items signer chain request l items in (requests, items, failure :: pre)
    | inr r =>
      let '(requests, items, pre) := build_items signer chain request l
        (<[request_Id r := mkNativeItem (adapterFor item) (nc_Nonce item)]> items) in
      (r :: requests, items, pre)
    end
  end.

Definition buildNativeCallRequests (signer : ResponseSigner) (chain : ConfiguredChain) (request : NativeCallRequest)
    : list RequestHolder * call_items * list ReplyItem :=
  build_items signer chain request (cr_Items request) ∅.
End Requests.

(** ** The stream to the client *)

(** What was sent, and how often [Send] was called. *)
Record CallStream := mkStream { sent : list ReplyItem; attempts : nat }.

(** How the body of a streamed response is read: the first [MaxChunkSize] bytes (all of
    it when it is shorter), the chunks the rest comes in, and the error reading ends
    with, [None] at the end of the body. *)
Record Body := mkBody { b_prefix : bytes; b_rest : list bytes; b_err : option string }.

Definition parse_failure (err : GoError) : GoError :=
  WrappedError ("unable to parse stream response: " +:+ error_text err) err.

Section Stream.
Context `{MR : MapRange} `{JS : Json} `{SG : Signing}.
Context (send_error : nat -> option GoError).

Definition Send (item : ReplyItem) (st : CallStream) : option GoError * CallStream :=
  match send_error (attempts st) with
  | Some err => (Some err, mkStream (sent st) (S (attempts st)))
  | None => (None, mkStream (sent st ++ [item]) (S (attempts st)))
  end.

Fixpoint send_all (l : list ReplyItem) (st : CallStream) : option GoError * CallStream :=
  match l with
  | [] => (None, st)
  | item :: l => match Send item st with (Some err, st) => (Some err, st) | (None, st) => send_all l st end
  end.

(** The callback of the emitter: response-level metadata travels on the first chunk
    only. *)
Definition chunk_item (id : Z) (upstreamID version : string) (finalization : option FinalizationData)
    (headers : list (string * string)) (c : ReplyChunk) : ReplyItem :=
  mkReplyItem id true (String.string_of_list_ascii (chunk c)) "" None (if first c then upstreamID else "") ""
    true (final c) 0 (if first c then version else "") (if first c then finalization else None)
    (if first c then headers else []) "".

Section Body.
Context (emit : ReplyChunk -> ReplyItem).

Abbreviation Sink := (Emitter * CallStream)%type.

Fixpoint write_list (l : list Write) (k : Sink) : option GoError * Sink :=
  match l with
  | [] => (None, k)
  | (p, fin) :: l =>
    let '(cs, e) := WriteChunk p fin k.1 in
    match send_all (map emit cs) k.2 with
    | (Some err, st) => (Some err, (e, st))
    | (None, st) => write_list l (e, st)
    end
  end.

(** [streamJsonRPCResult], with errors of the reader and of the sink. *)
Definition stream_result (b : Body) (start : Z) (c : ResultCounter) (k : Sink) : option GoError * Sink :=
  let exhausted := Z.of_nat (length (b_prefix b)) <? MaxChunkSize in
  match (if exhausted then b_err b else None) with
  | Some err => (Some (parse_failure (OtherError err)), k)
  | None =>
    if (start <? 0) || (Z.of_nat (length (b_prefix b)) <? start)
    then (Some (OtherError "unable to parse stream response: result field is missing"), k)
    else
      let '(ws, done, c) := emitFromBuffer (drop (Z.to_nat start) (b_prefix b)) c in
      match write_list ws k with
      | (Some err, k) => (Some err, k)
      | (None, k) =>
        if done then (None, k)
        else if exhausted then (Some (OtherError "unable to parse stream response: result value truncated"), k)
        else
          let '(ws, completed) := emit_chunks (b_rest b) c in
          match write_list ws k with
          | (Some err, k) => (Some (parse_failure err), k)
          | (None, k) =>
            if completed then (None, k)
            else match b_err b with
                 | Some err => (Some (parse_failure (OtherError err)), k)
                 | None => (Some (OtherError "unable to parse stream response: result value truncated"), k)
                 end
          end
      end
  end.

(** [streamReadAhead] into the emitter, for a body that is passed on as it is. *)
Definition pass_through (b : Body) (k : Sink) : option GoError * Sink :=
  match write_list (map (fun p => (p, false)) (b_prefix b :: b_rest b)) k with
  | (Some err, k) => (Some err, k)
  | (None, k) => (match b_err b with Some err => Some (OtherError err) | None => None end, k)
  end.

Inductive streamMode := unwrapJsonRpcResultStream | passThroughStream.

Definition stream_body (mode : streamMode) (b : Body) (start : Z) (c : ResultCounter) (st : CallStream)
    : option GoError * CallStream :=
  let k := (mkEmitter false false, st) in
  let '(err, (e, st)) :=
    match mode with unwrapJsonRpcResultStream => stream_result b start c k | passThroughStream => pass_through b k end in
  match err with
  | Some err => (Some err, st)
  | None => send_all (map emit (Finish e).1) st
  end.
End Body.

(** [hint] is [GetStreamHint]; [body] how the reader of [EncodeResponse] delivers. *)
Context (hint : ResponseHolder -> option (Z * ResultCounter)) (body : ResponseHolder -> Body).

Definition sendReply (w : option ResponseHolderWrapper) (nonce : Z) (signer : ResponseSigner) (mode : streamMode)
    (st : CallStream) : option GoError * CallStream :=
  match w with
  | None => (Some (OtherError "response wrapper is empty"), st)
  | Some w =>
    let response := Responses.Response w in
    let headers := default ∅ (ResponseHeaders response) in
    let '(resultStart, resultCounter) := default (-1, mkResultCounter counterNone 0 false false) (hint response) in
    let requestID := parseCallItemID (RequestId w) in
    let finalizationData := nativeCallFinalizationData w in
    let origin := with_origin (UpstreamNodeVersion w) finalizationData in
    if HasError response then
      Send (origin None (nativeCallErrorItem requestID (GetError response) (UpstreamId w) (ResponseResult response) headers)) st
    else if HasStream response then
      match stream_body (chunk_item requestID (UpstreamId w) (UpstreamNodeVersion w) finalizationData (mapHeaders headers))
              mode (body response) resultStart resultCounter st with
      | (Some err, st) =>
        Send (origin None (nativeCallErrorItem requestID (Some (ServerErrorWithCause err)) (UpstreamId w) "" headers)) st
      | (None, st) => (None, st)
      end
    else
      let payload := ResponseResult response in
      match buildReplySignature signer nonce payload (UpstreamId w) with
      | inl err =>
        let responseError := match err with
          | ErrSigningNotConfigured => ServerErrorWithCause (OtherError (SignError_text err))
          | SignFailed _ => ServerError
          end in
        Send (origin None (nativeCallErrorItem requestID (Some responseError) (UpstreamId w) "" headers)) st
      | inr replySignature =>
        Send (origin replySignature (nativeCallSuccessItem requestID (UpstreamId w) payload headers)) st
      end
  end.

Definition SendReply (a : Adapter) (w : option ResponseHolderWrapper) (nonce : Z) (signer : ResponseSigner)
    : CallStream -> option GoError * CallStream :=
  sendReply w nonce signer
    (match a with jsonRpcNativeCallAdapter => unwrapJsonRpcResultStream | restNativeCallAdapter => passThroughStream end).

(** ** A call *)

Inductive CallEnd := CallOk | CallStatus (s : GrpcStatus) | CallSend (err : GoError).

Definition send_end (r : option GoError * CallStream) : CallEnd * CallStream :=
  (match r.1 with Some err => CallSend err | None => CallOk end, r.2).

(** The responses of the flow, as they arrive. *)
Fixpoint reply_all (signer : ResponseSigner) (items : call_items) (arrived : list ResponseHolderWrapper)
    (st : CallStream) : CallEnd * CallStream :=
  match arrived with
  | [] => (CallOk, st)
  | w :: arrived =>
    match
      match items !! RequestId w with
      | None => Send (nativeCallErrorItem (parseCallItemID (RequestId w)) (Some ServerError) (UpstreamId w) "" ∅) st
      | Some item => SendReply (adapter item) (Some w) (nonce item) signer st
      end
    with
    | (Some err, st) => (CallSend err, st)
    | (None, st) => reply_all signer items arrived st
    end
  end.
End Stream.

Section Call.
Context `{MR : MapRange} `{JS : Json} `{QU : Quoting} `{SG : Signing} `{GJ : GrpcJson}.
Context (chain_reg : ChainRegistry) (reg : Registry) (tag_name bound_name : Z -> string) (send_error : nat -> option GoError)
  (hint : ResponseHolder -> option (Z * ResultCounter)) (body : ResponseHolder -> Body).

(** [supervisor]: the chains that have a supervisor, [None] without an upstream
    supervisor. *)
Definition resolveChain (supervisor : option (gset Z)) (chainRef : Z) : option (ConfiguredChain * bool) :=
  let configuredChain := GetChainByGrpcId chain_reg chainRef in
  if cc_Chain configuredChain <? 0 then None
  else Some (configuredChain, match supervisor with None => false | Some s => bool_decide (cc_Chain configuredChain ∈ s) end).

(** The call up to the execution of its requests. *)
Inductive CallStart :=
| CallDone (end_ : CallEnd)
| CallRunning (chain : Z) (requests : list RequestHolder) (items : call_items).

Definition call_refusal (e : ResponseError) : ReplyItem := nativeCallErrorItem 0 (Some e) NoUpstream "" ∅.

Definition NativeCall_start (auth : option grpcSessionAuth) (now : Z) (md : option (list string)) (signer : ResponseSigner)
    (supervisor : option (gset Z)) (request : option NativeCallRequest) (store : grpcSessionStore)
    : CallStart * grpcSessionStore * CallStream :=
  let st := mkStream [] 0 in
  let '(denied, store) := requireSession auth now md store in
  let finish r := let '(end_, st) := send_end r in (CallDone end_, store, st) in
  match denied with
  | Some status => (CallDone (CallStatus status), store, st)
  | None =>
    match request with
    | None => finish (Send send_error (call_refusal (rpc_error "request is nil")) st)
    | Some request =>
      if negb (bool_decide (is_Some supervisor)) then finish (Send send_error (call_refusal NoAvailableUpstreamsError) st)
      else match resolveChain supervisor (cr_Chain request) with
      | None => finish (Send send_error (call_refusal (WrongChainError (pretty (cr_Chain request)))) st)
      | Some (_, false) => finish (Send send_error (call_refusal NoAvailableUpstreamsError) st)
      | Some (chain, true) =>
        let '(requests, items, preResponses) := buildNativeCallRequests reg tag_name bound_name signer chain request in
        match send_all send_error preResponses st with
        | (Some err, st) => (CallDone (CallSend err), store, st)
        | (None, st) =>
          if bool_decide (requests = []) then (CallDone CallOk, store, st)
          else (CallRunning (cc_Chain chain) requests items, store, st)
        end
      end
    end
  end.

(** The call, when its requests are answered by [arrived]. *)
Definition NativeCall_finish (signer : ResponseSigner) (start : CallStart) (arrived : list ResponseHolderWrapper)
    (st : CallStream) : CallEnd * CallStream :=
  match start with
  | CallDone end_ => (end_, st)
  | CallRunning _ _ items => reply_all send_error hint body signer items arrived st
  end.
End Call.

(** ** What an item is answered with *)

(** The replies to one item: an error; a buffered result, signed for the nonce of the
    item when it has one; or a stream, unsigned, that ends with its final chunk or an
    error. *)
Section Answers.
Context `{SG : Signing}.

Definition error_reply (id : Z) (r : ReplyItem) : Prop :=
  ri_Id r = id /\ ri_Succeed r = false /\ ri_Signature r = None.

Definition chunk_reply (id : Z) (fin : bool) (r : ReplyItem) : Prop :=
  ri_Id r = id /\ ri_Succeed r = true /\ ri_Signature r = None /\ ri_Chunked r = true /\ ri_FinalChunk r = fin.

Definition buffered_reply (signer : ResponseSigner) (nonce id : Z) (r : ReplyItem) : Prop :=
  ri_Id r = id /\ ri_Succeed r = true /\ ri_Chunked r = false /\
  match ri_Signature r with
  | None => nonce = 0
  | Some s => nonce <> 0 /\ rs_Nonce s = nonce /\ rs_UpstreamId s = ri_UpstreamId r /\ signed_by signer (ri_Payload r) s
  end.

Inductive answer (signer : ResponseSigner) (nonce id : Z) : list ReplyItem -> Prop :=
| answer_error r : error_reply id r -> answer signer nonce id [r]
| answer_buffered r : buffered_reply signer nonce id r -> answer signer nonce id [r]
| answer_streamed l r : Forall (chunk_reply id false) l -> chunk_reply id true r -> answer signer nonce id (l ++ [r])
| answer_broken l r : Forall (chunk_reply id false) l -> error_reply id r -> answer signer nonce id (l ++ [r]).

Lemma answer_ids signer nonce id l : answer signer nonce id l -> Forall (fun r => ri_Id r = id) l.
Proof using Type.
  intros [r (Hid & _)|r (Hid & _)|l' r Hl (Hid & _)|l' r Hl (Hid & _)]; [by repeat constructor..| |];
    (apply Forall_app; split; [eapply Forall_impl; [done|by intros x (? & _)]|by repeat constructor]).
Qed.

(** Where a reply comes from. *)
Definition origin_of (w : ResponseHolderWrapper) (r : ReplyItem) : Prop :=
  ri_UpstreamId r = UpstreamId w /\ ri_UpstreamNodeVersion r = UpstreamNodeVersion w /\
  ri_Finalization r = nativeCallFinalizationData w.

Definition carries_error (e : ResponseError) (r : ReplyItem) : Prop :=
  ri_ErrorMessage r = Message e /\ ri_ItemErrorCode r = i32 (Errors.Code e).

(** What the replies to an item say of the response they are made of: an error is its
    error; chunks are made only of a stream, whose failure is an error of the upstream
    it came from; a result is the result of the response, from the upstream that gave
    it, unless it cannot be signed for the nonce. *)
Definition reply_to (signer : ResponseSigner) (nonce id : Z) (w : ResponseHolderWrapper) (l : list ReplyItem) : Prop :=
  let response := Responses.Response w in
  if HasError response then
    exists r, l = [r] /\ error_reply id r /\ origin_of w r /\
      carries_error (default ServerError (GetError response)) r /\ ri_ErrorAsIs r = ResponseResult response
  else if HasStream response then
    exists init r, l = init ++ [r] /\ Forall (chunk_reply id false) init /\
      (chunk_reply id true r \/ error_reply id r /\ origin_of w r)
  else
    exists r, l = [r] /\ origin_of w r /\
      match buildReplySignature signer nonce (ResponseResult response) (UpstreamId w) with
      | inr sig => buffered_reply signer nonce id r /\ ri_Payload r = ResponseResult response /\ ri_Signature r = sig
      | inl _ => error_reply id r
      end.
End Answers.

(** ** Streams *)

Section StreamShape.
Context `{MR : MapRange} `{JS : Json} `{SG : Signing}.

Definition never : nat -> option GoError := fun _ => None.

Lemma send_all_never l st :
  send_all never l st = (None, mkStream (sent st ++ l) (attempts st + length l)).
Proof using Type.
  revert st. induction l as [|x l IH]; intros [s n]; simpl; [by rewrite app_nil_r, Nat.add_0_r|].
  rewrite IH. simpl. rewrite <- app_assoc. do 2 f_equal. lia.
Qed.

Lemma write_list_never emit l e st : exists n,
  write_list never emit l (e, st) = (None, ((write_all l e).2, mkStream (sent st ++ map emit (write_all l e).1) n)).
Proof using Type.
  revert e st. induction l as [|[p fin] l IH]; intros e st; cbn [write_list write_all fst snd].
  { exists (attempts st). rewrite app_nil_r. by destruct st. }
  destruct (WriteChunk p fin e) as [cs e1]. rewrite send_all_never.
  destruct (IH e1 (mkStream (sent st ++ map emit cs) (attempts st + length (map emit cs)))) as [n ->].
  exists n. destruct (write_all l e1) as [cs' e2]. cbn [fst snd sent]. by rewrite map_app, app_assoc.
Qed.

(** Writes that are not final leave the stream open. *)
Lemma write_all_open l e : Forall (fun w : Write => w.2 = false) l ->
  Forall (fun c => final c = false) (write_all l e).1 /\ finalSent (write_all l e).2 = finalSent e.
Proof using Type.
  intros Hl. revert e. induction Hl as [|[p fin] l Hf Hl IH]; intros e; [done|]. simpl in Hf. subst fin.
  cbn [write_all]. unfold WriteChunk. rewrite andb_true_r. case_bool_decide.
  - destruct (IH e) as [H1 H2]. by destruct (write_all l e).
  - destruct (IH (mkEmitter true (finalSent e || false))) as [H1 H2]. destruct (write_all l _). simpl in *.
    rewrite orb_false_r in H2. split; [by constructor|done].
Qed.

(** Writes of a value: the last one may be final. *)
Definition closing (l : list Write) : Prop :=
  exists init tail, l = init ++ tail /\ Forall (fun w : Write => w.2 = false) init /\ (tail = [] \/ exists p, tail = [(p, true)]).

Lemma closing_chunks l : closing l ->
  let '(cs, e) := write_all l (mkEmitter false false) in
  exists init c, cs ++ (Finish e).1 = init ++ [c] /\ Forall (fun c => final c = false) init /\ final c = true.
Proof using Type.
  intros (init & tail & -> & Hi & Ht). destruct (write_all_open init (mkEmitter false false) Hi) as [Hf Hs].
  rewrite write_all_app. destruct (write_all init _) as [cs e]. cbn [fst snd] in *.
  destruct Ht as [-> |[p ->]]; cbn [write_all].
  - rewrite app_nil_r. unfold Finish. rewrite Hs. unfold WriteChunk. rewrite andb_false_r. by eexists _, _.
  - unfold WriteChunk. rewrite andb_false_r. cbn [app]. unfold Finish. cbn [finalSent]. rewrite orb_true_r. cbn [fst].
    rewrite app_nil_r. by eexists _, _.
Qed.

Lemma emit_loop_closing flushed s c : let '(ws, done, _) := emit_loop flushed s c in
  if (done : bool) then closing ws else Forall (fun w : Write => w.2 = false) ws.
Proof using Type.
  revert flushed c. induction s as [|b s IH]; intros flushed c; cbn [emit_loop].
  - case_bool_decide; by repeat constructor.
  - destruct (Step b c) as [[] c1]; [apply IH| |].
    + exists [], [(flushed ++ [b], true)]. split_and!; [done|constructor|right; by eexists].
    + case_bool_decide; [exists [], []; split_and!; [done|constructor|by left]|].
      exists [], [(flushed, true)]. split_and!; [done|constructor|right; by eexists].
Qed.

Lemma closing_cons l ws : Forall (fun w : Write => w.2 = false) l -> closing ws -> closing (l ++ ws).
Proof using Type.
  intros Hl (init & tail & -> & Hi & Ht). exists (l ++ init), tail. rewrite app_assoc. split_and!; [done|by apply Forall_app|done].
Qed.

Lemma emit_chunks_closing bufs c : let '(ws, done) := emit_chunks bufs c in
  if (done : bool) then closing ws else Forall (fun w : Write => w.2 = false) ws.
Proof using Type.
  revert c. induction bufs as [|buf bufs IH]; intros c; cbn [emit_chunks]; [constructor|].
  unfold emitFromBuffer. pose proof (emit_loop_closing [] buf c) as Hc. destruct (emit_loop [] buf c) as [[ws done] c1].
  destruct done; [done|]. specialize (IH c1). destruct (emit_chunks bufs c1) as [ws' done].
  destruct done; [by apply closing_cons|by apply Forall_app].
Qed.

(** The shape of a streamed body, whatever the body, its reads and its errors. *)
Definition chunks_shape (emit : ReplyChunk -> ReplyItem) (failed : bool) (l : list ReplyItem) : Prop :=
  exists init, Forall (fun c => final c = false) init /\
    if failed then l = map emit init else exists c, final c = true /\ l = map emit (init ++ [c]).

Lemma stream_body_shape emit mode b start c st : exists err l n,
  stream_body never emit mode b start c st = (err, mkStream (sent st ++ l) n) /\
  chunks_shape emit (bool_decide (is_Some err)) l.
Proof using Type.
  set (e0 := mkEmitter false false).
  assert (forall err ws st', Forall (fun w : Write => w.2 = false) ws ->
    st' = mkStream (sent st ++ map emit (write_all ws e0).1) (attempts st') ->
    exists err' l n, (Some err : option GoError, st') = (err', mkStream (sent st ++ l) n) /\
      chunks_shape emit (bool_decide (is_Some err')) l) as Hfail.
  { intros err ws st' Hw ->. eexists _, _, _. split; [done|]. eexists. split; [apply (write_all_open ws e0 Hw)|done]. }
  assert (forall ws st', closing ws -> st' = mkStream (sent st ++ map emit (write_all ws e0).1) (attempts st') ->
    exists err' l n, send_all never (map emit (Finish (write_all ws e0).2).1) st' = (err', mkStream (sent st ++ l) n) /\
      chunks_shape emit (bool_decide (is_Some err')) l) as Hdone.
  { intros ws st' Hw ->. rewrite send_all_never. cbn [sent]. pose proof (closing_chunks _ Hw) as Hc. fold e0 in Hc.
    destruct (write_all ws e0) as [cs e]. destruct Hc as (init & c' & E & Hi & Hf). cbn [fst snd].
    eexists None, (map emit (cs ++ (Finish e).1)), _. rewrite map_app, app_assoc. split; [done|].
    exists init. split; [done|]. exists c'. split; [exact Hf|]. by rewrite <- map_app, E. }
  assert (forall err, exists err' l n, (Some err : option GoError, st) = (err', mkStream (sent st ++ l) n) /\
      chunks_shape emit (bool_decide (is_Some err')) l) as Hnone.
  { intros err. apply (Hfail err []); [constructor|]. rewrite app_nil_r. by destruct st. }
  unfold stream_body. fold e0. destruct mode.
  - unfold stream_result. destruct (if _ : bool then b_err b else None); [apply Hnone|].
    destruct (_ || _); [apply Hnone|]. unfold emitFromBuffer.
    pose proof (emit_loop_closing [] (drop (Z.to_nat start) (b_prefix b)) c) as Hl.
    destruct (emit_loop _ _ c) as [[ws done] c1]. destruct (write_list_never emit ws e0 st) as [n ->].
    destruct done; [by apply Hdone|]. destruct (_ <? _); [by eapply Hfail|].
    pose proof (emit_chunks_closing (b_rest b) c1) as Hr. destruct (emit_chunks (b_rest b) c1) as [ws' completed].
    match goal with |- context [write_list never emit ws' (?e, ?s)] => destruct (write_list_never emit ws' e s) as [n' ->] end.
    assert (forall k, mkStream (sent (mkStream (sent st ++ map emit (write_all ws e0).1) n) ++
        map emit (write_all ws' (write_all ws e0).2).1) k =
      mkStream (sent st ++ map emit (write_all (ws ++ ws') e0).1) k) as E.
    { intros k. cbn [sent]. rewrite write_all_app. destruct (write_all ws e0) as [cs e]. cbn [fst snd].
      destruct (write_all ws' e). cbn [fst snd]. by rewrite map_app, app_assoc. }
    assert ((write_all ws' (write_all ws e0).2).2 = (write_all (ws ++ ws') e0).2) as E2.
    { rewrite write_all_app. destruct (write_all ws e0). cbn [fst snd]. by destruct (write_all ws' _). }
    rewrite E, E2. destruct completed; [apply Hdone; [by apply closing_cons|done]|].
    destruct (b_err b); (eapply (Hfail _ (ws ++ ws')); [by apply Forall_app|done]).
  - unfold pass_through. destruct (write_list_never emit (map (fun p => (p, false)) (b_prefix b :: b_rest b)) e0 st) as [n ->].
    assert (Forall (fun w : Write => w.2 = false) (map (fun p => (p, false)) (b_prefix b :: b_rest b))) as Hw
      by (apply Forall_map, Forall_true; done).
    destruct (b_err b); [by eapply Hfail|]. apply Hdone; [|done]. exists (map (fun p => (p, false)) (b_prefix b :: b_rest b)), [].
    rewrite app_nil_r. split_and!; [done..|by left].
Qed.
End StreamShape.

(** ** Replies and requests of one item *)

Section Items.
Context `{MR : MapRange} `{JS : Json} `{QU : Quoting} `{SG : Signing} `{GJ : GrpcJson}.
Context (hint : ResponseHolder -> option (Z * ResultCounter)) (body : ResponseHolder -> Body).

Lemma sendReply_answer signer nonce mode w st : exists l n,
  sendReply never hint body (Some w) nonce signer mode st = (None, mkStream (sent st ++ l) n) /\
  answer signer nonce (parseCallItemID (RequestId w)) l /\ reply_to signer nonce (parseCallItemID (RequestId w)) w l.
Proof using Type.
  unfold sendReply, reply_to. destruct (default _ (hint _)) as [start c].
  assert (forall r, exists n, Send never r st = (None, mkStream (sent st ++ [r]) n)) as Hsend by (intros r; by eexists).
  destruct (HasError _).
  { match goal with |- context [Send never ?r st] => destruct (Hsend r) as [n ->] end. eexists _, _. split; [done|].
    split; [by constructor|]. by eexists. }
  destruct (HasStream _).
  - match goal with |- context [stream_body never ?emit mode ?b start c st] =>
      destruct (stream_body_shape emit mode b start c st) as (err & l & n & -> & init & Hi & Hl) end.
    match type of Hl with context [map ?emit] => set (em := emit) in * end.
    assert (Forall (chunk_reply (parseCallItemID (RequestId w)) false) (map em init)) as Hc.
    { apply Forall_map. eapply Forall_impl; [exact Hi|]. intros x Hx. repeat split. exact Hx. }
    destruct err as [err|]; cbn in Hl.
    + subst l. unfold Send, never. eexists (map em init ++ [_]), _. cbn [sent]. rewrite <- app_assoc. split; [done|].
      split; [by apply answer_broken|]. eexists _, _. split; [done|]. split; [done|]. by right.
    + destruct Hl as (x & Hx & ->).
      assert (chunk_reply (parseCallItemID (RequestId w)) true (em x)) as Hlast by (repeat split; exact Hx).
      eexists _, _. split; [done|]. rewrite map_app. split; [by apply answer_streamed|].
      eexists _, _. split; [done|]. split; [done|]. by left.
  - destruct (buildReplySignature _ _ _ _) as [err|sig] eqn:Es.
    + match goal with |- context [Send never ?r st] => destruct (Hsend r) as [n ->] end. eexists _, _. split; [done|].
      split; [by constructor|]. by eexists.
    + match goal with |- context [Send never ?r st] => destruct (Hsend r) as [n ->]; set (reply := r) end.
      assert (buffered_reply signer nonce (parseCallItemID (RequestId w)) reply) as Hr.
      { repeat split. apply buildReplySignature_spec in Es. cbn. destruct sig; [|done].
        destruct Es as (? & ? & ? & ?). by repeat split. }
      eexists _, _. split; [done|]. split; [by apply answer_buffered|]. by exists reply.
Qed.

Context (reg : Registry) (tag_name bound_name : Z -> string).

Lemma refused_is_error item e : error_reply (nc_Id item) (refused item e).
Proof using Type. done. Qed.

Lemma build_item_spec signer chain request item :
  match build_item reg tag_name bound_name signer chain request item with
  | inl r => error_reply (nc_Id item) r
  | inr r => request_Id r = FormatUint (nc_Id item) /\ request_Method r = nc_Method item /\
      request_IsSubscribe r = false /\ request_IsStream r = (0 <? cr_ChunkSize request) /\
      signingUnavailable (nc_Nonce item) signer = None
  end.
Proof using Type.
  unfold build_item. destruct (signingUnavailable _ _) eqn:Es; [done|].
  destruct (adapterFor item); cbn [BuildRequest].
  - unfold BuildRequest_jsonRpc. destruct (negb _); [done|]. destruct (mapNativeCallSelectors _ _ _ _); [done|].
    by destruct (0 <? _).
  - unfold BuildRequest_rest. destruct (GetRestData item); [|done]. destruct (validateRestMethodTemplate _); [done|].
    destruct (mapNativeCallSelectors _ _ _ _); [done|]. by destruct (0 <? _).
Qed.

(** Why an item gets no request. *)
Definition refusable (signer : ResponseSigner) (request : NativeCallRequest) (item : NativeCallItem) : Prop :=
  is_Some (signingUnavailable (nc_Nonce item) signer) \/
  (exists err, mapNativeCallSelectors tag_name bound_name (cr_Selector request) (nc_Selectors item) = inl err) \/
  match GetRestData item with
  | None => GetPayload item <> "" /\ json_Valid (GetPayload item) = false \/ GetPayload item = "" /\ json_Valid "[]" = false
  | Some _ => is_Some (validateRestMethodTemplate (nc_Method item))
  end.

Lemma build_item_refusable signer chain request item f :
  build_item reg tag_name bound_name signer chain request item = inl f -> refusable signer request item.
Proof using Type.
  unfold build_item, refusable, adapterFor. destruct (signingUnavailable _ _) eqn:Es; [by left; eexists|].
  destruct (GetRestData item) eqn:Er; cbn [BuildRequest].
  - unfold BuildRequest_rest. rewrite Er. destruct (validateRestMethodTemplate _); [right; right; by eexists|].
    destruct (mapNativeCallSelectors _ _ _ _); [by right; left; eexists|]. by destruct (0 <? _).
  - unfold BuildRequest_jsonRpc. case_bool_decide; (destruct (json_Valid _) eqn:Ev; cbn [negb];
      [destruct (mapNativeCallSelectors _ _ _ _); [by right; left; eexists|by destruct (0 <? _)]|right; right; tauto]).
Qed.

(** The requests of a list of items, and the answers of the others. *)
Definition requested (signer : ResponseSigner) (chain : ConfiguredChain) (request : NativeCallRequest) (item : NativeCallItem)
    : option (NativeCallItem * RequestHolder) :=
  match build_item reg tag_name bound_name signer chain request item with inr r => Some (item, r) | inl _ => None end.

Definition answered_at_once (signer : ResponseSigner) (chain : ConfiguredChain) (request : NativeCallRequest)
    (item : NativeCallItem) : list ReplyItem :=
  match build_item reg tag_name bound_name signer chain request item with inr _ => [] | inl f => [f] end.

Lemma requested_spec signer chain request item p : requested signer chain request item = Some p ->
  p.1 = item /\ request_Id p.2 = FormatUint (nc_Id item).
Proof using Type.
  unfold requested. pose proof (build_item_spec signer chain request item) as Hb.
  destruct (build_item _ _ _ _ _ _ _) eqn:E; [done|]. intros [= <-]. by destruct Hb.
Qed.

(** The requests go out under the ids of their items, each known by its adapter and
    nonce as long as no two items share an id. *)
Lemma build_items_spec signer chain request l items requests items' pre :
  build_items reg tag_name bound_name signer chain request l items = (requests, items', pre) ->
  NoDup (map nc_Id l) -> Forall (fun i => is_u64 (nc_Id i)) l ->
  requests = map snd (omap (requested signer chain request) l) /\
  pre = concat (map (answered_at_once signer chain request) l) /\
  (forall id, (forall i, i ∈ l -> FormatUint (nc_Id i) <> id) -> items' !! id = items !! id) /\
  forall p, p ∈ omap (requested signer chain request) l ->
    items' !! request_Id p.2 = Some (mkNativeItem (adapterFor p.1) (nc_Nonce p.1)).
Proof using Type.
  revert items requests items' pre. induction l as [|item l IH]; intros items requests items' pre; cbn [build_items map].
  { intros [= <- <- <-] _ _. split_and!; [done..|]. intros p []%elem_of_nil. }
  intros E [Hni Hnd]%NoDup_cons [Hu Hul]%Forall_cons.
  pose proof (build_item_spec signer chain request item) as Hb.
  assert (omap (requested signer chain request) (item :: l) =
    match requested signer chain request item with
    | Some p => p :: omap (requested signer chain request) l
    | None => omap (requested signer chain request) l
    end) as -> by done.
  assert (requested signer chain request item = match build_item reg tag_name bound_name signer chain request item with
    | inr r => Some (item, r) | inl _ => None end) as -> by done.
  assert (answered_at_once signer chain request item = match build_item reg tag_name bound_name signer chain request item with
    | inr _ => [] | inl f => [f] end) as -> by done.
  cbn [concat].
  assert (forall i, i ∈ l -> FormatUint (nc_Id i) <> FormatUint (nc_Id item)) as Hother.
  { intros i Hi Ef. apply Hni. apply (f_equal ParseUint) in Ef. rewrite !ParseUint_FormatUint in Ef;
      [|done|by eapply Forall_forall in Hul]. injection Ef as Ef. rewrite <- Ef. by apply list_elem_of_fmap_2. }
  destruct (build_item _ _ _ signer chain request item) as [f|r].
  - destruct (build_items _ _ _ signer chain request l items) as [[rs is_] ps] eqn:El. injection E as <- <- <-.
    destruct (IH _ _ _ _ El Hnd Hul) as (-> & -> & Hk & Hp). split_and!; [done..| |done].
    intros id Hid. apply Hk. intros i Hi. apply Hid. by right.
  - destruct Hb as (Hid & _). rewrite Hid in E.
    destruct (build_items _ _ _ signer chain request l _) as [[rs is_] ps] eqn:El. injection E as <- <- <-.
    destruct (IH _ _ _ _ El Hnd Hul) as (-> & -> & Hk & Hp). split_and!; [done..| |].
    + intros id Hni'. rewrite Hk by (intros i Hi; apply Hni'; by right). apply lookup_insert_ne. apply Hni'. by left.
    + intros p [-> |Hin]%elem_of_cons; [|by apply Hp]. cbn [fst snd]. rewrite Hid, Hk by done. by rewrite lookup_insert_eq.
Qed.

(** The loop over the responses: every one of them is answered. *)
Lemma reply_all_answers signer items arrived st :
  (forall w, w ∈ arrived -> is_Some (items !! RequestId w)) ->
  exists ls n, reply_all never hint body signer items arrived st = (CallOk, mkStream (sent st ++ concat ls) n) /\
    Forall2 (fun w l => exists item, items !! RequestId w = Some item /\
      answer signer (nonce item) (parseCallItemID (RequestId w)) l /\
      reply_to signer (nonce item) (parseCallItemID (RequestId w)) w l) arrived ls.
Proof using Type.
  revert st. induction arrived as [|w arrived IH]; intros st Hk; cbn [reply_all].
  { exists [], (attempts st). rewrite app_nil_r. split; [by destruct st|constructor]. }
  destruct (Hk w ltac:(by left)) as [item Hi]. rewrite Hi. unfold SendReply.
  destruct (sendReply_answer signer (nonce item)
    match adapter item with jsonRpcNativeCallAdapter => unwrapJsonRpcResultStream | restNativeCallAdapter => passThroughStream end
    w st) as (l & n & -> & Ha).
  destruct (IH (mkStream (sent st ++ l) n)) as (ls & n' & -> & Hls); [intros w' Hw'; apply Hk; by right|].
  exists (l :: ls), n'. cbn [concat sent]. rewrite <- app_assoc. split; [done|]. constructor; [by exists item|done].
Qed.
End Items.

(** ** Replies by their ids *)

Lemma NoDup_map_inj {A B} (f : A -> B) l x y : NoDup (map f l) -> x ∈ l -> y ∈ l -> f x = f y -> x = y.
Proof.
  induction l as [|z l IH]; intros Hnd Hx Hy E; [by apply elem_of_nil in Hx|]. apply NoDup_cons in Hnd as [Hni Hnd].
  apply elem_of_cons in Hx as [->|Hx], Hy as [->|Hy]; [done| | |by apply IH].
  - destruct Hni. rewrite E. by apply list_elem_of_fmap_2.
  - destruct Hni. rewrite <- E. by apply list_elem_of_fmap_2.
Qed.

Definition of_id (id : Z) (l : list ReplyItem) : list ReplyItem := base.filter (fun r => ri_Id r = id) l.

Lemma of_id_app id l l' : of_id id (l ++ l') = of_id id l ++ of_id id l'.
Proof. apply filter_app. Qed.

Lemma of_id_all id l : Forall (fun r => ri_Id r = id) l -> of_id id l = l.
Proof. induction 1 as [|r l Hr Hl IH]; [done|]. unfold of_id in *. rewrite filter_cons_True by done. by rewrite IH. Qed.

Lemma of_id_none id id' l : Forall (fun r => ri_Id r = id') l -> id <> id' -> of_id id l = [].
Proof. intros Hl Hne. induction Hl as [|r l Hr Hl IH]; [done|]. unfold of_id. rewrite filter_cons_False by congruence. exact IH. Qed.

(** The replies to many, each under its own id. *)
Lemma of_id_concat {A} (pid : A -> Z) (xs : list A) (ls : list (list ReplyItem)) :
  Forall2 (fun x l => Forall (fun r => ri_Id r = pid x) l) xs ls -> NoDup (map pid xs) ->
  (forall i x l, xs !! i = Some x -> ls !! i = Some l -> of_id (pid x) (concat ls) = l) /\
  (forall id, (forall x, x ∈ xs -> pid x <> id) -> of_id id (concat ls) = []).
Proof.
  induction 1 as [|x l xs ls Hl Hls IH]; intros Hnd; [split; [intros i x l Hx; by rewrite lookup_nil in Hx|done]|].
  apply NoDup_cons in Hnd as [Hni Hnd]. destruct (IH Hnd) as [IH1 IH2]. cbn [concat]. split.
  - intros [|i] y m; cbn [lookup list_lookup].
    + intros [= <-] [= <-]. rewrite of_id_app, of_id_all, IH2 by
        (done || (intros z Hz E; apply Hni; rewrite <- E; by apply list_elem_of_fmap_2)). by rewrite app_nil_r.
    + intros Hy Hm. rewrite of_id_app, (of_id_none _ (pid x)), (IH1 _ _ _ Hy Hm); [done|done|].
      intros E. apply Hni. rewrite <- E. apply list_elem_of_fmap_2. by eapply list_elem_of_lookup_2.
  - intros id Hid. rewrite of_id_app, (of_id_none _ (pid x)), IH2; [done| |done|].
    + intros z Hz. apply Hid. by right.
    + apply not_eq_sym, Hid. by left.
Qed.

(** ** A call answers every item *)

Definition is_u32 (z : Z) : Prop := 0 <= z < 2 ^ 32.

Lemma parseCallItemID_FormatUint id : is_u32 id -> parseCallItemID (FormatUint id) = id.
Proof.
  intros Hi. unfold parseCallItemID, is_u32 in *. rewrite ParseUint_FormatUint by (unfold is_u64, two64; lia).
  by rewrite (proj2 (Z.ltb_lt _ _)) by lia.
Qed.

(** The responses of the flow to the requests of a call, in any order. *)
Definition executed `{Execution} (start : CallStart) (arrived : list ResponseHolderWrapper) : Prop :=
  match start with
  | CallDone _ => arrived = []
  | CallRunning chain requests _ => exists ws, arrived ≡ₚ ws /\ Forall2 (HttpServer.answered chain) requests ws
  end.

Section Call_answers.
Context `{MR : MapRange} `{JS : Json} `{QU : Quoting} `{SG : Signing} `{GJ : GrpcJson} `{EX : Execution}.
Context (chain_reg : ChainRegistry) (reg : Registry) (tag_name bound_name : Z -> string)
  (hint : ResponseHolder -> option (Z * ResultCounter)) (body : ResponseHolder -> Body).

(** A call that is let in: its items become requests or are answered at once. *)
Lemma NativeCall_start_admitted auth now md signer supervisor request store store' chain :
  requireSession auth now md store = (None, store') -> resolveChain chain_reg supervisor (cr_Chain request) = Some (chain, true) ->
  let '(requests, items, pre) := buildNativeCallRequests reg tag_name bound_name signer chain request in
  NativeCall_start chain_reg reg tag_name bound_name never auth now md signer supervisor (Some request) store =
    (if bool_decide (requests = []) then CallDone CallOk else CallRunning (cc_Chain chain) requests items,
     store', mkStream pre (length pre)).
Proof using Type.
  intros Hs Hc. unfold NativeCall_start. rewrite Hs, Hc. destruct (buildNativeCallRequests _ _ _ _ _ _) as [[rs is_] pre].
  destruct supervisor as [s|]; [|unfold resolveChain in Hc; by destruct (_ <? 0)]. cbn [negb is_Some].
  rewrite (bool_decide_eq_true_2 (is_Some _)) by done. cbn [negb]. rewrite send_all_never. cbn [sent attempts app].
  by case_bool_decide.
Qed.

Lemma requests_answered l (rs : list (NativeCallItem * RequestHolder)) chain arrived ws :
  (forall p, p ∈ rs -> p.1 ∈ l /\ request_Id p.2 = FormatUint (nc_Id p.1)) -> Forall (fun i => is_u32 (nc_Id i)) l ->
  arrived ≡ₚ ws -> Forall2 (HttpServer.answered chain) (map snd rs) ws ->
  map (fun w => parseCallItemID (RequestId w)) arrived ≡ₚ map (fun p => nc_Id p.1) rs /\
  (forall w, w ∈ arrived -> exists p, p ∈ rs /\ RequestId w = request_Id p.2) /\
  forall p, p ∈ rs -> exists w, w ∈ arrived /\ RequestId w = request_Id p.2.
Proof using Type.
  intros Hrs Hu Hp Hf. apply (proj1 (Forall2_fmap_l snd (HttpServer.answered chain) rs ws)) in Hf.
  assert (forall p, p ∈ rs -> parseCallItemID (request_Id p.2) = nc_Id p.1) as Hpid.
  { intros p Hin. destruct (Hrs p Hin) as [Hl ->]. apply parseCallItemID_FormatUint. by eapply Forall_forall in Hu. }
  split_and!.
  - rewrite Hp. clear Hp arrived Hrs. induction Hf as [|p w rs ws Hw Hf IH]; [done|]. cbn [map]. cbn in Hw.
    rewrite (answered_request _ _ _ Hw), Hpid by (by left). constructor. apply IH. intros q Hq. apply Hpid. by right.
  - intros w Hw. rewrite Hp in Hw. apply list_elem_of_lookup in Hw as [i Hi].
    destruct (Forall2_lookup_r _ _ _ _ _ Hf Hi) as (p & Hpi & Ha). exists p. split; [by eapply list_elem_of_lookup_2|].
    by eapply answered_request.
  - intros p Hin. apply list_elem_of_lookup in Hin as [i Hi]. destruct (Forall2_lookup_l _ _ _ _ _ Hf Hi) as (w & Hwi & Ha).
    exists w. rewrite Hp. split; [by eapply list_elem_of_lookup_2|]. by eapply answered_request.
Qed.

Lemma requested_cons signer chain request i l :
  omap (requested reg tag_name bound_name signer chain request) (i :: l) =
    match requested reg tag_name bound_name signer chain request i with
    | Some p => p :: omap (requested reg tag_name bound_name signer chain request) l
    | None => omap (requested reg tag_name bound_name signer chain request) l
    end.
Proof using Type. done. Qed.

Lemma requested_member signer chain request (l : list NativeCallItem) p :
  p ∈ omap (requested reg tag_name bound_name signer chain request) l ->
  p.1 ∈ l /\ requested reg tag_name bound_name signer chain request p.1 = Some p /\ request_Id p.2 = FormatUint (nc_Id p.1).
Proof using Type.
  intros (i & Hi & Hr)%list_elem_of_omap. destruct (requested_spec _ _ _ _ _ _ _ _ Hr) as [-> Hid]. by split_and!.
Qed.

Lemma requested_pid signer chain request (l : list NativeCallItem) p : Forall (fun i => is_u32 (nc_Id i)) l ->
  p ∈ omap (requested reg tag_name bound_name signer chain request) l -> parseCallItemID (request_Id p.2) = nc_Id p.1.
Proof using Type.
  intros Hu Hp. destruct (requested_member _ _ _ _ _ Hp) as (Hl & _ & ->). apply parseCallItemID_FormatUint.
  by eapply Forall_forall in Hu.
Qed.

(** An item that is answered at once has no request, and no response. *)
Lemma at_once_no_response signer chain request (l : list NativeCallItem) (arrived : list ResponseHolderWrapper) item f :
  NoDup (map nc_Id l) -> Forall (fun i => is_u32 (nc_Id i)) l -> item ∈ l ->
  build_item reg tag_name bound_name signer chain request item = inl f ->
  (forall w, w ∈ arrived -> exists p,
     p ∈ omap (requested reg tag_name bound_name signer chain request) l /\ RequestId w = request_Id p.2) ->
  forall w, w ∈ arrived -> parseCallItemID (RequestId w) <> nc_Id item.
Proof using Type.
  intros Hnd Hu Hitem Eb Harr w Hw E. destruct (Harr w Hw) as (p & Hp & Ew).
  destruct (requested_member _ _ _ _ _ Hp) as (Hl & Hr & _). rewrite Ew, (requested_pid _ _ _ _ _ Hu Hp) in E.
  assert (p.1 = item) as Ei by (by eapply NoDup_map_inj). unfold requested in Hr. by rewrite Ei, Eb in Hr.
Qed.

Lemma requested_ids signer chain request l :
  sublist (map (fun p => nc_Id p.1) (omap (requested reg tag_name bound_name signer chain request) l)) (map nc_Id l).
Proof using Type.
  induction l as [|i l IH]; [done|]. rewrite requested_cons.
  destruct (requested _ _ _ _ _ _ i) as [p|] eqn:Ep; cbn [map]; [|by apply sublist_cons].
  destruct (requested_spec _ _ _ _ _ _ _ _ Ep) as [-> _]. by apply sublist_skip.
Qed.

Lemma at_once_ids signer chain request l :
  Forall2 (fun i m => Forall (fun r => ri_Id r = nc_Id i) m) l
    (map (answered_at_once reg tag_name bound_name signer chain request) l).
Proof using Type.
  apply Forall2_fmap_r, Forall_Forall2_diag, Forall_forall. intros i _. unfold answered_at_once, compose.
  generalize (build_item_spec reg tag_name bound_name signer chain request i). destruct (build_item _ _ _ _ _ _ _); [|constructor].
  intros [Hid _]. by repeat constructor.
Qed.

(** What is sent in the course of a call that is let in: the items that are answered
    at once, then the responses as they arrive. *)
Lemma admitted_call auth now md signer supervisor request store store' chain start store1 st arrived :
  requireSession auth now md store = (None, store') -> resolveChain chain_reg supervisor (cr_Chain request) = Some (chain, true) ->
  NativeCall_start chain_reg reg tag_name bound_name never auth now md signer supervisor (Some request) store = (start, store1, st) ->
  NoDup (map nc_Id (cr_Items request)) -> Forall (fun i => is_u32 (nc_Id i)) (cr_Items request) -> executed start arrived ->
  let rs := omap (requested reg tag_name bound_name signer chain request) (cr_Items request) in
  exists ls n, NativeCall_finish never hint body signer start arrived st =
      (CallOk, mkStream (concat (map (answered_at_once reg tag_name bound_name signer chain request) (cr_Items request)) ++ concat ls) n) /\
    NoDup (map (fun w => parseCallItemID (RequestId w)) arrived) /\
    (forall w, w ∈ arrived -> exists p, p ∈ rs /\ RequestId w = request_Id p.2) /\
    (forall p, p ∈ rs -> exists w, w ∈ arrived /\ RequestId w = request_Id p.2) /\
    Forall2 (fun w m => forall p, p ∈ rs -> RequestId w = request_Id p.2 ->
      answer signer (nc_Nonce p.1) (nc_Id p.1) m /\ reply_to signer (nc_Nonce p.1) (nc_Id p.1) w m) arrived ls /\
    Forall2 (fun w m => Forall (fun r => ri_Id r = parseCallItemID (RequestId w)) m) arrived ls.
Proof using Type.
  intros Hs Hc Est Hnd Hu Hex rs.
  pose proof (NativeCall_start_admitted auth now md signer supervisor request store store' chain Hs Hc) as Hadm.
  unfold buildNativeCallRequests in Hadm.
  destruct (build_items _ _ _ _ _ _ _ _) as [[requests items] pre] eqn:Eb. rewrite Est in Hadm. injection Hadm as Estart _ ->.
  assert (Forall (fun i => is_u64 (nc_Id i)) (cr_Items request)) as Hu64
    by (eapply Forall_impl; [exact Hu|]; unfold is_u32, is_u64, two64; lia).
  destruct (build_items_spec _ _ _ _ _ _ _ _ _ _ _ Eb Hnd Hu64) as (Hreq & <- & _ & Hitems). fold rs in Hreq, Hitems.
  assert (forall p, p ∈ rs -> p.1 ∈ cr_Items request /\ request_Id p.2 = FormatUint (nc_Id p.1)) as Hrs.
  { intros p (i & Hi & Hr)%list_elem_of_omap. destruct (requested_spec _ _ _ _ _ _ _ _ Hr) as [-> Hid]. split; [exact Hi|exact Hid]. }
  assert (exists ws, arrived ≡ₚ ws /\ Forall2 (HttpServer.answered (cc_Chain chain)) (map snd rs) ws) as (ws & Hp & Hf).
  { rewrite Estart in Hex. case_bool_decide as Er; [|by rewrite <- Hreq].
    exists []. simpl in Hex. rewrite Hex, <- Hreq, Er. by split. }
  destruct (requests_answered (cr_Items request) rs (cc_Chain chain) arrived ws) as (Hids & Harr & Hall); [done..|].
  assert (exists ls n, NativeCall_finish never hint body signer start arrived (mkStream pre (length pre)) =
      (CallOk, mkStream (pre ++ concat ls) n) /\
    Forall2 (fun w m => exists item, items !! RequestId w = Some item /\
      answer signer (nonce item) (parseCallItemID (RequestId w)) m /\
      reply_to signer (nonce item) (parseCallItemID (RequestId w)) w m) arrived ls) as (ls & n & Hfin & Hls).
  { rewrite Estart. case_bool_decide as Er.
    - exists [], (length pre). rewrite Er in Hreq. rewrite <- Hreq in Hf. apply Forall2_nil_inv_l in Hf as ->.
      apply Permutation_nil_r in Hp as ->. rewrite app_nil_r. by split; [|constructor].
    - apply reply_all_answers. intros w Hw. destruct (Harr w Hw) as (p & Hin & ->). rewrite (Hitems p Hin). by eexists. }
  exists ls, n. split_and!; [exact Hfin| |done|done| |].
  - rewrite Hids. eapply sublist_NoDup; [exact Hnd|]. apply requested_ids.
  - eapply Forall2_impl; [exact Hls|]. intros w m (item & Hi & Ha) p Hin Ew. rewrite Ew, (Hitems p Hin) in Hi.
    injection Hi as <-. destruct (Hrs p Hin) as [Hl Hid]. rewrite Ew, Hid, parseCallItemID_FormatUint in Ha; [done|].
    by eapply Forall_forall in Hu.
  - eapply Forall2_impl; [exact Hls|]. intros w m (? & _ & Ha & _). by eapply answer_ids.
Qed.
End Call_answers.


(** ** The bytes of a streamed result *)

Lemma stream_body_delivers `{MapRange} `{Json} `{Signing} emit prefix rest start c st items :
  streamNativeCallBody prefix rest start c = (items, None) ->
  exists n, stream_body never emit unwrapJsonRpcResultStream (mkBody prefix rest None) start c st =
    (None, mkStream (sent st ++ map emit items) n).
Proof.
  unfold streamNativeCallBody, streamJsonRPCResult, stream_body, stream_result. cbn [b_prefix b_rest b_err].
  set (e0 := mkEmitter false false). destruct (_ || _).
  { cbn. done. }
  destruct (emitFromBuffer _ c) as [[ws done] c1]. destruct (write_list_never emit ws e0 st) as [n ->].
  assert (forall ws' st', st' = mkStream (sent st ++ map emit (write_all ws' e0).1) (attempts st') ->
    (let '(items, e) := write_all ws' e0 in (items ++ (Finish e).1, None : option StreamError)) = (items, None) ->
    exists n, send_all never (map emit (Finish (write_all ws' e0).2).1) st' = (None, mkStream (sent st ++ map emit items) n)) as Hend.
  { intros ws' st' -> E. rewrite send_all_never. destruct (write_all ws' e0) as [cs e]. injection E as <-. cbn [fst snd sent].
    eexists. by rewrite map_app, app_assoc. }
  destruct done; [intros E; destruct (_ <? _); exact (Hend ws _ eq_refl E)|].
  destruct (_ <? _); [by destruct (write_all ws e0)|]. destruct (emit_chunks rest c1) as [ws' completed].
  match goal with |- context [write_list never emit ws' (?e, ?s)] => destruct (write_list_never emit ws' e s) as [n' ->] end.
  destruct completed; [|by destruct (write_all (ws ++ ws') e0)]. intros E.
  specialize (Hend (ws ++ ws') (mkStream (sent st ++ map emit (write_all (ws ++ ws') e0).1) n') eq_refl E).
  rewrite write_all_app in Hend. cbn [sent]. destruct (write_all ws e0) as [cs e1]. cbn [fst snd] in *.
  destruct (write_all ws' e1) as [cs' e2]. cbn [fst snd] in *. by rewrite map_app, app_assoc in Hend.
Qed.

Definition text_of (l : list ReplyItem) : bytes := concat (map (fun r => String.list_ascii_of_string (ri_Payload r)) l).

(** C15. A streamed JSON-RPC response reaches a gRPC client as its result, byte for
    byte: for every JSON value that the hint of the connector points to in a body,
    however the body is split into reads, the replies to the item are successful
    chunks under the item's id whose payloads make up exactly the value; exactly the
    last one is marked as final, and the first one and only it carries where the
    response is from. *)
Theorem streamed_call_exact `{MapRange} `{Json} `{Signing} hint body signer nonce w st r t before v after prefix rest :
  Responses.Response w = GenericResponse r -> g_error r = None -> g_stream r = Some t ->
  value_text v -> value_follows after -> String.list_ascii_of_string t = before ++ v ++ after ->
  hint (Responses.Response w) = Some (Z.of_nat (length before), counter_for (first_byte v)) ->
  body (Responses.Response w) = mkBody prefix rest None -> prefix ++ concat rest = String.list_ascii_of_string t ->
  (length before < length prefix)%nat -> (Z.of_nat (length prefix) < MaxChunkSize -> rest = []) ->
  exists items n,
    SendReply never hint body jsonRpcNativeCallAdapter (Some w) nonce signer st = (None, mkStream (sent st ++ items) n) /\
    text_of items = v /\
    (exists init last, items = init ++ [last] /\ Forall (chunk_reply (parseCallItemID (RequestId w)) false) init /\
       chunk_reply (parseCallItemID (RequestId w)) true last) /\
    forall i x, items !! i = Some x ->
      ri_UpstreamId x = (if bool_decide (i = 0%nat) then UpstreamId w else "") /\
      ri_UpstreamNodeVersion x = (if bool_decide (i = 0%nat) then UpstreamNodeVersion w else "") /\
      ri_Finalization x = (if bool_decide (i = 0%nat) then nativeCallFinalizationData w else None) /\
      ri_ResponseHeaders x = (if bool_decide (i = 0%nat) then mapHeaders (g_headers r) else []).
Proof.
  intros Hr He Hst Hv Ha Ht Hh Hb Hpre Hlen Hrest.
  pose proof (streamed_result_exact before v after prefix rest Hv Ha ltac:(by rewrite Hpre, Ht) Hlen Hrest) as Hx.
  destruct (streamNativeCallBody _ _ _ _) as [cs err] eqn:Es. destruct Hx as [-> [Hcat (init & last & Ecs & Hfin & Hi & Hfst)]].
  assert (HasError (Responses.Response w) = false /\ HasStream (Responses.Response w) = true /\
    default ∅ (ResponseHeaders (Responses.Response w)) = g_headers r) as (E1 & E2 & E3).
  { rewrite Hr. cbn [HasError HasStream ResponseHeaders]. by rewrite He, Hst. }
  unfold SendReply, sendReply. rewrite Hh, E1, E2, E3, Hb. cbn [from_option id].
  set (emit := chunk_item _ _ _ _ _).
  destruct (stream_body_delivers emit prefix rest _ _ st cs Es) as [n ->]. exists (map emit cs), n. split; [done|].
  split_and!.
  - unfold text_of. rewrite <- Hcat, map_map. f_equal. apply map_ext. intros x.
    apply String.list_ascii_of_string_of_list_ascii.
  - exists (map emit init), (emit last). split; [by rewrite Ecs, map_app|].
    split; [|unfold chunk_reply; split_and!; [done..|exact Hfin]].
    apply Forall_map. eapply Forall_impl; [exact Hi|]. intros x Hx. unfold chunk_reply. split_and!; [done..|exact Hx].
  - intros i x Hx. rewrite list_lookup_fmap in Hx. apply fmap_Some in Hx as (c & Hc & ->).
    rewrite <- (Hfst i c Hc). unfold emit, chunk_item. cbn. by destruct (first c).
Qed.

(** ** A call *)

#[local] Instance sample_json : Json := {
  GetByPath _ _ := None; unmarshal_jsonRpcError _ := None; marshal_jsonRpcError _ := inr "";
  unmarshal_string _ := None; unmarshal_wsMessage _ := None; marshal_wsSubResponse _ _ _ := inr "" }.
#[local] Instance sample_quoting : Quoting := fun s => s.
#[local] Instance sample_grpc_json : GrpcJson := {
  json_Valid s := bool_decide (s <> "?"); marshal_text s := s; marshal_raws _ := inr "" }.
#[local] Existing Instance Prelude.default_range.
#[local] Existing Instance Quorum.demo_crypto.

#[local] Instance sample_signing : Signing := {
  PrivateKey := string; PublicKeyOf key := key; rsa_SignPKCS1v15 key digest := inr (key +:+ digest);
  MarshalPKIXPublicKey key := inr key; loadRSAPrivateKeyFromFile path := inr path }.

(** Of the three items, the first is streamed, the second is signed and the third is
    refused; the second is answered first. *)
Definition sample_items : list NativeCallItem :=
  [mkCallItem 7 "eth_getLogs" 0 [] None; mkCallItem 8 "eth_call" 5 [] (Some (ItemPayload "[1]"));
   mkCallItem 9 "eth_call" 0 [] (Some (ItemPayload "?"))].

Definition sample_call : NativeCallRequest := mkCallRequest 100 sample_items None 1024.

Definition sample_stream : string := "{result:[1,[2]],id:1}".

Definition sample_response (r : RequestHolder) : ResponseHolderWrapper :=
  empty_wrapper "up1" (request_Id r)
    (if bool_decide (request_Method r = "eth_getLogs")
     then NewHttpUpstreamResponseStream (request_Id r) sample_stream JsonRpc
     else NewSimpleHttpUpstreamResponse (request_Id r) "0x1" JsonRpc).

#[local] Instance sample_execution : Execution.
Proof.
  refine {| HttpServer.answered := fun _ r w => w = sample_response r |}; intros chain r w ->; unfold sample_response; by case_bool_decide.
Defined.

Definition sample_chain : ConfiguredChain :=
  mkConfiguredChain 100 "0x1" "1" ["eth"] "eth" (cc_Settings UnknownChain) 1 "eth" "" [] None.

Definition sample_chains : ChainRegistry :=
  mkChainRegistry (mkChainIds ∅ ∅ 0) ∅
    {[ 100 := sample_chain ]} false.

Definition sample_hint (_ : ResponseHolder) : option (Z * ResultCounter) := Some (8, counter_for "["%char).
Definition sample_body (_ : ResponseHolder) : Body := mkBody (String.list_ascii_of_string sample_stream) [] None.

Definition sample_signer : ResponseSigner := rsaSigner ("k" : PrivateKey) 1.

Definition sample_start : CallStart * grpcSessionStore * CallStream :=
  NativeCall_start sample_chains ∅ pretty pretty never None 0 None sample_signer (Some {[ 1 ]}) (Some sample_call)
    (newGrpcSessionStore 0).

Definition sample_arrived : list ResponseHolderWrapper :=
  match sample_start.1.1 with CallRunning _ requests _ => rev (map sample_response requests) | CallDone _ => [] end.

Example sample_started :
  (length sample_arrived = 2)%nat /\
  map (fun r => (ri_Id r, ri_Succeed r, ri_Payload r, bool_decide (is_Some (ri_Signature r))))
    (sent (NativeCall_finish never sample_hint sample_body sample_signer sample_start.1.1 sample_arrived sample_start.2).2) =
  [(9, false, "", false); (8, true, "0x1", true); (7, true, "[1,[2]]", false)].
Proof. vm_compute. split; reflexivity. Qed.

Lemma sample_executed : executed sample_start.1.1 sample_arrived.
Proof.
  unfold executed, sample_arrived. destruct sample_start.1.1 as [e|chain requests items] eqn:E; [done|].
  exists (map sample_response requests). split; [symmetry; apply Permutation_rev|].
  by apply Forall2_fmap_r, Forall_Forall2_diag, Forall_true.
Qed.


Lemma streamed_call_exact_witness : exists items n,
  SendReply never sample_hint sample_body jsonRpcNativeCallAdapter
    (Some (empty_wrapper "up1" "7" (NewHttpUpstreamResponseStream "7" sample_stream JsonRpc))) 0 sample_signer (mkStream [] 0) =
    (None, mkStream items n) /\ text_of items = String.list_ascii_of_string "[1,[2]]".
Proof.
  assert (forall d, d ∈ ["1"%char; "2"%char] -> value_text [d]) as Hd.
  { intros d [-> |[-> |[]%elem_of_nil]%elem_of_cons]%elem_of_cons; apply v_scalar;
      (split; [done|by apply (bool_decide_unpack _); vm_compute]). }
  edestruct (streamed_call_exact sample_hint sample_body sample_signer 0
    (empty_wrapper "up1" "7" (NewHttpUpstreamResponseStream "7" sample_stream JsonRpc)) (mkStream [] 0)
    (mkGenericResponse "7" "" None JsonRpc (Some sample_stream) 0 ∅) sample_stream
    (String.list_ascii_of_string "{result:") (String.list_ascii_of_string "[1,[2]]") (String.list_ascii_of_string ",id:1}")
    (String.list_ascii_of_string sample_stream) []) as (items & n & Hs & Ht & _); cycle -1.
  { exists items, n. split; [exact Hs|exact Ht]. }
  all: try reflexivity.
  - apply (v_array ["1"%char; ","%char; "["%char; "2"%char; "]"%char]).
    apply (e_cons [] ["1"%char] [] ["["%char; "2"%char; "]"%char]); [constructor|apply Hd; set_solver|constructor|].
    apply (e_one [] ["["%char; "2"%char; "]"%char] []); [constructor| |constructor].
    apply (v_array ["2"%char]), (e_one [] ["2"%char] []); [constructor|apply Hd; set_solver|constructor].
  - by exists ","%char, (String.list_ascii_of_string "id:1}").
  - vm_compute. lia.
Defined.

(** ** Items that share an id *)

(** Where two items share an id, the adapter and the nonce of the last one are used
    for both: the signature the first one asks for is silently left out. *)
Lemma shared_id_drops_signature :
  let items := [mkCallItem 7 "eth_call" 5 [] (Some (ItemPayload "[1]")); mkCallItem 7 "eth_call" 0 [] (Some (ItemPayload "[2]"))] in
  let '(requests, known, pre) := buildNativeCallRequests ∅ pretty pretty sample_signer UnknownChain (mkCallRequest 100 items None 0) in
  length requests = 2%nat /\ pre = [] /\ map nonce (map snd (map_to_list known)) = [0].
Proof. vm_compute. split_and!; reflexivity. Qed.
