(* ===== verification/NativeSubscribe.v ===== *)
(** Subscriptions over gRPC ([NativeSubscribe] of
    [internal/server/emerald/grpc_blockchain.go]): the checks and the mapping of the
    method before anything is subscribed to, and the loop that forwards the events and
    keeps an idle stream alive. *)

From S2P Require Import Prelude.
From S2P Require Import GoStrings.
From S2P Require Import Protocol.
From S2P Require Import Errors.
From S2P Require Import Responses.
From S2P Require Import Specs.
From S2P Require Import Methods.
From S2P Require Import GrpcSelectors.
From S2P Require Import ChainState.
From S2P Require Import ChainSupervisor.
From S2P Require Import Chains.
From S2P Require Import GrpcAuth.
From S2P Require Import Quorum.
From S2P Require Import ReplySigning.
From S2P Require Import Requests.
From S2P Require Import NativeCall.

(** [NativeSubscribeRequest] and [NativeSubscribeReplyItem]. *)
Record NativeSubscribeRequest := mkSubscribeRequest {
  sq_Chain : Z;
  sq_Method : string;
  sq_Payload : string;
  sq_Selector : option Selector;
  sq_Nonce : Z;
}.

Record SubscribeReply := mkSubscribeReply {
  sb_Payload : string;
  sb_Signature : option ReplySignature;
  sb_UpstreamId : string;
  sb_Heartbeat : bool;
}.

Definition heartbeat_item : SubscribeReply := mkSubscribeReply "" None "" true.

(** ** The method that is subscribed to *)

(** [errSubscribeMappingNotSupported] or any other error. *)
Inductive MappingError := MappingNotSupported (text : string) | MappingFailed (err : GoError).

Section Mapping.
Context `{GJ : GrpcJson} (reg : Registry).

Definition supportsNativeSubscribeMethod (methodSpecName requestedMethod : string) : bool :=
  IsSubscribeMethod reg methodSpecName requestedMethod.

Definition subscribeMethodSupported (chain : Supervisor) (method : string) : bool :=
  bool_decide (method ∈ cs_SubMethods (sup_state chain)).

Definition normalizeNativeSubscribePayload (requestedMethod payload : string) : MappingError + string * string :=
  if bool_decide (payload = "") then inr (requestedMethod, "[]")
  else if negb (json_Valid payload) then inl (MappingFailed (OtherError "invalid subscribe payload format"))
  else inr (requestedMethod, payload).

Definition supportsEthSubscribeFallback (methodSpecName : string) (chain : option Supervisor) : bool :=
  IsSubscribeMethod reg methodSpecName "eth_subscribe" ||
  match chain with Some b => bool_decide (is_Some (chain_GetMethodByName b "eth_subscribe")) | None => false end.

Definition mapEthSubscribeParams (requestedMethod payload : string) : GoError + string :=
  let methodRaw := marshal_text requestedMethod in
  if bool_decide (payload = "") || bool_decide (payload = "null") then marshal_raws [methodRaw]
  else if negb (json_Valid payload) then inl (OtherError "invalid subscribe payload format")
  else marshal_raws [methodRaw; payload].

Definition mapToEthSubscribeFallback (requestedMethod payload : string) : MappingError + string * string :=
  match mapEthSubscribeParams requestedMethod payload with
  | inl err => inl (MappingFailed err)
  | inr mappedParams => inr ("eth_subscribe", mappedParams)
  end.

Definition mapNativeSubscribeMethod (methodSpecName : string) (chain : option Supervisor) (requestedMethod payload : string)
    : MappingError + string * string :=
  if supportsNativeSubscribeMethod methodSpecName requestedMethod then normalizeNativeSubscribePayload requestedMethod payload
  else if negb (supportsEthSubscribeFallback methodSpecName chain)
  then inl (MappingNotSupported ("unsupported subscribe method mapping: subscribe " +:+ requestedMethod +:+
         " is not supported for chain spec " +:+ methodSpecName))
  else mapToEthSubscribeFallback requestedMethod payload.
End Mapping.

Definition mapNativeSubscribeError (responseError : option ResponseError) : GrpcStatus :=
  match responseError with
  | None => mkStatus Internal "internal server error"
  | Some e =>
    let code := Errors.Code e in
    if bool_decide (code = NoAvailableUpstreams) || bool_decide (code = WrongChain) then mkStatus Unavailable (Message e)
    else if bool_decide (code = NoSupportedMethod) then mkStatus Unimplemented (Message e)
    else if bool_decide (code = AuthErrorCode) then mkStatus Unauthenticated (Message e)
    else if Contains (ToLower (Message e)) "subscription request" && Contains (ToLower (Message e)) "unable to process"
    then mkStatus Unimplemented (Message e)
    else mkStatus Internal (Message e)
  end.

(** ** Before the subscription *)

Section Start.
Context `{MR : MapRange} `{SG : Signing} `{GJ : GrpcJson}.
Context (chain_reg : ChainRegistry) (reg : Registry) (tag_name bound_name : Z -> string).

(** The chains that have a supervisor, [None] without an upstream supervisor. *)
Abbreviation Supervisors := (option (gmap Z Supervisor)).

(** [resolveChain], with the supervisor itself. *)
Definition resolve (supervisors : Supervisors) (chainRef : Z) : option (ConfiguredChain * option Supervisor) :=
  match resolveChain chain_reg (dom <$> supervisors) chainRef with
  | None => None
  | Some (c, _) => Some (c, supervisors ≫= (fun m => m !! cc_Chain c))
  end.

(** The request that is executed, on the chain. *)
Definition NativeSubscribe_start (auth : option grpcSessionAuth) (now : Z) (md : option (list string)) (signer : ResponseSigner)
    (supervisors : Supervisors) (request : option NativeSubscribeRequest) (store : grpcSessionStore)
    : (GrpcStatus + Z * RequestHolder) * grpcSessionStore :=
  let '(denied, store) := requireSession auth now md store in
  (match denied with
   | Some status => inl status
   | None =>
     match request with
     | None => inl (mkStatus Internal "request is nil")
     | Some request =>
       if negb (bool_decide (is_Some supervisors)) then inl (mkStatus Unavailable "upstream supervisor is not configured")
       else match resolve supervisors (sq_Chain request) with
       | None => inl (mkStatus Unavailable ("chain " +:+ pretty (sq_Chain request) +:+ " is not supported"))
       | Some (_, None) => inl (mkStatus Unavailable (Message NoAvailableUpstreamsError))
       | Some (configuredChain, Some chainSupervisor) =>
         if negb (subscribeMethodSupported chainSupervisor (sq_Method request))
         then inl (mkStatus Unimplemented ("subscribe " +:+ sq_Method request +:+ " is not supported for chain " +:+
                pretty (sq_Chain request)))
         else match mapNativeSubscribeMethod reg (cc_MethodSpec configuredChain) (Some chainSupervisor) (sq_Method request)
                      (sq_Payload request) with
         | inl (MappingNotSupported text) => inl (mkStatus Unimplemented text)
         | inl (MappingFailed err) => inl (mkStatus Internal (error_text err))
         | inr (mappedMethod, mappedPayload) =>
           match signingUnavailable (sq_Nonce request) signer with
           | Some err => inl (mkStatus Internal (SignError_text err))
           | None =>
             inr (cc_Chain configuredChain,
                  NewUpstreamJsonRpcRequest reg "0" "0" mappedMethod mappedPayload true (cc_MethodSpec configuredChain)
                    (mapDshackleSelectors tag_name bound_name [sq_Selector request]))
           end
         end
       end
     end
   end, store).
End Start.

(** ** The loop *)

(** What the loop selects on: the client is gone, the responses are closed, a response
    at a time, a tick of the ticker at a time. *)
Inductive SubEvent :=
| ClientGone
| ResponsesClosed
| GotResponse (w : option ResponseHolderWrapper) (now : Z)
| Ticked (now : Z).

(** How the call ended. *)
Inductive SubEnd := SubOk | SubStatus (s : GrpcStatus) | SubSend (err : GoError).

Record SubState := mkSubState { sb_sent : list SubscribeReply; sb_attempts : nat; lastSent : Z }.

Section Loop.
Context `{SG : Signing}.
Context (send_error : nat -> option GoError) (interval : Z) (nonce : Z) (signer : ResponseSigner).

Definition sub_Send (now : Z) (item : SubscribeReply) (s : SubState) : option SubEnd * SubState :=
  match send_error (sb_attempts s) with
  | Some err => (Some (SubSend err), mkSubState (sb_sent s) (S (sb_attempts s)) (lastSent s))
  | None => (None, mkSubState (sb_sent s ++ [item]) (S (sb_attempts s)) now)
  end.

Definition nativeSubscribeReplyItem (w : ResponseHolderWrapper) (result : string) : SignError + SubscribeReply :=
  match buildReplySignature signer nonce result (UpstreamId w) with
  | inl err => inl err
  | inr sig => inr (mkSubscribeReply result sig (UpstreamId w) false)
  end.

Definition loop_step (ev : SubEvent) (s : SubState) : option SubEnd * SubState :=
  match ev with
  | ClientGone | ResponsesClosed => (Some SubOk, s)
  | GotResponse None _ => (Some (SubStatus (mkStatus Internal "subscription response is empty")), s)
  | GotResponse (Some w) now =>
    let response := Response w in
    if HasError response then (Some (SubStatus (mapNativeSubscribeError (GetError response))), s)
    else match IsEventFrame response with
    | None => (Some (SubStatus (mkStatus Internal "unexpected subscription response type")), s)
    | Some false => (None, s)
    | Some true =>
      match nativeSubscribeReplyItem w (ResponseResult response) with
      | inl _ => (Some (SubStatus (mkStatus Internal "unable to sign a subscription event")), s)
      | inr item => sub_Send now item s
      end
    end
  | Ticked now =>
    if interval <=? now - lastSent s then sub_Send now heartbeat_item s else (None, s)
  end.

(** Until the call ends or there are no more events. *)
Fixpoint sub_loop (l : list SubEvent) (s : SubState) : option SubEnd * SubState :=
  match l with
  | [] => (None, s)
  | ev :: l => match loop_step ev s with (Some e, s) => (Some e, s) | (None, s) => sub_loop l s end
  end.
End Loop.

(** ** What is subscribed to *)

Section Starts.
Context `{MR : MapRange} `{SG : Signing} `{GJ : GrpcJson}.
Context (chain_reg : ChainRegistry) (reg : Registry) (tag_name bound_name : Z -> string).

(** The method and the parameters a subscription is mapped to: the method of the spec
    with its own parameters, or the type of an [eth_subscribe]. *)
Definition mapped_to (specName method payload mappedMethod mappedPayload : string) : Prop :=
  (IsSubscribeMethod reg specName method = true /\ mappedMethod = method /\
     ((payload = "" /\ mappedPayload = "[]") \/ (payload <> "" /\ json_Valid payload = true /\ mappedPayload = payload))) \/
  (IsSubscribeMethod reg specName method = false /\ mappedMethod = "eth_subscribe" /\
     (((payload = "" \/ payload = "null") /\ marshal_raws [marshal_text method] = inr mappedPayload) \/
      (payload <> "" /\ payload <> "null" /\ json_Valid payload = true /\
       marshal_raws [marshal_text method; payload] = inr mappedPayload))).

Lemma mapNativeSubscribeMethod_spec specName chain method payload m p :
  mapNativeSubscribeMethod reg specName chain method payload = inr (m, p) ->
  mapped_to specName method payload m p /\
  (IsSubscribeMethod reg specName method = true \/ supportsEthSubscribeFallback reg specName chain = true).
Proof using Type.
  unfold mapNativeSubscribeMethod, supportsNativeSubscribeMethod, mapped_to. destruct (IsSubscribeMethod reg specName method).
  - unfold normalizeNativeSubscribePayload. case_bool_decide; [intros [= <- <-]; naive_solver|].
    destruct (json_Valid payload) eqn:Ej; intros [= <- <-]. naive_solver.
  - destruct (supportsEthSubscribeFallback _ _ _); [|done]. cbn [negb]. unfold mapToEthSubscribeFallback, mapEthSubscribeParams.
    destruct (bool_decide (payload = "") || bool_decide (payload = "null")) eqn:Ee.
    + destruct (marshal_raws _) as [|ps] eqn:Em; intros [= <- <-]. apply orb_true_iff in Ee. rewrite !bool_decide_eq_true in Ee.
      naive_solver.
    + destruct (json_Valid payload) eqn:Ej; [|done]. destruct (marshal_raws _) as [|ps] eqn:Em; intros [= <- <-].
      apply orb_false_iff in Ee. rewrite !bool_decide_eq_false in Ee. naive_solver.
Qed.

(** A subscription goes out only for a call that is let in, to a chain that has a
    supervisor and offers the method, with a signer when one is needed. *)
Lemma subscription_goes_out auth now md signer supervisors request store chain r store' :
  NativeSubscribe_start chain_reg reg tag_name bound_name auth now md signer supervisors (Some request) store =
    (inr (chain, r), store') ->
  exists c b m p, requireSession auth now md store = (None, store') /\ GetChainByGrpcId chain_reg (sq_Chain request) = c /\
    chain = cc_Chain c /\ supervisors ≫= (fun s => s !! chain) = Some b /\ sq_Method request ∈ cs_SubMethods (sup_state b) /\
    signingUnavailable (sq_Nonce request) signer = None /\ mapped_to (cc_MethodSpec c) (sq_Method request) (sq_Payload request) m p /\
    r = NewUpstreamJsonRpcRequest reg "0" "0" m p true (cc_MethodSpec c) (mapDshackleSelectors tag_name bound_name [sq_Selector request]).
Proof using Type.
  unfold NativeSubscribe_start. destruct (requireSession auth now md store) as [[status|] store1]; [done|].
  destruct (bool_decide (is_Some supervisors)); [|done]. cbn [negb]. unfold resolve, resolveChain.
  destruct (cc_Chain (GetChainByGrpcId chain_reg (sq_Chain request)) <? 0); [done|].
  destruct (supervisors ≫= _) as [b|] eqn:Eb; [|done]. unfold subscribeMethodSupported.
  case_bool_decide as Em; [|done]. cbn [negb].
  destruct (mapNativeSubscribeMethod _ _ _ _ _) as [[text|err]|[m p]] eqn:Ep; [done..|].
  destruct (signingUnavailable _ _) eqn:Es; [done|]. intros [= <- <- <-].
  apply mapNativeSubscribeMethod_spec in Ep as [Ep _]. by eexists _, b, m, p.
Qed.
End Starts.

(** ** What the client of a subscription is sent *)

Section Forwards.
Context `{SG : Signing}.
Context (interval nonce : Z) (signer : ResponseSigner).

(** The event a response carries. *)
Definition event_of (ev : SubEvent) : option ResponseHolderWrapper :=
  match ev with
  | GotResponse (Some w) _ => if bool_decide (HasError (Response w) = false /\ IsEventFrame (Response w) = Some true) then Some w else None
  | _ => None
  end.

(** The reply to an event: its own bytes and upstream, signed for the nonce of the
    subscription when there is one. *)
Definition forwards (w : ResponseHolderWrapper) (r : SubscribeReply) : Prop :=
  sb_Heartbeat r = false /\ sb_Payload r = ResponseResult (Response w) /\ sb_UpstreamId r = UpstreamId w /\
  match sb_Signature r with
  | None => nonce = 0
  | Some s => nonce <> 0 /\ rs_Nonce s = nonce /\ rs_UpstreamId s = UpstreamId w /\ signed_by signer (sb_Payload r) s
  end.

Definition is_event (r : SubscribeReply) : bool := negb (sb_Heartbeat r).

(** What ends a call: the client or the flow, an error, a frame that is neither an
    event nor an acknowledgement, or an event that cannot be signed. *)
Definition ending (ev : SubEvent) : bool :=
  match ev with
  | ClientGone | ResponsesClosed | GotResponse None _ => true
  | GotResponse (Some w) _ =>
    HasError (Response w) ||
    match IsEventFrame (Response w) with
    | None => true
    | Some false => false
    | Some true =>
      match buildReplySignature signer nonce (ResponseResult (Response w)) (UpstreamId w) with inl _ => true | inr _ => false end
    end
  | Ticked _ => false
  end.

(** The events before the one that ends the call. *)
Fixpoint handled (l : list SubEvent) : list SubEvent :=
  match l with
  | [] => []
  | ev :: l => if ending ev then [] else ev :: handled l
  end.

(** What is to be sent, and when: every event when it comes, and a heartbeat ([true])
    at every tick that finds that nothing was sent for the interval. *)
Fixpoint schedule (last : Z) (l : list SubEvent) : list (Z * bool) :=
  match l with
  | [] => []
  | GotResponse w now :: l =>
    match event_of (GotResponse w now) with Some _ => (now, false) :: schedule now l | None => schedule last l end
  | Ticked now :: l => if interval <=? now - last then (now, true) :: schedule now l else schedule last l
  | _ :: l => schedule last l
  end.

Lemma loop_step_spec ev s e s' : loop_step (fun _ => None) interval nonce signer ev s = (e, s') ->
  if ending ev then is_Some e /\ s' = s
  else e = None /\
    match ev with
    | GotResponse _ now =>
      (event_of ev = None /\ s' = s) \/
      (exists w r, event_of ev = Some w /\ forwards w r /\ s' = mkSubState (sb_sent s ++ [r]) (S (sb_attempts s)) now)
    | Ticked now =>
      s' = if interval <=? now - lastSent s then mkSubState (sb_sent s ++ [heartbeat_item]) (S (sb_attempts s)) now else s
    | _ => False
    end.
Proof using Type.
  destruct ev as [| |[w|] now|now]; cbn [loop_step event_of ending]; try by intros [= <- <-].
  - destruct (HasError (Response w)) eqn:Ee; [by intros [= <- <-]|]. cbn [orb].
    destruct (IsEventFrame (Response w)) as [[]|] eqn:Ef; [| |by intros [= <- <-]].
    + unfold nativeSubscribeReplyItem. destruct (buildReplySignature _ _ _ _) as [err|sig] eqn:Es; [by intros [= <- <-]|].
      intros [= <- <-]. split; [done|]. right. exists w. eexists. split; [by rewrite bool_decide_eq_true_2|]. split; [|done].
      unfold forwards. split_and!; [done..|]. cbn. apply buildReplySignature_spec in Es. destruct sig; [|done]. naive_solver.
    + intros [= <- <-]. split; [done|]. left. split; [|done]. rewrite bool_decide_eq_false_2; [done|]. naive_solver.
  - destruct (interval <=? now - lastSent s) eqn:Ei; by intros [= <- <-].
Qed.

Lemma sub_loop_spec l s e s' : sub_loop (fun _ => None) interval nonce signer l s = (e, s') ->
  (e = None <-> handled l = l) /\
  exists new, sb_sent s' = sb_sent s ++ new /\
    Forall2 forwards (omap event_of (handled l)) (base.filter (fun r => is_event r = true) new) /\
    Forall (fun r => r = heartbeat_item) (base.filter (fun r => is_event r <> true) new) /\
    map sb_Heartbeat new = map snd (schedule (lastSent s) (handled l)).
Proof using Type.
  revert s. induction l as [|ev l IH]; intros s; cbn [sub_loop handled].
  { intros [= <- <-]. split; [done|]. exists []. rewrite app_nil_r. by repeat constructor. }
  destruct (loop_step _ _ _ _ ev s) as [e0 s1] eqn:E. apply loop_step_spec in E.
  destruct (ending ev) eqn:Een.
  { destruct E as [[e1 ->] ->]. intros [= <- <-]. split; [done|]. exists []. rewrite app_nil_r. by repeat constructor. }
  destruct E as [-> E]. intros Hl. destruct (IH s1 Hl) as (Hend & new & Hs & Hf & Hh & Ht).
  split; [rewrite Hend; split; [by intros ->|by intros [= ->]]|]. clear Hend IH.
  destruct ev as [| |w now|now]; [done..| |].
  - change (omap event_of (GotResponse w now :: ?t)) with
      (match event_of (GotResponse w now) with Some y => y :: omap event_of t | None => omap event_of t end).
    cbn [schedule]. destruct E as [[Eo ->]|(w' & r & Eo & Hr & ->)]; rewrite Eo; [by exists new|].
    cbn [sb_sent lastSent] in *. exists (r :: new). rewrite <- app_assoc in Hs. split; [exact Hs|]. destruct Hr as [Hb Hr].
    assert (is_event r = true) as Hev by (unfold is_event; by rewrite Hb).
    rewrite filter_cons_True, filter_cons_False by (done || by intros []).
    split; [by constructor|]. split; [done|]. cbn. by rewrite Hb, Ht.
  - cbn [schedule]. subst s1. destruct (interval <=? now - lastSent s); [|by exists new].
    cbn [sb_sent lastSent] in *. exists (heartbeat_item :: new).
    rewrite <- app_assoc in Hs. split; [exact Hs|]. rewrite filter_cons_False, filter_cons_True by done.
    split; [done|]. split; [by constructor|]. cbn. by rewrite Ht.
Qed.
End Forwards.

(** C33. A subscription over gRPC goes out only for a call whose session is admitted,
    to a chain that offers the method, as the spec's own method or as an
    [eth_subscribe] to that type.  The client is sent every event that comes before the
    call ends, in order, byte for byte and signed for its nonce exactly when it has
    one; beyond that it is sent heartbeats: one at every tick that finds that nothing
    was sent for the interval, and no others.  The call ends only when the client goes,
    the responses are closed or one of them is an error, is no frame of a subscription,
    or cannot be signed. *)
Theorem subscription_delivered `{MapRange} `{Signing} `{GrpcJson} chain_reg reg tag_name bound_name interval auth now md signer
    supervisors request store chain r store' l e s :
  NativeSubscribe_start chain_reg reg tag_name bound_name auth now md signer supervisors (Some request) store =
    (inr (chain, r), store') ->
  sub_loop (fun _ => None) interval (sq_Nonce request) signer l (mkSubState [] 0 now) = (e, s) ->
  requireSession auth now md store = (None, store') /\
  (exists c b m p, cc_Chain c = chain /\ supervisors ≫= (fun s => s !! chain) = Some b /\
     sq_Method request ∈ cs_SubMethods (sup_state b) /\
     mapped_to reg (cc_MethodSpec c) (sq_Method request) (sq_Payload request) m p /\
     request_Method r = m /\ request_IsSubscribe r = true) /\
  Forall2 (forwards (sq_Nonce request) signer) (omap event_of (handled (sq_Nonce request) signer l))
    (base.filter (fun x => is_event x = true) (sb_sent s)) /\
  Forall (fun x => x = heartbeat_item) (base.filter (fun x => is_event x <> true) (sb_sent s)) /\
  map sb_Heartbeat (sb_sent s) = map snd (schedule interval now (handled (sq_Nonce request) signer l)) /\
  (e = None <-> handled (sq_Nonce request) signer l = l).
Proof.
  intros Hs Hl. apply subscription_goes_out in Hs as (c & b & m & p & Hreq & _ & -> & Hb & Hm & _ & Hmap & ->).
  apply sub_loop_spec in Hl as (He & new & Hnew & Hf & Hh & Ht). simpl in Hnew. subst new.
  split; [done|]. split; [by exists c, b, m, p|]. done.
Qed.

(** Every tick finds that something was sent within the interval, or sends a
    heartbeat: the ticker of the loop has the period of the interval, so a client
    hears at least every two intervals. *)
Lemma tick_keeps_alive `{Signing} interval nonce signer now s e s' : 0 < interval ->
  loop_step (fun _ => None) interval nonce signer (Ticked now) s = (e, s') -> e = None /\ now - lastSent s' < interval.
Proof.
  intros Hi. unfold loop_step, sub_Send. destruct (interval <=? _) eqn:E; intros [= <- <-]; reflect_bool; split; [done| |done|done].
  simpl. lia.
Qed.

(** ** A subscription *)

#[local] Instance sample_grpc_json : GrpcJson := {
  json_Valid s := bool_decide (s <> "?"); marshal_text s := s; marshal_raws l := inr (foldr String.append "" l) }.
#[local] Existing Instance Prelude.default_range.
#[local] Existing Instance Quorum.demo_crypto.

#[local] Instance sample_signing : Signing := {
  PrivateKey := string; PublicKeyOf key := key; rsa_SignPKCS1v15 key digest := inr (key +:+ digest);
  MarshalPKIXPublicKey key := inr key; loadRSAPrivateKeyFromFile path := inr path }.

(** The events of a subscription, with a nonce, that is idle for a while. *)
Definition sample_supervisor : Supervisor :=
  set_state (mkChainState Available (NewChainHeadData ZeroBlock "") (NewChainMethods []) ∅ ∅ [] {["sub"]} ∅)
    NewGenericChainSupervisor.

Definition sample_subscribe : NativeSubscribeRequest := mkSubscribeRequest 100 "sub" "" None 5.

Definition sample_event (event : string) : option ResponseHolderWrapper :=
  Some (mkWrapper "up1" "0" "" None ZeroBlock (SubscriptionResultResponse "0" event)).

Definition sample_events : list SubEvent :=
  [GotResponse (Some (mkWrapper "up1" "0" "" None ZeroBlock (SubscriptionMessageResponse "0" "1"))) 1; GotResponse (sample_event "e1") 10;
   Ticked 30; Ticked 60; GotResponse (sample_event "e2") 70; ClientGone; GotResponse (sample_event "e3") 80].

Definition sample_signer : ResponseSigner := rsaSigner ("k" : PrivateKey) 1.

Definition sample_subscribed : (GrpcStatus + Z * RequestHolder) * grpcSessionStore :=
  NativeSubscribe_start sample_chains Specs.demo_registry pretty pretty None 0 None sample_signer (Some {[ 1 := sample_supervisor ]})
    (Some sample_subscribe) (newGrpcSessionStore 0).

Definition sample_looped : option SubEnd * SubState :=
  sub_loop (fun _ => None) 30 5 sample_signer sample_events (mkSubState [] 0 0).

Example sample_looped_facts :
  map (fun x => (sb_Payload x, sb_Heartbeat x)) (sb_sent sample_looped.2) = [("e1", false); ("", true); ("e2", false)] /\
  sample_looped.1 = Some SubOk.
Proof. vm_compute. split; reflexivity. Qed.

Lemma subscription_delivered_witness : exists chain r, sample_subscribed.1 = inr (chain, r) /\ request_IsSubscribe r = true /\
  Forall (fun x => x = heartbeat_item) (base.filter (fun x => is_event x <> true) (sb_sent sample_looped.2)) /\
  schedule 30 0 (handled 5 sample_signer sample_events) = [(10, false); (60, true); (70, false)] /\
  map sb_Heartbeat (sb_sent sample_looped.2) = [false; true; false].
Proof.
  assert (exists p, sample_subscribed = (inr p, newGrpcSessionStore 0)) as [[chain r] E] by (eexists; vm_compute; reflexivity).
  exists chain, r. split; [by rewrite E|]. unfold sample_subscribed in E.
  destruct (subscription_delivered sample_chains Specs.demo_registry pretty pretty 30 None 0 None sample_signer
    (Some {[ 1 := sample_supervisor ]}) sample_subscribe (newGrpcSessionStore 0) chain r (newGrpcSessionStore 0) sample_events
    sample_looped.1 sample_looped.2 E (surjective_pairing _)) as (_ & (c & b & m & p & _ & _ & _ & _ & _ & Hs) & _ & Hh & Ht & _).
  split; [exact Hs|]. split; [exact Hh|]. split; [vm_compute; reflexivity|]. rewrite Ht. vm_compute. reflexivity.
Defined.
