(* ===== verification/StatsService.v ===== *)
(** The statistics of requests ([internal/stats/generic_stats_service.go],
    [statsdata/data.go], [internal/protocol/request_results.go]): the key a result is
    counted under, the lock-free counting while the counts are flushed, and the outbox
    that keeps what could not be handed over.

    JSON, gzip and SHA-256 are libraries ([StatsLib]); the integration that takes the
    counts and the outbox are arguments. *)

From S2P Require Import Prelude.
From S2P Require Import GoStrings.
From S2P Require Import Responses.
From S2P Require Import GrpcAuth.
From Stdlib Require Import Ascii.

(** ** Results and keys *)

Inductive RequestKind := UnknownReqKind | InternalUnary | InternalSubscription | Local | Cached | Unary | Subscription.

#[export] Instance RequestKind_eq_dec : EqDecision RequestKind.
Proof. solve_decision. Defined.

Definition RequestKind_code (r : RequestKind) : Z :=
  match r with
  | UnknownReqKind => 0 | InternalUnary => 1 | InternalSubscription => 2 | Local => 3 | Cached => 4 | Unary => 5 | Subscription => 6
  end.

Definition ResponseKind_code (r : ResponseKind) : Z :=
  match r with
  | UnknownRespKind => 0 | RespOk => 1 | Cancelled => 2 | RespError' => 3 | RetryableError => 4 | RoutingError => 5
  end.

(** [timestamp] in nanoseconds since the epoch. *)
Record UnaryRequestResult := mkUnaryResult {
  ur_upstreamId : string;
  ur_reqKind : RequestKind;
  ur_respKind : ResponseKind;
  ur_apiKey : string;
  ur_chain : Z;
  ur_method : string;
  ur_timestamp : Z;
}.

(** A key by its members, the kinds as their numbers. *)
Record StatsKey := mkStatsKey {
  sk_UpstreamId : string;
  sk_ReqKind : Z;
  sk_RespKind : Z;
  sk_ApiKey : string;
  sk_Chain : Z;
  sk_Method : string;
  sk_Timestamp : Z;
}.

#[export] Instance StatsKey_eq_dec : EqDecision StatsKey.
Proof. solve_decision. Defined.
#[export] Instance StatsKey_countable : Countable StatsKey.
Proof.
  apply (inj_countable'
    (fun k => (sk_UpstreamId k, sk_ReqKind k, sk_RespKind k, sk_ApiKey k, sk_Chain k, sk_Method k, sk_Timestamp k))
    (fun '(a, b, c, d, e, f, g) => mkStatsKey a b c d e f g)). by intros [].
Defined.

Inductive StatsDims := DimUpstreamId | DimReqKind | DimRespKind | DimApiKey | DimChain | DimMethod.

Definition five_minutes : Z := 300 * second.

(** [t.Truncate(5 * time.Minute).Unix()]: Go truncates since the year 1. *)
Definition truncated_unix (t : Z) : Z := (t - (t + unixToInternal * second) `mod` five_minutes) / second.

Definition set_dim (r : UnaryRequestResult) (k : StatsKey) (dim : StatsDims) : StatsKey :=
  match dim with
  | DimMethod => mkStatsKey (sk_UpstreamId k) (sk_ReqKind k) (sk_RespKind k) (sk_ApiKey k) (sk_Chain k) (ur_method r) (sk_Timestamp k)
  | DimUpstreamId => mkStatsKey (ur_upstreamId r) (sk_ReqKind k) (sk_RespKind k) (sk_ApiKey k) (sk_Chain k) (sk_Method k) (sk_Timestamp k)
  | DimReqKind => mkStatsKey (sk_UpstreamId k) (RequestKind_code (ur_reqKind r)) (sk_RespKind k) (sk_ApiKey k) (sk_Chain k) (sk_Method k) (sk_Timestamp k)
  | DimRespKind => mkStatsKey (sk_UpstreamId k) (sk_ReqKind k) (ResponseKind_code (ur_respKind r)) (sk_ApiKey k) (sk_Chain k) (sk_Method k) (sk_Timestamp k)
  | DimApiKey => mkStatsKey (sk_UpstreamId k) (sk_ReqKind k) (sk_RespKind k) (ur_apiKey r) (sk_Chain k) (sk_Method k) (sk_Timestamp k)
  | DimChain => mkStatsKey (sk_UpstreamId k) (sk_ReqKind k) (sk_RespKind k) (sk_ApiKey k) (ur_chain r) (sk_Method k) (sk_Timestamp k)
  end.

Definition extractUnaryRequestKey (schema : list StatsDims) (r : UnaryRequestResult) : StatsKey :=
  foldl (set_dim r) (mkStatsKey "" 0 0 "" 0 "" (truncated_unix (ur_timestamp r))) schema.

(** [LocalIntegration.GetStatsSchema] and [DrpcIntegrationClient.GetStatsSchema]. *)
Definition local_schema : list StatsDims := [DimChain; DimUpstreamId; DimMethod; DimReqKind; DimRespKind].
Definition drpc_schema : list StatsDims := [DimChain; DimUpstreamId; DimMethod; DimReqKind; DimRespKind; DimApiKey].

(** ** Counting while flushing *)

Abbreviation Stats := (gmap StatsKey Z).

(** [AddRequest] on the data of a key, an [atomic.Int64]. *)
Definition AddRequest (amount : Z) : Z := i64 (amount + 1).

(** [statsDataHolder] *)
Record Holder := mkHolder { counter : Z; closed : bool; aggregated : Stats }.

Definition newStatsDataHolder : Holder := mkHolder 0 false ∅.

(** Where [AddRequestResults] is in its loop, with the holder it has loaded. *)
Inductive AddPc :=
| AtLoad
| AtClosed (h : nat)
| AtCount (h : nat)
| AtRecheck (h : nat)
| AtUndo (h : nat)
| AtStore (h : nat)
| AtAdd (h : nat)
| AtLeave (h : nat).

(** Where [flush] is. *)
Inductive FlushPc := FlushIdle | FlushClose (h : nat) | FlushWait (h : nat) | FlushHand (h : nat).

(** The holders are numbered in the order they are made; [current] is what
    [statsDataHolder] points to.  Of the calls that count, a number, the key of the
    result and the place in the loop.  [handed] is what [ProcessStatsData] was given.
    [log] and [finished] only record: the holder and key of every addition, and the
    keys of the results whose loop was left. *)
Record StatsSystem := mkStatsSystem {
  holders : gmap nat Holder;
  current : nat;
  calls : gmap nat (StatsKey * AddPc);
  flushing : FlushPc;
  handed : gmap nat Stats;
  log : list (nat * StatsKey);
  finished : list StatsKey;
}.

Definition new_stats_system : StatsSystem := mkStatsSystem {[ 0%nat := newStatsDataHolder ]} 0 ∅ FlushIdle ∅ [] [].

Definition holder (y : StatsSystem) (h : nat) : Holder := default newStatsDataHolder (holders y !! h).

Definition set_holder (h : nat) (x : Holder) (y : StatsSystem) : StatsSystem :=
  mkStatsSystem (<[h := x]> (holders y)) (current y) (calls y) (flushing y) (handed y) (log y) (finished y).
Definition set_call (i : nat) (c : StatsKey * AddPc) (y : StatsSystem) : StatsSystem :=
  mkStatsSystem (holders y) (current y) (<[i := c]> (calls y)) (flushing y) (handed y) (log y) (finished y).
Definition set_flushing (f : FlushPc) (y : StatsSystem) : StatsSystem :=
  mkStatsSystem (holders y) (current y) (calls y) f (handed y) (log y) (finished y).
Definition count_by (d : Z) (h : nat) (y : StatsSystem) : StatsSystem :=
  let x := holder y h in set_holder h (mkHolder (counter x + d) (closed x) (aggregated x)) y.
Definition set_aggregated (h : nat) (m : Stats) (y : StatsSystem) : StatsSystem :=
  let x := holder y h in set_holder h (mkHolder (counter x) (closed x) m) y.

(** One atomic operation of the call [i], on the result with the key [k]. *)
Definition call_step (i : nat) (k : StatsKey) (pc : AddPc) (y : StatsSystem) : StatsSystem :=
  match pc with
  | AtLoad => set_call i (k, AtClosed (current y)) y
  | AtClosed h => set_call i (k, if closed (holder y h) then AtLoad else AtCount h) y
  | AtCount h => set_call i (k, AtRecheck h) (count_by 1 h y)
  | AtRecheck h => set_call i (k, if decide (current y = h) then AtStore h else AtUndo h) y
  | AtUndo h => set_call i (k, AtLoad) (count_by (-1) h y)
  | AtStore h =>
    let m := aggregated (holder y h) in
    set_call i (k, AtAdd h) (set_aggregated h (<[k := default 0 (m !! k)]> m) y)
  | AtAdd h =>
    let m := aggregated (holder y h) in
    let y := set_aggregated h (<[k := AddRequest (default 0 (m !! k))]> m) y in
    set_call i (k, AtLeave h)
      (mkStatsSystem (holders y) (current y) (calls y) (flushing y) (handed y) (log y ++ [(h, k)]) (finished y))
  | AtLeave h =>
    let y := count_by (-1) h y in
    mkStatsSystem (holders y) (current y) (delete i (calls y)) (flushing y) (handed y) (log y) (finished y ++ [k])
  end.

(** One atomic operation of [flush]; waiting for the counter changes nothing. *)
Definition flush_step (y : StatsSystem) : StatsSystem :=
  match flushing y with
  | FlushIdle =>
    let fresh := S (current y) in
    mkStatsSystem (<[fresh := newStatsDataHolder]> (holders y)) fresh (calls y) (FlushClose (current y)) (handed y) (log y)
      (finished y)
  | FlushClose h =>
    let x := holder y h in set_flushing (FlushWait h) (set_holder h (mkHolder (counter x) true (aggregated x)) y)
  | FlushWait h => if counter (holder y h) =? 0 then set_flushing (FlushHand h) y else y
  | FlushHand h =>
    mkStatsSystem (holders y) (current y) (calls y) FlushIdle (<[h := aggregated (holder y h)]> (handed y)) (log y) (finished y)
  end.

(** A call whose context has ended quits where its loop begins. *)
Inductive stats_action := CallStarts (i : nat) (k : StatsKey) | CallMoves (i : nat) | CallQuits (i : nat) | FlushMoves.

Definition remove_call (i : nat) (y : StatsSystem) : StatsSystem :=
  mkStatsSystem (holders y) (current y) (delete i (calls y)) (flushing y) (handed y) (log y) (finished y).

Definition stats_step (a : stats_action) (y : StatsSystem) : option StatsSystem :=
  match a with
  | CallStarts i k => match calls y !! i with None => Some (set_call i (k, AtLoad) y) | Some _ => None end
  | CallMoves i => match calls y !! i with Some (k, pc) => Some (call_step i k pc y) | None => None end
  | CallQuits i => match calls y !! i with Some (_, AtLoad) => Some (remove_call i y) | _ => None end
  | FlushMoves => Some (flush_step y)
  end.

Fixpoint stats_steps (l : list stats_action) (y : StatsSystem) : option StatsSystem :=
  match l with [] => Some y | a :: l => y ← stats_step a y; stats_steps l y end.

(** ** Counting how often *)

Fixpoint occ {A} `{EqDecision A} (x : A) (l : list A) : Z :=
  match l with [] => 0 | y :: l => (if decide (x = y) then 1 else 0) + occ x l end.

Lemma occ_app {A} `{EqDecision A} (x : A) l l' : occ x (l ++ l') = occ x l + occ x l'.
Proof. induction l as [|y l IH]; simpl; [done|]. rewrite IH. lia. Qed.

Lemma occ_nonneg {A} `{EqDecision A} (x : A) l : 0 <= occ x l.
Proof. induction l; simpl; [lia|]. case_decide; lia. Qed.

Definition sumZ (l : list Z) : Z := foldr Z.add 0 l.

Lemma sumZ_app l l' : sumZ (l ++ l') = sumZ l + sumZ l'.
Proof. induction l as [|x l IH]; simpl; [done|]. rewrite IH. lia. Qed.

Lemma sumZ_perm l l' : l ≡ₚ l' -> sumZ l = sumZ l'.
Proof. induction 1; simpl; lia. Qed.

(** The sum of a number over the calls. *)
Definition tally (f : StatsKey * AddPc -> Z) (m : gmap nat (StatsKey * AddPc)) : Z :=
  sumZ (map (fun ic => f ic.2) (map_to_list m)).

Lemma tally_new f m i c : m !! i = None -> tally f (<[i := c]> m) = f c + tally f m.
Proof.
  intros Hi. unfold tally.
  rewrite (sumZ_perm _ (map (fun ic => f ic.2) ((i, c) :: map_to_list m))); [done|].
  apply Permutation_map. by apply map_to_list_insert.
Qed.

Lemma tally_remove f m i c : m !! i = Some c -> tally f (delete i m) = tally f m - f c.
Proof.
  intros Hi. rewrite <- (insert_delete_id m i c Hi) at 2. rewrite tally_new by apply lookup_delete_eq. lia.
Qed.

Lemma tally_move f m i c c' : m !! i = Some c -> tally f (<[i := c']> m) = tally f m - f c + f c'.
Proof.
  intros Hi. rewrite <- insert_delete_eq. rewrite tally_new by apply lookup_delete_eq.
  rewrite (tally_remove _ _ _ _ Hi). lia.
Qed.

Lemma tally_pos f m : (forall c, 0 <= f c) -> 0 <= tally f m.
Proof. intros Hf. unfold tally. induction (map_to_list m) as [|ic l IH]; simpl; [lia|]. specialize (Hf ic.2). lia. Qed.

Lemma tally_zero f m i c : (forall c, 0 <= f c) -> tally f m = 0 -> m !! i = Some c -> f c = 0.
Proof.
  intros Hf H0 Hi. pose proof (tally_remove f m i c Hi) as Hr. pose proof (tally_pos f (delete i m) Hf).
  specialize (Hf c). lia.
Qed.

Lemma tally_some f m : tally f m <> 0 -> exists i c, m !! i = Some c /\ f c <> 0.
Proof.
  intros Hne. destruct (decide (Exists (fun ic : nat * (StatsKey * AddPc) => f ic.2 <> 0) (map_to_list m))) as [He|He].
  - apply Exists_exists in He as ([i c] & Hin & Hc). apply elem_of_map_to_list in Hin. by exists i, c.
  - destruct Hne. unfold tally. apply not_Exists_Forall in He; [|solve_decision]. induction He as [|ic l Hic Hl IH]; [done|].
    simpl. rewrite IH. destruct (decide (f ic.2 = 0)); [lia|done].
Qed.

(** ** The invariant *)

(** The holder of a place in the loop, and whether the call is counted there and has
    made sure that the holder is still the current one. *)
Definition pc_holder (pc : AddPc) : option nat :=
  match pc with
  | AtLoad => None
  | AtClosed h | AtCount h | AtRecheck h | AtUndo h | AtStore h | AtAdd h | AtLeave h => Some h
  end.
Definition counted_at (h : nat) (pc : AddPc) : Z :=
  match pc with AtRecheck h' | AtUndo h' | AtStore h' | AtAdd h' | AtLeave h' => if decide (h = h') then 1 else 0 | _ => 0 end.
Definition sure (pc : AddPc) : option nat := match pc with AtStore h | AtAdd h | AtLeave h => Some h | _ => None end.

Definition flush_holder (f : FlushPc) : option nat :=
  match f with FlushIdle => None | FlushClose h | FlushWait h | FlushHand h => Some h end.

(** Results that were added and whose loop is about to be left. *)
Definition leaving (k : StatsKey) (c : StatsKey * AddPc) : Z :=
  match c.2 with AtLeave _ => if decide (k = c.1) then 1 else 0 | _ => 0 end.

Record stats_inv (y : StatsSystem) : Prop := mkStatsInv {
  si_counter : forall h, counter (holder y h) = tally (fun c => counted_at h c.2) (calls y);
  si_new : forall h, (current y < h)%nat -> holders y !! h = None;
  si_pc : forall i k pc h, calls y !! i = Some (k, pc) -> pc_holder pc = Some h -> (h <= current y)%nat;
  si_sure : forall i k pc h, calls y !! i = Some (k, pc) -> sure pc = Some h -> handed y !! h = None /\ flushing y <> FlushHand h;
  si_data : forall h k, default 0 (aggregated (holder y h) !! k) = i64 (occ (h, k) (log y));
  si_log : forall h k, (h, k) ∈ log y -> (h <= current y)%nat;
  si_handed : forall h d, handed y !! h = Some d -> d = aggregated (holder y h) /\ (h < current y)%nat;
  si_old : forall h, (h < current y)%nat <-> is_Some (handed y !! h) \/ flush_holder (flushing y) = Some h;
  si_once : forall h, flush_holder (flushing y) = Some h -> handed y !! h = None;
  si_finished : forall k, occ k (map snd (log y)) = occ k (finished y) + tally (leaving k) (calls y);
}.

Lemma new_stats_inv : stats_inv new_stats_system.
Proof.
  split; simpl; try done.
  - intros h. unfold holder. cbn. destruct (decide (h = 0%nat)) as [->|Hne]; [by rewrite lookup_singleton_eq|].
    by rewrite lookup_singleton_ne.
  - intros h Hh. apply lookup_singleton_ne. lia.
  - intros h k. unfold holder. cbn. destruct (decide (h = 0%nat)) as [->|Hne]; [by rewrite lookup_singleton_eq|].
    by rewrite lookup_singleton_ne.
  - intros h k []%elem_of_nil.
  - intros h. split; [lia|]. intros [[d Hd]|Hd]; [by rewrite lookup_empty in Hd|done].
Qed.

Lemma holder_set h x y h' : holder (set_holder h x y) h' = if decide (h' = h) then x else holder y h'.
Proof.
  unfold holder, set_holder. cbn. case_decide as E; [subst; by rewrite lookup_insert_eq|by rewrite lookup_insert_ne].
Qed.

Lemma AddRequest_count n : AddRequest (i64 n) = i64 (1 + n).
Proof.
  unfold AddRequest, i64. replace ((n + two63) `mod` two64 - two63 + 1 + two63) with ((n + two63) `mod` two64 + 1) by lia.
  rewrite Z.add_mod_idemp_l by done. do 2 f_equal. lia.
Qed.

Lemma leaving_nonneg k c : 0 <= leaving k c.
Proof. unfold leaving. destruct (c.2); try lia. case_decide; lia. Qed.

Lemma counted_at_nonneg h pc : 0 <= counted_at h pc.
Proof. destruct pc; simpl; try lia; case_decide; lia. Qed.

(** A move of a call that adds nothing and leaves nothing. *)
Lemma inv_move y y' i k pc pc' :
  stats_inv y -> calls y !! i = Some (k, pc) -> calls y' = <[i := (k, pc')]> (calls y) ->
  current y' = current y -> flushing y' = flushing y -> handed y' = handed y -> log y' = log y -> finished y' = finished y ->
  (forall h, counter (holder y' h) = counter (holder y h) + counted_at h pc' - counted_at h pc) ->
  (forall h k, default 0 (aggregated (holder y' h) !! k) = default 0 (aggregated (holder y h) !! k)) ->
  (forall h d, handed y !! h = Some d -> aggregated (holder y' h) = aggregated (holder y h)) ->
  (forall h, (current y < h)%nat -> holders y' !! h = None) ->
  (forall h, pc_holder pc' = Some h -> (h <= current y)%nat) ->
  (forall h, sure pc' = Some h -> handed y !! h = None /\ flushing y <> FlushHand h) ->
  (forall k', leaving k' (k, pc') = leaving k' (k, pc)) -> stats_inv y'.
Proof.
  intros I Hi Hc Hcur Hfl Hh Hlog Hfin Hcnt Hagg Hagg' Hnew Hpc Hsure Hleave.
  split; rewrite ?Hc, ?Hcur, ?Hfl, ?Hh, ?Hlog, ?Hfin.
  - intros h. rewrite (tally_move _ _ _ _ _ Hi), Hcnt, (si_counter y I). simpl. lia.
  - exact Hnew.
  - intros j k' p h Hj Hp. apply lookup_insert_Some in Hj as [[-> [= <- <-]]|[_ Hj]]; [by apply Hpc|]. by eapply si_pc.
  - intros j k' p h Hj Hp. apply lookup_insert_Some in Hj as [[-> [= <- <-]]|[_ Hj]]; [by apply Hsure|]. by eapply si_sure.
  - intros h k'. rewrite Hagg. by apply si_data.
  - intros h k'. by apply si_log.
  - intros h d Hd. rewrite (Hagg' h d Hd). by apply si_handed.
  - by apply si_old.
  - by apply si_once.
  - intros k'. rewrite (tally_move _ _ _ _ _ Hi), Hleave, (si_finished y I). lia.
Qed.

Lemma count_by_holder d h y h' : holder (count_by d h y) h' =
  mkHolder (counter (holder y h') + (if decide (h' = h) then d else 0)) (closed (holder y h')) (aggregated (holder y h')).
Proof.
  unfold count_by. rewrite holder_set. case_decide as E; [by subst|]. rewrite Z.add_0_r. by destruct (holder y h').
Qed.

Lemma count_by_new d h y h' : (h <= current y)%nat -> (forall x, (current y < x)%nat -> holders y !! x = None) ->
  (current y < h')%nat -> holders (count_by d h y) !! h' = None.
Proof. intros Hle Hn Hlt. unfold count_by, set_holder. cbn. rewrite lookup_insert_ne by lia. by apply Hn. Qed.

Lemma holder_set_call i c y h : holder (set_call i c y) h = holder y h.
Proof. done. Qed.

(** The moves that only change the place of the call. *)
Lemma inv_place y i k pc pc' : stats_inv y -> calls y !! i = Some (k, pc) ->
  (forall h, counted_at h pc' = counted_at h pc) -> (forall h, pc_holder pc' = Some h -> (h <= current y)%nat) ->
  (forall h, sure pc' = Some h -> handed y !! h = None /\ flushing y <> FlushHand h) ->
  (forall k', leaving k' (k, pc') = leaving k' (k, pc)) -> stats_inv (set_call i (k, pc') y).
Proof.
  intros I Hi Hc Hp Hs Hl. eapply (inv_move y _ i k pc pc'); try done.
  - intros h. rewrite holder_set_call, Hc. lia.
  - intros h. by apply (si_new y I).
Qed.

(** The moves that count the call in or out. *)
Lemma inv_count y i k pc pc' d h : stats_inv y -> calls y !! i = Some (k, pc) -> (h <= current y)%nat ->
  (forall h', counted_at h' pc' = counted_at h' pc + if decide (h' = h) then d else 0) ->
  (forall h', pc_holder pc' = Some h' -> (h' <= current y)%nat) -> sure pc' = None ->
  (forall k', leaving k' (k, pc') = leaving k' (k, pc)) -> stats_inv (set_call i (k, pc') (count_by d h y)).
Proof.
  intros I Hi Hle Hc Hp Hs Hl. eapply (inv_move y _ i k pc pc'); try done.
  - intros h'. rewrite holder_set_call, count_by_holder, Hc. simpl. lia.
  - intros h' k'. by rewrite holder_set_call, count_by_holder.
  - intros h' d' _. by rewrite holder_set_call, count_by_holder.
  - intros h' Hh'. by apply count_by_new; [|apply I|].
  - intros h'. by rewrite Hs.
Qed.

Lemma add_inv y i k h : stats_inv y -> calls y !! i = Some (k, AtAdd h) -> stats_inv (call_step i k (AtAdd h) y).
Proof.
  intros I Hi. pose proof (si_pc y I i k _ h Hi eq_refl) as Hle. destruct (si_sure y I i k _ h Hi eq_refl) as [Hnh Hnf].
  assert (forall h', holder (call_step i k (AtAdd h) y) h' =
    if decide (h' = h) then mkHolder (counter (holder y h)) (closed (holder y h))
      (<[k := AddRequest (default 0 (aggregated (holder y h) !! k))]> (aggregated (holder y h))) else holder y h') as Hho.
  { intros h'. cbn [call_step]. rewrite holder_set_call. unfold holder at 1. cbn. apply holder_set. }
  split.
  - intros h'. cbn [call_step set_call calls]. rewrite (tally_move _ _ _ _ _ Hi), Hho. simpl.
    rewrite <- (si_counter y I). case_decide as E; [subst h'; simpl; lia|lia].
  - intros h' Hh'. cbn in *. rewrite lookup_insert_ne by lia. by apply I.
  - intros j k' p h' Hj Hp. cbn in Hj |- *. apply lookup_insert_Some in Hj as [[-> [= <- <-]]|[_ Hj]]; [by injection Hp as <-|].
    by eapply (si_pc y I).
  - intros j k' p h' Hj Hp. cbn in Hj |- *. apply lookup_insert_Some in Hj as [[-> [= <- <-]]|[_ Hj]]; [by injection Hp as <-|].
    by eapply (si_sure y I).
  - intros h' k'. rewrite Hho. cbn [call_step set_call set_aggregated set_holder log]. rewrite occ_app. cbn [occ].
    case_decide as E.
    + subst h'. cbn [aggregated]. destruct (decide (k' = k)) as [->|Hne].
      * rewrite lookup_insert_eq, decide_True by done. cbn [default from_option id]. rewrite (si_data y I), AddRequest_count.
        f_equal. lia.
      * rewrite lookup_insert_ne, decide_False by congruence. rewrite (si_data y I). f_equal. lia.
    + rewrite decide_False by congruence. rewrite (si_data y I). f_equal. lia.
  - intros h' k'. cbn. intros [Hin|[= -> ->]%list_elem_of_singleton]%elem_of_app; [by eapply (si_log y I)|done].
  - intros h' d Hd. cbn in Hd. rewrite Hho. rewrite decide_False by congruence. by apply (si_handed y I).
  - apply (si_old y I).
  - apply (si_once y I).
  - intros k'. cbn [call_step set_call set_aggregated set_holder log finished calls]. rewrite map_app, occ_app, (tally_move _ _ _ _ _ Hi), (si_finished y I).
    assert (leaving k' (k, AtAdd h) = 0) as -> by done.
    assert (leaving k' (k, AtLeave h) = if decide (k' = k) then 1 else 0) as -> by done. cbn [map occ fst snd]. case_decide; lia.
Qed.

Lemma leave_inv y i k h : stats_inv y -> calls y !! i = Some (k, AtLeave h) -> stats_inv (call_step i k (AtLeave h) y).
Proof.
  intros I Hi. pose proof (si_pc y I i k _ h Hi eq_refl) as Hle.
  assert (forall h', holder (call_step i k (AtLeave h) y) h' =
    mkHolder (counter (holder y h') + (if decide (h' = h) then -1 else 0)) (closed (holder y h')) (aggregated (holder y h'))) as Hho
    by (intros h'; apply count_by_holder).
  split.
  - intros h'. cbn [call_step calls count_by set_holder]. rewrite (tally_remove _ _ _ _ Hi), Hho. simpl.
    rewrite <- (si_counter y I). case_decide; lia.
  - intros h' Hh'. by apply (count_by_new (-1) h y); [|apply I|].
  - intros j k' p h' Hj Hp. cbn in Hj |- *. apply lookup_delete_Some in Hj as [_ Hj]. by eapply (si_pc y I).
  - intros j k' p h' Hj Hp. cbn in Hj |- *. apply lookup_delete_Some in Hj as [_ Hj]. by eapply (si_sure y I).
  - intros h' k'. rewrite Hho. apply (si_data y I).
  - apply (si_log y I).
  - intros h' d Hd. rewrite Hho. by apply (si_handed y I).
  - apply (si_old y I).
  - apply (si_once y I).
  - intros k'. cbn [call_step count_by set_holder log finished calls]. rewrite occ_app, (tally_remove _ _ _ _ Hi), (si_finished y I).
    assert (leaving k' (k, AtLeave h) = if decide (k' = k) then 1 else 0) as -> by done. cbn [occ]. lia.
Qed.

Lemma call_step_inv i k pc y : stats_inv y -> calls y !! i = Some (k, pc) -> stats_inv (call_step i k pc y).
Proof.
  intros I Hi. pose proof (fun h Hp => si_pc y I i k pc h Hi Hp) as Hpc.
  destruct pc as [|h|h|h|h|h|h|h]; cbn [pc_holder] in Hpc; try specialize (Hpc h eq_refl).
  - eapply inv_place; try done. by intros h [= <-].
  - eapply inv_place; try done; try (intros h'; by destruct (closed _)).
    intros h'. destruct (closed _); [done|]. by intros [= <-].
  - eapply inv_count; try done. by intros h' [= <-].
  - eapply inv_place; try done; try (intros h'; by case_decide).
    + intros h'. case_decide; by intros [= <-].
    + intros h'. case_decide as E; [|done]. intros [= <-]. subst h.
      assert (~ (is_Some (handed y !! current y) \/ flush_holder (flushing y) = Some (current y))) as Hno
        by (rewrite <- (si_old y I); lia).
      split; [destruct (handed y !! current y) eqn:E; [destruct Hno; left; by eexists|done]|].
      intros E. apply Hno. right. by rewrite E.
  - eapply inv_count; try done. intros h'. simpl. by case_decide.
  - eapply (inv_move y _ i k (AtStore h) (AtAdd h)); try done.
    + intros h'. cbn [call_step]. rewrite holder_set_call. unfold set_aggregated. rewrite holder_set.
      case_decide; [subst; simpl; lia|simpl; lia].
    + intros h' k'. cbn [call_step]. rewrite holder_set_call. unfold set_aggregated. rewrite holder_set.
      case_decide as E; [subst h'|done]. cbn [aggregated]. destruct (decide (k = k')) as [->|Hne].
      * by rewrite lookup_insert_eq.
      * by rewrite lookup_insert_ne.
    + intros h' d Hd. cbn [call_step]. rewrite holder_set_call. unfold set_aggregated. rewrite holder_set.
      rewrite decide_False; [done|]. intros ->. by rewrite (proj1 (si_sure y I i k _ h Hi eq_refl)) in Hd.
    + intros h' Hh'. cbn in *. rewrite lookup_insert_ne by lia. by apply (si_new y I).
    + by intros h' [= <-].
    + intros h' [= <-]. by apply (si_sure y I i k _ h Hi).
  - by apply add_inv.
  - by apply leave_inv.
Qed.

Lemma holder_new y h : stats_inv y -> (current y < h)%nat -> holder y h = newStatsDataHolder.
Proof. intros I Hh. unfold holder. by rewrite (si_new y I h Hh). Qed.

(** Nobody writes to a holder whose counter is zero once it is not the current one. *)
Lemma drained y h i k pc : stats_inv y -> counter (holder y h) = 0 -> calls y !! i = Some (k, pc) -> sure pc <> Some h.
Proof.
  intros I H0 Hi Hs. rewrite (si_counter y I) in H0.
  pose proof (tally_zero (fun c => counted_at h c.2) (calls y) i (k, pc) (fun c => counted_at_nonneg h c.2) H0 Hi) as Hz.
  cbn in Hz. destruct pc; simpl in Hs, Hz; try discriminate; injection Hs as ->; by rewrite decide_True in Hz.
Qed.

Lemma flush_step_inv y : stats_inv y -> stats_inv (flush_step y).
Proof.
  intros I. unfold flush_step. destruct (flushing y) as [|h|h|h] eqn:Ef.
  - set (y' := mkStatsSystem _ _ _ _ _ _ _).
    assert (forall h, holder y' h = holder y h) as Hho.
    { intros h. unfold holder at 1, y'. cbn. destruct (decide (h = S (current y))) as [->|Hne]; [|by rewrite lookup_insert_ne].
      rewrite lookup_insert_eq. cbn. symmetry. apply holder_new; [done|lia]. }
    assert (forall h, handed y !! h = None \/ (h < current y)%nat) as Hhand.
    { intros h. destruct (handed y !! h) as [d|] eqn:Ed; [right; by apply (si_handed y I h d)|by left]. }
    split; try (intros h; rewrite ?Hho; cbn).
    + apply (si_counter y I).
    + intros Hh. cbn in Hh. rewrite lookup_insert_ne by lia. apply (si_new y I). lia.
    + intros k pc h' Hj Hp. pose proof (si_pc y I _ _ _ _ Hj Hp). lia.
    + intros k pc h' Hj Hp. split; [by eapply (si_sure y I)|done].
    + apply (si_data y I).
    + intros k Hk. pose proof (si_log y I h k Hk). lia.
    + intros d Hd. destruct (si_handed y I h d Hd). split; [done|lia].
    + rewrite Nat.lt_succ_r, Nat.le_lteq, (si_old y I), Ef. cbn. naive_solver.
    + intros [= <-]. destruct (Hhand (current y)); [done|lia].
    + apply (si_finished y I).
  - assert (forall h', holder (set_flushing (FlushWait h) (set_holder h (mkHolder (counter (holder y h)) true (aggregated (holder y h))) y)) h' =
      if decide (h' = h) then mkHolder (counter (holder y h)) true (aggregated (holder y h)) else holder y h') as Hho
      by (intros h'; apply holder_set).
    assert (h < current y)%nat as Hlt by (apply (si_old y I); right; by rewrite Ef).
    split; try (intros h'; rewrite Hho); try (intros h'; cbn).
    + rewrite <- (si_counter y I). case_decide as E; [by subst|done].
    + intros Hh. cbn in Hh. rewrite lookup_insert_ne by lia. by apply (si_new y I).
    + apply (si_pc y I).
    + intros k pc h2 Hj Hp. split; [by eapply (si_sure y I)|done].
    + intros k. rewrite <- (si_data y I). case_decide as E; [by subst|done].
    + apply (si_log y I).
    + intros d Hd. destruct (si_handed y I h' d Hd) as [-> ?]. split; [case_decide as E; [by subst|done]|done].
    + rewrite (si_old y I), Ef. done.
    + intros [= <-]. apply (si_once y I). by rewrite Ef.
    + apply (si_finished y I).
  - destruct (counter (holder y h) =? 0) eqn:E0; [|done]. reflect_bool. split; try apply I.
    + intros i k pc h' Hj Hp. split; [by eapply (si_sure y I)|]. cbn. intros [= ->]. by eapply drained.
    + intros h'. cbn. rewrite (si_old y I), Ef. done.
    + intros h' [= <-]. apply (si_once y I). by rewrite Ef.
  - split; try apply I.
    + intros i k pc h' Hj Hp. cbn. split; [|done]. destruct (si_sure y I i k pc h' Hj Hp) as [Hn Hf].
      rewrite lookup_insert_ne; [done|]. intros ->. by rewrite Ef in Hf.
    + intros h' d. cbn. intros [[<- <-]|[_ Hd]]%lookup_insert_Some; [|by apply (si_handed y I)].
      split; [done|]. apply (si_old y I). right. by rewrite Ef.
    + intros h'. cbn. rewrite (si_old y I), Ef. cbn. destruct (decide (h' = h)) as [->|Hne].
      * rewrite lookup_insert_eq. naive_solver.
      * rewrite lookup_insert_ne by done. naive_solver.
    + by intros h'.
Qed.

Lemma stats_step_inv a y y' : stats_inv y -> stats_step a y = Some y' -> stats_inv y'.
Proof.
  intros I. destruct a as [i k|i|i|]; cbn [stats_step].
  - destruct (calls y !! i) eqn:Ei; [done|]. intros [= <-]. split; try apply I.
    + intros h. cbn [set_call calls]. rewrite tally_new by done. apply (si_counter y I).
    + intros j k' pc h Hj. cbn in Hj. apply lookup_insert_Some in Hj as [[_ [= <- <-]]|[_ Hj]]; [done|by eapply (si_pc y I)].
    + intros j k' pc h Hj. cbn in Hj. apply lookup_insert_Some in Hj as [[_ [= <- <-]]|[_ Hj]]; [done|by eapply (si_sure y I)].
    + intros k'. cbn [set_call calls log finished]. rewrite tally_new by done. apply (si_finished y I).
  - destruct (calls y !! i) as [[k pc]|] eqn:Ei; [|done]. intros [= <-]. by apply call_step_inv.
  - destruct (calls y !! i) as [[k []]|] eqn:Ei; try done. intros [= <-]. split; try apply I.
    + intros h. cbn [remove_call calls]. rewrite (tally_remove _ _ _ _ Ei). rewrite Z.sub_0_r. apply (si_counter y I).
    + intros j k' pc h Hj. cbn in Hj. apply lookup_delete_Some in Hj as [_ Hj]. by eapply (si_pc y I).
    + intros j k' pc h Hj. cbn in Hj. apply lookup_delete_Some in Hj as [_ Hj]. by eapply (si_sure y I).
    + intros k'. cbn [remove_call calls log finished]. rewrite (tally_remove _ _ _ _ Ei). rewrite Z.sub_0_r. apply (si_finished y I).
  - intros [= <-]. by apply flush_step_inv.
Qed.

Lemma stats_steps_inv l y y' : stats_inv y -> stats_steps l y = Some y' -> stats_inv y'.
Proof.
  revert y. induction l as [|a l IH]; intros y I; cbn [stats_steps]; [by intros [= <-]|].
  intros (y1 & H1 & H2)%bind_Some. eapply IH; [by eapply stats_step_inv|done].
Qed.

(** ** Every result is counted once *)

(** The count of a key in a holder: in what was handed over of it, or in the holder. *)
Definition amount (y : StatsSystem) (h : nat) (k : StatsKey) : Z :=
  default 0 (match handed y !! h with Some d => d | None => aggregated (holder y h) end !! k).

Lemma occ_by_holder (l : list (nat * StatsKey)) n k : (forall h k, (h, k) ∈ l -> (h < n)%nat) ->
  occ k (map snd l) = sumZ (map (fun h => occ (h, k) l) (seq 0 n)).
Proof.
  induction l as [|[h0 k0] l IH]; intros Hl; cbn [map occ snd].
  { induction (seq 0 n); simpl; [done|lia]. }
  rewrite IH by (intros h k' Hin; apply (Hl h k'); by right).
  assert (h0 < n)%nat as Hh0 by (apply (Hl h0 k0); by left). clear IH Hl.
  replace n with (h0 + (1 + (n - S h0)))%nat by lia. rewrite !seq_app, !map_app, !sumZ_app. simpl.
  assert (forall a m, (forall x, x ∈ seq a m -> x <> h0) ->
    sumZ (map (fun h => (if decide ((h, k) = (h0, k0)) then 1 else 0) + occ (h, k) l) (seq a m)) =
    sumZ (map (fun h => occ (h, k) l) (seq a m))) as Hne.
  { intros a m Hx. induction (seq a m) as [|x s IH]; [done|]. simpl. rewrite IH by (intros z Hz; apply Hx; by right).
    rewrite decide_False; [done|]. intros [= -> _]. apply (Hx h0); [by left|done]. }
  rewrite !Hne by (intros x Hx%elem_of_seq; lia).
  destruct (decide (k = k0)) as [->|Hk]; [rewrite (decide_True (P := (h0, k0) = _)) by done|rewrite (decide_False (P := (h0, k) = _)) by congruence]; lia.
Qed.

(** C14. While results are counted by any number of concurrent calls and the counts are
    flushed, without a lock, no result is lost or counted twice: at every moment the
    counts in what was handed over, in what a flush is about to hand over and in the
    current holder make up exactly the results whose counting is done; what a flush
    hands over is never counted in again; every holder but the current one was handed
    over or is being flushed; and a flush only waits while some call is counting in
    its holder. *)
Theorem counted_exactly_once l y k :
  stats_steps l new_stats_system = Some y -> occ k (map snd (log y)) < two63 ->
  sumZ (map (fun h => amount y h k) (seq 0 (S (current y)))) = occ k (finished y) + tally (leaving k) (calls y) /\
  (forall h, (h < current y)%nat -> is_Some (handed y !! h) \/ flush_holder (flushing y) = Some h) /\
  (forall l' y' h d, stats_steps l' y = Some y' -> handed y !! h = Some d -> amount y' h k = default 0 (d !! k)) /\
  (flush_step y = y -> exists h i k pc, flushing y = FlushWait h /\ calls y !! i = Some (k, pc) /\ counted_at h pc = 1).
Proof.
  intros Hl Hb. pose proof (stats_steps_inv _ _ _ new_stats_inv Hl) as I. split_and!.
  - rewrite <- (si_finished y I).
    rewrite (occ_by_holder (log y) (S (current y)) k) by (intros h k' Hin; pose proof (si_log y I h k' Hin); lia).
    f_equal. apply map_ext_in. intros h Hh%list_elem_of_In.
    assert (0 <= occ (h, k) (log y) <= occ k (map snd (log y))) as Hr.
    { split; [apply occ_nonneg|]. clear. induction (log y) as [|[h' k'] l IH]; simpl; [lia|].
      destruct (decide (k = k')) as [->|]; repeat case_decide; try lia. congruence. }
    unfold amount. assert (i64 (occ (h, k) (log y)) = occ (h, k) (log y)) as Hi by (apply i64_id, is_i64_of_small; lia).
    destruct (handed y !! h) as [d|] eqn:Ed; [destruct (si_handed y I h d Ed) as [-> _]|]; by rewrite (si_data y I), Hi.
  - intros h. apply (si_old y I).
  - intros l' y' h d Hl' Hd.
    assert (forall l' y y', stats_inv y -> stats_steps l' y = Some y' -> handed y !! h = Some d -> handed y' !! h = Some d) as Hkeep.
    { clear. intros l. induction l as [|a l IH]; intros y y' I; cbn [stats_steps]; [by intros [= <-]|].
      intros (y1 & H1 & H2)%bind_Some Hd. eapply IH; [by eapply stats_step_inv|done|]. destruct a as [i k|i|i|]; cbn [stats_step] in H1.
      - destruct (calls y !! i); [done|]. by injection H1 as <-.
      - destruct (calls y !! i) as [[k pc]|]; [|done]. injection H1 as <-. by destruct pc.
      - destruct (calls y !! i) as [[k []]|]; try done. by injection H1 as <-.
      - injection H1 as <-. unfold flush_step. destruct (flushing y) as [|h0|h0|h0] eqn:Ef; [done|done|by case_match|]. cbn.
        rewrite lookup_insert_ne; [done|]. intros ->. pose proof (si_once y I h) as Ho. rewrite Ef in Ho. by rewrite Ho in Hd. }
    unfold amount. by rewrite (Hkeep l' y y' I Hl' Hd).
  - unfold flush_step. destruct (flushing y) as [|h|h|h] eqn:Ef; intros E.
    + apply (f_equal current) in E. simpl in E. lia.
    + apply (f_equal flushing) in E. simpl in E. by rewrite Ef in E.
    + destruct (counter (holder y h) =? 0) eqn:E0; reflect_bool.
      * apply (f_equal flushing) in E. simpl in E. by rewrite Ef in E.
      * rewrite (si_counter y I) in E0. destruct (tally_some _ _ E0) as (i & [k' pc] & Hi & Hc). exists h, i, k', pc.
        split_and!; [done..|]. cbn in Hc. destruct pc; simpl in *; try done; by case_decide.
    + apply (f_equal flushing) in E. simpl in E. by rewrite Ef in E.
Qed.

(** A call loads the holder, the flush swaps it, and the call starts over; another one
    is counted in the old holder while the flush waits for it. *)
Definition sample_key : StatsKey :=
  extractUnaryRequestKey drpc_schema (mkUnaryResult "up1" Unary RespOk "key" 1 "eth_call" (1700000123 * second)).

Definition stats_run : list stats_action :=
  [CallStarts 0 sample_key; CallMoves 0; CallMoves 0; CallMoves 0; CallMoves 0; CallStarts 1 sample_key; CallMoves 1; CallMoves 1;
   FlushMoves; FlushMoves; FlushMoves; CallMoves 1; CallMoves 1; CallMoves 1; CallMoves 0; CallMoves 0; CallMoves 0;
   FlushMoves; FlushMoves; CallMoves 1; CallMoves 1; CallMoves 1; CallMoves 1; CallMoves 1; CallMoves 1; CallMoves 1].

Definition stats_end : option StatsSystem := stats_steps stats_run new_stats_system.

Example stats_end_facts : match stats_end with
  | Some y => (occ sample_key (map snd (log y)) =? 2) && (amount y 0 sample_key =? 1) && (amount y 1 sample_key =? 1) &&
      bool_decide (calls y = ∅) && (sk_Timestamp sample_key =? 1700000100)
  | None => false end = true.
Proof. vm_compute. reflexivity. Qed.

Lemma counted_exactly_once_witness : exists y, stats_end = Some y /\ occ sample_key (map snd (log y)) = 2 /\
  sumZ (map (fun h => amount y h sample_key) (seq 0 (S (current y)))) =
    occ sample_key (finished y) + tally (leaving sample_key) (calls y).
Proof.
  pose proof stats_end_facts as Hf. destruct stats_end as [y|] eqn:E; [|discriminate Hf]. exists y. split; [reflexivity|].
  repeat (apply andb_true_iff in Hf as [Hf ?]). apply Z.eqb_eq in Hf. split; [exact Hf|]. unfold stats_end in E.
  refine (proj1 (counted_exactly_once stats_run y sample_key E _)). rewrite Hf. reflexivity.
Defined.

(** ** What could not be handed over *)

(** [sonic] on the persisted items, gzip and SHA-256. *)
Class StatsLib := {
  marshal_items : list (StatsKey * Z) -> string + string;
  unmarshal_items : string -> string + list (StatsKey * Z);
  gzip_write : string -> option string;
  gzip_read : string -> option string;
  sha256_bytes : string -> string;
}.

(** Decoding and decompressing give back what was encoded and compressed; compressed
    data begins with the two bytes of gzip. *)
Class StatsLibLaws `{StatsLib} : Prop := {
  items_roundtrip : forall l s, marshal_items l = inr s -> unmarshal_items s = inr l;
  gzip_roundtrip : forall s z, gzip_write s = Some z -> gzip_read z = Some s;
  gzip_magic : forall s z, gzip_write s = Some z -> exists rest, z = String "031" (String "139" rest);
  items_text : forall l s, marshal_items l = inr s -> exists c rest, s = String c rest /\ c <> "031"%char;
}.

Section Persist.
Context `{MR : MapRange} `{SL : StatsLib}.

Definition compressStats (data : string) : string := default data (gzip_write data).

Definition decompressStats (compressed : string) : string :=
  match compressed with
  | String "031" (String "139" _) => default compressed (gzip_read compressed)
  | _ => compressed
  end.

Definition hashToString (data : string) : string := hex_encode (sha256_bytes data).

Definition marshalStatsMap (stats : Stats) : string + string := marshal_items (range stats).

Definition add_requests (n : Z) : Z := Nat.iter (Z.to_nat n) AddRequest 0.

Definition unmarshalStatsMap (data : string) : string + Stats :=
  match unmarshal_items data with
  | inl err => inl err
  | inr items => inr (foldl (fun m kv => <[kv.1 := add_requests kv.2]> m) ∅ items)
  end.
End Persist.

(** [outbox.Storer], over a state of its own; times and contexts aside. *)
Class Storer (O : Type) := {
  ob_Set : string -> string -> O -> option string * O;
  ob_Delete : string -> O -> option string * O;
  ob_List : Z -> Z -> O -> string + list (string * string);
}.

(** [integration.ProcessStatsData]: its error, when it has one. *)
Inductive ProcessError := ErrStatsDataCorrupted | ProcessFailed (text : string).

Definition outbox_limit : Z := 5.

Section Outbox.
Context `{MR : MapRange} `{SL : StatsLib} {O : Type} `{ST : Storer O}.
Context (ProcessStatsData : Stats -> option ProcessError).

Definition storeUnprocessed (stats : Stats) (o : O) : option string * O :=
  match marshalStatsMap stats with
  | inl err => (Some err, o)
  | inr data => ob_Set (hashToString data) (compressStats data) o
  end.

(** What [flush] does with the counts it took; the corrupted ones are dropped. *)
Definition flush_taken (stats : Stats) (o : O) : option string * O :=
  match ProcessStatsData stats with
  | None => (None, o)
  | Some ErrStatsDataCorrupted => (Some "stats data corrupted", o)
  | Some (ProcessFailed _) => storeUnprocessed stats o
  end.

Fixpoint merge_items (items : list (string * string)) (merged : Stats) : string + Stats :=
  match items with
  | [] => inr merged
  | item :: items =>
    match unmarshalStatsMap (decompressStats item.2) with
    | inl err => inl err
    | inr stats => merge_items items (foldl (fun m kv => <[kv.1 := kv.2]> m) merged (range stats))
    end
  end.

(** The counts and the keys of their items, [None] for an empty outbox. *)
Definition listUnprocessed (cursor : Z) (o : O) : string + option (Stats * list string) :=
  match ob_List cursor outbox_limit o with
  | inl err => inl err
  | inr [] => inr None
  | inr items => match merge_items items ∅ with inl err => inl err | inr stats => inr (Some (stats, map fst items)) end
  end.

Definition delete_all (keys : list string) (o : O) : O := foldl (fun o key => (ob_Delete key o).2) o keys.

(** The error, the outbox and the cursor. *)
Definition flushUnprocessed (cursor : Z) (o : O) : option string * O * Z :=
  match listUnprocessed cursor o with
  | inl err => (Some err, o, cursor)
  | inr None => (None, o, 0)
  | inr (Some (stats, keys)) =>
    match ProcessStatsData stats with
    | Some ErrStatsDataCorrupted => (Some "stats data corrupted", o, cursor)
    | Some (ProcessFailed err) => (Some err, o, cursor)
    | None => (None, delete_all keys o, i64 (cursor + Z.of_nat (length keys)))
    end
  end.
End Outbox.

(** ** The outbox in Postgres *)

Record OutboxRow := mkRow { row_id : Z; row_key : string; row_value : string }.

(** The rows by their ids, and the next id; expired rows are not modelled. *)
Record PgOutbox := mkPgOutbox { rows : list OutboxRow; next_row : Z }.

(** [INSERT ... ON CONFLICT (key) DO NOTHING] takes an id in any case. *)
Definition pg_Set (key value : string) (o : PgOutbox) : PgOutbox :=
  mkPgOutbox (if existsb (fun r => bool_decide (row_key r = key)) (rows o) then rows o
              else rows o ++ [mkRow (next_row o) key value]) (next_row o + 1).

Definition pg_Delete (key : string) (o : PgOutbox) : PgOutbox :=
  mkPgOutbox (base.filter (fun r => row_key r <> key) (rows o)) (next_row o).

Definition pg_List (cursor limit : Z) (o : PgOutbox) : list (string * string) :=
  map (fun r => (row_key r, row_value r)) (take (Z.to_nat limit) (base.filter (fun r => cursor < row_id r) (rows o))).

#[export] Instance pg_storer : Storer PgOutbox := {
  ob_Set key value o := (None, pg_Set key value o);
  ob_Delete key o := (None, pg_Delete key o);
  ob_List cursor limit o := inr (pg_List cursor limit o);
}.

(** ** Round trips *)

Section Roundtrip.
Context `{MR : MapRange} `{SL : StatsLibLaws}.

Lemma compress_roundtrip l s : marshal_items l = inr s -> decompressStats (compressStats s) = s.
Proof using All.
  intros Hs. unfold compressStats. destruct (gzip_write s) as [z|] eqn:Ez; cbn [default from_option id].
  - destruct (gzip_magic _ _ Ez) as [rest Hz]. pose proof (gzip_roundtrip _ _ Ez) as Hr. rewrite Hz in *. cbn.
    by rewrite Hr.
  - destruct (items_text _ _ Hs) as (c & rest & -> & Hc). unfold decompressStats.
    destruct c as [[] [] [] [] [] [] [] []]; try done.
Qed.

Lemma add_requests_id n : 0 <= n < two63 -> add_requests n = n.
Proof using Type.
  intros Hn. unfold add_requests. rewrite <- (Z2Nat.id n) at 2 by lia.
  assert (Z.of_nat (Z.to_nat n) < two63) as Hlt by lia. clear Hn. induction (Z.to_nat n) as [|m IH]; [done|].
  cbn [Nat.iter nat_rect]. change (nat_rect (fun _ => Z) 0 (fun _ => AddRequest) m) with (Nat.iter m AddRequest 0).
  rewrite IH by lia. unfold AddRequest. rewrite i64_id; [lia|]. apply is_i64_of_small. lia.
Qed.

Lemma insert_all (l : list (StatsKey * Z)) (m : Stats) : NoDup l.*1 ->
  foldl (fun m kv => <[kv.1 := add_requests kv.2]> m) m l = list_to_map (map (fun kv => (kv.1, add_requests kv.2)) l) ∪ m.
Proof using Type.
  revert m. induction l as [|[k n] l IH]; intros m Hnd; cbn [foldl]; [cbn; by rewrite map_empty_union|].
  apply NoDup_cons in Hnd as [Hni Hnd]. rewrite IH by done. cbn.
  rewrite <- insert_union_l, insert_union_r; [done|]. apply not_elem_of_list_to_map. rewrite <- list_fmap_compose.
  unfold compose. cbn. exact Hni.
Qed.

(** What is stored comes back. *)
Lemma stats_roundtrip stats data : map_Forall (fun _ n => 0 <= n < two63) stats -> marshalStatsMap stats = inr data ->
  unmarshalStatsMap (decompressStats (compressStats data)) = inr stats.
Proof using All.
  intros Hs Hd. unfold marshalStatsMap in Hd. rewrite (compress_roundtrip _ _ Hd). unfold unmarshalStatsMap.
  rewrite (items_roundtrip _ _ Hd). f_equal.
  assert (NoDup (range stats).*1) as Hnd by (rewrite range_perm; apply NoDup_fst_map_to_list).
  rewrite insert_all, map_union_empty by done.
  assert (map (fun kv => (kv.1, add_requests kv.2)) (range stats) = range stats) as ->.
  { rewrite <- (map_id (range stats)) at 2. apply map_ext_in. intros [k n] Hin%list_elem_of_In. rewrite range_perm in Hin.
    apply elem_of_map_to_list in Hin. cbn. by rewrite (add_requests_id n) by exact (Hs k n Hin). }
  rewrite <- (list_to_map_to_list stats) at 2. apply list_to_map_proper; [done|]. apply range_perm.
Qed.
End Roundtrip.

(** ** Counts that are lost in the outbox *)

#[local] Existing Instance Prelude.default_range.

#[local] Instance sample_stats_lib : StatsLib := {
  marshal_items l := inr (String "[" (foldr (fun kv s => FormatUint kv.2 +:+ "," +:+ s) "]" l));
  unmarshal_items s :=
    match s with
    | String "[" s => inr [(sample_key, default 0 (ParseUint (cut_at "," s).1))]
    | _ => inl "?"
    end;
  gzip_write s := Some (String "031" (String "139" s));
  gzip_read s := match s with String _ (String _ s) => Some s | _ => None end;
  sha256_bytes s := s;
}.

(** The counts of two flushes that failed, of the same five minutes: the second ones
    overwrite the first ones when they are merged, and both items are deleted; and when
    they are equal, the second item is not even stored. *)
Lemma merged_counts_lost :
  let failed (_ : Stats) := Some (ProcessFailed "down") in
  let o := (flush_taken failed {[ sample_key := 3 ]} (flush_taken failed {[ sample_key := 2 ]} (mkPgOutbox [] 1)).2).2 in
  length (rows o) = 2%nat /\
  match listUnprocessed 0 o with inr (Some (stats, _)) => stats !! sample_key | _ => None end = Some 3 /\
  flushUnprocessed (fun _ => None) 0 o = (None, mkPgOutbox [] 3, 2) /\
  length (rows (flush_taken failed {[ sample_key := 2 ]} (flush_taken failed {[ sample_key := 2 ]} (mkPgOutbox [] 1)).2).2) = 1%nat.
Proof. vm_compute. split_and!; reflexivity. Qed.
