(* ===== verification/Dispatch.v ===== *)
(** Requests sent to several upstreams
    ([internal/upstreams/flow/fanout_request_processor.go],
    [not_null_request_processor.go]): all eligible upstreams at once, with the
    first success or the largest value as the answer, or one after another until
    a result is not null. *)

From S2P Require Import Prelude.
From S2P Require Import GoStrings.
From S2P Require Import Protocol.
From S2P Require Import Errors.
From S2P Require Import Responses.
From S2P Require Import Specs.
From S2P Require Import UpstreamState.
From S2P Require Import Matchers.
From S2P Require Import Strategy.
From S2P Require Import Balancing.
From S2P Require Import Requests.
From S2P Require Import MethodTranslation.
From S2P Require Import Send.
From Stdlib Require Import Ascii.

(** ** Collecting the upstreams *)

Section Collect.
Context {St : Type} (SelectUpstream : St -> (ResponseError + string) * St).

Definition collected_or (err : ResponseError) (ids : list string) : ResponseError + list string :=
  if bool_decide (ids = []) then inl err else inr ids.

(** [None] when the fuel runs out. *)
Fixpoint collect_loop (fuel : nat) (upstreamIDs : list string) (s : St)
    : option ((ResponseError + list string) * St) :=
  match fuel with
  | O => None
  | S fuel =>
    let '(selection, s) := SelectUpstream s in
    match selection with
    | inl err => Some (collected_or err upstreamIDs, s)
    | inr upstreamID =>
      if bool_decide (upstreamID = "") || bool_decide (upstreamID ∈ upstreamIDs)
      then Some (collected_or NoAvailableUpstreamsError upstreamIDs, s)
      else collect_loop fuel (upstreamIDs ++ [upstreamID]) s
    end
  end.

Definition collectDispatchUpstreamIDs (fuel : nat) (s : St) : option ((ResponseError + list string) * St) :=
  collect_loop fuel [] s.

(** A strategy that only hands out upstreams of a list. *)
Context (ups : list string) (Hups : forall s id s', SelectUpstream s = (inr id, s') -> id ∈ ups).

Lemma collected_or_spec err ids :
  match collected_or err ids with inr l => l = ids /\ ids <> [] | inl _ => ids = [] end.
Proof using Type. unfold collected_or. by case_bool_decide. Qed.

Definition collected_ok (ids : list string) (r : ResponseError + list string) : Prop :=
  match r with inr l => l <> [] /\ NoDup l /\ l ⊆ ups /\ ("" ∈ l -> "" ∈ ids) | inl _ => ids = [] end.

Lemma collected_or_ok err ids : NoDup ids -> ids ⊆ ups -> collected_ok ids (collected_or err ids).
Proof using Type.
  intros Hnd Hsub. pose proof (collected_or_spec err ids) as H. destruct (collected_or err ids); [done|].
  destruct H as [-> H]. done.
Qed.

Lemma collect_loop_terminates fuel ids s :
  NoDup ids -> ids ⊆ ups -> (length ups < fuel + length ids)%nat ->
  exists r s', collect_loop fuel ids s = Some (r, s') /\ collected_ok ids r.
Proof using Hups.
  revert ids s. induction fuel as [|fuel IH]; intros ids s Hnd Hsub Hf.
  - exfalso. pose proof (submseteq_length ids ups (NoDup_submseteq ids ups Hnd Hsub)). lia.
  - simpl. destruct (SelectUpstream s) as [[err|id] s'] eqn:Es; [by eexists _, _; split; [|apply collected_or_ok]|].
    destruct (bool_decide (id = "") || bool_decide (id ∈ ids)) eqn:Eb;
      [by eexists _, _; split; [|apply collected_or_ok]|].
    apply orb_false_iff in Eb as [Hne%bool_decide_eq_false Hni%bool_decide_eq_false].
    destruct (IH (ids ++ [id]) s') as (r & s'' & E & Hr).
    + apply NoDup_app. split_and!; [done| |apply NoDup_singleton]. by intros x Hx ->%list_elem_of_singleton.
    + intros x [Hx|Hx%list_elem_of_singleton]%elem_of_app; [by apply Hsub|]. subst. by eapply Hups.
    + rewrite length_app. simpl. lia.
    + exists r, s''. split; [done|]. destruct r as [e|l]; [by destruct ids|].
      destruct Hr as (H1 & H2 & H3 & H4). split_and!; try done. intros [H5|H5%list_elem_of_singleton]%H4%elem_of_app; [done|].
      congruence.
Qed.
End Collect.

(** ** Results *)

Record fanoutResult := mkFanoutResult {
  fr_upstreamID : string;
  fr_wrapper : option ResponseHolderWrapper;
  fr_err : option GoError;
}.

(** Why a result is no answer, or its wrapper. *)
Definition usable (streamErr : string) (result : fanoutResult) : GoError + ResponseHolderWrapper :=
  match fr_err result with
  | Some err => inl err
  | None =>
    match fr_wrapper result with
    | None => inl (OtherError "fan-out upstream returned empty response")
    | Some wrapper => if HasStream (Response wrapper) then inl (OtherError streamErr) else inr wrapper
    end
  end.

Record broadcastAggregator := mkBroadcast {
  b_selected : option ResponseHolderWrapper;
  b_fallback : option ResponseHolderWrapper;
  b_lastErr : option GoError;
}.

Definition or_first {A} (o : option A) (a : A) : option A := match o with Some _ => o | None => Some a end.

Definition broadcast_Record (a : broadcastAggregator) (result : fanoutResult) : broadcastAggregator :=
  match usable "fan-out broadcast received streaming response" result with
  | inl err => mkBroadcast (b_selected a) (b_fallback a) (Some err)
  | inr wrapper =>
    if HasError (Response wrapper)
    then mkBroadcast (b_selected a) (or_first (b_fallback a) wrapper) (b_lastErr a)
    else mkBroadcast (or_first (b_selected a) wrapper) (b_fallback a) (b_lastErr a)
  end.

(** The common end of the two aggregators. *)
Definition final_wrapper (request : RequestHolder) (selected fallback : option ResponseHolderWrapper)
    (lastErr : option GoError) : ResponseHolderWrapper :=
  match selected, fallback, lastErr with
  | Some w, _, _ => w
  | None, Some w, _ => w
  | None, None, Some err => totalFailureWrapper request err
  | None, None, None => totalFailureWrapper request (RespError NoAvailableUpstreamsError)
  end.

Definition broadcast_Final (request : RequestHolder) (a : broadcastAggregator) : ResponseHolderWrapper :=
  final_wrapper request (b_selected a) (b_fallback a) (b_lastErr a).

(** *** Quantities *)

(** [big.Int.SetString] in base 16: a sign is allowed. *)
Definition big_SetString16 (s : string) : option Z :=
  let '(negative, digits) :=
    match s with
    | String c t => if bool_decide (c = "-"%char) then (true, t)
                    else if bool_decide (c = "+"%char) then (false, t) else (false, s)
    | EmptyString => (false, s)
    end in
  if bool_decide (digits = "") then None
  else (fun n => if negative then - n else n) <$> parse_hex_digits 0 digits.

(** [None] is the panic of [ResponseResultString]. *)
Definition parseHexQuantityResult `{Quoting} (response : ResponseHolder) : option (GoError + Z) :=
  match ResponseResultString response with
  | None => None
  | Some (inl err) => Some (inl err)
  | Some (inr str) =>
    Some (
      let str := TrimSpace str in
      if bool_decide (str = "") then inl (OtherError "empty quantity result")
      else if negb (HasPrefix str "0x") && negb (HasPrefix str "0X")
      then inl (OtherError ("invalid hex quantity result " +:+ Quote str +:+ ": missing 0x prefix"))
      else
        let str := String.substring 2 (String.length str - 2) str in
        if bool_decide (str = "") then inl (OtherError "empty hex quantity result")
        else match big_SetString16 str with
             | Some value => inr value
             | None => inl (OtherError ("invalid hex quantity result " +:+ Quote str))
             end)
  end.

Record maximumValueAggregator := mkMaximum {
  m_selected : option ResponseHolderWrapper;
  m_max : option Z;
  m_fallback : option ResponseHolderWrapper;
  m_lastErr : option GoError;
}.

Definition maximum_Record `{Quoting} (a : maximumValueAggregator) (result : fanoutResult)
    : option maximumValueAggregator :=
  match usable "fan-out maximum-value received streaming response" result with
  | inl err => Some (mkMaximum (m_selected a) (m_max a) (m_fallback a) (Some err))
  | inr wrapper =>
    if HasError (Response wrapper)
    then Some (mkMaximum (m_selected a) (m_max a) (or_first (m_fallback a) wrapper) (m_lastErr a))
    else
      match parseHexQuantityResult (Response wrapper) with
      | None => None
      | Some (inl err) => Some (mkMaximum (m_selected a) (m_max a) (m_fallback a) (Some err))
      | Some (inr value) =>
        if match m_max a with None => true | Some max => max <? value end
        then Some (mkMaximum (Some wrapper) (Some value) (m_fallback a) (m_lastErr a))
        else Some a
      end
  end.

Definition maximum_Final (request : RequestHolder) (a : maximumValueAggregator) : ResponseHolderWrapper :=
  final_wrapper request (m_selected a) (m_fallback a) (m_lastErr a).

(** ** Fan-out *)

(** What the loop over the channel of results takes: a result, the end of the
    results, or the end of the request's context. *)
Inductive FanoutEvent := ResultReceived (r : fanoutResult) | ResultsClosed | ContextDone (err : GoError).

Definition put_result (collected : gmap string fanoutResult) (r : fanoutResult) : gmap string fanoutResult :=
  <[fr_upstreamID r := r]> collected.

Fixpoint fanout_collect (collected : gmap string fanoutResult) (events : list FanoutEvent)
    : option (GoError + gmap string fanoutResult) :=
  match events with
  | [] => None
  | ResultReceived r :: events => fanout_collect (put_result collected r) events
  | ResultsClosed :: _ => Some (inr collected)
  | ContextDone err :: _ => Some (inl err)
  end.

(** [None] is a panic. *)
Definition fanout_final `{Quoting} (dispatch : DispatchPolicy) (upstreamIDs : list string)
    (collected : gmap string fanoutResult) (request : RequestHolder) : option ResponseHolderWrapper :=
  let results := omap (fun id => collected !! id) upstreamIDs in
  match dispatch with
  | DispatchMaximumValue =>
    maximum_Final request <$>
      foldl (fun a r => a ≫= fun a => maximum_Record a r) (Some (mkMaximum None None None None)) results
  | _ => Some (broadcast_Final request (foldl broadcast_Record (mkBroadcast None None None) results))
  end.

Section Fanout.
Context {W : Type} `{NT : Net W} `{RT : RpcTags} `{MR : MapRange} `{MP : MethodParsers} `{TJ : TranslationJson}.
Context (reg : Registry).

(** What the goroutine of one upstream puts on the channel. *)
Definition fanout_send (request : RequestHolder) (param : MethodParam) (upstreamID : string) (w : W)
    : fanoutResult * W :=
  if net_upstream upstreamID then
    let '(result, w) := sendUnaryRequest reg upstreamID request param w in
    (match result with
     | inl err => mkFanoutResult upstreamID None (Some err)
     | inr wrapper => mkFanoutResult upstreamID (Some wrapper) None
     end, w)
  else (mkFanoutResult upstreamID None (Some (RespError NoAvailableUpstreamsError)), w).

(** The answer, once the upstreams are selected; [None] while it is not there. *)
Definition fanout_answer `{Quoting} (dispatch : DispatchPolicy) (selection : ResponseError + list string)
    (request : RequestHolder) (events : list FanoutEvent) : option (option ResponseHolderWrapper) :=
  match selection with
  | inl err => Some (Some (totalFailureWrapper request (RespError err)))
  | inr upstreamIDs =>
    match fanout_collect ∅ events with
    | None => None
    | Some (inl err) => Some (Some (totalFailureWrapper request err))
    | Some (inr collected) => Some (fanout_final dispatch upstreamIDs collected request)
    end
  end.

(** ** Until the result is not null *)

Context (ctx_err : W -> option GoError).

Definition isNullResponse (response : ResponseHolder) : bool :=
  bool_decide (TrimSpace (ResponseResult response) = "null").

Fixpoint not_null_loop (request : RequestHolder) (param : MethodParam) (upstreamIDs : list string)
    (nullResult fallback : option ResponseHolderWrapper) (lastErr : option GoError) (w : W)
    : ResponseHolderWrapper * W :=
  match upstreamIDs with
  | [] => (final_wrapper request nullResult fallback lastErr, w)
  | upstreamID :: upstreamIDs =>
    match ctx_err w with
    | Some err => (totalFailureWrapper request err, w)
    | None =>
      if net_upstream upstreamID then
        let '(result, w) := sendUnaryRequest reg upstreamID request param w in
        match result with
        | inl err => not_null_loop request param upstreamIDs nullResult fallback (Some err) w
        | inr wrapper =>
          if HasStream (Response wrapper) then (wrapper, w)
          else if HasError (Response wrapper)
          then not_null_loop request param upstreamIDs nullResult (or_first fallback wrapper) lastErr w
          else if isNullResponse (Response wrapper)
          then not_null_loop request param upstreamIDs (or_first nullResult wrapper) fallback lastErr w
          else (wrapper, w)
        end
      else not_null_loop request param upstreamIDs nullResult fallback (Some (RespError NoAvailableUpstreamsError)) w
    end
  end.

Definition NotNull_ProcessRequest (selection : ResponseError + list string) (request : RequestHolder)
    (param : MethodParam) (w : W) : ResponseHolderWrapper * W :=
  match selection with
  | inl err => (totalFailureWrapper request (RespError err), w)
  | inr upstreamIDs => not_null_loop request param upstreamIDs None None None w
  end.
End Fanout.

(** ** Which upstreams take part *)

Section CollectList.
Context {W : Type} `{AllowingLimiters W}.
Context (ups : list string) (cv : ChainView) (additional : list Matcher) (order : option UpstreamOrder) (req : Request).
Context (Hord : order_ok order) (Hempty : "" ∉ ups) (Hnodup : NoDup ups).
Let select := ListStrategy_SelectUpstream ups cv additional order req (W := W).
Let cands (st : SelState W) := candidates cv (request_matchers additional req) (selected st) (ordered order ups).

Lemma select_exhausted st : cands st = [] -> exists e, (select st).1 = inl e.
Proof using All.
  intros Hc. destruct (attempts_drain ups cv additional order req Hord Hempty Hnodup st) as [e He].
  exists e. rewrite attempts_S in He. fold (cands st) in He. rewrite Hc in He. injection He as He. exact He.
Qed.

Lemma cands_ups st id : id ∈ cands st -> id ∈ ups /\ id <> "".
Proof using Hord Hempty.
  intros Hin. apply list_elem_of_filter in Hin as [_ Hin]. rewrite (ordered_perm order ups Hord) in Hin.
  split; [done|]. by intros ->.
Qed.

Lemma cands_length st : (length (cands st) <= length ups)%nat.
Proof using Hord.
  unfold cands, candidates. etransitivity; [apply length_filter|]. by rewrite (ordered_perm order ups Hord).
Qed.

Lemma collect_loop_drain fuel ids st :
  (length (cands st) < fuel)%nat -> (forall x, x ∈ cands st -> x ∉ ids) ->
  exists e st', collect_loop select fuel ids st = Some (collected_or e (ids ++ cands st), st').
Proof using All.
  revert ids st. induction fuel as [|fuel IH]; intros ids st Hf Hd; [lia|]. simpl.
  destruct (cands st) as [|id rest] eqn:Hc.
  - destruct (select_exhausted st Hc) as [e He]. destruct (select st) as [r st']. simpl in He. subst r.
    rewrite app_nil_r. by eexists _, _.
  - destruct (select_step ups cv additional order req Hord Hempty Hnodup st id rest Hc) as [Hr Hs].
    pose proof (cands_next ups cv additional order req Hord Hempty Hnodup _ _ _ _ Hc Hs) as Hn.
    fold select in Hr, Hn. destruct (select st) as [r st']. simpl in Hr, Hn. subst r. fold (cands st') in Hn.
    assert (id ∈ cands st) as Hid by (rewrite Hc; by left).
    rewrite (bool_decide_eq_false_2 (id = "")) by (by apply (cands_ups st)).
    rewrite (bool_decide_eq_false_2 (id ∈ ids)) by (apply Hd; by left). simpl.
    assert (NoDup (id :: rest)) as [Hni _]%NoDup_cons.
    { rewrite <- Hc. apply NoDup_filter. by rewrite (ordered_perm order ups Hord). }
    destruct (IH (ids ++ [id]) st') as (e & st'' & E).
    + rewrite Hn. simpl in Hf. lia.
    + rewrite Hn. intros x Hx [Hx'|Hx'%list_elem_of_singleton]%elem_of_app; [|congruence].
      apply (Hd x); [by right|done].
    + exists e, st''. rewrite E, Hn, <- app_assoc. done.
Qed.
End CollectList.

(** Collecting the upstreams of a fan-out ends after one selection more than
    there are upstreams, and finds every eligible upstream exactly once, in the
    order of the strategy; it fails exactly when there is none. *)
Theorem dispatch_collects_all `{AllowingLimiters W} ups cv additional order req (st : SelState W) :
  order_ok order -> ("" ∉ ups) -> NoDup ups ->
  let cs := candidates cv (request_matchers additional req) (selected st) (ordered order ups) in
  exists e st', collectDispatchUpstreamIDs (ListStrategy_SelectUpstream ups cv additional order req)
    (S (length ups)) st = Some (if bool_decide (cs = []) then inl e else inr cs, st') /\ NoDup cs.
Proof.
  intros Hord Hempty Hnodup cs.
  destruct (collect_loop_drain ups cv additional order req Hord Hempty Hnodup (S (length ups)) [] st) as (e & st' & E).
  - pose proof (cands_length ups cv additional order req Hord st). lia.
  - intros x _ Hx. by apply not_elem_of_nil in Hx.
  - exists e, st'. split; [exact E|]. apply NoDup_filter. by rewrite (ordered_perm order ups Hord).
Qed.

#[local] Existing Instance Strategy.no_limiters.
#[local] Existing Instance Strategy.no_limiters_allowing.

Lemma dispatch_collects_all_witness :
  exists e st', collectDispatchUpstreamIDs
    (ListStrategy_SelectUpstream ["up1"; "up3"; "up2"] demo_view [] None (mkRequest "eth_call" false)) 4
    (mkSelState ∅ tt) = Some ((if bool_decide (["up1"; "up2"] = []) then inl e else inr ["up1"; "up2"]), st').
Proof.
  assert (("" ∉ ["up1"; "up3"; "up2"]) /\ NoDup ["up1"; "up3"; "up2"]) as [H1 H2]
    by (split; apply (bool_decide_unpack _); by vm_compute).
  destruct (dispatch_collects_all ["up1"; "up3"; "up2"] demo_view [] None (mkRequest "eth_call" false)
    (mkSelState ∅ tt) I H1 H2) as (e & st' & E & _). exists e, st'. exact E.
Defined.

(** ** The answer of a fan-out *)

Lemma fanout_collect_arrivals m arrivals :
  fanout_collect m (map ResultReceived arrivals ++ [ResultsClosed]) =
    Some (inr (foldl put_result m arrivals)).
Proof. revert m. induction arrivals as [|r l IH]; intros m; simpl; [done|]. apply IH. Qed.

Lemma foldl_insert_lookup (m : gmap string fanoutResult) l r :
  NoDup (map fr_upstreamID l) -> r ∈ l ->
  foldl put_result m l !! fr_upstreamID r = Some r.
Proof.
  revert m. induction l as [|x l IH]; intros m Hnd Hr; [by apply not_elem_of_nil in Hr|].
  simpl in *. apply NoDup_cons in Hnd as [Hx Hnd]. apply elem_of_cons in Hr as [->|Hr]; [|by apply IH].
  assert (forall m, m !! fr_upstreamID x = Some x ->
    foldl put_result m l !! fr_upstreamID x = Some x) as Hk; [|apply Hk, lookup_insert_eq].
  clear -Hx. induction l as [|y l IH]; intros m Hm; [done|]. simpl. apply IH.
  - intros Hin. apply Hx. by right.
  - unfold put_result. rewrite lookup_insert_ne; [done|]. intros E. apply Hx. rewrite <- E. by left.
Qed.

(** The results the aggregator sees: one per upstream, in the order of selection,
    whatever the order in which they arrived. *)
Lemma collected_in_order ids (result_of : string -> fanoutResult) arrivals :
  NoDup ids -> (forall id, fr_upstreamID (result_of id) = id) -> arrivals ≡ₚ map result_of ids ->
  exists m, fanout_collect ∅ (map ResultReceived arrivals ++ [ResultsClosed]) = Some (inr m) /\
    omap (fun id => m !! id) ids = map result_of ids.
Proof.
  intros Hnd Hid Hp. rewrite fanout_collect_arrivals. eexists. split; [done|].
  assert (map fr_upstreamID arrivals ≡ₚ ids) as Hids.
  { rewrite Hp, map_map. rewrite (map_ext _ (fun x => x)), map_id; done. }
  assert (forall id, id ∈ ids -> foldl put_result ∅ arrivals !! id =
    Some (result_of id)) as Hl.
  { intros id Hin. rewrite <- (Hid id) at 1. apply foldl_insert_lookup; [by rewrite Hids|].
    rewrite Hp. by apply list_elem_of_fmap_2. }
  revert Hl. generalize (foldl put_result ∅ arrivals).
  clear. intros m. induction ids as [|id ids IH]; intros Hl; [done|]. simpl. rewrite Hl by (by left). f_equal.
  apply IH. intros x Hx. apply Hl. by right.
Qed.

(** The parts of a result, for the messages of the two aggregators. *)
Definition success_of (streamErr : string) (r : fanoutResult) : option ResponseHolderWrapper :=
  match usable streamErr r with
  | inr w => if HasError (Response w) then None else Some w
  | inl _ => None
  end.

Definition failure_of (streamErr : string) (r : fanoutResult) : option ResponseHolderWrapper :=
  match usable streamErr r with
  | inr w => if HasError (Response w) then Some w else None
  | inl _ => None
  end.

Definition error_of (streamErr : string) (r : fanoutResult) : option GoError :=
  match usable streamErr r with inl err => Some err | inr _ => None end.

Definition or_head {A} (o : option A) (l : list A) : option A := match o with Some _ => o | None => head l end.
Definition or_last {A} (o : option A) (l : list A) : option A := match last l with Some x => Some x | None => o end.

Lemma or_head_cons {A} (o : option A) x l : or_head (or_first o x) l = or_head o (x :: l).
Proof. by destruct o. Qed.

Lemma or_last_cons {A} (o : option A) x l : or_last (Some x) l = or_last o (x :: l).
Proof. unfold or_last. destruct l as [|y l]; [done|]. rewrite last_cons_cons. by destruct (last (y :: l)) eqn:E; [|apply last_None in E]. Qed.

Lemma broadcast_fold a rs :
  let m := "fan-out broadcast received streaming response" in
  foldl broadcast_Record a rs =
    mkBroadcast (or_head (b_selected a) (omap (success_of m) rs)) (or_head (b_fallback a) (omap (failure_of m) rs))
      (or_last (b_lastErr a) (omap (error_of m) rs)).
Proof.
  intros m. revert a. induction rs as [|r rs IH]; intros a.
  - destruct a as [[?|] [?|] ?]; done.
  - simpl. rewrite IH. unfold success_of at 2, failure_of at 2, error_of at 2, broadcast_Record.
    fold m. destruct (usable m r) as [err|w].
    + simpl. f_equal. apply or_last_cons.
    + destruct (HasError (Response w)); simpl; f_equal; apply or_head_cons.
Qed.

(** The answer of a broadcast does not depend on the order in which the
    upstreams answer: it is the first successful response in the order of
    selection; without one, the first error response; else the failure for the
    last error. *)
Theorem broadcast_answer `{Quoting} ids (result_of : string -> fanoutResult) arrivals request :
  let m := "fan-out broadcast received streaming response" in
  let rs := map result_of ids in
  NoDup ids -> (forall id, fr_upstreamID (result_of id) = id) -> arrivals ≡ₚ rs ->
  fanout_answer DispatchBroadcast (inr ids) request (map ResultReceived arrivals ++ [ResultsClosed]) =
    Some (Some (final_wrapper request (head (omap (success_of m) rs)) (head (omap (failure_of m) rs))
                  (last (omap (error_of m) rs)))).
Proof.
  intros m rs Hnd Hid Hp. unfold fanout_answer.
  destruct (collected_in_order ids result_of arrivals Hnd Hid Hp) as (c & -> & Hc).
  unfold fanout_final. rewrite Hc. rewrite broadcast_fold. unfold broadcast_Final. simpl. do 3 f_equal.
  fold rs. unfold or_last. by destruct (last _).
Qed.

#[local] Instance demo_quoting : Quoting := quoted.

Definition demo_wrapper (upstream result : string) : ResponseHolderWrapper :=
  mkWrapper upstream "1" "" None ZeroBlock (NewSimpleHttpUpstreamResponse "1" result JsonRpc).
Definition demo_result (id : string) : fanoutResult :=
  mkFanoutResult id (Some (demo_wrapper id (quoted (if bool_decide (id = "b") then "0x1f" else "0xa")))) None.
Definition demo_fanout_request : RequestHolder :=
  JsonRpcRequest (mkJsonRpcRequest "1" "1" "eth_sendRawTransaction" NoParam "[]" None None [] false false false).

(** The second upstream answers first. *)
Lemma broadcast_answer_witness :
  fanout_answer DispatchBroadcast (inr ["a"; "b"]) demo_fanout_request
    (map ResultReceived [demo_result "b"; demo_result "a"] ++ [ResultsClosed]) =
  Some (Some (demo_wrapper "a" (quoted "0xa"))).
Proof.
  rewrite (broadcast_answer ["a"; "b"] demo_result [demo_result "b"; demo_result "a"] demo_fanout_request).
  - done.
  - apply (bool_decide_unpack _). by vm_compute.
  - done.
  - apply Permutation_swap.
Defined.

(** *** The largest value *)

Section Maximum.
Context `{QU : Quoting}.
Let m := "fan-out maximum-value received streaming response".

(** The quantity in a successful response. *)
Definition quantity_of (r : fanoutResult) : option (ResponseHolderWrapper * Z) :=
  match success_of m r with
  | Some w => match parseHexQuantityResult (Response w) with Some (inr v) => Some (w, v) | _ => None end
  | None => None
  end.

(** The error of a result, of its quantity included. *)
Definition quantity_error (r : fanoutResult) : option GoError :=
  match success_of m r with
  | Some w => match parseHexQuantityResult (Response w) with Some (inl err) => Some err | _ => None end
  | None => error_of m r
  end.

(** The first of the largest. *)
Definition first_largest (values : list (ResponseHolderWrapper * Z)) (w : ResponseHolderWrapper) (v : Z) : Prop :=
  exists pre post, values = pre ++ (w, v) :: post /\
    (forall x, x ∈ pre -> x.2 < v) /\ (forall x, x ∈ post -> x.2 <= v).

Definition no_panic (r : fanoutResult) : Prop :=
  forall w, fr_wrapper r = Some w -> ResponseResult (Response w) <> String quote "".

Lemma quantity_no_panic r w : no_panic r -> success_of m r = Some w -> parseHexQuantityResult (Response w) <> None.
Proof using Type.
  intros Hn Hs. assert (fr_wrapper r = Some w) as Hw.
  { unfold success_of, usable in Hs. destruct (fr_err r); [done|]. destruct (fr_wrapper r) as [w'|]; [|done].
    destruct (HasStream _); [done|]. destruct (HasError _); [done|]. by simplify_eq. }
  specialize (Hn w Hw). unfold parseHexQuantityResult.
  assert (ResponseResultString (Response w) <> None) as Hr; [|by destruct (ResponseResultString (Response w)) as [[]|]].
  destruct (Response w); simpl in *; try done; by rewrite result_string_panics.
Qed.

(** What the aggregator holds after the results [rs]. *)
Definition maximum_ok (rs : list fanoutResult) (a : maximumValueAggregator) : Prop :=
  m_fallback a = head (omap (failure_of m) rs) /\ m_lastErr a = last (omap quantity_error rs) /\
  match omap quantity_of rs with
  | [] => m_selected a = None /\ m_max a = None
  | _ => exists w v, m_selected a = Some w /\ m_max a = Some v /\ first_largest (omap quantity_of rs) w v
  end.

Lemma head_app_or {A} (l l' : list A) : head (l ++ l') = or_head (head l) l'.
Proof using Type. by destruct l. Qed.

Lemma first_largest_snoc vs w v x :
  first_largest vs w v -> x.2 <= v -> first_largest (vs ++ [x]) w v.
Proof using Type.
  intros (pre & post & -> & Hpre & Hpost) Hx. exists pre, (post ++ [x]). rewrite <- app_assoc. split; [done|].
  split; [done|]. intros y [Hy|Hy%list_elem_of_singleton]%elem_of_app; [by apply Hpost|by subst].
Qed.

Lemma first_largest_new vs w v x :
  first_largest vs w v -> v < x.2 -> first_largest (vs ++ [x]) x.1 x.2.
Proof using Type.
  intros (pre & post & -> & Hpre & Hpost) Hx. exists (pre ++ (w, v) :: post), []. destruct x as [y z].
  split; [done|]. split; [|by intros ? ?%not_elem_of_nil].
  intros x [Hy|[->|Hy]%elem_of_cons]%elem_of_app; simpl in *; [|done|].
  - specialize (Hpre x Hy). lia.
  - specialize (Hpost x Hy). lia.
Qed.

Lemma maximum_Record_ok rs a r :
  no_panic r -> maximum_ok rs a -> exists a', maximum_Record a r = Some a' /\ maximum_ok (rs ++ [r]) a'.
Proof using Type.
  intros Hn. pose proof (quantity_no_panic r) as Hp. unfold maximum_ok. rewrite !omap_app, head_app_or, last_app.
  generalize (omap quantity_of rs), (omap (failure_of m) rs), (omap quantity_error rs). intros vs fs es (Hf & Hl & Hv).
  simpl. unfold quantity_of, quantity_error, failure_of, success_of, error_of in *.
  unfold maximum_Record. fold m. destruct (usable m r) as [err|w] eqn:Eu.
  - eexists. split; [done|]. simpl. rewrite app_nil_r, Hf. split; [by destruct (head fs)|]. by split.
  - destruct (HasError (Response w)) eqn:Ee.
    + eexists. split; [done|]. simpl. rewrite app_nil_r, Hf. split; [by destruct (head fs)|]. by split.
    + specialize (Hp w Hn eq_refl). destruct (parseHexQuantityResult (Response w)) as [[err|v]|]; [| |done].
      * eexists. split; [done|]. simpl. rewrite app_nil_r, Hf. split; [by destruct (head fs)|]. by split.
      * destruct vs as [|x vs].
        -- destruct Hv as [Hs Hm]. rewrite Hm. eexists. split; [done|]. simpl.
           split; [rewrite Hf; by destruct (head fs)|]. split; [done|]. exists w, v. split_and!; [done..|].
           exists [], []. by split_and!; [|intros ? ?%not_elem_of_nil..].
        -- destruct Hv as (w0 & v0 & Hs & Hm & Hlg). rewrite Hm. destruct (v0 <? v) eqn:Ec; reflect_bool.
           ++ eexists. split; [done|]. simpl. split; [rewrite Hf; by destruct (head fs)|]. split; [done|].
              exists w, v. split_and!; [done..|]. apply (first_largest_new (x :: vs) w0 v0 (w, v)); done.
           ++ exists a. split; [done|]. split; [rewrite Hf; by destruct (head fs)|]. split; [done|].
              exists w0, v0. split_and!; [done..|]. apply (first_largest_snoc (x :: vs) w0 v0 (w, v)); done.
Qed.

Lemma maximum_fold rs : Forall no_panic rs ->
  exists a, foldl (fun a r => a ≫= fun a => maximum_Record a r) (Some (mkMaximum None None None None)) rs = Some a /\
    maximum_ok rs a.
Proof using Type.
  induction rs as [|r rs IH] using rev_ind; intros Hn; [by eexists|].
  apply Forall_app in Hn as [Hn Hr]. apply Forall_inv in Hr. destruct (IH Hn) as (a & E & Ha).
  destruct (maximum_Record_ok rs a r Hr Ha) as (a' & E' & Ha'). exists a'. split; [|done].
  rewrite foldl_app, E. exact E'.
Qed.
End Maximum.

(** The answer of a maximum-value dispatch does not depend on the order of
    arrival either: it is the response with the largest quantity, the first such
    in the order of selection.  Without any quantity it is the first error
    response, else the failure for the last error, a result that is no quantity
    included.  The aggregation panics on no result but a lone quote. *)
Theorem maximum_value_answer `{Quoting} ids (result_of : string -> fanoutResult) arrivals request :
  let rs := map result_of ids in
  NoDup ids -> (forall id, fr_upstreamID (result_of id) = id) -> arrivals ≡ₚ rs -> Forall no_panic rs ->
  exists wr, fanout_answer DispatchMaximumValue (inr ids) request (map ResultReceived arrivals ++ [ResultsClosed]) =
    Some (Some wr) /\
    match omap quantity_of rs with
    | [] => wr = final_wrapper request None
                   (head (omap (failure_of "fan-out maximum-value received streaming response") rs))
                   (last (omap quantity_error rs))
    | values => exists v, first_largest values wr v
    end.
Proof.
  intros rs Hnd Hid Hp Hn. unfold fanout_answer.
  destruct (collected_in_order ids result_of arrivals Hnd Hid Hp) as (c & -> & Hc).
  unfold fanout_final. rewrite Hc. destruct (maximum_fold rs Hn) as (a & E & Hf & Hl & Hv). fold rs. rewrite E.
  eexists. split; [done|]. unfold maximum_Final. rewrite Hf, Hl.
  destruct (omap quantity_of rs) as [|x vs].
  - by destruct Hv as [-> _].
  - destruct Hv as (w & v & -> & _ & Hlg). by exists v.
Qed.

Lemma maximum_value_answer_witness :
  fanout_answer DispatchMaximumValue (inr ["a"; "b"]) demo_fanout_request
    (map ResultReceived [demo_result "b"; demo_result "a"] ++ [ResultsClosed]) =
  Some (Some (demo_wrapper "b" (quoted "0x1f"))).
Proof.
  destruct (maximum_value_answer ["a"; "b"] demo_result [demo_result "b"; demo_result "a"] demo_fanout_request)
    as (wr & E & _).
  - apply (bool_decide_unpack _). by vm_compute.
  - done.
  - apply Permutation_swap.
  - repeat constructor; intros w [= <-]; by vm_compute.
  - rewrite E. vm_compute in E. vm_compute. by rewrite E.
Defined.

(** ** The answer of a not-null dispatch *)

Section NotNull.
Context {W : Type} `{NT : Net W} `{RT : RpcTags} `{MR : MapRange} `{MP : MethodParsers} `{TJ : TranslationJson}.
Context (reg : Registry) (request : RequestHolder) (param : MethodParam).

(** The upstreams asked one after another, with their results. *)
Inductive asked : list string -> W -> list fanoutResult -> W -> Prop :=
| asked_nil w : asked [] w [] w
| asked_cons id ids w r w1 rs w2 :
    fanout_send reg request param id w = (r, w1) -> asked ids w1 rs w2 -> asked (id :: ids) w (r :: rs) w2.

(** A stream, or a successful result other than null. *)
Definition conclusive (r : fanoutResult) : bool :=
  match fr_wrapper r with
  | Some w => HasStream (Response w) || negb (HasError (Response w)) && negb (isNullResponse (Response w))
  | None => false
  end.

Definition null_of (r : fanoutResult) : option ResponseHolderWrapper :=
  match fr_wrapper r with Some w => if HasError (Response w) then None else Some w | None => None end.

Definition error_response_of (r : fanoutResult) : option ResponseHolderWrapper :=
  match fr_wrapper r with Some w => if HasError (Response w) then Some w else None | None => None end.

(** How the request was answered: by the first conclusive result, which ends the
    search, or by the best of all results. *)
Definition answered (ids : list string) (nullResult fallback : option ResponseHolderWrapper)
    (lastErr : option GoError) (w : W) (wr : ResponseHolderWrapper) (w' : W) : Prop :=
  exists tried rest rs, ids = tried ++ rest /\ asked tried w rs w' /\
    ((exists rs0 r, rs = rs0 ++ [r] /\ Forall (fun x => conclusive x = false) rs0 /\ conclusive r = true /\
        fr_wrapper r = Some wr) \/
     (rest = [] /\ Forall (fun x => conclusive x = false) rs /\
      wr = final_wrapper request (or_head nullResult (omap null_of rs)) (or_head fallback (omap error_response_of rs))
             (or_last lastErr (omap fr_err rs)))).

Lemma answered_here id ids n f l w r w1 wr :
  fanout_send reg request param id w = (r, w1) -> conclusive r = true -> fr_wrapper r = Some wr ->
  answered (id :: ids) n f l w wr w1.
Proof using Type.
  intros E Hc Hw. exists [id], ids, [r]. split; [done|]. split; [by eapply asked_cons; [|constructor]|].
  left. exists [], r. by split_and!.
Qed.

Lemma answered_later id ids n f l n' f' l' w r w1 wr w' :
  fanout_send reg request param id w = (r, w1) -> conclusive r = false ->
  (forall x, or_head n' x = or_head n (option_list (null_of r) ++ x)) ->
  (forall x, or_head f' x = or_head f (option_list (error_response_of r) ++ x)) ->
  (forall x, or_last l' x = or_last l (option_list (fr_err r) ++ x)) ->
  answered ids n' f' l' w1 wr w' -> answered (id :: ids) n f l w wr w'.
Proof using Type.
  intros E Hc Hn Hf Hl (tried & rest & rs & -> & Ha & Hw). exists (id :: tried), rest, (r :: rs).
  split; [done|]. split; [by eapply asked_cons|].
  destruct Hw as [(rs0 & x & -> & H0 & H1 & H2)|(-> & H0 & ->)].
  - left. exists (r :: rs0), x. split_and!; try done. by constructor.
  - right. split; [done|]. split; [by constructor|]. rewrite Hn, Hf, Hl. simpl.
    by destruct (null_of r), (error_response_of r), (fr_err r).
Qed.

Lemma not_null_loop_answered ids n f l w :
  let '(wr, w') := not_null_loop reg (fun _ => None) request param ids n f l w in answered ids n f l w wr w'.
Proof using Type.
  revert n f l w. induction ids as [|id ids IH]; intros n f l w.
  - simpl. exists [], [], []. split; [done|]. split; [constructor|]. right. split; [done|]. split; [constructor|].
    by destruct n, f, l.
  - cbn [not_null_loop]. destruct (net_upstream id) eqn:Eu.
    + destruct (sendUnaryRequest reg id request param w) as [result w1] eqn:Es.
      pose proof (fun r => answered_here id ids n f l w r w1) as Hhere.
      pose proof (fun n' f' l' r wr w' => answered_later id ids n f l n' f' l' w r w1 wr w') as Hlater.
      unfold fanout_send in Hhere, Hlater. rewrite Eu, Es in Hhere, Hlater.
      destruct result as [err|wr].
      * specialize (IH n f (Some err) w1). destruct (not_null_loop _ _ _ _ ids _ _ _ w1) as [wr w'].
        eapply Hlater; [done|done|done|done| |exact IH]. intros x. apply or_last_cons.
      * assert (conclusive (mkFanoutResult id (Some wr) None) =
          HasStream (Response wr) || negb (HasError (Response wr)) && negb (isNullResponse (Response wr))) as Hc by done.
        destruct (HasStream (Response wr)); [by eapply Hhere|].
        destruct (HasError (Response wr)) eqn:Ee.
        -- specialize (IH n (or_first f wr) l w1). destruct (not_null_loop _ _ _ _ ids _ _ _ w1) as [wr' w'].
           eapply Hlater; [done|done| | |done|exact IH]; intros x; unfold null_of, error_response_of; simpl; rewrite Ee;
             [done|apply or_head_cons].
        -- destruct (isNullResponse (Response wr)); [|by eapply Hhere].
           specialize (IH (or_first n wr) f l w1). destruct (not_null_loop _ _ _ _ ids _ _ _ w1) as [wr' w'].
           eapply Hlater; [done|done| | |done|exact IH]; intros x; unfold null_of, error_response_of; simpl; rewrite Ee;
             [apply or_head_cons|done].
    + specialize (IH n f (Some (RespError NoAvailableUpstreamsError)) w).
      destruct (not_null_loop _ _ _ _ ids _ _ _ w) as [wr w'].
      eapply (answered_later id); [unfold fanout_send; by rewrite Eu|done|done|done| |exact IH].
      intros x. apply or_last_cons.
Qed.
End NotNull.

(** A not-null dispatch asks the upstreams one after another and stops at the
    first that streams or succeeds with a result other than null, which is the
    answer.  When none does, all were asked, and the answer is the first null,
    else the first error response, else the failure for the last error. *)
Theorem not_null_answer `{Net W} `{RpcTags} `{MapRange} `{MethodParsers} `{TranslationJson} reg request param ids (w : W) :
  let '(wr, w') := NotNull_ProcessRequest reg (fun _ => None) (inr ids) request param w in
  exists tried rest rs, ids = tried ++ rest /\ asked reg request param tried w rs w' /\
    ((exists rs0 r, rs = rs0 ++ [r] /\ Forall (fun x => conclusive x = false) rs0 /\ conclusive r = true /\
        fr_wrapper r = Some wr) \/
     (rest = [] /\ Forall (fun x => conclusive x = false) rs /\
      wr = final_wrapper request (head (omap null_of rs)) (head (omap error_response_of rs)) (last (omap fr_err rs)))).
Proof.
  pose proof (not_null_loop_answered reg request param ids None None None w) as Ha.
  unfold NotNull_ProcessRequest. destruct (not_null_loop _ _ _ _ ids _ _ _ w) as [wr w'].
  destruct Ha as (tried & rest & rs & E & Hasked & Hr). exists tried, rest, rs. split; [done|]. split; [done|].
  destruct Hr as [Hr|(Hrest & Hf & ->)]; [by left|right]. split; [done|]. split; [done|].
  unfold or_last. by destruct (last (omap fr_err rs)).
Qed.
