(* ===== verification/Processors.v ===== *)
(** The request processors ([internal/upstreams/flow/request_processor.go],
    [sticky_request_processor.go], [integrity_request_processor.go],
    [integrity_methods.go], [local_request_processor.go],
    [cache_request_processor.go], and the subscriptions of a client in
    [execution_flow.go]).

    A run-time panic is [None]. *)

From S2P Require Import Prelude.
From S2P Require Import GoStrings.
From S2P Require Import Protocol.
From S2P Require Import Errors.
From S2P Require Import Responses.
From S2P Require Import Specs.
From S2P Require Import Methods.
From S2P Require Import UpstreamState.
From S2P Require Import Matchers.
From S2P Require Import Strategy.
From S2P Require Import ForkChoice.
From S2P Require Import ChainState.
From S2P Require Import ChainSupervisor.
From S2P Require Import Requests.
From S2P Require Import MethodTranslation.
From S2P Require Import Send.
From S2P Require Import Retry.
From Stdlib Require Import Ascii.

(** ** Interfaces *)

(** The supervisor of the request's chain, with its round-robin counter. *)
Class Chain (W : Type) := {
  chain_supervisor : W -> Supervisor;
  chain_rr : W -> Z;
  set_chain_rr : Z -> W -> W;
}.

(** The executor of the resilience policies ([failsafe-go]), which runs a function
    of the number of retries once or more and returns one of its results. *)
Class FlowExecutor (W : Type) := execute : forall (St : Type),
  (nat -> St -> W -> (GoError + ResponseHolderWrapper) * (St * W)) ->
  St -> W -> (GoError + ResponseHolderWrapper) * (St * W).

Class FlowExecutorLaws (W : Type) `{FlowExecutor W} : Prop := {
  execute_result : forall St f s w r sw, execute St f s w = (inr r, sw) ->
    exists i s1 w1 sw2, f i s1 w1 = (inr r, sw2);
}.

(** [hexutil.DecodeUint64] of go-ethereum. *)
Class HexUtil := DecodeUint64 : string -> option Z.

(** The cache of responses. *)
Class ResponseCache (W : Type) := {
  cache_Receive : RequestHolder -> W -> option string * W;
  cache_Store : RequestHolder -> string -> W -> W;
}.

(** ** Strategies *)

Inductive UpstreamStrategy :=
| FailingStrategy (err : ResponseError)
| GenericStrategy (matchers : list Matcher) (order : option UpstreamOrder)
| SpecificOrderUpstreamStrategy (ids : list string) (matchers : list Matcher) (order : option UpstreamOrder)
| RatingStrategy (ids : list string) (matchers : list Matcher) (order : option UpstreamOrder)
| LabelGroupStrategy (groups : list (list string)) (passOnError : bool) (matchers : list Matcher)
    (order : option UpstreamOrder).

(** The state of a strategy object: the upstreams it handed out and its place in
    the label groups. *)
Record StrategyState := mkStrategyState { ss_selected : gset string; ss_group : nat; ss_first : bool }.

Definition new_strategy_state : StrategyState := mkStrategyState ∅ 0 true.

Section Select.
Context {W : Type} `{LM : Limiters W} `{CH : Chain W} `{MR : MapRange}.

Definition selection_request (r : RequestHolder) : Request := mkRequest (request_Method r) (request_IsSubscribe r).

Definition strategy_Select (strategy : UpstreamStrategy) (r : RequestHolder) (s : StrategyState) (w : W)
    : (ResponseError + string) * (StrategyState * W) :=
  let view := supervisor_view (chain_supervisor w) in
  let sel := mkSelState (ss_selected s) w in
  let req := selection_request r in
  match strategy with
  | FailingStrategy err => (inl err, (s, w))
  | GenericStrategy matchers order =>
    let '(res, (st, rr)) := GenericStrategy_SelectUpstream view (chain_rr w) matchers order req sel in
    (res, (mkStrategyState (selected st) (ss_group s) (ss_first s), set_chain_rr rr (world st)))
  | SpecificOrderUpstreamStrategy ids matchers order | RatingStrategy ids matchers order =>
    let '(res, st) := ListStrategy_SelectUpstream ids view matchers order req sel in
    (res, (mkStrategyState (selected st) (ss_group s) (ss_first s), world st))
  | LabelGroupStrategy groups passOnError matchers order =>
    let '(res, lg) := LabelGroupStrategy_SelectUpstream groups passOnError view matchers order req
                        (mkLabelGroupState (ss_group s) (ss_first s) sel) in
    (res, (mkStrategyState (selected (lg_sel lg)) (currentGroupIdx lg) (firstCall lg), world (lg_sel lg)))
  end.
End Select.

(** ** Unary requests *)

Section Unary.
Context {W : Type} `{NT : Net W} `{LM : Limiters W} `{CH : Chain W} `{FE : FlowExecutor W} `{RT : RpcTags}.
Context `{MR : MapRange} `{MP : MethodParsers} `{TJ : TranslationJson} (reg : Registry) (specName : string).

(** One run of the function given to the executor. *)
Definition unary_attempt (strategy : UpstreamStrategy) (request : RequestHolder) (param : MethodParam)
    (retries : nat) (s : StrategyState) (w : W) : (GoError + ResponseHolderWrapper) * (StrategyState * W) :=
  match attempt reg (strategy_Select strategy request) request param s w with
  | (inl err, sw) => (inl (handleErrors retries err), sw)
  | (inr response, sw) => (inr response, sw)
  end.

Definition executeUnaryRequest (strategy : UpstreamStrategy) (request : RequestHolder) (s : StrategyState) (w : W)
    : ((GoError + ResponseHolderWrapper) * RequestHolder) * (StrategyState * W) :=
  let '(param, request) := ParseParams request in
  let '(result, sw) := execute StrategyState (unary_attempt strategy request param) s w in
  ((result, request), sw).

(** The wrapper the processors make of the result. *)
Definition or_failure (request : RequestHolder) (result : GoError + ResponseHolderWrapper) : ResponseHolderWrapper :=
  match result with inl err => totalFailureWrapper request err | inr response => response end.

Definition Unary_ProcessRequest (strategy : UpstreamStrategy) (request : RequestHolder) (w : W)
    : ResponseHolderWrapper * W :=
  if IsSubscribeMethod reg specName (request_Method request) then
    (totalFailureWrapper request (RespError (ClientError
       (OtherError ("unable to process a subscription request " +:+ request_Method request)))), w)
  else
    let '((result, request'), (_, w)) := executeUnaryRequest strategy request new_strategy_state w in
    (or_failure request' result, w).

(** ** Sticky requests *)

Definition maxBytes : Z := 5.

(** The client's value without the index of the upstream it ends with. *)
Definition sticky_payload (value : string) : option string :=
  let n := Z.of_nat (String.length value) in
  if maxBytes <? n then go_slice 0 (n - maxBytes) value else None.

Definition sticky_index (value : string) : string :=
  let n := Z.of_nat (String.length value) in
  if maxBytes <? n then default "" (go_slice (n - maxBytes) n value) else "".

Definition strip_sticky (request : RequestHolder) : RequestHolder :=
  let '(param, request) := ParseParams request in
  match param with
  | StringParam value =>
    match sticky_payload value with Some payload => ModifyParams (AnyString payload) request | None => request end
  | _ => request
  end.

(** The body of the created object's id, with the upstream's index at its end. *)
Definition sticky_body (result hashIndex : string) : option string :=
  (fun body => body +:+ hashIndex +:+ String quote "") <$>
    go_slice 0 (Z.of_nat (String.length result) - 1) result.

Definition Sticky_ProcessRequest (strategy : UpstreamStrategy) (m : Method) (request : RequestHolder)
    (s : StrategyState) (w : W) : option ResponseHolderWrapper * W :=
  if IsStickySend m then
    let '((result, request'), (_, w)) := executeUnaryRequest strategy (strip_sticky request) s w in
    (Some (or_failure request' result), w)
  else if IsStickyCreate m then
    let '((result, request'), (_, w)) := executeUnaryRequest strategy request s w in
    match result with
    | inl err => (Some (totalFailureWrapper request' err), w)
    | inr wrapper =>
      if HasError (Response wrapper) then (Some wrapper, w)
      else
        ((fun body => empty_wrapper (UpstreamId wrapper) (RequestId wrapper)
            (NewSimpleHttpUpstreamResponse (response_Id (Response wrapper)) body (request_RequestType request'))) <$>
          sticky_body (ResponseResult (Response wrapper)) (net_hashIndex (UpstreamId wrapper)), w)
    end
  else (Some (totalFailureWrapper request (RespError ServerError)), w).

(** ** Integrity *)

Inductive IntegrityBlock := IntegrityHead (number : Z) | IntegrityFinalized (number : Z).

Inductive IntegrityHandler := NoopIntegrityHandler | EthBlockNumberHandler | EthGetBlockByNumberHandler.

Definition integrity_handler (method : string) : IntegrityHandler :=
  if bool_decide (method = "eth_blockNumber") then EthBlockNumberHandler
  else if bool_decide (method = "eth_getBlockByNumber") then EthGetBlockByNumberHandler
  else NoopIntegrityHandler.

Definition CanBeProcessed (h : IntegrityHandler) : bool :=
  match h with NoopIntegrityHandler => false | _ => true end.

(** The other upstreams with a head, or a finalized block, above a number, the
    highest first. *)
Definition head_above (upstream : string) (n : Z) (b : Supervisor) : list string :=
  GetSortedUpstreamIds
    (fun id s => negb (bool_decide (id = upstream)) &&
       (negb (IsEmptyByHeight (HeadData s)) && (n <? Height (HeadData s))))
    (fun x y => cmp_Compare (Height (HeadData y.2)) (Height (HeadData x.2))) b.

Definition finalized_height (s : UpstreamState) : Z := Height (BlockInfo_GetBlock (st_blocks s) FinalizedBlock).

Definition finalized_above (upstream : string) (n : Z) (b : Supervisor) : list string :=
  GetSortedUpstreamIds
    (fun id s => negb (bool_decide (id = upstream)) && (n <? finalized_height s))
    (fun x y => cmp_Compare (finalized_height y.2) (finalized_height x.2)) b.

Abbreviation Verdict := (bool * list string * option IntegrityBlock)%type.

Definition no_verdict : Verdict := (false, [], None).

Context `{HU : HexUtil} `{JS : Json}.

Definition chain_height (b : Supervisor) : Z := Height (Head (cs_HeadData (sup_state b))).

(** The block number in a response. *)
Definition HandleResponse (h : IntegrityHandler) (param : MethodParam) (current : ResponseHolderWrapper)
    (b : Supervisor) : option Verdict :=
  let response := Response current in
  let result := ResponseResult response in
  match h with
  | NoopIntegrityHandler => Some no_verdict
  | EthBlockNumberHandler =>
    if HasError response then Some no_verdict
    else
      match unquoted result with
      | None => None
      | Some text =>
        match DecodeUint64 text with
        | None => Some no_verdict
        | Some n =>
          if chain_height b <=? n then Some (false, [], Some (IntegrityHead n))
          else Some (true, head_above (UpstreamId current) n b, None)
        end
      end
  | EthGetBlockByNumberHandler =>
    Some (
      if HasError response || bool_decide (result = "null") then no_verdict
      else
        match GetByPath result "number" with
        | Some (mkJsonNode V_STRING raw) =>
          match DecodeUint64 (default "" (raw ≫= unmarshal_string)) with
          | None => no_verdict
          | Some n =>
            match param with
            | BlockNumberParam tag =>
              if tag =? LatestBlockNumber then
                if chain_height b <=? n then (false, [], Some (IntegrityHead n))
                else (true, head_above (UpstreamId current) n b, None)
              else if tag =? FinalizedBlockNumber then
                match cs_Blocks (sup_state b) !! FinalizedBlock with
                | None => (false, [], Some (IntegrityFinalized n))
                | Some finalization =>
                  if Height finalization <=? n then (false, [], Some (IntegrityFinalized n))
                  else (true, finalized_above (UpstreamId current) n b, None)
                end
              else if chain_height b <=? n then (false, [], Some (IntegrityHead n)) else no_verdict
            | _ => no_verdict
            end
          end
        | _ => no_verdict
        end)
  end.

Definition updateBlocks (upstream : string) (block : option IntegrityBlock) (w : W) : W :=
  match block with
  | None => w
  | Some block =>
    if net_upstream upstream then
      match block with
      | IntegrityHead n => net_UpdateHead upstream n 0 w
      | IntegrityFinalized n => net_UpdateBlock upstream (NewBlockWithHeight n) FinalizedBlock w
      end
    else w
  end.

Definition integrity_handleResponse (h : IntegrityHandler) (request : RequestHolder) (response : ResponseHolderWrapper)
    (w : W) : option ResponseHolderWrapper * W :=
  let '(param, request) := ParseParams request in
  match HandleResponse h param response (chain_supervisor w) with
  | None => (None, w)
  | Some (shouldSendRequest, sortedUpstreams, block) =>
    let w := updateBlocks (UpstreamId response) block w in
    if negb shouldSendRequest || bool_decide (sortedUpstreams = []) then (Some response, w)
    else
      let '((result, request), (_, w)) :=
        executeUnaryRequest (SpecificOrderUpstreamStrategy sortedUpstreams [] None) request new_strategy_state w in
      match result with
      | inl _ => (Some response, w)
      | inr newResponse =>
        match HandleResponse h param newResponse (chain_supervisor w) with
        | None => (None, w)
        | Some (_, _, block) => (Some newResponse, updateBlocks (UpstreamId newResponse) block w)
        end
      end
  end.

(** [quorum]: whether the context asks for a quorum read. *)
Definition Integrity_ProcessRequest (quorum : bool) (strategy : UpstreamStrategy) (request : RequestHolder) (w : W)
    : option ResponseHolderWrapper * W :=
  let handler := integrity_handler (request_Method request) in
  if quorum || negb (CanBeProcessed handler) then
    let '(response, w) := Unary_ProcessRequest strategy request w in (Some response, w)
  else
    let '((result, request'), (_, w)) := executeUnaryRequest strategy request new_strategy_state w in
    match result with
    | inl err => (Some (totalFailureWrapper request' err), w)
    | inr response =>
      if HasError (Response response) then (Some response, w)
      else integrity_handleResponse handler request' response w
    end.
End Unary.

(** ** Cached requests *)

(** The store runs in a goroutine of its own; here it has run. *)
Definition Cache_ProcessRequest {W : Type} `{ResponseCache W} (quorum : bool)
    (delegate : RequestHolder -> W -> option ResponseHolderWrapper * W) (request : RequestHolder) (w : W)
    : option ResponseHolderWrapper * W :=
  if quorum then delegate request w
  else
    match cache_Receive request w with
    | (Some result, w) =>
      (Some (empty_wrapper NoUpstream (request_Id request)
         (NewSimpleHttpUpstreamResponse (request_Id request) result (request_RequestType request))), w)
    | (None, w) =>
      let '(processed, w) := delegate request w in
      match processed with
      | Some wrapper =>
        let response := Response wrapper in
        (processed, if negb (HasError response) && negb (HasStream response)
                    then cache_Store request (ResponseResult response) w else w)
      | None => (processed, w)
      end
    end.

(** ** Local requests *)

(** The subscriptions of a client; [canceled] are the subscriptions whose
    [CancelFunc] was called. *)
Record SubCtx := mkSubCtx {
  subscriptions : gmap string nat;
  canceled : list nat;
  subscriptionResult : bool;
}.

Definition NewSubCtx : SubCtx := mkSubCtx ∅ [] false.

Definition AddSub (sub : string) (cancel : nat) (s : SubCtx) : SubCtx :=
  mkSubCtx (<[sub := cancel]> (subscriptions s)) (canceled s) (subscriptionResult s).

Definition Unsubscribe (sub : string) (s : SubCtx) : SubCtx :=
  match subscriptions s !! sub with
  | Some cancel => mkSubCtx (delete sub (subscriptions s)) (canceled s ++ [cancel]) (subscriptionResult s)
  | None => s
  end.

Definition sub_Exists (sub : string) (s : SubCtx) : bool := bool_decide (is_Some (subscriptions s !! sub)).

(** [sonic.Get(body, "params", 0)] and its text. *)
Class FirstParam := first_param : string -> GoError + string.

Definition processedServerError (request : RequestHolder) (cause : GoError) : ResponseHolderWrapper :=
  totalFailureWrapper request (RespError (ServerErrorWithCause cause)).

Definition local_answer (request : RequestHolder) (result : string) : ResponseHolderWrapper :=
  empty_wrapper NoUpstream (request_Id request)
    (NewSimpleHttpUpstreamResponse (request_Id request) result (request_RequestType request)).

Definition Local_ProcessRequest `{MethodParsers} `{FirstParam} (chainId netVersion : string) (m : Method)
    (request : RequestHolder) (subCtx : option SubCtx) : option ResponseHolderWrapper * option SubCtx :=
  if negb (local m) then
    (Some (processedServerError request (OtherError ("method '" +:+ request_Method request +:+ "' is not local"))), subCtx)
  else if bool_decide (request_Method request = "eth_chainId") then (Some (local_answer request (quoted chainId)), subCtx)
  else if bool_decide (request_Method request = "net_version") then (Some (local_answer request (quoted netVersion)), subCtx)
  else
    match subCtx with
    | Some ctx =>
      let body := match request_Body request with inr body => body | inl _ => "" end in
      match first_param body with
      | inl err => (Some (processedServerError request err), subCtx)
      | inr value =>
        match ResultAsString value with
        | None => (None, subCtx)
        | Some sub => (Some (local_answer request "true"), Some (Unsubscribe sub ctx))
        end
      end
    | None =>
      (Some (totalFailureWrapper request
         (OtherError ("there is no local handler for method '" +:+ request_Method request +:+ "'"))), subCtx)
    end.

(** ** Where the responses come from *)

Section ExecuteFacts.
Context {W : Type} `{NT : Net W} `{LM : Limiters W} `{CH : Chain W} `{FL : FlowExecutorLaws W} `{RT : RpcTags}.
Context `{MR : MapRange} `{MP : MethodParsers} `{TJ : TranslationJson} (reg : Registry).

(** A response was sent by an upstream the strategy selected for the request. *)
Definition selected_by (strategy : UpstreamStrategy) (r : RequestHolder) (up : string) : Prop :=
  exists r' s (w : W) sw, same_request r r' /\ strategy_Select strategy r' s w = (inr up, sw).

Lemma selected_by_same strategy r r' up : same_request r r' -> selected_by strategy r' up -> selected_by strategy r up.
Proof using Type. intros Hr (r2 & s & w & sw & Hr2 & Hsel). exists r2, s, w, sw. split; [by eapply same_request_trans|done]. Qed.

Lemma executeUnaryRequest_same strategy r s w res r' sw :
  executeUnaryRequest reg strategy r s w = ((res, r'), sw) -> same_request r r'.
Proof using Type.
  unfold executeUnaryRequest. pose proof (ParseParams_same r) as Hs. destruct (ParseParams r) as [param r1].
  destruct (execute _ _ _ _) as [result sw1]. by intros [= <- <- <-].
Qed.

Lemma executeUnaryRequest_from strategy r s w wr r' sw :
  executeUnaryRequest reg strategy r s w = ((inr wr, r'), sw) ->
  tagged (W := W) r wr /\ selected_by strategy r (UpstreamId wr).
Proof using FL.
  unfold executeUnaryRequest. pose proof (ParseParams_same r) as Hs. destruct (ParseParams r) as [param r1]. simpl in Hs.
  destruct (execute _ _ _ _) as [result sw1] eqn:E. intros [= -> <- <-].
  apply execute_result in E as (i & s1 & w1 & sw2 & E). unfold unary_attempt in E.
  destruct (attempt reg _ r1 param s1 w1) as [[err|wr'] sw3] eqn:Ea; [done|]. injection E as -> ->.
  apply attempt_from in Ea as [Hid [sw' Hsel]]. split; [|exists r1, s1, w1; by eauto].
  eapply tagged_same; [|exact Hid]. by destruct Hs as [<- _].
Qed.

(** The id of the request, and where a response without an error comes from. *)
Definition comes_from (strategy : UpstreamStrategy) (r : RequestHolder) (wr : ResponseHolderWrapper) : Prop :=
  tagged (W := W) r wr /\ (HasError (Response wr) = true \/ selected_by strategy r (UpstreamId wr)).

Lemma failure_comes_from strategy r r' err : same_request r r' -> comes_from strategy r (totalFailureWrapper r' err).
Proof using Type.
  intros (Hid & _). split; [|left; apply totalFailureWrapper_HasError].
  eapply tagged_same; [exact Hid|]. apply failure_tagged.
Qed.

Lemma or_failure_comes_from strategy r s w res r' sw :
  executeUnaryRequest reg strategy r s w = ((res, r'), sw) -> comes_from strategy r (or_failure r' res).
Proof using FL.
  intros E. destruct res as [err|wr].
  - apply failure_comes_from. by eapply executeUnaryRequest_same.
  - apply executeUnaryRequest_from in E as [Hid Hsel]. split; [done|by right].
Qed.

Lemma Unary_comes_from specName strategy r w wr w' :
  Unary_ProcessRequest reg specName strategy r w = (wr, w') -> comes_from strategy r wr.
Proof using FL.
  unfold Unary_ProcessRequest. destruct (IsSubscribeMethod _ _ _).
  - intros [= <- <-]. apply failure_comes_from, same_request_refl.
  - destruct (executeUnaryRequest _ _ _ _ _) as [[res r'] [s w1]] eqn:E. intros [= <- <-].
    by eapply or_failure_comes_from.
Qed.

Lemma strip_sticky_same r : same_request r (strip_sticky r).
Proof using Type.
  unfold strip_sticky. pose proof (ParseParams_same r) as Hs. destruct (ParseParams r) as [param r1]. simpl in Hs.
  destruct param; try done. destruct (sticky_payload value); [|done].
  eapply same_request_trans; [done|apply ModifyParams_same].
Qed.

(** The response to a sticky creation has no headers. *)
Lemma Sticky_comes_from strategy m r s w wr w' :
  Sticky_ProcessRequest reg strategy m r s w = (Some wr, w') ->
  comes_from strategy r wr /\
  (HasError (Response wr) = false -> IsStickySend m = false -> ResponseHeaders (Response wr) = Some ∅).
Proof using FL.
  unfold Sticky_ProcessRequest. destruct (IsStickySend m).
  - destruct (executeUnaryRequest _ _ _ _ _) as [[res r'] [s1 w1]] eqn:E. intros [= <- <-]. split; [|done].
    destruct (or_failure_comes_from _ _ _ _ _ _ _ E) as [Hid Hsel]. pose proof (strip_sticky_same r) as Hs.
    split; [by eapply tagged_same; [|exact Hid]; destruct Hs|]. destruct Hsel; [by left|right; by eapply selected_by_same].
  - destruct (IsStickyCreate m).
    + destruct (executeUnaryRequest _ _ _ _ _) as [[[err|wr0] r'] [s1 w1]] eqn:E.
      * intros [= <- <-]. pose proof (executeUnaryRequest_same _ _ _ _ _ _ _ E) as Hs. split; [by apply failure_comes_from|].
        by rewrite totalFailureWrapper_HasError.
      * apply executeUnaryRequest_from in E as [Hid Hsel].
        destruct (HasError (Response wr0)) eqn:Ee; [intros [= <- <-]; by split; [split; [|left]|rewrite Ee]|].
        destruct (sticky_body _ _) as [body|]; [|done]. simpl. intros [= <- <-]. split; [|done].
        split; [|by right]. by split; destruct Hid.
    + intros [= <- <-]. split; [apply failure_comes_from, same_request_refl|].
      intros He. by rewrite totalFailureWrapper_HasError in He.
Qed.

Lemma Integrity_quorum `{HexUtil} `{Json} specName strategy r w :
  Integrity_ProcessRequest reg specName true strategy r w =
    let '(wr, w') := Unary_ProcessRequest reg specName strategy r w in (Some wr, w').
Proof using Type. done. Qed.

Lemma Integrity_id `{HexUtil} `{Json} specName quorum strategy r w wr w' :
  Integrity_ProcessRequest reg specName quorum strategy r w = (Some wr, w') -> tagged (W := W) r wr.
Proof using FL.
  unfold Integrity_ProcessRequest. destruct (quorum || _).
  { destruct (Unary_ProcessRequest _ _ _ _ _) as [wr0 w0] eqn:E. intros [= <- <-]. by apply Unary_comes_from in E as [Hid _]. }
  destruct (executeUnaryRequest _ _ _ _ _) as [[[err|wr0] r1] [s1 w1]] eqn:E.
  { intros [= <- <-]. eapply tagged_same; [|apply failure_tagged]. by destruct (executeUnaryRequest_same _ _ _ _ _ _ _ E). }
  pose proof (executeUnaryRequest_same _ _ _ _ _ _ _ E) as Hs1. apply executeUnaryRequest_from in E as [Hid _].
  destruct (HasError _); [by intros [= <- <-]|]. unfold integrity_handleResponse.
  pose proof (ParseParams_same r1) as Hs2. destruct (ParseParams r1) as [param r2]. simpl in Hs2.
  destruct (HandleResponse _ _ _ _) as [[[send ids] block]|]; [|done].
  destruct (_ || _); [by intros [= <- <-]|].
  destruct (executeUnaryRequest _ _ _ _ _) as [[[err|wr1] r3] [s3 w3]] eqn:E3; [by intros [= <- <-]|].
  apply executeUnaryRequest_from in E3 as [Hid3 _].
  destruct (HandleResponse _ _ wr1 _) as [[[send3 ids3] block3]|]; [|done]. intros [= <- <-].
  destruct Hs1 as [Hs1 _], Hs2 as [Hs2 _]. eapply tagged_same; [|exact Hid3]. congruence.
Qed.
End ExecuteFacts.
