(* ===== verification/Flow.v ===== *)
(** The execution flow of requests
    ([internal/upstreams/flow/execution_flow.go], [method_hook.go], the options of
    [internal/config/upstream_config.go] it reads and
    [internal/quorum/context.go]): the strategy and the processor of a request,
    the verification of quorum reads, and what is answered. *)

From S2P Require Import Prelude.
From S2P Require Import GoStrings.
From S2P Require Import Protocol.
From S2P Require Import Errors.
From S2P Require Import Config.
From S2P Require Import Responses.
From S2P Require Import Specs.
From S2P Require Import Methods.
From S2P Require Import UpstreamState.
From S2P Require Import Matchers.
From S2P Require Import Strategy.
From S2P Require Import ChainState.
From S2P Require Import ChainSupervisor.
From S2P Require Import Quorum.
From S2P Require Import Requests.
From S2P Require Import MethodTranslation.
From S2P Require Import Send.
From S2P Require Import Dispatch.
From S2P Require Import Processors.
From Stdlib Require Import Ascii.

(** ** Configuration *)

(** A loaded configuration has no null entry to panic on. *)
Definition label_balancing (u : UpstreamConfig) (chain : string) : option LabelBalancingConfig :=
  default None (LabelBalancingFor u chain).

Definition dispatchEnabled (u : UpstreamConfig) (chain : string) (policy : DispatchPolicy) : bool :=
  let options := GetDispatchOptions u chain in
  match policy with
  | DispatchBroadcast => default false (do_Broadcast options)
  | DispatchMaximumValue => default false (do_MaximumValue options)
  | DispatchNotNull => default false (do_NotNull options)
  | DispatchDefault => false
  end.

(** ** The strategy of a request *)

Section Strategy.
Context {W : Type} `{NT : Net W} `{MP : MethodParsers} `{MR : MapRange}.
Context (cfg : UpstreamConfig) (chain : string) (predict : option PredictView) (group_labels : string -> gset string).

(** [GetSortedUpstreams] of the rating registry, for the chain and a method. *)
Context (rating : string -> list string).

Definition hasHttpConnector (id : string) (t : RequestType) : bool :=
  match t with Rest => net_connector id RestConnector | _ => net_connector id JsonRpcConnector end.

Definition filterQuorumCapableUpstreams (upstreamIds : list string) (t : RequestType) : list string :=
  filter (fun id => net_upstream id && (net_drpc id && hasHttpConnector id t) = true) upstreamIds.

Definition NewLabelGroupStrategy (method : string) (l : LabelBalancingConfig) (matchers : list Matcher)
    (order : option UpstreamOrder) : UpstreamStrategy :=
  LabelGroupStrategy
    (PartitionLabelGroups (rating method) (lb_Order l) (default true (lb_IncludeDefault l))
       (fun id => if net_upstream id then group_labels id else ∅))
    (lb_PassOnError l) matchers order.

Definition sticky_matchers (request : RequestHolder) : list Matcher * RequestHolder :=
  let '(param, request) := ParseParams request in
  ([UpstreamIndexMatcher (match param with StringParam value => sticky_index value | _ => "" end)], request).

Definition createStrategy (quorumRequested : bool) (view : ChainView) (request : RequestHolder)
    : UpstreamStrategy * RequestHolder :=
  let '(matchers, order) := buildSelectorRouting (Selectors request) predict (Some view) in
  if request_IsSubscribe request then (GenericStrategy matchers order, request)
  else
    let stickySend := match SpecMethod request with Some m => IsStickySend m | None => false end in
    let dispatchPolicy := match SpecMethod request with Some m => dispatch m | None => DispatchDefault end in
    if quorumRequested && stickySend then
      (FailingStrategy (QuorumNotSupportedError "sticky-send methods"), request)
    else if quorumRequested && negb (bool_decide (dispatchPolicy = DispatchDefault)) then
      (FailingStrategy (QuorumNotSupportedError "dispatch methods"), request)
    else
      let '(sticky, request) := if stickySend then sticky_matchers request else ([], request) in
      let matchers := matchers ++ sticky in
      let method := request_Method request in
      if quorumRequested then
        match filterQuorumCapableUpstreams (rating method) (request_RequestType request) with
        | [] =>
          (FailingStrategy (QuorumNotSupportedError
             "no DRPC upstream with an HTTP connector available for this chain"), request)
        | drpcIds => (SpecificOrderUpstreamStrategy drpcIds matchers order, request)
        end
      else
        match label_balancing cfg chain with
        | Some l => (NewLabelGroupStrategy method l matchers order, request)
        | None =>
          if bool_decide (BalancingStrategyFor cfg chain = "base") then (GenericStrategy matchers order, request)
          else (RatingStrategy (rating method) matchers order, request)
        end.

(** ** The processor of a request *)

Inductive Processor :=
| SubscriptionProcessor
| LocalProcessor
| StickyProcessor
| UnaryProcessor
| NotNullProcessor
| FanoutProcessor (policy : DispatchPolicy)
| IntegrityProcessor
| CacheProcessor (delegate : Processor).

Inductive RequestKind := SubscriptionKind | LocalKind | UnaryKind.

Definition isStickyRequest (m : Method) : bool := IsStickyCreate m || IsStickySend m.

Definition shouldEnforceIntegrity (m : Method) : bool := default false (uc_Integrity cfg) && enforceIntegrity m.

(** The kind is what the request's observer is told. *)
Definition createRequestProcessor (isSubscribe : bool) (m : Method) : Processor * RequestKind :=
  if isSubscribe then (SubscriptionProcessor, SubscriptionKind)
  else if local m then (LocalProcessor, LocalKind)
  else if isStickyRequest m then (StickyProcessor, UnaryKind)
  else if negb (bool_decide (dispatch m = DispatchDefault)) then
    (if dispatchEnabled cfg chain (dispatch m) then
       if bool_decide (dispatch m = DispatchNotNull) then CacheProcessor NotNullProcessor
       else FanoutProcessor (dispatch m)
     else CacheProcessor UnaryProcessor, UnaryKind)
  else if shouldEnforceIntegrity m then (IntegrityProcessor, UnaryKind)
  else (CacheProcessor UnaryProcessor, UnaryKind).
End Strategy.

(** ** Block tags *)

(** Whether the chain's settings say a tag is not supported. *)
Record ChainTags := mkChainTags { SupportFinalizedBlockTag : option bool; SupportSafeBlockTag : option bool }.

Section Tags.
Context `{RT : RpcTags} `{QU : Quoting} (chain : string) (settings : ChainTags).

Definition check_tag (n : Z) : option ResponseError :=
  if n =? FinalizedBlockNumber then
    if bool_decide (SupportFinalizedBlockTag settings = Some false)
    then Some (UnsupportedBlockTagError chain "finalized") else None
  else if n =? SafeBlockNumber then
    if bool_decide (SupportSafeBlockTag settings = Some false)
    then Some (UnsupportedBlockTagError chain "safe") else None
  else None.

Definition unsupportedBlockTagError (param : MethodParam) : option ResponseError :=
  match param with
  | BlockNumberParam n => check_tag n
  | BlockRangeParam from to =>
    match from ≫= check_tag with
    | Some err => Some err
    | None => to ≫= check_tag
    end
  | _ => None
  end.
End Tags.

(** ** Quorum verification *)

Inductive VerifyError := VerificationFailed (e : QuorumError) | QuorumNotSupported (reason : string).

(** The text of the error of a malformed header. *)
Class HeaderErrors := malformed_text : string -> HeaderCause -> string.

Section Quorum.
Context `{CR : Crypto} `{FO : Folding} `{SS : SliceSort} `{MR : MapRange} `{QU : Quoting} `{HE : HeaderErrors}.
Context `{MP : MethodParsers} `{JS : Json}.

Definition ToResponseError (err : VerifyError) : ResponseError :=
  match err with
  | VerificationFailed (UnknownProviderError provider _) => QuorumUnknownProviderError provider
  | VerificationFailed (InvalidSignatureError provider _ _) => QuorumInvalidSignatureError provider
  | VerificationFailed (InsufficientSignaturesError got required) => QuorumInsufficientSignaturesError got required
  | VerificationFailed (MalformedHeaderError header cause) =>
      QuorumMalformedHeaderError (OtherError (malformed_text header cause))
  | VerificationFailed (UnexpectedRequestIDError expected got _) => QuorumUnexpectedRequestIDError expected got
  | QuorumNotSupported reason => QuorumNotSupportedError reason
  | VerificationFailed MissingSignaturesError => QuorumMissingSignaturesError
  end.

(** The id the upstream echoes: only JSON-RPC requests expose it. *)
Definition expected_request_id (request : RequestHolder) : string :=
  match request with JsonRpcRequest u => RealId u | RestRequest u => ur_id u end.

Definition verify_response (keys : gmap string PublicKey) (params : Params) (request : RequestHolder)
    (response : ResponseHolder) : option VerifyError :=
  if HasStream response
  then Some (QuorumNotSupported "upstream returned a stream; quorum requires a buffered body")
  else
    match ResponseHeaders response with
    | None => Some (QuorumNotSupported "upstream response does not carry HTTP headers")
    | Some headers =>
      VerificationFailed <$>
        VerifyHeaders keys headers (ResponseResult response) (expected_request_id request) (p_Quorum params)
    end.

Definition with_response (response : ResponseHolder) (w : ResponseHolderWrapper) : ResponseHolderWrapper :=
  mkWrapper (UpstreamId w) (RequestId w) (UpstreamNodeVersion w) (FinalizationBlockType w) (FinalizationBlock w) response.

Definition verifyQuorumSignatures (keys : option (gmap string PublicKey)) (params : option Params)
    (request : RequestHolder) (wrapper : ResponseHolderWrapper) : ResponseHolderWrapper :=
  match keys, params with
  | Some keys, Some params =>
    if HasError (Response wrapper) then wrapper
    else
      match verify_response keys params request (Response wrapper) with
      | None => wrapper
      | Some err =>
        with_response (NewTotalFailureFromErr (RequestId wrapper) (RespError (ToResponseError err))
                         (request_RequestType request)) wrapper
      end
  | _, _ => wrapper
  end.
End Quorum.

(** ** Hooks *)

(** [MethodBanHook], whose ban runs in a goroutine of its own. *)
Definition OnResponseReceived {W : Type} `{Net W} (request : RequestHolder) (wrapper : ResponseHolderWrapper) (w : W) : W :=
  if HasError (Response wrapper) &&
     bool_decide (ClassifyMethodAvailability (GetError (Response wrapper)) = MethodNotAvailable) &&
     net_upstream (UpstreamId wrapper)
  then net_BanMethod (UpstreamId wrapper) (request_Method request) w else w.

(** ** Answering a request *)

(** The subscriptions of the client that sent the requests, and the end of its
    context. *)
Class Client (W : Type) := {
  client_subCtx : W -> option SubCtx;
  set_client_subCtx : option SubCtx -> W -> W;
  ctx_err : W -> option GoError;
}.

Section Answer.
Context {W : Type} `{NT : Net W} `{LM : Limiters W} `{CH : Chain W} `{FE : FlowExecutor W} `{CL : Client W}.
Context `{RC : ResponseCache W} `{RT : RpcTags} `{MR : MapRange} `{MP : MethodParsers} `{TJ : TranslationJson}.
Context `{HU : HexUtil} `{JS : Json} `{QU : Quoting} `{FP : FirstParam}.
Context `{CR : Crypto} `{FO : Folding} `{SS : SliceSort} `{HE : HeaderErrors}.
Context (reg : Registry) (specName chainId netVersion : string).
Context (cfg : UpstreamConfig) (chain : string) (settings : ChainTags) (predict : option PredictView)
  (group_labels : string -> gset string) (rating : string -> list string).

(** The parameters of a quorum read, when the client asked for one, and the keys
    of the providers, when quorum is configured. *)
Context (quorum : option Params) (keys : option (gmap string PublicKey)).

Definition quorum_requested : bool := bool_decide (is_Some quorum).

(** Selecting, with the strategy's state and the world together. *)
Definition select_pair (strategy : UpstreamStrategy) (request : RequestHolder) (sw : StrategyState * W)
    : (ResponseError + string) * (StrategyState * W) := strategy_Select strategy request sw.1 sw.2.

(** The events of a fan-out come from sends to the upstreams, in any order and in
    any worlds. *)
Definition fanout_events_ok (request : RequestHolder) (param : MethodParam) (events : list FanoutEvent) : Prop :=
  forall r, ResultReceived r ∈ events -> exists id w1 w2, fanout_send reg request param id w1 = (r, w2).

Inductive processes (strategy : UpstreamStrategy) : Processor -> RequestHolder -> W -> ResponseHolderWrapper -> W -> Prop :=
| processes_unary r w wr w' :
    Unary_ProcessRequest reg specName strategy r w = (wr, w') -> processes strategy UnaryProcessor r w wr w'
| processes_sticky r m w wr w' :
    SpecMethod r = Some m -> Sticky_ProcessRequest reg strategy m r new_strategy_state w = (Some wr, w') ->
    processes strategy StickyProcessor r w wr w'
| processes_integrity r w wr w' :
    Integrity_ProcessRequest reg specName quorum_requested strategy r w = (Some wr, w') ->
    processes strategy IntegrityProcessor r w wr w'
| processes_local r m w wr sub :
    SpecMethod r = Some m -> Local_ProcessRequest chainId netVersion m r (client_subCtx w) = (Some wr, sub) ->
    processes strategy LocalProcessor r w wr (set_client_subCtx sub w)
| processes_not_null r fuel selection s w1 w wr w' :
    collectDispatchUpstreamIDs (select_pair strategy r) fuel (new_strategy_state, w) = Some (selection, (s, w1)) ->
    NotNull_ProcessRequest reg ctx_err selection (ParseParams r).2 (ParseParams r).1 w1 = (wr, w') ->
    processes strategy NotNullProcessor r w wr w'
| processes_fanout policy r fuel selection s w1 w events wr w' :
    collectDispatchUpstreamIDs (select_pair strategy r) fuel (new_strategy_state, w) = Some (selection, (s, w1)) ->
    fanout_events_ok (ParseParams r).2 (ParseParams r).1 events ->
    fanout_answer policy selection (ParseParams r).2 events = Some (Some wr) ->
    processes strategy (FanoutProcessor policy) r w wr w'
| processes_cache_quorum p r w wr w' :
    quorum_requested = true -> processes strategy p r w wr w' -> processes strategy (CacheProcessor p) r w wr w'
| processes_cache_hit p r w result w' :
    quorum_requested = false -> cache_Receive r w = (Some result, w') ->
    processes strategy (CacheProcessor p) r w (local_answer r result) w'
| processes_cache_miss p r w w1 wr w2 :
    quorum_requested = false -> cache_Receive r w = (None, w1) -> processes strategy p r w1 wr w2 ->
    processes strategy (CacheProcessor p) r w wr
      (if negb (HasError (Response wr)) && negb (HasStream (Response wr))
       then cache_Store r (ResponseResult (Response wr)) w2 else w2).

(** [processRequest] for a request that is not a subscription. *)
Inductive answers (r : RequestHolder) (w : W) : ResponseHolderWrapper -> W -> Prop :=
| answers_no_spec :
    SpecMethod r = None ->
    answers r w (totalFailureWrapper r (RespError (NotSupportedMethodError (request_Method r)))) w
| answers_bad_tag m err strategy r1 :
    SpecMethod r = Some m -> createStrategy cfg chain predict group_labels rating quorum_requested
      (supervisor_view (chain_supervisor w)) r = (strategy, r1) ->
    unsupportedBlockTagError chain settings (ParseParams r1).1 = Some err ->
    answers r w (totalFailureWrapper r (RespError err)) w
| answers_processed m strategy r1 wr w' :
    SpecMethod r = Some m -> createStrategy cfg chain predict group_labels rating quorum_requested
      (supervisor_view (chain_supervisor w)) r = (strategy, r1) ->
    unsupportedBlockTagError chain settings (ParseParams r1).1 = None ->
    processes strategy (createRequestProcessor cfg chain false m).1 (ParseParams r1).2 w wr w' ->
    answers r w (verifyQuorumSignatures keys quorum r wr) (OnResponseReceived r (verifyQuorumSignatures keys quorum r wr) w').
End Answer.

(** ** What the flow guarantees *)

Section Guarantees.
Context {W : Type} `{NT : Net W} `{LM : Limiters W} `{CH : Chain W} `{FL : FlowExecutorLaws W} `{CL : Client W}.
Context `{RC : ResponseCache W} `{RT : RpcTags} `{MR : MapRange} `{MP : MethodParsers} `{TJ : TranslationJson}.
Context `{HU : HexUtil} `{JS : Json} `{QU : Quoting} `{FP : FirstParam}.
Context `{CR : Crypto} `{FO : Folding} `{SS : SliceSort} `{HE : HeaderErrors}.
Context (reg : Registry) (specName chainId netVersion : string).
Context (cfg : UpstreamConfig) (chain : string) (settings : ChainTags) (predict : option PredictView)
  (group_labels : string -> gset string) (rating : string -> list string).
Context (quorum : option Params) (keys : option (gmap string PublicKey)).

Let create := createStrategy cfg chain predict group_labels rating (quorum_requested quorum).
Let proc := processes (W := W) reg specName chainId netVersion quorum.

(** *** Every response carries the id of its request *)

Lemma fanout_send_id r param id (w : W) res w' wr :
  fanout_send reg r param id w = (res, w') -> fr_wrapper res = Some wr -> tagged (W := W) r wr.
Proof using Type.
  unfold fanout_send. destruct (net_upstream id); [|by intros [= <- <-]].
  destruct (sendUnaryRequest reg id r param w) as [[err|wr0] w1] eqn:E; intros [= <- <-]; [done|].
  simpl. intros [= <-]. by apply sendUnaryRequest_from in E as [_ Hid].
Qed.

Lemma final_wrapper_id r selected fallback lastErr :
  (forall wr, selected = Some wr \/ fallback = Some wr -> tagged (W := W) r wr) ->
  tagged (W := W) r (final_wrapper r selected fallback lastErr).
Proof using Type. intros Hw. destruct selected, fallback, lastErr; simpl; auto using failure_tagged. Qed.

Lemma success_wrapper m res wr : success_of m res = Some wr \/ failure_of m res = Some wr -> fr_wrapper res = Some wr.
Proof using Type.
  unfold success_of, failure_of, usable. destruct (fr_err res); [by intros []|].
  destruct (fr_wrapper res) as [w|]; [|by intros []]. destruct (HasStream _); [by intros []|].
  destruct (HasError _); by intros [[= ->]|[= ->]].
Qed.

Lemma head_omap {A B} (f : A -> option B) l x : head (omap f l) = Some x -> exists a, a ∈ l /\ f a = Some x.
Proof using Type.
  destruct (omap f l) as [|y ys] eqn:E; [done|]. intros [= ->].
  assert (x ∈ omap f l) as (a & Ha & Hf)%list_elem_of_omap by (rewrite E; by left). eauto.
Qed.

Lemma broadcast_final_id r rs :
  (forall res wr, res ∈ rs -> fr_wrapper res = Some wr -> tagged (W := W) r wr) ->
  tagged (W := W) r (broadcast_Final r (foldl broadcast_Record (mkBroadcast None None None) rs)).
Proof using Type.
  intros Hrs. rewrite broadcast_fold. apply final_wrapper_id. simpl.
  intros wr [(res & Hin & Hres)%head_omap|(res & Hin & Hres)%head_omap]; eapply Hrs; try done; eapply success_wrapper; eauto.
Qed.

Definition max_ids (r : RequestHolder) (a : maximumValueAggregator) : Prop :=
  forall wr, m_selected a = Some wr \/ m_fallback a = Some wr -> tagged (W := W) r wr.

Lemma maximum_Record_id r a res a' :
  (forall wr, fr_wrapper res = Some wr -> tagged (W := W) r wr) ->
  max_ids r a -> maximum_Record a res = Some a' -> max_ids r a'.
Proof using Type.
  intros Hres Ha. unfold maximum_Record. destruct (usable _ res) as [err|wr] eqn:Eu; [by intros [= <-]|].
  assert (tagged (W := W) r wr) as Hw.
  { apply Hres. unfold usable in Eu. destruct (fr_err res); [done|]. destruct (fr_wrapper res) as [w|]; [|done].
    destruct (HasStream _); by simplify_eq. }
  destruct (HasError (Response wr)).
  { intros [= <-] x [Hx|Hx]; [apply Ha; by left|]. simpl in Hx. unfold or_first in Hx.
    destruct (m_fallback a) eqn:Ef; [apply Ha; right; congruence|by simplify_eq]. }
  destruct (parseHexQuantityResult _) as [[err|v]|]; [by intros [= <-]| |done].
  destruct (match m_max a with None => true | Some max => max <? v end); intros [= <-]; [|done].
  intros x [[= <-]|Hx]; [done|apply Ha; by right].
Qed.

Lemma maximum_final_id r rs a :
  (forall res wr, res ∈ rs -> fr_wrapper res = Some wr -> tagged (W := W) r wr) ->
  foldl (fun a r => a ≫= fun a => maximum_Record a r) (Some (mkMaximum None None None None)) rs = Some a ->
  max_ids r a.
Proof using Type.
  revert a. induction rs as [|res rs IH] using rev_ind; intros a Hrs E.
  - injection E as <-. by intros wr [|].
  - rewrite foldl_app in E. simpl in E.
    destruct (foldl (fun a r => a ≫= fun a => maximum_Record a r) (Some (mkMaximum None None None None)) rs) as [a0|] eqn:E0; [|done].
    eapply maximum_Record_id; [| |exact E].
    + intros wr. apply Hrs. rewrite elem_of_app. right. by left.
    + apply IH; [|done]. intros res' wr Hin. apply Hrs. rewrite elem_of_app. by left.
Qed.

Lemma fanout_collect_values m events c (P : fanoutResult -> Prop) :
  (forall id res, m !! id = Some res -> P res) -> (forall res, ResultReceived res ∈ events -> P res) ->
  fanout_collect m events = Some (inr c) -> forall id res, c !! id = Some res -> P res.
Proof using Type.
  revert m. induction events as [|e events IH]; intros m Hm He; [done|]. destruct e as [res| |err]; simpl.
  - apply IH.
    + unfold put_result. intros id res'. rewrite lookup_insert. case_decide; [intros [= <-]; apply He; by left|apply Hm].
    + intros res' Hin. apply He. by right.
  - intros [= <-]. exact Hm.
  - done.
Qed.

Lemma fanout_answer_id policy selection r param events wr :
  fanout_events_ok (W := W) reg r param events -> fanout_answer policy selection r events = Some (Some wr) ->
  tagged (W := W) r wr.
Proof using Type.
  intros Hev. unfold fanout_answer. destruct selection as [err|ids]; [intros [= <-]; apply failure_tagged|].
  destruct (fanout_collect ∅ events) as [[err|c]|] eqn:Ec; [intros [= <-]; apply failure_tagged| |done].
  assert (forall res wr, res ∈ omap (fun id => c !! id) ids -> fr_wrapper res = Some wr -> tagged (W := W) r wr) as Hrs.
  { intros res wr' (id & _ & Hl)%list_elem_of_omap Hw.
    eapply (fanout_collect_values ∅ events c (fun res => forall wr, fr_wrapper res = Some wr -> tagged (W := W) r wr));
      [| |exact Ec|exact Hl|exact Hw].
    - intros id' res'. by rewrite lookup_empty.
    - intros res' Hin wr0 Hw0. destruct (Hev res' Hin) as (id' & w1 & w2 & E). by eapply fanout_send_id. }
  unfold fanout_final. destruct policy; try (intros [= <-]; by apply broadcast_final_id).
  destruct (foldl _ _ _) as [a|] eqn:E; [|done]. intros [= <-]. apply final_wrapper_id. by eapply maximum_final_id.
Qed.

Lemma not_null_loop_id r param ids n f l (w : W) wr w' :
  (forall x, n = Some x \/ f = Some x -> tagged (W := W) r x) ->
  not_null_loop reg ctx_err r param ids n f l w = (wr, w') -> tagged (W := W) r wr.
Proof using Type.
  revert n f l w. induction ids as [|id ids IH]; intros n f l w Hnf; cbn [not_null_loop].
  - intros [= <- <-]. by apply final_wrapper_id.
  - destruct (ctx_err w); [intros [= <- <-]; apply failure_tagged|]. destruct (net_upstream id); [|by apply IH].
    destruct (sendUnaryRequest reg id r param w) as [[err|x] w1] eqn:E; [by apply IH|].
    apply sendUnaryRequest_from in E as [_ Hid].
    assert (forall o : option ResponseHolderWrapper, forall y, or_first o x = Some y -> y = x \/ o = Some y) as Hor
      by (intros [o|] y [= ->]; auto).
    destruct (HasStream _); [by intros [= <- <-]|]. destruct (HasError _).
    { apply IH. intros y [Hy|[->|Hy]%Hor]; auto. }
    destruct (isNullResponse _); [|by intros [= <- <-]].
    apply IH. intros y [[->|Hy]%Hor|Hy]; auto.
Qed.

Lemma processes_id strategy p r w wr w' : proc strategy p r w wr w' -> tagged (W := W) r wr.
Proof using FL.
  unfold proc. induction 1 as [r w wr w' E|r m w wr w' Hm E|r w wr w' E|r m w wr sub Hm E|r fuel sel s w1 w wr w' Ec E
    |policy r fuel sel s w1 w ev wr w' Ec Hev E|p r w wr w' Hq _ IH|p r w res w' Hq E|p r w w1 wr w2 Hq Ec _ IH]; try done.
  - by apply Unary_comes_from in E as [Hid _].
  - by apply Sticky_comes_from in E as [[Hid _] _].
  - by eapply Integrity_id.
  - unfold Local_ProcessRequest in E. repeat case_match; simplify_eq; apply failure_tagged || by split.
  - pose proof (ParseParams_same r) as [Hid _]. eapply tagged_same; [exact Hid|]. unfold NotNull_ProcessRequest in E.
    destruct sel as [err|ids]; [injection E as <- <-; apply failure_tagged|]. eapply not_null_loop_id; [|exact E].
    by intros x [|].
  - pose proof (ParseParams_same r) as [Hid _]. eapply tagged_same; [exact Hid|]. by eapply fanout_answer_id.
Qed.
Lemma createStrategy_same view r strategy r1 : create view r = (strategy, r1) -> same_request r r1.
Proof using Type.
  unfold create, createStrategy. destruct (buildSelectorRouting _ _ _) as [matchers order].
  destruct (request_IsSubscribe r); [by intros [= <- <-]|].
  destruct (_ && _); [by intros [= <- <-]|]. destruct (_ && _); [by intros [= <- <-]|].
  pose proof (ParseParams_same r) as Hs. unfold sticky_matchers. destruct (ParseParams r) as [param r0]. simpl in Hs.
  destruct (match SpecMethod r with Some m => IsStickySend m | None => false end);
    (destruct (quorum_requested quorum);
      [by destruct (filterQuorumCapableUpstreams _ _); intros [= <- <-]|]);
    (destruct (label_balancing cfg chain); [by intros [= <- <-]|]); case_bool_decide; by intros [= <- <-].
Qed.

(** *** Quorum reads *)

Fixpoint multi (p : Processor) : bool :=
  match p with
  | NotNullProcessor | FanoutProcessor _ => true
  | CacheProcessor p => multi p
  | _ => false
  end.

Lemma collect_failing err r fuel (sw : StrategyState * W) res :
  collectDispatchUpstreamIDs (select_pair (FailingStrategy err) r) fuel sw = Some res -> res.1 = inl err.
Proof using Type. destruct fuel; [done|]. simpl. by intros [= <-]. Qed.

(** Where a response that is no error comes from when a quorum is requested. *)
Lemma processes_from strategy p r w wr w' :
  quorum_requested quorum = true -> proc strategy p r w wr w' ->
  HasError (Response wr) = true \/ ResponseHeaders (Response wr) = Some ∅ \/
  selected_by (W := W) strategy r (UpstreamId wr) \/ (multi p = true /\ forall e, strategy <> FailingStrategy e).
Proof using FL.
  unfold proc. intros Hquorum. induction 1 as [r w wr w' E|r m w wr w' Hm E|r w wr w' E|r m w wr sub Hm E|r fuel sel s w1 w wr w' Ec E
    |policy r fuel sel s w1 w ev wr w' Ec Hev E|p r w wr w' Hq Hp IH|p r w res w' Hq E|p r w w1 wr w2 Hq Ec _ IH];
    try congruence.
  - apply Unary_comes_from in E as [_ Hc]. tauto.
  - apply Sticky_comes_from in E as [[_ Hc] _]. tauto.
  - rewrite Hquorum in E. rewrite Integrity_quorum in E. destruct (Unary_ProcessRequest _ _ _ _ _) as [wr0 w0] eqn:Eu.
    injection E as <- <-. apply Unary_comes_from in Eu as [_ Hc]. tauto.
  - unfold Local_ProcessRequest, processedServerError in E.
    repeat case_match; simplify_eq; try (left; apply totalFailureWrapper_HasError); right; by left.
  - destruct strategy as [e| | | |]; try (by do 3 right). apply collect_failing in Ec. simpl in Ec. subst sel.
    simpl in E. injection E as <- <-. left. apply totalFailureWrapper_HasError.
  - destruct strategy as [e| | | |]; try (by do 3 right). apply collect_failing in Ec. simpl in Ec. subst sel.
    simpl in E. injection E as <-. left. apply totalFailureWrapper_HasError.
  - destruct IH as [?|[?|[?|[Hmulti ?]]]]; auto.
Qed.

(** The strategy of a quorum read fails or only has upstreams that can attest. *)
Definition attesting (t : RequestType) (id : string) : Prop :=
  net_drpc id = true /\ hasHttpConnector id t = true.

Lemma quorum_strategy view r m strategy r1 :
  quorum_requested quorum = true -> request_IsSubscribe r = false -> SpecMethod r = Some m ->
  create view r = (strategy, r1) ->
  (exists e, strategy = FailingStrategy e) \/
  (dispatch m = DispatchDefault /\ exists ids matchers order,
     strategy = SpecificOrderUpstreamStrategy ids matchers order /\ order_ok order /\
     forall id, id ∈ ids -> attesting (request_RequestType r) id).
Proof using Type.
  unfold create, createStrategy. intros Hq Hs Hm.
  destruct (buildSelectorRouting (Selectors r) predict (Some view)) as [matchers order] eqn:Er.
  assert (order_ok order) as Hord.
  { unfold buildSelectorRouting in Er. destruct (compile_all _ _) as [ms [spec|]]; injection Er as <- <-; [|done].
    unfold buildSelectorOrder. case_bool_decide; [done|]. intros l. apply stable_sort_perm. }
  rewrite Hs, Hq, Hm. destruct (IsStickySend m); [intros [= <- _]; by left; eexists|]. simpl.
  case_bool_decide as Hd; [|intros [= <- _]; by left; eexists]. simpl.
  destruct (filterQuorumCapableUpstreams (rating (request_Method r)) (request_RequestType r)) as [|id ids] eqn:Ef.
  - intros [= <- _]. left. by eexists.
  - intros [= <- _]. right. split; [done|]. eexists _, _, _. split; [done|]. split; [done|].
    rewrite <- Ef. intros id'. unfold filterQuorumCapableUpstreams. rewrite list_elem_of_filter. intros [Hc _].
    apply andb_true_iff in Hc as [_ Hc]. by apply andb_true_iff in Hc.
Qed.

Lemma selected_by_list ids matchers order r up :
  order_ok order -> selected_by (W := W) (SpecificOrderUpstreamStrategy ids matchers order) r up -> up ∈ ids.
Proof using Type.
  intros Hord (r' & s & w & sw & _ & E). unfold strategy_Select in E.
  destruct (ListStrategy_SelectUpstream _ _ _ _ _ _) as [res st] eqn:Es. injection E as -> <-.
  by apply select_eligible in Es as [Hin _].
Qed.

Lemma no_headers_rejected ks result expected n : VerifyHeaders ks ∅ result expected n <> None.
Proof using Type.
  intros [_ [[Hn _] _]]%VerifyHeaders_accepts. by rewrite map_to_list_empty in Hn.
Qed.
End Guarantees.

(** The flow answers a request with a response that carries the request's own id,
    whatever the strategy, the processor, the retries and the order in which
    upstreams answer. *)
Lemma answers_tagged {W : Type} `{Net W} `{Limiters W} `{Chain W} `{FlowExecutorLaws W} `{Client W}
    `{ResponseCache W} `{RpcTags} `{MapRange} `{MethodParsers} `{TranslationJson} `{HexUtil} `{Json} `{Quoting}
    `{FirstParam} `{Crypto} `{Folding} `{SliceSort} `{HeaderErrors}
    reg specName chainId netVersion cfg chain settings predict labels rating quorum keys r (w : W) wr w' :
  answers reg specName chainId netVersion cfg chain settings predict labels rating quorum keys r w wr w' ->
  tagged (W := W) r wr.
Proof.
  destruct 1 as [|m err strategy r1 Hm Hc Ht|m strategy r1 wr w' Hm Hc Ht Hp]; [apply failure_tagged..|].
  apply processes_id in Hp. apply createStrategy_same in Hc. pose proof (ParseParams_same r1) as Hs.
  assert (tagged (W := W) r wr) as Hid.
  { eapply tagged_same; [|exact Hp]. destruct Hc as [<- _]. by destruct Hs as [<- _]. }
  unfold verifyQuorumSignatures. destruct keys, quorum; try done. destruct (HasError _); [done|].
  destruct (verify_response _ _ _ _); [|done]. destruct Hid as [Hid _]. split; [done|]. intros _. etransitivity; [apply total_failure_id|done].
Qed.

(** C5. A quorum read ends in an error or in a response attested by the quorum:
    a response of a DRPC upstream that serves the request over HTTP, with valid
    signatures for the request and the result.  A cached, local, dispatched or
    sticky answer is never passed off as one. *)
Theorem quorum_read_attested {W : Type} `{Net W} `{Limiters W} `{Chain W} `{FlowExecutorLaws W} `{Client W}
    `{ResponseCache W} `{RpcTags} `{MapRange} `{MethodParsers} `{TranslationJson} `{HexUtil} `{Json} `{Quoting}
    `{FirstParam} `{Crypto} `{Folding} `{SliceSort} `{HeaderErrors}
    reg specName chainId netVersion cfg chain settings predict labels rating params keys r (w : W) wr w' :
  request_IsSubscribe r = false ->
  answers reg specName chainId netVersion cfg chain settings predict labels rating (Some params) (Some keys) r w wr w' ->
  HasError (Response wr) = true \/
  exists headers, ResponseHeaders (Response wr) = Some headers /\ HasStream (Response wr) = false /\
    VerifyHeaders keys headers (ResponseResult (Response wr)) (expected_request_id r) (p_Quorum params) = None /\
    attesting (request_RequestType r) (UpstreamId wr).
Proof.
  intros Hsub Ha. destruct Ha as [|m err strategy r1 Hm Hc Ht|m strategy r1 wr w' Hm Hc Ht Hp];
    [left; apply totalFailureWrapper_HasError..|].
  unfold verifyQuorumSignatures. destruct (HasError (Response wr)) eqn:He; [by left|].
  destruct (verify_response keys params r (Response wr)) as [err|] eqn:Ev; [left; apply TotalFailureFromErr_HasError|].
  right. unfold verify_response in Ev. destruct (HasStream (Response wr)) eqn:Est; [done|].
  destruct (ResponseHeaders (Response wr)) as [headers|] eqn:Eh; [|done]. apply fmap_None in Ev.
  exists headers. split; [done|]. split; [done|]. split; [done|].
  pose proof (createStrategy_same _ _ _ _ _ _ _ _ _ _ Hc) as Hs1. pose proof (ParseParams_same r1) as Hs2.
  apply processes_from in Hp as [?|[Hh|[Hsel|[Hmulti Hnf]]]]; [congruence| | | |done].
  - rewrite Eh in Hh. injection Hh as ->. by apply no_headers_rejected in Ev.
  - apply (selected_by_same _ r) in Hsel; [|by eapply same_request_trans].
    destruct (quorum_strategy _ _ _ _ _ (Some params) _ _ m _ _ eq_refl Hsub Hm Hc) as [[e ->]|(Hd & ids & ms & o & -> & Ho & Hat)].
    + destruct Hsel as (? & ? & ? & ? & _ & Hsel). done.
    + apply Hat. by eapply selected_by_list.
  - destruct (quorum_strategy _ _ _ _ _ (Some params) _ _ m _ _ eq_refl Hsub Hm Hc) as [[e ->]|(Hd & _)]; [by destruct (Hnf e)|].
    exfalso. unfold createRequestProcessor in Hmulti. rewrite (bool_decide_eq_true_2 (dispatch m = _)) in Hmulti by done.
    simpl in Hmulti. repeat case_match; done.
Qed.

(** ** A small world, for the witnesses: one upstream that answers every request
    with a signed result. *)

#[local] Instance demo_net : Net unit := {
  net_upstream id := bool_decide (id = "up1");
  net_specName _ := "eth";
  net_connector _ c := bool_decide (c = JsonRpcConnector);
  net_drpc _ := true;
  net_hashIndex _ := "00001";
  net_state _ _ := demo_state;
  net_head _ _ := 100;
  net_now _ := 0;
  net_send _ _ r w :=
    (GenericResponse (mkGenericResponse (request_Id r) "r" None JsonRpc None 200 {[ "Qr0-Id-9" := [demo_value] ]}), w);
  net_IncErrors _ w := w;
  net_UpdateLowerBound _ _ w := w;
  net_UpdateHead _ _ _ w := w;
  net_UpdateBlock _ _ _ w := w;
  net_BanMethod _ _ w := w;
}.

#[local] Instance demo_chain : Chain unit := {
  chain_supervisor _ := set_upstreams {[ "up1" := demo_state ]} NewGenericChainSupervisor;
  chain_rr _ := 0;
  set_chain_rr _ w := w;
}.

#[local] Instance demo_run_once : FlowExecutor unit := fun St f s w => f 0%nat s w.
#[local] Instance demo_run_once_laws : FlowExecutorLaws unit.
Proof. split. intros St f s w r sw E. by exists 0%nat, s, w, sw. Qed.

#[local] Instance demo_client : Client unit := {
  client_subCtx _ := None; set_client_subCtx _ w := w; ctx_err _ := None }.
#[local] Instance demo_cache : ResponseCache unit := { cache_Receive _ w := (Some "cached", w); cache_Store _ _ w := w }.
#[local] Instance demo_tags : RpcTags := { LatestBlockNumber := -2; SafeBlockNumber := -4; FinalizedBlockNumber := -3 }.
#[local] Instance demo_parsers : MethodParsers := no_parsers (fun _ _ params => inr params).
#[local] Instance demo_translation : TranslationJson := {
  unmarshal_body _ := inl (OtherError ""); unmarshal_params _ := None;
  unmarshal_utxos _ := inr []; marshal_unspent _ := inr "[]" }.
#[local] Instance demo_hex : HexUtil := fun _ => None.
#[local] Instance demo_first_param : FirstParam := fun _ => inr "x".
#[local] Instance demo_header_errors : HeaderErrors := fun _ _ => "".

Definition demo_method : Method := DefaultMethodWithConnectorTypes "eth_call" [JsonRpcConnector].
Definition demo_quorum_request : RequestHolder :=
  JsonRpcRequest (mkJsonRpcRequest "id1" "9" "eth_call" NoParam "[]" None (Some demo_method) [] false false false).
Definition demo_config : UpstreamConfig := mkUpstreamConfig [] ∅ None None (Some false) None "rating" DefaultMode.

#[local] Existing Instance Responses.demo_json.
#[local] Existing Instance Quorum.demo_folding.
#[local] Existing Instance Quorum.demo_sort.
#[local] Existing Instance Dispatch.demo_quoting.

#[local] Existing Instance Prelude.default_range.
#[local] Existing Instance Strategy.no_limiters.

Definition demo_answers (quorum : option Params) : ResponseHolderWrapper -> unit -> Prop :=
  answers ∅ "eth" "0x1" "1" demo_config "eth" (mkChainTags None None) None (fun _ => ∅) (fun _ => ["up1"])
    quorum (Some demo_keys) demo_quorum_request tt.

Definition demo_attested : ResponseHolderWrapper :=
  mkWrapper "up1" "id1" "" None ZeroBlock
    (GenericResponse (mkGenericResponse "id1" "r" None JsonRpc None 200 {[ "Qr0-Id-9" := [demo_value] ]})).

Lemma demo_quorum_answer : demo_answers (Some (mkParams 1 1)) demo_attested tt.
Proof.
  unfold demo_answers.
  refine (answers_processed _ _ _ _ _ _ _ _ _ _ (Some (mkParams 1 1)) (Some demo_keys) demo_quorum_request tt demo_method
    (SpecificOrderUpstreamStrategy ["up1"] [] None) demo_quorum_request demo_attested tt _ _ _ _); [done|by vm_compute|done|].
  apply processes_cache_quorum; [done|]. apply processes_unary. by vm_compute.
Qed.

Lemma quorum_read_attested_witness :
  HasError (Response demo_attested) = false /\ attesting JsonRpc (UpstreamId demo_attested).
Proof.
  split; [done|].
  destruct (quorum_read_attested ∅ "eth" "0x1" "1" demo_config "eth" (mkChainTags None None) None (fun _ => ∅)
    (fun _ => ["up1"]) (mkParams 1 1) demo_keys demo_quorum_request tt demo_attested tt eq_refl demo_quorum_answer)
    as [He|(headers & _ & _ & _ & Ha)]; [done|exact Ha].
Defined.
