(* ===== verification/LogFilters.v ===== *)
(** The filter of a client of the shared source of logs
    ([internal/upstreams/flow/log_filter.go]): what a request asks for, what a log
    shows, and when they match. *)

From S2P Require Import Prelude.
From S2P Require Import GoStrings.
From S2P Require Import JsonStream.
From S2P Require Import Errors.
From S2P Require Import Responses.
From S2P Require Import Specs.
From S2P Require Import Requests.
From Stdlib Require Import Ascii.

(** [rawLogFilter]: the text of the members, empty when absent. *)
Record rawLogFilter := mkRawLogFilter { raw_Address : string; raw_Topics : list string }.

(** What [sonic] reads of requests and logs: [params_at i body] is the text of a
    member of [params], [unmarshal_log] the address and the topics of a log, with
    the zero values of what it could not read. *)
Class LogJson := {
  params_at : Z -> string -> option string;
  unmarshal_rawLogFilter : string -> GoError + rawLogFilter;
  unmarshal_strings : string -> option (list string);
  unmarshal_log : string -> string * list string;
}.

(** ** Logs *)

Record parsedLog := mkParsedLog { log_raw : string; log_address : string; log_topics : list string }.

(** [protocol.ParsedEvent]: a log, or an event of another type, by its text. *)
Inductive ParsedEvent :=
| LogEvent (log : parsedLog)
| OtherEvent (raw : string).

Definition event_Raw (e : ParsedEvent) : string :=
  match e with LogEvent log => log_raw log | OtherEvent raw => raw end.

Definition parseLogEvent `{LogJson} (raw : string) : parsedLog :=
  let '(address, topics) := unmarshal_log raw in
  mkParsedLog raw (ToLower address) (map ToLower topics).

(** ** Filters *)

Record topicFilter := mkTopicFilter { any : bool; set : gset string }.
Record logFilter := mkLogFilter { addresses : gset string; topics : list topicFilter }.

Section Parse.
Context `{LJ : LogJson} `{JS : Json} `{MP : MethodParsers}.

(** [None] is a malformed value. *)
Definition parseStringOrArray (raw : string) : option (list string) :=
  if bool_decide (raw = "") then Some []
  else match unmarshal_string raw with
       | Some single => Some [single]
       | None => unmarshal_strings raw
       end.

Definition lower_set (vals : list string) : gset string := list_to_set (map ToLower vals).

Definition parse_topic (topic : string) : topicFilter :=
  if bool_decide (topic = "") || bool_decide (TrimSpace topic = "null") then mkTopicFilter true ∅
  else match parseStringOrArray topic with
       | Some (v :: vals) => mkTopicFilter false (lower_set (v :: vals))
       | _ => mkTopicFilter true ∅
       end.

Definition malformedAddress : GoError := OtherError "malformed address in logs filter".

Definition parseLogFilter (request : RequestHolder) : GoError + logFilter :=
  match request_Body request with
  | inl err => inl err
  | inr body =>
    match params_at 1 body with
    | None => inr (mkLogFilter ∅ [])
    | Some raw =>
      match unmarshal_rawLogFilter raw with
      | inl err => inl err
      | inr rf =>
        match parseStringOrArray (raw_Address rf) with
        | None => inl malformedAddress
        | Some addrs => inr (mkLogFilter (lower_set addrs) (map parse_topic (raw_Topics rf)))
        end
      end
    end
  end.
End Parse.

(** ** Matching *)

Definition event_log `{LogJson} (e : ParsedEvent) : parsedLog :=
  match e with LogEvent log => log | OtherEvent raw => parseLogEvent raw end.

(** The loop over the positions, the topics left of the log with it. *)
Fixpoint topics_match (filters : list topicFilter) (ts : list string) : bool :=
  match filters with
  | [] => true
  | tf :: filters' =>
    if any tf then topics_match filters' (tail ts)
    else match ts with
         | [] => false
         | t :: ts' => bool_decide (t ∈ set tf) && topics_match filters' ts'
         end
  end.

(** [None] is the nil filter, and the nil event. *)
Definition Matches `{LogJson} (f : option logFilter) (event : option ParsedEvent) : bool :=
  match f, event with
  | None, _ => true
  | Some _, None => false
  | Some f, Some e =>
    let pl := event_log e in
    (bool_decide (addresses f = ∅) || bool_decide (log_address pl ∈ addresses f)) &&
    topics_match (topics f) (log_topics pl)
  end.

(** ** What a filter asks for

    A list of values asks for any of them, in whatever case. *)

Section Spec.
Context `{LJ : LogJson} `{JS : Json} `{MP : MethodParsers}.

Definition asks_for (vals : list string) (x : string) : Prop := exists v, v ∈ vals /\ ToLower v = ToLower x.

(** What a position of the topics asks for; nothing, if it says null, is malformed
    or lists no topic. *)
Definition topic_values (raw : string) : list string :=
  if bool_decide (raw = "") || bool_decide (TrimSpace raw = "null") then []
  else default [] (parseStringOrArray raw).

Definition address_wanted (vals : list string) (address : string) : Prop := vals = [] \/ asks_for vals address.

Definition topics_wanted (raws : list string) (ts : list string) : Prop :=
  forall i raw, raws !! i = Some raw -> topic_values raw <> [] ->
    exists t, ts !! i = Some t /\ asks_for (topic_values raw) t.

Lemma elem_of_lower_set vals x : ToLower x ∈ lower_set vals <-> asks_for vals x.
Proof using Type.
  unfold lower_set, asks_for. rewrite elem_of_list_to_set, list_elem_of_fmap. naive_solver.
Qed.

Lemma lower_set_empty vals : lower_set vals = ∅ <-> vals = [].
Proof using Type. destruct vals; [done|]. unfold lower_set. simpl. split; [set_solver|done]. Qed.

Lemma parse_topic_any raw : any (parse_topic raw) = bool_decide (topic_values raw = []).
Proof using Type.
  unfold parse_topic, topic_values. destruct (_ || _); [done|].
  destruct (parseStringOrArray raw) as [[|v vals]|]; done.
Qed.

Lemma parse_topic_set raw : topic_values raw <> [] -> set (parse_topic raw) = lower_set (topic_values raw).
Proof using Type.
  unfold parse_topic, topic_values. destruct (_ || _); [done|].
  destruct (parseStringOrArray raw) as [[|v vals]|]; done.
Qed.

Lemma topics_wanted_cons raw raws ts :
  topics_wanted (raw :: raws) ts <->
  (topic_values raw = [] \/ exists t, head ts = Some t /\ asks_for (topic_values raw) t) /\
  topics_wanted raws (tail ts).
Proof using Type.
  assert (forall i, tail ts !! i = ts !! S i) as Ht by (by destruct ts).
  unfold topics_wanted. split.
  - intros Hw. split; [|intros i r Hr; rewrite Ht; apply (Hw (S i) r Hr)].
    destruct (decide (topic_values raw = [])) as [|Hn]; [auto|right].
    destruct (Hw 0%nat raw eq_refl Hn) as (t & Hts & Ha). exists t. split; [|done]. by destruct ts.
  - intros [Hh Htl] [|i] r Hr Hn.
    + injection Hr as <-. destruct Hh as [|(t & Hts & Ha)]; [done|]. exists t. split; [|done]. by destruct ts.
    + rewrite <- Ht. by apply Htl.
Qed.

Lemma topics_match_spec raws ts :
  topics_match (map parse_topic raws) (map ToLower ts) = true <-> topics_wanted raws ts.
Proof using Type.
  revert ts. induction raws as [|raw raws IH]; intros ts; [split; [by intros _ i r|done]|].
  rewrite topics_wanted_cons. simpl. rewrite parse_topic_any.
  assert (tail (map ToLower ts) = map ToLower (tail ts)) as -> by (by destruct ts).
  destruct (decide (topic_values raw = [])) as [E|Hn].
  - rewrite bool_decide_eq_true_2 by done. rewrite IH. naive_solver.
  - rewrite bool_decide_eq_false_2 by done. destruct ts as [|t ts]; simpl; [naive_solver|].
    rewrite andb_true_iff, IH, bool_decide_eq_true, parse_topic_set, elem_of_lower_set by done. naive_solver.
Qed.

(** A client of the shared source gets exactly the logs it asked for: the
    filter of its request matches a log if the address is one of those listed, or
    none is listed, and at every position that lists topics the log has one of
    them, letter case aside.  A request without a filter object matches every log. *)
Theorem filter_delivers_what_was_asked request f raw :
  parseLogFilter request = inr f ->
  match (match request_Body request with inr body => params_at 1 body | inl _ => None end) with
  | None => Matches (Some f) (Some (LogEvent (parseLogEvent raw))) = true
  | Some text => exists rf addrs, unmarshal_rawLogFilter text = inr rf /\
      parseStringOrArray (raw_Address rf) = Some addrs /\
      (Matches (Some f) (Some (LogEvent (parseLogEvent raw))) = true <->
       address_wanted addrs (unmarshal_log raw).1 /\ topics_wanted (raw_Topics rf) (unmarshal_log raw).2)
  end.
Proof using Type.
  unfold parseLogFilter. destruct (request_Body request) as [|body]; [done|].
  destruct (params_at 1 body) as [text|]; [|by intros [= <-]].
  destruct (unmarshal_rawLogFilter text) as [|rf]; [done|].
  destruct (parseStringOrArray (raw_Address rf)) as [addrs|] eqn:Ea; [|done]. intros [= <-].
  exists rf, addrs. split_and!; [done..|]. unfold Matches, parseLogEvent, event_log.
  destruct (unmarshal_log raw) as [address ts]. simpl.
  rewrite andb_true_iff, orb_true_iff, !bool_decide_eq_true, lower_set_empty, elem_of_lower_set, topics_match_spec.
  done.
Qed.

(** A null address is taken for the address [""], so the filter matches no log
    that has an address: decoding null into a string succeeds and leaves it empty. *)
Lemma null_address_matches_nothing request body text rf f log :
  request_Body request = inr body -> params_at 1 body = Some text -> unmarshal_rawLogFilter text = inr rf ->
  raw_Address rf = "null" -> unmarshal_string "null" = Some "" ->
  parseLogFilter request = inr f -> log_address log <> "" -> Matches (Some f) (Some (LogEvent log)) = false.
Proof using Type.
  intros Hb Ht Hr Ha Hn. unfold parseLogFilter. rewrite Hb, Ht, Hr, Ha. unfold parseStringOrArray.
  rewrite bool_decide_eq_false_2, Hn by done. intros [= <-] Hl. unfold Matches. simpl.
  rewrite bool_decide_eq_false_2 by set_solver. by rewrite bool_decide_eq_false_2 by set_solver.
Qed.

(** A malformed topic asks for nothing, where a malformed address is refused. *)
Lemma malformed_topic_is_a_wildcard topic :
  parseStringOrArray topic = None -> any (parse_topic topic) = true.
Proof using Type. rewrite parse_topic_any. unfold topic_values. intros ->. destruct (_ || _); done. Qed.
End Spec.

(** ** An instance

    The decoder on the texts of one request and two logs. *)

#[local] Instance sample_log_json : LogJson := {
  params_at i body := if bool_decide (i = 1) then Some "{filter}" else None;
  unmarshal_rawLogFilter text := inr (mkRawLogFilter "'0xAB'" ["null"; "['0xC1','0xC2']"]);
  unmarshal_strings raw := if bool_decide (raw = "['0xC1','0xC2']") then Some ["0xC1"; "0xC2"] else None;
  unmarshal_log raw := if bool_decide (raw = "log1") then ("0xab", ["0xf0"; "0xc2"]) else ("0xab", ["0xf0"]);
}.
#[local] Instance sample_filter_json : Json := {
  GetByPath _ _ := None;
  unmarshal_jsonRpcError _ := None;
  marshal_jsonRpcError _ := inl StopRetryErr;
  unmarshal_string s := if bool_decide (s = "'0xAB'") then Some "0xAB" else None;
  unmarshal_wsMessage _ := None;
  marshal_wsSubResponse _ _ _ := inl StopRetryErr;
}.
#[local] Instance sample_filter_parsers : MethodParsers := no_parsers (fun _ _ _ => inr "{body}").

Definition logs_request : RequestHolder :=
  JsonRpcRequest (mkJsonRpcRequest "1" "1" "eth_subscribe" NoParam "params" None None [] false false true).

Lemma filter_delivers_what_was_asked_witness :
  exists f, parseLogFilter logs_request = inr f /\
    Matches (Some f) (Some (LogEvent (parseLogEvent "log1"))) = true /\
    Matches (Some f) (Some (LogEvent (parseLogEvent "log2"))) = false.
Proof.
  exists (mkLogFilter {["0xab"]} [mkTopicFilter true ∅; mkTopicFilter false {["0xc1"; "0xc2"]}]).
  assert (parseLogFilter logs_request = inr
    (mkLogFilter {["0xab"]} [mkTopicFilter true ∅; mkTopicFilter false {["0xc1"; "0xc2"]}])) as E by (by vm_compute).
  pose proof (filter_delivers_what_was_asked logs_request _ "log1" E) as (rf & addrs & Hrf & Haddrs & Hm).
  split_and!; [done|by vm_compute|by vm_compute].
Defined.
