(* ===== verification/LocalSources.v ===== *)
(** The sources of events a chain makes itself: the heads of the chain as
    [newHeads] ([internal/upstreams/flow/subengine/heads.go]) and the logs of its
    blocks ([internal/upstreams/flow/logs_source.go]), which are taken back when a
    reorganisation drops a block.

    The world is what the rest of the program holds when a source looks at it; it
    may change in any way between two of its steps. *)

From S2P Require Import Prelude.
From S2P Require Import GoStrings.
From S2P Require Import Protocol.
From S2P Require Import HashIds.
From S2P Require Import JsonStream.
From S2P Require Import Errors.
From S2P Require Import Responses.
From S2P Require Import Specs.
From S2P Require Import Methods.
From S2P Require Import UpstreamState.
From S2P Require Import Matchers.
From S2P Require Import Strategy.
From S2P Require Import ChainState.
From S2P Require Import ChainSupervisor.
From S2P Require Import BlockTracker.
From S2P Require Import Requests.
From S2P Require Import MethodTranslation.
From S2P Require Import Send.
From S2P Require Import Processors.
From S2P Require Import LogFilters.
From S2P Require Import Flow.
From Stdlib Require Import Strings.Byte.

(** The fields of [protocol.WsResponse] that the sources set. *)
Record SourceEvent := mkSourceEvent {
  se_Message : string;
  se_Error : option ResponseError;
  se_UpstreamId : string;
  se_Parsed : option ParsedEvent;
}.

(** The frame that ends a source. *)
Definition source_failure : SourceEvent := mkSourceEvent "" (Some WsTotalFailureError) "" None.

(** ** Heads *)

(** A head without the text of a notification is not passed on. *)
Definition head_event (wrapper : ChainSupervisorStateWrapper) : option SourceEvent :=
  match wrapper with
  | HeadWrapper head upstreamId =>
    if bool_decide (RawData head = []) then None
    else Some (mkSourceEvent (text_of (RawData head)) None upstreamId None)
  | _ => None
  end.

(** The loop, over what the chain tells and the capabilities it has by then. *)
Fixpoint heads_loop (events : list (list ChainSupervisorStateWrapper * gset Cap)) : list SourceEvent :=
  match events with
  | [] => []
  | (wrappers, caps) :: events' =>
    if bool_decide (NewHeadsCap ∈ caps) then omap head_event wrappers ++ heads_loop events' else [source_failure]
  end.

Definition NewHeadsSource (caps : gset Cap) (events : list (list ChainSupervisorStateWrapper * gset Cap))
    : list SourceEvent :=
  if bool_decide (NewHeadsCap ∈ caps) then heads_loop events else [source_failure].

(** ** The block updates of a chain *)

Fixpoint wrappers_updates (wrappers : list ChainSupervisorStateWrapper) (t : blockTracker)
    : list BlockUpdate * blockTracker :=
  match wrappers with
  | [] => ([], t)
  | HeadWrapper head _ :: wrappers' =>
    let '(us, t) := advance head t in
    let '(us', t) := wrappers_updates wrappers' t in (us ++ us', t)
  | _ :: wrappers' => wrappers_updates wrappers' t
  end.

Fixpoint stream_updates (events : list (list ChainSupervisorStateWrapper)) (t : blockTracker) : list BlockUpdate :=
  match events with
  | [] => []
  | wrappers :: events' => let '(us, t) := wrappers_updates wrappers t in us ++ stream_updates events' t
  end.

Definition StreamBlockUpdates (events : list (list ChainSupervisorStateWrapper)) : list BlockUpdate :=
  stream_updates events newBlockTracker.

(** ** The cache of logs *)

Definition logsCacheSize : nat := 32.
Definition logsFetchAttempts : nat := 3.

Record logCache := mkLogCache {
  capacity : nat;
  order : list string;
  items : gmap string (list parsedLog);
}.

Definition newLogCache (capacity : nat) : logCache := mkLogCache capacity [] ∅.

(** The oldest block makes room for a new one. *)
Definition evict (c : logCache) : list string * gmap string (list parsedLog) :=
  if (capacity c <=? length (order c))%nat then
    match order c with oldest :: rest => (rest, delete oldest (items c)) | [] => ([], items c) end
  else (order c, items c).

Definition cache_put (hash : string) (logs : list parsedLog) (c : logCache) : logCache :=
  match items c !! hash with
  | Some _ => mkLogCache (capacity c) (order c) (<[hash := logs]> (items c))
  | None => let '(order, items) := evict c in mkLogCache (capacity c) (order ++ [hash]) (<[hash := logs]> items)
  end.

Definition cache_get (hash : string) (c : logCache) : option (list parsedLog) := items c !! hash.

(** ** The logs *)

(** [sonic]: the parameters with the hash of a block, an array's elements, and an
    object with its [removed] member set. *)
Class SourceJson := {
  marshal_blockHash : string -> GoError + string;
  unmarshal_array : string -> option (list string);
  set_removed : string -> option string;
}.

Definition setRemovedTrue `{SourceJson} (raw : string) : string := default raw (set_removed raw).

Section LogsSource.
Context {W : Type} `{NT : Net W} `{LM : Limiters W} `{CH : Chain W} `{RT : RpcTags} `{MR : MapRange}.
Context `{MP : MethodParsers} `{TJ : TranslationJson} `{LJ : LogJson} `{SJ : SourceJson}.

(** The registry of methods, the chain's spec, and the chain's upstreams for a
    method in the order of their rating. *)
Context (reg : Registry) (specName : string) (rating : string -> W -> list string).

Definition chain_caps (w : W) : gset Cap := cs_Caps (sup_state (chain_supervisor w)).
Definition logsLost (w : W) : bool := negb (bool_decide (LogsCap ∈ chain_caps w)).

Definition NewInternalUpstreamJsonRpcRequest (method params : string) : RequestHolder :=
  JsonRpcRequest (mkJsonRpcRequest "1" "1" method NoParam params None (GetSpecMethod reg specName method) []
    false false false).

Fixpoint fetch_loop (attempts : nat) (strategy : UpstreamStrategy) (request : RequestHolder) (param : MethodParam)
    (s : StrategyState) (w : W) : option (list string * string) * W :=
  match attempts with
  | O => (None, w)
  | S attempts' =>
    let '(result, (s, w)) := selectAndSend reg (strategy_Select strategy request) request param s w in
    match result with
    | inl _ => (None, w)
    | inr resp =>
      if HasError (Response resp) then fetch_loop attempts' strategy request param s w
      else match unmarshal_array (ResponseResult (Response resp)) with
           | None => (None, w)
           | Some logs => (Some (logs, UpstreamId resp), w)
           end
    end
  end.

(** [None] is a block whose logs are skipped. *)
Definition fetchBlockLogs (block : Block) (w : W) : option (list string * string) * W :=
  match marshal_blockHash (ToHexWithPrefix (Hash block)) with
  | inl _ => (None, w)
  | inr params =>
    let '(param, request) := ParseParams (NewInternalUpstreamJsonRpcRequest "eth_getLogs" params) in
    fetch_loop logsFetchAttempts
      (RatingStrategy (rating "eth_getLogs" w) [HeightMatcher (i64 (Height block))] None)
      request param new_strategy_state w
  end.

Definition added_event (upstreamId : string) (pl : parsedLog) : SourceEvent :=
  mkSourceEvent (log_raw pl) None upstreamId (Some (LogEvent pl)).
Definition removed_event (pl : parsedLog) : SourceEvent :=
  mkSourceEvent (setRemovedTrue (log_raw pl)) None "" (Some (LogEvent pl)).

Definition logs_update (update : BlockUpdate) (w : W) (c : logCache) : list SourceEvent * (logCache * W) :=
  match upd_Kind update with
  | BlockNew =>
    match fetchBlockLogs (upd_Block update) w with
    | (None, w) => ([], (c, w))
    | (Some (logs, upstreamId), w) =>
      let parsed := map parseLogEvent logs in
      (map (added_event upstreamId) parsed, (cache_put (ToHex (Hash (upd_Block update))) parsed c, w))
    end
  | BlockDrop =>
    match cache_get (ToHex (Hash (upd_Block update))) c with
    | None => ([], (c, w))
    | Some cached => (map removed_event cached, (c, w))
    end
  end.

(** What the source sends, update by update. *)
Fixpoint logs_loop (c : logCache) (updates : list (BlockUpdate * W)) : list (list SourceEvent) :=
  match updates with
  | [] => []
  | (update, w) :: updates' =>
    if logsLost w then [[source_failure]]
    else let '(sent, (c, _)) := logs_update update w c in sent :: logs_loop c updates'
  end.

Definition LogsSource (w0 : W) (updates : list (BlockUpdate * W)) : list (list SourceEvent) :=
  if logsLost w0 then [[source_failure]] else logs_loop (newLogCache logsCacheSize) updates.

(** ** Blocks whose logs were sent *)

(** The logs the cache is given at an update. *)
Definition announced (i : BlockUpdate * W) : option (string * list parsedLog) :=
  match upd_Kind i.1, (fetchBlockLogs (upd_Block i.1) i.2).1 with
  | BlockNew, Some (logs, _) => Some (ToHex (Hash (upd_Block i.1)), map parseLogEvent logs)
  | _, _ => None
  end.

(** The logs of a block were sent at the update [j]. *)
Definition served (updates : list (BlockUpdate * W)) (h : HashId) (j : nat) : Prop :=
  exists i logs, updates !! j = Some i /\ announced i = Some (ToHex h, logs).

(** How many blocks had their logs sent after [j0] and before [i]. *)
Definition served_between (updates : list (BlockUpdate * W)) (j0 i : nat) : nat :=
  length (omap announced (take (i - S j0) (drop (S j0) updates))).

(** The event that takes back an event: the text that was sent with its [removed]
    member set, or as it was when the library cannot set it. *)
Definition revert (e : SourceEvent) : SourceEvent :=
  mkSourceEvent
    (match set_removed (se_Message e) with Some marked => marked | None => se_Message e end)
    None "" (se_Parsed e).

(** What the filter of a client lets through. *)
Definition client_view (f : option logFilter) (events : list SourceEvent) : list SourceEvent :=
  filter (fun e => Matches f (se_Parsed e)) events.

Lemma revert_added up pl : revert (added_event up pl) = removed_event pl.
Proof using Type. unfold revert, removed_event, setRemovedTrue. cbn. by destruct (set_removed (log_raw pl)). Qed.

Lemma client_view_revert f events : client_view f (map revert events) = map revert (client_view f events).
Proof using Type.
  unfold client_view. induction events as [|e es IH]; [done|]. simpl. rewrite !filter_cons. simpl.
  case_match; [|done]. simpl. by f_equal.
Qed.
End LogsSource.

(** ** What the cache keeps *)

Section Cache.
Context (cap : nat) (cap_pos : (0 < cap)%nat).

Definition cache_of (puts : list (string * list parsedLog)) : logCache :=
  foldl (fun c p => cache_put p.1 p.2 c) (newLogCache cap) puts.

(** The logs given last for a block. *)
Definition last_put (h : string) (puts : list (string * list parsedLog)) : option (list parsedLog) :=
  snd <$> last (filter (fun p => p.1 = h) puts).

Lemma last_put_snoc h puts p :
  last_put h (puts ++ [p]) = if bool_decide (p.1 = h) then Some p.2 else last_put h puts.
Proof using Type.
  unfold last_put. rewrite filter_app, filter_cons, filter_nil. case_decide as E.
  - rewrite bool_decide_eq_true_2, last_snoc by done. done.
  - by rewrite bool_decide_eq_false_2, app_nil_r by done.
Qed.

Record cache_ok (c : logCache) (puts : list (string * list parsedLog)) : Prop := mkCacheOk {
  co_capacity : capacity c = cap;
  co_items : forall h, is_Some (items c !! h) <-> h ∈ order c;
  co_nodup : NoDup (order c);
  co_last : forall h logs, items c !! h = Some logs -> last_put h puts = Some logs;
  co_seen : forall h, h ∈ order c -> h ∈ puts.*1;
}.

Lemma evict_spec c puts : cache_ok c puts ->
  (forall h, is_Some ((evict c).2 !! h) <-> h ∈ (evict c).1) /\ NoDup (evict c).1 /\
  (forall h, h ∈ (evict c).1 -> h ∈ order c) /\
  (forall h logs, (evict c).2 !! h = Some logs -> items c !! h = Some logs).
Proof using cap_pos.
  intros [Hc Hi Hn _ _]. unfold evict. destruct (_ <=? _)%nat eqn:E; [|by split_and!].
  apply Nat.leb_le in E. destruct (order c) as [|oldest rest] eqn:Eo; [simpl in *; lia|].
  apply NoDup_cons in Hn as [Hnin Hn]. simpl. split_and!; [|done|set_solver|].
  - intros h. rewrite lookup_delete_is_Some, Hi, elem_of_cons. set_solver.
  - by intros h logs [_ ?]%lookup_delete_Some.
Qed.

Lemma cache_put_ok c puts p : cache_ok c puts -> cache_ok (cache_put p.1 p.2 c) (puts ++ [p]).
Proof using cap_pos.
  intros Hok. pose proof (evict_spec c puts Hok) as (Hei & Hen & Heo & Hel). destruct Hok as [Hc Hi Hn Hl Hs].
  unfold cache_put. destruct p as [h logs]; simpl. destruct (items c !! h) as [old|] eqn:E.
  - split; simpl; [done| |done| |].
    + intros k. rewrite lookup_insert_is_Some, Hi. split; [|destruct (decide (h = k)); auto].
      intros [->|[_ Hk]]; [|done]. apply Hi. by rewrite E.
    + intros k l. rewrite last_put_snoc, lookup_insert_Some. simpl.
      intros [[-> ->]|[Hne Hk]]; [by rewrite bool_decide_eq_true_2|]. rewrite bool_decide_eq_false_2 by done. auto.
    + intros k Hk%Hs. rewrite fmap_app. set_solver.
  - destruct (evict c) as [o m]. simpl in *. assert (h ∉ order c) as Hh by (rewrite <- Hi, E; intros [? ?]; done).
    split; simpl; [done| | | |].
    + intros k. rewrite lookup_insert_is_Some, Hei, elem_of_app, list_elem_of_singleton.
      destruct (decide (h = k)); naive_solver.
    + apply NoDup_app. split_and!; [done| |apply NoDup_singleton]. intros k Hk Hin. apply list_elem_of_singleton in Hin. subst. auto.
    + intros k l. rewrite last_put_snoc, lookup_insert_Some. simpl.
      intros [[-> ->]|[Hne Hk]]; [by rewrite bool_decide_eq_true_2|]. rewrite bool_decide_eq_false_2 by done. auto.
    + intros k. rewrite fmap_app, !elem_of_app. simpl. set_solver.
Qed.

Lemma cache_of_snoc puts p : cache_of (puts ++ [p]) = cache_put p.1 p.2 (cache_of puts).
Proof using Type. unfold cache_of. by rewrite foldl_snoc. Qed.

Lemma cache_of_ok puts : cache_ok (cache_of puts) puts.
Proof using cap_pos.
  induction puts as [|p puts IH] using rev_ind.
  - split; simpl; [done|intros h; rewrite lookup_empty; split; [by intros [? ?]|by intros ?%elem_of_nil]|constructor|done|].
    by intros h ?%elem_of_nil.
  - rewrite cache_of_snoc. by apply cache_put_ok.
Qed.

(** A block stays while fewer than [cap] blocks follow its first appearance. *)
Lemma cache_recent before h logs after :
  h ∉ before.*1 -> (length after < cap)%nat ->
  exists pre post, order (cache_of (before ++ (h, logs) :: after)) = pre ++ h :: post /\
    (length post <= length after)%nat.
Proof using cap_pos.
  intros Hn. induction after as [|p after IH] using rev_ind; intros Hlen.
  - rewrite cache_of_snoc. pose proof (cache_of_ok before) as [_ Hi _ _ Hs].
    unfold cache_put. simpl. destruct (items (cache_of before) !! h) eqn:E; [exfalso; apply Hn, Hs, Hi; by rewrite E|].
    destruct (evict _) as [o m]. by exists o, [].
  - rewrite length_app in Hlen. simpl in Hlen. destruct IH as (pre & post & Eo & Hp); [lia|].
    rewrite app_comm_cons, app_assoc, cache_of_snoc.
    set (c := cache_of (before ++ (h, logs) :: after)) in *.
    assert (cache_ok c (before ++ (h, logs) :: after)) as [Hc Hi _ _ _] by apply cache_of_ok.
    unfold cache_put. destruct (items c !! p.1) eqn:E; [exists pre, post; simpl; rewrite length_app; split; [done|lia]|].
    unfold evict. destruct (_ <=? _)%nat eqn:Ef; simpl.
    + apply Nat.leb_le in Ef. rewrite Hc, Eo, length_app in Ef. simpl in Ef.
      destruct pre as [|x pre]; [simpl in Ef; lia|]. rewrite Eo. simpl.
      exists pre, (post ++ [p.1]). rewrite <- app_assoc, !length_app. simpl. split; [done|lia].
    + exists pre, (post ++ [p.1]). rewrite Eo, <- app_assoc, !length_app. simpl. split; [done|lia].
Qed.

Lemma cache_get_recent before h logs after :
  h ∉ before.*1 -> (length after < cap)%nat ->
  cache_get h (cache_of (before ++ (h, logs) :: after)) = last_put h (before ++ (h, logs) :: after).
Proof using cap_pos.
  intros Hn Hlen. destruct (cache_recent before h logs after Hn Hlen) as (pre & post & Eo & _).
  destruct (cache_of_ok (before ++ (h, logs) :: after)) as [_ Hi _ Hl _]. unfold cache_get.
  destruct (items _ !! h) as [l|] eqn:E; [symmetry; auto|].
  assert (is_Some (items (cache_of (before ++ (h, logs) :: after)) !! h)) as [? ?]; [|congruence].
  apply Hi. rewrite Eo. set_solver.
Qed.

Lemma cache_get_last h puts logs : cache_get h (cache_of puts) = Some logs -> last_put h puts = Some logs.
Proof using cap_pos. apply co_last, cache_of_ok. Qed.
End Cache.

(** ** What the source of logs takes back *)

Section Reverts.
Context {W : Type} `{NT : Net W} `{LM : Limiters W} `{CH : Chain W} `{RT : RpcTags} `{MR : MapRange}.
Context `{MP : MethodParsers} `{TJ : TranslationJson} `{LJ : LogJson} `{SJ : SourceJson}.
Context (reg : Registry) (specName : string) (rating : string -> W -> list string).

#[local] Abbreviation announced := (announced reg specName rating).
#[local] Abbreviation served := (served reg specName rating).
#[local] Abbreviation logs_loop := (logs_loop reg specName rating).
#[local] Abbreviation cached := (cache_of logsCacheSize).

Lemma logs_update_cache u w c :
  (logs_update reg specName rating u w c).2.1 =
  match announced (u, w) with Some p => cache_put p.1 p.2 c | None => c end.
Proof using Type.
  unfold logs_update, LocalSources.announced. simpl. destruct (upd_Kind u); [|by destruct (cache_get _ c)].
  by destruct (fetchBlockLogs reg specName rating _ w) as [[[logs up]|] w1].
Qed.

(** Two updates the source answered: the first was answered with the cache of the
    blocks before it. *)
Lemma logs_loop_lookup puts updates i sent u w :
  logs_loop (cached puts) updates !! i = Some sent -> updates !! i = Some (u, w) -> logsLost w = false ->
  sent = (logs_update reg specName rating u w (cached (puts ++ omap announced (take i updates)))).1.
Proof using Type.
  revert puts i. induction updates as [|[u1 w1] updates IH]; intros puts i; [done|]. simpl.
  destruct (logsLost w1) eqn:El; [destruct i as [|i]; simpl; [intros _ [= -> ->]; by rewrite El|done]|].
  pose proof (logs_update_cache u1 w1 (cached puts)) as Hc.
  destruct (logs_update _ _ _ u1 w1 _) as [out [c w2]] eqn:Eu. simpl in Hc.
  destruct i as [|i]; simpl; [intros [= <-] [= -> ->] _; by rewrite app_nil_r, Eu|]. intros Hl Hu Hw.
  assert (c = cached (puts ++ match announced (u1, w1) with Some p => [p] | None => [] end)) as ->.
  { rewrite Hc. destruct (announced (u1, w1)); [by rewrite cache_of_snoc|by rewrite app_nil_r]. }
  rewrite (IH _ i Hl Hu Hw). f_equal. f_equal. f_equal. simpl.
  rewrite <- app_assoc. f_equal. by destruct (announced (u1, w1)).
Qed.

Lemma logs_loop_before puts updates i j sent :
  logs_loop (cached puts) updates !! i = Some sent -> (j < i)%nat ->
  exists u w earlier, updates !! j = Some (u, w) /\ logsLost w = false /\
    logs_loop (cached puts) updates !! j = Some earlier.
Proof using Type.
  revert puts i j. induction updates as [|[u1 w1] updates IH]; intros puts i j; [done|]. simpl.
  destruct (logsLost w1) eqn:El; [destruct i as [|i]; simpl; [lia|done]|].
  pose proof (logs_update_cache u1 w1 (cached puts)) as Hc.
  destruct (logs_update _ _ _ u1 w1 _) as [out [c w2]] eqn:Eu. simpl in Hc.
  destruct i as [|i]; simpl; [lia|]. intros Hl Hj. destruct j as [|j]; [by exists u1, w1, out|].
  assert (c = cached (puts ++ match announced (u1, w1) with Some p => [p] | None => [] end)) as Ec.
  { rewrite Hc. destruct (announced (u1, w1)); [by rewrite cache_of_snoc|by rewrite app_nil_r]. }
  rewrite Ec in Hl |- *. apply (IH _ i j Hl). lia.
Qed.

Lemma announced_sent u w c p : announced (u, w) = Some p ->
  exists up, (logs_update reg specName rating u w c).1 = map (added_event up) p.2.
Proof using Type.
  unfold LocalSources.announced, logs_update. simpl. destruct (upd_Kind u); [|by repeat case_match].
  destruct (fetchBlockLogs reg specName rating _ w) as [[[logs up]|] w1]; [|done]. simpl. intros [= <-]. by exists up.
Qed.

(** The last block with the hash [h] whose logs were sent. *)
Lemma last_put_served h updates logs :
  last_put (ToHex h) (omap announced updates) = Some logs ->
  exists j u w, updates !! j = Some (u, w) /\ announced (u, w) = Some (ToHex h, logs) /\
    forall k, (j < k)%nat -> ~ served updates h k.
Proof using Type.
  induction updates as [|[u w] updates IH] using rev_ind; [done|]. rewrite omap_app. simpl.
  assert (forall k, (length updates < k)%nat -> ~ served (updates ++ [(u, w)]) h k) as Hout.
  { intros k Hk (x & l & Hx%lookup_lt_Some & _). rewrite length_app in Hx. simpl in Hx. lia. }
  assert ((updates ++ [(u, w)]) !! length updates = Some (u, w)) as Hlast by (by rewrite list_lookup_middle).
  destruct (announced (u, w)) as [[h' l]|] eqn:Ea.
  - rewrite last_put_snoc. simpl. case_bool_decide as E.
    + intros [= ->]. subst h'. by exists (length updates), u, w.
    + intros (j & u' & w' & Hj & Hann & Hk)%IH. exists j, u', w'. split; [by apply lookup_app_l_Some|]. split; [done|].
      intros k Hjk (x & l' & Hx & Hxa). apply lookup_app_Some in Hx as [Hx|[Hge Hx]]; [by apply (Hk k Hjk); exists x, l'|].
      apply list_lookup_singleton_Some in Hx as [_ <-]. congruence.
  - rewrite app_nil_r. intros (j & u' & w' & Hj & Hann & Hk)%IH. exists j, u', w'.
    split; [by apply lookup_app_l_Some|]. split; [done|].
    intros k Hjk (x & l' & Hx & Hxa). apply lookup_app_Some in Hx as [Hx|[Hge Hx]]; [by apply (Hk k Hjk); exists x, l'|].
    apply list_lookup_singleton_Some in Hx as [_ <-]. congruence.
Qed.

(** What was sent when the block [h] was announced last is taken back, for every
    client's filter alike. *)
Definition taken_back (w0 : W) (updates : list (BlockUpdate * W)) (h : HashId) (i : nat) (sent : list SourceEvent)
    : Prop :=
  exists j added, (j < i)%nat /\ served updates h j /\ (forall k, (j < k < i)%nat -> ~ served updates h k) /\
    LogsSource reg specName rating w0 updates !! j = Some added /\
    forall f, client_view f sent = map revert (client_view f added).

Lemma cached_taken_back w0 updates h i w logs :
  logsLost w0 = false -> updates !! i = Some w ->
  is_Some (LogsSource reg specName rating w0 updates !! i) ->
  last_put (ToHex h) (omap announced (take i updates)) = Some logs ->
  taken_back w0 updates h i (map removed_event logs).
Proof using Type.
  intros H0 Hi [sent Hs] Hl. apply last_put_served in Hl as (j & u & w1 & Hj & Ha & Hk).
  pose proof (lookup_lt_Some _ _ _ Hj) as Hlt. rewrite length_take in Hlt.
  rewrite lookup_take_lt in Hj by lia. unfold LogsSource in Hs. rewrite H0 in Hs.
  destruct (logs_loop_before [] updates i j sent Hs) as (u' & w' & earlier & Hj' & Hlost & He); [lia|].
  rewrite Hj in Hj'. injection Hj' as <- <-.
  exists j, earlier. split_and!; [lia|by exists (u, w1), logs| |unfold LogsSource; by rewrite H0|].
  - intros k [Hjk Hki] (x & l & Hx & Hxa). apply (Hk k Hjk). exists x, l. by rewrite lookup_take_lt.
  - intros f. rewrite <- client_view_revert. f_equal.
    destruct (announced_sent u w1 (cached (omap announced (take j updates))) _ Ha) as [up Hup].
    rewrite (logs_loop_lookup [] updates j earlier u w1 He Hj Hlost), app_nil_l, Hup, map_map. apply map_ext. intros pl. symmetry. apply revert_added.
Qed.

(** The first block sent with the hash [h] splits the blocks sent. *)
Lemma first_served updates h j0 i :
  (j0 < i)%nat -> (i <= length updates)%nat -> served updates h j0 -> (forall k, (k < j0)%nat -> ~ served updates h k) ->
  exists logs, omap announced (take i updates) =
    omap announced (take j0 updates) ++ (ToHex h, logs) :: omap announced (take (i - S j0) (drop (S j0) updates)) /\
    ToHex h ∉ (omap announced (take j0 updates)).*1.
Proof using Type.
  intros Hlt Hi (x & logs & Hx & Ha) Hfirst. exists logs. split.
  - rewrite <- (take_drop j0 (take i updates)), omap_app, take_take, Nat.min_l by lia. f_equal.
    rewrite skipn_firstn_comm, (drop_S _ x) by done.
    replace (i - j0)%nat with (S (i - S j0)) by lia. simpl. by rewrite Ha.
  - intros ([h' l] & Eh & Hin)%list_elem_of_fmap. simpl in Eh. subst h'.
    apply list_elem_of_omap in Hin as (y & Hy & Hya). apply list_elem_of_lookup in Hy as [k Hk].
    pose proof (lookup_lt_Some _ _ _ Hk) as Hkl. rewrite length_take in Hkl. rewrite lookup_take_lt in Hk by lia.
    apply (Hfirst k); [lia|]. by exists y, l.
Qed.

(** C30. Logs of a block that a reorganisation drops are taken back, and only those.
    When the source reacts to the drop of a block with anything, it sends again the
    logs it sent when the block was announced last, each with its [removed] member
    set (a text in which the library cannot set it is sent as it was), and every
    client's filter lets through the removals of exactly the logs it let through
    before, in their order.  It does so for every block whose logs were sent, unless
    32 other blocks' logs were sent since. *)
Theorem dropped_logs_reverted w0 updates i b w sent :
  logsLost w0 = false ->
  LogsSource reg specName rating w0 updates !! i = Some sent ->
  updates !! i = Some (mkBlockUpdate b BlockDrop, w) -> logsLost w = false ->
  (sent = [] \/ taken_back w0 updates (Hash b) i sent) /\
  (forall j0, (j0 < i)%nat -> served updates (Hash b) j0 -> (forall k, (k < j0)%nat -> ~ served updates (Hash b) k) ->
     (served_between reg specName rating updates j0 i < logsCacheSize)%nat ->
     taken_back w0 updates (Hash b) i sent).
Proof using Type.
  intros H0 Hs Hi Hw. pose proof Hs as Hs'. unfold LogsSource in Hs'. rewrite H0 in Hs'.
  pose proof (logs_loop_lookup [] updates i sent _ w Hs' Hi Hw) as Hsent. rewrite app_nil_l in Hsent.
  unfold logs_update in Hsent. simpl in Hsent. split.
  - destruct (cache_get _ _) as [logs|] eqn:Eg; simpl in Hsent; [|by left]. right. rewrite Hsent.
    apply cache_get_last in Eg; [|unfold logsCacheSize; lia]. eapply cached_taken_back; [done|exact Hi| |exact Eg].
    rewrite Hs. by eexists.
  - intros j0 Hj0 Hserved Hfirst Hcount.
    pose proof (lookup_lt_Some _ _ _ Hi) as Hilt.
    destruct (first_served updates (Hash b) j0 i Hj0 ltac:(lia) Hserved Hfirst) as (logs & E & Hn).
    pose proof (cache_get_recent logsCacheSize ltac:(unfold logsCacheSize; lia) _ (ToHex (Hash b)) logs _ Hn Hcount) as Hg.
    rewrite <- E in Hg.
    assert (is_Some (last_put (ToHex (Hash b)) (omap announced (take i updates)))) as [l El].
    { rewrite <- Hg. destruct (cache_recent logsCacheSize ltac:(unfold logsCacheSize; lia) _ (ToHex (Hash b)) logs _ Hn Hcount)
        as (pre & post & Eo & _). rewrite <- E in Eo.
      apply (co_items logsCacheSize _ _ (cache_of_ok logsCacheSize ltac:(unfold logsCacheSize; lia) _)).
      rewrite Eo. set_solver. }
    rewrite Hg, El in Hsent. simpl in Hsent. rewrite Hsent. eapply cached_taken_back; [done|exact Hi| |exact El].
    rewrite Hs. by eexists.
Qed.

(** The source looks at the chain's capabilities when a block changes, so the loss
    of the last upstream, after which there is no head, ends no subscription. *)
Lemma no_heads_no_updates events t :
  Forall (fun ws => Forall (fun w => match w with HeadWrapper _ _ => False | _ => True end) ws) events ->
  stream_updates events t = [].
Proof using Type.
  assert (forall ws, Forall (fun w => match w with HeadWrapper _ _ => False | _ => True end) ws ->
    wrappers_updates ws t = ([], t)) as Hws.
  { induction 1 as [|w1 ws Hw _ IH]; [done|]. destruct w1; simpl; done. }
  induction 1 as [|ws events Hf _ IH]; [done|]. simpl. by rewrite (Hws ws Hf), IH.
Qed.
End Reverts.

(** ** A chain with one upstream that serves logs *)

Definition logs_method : Method := DefaultMethodWithConnectorTypes "eth_getLogs" [JsonRpcConnector].
Definition logs_registry : Registry :=
  {["eth" := mkResolvedSpec (Some (methodGroups_add "common" logs_method newMethodGroups)) None]}.
Definition logs_upstream : UpstreamState :=
  set_HeadData (NewBlockWithHeight 100)
    (DefaultUpstreamState (mkUpstreamMethods {["eth_getLogs" := logs_method]} {["eth_getLogs"]}) {[LogsCap]} "00001"
      None None).

#[local] Instance logs_chain : Chain unit := {
  chain_supervisor _ :=
    mkSupervisor (mkChainState Available (NewChainHeadData ZeroBlock "") (NewChainMethods []) ∅ ∅ [] ∅ {[LogsCap]})
      (sup_fc NewGenericChainSupervisor) {["up1" := logs_upstream]} ∅;
  chain_rr _ := 0;
  set_chain_rr _ w := w;
}.
#[local] Instance logs_json : LogJson := {
  params_at _ _ := None;
  unmarshal_rawLogFilter _ := inl StopRetryErr;
  unmarshal_strings _ := None;
  unmarshal_log raw := ("0xAB", []);
}.
#[local] Instance logs_source_json : SourceJson := {
  marshal_blockHash hash := inr hash;
  unmarshal_array _ := Some ["log1"; "log2"];
  set_removed raw := Some (raw +:+ " removed");
}.

Definition logs_updates : list (BlockUpdate * unit) :=
  [(mkBlockUpdate (NewBlock 5 0 [x01] []) BlockNew, ()); (mkBlockUpdate (NewBlock 6 0 [x02] [x01]) BlockNew, ());
   (mkBlockUpdate (NewBlock 6 0 [x02] [x01]) BlockDrop, ())].

#[local] Existing Instance Flow.demo_net.
#[local] Existing Instance Flow.demo_tags.
#[local] Existing Instance Flow.demo_parsers.
#[local] Existing Instance Flow.demo_translation.

#[local] Existing Instance Prelude.default_range.
#[local] Existing Instance Strategy.no_limiters.

Example logs_of_a_reorg :
  map se_Message <$> LogsSource logs_registry "eth" (fun _ _ => ["up1"]) tt logs_updates =
  [["log1"; "log2"]; ["log1"; "log2"]; ["log1 removed"; "log2 removed"]].
Proof. by vm_compute. Qed.

(** The two logs of the second block are taken back. *)
Lemma dropped_logs_reverted_witness :
  exists sent, LogsSource logs_registry "eth" (fun _ _ => ["up1"]) tt logs_updates !! 2%nat = Some sent /\
    map se_Message sent = ["log1 removed"; "log2 removed"] /\
    taken_back logs_registry "eth" (fun _ _ => ["up1"]) tt logs_updates [x02] 2 sent.
Proof.
  pose proof logs_of_a_reorg as Hout.
  destruct (LogsSource logs_registry "eth" (fun _ _ => ["up1"]) tt logs_updates) as [|s1 [|s2 [|s3 rest]]] eqn:E;
    [discriminate Hout..|].
  exists s3. injection Hout as _ _ H3 _. split_and!; [done|done|].
  destruct (dropped_logs_reverted logs_registry "eth" (fun _ _ => ["up1"]) tt logs_updates 2 (NewBlock 6 0 [x02] [x01]) tt s3)
    as [[->|Ht] _]; [by vm_compute|by rewrite E|done|by vm_compute|discriminate H3|done].
Defined.
