(* ===== verification/SubAggregation.v ===== *)
(** Subscriptions of clients: which source serves a request and under which key
    ([internal/upstreams/flow/sub_aggregation.go], the keys of selectors in
    [internal/protocol/request_selector_key.go]), the subscription of a node as a
    source, and what a client is answered
    ([internal/upstreams/flow/sub_processor.go]). *)

From S2P Require Import Prelude.
From S2P Require Import GoStrings.
From S2P Require Import Protocol.
From S2P Require Import HashIds.
From S2P Require Import JsonStream.
From S2P Require Import Errors.
From S2P Require Import Responses.
From S2P Require Import Specs.
From S2P Require Import Methods.
From S2P Require Import UpstreamState.
From S2P Require Import Matchers.
From S2P Require Import Strategy.
From S2P Require Import SubEngine.
From S2P Require Import ChainState.
From S2P Require Import ChainSupervisor.
From S2P Require Import SelectorKeys.
From S2P Require Import Config.
From S2P Require Import Requests.
From S2P Require Import Send.
From S2P Require Import WsProcessor.
From S2P Require Import Processors.
From S2P Require Import LogFilters.
From S2P Require Import Flow.
From S2P Require Import LocalSources.
From Stdlib Require Import Ascii.
From Stdlib Require Import Strings.Byte.

#[local] Arguments String.append !_ _ /.

(** ** Keys of selectors

    [None] is the run-time panic of a selector without a child. *)

Definition tag_number (tag : RequestBlockTag) : Z :=
  match tag with BlockTagLatest => 0 | BlockTagSafe => 1 | BlockTagFinalized => 2 | BlockTagOther t => t end.

Definition selectorGroupKey (parts : list string) : string := join_with "|" (sort_Strings parts).

Fixpoint Key (selector : RequestSelector) : option string :=
  match selector with
  | RequestNilSelector => None
  | RequestAnySelector => Some "any"
  | RequestLabelSelector name values => Some (label_Key name values)
  | RequestExistsSelector name => Some (exists_Key name)
  | RequestAndSelector children => (fun ks => "and(" +:+ selectorGroupKey ks +:+ ")") <$> mapM Key children
  | RequestOrSelector children => (fun ks => "or(" +:+ selectorGroupKey ks +:+ ")") <$> mapM Key children
  | RequestNotSelector child => (fun k => "not(" +:+ k +:+ ")") <$> Key child
  | RequestHeightSelector height => Some ("height(" +:+ pretty height +:+ ")")
  | RequestBlockTagSelector tag => Some ("tag(" +:+ pretty (tag_number tag) +:+ ")")
  | RequestSlotHeightSelector slotHeight => Some ("slot(" +:+ pretty slotHeight +:+ ")")
  | RequestLowerHeightSelector height boundType timeOffset heightDelta =>
    Some ("lower(" +:+ pretty height +:+ "," +:+ pretty (bound_code boundType) +:+ "," +:+ pretty timeOffset +:+ ","
          +:+ pretty heightDelta +:+ ")")
  | RequestUnsupportedSelector reason => Some ("unsupported(" +:+ reason +:+ ")")
  end.

Definition selectorKey (selectors : list RequestSelector) : option string :=
  match selectors with
  | [] => Some ""
  | _ => (fun parts => join_with "," (sort_Strings parts)) <$> mapM Key selectors
  end.

Definition subscriptionKey `{Hashing} (request : RequestHolder) : option string :=
  (fun key => (RequestHash request).1 +:+ "|" +:+ key) <$> selectorKey (Selectors request).

(** ** Sources *)

Definition localNewHeadsKey : string := "local|newHeads".
Definition localLogsKey : string := "local|logs".
Definition localPendingTxKey : string := "local|newPendingTransactions".
Definition localDrpcPendingTxKey : string := "local|drpcPendingTransactions".

(** The builder of the source. *)
Inductive SourceKind := NewHeadsKind | LogsKind | PendingTxKind | DrpcPendingTxKind | GenericKind.

Definition hasEffectiveSelectors (selectors : list RequestSelector) : bool :=
  existsb (fun s => match s with RequestAnySelector => false | _ => true end) selectors.

Section Resolve.
Context `{FP : FirstParam} `{MP : MethodParsers} `{JS : Json} `{LJ : LogJson} `{HH : Hashing}.

Definition subscribeTopic (request : RequestHolder) : option string :=
  if bool_decide (request_Method request = "eth_subscribe") then
    match request_Body request with
    | inl _ => None
    | inr body => match first_param body with inl _ => None | inr value => Some value end
    end
  else None.

Definition has_topic (topic : string) (request : RequestHolder) : bool :=
  bool_decide (subscribeTopic request = Some topic).

Definition isNewHeadsRequest : RequestHolder -> bool := has_topic "newHeads".
Definition isLogsRequest : RequestHolder -> bool := has_topic "logs".
Definition isPendingTxRequest : RequestHolder -> bool := has_topic "newPendingTransactions".
Definition isDrpcPendingTxRequest : RequestHolder -> bool := has_topic "drpc_pendingTransactions".

(** The capabilities of the chain; [None] if the chain is not supervised. *)
Definition locally_available (cap : Cap) (caps : option (gset Cap)) : bool :=
  match caps with Some caps => bool_decide (cap ∈ caps) | None => false end.

Definition localNewHeadsAvailable : option (gset Cap) -> bool := locally_available NewHeadsCap.
Definition localLogsAvailable : option (gset Cap) -> bool := locally_available LogsCap.
Definition localPendingTxAvailable : option (gset Cap) -> bool := locally_available PendingTxCap.

(** The filter a request for the logs of the chain itself has. *)
Definition local_logs (caps : option (gset Cap)) (request : RequestHolder) (settings : LocalSubSettings)
    : option logFilter :=
  if Logs settings && isLogsRequest request && localLogsAvailable caps &&
     negb (hasEffectiveSelectors (Selectors request))
  then match parseLogFilter request with inl _ => None | inr filter => Some filter end
  else None.

Definition resolveSource (caps : option (gset Cap)) (request : RequestHolder) (settings : LocalSubSettings)
    : option (string * SourceKind * option logFilter) :=
  if NewHeads settings && isNewHeadsRequest request && localNewHeadsAvailable caps then
    Some (localNewHeadsKey, NewHeadsKind, None)
  else match local_logs caps request settings with
       | Some filter => Some (localLogsKey, LogsKind, Some filter)
       | None =>
         if PendingTx settings && isPendingTxRequest request && localPendingTxAvailable caps then
           Some (localPendingTxKey, PendingTxKind, None)
         else if isDrpcPendingTxRequest request && localPendingTxAvailable caps then
           Some (localDrpcPendingTxKey, DrpcPendingTxKind, None)
         else (fun key => (key, GenericKind, None)) <$> subscriptionKey request
       end.
End Resolve.

(** ** The subscription of a node *)

(** What the source's loop finds: a state of the connector, [None] once their
    channel is closed, a response, or the closed channel of responses. *)
Inductive node_input :=
| NodeState (state : option SubscribeConnectorState)
| NodeResponse (r : WsResponse)
| NodeClosed.

Definition node_failure (upstreamId : string) : SourceEvent :=
  mkSourceEvent "" (Some WsTotalFailureError) upstreamId None.

Fixpoint GenericSource (upstreamId : string) (inputs : list node_input) : list SourceEvent :=
  match inputs with
  | [] => []
  | NodeState (Some WsDisconnected) :: _ | NodeClosed :: _ => [node_failure upstreamId]
  | NodeState _ :: inputs' => GenericSource upstreamId inputs'
  | NodeResponse r :: inputs' =>
    let event := mkSourceEvent (ws_Message r) (ws_Error r) upstreamId None in
    match ws_Error r with
    | Some _ => [event]
    | None => if bool_decide (ws_SubId r = "") then GenericSource upstreamId inputs'
              else event :: GenericSource upstreamId inputs'
    end
  end.

(** ** The answers of a client *)

(** The JSON of a new subscription id, of six random bytes where ids are numbers
    and of twenty otherwise. *)
Definition be_Uint64 (bytes : list byte) : N := foldl (fun n b => (n * 256 + Byte.to_N b)%N) 0%N bytes.

Definition nextSubscriptionJson (isNumber : bool) (random : list byte) : string :=
  if isNumber then pretty (be_Uint64 (random ++ [Byte.x00; Byte.x00]))
  else quoted ("0x" +:+ hex_encode (text_of random)).

(** How the loop ends: the channel of the subscriber was closed, with its cause, or
    the client's context is done. *)
Inductive client_end := SourceEnded (cause : option ResponseError) | ClientDone.

Definition responseUpstreamId (r : SourceEvent) : string :=
  if bool_decide (se_UpstreamId r = "") then NoUpstream else se_UpstreamId r.

Section Client.
Context `{FP : FirstParam} `{MP : MethodParsers} `{JS : Json} `{LJ : LogJson} `{HH : Hashing}.

Definition event_response (request : RequestHolder) (resultOnly : bool) (method subId : string) (r : SourceEvent)
    : ResponseHolderWrapper :=
  empty_wrapper (responseUpstreamId r) (request_Id request)
    (if resultOnly then SubscriptionResultResponse (request_Id request) (se_Message r)
     else SubscriptionMethodResultResponse (request_Id request) method (se_Message r) subId).

Definition confirmation (request : RequestHolder) (subId : string) : ResponseHolderWrapper :=
  empty_wrapper NoUpstream (request_Id request) (SubscriptionMessageResponse (request_Id request) subId).

(** [filter != nil && !filter.Matches(...)] skips an event. *)
Definition delivered (filter : option logFilter) (r : SourceEvent) : bool :=
  match filter with Some _ => Matches filter (se_Parsed r) | None => true end.

Definition ending (request : RequestHolder) (e : client_end) : list ResponseHolderWrapper :=
  match e with
  | SourceEnded (Some cause) => [totalFailureWrapper request (RespError cause)]
  | _ => []
  end.

(** [subscribe] is the error of the engine, [random] the bytes read or the error of
    reading them, [events] what the loop takes from the subscriber's channel. *)
Definition Sub_ProcessRequest (isSolana : bool) (caps : option (gset Cap)) (settings : LocalSubSettings)
    (subscribe : string -> SourceKind -> option GoError) (random : GoError + list byte) (cancel : nat)
    (events : list SourceEvent) (e : client_end) (request : RequestHolder) (subCtx : SubCtx)
    : option (list ResponseHolderWrapper * SubCtx) :=
  match SpecMethod request ≫= method_Subscription with
  | None => Some ([totalFailureWrapper request (OtherError "no subscription info")], subCtx)
  | Some subscription =>
    match resolveSource caps request settings with
    | None => None
    | Some (key, kind, filter) =>
      match subscribe key kind with
      | Some err => Some ([totalFailureWrapper request err], subCtx)
      | None =>
        match random with
        | inl _ => Some ([totalFailureWrapper request (RespError WsTotalFailureError)], subCtx)
        | inr bytes =>
          let subId := nextSubscriptionJson isSolana bytes in
          match ResultAsString subId with
          | None => None
          | Some name =>
            Some (confirmation request subId ::
                  map (event_response request (subscriptionResult subCtx) (sub_Method subscription) subId)
                    (List.filter (delivered filter) events) ++
                  ending request e, AddSub name cancel subCtx)
          end
        end
      end
    end
  end.
End Client.

(** ** Keys keep sources apart *)

Lemma mapM_Key_perm cs ds : cs ≡ₚ ds -> forall ks, mapM Key cs = Some ks ->
  exists ls, mapM Key ds = Some ls /\ ks ≡ₚ ls.
Proof.
  induction 1 as [|x cs ds _ IH|x y cs|cs ds es _ IH1 _ IH2]; intros ks E.
  - by exists ks.
  - simpl in E. apply bind_Some in E as (k & Ek & (ks' & Eks & [= <-])%bind_Some).
    destruct (IH _ Eks) as (ls & Els & Hp). exists (k :: ls). simpl. by rewrite Ek, Els, Hp.
  - simpl in E. apply bind_Some in E as (k & Ek & (ks' & E & [= <-])%bind_Some).
    apply bind_Some in E as (k2 & Ek2 & (ks2 & E2 & [= <-])%bind_Some).
    exists (k2 :: k :: ks2). simpl. rewrite Ek2, Ek, E2. split; [done|constructor].
  - destruct (IH1 _ E) as (ls & Els & Hp). destruct (IH2 _ Els) as (ms & Ems & Hp'). exists ms. by rewrite Hp.
Qed.

Lemma mapM_Key_group cs ds : cs ≡ₚ ds -> selectorGroupKey <$> mapM Key cs = selectorGroupKey <$> mapM Key ds.
Proof.
  intros Hp. destruct (mapM Key cs) as [ks|] eqn:E.
  - destruct (mapM_Key_perm _ _ Hp _ E) as (ls & -> & Hks). simpl. unfold selectorGroupKey. f_equal. f_equal.
    by apply sort_Strings_perm.
  - destruct (mapM Key ds) as [ls|] eqn:E2; [|done].
    destruct (mapM_Key_perm _ _ (Permutation_sym Hp) _ E2) as (? & ? & _). congruence.
Qed.

(** Selectors that differ in the order of their groups have one key. *)
Lemma Key_reordered s s' : reordered s s' -> Key s = Key s'.
Proof.
  assert (forall op cs ds, cs ≡ₚ ds ->
    (fun ks => op +:+ selectorGroupKey ks +:+ ")") <$> mapM Key cs =
    (fun ks => op +:+ selectorGroupKey ks +:+ ")") <$> mapM Key ds) as Hgroup.
  { intros op cs ds Hp%mapM_Key_group. destruct (mapM Key cs), (mapM Key ds); simpl in *; congruence. }
  apply (reordered_mut (fun s s' _ => Key s = Key s') (fun cs cs' _ => mapM Key cs = mapM Key cs')).
  - done.
  - intros n vs vs' Hp. simpl. unfold label_Key. by rewrite (sort_Strings_perm _ _ Hp).
  - intros t t' _ E. simpl. by rewrite E.
  - intros cs ds es _ E Hp. cbn [Key]. rewrite E. by apply Hgroup.
  - intros cs ds es _ E Hp. cbn [Key]. rewrite E. by apply Hgroup.
  - done.
  - intros t t' cs cs' _ Et _ Ecs. simpl. by rewrite Et, Ecs.
Qed.

(** The hash of the request was not computed before. *)
Definition key_fresh (r : RequestHolder) : Prop :=
  match r with JsonRpcRequest u => jr_key u = None | RestRequest u => ur_key u = None end.

Section Keys.
Context `{FP : FirstParam} `{MP : MethodParsers} `{JS : Json} `{LJ : LogJson} `{HH : Hashing}.

Lemma fresh_hash r : key_fresh r -> exists b, (RequestHash r).1 = hex_encode b.
Proof using Type. destruct r; simpl; intros ->; by eexists. Qed.

Lemma hex_encode_head b k rest : hex_encode b +:+ String "|" rest <> String "l" k.
Proof using Type.
  destruct b as [|c b]; [done|]. simpl. intros [= E _]. revert E. unfold hex_digit.
  destruct c as [[] [] [] [] [] [] [] []]; vm_compute; congruence.
Qed.

Lemma generic_key_not_local r key k : key_fresh r -> subscriptionKey r = Some key -> key <> String "l" k.
Proof using Type.
  intros [b Hb]%fresh_hash (sel & _ & ->)%fmap_Some. rewrite Hb. apply hex_encode_head.
Qed.

(** The topic of a source of the chain itself. *)
Definition kind_topic (kind : SourceKind) : option (string * string) :=
  match kind with
  | NewHeadsKind => Some ("newHeads", localNewHeadsKey)
  | LogsKind => Some ("logs", localLogsKey)
  | PendingTxKind => Some ("newPendingTransactions", localPendingTxKey)
  | DrpcPendingTxKind => Some ("drpc_pendingTransactions", localDrpcPendingTxKey)
  | GenericKind => None
  end.

Lemma local_logs_spec caps r settings f : local_logs caps r settings = Some f ->
  isLogsRequest r = true /\ hasEffectiveSelectors (Selectors r) = false /\ parseLogFilter r = inr f.
Proof using Type.
  unfold local_logs. destruct (Logs settings); [|done]. destruct (isLogsRequest r); [|done].
  destruct (localLogsAvailable caps); [|done]. destruct (hasEffectiveSelectors _); [done|]. simpl.
  destruct (parseLogFilter r); [done|]. by intros [= ->].
Qed.

(** A source of the chain has the key and the requests of its topic; only the
    source of logs filters, by what the request asks for. *)
Lemma resolveSource_spec caps r settings key kind f :
  resolveSource caps r settings = Some (key, kind, f) ->
  match kind_topic kind with
  | Some (topic, k) => key = k /\ subscribeTopic r = Some topic
  | None => subscriptionKey r = Some key
  end /\ match kind with LogsKind => exists g, f = Some g /\ parseLogFilter r = inr g | _ => f = None end.
Proof using Type.
  unfold resolveSource. destruct (NewHeads settings && isNewHeadsRequest r && _) eqn:E1.
  { intros [= <- <- <-]. rewrite !andb_true_iff in E1. destruct E1 as [[_ E1] _]. by apply bool_decide_eq_true in E1. }
  destruct (local_logs caps r settings) as [g|] eqn:E2.
  { intros [= <- <- <-]. apply local_logs_spec in E2 as (Ht & _ & Hg). apply bool_decide_eq_true in Ht. simpl. eauto. }
  destruct (PendingTx settings && isPendingTxRequest r && _) eqn:E3.
  { intros [= <- <- <-]. rewrite !andb_true_iff in E3. destruct E3 as [[_ E3] _]. by apply bool_decide_eq_true in E3. }
  destruct (isDrpcPendingTxRequest r && _) eqn:E4.
  { intros [= <- <- <-]. rewrite !andb_true_iff in E4. destruct E4 as [E4 _]. by apply bool_decide_eq_true in E4. }
  intros (k & Ek & [= -> -> ->])%fmap_Some. done.
Qed.

(** A client only shares a source with clients that asked for the same: two
    subscriptions with one key have the same kind of source, the same topic if the
    chain makes the events itself, and otherwise the same hash of method and
    parameters and the same routing; whatever capabilities the chain had when each
    of them came. *)
Theorem shared_sources_agree caps caps' settings settings' r r' key kind kind' f f' :
  key_fresh r -> key_fresh r' ->
  resolveSource caps r settings = Some (key, kind, f) ->
  resolveSource caps' r' settings' = Some (key, kind', f') ->
  kind = kind' /\
  (kind <> GenericKind -> subscribeTopic r = subscribeTopic r') /\
  (kind = GenericKind -> (RequestHash r).1 = (RequestHash r').1 /\
     selectorKey (Selectors r) = selectorKey (Selectors r')).
Proof using Type.
  intros Hf Hf' [E _]%resolveSource_spec [E' _]%resolveSource_spec.
  destruct kind, kind'; simpl in *; repeat match goal with
    | H : _ /\ _ |- _ => destruct H
    | H : subscriptionKey ?x = Some ?k, Hx : key_fresh ?x |- _ => pose proof (fun k' => generic_key_not_local x k k' Hx H); revert H
    end; intros; simplify_eq; split_and!; try done; try congruence;
    try match goal with H : forall k, _ <> String "l" k |- _ => exfalso; by eapply H end.
  intros _. clear -E E' Hf Hf'.
  apply fresh_hash in Hf as [b Hb]. apply fresh_hash in Hf' as [b' Hb'].
  apply fmap_Some in E as (k & Ek & Ekey). apply fmap_Some in E' as (k' & Ek' & Ekey'). rewrite Ekey in Ekey'.
  rewrite Hb, Hb' in Ekey' |- *. rewrite Ek, Ek'.
  assert (forall x, contains_char "|" (hex_encode x) = false) as Hno.
  { intros x. apply hex_encode_no_char. intros d. unfold hex_digit. by repeat case_match. }
  apply (f_equal (cut_at "|")) in Ekey'. simpl in Ekey'.
  rewrite !cut_at_app in Ekey' by apply Hno. by injection Ekey' as -> ->.
Qed.
End Keys.

(** ** What a client is answered *)

Section Answers.
Context `{FP : FirstParam} `{MP : MethodParsers} `{JS : Json} `{LJ : LogJson} `{HH : Hashing}.

Lemma delivered_view filter events : List.filter (delivered filter) events = client_view filter events.
Proof using Type.
  unfold client_view. induction events as [|e events IH]; [done|]. rewrite filter_cons. simpl. rewrite IH.
  assert (delivered filter e = Matches filter (se_Parsed e)) as -> by (by destruct filter).
  by destruct (Matches filter (se_Parsed e)).
Qed.

(** C31. A client gets what it subscribed to, from its subscription to its end.  Once
    it has read all its subscriber was sent, it was answered the confirmation, with
    an id it is known by, then one response for every event, of a run of consecutive
    events of the shared source from the moment it subscribed, that its filter
    matches, in order and none twice; the run is complete as long as the client is
    served.  When the source ends, or drops the client, the last answer is the
    failure that caused it. *)
Theorem client_gets_matching_run buffer a id s isSolana caps settings random cancel request subscription subCtx answers
    subCtx' :
  actor_reach buffer a -> heap a !! id = Some s -> ch s = [] ->
  SpecMethod request ≫= method_Subscription = Some subscription ->
  Sub_ProcessRequest isSolana caps settings (fun _ _ => None) (inr random) cancel (received s)
    (if closed s then SourceEnded (err s) else ClientDone) request subCtx = Some (answers, subCtx') ->
  exists key kind filter subId name failure,
    resolveSource caps request settings = Some (key, kind, filter) /\
    ResultAsString subId = Some name /\ sub_Exists name subCtx' = true /\
    answers = confirmation request subId ::
      map (event_response request (subscriptionResult subCtx) (sub_Method subscription) subId)
        (client_view filter (received s)) ++ failure /\
    received s `prefix_of` drop (start s) (events a) /\
    (id ∈ subs a -> received s = drop (start s) (events a)) /\
    (id ∉ subs a \/ done a = true ->
       left s = true \/ exists cause, failure = [totalFailureWrapper request (RespError cause)]).
Proof using Type.
  intros Hr%actor_reach_inv Hs Hch Hsub. unfold Sub_ProcessRequest. rewrite Hsub.
  destruct (resolveSource caps request settings) as [[[key kind] filter]|]; [|done]. simpl.
  destruct (ResultAsString _) as [name|] eqn:En; [|done]. intros [= <- <-].
  destruct (ai_heap _ _ Hr id s Hs) as [_ [Hst Hro Hpr Hac Hop Hgo Hen Hca]].
  unfold sent in Hpr, Hac. rewrite Hch, app_nil_r in Hpr, Hac.
  exists key, kind, filter, (nextSubscriptionJson isSolana random), name.
  eexists. split; [done|]. split; [exact En|]. split.
  { unfold sub_Exists, AddSub. simpl. apply bool_decide_eq_true. rewrite lookup_insert_eq. by eexists. }
  split; [by rewrite delivered_view|]. split; [exact Hpr|]. split; [exact Hac|]. intros Hend.
  assert (closed s = true \/ left s = true) as [Hc|Hl]; [|right|by left].
  { destruct Hend as [Hn|Hd]; [by apply Hgo|]. destruct (decide (id ∈ subs a)); auto. }
  rewrite Hc. destruct (proj1 Hca Hc) as [cause ->]. by exists cause.
Qed.
End Answers.

(** ** An example: two clients of the logs of one chain *)

#[local] Instance sub_first_param : FirstParam := fun _ => inr "logs".
#[local] Instance sub_parsers : MethodParsers := no_parsers (fun _ _ params => inr params).
#[local] Instance sub_json : Json := {
  GetByPath _ _ := None; unmarshal_jsonRpcError _ := None; marshal_jsonRpcError _ := inl StopRetryErr;
  unmarshal_string s := Some s; unmarshal_wsMessage _ := None; marshal_wsSubResponse _ _ _ := inl StopRetryErr }.
#[local] Instance sub_log_json : LogJson := {
  params_at _ body := Some body;
  unmarshal_rawLogFilter raw := inr (mkRawLogFilter raw []);
  unmarshal_strings _ := None;
  unmarshal_log raw := (raw, []) }.
#[local] Instance sub_hashing : Hashing := { blake2b s := s; encode_query _ := "" }.

Definition eth_subscribe : Method :=
  mkMethod "eth_subscribe" "sub" (Some (mkSubscription true "eth_subscription" "eth_unsubscribe")) None [] None None
    true false false false DispatchDefault.
Definition logs_of (address : string) : RequestHolder :=
  JsonRpcRequest (mkJsonRpcRequest "1" "1" "eth_subscribe" NoParam address None (Some eth_subscribe) [] false false true).
Definition all_local : LocalSubSettings := mkLocalSubSettings true true true.
Definition filter_of (address : string) : logFilter := mkLogFilter {[address]} [].

Example logs_of_resolved a : ToLower a = a -> a <> "" ->
  resolveSource (Some {[LogsCap]}) (logs_of a) all_local = Some (localLogsKey, LogsKind, Some (filter_of a)).
Proof.
  intros Hl Ha.
  assert (parseLogFilter (logs_of a) = inr (filter_of a)) as E.
  { unfold parseLogFilter, parseStringOrArray. simpl. rewrite bool_decide_eq_false_2 by done.
    unfold lower_set, filter_of. simpl. by rewrite Hl, union_empty_r_L. }
  unfold resolveSource, local_logs. rewrite E. by vm_compute.
Qed.

(** The clients of two addresses share the source of logs. *)
Lemma shared_sources_agree_witness :
  resolveSource (Some {[LogsCap]}) (logs_of "a") all_local = Some (localLogsKey, LogsKind, Some (filter_of "a")) /\
  subscribeTopic (logs_of "a") = subscribeTopic (logs_of "b").
Proof.
  pose proof (logs_of_resolved "a" eq_refl ltac:(done)) as Ea. pose proof (logs_of_resolved "b" eq_refl ltac:(done)) as Eb.
  split; [exact Ea|].
  destruct (shared_sources_agree (Some {[LogsCap]}) (Some {[LogsCap]}) all_local all_local (logs_of "a") (logs_of "b")
    localLogsKey LogsKind LogsKind _ _ eq_refl eq_refl Ea Eb) as (_ & Ht & _). by apply Ht.
Defined.

(** The log of another address, which the client does not see, and one of its own. *)
Definition log_from (address : string) : SourceEvent :=
  added_event "up1" (mkParsedLog ("log " +:+ address) address []).

Definition one_client : Actor SourceEvent :=
  let a := on_event 100 (log_from "a") (on_event 100 (log_from "b") (on_subscribe newActor)) in
  match heap a !! 1%nat with
  | Some s => match client_read s with
              | Some s1 => match client_read s1 with Some s2 => set_sub 1 s2 (set_sub 1 s1 a) | None => a end
              | None => a
              end
  | None => a
  end.

Example one_client_reached : actor_reach 100 one_client.
Proof.
  assert (actor_reach 100 (on_event 100 (log_from "a") (on_event 100 (log_from "b") (on_subscribe newActor)))) as Hr.
  { eapply reach_next; [eapply reach_next; [eapply reach_next; [apply reach_new|by apply step_subscribe]|]|];
      by apply step_event. }
  unfold one_client. revert Hr. generalize (on_event 100 (log_from "a") (on_event 100 (log_from "b") (on_subscribe newActor))).
  intros a Hr. simpl. destruct (heap a !! 1%nat) as [s|] eqn:E1; [|done].
  destruct (client_read s) as [s1|] eqn:E2; [|done]. destruct (client_read s1) as [s2|] eqn:E3; [|done].
  eapply reach_next; [eapply reach_next; [exact Hr|by eapply step_read]|].
  eapply step_read; [|exact E3]. simpl. by rewrite lookup_insert_eq.
Qed.

Example one_client_state :
  heap one_client !! 1%nat = Some (mkSubscriber [] false None 0 [log_from "b"; log_from "a"] false).
Proof. vm_compute. reflexivity. Qed.

(** The client of address "a" is answered the confirmation and the second log. *)
Definition answers_of_a : option (list ResponseHolderWrapper * SubCtx) :=
  Sub_ProcessRequest false (Some {[LogsCap]}) all_local (fun _ _ => None) (inr [x01]) 7 [log_from "b"; log_from "a"]
    ClientDone (logs_of "a") NewSubCtx.

Example answers_of_a_results : (fun r => map (fun x => ResponseResult (Response x)) r.1) <$> answers_of_a =
  Some [quoted "0x01"; "log a"].
Proof.
  unfold answers_of_a, Sub_ProcessRequest. rewrite (logs_of_resolved "a" eq_refl ltac:(done)). vm_compute. reflexivity.
Qed.

Lemma client_gets_matching_run_witness :
  exists s answers ctx', heap one_client !! 1%nat = Some s /\ answers_of_a = Some (answers, ctx') /\
    map (fun x => ResponseResult (Response x)) answers = [quoted "0x01"; "log a"] /\
    received s = [log_from "b"; log_from "a"] /\ received s `prefix_of` drop (start s) (events one_client).
Proof.
  pose proof answers_of_a_results as Hm. destruct answers_of_a as [[answers ctx']|] eqn:E; [|discriminate Hm].
  eexists _, answers, ctx'. split; [exact one_client_state|]. split; [done|]. split; [by injection Hm|]. split; [done|].
  destruct (client_gets_matching_run 100 one_client 1%nat _ false (Some {[LogsCap]}) all_local [x01] 7 (logs_of "a")
    (mkSubscription true "eth_subscription" "eth_unsubscribe") NewSubCtx answers ctx' one_client_reached one_client_state
    eq_refl eq_refl E) as (key & kind & f & subId & name & failure & _ & _ & _ & _ & Hp & _).
  exact Hp.
Defined.
