(* ===== verification/PendingTx.v ===== *)
(** Pending transactions of a chain
    ([internal/upstreams/flow/pending_tx_source.go]): the hashes every node of the
    chain announces, merged into one source that sends each once, and the
    transactions they stand for.

    The source runs several goroutines: one per node, which forwards what the node
    announces, and the loop that merges.  Each step of the model is one arm of one
    of their [select]s. *)

From S2P Require Import Prelude.
From S2P Require Import GoStrings.
From S2P Require Import Protocol.
From S2P Require Import Errors.
From S2P Require Import Responses.
From S2P Require Import Specs.
From S2P Require Import Methods.
From S2P Require Import UpstreamState.
From S2P Require Import ChainState.
From S2P Require Import ChainSupervisor.
From S2P Require Import Requests.
From S2P Require Import MethodTranslation.
From S2P Require Import Send.
From S2P Require Import Processors.
From S2P Require Import Flow.
From S2P Require Import LocalSources.

Definition pendingTxBufferSize : nat := 4096.
Definition pendingTxDedupSize : nat := N.to_nat 10000.
Lemma dedup_size_pos : exists n, pendingTxDedupSize = S n.
Proof. exists (N.to_nat 9999). unfold pendingTxDedupSize. by rewrite <- N2Nat.inj_succ. Qed.
(** Nanoseconds. *)
Definition pendingTxDedupTTL : Z := 30000000000.

(** The LRU cache of [hashicorp/golang-lru] as the times hashes were seen, by its
    items from the one used last. *)
Class SeenLru := {
  Seen : Type;
  seen_New : nat -> Seen;
  seen_Get : string -> Seen -> option Z * Seen;
  seen_Add : string -> Z -> Seen -> Seen;
  seen_items : Seen -> list (string * Z);
  seen_size : Seen -> nat;
}.

(** An item without those of a key. *)
Definition without (key : string) (l : list (string * Z)) : list (string * Z) := filter (fun x => x.1 <> key) l.
Definition find_key (key : string) (l : list (string * Z)) : option Z := snd <$> find (fun x => bool_decide (x.1 = key)) l.

Class SeenLaws `{SeenLru} : Prop := {
  seen_New_items : forall n, seen_items (seen_New n) = [] /\ seen_size (seen_New n) = n;
  seen_Get_items : forall k c,
    (seen_Get k c).1 = find_key k (seen_items c) /\ seen_size (seen_Get k c).2 = seen_size c /\
    seen_items (seen_Get k c).2 = match find_key k (seen_items c) with
                                  | Some t => (k, t) :: without k (seen_items c)
                                  | None => seen_items c
                                  end;
  seen_Add_items : forall k t c,
    seen_items (seen_Add k t c) = take (seen_size c) ((k, t) :: without k (seen_items c)) /\
    seen_size (seen_Add k t c) = seen_size c;
}.

#[local] Opaque pendingTxDedupSize.

(** ** Duplicates *)

Section Dedup.
Context `{SL : SeenLru}.

(** A hash, at the time the loop takes it: whether it is sent on. *)
Definition dedup (key : string) (now : Z) (c : Seen) : bool * Seen :=
  let '(found, c) := seen_Get key c in
  match found with
  | Some t => if now - t <? pendingTxDedupTTL then (false, c) else (true, seen_Add key now c)
  | None => (true, seen_Add key now c)
  end.

Fixpoint dedup_run (c : Seen) (taken : list (string * Z)) : list bool * Seen :=
  match taken with
  | [] => ([], c)
  | (key, now) :: taken' =>
    let '(sent, c) := dedup key now c in
    let '(rest, c) := dedup_run c taken' in (sent :: rest, c)
  end.

(** Which of the hashes taken are sent on. *)
Definition sent_flags (taken : list (string * Z)) : list bool := (dedup_run (seen_New pendingTxDedupSize) taken).1.
End Dedup.

(** ** The merged source *)

(** What a node's forwarder is at: reading, holding a hash for the merged channel,
    telling that its feed died, gone. *)
Inductive feed_state := FeedReading | FeedHolding (message : string) | FeedDying | FeedGone.

Record feed := mkFeed { feed_id : string; feed_at : feed_state }.

(** [taken] is history: the hashes the loop took, with the time and the node. *)
Record PendingSource `{SeenLru} := mkPending {
  feeds : list feed;
  merged : list (string * string);
  feedsAlive : Z;
  seen : Seen;
  out : list SourceEvent;
  finished : bool;
  taken : list (string * Z * string);
}.

Section Source.
Context `{SL : SeenLru}.

Definition start_source (ids : list string) : PendingSource :=
  mkPending _ (map (fun id => mkFeed id FeedReading) ids) [] (Z.of_nat (length ids)) (seen_New pendingTxDedupSize) [] false [].

Definition set_feed (i : nat) (f : feed) (s : PendingSource) : PendingSource :=
  mkPending _ (<[i := f]> (feeds s)) (merged s) (feedsAlive s) (seen s) (out s) (finished s) (taken s).

(** A forwarder reads a response of its node, or the closed channel. *)
Definition feed_read (r : option WsResponse) (f : feed) : feed :=
  match r with
  | None => mkFeed (feed_id f) FeedDying
  | Some r =>
    match ws_Error r with
    | Some _ => mkFeed (feed_id f) FeedDying
    | None => if bool_decide (ws_SubId r = "") then f else mkFeed (feed_id f) (FeedHolding (ws_Message r))
    end
  end.

(** It sends what it holds when the merged channel has room. *)
Definition feed_push (i : nat) (f : feed) (message : string) (s : PendingSource) : PendingSource :=
  mkPending _ (<[i := mkFeed (feed_id f) FeedReading]> (feeds s)) (merged s ++ [(message, feed_id f)]) (feedsAlive s)
    (seen s) (out s) (finished s) (taken s).

Definition finish (events : list SourceEvent) (s : PendingSource) : PendingSource :=
  mkPending _ (feeds s) (merged s) (feedsAlive s) (seen s) (out s ++ events) true (taken s).

(** The loop hears that a feed died. *)
Definition feed_done (i : nat) (f : feed) (s : PendingSource) : PendingSource :=
  let alive := feedsAlive s - 1 in
  let s := mkPending _ (<[i := mkFeed (feed_id f) FeedGone]> (feeds s)) (merged s) alive (seen s) (out s) (finished s)
             (taken s) in
  if alive =? 0 then finish [source_failure] s else s.

(** The loop looks at the chain's capabilities. *)
Definition look_at_caps (caps : gset Cap) (s : PendingSource) : PendingSource :=
  if bool_decide (PendingTxCap ∈ caps) then s else finish [source_failure] s.

(** The loop takes a hash. *)
Definition take_merged (now : Z) (s : PendingSource) : PendingSource :=
  match merged s with
  | [] => s
  | (message, id) :: rest =>
    let '(sent, c) := dedup message now (seen s) in
    mkPending _ (feeds s) rest (feedsAlive s) c
      (out s ++ (if sent then [mkSourceEvent message None id None] else [])) (finished s) (taken s ++ [(message, now, id)])
  end.

Inductive pending_step (s : PendingSource) : PendingSource -> Prop :=
| step_feed_read i f r : feeds s !! i = Some f -> feed_at f = FeedReading -> pending_step s (set_feed i (feed_read r f) s)
| step_feed_push i f message : feeds s !! i = Some f -> feed_at f = FeedHolding message ->
    (length (merged s) < pendingTxBufferSize)%nat -> pending_step s (feed_push i f message s)
| step_feed_done i f : finished s = false -> feeds s !! i = Some f -> feed_at f = FeedDying -> pending_step s (feed_done i f s)
| step_state_event caps : finished s = false -> pending_step s (look_at_caps caps s)
| step_take now : finished s = false -> merged s <> [] -> pending_step s (take_merged now s)
| step_stopped : finished s = false -> pending_step s (finish [] s).

Inductive pending_reach (ids : list string) : PendingSource -> Prop :=
| pending_start caps : ids <> [] -> pending_reach ids (look_at_caps caps (start_source ids))
| pending_next s s' : pending_reach ids s -> pending_step s s' -> pending_reach ids s'.
End Source.

(** ** The feeds of a chain *)

Section Build.
Context {W : Type} `{NT : Net W} `{CH : Chain W}.
Context (reg : Registry) (specName : string).

(** The nodes whose [newPendingTransactions] is opened: [subscribes] tells whether a
    node's connector does it. *)
Definition is_feed (subscribes : string -> bool) (w : W) (id : string) : bool :=
  match upstreamStates (chain_supervisor w) !! id with
  | None => false
  | Some state =>
    bool_decide (Status state = Available) && bool_decide (PendingTxCap ∈ Caps state) && net_upstream id &&
    bool_decide (is_Some (getMethodConnector id
      match GetSpecMethod reg specName "eth_subscribe" with Some m => apiConnectorTypes m | None => [] end)) &&
    subscribes id
  end.

Definition newPendingTxSource `{SeenLru} (subscribes : string -> bool) (ids : list string) (w : W)
    : ResponseError + PendingSource :=
  match List.filter (is_feed subscribes w) ids with
  | [] => inl NoAvailableUpstreamsError
  | opened => inr (look_at_caps (chain_caps w) (start_source opened))
  end.
End Build.

(** ** The transaction of a hash *)

Definition isNullResult (result : string) : bool :=
  bool_decide (result = "") || bool_decide (TrimSpace result = "null").

Section Enrich.
Context {W : Type} `{NT : Net W} `{CH : Chain W} `{RT : RpcTags} `{MR : MapRange} `{MP : MethodParsers}.
Context `{TJ : TranslationJson} `{JS : Json}.
Context (reg : Registry) (specName : string).

Definition enrich_target (request : RequestHolder) (w : W) (id : string) : bool :=
  match upstreamStates (chain_supervisor w) !! id with
  | None => false
  | Some state =>
    bool_decide (Status state = Available) && net_upstream id &&
    bool_decide (is_Some (getMethodConnector id (connector_types request)))
  end.

(** What the call of one node puts into the channel of results. *)
Definition enrich_reply (request : RequestHolder) (param : MethodParam) (id : string) (w : W)
    : option (string * string) * W :=
  let '(result, w) := sendUnaryRequest reg id request param w in
  (match result with
   | inl _ => None
   | inr resp =>
     if HasError (Response resp) then None
     else let tx := ResponseResult (Response resp) in if isNullResult tx then None else Some (tx, UpstreamId resp)
   end, w).

Fixpoint enrich_replies (request : RequestHolder) (param : MethodParam) (ids : list string) (w : W)
    : list (option (string * string)) * W :=
  match ids with
  | [] => ([], w)
  | id :: ids' =>
    let '(reply, w) := enrich_reply request param id w in
    let '(replies, w) := enrich_replies request param ids' w in (reply :: replies, w)
  end.

(** The results in the order they arrive: the first that is there. *)
Definition first_tx (arrived : list (option (string * string))) : option (string * string) := head (omap id arrived).

(** [marshal] is the JSON of the parameters; [arrive] puts the results in the order
    of their arrival. *)
Definition enrichPendingTx (marshal : string -> GoError + string)
    (arrive : list (option (string * string)) -> list (option (string * string)))
    (ids : list string) (hashMessage : string) (w : W) : option (string * string) * W :=
  match unmarshal_string hashMessage with
  | None => (None, w)
  | Some hash =>
    match marshal hash with
    | inl _ => (None, w)
    | inr params =>
      let request := NewInternalUpstreamJsonRpcRequest reg specName "eth_getTransactionByHash" params in
      let '(param, request) := ParseParams request in
      let '(replies, w) := enrich_replies request param (List.filter (enrich_target request w) ids) w in
      (first_tx (arrive replies), w)
    end
  end.
End Enrich.

(** ** A hash is sent on once *)

Lemma find_key_cons k k' t l : find_key k ((k', t) :: l) = if bool_decide (k' = k) then Some t else find_key k l.
Proof. unfold find_key. simpl. by case_bool_decide. Qed.

Lemma find_key_without k k' l : k <> k' -> find_key k (without k' l) = find_key k l.
Proof.
  intros Hk. induction l as [|[x t] l IH]; [done|]. unfold without. rewrite filter_cons. fold (without k' l).
  case_decide; rewrite !find_key_cons, ?IH; [done|]. simpl in *. rewrite bool_decide_eq_false_2; [done|].
  intros ->. congruence.
Qed.

Lemma find_key_take k n l t : find_key k (take n l) = Some t -> find_key k l = Some t.
Proof.
  revert n. induction l as [|[x u] l IH]; intros [|n]; try done. simpl. rewrite !find_key_cons. case_bool_decide; eauto.
Qed.

Lemma find_key_at k t pre post : k ∉ pre.*1 -> find_key k (pre ++ (k, t) :: post) = Some t.
Proof.
  induction pre as [|[x u] pre IH]; simpl; intros Hn.
  - by rewrite find_key_cons, bool_decide_eq_true_2.
  - rewrite find_key_cons, bool_decide_eq_false_2 by (intros ->; apply Hn; left). apply IH. set_solver.
Qed.

Lemma without_at k k' t pre post : k <> k' -> k ∉ pre.*1 ->
  exists pre' post', without k' (pre ++ (k, t) :: post) = pre' ++ (k, t) :: post' /\ (k ∉ pre'.*1) /\
    (length pre' <= length pre)%nat.
Proof.
  intros Hk Hn. unfold without. exists (filter (fun x => x.1 <> k') pre), (filter (fun x => x.1 <> k') post).
  rewrite filter_app, filter_cons, decide_True by done. split_and!; [done| |apply length_filter].
  intros (x & Hx & Hin)%list_elem_of_fmap. apply list_elem_of_filter in Hin as [_ Hin]. apply Hn.
  apply list_elem_of_fmap. by exists x.
Qed.

Section Once.
Context `{SL : SeenLru} `{SLL : !SeenLaws}.

(** What taking a hash does to the items. *)
Lemma dedup_items key now c b c' : dedup key now c = (b, c') ->
  let l := seen_items c in
  let l1 := match find_key key l with Some t => (key, t) :: without key l | None => l end in
  seen_size c' = seen_size c /\
  (b = false /\ (exists t, find_key key l = Some t /\ now - t < pendingTxDedupTTL) /\ seen_items c' = l1 \/
   b = true /\ (forall t, find_key key l = Some t -> pendingTxDedupTTL <= now - t) /\
     seen_items c' = take (seen_size c) ((key, now) :: without key l1)).
Proof using SLL.
  unfold dedup. destruct (seen_Get_items key c) as (Hf & Hsz & Hit). destruct (seen_Get key c) as [found c1]. simpl in *.
  destruct (seen_Add_items key now c1) as [Hai Has]. rewrite Hit, Hsz in Hai. rewrite Hsz in Has. subst found.
  destruct (find_key key (seen_items c)) as [t|] eqn:Ef.
  - destruct (now - t <? pendingTxDedupTTL) eqn:Et; reflect_bool; intros [= <- <-].
    + split; [done|left]. eauto.
    + split; [done|right]. split_and!; [done| |done]. intros ? [= <-]. lia.
  - intros [= <- <-]. split; [done|right]. by split_and!.
Qed.

Lemma dedup_run_app c l1 l2 :
  dedup_run c (l1 ++ l2) = let '(b1, c1) := dedup_run c l1 in let '(b2, c2) := dedup_run c1 l2 in (b1 ++ b2, c2).
Proof using Type.
  revert c. induction l1 as [|[key now] l1 IH]; intros c; simpl; [by destruct (dedup_run c l2)|].
  destruct (dedup key now c) as [b c1]. rewrite IH. destruct (dedup_run c1 l1) as [b1 c2]. by destruct (dedup_run c2 l2).
Qed.

Definition seen_after (l : list (string * Z)) : Seen := (dedup_run (seen_New pendingTxDedupSize) l).2.

Lemma dedup_run_snoc l key now :
  sent_flags (l ++ [(key, now)]) = sent_flags l ++ [(dedup key now (seen_after l)).1] /\
  seen_after (l ++ [(key, now)]) = (dedup key now (seen_after l)).2.
Proof using Type.
  unfold sent_flags, seen_after. rewrite dedup_run_app. destruct (dedup_run _ l) as [b c]. simpl.
  by destruct (dedup key now c).
Qed.

Lemma sent_flags_length l : length (sent_flags l) = length l.
Proof using Type.
  induction l as [|[key now] l IH] using rev_ind; [done|]. by rewrite (proj1 (dedup_run_snoc _ _ _)), !length_app, IH.
Qed.

(** The hash [k] was sent on at position [i], at time [t]. *)
Definition sent_at (l : list (string * Z)) (i : nat) (k : string) (t : Z) : Prop :=
  l !! i = Some (k, t) /\ sent_flags l !! i = Some true.

Lemma sent_at_app l x i k t : (i < length l)%nat -> sent_at (l ++ [x]) i k t <-> sent_at l i k t.
Proof using Type.
  intros Hi. destruct x as [key now]. unfold sent_at. rewrite (proj1 (dedup_run_snoc l key now)).
  rewrite !lookup_app_l by (rewrite ?sent_flags_length; lia). done.
Qed.

Lemma sent_at_last l key now i k t : (length l <= i)%nat -> sent_at (l ++ [(key, now)]) i k t <->
  i = length l /\ k = key /\ t = now /\ (dedup key now (seen_after l)).1 = true.
Proof using Type.
  intros Hi. unfold sent_at. rewrite (proj1 (dedup_run_snoc l key now)). rewrite !lookup_app_r by (rewrite ?sent_flags_length; lia).
  rewrite sent_flags_length, !list_lookup_singleton_Some. split.
  - intros [[Hz [= <- <-]] [_ ?]]. split_and!; [lia|done..].
  - intros (-> & -> & -> & ->). by rewrite Nat.sub_diag.
Qed.

(** [i] is the last position before the end at which [k] was sent on. *)
Definition last_sent (l : list (string * Z)) (i : nat) (k : string) (t : Z) : Prop :=
  sent_at l i k t /\ forall i' t', sent_at l i' k t' -> (i' <= i)%nat.

Record seen_ok (l : list (string * Z)) (c : Seen) : Prop := mkSeenOk {
  sk_size : seen_size c = pendingTxDedupSize;
  sk_last : forall k t, find_key k (seen_items c) = Some t -> exists i, last_sent l i k t;
  sk_kept : forall i k t, last_sent l i k t -> (length l - S i < pendingTxDedupSize)%nat ->
    exists pre post, seen_items c = pre ++ (k, t) :: post /\ (k ∉ pre.*1) /\ (length pre <= length l - S i)%nat;
}.

Lemma sent_at_lt l i k t : sent_at l i k t -> (i < length l)%nat.
Proof using Type. intros [Hi _]. by eapply lookup_lt_Some. Qed.

Lemma last_sent_other l key now i k t : k <> key \/ (dedup key now (seen_after l)).1 = false ->
  last_sent (l ++ [(key, now)]) i k t <-> last_sent l i k t.
Proof using Type.
  intros Hne. assert (forall i t, sent_at (l ++ [(key, now)]) i k t <-> sent_at l i k t) as He.
  { intros j u. destruct (decide (j < length l)%nat) as [Hj|Hj]; [by apply sent_at_app|].
    rewrite sent_at_last by lia. split; [intros (_ & -> & _ & Hb); destruct Hne; congruence|]. intros ?%sent_at_lt. lia. }
  unfold last_sent. rewrite He. split; intros [Hs Hm]; (split; [done|]); intros i' t' Hi'; apply (Hm i' t'); by apply He.
Qed.

Lemma last_sent_new l key now : (dedup key now (seen_after l)).1 = true -> last_sent (l ++ [(key, now)]) (length l) key now.
Proof using Type.
  intros Hb. split; [by apply sent_at_last|]. intros i' t' Hs%sent_at_lt. rewrite length_app in Hs. simpl in Hs. lia.
Qed.

Lemma last_sent_fun l i i' k t t' : last_sent l i k t -> last_sent l i' k t' -> i = i' /\ t = t'.
Proof using Type.
  intros [[Hi Hb] Hm] [[Hi' Hb'] Hm']. assert (i = i') as -> by (apply Nat.le_antisymm; [eapply Hm'|eapply Hm]; by split).
  split; [done|]. congruence.
Qed.

Lemma seen_ok_snoc l key now : seen_ok l (seen_after l) -> seen_ok (l ++ [(key, now)]) (seen_after (l ++ [(key, now)])).
Proof using SLL.
  intros [Hsz Hl Hk]. rewrite (proj2 (dedup_run_snoc l key now)). destruct (dedup key now (seen_after l)) as [b c'] eqn:E.
  assert ((dedup key now (seen_after l)).1 = b) as Eb by (by rewrite E). pose proof (dedup_items _ _ _ _ _ E) as [Hs' Hit].
  simpl in *. rewrite Hsz in *. set (l0 := seen_items (seen_after l)) in *.
  set (l1 := match find_key key l0 with Some t => (key, t) :: without key l0 | None => l0 end) in *.
  assert (forall k, k <> key -> find_key k l1 = find_key k l0) as H1.
  { intros k Hne. unfold l1. destruct (find_key key l0); [|done].
    rewrite find_key_cons, bool_decide_eq_false_2 by congruence. by apply find_key_without. }
  assert (forall k t pre post, k <> key -> l0 = pre ++ (k, t) :: post -> k ∉ pre.*1 ->
    exists pre' post', l1 = pre' ++ (k, t) :: post' /\ (k ∉ pre'.*1) /\ (length pre' <= S (length pre))%nat /\
      exists pre2 post2, without key l1 = pre2 ++ (k, t) :: post2 /\ (k ∉ pre2.*1) /\ (length pre2 <= length pre)%nat) as H2.
  { intros k t pre post Hne E0 Hn. destruct (without_at k key t pre post Hne Hn) as (pre' & post' & Ew & Hn' & Hlen).
    rewrite <- E0 in Ew. unfold l1. destruct (find_key key l0) as [u|].
    - exists ((key, u) :: pre'), post'. rewrite Ew. simpl. split_and!; [done|set_solver|lia|].
      unfold without at 1. rewrite filter_cons, decide_False by (simpl; congruence).
      destruct (without_at k key t pre' post' Hne Hn') as (pre2 & post2 & E2 & Hn2 & Hl2).
      exists pre2, post2. split_and!; [done|done|lia].
    - exists pre, post. split_and!; [done|done|lia|]. exists pre', post'. by split_and!. }
  split; [congruence| |].
  - intros k t Hf. destruct (decide (k = key)) as [->|Hne].
    + destruct Hit as [(-> & (u & Hu & _) & Ei)|(-> & _ & Ei)]; rewrite Ei in Hf.
      * unfold l1 in Hf. rewrite Hu, find_key_cons, bool_decide_eq_true_2 in Hf by done. injection Hf as <-.
        destruct (Hl key u Hu) as [i Hi]. exists i. apply last_sent_other; auto.
      * apply find_key_take in Hf. rewrite find_key_cons, bool_decide_eq_true_2 in Hf by done. injection Hf as <-.
        exists (length l). by apply last_sent_new.
    + assert (find_key k l0 = Some t) as Hf0.
      { rewrite <- H1 by done. destruct Hit as [(_ & _ & Ei)|(_ & _ & Ei)]; rewrite Ei in Hf; [done|].
        apply find_key_take in Hf. by rewrite find_key_cons, bool_decide_eq_false_2, find_key_without in Hf by congruence. }
      destruct (Hl k t Hf0) as [i Hi]. exists i. apply last_sent_other; auto.
  - assert (length (l ++ [(key, now)]) = S (length l)) as Hll by (rewrite length_app; simpl; lia).
    intros i k t Hi Hlt. rewrite Hll in Hlt |- *. destruct (decide (k = key /\ b = true)) as [[-> ->]|Hne].
    + destruct (last_sent_fun _ _ _ _ _ _ Hi (last_sent_new l key now Eb)) as [-> ->].
      destruct Hit as [(? & _)|(_ & _ & Ei)]; [done|]. rewrite Ei.
      destruct dedup_size_pos as [n ->]. simpl. exists [], (take n (without key l1)). split_and!; [done|set_solver|simpl; lia].
    + apply last_sent_other in Hi; [|destruct (decide (k = key)); [right; destruct b; naive_solver|by left]].
      pose proof (sent_at_lt _ _ _ _ (proj1 Hi)) as Hil.
      destruct (Hk i k t Hi) as (pre & post & E0 & Hn & Hlen); [lia|].
      destruct (decide (k = key)) as [->|Hkey].
      * destruct b; [naive_solver|]. destruct Hit as [(_ & _ & Ei)|(? & _)]; [|done]. rewrite Ei. unfold l1.
        rewrite E0, (find_key_at key t pre post Hn). exists [], (without key (pre ++ (key, t) :: post)).
        split_and!; [done|set_solver|simpl; lia].
      * destruct (H2 k t pre post Hkey E0 Hn) as (pre' & post' & E1 & Hn1 & Hl1 & pre2 & post2 & E2 & Hn2 & Hl2).
        destruct Hit as [(_ & _ & Ei)|(_ & _ & Ei)]; rewrite Ei.
        -- exists pre', post'. split_and!; [done|done|lia].
        -- rewrite E2, app_comm_cons, take_app_ge by (simpl; lia).
           destruct (pendingTxDedupSize - length ((key, now) :: pre2))%nat as [|n] eqn:En; [simpl in En; lia|].
           simpl. exists ((key, now) :: pre2), (take n post2). split_and!; [done|set_solver|simpl; lia].
Qed.

Lemma seen_ok_after l : seen_ok l (seen_after l).
Proof using SLL.
  induction l as [|[key now] l IH] using rev_ind; [|by apply seen_ok_snoc].
  destruct (seen_New_items pendingTxDedupSize) as [Hi Hs]. split; simpl; [done| |]; unfold seen_after; simpl; rewrite Hi.
  - by intros k t.
  - intros i k t [[? _] _]. done.
Qed.
End Once.

Section Duplicates.
Context `{SL : SeenLru} `{SLL : !SeenLaws}.

Lemma sent_flags_prefix l1 l2 : exists rest, sent_flags (l1 ++ l2) = sent_flags l1 ++ rest.
Proof using Type.
  unfold sent_flags. rewrite dedup_run_app. destruct (dedup_run _ l1) as [b c]. destruct (dedup_run c l2). by eexists.
Qed.

Lemma sent_flags_lookup l j k t : l !! j = Some (k, t) ->
  sent_flags l !! j = Some (dedup k t (seen_after (take j l))).1.
Proof using Type.
  intros Hj. pose proof (lookup_lt_Some _ _ _ Hj) as Hlt.
  destruct (sent_flags_prefix (take (S j) l) (drop (S j) l)) as [rest E]. rewrite take_drop in E. rewrite E.
  rewrite (take_S_r _ _ _ Hj), (proj1 (dedup_run_snoc _ k t)).
  rewrite <- app_assoc, lookup_app_r; rewrite sent_flags_length, length_take, Nat.min_l by lia; [|done].
  by rewrite Nat.sub_diag.
Qed.

Lemma sent_at_take l j i k t : (i < j)%nat -> sent_at (take j l) i k t <-> sent_at l i k t.
Proof using Type.
  intros Hij. unfold sent_at. rewrite lookup_take_lt by done.
  destruct (sent_flags_prefix (take j l) (drop j l)) as [rest E]. rewrite take_drop in E.
  split; intros [Hl Hb]; (split; [done|]); pose proof (lookup_lt_Some _ _ _ Hl) as Hlt.
  - rewrite E, lookup_app_l by (rewrite sent_flags_length, length_take; lia). done.
  - rewrite E, lookup_app_l in Hb by (rewrite sent_flags_length, length_take; lia). done.
Qed.

Definition in_time_order (l : list (string * Z)) : Prop :=
  forall i j x y, (i <= j)%nat -> l !! i = Some x -> l !! j = Some y -> x.2 <= y.2.

#[local] Instance sent_dec l i k : Decision (exists t, sent_at l i k t).
Proof using Type.
  unfold sent_at. destruct (decide (sent_flags l !! i = Some true)) as [Hb|Hb]; [|right; by intros (t & _ & ?)].
  destruct (l !! i) as [[k' t]|]; [|right; by intros (t & ? & _)].
  destruct (decide (k' = k)) as [->|Hk]; [left; eauto|right; intros (u & [= ? _] & _); done].
Defined.

(** The positions at which a hash was sent on have a last one. *)
Lemma last_sent_exists l i k t : sent_at l i k t -> exists i' t', (i <= i')%nat /\ last_sent l i' k t'.
Proof using Type.
  remember (length l - i)%nat as n eqn:En. revert i t En. induction n as [n IH] using lt_wf_ind. intros i t -> Hs.
  destruct (decide (Exists (fun j => (i < j)%nat /\ exists u, sent_at l j k u) (seq 0 (length l)))) as [He|Hn].
  - apply Exists_exists in He as (j & _ & Hij & u & Hj). pose proof (sent_at_lt _ _ _ _ Hj).
    destruct (IH (length l - j)%nat ltac:(lia) j u eq_refl Hj) as (i' & t' & Hle & Hlast). exists i', t'. split; [lia|done].
  - exists i, t. split; [done|]. split; [done|]. intros i' t' Hs'. apply Nat.nlt_ge. intros Hlt. apply Hn, Exists_exists.
    exists i'. split; [apply elem_of_seq; pose proof (sent_at_lt _ _ _ _ Hs'); lia|]. eauto.
Qed.

(** A pending transaction is announced once.  Of the hashes the nodes of a chain
    announce, the merged source withholds one only if it sent the same hash less
    than 30 seconds before; and it does withhold it, unless 10000 hashes were
    announced in between. *)
Theorem pending_deduplicated l j k t :
  in_time_order l -> l !! j = Some (k, t) ->
  (sent_flags l !! j = Some false ->
     exists i t', (i < j)%nat /\ sent_at l i k t' /\ t - t' < pendingTxDedupTTL) /\
  (forall i t', (i < j)%nat -> sent_at l i k t' -> t - t' < pendingTxDedupTTL ->
     (j - i <= pendingTxDedupSize)%nat -> sent_flags l !! j = Some false).
Proof using SLL.
  intros Hord Hj. rewrite (sent_flags_lookup l j k t Hj). pose proof (lookup_lt_Some _ _ _ Hj) as Hlt.
  destruct (seen_ok_after (take j l)) as [Hsz Hl Hk].
  destruct (dedup k t (seen_after (take j l))) as [b c] eqn:E. destruct (dedup_items _ _ _ _ _ E) as [_ Hit]. simpl in *.
  split.
  - intros [= ->]. destruct Hit as [(_ & (u & Hu & Hlt') & _)|(? & _)]; [|done]. destruct (Hl k u Hu) as (i & Hi & _).
    pose proof (sent_at_lt _ _ _ _ Hi) as Hij. rewrite length_take in Hij.
    exists i, u. split_and!; [lia| |done]. by apply (sent_at_take l j i k u ltac:(lia)).
  - intros i t' Hij Hi Ht Hcount. f_equal. apply (proj2 (sent_at_take l j i k t' Hij)) in Hi.
    destruct (last_sent_exists _ _ _ _ Hi) as (i2 & t2 & Hle & Hlast).
    pose proof (sent_at_lt _ _ _ _ (proj1 Hlast)) as Hi2. rewrite length_take in Hi2.
    destruct (Hk i2 k t2 Hlast) as (pre & post & E0 & Hn & _); [rewrite length_take; lia|].
    destruct Hit as [(-> & _)|(_ & Hold & _)]; [done|]. exfalso. specialize (Hold t2).
    rewrite E0, find_key_at in Hold by done. specialize (Hold eq_refl).
    destruct Hlast as [[Hl2 _] _]. destruct Hi as [Hl1 _]. rewrite lookup_take_lt in Hl1, Hl2 by lia.
    pose proof (Hord i i2 _ _ Hle Hl1 Hl2). simpl in *. lia.
Qed.
End Duplicates.

(** ** The source lives as long as one of its feeds *)

Section Lives.
Context `{SL : SeenLru}.

Definition is_gone (f : feed) : Prop := feed_at f = FeedGone.
#[local] Instance is_gone_dec f : Decision (is_gone f).
Proof. unfold is_gone. destruct (feed_at f); (left + right; done). Defined.

Definition living (fs : list feed) : nat := length (filter (fun f => ~ is_gone f) fs).

(** What the hashes taken made the source send. *)
Definition sent_events (taken : list (string * Z * string)) : list SourceEvent :=
  omap (fun x : (string * Z * string) * bool =>
    if x.2 then Some (mkSourceEvent x.1.1.1 None x.1.2 None) else None) (zip taken (sent_flags (map fst taken))).

Record source_inv (ids : list string) (s : PendingSource) : Prop := mkSourceInv {
  si_ids : map feed_id (feeds s) = ids;
  si_alive : feedsAlive s = Z.of_nat (living (feeds s));
  si_running : finished s = false -> feedsAlive s <> 0 /\ out s = sent_events (taken s);
  si_out : exists tail, out s = sent_events (taken s) ++ tail /\ (tail = [] \/ tail = [source_failure]) /\
             (feedsAlive s = 0 -> tail = [source_failure]);
  si_seen : seen s = seen_after (map fst (taken s));
  si_room : (length (merged s) <= pendingTxBufferSize)%nat;
}.

Lemma living_insert fs i f f' : fs !! i = Some f -> ~ is_gone f ->
  (living fs + (if decide (is_gone f') then 0 else 1) = living (<[i := f']> fs) + 1)%nat.
Proof using Type.
  intros Hi Hf. unfold living. revert i Hi. induction fs as [|g fs IH]; intros [|i]; try done; simpl.
  - intros [= ->]. rewrite !filter_cons, (decide_True _ _ Hf). destruct (decide (is_gone f')).
    + rewrite decide_False by auto. simpl. lia.
    + rewrite decide_True by done. simpl. lia.
  - intros Hi. rewrite !filter_cons. specialize (IH i Hi). destruct (decide (~ is_gone g)); simpl; lia.
Qed.

Lemma sent_events_snoc l message now id :
  sent_events (l ++ [(message, now, id)]) =
  sent_events l ++ (if (dedup message now (seen_after (map fst l))).1 then [mkSourceEvent message None id None] else []).
Proof using Type.
  unfold sent_events. rewrite map_app. simpl. rewrite (proj1 (dedup_run_snoc _ message now)).
  rewrite zip_with_app by (by rewrite sent_flags_length, length_map). rewrite omap_app. simpl. by destruct (dedup _ _ _).1.
Qed.

Lemma set_ids (fs : list feed) i f a : fs !! i = Some f -> map feed_id (<[i := mkFeed (feed_id f) a]> fs) = map feed_id fs.
Proof using Type.
  intros Hi. change (feed_id <$> <[i := mkFeed (feed_id f) a]> fs = feed_id <$> fs). rewrite list_fmap_insert. simpl.
  apply list_insert_id. by rewrite list_lookup_fmap, Hi.
Qed.

Lemma feed_read_same r f : exists a, feed_read r f = mkFeed (feed_id f) a /\ (feed_at f = FeedReading -> a <> FeedGone).
Proof using Type.
  destruct f as [id st]. unfold feed_read. destruct r as [r|]; [|by exists FeedDying]. destruct (ws_Error r); [by exists FeedDying|].
  case_bool_decide; [|by exists (FeedHolding (ws_Message r))]. exists st. split; [done|]. simpl. by intros ->.
Qed.

Lemma finish_inv ids s events : source_inv ids s -> finished s = false -> feedsAlive s <> 0 ->
  events = [] \/ events = [source_failure] -> source_inv ids (finish events s).
Proof using Type.
  intros [Hi Ha Hr Ho Hs Hm] Hf Hz He. destruct (Hr Hf) as [_ Eo]. split; simpl; [done|done|done| |done|done].
  exists events. rewrite Eo. split; [done|]. split; [done|]. intros ?. congruence.
Qed.

Lemma look_at_caps_inv ids s caps : source_inv ids s -> finished s = false -> source_inv ids (look_at_caps caps s).
Proof using Type.
  intros Hi Hf. unfold look_at_caps. case_bool_decide; [done|]. apply finish_inv; [done|done| |by right].
  by apply (si_running _ _ Hi).
Qed.

Lemma start_source_inv ids : ids <> [] -> source_inv ids (start_source ids).
Proof using Type.
  intros Hn. assert (living (map (fun id => mkFeed id FeedReading) ids) = length ids) as Hl.
  { clear Hn. unfold living. induction ids as [|x ids IH]; [done|]. cbn [map length].
    rewrite filter_cons, decide_True by done. simpl. by rewrite IH. }
  split; simpl; [by rewrite map_map, map_id|by rewrite Hl| | |done|lia].
  - intros _. split; [|done]. destruct ids; [done|simpl; lia].
  - exists []. split_and!; [done|by left|]. destruct ids; [done|simpl; lia].
Qed.

Lemma pending_step_inv ids s s' : source_inv ids s -> pending_step s s' -> source_inv ids s'.
Proof using Type.
  intros Hinv Hstep. pose proof Hinv as [Hi Ha Hr Ho Hs Hm].
  destruct Hstep as [i f r Hf Hat|i f message Hf Hat Hroom|i f Hfin Hf Hat|caps Hfin|now Hfin Hne|Hfin].
  - destruct (feed_read_same r f) as (a & E & Hgone). unfold set_feed. rewrite E. specialize (Hgone Hat).
    pose proof (living_insert (feeds s) i f (mkFeed (feed_id f) a) Hf) as Hl. rewrite decide_False in Hl by done.
    assert (living (<[i := mkFeed (feed_id f) a]> (feeds s)) = living (feeds s)) as El
      by (specialize (Hl ltac:(unfold is_gone; congruence)); lia).
    split; simpl; [by rewrite set_ids|by rewrite El|done|done|done|done].
  - pose proof (living_insert (feeds s) i f (mkFeed (feed_id f) FeedReading) Hf) as Hl. rewrite decide_False in Hl by done.
    assert (living (<[i := mkFeed (feed_id f) FeedReading]> (feeds s)) = living (feeds s)) as El
      by (specialize (Hl ltac:(unfold is_gone; congruence)); lia).
    split; simpl; [by rewrite set_ids|by rewrite El|done|done|done|rewrite length_app; simpl; lia].
  - pose proof (living_insert (feeds s) i f (mkFeed (feed_id f) FeedGone) Hf) as Hl. rewrite decide_True in Hl by done.
    specialize (Hl ltac:(unfold is_gone; congruence)). destruct (Hr Hfin) as [Hz Eo]. unfold feed_done.
    destruct (feedsAlive s - 1 =? 0) eqn:Ez; reflect_bool; split; simpl; try done; try (by rewrite set_ids); try lia.
    + rewrite Eo. exists [source_failure]. auto.
    + rewrite Eo. exists []. split_and!; [by rewrite app_nil_r|by left|lia].
  - by apply look_at_caps_inv.
  - unfold take_merged. destruct (merged s) as [|[message id] rest] eqn:Em; [done|].
    destruct (Hr Hfin) as [Hz Eo]. rewrite Hs. destruct (dedup message now (seen_after (map fst (taken s)))) as [b c] eqn:E.
    assert (out s ++ (if b then [mkSourceEvent message None id None] else []) = sent_events (taken s ++ [(message, now, id)]))
      as Hout by (by rewrite sent_events_snoc, Eo, E).
    split; simpl; [done|done| | | |simpl in Hm; lia].
    + intros _. by rewrite Hout.
    + exists []. rewrite Hout, app_nil_r. split_and!; [done|by left|done].
    + rewrite map_app. simpl. by rewrite (proj2 (dedup_run_snoc _ message now)), E.
  - apply finish_inv; [done|done| |by left]. by apply Hr.
Qed.

Lemma pending_reach_inv ids s : pending_reach ids s -> source_inv ids s.
Proof using Type.
  induction 1 as [caps Hn|s s' _ IH Hs]; [|by eapply pending_step_inv]. by apply look_at_caps_inv; [apply start_source_inv|].
Qed.

(** The source of pending transactions outlives the nodes that die.  At any
    moment, whatever its nodes do, it has sent exactly the hashes it took that were
    not duplicates, in order, and as long as it runs it has a node left that is not
    known to be dead.  The death of a node ends it exactly when every other node is
    dead, and its last frame is then the failure that makes the clients go
    elsewhere. *)
Theorem pending_source_lives ids s :
  pending_reach ids s ->
  map feed_id (feeds s) = ids /\
  (finished s = false -> out s = sent_events (taken s) /\ exists f, f ∈ feeds s /\ ~ is_gone f) /\
  (Forall is_gone (feeds s) -> finished s = true /\ out s = sent_events (taken s) ++ [source_failure]) /\
  (forall i f, finished s = false -> feeds s !! i = Some f -> feed_at f = FeedDying ->
     (finished (feed_done i f s) = true <-> forall j g, j <> i -> feeds s !! j = Some g -> is_gone g)).
Proof using Type.
  intros Hinv%pending_reach_inv. pose proof Hinv as [Hi Ha Hr Ho Hs Hm]. split; [done|].
  assert (forall fs, living fs = 0%nat <-> Forall is_gone fs) as Hz.
  { intros fs. unfold living. induction fs as [|f fs IH]; [split; [constructor|done]|]. rewrite filter_cons, Forall_cons, <- IH.
    case_decide as Hg; simpl; [split; [done|by intros [? _]]|]. naive_solver. }
  split_and!.
  - intros Hf. destruct (Hr Hf) as [Hne Eo]. split; [done|]. apply Exists_exists, not_Forall_Exists; [apply _|].
    intros Hall%Hz. lia.
  - intros Hall%Hz. destruct Ho as (tail & Eo & _ & Ht). rewrite Ht in Eo by lia. split; [|done].
    destruct (finished s) eqn:Ef; [done|]. destruct (Hr eq_refl) as [? _]. lia.
  - intros i f Hfin Hf Hd. unfold feed_done.
    pose proof (living_insert (feeds s) i f (mkFeed (feed_id f) FeedGone) Hf) as Hl. rewrite decide_True in Hl by done.
    specialize (Hl ltac:(unfold is_gone; congruence)).
    assert (feedsAlive s - 1 = 0 <-> Forall is_gone (<[i := mkFeed (feed_id f) FeedGone]> (feeds s))) as Hiff
      by (rewrite <- Hz; lia).
    assert (Forall is_gone (<[i := mkFeed (feed_id f) FeedGone]> (feeds s)) <->
            forall j g, j <> i -> feeds s !! j = Some g -> is_gone g) as Hall.
    { rewrite Forall_lookup. split.
      - intros Hg j g Hj Hjg. apply (Hg j g). by rewrite list_lookup_insert_ne.
      - intros Hg j g. destruct (decide (j = i)) as [->|Hj].
        + rewrite list_lookup_insert_eq by (by eapply lookup_lt_Some). by intros [= <-].
        + rewrite list_lookup_insert_ne by done. by apply Hg. }
    rewrite <- Hall, <- Hiff. destruct (feedsAlive s - 1 =? 0) eqn:E; reflect_bool; simpl; [done|]. rewrite Hfin.
    split; [done|lia].
Qed.
End Lives.

(** ** An instance *)

(** The cache as the list of its items. *)
#[local] Instance list_seen : SeenLru := {
  Seen := nat * list (string * Z);
  seen_New n := (n, []);
  seen_Get k c := (find_key k c.2, match find_key k c.2 with Some t => (c.1, (k, t) :: without k c.2) | None => c end);
  seen_Add k t c := (c.1, take c.1 ((k, t) :: without k c.2));
  seen_items c := c.2;
  seen_size c := c.1;
}.
#[local] Instance list_seen_laws : SeenLaws.
Proof.
  split; [done| |done]. intros k [n l]. simpl. by destruct (find_key k l).
Qed.

(** A hash comes three times, the last time after more than 30 seconds. *)
Definition demo_hashes : list (string * Z) := [("0x1", 0); ("0x2", 5); ("0x1", 10); ("0x1", 30000000001)].

Example demo_hashes_sent : sent_flags demo_hashes = [true; true; false; true].
Proof. vm_compute. reflexivity. Qed.

Lemma pending_deduplicated_witness :
  sent_flags demo_hashes !! 2%nat = Some false /\ exists i t, (i < 2)%nat /\ sent_at demo_hashes i "0x1" t.
Proof.
  assert (in_time_order demo_hashes) as Ho.
  { intros [|[|[|[|i]]]] [|[|[|[|j]]]] x y Hij Hx Hy; simpl in *; try done; try lia;
      injection Hx as <-; injection Hy as <-; simpl; lia. }
  destruct (pending_deduplicated demo_hashes 2 "0x1" 10 Ho eq_refl) as [H1 _].
  assert (sent_flags demo_hashes !! 2%nat = Some false) as E by (by rewrite demo_hashes_sent). split; [exact E|].
  destruct (H1 E) as (i & t & Hi & Hs & _). eauto.
Defined.

(** Of two nodes one dies after its first hash. *)
Definition demo_source : PendingSource :=
  let f := mkFeed "up1" FeedReading in
  let s := start_source ["up1"; "up2"] in
  let s := set_feed 0 (mkFeed "up1" (FeedHolding "0x1")) s in
  let s := feed_push 0 (mkFeed "up1" (FeedHolding "0x1")) "0x1" s in
  let s := take_merged 7 s in
  let s := set_feed 0 (mkFeed "up1" FeedDying) s in
  feed_done 0 (mkFeed "up1" FeedDying) s.

Definition pending_notification : WsResponse := mkWsResponse "" "0xsub" "0x1" Ws None "".

Example demo_source_reached : pending_reach ["up1"; "up2"] demo_source.
Proof.
  eapply pending_next; [eapply pending_next; [eapply pending_next; [eapply pending_next; [eapply pending_next;
    [apply (pending_start _ {[PendingTxCap]}); done|]|]|]|]|].
  - by apply (step_feed_read _ 0 (mkFeed "up1" FeedReading) (Some pending_notification)).
  - apply (step_feed_push _ 0 (mkFeed "up1" (FeedHolding "0x1")) "0x1"); [done|done|]. vm_compute. lia.
  - by apply (step_take _ 7).
  - by apply (step_feed_read _ 0 (mkFeed "up1" FeedReading) None).
  - by apply (step_feed_done _ 0 (mkFeed "up1" FeedDying)).
Qed.

Lemma pending_source_lives_witness :
  pending_reach ["up1"; "up2"] demo_source /\ finished demo_source = false /\
  map se_Message (out demo_source) = ["0x1"] /\ exists f, f ∈ feeds demo_source /\ ~ is_gone f.
Proof.
  split; [exact demo_source_reached|].
  destruct (pending_source_lives ["up1"; "up2"] demo_source demo_source_reached) as (_ & Hrun & _).
  assert (finished demo_source = false) as Ef by (by vm_compute). split; [exact Ef|]. split; [by vm_compute|].
  by apply Hrun.
Defined.
