(* ===== verification/FlowSpecs.v ===== *)
(** What sticky and integrity requests guarantee (theorems about the definitions
    of [Processors] and [Flow]). *)

From S2P Require Import Prelude.
From S2P Require Import GoStrings.
From S2P Require Import Protocol.
From S2P Require Import Errors.
From S2P Require Import Responses.
From S2P Require Import Specs.
From S2P Require Import SpecLoading.
From S2P Require Import Methods.
From S2P Require Import UpstreamState.
From S2P Require Import UpstreamLife.
From S2P Require Import Matchers.
From S2P Require Import Strategy.
From S2P Require Import ChainState.
From S2P Require Import ChainSupervisor.
From S2P Require Import Requests.
From S2P Require Import MethodTranslation.
From S2P Require Import Send.
From S2P Require Import Processors.
From S2P Require Import Flow.
From Stdlib Require Import Ascii.

#[local] Arguments String.append !_ _ /.

(** ** Strategies apply the matchers of the request *)

Section Matched.
Context {W : Type} `{LM : Limiters W} `{CH : Chain W} `{MR : MapRange}.

(** The upstream is known to the chain and passes the matchers. *)
Definition passes (matchers : list Matcher) (r : RequestHolder) (w : W) (up : string) : Prop :=
  exists s, upstreamStates (chain_supervisor w) !! up = Some s /\ forall m, m ∈ matchers -> matches m up s = true.

Lemma eligible_passes matchers r w up :
  eligible (supervisor_view (chain_supervisor w)) (request_matchers matchers (selection_request r)) up = true ->
  passes matchers r w up.
Proof using Type.
  unfold eligible, passes. simpl. unfold GetUpstreamState.
  destruct (upstreamStates (chain_supervisor w) !! up) as [s|]; [|done].
  intros (Hm & _)%request_matchers_iff. eauto.
Qed.

Lemma filterUpstreams_passes ids matchers order r w sel f st up :
  filterUpstreams (selection_request r) ids (supervisor_view (chain_supervisor w)) matchers order sel = (f, st) ->
  select_result f = inr up -> passes matchers r w up.
Proof using Type.
  unfold filterUpstreams, select_result. intros Ef. case_bool_decide as Hne; [done|]. intros [= <-].
  apply filter_loop_sound in Ef as [_ Hf]. apply eligible_passes. by apply Hf.
Qed.

Lemma group_loop_passes gs idx matchers order r w reason trace sel up res :
  group_loop gs idx (supervisor_view (chain_supervisor w)) matchers order (selection_request r) reason trace sel = (inr up, res) ->
  passes matchers r w up.
Proof using Type.
  revert idx reason trace sel. induction gs as [|g gs IH]; intros idx reason trace sel; simpl; [done|].
  destruct (filterUpstreams _ g _ _ _ sel) as [f st] eqn:Ef. case_bool_decide as Hne; [apply IH|].
  intros [= <- <-]. eapply filterUpstreams_passes; [exact Ef|]. unfold select_result. by rewrite bool_decide_eq_false_2.
Qed.

Definition strategy_matchers (strategy : UpstreamStrategy) : list Matcher :=
  match strategy with
  | FailingStrategy _ => []
  | GenericStrategy ms _ | SpecificOrderUpstreamStrategy _ ms _ | RatingStrategy _ ms _ | LabelGroupStrategy _ _ ms _ => ms
  end.

Lemma strategy_Select_passes strategy r s w up sw :
  strategy_Select strategy r s w = (inr up, sw) -> passes (strategy_matchers strategy) r w up.
Proof using Type.
  unfold strategy_Select. destruct strategy as [err|ms o|ids ms o|ids ms o|gs pass ms o]; simpl; [done| | | |].
  - unfold GenericStrategy_SelectUpstream. destruct (cv_ids _); [done|].
    destruct (filterUpstreams _ _ _ _ _ _) as [f st] eqn:Ef. intros [= E _]. by eapply filterUpstreams_passes.
  - unfold ListStrategy_SelectUpstream. destruct ids; [done|].
    destruct (filterUpstreams _ _ _ _ _ _) as [f st] eqn:Ef. intros [= E _]. by eapply filterUpstreams_passes.
  - unfold ListStrategy_SelectUpstream. destruct ids; [done|].
    destruct (filterUpstreams _ _ _ _ _ _) as [f st] eqn:Ef. intros [= E _]. by eapply filterUpstreams_passes.
  - unfold LabelGroupStrategy_SelectUpstream. destruct gs as [|g gs]; [done|].
    destruct (group_loop _ _ _ _ _ _ _ _ _) as [res [idx st]] eqn:Eg. intros [= -> _]. by eapply group_loop_passes.
Qed.
End Matched.

(** ** Sticky requests *)

Lemma sticky_body_quoted x h : sticky_body (quoted x) h = Some (quoted (x +:+ h)).
Proof.
  unfold sticky_body.
  assert (go_slice 0 (Z.of_nat (String.length (quoted x)) - 1) (quoted x) = Some (String quote x)) as ->.
  { pose proof (go_slice_mid "" (String quote x) (String quote "")) as E. rewrite <- E. f_equal.
    unfold quoted. simpl. rewrite length_append_str. simpl. lia. }
  simpl. unfold quoted. by rewrite append_assoc_str.
Qed.

Lemma sticky_split x h : String.length h = 5%nat -> x <> "" ->
  sticky_payload (x +:+ h) = Some x /\ sticky_index (x +:+ h) = h.
Proof.
  intros Hh Hx. unfold sticky_payload, sticky_index, maxBytes. rewrite length_append_str.
  assert (0 < String.length x)%nat by (destruct x; [done|simpl; lia]).
  rewrite (proj2 (Z.ltb_lt 5 _)) by lia.
  replace (Z.of_nat (String.length x + String.length h) - 5) with (Z.of_nat (String.length x)) by lia. split.
  - apply (go_slice_mid "" x h).
  - pose proof (go_slice_mid x h "") as E. rewrite append_nil_r in E. by rewrite E.
Qed.

(** What jq does with [.[0]] and the assignment to it on arrays, and that JSON
    encodes such an array so that it decodes again. *)
Class JqLaws `{MP : MethodParsers} : Prop := {
  jq_index_array : forall data v rest, query_Run ".[0]" data = inr v :: rest ->
    v = AnyNil \/ exists l, data = AnyArray (v :: l);
  jq_index : forall v l, query_Run ".[0]" (AnyArray (v :: l)) = [inr v];
  jq_assign : forall x l v, code_Run ".[0] = $newValue" (AnyArray (x :: l)) v = [inr (AnyArray (v :: l))];
  any_roundtrip : forall text x l v, unmarshal_any text = Some (AnyArray (x :: l)) ->
    exists text', marshal_any (AnyArray (AnyString v :: l)) = Some text' /\ text' <> "" /\
      unmarshal_any text' = Some (AnyArray (AnyString v :: l));
}.

(** The methods of the specifications that are sent to the creator: their parser is
    [.[0]], and the one that modifies it is what [fromMethodData] makes of it. *)
Definition sends_first (m : Method) : Prop :=
  IsStickySend m = true /\ parser m = Some (mkJqParser "string" ".[0]") /\ modifyParser m = Some ".[0] = $newValue".

Lemma loaded_sends_first `{SpecLib} d types m st :
  fromMethodData d types = Ok m -> md_TagParser d = Some (mkTagParser "string" ".[0]") ->
  md_Settings d ≫= settings_Sticky = Some st -> SendSticky st = true -> sends_first m.
Proof.
  intros Hm Ht Hst Hs. unfold fromMethodData in Hm. rewrite Ht, Hst in Hm. unfold modify_parser in Hm.
  rewrite Hs in Hm. unfold wrap_error, or_error in Hm. simpl in Hm.
  repeat (case_match; simpl in *; try done). injection Hm as <-. split; [exact Hs|done].
Qed.

(** The first parameter is replaced, and it is what the method reads then. *)
Lemma modified_param `{JqLaws} u m x v :
  jr_spec u = Some m -> sends_first m -> param_of (JsonRpcRequest u) = StringParam x ->
  param_of (JsonRpcRequest (jr_ModifyParams (AnyString v) u)) = StringParam v.
Proof.
  intros Hm (_ & Hq & Hc) Hp. unfold jr_ModifyParams. simpl in Hp. rewrite Hm in Hp |- *.
  destruct (params_any u) as [data|] eqn:Ed; [|done].
  assert (exists l, data = AnyArray (AnyString x :: l)) as [l ->].
  { unfold method_Parse in Hp. rewrite Hq in Hp. simpl in Hp.
    destruct (query_Run ".[0]" data) as [|[err|a] rest] eqn:Er; simpl in Hp; [done..|].
    destruct a as [| | |y| |[|[tp value] es]]; try done. injection Hp as ->.
    by destruct (jq_index_array _ _ _ Er) as [?|?]. }
  unfold method_Modify. rewrite Hc, jq_assign. simpl. unfold params_any in Ed.
  case_bool_decide; [done|]. destruct (any_roundtrip _ _ _ v Ed) as (text & -> & Hne & Ht). simpl.
  rewrite bool_decide_eq_false_2 by done. simpl. unfold params_any. simpl. rewrite bool_decide_eq_false_2, Ht by done.
  unfold method_Parse. rewrite Hq. simpl. by rewrite jq_index.
Qed.

(** The upstreams were numbered by [StartUpstreams]; the states of the chain and the
    answers of the supervisor have the number of an upstream as its index. *)
Definition numbered (names : list string) (id h : string) : Prop :=
  exists n, (id, n) ∈ StartUpstreams names /\ h = upstreamIndexHex n.

Class NumberedUpstreams (W : Type) `{NT : Net W} `{CH : Chain W} (names : list string) : Prop :=
  known_indices : forall (w : W) id us, upstreamStates (chain_supervisor w) !! id = Some us ->
    numbered names id (UpstreamIndex us) /\ numbered names id (net_hashIndex id).

Lemma numbered_same names id id' h : numbered names id h -> numbered names id' h -> id = id'.
Proof.
  intros (n & [i Hi]%list_elem_of_lookup & ->) (n' & [i' Hi']%list_elem_of_lookup & E).
  pose proof (assign_indices_bound 1 names id n ltac:(done) (list_elem_of_lookup_2 _ _ _ Hi)).
  pose proof (assign_indices_bound 1 names id' n' ltac:(done) (list_elem_of_lookup_2 _ _ _ Hi')).
  apply upstreamIndexHex_inj in E as ->; [|lia..].
  apply assign_indices_lookup in Hi as [Hi ->], Hi' as [Hi' E]. assert (i = i') as -> by lia. congruence.
Qed.

Section Sticky.
Context {W : Type} `{NT : Net W} `{LM : Limiters W} `{CH : Chain W} `{FL : FlowExecutorLaws W} `{RT : RpcTags}.
Context `{MR : MapRange} `{JL : JqLaws} `{JS : Json} `{TJ : TranslationJson} (reg : Registry) (names : list string).
Context (NU : NumberedUpstreams W names).

Lemma selected_numbered strategy r up :
  selected_by (W := W) strategy r up ->
  exists index, numbered names up index /\ numbered names up (net_hashIndex up) /\
    forall h, UpstreamIndexMatcher h ∈ strategy_matchers strategy -> index = h.
Proof using NU.
  intros (r' & s & w & sw & _ & Hsel). apply strategy_Select_passes in Hsel as (us & Hus & Hall).
  destruct (known_indices (names := names) w up us Hus) as [Hi Hh]. exists (UpstreamIndex us). split; [done|]. split; [done|].
  intros h Hin. specialize (Hall _ Hin). unfold matches in Hall. simpl in Hall. by case_bool_decide.
Qed.

(** The strategy of a sticky send, and the request it leaves. *)
Lemma sticky_strategy cfg chain predict labels rating view r ms v strategy r1 :
  params_fresh r -> request_IsSubscribe r = false -> SpecMethod r = Some ms -> IsStickySend ms = true ->
  param_of r = StringParam v ->
  createStrategy cfg chain predict labels rating false view r = (strategy, r1) ->
  UpstreamIndexMatcher (sticky_index v) ∈ strategy_matchers strategy /\
  params_fresh r1 /\ param_of r1 = StringParam v /\ same_request r r1.
Proof using Type.
  intros Hf Hsub Hm Hst Hp. unfold createStrategy. destruct (buildSelectorRouting _ _ _) as [matchers order].
  rewrite Hsub, Hm, Hst. simpl. unfold sticky_matchers. pose proof (ParseParams_same r) as Hs.
  destruct (ParseParams r) as [param r0] eqn:Epp. simpl in Hs.
  destruct (ParseParams_spec r param r0 Hf Epp) as (-> & Hf0 & Hp0 & _). rewrite Hp. intros E.
  assert (UpstreamIndexMatcher (sticky_index v) ∈ matchers ++ [UpstreamIndexMatcher (sticky_index v)]) as Hin
    by (apply elem_of_app; right; by left).
  assert (r1 = r0 /\ UpstreamIndexMatcher (sticky_index v) ∈ strategy_matchers strategy) as [-> Hin'].
  { destruct (label_balancing cfg chain); [by injection E as <- <-|]. case_bool_decide; by injection E as <- <-. }
  by rewrite Hp0.
Qed.

(** The request that is sent has the parameter without the index. *)
Lemma strip_sticky_param r ms v x :
  params_fresh r -> SpecMethod r = Some ms -> sends_first ms -> param_of r = StringParam v -> sticky_payload v = Some x ->
  param_of (strip_sticky r) = StringParam x.
Proof using JL.
  intros Hf Hm Hfirst Hp Hpay. unfold strip_sticky. destruct (ParseParams r) as [param r2] eqn:Epp.
  destruct (ParseParams_spec r param r2 Hf Epp) as (-> & _ & Hp2 & _ & _ & Hm2 & _). rewrite Hp, Hpay.
  rewrite Hm in Hm2. destruct r2 as [u|u]; [|by rewrite Hp in Hp2]. simpl in Hm2.
  eapply modified_param; [exact Hm2|done|]. by rewrite Hp2.
Qed.

(** The answer to a creation, and the upstream it came from. *)
Lemma sticky_created strategy mc r s w created w' :
  IsStickySend mc = false -> IsStickyCreate mc = true ->
  Sticky_ProcessRequest reg strategy mc r s w = (Some created, w') -> HasError (Response created) = false ->
  exists answer r' sw, executeUnaryRequest reg strategy r s w = ((inr answer, r'), sw) /\
    UpstreamId created = UpstreamId answer /\ numbered names (UpstreamId created) (net_hashIndex (UpstreamId created)) /\
    sticky_body (ResponseResult (Response answer)) (net_hashIndex (UpstreamId created)) =
      Some (ResponseResult (Response created)).
Proof using NU FL.
  intros Hns Hc. unfold Sticky_ProcessRequest. rewrite Hns, Hc.
  destruct (executeUnaryRequest _ _ _ _ _) as [[[err|answer] r'] [s1 w1]] eqn:E.
  - intros [= <- <-]. by rewrite totalFailureWrapper_HasError.
  - apply executeUnaryRequest_from in E as Hfrom. destruct Hfrom as [_ Hsel].
    destruct (HasError (Response answer)) eqn:He; [intros [= <- <-]; congruence|].
    destruct (sticky_body _ _) as [body|] eqn:Eb; [|done]. simpl. intros [= <- <-] _.
    exists answer, r', (s1, w1). split; [done|]. split; [done|]. simpl. split; [|exact Eb].
    by destruct (selected_numbered _ _ _ Hsel) as (_ & _ & Hh & _).
Qed.

End Sticky.

(** Two upstreams, of which each creates the object [0x7], and a jq that knows [.[0]].  The
    parameters are an array of one string, encoded as the string after one character. *)
#[local] Instance sticky_parsers : MethodParsers := {
  json_valid _ := true;
  unmarshal_any text := match text with String _ v => Some (AnyArray [AnyString v]) | EmptyString => None end;
  marshal_any v := match v with AnyArray [AnyString v] => Some (String "=" v) | _ => None end;
  query_Run _ data := match data with AnyArray (v :: _) => [inr v] | _ => [inl "expected an array"] end;
  code_Run _ data v := match data with AnyArray (_ :: l) => [inr (AnyArray (v :: l))] | _ => [inl "expected an array"] end;
  sprint_any _ := "";
  unmarshal_BlockNumber _ := None;
  unmarshal_BlockNumberOrHash _ := None;
  marshal_request _ _ params := inr params;
}.

#[local] Instance sticky_jq_laws : JqLaws.
Proof.
  split; [|done..|].
  - intros [| | | |[|v l]|] v' rest; simpl; try done. intros [= -> _]. right. by exists l.
  - intros [|c text] x l v; simpl; [done|]. intros [= <- <-]. by eexists.
Qed.

Definition creating_method : Method :=
  mkMethod "eth_newFilter" "" None (Some (mkSticky false true)) [JsonRpcConnector] None None true false false false DispatchDefault.
Definition sticky_method : Method :=
  mkMethod "eth_getFilterChanges" "" None (Some (mkSticky true false)) [JsonRpcConnector] (Some (mkJqParser "string" ".[0]"))
    (Some ".[0] = $newValue") true false false false DispatchDefault.
Definition creating_request : RequestHolder :=
  JsonRpcRequest (mkJsonRpcRequest "1" "1" "eth_newFilter" NoParam "" None (Some creating_method) [] false false false).
Definition sticky_request : RequestHolder :=
  JsonRpcRequest (mkJsonRpcRequest "2" "2" "eth_getFilterChanges" NoParam "=0x700002" None (Some sticky_method) []
    false false false).

#[local] Existing Instance Responses.demo_json.
#[local] Existing Instance Flow.demo_run_once.
#[local] Existing Instance Flow.demo_run_once_laws.
#[local] Existing Instance Flow.demo_tags.
#[local] Existing Instance Flow.demo_translation.

#[local] Existing Instance Prelude.default_range.
#[local] Existing Instance Strategy.no_limiters.

Definition sticky_state (index : string) : UpstreamState :=
  DefaultUpstreamState (mkUpstreamMethods ∅ {["eth_newFilter"; "eth_getFilterChanges"]}) ∅ index None None.

#[local] Instance sticky_net : Net unit := {
  net_upstream id := bool_decide (id ∈ ["up1"; "up2"]);
  net_specName _ := "eth";
  net_connector _ c := bool_decide (c = JsonRpcConnector);
  net_drpc _ := false;
  net_hashIndex id := if bool_decide (id = "up1") then "00001" else "00002";
  net_state id _ := sticky_state (if bool_decide (id = "up1") then "00001" else "00002");
  net_head _ _ := 100;
  net_now _ := 0;
  net_send _ _ r w :=
    (NewSimpleHttpUpstreamResponse (request_Id r)
       (if bool_decide (request_Method r = "eth_newFilter") then quoted "0x7" else "[]") JsonRpc, w);
  net_IncErrors _ w := w;
  net_UpdateLowerBound _ _ w := w;
  net_UpdateHead _ _ _ w := w;
  net_UpdateBlock _ _ _ w := w;
  net_BanMethod _ _ w := w;
}.

#[local] Instance sticky_chain : Chain unit := {
  chain_supervisor _ :=
    set_upstreams {[ "up1" := sticky_state "00001"; "up2" := sticky_state "00002" ]} NewGenericChainSupervisor;
  chain_rr _ := 0;
  set_chain_rr _ w := w;
}.

#[local] Instance sticky_numbered : NumberedUpstreams unit ["up1"; "up2"].
Proof.
  intros [] id us Hus. simpl in Hus.
  apply lookup_insert_Some in Hus as [[<- <-]|[_ [<- <-]%lookup_singleton_Some]].
  - split; exists 1; split; try done; by left.
  - split; exists 2; split; try done; right; by left.
Qed.

(** [up2] creates the object; the later request is sent to it although the rating
    prefers [up1]. *)
Definition creation : option ResponseHolderWrapper * unit :=
  Sticky_ProcessRequest ∅ (SpecificOrderUpstreamStrategy ["up2"; "up1"] [] None) creating_method creating_request
    new_strategy_state tt.

Definition later_strategy : UpstreamStrategy * RequestHolder :=
  createStrategy demo_config "eth" None (fun _ => ∅) (fun _ => ["up1"; "up2"]) false
    (supervisor_view (chain_supervisor tt)) sticky_request.

Example creation_runs : exists created, creation = (Some created, tt) /\ HasError (Response created) = false /\
  UpstreamId created = "up2" /\ ResponseResult (Response created) = quoted "0x700002".
Proof. eexists. vm_compute. by split_and!. Qed.


#[local] Existing Instance Flow.demo_net.
#[local] Existing Instance Flow.demo_chain.
#[local] Existing Instance Flow.demo_parsers.

(** ** Integrity *)

Section Integrity.
Context {W : Type} `{NT : Net W} `{LM : Limiters W} `{CH : Chain W} `{FL : FlowExecutorLaws W} `{RT : RpcTags}.
Context `{MR : MapRange} `{MP : MethodParsers} `{TJ : TranslationJson} `{HU : HexUtil} `{JS : Json} (reg : Registry).

(** The number of the block a response is about. *)
Definition reported_number (h : IntegrityHandler) (response : ResponseHolder) : option Z :=
  match h with
  | NoopIntegrityHandler => None
  | EthBlockNumberHandler => unquoted (ResponseResult response) ≫= DecodeUint64
  | EthGetBlockByNumberHandler =>
    match GetByPath (ResponseResult response) "number" with
    | Some (mkJsonNode V_STRING raw) => DecodeUint64 (default "" (raw ≫= unmarshal_string))
    | _ => None
    end
  end.

Lemma elem_of_sorted (b : Supervisor) f g id :
  id ∈ GetSortedUpstreamIds f g b -> exists s, upstreamStates b !! id = Some s /\ f id s = true.
Proof using Type.
  unfold GetSortedUpstreamIds. intros ([id' s] & -> & Hin)%list_elem_of_fmap.
  rewrite stable_sort_perm in Hin. apply list_elem_of_filter in Hin as [Hf Hin].
  apply elem_of_range in Hin. eauto.
Qed.

(** The handler resends to other upstreams that are ahead of the response. *)
Lemma HandleResponse_resend h param cur b ids block id :
  HandleResponse h param cur b = Some (true, ids, block) -> id ∈ ids ->
  block = None /\ exists n s, reported_number h (Response cur) = Some n /\ upstreamStates b !! id = Some s /\
    id <> UpstreamId cur /\ (n < Height (HeadData s) \/ n < finalized_height s).
Proof using Type.
  assert (forall n, id ∈ head_above (UpstreamId cur) n b \/ id ∈ finalized_above (UpstreamId cur) n b ->
    exists s, upstreamStates b !! id = Some s /\ id <> UpstreamId cur /\ (n < Height (HeadData s) \/ n < finalized_height s)) as Hs.
  { intros n [(s & Hs & Hf)%elem_of_sorted|(s & Hs & Hf)%elem_of_sorted]; exists s; split; try done;
      apply andb_true_iff in Hf as [Hne%negb_true_iff%bool_decide_eq_false Hf]; (split; [done|]).
    - apply andb_true_iff in Hf as [_ Hf]. reflect_bool. by left.
    - reflect_bool. by right. }
  unfold HandleResponse, reported_number. intros E Hin. destruct h.
  - by injection E.
  - destruct (HasError _); [done|]. destruct (unquoted _) as [text|]; [|done]. simpl.
    destruct (DecodeUint64 text) as [n|]; [|done]. destruct (_ <=? n); [done|]. injection E as <- <-.
    split; [done|]. destruct (Hs n) as (s & H1 & H2 & H3); [by left|]. by exists n, s.
  - injection E as E. destruct (_ || _); [done|].
    destruct (GetByPath _ _) as [[[] raw]|]; [done| |done|done].
    destruct (DecodeUint64 _) as [n|]; [|done]. destruct param; try done. destruct (_ =? LatestBlockNumber).
    + destruct (_ <=? n); [done|]. injection E as <- <-. split; [done|].
      destruct (Hs n) as (s & H1 & H2 & H3); [by left|]. by exists n, s.
    + destruct (_ =? FinalizedBlockNumber); [|by destruct (_ <=? n)].
      destruct (_ !! FinalizedBlock); [|done]. destruct (_ <=? n); [done|]. injection E as <- <-. split; [done|].
      destruct (Hs n) as (s & H1 & H2 & H3); [by right|]. by exists n, s.
Qed.
End Integrity.

(** An integrity check returns the first response, or replaces it by the
    response of another upstream which the chain knows to be ahead of the block
    the first response reported: by its head, or by its finalized block for a
    request of the finalized block. *)
Theorem integrity_replaces_by_ahead {W : Type} `{Net W} `{Limiters W} `{Chain W} `{FlowExecutorLaws W} `{RpcTags}
    `{MapRange} `{MethodParsers} `{TranslationJson} `{HexUtil} `{Json} reg h r response (w : W) wr w' :
  integrity_handleResponse reg h r response w = (Some wr, w') ->
  wr = response \/
  exists n s, reported_number h (Response response) = Some n /\
    upstreamStates (chain_supervisor w) !! UpstreamId wr = Some s /\ UpstreamId wr <> UpstreamId response /\
    (n < Height (HeadData s) \/ n < finalized_height s).
Proof.
  unfold integrity_handleResponse. destruct (ParseParams r) as [param r2].
  destruct (HandleResponse h param response (chain_supervisor w)) as [[[resend ids] block]|] eqn:E; [|done].
  destruct (negb resend || bool_decide (ids = [])) eqn:Eb; [intros [= <- <-]; by left|].
  apply orb_false_iff in Eb as [->%negb_false_iff _].
  destruct (executeUnaryRequest _ _ _ _ _) as [[[err|wr1] r3] [s3 w3]] eqn:Ex; [intros [= <- <-]; by left|].
  apply executeUnaryRequest_from in Ex as [_ Hsel]. apply selected_by_list in Hsel; [|done].
  destruct (HandleResponse h param wr1 _) as [[[? ?] ?]|]; [|done]. intros [= <- <-]. right.
  by destruct (HandleResponse_resend _ _ _ _ _ _ _ E Hsel) as [_ Hr].
Qed.

(** The chain is at height 100 and the first response says 50. *)
Definition integrity_net : Net unit := {|
  net_upstream _ := true;
  net_specName _ := "eth";
  net_connector _ c := bool_decide (c = JsonRpcConnector);
  net_drpc _ := false;
  net_hashIndex _ := "00001";
  net_state _ _ := demo_state;
  net_head _ _ := 100;
  net_now _ := 0;
  net_send _ _ r w := (NewSimpleHttpUpstreamResponse (request_Id r) (quoted "0x64") JsonRpc, w);
  net_IncErrors _ w := w;
  net_UpdateLowerBound _ _ w := w;
  net_UpdateHead _ _ _ w := w;
  net_UpdateBlock _ _ _ w := w;
  net_BanMethod _ _ w := w;
|}.

Definition integrity_chain : Chain unit := {|
  chain_supervisor _ :=
    let st := sup_state NewGenericChainSupervisor in
    set_state (mkChainState (cs_Status st) (NewChainHeadData (NewBlockWithHeight 100) "up1") (cs_Methods st) (cs_Blocks st)
      (cs_LowerBounds st) (cs_ChainLabels st) (cs_SubMethods st) (cs_Caps st))
      (set_upstreams {[ "up1" := demo_state ]} NewGenericChainSupervisor);
  chain_rr _ := 0;
  set_chain_rr _ w := w;
|}.

Definition integrity_hex : HexUtil := fun s => if bool_decide (s = "0x64") then Some 100 else Some 50.

Definition stale_response : ResponseHolderWrapper :=
  empty_wrapper "up0" "id1" (NewSimpleHttpUpstreamResponse "id1" (quoted "0x32") JsonRpc).

Definition integrity_run : option ResponseHolderWrapper * unit :=
  integrity_handleResponse (NT := integrity_net) (CH := integrity_chain) (HU := integrity_hex) ∅ EthBlockNumberHandler
    demo_quorum_request stale_response tt.

Definition fresh_response : ResponseHolderWrapper :=
  mkWrapper "up1" "id1" "" None ZeroBlock (NewSimpleHttpUpstreamResponse "id1" (quoted "0x64") JsonRpc).

Example integrity_run_fresh : integrity_run = (Some fresh_response, tt).
Proof. vm_compute. reflexivity. Qed.

Example stale_response_number :
  reported_number (HU := integrity_hex) EthBlockNumberHandler (Response stale_response) = Some 50.
Proof. vm_compute. reflexivity. Qed.

Lemma integrity_replaces_by_ahead_witness :
  integrity_run = (Some fresh_response, tt) /\
  exists s, upstreamStates (chain_supervisor (Chain := integrity_chain) tt) !! UpstreamId fresh_response = Some s /\
    (50 < Height (HeadData s) \/ 50 < finalized_height s).
Proof.
  split; [exact integrity_run_fresh|].
  destruct (integrity_replaces_by_ahead (H := integrity_net) (H1 := integrity_chain) (H8 := integrity_hex)
    ∅ EthBlockNumberHandler demo_quorum_request stale_response tt fresh_response tt integrity_run_fresh)
    as [E|(n & s & Hn & Hs & _ & Ha)]; [discriminate (f_equal UpstreamId E)|].
  rewrite stale_response_number in Hn. injection Hn as <-. by exists s.
Defined.
