(* ===== verification/ServerFlow.v ===== *)
(** The server on top of the flow, and the flow on top of the connectors: the
    promises the parts make to each other, discharged by their models. *)

From S2P Require Import Prelude.
From S2P Require Import GoStrings.
From S2P Require Import Protocol.
From S2P Require Import Errors.
From S2P Require Import Responses.
From S2P Require Import Specs.
From S2P Require Import UpstreamState.
From S2P Require Import Matchers.
From S2P Require Import Strategy.
From S2P Require Import ChainState.
From S2P Require Import ChainSupervisor.
From S2P Require Import Config.
From S2P Require Import Quorum.
From S2P Require Import Requests.
From S2P Require Import HttpConnector.
From S2P Require Import MethodTranslation.
From S2P Require Import Send.
From S2P Require Import HttpServer.
From S2P Require Import Dispatch.
From S2P Require Import Processors.
From S2P Require Import Flow.

(** ** The network is made of connectors *)

(** Every response of the network is what an HTTP connector or a websocket
    connector made of some answer, for that very request. *)
Definition made_of_connectors {W : Type} `{Net W} `{MapRange} `{Json} `{MethodParsers} `{Hashing} `{Quoting} `{UrlLib}
    : Prop :=
  forall up c r (w : W),
    (exists (V : Type) (client : HttpClient V) quorum canStream h (v v' : V),
       SendRequest quorum canStream h r v = (Some (net_send up c r w).1, v')) \/
    exists answer, (net_send up c r w).1 = ws_SendRequest r answer.

Lemma ws_response_id r answer : response_Id (ws_SendRequest r answer) = request_Id r.
Proof. by destruct answer as [err|[message error]]. Qed.

Lemma connectors_tag {W : Type} `{Net W} `{MapRange} `{Json} `{MethodParsers} `{Hashing} `{Quoting} `{UrlLib} :
  made_of_connectors (W := W) -> net_tags (W := W).
Proof.
  intros Hm up c r w. destruct (Hm up c r w) as [(V & client & q & cs & h & v & v' & E)|[answer ->]].
  - by eapply SendRequest_id.
  - apply ws_response_id.
Qed.

(** C7.  The flow answers a request with a response that carries the request's own
    id, in the wrapper and in the response itself, whatever the strategy, the
    processor, the retries, the translation of the method and the order in which
    upstreams answer, when the network is made of the connectors. *)
Theorem flow_answers_own_request {W : Type} `{Net W} `{Limiters W} `{Chain W} `{FlowExecutorLaws W} `{Client W}
    `{ResponseCache W} `{RpcTags} `{MapRange} `{MethodParsers} `{TranslationJson} `{HexUtil} `{Json} `{Quoting}
    `{FirstParam} `{Crypto} `{Folding} `{SliceSort} `{HeaderErrors} `{Hashing} `{UrlLib}
    reg specName chainId netVersion cfg chain settings predict labels rating quorum keys r (w : W) wr w' :
  made_of_connectors (W := W) ->
  answers reg specName chainId netVersion cfg chain settings predict labels rating quorum keys r w wr w' ->
  RequestId wr = request_Id r /\ response_Id (Response wr) = request_Id r.
Proof.
  intros Hm [Hid Ht]%answers_tagged. split; [done|]. by apply Ht, connectors_tag.
Qed.

(** ** The flow keeps its promise to the server *)

Section Promise.
Context {W : Type} `{NT : Net W} `{LM : Limiters W} `{CH : Chain W} `{FL : FlowExecutorLaws W} `{CL : Client W}.
Context `{RC : ResponseCache W} `{RT : RpcTags} `{MR : MapRange} `{MP : MethodParsers} `{TJ : TranslationJson}.
Context `{HU : HexUtil} `{JS : Json} `{QU : Quoting} `{FP : FirstParam}.
Context `{CR : Crypto} `{FO : Folding} `{SS : SliceSort} `{HE : HeaderErrors} `{HA : Hashing} `{UL : UrlLib}.
Context (reg : Registry) (specName chainId netVersion chainName : Z -> string) (cfg : UpstreamConfig)
  (settings : Z -> ChainTags) (predict : option PredictView) (labels : string -> gset string)
  (rating : Z -> string -> list string) (quorum : option Params) (keys : option (gmap string PublicKey)).
Context (connected : made_of_connectors (W := W)).

(** The server's [Execution], by the flow of the chain, in some world. *)
#[refine] Instance flow_execution : Execution := {|
  HttpServer.answered c r wr := exists w w',
    answers reg (specName c) (chainId c) (netVersion c) cfg (chainName c) (settings c) predict labels (rating c) quorum keys
      r w wr w';
|}.
Proof.
  - intros c r wr (w & w' & [_ Ht]%answers_tagged). by apply Ht, connectors_tag.
  - intros c r wr (w & w' & [Hid _]%answers_tagged). exact Hid.
Defined.
End Promise.

(** ** A flow over a websocket *)

#[local] Existing Instance Responses.demo_json.
#[local] Existing Instance Quorum.demo_crypto.
#[local] Existing Instance Quorum.demo_folding.
#[local] Existing Instance Quorum.demo_sort.
#[local] Existing Instance Dispatch.demo_quoting.
#[local] Existing Instance Flow.demo_chain.
#[local] Existing Instance Flow.demo_run_once.
#[local] Existing Instance Flow.demo_run_once_laws.
#[local] Existing Instance Flow.demo_client.
#[local] Existing Instance Flow.demo_tags.
#[local] Existing Instance Flow.demo_parsers.
#[local] Existing Instance Flow.demo_translation.
#[local] Existing Instance Flow.demo_hex.
#[local] Existing Instance Flow.demo_first_param.
#[local] Existing Instance Flow.demo_header_errors.

#[local] Instance ws_net : Net unit := {
  net_upstream id := bool_decide (id = "up1");
  net_specName _ := "eth";
  net_connector _ c := bool_decide (c = JsonRpcConnector);
  net_drpc _ := false;
  net_hashIndex _ := "00001";
  net_state _ _ := demo_state;
  net_head _ _ := 100;
  net_now _ := 0;
  net_send _ _ r w := (ws_SendRequest r (inr ("7", None)), w);
  net_IncErrors _ w := w;
  net_UpdateLowerBound _ _ w := w;
  net_UpdateHead _ _ _ w := w;
  net_UpdateBlock _ _ _ w := w;
  net_BanMethod _ _ w := w;
}.
#[local] Instance no_cache : ResponseCache unit := { cache_Receive _ w := (None, w); cache_Store _ _ w := w }.
#[local] Instance sample_hashing : Hashing := { blake2b s := s; encode_query _ := "" }.
#[local] Instance sample_url : UrlLib := {
  URL := string; url_Parse s := Some s; url_Query _ := ∅; set_RawQuery q u := u; url_String u := u;
  url_ParseQuery _ := None }.

Definition ws_answer : ResponseHolderWrapper :=
  mkWrapper "up1" "id1" "" None ZeroBlock (WsJsonRpcResponse "id1" "7" None).

#[local] Existing Instance Prelude.default_range.
#[local] Existing Instance Strategy.no_limiters.

Lemma ws_answered :
  answers ∅ "eth" "0x1" "1" demo_config "eth" (mkChainTags None None) None (fun _ => ∅) (fun _ => ["up1"])
    None None demo_quorum_request tt ws_answer tt.
Proof.
  refine (answers_processed _ _ _ _ _ _ _ _ _ _ None None demo_quorum_request tt demo_method
    (RatingStrategy ["up1"] [] None) demo_quorum_request ws_answer tt _ _ _ _); [done|by vm_compute|done|].
  refine (processes_cache_miss _ _ _ _ _ _ _ _ _ _ _ _ _ _ _); [done|done|].
  apply processes_unary. by vm_compute.
Qed.

Lemma flow_answers_own_request_witness :
  RequestId ws_answer = "id1" /\ response_Id (Response ws_answer) = "id1".
Proof.
  refine (flow_answers_own_request ∅ "eth" "0x1" "1" demo_config "eth" (mkChainTags None None) None (fun _ => ∅)
    (fun _ => ["up1"]) None None demo_quorum_request tt ws_answer tt _ ws_answered).
  intros up c r w. right. exists (inr ("7", None)). reflexivity.
Defined.
